(* ===== verification/_CoqProject ===== *)
-Q . S2P
Prelude.v
Cursor.v
Format.v
Identity.v
Placement.v
Disk.v
Checkpoint.v
Wal.v
WalFrames.v
WalReplay.v
WalReader.v
Memtable.v
Segment.v
SegmentBlock.v
SegmentLookup.v
SegmentFile.v
SegmentQueries.v
SegmentProps.v
SegmentScan.v
Cache.v
CacheProps.v
Handles.v
Kom.v
Codec.v
CodecProps.v
Store.v
Encrypted.v
Repository.v
RepositorySpec.v
RepositoryReads.v
RepositoryRebuild.v
RepositoryProps.v
Commit.v
CommitInv.v
CommitOps.v
CommitRun.v
Epistemic.v
CommitTxn.v
CommitProps.v
CommitEdges.v
CommitWitness.v
Auth.v
AuthProps.v
Compaction.v
CompactionMerge.v
CompactionProps.v
DbState.v
Db.v
DbOpen.v
DbRead.v
DbLayers.v
DbWp.v
DbInv.v
DbRecover.v
DbFlush.v
DbWrite.v
DbCompact.v
DbProps.v
DbScan.v
DbLog.v
DbReplica.v
DbFaults.v
Engine.v
Expr.v
Schema.v
Constraint.v
Ontology.v
Remember.v
RememberProps.v
Conformance.v
RememberWitness.v
SchemaCodec.v
Transact.v
TransactProps.v
TransactWitness.v
Ops.v
Lease.v
Sweep.v
Verify.v
OpsWitness.v
