(* ===== verification/Prelude.v ===== *)
(** * AIKOQL: a verification development of its storage engine and knowledge kernel

    This library models and verifies two layers of AIKOQL.  The storage engine, the crate
    src/crates/storage/aikoql-v2 (file names without a directory below are in its src/): a
    log-structured store with a write-ahead log, a memtable, immutable segments, compaction,
    identity, replica and placement directories, and crash recovery.  And the write path of
    the kernel, the crate src/crates/kernel (its files are written kernel/...): the knowledge
    object model, the row codec, the engine trait with its in-memory and encrypting
    implementations, the repository with its cache and indexes, schemas, constraints and
    ontologies, the admission of writes and transactions, and the commit pipeline with its
    hash-chained journal.

    ** The parts and how they interact

    A write is assigned a sequence number, encoded as one WAL frame, appended and synced, and
    applied to the active memtable and the directories (db.rs).  A flush rotates the memtable,
    publishes it as a segment, publishes the pending directory deltas, the manifest and
    CURRENT, and truncates the WAL.  A compaction merges the segments into new ones and
    relocates the placements.  Reads look at the memtables, newest first, then at the
    segments, newest first.  Opening reads CURRENT, the manifest, the newest checkpoint, the
    delta logs and the segments, and replays the WAL.

    The kernel sits on an engine trait (a byte map with atomic batches and ordered scans)
    that the storage engine implements through an adapter.  The repository turns objects,
    heads, events and indexes into rows of such an engine; the pipeline stamps each version
    with a hybrid clock, chains its event to the journal by hash, and writes the version, the
    head, the indexes, the event and the journal head in one batch.  In front of it,
    [remember] (one object) and [transact] (several) resolve the heads, check versions,
    permissions, extensions, schemas, constraints, uniqueness and the ontology, and build the
    versions to commit.

    ** Files

    - Prelude: byte strings, little-endian integers, machine widths, the [Result] type with
      the error classes of format.rs, lists indexed by Z, shared tactics and lemmas.
    - Cursor: format.rs, [Cursor]; decoders as a state-and-error monad, with the predicates
      [reads] (an encoding reads back) and [exact] (only an encoding decodes).
    - Format: format.rs; CURRENT, the manifest and [chain_extend].  SHA-256 is the class
      [Sha256] (a 32-byte digest of every byte string; nothing else is assumed of it), since
      its code is in another crate.
    - Identity: identity/*.rs; the id types and the identity and replica delta logs.
    - Placement: placement/directory.rs; placements, the generation gate, the delta log.
    - Disk: the database directory as a map from file names to contents; the delta-log loaders
      of identity/directory.rs and placement/directory.rs.
    - Checkpoint: checkpoint.rs; codec, selection, coverage validation, prune; the merge rules
      of db.rs.
    - Wal, WalFrames, WalReplay, WalReader: wal.rs; frames, the in-memory replay, and the
      bounded-memory reader replay.
    - Memtable: memtable.rs.
    - Segment, SegmentBlock, SegmentLookup, SegmentFile, SegmentQueries, SegmentProps, SegmentScan:
      segment.rs; the writer (four block formats, prefix compression with restarts, run-head
      splices, dense tables, bloom filter, anchors) and the reader.
    - Compaction, CompactionMerge, CompactionProps: compaction.rs.
    - DbState, Db, DbOpen: db.rs; the state, the operations (flush, checkpoint, compaction,
      writes, group commit, objects, reads) in a monad over the state, the directory and the
      WAL file, and [Db::open].
    - DbRead: db.rs; the batch lookup and the prefix scan, and the equivalence of the batch
      lookup with the point lookup.
    - DbLayers: what a stack of segments and frames holds, newest layer first, and the map it
      represents.
    - DbWp: weakest preconditions for the database monad, with the state left at an error; and
      what a loss of power leaves of the WAL ([crashes]): [covered] programs end synced and
      leave at an error only what a crash of the process may leave too.
    - DbInv, DbRecover, DbFlush, DbWrite, DbCompact: the invariant of the byte histories and
      its preservation by open, rotation and flush, writes and group commit, compaction.  The
      proofs are against an interface ([Spec], [Track], [TrackLaws]) that the map and the
      history implement.
    - DbProps: the database as a transition system with crashes, and its theorems.
    - DbScan: the merge of the layer streams, and the scan theorems.
    - DbLog, DbReplica: the replication log of db.rs; the history of batches that
      archive, WAL and segments hold; a leader and a follower, and their theorems.
    - DbFaults: runs outside those histories, where the code loses data.
    - Cache, CacheProps: cache.rs and its use in segment.rs; the shared block
      cache, its lazily cleaned heap of stamps, and the LRU list it is equivalent to.
    - Handles: placement/handles.rs; the registry of physical handles.
    - Kom: kernel/knowledge/kom.rs, kernel/lifecycle/manager.rs; identifiers, objects,
      events, errors, the lifecycle and epistemic machines.
    - Codec, CodecProps: kernel/knowledge/codec.rs; the coder of objects and events.
    - Store: kernel/storage/store.rs; the engine trait as the class [StorageEngine], what it
      promises as the class [EngineLaws] (the byte map an engine [holds], when it is [ready]
      for a batch and a prefix [scannable]), and the in-memory engine as an instance.
    - Encrypted: kernel/storage/encrypted.rs, kernel/security/crypto.rs; an instance over any
      other instance.  Engine: engine.rs; the storage engine as an instance.
    - Repository, RepositorySpec, RepositoryReads, RepositoryRebuild, RepositoryProps:
      kernel/storage/repository.rs and cache.rs; the rows, the contract (a
      map from typed names to typed rows), the refinement, the rebuild of the indexes.  All
      of it is against [EngineLaws].
    - Commit, CommitInv, CommitOps, CommitRun, CommitTxn, CommitProps,
      CommitEdges, CommitWitness: kernel/transaction/kernel.rs (with
      kernel/security/tenant.rs and kernel/object/mod.rs); the operations of the pipeline in a
      state-and-error monad, the audit chain, the invariant of the journal, its preservation
      by each operation, the verification of a journal, the relationship index.
    - Epistemic: the epistemic status, its history, the validity interval and the transition of
      kernel/knowledge/kom.rs and kernel/transaction/kernel.rs.
    - Auth, AuthProps: kernel/security/auth.rs; loading of roles and policies, the decision.
      The pipeline takes the decision as an argument ([authorize]); [Auth.authorize] is it.
    - Expr: the values of kernel/knowledge/kom.rs (floats at their bits) and the check
      expressions over them.
    - Schema, Constraint: schemas of kernel/knowledge/kom.rs and
      kernel/lifecycle/schema.rs, the evaluation of constraints of
      kernel/lifecycle/constraint.rs.  The regular expressions are the class [Regex], since
      their code is in another crate.
    - SchemaCodec: the schema rows of kernel/knowledge/codec.rs, and their
      registration and loading in kernel/transaction/kernel.rs.
    - Ontology: kernel/knowledge/ontology.rs; the definition, its storage form,
      validation, and the registry.
    - Remember, RememberProps, Conformance, RememberWitness:
      [remember] of kernel/transaction/kernel.rs, with kernel/knowledge/authority.rs and
      scope.rs; its checks, its commit, and the conformance of the store to its schemas.
    - Transact, TransactProps, TransactWitness: [transact] of
      kernel/transaction/kernel.rs, and kernel/transaction/kernel/txn.rs; the phases, the
      deferred constraints, the recorded outcomes, begin, stage and commit.
    - Ops: kernel/transaction/kernel/ops.rs, with the evidence, confidence and invalidation
      records of kernel/knowledge/evidence.rs and kom.rs; observing, ingesting, asserting,
      verifying, contradicting, invalidating and the task leases, composed of [remember_locked]
      and [transition_epistemic].  Lease, Sweep, Verify: their theorems; OpsWitness: runs.
      The sweep of an invalidation has fuel, one step per root and stored edge.

    ** Modelling conventions

    Integers are Z with their width written out ([as_u16], [as_u32], [is_u64]); a cast that
    truncates is modelled as the truncation.  Errors are values of [Result], and an error of
    [M] keeps the state changed before it, as the question mark operator does.  A panic is an
    [Err] that the theorems exclude.  [HashMap] and [HashSet] are gmap and gset; a [BTreeMap] is an association
    list in key order; the binary heap is a list in pop order.  File-system writes take their
    outcome from a list ([IoOutcome]); a crash at a write is the directory and WAL that a
    failure there leaves.  [publish_atomic] is one durable step, since it syncs the file and
    its directory (its temporary file is never read); a removal stays done.  The WAL file is
    written in place, so what a loss of power leaves of it is modelled: [IoEnv] keeps what was
    last synced and the appends and truncations since, [wal_sync] empties the latter, and
    [power_loss] is the synced content with any number of them and a cut of the next.  What a
    crash left counts as on the disk once the database is open again.

    Loops that are not structural carry fuel that is proved enough: the WAL loops run at most
    [S (length file)] times since a frame has at least 31 bytes, the block walk likewise since a
    block has at least 28, the restart search halves its interval, the interval scan consumes
    a byte per entry, and the merge loop and the run drain consume a row per round.  Every
    theorem that says a result is returned has that bound discharged.

    ** What the theorems show

    - Codecs: CURRENT, manifest, identity and replica logs and WAL frames decode exactly the
      encodings of well-formed values; placement logs, checkpoints and segments round-trip.
    - WAL: replay returns exactly the frames written, a torn append is dropped, damage is
      refused, and the bounded-memory replay is the in-memory one.
    - Memtable: refinement of the flat (key, sequence) map, reads, order, accounting.
    - Segments: totality of publication, round trip, and correctness of every read.
    - Compaction: the output is the surviving rows, reads are preserved, relocations exact.
    - Directories: the generation gate converges, a checkpoint and any part of its prune
      preserve the directories, the coverage validator accepts exactly the complete set.
    - Database: over histories of byte writes, group commits, rotations, flushes and
      compactions with a crash at any write, a kill at any point and crashes during recovery,
      each of which is a loss of power where the mode syncs ([lost]), the database refines a map: an acknowledged command has its effect, a crashed batch all
      or none of it, a crashed group a prefix of its batches.  Commands whose sizes fit
      succeed, every crash state opens, and the state invariant holds throughout.  The
      hypotheses on a command ([cmd_ready]) are the widths of the formats and that no cut of
      its frame contains another frame.  Compaction is left to the compactor ([cfg_ok]).
    - Reads: a batch lookup is the point lookup of each key; a prefix scan lists exactly the
      map's entries under the prefix, in order, and what happens for a prefix whose increment
      carries.
    - Replication: of a database that retains its log and is not compacted, the log serves
      the history of its batches from every sequence on, and a follower that applies what is
      served holds a prefix of that history whatever is delivered in whatever order, whoever
      crashes and whatever is released; it is served its next frame as long as it is behind.
      Compaction and a failed write in a process that goes on are where the log breaks.
    - Faults: a flush that fails in a process that goes on, a read or a write between the
      phases of a flush, and an append that fails half way, each losing or hiding
      acknowledged data in a concrete run; a loss of power in Async mode, and one after a
      recovery that has synced nothing.
    - Cache and handles: the block cache is an LRU list within its bounds, its eviction loop
      ends, reads through it are reads of the file; a handle means one place.
    - Engines: the encrypting store and the storage engine answer as the in-memory engine.
    - Kernel data: the lifecycle ends, objects and events round-trip through their rows, the
      slim decoder agrees with the full one.  Identifiers grow over the sessions of a kernel
      as long as none is of a later millisecond than the newest commit when its session ends;
      otherwise one can come back ([lagging_clock_reissues]).
    - Repository: it refines the map of typed rows; the snapshot read is the newest version;
      a rebuild makes the indexes the image of the heads; where its cache goes stale.
    - Pipeline: over any run from an empty store, restarts and refused operations included,
      [prove] accepts the journal and counts exactly the events broadcast; a commit is what
      the next read returns; an erasure leaves nothing but a tombstone; the chain is tamper
      evident; the relationship index follows the head when edges are distinct.  The
      hypotheses on an operation ([op_fits]) are the widths of the rows, room in the counters
      and an engine ready for its batch.
    - Epistemic status: a transition succeeds if and only if the head may move, and what it
      leaves of every part of the object.
    - Authorization: the decision is the declarative rule (tenant confinement, ownership,
      administrators, lists and policies with denial first, inherited roles); the loaded
      roles and policies are what the role and policy objects at the heads declare, the
      greatest identifier deciding.  A subject named admin is an administrator, as in the
      code and unlike its comment.
    - Schemas: a well-typed check expression does not fail on a validated object, except by
      arithmetic; schema rows round-trip in both layouts; a reopened kernel has the schemas
      registered; evaluating the constraints a write touches is evaluating all of them.
    - Ontology: the subclass walk is inheritance; an ontology is read back as it was stored.
    - Writes: [remember] is all or nothing, keeps what the kernel manages, and never rewrites
      evidence or provenance; after any operations every object has its schema's shape and
      no enforced unique key is shared ([keeps_type]: updates keep the type, and see the
      departures for what happens otherwise).
    - Transactions: all or nothing over the batch, once per identifier whatever was written
      since, first committer wins.
    - Knowledge operations: a lease that runs stays with its holder whatever others do, and
      what a claim does on every branch; a verified object carries its evidence, confidence
      and event; the sweep of an invalidation ends at exactly the supported dependents, where
      no relationship type holds a slash ([edge_rows]).  The hypotheses [task_fits], [verify_fits], [stamps_fit] say that the rows of each commit fit
      the formats, at the states the operation goes through.

    ** Not modelled

    stats.rs (it does not change an answer), legacy_envelope.rs and migration.rs (import of an
    older format), snapshot.rs, fuzz.rs (test entry points), lock files, thread scheduling of
    the committer and the compactor (their step functions are modelled and composed
    sequentially), and with it the commit gate, the backpressure and the stale mark of a
    compaction; the check of the manifest that only a debug build makes in a flush.  The
    directory holds parsed file names: two spellings of one checkpoint's name are one file.
    Version 0 in a transaction is a panic, as in a checked build; a release build wraps.  Of the kernel: the text parser of check expressions, field encryption,
    supersession, merging, splitting, conflict resolution and the experience operations of
    ops.rs, jobs, queries and vector indexes.  The crates above the
    kernel.

    ** Plan

    Next: supersession, merging and conflict resolution (their parts, the transition and the
    sweep, are in place); the object surface at the database level and snapshots of the storage engine.
*)

From Stdlib Require Export ZArith Lia List Strings.Byte Sorted.
From stdpp Require Export base list numbers option strings gmap.

#[global] Open Scope Z_scope.
#[global] Set Default Goal Selector "!".

(* ------------------------------------------------------------------ *)
(** * Errors and results *)

(** [enum FormatError]: the classes callers branch on.  The carried string is
    the literal part of the source's message (interpolated numbers elided). *)
Inductive FormatError : Type :=
  | Corrupt (m : string)
  | Unsupported (m : string)
  | Io (m : string)
  | Invalid (m : string)
  | Locked (m : string)
  | Stale (m : string).

(** [Result<A, FormatError>]. *)
Inductive Result (A : Type) : Type :=
  | Ok (a : A)
  | Err (e : FormatError).
Arguments Ok {_} _.
Arguments Err {_} _.

(** The [?] operator: the error leaves, the value goes on. *)
#[global] Instance Result_ret : MRet Result := fun A a => Ok a.
#[global] Instance Result_bind : MBind Result := fun A B f m =>
  match m with Ok a => f a | Err e => Err e end.

Definition is_ok {A} (r : Result A) : bool :=
  match r with Ok _ => true | Err _ => false end.

Lemma bind_Ok_inv {A B} (m : Result A) (f : A -> Result B) b :
  (m ≫= f) = Ok b -> exists a, m = Ok a /\ f a = Ok b.
Proof. destruct m; cbn; [eauto | discriminate]. Qed.

Lemma Ok_inj {A} (a b : A) : Ok a = Ok b -> a = b.
Proof. congruence. Qed.

Lemma is_ok_true {A} (r : Result A) : is_ok r = true <-> exists a, r = Ok a.
Proof. destruct r; cbn; split; intros H; eauto; try discriminate. by destruct H. Qed.

Lemma is_ok_false {A} (r : Result A) : is_ok r = false <-> exists e, r = Err e.
Proof. destruct r; cbn; split; intros H; eauto; try discriminate. by destruct H. Qed.

(** A stateful loop body [for x in xs { s = f(s, x)? }]. *)
Fixpoint fold_result {S X} (f : S -> X -> Result S) (s : S) (xs : list X) : Result S :=
  match xs with
  | [] => Ok s
  | x :: xs => s' ← f s x; fold_result f s' xs
  end.

Lemma fold_result_app {S X} (f : S -> X -> Result S) s xs ys :
  fold_result f s (xs ++ ys) = (s' ← fold_result f s xs; fold_result f s' ys).
Proof.
  revert s. induction xs as [|x xs IH]; intros s; cbn; [done|].
  destruct (f s x); cbn; [apply IH | done].
Qed.

(** [Iterator::collect::<Result<Vec<_>, _>>] over a fallible map. *)
Fixpoint collect_result {X Y} (f : X -> Result Y) (xs : list X) : Result (list Y) :=
  match xs with
  | [] => Ok []
  | x :: xs => y ← f x; ys ← collect_result f xs; Ok (y :: ys)
  end.

(* ------------------------------------------------------------------ *)
(** * Tactics *)

(** Case on a boolean or decidable test of the goal or of a hypothesis. *)
Ltac case_test :=
  match goal with
  | |- context [if ?b then _ else _] => destruct b eqn:?
  | H : context [if ?b then _ else _] |- _ => destruct b eqn:?
  end.

(** Peel one [?] of a successful computation. *)
Ltac ok_step :=
  match goal with
  | H : Ok _ = Ok _ |- _ => injection H as H
  | H : Err _ = Ok _ |- _ => discriminate H
  | H : Ok _ = Err _ |- _ => discriminate H
  | H : mret _ = Ok _ |- _ => injection H as H
  | H : (_ ≫= _) = Ok _ |- _ =>
      let a := fresh "a" in let Ha := fresh "Ha" in
      apply bind_Ok_inv in H as (a & Ha & H)
  | H : (if ?b then Err _ else _) = Ok _ |- _ =>
      let E := fresh "E" in destruct b eqn:E; [discriminate H|]
  | H : (if ?b then _ else Err _) = Ok _ |- _ =>
      let E := fresh "E" in destruct b eqn:E; [|discriminate H]
  end.
Ltac ok_inv := repeat (ok_step; simplify_eq).

Ltac bool_to_prop :=
  repeat match goal with
  | H : (_ <? _) = true |- _ => apply Z.ltb_lt in H
  | H : (_ <? _) = false |- _ => apply Z.ltb_ge in H
  | H : (_ <=? _) = true |- _ => apply Z.leb_le in H
  | H : (_ <=? _) = false |- _ => apply Z.leb_gt in H
  | H : (_ =? _) = true |- _ => apply Z.eqb_eq in H
  | H : (_ =? _) = false |- _ => apply Z.eqb_neq in H
  | H : (_ && _) = true |- _ => apply andb_true_iff in H as [? ?]
  | H : (_ || _) = false |- _ => apply orb_false_iff in H as [? ?]
  | H : negb _ = true |- _ => apply negb_true_iff in H
  | H : negb _ = false |- _ => apply negb_false_iff in H
  | H : bool_decide _ = true |- _ => apply bool_decide_eq_true in H
  | H : bool_decide _ = false |- _ => apply bool_decide_eq_false in H
  end.

(* ------------------------------------------------------------------ *)
(** * Machine integers *)

Definition U8 : Z := 2 ^ 8.
Definition U16 : Z := 2 ^ 16.
Definition U32 : Z := 2 ^ 32.
Definition U64 : Z := 2 ^ 64.
(** [usize::MAX + 1] on the 64-bit targets the crate is built for. *)
Definition USIZE : Z := 2 ^ 64.

Definition is_u8 (z : Z) : Prop := 0 <= z < U8.
Definition is_u16 (z : Z) : Prop := 0 <= z < U16.
Definition is_u32 (z : Z) : Prop := 0 <= z < U32.
Definition is_u64 (z : Z) : Prop := 0 <= z < U64.

(** [usize::checked_add]. *)
Definition checked_add (a b : Z) : option Z := if a + b <? USIZE then Some (a + b) else None.
(** [x as u16], [x as u32]: truncation. *)
Definition as_u16 (z : Z) : Z := z mod U16.
Definition as_u32 (z : Z) : Z := z mod U32.

Lemma as_u32_small z : is_u32 z -> as_u32 z = z.
Proof. intros. by apply Z.mod_small. Qed.
Lemma as_u16_small z : is_u16 z -> as_u16 z = z.
Proof. intros. by apply Z.mod_small. Qed.

(** Lengths are compared and stored as integers of the machine. *)
Definition zlen {A} (l : list A) : Z := Z.of_nat (length l).

Lemma zlen_nonneg {A} (l : list A) : 0 <= zlen l.
Proof. unfold zlen. lia. Qed.
Lemma zlen_nil {A} : zlen (@nil A) = 0.
Proof. done. Qed.
Lemma zlen_cons {A} (x : A) l : zlen (x :: l) = 1 + zlen l.
Proof. unfold zlen. cbn [length]. lia. Qed.
Lemma zlen_app {A} (l k : list A) : zlen (l ++ k) = zlen l + zlen k.
Proof. unfold zlen. rewrite length_app. lia. Qed.
Lemma zlen_to_nat {A} (l : list A) : Z.to_nat (zlen l) = length l.
Proof. unfold zlen. lia. Qed.

Create Rewrite HintDb zlen.
#[export] Hint Rewrite @zlen_nil @zlen_cons @zlen_app : zlen.

(** [bytes[..n]] and [bytes[n..]] at machine indices. *)
Definition ztake {A} (n : Z) (l : list A) : list A := take (Z.to_nat n) l.
Definition zdrop {A} (n : Z) (l : list A) : list A := drop (Z.to_nat n) l.
(** [bytes[a..b]]. *)
Definition zslice {A} (a b : Z) (l : list A) : list A := ztake (b - a) (zdrop a l).

#[global] Arguments zlen : simpl never.
#[global] Arguments ztake : simpl never.
#[global] Arguments zdrop : simpl never.
#[global] Arguments zslice : simpl never.

Lemma ztake_app {A} (l k : list A) n : n = zlen l -> ztake n (l ++ k) = l.
Proof. intros ->. unfold ztake. rewrite zlen_to_nat. apply take_app_length. Qed.
Lemma zdrop_app {A} (l k : list A) n : n = zlen l -> zdrop n (l ++ k) = k.
Proof. intros ->. unfold zdrop. rewrite zlen_to_nat. apply drop_app_length. Qed.
Lemma zdrop_0 {A} (l : list A) : zdrop 0 l = l.
Proof. done. Qed.
Lemma zlen_ztake {A} n (l : list A) : 0 <= n <= zlen l -> zlen (ztake n l) = n.
Proof. unfold zlen, ztake. intros. rewrite length_take. lia. Qed.
Lemma zlen_zdrop {A} n (l : list A) : 0 <= n <= zlen l -> zlen (zdrop n l) = zlen l - n.
Proof. unfold zlen, zdrop. intros. rewrite length_drop. lia. Qed.
Lemma ztake_zdrop {A} n (l : list A) : ztake n l ++ zdrop n l = l.
Proof. apply take_drop. Qed.
Lemma zdrop_zdrop {A} a b (l : list A) :
  0 <= a -> 0 <= b -> zdrop a (zdrop b l) = zdrop (b + a) l.
Proof. intros. unfold zdrop. rewrite drop_drop. f_equal. lia. Qed.

Lemma zslice_split {A} (i j k : Z) (l : list A) :
  0 <= i <= j -> j <= k -> zslice i k l = zslice i j l ++ zslice j k l.
Proof.
  intros. unfold zslice, ztake, zdrop.
  replace (Z.to_nat (k - i)) with (Z.to_nat (j - i) + Z.to_nat (k - j))%nat by lia.
  rewrite <-take_take_drop, drop_drop. do 3 f_equal. lia.
Qed.
Lemma zslice_all {A} (l : list A) n : n = zlen l -> zslice 0 n l = l.
Proof. intros ->. unfold zslice, ztake, zdrop, zlen. apply take_ge. cbn. lia. Qed.
Lemma zslice_mid {A} (a x b : list A) i j :
  i = zlen a -> j = zlen a + zlen x -> zslice i j (a ++ x ++ b) = x.
Proof.
  intros -> ->. unfold zslice. rewrite zdrop_app by done. apply ztake_app. lia.
Qed.
Lemma zslice_0 {A} n (l : list A) : zslice 0 n l = ztake n l.
Proof. unfold zslice. by rewrite zdrop_0, Z.sub_0_r. Qed.
Lemma zlen_zslice {A} i j (l : list A) : 0 <= i <= j -> j <= zlen l -> zlen (zslice i j l) = j - i.
Proof. intros. unfold zslice. apply zlen_ztake. rewrite zlen_zdrop; lia. Qed.

(* ------------------------------------------------------------------ *)
(** * Bytes and little-endian integers *)

Abbreviation byte := Byte.byte (only parsing).
Abbreviation bytes := (list Byte.byte) (only parsing).

#[global] Instance byte_eq_dec : EqDecision Byte.byte := Byte.byte_eq_dec.
#[global] Instance byte_countable : Countable Byte.byte.
Proof. apply (inj_countable Byte.to_N Byte.of_N). apply Byte.of_to_N. Defined.

Definition byte_val (b : byte) : Z := Z.of_N (Byte.to_N b).
(** The low byte of an integer. *)
Definition byte_of (z : Z) : byte := default x00 (Byte.of_N (Z.to_N (z mod 256))).

Lemma byte_val_range b : 0 <= byte_val b < 256.
Proof. unfold byte_val. pose proof (Byte.to_N_bounded b). lia. Qed.

Lemma byte_of_val b : byte_of (byte_val b) = b.
Proof.
  unfold byte_of. rewrite Z.mod_small by apply byte_val_range.
  unfold byte_val. rewrite N2Z.id, Byte.of_to_N. done.
Qed.

Lemma byte_val_of z : byte_val (byte_of z) = z mod 256.
Proof.
  unfold byte_of. pose proof (Z.mod_pos_bound z 256 ltac:(lia)) as Hz.
  destruct (Byte.of_N (Z.to_N (z mod 256))) as [b|] eqn:E; cbn.
  - apply Byte.to_of_N in E. unfold byte_val. rewrite E. lia.
  - apply Byte.of_N_None_iff in E. lia.
Qed.

Lemma byte_val_inj a b : byte_val a = byte_val b -> a = b.
Proof. intros H. by rewrite <-(byte_of_val a), H, byte_of_val. Qed.

(** [to_le_bytes] of an [n]-byte integer, and [from_le_bytes]. *)
Fixpoint le_bytes (n : nat) (z : Z) : bytes :=
  match n with
  | O => []
  | S n => byte_of z :: le_bytes n (z / 256)
  end.

Fixpoint le_val (bs : bytes) : Z :=
  match bs with
  | [] => 0
  | b :: bs => byte_val b + 256 * le_val bs
  end.

Lemma length_le_bytes n z : length (le_bytes n z) = n.
Proof. revert z. induction n; cbn; auto. Qed.
Lemma zlen_le_bytes n z : zlen (le_bytes n z) = Z.of_nat n.
Proof. unfold zlen. by rewrite length_le_bytes. Qed.

Lemma le_val_range bs : 0 <= le_val bs < 256 ^ zlen bs.
Proof.
  induction bs as [|b bs IH]; cbn [le_val]; [done|].
  rewrite zlen_cons, Z.pow_add_r by (pose proof (zlen_nonneg bs); lia).
  pose proof (byte_val_range b). nia.
Qed.

Lemma le_val_bytes n z : 0 <= z < 256 ^ Z.of_nat n -> le_val (le_bytes n z) = z.
Proof.
  revert z. induction n as [|n IH]; intros z Hz; cbn [le_bytes le_val].
  - change (Z.of_nat 0) with 0 in Hz. lia.
  - rewrite Nat2Z.inj_succ, Z.pow_succ_r in Hz by lia.
    rewrite byte_val_of, IH.
    + pose proof (Z.div_mod z 256 ltac:(lia)). lia.
    + split; [apply Z.div_pos; lia | apply Z.div_lt_upper_bound; lia].
Qed.

Lemma le_bytes_val bs : le_bytes (length bs) (le_val bs) = bs.
Proof.
  induction bs as [|b bs IH]; cbn [length le_bytes le_val]; [done|].
  pose proof (byte_val_range b).
  assert ((byte_val b + 256 * le_val bs) / 256 = le_val bs) as ->.
  { symmetry. apply Z.div_unique with (byte_val b); lia. }
  f_equal; [|exact IH]. apply byte_val_inj. rewrite byte_val_of.
  symmetry. apply Z.mod_unique with (le_val bs); lia.
Qed.

Definition le16 (z : Z) : bytes := le_bytes 2 z.
Definition le32 (z : Z) : bytes := le_bytes 4 z.
Definition le64 (z : Z) : bytes := le_bytes 8 z.

#[global] Arguments le16 : simpl never.
#[global] Arguments le32 : simpl never.
#[global] Arguments le64 : simpl never.
#[global] Arguments byte_of : simpl never.
#[global] Arguments byte_val : simpl never.

Lemma zlen_le16 z : zlen (le16 z) = 2. Proof. apply zlen_le_bytes. Qed.
Lemma zlen_le32 z : zlen (le32 z) = 4. Proof. apply zlen_le_bytes. Qed.
Lemma zlen_le64 z : zlen (le64 z) = 8. Proof. apply zlen_le_bytes. Qed.
#[export] Hint Rewrite zlen_le16 zlen_le32 zlen_le64 : zlen.

Lemma le_val_le16 z : is_u16 z -> le_val (le16 z) = z.
Proof. apply (le_val_bytes 2). Qed.
Lemma le_val_le32 z : is_u32 z -> le_val (le32 z) = z.
Proof. apply (le_val_bytes 4). Qed.
Lemma le_val_le64 z : is_u64 z -> le_val (le64 z) = z.
Proof. apply (le_val_bytes 8). Qed.

Lemma le_val_u16 bs : zlen bs = 2 -> is_u16 (le_val bs).
Proof. intros H. pose proof (le_val_range bs) as R. by rewrite H in R. Qed.
Lemma le_val_u32 bs : zlen bs = 4 -> is_u32 (le_val bs).
Proof. intros H. pose proof (le_val_range bs) as R. by rewrite H in R. Qed.
Lemma le_val_u64 bs : zlen bs = 8 -> is_u64 (le_val bs).
Proof. intros H. pose proof (le_val_range bs) as R. by rewrite H in R. Qed.

Lemma le16_val bs : zlen bs = 2 -> le16 (le_val bs) = bs.
Proof. intros H. unfold le16. rewrite <-(le_bytes_val bs) at 2. f_equal. unfold zlen in H. lia. Qed.
Lemma le32_val bs : zlen bs = 4 -> le32 (le_val bs) = bs.
Proof. intros H. unfold le32. rewrite <-(le_bytes_val bs) at 2. f_equal. unfold zlen in H. lia. Qed.
Lemma le64_val bs : zlen bs = 8 -> le64 (le_val bs) = bs.
Proof. intros H. unfold le64. rewrite <-(le_bytes_val bs) at 2. f_equal. unfold zlen in H. lia. Qed.

(** Length arithmetic over concatenations of encoded fields. *)
Ltac zlen_solve :=
  autorewrite with zlen; repeat match goal with
  | |- context [zlen ?l] => lazymatch goal with
      | _ : 0 <= zlen l |- _ => fail
      | _ => pose proof (zlen_nonneg l) end
  end; try lia.

(* ------------------------------------------------------------------ *)
(** * The byte-lexicographic order of [Vec<u8>] keys *)

Fixpoint bytes_compare (a b : bytes) : comparison :=
  match a, b with
  | [], [] => Eq
  | [], _ :: _ => Lt
  | _ :: _, [] => Gt
  | x :: a, y :: b =>
      match byte_val x ?= byte_val y with
      | Eq => bytes_compare a b
      | c => c
      end
  end.

Definition bytes_ltb (a b : bytes) : bool := match bytes_compare a b with Lt => true | _ => false end.
Definition bytes_leb (a b : bytes) : bool := match bytes_compare a b with Gt => false | _ => true end.
Definition bytes_eqb (a b : bytes) : bool := match bytes_compare a b with Eq => true | _ => false end.
Definition bytes_lt (a b : bytes) : Prop := bytes_compare a b = Lt.

Lemma bytes_compare_refl a : bytes_compare a a = Eq.
Proof. induction a as [|x a IH]; cbn; [done|]. by rewrite Z.compare_refl. Qed.

Lemma bytes_compare_eq a b : bytes_compare a b = Eq <-> a = b.
Proof.
  split; [|intros ->; apply bytes_compare_refl].
  revert b. induction a as [|x a IH]; intros [|y b]; cbn; try done.
  destruct (Z.compare_spec (byte_val x) (byte_val y)) as [E| |]; try done.
  intros H. f_equal; [by apply byte_val_inj | by apply IH].
Qed.

Lemma bytes_compare_antisym a b : bytes_compare b a = CompOpp (bytes_compare a b).
Proof.
  revert b. induction a as [|x a IH]; intros [|y b]; cbn; try done.
  rewrite Z.compare_antisym. destruct (byte_val x ?= byte_val y); cbn; auto.
Qed.

Lemma bytes_lt_trans a b c : bytes_lt a b -> bytes_lt b c -> bytes_lt a c.
Proof.
  unfold bytes_lt. revert b c. induction a as [|x a IH]; intros [|y b] [|z c]; cbn; try done.
  destruct (Z.compare_spec (byte_val x) (byte_val y)),
    (Z.compare_spec (byte_val y) (byte_val z)),
    (Z.compare_spec (byte_val x) (byte_val z)); try done; try lia; eauto.
Qed.

Lemma bytes_lt_irrefl a : ~ bytes_lt a a.
Proof. unfold bytes_lt. rewrite bytes_compare_refl. done. Qed.

Lemma bytes_eqb_eq a b : bytes_eqb a b = true <-> a = b.
Proof. unfold bytes_eqb. rewrite <-bytes_compare_eq. by destruct (bytes_compare a b). Qed.
Lemma bytes_eqb_neq a b : bytes_eqb a b = false <-> a <> b.
Proof. rewrite <-bytes_eqb_eq. by destruct (bytes_eqb a b). Qed.
Lemma bytes_ltb_lt a b : bytes_ltb a b = true <-> bytes_lt a b.
Proof. unfold bytes_ltb, bytes_lt. by destruct (bytes_compare a b). Qed.
Lemma bytes_leb_le a b : bytes_leb a b = true <-> bytes_lt a b \/ a = b.
Proof.
  unfold bytes_leb, bytes_lt. rewrite <-bytes_compare_eq.
  destruct (bytes_compare a b); naive_solver.
Qed.
Lemma bytes_ltb_leb a b : bytes_ltb a b = negb (bytes_leb b a).
Proof.
  unfold bytes_ltb, bytes_leb. rewrite (bytes_compare_antisym a b).
  by destruct (bytes_compare a b).
Qed.

#[global] Instance bytes_lt_strict : StrictOrder bytes_lt.
Proof. split; [exact bytes_lt_irrefl | exact bytes_lt_trans]. Qed.

Lemma bytes_trichotomy a b : {bytes_lt a b} + {a = b} + {bytes_lt b a}.
Proof.
  unfold bytes_lt. destruct (bytes_compare a b) eqn:E; auto.
  - left. right. by apply bytes_compare_eq.
  - right. rewrite bytes_compare_antisym, E. done.
Qed.

(** [key.starts_with(prefix)]. *)
Fixpoint starts_with (p k : bytes) : bool :=
  match p, k with
  | [], _ => true
  | _ :: _, [] => false
  | x :: p, y :: k => bool_decide (x = y) && starts_with p k
  end.

Lemma starts_with_spec p k : starts_with p k = true <-> exists r, k = p ++ r.
Proof.
  revert k. induction p as [|x p IH]; intros k; cbn; [naive_solver|].
  destruct k as [|y k]; cbn; [split; [done | by intros [? ?]]|].
  rewrite andb_true_iff, bool_decide_eq_true, IH. naive_solver.
Qed.

Lemma bytes_leb_refl a : bytes_leb a a = true.
Proof. unfold bytes_leb. by rewrite bytes_compare_refl. Qed.
Lemma bytes_leb_false a b : bytes_leb a b = false <-> bytes_lt b a.
Proof. rewrite <-bytes_ltb_lt, bytes_ltb_leb. by rewrite negb_true_iff. Qed.
Lemma bytes_ltb_false a b : bytes_ltb a b = false <-> bytes_leb b a = true.
Proof. rewrite bytes_ltb_leb. apply negb_false_iff. Qed.
Lemma bytes_leb_lt_trans a b c : bytes_leb a b = true -> bytes_lt b c -> bytes_lt a c.
Proof. intros [H| ->]%bytes_leb_le Hc; [by etrans | done]. Qed.
Lemma bytes_lt_leb_trans a b c : bytes_lt a b -> bytes_leb b c = true -> bytes_lt a c.
Proof. intros Hb [H| <-]%bytes_leb_le; [by etrans | done]. Qed.
Lemma bytes_leb_trans a b c : bytes_leb a b = true -> bytes_leb b c = true -> bytes_leb a c = true.
Proof.
  rewrite !bytes_leb_le. intros [H| ->] [K| ->]; auto. left. by etrans.
Qed.
Lemma bytes_lt_leb a b : bytes_lt a b -> bytes_leb a b = true.
Proof. intros. apply bytes_leb_le. by left. Qed.
Lemma bytes_leb_antisym a b : bytes_leb a b = true -> bytes_leb b a = true -> a = b.
Proof.
  rewrite !bytes_leb_le. intros [H| ->] [K|K]; auto. exfalso. apply (bytes_lt_irrefl a). by etrans.
Qed.
Lemma bytes_lt_neq a b : bytes_lt a b -> a <> b.
Proof. intros H ->. by apply bytes_lt_irrefl in H. Qed.
Lemma bytes_eqb_refl a : bytes_eqb a a = true.
Proof. by apply bytes_eqb_eq. Qed.

(* ------------------------------------------------------------------ *)
(** * Sorted lists *)

Lemma StronglySorted_app {A} (R : A -> A -> Prop) l k :
  StronglySorted R l -> StronglySorted R k -> (forall x y, x ∈ l -> y ∈ k -> R x y) ->
  StronglySorted R (l ++ k).
Proof.
  induction 1 as [|x l Hl IH Hf]; intros Hk Hx; cbn; [done|].
  constructor; [apply IH; set_solver|]. apply Forall_app. split; [done|].
  apply Forall_forall. set_solver.
Qed.

(** Elements of a sorted list, by position. *)
Lemma sorted_lookup {A} (R : A -> A -> Prop) (l : list A) i j x y :
  StronglySorted R l -> l !! i = Some x -> l !! j = Some y -> (i < j)%nat -> R x y.
Proof.
  intros H. revert i j. induction H as [|z l Hl IH Hf]; intros [|i] [|j] Hi Hj Hlt; try done; try lia.
  - cbn in Hi, Hj. injection Hi as ->. eapply Forall_forall in Hf; [exact Hf|]. by eapply list_elem_of_lookup_2.
  - cbn in Hi, Hj. eapply IH; [exact Hi | exact Hj | lia].
Qed.

Lemma sorted_map {A B} (R : relation A) (S : relation B) (f : A -> B) l :
  StronglySorted R l -> (forall x y, x ∈ l -> y ∈ l -> R x y -> S (f x) (f y)) -> StronglySorted S (map f l).
Proof.
  induction 1 as [|x l Hs IH Hx]; intros HS; cbn; constructor; [apply IH; set_solver|]. apply Forall_map. rewrite Forall_forall in *.
  intros y Hy. apply HS; [set_solver.. | by apply Hx].
Qed.
Lemma sorted_snoc {A} (R : relation A) l x : StronglySorted R l -> Forall (fun y => R y x) l -> StronglySorted R (l ++ [x]).
Proof.
  induction 1 as [|y l Hs IH Hy]; intros Hx; cbn; [repeat constructor|]. apply Forall_cons_1 in Hx as [Hyx Hx].
  constructor; [by apply IH|]. apply Forall_app. split; [done | by constructor].
Qed.
Lemma sorted_filter {A} (R : relation A) (P : A -> Prop) `{forall x, Decision (P x)} l : StronglySorted R l -> StronglySorted R (filter P l).
Proof.
  induction 1 as [|x l Hs IH Hx]; [constructor|]. rewrite filter_cons. destruct (decide (P x)); [|done]. constructor; [done|].
  rewrite Forall_forall in *. intros y [_ Hy]%list_elem_of_filter. by apply Hx.
Qed.
Lemma sorted_app_inv {A} (R : A -> A -> Prop) (a b : list A) :
  StronglySorted R (a ++ b) -> StronglySorted R a /\ StronglySorted R b.
Proof.
  induction a as [|x a IH]; cbn; [intros; split; [constructor | done]|].
  intros [H Hf]%StronglySorted_inv. apply Forall_app in Hf as [Hf _]. destruct (IH H). split; [by constructor | done].
Qed.

Lemma sorted_app_rel {A} (R : A -> A -> Prop) (a b : list A) x y :
  StronglySorted R (a ++ b) -> x ∈ a -> y ∈ b -> R x y.
Proof.
  induction a as [|z a IH]; cbn; intros H Hx Hy; [by apply not_elem_of_nil in Hx|].
  apply StronglySorted_inv in H as [H Hf]. apply elem_of_cons in Hx as [->|Hx]; [|by apply IH].
  eapply Forall_forall in Hf; [exact Hf|]. set_solver.
Qed.

Lemma sorted_concat {A} (R : A -> A -> Prop) (ls : list (list A)) :
  StronglySorted R (concat ls) -> Forall (StronglySorted R) ls.
Proof.
  induction ls as [|l ls IH]; cbn; [constructor|]. intros [H1 H2]%sorted_app_inv. constructor; [done | by apply IH].
Qed.

Lemma Sorted_impl {A} (R S : A -> A -> Prop) l : (forall a b, R a b -> S a b) -> Sorted R l -> Sorted S l.
Proof.
  intros H. induction 1 as [|a l Hs IH Hd]; constructor; [done|]. destruct Hd; constructor. by apply H.
Qed.

(* ------------------------------------------------------------------ *)
(** * Boolean searches and filters *)

Lemma find_none_iff {A} (f : A -> bool) l : List.find f l = None <-> forall x, In x l -> f x = false.
Proof.
  split; [apply find_none|]. intros H. destruct (List.find f l) eqn:E; [|done].
  apply find_some in E as [Hin Hf]. rewrite H in Hf by done. done.
Qed.

Lemma elem_of_filter_bool {A} (f : A -> bool) l x : x ∈ List.filter f l <-> x ∈ l /\ f x = true.
Proof. rewrite !list_elem_of_In, List.filter_In. done. Qed.
Lemma filter_sorted {A} (R : A -> A -> Prop) (f : A -> bool) l : StronglySorted R l -> StronglySorted R (List.filter f l).
Proof.
  induction 1 as [|x l Hs IH Hf]; cbn; [constructor|]. destruct (f x); [|done]. constructor; [done|].
  apply Forall_forall. intros y [Hy _]%elem_of_filter_bool. by eapply Forall_forall in Hf.
Qed.
Lemma filter_comm {A} (f g : A -> bool) l : List.filter f (List.filter g l) = List.filter g (List.filter f l).
Proof.
  induction l as [|x l IH]; [done|]. cbn. destruct (g x) eqn:G, (f x) eqn:F; cbn; rewrite ?G, ?F, ?IH; done.
Qed.
Lemma filter_all {A} (f : A -> bool) l : (forall x, x ∈ l -> f x = true) -> List.filter f l = l.
Proof. induction l as [|x l IH]; intros H; [done|]. cbn. rewrite H by set_solver. f_equal. apply IH. set_solver. Qed.
Lemma filter_none {A} (f : A -> bool) l : (forall x, x ∈ l -> f x = false) -> List.filter f l = [].
Proof. induction l as [|x l IH]; intros H; [done|]. cbn. rewrite H by set_solver. apply IH. set_solver. Qed.
Lemma size_of_list (l : list bytes) : (size (list_to_set l : gset bytes) <= length l)%nat.
Proof.
  induction l as [|y l IH]; cbn [list_to_set length]; [by rewrite size_empty|]. rewrite size_union_alt, size_singleton.
  pose proof (subseteq_size (list_to_set l ∖ {[y]}) (list_to_set l : gset bytes) ltac:(set_solver)). lia.
Qed.
