(* ===== verification/Cursor.v ===== *)
(** The decode cursor of crates/storage/aikoql-v2/src/format.rs: a bounds-checked
    reader over a byte slice, as a state-and-error monad [Dec], with the two
    judgements every codec of the crate is verified by: [reads] (the decoder
    accepts what the encoder wrote) and [exact] (what the decoder accepts is what
    the encoder writes). *)

From S2P Require Import Prelude.

(** [struct Cursor<'a> { bytes: &'a [u8], pos: usize }]. *)
Record Cursor : Type := mkCursor { cur_bytes : bytes; cur_pos : Z }.

Definition cursor_new (bs : bytes) : Cursor := mkCursor bs 0.
Definition remaining (c : Cursor) : Z := zlen (cur_bytes c) - cur_pos c.
Definition is_empty (c : Cursor) : bool := remaining c =? 0.

(** A computation over a [&mut Cursor] that may leave with an error. *)
Definition Dec (A : Type) : Type := Cursor -> Result (A * Cursor).
#[global] Instance Dec_ret : MRet Dec := fun A a c => Ok (a, c).
#[global] Instance Dec_bind : MBind Dec := fun A B f m c =>
  match m c with Ok (a, c') => f a c' | Err e => Err e end.

Definition dfail {A} (e : FormatError) : Dec A := fun _ => Err e.
(** [if test { return Err(e) }] *)
Definition dguard (reject : bool) (e : FormatError) : Dec unit :=
  fun c => if reject then Err e else Ok (tt, c).
Definition dget : Dec Cursor := fun c => Ok (c, c).
(** Embed a computation that does not move the cursor. *)
Definition dlift {A} (r : Result A) : Dec A := fun c => a ← r; Ok (a, c).

(** [Cursor::take]. *)
Definition ctake (n : Z) : Dec bytes := fun c =>
  if remaining c <? n then Err (Corrupt "truncated")
  else Ok (zslice (cur_pos c) (cur_pos c + n) (cur_bytes c),
           mkCursor (cur_bytes c) (cur_pos c + n)).

(** [Cursor::u8], [u16], [u32], [u64]. *)
Definition cu8 : Dec Z := bs ← ctake 1; mret (le_val bs).
Definition cu16 : Dec Z := bs ← ctake 2; mret (le_val bs).
Definition cu32 : Dec Z := bs ← ctake 4; mret (le_val bs).
Definition cu64 : Dec Z := bs ← ctake 8; mret (le_val bs).

(** [Cursor::vec]: a u32 length-prefixed byte string. *)
Definition cvec : Dec bytes := len ← cu32; ctake len.

(** Run a decoder on a whole slice, keeping only the value. *)
Definition run_dec {A} (p : Dec A) (bs : bytes) : Result A :=
  '(a, _) ← p (cursor_new bs); Ok a.

(** [for _ in 0..n { out.push(p()?) }]. *)
Fixpoint drepeat {A} (n : nat) (p : Dec A) : Dec (list A) :=
  match n with
  | O => mret []
  | S n => a ← p; l ← drepeat n p; mret (a :: l)
  end.

(* ------------------------------------------------------------------ *)
(** * Where a cursor stands *)

Definition cur_ok (c : Cursor) : Prop := 0 <= cur_pos c <= zlen (cur_bytes c).
Definition crest (c : Cursor) : bytes := zdrop (cur_pos c) (cur_bytes c).
Definition advance (c : Cursor) (n : Z) : Cursor := mkCursor (cur_bytes c) (cur_pos c + n).

Lemma cur_ok_new bs : cur_ok (cursor_new bs).
Proof. unfold cur_ok. cbn. pose proof (zlen_nonneg bs). lia. Qed.
#[export] Hint Resolve cur_ok_new : core.

Lemma crest_new bs : crest (cursor_new bs) = bs.
Proof. done. Qed.

Lemma remaining_crest c : cur_ok c -> remaining c = zlen (crest c).
Proof. unfold cur_ok, remaining, crest. intros H. by rewrite zlen_zdrop. Qed.

Lemma crest_advance c x r :
  cur_ok c -> crest c = x ++ r -> crest (advance c (zlen x)) = r.
Proof.
  unfold cur_ok, crest. intros Hc E. cbn.
  rewrite <-zdrop_zdrop, E; [by apply zdrop_app | apply zlen_nonneg | lia].
Qed.

Lemma cur_ok_advance c x r :
  cur_ok c -> crest c = x ++ r -> cur_ok (advance c (zlen x)).
Proof.
  unfold cur_ok, crest. intros Hc E. cbn.
  apply (f_equal zlen) in E. rewrite zlen_zdrop, zlen_app in E by lia.
  pose proof (zlen_nonneg x). pose proof (zlen_nonneg r). lia.
Qed.

Lemma advance_advance c a b : advance (advance c a) b = advance c (a + b).
Proof. unfold advance. cbn. f_equal. lia. Qed.
Lemma advance_0 c : advance c 0 = c.
Proof. destruct c. unfold advance. cbn. by rewrite Z.add_0_r. Qed.

(* ------------------------------------------------------------------ *)
(** * [reads p bs r a]: in front of [bs ++ r], [p] consumes [bs] and yields [a] *)

Definition reads {A} (p : Dec A) (bs r : bytes) (a : A) : Prop :=
  forall c, cur_ok c -> crest c = bs ++ r -> p c = Ok (a, advance c (zlen bs)).

Lemma reads_ret {A} (a : A) r : reads (mret a) [] r a.
Proof. intros c _ _. cbn. by rewrite advance_0. Qed.

Lemma reads_bind {A B} (p : Dec A) (f : A -> Dec B) x y r a b :
  reads p x (y ++ r) a -> reads (f a) y r b -> reads (p ≫= f) (x ++ y) r b.
Proof.
  intros Hp Hf c Hc E. rewrite <-app_assoc in E. unfold mbind, Dec_bind.
  rewrite (Hp c Hc E). rewrite (Hf _ (cur_ok_advance _ _ _ Hc E) (crest_advance _ _ _ Hc E)).
  by rewrite advance_advance, zlen_app.
Qed.

(** The same with a step that consumes nothing, or one that ends the parse. *)
Lemma reads_bind0 {A B} (p : Dec A) (f : A -> Dec B) y r a b :
  reads p [] (y ++ r) a -> reads (f a) y r b -> reads (p ≫= f) y r b.
Proof. intros Hp Hf. apply (reads_bind _ _ [] y r a b Hp Hf). Qed.
Lemma reads_map {A B} (p : Dec A) (f : A -> Dec B) x r a b :
  reads p x r a -> reads (f a) [] r b -> reads (p ≫= f) x r b.
Proof.
  intros Hp Hf. rewrite <-(app_nil_r x). by apply (reads_bind _ _ x [] r a b).
Qed.

Lemma reads_guard b e r : b = false -> reads (dguard b e) [] r tt.
Proof. intros -> c _ _. cbn. by rewrite advance_0. Qed.

Lemma reads_lift {A} (v : Result A) a r : v = Ok a -> reads (dlift v) [] r a.
Proof. intros -> c _ _. cbn. by rewrite advance_0. Qed.

Lemma reads_take n x r : zlen x = n -> reads (ctake n) x r x.
Proof.
  intros <- c Hc E. unfold ctake.
  assert ((remaining c <? zlen x) = false) as ->.
  { apply Z.ltb_ge. rewrite (remaining_crest c Hc), E, zlen_app. pose proof (zlen_nonneg r). lia. }
  unfold zslice. fold (crest c). rewrite E, ztake_app by lia. done.
Qed.

Lemma reads_u8 z r : is_u8 z -> reads cu8 [byte_of z] r z.
Proof.
  intros H. eapply reads_map; [by apply reads_take|].
  replace (le_val [byte_of z]) with z; [apply reads_ret|].
  cbn. rewrite byte_val_of, Z.mod_small by exact H. lia.
Qed.
Lemma reads_u16 z r : is_u16 z -> reads cu16 (le16 z) r z.
Proof.
  intros H. eapply reads_map; [apply reads_take, zlen_le16|].
  rewrite le_val_le16 by done. apply reads_ret.
Qed.
Lemma reads_u32 z r : is_u32 z -> reads cu32 (le32 z) r z.
Proof.
  intros H. eapply reads_map; [apply reads_take, zlen_le32|].
  rewrite le_val_le32 by done. apply reads_ret.
Qed.
Lemma reads_u64 z r : is_u64 z -> reads cu64 (le64 z) r z.
Proof.
  intros H. eapply reads_map; [apply reads_take, zlen_le64|].
  rewrite le_val_le64 by done. apply reads_ret.
Qed.

Lemma reads_vec x r : is_u32 (zlen x) -> reads cvec (le32 (zlen x) ++ x) r x.
Proof. intros H. eapply reads_bind; [by apply reads_u32 | by apply reads_take]. Qed.

Lemma reads_repeat {A} (p : Dec A) (enc : A -> bytes) (P : A -> Prop) l r :
  (forall a r, P a -> reads p (enc a) r a) -> Forall P l ->
  reads (drepeat (length l) p) (concat (map enc l)) r l.
Proof.
  intros Hp Hl. induction Hl as [|a l Ha Hl IH]; cbn [length drepeat map concat]; [apply reads_ret|].
  eapply reads_bind; [by apply Hp|]. eapply reads_map; [apply IH | apply reads_ret].
Qed.

Lemma reads_run_front {A} (p : Dec A) bs bs' r a :
  bs = bs' ++ r -> reads p bs' r a -> run_dec p bs = Ok a.
Proof. intros -> H. unfold run_dec. by rewrite (H (cursor_new _)) by done. Qed.
Lemma reads_run {A} (p : Dec A) bs bs' a : bs = bs' -> reads p bs' [] a -> run_dec p bs = Ok a.
Proof. intros <-. apply reads_run_front. by rewrite app_nil_r. Qed.

(* ------------------------------------------------------------------ *)
(** * [exact p enc P]: whatever [p] accepts is [enc] of its value, and satisfies [P] *)

Definition exact {A} (p : Dec A) (enc : A -> bytes) (P : A -> Prop) : Prop :=
  forall c a c', cur_ok c -> p c = Ok (a, c') ->
    crest c = enc a ++ crest c' /\ cur_ok c' /\ cur_bytes c' = cur_bytes c /\ P a.

Lemma exact_pos {A} (p : Dec A) enc P c a c' :
  exact p enc P -> cur_ok c -> p c = Ok (a, c') -> cur_pos c' = cur_pos c + zlen (enc a).
Proof.
  intros Hp Hc H. destruct (Hp _ _ _ Hc H) as (E & Hc' & Eb & _).
  apply (f_equal zlen) in E. rewrite zlen_app, <-!remaining_crest in E by done.
  unfold remaining in E. rewrite Eb in E. lia.
Qed.

Lemma exact_take n : 0 <= n -> exact (ctake n) id (fun x => zlen x = n).
Proof.
  intros Hn c a c' Hc H. unfold ctake in H. case_test; [discriminate|]. bool_to_prop.
  injection H as <- <-. rewrite (remaining_crest c Hc) in Heqb.
  unfold zslice. fold (crest c). replace (cur_pos c + n - cur_pos c) with n by lia.
  assert (zlen (ztake n (crest c)) = n) as L by (apply zlen_ztake; lia).
  assert (crest c = ztake n (crest c) ++ zdrop n (crest c)) as E by by rewrite ztake_zdrop.
  change (mkCursor (cur_bytes c) (cur_pos c + n)) with (advance c n).
  pose proof (crest_advance _ _ _ Hc E) as E2. pose proof (cur_ok_advance _ _ _ Hc E) as E3.
  rewrite L in E2, E3. rewrite E2. split_and!; done.
Qed.

Lemma bind_dec_inv {A B} (p : Dec A) (f : A -> Dec B) c b c' :
  (p ≫= f) c = Ok (b, c') -> exists a c1, p c = Ok (a, c1) /\ f a c1 = Ok (b, c').
Proof.
  unfold mbind, Dec_bind. destruct (p c) as [[a c1]|]; [eauto | discriminate].
Qed.

Lemma exact_u8 : exact cu8 (fun z => [byte_of z]) is_u8.
Proof.
  intros c z c' Hc H. apply bind_dec_inv in H as (x & c1 & Hx & Hz). injection Hz as <- <-.
  destruct (exact_take 1 ltac:(lia) _ _ _ Hc Hx) as (E & ? & ? & L). unfold id in *.
  destruct x as [|b [|b2 x]]; [done| |rewrite !zlen_cons in L; pose proof (zlen_nonneg x); lia].
  assert (le_val [b] = byte_val b) as -> by (cbn; lia).
  rewrite byte_of_val. split_and!; try done; apply byte_val_range.
Qed.
Lemma exact_u16 : exact cu16 le16 is_u16.
Proof.
  intros c z c' Hc H. apply bind_dec_inv in H as (x & c1 & Hx & Hz). injection Hz as <- <-.
  destruct (exact_take 2 ltac:(lia) _ _ _ Hc Hx) as (E & ? & ? & L).
  rewrite le16_val by done. split_and!; try done; by apply le_val_u16.
Qed.
Lemma exact_u32 : exact cu32 le32 is_u32.
Proof.
  intros c z c' Hc H. apply bind_dec_inv in H as (x & c1 & Hx & Hz). injection Hz as <- <-.
  destruct (exact_take 4 ltac:(lia) _ _ _ Hc Hx) as (E & ? & ? & L).
  rewrite le32_val by done. split_and!; try done; by apply le_val_u32.
Qed.
Lemma exact_u64 : exact cu64 le64 is_u64.
Proof.
  intros c z c' Hc H. apply bind_dec_inv in H as (x & c1 & Hx & Hz). injection Hz as <- <-.
  destruct (exact_take 8 ltac:(lia) _ _ _ Hc Hx) as (E & ? & ? & L).
  rewrite le64_val by done. split_and!; try done; by apply le_val_u64.
Qed.

Lemma exact_vec : exact cvec (fun x => le32 (zlen x) ++ x) (fun x => is_u32 (zlen x)).
Proof.
  intros c x c' Hc H. apply bind_dec_inv in H as (n & c1 & Hn & Hx).
  destruct (exact_u32 _ _ _ Hc Hn) as (E1 & Hc1 & B1 & R).
  destruct (exact_take n ltac:(destruct R; lia) _ _ _ Hc1 Hx) as (E2 & Hc2 & B2 & <-).
  unfold id in *. rewrite E1, E2, <-app_assoc, B2. auto.
Qed.

Lemma exact_repeat {A} (p : Dec A) enc P n :
  exact p enc P ->
  exact (drepeat n p) (fun l => concat (map enc l)) (fun l => length l = n /\ Forall P l).
Proof.
  intros Hp. induction n as [|n IH]; intros c l c' Hc H.
  - injection H as <- <-. auto.
  - cbn [drepeat] in H. apply bind_dec_inv in H as (a & c1 & Ha & H).
    apply bind_dec_inv in H as (l' & c2 & Hl & H). injection H as <- <-.
    destruct (Hp _ _ _ Hc Ha) as (E1 & Hc1 & B1 & Pa).
    destruct (IH _ _ _ Hc1 Hl) as (E2 & Hc2 & B2 & <- & Pl).
    cbn [map concat length]. rewrite E1, E2, B2, <-app_assoc.
    split_and!; auto.
Qed.

Lemma guard_inv b e c u c' : dguard b e c = Ok (u, c') -> b = false /\ c' = c.
Proof. unfold dguard. destruct b; [discriminate|]. intros H. by injection H. Qed.
Lemma dget_inv c d c' : dget c = Ok (d, c') -> d = c /\ c' = c.
Proof. intros H. by injection H. Qed.
Lemma dlift_inv {A} (v : Result A) c a c' : dlift v c = Ok (a, c') -> v = Ok a /\ c' = c.
Proof. unfold dlift. destruct v; cbn; [|discriminate]. intros H. by injection H as -> ->. Qed.

(** Field-by-field automation: [reads] of the next field, in front of the rest. *)
Create HintDb reads discriminated.
#[export] Hint Resolve reads_u8 reads_u16 reads_u32 reads_u64 reads_vec : reads.
#[export] Hint Extern 2 (is_u16 _) => done : reads.

Ltac reads_field := eapply reads_bind; [solve [eauto with reads]|].
Ltac reads_fields := repeat reads_field.

(** Reading the cursor itself: only what is left in front of it is known. *)
Lemma reads_dget {B} (f : Cursor -> Dec B) y r b :
  (forall c, cur_ok c -> crest c = y ++ r -> reads (f c) y r b) -> reads (dget ≫= f) y r b.
Proof. intros H c Hc E. unfold mbind, Dec_bind, dget. by apply H. Qed.

Lemma is_empty_crest c : cur_ok c -> is_empty c = true <-> crest c = [].
Proof.
  intros Hc. unfold is_empty. rewrite remaining_crest, Z.eqb_eq by done.
  split; [|by intros ->]. destruct (crest c); [done|]. rewrite zlen_cons.
  pose proof (zlen_nonneg l). lia.
Qed.

(** Peel one step off a successful decode: [dec_exact L] uses the step's [exact]
    lemma, [dec_guard] a passed test, [dec_get] a look at the cursor. *)
Ltac dec_exact L :=
  match goal with
  | Hc : cur_ok ?c, H : (_ ≫= _) ?c = Ok _ |- _ =>
      let v := fresh "v" in let c1 := fresh "c" in let Hv := fresh "Hv" in
      let Er := fresh "Er" in let Hk := fresh "Hk" in
      let Hb := fresh "Hb" in let Hp := fresh "Hp" in
      apply bind_dec_inv in H as (v & c1 & Hv & H);
      destruct (L _ _ _ Hc Hv) as (Er & Hk & Hb & Hp); clear Hc Hv
  end.
Ltac dec_guard :=
  match goal with
  | H : (dguard _ _ ≫= _) _ = Ok _ |- _ =>
      let v := fresh "u" in let c1 := fresh "c" in let Hv := fresh "Hg" in
      apply bind_dec_inv in H as (v & c1 & Hv & H);
      apply guard_inv in Hv as [Hv ->]
  end.
Ltac dec_get :=
  match goal with
  | H : (dget ≫= _) _ = Ok _ |- _ =>
      let v := fresh "u" in let c1 := fresh "c" in let Hv := fresh "Hg" in
      apply bind_dec_inv in H as (v & c1 & Hv & H);
      apply dget_inv in Hv as [-> ->]
  end.
Ltac dec_ret :=
  match goal with H : mret _ _ = Ok (_, _) |- _ => injection H as <- <- end.

Lemma run_dec_Ok {A} (p : Dec A) bs a :
  run_dec p bs = Ok a -> exists c', p (cursor_new bs) = Ok (a, c').
Proof.
  unfold run_dec. destruct (p (cursor_new bs)) as [[a' c']|]; cbn; [|discriminate].
  intros H. injection H as ->. eauto.
Qed.
