(* ===== verification/Format.v ===== *)
(** crates/storage/aikoql-v2/src/format.rs: the CURRENT pointer, the manifest, the
    sha256-8 integrity fingerprint and the publication chain.  Both codecs are shown
    to be exact inverses: every well-formed value decodes from its encoding, and
    every accepted file is the encoding of the value it decodes to. *)

From S2P Require Import Prelude Cursor.

(** The [sha2] crate's digest, as [kom::sha256] exposes it: 32 bytes. *)
Class Sha256 : Type := {
  sha256 : bytes -> bytes;
  sha256_len : forall bs, zlen (sha256 bs) = 32;
}.

Definition CURRENT_LEN : Z := 22.
Definition FORMAT_VERSION : Z := 1.
Definition CURRENT_MAGIC : bytes := [x41; x4b; x43; x56].
Definition MANIFEST_MAGIC : bytes := [x41; x4b; x4d; x56].
Definition MIN_SEGMENT_RECORD : Z := 57.

(** [a == b] on byte slices. *)
Definition slice_eqb (a b : bytes) : bool := bool_decide (a = b).

(** [struct Current]. *)
Record Current : Type := mkCurrent {
  cur_format_version : Z;
  manifest_generation : Z;
}.

(** [struct SegmentRecord]. *)
Record SegmentRecord : Type := mkSegmentRecord {
  segment_id : Z;
  level : Z;
  key_min : bytes;
  key_max : bytes;
  seq_lo : Z;
  seq_hi : Z;
  record_count : Z;
  file_size : Z;
  checksum : Z;
}.

(** [struct Manifest]. *)
Record Manifest : Type := mkManifest {
  format_version : Z;
  generation : Z;
  segments : list SegmentRecord;
  wal_ids : list Z;
  identity_floor : Z;
  replica_floor : Z;
  placement_floor : Z;
  identity_chain : Z;
  replica_chain : Z;
  placement_chain : Z;
}.

(** Field widths of the structs: what the Rust types guarantee, plus the lengths
    that fit the format's u32 count fields. *)
Definition current_wf (c : Current) : Prop :=
  is_u16 (cur_format_version c) /\ is_u64 (manifest_generation c).

Definition segment_record_wf (s : SegmentRecord) : Prop :=
  is_u64 (segment_id s) /\ is_u8 (level s) /\
  is_u32 (zlen (key_min s)) /\ is_u32 (zlen (key_max s)) /\
  is_u64 (seq_lo s) /\ is_u64 (seq_hi s) /\ is_u64 (record_count s) /\
  is_u64 (file_size s) /\ is_u64 (checksum s).

Definition manifest_wf (m : Manifest) : Prop :=
  is_u16 (format_version m) /\ is_u64 (generation m) /\
  is_u32 (zlen (segments m)) /\ Forall segment_record_wf (segments m) /\
  is_u32 (zlen (wal_ids m)) /\ Forall is_u64 (wal_ids m) /\
  is_u64 (identity_floor m) /\ is_u64 (replica_floor m) /\ is_u64 (placement_floor m) /\
  is_u64 (identity_chain m) /\ is_u64 (replica_chain m) /\ is_u64 (placement_chain m).

Section Codec.
Context {SHA : Sha256}.

Definition checksum8 (bs : bytes) : bytes := ztake 8 (sha256 bs).

(** [chain_extend]: fold a published generation into the family's chain. *)
Definition chain_extend (prev gen : Z) : Z := le_val (checksum8 (le64 prev ++ le64 gen)).

(** [Current::encode]. *)
Definition current_encode (c : Current) : bytes :=
  let bs := CURRENT_MAGIC ++ le16 (cur_format_version c) ++ le64 (manifest_generation c) in
  bs ++ checksum8 bs.

(** [Current::decode]. *)
Definition current_decode (bs : bytes) : Result Current :=
  if negb (zlen bs =? CURRENT_LEN) then Err (Corrupt "CURRENT must be 22 bytes") else
  if negb (slice_eqb (zslice 0 4 bs) CURRENT_MAGIC) then Err (Corrupt "CURRENT bad magic") else
  let v := le_val (zslice 4 6 bs) in
  if negb (v =? FORMAT_VERSION) then Err (Unsupported "CURRENT format version") else
  if negb (slice_eqb (checksum8 (ztake 14 bs)) (zslice 14 22 bs))
  then Err (Corrupt "CURRENT checksum mismatch") else
  Ok (mkCurrent v (le_val (zslice 6 14 bs))).

(** The body of the segment loop of [Manifest::encode]. *)
Definition segment_record_encode (s : SegmentRecord) : bytes :=
  le64 (segment_id s) ++ [byte_of (level s)] ++
  le32 (as_u32 (zlen (key_min s))) ++ key_min s ++
  le32 (as_u32 (zlen (key_max s))) ++ key_max s ++
  le64 (seq_lo s) ++ le64 (seq_hi s) ++ le64 (record_count s) ++
  le64 (file_size s) ++ le64 (checksum s).

(** Everything [Manifest::encode] writes before the checksum. *)
Definition manifest_body (m : Manifest) : bytes :=
  MANIFEST_MAGIC ++ le16 (format_version m) ++ le64 (generation m) ++
  le32 (as_u32 (zlen (segments m))) ++ concat (map segment_record_encode (segments m)) ++
  le32 (as_u32 (zlen (wal_ids m))) ++ concat (map le64 (wal_ids m)) ++
  le64 (identity_floor m) ++ le64 (replica_floor m) ++ le64 (placement_floor m) ++
  le64 (identity_chain m) ++ le64 (replica_chain m) ++ le64 (placement_chain m).

(** [Manifest::encode]. *)
Definition manifest_encode (m : Manifest) : bytes :=
  manifest_body m ++ checksum8 (manifest_body m).

(** The body of the segment loop of [Manifest::decode]. *)
Definition segment_record_decode : Dec SegmentRecord :=
  sid ← cu64; lv ← cu8; kmin ← cvec; kmax ← cvec;
  lo ← cu64; hi ← cu64; n ← cu64; sz ← cu64; ck ← cu64;
  mret (mkSegmentRecord sid lv kmin kmax lo hi n sz ck).

(** [Manifest::decode]. *)
Definition manifest_decode (bs : bytes) : Result Manifest :=
  run_dec (
    magic ← ctake 4;
    _ ← dguard (negb (slice_eqb magic MANIFEST_MAGIC)) (Corrupt "manifest bad magic");
    v ← cu16;
    _ ← dguard (negb (v =? FORMAT_VERSION)) (Unsupported "manifest format version");
    gen ← cu64;
    nseg ← cu32;
    c1 ← dget;
    _ ← dguard (remaining c1 / MIN_SEGMENT_RECORD <? nseg)
          (Corrupt "manifest segment_count cannot fit in remaining bytes");
    segs ← drepeat (Z.to_nat nseg) segment_record_decode;
    nwal ← cu32;
    c2 ← dget;
    _ ← dguard (remaining c2 / 8 <? nwal)
          (Corrupt "manifest wal_count cannot fit in remaining bytes");
    wals ← drepeat (Z.to_nat nwal) cu64;
    idf ← cu64; rpf ← cu64; plf ← cu64;
    idc ← cu64; rpc ← cu64; plc ← cu64;
    ck ← ctake 8;
    c3 ← dget;
    _ ← dguard (negb (is_empty c3)) (Corrupt "manifest trailing bytes");
    _ ← dguard (negb (slice_eqb (checksum8 (ztake (zlen bs - 8) bs)) ck))
          (Corrupt "manifest checksum mismatch");
    mret (mkManifest v gen segs wals idf rpf plf idc rpc plc)) bs.

(** [verify_pair]. *)
Definition verify_pair (c : Current) (m : Manifest) : Result unit :=
  if negb (manifest_generation c =? generation m)
  then Err (Corrupt "CURRENT points at another generation") else Ok tt.

End Codec.

(* ------------------------------------------------------------------ *)
(** * The codecs are exact *)

Section CodecTheory.
Context {SHA : Sha256}.

Lemma zlen_checksum8 bs : zlen (checksum8 bs) = 8.
Proof. unfold checksum8. apply zlen_ztake. rewrite sha256_len. lia. Qed.

Lemma chain_extend_u64 p g : is_u64 (chain_extend p g).
Proof. apply le_val_u64, zlen_checksum8. Qed.

Lemma slice_eqb_refl x : slice_eqb x x = true.
Proof. by apply bool_decide_eq_true. Qed.

Lemma segment_record_reads s r :
  segment_record_wf s -> reads segment_record_decode (segment_record_encode s) r s.
Proof.
  unfold segment_record_wf, segment_record_encode, segment_record_decode.
  intros (?&?&?&?&?&?&?&?&?). rewrite !as_u32_small by done.
  do 2 reads_field. rewrite app_assoc. reads_field. rewrite app_assoc. reads_field.
  do 4 reads_field. eapply reads_map; [by apply reads_u64|].
  destruct s. apply reads_ret.
Qed.

Lemma segment_record_exact :
  exact segment_record_decode segment_record_encode segment_record_wf.
Proof.
  intros c s c' Hc Hd. unfold segment_record_decode in Hd.
  dec_exact exact_u64. dec_exact exact_u8. do 2 dec_exact exact_vec. do 5 dec_exact exact_u64.
  dec_ret. unfold segment_record_encode, segment_record_wf.
  cbn [segment_id level key_min key_max seq_lo seq_hi record_count file_size checksum].
  rewrite !as_u32_small by done. split_and!; try done; [|congruence].
  rewrite Er, Er0, Er1, Er2, Er3, Er4, Er5, Er6, Er7. by rewrite <-!app_assoc.
Qed.

Lemma zlen_segment_record s : MIN_SEGMENT_RECORD <= zlen (segment_record_encode s).
Proof. unfold segment_record_encode, MIN_SEGMENT_RECORD. zlen_solve. Qed.

Lemma zlen_concat_ge {A} (enc : A -> bytes) n l :
  0 <= n -> (forall a, n <= zlen (enc a)) -> n * zlen l <= zlen (concat (map enc l)).
Proof.
  intros Hn H. induction l as [|a l IH]; cbn [map concat]; [unfold zlen; cbn; lia|].
  rewrite zlen_cons, zlen_app. specialize (H a). lia.
Qed.

Lemma zlen_concat_le64 l : zlen (concat (map le64 l)) = 8 * zlen l.
Proof.
  induction l as [|a l IH]; cbn [map concat]; [done|].
  rewrite zlen_cons, zlen_app, zlen_le64. lia.
Qed.

(** The plausibility cap of the record loops lets every honest count through. *)
Lemma count_fits (n per : Z) (body rest : bytes) c :
  0 < per -> per * n <= zlen body -> cur_ok c -> crest c = body ++ rest ->
  (remaining c / per <? n) = false.
Proof.
  intros Hp Hn Hc E. apply Z.ltb_ge. rewrite remaining_crest, E, zlen_app by done.
  apply Z.div_le_lower_bound; [done|]. pose proof (zlen_nonneg rest). lia.
Qed.

Lemma manifest_decode_encode m :
  manifest_wf m -> format_version m = FORMAT_VERSION -> manifest_decode (manifest_encode m) = Ok m.
Proof.
  unfold manifest_wf. intros (?&?&?&?&?&?&?&?&?&?&?&?) Hv.
  unfold manifest_decode. eapply reads_run.
  { unfold manifest_encode. set (ck := checksum8 (manifest_body m)). unfold manifest_body.
    rewrite !as_u32_small by done. rewrite <-!app_assoc. unfold ck. reflexivity. }
  eapply reads_bind; [by apply reads_take|].
  eapply reads_bind0; [apply reads_guard; by rewrite slice_eqb_refl|].
  reads_field. rewrite Hv. eapply reads_bind0; [by apply reads_guard|]. do 2 reads_field.
  apply reads_dget. intros c1 Hc1 E1. eapply reads_bind0; [apply reads_guard|].
  { eapply count_fits; [done | | done | rewrite <-app_assoc in E1; exact E1].
    apply zlen_concat_ge; [done | apply zlen_segment_record]. }
  rewrite zlen_to_nat. eapply reads_bind.
  { eapply reads_repeat; [intros; by apply segment_record_reads | done]. }
  reads_field. apply reads_dget. intros c2 Hc2 E2. eapply reads_bind0; [apply reads_guard|].
  { eapply count_fits; [done | | done | rewrite <-app_assoc in E2; exact E2].
    rewrite zlen_concat_le64. lia. }
  rewrite zlen_to_nat. eapply reads_bind.
  { eapply reads_repeat; [intros; by apply reads_u64 | done]. }
  do 6 reads_field. eapply reads_map; [apply reads_take, zlen_checksum8|].
  apply reads_dget. intros c3 Hc3 E3. eapply reads_bind0.
  { apply reads_guard. rewrite (proj2 (is_empty_crest c3 Hc3) E3). done. }
  eapply reads_bind0; [apply reads_guard|].
  - unfold manifest_encode. rewrite ztake_app; [by rewrite slice_eqb_refl|].
    rewrite zlen_app, zlen_checksum8. lia.
  - rewrite <-Hv. destruct m. apply reads_ret.
Qed.

Lemma manifest_encode_decode bs m :
  manifest_decode bs = Ok m ->
  manifest_encode m = bs /\ manifest_wf m /\ format_version m = FORMAT_VERSION.
Proof.
  intros Hd. apply run_dec_Ok in Hd as [c' Hd]. pose proof (cur_ok_new bs) as Hc.
  dec_exact (exact_take 4 ltac:(lia)). dec_guard. dec_exact exact_u16. dec_guard.
  dec_exact exact_u64. dec_exact exact_u32. dec_get. dec_guard.
  dec_exact (exact_repeat _ _ _ (Z.to_nat v2) segment_record_exact).
  dec_exact exact_u32. dec_get. dec_guard.
  dec_exact (exact_repeat _ _ _ (Z.to_nat v4) exact_u64). do 6 dec_exact exact_u64.
  dec_exact (exact_take 8 ltac:(lia)). dec_get. dec_guard. dec_guard. dec_ret. bool_to_prop.
  apply is_empty_crest in Hg3; [|done]. apply bool_decide_eq_true in Hg, Hg4.
  destruct Hp3 as [L3 F3], Hp5 as [L5 F5]. unfold id in *.
  assert (zlen v3 = v2) as L3' by (unfold zlen; rewrite L3; destruct Hp2; lia).
  assert (zlen v5 = v4) as L5' by (unfold zlen; rewrite L5; destruct Hp4; lia).
  set (m := mkManifest v0 v1 v3 v5 v6 v7 v8 v9 v10 v11).
  assert (manifest_wf m) as W.
  { unfold m, manifest_wf. cbn. rewrite L3', L5'. split_and!; done. }
  assert (bs = manifest_body m ++ v12) as Eb.
  { rewrite <-(crest_new bs). unfold m, manifest_body. cbn.
    rewrite L3', L5', !as_u32_small by done. rewrite Hg in Er.
    rewrite Er, Er0, Er1, Er2, Er3, Er4, Er5, Er6, Er7, Er8, Er9, Er10, Er11, Er12, Hg3, app_nil_r.
    by rewrite <-!app_assoc. }
  split_and!; [|done..]. unfold manifest_encode. rewrite Eb. f_equal. rewrite <-Hg4. f_equal.
  symmetry. rewrite Eb. apply ztake_app. rewrite zlen_app. lia.
Qed.


Lemma current_decode_encode c :
  current_wf c -> cur_format_version c = FORMAT_VERSION -> current_decode (current_encode c) = Ok c.
Proof.
  destruct c as [v g]. intros [Hv Hg] Ev. cbn in Hv, Hg, Ev. subst v.
  unfold current_encode. cbn [cur_format_version manifest_generation]. cbv zeta.
  set (b := CURRENT_MAGIC ++ le16 FORMAT_VERSION ++ le64 g).
  assert (zlen b = 14) as Lb by (unfold b; autorewrite with zlen; done).
  unfold current_decode. rewrite zlen_app, zlen_checksum8, Lb. change (14 + 8 =? CURRENT_LEN) with true.
  assert (forall i j, 0 <= i -> i <= j -> j <= 14 -> zslice i j (b ++ checksum8 b) = zslice i j b) as S.
  { intros i j Hi Hj Hk. unfold zslice, ztake, zdrop.
    rewrite drop_app_le, take_app_le; [done | | ]; rewrite ?length_drop; unfold zlen in Lb; lia. }
  rewrite (S 0 4), (S 4 6), (S 6 14) by lia.
  replace (zslice 14 22 (b ++ checksum8 b)) with (checksum8 b).
  2: { unfold zslice. rewrite zdrop_app by done. rewrite <-zslice_0. symmetry.
       apply zslice_all. by rewrite zlen_checksum8. }
  rewrite (ztake_app b) by done. rewrite slice_eqb_refl.
  assert (le_val (le64 g) = g) as E by by apply le_val_le64.
  change (zslice 6 14 b) with (le64 g). rewrite E.
  change (zslice 0 4 b) with CURRENT_MAGIC. rewrite slice_eqb_refl.
  change (zslice 4 6 b) with (le16 FORMAT_VERSION). rewrite le_val_le16 by done. done.
Qed.

Lemma current_encode_decode bs c :
  current_decode bs = Ok c ->
  current_encode c = bs /\ current_wf c /\ cur_format_version c = FORMAT_VERSION.
Proof.
  unfold current_decode. intros H. cbv zeta in H. ok_inv. bool_to_prop. unfold CURRENT_LEN in *.
  apply bool_decide_eq_true in E0, E2.
  assert (zlen (zslice 4 6 bs) = 2) as L1 by (rewrite zlen_zslice; lia).
  assert (zlen (zslice 6 14 bs) = 8) as L2 by (rewrite zlen_zslice; lia).
  split_and!; [|split; [by apply le_val_u16 | by apply le_val_u64] | done].
  unfold current_encode. cbn [cur_format_version manifest_generation]. cbv zeta.
  rewrite le16_val, le64_val, <-E0 by done.
  assert (zslice 0 4 bs ++ zslice 4 6 bs ++ zslice 6 14 bs = ztake 14 bs) as ->.
  { rewrite <-zslice_0, (zslice_split 0 4 14), (zslice_split 4 6 14) by lia. done. }
  rewrite E2, <-zslice_0, <-(zslice_split 0 14 22) by lia. by apply zslice_all.
Qed.
End CodecTheory.

(* ------------------------------------------------------------------ *)
(** * Properties *)

(** A concrete 32-byte digest, for evaluating the codecs on concrete inputs. *)
Definition toy_digest (bs : bytes) : bytes :=
  le_bytes 32 (fold_left (fun h b => (h * 257 + byte_val b + 1) mod 2 ^ 24) bs 7).
Lemma toy_digest_len bs : zlen (toy_digest bs) = 32.
Proof. unfold toy_digest. by rewrite zlen_le_bytes. Qed.
Definition toy_sha : Sha256 := {| sha256 := toy_digest; sha256_len := toy_digest_len |}.

(** CURRENT decodes exactly from the encodings of well-formed pointers of this
    format version: no other 22 bytes are accepted and nothing is read differently. *)
Theorem current_codec_exact {SHA : Sha256} (bs : bytes) (c : Current) :
  current_decode bs = Ok c <->
  current_wf c /\ cur_format_version c = FORMAT_VERSION /\ bs = current_encode c.
Proof.
  split.
  - intros H. apply current_encode_decode in H as (<- & ? & ?). done.
  - intros (? & ? & ->). by apply current_decode_encode.
Qed.

Lemma current_codec_exact_witness :
  @current_decode toy_sha (@current_encode toy_sha (mkCurrent 1 7)) = Ok (mkCurrent 1 7).
Proof. apply (@current_codec_exact toy_sha). split_and!; [split; done | done | done]. Defined.

(** The manifest codec is exact: a file is accepted iff it is the encoding of a
    well-formed manifest of this format version, whose fields it then yields; trailing
    bytes, implausible counts, flipped bits of any field or of the checksum are refused. *)
Theorem manifest_codec_exact {SHA : Sha256} (bs : bytes) (m : Manifest) :
  manifest_decode bs = Ok m <->
  manifest_wf m /\ format_version m = FORMAT_VERSION /\ bs = manifest_encode m.
Proof.
  split.
  - intros H. apply manifest_encode_decode in H as (<- & ? & ?). done.
  - intros (? & ? & ->). by apply manifest_decode_encode.
Qed.

Definition sample_manifest : Manifest :=
  mkManifest 1 3 [mkSegmentRecord 5 1 [x61] [x7a; x7a] 2 9 4 1024 77] [6] 3 3 2 11 12 13.

Lemma manifest_codec_exact_witness :
  @manifest_decode toy_sha (@manifest_encode toy_sha sample_manifest) = Ok sample_manifest.
Proof.
  apply (@manifest_codec_exact toy_sha). split_and!; [|done|done].
  unfold manifest_wf, segment_record_wf. cbn. repeat (split || constructor); done.
Defined.
