(* ===== verification/Identity.v ===== *)
(** crates/storage/aikoql-v2/src/identity/: the strong identity types and the
    per-generation identity and replica delta logs (directory.rs), with their
    byte-exact persistence. *)

From S2P Require Import Prelude Cursor Format.

(** Distinct newtypes over the wire widths (object_id.rs, logical_id.rs,
    replica_id.rs, node_id.rs).  An [ObjectId] is 16 raw bytes. *)
Record ObjectId : Type := mkObjectId { oid_bytes : bytes }.
Record LogicalId : Type := mkLogicalId { lid_val : Z }.
Record ReplicaId : Type := mkReplicaId { rid_val : Z }.
Record NodeId : Type := mkNodeId { node_val : Z }.

#[global] Instance ObjectId_eq_dec : EqDecision ObjectId.
Proof. solve_decision. Defined.
#[global] Instance LogicalId_eq_dec : EqDecision LogicalId.
Proof. solve_decision. Defined.
#[global] Instance ReplicaId_eq_dec : EqDecision ReplicaId.
Proof. solve_decision. Defined.
#[global] Instance NodeId_eq_dec : EqDecision NodeId.
Proof. solve_decision. Defined.

#[global] Instance ReplicaId_countable : Countable ReplicaId.
Proof. apply (inj_countable rid_val (fun z => Some (mkReplicaId z))). by intros []. Defined.
#[global] Instance ObjectId_countable : Countable ObjectId.
Proof. apply (inj_countable oid_bytes (fun b => Some (mkObjectId b))). by intros []. Defined.
#[global] Instance LogicalId_countable : Countable LogicalId.
Proof. apply (inj_countable lid_val (fun z => Some (mkLogicalId z))). by intros []. Defined.

Definition LOCAL_NODE_ID : NodeId := mkNodeId 1.

(** [to_bytes] / [from_bytes] of the four types. *)
Definition oid_to_bytes (o : ObjectId) : bytes := oid_bytes o.
Definition oid_from_bytes (bs : bytes) : ObjectId := mkObjectId bs.
Definition lid_to_bytes (l : LogicalId) : bytes := le64 (lid_val l).
Definition lid_from_bytes (bs : bytes) : LogicalId := mkLogicalId (le_val bs).
Definition rid_to_bytes (r : ReplicaId) : bytes := le64 (rid_val r).
Definition rid_from_bytes (bs : bytes) : ReplicaId := mkReplicaId (le_val bs).
Definition node_to_bytes (n : NodeId) : bytes := le64 (node_val n).
Definition node_from_bytes (bs : bytes) : NodeId := mkNodeId (le_val bs).

Definition oid_wf (o : ObjectId) : Prop := zlen (oid_bytes o) = 16.
Definition lid_wf (l : LogicalId) : Prop := is_u64 (lid_val l).
Definition rid_wf (r : ReplicaId) : Prop := is_u64 (rid_val r).
Definition node_wf (n : NodeId) : Prop := is_u64 (node_val n).

(** The readers [X::from_bytes(cur.take(n)?)]. *)
Definition coid : Dec ObjectId := bs ← ctake 16; mret (oid_from_bytes bs).
Definition clid : Dec LogicalId := bs ← ctake 8; mret (lid_from_bytes bs).
Definition crid : Dec ReplicaId := bs ← ctake 8; mret (rid_from_bytes bs).
Definition cnode : Dec NodeId := bs ← ctake 8; mret (node_from_bytes bs).

Definition IDENTITY_MAGIC : bytes := [x41; x4b; x49; x44].
Definition REPLICA_MAGIC : bytes := [x41; x4b; x52; x50].
Definition IDENTITY_RECORD_LEN : Z := 24.
Definition REPLICA_RECORD_LEN : Z := 24.
Definition HEADER_LEN : Z := 18.

Record IdentityRecord : Type := mkIdentityRecord { ir_oid : ObjectId; ir_lid : LogicalId }.
Record ReplicaRecord : Type := mkReplicaRecord {
  rr_lid : LogicalId; rr_node : NodeId; rr_rid : ReplicaId }.
Record IdentityLog : Type := mkIdentityLog {
  il_format_version : Z; il_generation : Z; il_records : list IdentityRecord }.
Record ReplicaLog : Type := mkReplicaLog {
  rl_format_version : Z; rl_generation : Z; rl_records : list ReplicaRecord }.

Definition identity_record_wf (r : IdentityRecord) : Prop := oid_wf (ir_oid r) /\ lid_wf (ir_lid r).
Definition replica_record_wf (r : ReplicaRecord) : Prop :=
  lid_wf (rr_lid r) /\ node_wf (rr_node r) /\ rid_wf (rr_rid r).
Definition identity_log_wf (l : IdentityLog) : Prop :=
  il_format_version l = FORMAT_VERSION /\ is_u64 (il_generation l) /\
  is_u32 (zlen (il_records l)) /\ Forall identity_record_wf (il_records l).
Definition replica_log_wf (l : ReplicaLog) : Prop :=
  rl_format_version l = FORMAT_VERSION /\ is_u64 (rl_generation l) /\
  is_u32 (zlen (rl_records l)) /\ Forall replica_record_wf (rl_records l).

Definition identity_record_encode (r : IdentityRecord) : bytes :=
  oid_to_bytes (ir_oid r) ++ lid_to_bytes (ir_lid r).
Definition identity_record_decode : Dec IdentityRecord :=
  o ← coid; l ← clid; mret (mkIdentityRecord o l).
Definition replica_record_encode (r : ReplicaRecord) : bytes :=
  lid_to_bytes (rr_lid r) ++ node_to_bytes (rr_node r) ++ rid_to_bytes (rr_rid r).
Definition replica_record_decode : Dec ReplicaRecord :=
  l ← clid; n ← cnode; r ← crid; mret (mkReplicaRecord l n r).

Section Codec.
Context {SHA : Sha256}.

(** [IdentityLog::encode], [IdentityLog::decode], [IdentityLog::encoded_len]. *)
Definition identity_log_body (l : IdentityLog) : bytes :=
  IDENTITY_MAGIC ++ le16 (il_format_version l) ++ le64 (il_generation l) ++
  le32 (as_u32 (zlen (il_records l))) ++ concat (map identity_record_encode (il_records l)).
Definition identity_log_encode (l : IdentityLog) : bytes :=
  identity_log_body l ++ checksum8 (identity_log_body l).

Definition identity_log_decode (bs : bytes) : Result IdentityLog :=
  run_dec (
    magic ← ctake 4;
    _ ← dguard (negb (slice_eqb magic IDENTITY_MAGIC)) (Corrupt "identity log bad magic");
    v ← cu16;
    _ ← dguard (negb (v =? FORMAT_VERSION)) (Unsupported "identity log format version");
    gen ← cu64;
    count ← cu32;
    c1 ← dget;
    _ ← dguard (remaining c1 / IDENTITY_RECORD_LEN <? count)
          (Corrupt "identity log record_count cannot fit in remaining bytes");
    recs ← drepeat (Z.to_nat count) identity_record_decode;
    ck ← ctake 8;
    c2 ← dget;
    _ ← dguard (negb (is_empty c2)) (Corrupt "identity log trailing bytes");
    _ ← dguard (negb (slice_eqb (checksum8 (ztake (zlen bs - 8) bs)) ck))
          (Corrupt "identity log checksum mismatch");
    mret (mkIdentityLog v gen recs)) bs.

Definition identity_log_encoded_len (l : IdentityLog) : Z :=
  HEADER_LEN + zlen (il_records l) * IDENTITY_RECORD_LEN + 8.

(** [ReplicaLog::encode], [ReplicaLog::decode], [ReplicaLog::encoded_len]. *)
Definition replica_log_body (l : ReplicaLog) : bytes :=
  REPLICA_MAGIC ++ le16 (rl_format_version l) ++ le64 (rl_generation l) ++
  le32 (as_u32 (zlen (rl_records l))) ++ concat (map replica_record_encode (rl_records l)).
Definition replica_log_encode (l : ReplicaLog) : bytes :=
  replica_log_body l ++ checksum8 (replica_log_body l).

Definition replica_log_decode (bs : bytes) : Result ReplicaLog :=
  run_dec (
    magic ← ctake 4;
    _ ← dguard (negb (slice_eqb magic REPLICA_MAGIC)) (Corrupt "replica log bad magic");
    v ← cu16;
    _ ← dguard (negb (v =? FORMAT_VERSION)) (Unsupported "replica log format version");
    gen ← cu64;
    count ← cu32;
    c1 ← dget;
    _ ← dguard (remaining c1 / REPLICA_RECORD_LEN <? count)
          (Corrupt "replica log record_count cannot fit in remaining bytes");
    recs ← drepeat (Z.to_nat count) replica_record_decode;
    ck ← ctake 8;
    c2 ← dget;
    _ ← dguard (negb (is_empty c2)) (Corrupt "replica log trailing bytes");
    _ ← dguard (negb (slice_eqb (checksum8 (ztake (zlen bs - 8) bs)) ck))
          (Corrupt "replica log checksum mismatch");
    mret (mkReplicaLog v gen recs)) bs.

Definition replica_log_encoded_len (l : ReplicaLog) : Z :=
  HEADER_LEN + zlen (rl_records l) * REPLICA_RECORD_LEN + 8.

End Codec.

(* ------------------------------------------------------------------ *)
(** * Theory *)

Lemma reads_oid o r : oid_wf o -> reads coid (oid_to_bytes o) r o.
Proof. intros H. eapply reads_map; [by apply reads_take|]. destruct o. apply reads_ret. Qed.
Lemma reads_lid l r : lid_wf l -> reads clid (lid_to_bytes l) r l.
Proof.
  intros H. eapply reads_map; [apply reads_take, zlen_le64|]. unfold lid_from_bytes, lid_to_bytes.
  rewrite le_val_le64 by done. destruct l. apply reads_ret.
Qed.
Lemma reads_rid l r : rid_wf l -> reads crid (rid_to_bytes l) r l.
Proof.
  intros H. eapply reads_map; [apply reads_take, zlen_le64|]. unfold rid_from_bytes, rid_to_bytes.
  rewrite le_val_le64 by done. destruct l. apply reads_ret.
Qed.
Lemma reads_node l r : node_wf l -> reads cnode (node_to_bytes l) r l.
Proof.
  intros H. eapply reads_map; [apply reads_take, zlen_le64|]. unfold node_from_bytes, node_to_bytes.
  rewrite le_val_le64 by done. destruct l. apply reads_ret.
Qed.
#[export] Hint Resolve reads_oid reads_lid reads_rid reads_node : reads.

Lemma exact_oid : exact coid oid_to_bytes oid_wf.
Proof.
  intros c a c' Hc Hd. unfold coid in Hd. dec_exact (exact_take 16 ltac:(lia)). dec_ret. auto.
Qed.
Lemma exact_lid : exact clid lid_to_bytes lid_wf.
Proof.
  intros c a c' Hc Hd. unfold clid in Hd. dec_exact (exact_take 8 ltac:(lia)). dec_ret.
  unfold lid_to_bytes. cbn. rewrite le64_val by done. split_and!; try done. by apply le_val_u64.
Qed.
Lemma exact_rid : exact crid rid_to_bytes rid_wf.
Proof.
  intros c a c' Hc Hd. unfold crid in Hd. dec_exact (exact_take 8 ltac:(lia)). dec_ret.
  unfold rid_to_bytes. cbn. rewrite le64_val by done. split_and!; try done. by apply le_val_u64.
Qed.
Lemma exact_node : exact cnode node_to_bytes node_wf.
Proof.
  intros c a c' Hc Hd. unfold cnode in Hd. dec_exact (exact_take 8 ltac:(lia)). dec_ret.
  unfold node_to_bytes. cbn. rewrite le64_val by done. split_and!; try done. by apply le_val_u64.
Qed.

(** The shape the delta-log families share, with the record codec left open. *)
Section LogFamily.
Context {SHA : Sha256} {R L : Type}.
Variables (magic : bytes) (rec_len : Z) (rec_encode : R -> bytes) (rec_decode : Dec R)
  (rec_wf : R -> Prop) (mk : Z -> Z -> list R -> L)
  (e_magic e_version e_count e_trailing e_checksum : FormatError).

Definition log_body (v gen : Z) (recs : list R) : bytes :=
  magic ++ le16 v ++ le64 gen ++ le32 (as_u32 (zlen recs)) ++ concat (map rec_encode recs).

Definition log_decode (bs : bytes) : Result L :=
  run_dec (
    m ← ctake 4;
    _ ← dguard (negb (slice_eqb m magic)) e_magic;
    v ← cu16;
    _ ← dguard (negb (v =? FORMAT_VERSION)) e_version;
    gen ← cu64;
    count ← cu32;
    c1 ← dget;
    _ ← dguard (remaining c1 / rec_len <? count) e_count;
    recs ← drepeat (Z.to_nat count) rec_decode;
    ck ← ctake 8;
    c2 ← dget;
    _ ← dguard (negb (is_empty c2)) e_trailing;
    _ ← dguard (negb (slice_eqb (checksum8 (ztake (zlen bs - 8) bs)) ck)) e_checksum;
    mret (mk v gen recs)) bs.

Hypotheses (Hmagic : zlen magic = 4) (Hlen : 0 < rec_len)
  (Hrec_len : forall r, rec_wf r -> zlen (rec_encode r) = rec_len)
  (Hreads : forall r rest, rec_wf r -> reads rec_decode (rec_encode r) rest r)
  (Hexact : exact rec_decode rec_encode rec_wf).

Lemma zlen_records recs : Forall rec_wf recs -> zlen (concat (map rec_encode recs)) = rec_len * zlen recs.
Proof.
  induction 1 as [|r recs Hr _ IH]; cbn [map concat]; [unfold zlen; cbn; lia|].
  rewrite zlen_app, zlen_cons, IH, Hrec_len by done. lia.
Qed.

Lemma log_decode_encode gen recs :
  is_u64 gen -> is_u32 (zlen recs) -> Forall rec_wf recs ->
  let body := log_body FORMAT_VERSION gen recs in
  log_decode (body ++ checksum8 body) = Ok (mk FORMAT_VERSION gen recs).
Proof.
  intros Hg Hn Hr body. eapply reads_run.
  { unfold body at 1, log_body. rewrite as_u32_small, <-!app_assoc by done. reflexivity. }
  eapply reads_bind; [by apply reads_take|].
  eapply reads_bind0; [apply reads_guard; by rewrite slice_eqb_refl|].
  reads_field. eapply reads_bind0; [by apply reads_guard|]. do 2 reads_field.
  apply reads_dget. intros c1 Hc1 E1. eapply reads_bind0; [apply reads_guard|].
  { eapply count_fits; [done | | done | rewrite <-app_assoc in E1; exact E1].
    rewrite zlen_records by done. lia. }
  rewrite zlen_to_nat. eapply reads_bind; [eapply reads_repeat; [apply Hreads | done]|].
  eapply reads_map; [apply reads_take, zlen_checksum8|].
  apply reads_dget. intros c3 Hc3 E3. eapply reads_bind0.
  { apply reads_guard. rewrite (proj2 (is_empty_crest c3 Hc3) E3). done. }
  eapply reads_bind0; [apply reads_guard | apply reads_ret].
  rewrite ztake_app; [by rewrite slice_eqb_refl|]. rewrite zlen_app, zlen_checksum8. lia.
Qed.

Lemma log_encode_decode bs l :
  log_decode bs = Ok l -> exists gen recs,
    l = mk FORMAT_VERSION gen recs /\ is_u64 gen /\ is_u32 (zlen recs) /\ Forall rec_wf recs /\
    bs = log_body FORMAT_VERSION gen recs ++ checksum8 (log_body FORMAT_VERSION gen recs).
Proof.
  intros Hd. apply run_dec_Ok in Hd as [c' Hd]. pose proof (cur_ok_new bs) as Hc.
  dec_exact (exact_take 4 ltac:(lia)). dec_guard. dec_exact exact_u16. dec_guard.
  dec_exact exact_u64. dec_exact exact_u32. dec_get. dec_guard.
  dec_exact (exact_repeat _ _ _ (Z.to_nat v2) Hexact).
  dec_exact (exact_take 8 ltac:(lia)). dec_get. dec_guard. dec_guard. dec_ret. bool_to_prop.
  apply is_empty_crest in Hg2; [|done]. apply bool_decide_eq_true in Hg, Hg3.
  destruct Hp3 as [L3 F3]. unfold id in *.
  assert (zlen v3 = v2) as L3' by (unfold zlen; rewrite L3; destruct Hp2; lia).
  exists v1, v3. rewrite L3'. split_and!; try done; [congruence|].
  assert (bs = log_body FORMAT_VERSION v1 v3 ++ v4) as Eb.
  { rewrite <-(crest_new bs). unfold log_body. rewrite L3', as_u32_small by done.
    rewrite Er, Er0, Er1, Er2, Er3, Er4, Hg, Hg0, Hg2, app_nil_r. by rewrite <-!app_assoc. }
  rewrite Eb. f_equal. rewrite <-Hg3. f_equal. rewrite Eb. apply ztake_app. rewrite zlen_app. lia.
Qed.

Lemma zlen_log v gen recs :
  Forall rec_wf recs ->
  zlen (log_body v gen recs ++ checksum8 (log_body v gen recs)) = HEADER_LEN + zlen recs * rec_len + 8.
Proof.
  intros Hr. unfold log_body. autorewrite with zlen.
  rewrite zlen_checksum8, zlen_records, Hmagic by done. unfold HEADER_LEN. lia.
Qed.
End LogFamily.

Lemma identity_record_reads r rest :
  identity_record_wf r -> reads identity_record_decode (identity_record_encode r) rest r.
Proof.
  intros [??]. unfold identity_record_decode, identity_record_encode.
  reads_field. eapply reads_map; [by apply reads_lid|]. destruct r. apply reads_ret.
Qed.
Lemma identity_record_exact :
  exact identity_record_decode identity_record_encode identity_record_wf.
Proof.
  intros c a c' Hc Hd. unfold identity_record_decode in Hd.
  dec_exact exact_oid. dec_exact exact_lid. dec_ret. unfold identity_record_encode, identity_record_wf.
  cbn [ir_oid ir_lid]. rewrite Er, Er0, <-app_assoc. split_and!; try done. congruence.
Qed.
Lemma replica_record_reads r rest :
  replica_record_wf r -> reads replica_record_decode (replica_record_encode r) rest r.
Proof.
  intros (?&?&?). unfold replica_record_decode, replica_record_encode.
  do 2 reads_field. eapply reads_map; [by apply reads_rid|]. destruct r. apply reads_ret.
Qed.
Lemma replica_record_exact :
  exact replica_record_decode replica_record_encode replica_record_wf.
Proof.
  intros c a c' Hc Hd. unfold replica_record_decode in Hd.
  dec_exact exact_lid. dec_exact exact_node. dec_exact exact_rid. dec_ret.
  unfold replica_record_encode, replica_record_wf. cbn [rr_lid rr_node rr_rid].
  rewrite Er, Er0, Er1, <-!app_assoc. split_and!; try done. congruence.
Qed.

Lemma zlen_identity_record r : identity_record_wf r -> zlen (identity_record_encode r) = IDENTITY_RECORD_LEN.
Proof. intros [Ho _]. unfold identity_record_encode. rewrite zlen_app. unfold oid_to_bytes. rewrite Ho. done. Qed.
Lemma zlen_replica_record r : replica_record_wf r -> zlen (replica_record_encode r) = REPLICA_RECORD_LEN.
Proof. done. Qed.

Lemma identity_log_family {SHA : Sha256} :
  identity_log_decode = log_decode IDENTITY_MAGIC IDENTITY_RECORD_LEN identity_record_decode mkIdentityLog
    (Corrupt "identity log bad magic") (Unsupported "identity log format version")
    (Corrupt "identity log record_count cannot fit in remaining bytes")
    (Corrupt "identity log trailing bytes") (Corrupt "identity log checksum mismatch").
Proof. reflexivity. Qed.
Lemma identity_log_body_family v g r :
  identity_log_body (mkIdentityLog v g r) = log_body IDENTITY_MAGIC identity_record_encode v g r.
Proof. reflexivity. Qed.

Lemma replica_log_family {SHA : Sha256} :
  replica_log_decode = log_decode REPLICA_MAGIC REPLICA_RECORD_LEN replica_record_decode mkReplicaLog
    (Corrupt "replica log bad magic") (Unsupported "replica log format version")
    (Corrupt "replica log record_count cannot fit in remaining bytes")
    (Corrupt "replica log trailing bytes") (Corrupt "replica log checksum mismatch").
Proof. reflexivity. Qed.
Lemma replica_log_body_family v g r :
  replica_log_body (mkReplicaLog v g r) = log_body REPLICA_MAGIC replica_record_encode v g r.
Proof. reflexivity. Qed.

(* ------------------------------------------------------------------ *)
(** * Properties *)

(** The identity delta log is byte-exact (ID-005): a file is accepted iff it is the
    encoding of a well-formed log, and the encoding has the length the checkpoint budget
    computes. *)
Theorem identity_log_exact {SHA : Sha256} (bs : bytes) (l : IdentityLog) :
  identity_log_decode bs = Ok l <->
  identity_log_wf l /\ bs = identity_log_encode l /\ zlen bs = identity_log_encoded_len l.
Proof.
  rewrite identity_log_family. split.
  - intros H. eapply log_encode_decode in H; [|exact identity_record_exact]. destruct H
      as (g & r & -> & Hg & Hn & Hr & E).
    split_and!; [done | exact E|]. rewrite E.
    by apply (zlen_log IDENTITY_MAGIC IDENTITY_RECORD_LEN _ _ eq_refl zlen_identity_record).
  - intros ((Hv & Hg & Hn & Hr) & -> & _). destruct l as [v g r]. cbn in Hv, Hg, Hn, Hr. subst v.
    unfold identity_log_encode. rewrite identity_log_body_family.
    apply (log_decode_encode _ _ _ _ identity_record_wf); try done;
      [apply zlen_identity_record | intros; by apply identity_record_reads].
Qed.

Lemma identity_log_exact_witness :
  let l := mkIdentityLog 1 4 [mkIdentityRecord (mkObjectId (repeat x07 16)) (mkLogicalId 42)] in
  @identity_log_decode toy_sha (@identity_log_encode toy_sha l) = Ok l.
Proof.
  intros l. apply (@identity_log_exact toy_sha). split_and!; [|done|done].
  unfold identity_log_wf, identity_record_wf. cbn. repeat (split || constructor); done.
Defined.

(** The replica delta log is byte-exact, with the length its budget computes. *)
Theorem replica_log_exact {SHA : Sha256} (bs : bytes) (l : ReplicaLog) :
  replica_log_decode bs = Ok l <->
  replica_log_wf l /\ bs = replica_log_encode l /\ zlen bs = replica_log_encoded_len l.
Proof.
  rewrite replica_log_family. split.
  - intros H. eapply log_encode_decode in H; [|exact replica_record_exact]. destruct H
      as (g & r & -> & Hg & Hn & Hr & E).
    split_and!; [done | exact E|]. rewrite E.
    by apply (zlen_log REPLICA_MAGIC REPLICA_RECORD_LEN _ _ eq_refl zlen_replica_record).
  - intros ((Hv & Hg & Hn & Hr) & -> & _). destruct l as [v g r]. cbn in Hv, Hg, Hn, Hr. subst v.
    unfold replica_log_encode. rewrite replica_log_body_family.
    apply (log_decode_encode _ _ _ _ replica_record_wf); try done;
      intros; by apply replica_record_reads.
Qed.

Lemma replica_log_exact_witness :
  let l := mkReplicaLog 1 4 [mkReplicaRecord (mkLogicalId 42) LOCAL_NODE_ID (mkReplicaId 42)] in
  @replica_log_decode toy_sha (@replica_log_encode toy_sha l) = Ok l.
Proof.
  intros l. apply (@replica_log_exact toy_sha). split_and!; [|done|done].
  unfold replica_log_wf, replica_record_wf. cbn. repeat (split || constructor); done.
Defined.
