(* ===== verification/Placement.v ===== *)
(** crates/storage/aikoql-v2/src/placement/: the placement directory (directory.rs): the
    variant type, its delta log, and the generation gate every apply goes through. *)

From stdpp Require Import gmap.
From S2P Require Import Prelude Cursor Format Identity.

(** mod.rs: [SegmentId] and [BlockId] are newtypes over u64 and u32. *)
Abbreviation SegmentId := Z (only parsing).
Abbreviation BlockId := Z (only parsing).

(** [struct PhysicalLocation], [enum Placement], [struct PlacementRecord]. *)
Record PhysicalLocation : Type := mkPhysicalLocation {
  pl_segment_id : SegmentId; pl_block_id : BlockId; pl_entry_offset : Z; pl_generation : Z }.
Inductive Placement : Type :=
  | PMemtable (generation : Z)
  | PSegment (loc : PhysicalLocation)
  | PRetired (generation : Z).
Record PlacementRecord : Type := mkPlacementRecord { pr_rid : ReplicaId; pr_placement : Placement }.

#[global] Instance PhysicalLocation_eq_dec : EqDecision PhysicalLocation.
Proof. solve_decision. Defined.
#[global] Instance Placement_eq_dec : EqDecision Placement.
Proof. solve_decision. Defined.
#[global] Instance PlacementRecord_eq_dec : EqDecision PlacementRecord.
Proof. solve_decision. Defined.

(** [Placement::generation]. *)
Definition placement_generation (p : Placement) : Z :=
  match p with PMemtable g | PRetired g => g | PSegment loc => pl_generation loc end.

(** [enum ApplyOutcome] and [merge_placement]: the one gate. *)
Inductive ApplyOutcome : Type := Applied | Duplicate | StalePlacement.
Abbreviation Placements := (gmap ReplicaId Placement).
Definition merge_placement (placements : Placements) (rid : ReplicaId) (placement : Placement)
    : Result (Placements * ApplyOutcome) :=
  let incoming := placement_generation placement in
  match placements !! rid with
  | None => Ok (<[rid := placement]> placements, Applied)
  | Some existing =>
      if incoming <? placement_generation existing then Ok (placements, StalePlacement)
      else if bool_decide (existing = placement) then Ok (placements, Duplicate)
      else if placement_generation existing <? incoming then Ok (<[rid := placement]> placements, Applied)
      else Err (Corrupt "placement changed at the same generation")
  end.

(** [validate_segment_location]. *)
Definition validate_segment_location (loc : PhysicalLocation) (manifest_segment_ids : gset Z)
    (block_entries : option Z) : Result unit :=
  if negb (bool_decide (pl_segment_id loc ∈ manifest_segment_ids))
  then Err (Corrupt "placement references a segment absent from the manifest") else
  match block_entries with
  | None => Err (Corrupt "placement block past the segment's blocks")
  | Some entries =>
      if entries <=? pl_entry_offset loc then Err (Corrupt "placement entry past the block's entries") else Ok tt
  end.

(** [PlacementDirectory::apply] over records, as recovery folds them. *)
Definition apply_records (placements : Placements) (recs : list PlacementRecord) : Result Placements :=
  fold_result (fun m r => '(m, _) ← merge_placement m (pr_rid r) (pr_placement r); Ok m) placements recs.

(* ------------------------------------------------------------------ *)
(** * The delta log *)

Definition PLACEMENT_MAGIC : bytes := [x41; x4b; x50; x4c].
Definition PLACEMENT_RECORD_LEN : Z := 33.
Definition VARIANT_MEMTABLE : Z := 1.
Definition VARIANT_SEGMENT : Z := 2.
Definition VARIANT_RETIRED : Z := 3.

Record PlacementLog : Type := mkPlacementLog {
  pg_format_version : Z; pg_generation : Z; pg_records : list PlacementRecord }.

(** The record encoder of [PlacementLog::encode]: 33 bytes for every variant. *)
Definition placement_encode (p : Placement) : bytes :=
  match p with
  | PMemtable g => [byte_of VARIANT_MEMTABLE] ++ repeat x00 16 ++ le64 g
  | PSegment loc => [byte_of VARIANT_SEGMENT] ++ le64 (pl_segment_id loc) ++ le32 (pl_block_id loc) ++
      le32 (pl_entry_offset loc) ++ le64 (pl_generation loc)
  | PRetired g => [byte_of VARIANT_RETIRED] ++ repeat x00 16 ++ le64 g
  end.
Definition placement_record_encode (r : PlacementRecord) : bytes :=
  rid_to_bytes (pr_rid r) ++ placement_encode (pr_placement r).

(** The record decoder of [PlacementLog::decode]; the zeroed fields are skipped unread. *)
Definition placement_decode (e_variant : FormatError) : Dec Placement :=
  variant ← cu8;
  if variant =? VARIANT_MEMTABLE then _ ← ctake 16; g ← cu64; mret (PMemtable g)
  else if variant =? VARIANT_SEGMENT then
    s ← cu64; b ← cu32; o ← cu32; g ← cu64; mret (PSegment (mkPhysicalLocation s b o g))
  else if variant =? VARIANT_RETIRED then _ ← ctake 16; g ← cu64; mret (PRetired g)
  else dfail e_variant.
Definition placement_record_decode (e_variant : FormatError) : Dec PlacementRecord :=
  rid ← crid; p ← placement_decode e_variant; mret (mkPlacementRecord rid p).

Section Codec.
Context {SHA : Sha256}.

(** [PlacementLog::encode], [PlacementLog::decode], [PlacementLog::encoded_len]. *)
Definition placement_log_body (l : PlacementLog) : bytes :=
  PLACEMENT_MAGIC ++ le16 (pg_format_version l) ++ le64 (pg_generation l) ++
  le32 (as_u32 (zlen (pg_records l))) ++ concat (map placement_record_encode (pg_records l)).
Definition placement_log_encode (l : PlacementLog) : bytes :=
  placement_log_body l ++ checksum8 (placement_log_body l).

Definition placement_log_decode (bs : bytes) : Result PlacementLog :=
  run_dec (
    magic ← ctake 4;
    _ ← dguard (negb (slice_eqb magic PLACEMENT_MAGIC)) (Corrupt "placement log bad magic");
    v ← cu16;
    _ ← dguard (negb (v =? FORMAT_VERSION)) (Unsupported "placement log format version");
    gen ← cu64;
    count ← cu32;
    c1 ← dget;
    _ ← dguard (remaining c1 / PLACEMENT_RECORD_LEN <? count)
          (Corrupt "placement log record_count cannot fit in remaining bytes");
    recs ← drepeat (Z.to_nat count) (placement_record_decode (Unsupported "placement variant byte"));
    ck ← ctake 8;
    c2 ← dget;
    _ ← dguard (negb (is_empty c2)) (Corrupt "placement log trailing bytes");
    _ ← dguard (negb (slice_eqb (checksum8 (ztake (zlen bs - 8) bs)) ck))
          (Corrupt "placement log checksum mismatch");
    mret (mkPlacementLog v gen recs)) bs.

Definition placement_log_encoded_len (l : PlacementLog) : Z :=
  HEADER_LEN + zlen (pg_records l) * PLACEMENT_RECORD_LEN + 8.
End Codec.

Definition placement_wf (p : Placement) : Prop :=
  match p with
  | PMemtable g | PRetired g => is_u64 g
  | PSegment loc => is_u64 (pl_segment_id loc) /\ is_u32 (pl_block_id loc) /\ is_u32 (pl_entry_offset loc) /\ is_u64 (pl_generation loc)
  end.
Definition placement_record_wf (r : PlacementRecord) : Prop := rid_wf (pr_rid r) /\ placement_wf (pr_placement r).
Definition placement_log_wf (l : PlacementLog) : Prop :=
  pg_format_version l = FORMAT_VERSION /\ is_u64 (pg_generation l) /\
  is_u32 (zlen (pg_records l)) /\ Forall placement_record_wf (pg_records l).

(* ------------------------------------------------------------------ *)
(** * Theory *)

Lemma placement_record_reads e r rest :
  placement_record_wf r -> reads (placement_record_decode e) (placement_record_encode r) rest r.
Proof.
  intros [Hr Hp]. destruct r as [rid p]. cbn in Hr, Hp. unfold placement_record_decode, placement_record_encode.
  cbn [pr_rid pr_placement]. reads_field. rewrite <-(app_nil_r (placement_encode p)).
  eapply reads_bind; [|apply reads_ret]. rewrite app_nil_l. unfold placement_decode.
  destruct p as [g|[s b o g]|g]; cbn [placement_encode placement_wf pl_segment_id pl_block_id pl_entry_offset pl_generation] in *.
  - eapply reads_bind; [by apply reads_u8|]. cbn [Z.eqb]. eapply reads_bind; [by apply reads_take|].
    eapply reads_map; [by apply reads_u64 | apply reads_ret].
  - destruct Hp as (Hs & Hb & Ho & Hg). eapply reads_bind; [by apply reads_u8|]. cbn [Z.eqb].
    do 3 reads_field. eapply reads_map; [by apply reads_u64 | apply reads_ret].
  - eapply reads_bind; [by apply reads_u8|]. cbn [Z.eqb]. eapply reads_bind; [by apply reads_take|].
    eapply reads_map; [by apply reads_u64 | apply reads_ret].
Qed.
Lemma zlen_placement_record r : placement_record_wf r -> zlen (placement_record_encode r) = PLACEMENT_RECORD_LEN.
Proof. intros _. destruct r as [rid [g|[s b o g]|g]]; done. Qed.

Lemma placement_log_family {SHA : Sha256} :
  placement_log_decode = log_decode PLACEMENT_MAGIC PLACEMENT_RECORD_LEN
    (placement_record_decode (Unsupported "placement variant byte")) mkPlacementLog
    (Corrupt "placement log bad magic") (Unsupported "placement log format version")
    (Corrupt "placement log record_count cannot fit in remaining bytes")
    (Corrupt "placement log trailing bytes") (Corrupt "placement log checksum mismatch").
Proof. reflexivity. Qed.

(** Records that agree wherever a replica repeats a generation. *)
Definition gate_consistent (recs : list PlacementRecord) : Prop :=
  forall a b, a ∈ recs -> b ∈ recs -> pr_rid a = pr_rid b ->
  placement_generation (pr_placement a) = placement_generation (pr_placement b) -> a = b.

(** The map holds, per replica, its record of highest generation. *)
Definition newest_of (recs : list PlacementRecord) (m : Placements) : Prop :=
  forall rid, match m !! rid with
    | Some p => mkPlacementRecord rid p ∈ recs /\
        forall r, r ∈ recs -> pr_rid r = rid -> placement_generation (pr_placement r) <= placement_generation p
    | None => forall r, r ∈ recs -> pr_rid r <> rid
    end.

Lemma merge_placement_newest recs m r :
  newest_of recs m -> gate_consistent (recs ++ [r]) ->
  exists m' o, merge_placement m (pr_rid r) (pr_placement r) = Ok (m', o) /\ newest_of (recs ++ [r]) m'.
Proof.
  intros Hn Hc. assert (forall x, x ∈ recs ++ [r] <-> x ∈ recs \/ x = r) as Hel.
  { intros x. by rewrite elem_of_app, list_elem_of_singleton. }
  assert (forall rid, rid <> pr_rid r -> match m !! rid with
    | Some p => mkPlacementRecord rid p ∈ recs ++ [r] /\
        forall x, x ∈ recs ++ [r] -> pr_rid x = rid -> placement_generation (pr_placement x) <= placement_generation p
    | None => forall x, x ∈ recs ++ [r] -> pr_rid x <> rid end) as Hother.
  { intros rid Hne. pose proof (Hn rid) as H. destruct (m !! rid) as [p|].
    - destruct H as [Hin Hmax]. split; [rewrite Hel; auto|]. intros x [Hx| ->]%Hel Ex; [by apply Hmax | done].
    - intros x [Hx| ->]%Hel; [by apply H | done]. }
  pose proof (Hn (pr_rid r)) as Hr. unfold merge_placement. destruct r as [rid p]. cbn [pr_rid pr_placement] in *.
  assert (forall old, m !! rid = Some old -> placement_generation old <= placement_generation p -> newest_of (recs ++ [mkPlacementRecord rid p]) (<[rid := p]> m)) as Hset.
  { intros old Ho Hle rid'. destruct (decide (rid' = rid)) as [->|Hne]; [|rewrite lookup_insert_ne by done; by apply Hother].
    rewrite lookup_insert_eq. split; [rewrite Hel; auto|]. rewrite Ho in Hr. intros x [Hx| ->]%Hel Ex; [|done].
    destruct Hr as [_ Hmax]. specialize (Hmax x Hx Ex). lia. }
  destruct (m !! rid) as [old|] eqn:Ho.
  - destruct Hr as [Hin Hmax]. assert (placement_generation p <= placement_generation old -> newest_of (recs ++ [mkPlacementRecord rid p]) m) as Hsame.
    { intros Hle rid'. destruct (decide (rid' = rid)) as [->|Hne]; [|by apply Hother]. rewrite Ho. split; [rewrite Hel; auto|].
      intros x [Hx| ->]%Hel Ex; [by apply Hmax | done]. }
    destruct (placement_generation p <? placement_generation old) eqn:E1; bool_to_prop; [eexists _, _; split; [reflexivity|]; apply Hsame; lia|].
    case_bool_decide as E2; [subst; eexists _, _; split; [reflexivity|]; by apply Hsame|].
    destruct (placement_generation old <? placement_generation p) eqn:E3; bool_to_prop.
    + eexists _, _. split; [reflexivity|]. apply (Hset old); [done | lia].
    + exfalso. apply E2. assert (mkPlacementRecord rid old = mkPlacementRecord rid p) as E by (apply Hc; [rewrite Hel; auto.. | done | cbn; lia]).
      by injection E.
  - eexists _, _. split; [reflexivity|]. intros rid'. destruct (decide (rid' = rid)) as [->|Hne]; [|rewrite lookup_insert_ne by done; by apply Hother].
    rewrite lookup_insert_eq. split; [rewrite Hel; auto|]. intros x [Hx| ->]%Hel Ex; [by destruct (Hr x Hx) | done].
Qed.

Lemma apply_records_newest recs : forall seen m,
  newest_of seen m -> gate_consistent (seen ++ recs) ->
  exists m', apply_records m recs = Ok m' /\ newest_of (seen ++ recs) m'.
Proof.
  induction recs as [|r recs IH]; intros seen m Hn Hc; [exists m; rewrite app_nil_r; done|].
  rewrite cons_middle, app_assoc in Hc |- *. destruct (merge_placement_newest seen m r Hn) as (m1 & o & E & Hn1).
  { intros a b Ha Hb. apply Hc; rewrite elem_of_app; auto. }
  unfold apply_records. cbn [fold_result]. rewrite E. cbn [mbind Result_bind]. by apply IH.
Qed.

Lemma newest_of_unique l k m n :
  newest_of l m -> newest_of k n -> (forall x, x ∈ l <-> x ∈ k) -> gate_consistent l -> m = n.
Proof.
  intros Hm Hn Hx Hc. apply map_eq. intros rid. pose proof (Hm rid) as H1. pose proof (Hn rid) as H2.
  destruct (m !! rid) as [p|], (n !! rid) as [q|]; [|exfalso..|done].
  - destruct H1 as [Hi1 Hl1], H2 as [Hi2 Hl2]. f_equal.
    assert (mkPlacementRecord rid p = mkPlacementRecord rid q) as E; [|by injection E].
    apply Hc; [done | by apply Hx | done|]. cbn. apply Z.le_antisymm.
    + apply (Hl2 (mkPlacementRecord rid p)); [by apply Hx | done].
    + apply (Hl1 (mkPlacementRecord rid q)); [by apply Hx | done].
  - destruct H1 as [Hi _]. apply Hx in Hi. by apply H2 in Hi.
  - destruct H2 as [Hi _]. apply Hx in Hi. by apply H1 in Hi.
Qed.

Lemma newest_of_nil : newest_of [] ∅.
Proof. intros rid. rewrite lookup_empty. intros r Hr. by apply not_elem_of_nil in Hr. Qed.

(* ------------------------------------------------------------------ *)
(** * Properties *)

(** The placement delta log reads back what was written, at the length the checkpoint
    budget computes. *)
Theorem placement_log_roundtrip {SHA : Sha256} (l : PlacementLog) :
  placement_log_wf l ->
  placement_log_decode (placement_log_encode l) = Ok l /\ zlen (placement_log_encode l) = placement_log_encoded_len l.
Proof.
  intros (Hv & Hg & Hn & Hr). destruct l as [v g r]. cbn in Hv, Hg, Hn, Hr. subst v. split.
  - rewrite placement_log_family.
    apply (log_decode_encode PLACEMENT_MAGIC PLACEMENT_RECORD_LEN placement_record_encode _ placement_record_wf); try done.
    + apply zlen_placement_record.
    + intros; by apply placement_record_reads.
  - by apply (zlen_log PLACEMENT_MAGIC PLACEMENT_RECORD_LEN _ _ eq_refl zlen_placement_record).
Qed.

Lemma placement_log_roundtrip_witness :
  let l := mkPlacementLog 1 9 [mkPlacementRecord (mkReplicaId 3) (PSegment (mkPhysicalLocation 4 1 2 8)); mkPlacementRecord (mkReplicaId 5) (PMemtable 7)] in
  @placement_log_decode toy_sha (@placement_log_encode toy_sha l) = Ok l.
Proof.
  intros l. apply (@placement_log_roundtrip toy_sha l).
  unfold placement_log_wf, placement_record_wf. cbn. repeat (split || constructor); done.
Defined.

(** The generation gate makes recovery independent of order and repetition: any two
    record sequences with the same records, where a replica never repeats a generation with
    a different placement, apply without an error to the same map, which holds every
    replica's record of highest generation. *)
Theorem placement_gate_converges (l k : list PlacementRecord) :
  gate_consistent l -> (forall r, r ∈ l <-> r ∈ k) ->
  exists m, apply_records ∅ l = Ok m /\ apply_records ∅ k = Ok m /\
    forall rid, match m !! rid with
      | Some p => mkPlacementRecord rid p ∈ l /\
          forall r, r ∈ l -> pr_rid r = rid -> placement_generation (pr_placement r) <= placement_generation p
      | None => forall r, r ∈ l -> pr_rid r <> rid
      end.
Proof.
  intros Hc Hx. destruct (apply_records_newest l [] ∅ newest_of_nil Hc) as (m & E & Hm).
  destruct (apply_records_newest k [] ∅ newest_of_nil) as (n & E' & Hn); [intros a b Ha Hb; apply Hc; by apply Hx|].
  exists m. split_and!; [done | | exact Hm]. rewrite (newest_of_unique l k m n); done.
Qed.

Lemma placement_gate_converges_witness :
  let a := mkPlacementRecord (mkReplicaId 3) (PMemtable 1) in
  let b := mkPlacementRecord (mkReplicaId 3) (PSegment (mkPhysicalLocation 4 1 2 8)) in
  apply_records ∅ [a; b] = apply_records ∅ [b; a; b].
Proof.
  intros a b. destruct (placement_gate_converges [a; b] [b; a; b]) as (m & -> & -> & _); [|set_solver|reflexivity].
  intros x y [->| ->%list_elem_of_singleton]%elem_of_cons [->| ->%list_elem_of_singleton]%elem_of_cons; done.
Defined.
