(* ===== verification/Disk.v ===== *)
(** The database directory: the files the engine names, their atomic publication
    (format.rs, [publish_atomic]), and the delta-log loaders of identity/directory.rs and
    placement/directory.rs that list it.

    A file is named by what its name carries: the parsers [log_generation] and
    [checkpoint_generation] of the source read back exactly the number that
    [identity_log_path] and the like write, so the directory is a map from those values.
    Names in another spelling (a log named without its zero padding) are outside. *)

From stdpp Require Import gmap sorting.
From S2P Require Import Prelude Cursor Format Identity Placement.

Inductive FileName : Type :=
  | FCurrent
  | FManifest (generation : Z)
  | FIdentityLog (generation : Z)
  | FReplicaLog (generation : Z)
  | FPlacementLog (generation : Z)
  | FCheckpoint (generation : Z)
  | FSegment (id : Z)
  | FArchive (id chunk : Z)
  | FRlog (first_seq : Z).

#[global] Instance FileName_eq_dec : EqDecision FileName.
Proof. solve_decision. Defined.
Definition name_code (n : FileName) : nat * Z * Z :=
  match n with
  | FCurrent => (0%nat, 0, 0) | FManifest g => (1%nat, g, 0) | FIdentityLog g => (2%nat, g, 0)
  | FReplicaLog g => (3%nat, g, 0) | FPlacementLog g => (4%nat, g, 0) | FCheckpoint g => (5%nat, g, 0)
  | FSegment i => (6%nat, i, 0) | FArchive i c => (7%nat, i, c) | FRlog s => (8%nat, s, 0)
  end.
Definition name_uncode (c : nat * Z * Z) : FileName :=
  let '(t, a, b) := c in
  match t with
  | 0%nat => FCurrent | 1%nat => FManifest a | 2%nat => FIdentityLog a | 3%nat => FReplicaLog a
  | 4%nat => FPlacementLog a | 5%nat => FCheckpoint a | 6%nat => FSegment a | 7%nat => FArchive a b
  | _ => FRlog a
  end.
#[global] Instance FileName_countable : Countable FileName.
Proof. refine (inj_countable' name_code name_uncode _). by intros []. Defined.

Abbreviation Dir := (gmap FileName bytes).

(** [std::fs::read]. *)
Definition read_file (dir : Dir) (n : FileName) : Result bytes :=
  match dir !! n with Some bs => Ok bs | None => Err (Io "no such file") end.

(** [read_dir], in an order the loaders do not rely on. *)
Definition read_dir (dir : Dir) : list FileName := map fst (map_to_list dir).

(** [identity_log_generation], [replica_log_generation], [placement_log_generation]. *)
Definition identity_log_generation (n : FileName) : option Z :=
  match n with FIdentityLog g => Some g | _ => None end.
Definition replica_log_generation (n : FileName) : option Z :=
  match n with FReplicaLog g => Some g | _ => None end.
Definition placement_log_generation (n : FileName) : option Z :=
  match n with FPlacementLog g => Some g | _ => None end.

(** The generations of a family that pass a test, sorted ([sort_unstable]). *)
Definition family_gens (of_name : FileName -> option Z) (keep : Z -> bool) (dir : Dir) : list Z :=
  merge_sort Z.le (List.filter keep (omap of_name (read_dir dir))).

(** The loop of the three loaders over the sorted generations. *)
Section Loader.
Context {L : Type} (path : Z -> FileName) (decode : bytes -> Result L) (generation_of : L -> Z).
Definition load_log (dir : Dir) (gen : Z) : Result L :=
  bs ← read_file dir (path gen);
  log ← decode bs;
  if negb (generation_of log =? gen) then Err (Corrupt "delta log carries another generation") else Ok log.
Definition load_logs (dir : Dir) (gens : list Z) : Result (list L) :=
  fold_result (fun logs gen => log ← load_log dir gen; Ok (logs ++ [log])) [] gens.
End Loader.

Section Logs.
Context {SHA : Sha256}.

(** [load_identity_logs], [load_replica_logs], [load_placement_logs]. *)
Definition load_identity_logs (dir : Dir) (current_generation : Z) : Result (list IdentityLog) :=
  load_logs FIdentityLog identity_log_decode il_generation dir
    (family_gens identity_log_generation (fun g => g <=? current_generation) dir).
Definition load_replica_logs (dir : Dir) (current_generation : Z) : Result (list ReplicaLog) :=
  load_logs FReplicaLog replica_log_decode rl_generation dir
    (family_gens replica_log_generation (fun g => g <=? current_generation) dir).
Definition load_placement_logs (dir : Dir) (current_generation : Z) : Result (list PlacementLog) :=
  load_logs FPlacementLog placement_log_decode pg_generation dir
    (family_gens placement_log_generation (fun g => g <=? current_generation) dir).

(** [orphan_placement_logs] and [orphan_placement_max_generation]: an orphan that does
    not decode contributes nothing. *)
Definition orphan_placement_logs (dir : Dir) (current_generation : Z) : list Z :=
  family_gens placement_log_generation (fun g => current_generation <? g) dir.
Definition orphan_placement_max_generation (dir : Dir) (current_generation : Z) : Z :=
  fold_left (fun m gen =>
      match read_file dir (FPlacementLog gen) with
      | Ok bs =>
          match placement_log_decode bs with
          | Ok log => fold_left (fun m r => Z.max m (placement_generation (pr_placement r))) (pg_records log) m
          | Err _ => m
          end
      | Err _ => m
      end)
    (orphan_placement_logs dir current_generation) 0.

(** [PlacementDirectory::recover]: merge the logs up to CURRENT's generation, then
    validate the segment locations that survive. *)
Definition recover_placements (dir : Dir) (current_generation : Z)
    (validate : PhysicalLocation -> Result unit) : Result Placements :=
  logs ← load_placement_logs dir current_generation;
  placements ← fold_result (fun m log => apply_records m (pg_records log)) ∅ logs;
  _ ← fold_result (fun _ p => match p with PSegment loc => validate loc | _ => Ok tt end) tt
        (map snd (map_to_list placements));
  Ok placements.
End Logs.

(* ------------------------------------------------------------------ *)
(** * Listing lemmas *)

Lemma elem_of_read_dir dir n : n ∈ read_dir dir <-> is_Some (dir !! n).
Proof.
  unfold read_dir. rewrite list_elem_of_fmap. split.
  - intros ([m bs] & -> & H%elem_of_map_to_list). eauto.
  - intros [bs H]. exists (n, bs). split; [done|]. by apply elem_of_map_to_list.
Qed.

(** A parser of the names of one family: injective on the names it accepts. *)
Definition parses (of_name : FileName -> option Z) (path : Z -> FileName) : Prop :=
  forall n g, of_name n = Some g <-> n = path g.
Lemma parses_identity : parses identity_log_generation FIdentityLog.
Proof. intros [] g; cbn; split; congruence. Qed.
Lemma parses_replica : parses replica_log_generation FReplicaLog.
Proof. intros [] g; cbn; split; congruence. Qed.
Lemma parses_placement : parses placement_log_generation FPlacementLog.
Proof. intros [] g; cbn; split; congruence. Qed.
#[export] Hint Resolve parses_identity parses_replica parses_placement : disk.

Lemma elem_of_family_gens of_name path keep dir g :
  parses of_name path ->
  g ∈ family_gens of_name keep dir <-> keep g = true /\ is_Some (dir !! path g).
Proof.
  intros Hp. unfold family_gens. rewrite merge_sort_Permutation, !list_elem_of_In, filter_In, <-!list_elem_of_In, list_elem_of_omap.
  split.
  - intros [(n & Hn & E%Hp) Hk]. subst n. split; [done | by apply elem_of_read_dir].
  - intros [Hk Hs]. split; [|done]. exists (path g). split; [by apply elem_of_read_dir | by apply Hp].
Qed.
Lemma family_gens_nodup of_name path keep dir : parses of_name path -> NoDup (family_gens of_name keep dir).
Proof.
  intros Hp. unfold family_gens. rewrite merge_sort_Permutation. apply NoDup_ListNoDup, List.NoDup_filter, NoDup_ListNoDup.
  assert (NoDup (read_dir dir)) as Hn by apply NoDup_fst_map_to_list. induction Hn as [|n l Hn _ IH]; cbn; [constructor|].
  destruct (of_name n) as [g|] eqn:E; [|done]. constructor; [|done]. rewrite list_elem_of_omap. intros (m & Hm & E').
  apply Hp in E, E'. by subst.
Qed.
Lemma family_gens_sorted of_name keep dir : StronglySorted Z.le (family_gens of_name keep dir).
Proof. apply StronglySorted_merge_sort; apply _. Qed.
