(* ===== verification/Checkpoint.v ===== *)
(** crates/storage/aikoql-v2/src/checkpoint.rs: the directory checkpoint, its codec, its
    selection, the delta-coverage validator and the prune; and the merge rules of db.rs
    through which recovery folds checkpoints and delta logs into the directories. *)

From stdpp Require Import gmap sorting.
From S2P Require Import Prelude Cursor Format Identity Placement Disk.

Abbreviation IdentityMap := (gmap ObjectId LogicalId).
Abbreviation ReplicaMap := (gmap LogicalId ReplicaId).

(** db.rs, [merge_identity] and [merge_replica]. *)
Definition merge_identity (identity : IdentityMap) (oid : ObjectId) (lid : LogicalId) : Result IdentityMap :=
  match identity !! oid with
  | Some l => if bool_decide (l = lid) then Ok identity
              else Err (Corrupt "identity directory: ObjectId maps to two logical ids")
  | None => Ok (<[oid := lid]> identity)
  end.
Definition merge_replica (replicas : ReplicaMap) (lid : LogicalId) (node : NodeId) (rid : ReplicaId) : Result ReplicaMap :=
  if negb (bool_decide (node = LOCAL_NODE_ID))
  then Err (Corrupt "replica directory: record names another node") else
  match replicas !! lid with
  | Some r => if bool_decide (r = rid) then Ok replicas
              else Err (Corrupt "replica directory: LogicalId maps to two replica ids")
  | None => Ok (<[lid := rid]> replicas)
  end.
Definition merge_identities (m : IdentityMap) (recs : list IdentityRecord) : Result IdentityMap :=
  fold_result (fun m r => merge_identity m (ir_oid r) (ir_lid r)) m recs.
Definition merge_replicas (m : ReplicaMap) (recs : list ReplicaRecord) : Result ReplicaMap :=
  fold_result (fun m r => merge_replica m (rr_lid r) (rr_node r) (rr_rid r)) m recs.

(* ------------------------------------------------------------------ *)
(** * The checkpoint file *)

Definition CHECKPOINT_MAGIC : bytes := [x41; x4b; x43; x4b].

Record DirectoryCheckpoint : Type := mkDirectoryCheckpoint {
  ck_format_version : Z; ck_generation : Z;
  ck_identities : list IdentityRecord; ck_replicas : list ReplicaRecord; ck_placements : list PlacementRecord;
  ck_next_logical_id : Z; ck_next_replica_id : Z; ck_next_placement_generation : Z;
  ck_identity_chain : Z; ck_replica_chain : Z; ck_placement_chain : Z }.

#[global] Instance IdentityRecord_eq_dec : EqDecision IdentityRecord.
Proof. solve_decision. Defined.
#[global] Instance ReplicaRecord_eq_dec : EqDecision ReplicaRecord.
Proof. solve_decision. Defined.
#[global] Instance DirectoryCheckpoint_eq_dec : EqDecision DirectoryCheckpoint.
Proof. solve_decision. Defined.

Definition checkpoint_generation (n : FileName) : option Z :=
  match n with FCheckpoint g => Some g | _ => None end.

(** [DirectoryCheckpoint::from_state]: the maps' records, each sorted by key. *)
Definition oid_le (a b : IdentityRecord) : Prop := bytes_leb (oid_bytes (ir_oid a)) (oid_bytes (ir_oid b)) = true.
Definition lid_le (a b : ReplicaRecord) : Prop := lid_val (rr_lid a) <= lid_val (rr_lid b).
Definition rid_le (a b : PlacementRecord) : Prop := rid_val (pr_rid a) <= rid_val (pr_rid b).
#[global] Instance oid_le_dec a b : Decision (oid_le a b).
Proof. unfold oid_le. apply _. Defined.
#[global] Instance lid_le_dec a b : Decision (lid_le a b).
Proof. unfold lid_le. apply _. Defined.
#[global] Instance rid_le_dec a b : Decision (rid_le a b).
Proof. unfold rid_le. apply _. Defined.
Definition checkpoint_from_state (generation : Z) (identity : IdentityMap) (replicas : ReplicaMap)
    (placements : Placements) (next_logical_id next_replica_id next_placement_generation
    identity_chain replica_chain placement_chain : Z) : DirectoryCheckpoint :=
  mkDirectoryCheckpoint FORMAT_VERSION generation
    (merge_sort oid_le (map (fun '(oid, lid) => mkIdentityRecord oid lid) (map_to_list identity)))
    (merge_sort lid_le (map (fun '(lid, rid) => mkReplicaRecord lid LOCAL_NODE_ID rid) (map_to_list replicas)))
    (merge_sort rid_le (map (fun '(rid, p) => mkPlacementRecord rid p) (map_to_list placements)))
    next_logical_id next_replica_id next_placement_generation identity_chain replica_chain placement_chain.

Section Codec.
Context {SHA : Sha256}.

(** [write_streamed]: the bytes hashed, then the first 8 bytes of their digest. *)
Definition checkpoint_body (c : DirectoryCheckpoint) : bytes :=
  CHECKPOINT_MAGIC ++ le16 (ck_format_version c) ++ le64 (ck_generation c) ++
  le32 (as_u32 (zlen (ck_identities c))) ++ concat (map identity_record_encode (ck_identities c)) ++
  le32 (as_u32 (zlen (ck_replicas c))) ++ concat (map replica_record_encode (ck_replicas c)) ++
  le32 (as_u32 (zlen (ck_placements c))) ++ concat (map placement_record_encode (ck_placements c)) ++
  le64 (ck_next_logical_id c) ++ le64 (ck_next_replica_id c) ++ le64 (ck_next_placement_generation c) ++
  le64 (ck_identity_chain c) ++ le64 (ck_replica_chain c) ++ le64 (ck_placement_chain c).
Definition write_streamed (c : DirectoryCheckpoint) : bytes :=
  checkpoint_body c ++ ztake 8 (sha256 (checkpoint_body c)).

(** [DirectoryCheckpoint::decode]; one counted family of records, then the floors. *)
Definition counted {A} (rec_len : Z) (e : FormatError) (rec : Dec A) : Dec (list A) :=
  count ← cu32;
  c ← dget;
  _ ← dguard (remaining c / rec_len <? count) e;
  drepeat (Z.to_nat count) rec.
Definition checkpoint_decode (bs : bytes) : Result DirectoryCheckpoint :=
  run_dec (
    magic ← ctake 4;
    _ ← dguard (negb (slice_eqb magic CHECKPOINT_MAGIC)) (Corrupt "checkpoint bad magic");
    v ← cu16;
    _ ← dguard (negb (v =? FORMAT_VERSION)) (Unsupported "checkpoint format version");
    gen ← cu64;
    ids ← counted IDENTITY_RECORD_LEN (Corrupt "checkpoint identity_count cannot fit") identity_record_decode;
    reps ← counted REPLICA_RECORD_LEN (Corrupt "checkpoint replica_count cannot fit") replica_record_decode;
    pls ← counted PLACEMENT_RECORD_LEN (Corrupt "checkpoint placement_count cannot fit")
      (placement_record_decode (Unsupported "checkpoint placement variant byte"));
    nl ← cu64; nr ← cu64; np ← cu64; ic ← cu64; rc ← cu64; pc ← cu64;
    ck ← ctake 8;
    c2 ← dget;
    _ ← dguard (negb (is_empty c2)) (Corrupt "checkpoint trailing bytes");
    _ ← dguard (negb (slice_eqb (checksum8 (ztake (zlen bs - 8) bs)) ck))
          (Corrupt "checkpoint checksum mismatch");
    mret (mkDirectoryCheckpoint v gen ids reps pls nl nr np ic rc pc)) bs.

(** [load_newest]: the highest checkpoint at or below CURRENT's generation. *)
Definition best_checkpoint (current_generation : Z) (best : option Z) (n : FileName) : option Z :=
  match checkpoint_generation n with
  | Some gen =>
      if (gen <=? current_generation) && match best with Some g => g <? gen | None => true end
      then Some gen else best
  | None => best
  end.
Definition load_newest (dir : Dir) (current_generation : Z) : Result (option DirectoryCheckpoint) :=
  match fold_left (best_checkpoint current_generation) (read_dir dir) None with
  | None => Ok None
  | Some gen =>
      bs ← read_file dir (FCheckpoint gen);
      c ← checkpoint_decode bs;
      if negb (ck_generation c =? gen) then Err (Corrupt "checkpoint carries another generation") else Ok (Some c)
  end.

(** [require_delta]. *)
Inductive Family : Type := IDENTITY | REPLICA | PLACEMENT.
Definition family_path (f : Family) (g : Z) : FileName :=
  match f with IDENTITY => FIdentityLog g | REPLICA => FReplicaLog g | PLACEMENT => FPlacementLog g end.
Definition family_generation (f : Family) : FileName -> option Z :=
  match f with
  | IDENTITY => identity_log_generation | REPLICA => replica_log_generation | PLACEMENT => placement_log_generation
  end.
Definition family_decode_generation (f : Family) (bs : bytes) : Result Z :=
  match f with
  | IDENTITY => l ← identity_log_decode bs; Ok (il_generation l)
  | REPLICA => l ← replica_log_decode bs; Ok (rl_generation l)
  | PLACEMENT => l ← placement_log_decode bs; Ok (pg_generation l)
  end.
Definition require_delta (dir : Dir) (f : Family) (g : Z) : Result unit :=
  match dir !! family_path f g with
  | None => Err (Corrupt "required authoritative delta missing (post-checkpoint coverage broken)")
  | Some bs =>
      gen ← family_decode_generation f bs;
      if negb (gen =? g) then Err (Corrupt "delta log carries another generation") else Ok tt
  end.

(** [validate_family_coverage] and [validate_delta_coverage]. *)
Definition validate_family_coverage (dir : Dir) (f : Family) (checkpoint_generation current_generation
    base_chain current_chain current_floor : Z) : Result unit :=
  let gens := family_gens (family_generation f)
    (fun g => (checkpoint_generation <? g) && (g <=? current_generation)) dir in
  chain ← fold_result (fun chain g => _ ← require_delta dir f g; Ok (chain_extend chain g)) base_chain gens;
  if (checkpoint_generation <? current_floor) && negb (bool_decide (last gens = Some current_floor))
  then Err (Corrupt "required authoritative delta missing (post-checkpoint coverage broken)") else
  if negb (chain =? current_chain)
  then Err (Corrupt "post-checkpoint delta coverage incomplete (a published log is missing)") else Ok tt.
Definition validate_delta_coverage (dir : Dir) (checkpoint : option DirectoryCheckpoint) (m : Manifest) : Result unit :=
  match checkpoint with
  | None => Ok tt
  | Some c =>
      if generation m <=? ck_generation c then Ok tt else
      _ ← validate_family_coverage dir IDENTITY (ck_generation c) (generation m)
            (ck_identity_chain c) (identity_chain m) (identity_floor m);
      _ ← validate_family_coverage dir REPLICA (ck_generation c) (generation m)
            (ck_replica_chain c) (replica_chain m) (replica_floor m);
      validate_family_coverage dir PLACEMENT (ck_generation c) (generation m)
        (ck_placement_chain c) (placement_chain m) (placement_floor m)
  end.

(** [prune_deltas_before]: the files it removes, and the directory after it. *)
Definition log_generation_of (n : FileName) : option Z :=
  match identity_log_generation n with
  | Some g => Some g
  | None => match replica_log_generation n with Some g => Some g | None => placement_log_generation n end
  end.
Definition prunable (generation : Z) (pins : gset FileName) (n : FileName) : bool :=
  negb (bool_decide (n ∈ pins)) &&
  match log_generation_of n with
  | Some gen => gen <=? generation
  | None => match checkpoint_generation n with Some gen => gen <? generation | None => false end
  end.
Definition prune_deltas_before (dir : Dir) (generation : Z) (pins : gset FileName) : Dir :=
  fold_left (fun d n => if prunable generation pins n then delete n d else d) (read_dir dir) dir.

(** [directory_log_bytes]. *)
Definition directory_log_bytes (dir : Dir) (after_generation : Z) : Z :=
  fold_left (fun bytes n =>
      match log_generation_of n with
      | Some gen => if gen <=? after_generation then bytes else bytes + zlen (default [] (dir !! n))
      | None => bytes
      end) (read_dir dir) 0.

(** The directories as [Db::open] rebuilds them: the checkpoint's records, then the logs
    published after it. *)
Definition ckp_generation (c : option DirectoryCheckpoint) : Z :=
  match c with Some c => ck_generation c | None => 0 end.
Definition recover_identity (dir : Dir) (current_generation : Z) (c : option DirectoryCheckpoint)
    : Result (IdentityMap * ReplicaMap) :=
  ids ← merge_identities ∅ (default [] (ck_identities <$> c));
  reps ← merge_replicas ∅ (default [] (ck_replicas <$> c));
  ilogs ← load_identity_logs dir current_generation;
  ids ← fold_result (fun m l => if il_generation l <=? ckp_generation c then Ok m
                                 else merge_identities m (il_records l)) ids ilogs;
  rlogs ← load_replica_logs dir current_generation;
  reps ← fold_result (fun m l => if rl_generation l <=? ckp_generation c then Ok m
                                  else merge_replicas m (rl_records l)) reps rlogs;
  Ok (ids, reps).
Definition recover_placement (dir : Dir) (current_generation : Z) (c : option DirectoryCheckpoint) : Result Placements :=
  pls ← apply_records ∅ (default [] (ck_placements <$> c));
  logs ← load_placement_logs dir current_generation;
  fold_result (fun m l => if pg_generation l <=? ckp_generation c then Ok m
                          else apply_records m (pg_records l)) pls logs.
End Codec.

Definition checkpoint_wf (c : DirectoryCheckpoint) : Prop :=
  ck_format_version c = FORMAT_VERSION /\ is_u64 (ck_generation c) /\
  is_u32 (zlen (ck_identities c)) /\ Forall identity_record_wf (ck_identities c) /\
  is_u32 (zlen (ck_replicas c)) /\ Forall replica_record_wf (ck_replicas c) /\
  is_u32 (zlen (ck_placements c)) /\ Forall placement_record_wf (ck_placements c) /\
  is_u64 (ck_next_logical_id c) /\ is_u64 (ck_next_replica_id c) /\ is_u64 (ck_next_placement_generation c) /\
  is_u64 (ck_identity_chain c) /\ is_u64 (ck_replica_chain c) /\ is_u64 (ck_placement_chain c).

(* ------------------------------------------------------------------ *)
(** * Theory *)

Section Theory.
Context {SHA : Sha256}.

(** A counted family reads its records back. *)
Lemma reads_counted {A} (rec_len : Z) e (rec : Dec A) (enc : A -> bytes) (wf : A -> Prop) l r :
  0 < rec_len -> is_u32 (zlen l) -> Forall wf l ->
  (forall a, wf a -> zlen (enc a) = rec_len) -> (forall a r, wf a -> reads rec (enc a) r a) ->
  reads (counted rec_len e rec) (le32 (zlen l) ++ concat (map enc l)) r l.
Proof.
  intros Hp Hn Hw Hlen Hr. unfold counted. reads_field.
  apply reads_dget. intros c Hc E. eapply reads_bind0; [apply reads_guard|].
  { apply (count_fits _ _ (concat (map enc l)) r); [done | | done | exact E].
    rewrite (zlen_records rec_len enc wf) by done. lia. }
  rewrite zlen_to_nat. eapply reads_repeat; done.
Qed.

Lemma checkpoint_reads_back c : checkpoint_wf c -> checkpoint_decode (write_streamed c) = Ok c.
Proof.
  intros (Hv & Hg & Hi & Hiw & Hr & Hrw & Hp & Hpw & H1 & H2 & H3 & H4 & H5 & H6). destruct c as [v g ids reps pls a1 a2 a3 a4 a5 a6].
  cbn in Hv, Hg, Hi, Hiw, Hr, Hrw, Hp, Hpw, H1, H2, H3, H4, H5, H6. subst v. eapply reads_run.
  { unfold write_streamed at 1. unfold checkpoint_body at 1. rewrite !as_u32_small, <-!app_assoc by done.
    cbn [ck_format_version ck_generation ck_identities ck_replicas ck_placements ck_next_logical_id ck_next_replica_id
         ck_next_placement_generation ck_identity_chain ck_replica_chain ck_placement_chain]. reflexivity. }
  eapply reads_bind; [by apply reads_take|].
  eapply reads_bind0; [apply reads_guard; by rewrite slice_eqb_refl|].
  reads_field. eapply reads_bind0; [by apply reads_guard|]. reads_field.
  rewrite (app_assoc (le32 _)). eapply reads_bind; [refine (reads_counted _ _ _ _ _ _ _ _ _ _ zlen_identity_record _); [done..|]; intros; by apply identity_record_reads|].
  rewrite (app_assoc (le32 _)). eapply reads_bind; [refine (reads_counted _ _ _ _ _ _ _ _ _ _ zlen_replica_record _); [done..|]; intros; by apply replica_record_reads|].
  rewrite (app_assoc (le32 _)). eapply reads_bind; [refine (reads_counted _ _ _ _ _ _ _ _ _ _ zlen_placement_record _); [done..|]; intros; by apply placement_record_reads|].
  do 6 reads_field. eapply reads_map; [apply reads_take, zlen_checksum8|].
  apply reads_dget. intros c3 Hc3 E3. eapply reads_bind0.
  { apply reads_guard. rewrite (proj2 (is_empty_crest c3 Hc3) E3). done. }
  eapply reads_bind0; [apply reads_guard | apply reads_ret].
  unfold write_streamed. rewrite ztake_app; [by rewrite slice_eqb_refl|]. rewrite zlen_app.
  pose proof (zlen_checksum8 (checkpoint_body (mkDirectoryCheckpoint FORMAT_VERSION g ids reps pls a1 a2 a3 a4 a5 a6))) as Hl.
  unfold checksum8 in Hl. lia.
Qed.

(** Folding the records of a map, in any order, through an insert-if-absent step rebuilds
    the map. *)
Section Restore.
Context {K V R : Type} `{Countable K}.
Variables (key : R -> K) (val : R -> V) (ok : R -> Prop) (step : gmap K V -> R -> Result (gmap K V)).
Hypothesis step_fresh : forall m r, ok r -> m !! key r = None -> step m r = Ok (<[key r := val r]> m).

Lemma fold_fresh l : forall m,
  NoDup (map key l) -> Forall ok l -> Forall (fun r => m !! key r = None) l ->
  fold_result step m l = Ok (list_to_map (map (fun r => (key r, val r)) l) ∪ m).
Proof.
  induction l as [|r l IH]; intros m Hn Hok Hm; cbn [fold_result map]; [by rewrite list_to_map_nil, map_empty_union|].
  inversion_clear Hn as [|? ? Hr Hn']. inversion_clear Hok. inversion_clear Hm as [|? ? Hmr Hm'].
  rewrite step_fresh by done. cbn [mbind Result_bind]. rewrite IH; [|done..|].
  - f_equal. rewrite list_to_map_cons, <-insert_union_l. rewrite <-insert_union_r; [done|].
    apply not_elem_of_list_to_map. rewrite <-list_fmap_compose. done.
  - rewrite Forall_forall in Hm' |- *. intros x Hx. rewrite lookup_insert_ne; [by apply Hm'|]. intros E. apply Hr.
    rewrite E. by apply list_elem_of_fmap_2.
Qed.

Lemma fold_restores (mk : K * V -> R) (m : gmap K V) l :
  (forall kv, key (mk kv) = kv.1 /\ val (mk kv) = kv.2 /\ ok (mk kv)) ->
  l ≡ₚ map mk (map_to_list m) -> fold_result step ∅ l = Ok m.
Proof.
  intros Hmk Hl.
  assert (map (fun r => (key r, val r)) l ≡ₚ map_to_list m) as Hp.
  { rewrite Hl, <-list_fmap_compose. apply reflexive_eq. rewrite <-(list_fmap_id (map_to_list m)) at 2. apply list_fmap_ext.
    intros _ [k v] _. cbn. destruct (Hmk (k, v)) as (-> & -> & _). done. }
  assert (map key l ≡ₚ (map_to_list m).*1) as Hk.
  { rewrite <-Hp, <-list_fmap_compose. apply reflexive_eq, list_fmap_ext. done. }
  assert (NoDup (map key l)) as Hn by (rewrite Hk; apply NoDup_fst_map_to_list).
  rewrite fold_fresh; [|done | |].
  - rewrite map_union_empty. f_equal. rewrite <-(list_to_map_to_list m). apply list_to_map_proper; [|done].
    rewrite <-list_fmap_compose. exact Hn.
  - rewrite Hl. apply Forall_fmap, Forall_forall. intros kv _. apply Hmk.
  - apply Forall_forall. intros r _. apply lookup_empty.
Qed.
End Restore.

Lemma restore_identities m l :
  l ≡ₚ map (fun '(oid, lid) => mkIdentityRecord oid lid) (map_to_list m) -> merge_identities ∅ l = Ok m.
Proof.
  apply (fold_restores ir_oid ir_lid (fun _ => True)); [|by intros []].
  intros M r _ E. unfold merge_identity. by rewrite E.
Qed.
Lemma restore_replicas m l :
  l ≡ₚ map (fun '(lid, rid) => mkReplicaRecord lid LOCAL_NODE_ID rid) (map_to_list m) -> merge_replicas ∅ l = Ok m.
Proof.
  apply (fold_restores rr_lid rr_rid (fun r => rr_node r = LOCAL_NODE_ID)); [|by intros []].
  intros M r Hr E. unfold merge_replica. rewrite Hr, bool_decide_eq_true_2, E by done. done.
Qed.
Lemma restore_placements m l :
  l ≡ₚ map (fun '(rid, p) => mkPlacementRecord rid p) (map_to_list m) -> apply_records ∅ l = Ok m.
Proof.
  apply (fold_restores pr_rid pr_placement (fun _ => True)); [|by intros []].
  intros M r _ E. unfold merge_placement. by rewrite E.
Qed.

(** Selection: the fold keeps the highest candidate. *)
Lemma best_checkpoint_max cur l : forall best,
  match fold_left (best_checkpoint cur) l best with
  | Some g => (best = Some g \/ FCheckpoint g ∈ l /\ g <= cur) /\
      (forall b, best = Some b -> b <= g) /\ (forall h, FCheckpoint h ∈ l -> h <= cur -> h <= g)
  | None => best = None /\ forall h, FCheckpoint h ∈ l -> ~ h <= cur
  end.
Proof.
  induction l as [|n l IH]; intros best; cbn [fold_left].
  - destruct best as [b|]; [|split; [done|]]; [split_and!; [by left | by intros ? [= ->] |]|];
      intros h Hh; by apply not_elem_of_nil in Hh.
  - specialize (IH (best_checkpoint cur best n)). unfold best_checkpoint in *.
    assert (forall h, FCheckpoint h ∈ n :: l -> n = FCheckpoint h \/ FCheckpoint h ∈ l) as Hin.
    { intros h [->|Hh]%elem_of_cons; auto. }
    destruct (fold_left _ l _) as [g|] eqn:Ef.
    + destruct IH as (H1 & H2 & H3). destruct (checkpoint_generation n) as [h|] eqn:En.
      * destruct n; try done. injection En as ->.
        destruct ((h <=? cur) && match best with Some b => b <? h | None => true end) eqn:Et.
        -- apply andb_true_iff in Et as [Ec Eb]. bool_to_prop. split_and!.
           ++ destruct H1 as [[= ->]|[]]; right; set_solver.
           ++ intros b ->. bool_to_prop. specialize (H2 h eq_refl). lia.
           ++ intros k [[= ->]|Hk]%Hin Hc; auto.
        -- split_and!; [set_solver | done|]. intros k [[= ->]|Hk]%Hin Hc; [|auto]. destruct best as [b|].
           ++ specialize (H2 b eq_refl). apply andb_false_iff in Et as [Et|Et]; bool_to_prop; lia.
           ++ rewrite andb_true_r in Et. bool_to_prop. lia.
      * split_and!; [set_solver | done|]. intros k [->|Hk]%Hin Hc; [done | auto].
    + destruct IH as (H1 & H2). destruct (checkpoint_generation n) as [h|] eqn:En.
      * destruct n; try done. injection En as ->. destruct (_ && _) eqn:Et; [done|]. subst best. rewrite andb_true_r in Et.
        split; [done|]. intros k [[= ->]|Hk]%Hin; [bool_to_prop; lia | auto].
      * split; [done|]. intros k [->|Hk]%Hin; [done | auto].
Qed.

Lemma load_newest_at dir cur c :
  dir !! FCheckpoint cur = Some (write_streamed c) -> checkpoint_wf c -> ck_generation c = cur ->
  load_newest dir cur = Ok (Some c).
Proof.
  intros Hd Hc Hg. unfold load_newest. pose proof (best_checkpoint_max cur (read_dir dir) None) as H.
  assert (FCheckpoint cur ∈ read_dir dir) as Hin by (apply elem_of_read_dir; eauto).
  destruct (fold_left _ _ _) as [g|].
  - destruct H as ([|[Hg1 Hg2]] & _ & Hmax); [done|]. specialize (Hmax cur Hin). replace g with cur by lia.
    unfold read_file. rewrite Hd. cbn [mbind Result_bind]. rewrite checkpoint_reads_back by done. cbn [mbind Result_bind].
    rewrite Hg, Z.eqb_refl. done.
  - destruct H as [_ H]. destruct (H cur Hin). lia.
Qed.

(** Loading: a family loads exactly when each of its logs does, and then each log carries
    the generation of its name. *)
Section Loading.
Context {L : Type} (path : Z -> FileName) (decode : bytes -> Result L) (generation_of : L -> Z).

Lemma load_logs_acc dir gens : forall acc,
  fold_result (fun logs gen => log ← load_log path decode generation_of dir gen; Ok (logs ++ [log])) acc gens =
  (logs ← load_logs path decode generation_of dir gens; Ok (acc ++ logs)).
Proof.
  unfold load_logs. induction gens as [|g gens IH]; intros acc; cbn [fold_result]; [cbn; by rewrite app_nil_r|].
  destruct (load_log path decode generation_of dir g) as [l|e]; [|done]. cbn [mbind Result_bind].
  rewrite IH, (IH ([] ++ [l])). destruct (fold_result _ [] gens); [|done]. cbn. by rewrite <-app_assoc.
Qed.
Lemma load_logs_Ok dir gens logs :
  load_logs path decode generation_of dir gens = Ok logs <->
  Forall2 (fun g l => load_log path decode generation_of dir g = Ok l) gens logs.
Proof.
  revert logs. induction gens as [|g gens IH]; intros logs.
  - cbn. split; [intros [= <-]; constructor | by inversion 1].
  - unfold load_logs. cbn [fold_result]. destruct (load_log path decode generation_of dir g) as [l|e] eqn:E; cbn [mbind Result_bind].
    + rewrite load_logs_acc. split.
      * destruct (load_logs _ _ _ dir gens) as [k|] eqn:Ek; [|done]. intros [= <-]. constructor; [done | by apply IH].
      * inversion 1 as [|? ? ? k Hl Hk]; subst. apply IH in Hk as ->. cbn. congruence.
    + split; [done|]. inversion 1; congruence.
Qed.
Lemma load_log_generation dir g l : load_log path decode generation_of dir g = Ok l -> generation_of l = g.
Proof.
  unfold load_log. destruct (read_file _ _); [|done]. cbn [mbind Result_bind]. destruct (decode _); [|done]. cbn [mbind Result_bind].
  destruct (negb _) eqn:E; [done|]. intros [= ->]. bool_to_prop. done.
Qed.

(** A directory with fewer logs of the family, none changed, loads too. *)
Lemma load_logs_fewer of_name keep dir dir' logs :
  parses of_name path -> (forall g, dir' !! path g = dir !! path g \/ dir' !! path g = None) ->
  load_logs path decode generation_of dir (family_gens of_name keep dir) = Ok logs ->
  exists logs', load_logs path decode generation_of dir' (family_gens of_name keep dir') = Ok logs' /\
    Forall (fun l => keep (generation_of l) = true) logs'.
Proof.
  intros Hp Hd Hl. apply load_logs_Ok in Hl.
  assert (Forall (fun g => exists l, load_log path decode generation_of dir' g = Ok l /\ keep (generation_of l) = true)
            (family_gens of_name keep dir')) as Hall.
  { apply Forall_forall. intros g Hg. apply (elem_of_family_gens _ path) in Hg as [Hk [bs Hbs]]; [|done].
    destruct (Hd g) as [E|E]; [|congruence]. assert (g ∈ family_gens of_name keep dir) as Hin.
    { apply (elem_of_family_gens _ path); [done|]. rewrite <-E. eauto. }
    apply list_elem_of_lookup in Hin as [i Hi]. eapply Forall2_lookup_l in Hl as (l & _ & Hlog); [|done]. exists l.
    rewrite (load_log_generation _ _ _ Hlog). split; [|done]. revert Hlog. unfold load_log, read_file. by rewrite E. }
  apply Forall_exists_Forall2_l in Hall as (logs' & H2). exists logs'. split.
  - apply load_logs_Ok. eapply Forall2_impl; [exact H2|]. by intros ? ? [].
  - apply Forall_forall. intros l Hl'. apply list_elem_of_lookup in Hl' as [i Hi].
    by eapply Forall2_lookup_r in H2 as (g & _ & _ & ?).
Qed.
End Loading.

(** One deletion of the prune. *)
Definition prune_step (generation : Z) (pins : gset FileName) (d d' : Dir) : Prop :=
  exists n, prunable generation pins n = true /\ d' = delete n d.

Lemma prune_reachable dir g pins : rtc (prune_step g pins) dir (prune_deltas_before dir g pins).
Proof.
  unfold prune_deltas_before. generalize (read_dir dir) as l. intros l. revert dir.
  induction l as [|n l IH]; intros dir; cbn [fold_left]; [done|].
  destruct (prunable g pins n) eqn:E; [|apply IH]. eapply rtc_l; [|apply IH]. by exists n.
Qed.

Lemma prune_steps_lookup g pins d d' n :
  rtc (prune_step g pins) d d' -> d' !! n = d !! n \/ d' !! n = None /\ prunable g pins n = true.
Proof.
  induction 1 as [d|d d1 d2 (m & Hm & ->) _ IH]; [by left|].
  destruct IH as [->|[-> Hp]]; [|by right]. destruct (decide (m = n)) as [->|Hne].
  - right. by rewrite lookup_delete_eq.
  - left. by rewrite lookup_delete_ne.
Qed.

Lemma skip_all {L M} (gen : L -> Z) (f : M -> L -> Result M) cur logs : forall m,
  Forall (fun l => (gen l <=? cur) = true) logs ->
  fold_result (fun m l => if gen l <=? cur then Ok m else f m l) m logs = Ok m.
Proof. induction logs as [|l logs IH]; intros m Hl; inversion_clear Hl as [|? ? Hg ?]; [done|]. cbn [fold_result]. rewrite Hg. by apply IH. Qed.

Lemma checkpoint_recovers dir dir' cur ids reps pls nl nr np ic rc pc pins :
  let c := checkpoint_from_state cur ids reps pls nl nr np ic rc pc in
  checkpoint_wf c ->
  is_ok (load_identity_logs dir cur) = true -> is_ok (load_replica_logs dir cur) = true ->
  is_ok (load_placement_logs dir cur) = true ->
  rtc (prune_step cur pins) (<[FCheckpoint cur := write_streamed c]> dir) dir' ->
  load_newest dir' cur = Ok (Some c) /\
  recover_identity dir' cur (Some c) = Ok (ids, reps) /\ recover_placement dir' cur (Some c) = Ok pls.
Proof.
  intros c Hc Hi Hr Hp Hd.
  assert (dir' !! FCheckpoint cur = Some (write_streamed c)) as Hck.
  { destruct (prune_steps_lookup _ _ _ _ (FCheckpoint cur) Hd) as [->|[_ H]]; [apply lookup_insert_eq|].
    unfold prunable in H. cbn in H. rewrite Z.ltb_irrefl, andb_false_r in H. done. }
  assert (forall f g, dir' !! family_path f g = dir !! family_path f g \/ dir' !! family_path f g = None) as Hf.
  { intros f g. destruct (prune_steps_lookup _ _ _ _ (family_path f g) Hd) as [->|[-> _]]; [left | by right].
    by apply lookup_insert_ne; destruct f. }
  split; [by apply load_newest_at|]. unfold recover_identity, recover_placement.
  cbn [fmap option_fmap option_map default ck_identities ck_replicas ck_placements c checkpoint_from_state].
  rewrite (restore_identities ids), (restore_replicas reps), (restore_placements pls) by apply merge_sort_Permutation.
  unfold load_identity_logs, load_replica_logs, load_placement_logs in *. cbn [mbind Result_bind].
  destruct (load_logs FIdentityLog _ _ dir _) eqn:Ei; [|done]. destruct (load_logs FReplicaLog _ _ dir _) eqn:Er; [|done].
  destruct (load_logs FPlacementLog _ _ dir _) eqn:Ep; [|done].
  eapply load_logs_fewer in Ei as (li & -> & Li); [|apply parses_identity | apply (Hf IDENTITY)].
  eapply load_logs_fewer in Er as (lr & -> & Lr); [|apply parses_replica | apply (Hf REPLICA)].
  eapply load_logs_fewer in Ep as (lp & -> & Lp); [|apply parses_placement | apply (Hf PLACEMENT)].
  cbn [mbind Result_bind ckp_generation ck_generation]. rewrite !skip_all by done. done.
Qed.

Lemma parses_family f : parses (family_generation f) (family_path f).
Proof. destruct f; auto with disk. Qed.

Lemma sorted_lt_nodup l : StronglySorted Z.lt l -> NoDup l.
Proof.
  induction 1 as [|x l _ IH Hx]; constructor; [|done]. intros H. rewrite Forall_forall in Hx. specialize (Hx x H). lia.
Qed.
Lemma sorted_le_lt l : StronglySorted Z.le l -> NoDup l -> StronglySorted Z.lt l.
Proof.
  induction 1 as [|x l Hs IH Hx]; intros Hn; [constructor|]. inversion_clear Hn as [|? ? Hxl Hn']. constructor; [auto|].
  rewrite Forall_forall in Hx |- *. intros y Hy. specialize (Hx y Hy). assert (x <> y) by (by intros ->). lia.
Qed.

(** The delta fold: with every log of the range readable it is the chain of their
    generations. *)
Lemma require_fold dir f gens : forall base,
  Forall (fun g => require_delta dir f g = Ok tt) gens ->
  fold_result (fun chain g => _ ← require_delta dir f g; Ok (chain_extend chain g)) base gens =
  Ok (fold_left chain_extend gens base).
Proof.
  induction gens as [|g gens IH]; intros base H; inversion_clear H as [|? ? Hg ?]; [done|].
  cbn [fold_result fold_left]. rewrite Hg. cbn [mbind Result_bind]. by apply IH.
Qed.
End Theory.

(* ------------------------------------------------------------------ *)
(** * Properties *)

(** A checkpoint reads back what was streamed. *)
Theorem checkpoint_roundtrip {SHA : Sha256} (c : DirectoryCheckpoint) :
  checkpoint_wf c -> checkpoint_decode (write_streamed c) = Ok c.
Proof. apply checkpoint_reads_back. Qed.

(** C35: publishing the checkpoint of the live directories and pruning adds no crash
    state.  After the publication and after any number of the prune's deletions, in any
    order and up to the completed prune, recovery selects that checkpoint, its coverage
    check passes at this generation, and it rebuilds exactly the live directories, although
    the delta logs are gone. *)
Theorem checkpoint_recovery {SHA : Sha256} dir cur ids reps pls nl nr np ic rc pc pins :
  let c := checkpoint_from_state cur ids reps pls nl nr np ic rc pc in
  let published := <[FCheckpoint cur := write_streamed c]> dir in
  checkpoint_wf c ->
  is_ok (load_identity_logs dir cur) = true -> is_ok (load_replica_logs dir cur) = true ->
  is_ok (load_placement_logs dir cur) = true ->
  rtc (prune_step cur pins) published (prune_deltas_before published cur pins) /\
  forall dir', rtc (prune_step cur pins) published dir' ->
    load_newest dir' cur = Ok (Some c) /\
    recover_identity dir' cur (Some c) = Ok (ids, reps) /\ recover_placement dir' cur (Some c) = Ok pls /\
    forall m, generation m = cur -> validate_delta_coverage dir' (Some c) m = Ok tt.
Proof.
  intros c published Hc Hi Hr Hp. split; [apply prune_reachable|]. intros dir' Hd.
  destruct (checkpoint_recovers dir dir' cur ids reps pls nl nr np ic rc pc pins Hc Hi Hr Hp Hd) as (H1 & H2 & H3).
  split_and!; try done. intros m Hm. cbn [validate_delta_coverage]. rewrite Hm, Z.leb_refl. done.
Qed.

(** The coverage validator accepts exactly the complete delta set.  When a family
    published the generations [gens] after the checkpoint, the directory holds only logs of
    those generations in the range, each decodable under its name, and the publication
    chain of no proper sub-list of [gens] collides with theirs, validation succeeds iff
    every published log is still there; an intermediate one counts like the newest. *)
Theorem coverage_exact {SHA : Sha256} dir f ckg cur base gens floor0 :
  StronglySorted Z.lt gens -> Forall (fun g => ckg < g <= cur) gens -> floor0 <= ckg ->
  (forall g bs, dir !! family_path f g = Some bs -> ckg < g <= cur -> g ∈ gens /\ family_decode_generation f bs = Ok g) ->
  (forall l, l ⊆ gens -> StronglySorted Z.lt l ->
     fold_left chain_extend l base = fold_left chain_extend gens base -> l = gens) ->
  validate_family_coverage dir f ckg cur base (fold_left chain_extend gens base) (default floor0 (last gens)) = Ok tt <->
  (forall g, g ∈ gens -> is_Some (dir !! family_path f g)).
Proof.
  intros Hs Hr Hfl Hd Hinj. unfold validate_family_coverage.
  set (have := family_gens _ _ dir). assert (forall g, g ∈ have <-> ckg < g <= cur /\ is_Some (dir !! family_path f g)) as Hhave.
  { intros g. unfold have. rewrite (elem_of_family_gens _ _ _ _ _ (parses_family f)), andb_true_iff, Z.ltb_lt, Z.leb_le. done. }
  assert (StronglySorted Z.lt have) as Hsh.
  { apply sorted_le_lt; [apply family_gens_sorted | apply (family_gens_nodup _ _ _ _ (parses_family f))]. }
  assert (have ⊆ gens) as Hsub. { intros g [Hg [bs Hbs]]%Hhave. by apply (Hd g bs). }
  rewrite require_fold; [cbn [mbind Result_bind]|].
  2:{ apply Forall_forall. intros g [Hg [bs Hbs]]%Hhave. unfold require_delta. rewrite Hbs.
      destruct (Hd g bs Hbs Hg) as [_ ->]. cbn [mbind Result_bind]. by rewrite Z.eqb_refl. }
  assert (have = gens -> ((ckg <? default floor0 (last gens)) && negb (bool_decide (last have = Some (default floor0 (last gens))))) = false) as Hlast.
  { intros ->. destruct (last gens) as [g|]; cbn [default]; [by rewrite bool_decide_eq_true_2, andb_false_r|].
    apply andb_false_iff. left. apply Z.ltb_ge. done. }
  split.
  - intros H g Hg. destruct (_ && _) eqn:E1 in H; [done|]. destruct (negb _) eqn:E2 in H; [done|]. bool_to_prop.
    rewrite <-(Hinj have) in Hg by done. by apply Hhave.
  - intros Hall. assert (have = gens) as E.
    { apply (StronglySorted_unique_strong Z.lt); [intros; lia | done | done|].
      apply NoDup_Permutation; [by apply sorted_lt_nodup..|]. intros g. split; [apply Hsub|]. intros Hg. apply Hhave.
      rewrite Forall_forall in Hr. auto. }
    rewrite (Hlast E), E, Z.eqb_refl. done.
Qed.

Definition sample_ids : IdentityMap := {[mkObjectId (repeat x07 16) := mkLogicalId 1]}.
Definition sample_reps : ReplicaMap := {[mkLogicalId 1 := mkReplicaId 1]}.
Definition sample_pls : Placements := {[mkReplicaId 1 := PSegment (mkPhysicalLocation 1 0 0 2)]}.
Definition sample_checkpoint : DirectoryCheckpoint :=
  checkpoint_from_state 2 sample_ids sample_reps sample_pls 2 2 3 0 0 0.
(** A directory with an identity log of generation 1 that the checkpoint subsumes. *)
Definition sample_dir : Dir :=
  {[FIdentityLog 1 := @identity_log_encode toy_sha (mkIdentityLog 1 1 [mkIdentityRecord (mkObjectId (repeat x07 16)) (mkLogicalId 1)])]}.

Lemma sample_checkpoint_wf : checkpoint_wf sample_checkpoint.
Proof.
  assert (sample_checkpoint = mkDirectoryCheckpoint 1 2 [mkIdentityRecord (mkObjectId (repeat x07 16)) (mkLogicalId 1)]
    [mkReplicaRecord (mkLogicalId 1) LOCAL_NODE_ID (mkReplicaId 1)]
    [mkPlacementRecord (mkReplicaId 1) (PSegment (mkPhysicalLocation 1 0 0 2))] 2 2 3 0 0 0) as -> by (by vm_compute).
  unfold checkpoint_wf, identity_record_wf, replica_record_wf, placement_record_wf. cbn. repeat (split || constructor); done.
Qed.

Lemma checkpoint_roundtrip_witness :
  @checkpoint_decode toy_sha (@write_streamed toy_sha sample_checkpoint) = Ok sample_checkpoint.
Proof. apply checkpoint_roundtrip, sample_checkpoint_wf. Defined.

Lemma checkpoint_recovery_witness :
  let published := <[FCheckpoint 2 := @write_streamed toy_sha sample_checkpoint]> sample_dir in
  @recover_placement toy_sha (prune_deltas_before published 2 ∅) 2 (Some sample_checkpoint) = Ok sample_pls.
Proof.
  destruct (@checkpoint_recovery toy_sha sample_dir 2 sample_ids sample_reps sample_pls 2 2 3 0 0 0 ∅) as [H1 H2];
    [exact sample_checkpoint_wf | reflexivity..|]. apply (H2 _ H1).
Defined.

Lemma coverage_exact_witness :
  @validate_family_coverage toy_sha sample_dir IDENTITY 0 5 0 (fold_left (@chain_extend toy_sha) [1] 0) 1 = Ok tt.
Proof.
  apply (@coverage_exact toy_sha sample_dir IDENTITY 0 5 0 [1] 0); [repeat constructor | repeat constructor; done | done | | |].
  - intros g bs Hg _. unfold sample_dir in Hg. cbn [family_path] in Hg. apply lookup_singleton_Some in Hg as [[= <-] <-].
    split; [by apply elem_of_cons; left | reflexivity].
  - intros l Hl Hs Hc. destruct l as [|x l]; [vm_compute in Hc; discriminate|].
    assert (x = 1) as ->. { apply list_elem_of_singleton, Hl. apply elem_of_cons. by left. }
    destruct l as [|y l]; [done|]. assert (y = 1) as ->. { apply list_elem_of_singleton, Hl. rewrite !elem_of_cons. auto. }
    apply StronglySorted_inv in Hs as [_ Hs]. inversion Hs. lia.
  - intros g ->%list_elem_of_singleton. eexists. reflexivity.
Defined.
