(* ===== verification/Wal.v ===== *)
(** crates/storage/aikoql-v2/src/wal.rs: WAL frames, the in-memory replay and the
    bounded-memory, reader-based replay recovery runs.  A reader is modelled by the
    bytes of the (unchanging, readable) file behind it; a sink closure by the state it
    builds. *)

From S2P Require Import Prelude Cursor Format Identity.

Definition WAL_FORMAT_VERSION : Z := 1.
Definition FRAME_BATCH : Z := 1.
Definition OP_PUT : Z := 1.
Definition OP_DELETE : Z := 2.
Definition OP_CREATE_OBJECT : Z := 3.
Definition OP_PUT_OBJECT : Z := 4.
Definition OP_DELETE_OBJECT : Z := 5.
Definition WAL_MAGIC : bytes := [x41; x4b; x57; x46].
Definition FRAME_HEADER_LEN : Z := 19.

(** [enum Op]. *)
Inductive Op : Type :=
  | Put (key value : bytes)
  | Delete (key : bytes)
  | CreateObject (oid : ObjectId) (lid : LogicalId) (rid : ReplicaId) (pgen : Z)
  | PutObject (rid : ReplicaId) (key value : bytes)
  | DeleteObject (rid : ReplicaId) (key : bytes).

#[global] Instance Op_eq_dec : EqDecision Op.
Proof. solve_decision. Defined.

(** [Op::key]. *)
Definition op_key (o : Op) : bytes :=
  match o with
  | Put k _ | Delete k | PutObject _ k _ | DeleteObject _ k => k
  | CreateObject _ _ _ _ => []
  end.

(** [struct WalFrame]. *)
Record WalFrame : Type := mkWalFrame { frame_seq : Z; frame_ops : list Op }.

(** The Rust types' ranges: the ids are u64 newtypes, the object id 16 bytes. *)
Definition op_wf (o : Op) : Prop :=
  match o with
  | Put _ _ | Delete _ => True
  | CreateObject oid lid rid pgen => oid_wf oid /\ lid_wf lid /\ rid_wf rid /\ is_u64 pgen
  | PutObject rid _ _ | DeleteObject rid _ => rid_wf rid
  end.

(** [checked_len]. *)
Definition checked_len (parts : list Z) : Result Z :=
  fold_result (fun acc n =>
    match checked_add acc n with
    | Some t => Ok t
    | None => Err (Invalid "WAL op length overflows")
    end) 0 parts.

(** [op_encoded_len]. *)
Definition op_encoded_len (o : Op) : Result Z :=
  match o with
  | Put k v => checked_len [1; 4; zlen k; 4; zlen v]
  | Delete k => checked_len [1; 4; zlen k]
  | CreateObject _ _ _ _ => checked_len [1; 16; 8; 8; 8]
  | PutObject _ k v => checked_len [1; 8; 4; zlen k; 4; zlen v]
  | DeleteObject _ k => checked_len [1; 8; 4; zlen k]
  end.

(** The op-writing loop body of [encode_frame]. *)
Definition op_encode (o : Op) : bytes :=
  match o with
  | Put k v =>
      [byte_of OP_PUT] ++ le32 (as_u32 (zlen k)) ++ k ++ le32 (as_u32 (zlen v)) ++ v
  | Delete k => [byte_of OP_DELETE] ++ le32 (as_u32 (zlen k)) ++ k
  | CreateObject oid lid rid pgen =>
      [byte_of OP_CREATE_OBJECT] ++ oid_to_bytes oid ++ lid_to_bytes lid ++
      rid_to_bytes rid ++ le64 pgen
  | PutObject rid k v =>
      [byte_of OP_PUT_OBJECT] ++ rid_to_bytes rid ++
      le32 (as_u32 (zlen k)) ++ k ++ le32 (as_u32 (zlen v)) ++ v
  | DeleteObject rid k =>
      [byte_of OP_DELETE_OBJECT] ++ rid_to_bytes rid ++ le32 (as_u32 (zlen k)) ++ k
  end.

(** The payload-length loop of [encode_frame]. *)
Definition payload_len_of (ops : list Op) : Result Z :=
  fold_result (fun acc o =>
    n ← op_encoded_len o;
    match checked_add acc n with
    | Some t => Ok t
    | None => Err (Invalid "WAL frame payload overflows")
    end) 4 ops.

(** [u32::try_from]. *)
Definition u32_try_from (z : Z) : option Z := if z <? U32 then Some z else None.

Section Frames.
Context {SHA : Sha256}.

(** [encode_frame]. *)
Definition encode_frame (seq : Z) (ops : list Op) : Result bytes :=
  match ops with
  | [] => Err (Invalid "WAL frame with no ops")
  | _ =>
      payload_len ← payload_len_of ops;
      match u32_try_from payload_len with
      | None => Err (Invalid "WAL frame payload exceeds the format's u32 field")
      | Some payload_u32 =>
      match u32_try_from (zlen ops) with
      | None => Err (Invalid "WAL frame op count exceeds the format's u32 field")
      | Some entry_count =>
      match checked_add FRAME_HEADER_LEN payload_u32 ≫= fun t => checked_add t 8 with
      | None => Err (Invalid "WAL frame size overflows")
      | Some _total =>
          let frame := WAL_MAGIC ++ le16 WAL_FORMAT_VERSION ++ [byte_of FRAME_BATCH] ++
            le64 seq ++ le32 payload_u32 ++ le32 entry_count ++ concat (map op_encode ops) in
          Ok (frame ++ checksum8 frame)
      end end end
  end.

(** One iteration of [walk_payload]'s loop, up to the sink call. *)
Definition decode_op : Dec Op :=
  op ← cu8;
  if op =? OP_PUT then k ← cvec; v ← cvec; mret (Put k v)
  else if op =? OP_DELETE then k ← cvec; mret (Delete k)
  else if op =? OP_CREATE_OBJECT then
    oid ← coid; lid ← clid; rid ← crid; pgen ← cu64; mret (CreateObject oid lid rid pgen)
  else if op =? OP_PUT_OBJECT then rid ← crid; k ← cvec; v ← cvec; mret (PutObject rid k v)
  else if op =? OP_DELETE_OBJECT then rid ← crid; k ← cvec; mret (DeleteObject rid k)
  else dfail (Unsupported "WAL op byte").

Fixpoint walk_ops {S} (sink : S -> Op -> Result S) (n : nat) (s : S) : Dec S :=
  match n with
  | O => mret s
  | Datatypes.S n => o ← decode_op; s' ← dlift (sink s o); walk_ops sink n s'
  end.

(** [walk_payload]. *)
Definition walk_payload {S} (sink : S -> Op -> Result S) (payload : bytes) (s : S) : Result S :=
  run_dec (
    count ← cu32;
    _ ← dguard (count =? 0) (Corrupt "WAL frame with zero entries");
    s' ← walk_ops sink (Z.to_nat count) s;
    c ← dget;
    _ ← dguard (negb (is_empty c)) (Corrupt "WAL payload trailing bytes");
    mret s') payload.

(** [decode_payload]: the collecting wrapper. *)
Definition decode_payload (payload : bytes) : Result (list Op) :=
  walk_payload (fun ops o => Ok (ops ++ [o])) payload [].

(** [decode_frame]: the frame at the front of [bs], and its encoded length. *)
Definition decode_frame (bs : bytes) : Result (WalFrame * Z) :=
  run_dec (
    magic ← ctake 4;
    _ ← dguard (negb (slice_eqb magic WAL_MAGIC)) (Corrupt "WAL frame bad magic");
    version ← cu16;
    _ ← dguard (negb (version =? WAL_FORMAT_VERSION)) (Unsupported "WAL frame format version");
    frame_type ← cu8;
    _ ← dguard (negb (frame_type =? FRAME_BATCH)) (Unsupported "WAL frame type");
    seq ← cu64;
    payload_len ← cu32;
    payload ← ctake payload_len;
    stored_ck ← ctake 8;
    let total := FRAME_HEADER_LEN + payload_len + 8 in
    _ ← dguard (negb (slice_eqb (checksum8 (ztake (total - 8) bs)) stored_ck))
          (Corrupt "WAL frame checksum mismatch");
    ops ← dlift (decode_payload payload);
    mret (mkWalFrame seq ops, total)) bs.

(** The torn-tail probe of [replay_frames_streaming]: is there a valid frame
    at an offset strictly after [pos]? *)
Definition frame_at (bs : bytes) (i : Z) : bool := is_ok (decode_frame (zdrop i bs)).
Definition probe_after (bs : bytes) (pos : Z) : bool :=
  existsb (frame_at bs) (seqZ (pos + 1) (zlen bs - (pos + 1))).

(** The sequence check both replays make before consuming a frame. *)
Definition seq_increases (last_seq : option Z) (seq : Z) : bool :=
  match last_seq with Some prev => negb (seq <=? prev) | None => true end.

(** [replay_frames_streaming]: the [while pos < bytes.len()] loop.  Every frame is at
    least one byte long, so [length bs] iterations always reach the end. *)
Fixpoint replay_loop {S} (f : S -> WalFrame -> Result S) (bs : bytes)
    (fuel : nat) (pos : Z) (last_seq : option Z) (s : S) : Result (S * Z) :=
  match fuel with
  | O => Ok (s, pos)
  | Datatypes.S fuel =>
      if pos <? zlen bs then
        match decode_frame (zdrop pos bs) with
        | Ok (frame, len) =>
            if negb (seq_increases last_seq (frame_seq frame))
            then Err (Corrupt "WAL sequence must increase") else
            s' ← f s frame;
            replay_loop f bs fuel (pos + len) (Some (frame_seq frame)) s'
        | Err _ =>
            if probe_after bs pos
            then Err (Corrupt "WAL damage with valid frames after") else Ok (s, pos)
        end
      else Ok (s, pos)
  end.

Definition replay_frames_streaming {S} (f : S -> WalFrame -> Result S) (bs : bytes) (s : S)
    : Result (S * Z) :=
  replay_loop f bs (Datatypes.S (length bs)) 0 None s.

(** [replay_frames]. *)
Definition replay_frames (bs : bytes) : Result (list WalFrame * Z) :=
  replay_frames_streaming (fun fs f => Ok (fs ++ [f])) bs [].

(** [read_frame_bytes]. *)
Definition read_frame_bytes (file : bytes) (pos end_ : Z) : option (Z * bytes) :=
  if end_ <? pos + FRAME_HEADER_LEN then None else
  let head := zslice pos (pos + FRAME_HEADER_LEN) file in
  if negb (slice_eqb (ztake 4 head) WAL_MAGIC) then None else
  let version := le_val (zslice 4 6 head) in
  if negb (version =? WAL_FORMAT_VERSION) || negb (le_val (zslice 6 7 head) =? FRAME_BATCH)
  then None else
  let seq := le_val (zslice 7 15 head) in
  let payload_len := le_val (zslice 15 19 head) in
  let total := FRAME_HEADER_LEN + payload_len + 8 in
  if end_ <? pos + total then None else
  Some (seq, zslice pos (pos + total) file).

(** The checksum test of a frame's bytes: [checksum8(&b[..len-8]) == b[len-8..]]. *)
Definition frame_checksum_ok (body : bytes) : bool :=
  slice_eqb (checksum8 (ztake (zlen body - 8) body)) (zdrop (zlen body - 8) body).
(** [&body[FRAME_HEADER_LEN..total - 8]]. *)
Definition frame_payload (body : bytes) : bytes := zslice FRAME_HEADER_LEN (zlen body - 8) body.

(** [validate_frame_at]. *)
Definition validate_frame_at (file : bytes) (pos end_ : Z) : Result (option (Z * Z)) :=
  match read_frame_bytes file pos end_ with
  | None => Ok None
  | Some (seq, body) =>
      if negb (frame_checksum_ok body) then Ok None else
      _ ← decode_payload (frame_payload body);
      Ok (Some (seq, zlen body))
  end.

(** The per-offset probe loop of [valid_prefix_len]. *)
Fixpoint validate_probe (file : bytes) (end_ : Z) (offsets : list Z) : Result bool :=
  match offsets with
  | [] => Ok false
  | p :: ps =>
      v ← validate_frame_at file p end_;
      match v with Some _ => Ok true | None => validate_probe file end_ ps end
  end.

(** [valid_prefix_len]. *)
Fixpoint valid_prefix_loop (file : bytes) (end_ : Z) (fuel : nat) (pos : Z) (last_seq : option Z)
    : Result Z :=
  match fuel with
  | O => Ok pos
  | Datatypes.S fuel =>
      if pos <? end_ then
        v ← validate_frame_at file pos end_;
        match v with
        | Some (seq, total) =>
            if negb (seq_increases last_seq seq) then Err (Corrupt "WAL sequence must increase") else
            valid_prefix_loop file end_ fuel (pos + total) (Some seq)
        | None =>
            hit ← validate_probe file end_ (seqZ (pos + 1) (end_ - (pos + 1)));
            if (hit : bool) then Err (Corrupt "WAL damage with valid frames after") else Ok pos
        end
      else Ok pos
  end.
Definition valid_prefix_len (file : bytes) : Result Z :=
  valid_prefix_loop file (zlen file) (Datatypes.S (length file)) 0 None.

(** [find_valid_frame_after]: scan chunks for the magic (the chunks overlap by three
    bytes), fully validating only the magic hits. *)
Definition CHUNK : Z := 65536.

Definition candidate_ok (file : bytes) (end_ cand : Z) : bool :=
  match read_frame_bytes file cand end_ with
  | Some (_, b) => frame_checksum_ok b && is_ok (decode_payload (frame_payload b))
  | None => false
  end.

Fixpoint scan_chunk (file buf : bytes) (at_ end_ : Z) (offs : list Z) : option Z :=
  match offs with
  | [] => None
  | i :: offs =>
      if slice_eqb (zslice i (i + 4) buf) WAL_MAGIC && candidate_ok file end_ (at_ + i)
      then Some (at_ + i) else scan_chunk file buf at_ end_ offs
  end.

Fixpoint find_loop (chunk : Z) (file : bytes) (end_ : Z) (fuel : nat) (at_ : Z) : option Z :=
  match fuel with
  | O => None
  | Datatypes.S fuel =>
      if at_ <? end_ then
        let want := Z.min (end_ - at_) chunk in
        if want <? 4 then None else
        let buf := zslice at_ (at_ + want) file in
        match scan_chunk file buf at_ end_ (seqZ 0 (want - 4 + 1)) with
        | Some cand => Some cand
        | None => find_loop chunk file end_ fuel (at_ + (want - 3))
        end
      else None
  end.
Definition find_valid_frame_after (file : bytes) (pos end_ : Z) : option Z :=
  find_loop CHUNK file end_ (Datatypes.S (length file)) pos.

(** [replay_reader]: the consumed prefix and the file size at open, with the state the
    apply callback [f] built. *)
Fixpoint reader_loop {S} (f : S -> Z -> Op -> Result S) (file : bytes) (end_ : Z)
    (fuel : nat) (pos : Z) (last_seq : option Z) (s : S) : Result (S * (Z * Z)) :=
  let torn_or_damage :=
    match find_valid_frame_after file pos end_ with
    | Some _ => Err (Corrupt "WAL damage with valid frames after")
    | None => Ok (s, (pos, end_))
    end in
  match fuel with
  | O => Ok (s, (pos, end_))
  | Datatypes.S fuel =>
      if pos <? end_ then
        match read_frame_bytes file pos end_ with
        | None => torn_or_damage
        | Some (seq, bs) =>
            if negb (frame_checksum_ok bs) then torn_or_damage else
            if negb (seq_increases last_seq seq) then Err (Corrupt "WAL sequence must increase") else
            s' ← walk_payload (fun s o => f s seq o) (frame_payload bs) s;
            reader_loop f file end_ fuel (pos + zlen bs) (Some seq) s'
        end
      else Ok (s, (pos, end_))
  end.
Definition replay_reader {S} (f : S -> Z -> Op -> Result S) (file : bytes) (s : S)
    : Result (S * (Z * Z)) :=
  reader_loop f file (zlen file) (Datatypes.S (length file)) 0 None s.

End Frames.
