(* ===== verification/WalFrames.v ===== *)
(** Theory of the WAL frame codec of Wal.v: decoding a frame is exactly inverting its
    encoding, at any offset of a stream. *)

From S2P Require Import Prelude Cursor Format Identity Wal.

(** What the format can carry: the ids' widths and u32 lengths. *)
Definition op_fits (o : Op) : Prop :=
  op_wf o /\
  match o with
  | Put k v | PutObject _ k v => is_u32 (zlen k) /\ is_u32 (zlen v)
  | Delete k | DeleteObject _ k => is_u32 (zlen k)
  | CreateObject _ _ _ _ => True
  end.

Definition frame_wf (f : WalFrame) : Prop := is_u64 (frame_seq f) /\ Forall op_wf (frame_ops f).

Lemma checked_add_Some a b t : checked_add a b = Some t <-> t = a + b /\ a + b < USIZE.
Proof. unfold checked_add. case_test; bool_to_prop; split; intros H; [injection H as <-; lia | destruct H as [-> _]; done | discriminate | lia]. Qed.

Lemma checked_add_ok a b : a + b < USIZE -> checked_add a b = Some (a + b).
Proof. intros. by apply checked_add_Some. Qed.

Lemma checked_len_spec acc parts n :
  fold_result (fun acc n => match checked_add acc n with
    | Some t => Ok t | None => Err (Invalid "WAL op length overflows") end) acc parts = Ok n ->
  n = acc + fold_right Z.add 0 parts.
Proof.
  revert acc. induction parts as [|p parts IH]; intros acc H; cbn in *.
  - injection H as <-. lia.
  - destruct (checked_add acc p) eqn:E; cbn in H; [|discriminate].
    apply checked_add_Some in E as [-> _]. apply IH in H. lia.
Qed.

Lemma checked_len_ok acc parts :
  0 <= acc -> Forall (fun p => 0 <= p) parts -> acc + fold_right Z.add 0 parts < USIZE ->
  fold_result (fun acc n => match checked_add acc n with
    | Some t => Ok t | None => Err (Invalid "WAL op length overflows") end) acc parts
  = Ok (acc + fold_right Z.add 0 parts).
Proof.
  revert acc. induction parts as [|p parts IH]; intros acc Ha Hp Hs; cbn in *.
  - f_equal. lia.
  - apply Forall_cons_1 in Hp as [Hp0 Hp].
    assert (0 <= fold_right Z.add 0 parts) by (clear -Hp; induction Hp; cbn; lia).
    rewrite (proj2 (checked_add_Some acc p (acc + p))) by (split; [done|lia]). cbn.
    rewrite IH by (try done; lia). f_equal. lia.
Qed.

Lemma op_encoded_len_exact o n :
  op_wf o -> op_encoded_len o = Ok n -> n = zlen (op_encode o).
Proof.
  intros Hw H. destruct o; unfold op_encoded_len, checked_len in H; apply checked_len_spec in H;
    subst n; unfold op_encode, oid_to_bytes, lid_to_bytes, rid_to_bytes; autorewrite with zlen; cbn;
    try lia.
  destruct Hw as (Ho & _). rewrite Ho. lia.
Qed.

Lemma op_encoded_len_ok o :
  op_wf o -> zlen (op_encode o) < USIZE -> op_encoded_len o = Ok (zlen (op_encode o)).
Proof.
  intros Hw H.
  assert (exists ps, op_encoded_len o = checked_len ps /\ Forall (fun p => 0 <= p) ps /\
    0 + fold_right Z.add 0 ps = zlen (op_encode o)) as (ps & -> & Hp & E).
  { destruct o; eexists; (split; [reflexivity|]); split;
      try (repeat constructor; (lia || apply zlen_nonneg));
      unfold op_encode, oid_to_bytes, lid_to_bytes, rid_to_bytes; autorewrite with zlen; cbn; try lia.
    destruct Hw as (Ho & _). rewrite Ho. lia. }
  unfold checked_len. rewrite checked_len_ok by (done || lia). by rewrite E.
Qed.

Lemma zlen_op_pos o : 1 <= zlen (op_encode o).
Proof. destruct o; unfold op_encode; autorewrite with zlen; zlen_solve. Qed.

Lemma payload_len_exact acc ops n :
  Forall op_wf ops ->
  fold_result (fun acc o => n ← op_encoded_len o;
    match checked_add acc n with
    | Some t => Ok t | None => Err (Invalid "WAL frame payload overflows") end) acc ops = Ok n ->
  n = acc + zlen (concat (map op_encode ops)).
Proof.
  intros Hw. revert acc. induction Hw as [|o ops Ho Hw IH]; intros acc H; cbn [fold_result map concat] in *.
  - injection H as <-. unfold zlen. cbn. lia.
  - apply bind_Ok_inv in H as (a & Ha & H). apply bind_Ok_inv in Ha as (l & Hl & Ha).
    apply op_encoded_len_exact in Hl as ->; [|done].
    destruct (checked_add acc _) eqn:E; [|discriminate].
    apply checked_add_Some in E as [-> _]. injection Ha as <-. apply IH in H. rewrite zlen_app. lia.
Qed.

Lemma payload_len_ok acc ops :
  0 <= acc -> Forall op_wf ops -> acc + zlen (concat (map op_encode ops)) < USIZE ->
  fold_result (fun acc o => n ← op_encoded_len o;
    match checked_add acc n with
    | Some t => Ok t | None => Err (Invalid "WAL frame payload overflows") end) acc ops
  = Ok (acc + zlen (concat (map op_encode ops))).
Proof.
  intros Ha Hw. revert acc Ha. induction Hw as [|o ops Ho Hw IH]; intros acc Ha H;
    cbn [fold_result map concat] in *.
  - unfold zlen. cbn. f_equal. lia.
  - rewrite zlen_app in H. pose proof (zlen_nonneg (concat (map op_encode ops))).
    pose proof (zlen_op_pos o). rewrite op_encoded_len_ok by (done || lia). cbn.
    rewrite (proj2 (checked_add_Some acc _ _)) by (split; [reflexivity|lia]). cbn.
    rewrite IH by (lia || done). rewrite zlen_app. f_equal. lia.
Qed.

Lemma op_reads o r : op_fits o -> reads decode_op (op_encode o) r o.
Proof.
  intros [Hw Hl]. unfold decode_op. destruct o; cbn [op_encode op_wf] in *;
    (eapply reads_bind; [by apply reads_u8|]); cbn [Z.eqb OP_PUT OP_DELETE OP_CREATE_OBJECT
      OP_PUT_OBJECT OP_DELETE_OBJECT Pos.eqb].
  - destruct Hl. rewrite !as_u32_small by done. rewrite app_assoc. reads_field.
    eapply reads_map; [by apply reads_vec | apply reads_ret].
  - rewrite as_u32_small by done. eapply reads_map; [by apply reads_vec | apply reads_ret].
  - destruct Hw as (?&?&?&?). do 3 reads_field.
    eapply reads_map; [by apply reads_u64 | apply reads_ret].
  - destruct Hl. rewrite !as_u32_small by done. reads_field. rewrite app_assoc. reads_field.
    eapply reads_map; [by apply reads_vec | apply reads_ret].
  - rewrite as_u32_small by done. reads_field.
    eapply reads_map; [by apply reads_vec | apply reads_ret].
Qed.

Lemma op_exact : exact decode_op op_encode op_fits.
Proof.
  intros c o c' Hc Hd. unfold decode_op in Hd. dec_exact exact_u8.
  repeat case_test; bool_to_prop; try subst v.
  - do 2 dec_exact exact_vec. dec_ret. unfold op_fits. cbn [op_encode op_wf].
    rewrite !as_u32_small by done. rewrite Er, Er0, Er1, <-!app_assoc.
    split_and!; try done. congruence.
  - dec_exact exact_vec. dec_ret. unfold op_fits. cbn [op_encode op_wf].
    rewrite !as_u32_small by done. rewrite Er, Er0, <-!app_assoc. split_and!; try done. congruence.
  - dec_exact exact_oid. dec_exact exact_lid. dec_exact exact_rid. dec_exact exact_u64. dec_ret.
    unfold op_fits. cbn [op_encode op_wf]. rewrite Er, Er0, Er1, Er2, Er3, <-!app_assoc.
    split_and!; try done. congruence.
  - dec_exact exact_rid. do 2 dec_exact exact_vec. dec_ret. unfold op_fits. cbn [op_encode op_wf].
    rewrite !as_u32_small by done. rewrite Er, Er0, Er1, Er2, <-!app_assoc.
    split_and!; try done. congruence.
  - dec_exact exact_rid. dec_exact exact_vec. dec_ret. unfold op_fits. cbn [op_encode op_wf].
    rewrite !as_u32_small by done. rewrite Er, Er0, Er1, <-!app_assoc.
    split_and!; try done. congruence.
  - discriminate Hd.
Qed.

(* ------------------------------------------------------------------ *)
(** * Payloads: the streaming walk is decode-then-fold *)

Lemma walk_ops_spec {S} (sink : S -> Op -> Result S) n s c s' c' :
  walk_ops sink n s c = Ok (s', c') <->
  exists ops, drepeat n decode_op c = Ok (ops, c') /\ fold_result sink s ops = Ok s'.
Proof.
  revert s c. induction n as [|n IH]; intros s c; cbn [walk_ops drepeat].
  - split.
    + intros H. injection H as <- <-. by exists [].
    + intros (ops & H & F). injection H as <- <-. injection F as <-. done.
  - split.
    + intros H. apply bind_dec_inv in H as (o & c1 & Ho & H).
      apply bind_dec_inv in H as (s1 & c2 & Hs & H). apply dlift_inv in Hs as [Hs ->].
      apply IH in H as (ops & Hops & F). exists (o :: ops). cbn. rewrite Hs. cbn. split; [|done].
      unfold mbind, Dec_bind. by rewrite Ho, Hops.
    + intros (ops & H & F). apply bind_dec_inv in H as (o & c1 & Ho & H).
      apply bind_dec_inv in H as (ops' & c2 & Hops & H). injection H as <- <-.
      cbn in F. apply bind_Ok_inv in F as (s1 & Hs & F).
      unfold mbind, Dec_bind, dlift. rewrite Ho, Hs. cbn. apply IH. eauto.
Qed.

Lemma fold_collect {X} (acc xs : list X) :
  fold_result (fun l x => Ok (l ++ [x])) acc xs = Ok (acc ++ xs).
Proof.
  revert acc. induction xs as [|x xs IH]; intros acc; cbn; [by rewrite app_nil_r|].
  by rewrite IH, <-app_assoc.
Qed.

(** What a payload holds: [count | ops], nothing else. *)
Definition payload_of (ops : list Op) : bytes := le32 (zlen ops) ++ concat (map op_encode ops).

Lemma walk_payload_spec {S} (sink : S -> Op -> Result S) payload s s' :
  walk_payload sink payload s = Ok s' <->
  exists ops, ops <> [] /\ is_u32 (zlen ops) /\ Forall op_fits ops /\
    payload = payload_of ops /\ fold_result sink s ops = Ok s'.
Proof.
  split.
  - intros Hd. apply run_dec_Ok in Hd as [c' Hd]. pose proof (cur_ok_new payload) as Hc.
    dec_exact exact_u32. dec_guard. bool_to_prop.
    apply bind_dec_inv in Hd as (s1 & c1 & Hw & Hd). dec_get. dec_guard. dec_ret. bool_to_prop.
    apply walk_ops_spec in Hw as (ops & Hr & Hf).
    destruct (exact_repeat _ _ _ _ op_exact _ _ _ Hk Hr) as (E & Hk1 & _ & L & F).
    apply is_empty_crest in Hg0; [|done].
    assert (zlen ops = v) as Lz by (unfold zlen; rewrite L; destruct Hp; lia).
    exists ops. rewrite Lz. split_and!; try done; try apply Hp.
    + intros ->. by cbn in Lz.
    + unfold payload_of. rewrite Lz, <-(crest_new payload), Er, E, Hg0, app_nil_r. done.
  - intros (ops & Hne & Hn & Hf & -> & Hs). eapply reads_run; [reflexivity|].
    unfold payload_of. reads_field.
    eapply reads_bind0; [apply reads_guard|].
    { apply Z.eqb_neq. destruct ops; [done|]. rewrite zlen_cons. pose proof (zlen_nonneg ops). lia. }
    rewrite zlen_to_nat. eapply reads_map.
    { intros c Hc E. apply walk_ops_spec. exists ops. split; [|exact Hs].
      apply (reads_repeat decode_op op_encode op_fits ops []); [intros; by apply op_reads | done..]. }
    apply reads_dget. intros c Hc E. eapply reads_bind0; [apply reads_guard | apply reads_ret].
    by rewrite (proj2 (is_empty_crest c Hc) E).
Qed.

Lemma decode_payload_spec payload ops :
  decode_payload payload = Ok ops <->
  ops <> [] /\ is_u32 (zlen ops) /\ Forall op_fits ops /\ payload = payload_of ops.
Proof.
  unfold decode_payload. rewrite walk_payload_spec. split.
  - intros (ops' & ?&?&?&?& F). rewrite fold_collect in F. injection F as <-. auto.
  - intros (?&?&?&?). exists ops. split_and!; try done. by rewrite fold_collect.
Qed.

Lemma walk_payload_decode {S} (sink : S -> Op -> Result S) payload s s' :
  walk_payload sink payload s = Ok s' <->
  exists ops, decode_payload payload = Ok ops /\ fold_result sink s ops = Ok s'.
Proof.
  rewrite walk_payload_spec. setoid_rewrite decode_payload_spec.
  split; intros (ops & H); exists ops; tauto.
Qed.

(** On a payload that decodes, the walk is exactly the fold over its ops, the sink's
    errors included. *)
Lemma walk_ops_decoded {S} (sink : S -> Op -> Result S) n s c ops c' :
  drepeat n decode_op c = Ok (ops, c') ->
  walk_ops sink n s c = (s' ← fold_result sink s ops; Ok (s', c')).
Proof.
  revert s c ops. induction n as [|n IH]; intros s c ops H; cbn [walk_ops drepeat] in *.
  - injection H as <- <-. done.
  - apply bind_dec_inv in H as (o & c1 & Ho & H). apply bind_dec_inv in H as (ops' & c2 & Hops & H).
    injection H as <- <-. unfold mbind, Dec_bind, dlift. rewrite Ho. cbn.
    destruct (sink s o) as [s1|e]; cbn; [|done]. by apply IH.
Qed.

Lemma walk_payload_decoded {S} (sink : S -> Op -> Result S) payload ops s :
  decode_payload payload = Ok ops -> walk_payload sink payload s = fold_result sink s ops.
Proof.
  destruct (fold_result sink s ops) as [s'|e] eqn:E; intros H.
  { apply walk_payload_decode. eauto. }
  apply run_dec_Ok in H as [c' H]. unfold walk_payload, run_dec.
  apply bind_dec_inv in H as (n & c1 & Hn & H). apply bind_dec_inv in H as (u & c2 & Hg & H).
  apply bind_dec_inv in H as (l & c3 & Hw & H). apply walk_ops_spec in Hw as (ops' & Hr & Hf).
  rewrite fold_collect in Hf. injection Hf as <-.
  assert (ops' = ops) as ->.
  { dec_get. dec_guard. injection H as <- <-. done. }
  unfold mbind at 2, Dec_bind. rewrite Hn. unfold mbind at 2, Dec_bind. rewrite Hg.
  unfold mbind at 2, Dec_bind. rewrite (walk_ops_decoded _ _ _ _ _ _ Hr), E. done.
Qed.

(* ------------------------------------------------------------------ *)
(** * Frames *)

Section Frames.
Context {SHA : Sha256}.

(** The bytes of a frame before its checksum. *)
Definition frame_body (seq : Z) (ops : list Op) : bytes :=
  WAL_MAGIC ++ le16 WAL_FORMAT_VERSION ++ [byte_of FRAME_BATCH] ++ le64 seq ++
  le32 (zlen (payload_of ops)) ++ payload_of ops.

Lemma zlen_frame_body seq ops : zlen (frame_body seq ops) = FRAME_HEADER_LEN + zlen (payload_of ops).
Proof. unfold frame_body, WAL_MAGIC, FRAME_HEADER_LEN. autorewrite with zlen. lia. Qed.

Lemma encode_frame_spec seq ops enc :
  Forall op_wf ops ->
  encode_frame seq ops = Ok enc <->
  ops <> [] /\ is_u32 (zlen (payload_of ops)) /\ is_u32 (zlen ops) /\
  enc = frame_body seq ops ++ checksum8 (frame_body seq ops).
Proof.
  intros Hw.
  assert (zlen (payload_of ops) = 4 + zlen (concat (map op_encode ops))) as Lp
    by (unfold payload_of; by rewrite zlen_app, zlen_le32).
  pose proof (zlen_nonneg ops). pose proof (zlen_nonneg (payload_of ops)).
  destruct ops as [|o ops]; [split; [discriminate | by intros [? _]]|]. unfold encode_frame. set (l := o :: ops) in *.
  split.
  - intros He. apply bind_Ok_inv in He as (n & Hn & He).
    apply payload_len_exact in Hn; [|done]. rewrite <-Lp in Hn. subst n.
    unfold u32_try_from in He. do 2 (case_test; [|discriminate]). bool_to_prop.
    destruct (_ ≫= _); [|discriminate]. injection He as <-. split_and!; try done.
  - intros (Hne & H1 & H2 & ->). unfold payload_len_of.
    rewrite payload_len_ok; [|lia|done|rewrite <-Lp; unfold USIZE; destruct H1; unfold U32 in *; lia].
    rewrite <-Lp. cbn [mbind Result_bind]. unfold u32_try_from.
    do 2 (rewrite (proj2 (Z.ltb_lt _ _)) by (apply H1 || apply H2)).
    destruct H1. unfold U32, USIZE, FRAME_HEADER_LEN in *.
    rewrite checked_add_ok by (unfold USIZE; lia). cbn [mbind option_bind].
    rewrite checked_add_ok by (unfold USIZE; lia). done.
Qed.

Lemma op_encoded_len_error o e : op_encoded_len o = Err e -> exists m, e = Invalid m.
Proof.
  assert (forall ps acc, fold_result (fun acc n => match checked_add acc n with
    | Some t => Ok t | None => Err (Invalid "WAL op length overflows") end) acc ps = Err e ->
    exists m, e = Invalid m) as H.
  { induction ps as [|p ps IH]; intros acc H; cbn in H; [discriminate|].
    destruct (checked_add acc p); cbn in H; [by eapply IH | injection H as <-; eauto]. }
  destruct o; apply H.
Qed.

Lemma payload_len_error ops acc e :
  fold_result (fun acc o => n ← op_encoded_len o;
    match checked_add acc n with
    | Some t => Ok t | None => Err (Invalid "WAL frame payload overflows") end) acc ops = Err e ->
  exists m, e = Invalid m.
Proof.
  revert acc. induction ops as [|o ops IH]; intros acc H; cbn in H; [discriminate|].
  destruct (op_encoded_len o) eqn:E; cbn in H; [|injection H as <-; by eapply op_encoded_len_error].
  destruct (checked_add acc a); cbn in H; [by eapply IH | injection H as <-; eauto].
Qed.

Lemma encode_frame_error seq ops e : encode_frame seq ops = Err e -> exists m, e = Invalid m.
Proof.
  unfold encode_frame. destruct ops as [|o ops]; [intros H; injection H as <-; eauto|].
  unfold payload_len_of. destruct (fold_result _ _ _) eqn:E; cbn [mbind Result_bind].
  2: { intros H. injection H as <-. by eapply payload_len_error. }
  destruct (u32_try_from a); [|intros H; injection H as <-; eauto].
  destruct (u32_try_from _); [|intros H; injection H as <-; eauto].
  destruct (_ ≫= _); [discriminate | intros H; injection H as <-; eauto].
Qed.

Lemma op_fits_of_payload ops :
  Forall op_wf ops -> is_u32 (zlen (payload_of ops)) -> Forall op_fits ops.
Proof.
  intros Hw H. apply Forall_forall. intros o Ho. split; [by eapply Forall_forall in Hw|].
  assert (zlen (op_encode o) <= zlen (payload_of ops)) as L.
  { unfold payload_of. rewrite zlen_app, zlen_le32. clear -Ho.
    induction ops as [|o' ops IH]; [by apply not_elem_of_nil in Ho|]. cbn [map concat].
    rewrite zlen_app. pose proof (zlen_op_pos o'). pose proof (zlen_nonneg (concat (map op_encode ops))).
    apply elem_of_cons in Ho as [->|Ho]; [lia|]. specialize (IH Ho). lia. }
  destruct H as [_ H]. destruct o; unfold op_encode in L; autorewrite with zlen in L;
    try done; unfold is_u32;
    repeat match goal with |- context [zlen ?x] => lazymatch goal with
      | _ : 0 <= zlen x |- _ => fail | _ => pose proof (zlen_nonneg x) end end;
    try (pose proof (zlen_nonneg (rid_to_bytes rid)));
    repeat match goal with k : list byte |- _ => lazymatch goal with
      | _ : 0 <= zlen k |- _ => fail | _ => pose proof (zlen_nonneg k) end end; lia.
Qed.

Lemma decode_frame_encode seq ops enc rest :
  is_u64 seq -> Forall op_wf ops -> encode_frame seq ops = Ok enc ->
  decode_frame (enc ++ rest) = Ok (mkWalFrame seq ops, zlen enc).
Proof.
  intros Hs Hw He. apply encode_frame_spec in He as (Hne & Hp & Hn & ->); [|done].
  set (body := frame_body seq ops).
  assert (zlen (body ++ checksum8 body) = FRAME_HEADER_LEN + zlen (payload_of ops) + 8) as Lt
    by (rewrite zlen_app, zlen_checksum8; unfold body; rewrite zlen_frame_body; lia).
  unfold decode_frame. eapply (reads_run_front _ _ (body ++ checksum8 body)); [reflexivity|].
  unfold body at 3, frame_body. rewrite <-!app_assoc.
  eapply reads_bind; [by apply reads_take|].
  eapply reads_bind0; [apply reads_guard; by rewrite slice_eqb_refl|].
  reads_field. eapply reads_bind0; [by apply reads_guard|].
  eapply reads_bind; [by apply reads_u8|]. eapply reads_bind0; [by apply reads_guard|].
  do 2 reads_field. eapply reads_bind; [by apply reads_take|].
  eapply reads_map; [apply reads_take, zlen_checksum8|].
  eapply reads_bind0; [apply reads_guard|].
  { rewrite ztake_app; [by rewrite slice_eqb_refl|]. unfold body. rewrite zlen_frame_body. lia. }
  eapply reads_bind0; [apply reads_lift, decode_payload_spec; split_and!; try done|].
  - by apply op_fits_of_payload.
  - rewrite Lt. apply reads_ret.
Qed.

Lemma decode_frame_exact bs f n :
  decode_frame bs = Ok (f, n) ->
  frame_wf f /\ exists enc rest,
    encode_frame (frame_seq f) (frame_ops f) = Ok enc /\ bs = enc ++ rest /\ n = zlen enc.
Proof.
  intros Hd. apply run_dec_Ok in Hd as [c' Hd]. pose proof (cur_ok_new bs) as Hc. cbv zeta in Hd.
  dec_exact (exact_take 4 ltac:(lia)). dec_guard. dec_exact exact_u16. dec_guard.
  dec_exact exact_u8. dec_guard. dec_exact exact_u64. dec_exact exact_u32.
  dec_exact (exact_take v3 ltac:(destruct Hp3; lia)). dec_exact (exact_take 8 ltac:(lia)).
  dec_guard. apply bind_dec_inv in Hd as (ops & c6 & Ho & Hd). apply dlift_inv in Ho as [Ho ->].
  injection Hd as <- <- <-. apply decode_payload_spec in Ho as (Hne & Hn & Hf & ->).
  bool_to_prop. apply bool_decide_eq_true in Hg, Hg2. unfold id in *. subst v v0 v1 v3.
  assert (Forall op_wf ops) as Hw by (eapply Forall_impl; [done | by intros ? []]).
  assert (bs = frame_body v2 ops ++ v5 ++ crest c5) as Eb.
  { rewrite <-(crest_new bs), Er, Er0, Er1, Er2, Er3, Er4, Er5. unfold frame_body.
    by rewrite <-!app_assoc. }
  split; [done|]. exists (frame_body v2 ops ++ checksum8 (frame_body v2 ops)), (crest c5).
  cbn [frame_seq frame_ops]. split_and!.
  - by apply encode_frame_spec.
  - rewrite <-app_assoc. rewrite Eb at 1. do 2 f_equal. rewrite <-Hg2. f_equal.
    rewrite Eb. apply ztake_app. rewrite zlen_frame_body. lia.
  - rewrite zlen_app, zlen_checksum8, zlen_frame_body. done.
Qed.

Lemma encode_frame_len seq ops enc :
  Forall op_wf ops -> encode_frame seq ops = Ok enc -> FRAME_HEADER_LEN + 12 <= zlen enc.
Proof.
  intros Hw He. apply encode_frame_spec in He as (Hne & Hp & Hn & ->); [|done].
  rewrite zlen_app, zlen_checksum8, zlen_frame_body. unfold payload_of.
  rewrite zlen_app, zlen_le32. pose proof (zlen_nonneg (concat (map op_encode ops))). lia.
Qed.

(** The length a decode reports is positive and within the input. *)
Lemma decode_frame_len bs f n : decode_frame bs = Ok (f, n) -> FRAME_HEADER_LEN + 12 <= n <= zlen bs.
Proof.
  intros H. apply decode_frame_exact in H as ((_ & Hw) & enc & rest & He & -> & ->).
  apply encode_frame_len in He; [|done]. rewrite zlen_app. pose proof (zlen_nonneg rest). lia.
Qed.

(** Bytes after a frame do not matter. *)
Lemma decode_frame_app bs rest f n :
  decode_frame bs = Ok (f, n) -> decode_frame (bs ++ rest) = Ok (f, n).
Proof.
  intros H. apply decode_frame_exact in H as ((Hs & Hw) & enc & r & He & -> & ->).
  rewrite <-app_assoc. destruct f. by apply decode_frame_encode.
Qed.

(** A frame cut short never decodes. *)
Lemma decode_frame_prefix seq ops enc p r :
  is_u64 seq -> Forall op_wf ops -> encode_frame seq ops = Ok enc -> enc = p ++ r -> r <> [] ->
  is_ok (decode_frame p) = false.
Proof.
  intros Hs Hw He E Hr. destruct (decode_frame p) as [[f n]|e] eqn:D; [|done].
  pose proof (decode_frame_len _ _ _ D) as L. apply (decode_frame_app _ r) in D. rewrite <-E in D.
  pose proof (decode_frame_encode _ _ _ [] Hs Hw He) as D'. rewrite app_nil_r, D in D'.
  injection D' as _ ->. rewrite E, zlen_app in L. destruct r; [done|]. rewrite zlen_cons in L.
  pose proof (zlen_nonneg r). lia.
Qed.
End Frames.

(* ------------------------------------------------------------------ *)
(** * Properties *)

(** A frame decodes at the front of a byte stream iff the stream starts with the
    encoding of that frame; the reported length is the encoding's. *)
Theorem wal_frame_exact {SHA : Sha256} (bs : bytes) (f : WalFrame) (n : Z) :
  decode_frame bs = Ok (f, n) <->
  frame_wf f /\ exists enc rest,
    encode_frame (frame_seq f) (frame_ops f) = Ok enc /\ bs = enc ++ rest /\ n = zlen enc.
Proof.
  split; [apply decode_frame_exact|].
  intros ((Hs & Hw) & enc & rest & He & -> & ->). destruct f. by apply decode_frame_encode.
Qed.

Definition sample_ops : list Op :=
  [Put [x6b] [x76]; CreateObject (mkObjectId (repeat x01 16)) (mkLogicalId 1) (mkReplicaId 1) 1;
   PutObject (mkReplicaId 1) [x6b] [x77]; Delete [x6b]; DeleteObject (mkReplicaId 1) [x6b]].

Lemma sample_ops_wf : Forall op_wf sample_ops.
Proof. unfold sample_ops. repeat constructor; done. Qed.

Lemma wal_frame_exact_witness :
  exists enc, @encode_frame toy_sha 9 sample_ops = Ok enc /\
    @decode_frame toy_sha (enc ++ [x00; x01]) = Ok (mkWalFrame 9 sample_ops, zlen enc).
Proof.
  eexists. split; [vm_compute; reflexivity|]. apply (@wal_frame_exact toy_sha).
  split; [split; [done | exact sample_ops_wf]|]. do 2 eexists. split_and!; [|reflexivity..].
  vm_compute. reflexivity.
Defined.

(** Encoding fails safely: over ops of in-range ids it succeeds exactly when there is
    an op and the payload fits the u32 length field, it then writes precisely the header,
    payload and checksum; every failure is Invalid. *)
Theorem encode_frame_total {SHA : Sha256} (seq : Z) (ops : list Op) :
  Forall op_wf ops ->
  match encode_frame seq ops with
  | Ok enc => ops <> [] /\ zlen (payload_of ops) < U32 /\
      zlen enc = FRAME_HEADER_LEN + zlen (payload_of ops) + 8
  | Err e => (ops = [] \/ U32 <= zlen (payload_of ops)) /\ exists m, e = Invalid m
  end.
Proof.
  intros Hw. destruct (encode_frame seq ops) as [enc|e] eqn:E.
  - apply encode_frame_spec in E as (Hne & Hp & Hn & ->); [|done].
    rewrite zlen_app, zlen_checksum8, zlen_frame_body. split_and!; [done | apply Hp | lia].
  - split; [|by eapply encode_frame_error].
    destruct (decide (ops = [])) as [|Hne]; [by left|]. right. apply Z.nlt_ge. intros Hlt.
    assert (is_u32 (zlen (payload_of ops))) as Hp by (split; [apply zlen_nonneg | done]).
    assert (is_u32 (zlen ops)) as Hn.
    { split; [apply zlen_nonneg|]. eapply Z.le_lt_trans; [|exact Hlt]. unfold payload_of.
      rewrite zlen_app, zlen_le32.
      pose proof (zlen_concat_ge op_encode 1 ops ltac:(lia) zlen_op_pos). lia. }
    by rewrite (proj2 (encode_frame_spec seq ops _ Hw) (conj Hne (conj Hp (conj Hn eq_refl)))) in E.
Qed.

Lemma encode_frame_total_witness :
  exists e, @encode_frame toy_sha 3 [] = Err e /\ exists m, e = Invalid m.
Proof.
  eexists. split; [reflexivity|].
  pose proof (@encode_frame_total toy_sha 3 [] (List.Forall_nil _)) as H. apply H.
Defined.
