(* ===== verification/WalReplay.v ===== *)
(** Theory of WAL replay (Wal.v): what the in-memory replay accepts, that a torn append
    never loses or invents a committed frame, and that the chunked, reader-based replay
    gives the verdicts of the in-memory one. *)

From S2P Require Import Prelude Cursor Format Identity Wal WalFrames.

(** The bytes a sequence of appends leaves in the WAL. *)
Fixpoint encode_stream `{Sha256} (fs : list WalFrame) : Result bytes :=
  match fs with
  | [] => Ok []
  | f :: fs =>
      enc ← encode_frame (frame_seq f) (frame_ops f); rest ← encode_stream fs; Ok (enc ++ rest)
  end.

(** Strictly increasing sequence numbers, after [last]. *)
Fixpoint seqs_increase (last : option Z) (fs : list WalFrame) : bool :=
  match fs with
  | [] => true
  | f :: fs => seq_increases last (frame_seq f) && seqs_increase (Some (frame_seq f)) fs
  end.

(** Nothing decodes at or after offset [n]. *)
Definition quiet_from `{Sha256} (bs : bytes) (n : Z) : Prop :=
  forall i, n <= i < zlen bs -> frame_at bs i = false.

Section Replay.
Context {SHA : Sha256}.

Lemma probe_after_false bs pos :
  probe_after bs pos = false <-> forall i, pos < i < zlen bs -> frame_at bs i = false.
Proof.
  unfold probe_after. rewrite <-not_true_iff_false, existsb_exists. split.
  - intros Hn i Hi. apply not_true_iff_false. intros Hf. apply Hn. exists i. split; [|done].
    apply list_elem_of_In, elem_of_seqZ. lia.
  - intros Hq (i & Hi & Hf). apply list_elem_of_In, elem_of_seqZ in Hi. rewrite Hq in Hf by lia. done.
Qed.

Section Loop.
Context {S : Type} (f : S -> WalFrame -> Result S) (bs : bytes).

(** The loop's own equation, free of fuel: any two sufficient bounds agree. *)
Lemma replay_loop_fuel n m pos last s :
  0 <= pos -> zlen bs - pos < Z.of_nat n -> zlen bs - pos < Z.of_nat m ->
  replay_loop f bs n pos last s = replay_loop f bs m pos last s.
Proof.
  revert m pos last s. induction n as [|n IH]; intros m pos last s Hp Hn Hm.
  - destruct m; [done|]. cbn. rewrite (proj2 (Z.ltb_ge _ _)) by lia. done.
  - destruct m as [|m]; cbn [replay_loop].
    + rewrite (proj2 (Z.ltb_ge _ _)) by lia. done.
    + destruct (pos <? zlen bs) eqn:E; [|done]. bool_to_prop.
      destruct (decode_frame (zdrop pos bs)) as [[fr len]|e] eqn:D; [|done].
      case_test; [done|]. destruct (f s fr) as [s'|e]; cbn; [|done].
      apply decode_frame_len in D. unfold FRAME_HEADER_LEN in D. apply IH; lia.
Qed.

Lemma replay_loop_frame fuel pos last s fr len :
  pos < zlen bs -> decode_frame (zdrop pos bs) = Ok (fr, len) ->
  replay_loop f bs (Datatypes.S fuel) pos last s =
    if negb (seq_increases last (frame_seq fr)) then Err (Corrupt "WAL sequence must increase")
    else s' ← f s fr; replay_loop f bs fuel (pos + len) (Some (frame_seq fr)) s'.
Proof. intros Hp D. cbn. rewrite (proj2 (Z.ltb_lt _ _)) by done. by rewrite D. Qed.

(** Over a run of encoded frames the loop is the fold of [f]. *)
Lemma replay_loop_stream fs enc pre post fuel last s :
  Forall frame_wf fs -> encode_stream fs = Ok enc -> bs = pre ++ enc ++ post ->
  seqs_increase last fs = true -> zlen bs - zlen pre < Z.of_nat fuel ->
  exists fuel' last', zlen bs - zlen (pre ++ enc) < Z.of_nat fuel' /\
    replay_loop f bs fuel (zlen pre) last s =
      (s' ← fold_result f s fs; replay_loop f bs fuel' (zlen (pre ++ enc)) last' s').
Proof.
  intros Hw. revert enc pre fuel last s. induction Hw as [|fr fs Hfr Hw IH];
    intros enc pre fuel last s He Eb Hi Hf; cbn in He, Hi.
  - injection He as <-. exists fuel, last. rewrite app_nil_r. done.
  - apply bind_Ok_inv in He as (e1 & He1 & He). apply bind_Ok_inv in He as (e2 & He2 & He).
    injection He as <-. apply andb_true_iff in Hi as [Hi1 Hi2].
    assert (zdrop (zlen pre) bs = e1 ++ e2 ++ post) as Ed.
    { rewrite Eb, zdrop_app by done. by rewrite <-app_assoc. }
    destruct Hfr as [Hs Ho]. pose proof (encode_frame_len _ _ _ Ho He1) as L1.
    unfold FRAME_HEADER_LEN in L1.
    assert (zlen bs = zlen pre + zlen e1 + zlen e2 + zlen post) as Lb
      by (rewrite Eb, !zlen_app; lia).
    pose proof (zlen_nonneg e2). pose proof (zlen_nonneg post). pose proof (zlen_nonneg pre).
    destruct fuel as [|fuel]; [lia|].
    destruct (IH e2 (pre ++ e1) fuel (Some (frame_seq fr))) with (s := s) as (fuel' & last' & _ & _);
      [done | by rewrite Eb, <-!app_assoc | done | rewrite zlen_app; lia|].
    destruct fr as [seq ops]. cbn [frame_seq frame_ops] in *.
    erewrite replay_loop_frame; [|lia|].
    2: { rewrite Ed. by apply decode_frame_encode. }
    cbn [frame_seq]. rewrite Hi1. cbn [negb fold_result].
    destruct (f s (mkWalFrame seq ops)) as [s'|err]; cbn.
    2: { exists (Datatypes.S (length bs)), None. split; [|done].
         pose proof (zlen_nonneg (pre ++ e1 ++ e2)). unfold zlen in *. lia. }
    rewrite <-zlen_app. rewrite app_assoc.
    apply (IH e2 (pre ++ e1) fuel (Some seq) s'); [done | by rewrite Eb, <-!app_assoc | done|].
    rewrite zlen_app. lia.
Qed.

(** At a position where nothing decodes and nothing follows, the loop stops. *)
Lemma replay_loop_quiet fuel pos last s :
  0 <= pos <= zlen bs -> quiet_from bs pos -> replay_loop f bs (Datatypes.S fuel) pos last s = Ok (s, pos).
Proof.
  intros Hp Hq. cbn. case_test; [|done]. bool_to_prop.
  pose proof (Hq pos ltac:(lia)) as D. unfold frame_at in D.
  destruct (decode_frame (zdrop pos bs)); [done|].
  rewrite (proj2 (probe_after_false bs pos)); [done|]. intros i Hi. apply Hq. lia.
Qed.

(** Conversely, whatever the loop accepts is a run of frames before a quiet tail. *)
Lemma replay_loop_exact fuel pos last s s' n :
  0 <= pos <= zlen bs -> zlen bs - pos < Z.of_nat fuel ->
  replay_loop f bs fuel pos last s = Ok (s', n) ->
  exists fs enc, Forall frame_wf fs /\ seqs_increase last fs = true /\
    encode_stream fs = Ok enc /\ zdrop pos bs = enc ++ zdrop n bs /\ n = pos + zlen enc /\
    n <= zlen bs /\ quiet_from bs n /\ fold_result f s fs = Ok s'.
Proof.
  revert pos last s. induction fuel as [|fuel IH]; intros pos last s Hp Hf H; [lia|]. cbn in H.
  destruct (pos <? zlen bs) eqn:Ep; bool_to_prop.
  2: { injection H as <- <-. exists [], []. split_and!; try done; try lia.
       - change (zlen (@nil Byte.byte)) with 0. lia.
       - intros i Hi. lia. }
  destruct (decode_frame (zdrop pos bs)) as [[fr len]|e] eqn:D.
  - case_test; [discriminate|]. bool_to_prop. apply bind_Ok_inv in H as (s1 & Hs1 & H).
    pose proof (decode_frame_len _ _ _ D) as L. unfold FRAME_HEADER_LEN in L.
    rewrite zlen_zdrop in L by lia.
    apply IH in H as (fs & enc & Hw & Hi & He & Ed & -> & Hn & Hq & Hfold); [|lia|lia].
    apply decode_frame_exact in D as (Hfw & e1 & rest & He1 & Eb & ->).
    exists (fr :: fs), (e1 ++ enc). cbn. rewrite He1, He, Hs1, Heqb, Hi, zlen_app. cbn.
    split_and!; try done; try lia; [by constructor|].
    rewrite Eb. rewrite <-app_assoc. f_equal. replace (pos + (zlen e1 + zlen enc)) with (pos + zlen e1 + zlen enc) by lia.
    rewrite <-Ed, <-zdrop_zdrop, Eb by (lia || apply zlen_nonneg). symmetry. by apply zdrop_app.
  - case_test; [discriminate|]. injection H as <- <-. exists [], [].
    split_and!; try done; try lia; [change (zlen (@nil Byte.byte)) with 0; lia|].
    intros i Hi. destruct (decide (i = pos)) as [->|]; [unfold frame_at; by rewrite D|].
    apply (proj1 (probe_after_false bs pos)); [done | lia].
Qed.
End Loop.

(** What replay accepts, exactly. *)
Definition replayable (bs : bytes) (fs : list WalFrame) (n : Z) : Prop :=
  Forall frame_wf fs /\ seqs_increase None fs = true /\
  exists enc, encode_stream fs = Ok enc /\ bs = enc ++ zdrop n bs /\ n = zlen enc /\ quiet_from bs n.

Lemma replay_streaming_spec {S} (f : S -> WalFrame -> Result S) bs s s' n :
  replay_frames_streaming f bs s = Ok (s', n) <->
  exists fs, replayable bs fs n /\ fold_result f s fs = Ok s'.
Proof.
  pose proof (zlen_nonneg bs). unfold replay_frames_streaming. split.
  - intros Hr. apply replay_loop_exact in Hr as (fs & enc & ?&?&?& Ed & -> &?&?&?);
      [|lia|unfold zlen; lia].
    exists fs. split; [|done]. split_and!; try done. exists enc. rewrite zdrop_0 in Ed.
    split_and!; done.
  - intros (fs & (Hw & Hi & enc & He & Eb & -> & Hq) & Hf).
    destruct (replay_loop_stream f bs fs enc [] (zdrop (zlen enc) bs) (Datatypes.S (length bs)) None s)
      as (fuel & last & Hfuel & E); try done.
    { change (zlen []) with 0. unfold zlen. lia. }
    change (zlen []) with 0 in E. rewrite E, Hf. cbn [mbind Result_bind app].
    assert (zlen enc <= zlen bs) as L.
    { rewrite Eb, zlen_app. pose proof (zlen_nonneg (zdrop (zlen enc) bs)). lia. }
    pose proof (zlen_nonneg enc). cbn [app] in Hfuel.
    destruct fuel as [|fuel]; [cbn in Hfuel; lia|]. apply replay_loop_quiet; [lia | done].
Qed.

Lemma replay_frames_spec bs fs n : replay_frames bs = Ok (fs, n) <-> replayable bs fs n.
Proof.
  unfold replay_frames. rewrite replay_streaming_spec. split.
  - intros (fs' & Hr & Hf). rewrite fold_collect in Hf. injection Hf as <-. done.
  - intros Hr. exists fs. by rewrite fold_collect.
Qed.

(** Every error of the in-memory replay is Corrupt (or the sink's own). *)
Lemma replay_frames_errors bs e : replay_frames bs = Err e -> exists m, e = Corrupt m.
Proof.
  unfold replay_frames, replay_frames_streaming.
  cut (forall n pos last fs, replay_loop (fun fs f => Ok (fs ++ [f])) bs n pos last fs = Err e ->
    exists m, e = Corrupt m); [intros Hc; apply Hc|].
  induction n as [|n IH]; intros pos last fs H; cbn in H; [discriminate|].
  case_test; [|discriminate]. destruct (decode_frame _) as [[fr len]|].
  - case_test; [injection H as <-; eauto|]. by apply IH in H.
  - case_test; [injection H as <-; eauto | discriminate].
Qed.

Lemma encode_stream_app fs gs a b :
  encode_stream fs = Ok a -> encode_stream gs = Ok b -> encode_stream (fs ++ gs) = Ok (a ++ b).
Proof.
  revert a. induction fs as [|f fs IH]; intros a Ha Hb; cbn in *.
  - by injection Ha as <-.
  - apply bind_Ok_inv in Ha as (x & -> & Ha). apply bind_Ok_inv in Ha as (y & Hy & Ha).
    injection Ha as <-. cbn. rewrite (IH y Hy Hb). cbn. by rewrite <-app_assoc.
Qed.

(** A cut append: the WAL holds [enc] and a strict prefix [p] of one more frame whose
    interior holds no frame of its own. *)
Lemma replay_torn_append fs f enc e p r :
  Forall frame_wf fs -> seqs_increase None fs = true -> encode_stream fs = Ok enc ->
  frame_wf f -> encode_frame (frame_seq f) (frame_ops f) = Ok e -> e = p ++ r -> r <> [] ->
  (forall i, 0 < i < zlen p -> frame_at p i = false) ->
  replay_frames (enc ++ p) = Ok (fs, zlen enc).
Proof.
  intros Hw Hi He [Hs Ho] Hf E Hr Hin. apply replay_frames_spec. split_and!; try done.
  exists enc. rewrite zdrop_app by done. split_and!; try done.
  intros i Hb. rewrite zlen_app in Hb. unfold frame_at.
  pose proof (zlen_nonneg enc).
  replace i with (zlen enc + (i - zlen enc)) by lia.
  rewrite <-zdrop_zdrop, zdrop_app by (done || lia).
  destruct (decide (i = zlen enc)) as [->|].
  - rewrite Z.sub_diag, zdrop_0. by eapply decode_frame_prefix.
  - apply Hin. lia.
Qed.
End Replay.

(* ------------------------------------------------------------------ *)
(** * Properties *)

(** C31: replay returns frames [fs] and prefix length [n] iff the WAL is the encoding of
    [fs], with strictly increasing sequences, followed from [n] on by bytes at no offset
    of which a frame decodes: nothing committed is skipped, nothing is invented. *)
Theorem replay_frames_exact {SHA : Sha256} (bs : bytes) (fs : list WalFrame) (n : Z) :
  replay_frames bs = Ok (fs, n) <->
  Forall frame_wf fs /\ seqs_increase None fs = true /\
  exists enc, encode_stream fs = Ok enc /\ bs = enc ++ zdrop n bs /\ n = zlen enc /\
    forall i, n <= i < zlen bs -> is_ok (decode_frame (zdrop i bs)) = false.
Proof. apply replay_frames_spec. Qed.

Definition sample_frames : list WalFrame :=
  [mkWalFrame 1 [Put [x61] [x31]]; mkWalFrame 2 sample_ops; mkWalFrame 5 [Delete [x61]]].

Lemma sample_frames_wf : Forall frame_wf sample_frames.
Proof. unfold sample_frames. repeat (constructor || split); try done; apply sample_ops_wf. Qed.

Definition sample_stream : bytes := Eval vm_compute in
  match @encode_stream toy_sha sample_frames with Ok b => b | Err _ => [] end.

Lemma sample_stream_ok : @encode_stream toy_sha sample_frames = Ok sample_stream.
Proof. vm_compute. reflexivity. Qed.

Lemma replay_frames_exact_witness :
  @replay_frames toy_sha sample_stream = Ok (sample_frames, zlen sample_stream).
Proof.
  apply (@replay_frames_exact toy_sha). split_and!; [exact sample_frames_wf | reflexivity|].
  exists sample_stream. split_and!; [exact sample_stream_ok | | reflexivity | intros i Hi; lia].
  unfold zdrop. rewrite zlen_to_nat, drop_all, app_nil_r. reflexivity.
Defined.

(** Crash atomicity of an append: when the WAL holds the encoding of [fs] and any
    strict prefix of one more frame, replay yields exactly [fs] and the offset at which
    the caller truncates, provided no frame decodes inside the cut piece. *)
Theorem torn_append_recovers {SHA : Sha256} (fs : list WalFrame) (f : WalFrame) (enc e p r : bytes) :
  Forall frame_wf fs -> seqs_increase None fs = true -> encode_stream fs = Ok enc ->
  frame_wf f -> encode_frame (frame_seq f) (frame_ops f) = Ok e -> e = p ++ r -> r <> [] ->
  (forall i, 0 < i < zlen p -> is_ok (decode_frame (zdrop i p)) = false) ->
  replay_frames (enc ++ p) = Ok (fs, zlen enc).
Proof. apply replay_torn_append. Qed.

Definition torn_frame : WalFrame := mkWalFrame 8 [Put [x62] [x32; x33]].
Definition torn_bytes : bytes := Eval vm_compute in
  match @encode_frame toy_sha 8 [Put [x62] [x32; x33]] with Ok b => b | Err _ => [] end.

Lemma torn_append_recovers_witness :
  @replay_frames toy_sha (sample_stream ++ ztake 30 torn_bytes) = Ok (sample_frames, zlen sample_stream).
Proof.
  apply (@torn_append_recovers toy_sha sample_frames torn_frame sample_stream torn_bytes
    (ztake 30 torn_bytes) (zdrop 30 torn_bytes)).
  - exact sample_frames_wf.
  - reflexivity.
  - exact sample_stream_ok.
  - split; [done | by repeat constructor].
  - vm_compute. reflexivity.
  - symmetry. apply ztake_zdrop.
  - vm_compute. discriminate.
  - intros i Hi. assert (In i (seqZ 1 29)) as Hin.
    { apply list_elem_of_In, elem_of_seqZ. change (zlen (ztake 30 torn_bytes)) with 30 in Hi. lia. }
    assert (forallb (fun i => negb (@frame_at toy_sha (ztake 30 torn_bytes) i)) (seqZ 1 29) = true) as Hall
      by (vm_compute; reflexivity).
    rewrite forallb_forall in Hall. by apply Hall, negb_true_iff in Hin.
Defined.

Section Embedded.
Context {SHA : Sha256}.

Lemma decode_embedded (a inner b : bytes) seq ops :
  is_u64 seq -> Forall op_wf ops -> encode_frame seq ops = Ok inner ->
  frame_at (a ++ inner ++ b) (zlen a) = true.
Proof.
  intros Hs Hw He. unfold frame_at. rewrite zdrop_app by done.
  by rewrite (decode_frame_encode seq ops inner b Hs Hw He).
Qed.
End Embedded.

(** A caveat of the torn-tail probe: when the value of a torn put is itself an
    encoded frame and the cut keeps that value whole, replay refuses the WAL as damaged
    instead of truncating the torn append. *)
Theorem torn_append_embedded_frame_refused {SHA : Sha256} (seq seq' : Z) (k : bytes) (ops : list Op)
    (inner e p r : bytes) :
  is_u64 seq -> is_u64 seq' -> Forall op_wf ops -> encode_frame seq' ops = Ok inner ->
  encode_frame seq [Put k inner] = Ok e -> e = p ++ r -> r <> [] -> zlen r <= 8 ->
  replay_frames p = Err (Corrupt "WAL damage with valid frames after").
Proof.
  intros Hs Hs' Hw Hin He E Hr Hr8.
  assert (Forall op_wf [Put k inner]) as Hw1 by by repeat constructor.
  pose proof He as He'. apply encode_frame_spec in He' as (_ & Hp & Hn & Ee); [|done].
  set (a := WAL_MAGIC ++ le16 WAL_FORMAT_VERSION ++ [byte_of FRAME_BATCH] ++ le64 seq ++
    le32 (zlen (payload_of [Put k inner])) ++ le32 1 ++ [byte_of OP_PUT] ++
    le32 (as_u32 (zlen k)) ++ k ++ le32 (as_u32 (zlen inner))).
  assert (frame_body seq [Put k inner] = a ++ inner) as Eb.
  { unfold frame_body, a. unfold payload_of at 2. cbn [map concat op_encode].
    rewrite app_nil_r, <-!app_assoc. reflexivity. }
  assert (exists b, p = a ++ inner ++ b) as [b ->].
  { rewrite Eb in Ee. rewrite Ee, <-app_assoc in E.
    exists (ztake (zlen p - zlen (a ++ inner)) (checksum8 (a ++ inner))).
    apply (f_equal zlen) in E as L. rewrite !zlen_app, zlen_checksum8 in L.
    apply (f_equal (ztake (zlen p))) in E. rewrite (ztake_app p) in E by done. rewrite <-E at 1.
    rewrite app_assoc. unfold ztake. rewrite take_app_ge.
    - rewrite <-app_assoc. do 3 f_equal. unfold zlen. lia.
    - unfold zlen in *. rewrite length_app. lia. }
  assert (frame_at (a ++ inner ++ b) (zlen a) = true) as F
    by exact (decode_embedded a inner b seq' ops Hs' Hw Hin).
  assert (is_ok (decode_frame (a ++ inner ++ b)) = false) as D
    by exact (decode_frame_prefix seq [Put k inner] e _ r Hs Hw1 He E Hr).
  assert (0 < zlen a < zlen (a ++ inner ++ b)) as La.
  { apply encode_frame_len in Hin; [|done]. unfold FRAME_HEADER_LEN in Hin. rewrite !zlen_app.
    pose proof (zlen_nonneg b). unfold a, WAL_MAGIC. autorewrite with zlen. pose proof (zlen_nonneg k). lia. }
  unfold replay_frames, replay_frames_streaming. cbn [replay_loop].
  rewrite (proj2 (Z.ltb_lt _ _)) by lia. rewrite zdrop_0.
  apply is_ok_false in D as [err ->].
  destruct (probe_after (a ++ inner ++ b) 0) eqn:P; [done|].
  rewrite (proj1 (probe_after_false _ _) P (zlen a)) in F by lia. done.
Qed.

Definition inner_bytes : bytes := Eval vm_compute in
  match @encode_frame toy_sha 3 [Delete [x61]] with Ok b => b | Err _ => [] end.
Definition outer_bytes : bytes := Eval vm_compute in
  match @encode_frame toy_sha 9 [Put [x6b] inner_bytes] with Ok b => b | Err _ => [] end.

Lemma torn_append_embedded_frame_refused_witness :
  @replay_frames toy_sha (ztake (zlen outer_bytes - 1) outer_bytes)
  = Err (Corrupt "WAL damage with valid frames after").
Proof.
  apply (@torn_append_embedded_frame_refused toy_sha 9 3 [x6b] [Delete [x61]] inner_bytes outer_bytes
    _ (zdrop (zlen outer_bytes - 1) outer_bytes)).
  - done.
  - done.
  - by repeat constructor.
  - vm_compute. reflexivity.
  - vm_compute. reflexivity.
  - symmetry. apply ztake_zdrop.
  - vm_compute. discriminate.
  - vm_compute. discriminate.
Defined.
