(* ===== verification/WalReader.v ===== *)
(** The reader-based WAL paths of Wal.v against the in-memory replay: reading one frame
    from the file, the chunked magic scan, [valid_prefix_len] and [replay_reader]. *)

From S2P Require Import Prelude Cursor Format Identity Wal WalFrames WalReplay.

Lemma ctake_at d k n :
  k + n <= zlen d -> ctake n (mkCursor d k) = Ok (zslice k (k + n) d, mkCursor d (k + n)).
Proof. intros H. unfold ctake, remaining. cbn. rewrite (proj2 (Z.ltb_ge _ _)) by lia. done. Qed.
Lemma ctake_short d k n : zlen d < k + n -> ctake n (mkCursor d k) = Err (Corrupt "truncated").
Proof. intros H. unfold ctake, remaining. cbn. rewrite (proj2 (Z.ltb_lt _ _)) by lia. done. Qed.

Lemma zslice_zslice {A} a n i j (l : list A) :
  0 <= a -> 0 <= i -> j <= n -> zslice i j (zslice a (a + n) l) = zslice i j (zdrop a l).
Proof.
  intros. unfold zslice, ztake, zdrop. rewrite skipn_firstn_comm, take_take. f_equal. lia.
Qed.
Lemma zslice_ztake {A} n i j (l : list A) :
  0 <= i -> j <= n -> zslice i j (ztake n l) = zslice i j l.
Proof.
  intros. unfold zslice, ztake, zdrop. rewrite skipn_firstn_comm, take_take. f_equal. lia.
Qed.

Section Reader.
Context {SHA : Sha256}.

(** [decode_frame] at [pos], in terms of what [read_frame_bytes] returns there. *)
Definition decode_of_read (r : option (Z * bytes)) (d : Result (WalFrame * Z)) : Prop :=
  match r with
  | None => is_ok d = false
  | Some (seq, body) =>
      if frame_checksum_ok body
      then d = (ops ← decode_payload (frame_payload body); Ok (mkWalFrame seq ops, zlen body))
      else is_ok d = false
  end.

Lemma read_frame_decode file pos :
  0 <= pos <= zlen file ->
  decode_of_read (read_frame_bytes file pos (zlen file)) (decode_frame (zdrop pos file)).
Proof.
  intros Hpos. set (d := zdrop pos file).
  assert (zlen d = zlen file - pos) as Ld by (unfold d; by rewrite zlen_zdrop).
  unfold read_frame_bytes, FRAME_HEADER_LEN.
  destruct (zlen file <? pos + 19) eqn:E1; bool_to_prop.
  { cbn. apply not_true_iff_false. intros (x & Hx)%is_ok_true. destruct x.
    apply decode_frame_len in Hx. unfold FRAME_HEADER_LEN in Hx. lia. }
  assert (zslice pos (pos + 19) file = ztake 19 d) as Eh.
  { unfold zslice, d. f_equal. lia. }
  cbv zeta. rewrite Eh. rewrite <-(zslice_0 4), !zslice_ztake by lia.
  unfold decode_frame, run_dec, cursor_new, cu8, cu16, cu32, cu64. cbv zeta.
  unfold mbind, Dec_bind, mret, Dec_ret.
  rewrite (ctake_at d 0 4) by lia. change (0 + 4) with 4. unfold dguard at 1.
  destruct (slice_eqb (zslice 0 4 d) WAL_MAGIC) eqn:Em; cbn [negb]; [|done].
  rewrite (ctake_at d 4 2) by lia. change (4 + 2) with 6. unfold dguard at 1.
  destruct (le_val (zslice 4 6 d) =? WAL_FORMAT_VERSION) eqn:Ev; cbn [negb orb]; [|done].
  rewrite (ctake_at d 6 1) by lia. change (6 + 1) with 7. unfold dguard at 1.
  destruct (le_val (zslice 6 7 d) =? FRAME_BATCH) eqn:Et; cbn [negb]; [|done].
  rewrite (ctake_at d 7 8) by lia. change (7 + 8) with 15.
  rewrite (ctake_at d 15 4) by lia. change (15 + 4) with 19.
  set (plen := le_val (zslice 15 19 d)).
  assert (is_u32 plen) as Hpl by (apply le_val_u32; rewrite zlen_zslice; lia). destruct Hpl as [Hpl _].
  destruct (zlen file <? pos + (19 + plen + 8)) eqn:E2; bool_to_prop.
  { cbn. destruct (Z.lt_decidable (zlen d) (19 + plen)) as [Hs|Hs].
    - by rewrite (ctake_short d 19 plen) by lia.
    - rewrite (ctake_at d 19 plen) by lia. by rewrite (ctake_short d (19 + plen) 8) by lia. }
  rewrite (ctake_at d 19 plen) by lia. rewrite (ctake_at d (19 + plen) 8) by lia.
  replace (zslice pos (pos + (19 + plen + 8)) file) with (ztake (19 + plen + 8) d)
    by (unfold zslice, d; f_equal; lia).
  set (body := ztake (19 + plen + 8) d).
  assert (zlen body = 19 + plen + 8) as Lb by (apply zlen_ztake; lia).
  unfold decode_of_read, frame_checksum_ok, frame_payload, FRAME_HEADER_LEN. rewrite Lb.
  replace (19 + plen + 8 - 8) with (19 + plen) by lia.
  replace (ztake (19 + plen) body) with (ztake (19 + plen) d).
  2: { unfold body, ztake. rewrite take_take. f_equal. lia. }
  replace (zdrop (19 + plen) body) with (zslice (19 + plen) (19 + plen + 8) d).
  2: { unfold body, zslice, zdrop, ztake. rewrite skipn_firstn_comm. f_equal. lia. }
  unfold dguard. destruct (slice_eqb (checksum8 _) _); cbn [negb]; [|done].
  unfold body. rewrite zslice_ztake by lia. unfold dlift.
  by destruct (decode_payload (zslice 19 (19 + plen) d)).
Qed.

Lemma candidate_ok_frame_at file i :
  0 <= i <= zlen file -> candidate_ok file (zlen file) i = frame_at file i.
Proof.
  intros Hi. unfold candidate_ok, frame_at. pose proof (read_frame_decode file i Hi) as D.
  destruct (read_frame_bytes file i (zlen file)) as [[seq body]|]; cbn in D.
  - destruct (frame_checksum_ok body); [|by rewrite D].
    rewrite D. by destruct (decode_payload (frame_payload body)).
  - by rewrite D.
Qed.

(** A valid frame starts with the magic and is more than three bytes long. *)
Lemma frame_at_magic bs i :
  0 <= i <= zlen bs -> frame_at bs i = true -> zslice i (i + 4) bs = WAL_MAGIC /\ i + 31 <= zlen bs.
Proof.
  intros Hi H. unfold frame_at in H. apply is_ok_true in H as [[f n] H].
  pose proof (decode_frame_len _ _ _ H) as L. unfold FRAME_HEADER_LEN in L.
  rewrite zlen_zdrop in L by done. split; [|lia].
  apply decode_frame_exact in H as ((_ & Hw) & enc & rest & He & E & _).
  apply encode_frame_spec in He as (_ & _ & _ & ->); [|done].
  unfold zslice. rewrite E. unfold frame_body. rewrite <-!app_assoc.
  apply ztake_app. change (zlen WAL_MAGIC) with 4. lia.
Qed.

(** The reference the chunked scan is measured against: the first offset at or after
    [pos] at which a frame decodes. *)
Definition first_frame_from (bs : bytes) (pos : Z) : option Z :=
  List.find (frame_at bs) (seqZ pos (zlen bs - pos)).

Lemma find_app {A} (f : A -> bool) l k :
  List.find f (l ++ k) = match List.find f l with Some x => Some x | None => List.find f k end.
Proof. induction l as [|x l IH]; cbn; [done|]. by destruct (f x). Qed.

Lemma scan_chunk_spec file at_ want offs :
  0 <= at_ -> at_ + want <= zlen file -> (forall i, In i offs -> 0 <= i /\ i + 4 <= want) ->
  scan_chunk file (zslice at_ (at_ + want) file) at_ (zlen file) offs =
  List.find (frame_at file) (map (Z.add at_) offs).
Proof.
  intros Ha Hw. induction offs as [|i offs IH]; intros Hin; cbn; [done|].
  destruct (Hin i) as [Hi0 Hi1]; [by left|].
  rewrite candidate_ok_frame_at by lia. rewrite IH by (intros; apply Hin; by right).
  rewrite zslice_zslice by lia.
  destruct (frame_at file (at_ + i)) eqn:F; [|by rewrite andb_false_r].
  apply frame_at_magic in F as [M _]; [|lia].
  replace (zslice i (i + 4) (zdrop at_ file)) with (zslice (at_ + i) (at_ + i + 4) file).
  - by rewrite M.
  - unfold zslice. rewrite zdrop_zdrop by lia. f_equal. lia.
Qed.

Lemma seqZ_shift a n : map (Z.add a) (seqZ 0 n) = seqZ a n.
Proof. change (map (Z.add a)) with (fmap (M:=list) (Z.add a)). by rewrite fmap_add_seqZ, Z.add_0_r. Qed.

Lemma first_frame_split bs a n :
  0 <= n <= zlen bs - a ->
  first_frame_from bs a =
    match List.find (frame_at bs) (seqZ a n) with
    | Some c => Some c | None => first_frame_from bs (a + n) end.
Proof.
  intros Hn. unfold first_frame_from.
  replace (zlen bs - a) with (n + (zlen bs - (a + n))) by lia.
  rewrite seqZ_app, find_app by lia. by destruct (List.find _ (seqZ a n)).
Qed.

Lemma first_frame_short bs a : 0 <= a -> zlen bs - a < 4 -> first_frame_from bs a = None.
Proof.
  intros Ha Hs. apply find_none_iff. intros i Hi. apply list_elem_of_In, elem_of_seqZ in Hi.
  apply not_true_iff_false. intros F. apply frame_at_magic in F as [_ L]; lia.
Qed.

Lemma find_loop_spec chunk file fuel at_ :
  4 <= chunk -> 0 <= at_ -> zlen file - at_ < Z.of_nat fuel ->
  find_loop chunk file (zlen file) fuel at_ = first_frame_from file at_.
Proof.
  intros Hc. revert at_. induction fuel as [|fuel IH]; intros at_ Ha Hf; cbn [find_loop].
  - symmetry. apply first_frame_short; lia.
  - destruct (at_ <? zlen file) eqn:E; bool_to_prop; [|symmetry; apply first_frame_short; lia].
    cbv zeta. set (want := Z.min (zlen file - at_) chunk).
    destruct (want <? 4) eqn:Ew; bool_to_prop; [symmetry; apply first_frame_short; lia|].
    rewrite scan_chunk_spec; [|lia|lia|].
    2: { intros i Hi. apply list_elem_of_In, elem_of_seqZ in Hi. lia. }
    rewrite seqZ_shift. replace (want - 4 + 1) with (want - 3) by lia.
    rewrite (first_frame_split file at_ (want - 3)) by lia.
    destruct (List.find _ _); [done|]. apply IH; lia.
Qed.

Lemma find_valid_frame_after_spec file pos :
  0 <= pos -> find_valid_frame_after file pos (zlen file) = first_frame_from file pos.
Proof. intros H. apply find_loop_spec; unfold CHUNK, zlen in *; lia. Qed.

Lemma first_frame_probe bs pos :
  0 <= pos < zlen bs -> frame_at bs pos = false ->
  probe_after bs pos = match first_frame_from bs pos with Some _ => true | None => false end.
Proof.
  intros Hp Hn. destruct (first_frame_from bs pos) as [c|] eqn:E.
  - apply find_some in E as [Hin Hf]. apply list_elem_of_In, elem_of_seqZ in Hin.
    apply not_false_iff_true. rewrite probe_after_false. intros Hq.
    destruct (decide (c = pos)) as [->|]; [congruence|]. rewrite Hq in Hf by lia. done.
  - apply probe_after_false. intros i Hi. apply (proj1 (find_none_iff _ _) E).
    apply list_elem_of_In, elem_of_seqZ. lia.
Qed.

(** Every intact frame of the file is one this build understands. *)
Definition all_decodable (file : bytes) : Prop :=
  forall i seq body, 0 <= i <= zlen file -> read_frame_bytes file i (zlen file) = Some (seq, body) ->
    frame_checksum_ok body = true -> exists ops, decode_payload (frame_payload body) = Ok ops.

(** The frame-level sink that [replay_reader]'s op-level callback amounts to. *)
Definition frame_sink {S} (f : S -> Z -> Op -> Result S) (s : S) (fr : WalFrame) : Result S :=
  fold_result (fun s o => f s (frame_seq fr) o) s (frame_ops fr).

Section ReaderLoop.
Context {S : Type} (f : S -> Z -> Op -> Result S) (file : bytes).

(** The verdict at a position where no intact frame starts. *)
Lemma torn_or_damage_agree pos (s : S) :
  0 <= pos < zlen file -> frame_at file pos = false ->
  match find_valid_frame_after file pos (zlen file) with
  | Some _ => Err (Corrupt "WAL damage with valid frames after")
  | None => Ok (s, (pos, zlen file))
  end = (x ← (if probe_after file pos then Err (Corrupt "WAL damage with valid frames after")
              else Ok (s, pos)); Ok (x.1, (x.2, zlen file))).
Proof.
  intros Hp Hn. rewrite find_valid_frame_after_spec, (first_frame_probe file pos) by (done || lia).
  by destruct (first_frame_from file pos).
Qed.

Lemma reader_loop_agree fuel pos last s :
  0 <= pos <= zlen file -> all_decodable file ->
  reader_loop f file (zlen file) fuel pos last s =
  (x ← replay_loop (frame_sink f) file fuel pos last s; Ok (x.1, (x.2, zlen file))).
Proof.
  intros Hp Hall. revert pos last s Hp. induction fuel as [|fuel IH]; intros pos last s Hp;
    cbn [reader_loop replay_loop]; [done|].
  destruct (pos <? zlen file) eqn:E; bool_to_prop; [|done].
  pose proof (read_frame_decode file pos Hp) as D.
  destruct (read_frame_bytes file pos (zlen file)) as [[seq body]|] eqn:R; cbn in D.
  2: { rewrite torn_or_damage_agree by (done || lia). apply is_ok_false in D as [e ->]. done. }
  destruct (frame_checksum_ok body) eqn:C; cbn [negb].
  2: { rewrite torn_or_damage_agree by (done || lia). apply is_ok_false in D as [e ->]. done. }
  destruct (Hall pos seq body) as [ops Ho]; try done. rewrite Ho in D. cbn in D. rewrite D.
  cbn [frame_seq]. case_test; [done|]. rewrite (walk_payload_decoded _ _ _ _ Ho).
  change (fold_result (fun s o => f s seq o) s ops) with (frame_sink f s (mkWalFrame seq ops)).
  destruct (frame_sink f s (mkWalFrame seq ops)) as [s'|e]; cbn; [|done].
  apply decode_frame_len in D. rewrite zlen_zdrop in D by lia. unfold FRAME_HEADER_LEN in D.
  apply IH. lia.
Qed.

(** Whatever the reader accepts, the in-memory replay accepts with the same result,
    with no assumption on the file. *)
Lemma reader_loop_sound fuel pos last s s' n e :
  0 <= pos <= zlen file -> reader_loop f file (zlen file) fuel pos last s = Ok (s', (n, e)) ->
  e = zlen file /\ replay_loop (frame_sink f) file fuel pos last s = Ok (s', n).
Proof.
  revert pos last s. induction fuel as [|fuel IH]; intros pos last s Hp H;
    cbn [reader_loop replay_loop] in *; [by injection H as <- <- <-|].
  destruct (pos <? zlen file) eqn:E; bool_to_prop; [|by injection H as <- <- <-].
  pose proof (read_frame_decode file pos Hp) as D.
  assert (frame_at file pos = false -> match find_valid_frame_after file pos (zlen file) with
    | Some _ => Err (Corrupt "WAL damage with valid frames after")
    | None => Ok (s, (pos, zlen file)) end = Ok (s', (n, e)) ->
    e = zlen file /\ (if probe_after file pos then Err (Corrupt "WAL damage with valid frames after")
      else Ok (s, pos)) = Ok (s', n)) as Q.
  { intros Hq Hr. rewrite torn_or_damage_agree in Hr by (done || lia).
    destruct (probe_after file pos); [discriminate|]. by injection Hr as <- <- <-. }
  destruct (read_frame_bytes file pos (zlen file)) as [[seq body]|] eqn:R; cbn in D.
  2: { apply Q in H; [|done]. apply is_ok_false in D as [? ->]. done. }
  destruct (frame_checksum_ok body) eqn:C; cbn [negb] in H.
  2: { apply Q in H; [|done]. apply is_ok_false in D as [? ->]. done. }
  destruct (seq_increases last seq) eqn:Hs; cbn [negb] in H; [|discriminate].
  apply bind_Ok_inv in H as (s1 & Hw & H).
  apply walk_payload_decode in Hw as (ops & Ho & Hf). rewrite Ho in D. cbn in D. rewrite D.
  cbn [frame_seq]. rewrite Hs. cbn [negb].
  assert (frame_sink f s (mkWalFrame seq ops) = Ok s1) as -> by exact Hf. cbn.
  apply decode_frame_len in D. rewrite zlen_zdrop in D by lia. unfold FRAME_HEADER_LEN in D.
  apply IH; [lia | done].
Qed.
(** Conversely, what the in-memory replay accepts the reader accepts, when no whole frame
    with a payload it cannot read stands at the end of the accepted prefix. *)
Lemma reader_loop_complete fuel pos last s s' n :
  0 <= pos <= zlen file -> replay_loop (frame_sink f) file fuel pos last s = Ok (s', n) ->
  read_frame_bytes file n (zlen file) = None ->
  reader_loop f file (zlen file) fuel pos last s = Ok (s', (n, zlen file)).
Proof.
  intros Hp H Hn. revert pos last s Hp H. induction fuel as [|fuel IH]; intros pos last s Hp H;
    cbn [reader_loop replay_loop] in *; [by injection H as <- <-|].
  destruct (pos <? zlen file) eqn:E; bool_to_prop; [|by injection H as <- <-].
  pose proof (read_frame_decode file pos Hp) as D. destruct (decode_frame (zdrop pos file)) as [[fr len]|e] eqn:Ed.
  - pose proof (decode_frame_len _ _ _ Ed) as L. rewrite zlen_zdrop in L by lia. unfold FRAME_HEADER_LEN in L.
    destruct (read_frame_bytes file pos (zlen file)) as [[seq body]|] eqn:R; cbn in D; [|done].
    destruct (frame_checksum_ok body) eqn:C; [|done]. cbn [negb].
    destruct (decode_payload (frame_payload body)) as [ops|] eqn:Ep; [|done]. cbn in D. injection D as -> ->. cbn [frame_seq] in H.
    destruct (seq_increases last seq); cbn [negb] in *; [|done]. apply bind_Ok_inv in H as (s1 & H1 & H).
    rewrite (walk_payload_decoded _ _ _ _ Ep).
    assert (fold_result (fun s o => f s seq o) s ops = Ok s1) as -> by exact H1. cbn [mbind Result_bind]. apply IH; [lia | done].
  - destruct (probe_after file pos) eqn:Pr; [done|]. injection H as <- <-. rewrite Hn.
    rewrite torn_or_damage_agree by (unfold frame_at; rewrite ?Ed; (done || lia)). by rewrite Pr.
Qed.
End ReaderLoop.

(** Recovery of an accepted WAL folds its frames. *)
Lemma replay_reader_ok {S} (f : S -> Z -> Op -> Result S) bs fs n s s' :
  replayable bs fs n -> read_frame_bytes bs n (zlen bs) = None -> fold_result (frame_sink f) s fs = Ok s' ->
  replay_reader f bs s = Ok (s', (n, zlen bs)).
Proof.
  intros Hr Hn Hf. apply reader_loop_complete; [pose proof (zlen_nonneg bs); lia | | done].
  apply (replay_streaming_spec (frame_sink f)). eauto.
Qed.

(** A whole frame read from a file is read from every longer file, so a cut frame is not
    read at all. *)
Lemma zslice_app_l {A} (a r : list A) i j : 0 <= i -> j <= zlen a -> zslice i j (a ++ r) = zslice i j a.
Proof.
  intros Hi Hj. unfold zslice, ztake, zdrop. rewrite skipn_app, take_app_le; [done|]. rewrite length_drop. unfold zlen in Hj. lia.
Qed.
Lemma read_frame_app a r pos x :
  0 <= pos -> read_frame_bytes a pos (zlen a) = Some x -> read_frame_bytes (a ++ r) pos (zlen (a ++ r)) = Some x.
Proof.
  intros Hp. unfold read_frame_bytes. cbv zeta. pose proof (zlen_nonneg r). rewrite zlen_app.
  destruct (zlen a <? pos + FRAME_HEADER_LEN) eqn:E1; [done|]. bool_to_prop.
  rewrite (proj2 (Z.ltb_ge (zlen a + zlen r) (pos + FRAME_HEADER_LEN))) by lia.
  rewrite (zslice_app_l a r pos (pos + FRAME_HEADER_LEN)) by lia. destruct (negb _); [done|]. destruct (_ || _); [done|].
  set (t := FRAME_HEADER_LEN + le_val _ + 8). destruct (zlen a <? pos + t) eqn:E2; [done|]. bool_to_prop.
  rewrite (proj2 (Z.ltb_ge (zlen a + zlen r) (pos + t))) by lia. by rewrite zslice_app_l.
Qed.
Lemma read_frame_len file pos seq body :
  0 <= pos -> read_frame_bytes file pos (zlen file) = Some (seq, body) -> zlen body <= zlen file - pos.
Proof.
  intros Hp. unfold read_frame_bytes. cbv zeta. repeat case_test; try done. intros [= _ <-]. bool_to_prop.
  unfold zslice, ztake, zdrop, zlen, FRAME_HEADER_LEN in *. rewrite length_take, length_drop. lia.
Qed.
Lemma read_frame_torn enc seq ops e p r :
  is_u64 seq -> Forall op_wf ops -> encode_frame seq ops = Ok e -> e = p ++ r -> r <> [] ->
  read_frame_bytes (enc ++ p) (zlen enc) (zlen (enc ++ p)) = None.
Proof.
  intros Hs Hw He E Hr. pose proof (zlen_nonneg enc). destruct (read_frame_bytes (enc ++ p) (zlen enc) (zlen (enc ++ p))) as [[q b]|] eqn:R; [|done].
  pose proof (read_frame_len _ _ _ _ ltac:(done) R) as L. apply (read_frame_app _ r) in R; [|done]. rewrite <-app_assoc, <-E in R.
  pose proof (read_frame_decode (enc ++ e) (zlen enc)) as D. rewrite R, zdrop_app in D by done.
  pose proof (decode_frame_encode seq ops e [] Hs Hw He) as De. rewrite app_nil_r in De. rewrite De in D. cbn in D.
  rewrite zlen_app in L, D. pose proof (zlen_nonneg e). specialize (D ltac:(lia)). destruct (frame_checksum_ok b); [|done].
  destruct (decode_payload (frame_payload b)); [|done]. cbn in D. injection D as _ _ D.
  assert (0 < zlen r) by (destruct r; [done|]; rewrite zlen_cons; pose proof (zlen_nonneg r); lia).
  rewrite E, zlen_app in D. lia.
Qed.

Lemma validate_frame_at_spec file pos :
  0 <= pos <= zlen file -> all_decodable file ->
  validate_frame_at file pos (zlen file) =
  Ok (match decode_frame (zdrop pos file) with
      | Ok (fr, n) => Some (frame_seq fr, n) | Err _ => None end).
Proof.
  intros Hp Hall. unfold validate_frame_at. pose proof (read_frame_decode file pos Hp) as D.
  destruct (read_frame_bytes file pos (zlen file)) as [[seq body]|] eqn:R; cbn in D.
  2: { apply is_ok_false in D as [? ->]. done. }
  destruct (frame_checksum_ok body) eqn:C; cbn [negb].
  - destruct (Hall pos seq body) as [ops Ho]; try done. rewrite Ho in D |- *. by rewrite D.
  - apply is_ok_false in D as [? ->]. done.
Qed.

Lemma validate_probe_spec file offs :
  all_decodable file -> (forall i, In i offs -> 0 <= i <= zlen file) ->
  validate_probe file (zlen file) offs = Ok (existsb (frame_at file) offs).
Proof.
  intros Hall. induction offs as [|i offs IH]; intros Hin; cbn; [done|].
  rewrite validate_frame_at_spec by (done || apply Hin; by left). cbn.
  unfold frame_at at 1. destruct (decode_frame (zdrop i file)) as [[? ?]|]; cbn; [done|].
  apply IH. intros. apply Hin. by right.
Qed.

Lemma valid_prefix_agree file fuel pos last (fs : list WalFrame) :
  0 <= pos <= zlen file -> all_decodable file ->
  valid_prefix_loop file (zlen file) fuel pos last =
  (x ← replay_loop (fun fs fr => Ok (fs ++ [fr])) file fuel pos last fs; Ok x.2).
Proof.
  intros Hp Hall. revert pos last fs Hp. induction fuel as [|fuel IH]; intros pos last fs Hp;
    cbn [valid_prefix_loop replay_loop]; [done|].
  destruct (pos <? zlen file) eqn:E; bool_to_prop; [|done].
  rewrite validate_frame_at_spec by done.
  destruct (decode_frame (zdrop pos file)) as [[fr n]|] eqn:D; cbn.
  - case_test; [done|]. apply decode_frame_len in D. rewrite zlen_zdrop in D by lia.
    unfold FRAME_HEADER_LEN in D. apply IH. lia.
  - rewrite validate_probe_spec; [|done|].
    2: { intros i Hi. apply list_elem_of_In, elem_of_seqZ in Hi. lia. }
    cbn. unfold probe_after. by destruct (existsb _ _).
Qed.
End Reader.

(* ------------------------------------------------------------------ *)
(** * Properties *)

(** The chunked magic scan is verdict-identical to validating every offset: it
    returns the first offset at or after [pos] at which [decode_frame] succeeds, however
    the magic falls on the 64 KiB chunk boundaries. *)
Theorem chunked_scan_equiv {SHA : Sha256} (file : bytes) (pos : Z) :
  0 <= pos ->
  find_valid_frame_after file pos (zlen file) =
  List.find (fun i => is_ok (decode_frame (zdrop i file))) (seqZ pos (zlen file - pos)).
Proof. apply find_valid_frame_after_spec. Qed.

Lemma chunked_scan_equiv_witness :
  @find_valid_frame_after toy_sha ([x41; x4b; x57] ++ sample_stream) 0 (zlen ([x41; x4b; x57] ++ sample_stream))
  = Some 3.
Proof. rewrite (@chunked_scan_equiv toy_sha) by lia. vm_compute. reflexivity. Defined.

(** Recovery's reader-based replay is the in-memory streaming replay, result and
    error alike, on a file whose intact frames all decode. *)
Theorem replay_reader_equiv {SHA : Sha256} {S : Type} (f : S -> Z -> Op -> Result S) (file : bytes) (s : S) :
  all_decodable file ->
  replay_reader f file s =
  ('(s', n) ← replay_frames_streaming
     (fun s fr => fold_result (fun s o => f s (frame_seq fr) o) s (frame_ops fr)) file s;
   Ok (s', (n, zlen file))).
Proof.
  intros Hall. unfold replay_reader, replay_frames_streaming.
  rewrite reader_loop_agree by (done || pose proof (zlen_nonneg file); lia).
  change (frame_sink f) with
    (fun s fr => fold_result (fun s o => f s (frame_seq fr) o) s (frame_ops fr)).
  by destruct (replay_loop _ _ _ _ _ _) as [[? ?]|].
Qed.

Definition collect_ops (l : list (Z * Op)) (seq : Z) (o : Op) : Result (list (Z * Op)) := Ok (l ++ [(seq, o)]).

Definition decodable_at `{Sha256} (file : bytes) (i : Z) : bool :=
  match read_frame_bytes file i (zlen file) with
  | Some (_, body) => negb (frame_checksum_ok body) || is_ok (decode_payload (frame_payload body))
  | None => true
  end.

Lemma all_decodable_check {SHA : Sha256} file :
  forallb (decodable_at file) (seqZ 0 (zlen file + 1)) = true -> all_decodable file.
Proof.
  intros H i seq body Hi Hr Hc. rewrite forallb_forall in H. specialize (H i).
  unfold decodable_at in H. rewrite Hr, Hc in H. apply is_ok_true, H.
  apply list_elem_of_In, elem_of_seqZ. lia.
Qed.

Lemma replay_reader_equiv_witness :
  @replay_reader toy_sha _ collect_ops (sample_stream ++ [x41]) [] =
  Ok (flat_map (fun fr => map (pair (frame_seq fr)) (frame_ops fr)) sample_frames,
      (zlen sample_stream, zlen (sample_stream ++ [x41]))).
Proof.
  rewrite (@replay_reader_equiv toy_sha).
  - vm_compute. reflexivity.
  - apply (@all_decodable_check toy_sha). vm_compute. reflexivity.
Defined.

(** On any file at all, whatever the reader-based replay accepts the in-memory
    replay accepts with the same state and the same prefix: the one divergence, an intact
    frame with undecodable ops, only makes the reader stricter. *)
Theorem replay_reader_sound {SHA : Sha256} {S : Type} (f : S -> Z -> Op -> Result S) (file : bytes)
    (s s' : S) (n e : Z) :
  replay_reader f file s = Ok (s', (n, e)) ->
  e = zlen file /\
  replay_frames_streaming
    (fun s fr => fold_result (fun s o => f s (frame_seq fr) o) s (frame_ops fr)) file s = Ok (s', n).
Proof. intros H. apply reader_loop_sound in H; [done | pose proof (zlen_nonneg file); lia]. Qed.

Lemma replay_reader_sound_witness :
  @replay_frames_streaming toy_sha _
    (fun s fr => fold_result (fun s o => collect_ops s (frame_seq fr) o) s (frame_ops fr)) sample_stream []
  = Ok (flat_map (fun fr => map (pair (frame_seq fr)) (frame_ops fr)) sample_frames, zlen sample_stream).
Proof.
  apply (@replay_reader_sound toy_sha _ collect_ops sample_stream [] _ _ (zlen sample_stream)).
  vm_compute. reflexivity.
Defined.

(** [valid_prefix_len], the bounded-memory scan, computes exactly the prefix the
    in-memory replay consumes, with the same errors, on a file whose intact frames all
    decode. *)
Theorem valid_prefix_len_equiv {SHA : Sha256} (file : bytes) :
  all_decodable file -> valid_prefix_len file = ('(_, n) ← replay_frames file; Ok n).
Proof.
  intros Hall. unfold valid_prefix_len, replay_frames, replay_frames_streaming.
  rewrite (valid_prefix_agree file _ 0 None []) by (done || pose proof (zlen_nonneg file); lia).
  by destruct (replay_loop _ _ _ _ _ _) as [[? ?]|].
Qed.

Lemma valid_prefix_len_equiv_witness :
  @valid_prefix_len toy_sha (sample_stream ++ [x41]) = Ok (zlen sample_stream).
Proof.
  rewrite (@valid_prefix_len_equiv toy_sha).
  - vm_compute. reflexivity.
  - apply (@all_decodable_check toy_sha). vm_compute. reflexivity.
Defined.
