(* ===== verification/Memtable.v ===== *)
(** crates/storage/aikoql-v2/src/memtable.rs: the in-memory write layer, a
    [BTreeMap<key, VersionChain>] modelled as an association list in key order, and its
    refinement of the flat [(key, seq) -> entry] map it replaced. *)

From S2P Require Import Prelude Identity.

Definition ENTRY_OVERHEAD : Z := 24.

(** [struct ByteRow], [struct ObjectRow], [enum MemEntry]. *)
Record ByteRow : Type := mkByteRow { br_value : option bytes }.
Record ObjectRow : Type := mkObjectRow { or_value : option bytes; or_replica_id : ReplicaId }.
Inductive MemEntry : Type :=
  | Byte (b : ByteRow)
  | Object (o : ObjectRow).

(** [MemEntry::value], [replica_id], [is_identity], [into_parts]. *)
Definition entry_value (e : MemEntry) : option bytes :=
  match e with Byte b => br_value b | Object o => or_value o end.
Definition entry_replica_id (e : MemEntry) : ReplicaId :=
  match e with Byte _ => mkReplicaId 0 | Object o => or_replica_id o end.
Definition is_identity (e : MemEntry) : bool :=
  match e with Byte _ => false | Object o => negb (rid_val (or_replica_id o) =? 0) end.
Definition into_parts (e : MemEntry) : option bytes * ReplicaId :=
  match e with
  | Byte b => (br_value b, mkReplicaId 0)
  | Object o => (or_value o, or_replica_id o)
  end.

(** [VersionChain::versions]: one key's rows, sequence ascending. *)
Abbreviation VersionChain := (list (Z * MemEntry)).

(** [struct Memtable]: the map's entries in key order, and the byte accounting. *)
Record Memtable : Type := mkMemtable { mt_map : list (bytes * VersionChain); mt_bytes : Z }.

Definition mt_new : Memtable := mkMemtable [] 0.
Definition mt_is_empty (m : Memtable) : bool := match mt_map m with [] => true | _ => false end.

(** [Memtable::has_identity]. *)
Definition has_identity (m : Memtable) : bool :=
  existsb (fun '(_, c) => existsb (fun '(_, e) => is_identity e) c) (mt_map m).

(** [e.value().map_or(0, Vec::len)]. *)
Definition value_len (e : MemEntry) : Z :=
  match entry_value e with Some v => zlen v | None => 0 end.

(** [BTreeMap::entry(key)]: the entry's chain, and the map with it replaced or
    inserted at its place. *)
Fixpoint btree_get {V} (m : list (bytes * V)) (k : bytes) : option V :=
  match m with
  | [] => None
  | (k', v) :: m => if bytes_eqb k k' then Some v else btree_get m k
  end.
Fixpoint btree_insert {V} (m : list (bytes * V)) (k : bytes) (v : V) : list (bytes * V) :=
  match m with
  | [] => [(k, v)]
  | (k', v') :: m' =>
      match bytes_compare k k' with
      | Lt => (k, v) :: m
      | Eq => (k, v) :: m'
      | Gt => (k', v') :: btree_insert m' k v
      end
  end.

(** [versions.partition_point(|&(s, _)| s < seq)] on a sequence-ascending chain: the
    number of rows below [seq]. *)
Fixpoint partition_point (c : VersionChain) (seq : Z) : nat :=
  match c with
  | [] => 0
  | (s, _) :: c => if s <? seq then S (partition_point c seq) else 0
  end.

(** [usize::saturating_add] / [saturating_sub]. *)
Definition saturating_add (a b : Z) : Z := Z.min (a + b) (USIZE - 1).
Definition saturating_sub (a b : Z) : Z := Z.max (a - b) 0.

(** [Memtable::insert]. *)
Definition mt_insert (m : Memtable) (key : bytes) (seq : Z) (e : MemEntry) : Memtable :=
  let key_len := zlen key in
  let new_len := value_len e in
  match btree_get (mt_map m) key with
  | None =>
      mkMemtable (btree_insert (mt_map m) key [(seq, e)])
        (mt_bytes m + (key_len + new_len + ENTRY_OVERHEAD))
  | Some chain =>
      let idx := partition_point chain seq in
      let fresh :=
        mkMemtable (btree_insert (mt_map m) key (take idx chain ++ (seq, e) :: drop idx chain))
          (mt_bytes m + (key_len + new_len + ENTRY_OVERHEAD)) in
      match chain !! idx with
      | Some (s, old) =>
          if s =? seq then
            mkMemtable (btree_insert (mt_map m) key (<[idx := (seq, e)]> chain))
              (saturating_sub (saturating_add (mt_bytes m) new_len) (value_len old))
          else fresh
      | None => fresh
      end
  end.

(** [Memtable::apply], [Memtable::apply_object]. *)
Definition mt_apply (m : Memtable) (key : bytes) (seq : Z) (value : option bytes) : Memtable :=
  mt_insert m key seq (Byte (mkByteRow value)).
Definition mt_apply_object (m : Memtable) (key : bytes) (seq : Z) (value : option bytes)
    (rid : ReplicaId) : Memtable :=
  mt_insert m key seq (Object (mkObjectRow value rid)).

(** [iter().rev().find_map(f)]. *)
Fixpoint find_map_rev {B} (f : MemEntry -> option B) (c : VersionChain) : option B :=
  match c with
  | [] => None
  | (_, e) :: c => match find_map_rev f c with Some b => Some b | None => f e end
  end.
Definition as_byte (e : MemEntry) : option ByteRow :=
  match e with Byte b => Some b | Object _ => None end.
Definition as_object (rid : ReplicaId) (e : MemEntry) : option ObjectRow :=
  match e with
  | Object o => if bool_decide (or_replica_id o = rid) then Some o else None
  | Byte _ => None
  end.

(** [Memtable::get], [Memtable::get_by_rid]. *)
Definition mt_get (m : Memtable) (key : bytes) : option ByteRow :=
  btree_get (mt_map m) key ≫= find_map_rev as_byte.
Definition mt_get_by_rid (m : Memtable) (key : bytes) (rid : ReplicaId) : option ObjectRow :=
  btree_get (mt_map m) key ≫= find_map_rev (as_object rid).

(** [Memtable::entries] ([into_entries] moves the same sequence out). *)
Definition mt_entries (m : Memtable) : list (bytes * Z * MemEntry) :=
  flat_map (fun '(k, c) => map (fun '(s, e) => (k, s, e)) c) (mt_map m).

(** [Memtable::prefix_heads]: seek to the prefix, stop at the first key outside it. *)
Fixpoint range_from {V} (m : list (bytes * V)) (lo : bytes) : list (bytes * V) :=
  match m with
  | [] => []
  | (k, v) :: m' => if bytes_ltb k lo then range_from m' lo else m
  end.
Fixpoint heads_while (m : list (bytes * VersionChain)) (prefix : bytes) : list (bytes * ByteRow) :=
  match m with
  | [] => []
  | (k, c) :: m =>
      if negb (starts_with prefix k) then [] else
      match find_map_rev as_byte c with
      | Some b => (k, b) :: heads_while m prefix
      | None => heads_while m prefix
      end
  end.
Definition prefix_heads (m : Memtable) (prefix : bytes) : list (bytes * ByteRow) :=
  heads_while (range_from (mt_map m) prefix) prefix.

(* ------------------------------------------------------------------ *)
(** * Invariant *)

Definition chain_sorted (c : VersionChain) : Prop := StronglySorted (fun a b => a.1 < b.1) c.
Definition keys_sorted {V} (m : list (bytes * V)) : Prop :=
  StronglySorted (fun a b => bytes_lt a.1 b.1) m.

(** Keys ascending; every chain non-empty and sequence ascending. *)
Definition mt_sorted (m : Memtable) : Prop :=
  keys_sorted (mt_map m) /\ Forall (fun kc => kc.2 <> [] /\ chain_sorted kc.2) (mt_map m).

(** The flat map's lookup. *)
Fixpoint chain_lookup (c : VersionChain) (seq : Z) : option MemEntry :=
  match c with
  | [] => None
  | (s, e) :: c => if s =? seq then Some e else chain_lookup c seq
  end.
Definition mt_lookup (m : Memtable) (k : bytes) (seq : Z) : option MemEntry :=
  btree_get (mt_map m) k ≫= fun c => chain_lookup c seq.

(** The abstract state: the flat [(key, seq)] map. *)
Definition flat (m : Memtable) : gmap (bytes * Z) MemEntry :=
  list_to_map (map (fun '(k, s, e) => ((k, s), e)) (mt_entries m)).

(** The accounting the byte counter stands for. *)
Definition entry_cost (x : bytes * Z * MemEntry) : Z :=
  zlen x.1.1 + value_len x.2 + ENTRY_OVERHEAD.
Fixpoint total_cost (l : list (bytes * Z * MemEntry)) : Z :=
  match l with [] => 0 | x :: l => entry_cost x + total_cost l end.

(* ------------------------------------------------------------------ *)
(** * The ordered map *)

Section BTree.
Context {V : Type}.
Implicit Types (m : list (bytes * V)) (k : bytes).

Lemma btree_get_insert m k v k' :
  btree_get (btree_insert m k v) k' = if bytes_eqb k' k then Some v else btree_get m k'.
Proof.
  induction m as [|[j u] m IH]; cbn; [done|].
  destruct (bytes_compare k j) eqn:E; cbn; [|done|].
  - apply bytes_compare_eq in E as ->. by destruct (bytes_eqb k' j).
  - destruct (bytes_eqb k' j) eqn:E1; [|apply IH].
    apply bytes_eqb_eq in E1 as ->. destruct (bytes_eqb j k) eqn:E2; [|done].
    apply bytes_eqb_eq in E2 as ->. by rewrite bytes_compare_refl in E.
Qed.

Lemma btree_insert_elem m k v x : x ∈ btree_insert m k v -> x = (k, v) \/ x ∈ m.
Proof.
  induction m as [|[j u] m IH]; cbn; [set_solver|].
  destruct (bytes_compare k j); set_solver.
Qed.

Lemma btree_insert_sorted m k v : keys_sorted m -> keys_sorted (btree_insert m k v).
Proof.
  unfold keys_sorted. induction 1 as [|[j u] m Hs IH Hf]; cbn; [repeat constructor|].
  destruct (bytes_compare k j) eqn:E.
  - apply bytes_compare_eq in E as ->. by constructor.
  - repeat constructor; try done. eapply Forall_impl; [exact Hf|]. cbn. intros x Hx. by etrans.
  - constructor; [done|]. apply Forall_forall. intros x [->|Hx]%btree_insert_elem.
    + cbn. unfold bytes_lt. by rewrite bytes_compare_antisym, E.
    + by eapply Forall_forall in Hf.
Qed.

Lemma btree_get_elem m k v : keys_sorted m -> btree_get m k = Some v <-> (k, v) ∈ m.
Proof.
  unfold keys_sorted. induction 1 as [|[j u] m Hs IH Hf]; cbn; [set_solver|].
  rewrite elem_of_cons. destruct (bytes_eqb k j) eqn:E.
  - apply bytes_eqb_eq in E as ->. split; [intros H; injection H as ->; by left|].
    intros [H|H]; [by injection H as ->|]. eapply Forall_forall in Hf; [|exact H].
    by apply bytes_lt_irrefl in Hf.
  - apply bytes_eqb_neq in E. rewrite IH. naive_solver.
Qed.

(** Where an insert lands: between the smaller and the greater keys. *)
Lemma btree_insert_split m k v :
  keys_sorted m ->
  match btree_get m k with
  | Some u => exists a b, m = a ++ (k, u) :: b /\ btree_insert m k v = a ++ (k, v) :: b
  | None => exists a b, m = a ++ b /\ btree_insert m k v = a ++ (k, v) :: b
  end.
Proof.
  unfold keys_sorted. induction 1 as [|[j u] m Hs IH Hf]; cbn; [by exists [], []|].
  unfold bytes_eqb. destruct (bytes_compare k j) eqn:E.
  - apply bytes_compare_eq in E as ->. by exists [], m.
  - assert (btree_get m k = None) as ->.
    { destruct (btree_get m k) eqn:G; [|done]. apply btree_get_elem in G; [|done].
      eapply Forall_forall in Hf; [|exact G]. cbn in Hf. exfalso. apply (bytes_lt_irrefl k).
      by etrans. }
    by exists [], ((j, u) :: m).
  - destruct (btree_get m k) as [w|]; destruct IH as (a & b & -> & ->);
      by exists ((j, u) :: a), b.
Qed.
End BTree.

(* ------------------------------------------------------------------ *)
(** * One key's chain *)

(** The chain with row [seq] set, by structural recursion. *)
Fixpoint chain_put (c : VersionChain) (seq : Z) (e : MemEntry) : VersionChain :=
  match c with
  | [] => [(seq, e)]
  | (s, x) :: c' =>
      if s <? seq then (s, x) :: chain_put c' seq e
      else if s =? seq then (seq, e) :: c' else (seq, e) :: c
  end.

(** The indexed update of [Memtable::insert] is [chain_put]. *)
Lemma chain_put_indexed c seq e :
  let idx := partition_point c seq in
  chain_put c seq e =
    match c !! idx with
    | Some (s, _) => if s =? seq then <[idx := (seq, e)]> c else take idx c ++ (seq, e) :: drop idx c
    | None => take idx c ++ (seq, e) :: drop idx c
    end.
Proof.
  induction c as [|[s x] c IH]; cbn; [done|].
  destruct (s <? seq) eqn:E; cbn; [|by destruct (s =? seq)].
  rewrite IH. cbv zeta. destruct (c !! partition_point c seq) as [[s' x']|]; [|done].
  by destruct (s' =? seq).
Qed.

Lemma chain_lookup_put c seq e s :
  chain_sorted c -> chain_lookup (chain_put c seq e) s = if s =? seq then Some e else chain_lookup c s.
Proof.
  unfold chain_sorted. induction 1 as [|[t x] c Hs IH Hf]; cbn.
  - rewrite Z.eqb_sym. done.
  - destruct (t <? seq) eqn:E1; bool_to_prop; cbn.
    + rewrite IH. destruct (t =? s) eqn:E2, (s =? seq) eqn:E3; bool_to_prop; (done || lia).
    + destruct (t =? seq) eqn:E2; bool_to_prop; cbn; rewrite (Z.eqb_sym seq s);
        destruct (s =? seq) eqn:E3; bool_to_prop; try done.
      subst. destruct (seq =? s) eqn:E4; bool_to_prop; [lia|done].
Qed.

Lemma chain_put_elem c seq e x : x ∈ chain_put c seq e -> x = (seq, e) \/ x ∈ c.
Proof.
  induction c as [|[t y] c IH]; cbn; [set_solver|].
  destruct (t <? seq); [set_solver|]. destruct (t =? seq); set_solver.
Qed.

Lemma chain_put_sorted c seq e : chain_sorted c -> chain_sorted (chain_put c seq e).
Proof.
  unfold chain_sorted. induction 1 as [|[t x] c Hs IH Hf]; cbn; [repeat constructor|].
  destruct (t <? seq) eqn:E1; bool_to_prop.
  - constructor; [done|]. apply Forall_forall. intros y [->|Hy]%chain_put_elem; [done|].
    by eapply Forall_forall in Hf.
  - destruct (t =? seq) eqn:E2; bool_to_prop; [subst; by constructor|].
    repeat constructor; try done; [cbn; lia|]. eapply Forall_impl; [exact Hf|]. cbn. lia.
Qed.

Lemma chain_put_nonempty c seq e : chain_put c seq e <> [].
Proof. destruct c as [|[t x] c]; cbn; [done|]. by repeat case_test. Qed.

Lemma chain_lookup_elem c s e : chain_sorted c -> chain_lookup c s = Some e <-> (s, e) ∈ c.
Proof.
  unfold chain_sorted. induction 1 as [|[t x] c Hs IH Hf]; cbn; [set_solver|].
  rewrite elem_of_cons. destruct (t =? s) eqn:E; bool_to_prop.
  - subst. split; [intros H; injection H as ->; by left|].
    intros [H|H]; [by injection H as ->|]. eapply Forall_forall in Hf; [|exact H]. cbn in Hf. lia.
  - rewrite IH. naive_solver.
Qed.

(** The last matching row of a chain is the matching row of highest sequence. *)
Lemma find_map_rev_spec {B} (f : MemEntry -> option B) c b :
  chain_sorted c ->
  find_map_rev f c = Some b <->
  exists s e, chain_lookup c s = Some e /\ f e = Some b /\
    forall s' e', chain_lookup c s' = Some e' -> is_Some (f e') -> s' <= s.
Proof.
  intros Hc. revert b. induction Hc as [|[t x] c Hs IH Hf]; intros b; cbn.
  { split; [done|]. by intros (?&?&?&_). }
  assert (forall s e, chain_lookup c s = Some e -> t < s) as Hgt.
  { intros s e H. apply chain_lookup_elem in H; [|done]. by eapply Forall_forall in Hf; [|exact H]. }
  destruct (find_map_rev f c) as [b'|] eqn:E.
  - destruct (proj1 (IH b') eq_refl) as (s & e & Hl & Hfe & Hmax). pose proof (Hgt _ _ Hl).
    split.
    + intros H1. injection H1 as <-. exists s, e.
      rewrite (proj2 (Z.eqb_neq t s)) by lia. split_and!; try done.
      intros s' e' H'. destruct (t =? s') eqn:E'; bool_to_prop; [lia | by apply Hmax].
    + intros (s2 & e2 & Hl2 & Hf2 & Hmax2). f_equal.
      destruct (t =? s2) eqn:E2; bool_to_prop.
      * specialize (Hmax2 s e). rewrite (proj2 (Z.eqb_neq t s)) in Hmax2 by lia.
        specialize (Hmax2 Hl ltac:(eauto)). lia.
      * assert (s2 = s) as ->; [|congruence].
        specialize (Hmax2 s e). rewrite (proj2 (Z.eqb_neq t s)) in Hmax2 by lia.
        specialize (Hmax2 Hl ltac:(eauto)). specialize (Hmax s2 e2 Hl2 ltac:(eauto)). lia.
  - assert (forall s e, chain_lookup c s = Some e -> f e = None) as Hnone.
    { intros s e Hl. destruct (f e) as [b'|] eqn:F; [|done]. exfalso. clear IH.
      apply chain_lookup_elem in Hl; [|done]. clear -E Hl F.
      induction c as [|[u y] c IH]; [by apply not_elem_of_nil in Hl|]. cbn in E.
      destruct (find_map_rev f c) eqn:G; [done|]. apply elem_of_cons in Hl as [H|H]; [congruence|].
      by apply IH. }
    split.
    + intros Hx. exists t, x. rewrite Z.eqb_refl. split_and!; try done.
      intros s' e' H'. destruct (t =? s') eqn:E'; bool_to_prop; [lia|].
      intros [? ?]. rewrite (Hnone _ _ H') in *. done.
    + intros (s & e & Hl & Hfe & _). destruct (t =? s) eqn:E'; bool_to_prop; [congruence|].
      rewrite (Hnone _ _ Hl) in Hfe. done.
Qed.

(* ------------------------------------------------------------------ *)
(** * The table *)

Definition chain_of (m : Memtable) (k : bytes) : VersionChain := default [] (btree_get (mt_map m) k).

Lemma mt_insert_map m k s e :
  mt_map (mt_insert m k s e) = btree_insert (mt_map m) k (chain_put (chain_of m k) s e).
Proof.
  unfold mt_insert, chain_of. destruct (btree_get (mt_map m) k) as [c|]; cbn; [|done].
  rewrite (chain_put_indexed c s e). cbv zeta.
  destruct (c !! partition_point c s) as [[t x]|]; [|done]. by destruct (t =? s).
Qed.

Lemma mt_sorted_chain m k : mt_sorted m -> chain_sorted (chain_of m k).
Proof.
  intros [Hk Hc]. unfold chain_of. destruct (btree_get (mt_map m) k) eqn:G; cbn; [|constructor].
  apply btree_get_elem in G; [|done]. eapply Forall_forall in Hc; [|exact G]. apply Hc.
Qed.

Lemma mt_insert_sorted m k s e : mt_sorted m -> mt_sorted (mt_insert m k s e).
Proof.
  intros Hm. pose proof (mt_sorted_chain m k Hm) as Hch. destruct Hm as [Hk Hc].
  unfold mt_sorted. rewrite mt_insert_map. split; [by apply btree_insert_sorted|].
  apply Forall_forall. intros x [->|Hx]%btree_insert_elem; cbn.
  - split; [apply chain_put_nonempty | by apply chain_put_sorted].
  - by eapply Forall_forall in Hc.
Qed.

Lemma mt_lookup_insert m k s e k' s' :
  mt_sorted m ->
  mt_lookup (mt_insert m k s e) k' s' =
    if bytes_eqb k' k && (s' =? s) then Some e else mt_lookup m k' s'.
Proof.
  intros Hm. unfold mt_lookup. rewrite mt_insert_map, btree_get_insert.
  destruct (bytes_eqb k' k) eqn:E; cbn; [|done]. apply bytes_eqb_eq in E as ->.
  rewrite chain_lookup_put by by apply mt_sorted_chain. unfold chain_of.
  destruct (s' =? s); [done|]. by destruct (btree_get (mt_map m) k).
Qed.

Lemma mt_entries_elem m k s e :
  mt_sorted m -> (k, s, e) ∈ mt_entries m <-> mt_lookup m k s = Some e.
Proof.
  intros [Hk Hc]. unfold mt_lookup, mt_entries. rewrite list_elem_of_In, in_flat_map. split.
  - intros ([k' c] & Hin & H). apply in_map_iff in H as ([s' e'] & Heq & H).
    injection Heq as -> -> ->. apply list_elem_of_In in Hin, H.
    rewrite (proj2 (btree_get_elem _ k c Hk) Hin). cbn.
    eapply Forall_forall in Hc; [|exact Hin]. apply chain_lookup_elem; [apply Hc | done].
  - destruct (btree_get (mt_map m) k) as [c|] eqn:G; cbn; [|done]. intros Hl.
    apply btree_get_elem in G; [|done]. pose proof G as G'. eapply Forall_forall in Hc; [|exact G'].
    exists (k, c). split; [by apply list_elem_of_In|]. apply in_map_iff. exists (s, e). split; [done|].
    apply list_elem_of_In. by apply chain_lookup_elem; [apply Hc|].
Qed.

(** The flush order: key ascending, sequence ascending within a key. *)
Definition entry_lt (a b : bytes * Z * MemEntry) : Prop :=
  bytes_lt a.1.1 b.1.1 \/ a.1.1 = b.1.1 /\ a.1.2 < b.1.2.

Lemma mt_entries_sorted m : mt_sorted m -> StronglySorted entry_lt (mt_entries m).
Proof.
  destruct m as [l b]. unfold mt_sorted, mt_entries. cbn. intros [Hk Hc].
  induction Hk as [|[k c] l Hk IH Hf]; cbn; [constructor|].
  apply Forall_cons_1 in Hc as [[_ Hc] Hl]. apply StronglySorted_app; [|by apply IH|].
  - clear -Hc. cbn in Hc. unfold chain_sorted in Hc. induction Hc as [|[s e] c Hs IH Hf]; cbn; constructor; [done|].
    apply Forall_map. eapply Forall_impl; [exact Hf|]. intros [s' e'] H. right. cbn in *. done.
  - intros x y Hx Hy. apply list_elem_of_In, in_map_iff in Hx as ([s e] & <- & _).
    apply list_elem_of_In, in_flat_map in Hy as ([k' c'] & Hin & Hy).
    apply in_map_iff in Hy as ([s' e'] & <- & _). left. cbn.
    apply list_elem_of_In in Hin. by eapply Forall_forall in Hf; [|exact Hin].
Qed.

#[global] Instance entry_lt_trans : Transitive entry_lt.
Proof.
  intros [[k1 s1] e1] [[k2 s2] e2] [[k3 s3] e3]. unfold entry_lt. cbn.
  intros [H1|[-> H1]] [H2|[-> H2]]; eauto.
  - left. by etrans.
  - right. split; [done|lia].
Qed.

Lemma mt_entries_NoDup m : mt_sorted m -> NoDup (map (fun '(k, s, e) => (k, s)) (mt_entries m)).
Proof.
  intros H. apply mt_entries_sorted in H. induction H as [|[[k s] e] l Hl IH Hf]; cbn; constructor; [|done].
  intros Hin. apply list_elem_of_In, in_map_iff in Hin as ([[k' s'] e'] & Heq & Hin).
  injection Heq as -> ->. apply list_elem_of_In in Hin. eapply Forall_forall in Hf; [|exact Hin].
  destruct Hf as [Hlt|[_ Hlt]]; cbn in Hlt; [by apply bytes_lt_irrefl in Hlt | lia].
Qed.

Lemma flat_lookup m k s : mt_sorted m -> flat m !! (k, s) = mt_lookup m k s.
Proof.
  intros Hm. apply option_eq. intros e. unfold flat.
  rewrite <-(mt_entries_elem m k s e Hm). rewrite <-elem_of_list_to_map.
  - rewrite !list_elem_of_In, in_map_iff. split.
    + intros ([[k' s'] e'] & Heq & Hin). by injection Heq as -> -> ->.
    + intros Hin. by exists (k, s, e).
  - change (NoDup (map fst (map (fun '(k, s, e) => ((k, s), e)) (mt_entries m)))).
    rewrite map_map. erewrite map_ext; [by apply mt_entries_NoDup|]. by intros [[? ?] ?].
Qed.

(** Refinement of the write path: an insert is the flat map's insert. *)
Lemma flat_insert m k s e :
  mt_sorted m -> flat (mt_insert m k s e) = <[(k, s) := e]> (flat m).
Proof.
  intros Hm. apply map_eq. intros [k' s'].
  rewrite flat_lookup by by apply mt_insert_sorted. rewrite mt_lookup_insert by done.
  destruct (bytes_eqb k' k && (s' =? s)) eqn:E.
  - apply andb_true_iff in E as [E1 E2]. apply bytes_eqb_eq in E1 as ->. bool_to_prop. subst.
    by rewrite lookup_insert_eq.
  - rewrite lookup_insert_ne; [by rewrite flat_lookup|]. intros Heq. injection Heq as -> ->.
    rewrite Z.eqb_refl, andb_true_r in E. by apply bytes_eqb_neq in E.
Qed.

(** Reads: the matching row of highest sequence of the flat map. *)
Definition is_head {B : Type} (fm : gmap (bytes * Z) MemEntry) (k : bytes) (f : MemEntry -> option B) (b : B) : Prop :=
  exists s e, fm !! (k, s) = Some e /\ f e = Some b /\
    forall s' e', fm !! (k, s') = Some e' -> is_Some (f e') -> s' <= s.

Lemma mt_read_spec {B : Type} m k (f : MemEntry -> option B) b :
  mt_sorted m ->
  (btree_get (mt_map m) k ≫= find_map_rev f) = Some b <-> is_head (flat m) k f b.
Proof.
  intros Hm. unfold is_head. setoid_rewrite (flat_lookup m k _ Hm). unfold mt_lookup.
  pose proof (mt_sorted_chain m k Hm) as Hc. unfold chain_of in Hc.
  destruct (btree_get (mt_map m) k) as [c|]; cbn in *.
  - by apply find_map_rev_spec.
  - split; [done|]. by intros (?&?&?&_).
Qed.

(* ------------------------------------------------------------------ *)
(** * Prefix scans: seek and early stop lose nothing *)

Lemma starts_with_ge p k : starts_with p k = true -> bytes_ltb k p = false.
Proof.
  revert k. induction p as [|x p IH]; intros [|y k]; cbn; try done.
  rewrite andb_true_iff, bool_decide_eq_true. intros [-> H]. unfold bytes_ltb. cbn.
  rewrite Z.compare_refl. by apply IH.
Qed.

(** Between two keys at or above the prefix, leaving it is final. *)
Lemma starts_with_convex p k k' :
  bytes_ltb k p = false -> bytes_lt k k' -> starts_with p k' = true -> starts_with p k = true.
Proof.
  unfold bytes_ltb, bytes_lt. revert k k'. induction p as [|x p IH]; intros [|y k] [|z k']; cbn; try done.
  rewrite !andb_true_iff, !bool_decide_eq_true. intros H1 H2 [-> H3].
  destruct (Z.compare_spec (byte_val y) (byte_val z)) as [E|E|E]; try done.
  apply byte_val_inj in E as ->. rewrite ?Z.compare_refl in *. split; [done|]. by eapply IH.
Qed.

Lemma range_from_keep {V} (m : list (bytes * V)) lo :
  keys_sorted m -> Forall (fun kv => bytes_ltb kv.1 lo = false) m -> range_from m lo = m.
Proof. intros _ H. destruct H as [|[k v] m H]; cbn; [done|]. cbn in H. by rewrite H. Qed.

(** The full-walk reference: every key under the prefix that has a byte row. *)
Definition heads_filter (m : list (bytes * VersionChain)) (prefix : bytes) : list (bytes * ByteRow) :=
  flat_map (fun '(k, c) =>
    if starts_with prefix k then
      match find_map_rev as_byte c with Some b => [(k, b)] | None => [] end
    else []) m.

Lemma heads_filter_none m p :
  Forall (fun kc => starts_with p kc.1 = false) m -> heads_filter m p = [].
Proof. induction 1 as [|[k c] m H _ IH]; cbn in *; [done|]. by rewrite H. Qed.

Lemma heads_while_filter m p :
  keys_sorted m -> Forall (fun kc => bytes_ltb kc.1 p = false) m ->
  heads_while m p = heads_filter m p.
Proof.
  unfold keys_sorted. induction 1 as [|[k c] m Hs IH Hf]; intros Hp; cbn; [done|].
  apply Forall_cons_1 in Hp as [Hk Hp]. cbn in Hk.
  destruct (starts_with p k) eqn:E; cbn.
  - destruct (find_map_rev as_byte c); cbn; [f_equal|]; by apply IH.
  - symmetry. apply heads_filter_none. apply Forall_forall. intros [k' c'] Hin. cbn.
    apply not_true_iff_false. intros S. eapply Forall_forall in Hf; [|exact Hin]. cbn in Hf.
    rewrite (starts_with_convex p k k') in E; done.
Qed.

Lemma prefix_heads_filter m p : mt_sorted m -> prefix_heads m p = heads_filter (mt_map m) p.
Proof.
  intros [Hk _]. unfold prefix_heads. revert Hk. generalize (mt_map m). clear m.
  unfold keys_sorted. induction 1 as [|[k c] m Hs IH Hf]; cbn; [done|].
  destruct (bytes_ltb k p) eqn:E.
  - rewrite IH. destruct (starts_with p k) eqn:S; [|done]. apply starts_with_ge in S. congruence.
  - rewrite heads_while_filter; [done | by constructor|]. constructor; [done|].
    eapply Forall_impl; [exact Hf|]. intros [k' c'] H. cbn in *.
    apply not_true_iff_false. intros H'. apply bytes_ltb_lt in H'.
    assert (bytes_lt k p) as H2 by by etrans. apply bytes_ltb_lt in H2. congruence.
Qed.

Lemma heads_filter_elem m p k b :
  keys_sorted m ->
  (k, b) ∈ heads_filter m p <->
  starts_with p k = true /\ (btree_get m k ≫= find_map_rev as_byte) = Some b.
Proof.
  intros Hk. unfold heads_filter. rewrite list_elem_of_In, in_flat_map. split.
  - intros ([k' c] & Hin & H). apply list_elem_of_In in Hin.
    destruct (starts_with p k') eqn:S; [|done]. destruct (find_map_rev as_byte c) eqn:F; [|done].
    destruct H as [H|[]]. injection H as -> ->. split; [done|].
    by rewrite (proj2 (btree_get_elem _ _ _ Hk) Hin).
  - intros [S H]. destruct (btree_get m k) as [c|] eqn:G; cbn in H; [|done].
    apply btree_get_elem in G; [|done]. exists (k, c). split; [by apply list_elem_of_In|].
    rewrite S, H. by left.
Qed.

(** Scans come out in strictly ascending key order. *)
Lemma heads_filter_sorted m p : keys_sorted m -> keys_sorted (heads_filter m p).
Proof.
  unfold keys_sorted. induction 1 as [|[k c] m Hs IH Hf]; cbn; [constructor|].
  destruct (starts_with p k); [|done]. destruct (find_map_rev as_byte c) as [b|]; cbn; [|done].
  constructor; [done|]. apply Forall_forall. intros [k' b'] Hin. cbn.
  apply heads_filter_elem in Hin as [_ Hg]; [|done].
  destruct (btree_get m k') as [c'|] eqn:G; [|done]. apply btree_get_elem in G; [|done].
  by eapply Forall_forall in Hf; [|exact G].
Qed.

(* ------------------------------------------------------------------ *)
(** * Byte accounting *)

Lemma total_cost_app l k : total_cost (l ++ k) = total_cost l + total_cost k.
Proof. induction l as [|x l IH]; cbn; [done|]. rewrite IH. lia. Qed.

Lemma total_cost_nonneg l : 0 <= total_cost l.
Proof.
  induction l as [|[[k s] e] l IH]; cbn; [done|]. unfold entry_cost, value_len, ENTRY_OVERHEAD. cbn.
  pose proof (zlen_nonneg k). destruct (entry_value e) as [v|]; [pose proof (zlen_nonneg v)|]; lia.
Qed.

(** What replacing or adding row [s] does to one chain's cost. *)
Definition old_cost (c : VersionChain) (k : bytes) (s : Z) : Z :=
  match chain_lookup c s with Some old => zlen k + value_len old + ENTRY_OVERHEAD | None => 0 end.

Lemma chain_cost k c s e :
  chain_sorted c ->
  total_cost (map (fun '(s, e) => (k, s, e)) (chain_put c s e)) =
  total_cost (map (fun '(s, e) => (k, s, e)) c) + (zlen k + value_len e + ENTRY_OVERHEAD) - old_cost c k s.
Proof.
  unfold chain_sorted, old_cost. induction 1 as [|[t x] c Hs IH Hf]; cbn.
  - unfold entry_cost. cbn. lia.
  - destruct (t <? s) eqn:E1; bool_to_prop; cbn.
    + rewrite IH. rewrite (proj2 (Z.eqb_neq t s)) by lia. lia.
    + destruct (t =? s) eqn:E2; bool_to_prop; cbn; unfold entry_cost; cbn; [lia|].
      destruct (chain_lookup c s) eqn:L; [|lia]. apply chain_lookup_elem in L; [|done].
      eapply Forall_forall in Hf; [|exact L]. cbn in Hf. lia.
Qed.

Lemma flat_map_cost a k c b :
  total_cost (flat_map (fun '(k, c) => map (fun '(s, e) => (k, s, e)) c) (a ++ (k, c) :: b)) =
  total_cost (flat_map (fun '(k, c) => map (fun '(s, e) => (k, s, e)) c) (a ++ b)) +
  total_cost (map (fun '(s, e) => (k, s, e)) c).
Proof. rewrite !flat_map_app. cbn. rewrite !total_cost_app. lia. Qed.

Lemma mt_insert_cost m k s e :
  mt_sorted m ->
  total_cost (mt_entries (mt_insert m k s e)) =
  total_cost (mt_entries m) + (zlen k + value_len e + ENTRY_OVERHEAD) - old_cost (chain_of m k) k s.
Proof.
  intros Hm. pose proof (mt_sorted_chain m k Hm) as Hc. destruct Hm as [Hk _].
  unfold mt_entries. rewrite mt_insert_map. unfold chain_of in *.
  pose proof (btree_insert_split (mt_map m) k (chain_put (default [] (btree_get (mt_map m) k)) s e) Hk) as S.
  destruct (btree_get (mt_map m) k) as [c|]; cbn [default from_option id] in *;
    destruct S as (a & b & -> & ->); rewrite !flat_map_cost, chain_cost by done; cbn; lia.
Qed.

(** The counter is exactly the cost of the rows held. *)
Definition mt_accounted (m : Memtable) : Prop := mt_bytes m = total_cost (mt_entries m).

Lemma mt_insert_accounted m k s e :
  mt_sorted m -> mt_accounted m -> mt_bytes m + value_len e < USIZE ->
  mt_accounted (mt_insert m k s e).
Proof.
  intros Hm Ha Hb. unfold mt_accounted in *. rewrite mt_insert_cost, <-Ha by done.
  pose proof (mt_sorted_chain m k Hm) as Hc. pose proof (total_cost_nonneg (mt_entries (mt_insert m k s e))) as Hn.
  rewrite mt_insert_cost, <-Ha in Hn by done.
  unfold mt_insert, old_cost, chain_of in *. destruct (btree_get (mt_map m) k) as [c|]; cbn in *; [|lia].
  assert (chain_lookup c s = match c !! partition_point c s with
    | Some (t, old) => if t =? s then Some old else None | None => None end) as El.
  { clear -Hc. unfold chain_sorted in Hc. induction Hc as [|[t x] c Hs IH Hf]; cbn; [done|].
    destruct (t <? s) eqn:E1; bool_to_prop; cbn; [by rewrite (proj2 (Z.eqb_neq t s)) by lia|].
    destruct (t =? s) eqn:E2; bool_to_prop; [done|].
    destruct (chain_lookup c s) eqn:L; [|done]. apply chain_lookup_elem in L; [|done].
    eapply Forall_forall in Hf; [|exact L]. cbn in Hf. lia. }
  rewrite El in *. destruct (c !! partition_point c s) as [[t old]|]; cbn; [|lia].
  destruct (t =? s); cbn in *; [|lia]. unfold saturating_add, saturating_sub. lia.
Qed.

(* ------------------------------------------------------------------ *)
(** * Any sequence of writes *)

(** The table after a sequence of writes, and the flat map after the same. *)
Abbreviation write := (bytes * Z * MemEntry)%type.
Definition mt_run (ws : list write) : Memtable :=
  fold_left (fun m '(k, s, e) => mt_insert m k s e) ws mt_new.
Definition flat_run (ws : list write) : gmap (bytes * Z) MemEntry :=
  fold_left (fun fm '(k, s, e) => <[(k, s) := e]> fm) ws ∅.

Lemma mt_run_snoc ws k s e : mt_run (ws ++ [(k, s, e)]) = mt_insert (mt_run ws) k s e.
Proof. unfold mt_run. by rewrite fold_left_app. Qed.
Lemma flat_run_snoc ws k s e : flat_run (ws ++ [(k, s, e)]) = <[(k, s) := e]> (flat_run ws).
Proof. unfold flat_run. by rewrite fold_left_app. Qed.

Lemma mt_run_sorted ws : mt_sorted (mt_run ws).
Proof.
  induction ws as [|[[k s] e] ws IH] using rev_ind.
  - by split; constructor.
  - rewrite mt_run_snoc. by apply mt_insert_sorted.
Qed.

Lemma mt_run_flat ws : flat (mt_run ws) = flat_run ws.
Proof.
  induction ws as [|[[k s] e] ws IH] using rev_ind; [done|].
  by rewrite mt_run_snoc, flat_run_snoc, flat_insert, IH by apply mt_run_sorted.
Qed.

Lemma value_len_nonneg e : 0 <= value_len e.
Proof. unfold value_len. destruct (entry_value e); [apply zlen_nonneg | done]. Qed.

Lemma old_cost_nonneg c k s : 0 <= old_cost c k s.
Proof.
  unfold old_cost. destruct (chain_lookup c s) as [e|]; [|done].
  pose proof (value_len_nonneg e). pose proof (zlen_nonneg k). unfold ENTRY_OVERHEAD. lia.
Qed.

(** What a table holds never costs more than what was written to it. *)
Lemma mt_run_cost_le ws : total_cost (mt_entries (mt_run ws)) <= total_cost ws.
Proof.
  induction ws as [|[[k s] e] ws IH] using rev_ind; [done|].
  rewrite mt_run_snoc, mt_insert_cost, total_cost_app by apply mt_run_sorted.
  pose proof (old_cost_nonneg (chain_of (mt_run ws) k) k s). cbn. unfold entry_cost. cbn. lia.
Qed.

(** After any sequence of writes the chained table keeps its order invariant (keys
    ascending, no empty chain, sequences ascending in a chain) and holds exactly the flat
    [(key, seq) -> entry] map of the same writes: a rewrite of a [(key, seq)] replaces the
    row, any other write adds one. *)
Theorem memtable_refines_flat (ws : list write) :
  mt_sorted (mt_run ws) /\ flat (mt_run ws) = flat_run ws.
Proof. split; [apply mt_run_sorted | apply mt_run_flat]. Qed.

(** A byte read answers the byte row of highest sequence under the key, a replica read
    the object row of highest sequence of that replica, and each answers [None] exactly
    when the key has no such row: rows of the other surface never shadow a read. *)
Theorem memtable_reads_head (ws : list write) (k : bytes) (rid : ReplicaId) :
  (forall b, mt_get (mt_run ws) k = Some b <-> is_head (flat_run ws) k as_byte b) /\
  (forall o, mt_get_by_rid (mt_run ws) k rid = Some o <-> is_head (flat_run ws) k (as_object rid) o).
Proof.
  rewrite <-mt_run_flat.
  split; intros; apply mt_read_spec, mt_run_sorted.
Qed.

(** The flush sequence lists every row written and not replaced, once, in
    [(key, seq)] ascending order. *)
Theorem memtable_entries_ordered (ws : list write) :
  StronglySorted entry_lt (mt_entries (mt_run ws)) /\
  forall k s e, (k, s, e) ∈ mt_entries (mt_run ws) <-> flat_run ws !! (k, s) = Some e.
Proof.
  pose proof (mt_run_sorted ws) as Hs. split; [by apply mt_entries_sorted|].
  intros k s e. by rewrite mt_entries_elem, <-flat_lookup, mt_run_flat by done.
Qed.

(** A prefix scan, which seeks to the prefix and stops at the first key outside it,
    lists in strictly ascending key order exactly the keys under the prefix with the row
    a point read of each answers. *)
Theorem prefix_heads_complete (ws : list write) (p : bytes) :
  keys_sorted (prefix_heads (mt_run ws) p) /\
  forall k b, (k, b) ∈ prefix_heads (mt_run ws) p <->
    starts_with p k = true /\ mt_get (mt_run ws) k = Some b.
Proof.
  pose proof (mt_run_sorted ws) as Hs. rewrite prefix_heads_filter by done. destruct Hs as [Hk _].
  split; [by apply heads_filter_sorted|]. intros k b. by apply heads_filter_elem.
Qed.

(** The byte counter that triggers a flush is exactly the cost of the rows held, as
    long as the writes together stay below [usize::MAX]: the saturating arithmetic of the
    replace path loses nothing. *)
Theorem memtable_accounting (ws : list write) :
  total_cost ws < USIZE -> mt_bytes (mt_run ws) = total_cost (mt_entries (mt_run ws)).
Proof.
  induction ws as [|[[k s] e] ws IH] using rev_ind; [done|].
  rewrite total_cost_app, mt_run_snoc. intros H.
  pose proof (mt_run_cost_le ws). pose proof (zlen_nonneg k). pose proof (value_len_nonneg e).
  assert (entry_cost (k, s, e) = zlen k + value_len e + ENTRY_OVERHEAD) as Ec by done.
  cbn [total_cost] in H. rewrite Ec in H. unfold ENTRY_OVERHEAD in H.
  assert (mt_accounted (mt_run ws)) as Ha by (apply IH; lia).
  apply mt_insert_accounted; [apply mt_run_sorted | done |]. unfold mt_accounted in Ha. lia.
Qed.

Definition sample_writes : list write :=
  [([x62], 1, Byte (mkByteRow (Some [x01; x02]))); ([x61], 2, Byte (mkByteRow None));
   ([x62], 1, Byte (mkByteRow (Some [x03]))); ([x62], 3, Object (mkObjectRow (Some [x04]) (mkReplicaId 7)))].

Lemma memtable_accounting_witness :
  mt_bytes (mt_run sample_writes) = 77 /\
  mt_bytes (mt_run sample_writes) = total_cost (mt_entries (mt_run sample_writes)).
Proof. split; [reflexivity | apply (memtable_accounting sample_writes); reflexivity]. Defined.
