(* ===== verification/Segment.v ===== *)
(** crates/storage/aikoql-v2/src/segment.rs: immutable segments.  This file holds the
    writer (block splitting, the restart and dense tables, the run-head splice, bloom,
    index and footer) and the reader (open, point lookups, full decode); the theory is in
    SegmentBlock.v and SegmentFile.v.

    The published file is its byte string: [publish_sorted_entries] returns the bytes it
    hands to the atomic publication with the size, checksum and anchors of the source's
    result.  A reader is opened on such a byte string; the block cache, the [validated]
    flag and the lazily parsed restart table are memos of pure functions of the immutable
    file and are recomputed here, and the read statistics are left out. *)

From S2P Require Import Prelude Cursor Format Identity.

Definition SEGMENT_VERSION : Z := 1.
Definition FLAG_PUT : Z := 1.
Definition FLAG_DELETE : Z := 2.
Definition FLAG_VERSION : Z := 4.
Definition SEGMENT_MAGIC : bytes := [x41; x4b; x53; x45].
Definition BLOCK_MAGIC : bytes := [x41; x4b; x42; x4c].
Definition FOOTER_MAGIC : bytes := [x41; x4b; x46; x54].
Definition BLOCK_HEADER_LEN : Z := 28.
Definition FOOTER_LEN : Z := 22.
Definition BLOCK_DATA : Z := 0.
Definition BLOCK_INDEX : Z := 1.
Definition BLOCK_BLOOM : Z := 2.
Definition MIN_ENTRY_LEN : Z := 17.
Definition BLOOM_BITS_PER_KEY : Z := 10.
Definition BLOOM_PROBES : list Z := [0; 1; 2; 3].
Definition RESTART_INTERVAL : Z := 16.

(** [struct SegmentEntry], [struct SegmentAnchor], [struct SegmentWriter]. *)
Record SegmentEntry : Type := mkSegmentEntry {
  se_key : bytes; se_value : bytes; se_seq : Z; se_flags : Z; se_rid : ReplicaId }.
Record SegmentAnchor : Type := mkSegmentAnchor {
  sa_rid : ReplicaId; sa_seq : Z; sa_block : Z; sa_offset : Z }.
Record SegmentWriter : Type := mkSegmentWriter {
  sw_target : Z; sw_entries : list SegmentEntry; sw_v2 : bool; sw_v3 : bool; sw_v4 : bool }.

(** [SegmentWriter::new], [new_v2], [new_v3], [new_v4], [push], [enable_v4]. *)
Definition sw_new (target : Z) : SegmentWriter := mkSegmentWriter target [] false false false.
Definition sw_new_v2 (target : Z) : SegmentWriter := mkSegmentWriter target [] true false false.
Definition sw_new_v3 (target : Z) : SegmentWriter := mkSegmentWriter target [] true true false.
Definition sw_new_v4 (target : Z) : SegmentWriter := mkSegmentWriter target [] true true true.
Definition sw_push (w : SegmentWriter) (e : SegmentEntry) : SegmentWriter :=
  mkSegmentWriter (sw_target w) (sw_entries w ++ [e]) (sw_v2 w) (sw_v3 w) (sw_v4 w).
Definition enable_v4 (w : SegmentWriter) : SegmentWriter :=
  mkSegmentWriter (sw_target w) (sw_entries w) true true true.
(** [std::mem::take(&mut self.entries)]. *)
Definition sw_take (w : SegmentWriter) : SegmentWriter :=
  mkSegmentWriter (sw_target w) [] (sw_v2 w) (sw_v3 w) (sw_v4 w).

(** [common_prefix], [shared_of]. *)
Fixpoint common_prefix (a b : bytes) : Z :=
  match a, b with
  | x :: a, y :: b => if bool_decide (x = y) then 1 + common_prefix a b else 0
  | _, _ => 0
  end.
Definition shared_of (prev : option bytes) (e : SegmentEntry) : Z :=
  match prev with Some p => common_prefix p (se_key e) | None => 0 end.

(** [opt.is_none_or(|p| key > p)]. *)
Definition key_above (key : bytes) (p : option bytes) : bool :=
  match p with Some p => bytes_ltb p key | None => true end.
(** [n.is_multiple_of(RESTART_INTERVAL)]. *)
Definition on_cadence (n : Z) : bool := n mod RESTART_INTERVAL =? 0.

(** The encoded size of an entry whose key shares [shared] bytes. *)
Definition entry_len (v3 : bool) (shared : Z) (e : SegmentEntry) : Z :=
  2 + 2 + (zlen (se_key e) - shared) + 4 + zlen (se_value e) + 8 + 1 + (if v3 then 8 else 0).

(* ------------------------------------------------------------------ *)
(** * Publication: block boundaries *)

(** The dry pass of [publish_sorted_entries]. *)
Record DryState : Type := mkDryState {
  dry_len : Z; dry_prev : option bytes; dry_last_restart : option bytes;
  dry_run_head_shared : option Z; dry_start : Z; dry_bounds : list (Z * Z) }.

Definition dry_step (target : Z) (v2 v3 v4 : bool) (st : DryState) (ie : Z * SegmentEntry) : DryState :=
  let '(i, e) := ie in
  let key_changed := key_above (se_key e) (dry_prev st) in
  let est := entry_len v3 (shared_of (dry_prev st) e) e in
  let st :=
    if (0 <? dry_len st) && (target <? dry_len st + est)
    then mkDryState 0 None None None i (dry_bounds st ++ [(dry_start st, i)])
    else st in
  let is_restart := v2 && on_cadence (i - dry_start st) && key_above (se_key e) (dry_last_restart st) in
  let is_dense := v4 && on_cadence (i - dry_start st) in
  let shared := if is_restart || is_dense then 0 else shared_of (dry_prev st) e in
  let run_head_shared := if key_changed then Some shared else dry_run_head_shared st in
  let len := dry_len st + entry_len v3 shared e in
  if is_restart
  then mkDryState (len + default 0 run_head_shared) (Some (se_key e)) (Some (se_key e)) None
         (dry_start st) (dry_bounds st)
  else mkDryState len (Some (se_key e)) (dry_last_restart st) run_head_shared
         (dry_start st) (dry_bounds st).

(** [iter().enumerate()]. *)
Definition enumerate {A} (l : list A) : list (Z * A) := zip (seqZ 0 (zlen l)) l.

Definition block_bounds (w : SegmentWriter) (entries : list SegmentEntry) : list (Z * Z) :=
  let st := fold_left (dry_step (sw_target w) (sw_v2 w) (sw_v3 w) (sw_v4 w))
    (enumerate entries) (mkDryState 0 None None None 0 []) in
  dry_bounds st ++ [(dry_start st, zlen entries)].

(* ------------------------------------------------------------------ *)
(** * Publication: one data block *)

Record BlockState : Type := mkBlockState {
  bs_payload : bytes; bs_restarts : list Z; bs_dense : list Z;
  bs_prev : option bytes; bs_last_restart : option bytes; bs_run_head : option (Z * Z) }.

Definition block_state0 : BlockState := mkBlockState [] [] [] None None None.

(** The entry bytes at the end of the encode loop's body. *)
Definition entry_bytes (v3 : bool) (shared : Z) (e : SegmentEntry) : bytes :=
  le16 (as_u16 shared) ++ le16 (as_u16 (zlen (se_key e) - shared)) ++ zdrop shared (se_key e) ++
  le32 (as_u32 (zlen (se_value e))) ++ se_value e ++ le64 (se_seq e) ++ [byte_of (se_flags e)] ++
  (if v3 then le64 (rid_val (se_rid e)) else []).

(** [payload.splice(a..b, full)]. *)
Definition splice (a b : Z) (full payload : bytes) : bytes :=
  ztake a payload ++ full ++ zdrop b payload.

(** The encode loop's body: [None] is the panic of the [expect] on the run head. *)
Definition encode_step (v2 v3 v4 : bool) (st : BlockState) (ce : Z * SegmentEntry) : option BlockState :=
  let '(count, e) := ce in
  let key := se_key e in
  let key_changed := key_above key (bs_prev st) in
  let is_restart := v2 && on_cadence count && key_above key (bs_last_restart st) in
  let is_dense := v4 && on_cadence count in
  let shared := if is_restart || is_dense then 0 else shared_of (bs_prev st) e in
  let run_head := if key_changed then Some (as_u32 (zlen (bs_payload st)), shared) else bs_run_head st in
  '(payload, restarts, last_restart, run_head) ←
    (if is_restart then
       '(hpos, hshared) ← run_head;
       let payload :=
         if 0 <? hshared then
           splice hpos (hpos + (4 + zlen key - hshared))
             (le16 0 ++ le16 (as_u16 (zlen key)) ++ key) (bs_payload st)
         else bs_payload st in
       Some (payload, bs_restarts st ++ [hpos], Some key, None)
     else Some (bs_payload st, bs_restarts st, bs_last_restart st, run_head));
  let dense := if is_dense then bs_dense st ++ [as_u32 (zlen payload)] else bs_dense st in
  Some (mkBlockState (payload ++ entry_bytes v3 shared e) restarts dense
          (Some key) last_restart run_head).

Fixpoint encode_entries (v2 v3 v4 : bool) (st : BlockState) (l : list (Z * SegmentEntry)) : option BlockState :=
  match l with
  | [] => Some st
  | ce :: l => st ← encode_step v2 v3 v4 st ce; encode_entries v2 v3 v4 st l
  end.

(** The restart table (and the dense table of v4) in front of the entries. *)
Definition block_table (v4 : bool) (st : BlockState) : bytes :=
  let table_prefix :=
    if v4 then 6 + 4 * zlen (bs_restarts st) + 4 + 4 * zlen (bs_dense st)
    else 6 + 4 * zlen (bs_restarts st) in
  let at_ := fun pos => le32 (as_u32 (table_prefix + pos)) in
  le16 RESTART_INTERVAL ++ le32 (as_u32 (zlen (bs_restarts st))) ++
  concat (map at_ (bs_restarts st)) ++
  (if v4 then le32 (as_u32 (zlen (bs_dense st))) ++ concat (map at_ (bs_dense st)) else []).

Definition block_payload (v2 v4 : bool) (st : BlockState) : bytes :=
  if v2 then block_table v4 st ++ bs_payload st else bs_payload st.
Definition data_version (v2 v3 v4 : bool) : Z :=
  if v2 then (if v4 then 4 else if v3 then 3 else 2) else SEGMENT_VERSION.

(** The anchor of every non-zero replica id: its row of highest sequence
    ([HashMap<ReplicaId, SegmentAnchor>]). *)
Abbreviation AnchorMap := (gmap ReplicaId SegmentAnchor).
Definition anchor_step (v3 : bool) (block_id : Z) (anchors : AnchorMap) (ce : Z * SegmentEntry) : AnchorMap :=
  let '(count, e) := ce in
  if v3 && negb (bool_decide (se_rid e = mkReplicaId 0)) then
    let anchor := mkSegmentAnchor (se_rid e) (se_seq e) (as_u32 block_id) (as_u32 count) in
    match anchors !! se_rid e with
    | None => <[se_rid e := anchor]> anchors
    | Some old => if sa_seq old <? se_seq e then <[se_rid e := anchor]> anchors else anchors
    end
  else anchors.

Section Segments.
Context {SHA : Sha256}.

(** [SegmentReader::bloom_hashes] and the probed bits of a key. *)
Definition bloom_hashes (key : bytes) : Z * Z :=
  let d := sha256 key in (le_val (zslice 0 8 d), le_val (zslice 8 16 d)).
Definition bloom_bit (h1 h2 m i : Z) : Z := (h1 + i * h2) mod m.

(** [bits[bit / 8] |= 1 << (bit % 8)] for the four probes of a key. *)
Definition set_bit (bits : bytes) (bit : Z) : bytes :=
  alter (fun b => byte_of (Z.lor (byte_val b) (Z.shiftl 1 (bit mod 8)))) (Z.to_nat (bit / 8)) bits.
Definition bloom_add (m : Z) (bits : bytes) (e : SegmentEntry) : bytes :=
  let '(h1, h2) := bloom_hashes (se_key e) in
  fold_left (fun bits i => set_bit bits (bloom_bit h1 h2 m i)) BLOOM_PROBES bits.

(** [u64::div_ceil(8)]. *)
Definition div_ceil8 (m : Z) : Z := (m + 7) / 8.

(** [encode_block]. *)
Definition encode_block (kind entries : Z) (payload : bytes) (version : Z) : bytes :=
  let out := BLOCK_MAGIC ++ le16 version ++ [byte_of kind] ++ [byte_of 0] ++ le32 entries ++
    le32 (as_u32 (zlen payload)) ++ le32 (as_u32 (zlen payload)) in
  out ++ checksum8 (out ++ payload) ++ payload.

(** The segment header, with its checksum. *)
Definition segment_header (block_count entry_count : Z) (key_min key_max : bytes) (seq_lo seq_hi : Z) : bytes :=
  let header := SEGMENT_MAGIC ++ le16 SEGMENT_VERSION ++ le32 block_count ++ le64 entry_count ++
    le32 (as_u32 (zlen key_min)) ++ key_min ++ le32 (as_u32 (zlen key_max)) ++ key_max ++
    le64 seq_lo ++ le64 seq_hi in
  header ++ checksum8 header.

(** The block loop's state: bytes written, index payload, skeleton, anchors, bloom bits. *)
Record PubState : Type := mkPubState {
  ps_out : bytes; ps_index : bytes; ps_skeleton : bytes;
  ps_anchors : AnchorMap; ps_bits : bytes }.

Definition index_record (first last : bytes) (offset count : Z) : bytes :=
  le16 (as_u16 (zlen first)) ++ first ++ le16 (as_u16 (zlen last)) ++ last ++ le64 offset ++ le32 count.

Definition publish_block (w : SegmentWriter) (m : Z) (entries : list SegmentEntry)
    (ps : PubState) (ib : Z * (Z * Z)) : Result PubState :=
  let '(block_id, (start, end_)) := ib in
  let rows := zslice start end_ entries in
  match encode_entries (sw_v2 w) (sw_v3 w) (sw_v4 w) block_state0 (enumerate rows), rows !! 0%nat, last rows with
  | Some st, Some first, Some last =>
      let count_u32 := as_u32 (end_ - start) in
      let block := encode_block BLOCK_DATA count_u32 (block_payload (sw_v2 w) (sw_v4 w) st)
        (data_version (sw_v2 w) (sw_v3 w) (sw_v4 w)) in
      Ok (mkPubState (ps_out ps ++ block)
            (ps_index ps ++ index_record (se_key first) (se_key last) (zlen (ps_out ps)) count_u32)
            (ps_skeleton ps ++ ztake BLOCK_HEADER_LEN block)
            (fold_left (anchor_step (sw_v3 w) block_id) (enumerate rows) (ps_anchors ps))
            (fold_left (bloom_add m) rows (ps_bits ps)))
  | _, _, _ => Err (Invalid "panic")
  end.

(** The [windows(2)] tests. *)
Definition windows_any (test : SegmentEntry -> SegmentEntry -> bool) (l : list SegmentEntry) : bool :=
  existsb (fun ab => test ab.1 ab.2) (zip l (tail l)).
Definition dup_pair (a b : SegmentEntry) : bool :=
  bytes_eqb (se_key a) (se_key b) && (se_seq a =? se_seq b).
Definition bad_order (a b : SegmentEntry) : bool :=
  bytes_ltb (se_key b) (se_key a) || (bytes_eqb (se_key a) (se_key b) && (se_seq a <? se_seq b)).

Definition min_seq (e0 : SegmentEntry) (l : list SegmentEntry) : Z :=
  fold_left (fun m e => Z.min m (se_seq e)) l (se_seq e0).
Definition max_seq (e0 : SegmentEntry) (l : list SegmentEntry) : Z :=
  fold_left (fun m e => Z.max m (se_seq e)) l (se_seq e0).

(** The footer, over the skeleton written so far. *)
Definition footer_fields (entry_count : Z) : bytes :=
  FOOTER_MAGIC ++ le16 SEGMENT_VERSION ++ le64 entry_count.

(** The end of [publish_sorted_entries], after the data blocks. *)
Definition publish_finish (block_count entry_count m : Z) (ps : PubState) : bytes * (Z * Z * list SegmentAnchor) :=
  let index_block := encode_block BLOCK_INDEX block_count (ps_index ps) SEGMENT_VERSION in
  let bloom_block := encode_block BLOCK_BLOOM (as_u32 entry_count)
    (le32 (as_u32 m) ++ ps_bits ps) SEGMENT_VERSION in
  let skeleton := ps_skeleton ps ++ index_block ++ bloom_block ++ footer_fields entry_count in
  let file := ps_out ps ++ index_block ++ bloom_block ++ footer_fields entry_count ++ checksum8 skeleton in
  (file, (zlen file, le_val (checksum8 file), map snd (map_to_list (ps_anchors ps)))).

(** [publish_sorted_entries]: the published bytes, and (file_size, checksum, anchors). *)
Definition publish_sorted_entries (w : SegmentWriter) (entries : list SegmentEntry)
    : Result (bytes * (Z * Z * list SegmentAnchor)) :=
  if sw_target w =? 0 then Err (Invalid "target block size must be > 0") else
  match entries with
  | [] => Err (Invalid "cannot publish an empty segment")
  | e0 :: _ =>
  if existsb (fun e => U16 - 1 <? zlen (se_key e)) entries
  then Err (Invalid "key length exceeds the format limit") else
  if windows_any dup_pair entries then Err (Invalid "duplicate (key, seq) pair") else
  if windows_any bad_order entries
  then Err (Invalid "entries not in publish order (key asc, seq desc within key)") else
  let entry_count := zlen entries in
  let key_max := se_key (List.last entries e0) in
  let bounds := block_bounds w entries in
  let block_count := as_u32 (zlen bounds) in
  let m := BLOOM_BITS_PER_KEY * entry_count in
  let header := segment_header block_count entry_count (se_key e0) key_max
    (min_seq e0 entries) (max_seq e0 entries) in
  ps ← fold_result (publish_block w m entries)
    (mkPubState header [] header ∅ (repeat x00 (Z.to_nat (div_ceil8 m)))) (enumerate bounds);
  Ok (publish_finish block_count entry_count m ps)
  end.

(** [sort_by(key asc, seq desc)], a stable sort. *)
Definition entry_le (a b : SegmentEntry) : bool :=
  match bytes_compare (se_key a) (se_key b) with
  | Lt => true | Gt => false | Eq => se_seq b <=? se_seq a
  end.
Fixpoint insert_entry (e : SegmentEntry) (l : list SegmentEntry) : list SegmentEntry :=
  match l with
  | [] => [e]
  | x :: l' => if entry_le e x then e :: l else x :: insert_entry e l'
  end.
Definition sort_entries (l : list SegmentEntry) : list SegmentEntry := foldr insert_entry [] l.

(** The in-place reversal of each key's run in [publish_with_anchors_sorted]; [run] is
    the current run, already reversed. *)
Fixpoint reverse_runs (run l : list SegmentEntry) : list SegmentEntry :=
  match l with
  | [] => run
  | e :: l =>
      match run with
      | [] => reverse_runs [e] l
      | h :: _ =>
          if bytes_eqb (se_key e) (se_key h) then reverse_runs (e :: run) l
          else run ++ reverse_runs [e] l
      end
  end.

(** [publish_with_anchors_staged], [publish_with_anchors_sorted],
    [publish_with_anchors_sorted_staged]: the writer's buffer is taken. *)
Definition publish_with_anchors (w : SegmentWriter) :=
  (sw_take w, publish_sorted_entries w (sort_entries (sw_entries w))).
Definition publish_with_anchors_sorted (w : SegmentWriter) :=
  (sw_take w, publish_sorted_entries w (reverse_runs [] (sw_entries w))).
Definition publish_with_anchors_sorted_staged (w : SegmentWriter) :=
  (sw_take w, publish_sorted_entries w (sw_entries w)).

(* ------------------------------------------------------------------ *)
(** * Reader: open *)

(** [struct DataBlock]; the key ranges point into the index payload. *)
Record DataBlock : Type := mkDataBlock {
  db_header : Z; db_payload_len : Z; db_entries : Z; db_v2 : bool; db_v3 : bool; db_v4 : bool;
  db_first : Z * Z; db_last : Z * Z }.

(** [struct SegmentReader]. *)
Record SegmentReader : Type := mkSegmentReader {
  sr_file : bytes; sr_block_count : Z; sr_entry_count : Z; sr_key_min : bytes; sr_key_max : bytes;
  sr_seq_lo : Z; sr_seq_hi : Z; sr_data : list DataBlock; sr_index : bytes; sr_bloom : bytes;
  sr_bloom_m : Z }.

(** [read_segment_at]. *)
Definition read_segment_at (file : bytes) (offset n : Z) : Result bytes :=
  if zlen file - offset <? n then Err (Corrupt "truncated") else Ok (zslice offset (offset + n) file).

(** The state of the block walk of [open_inner]. *)
Record WalkState : Type := mkWalkState {
  wk_data : list DataBlock; wk_headers : bytes; wk_last_kind : option Z;
  wk_index : option (Z * Z); wk_bloom : option (Z * Z) }.

Definition block_header_dec : Dec (bytes * Z * Z * Z * Z * Z * bytes) :=
  magic ← ctake 4; version ← cu16; kind ← cu8; compression ← cu8;
  entries ← cu32; compressed ← cu32; _ ← cu32; stored ← ctake 8;
  mret (magic, version, kind, compression, entries, compressed, stored).

(** One block of the walk, up to the advance past its payload. *)
Definition walk_block (file : bytes) (cur : Z) (st : WalkState) : Result (Z * WalkState) :=
  hdr ← read_segment_at file cur BLOCK_HEADER_LEN;
  '(magic, version, kind, compression, entries, compressed, stored) ← run_dec block_header_dec hdr;
  if negb (slice_eqb magic BLOCK_MAGIC) then Err (Corrupt "block bad magic") else
  if negb (compression =? 0) then Err (Unsupported "block compression") else
  if (BLOCK_BLOOM <? kind) || match wk_last_kind st with Some k => kind <? k | None => false end
  then Err (Corrupt "block types out of order") else
  let in_set := (version =? SEGMENT_VERSION) || ((2 <=? version) && (version <=? 4) && (kind =? BLOCK_DATA)) in
  if negb in_set then
    if version =? 0 then Err (Corrupt "block version 0") else
    payload ← read_segment_at file (cur + BLOCK_HEADER_LEN) compressed;
    if negb (slice_eqb (checksum8 (ztake 20 hdr ++ payload)) stored)
    then Err (Corrupt "block version damaged") else Err (Unsupported "block version")
  else
  if zlen file - (cur + BLOCK_HEADER_LEN) <? compressed then Err (Corrupt "truncated") else
  st' ←
    (if kind =? BLOCK_DATA then
       if compressed / MIN_ENTRY_LEN <? entries then Err (Corrupt "entries cannot fit") else
       Ok (mkWalkState
             (wk_data st ++ [mkDataBlock cur compressed entries
                ((version =? 2) || (version =? 3) || (version =? 4))
                ((version =? 3) || (version =? 4)) (version =? 4) (0, 0) (0, 0)])
             (wk_headers st ++ hdr) (Some kind) (wk_index st) (wk_bloom st))
     else if kind =? BLOCK_INDEX then
       match wk_index st with
       | Some _ => Err (Corrupt "two index blocks")
       | None => Ok (mkWalkState (wk_data st) (wk_headers st) (Some kind) (Some (cur, compressed)) (wk_bloom st))
       end
     else
       match wk_bloom st with
       | Some _ => Err (Corrupt "two bloom blocks")
       | None => Ok (mkWalkState (wk_data st) (wk_headers st) (Some kind) (wk_index st) (Some (cur, compressed)))
       end);
  Ok (cur + BLOCK_HEADER_LEN + compressed, st').

(** The walk until the footer magic.  Every block is at least [BLOCK_HEADER_LEN] bytes,
    so [length file] iterations reach the end of the file. *)
Fixpoint walk_blocks (fuel : nat) (file : bytes) (cur : Z) (st : WalkState) : Result (Z * WalkState) :=
  match fuel with
  | O => Err (Corrupt "truncated")
  | S fuel =>
      let remaining := zlen file - cur in
      footer ← (if 4 <=? remaining then b ← read_segment_at file cur 4; Ok (slice_eqb b FOOTER_MAGIC)
                else Ok false);
      if (footer : bool) then Ok (cur, st) else
      if remaining <? BLOCK_HEADER_LEN then Err (Corrupt "truncated: need a block or footer") else
      '(cur, st) ← walk_block file cur st;
      walk_blocks fuel file cur st
  end.

(** The index payload: key ranges, offsets and counts checked against the walk. *)
Definition cpos : Dec Z := c ← dget; mret (cur_pos c).
Fixpoint parse_index (data : list DataBlock) (total : Z) : Dec (list DataBlock * Z) :=
  match data with
  | [] => mret ([], total)
  | db :: data =>
      len ← cu16; start ← cpos; _ ← ctake len; fin ← cpos;
      len' ← cu16; start' ← cpos; _ ← ctake len'; fin' ← cpos;
      offset ← cu64; count ← cu32;
      _ ← dguard (negb (offset =? db_header db)) (Corrupt "index block offset mismatch");
      _ ← dguard (negb (count =? db_entries db)) (Corrupt "index entry count mismatch");
      '(rest, total) ← parse_index data (total + count);
      mret (mkDataBlock (db_header db) (db_payload_len db) (db_entries db) (db_v2 db) (db_v3 db)
              (db_v4 db) (start, fin) (start', fin') :: rest, total)
  end.

(** The header of [open_inner]: its bytes and its fields. *)
Definition open_header (file : bytes) : Result (bytes * (Z * Z * bytes * bytes * Z * Z)) :=
  prefix ← read_segment_at file 0 22;
  if negb (slice_eqb (ztake 4 prefix) SEGMENT_MAGIC) then Err (Corrupt "segment bad magic") else
  let version := le_val (zslice 4 6 prefix) in
  if negb (version =? SEGMENT_VERSION) then
    if 54 <=? zlen file then
      head ← read_segment_at file 0 54;
      if slice_eqb (checksum8 (ztake 46 head)) (zslice 46 54 head)
      then Err (Unsupported "segment format version") else Err (Corrupt "segment version damaged")
    else Err (Corrupt "segment version damaged")
  else
  let block_count := le_val (zslice 6 10 prefix) in
  let entry_count := le_val (zslice 10 18 prefix) in
  let key_min_len := le_val (zslice 18 22 prefix) in
  key_min ← read_segment_at file 22 key_min_len;
  let header := prefix ++ key_min in
  key_max_len_b ← read_segment_at file (zlen header) 4;
  let key_max_len := le_val key_max_len_b in
  let header := header ++ key_max_len_b in
  key_max ← read_segment_at file (zlen header) key_max_len;
  let header := header ++ key_max in
  tail ← read_segment_at file (zlen header) 24;
  let seq_lo := le_val (zslice 0 8 tail) in
  let seq_hi := le_val (zslice 8 16 tail) in
  let stored := zslice 16 24 tail in
  let header := header ++ ztake 16 tail ++ stored in
  if negb (slice_eqb (checksum8 (ztake (zlen header - 8) header)) stored)
  then Err (Corrupt "segment header checksum mismatch") else
  if seq_hi <? seq_lo then Err (Corrupt "seq_lo > seq_hi") else
  Ok (header, (block_count, entry_count, key_min, key_max, seq_lo, seq_hi)).

(** [open_inner] after the block walk: the footer, the index and bloom payloads, and the
    skeleton checksum. *)
Definition open_tail (file header : bytes) (fields : Z * Z * bytes * bytes * Z * Z)
    (footer_start : Z) (st : WalkState) : Result SegmentReader :=
  let '(block_count, entry_count, key_min, key_max, seq_lo, seq_hi) := fields in
  if negb (zlen file - footer_start =? FOOTER_LEN) then Err (Corrupt "footer must be exactly at the end") else
  footer ← read_segment_at file footer_start FOOTER_LEN;
  if negb (slice_eqb (ztake 4 footer) FOOTER_MAGIC) then Err (Corrupt "footer bad magic") else
  if negb (le_val (zslice 4 6 footer) =? SEGMENT_VERSION) then Err (Corrupt "footer version") else
  if negb (le_val (zslice 6 14 footer) =? entry_count) then Err (Corrupt "footer entry_count mismatch") else
  match wk_index st, wk_bloom st with
  | None, _ => Err (Corrupt "missing index block")
  | _, None => Err (Corrupt "missing bloom block")
  | Some (index_header, index_len), Some (bloom_header, bloom_len) =>
  if match wk_data st with [] => true | _ => false end || negb (zlen (wk_data st) =? block_count)
  then Err (Corrupt "data block count mismatch") else
  index ← read_segment_at file (index_header + BLOCK_HEADER_LEN) index_len;
  bloom ← read_segment_at file (bloom_header + BLOCK_HEADER_LEN) bloom_len;
  '(data, total, icur) ← run_dec ('(data, total) ← parse_index (wk_data st) 0;
                                  c ← dget; mret (data, total, c)) index;
  if negb (is_empty icur) then Err (Corrupt "index trailing bytes") else
  if negb (total =? entry_count) then Err (Corrupt "entry total mismatch") else
  '(bloom_m, bleft) ← run_dec (m ← cu32; c ← dget; mret (m, c)) bloom;
  if negb (as_u32 (remaining bleft) =? div_ceil8 bloom_m) then Err (Corrupt "bloom size") else
  idx_entries ← read_segment_at file (index_header + 8) 4;
  if negb (le_val idx_entries =? block_count) then Err (Corrupt "index block entry count mismatch") else
  blm_entries ← read_segment_at file (bloom_header + 8) 4;
  if negb (le_val blm_entries =? entry_count) then Err (Corrupt "bloom block entry count mismatch") else
  span ← read_segment_at file index_header (bloom_header + BLOCK_HEADER_LEN + bloom_len - index_header);
  let skeleton := header ++ wk_headers st ++ span ++ ztake 14 footer in
  if negb (slice_eqb (checksum8 skeleton) (zdrop 14 footer))
  then Err (Corrupt "footer skeleton checksum mismatch") else
  Ok (mkSegmentReader file block_count entry_count key_min key_max seq_lo seq_hi data index bloom bloom_m)
  end.

(** [open_inner]. *)
Definition open_segment (file : bytes) : Result SegmentReader :=
  '(header, fields) ← open_header file;
  '(footer_start, st) ← walk_blocks (S (length file)) file (zlen header) (mkWalkState [] [] None None None);
  open_tail file header fields footer_start st.

(* ------------------------------------------------------------------ *)
(** * Reader: blocks *)

(** [block_key]: a key range of the index payload. *)
Definition block_key (r : SegmentReader) (rg : Z * Z) : bytes := zslice rg.1 rg.2 (sr_index r).

(** [slice::partition_point]: the number of leading elements satisfying the predicate. *)
Fixpoint partition_point_by {A} (p : A -> bool) (l : list A) : nat :=
  match l with
  | [] => 0
  | x :: l => if p x then S (partition_point_by p l) else 0
  end.

(** [locate]. *)
Definition locate (r : SegmentReader) (key : bytes) : option nat :=
  let i := partition_point_by (fun b => bytes_ltb (block_key r (db_last b)) key) (sr_data r) in
  b ← sr_data r !! i;
  if bytes_leb (block_key r (db_first b)) key then Some i else None.

(** [block_raw]: the block's bytes, checksum-validated. *)
Definition block_raw (r : SegmentReader) (b : DataBlock) : Result bytes :=
  raw ← read_segment_at (sr_file r) (db_header b) (BLOCK_HEADER_LEN + db_payload_len b);
  if negb (slice_eqb (checksum8 (ztake 20 raw ++ zdrop BLOCK_HEADER_LEN raw)) (zslice 20 28 raw))
  then Err (Corrupt "data block checksum mismatch") else Ok raw.

(** The restart count and the position of the first entry, after both tables. *)
Definition table_bounds (v4 : bool) (payload : bytes) : Result (Z * Z) :=
  restarts ← run_dec (_ ← cu16; cu32) payload;
  let table_len := 6 + 4 * restarts in
  if zlen payload <? table_len then Err (Corrupt "v2 restart table exceeds payload") else
  if v4 then
    if zlen payload <? table_len + 4 then Err (Corrupt "v4 table exceeds payload") else
    let dense := le_val (zslice table_len (table_len + 4) payload) in
    let table_len := table_len + 4 + 4 * dense in
    if zlen payload <? table_len then Err (Corrupt "v4 dense table exceeds payload") else
    Ok (restarts, table_len)
  else Ok (restarts, table_len).

(** The entry decoder shared by the full decode and the windowed decode: the key chains
    on the previous one. *)
Definition entry_key_dec (base : bytes) : Dec bytes :=
  shared ← cu16;
  _ ← dguard (zlen base <? shared) (Corrupt "entry shared prefix exceeds previous key");
  suffix_len ← cu16; suffix ← ctake suffix_len;
  mret (ztake shared base ++ suffix).
Definition rid_dec (v3 : bool) : Dec ReplicaId :=
  if v3 then r ← cu64; mret (mkReplicaId r) else mret (mkReplicaId 0).
Definition entry_body_dec (v3 : bool) (key : bytes) : Dec SegmentEntry :=
  value ← cvec; seq ← cu64; flags ← cu8; rid ← rid_dec v3;
  mret (mkSegmentEntry key value seq flags rid).
(** [skip_entry_body]. *)
Definition skip_entry_body (v3 : bool) : Dec unit :=
  value_len ← cu32; _ ← ctake value_len; _ ← cu64; _ ← cu8;
  if v3 then _ ← cu64; mret tt else mret tt.

(** The decode loop of [block_entries]. *)
Fixpoint decode_entries (v3 : bool) (n : nat) (base : bytes) : Dec (list SegmentEntry) :=
  match n with
  | O => mret []
  | S n =>
      key ← entry_key_dec base;
      e ← entry_body_dec v3 key;
      rest ← decode_entries v3 n key;
      mret (e :: rest)
  end.

(** [block_entries], on a validated block. *)
Definition payload_entries (b : DataBlock) (payload : bytes) : Result (list SegmentEntry) :=
  start ← (if db_v2 b then '(_, table_len) ← table_bounds (db_v4 b) payload; Ok table_len else Ok 0);
  '(out, cur) ← run_dec (l ← decode_entries (db_v3 b) (Z.to_nat (db_entries b)) []; c ← dget; mret (l, c))
    (zdrop start payload);
  if negb (is_empty cur) then Err (Corrupt "data block trailing bytes") else Ok out.
Definition block_entries (r : SegmentReader) (b : DataBlock) : Result (list SegmentEntry) :=
  raw ← block_raw r b; payload_entries b (zdrop BLOCK_HEADER_LEN raw).

(** [restart_key]. *)
Definition restart_key (payload : bytes) (o : Z) : Result bytes :=
  run_dec (shared ← cu16;
           _ ← dguard (negb (shared =? 0)) (Corrupt "restart entry has shared prefix");
           len ← cu16; ctake len) (zdrop o payload).

(** [struct RestartIndex] and [RestartIndex::key]: the keys in one blob. *)
Record RestartIndex : Type := mkRestartIndex { blk_offs : list Z; key_offs : list Z; keys : bytes }.
Definition restart_index_key (idx : RestartIndex) (i : nat) : bytes :=
  zslice (nth i (key_offs idx) 0) (nth (S i) (key_offs idx) 0) (keys idx).

(** [offs[j * 4..j * 4 + 4]]. *)
Definition off_at (offs : bytes) (j : Z) : Z := le_val (zslice (j * 4) (j * 4 + 4) offs).

(** [RestartIndex::parse]. *)
Definition parse_restart (payload : bytes) (table_len : Z) (offs : bytes)
    (st : RestartIndex * option bytes) (j : Z) : Result (RestartIndex * option bytes) :=
  let '(idx, prev) := st in
  let o := off_at offs j in
  if (o <? table_len) || (zlen payload <=? o) then Err (Corrupt "restart offset outside payload") else
  k ← restart_key payload o;
  if match prev with Some p => bytes_leb k p | None => false end
  then Err (Corrupt "restart keys not strictly increasing") else
  Ok (mkRestartIndex (blk_offs idx ++ [as_u32 o]) (key_offs idx ++ [as_u32 (zlen (keys idx))])
        (keys idx ++ k), Some k).
Definition restart_index_parse (offs payload : bytes) (table_len : Z) : Result RestartIndex :=
  let restarts := zlen offs / 4 in
  '(idx, _) ← fold_result (parse_restart payload table_len offs)
    (mkRestartIndex [] [] [], None) (seqZ 0 restarts);
  Ok (mkRestartIndex (blk_offs idx) (key_offs idx ++ [as_u32 (zlen (keys idx))]) (keys idx)).

(** The binary search of [block_get_v2]: [while lo < hi].  The gap halves, so [n + 1]
    rounds are enough. *)
Fixpoint restart_search (fuel : nat) (idx : RestartIndex) (key : bytes) (lo hi : nat) : nat :=
  match fuel with
  | O => lo
  | S fuel =>
      if (lo <? hi)%nat then
        let mid := ((lo + hi) / 2)%nat in
        if bytes_leb (restart_index_key idx mid) key
        then restart_search fuel idx key (S mid) hi
        else restart_search fuel idx key lo mid
      else lo
  end.

(** The interval scan of [block_get_v2]: [while !cur.is_empty()].  An entry is at least
    one byte, so the slice's length bounds the rounds. *)
Fixpoint interval_scan (fuel : nat) (v3 : bool) (key : bytes) (rid : option ReplicaId) (scratch : bytes)
    : Dec (option SegmentEntry) :=
  match fuel with
  | O => mret None
  | S fuel =>
      c ← dget;
      if is_empty c then mret None else
      scratch ← entry_key_dec scratch;
      if bytes_eqb scratch key then
        e ← entry_body_dec v3 scratch;
        if match rid with Some r => bool_decide (se_rid e = r) | None => true end
        then mret (Some e) else interval_scan fuel v3 key rid scratch
      else if bytes_ltb key scratch then mret None
      else _ ← skip_entry_body v3; interval_scan fuel v3 key rid scratch
  end.

(** [block_get_v2]. *)
Definition block_get_v2 (b : DataBlock) (key payload : bytes) (rid : option ReplicaId)
    : Result (option SegmentEntry) :=
  '(restarts, table_len) ← table_bounds (db_v4 b) payload;
  idx ← restart_index_parse (zslice 6 (6 + 4 * restarts) payload) payload table_len;
  let n := length (blk_offs idx) in
  match restart_search (S n) idx key 0 n with
  | O => Ok None
  | S r =>
      let start := nth r (blk_offs idx) 0 in
      let end_ := if (S r <? n)%nat then nth (S r) (blk_offs idx) 0 else zlen payload in
      let slice := zslice start end_ payload in
      run_dec (interval_scan (S (length slice)) (db_v3 b) key rid []) slice
  end.

(** [block_get]. *)
Definition block_get (r : SegmentReader) (b : DataBlock) (key : bytes) : Result (option SegmentEntry) :=
  if negb (db_v2 b) then
    es ← block_entries r b; Ok (List.find (fun e => bytes_eqb (se_key e) key) es)
  else
    raw ← block_raw r b;
    block_get_v2 b key (zdrop BLOCK_HEADER_LEN raw) (Some (mkReplicaId 0)).

(** [SegmentReader::get]. *)
Definition seg_get (r : SegmentReader) (key : bytes) : Result (option SegmentEntry) :=
  match locate r key with
  | None => Ok None
  | Some i => match sr_data r !! i with Some b => block_get r b key | None => Ok None end
  end.

(** [get_by_rid]: falls through to the next block while the key's run continues. *)
Fixpoint rid_walk (r : SegmentReader) (key : bytes) (rid : ReplicaId) (data : list DataBlock)
    : Result (option SegmentEntry) :=
  match data with
  | [] => Ok None
  | b :: data =>
      let run_spills := bytes_eqb (block_key r (db_last b)) key &&
        match data with [] => false | _ => true end in
      out ← (if db_v3 b then
               raw ← block_raw r b;
               block_get_v2 b key (zdrop BLOCK_HEADER_LEN raw) (Some rid)
             else Ok None);
      match out with
      | Some e => Ok (Some e)
      | None => if run_spills then rid_walk r key rid data else Ok None
      end
  end.
Definition seg_get_by_rid (r : SegmentReader) (key : bytes) (rid : ReplicaId) : Result (option SegmentEntry) :=
  match locate r key with
  | None => Ok None
  | Some i => rid_walk r key rid (drop i (sr_data r))
  end.

(** [SegmentReader::versions]. *)
Fixpoint versions_walk (r : SegmentReader) (key : bytes) (data : list DataBlock) : Result (list SegmentEntry) :=
  match data with
  | [] => Ok []
  | b :: data =>
      if bytes_leb (block_key r (db_first b)) key then
        es ← block_entries r b;
        rest ← versions_walk r key data;
        Ok (List.filter (fun e => bytes_eqb (se_key e) key) es ++ rest)
      else Ok []
  end.
Definition seg_versions (r : SegmentReader) (key : bytes) : Result (list SegmentEntry) :=
  match locate r key with
  | None => Ok []
  | Some i => versions_walk r key (drop i (sr_data r))
  end.

(** [SegmentReader::scan] over [[start, end)]. *)
Fixpoint scan_walk (r : SegmentReader) (start end_ : bytes) (data : list DataBlock) : Result (list SegmentEntry) :=
  match data with
  | [] => Ok []
  | b :: data =>
      if bytes_leb end_ (block_key r (db_first b)) then Ok [] else
      es ← block_entries r b;
      rest ← scan_walk r start end_ data;
      Ok (List.filter (fun e => bytes_leb start (se_key e) && bytes_ltb (se_key e) end_) es ++ rest)
  end.
Definition seg_scan (r : SegmentReader) (start end_ : bytes) : Result (list SegmentEntry) :=
  scan_walk r start end_
    (drop (partition_point_by (fun b => bytes_ltb (block_key r (db_last b)) start) (sr_data r)) (sr_data r)).

(** [bloom_may_contain_hashes], [bloom_may_contain]. *)
Definition bloom_may_contain_hashes (r : SegmentReader) (h1 h2 : Z) : bool :=
  let bits := zdrop 4 (sr_bloom r) in
  forallb (fun i =>
    let bit := bloom_bit h1 h2 (sr_bloom_m r) i in
    match bits !! Z.to_nat (bit / 8) with
    | Some b => negb (Z.land (byte_val b) (Z.shiftl 1 (bit mod 8)) =? 0)
    | None => false
    end) BLOOM_PROBES.
Definition bloom_may_contain (r : SegmentReader) (key : bytes) : bool :=
  let '(h1, h2) := bloom_hashes key in bloom_may_contain_hashes r h1 h2.

(** [entry_at]. *)
Definition entry_at (r : SegmentReader) (block_id entry_offset : Z) : Result (option SegmentEntry) :=
  match sr_data r !! Z.to_nat block_id with
  | None => Ok None
  | Some b => es ← block_entries r b; Ok (es !! Z.to_nat entry_offset)
  end.

(** [get_entry_at]: the dense table, as its count, the end of the tables, and its offsets. *)
Definition dense_table (payload : bytes) : Result (Z * Z * bytes) :=
  restarts ← run_dec (_ ← cu16; cu32) payload;
  let table_len := 6 + 4 * restarts in
  if zlen payload <? table_len + 4 then Err (Corrupt "v4 table exceeds payload") else
  let dense := le_val (zslice table_len (table_len + 4) payload) in
  let table_len := table_len + 4 + 4 * dense in
  if zlen payload <? table_len then Err (Corrupt "v4 dense table exceeds payload") else
  Ok (dense, table_len, zslice (6 + 4 * restarts + 4) table_len payload).

(** The window decode of [get_entry_at]: the entry at a block-local index. *)
Definition dense_entry (payload : bytes) (entry_index : Z) : Result (option SegmentEntry) :=
  '(dense, table_len, offs) ← dense_table payload;
  let cadence := entry_index / RESTART_INTERVAL in
  if dense <=? cadence then Ok None else
  let start := off_at offs cadence in
  let end_ := if cadence + 1 <? dense then off_at offs (cadence + 1) else zlen payload in
  if (start <? table_len) || (end_ <=? start) || (zlen payload <? end_)
  then Err (Corrupt "v4 dense window outside payload") else
  let target := entry_index mod RESTART_INTERVAL in
  es ← run_dec (decode_entries true (S (Z.to_nat target)) []) (zslice start end_ payload);
  match last es with
  | None => Err (Corrupt "v4 cadence window ended before the indexed entry")
  | Some e => Ok (Some e)
  end.

(** [get_entry_at]: the placement-direct read. *)
Definition get_entry_at (r : SegmentReader) (key : bytes) (rid : ReplicaId) (block_id entry_index : Z)
    : Result (option SegmentEntry) :=
  match sr_data r !! Z.to_nat block_id with
  | None => Ok None
  | Some b =>
  if negb (db_v4 b) then Ok None else
  if bytes_ltb key (block_key r (db_first b)) || bytes_ltb (block_key r (db_last b)) key then Ok None else
  raw ← block_raw r b;
  found ← dense_entry (zdrop BLOCK_HEADER_LEN raw) entry_index;
  match found with
  | None => Ok None
  | Some e =>
      if negb (bytes_eqb (se_key e) key) || negb (bool_decide (se_rid e = rid)) then Ok None else Ok (Some e)
  end
  end.

(** [SegmentIter], drained: every entry in file order, or the first block error. *)
Definition seg_iter (r : SegmentReader) : Result (list SegmentEntry) :=
  bs ← collect_result (block_entries r) (sr_data r); Ok (concat bs).

End Segments.
