(* ===== verification/SegmentBlock.v ===== *)
(** The theory of one data block of a segment: entries as prefix-compressed records, the
    invariant of the encode loop with its run-head splice, and the correctness of the full
    decode, of the restart-table lookup and of the dense window against the rows. *)

From S2P Require Import Prelude Cursor Format Identity Segment.

(** A record of the payload: the shared prefix length it is encoded with, and the row. *)
Abbreviation rec := (Z * SegmentEntry)%type.

Definition entry_wf (e : SegmentEntry) : Prop :=
  zlen (se_key e) < U16 /\ zlen (se_value e) < U32 /\ is_u64 (se_seq e) /\ is_u8 (se_flags e) /\
  rid_wf (se_rid e).

(** What a block format persists of a row: v1 and v2 blocks drop the replica id. *)
Definition persisted (v3 : bool) (e : SegmentEntry) : SegmentEntry :=
  if v3 then e else mkSegmentEntry (se_key e) (se_value e) (se_seq e) (se_flags e) (mkReplicaId 0).

Definition rec_ok (base : bytes) (x : rec) : Prop :=
  0 <= x.1 <= zlen base /\ x.1 <= zlen (se_key x.2) /\ ztake x.1 base = ztake x.1 (se_key x.2).
Fixpoint recs_ok (base : bytes) (l : list rec) : Prop :=
  match l with [] => True | x :: l => rec_ok base x /\ recs_ok (se_key x.2) l end.

Definition enc (v3 : bool) (l : list rec) : bytes := concat (map (fun x => entry_bytes v3 x.1 x.2) l).
(** The payload position of record [i]. *)
Definition off (v3 : bool) (l : list rec) (i : nat) : Z := zlen (enc v3 (take i l)).

(** An upper bound of the payload: every key in full. *)
Fixpoint full_size (v3 : bool) (l : list SegmentEntry) : Z :=
  match l with [] => 0 | e :: l => entry_len v3 0 e + full_size v3 l end.

(* ------------------------------------------------------------------ *)
(** * Keys in byte order *)

Lemma key_above_spec key p :
  key_above key p = true <-> match p with Some q => bytes_lt q key | None => True end.
Proof. destruct p; cbn; [apply bytes_ltb_lt | done]. Qed.

Lemma common_prefix_spec a b :
  0 <= common_prefix a b /\ common_prefix a b <= zlen a /\ common_prefix a b <= zlen b /\
  ztake (common_prefix a b) a = ztake (common_prefix a b) b.
Proof.
  revert b. induction a as [|x a IH]; intros [|y b]; cbn [common_prefix];
    rewrite ?zlen_cons, ?zlen_nil; try (split_and!; zlen_solve; done).
  pose proof (zlen_nonneg a). pose proof (zlen_nonneg b).
  destruct (bool_decide (x = y)) eqn:E; bool_to_prop; [|split_and!; try lia; done]. subst y.
  destruct (IH b) as (H1 & H2 & H3 & H4). split_and!; try lia. unfold ztake in *.
  replace (Z.to_nat (1 + common_prefix a b)) with (S (Z.to_nat (common_prefix a b))) by lia.
  cbn [take]. by rewrite H4.
Qed.

(* ------------------------------------------------------------------ *)
(** * Record codec *)

(** The two halves of an encoded entry. *)
Definition key_part (x : rec) : bytes :=
  le16 (as_u16 x.1) ++ le16 (as_u16 (zlen (se_key x.2) - x.1)) ++ zdrop x.1 (se_key x.2).
Definition body_part (v3 : bool) (e : SegmentEntry) : bytes :=
  le32 (as_u32 (zlen (se_value e))) ++ se_value e ++ le64 (se_seq e) ++ [byte_of (se_flags e)] ++
  (if v3 then le64 (rid_val (se_rid e)) else []).

Lemma entry_bytes_split v3 s e : entry_bytes v3 s e = key_part (s, e) ++ body_part v3 e.
Proof. unfold entry_bytes, key_part, body_part. by rewrite <-!app_assoc. Qed.

Lemma entry_bytes_len v3 s e :
  0 <= s <= zlen (se_key e) -> zlen (entry_bytes v3 s e) = entry_len v3 s e.
Proof.
  intros H. unfold entry_bytes, entry_len. autorewrite with zlen. rewrite zlen_zdrop by lia.
  destruct v3; autorewrite with zlen; lia.
Qed.

Lemma reads_entry_key base x r :
  rec_ok base x -> zlen (se_key x.2) < U16 -> reads (entry_key_dec base) (key_part x) r (se_key x.2).
Proof.
  destruct x as [s e]. unfold rec_ok, key_part. cbn [fst snd]. intros (H1 & H2 & H3) Hk.
  pose proof (zlen_nonneg (se_key e)).
  rewrite !as_u16_small by (unfold is_u16; lia). unfold entry_key_dec.
  eapply reads_bind; [apply reads_u16; unfold is_u16; lia|].
  eapply reads_bind0; [apply reads_guard; apply Z.ltb_ge; lia|].
  eapply reads_bind; [apply reads_u16; unfold is_u16; lia|].
  eapply reads_map; [apply reads_take; rewrite zlen_zdrop by lia; done|].
  rewrite H3, ztake_zdrop. apply reads_ret.
Qed.

Lemma persisted_eq (v3 : bool) e :
  mkSegmentEntry (se_key e) (se_value e) (se_seq e) (se_flags e)
    (if v3 then mkReplicaId (rid_val (se_rid e)) else mkReplicaId 0) = persisted v3 e.
Proof. destruct e as [? ? ? ? [r]], v3; done. Qed.

Lemma reads_entry_body v3 e r :
  entry_wf e -> reads (entry_body_dec v3 (se_key e)) (body_part v3 e) r (persisted v3 e).
Proof.
  intros (Hk & Hv & Hs & Hf & Hr). unfold entry_body_dec, body_part.
  rewrite as_u32_small by (split; [apply zlen_nonneg | done]). rewrite app_assoc.
  eapply reads_bind; [apply reads_vec; split; [apply zlen_nonneg | done]|].
  reads_field. reads_field. rewrite <-persisted_eq.
  eapply reads_map with (a := if v3 then mkReplicaId (rid_val (se_rid e)) else mkReplicaId 0);
    [|apply reads_ret].
  unfold rid_dec. destruct v3; [|apply reads_ret]. eapply reads_map; [by apply reads_u64 | apply reads_ret].
Qed.

Lemma reads_skip_body v3 e r : entry_wf e -> reads (skip_entry_body v3) (body_part v3 e) r tt.
Proof.
  intros (Hk & Hv & Hs & Hf & Hr). unfold skip_entry_body, body_part.
  rewrite as_u32_small by (split; [apply zlen_nonneg | done]).
  eapply reads_bind; [apply reads_u32; split; [apply zlen_nonneg | done]|].
  eapply reads_bind; [by apply reads_take|]. reads_field. reads_field.
  destruct v3; [|apply reads_ret]. eapply reads_map; [by apply reads_u64 | apply reads_ret].
Qed.

Lemma enc_cons v3 x l : enc v3 (x :: l) = key_part x ++ body_part v3 x.2 ++ enc v3 l.
Proof. unfold enc. cbn [map concat]. destruct x as [s e]. by rewrite entry_bytes_split, <-app_assoc. Qed.
Lemma enc_app v3 l k : enc v3 (l ++ k) = enc v3 l ++ enc v3 k.
Proof. unfold enc. by rewrite map_app, concat_app. Qed.

(** The full decode reads back the rows. *)
Lemma reads_entries v3 base l r :
  recs_ok base l -> Forall entry_wf (map snd l) ->
  reads (decode_entries v3 (length l) base) (enc v3 l) r (map (persisted v3) (map snd l)).
Proof.
  revert base. induction l as [|x l IH]; intros base Hok Hwf; cbn [length decode_entries map]; [apply reads_ret|].
  destruct Hok as [Hx Hok]. cbn [map] in Hwf. apply Forall_cons_1 in Hwf as [Hw Hwf]. rewrite enc_cons.
  eapply reads_bind; [apply reads_entry_key; [done | apply Hw]|].
  eapply reads_bind; [by apply reads_entry_body|].
  eapply reads_map; [by apply IH | apply reads_ret].
Qed.

Lemma recs_ok_app base l k :
  recs_ok base (l ++ k) <->
  recs_ok base l /\ recs_ok (match last l with Some x => se_key x.2 | None => base end) k.
Proof.
  revert base. induction l as [|x l IH]; intros base; cbn [app recs_ok]; [cbn; tauto|].
  rewrite IH, last_cons. destruct (last l); tauto.
Qed.

(** A record with its full key chains on anything. *)
Lemma rec_ok_0 base e : rec_ok base (0, e).
Proof. unfold rec_ok. cbn. pose proof (zlen_nonneg base). pose proof (zlen_nonneg (se_key e)). auto with lia. Qed.

Lemma recs_ok_drop base l i x :
  recs_ok base l -> l !! i = Some x -> x.1 = 0 -> forall base', recs_ok base' (drop i l).
Proof.
  intros Hok Hi Hx base'. rewrite <-(take_drop i l) in Hok. apply recs_ok_app in Hok as [_ Hok].
  rewrite (drop_S _ _ _ Hi) in *. cbn [recs_ok] in *. split; [|apply Hok].
  destruct x as [s e]. cbn in Hx. subst s. apply rec_ok_0.
Qed.

Lemma recs_ok_len base l : recs_ok base l -> Forall (fun x => 0 <= x.1 <= zlen (se_key x.2)) l.
Proof.
  revert base. induction l as [|x l IH]; intros base; cbn; [constructor|].
  intros [(? & ? & ?) Hl]. constructor; [lia | by eapply IH].
Qed.

Lemma enc_size v3 base l : recs_ok base l -> 0 <= zlen (enc v3 l) <= full_size v3 (map snd l).
Proof.
  intros H%recs_ok_len. induction H as [|[s e] l Hx _ IH]; [done|]. cbn [map full_size]. cbn in Hx.
  unfold enc in *. cbn [map concat]. rewrite zlen_app, entry_bytes_len by (cbn; lia). cbn [fst snd].
  unfold entry_len in *. pose proof (zlen_nonneg (se_value e)). destruct v3; lia.
Qed.

(* ------------------------------------------------------------------ *)
(** * Positions *)

Lemma off_app v3 l k i : (i <= length l)%nat -> off v3 (l ++ k) i = off v3 l i.
Proof. intros H. unfold off. by rewrite take_app_le. Qed.
Lemma off_length v3 l : off v3 l (length l) = zlen (enc v3 l).
Proof. unfold off. by rewrite firstn_all. Qed.
Lemma off_insert v3 l h x i : (i <= h)%nat -> off v3 (<[h := x]> l) i = off v3 l i.
Proof. intros H. unfold off. by rewrite take_insert_ge. Qed.
Lemma off_drop v3 l i : zdrop (off v3 l i) (enc v3 l) = enc v3 (drop i l).
Proof.
  rewrite <-(take_drop i l) at 2. rewrite enc_app. by rewrite zdrop_app.
Qed.
Lemma off_slice v3 l i j :
  (i <= j)%nat -> zslice (off v3 l i) (off v3 l j) (enc v3 l) = enc v3 (take (j - i) (drop i l)).
Proof.
  intros H. unfold zslice. rewrite off_drop.
  assert (off v3 l j - off v3 l i = zlen (enc v3 (take (j - i) (drop i l)))) as ->.
  { unfold off. replace (take j l) with (take i l ++ take (j - i) (drop i l)).
    - rewrite enc_app, zlen_app. lia.
    - rewrite take_take_drop. f_equal. lia. }
  rewrite <-(take_drop (j - i) (drop i l)) at 2. rewrite enc_app. by apply ztake_app.
Qed.
Lemma off_mono v3 l i j : (i <= j)%nat -> off v3 l i <= off v3 l j.
Proof.
  intros H. unfold off. rewrite <-(take_drop i (take j l)), take_take, enc_app, zlen_app.
  replace (i `min` j)%nat with i by lia. pose proof (zlen_nonneg (enc v3 (drop i (take j l)))). lia.
Qed.
Lemma off_nonneg v3 l i : 0 <= off v3 l i.
Proof. apply zlen_nonneg. Qed.
Lemma off_lt v3 base l i : recs_ok base l -> (i < length l)%nat -> off v3 l i < zlen (enc v3 l).
Proof.
  intros Hok Hi. destruct (lookup_lt_is_Some_2 l i Hi) as [x Hx].
  rewrite <-(take_drop i l) at 2. rewrite enc_app, zlen_app. fold (off v3 l i).
  rewrite (drop_S _ _ _ Hx), enc_cons. unfold key_part. autorewrite with zlen. zlen_solve.
Qed.

(* ------------------------------------------------------------------ *)
(** * The invariant of the encode loop *)

(** Record [i] opens a key run: every earlier key is smaller. *)
Definition run_start (l : list rec) (i : nat) : Prop :=
  forall x, l !! i = Some x -> forall j y, (j < i)%nat -> l !! j = Some y -> bytes_lt (se_key y.2) (se_key x.2).
Definition full_key (l : list rec) (i : nat) : Prop := exists e, l !! i = Some (0, e).

(** The cadence points below [n]. *)
Definition dense_points (v4 : bool) (n : nat) : list nat :=
  if v4 then List.filter (fun i => on_cadence (Z.of_nat i)) (seq 0 n) else [].

Section Encode.
Context (v2 v3 v4 : bool).
Implicit Types (l k : list rec) (e : SegmentEntry) (st : BlockState) (i h : nat) (s : Z).

Definition head_inv (st : BlockState) (l : list rec) (ridx : list nat) : Prop :=
  match bs_run_head st with
  | Some (hpos, hs) =>
      exists h eh, l !! h = Some (hs, eh) /\ hpos = off v3 l h /\ run_start l h /\
        bs_prev st = Some (se_key eh) /\ Forall (fun i => (i < h)%nat) ridx /\
        Forall (fun i => (i <= h)%nat) (dense_points v4 (length l)) /\
        key_above (se_key eh) (bs_last_restart st) = true
  | None => v2 = true -> bs_last_restart st = bs_prev st
  end.

Record block_inv (st : BlockState) (l : list rec) (ridx : list nat) : Prop := {
  bi_payload : bs_payload st = enc v3 l;
  bi_ok : recs_ok [] l;
  bi_restarts : bs_restarts st = map (off v3 l) ridx;
  bi_dense : bs_dense st = map (off v3 l) (dense_points v4 (length l));
  bi_ridx : Forall (fun i => full_key l i /\ run_start l i) ridx;
  bi_sorted : StronglySorted lt ridx;
  bi_full : Forall (full_key l) (dense_points v4 (length l));
  bi_prev : bs_prev st = option_map (fun x => se_key x.2) (last l);
  bi_max : forall p x, bs_prev st = Some p -> x ∈ l -> bytes_leb (se_key x.2) p = true;
  bi_last : forall q, bs_last_restart st = Some q -> exists p, bs_prev st = Some p /\ bytes_leb q p = true;
  bi_first : v2 = true -> l <> [] -> ridx !! 0%nat = Some 0%nat;
  bi_none : v2 = false -> ridx = [];
  bi_head : head_inv st l ridx }.

Lemma block_inv_0 : block_inv block_state0 [] [].
Proof.
  unfold dense_points. split; cbn; unfold dense_points; cbn; try done; destruct v4; try done; constructor.
Qed.

Lemma dense_points_S n :
  dense_points v4 (S n) = dense_points v4 n ++ (if v4 && on_cadence (Z.of_nat n) then [n] else []).
Proof.
  unfold dense_points. destruct v4; [|done]. rewrite seq_S, List.filter_app. cbn.
  by destruct (on_cadence (Z.of_nat n)).
Qed.

Lemma dense_points_lt n : Forall (fun i => (i < n)%nat) (dense_points v4 n).
Proof.
  unfold dense_points. destruct v4; [|constructor]. apply List.Forall_forall. intros i Hi.
  apply filter_In in Hi as [Hi _]. apply in_seq in Hi. lia.
Qed.

Lemma run_start_app l k i : (i < length l)%nat -> run_start l i -> run_start (l ++ k) i.
Proof.
  intros Hi H x Hx j y Hj Hy. rewrite lookup_app_l in Hx by done. rewrite lookup_app_l in Hy by lia. eauto.
Qed.
Lemma full_key_app l k i : full_key l i -> full_key (l ++ k) i.
Proof. intros [e He]. exists e. by apply lookup_app_l_Some. Qed.
Lemma full_key_lt l i : full_key l i -> (i < length l)%nat.
Proof. intros [e He]. by apply lookup_lt_Some in He. Qed.

(** Replacing record [h] by its full-key form. *)
Lemma insert_run_start l h s e i :
  l !! h = Some (s, e) -> run_start l i -> run_start (<[h := (0, e)]> l) i.
Proof.
  intros Hh H x Hx j y Hj Hy.
  assert (forall (n : nat) z, <[h := (0, e)]> l !! n = Some z -> exists z', l !! n = Some z' /\ z'.2 = z.2) as Hg.
  { intros n z Hz. destruct (decide (n = h)) as [->|Hn].
    - rewrite list_lookup_insert_eq in Hz by by apply lookup_lt_Some in Hh. injection Hz as <-. eauto.
    - rewrite list_lookup_insert_ne in Hz by done. eauto. }
  destruct (Hg _ _ Hx) as (x' & Hx' & <-). destruct (Hg _ _ Hy) as (y' & Hy' & <-). eauto.
Qed.
Lemma insert_full_key l h e i : full_key l i -> full_key (<[h := (0, e)]> l) i.
Proof.
  intros [e' He]. destruct (decide (i = h)) as [->|Hn].
  - exists e. rewrite list_lookup_insert_eq; [done|]. by apply lookup_lt_Some in He.
  - exists e'. by rewrite list_lookup_insert_ne.
Qed.
Lemma insert_recs_ok base l h s e :
  l !! h = Some (s, e) -> recs_ok base l -> recs_ok base (<[h := (0, e)]> l).
Proof.
  revert base h. induction l as [|x l IH]; intros base [|h] Hh; cbn; try done.
  - cbn in Hh. injection Hh as ->. cbn. intros [_ H]. split; [apply rec_ok_0 | done].
  - intros [Hx H]. split; [done|]. by apply IH.
Qed.
Lemma insert_snd l h s e : l !! h = Some (s, e) -> map snd (<[h := (0, e)]> l) = map snd l.
Proof.
  revert h. induction l as [|x l IH]; intros [|h] Hh; cbn; try done.
  - cbn in Hh. by injection Hh as ->.
  - f_equal. by apply IH.
Qed.
Lemma insert_last l h s e :
  l !! h = Some (s, e) ->
  option_map (fun x => se_key x.2) (last (<[h := (0, e)]> l)) = option_map (fun x => se_key x.2) (last l).
Proof.
  intros H. pose proof (insert_snd l h s e H) as E. apply (f_equal last) in E.
  rewrite !fmap_last in E. revert E.
  destruct (last (<[h := (0, e)]> l)), (last l); cbn; try done. intros E. injection E as E. by rewrite E.
Qed.

(** The splice is that replacement on the payload. *)
Lemma splice_enc l h s e :
  l !! h = Some (s, e) -> 0 <= s <= zlen (se_key e) ->
  splice (off v3 l h) (off v3 l h + (4 + zlen (se_key e) - s))
    (le16 0 ++ le16 (as_u16 (zlen (se_key e))) ++ se_key e) (enc v3 l) = enc v3 (<[h := (0, e)]> l).
Proof.
  intros Hh Hs. rewrite insert_take_drop by by apply lookup_lt_Some in Hh.
  rewrite <-(take_drop_middle l h _ Hh) at 3. rewrite !enc_app, !enc_cons. unfold splice, off. cbn [fst snd].
  rewrite ztake_app by done. f_equal.
  assert (key_part (0, e) = le16 0 ++ le16 (as_u16 (zlen (se_key e))) ++ se_key e) as <-.
  { unfold key_part. cbn [fst snd]. by rewrite Z.sub_0_r, zdrop_0. }
  f_equal. rewrite app_assoc, zdrop_app; [done|]. rewrite zlen_app. unfold key_part. cbn [fst snd].
  autorewrite with zlen. rewrite zlen_zdrop by lia. lia.
Qed.

Lemma shared_ok l e prev :
  prev = option_map (fun x => se_key x.2) (last l) ->
  rec_ok (match last l with Some x => se_key x.2 | None => [] end) (shared_of prev e, e).
Proof.
  intros ->. unfold shared_of, rec_ok. destruct (last l) as [x|]; cbn.
  - destruct (common_prefix_spec (se_key x.2) (se_key e)) as (? & ? & ? & ?). split_and!; (lia || done).
  - apply (rec_ok_0 [] e).
Qed.

Lemma full_size_app v (l k : list SegmentEntry) : full_size v (l ++ k) = full_size v l + full_size v k.
Proof. induction l as [|x l IH]; cbn [app full_size]; [done|]. rewrite IH. lia. Qed.

Lemma full_size_nonneg v (l : list SegmentEntry) : 0 <= full_size v l.
Proof.
  induction l as [|x l IH]; cbn [full_size]; [done|]. unfold entry_len.
  pose proof (zlen_nonneg (se_key x)). pose proof (zlen_nonneg (se_value x)). destruct v; lia.
Qed.

Lemma run_start_snoc l x :
  (forall y, y ∈ l -> bytes_lt (se_key y.2) (se_key x.2)) -> run_start (l ++ [x]) (length l).
Proof.
  intros H z Hz j y Hj Hy. rewrite lookup_app_r, Nat.sub_diag in Hz by lia. injection Hz as <-.
  rewrite lookup_app_l in Hy by done. by eapply H, list_elem_of_lookup_2.
Qed.
Lemma full_key_snoc l e : full_key (l ++ [(0, e)]) (length l).
Proof. exists e. by rewrite lookup_app_r, Nat.sub_diag by lia. Qed.

(** The end of the loop body: appending the entry keeps the invariant, given what the
    restart decision established. *)
Lemma append_inv l s e (restarts d : list Z) (ridx : list nat) last1 head1 :
  let l' := l ++ [(s, e)] in
  let dense := v4 && on_cadence (Z.of_nat (length l)) in
  let st' := mkBlockState (enc v3 l ++ entry_bytes v3 s e) restarts
    (if dense then d ++ [as_u32 (zlen (enc v3 l))] else d) (Some (se_key e)) last1 head1 in
  recs_ok [] l -> rec_ok (match last l with Some x => se_key x.2 | None => [] end) (s, e) ->
  (dense = true -> s = 0) -> zlen (enc v3 l) < U32 ->
  d = map (off v3 l) (dense_points v4 (length l)) -> Forall (full_key l) (dense_points v4 (length l)) ->
  (forall x, x ∈ l -> bytes_leb (se_key x.2) (se_key e) = true) ->
  restarts = map (off v3 l') ridx -> Forall (fun i => full_key l' i /\ run_start l' i) ridx ->
  StronglySorted lt ridx ->
  (forall q, last1 = Some q -> bytes_leb q (se_key e) = true) ->
  (v2 = true -> ridx !! 0%nat = Some 0%nat) -> (v2 = false -> ridx = []) ->
  head_inv st' l' ridx -> block_inv st' l' ridx.
Proof.
  intros l' dense st' Hok Hx Hs Hb Hd Hf Hm Hr Hri Hso Hl H0 Hn Hh.
  assert (dense_points v4 (length l') = dense_points v4 (length l) ++ (if dense then [length l] else [])) as Ed.
  { unfold l'. rewrite length_app, Nat.add_1_r. apply dense_points_S. }
  assert (map (off v3 l) (dense_points v4 (length l)) = map (off v3 l') (dense_points v4 (length l))) as Eo.
  { apply map_ext_in. intros i Hi. unfold l'. rewrite off_app; [done|].
    pose proof (dense_points_lt (length l)) as Hlt. rewrite List.Forall_forall in Hlt. apply Hlt in Hi. lia. }
  split; try done.
  - cbn. unfold l'. rewrite enc_app. unfold enc at 3. cbn. by rewrite app_nil_r.
  - by apply recs_ok_app; cbn.
  - cbn. rewrite Ed, Hd, Eo. destruct dense; [|by rewrite app_nil_r]. rewrite map_app. cbn. do 2 f_equal.
    unfold l'. rewrite off_app, off_length by lia. apply as_u32_small. split; [apply zlen_nonneg | done].
  - rewrite Ed. apply Forall_app. split.
    + eapply Forall_impl; [exact Hf|]. intros i. apply full_key_app.
    + destruct dense eqn:E; [|constructor]. constructor; [|constructor]. unfold l'. rewrite Hs by done.
      apply full_key_snoc.
  - cbn. unfold l'. by rewrite last_snoc.
  - intros p x Hp Hin. injection Hp as <-. unfold l' in Hin. apply elem_of_app in Hin as [Hin|Hin]; [by apply Hm|].
    apply list_elem_of_singleton in Hin as ->. apply bytes_leb_refl.
  - intros q Hq. eexists. split; [done|]. by apply Hl.
  - intros H _. by apply H0.
Qed.

(** The rows written so far are below the next one. *)
Definition next_ok (st : BlockState) (e : SegmentEntry) : Prop :=
  forall p, bs_prev st = Some p -> bytes_leb p (se_key e) = true.

Lemma inv_below st l ridx e x :
  block_inv st l ridx -> next_ok st e -> x ∈ l -> bytes_leb (se_key x.2) (se_key e) = true.
Proof.
  intros Hi Hn Hx. destruct (bs_prev st) as [p|] eqn:E.
  - eapply bytes_leb_trans; [by eapply bi_max | by apply Hn].
  - rewrite (bi_prev _ _ _ Hi) in E. destruct (last l) eqn:L; [done|]. apply last_None in L. subst. by apply not_elem_of_nil in Hx.
Qed.
Lemma inv_strictly_below st l ridx e x :
  block_inv st l ridx -> key_above (se_key e) (bs_prev st) = true -> x ∈ l -> bytes_lt (se_key x.2) (se_key e).
Proof.
  intros Hi Hn Hx. apply key_above_spec in Hn. destruct (bs_prev st) as [p|] eqn:E.
  - eapply bytes_leb_lt_trans; [by eapply bi_max | done].
  - rewrite (bi_prev _ _ _ Hi) in E. destruct (last l) eqn:L; [done|]. apply last_None in L. subst. by apply not_elem_of_nil in Hx.
Qed.
Lemma inv_ridx_lt st l ridx : block_inv st l ridx -> Forall (fun i => (i < length l)%nat) ridx.
Proof. intros Hi. eapply Forall_impl; [exact (bi_ridx _ _ _ Hi)|]. intros i [H _]. by apply full_key_lt. Qed.

(** The restarts stay where they are when an entry is appended. *)
Lemma inv_restarts_app st l ridx k :
  block_inv st l ridx ->
  map (off v3 l) ridx = map (off v3 (l ++ k)) ridx /\
  Forall (fun i => full_key (l ++ k) i /\ run_start (l ++ k) i) ridx.
Proof.
  intros Hi. pose proof (inv_ridx_lt _ _ _ Hi) as Hlt. split.
  - apply map_ext_in. intros i Hin. rewrite off_app; [done|].
    rewrite List.Forall_forall in Hlt. apply Hlt in Hin. lia.
  - pose proof (bi_ridx _ _ _ Hi) as Hr. apply Forall_forall. intros i Hin.
    eapply Forall_forall in Hr as [H1 H2]; [|exact Hin]. eapply Forall_forall in Hlt; [|exact Hin]. split.
    + by apply full_key_app.
    + by apply run_start_app.
Qed.

(** A run whose head is not yet a restart point gets one at the next cadence point. *)
Lemma head_restarts st l ridx e (hp : Z) s :
  block_inv st l ridx -> bs_run_head st = Some (hp, s) -> bs_prev st = Some (se_key e) ->
  key_above (se_key e) (bs_last_restart st) = true.
Proof.
  intros Hi Hh Hp. pose proof (bi_head _ _ _ Hi) as H. unfold head_inv in H. rewrite Hh in H.
  destruct H as (n & eh & _ & _ & _ & Hp' & _ & _ & Hk). congruence.
Qed.

Lemma StronglySorted_snoc (ridx : list nat) n :
  StronglySorted lt ridx -> Forall (fun i => (i < n)%nat) ridx -> StronglySorted lt (ridx ++ [n]).
Proof.
  induction 1 as [|i r Hr IH Hf]; intros Hn; cbn; [repeat constructor|].
  apply Forall_cons_1 in Hn as [Hi Hn]. constructor; [by apply IH|]. apply Forall_app. split; [done|].
  by constructor.
Qed.

Lemma inv_last_le st l ridx e q :
  block_inv st l ridx -> next_ok st e -> bs_last_restart st = Some q -> bytes_leb q (se_key e) = true.
Proof.
  intros Hi Hn Hq. destruct (bi_last _ _ _ Hi _ Hq) as (p & Hp & Hle).
  eapply bytes_leb_trans; [exact Hle | by apply Hn].
Qed.

Lemma inv_last_lt st l ridx e :
  block_inv st l ridx -> key_above (se_key e) (bs_prev st) = true -> key_above (se_key e) (bs_last_restart st) = true.
Proof.
  intros Hi Hk. destruct (bs_last_restart st) as [q|] eqn:Hq; [|done]. cbn. apply bytes_ltb_lt.
  destruct (bi_last _ _ _ Hi _ Hq) as (p & Hp & Hle). rewrite Hp in Hk. apply key_above_spec in Hk.
  by eapply bytes_leb_lt_trans.
Qed.

(** A key that is not above the previous one is the previous one. *)
Lemma same_key st e :
  next_ok st e -> key_above (se_key e) (bs_prev st) = false -> bs_prev st = Some (se_key e).
Proof.
  intros Hn Hk. destruct (bs_prev st) as [p|] eqn:E; [|done]. f_equal.
  apply bytes_leb_antisym; [by apply Hn|]. cbn in Hk. by apply bytes_ltb_false in Hk.
Qed.

Lemma ridx_first st l ridx (x : nat) :
  v2 = true -> block_inv st l ridx -> (l = [] -> x = 0%nat) -> (ridx ++ [x]) !! 0%nat = Some 0%nat.
Proof.
  intros H2 Hi Hx. destruct l as [|y l]; [|by rewrite lookup_app, (bi_first _ _ _ Hi)].
  pose proof (inv_ridx_lt _ _ _ Hi) as Hlt. destruct ridx as [|i r]; [cbn; by rewrite Hx|].
  apply Forall_cons_1 in Hlt as [Hlt _]. cbn in Hlt. lia.
Qed.

(** The rows [l'] hold after a step. *)
Definition step_post (st' : BlockState) (l : list rec) (e : SegmentEntry) : Prop :=
  exists l' ridx', block_inv st' l' ridx' /\ map snd l' = map snd l ++ [e].

Lemma snoc_snd l s e : map snd (l ++ [(s, e)]) = map snd l ++ [e].
Proof. by rewrite map_app. Qed.

(** No restart: the entry is appended. *)
Lemma step_append st l ridx e :
  (v4 = true -> v2 = true) -> block_inv st l ridx -> next_ok st e -> zlen (enc v3 l) < U32 ->
  (v2 = true -> l <> []) ->
  v2 && on_cadence (Z.of_nat (length l)) && key_above (se_key e) (bs_last_restart st) = false ->
  let dense := v4 && on_cadence (Z.of_nat (length l)) in
  let s := if dense then 0 else shared_of (bs_prev st) e in
  let head := if key_above (se_key e) (bs_prev st) then Some (as_u32 (zlen (enc v3 l)), s) else bs_run_head st in
  step_post (mkBlockState (enc v3 l ++ entry_bytes v3 s e) (bs_restarts st)
    (if dense then bs_dense st ++ [as_u32 (zlen (enc v3 l))] else bs_dense st)
    (Some (se_key e)) (bs_last_restart st) head) l e.
Proof.
  intros H42 Hi Hn Hb Hne Hr dense s head. exists (l ++ [(s, e)]), ridx. split; [|apply snoc_snd].
  destruct (inv_restarts_app st l ridx [(s, e)] Hi) as [Er Hri].
  apply append_inv; try done.
  - by eapply bi_ok.
  - unfold s. case_test; [apply rec_ok_0|]. by eapply shared_ok, bi_prev.
  - intros Hd. unfold s, dense. by rewrite Hd.
  - by eapply bi_dense.
  - by eapply bi_full.
  - intros x. by eapply inv_below.
  - by rewrite (bi_restarts _ _ _ Hi).
  - by eapply bi_sorted.
  - intros q. by eapply inv_last_le.
  - intros H2. eapply bi_first; by eauto.
  - by eapply bi_none.
  - unfold head_inv, head. cbn [bs_run_head bs_prev bs_last_restart].
    destruct (key_above (se_key e) (bs_prev st)) eqn:Hk.
    + exists (length l), e. rewrite lookup_app_r, Nat.sub_diag by lia. split_and!; try done.
      * rewrite off_app, off_length by lia. apply as_u32_small. split; [apply zlen_nonneg | done].
      * apply run_start_snoc. intros y. by eapply inv_strictly_below.
      * by eapply inv_ridx_lt.
      * eapply Forall_impl; [apply dense_points_lt|]. rewrite length_app. cbn. intros. lia.
      * by eapply inv_last_lt.
    + apply same_key in Hk; [|done]. pose proof (bi_head _ _ _ Hi) as Hh. unfold head_inv in Hh.
      destruct (bs_run_head st) as [[hp hs]|] eqn:Ehd; [|intros H2; by rewrite <-Hk, Hh].
      pose proof (head_restarts _ _ _ _ _ _ Hi Ehd Hk) as Ha.
      destruct Hh as (h & eh & Hl & Hp & Hst & Hpr & Hrx & Hdx & Hab).
      pose proof (lookup_lt_Some _ _ _ Hl) as Hlt.
      exists h, eh. split_and!; try done.
      * by apply lookup_app_l_Some.
      * by rewrite off_app by lia.
      * by apply run_start_app.
      * by rewrite <-Hk.
      * rewrite length_app, Nat.add_1_r, dense_points_S. apply Forall_app. split; [done|].
        destruct v4; [|constructor]. rewrite (H42 eq_refl), Ha, andb_true_r in Hr. cbn in Hr |- *.
        rewrite Hr. constructor.
Qed.

(** A restart at the first entry of its run. *)
Lemma step_restart_new st l ridx e :
  block_inv st l ridx -> next_ok st e -> zlen (enc v3 l) < U32 -> v2 = true ->
  key_above (se_key e) (bs_prev st) = true ->
  let dense := v4 && on_cadence (Z.of_nat (length l)) in
  step_post (mkBlockState (enc v3 l ++ entry_bytes v3 0 e) (bs_restarts st ++ [as_u32 (zlen (enc v3 l))])
    (if dense then bs_dense st ++ [as_u32 (zlen (enc v3 l))] else bs_dense st)
    (Some (se_key e)) (Some (se_key e)) None) l e.
Proof.
  intros Hi Hn Hb H2 Hk dense. exists (l ++ [(0, e)]), (ridx ++ [length l]). split; [|apply snoc_snd].
  destruct (inv_restarts_app st l ridx [(0, e)] Hi) as [Er Hri].
  apply append_inv; try done.
  - by eapply bi_ok.
  - apply rec_ok_0.
  - by eapply bi_dense.
  - by eapply bi_full.
  - intros x. by eapply inv_below.
  - rewrite (bi_restarts _ _ _ Hi), Er, map_app. cbn. do 2 f_equal. rewrite off_app, off_length by lia.
    apply as_u32_small. split; [apply zlen_nonneg | done].
  - apply Forall_app. split; [done|]. constructor; [|constructor]. split; [apply full_key_snoc|].
    apply run_start_snoc. intros y. by eapply inv_strictly_below.
  - apply StronglySorted_snoc; [by eapply bi_sorted | by eapply inv_ridx_lt].
  - intros q Hq. injection Hq as <-. apply bytes_leb_refl.
  - intros _. eapply ridx_first; try done. by intros ->.
  - by rewrite H2.
Qed.

(** A restart inside a run: the run's head is spliced to its full key. *)
Lemma step_restart_splice st l ridx e (hp : Z) hs :
  block_inv st l ridx -> next_ok st e -> full_size v3 (map snd l) < U32 -> v2 = true ->
  bs_prev st = Some (se_key e) -> bs_run_head st = Some (hp, hs) ->
  let key := se_key e in
  let payload := if 0 <? hs
    then splice hp (hp + (4 + zlen key - hs)) (le16 0 ++ le16 (as_u16 (zlen key)) ++ key) (enc v3 l)
    else enc v3 l in
  let dense := v4 && on_cadence (Z.of_nat (length l)) in
  step_post (mkBlockState (payload ++ entry_bytes v3 0 e) (bs_restarts st ++ [hp])
    (if dense then bs_dense st ++ [as_u32 (zlen payload)] else bs_dense st)
    (Some key) (Some key) None) l e.
Proof.
  intros Hi Hn Hb H2 Hp Hh key payload dense. pose proof (bi_head _ _ _ Hi) as Hd. unfold head_inv in Hd.
  rewrite Hh, Hp in Hd. destruct Hd as (h & eh & Hl & -> & Hst & Ek & Hrx & Hdx & Hab).
  injection Ek as Ek. pose proof (lookup_lt_Some _ _ _ Hl) as Hlt.
  pose proof (bi_ok _ _ _ Hi) as Hok.
  assert (0 <= hs <= zlen (se_key eh)) as Hhs.
  { apply recs_ok_len in Hok. eapply Forall_forall in Hok; [|by eapply list_elem_of_lookup_2]. exact Hok. }
  set (l1 := <[h := (0, eh)]> l).
  assert (payload = enc v3 l1) as ->.
  { unfold payload, l1, key. destruct (0 <? hs) eqn:E; bool_to_prop.
    - rewrite Ek. by apply splice_enc.
    - replace hs with 0 in Hl by lia. by rewrite list_insert_id. }
  assert (length l1 = length l) as El by apply length_insert.
  assert (map snd l1 = map snd l) as Es by by eapply insert_snd.
  assert (recs_ok [] l1) as Hok1 by by eapply insert_recs_ok.
  assert (forall x, x ∈ l1 -> exists y, y ∈ l /\ y.2 = x.2) as Hin.
  { intros x Hx. apply (list_elem_of_fmap_2 snd) in Hx. change (snd <$> l1) with (map snd l1) in Hx.
    rewrite Es in Hx. apply list_elem_of_fmap_1 in Hx as (y & Hy & Hin). eauto. }
  exists (l1 ++ [(0, e)]), (ridx ++ [h]). split; [|by rewrite snoc_snd, Es].
  unfold dense. rewrite <-El.
  assert (forall i, (i <= h)%nat -> off v3 (l1 ++ [(0, e)]) i = off v3 l i) as Eoff.
  { intros i Hi'. rewrite off_app by lia. by apply off_insert. }
  apply append_inv; try done.
  - apply rec_ok_0.
  - pose proof (enc_size v3 _ _ Hok1). rewrite Es in *. lia.
  - rewrite (bi_dense _ _ _ Hi), El. apply map_ext_in. intros i Hdi.
    rewrite List.Forall_forall in Hdx. apply Hdx in Hdi. symmetry. by apply off_insert.
  - rewrite El. eapply Forall_impl; [by eapply bi_full|]. intros i. apply insert_full_key.
  - intros x Hx. destruct (Hin x Hx) as (y & Hy & <-). by eapply inv_below.
  - rewrite (bi_restarts _ _ _ Hi), map_app. cbn. rewrite Eoff by lia. f_equal. apply map_ext_in.
    intros i Hri. rewrite List.Forall_forall in Hrx. apply Hrx in Hri. symmetry. apply Eoff. lia.
  - apply Forall_app. split.
    + pose proof (bi_ridx _ _ _ Hi) as Hr. eapply Forall_impl; [exact Hr|]. intros i [Hf1 Hf2].
      pose proof (full_key_lt _ _ Hf1). split.
      * by apply full_key_app, insert_full_key.
      * apply run_start_app; [lia|]. by eapply insert_run_start.
    + constructor; [|constructor]. split.
      * apply full_key_app. exists eh. unfold l1. by rewrite list_lookup_insert_eq.
      * apply run_start_app; [lia|]. by eapply insert_run_start.
  - apply StronglySorted_snoc; [by eapply bi_sorted | done].
  - intros q Hq. injection Hq as <-. apply bytes_leb_refl.
  - intros _. eapply ridx_first; try done. intros ->. cbn in Hlt. lia.
  - by rewrite H2.
Qed.

Lemma encode_step_inv st l ridx e :
  (v4 = true -> v2 = true) -> block_inv st l ridx -> next_ok st e -> full_size v3 (map snd l) < U32 ->
  exists st', encode_step v2 v3 v4 st (Z.of_nat (length l), e) = Some st' /\ step_post st' l e.
Proof.
  intros H42 Hi Hn Hb. pose proof (enc_size v3 _ _ (bi_ok _ _ _ Hi)) as Hsz.
  assert (zlen (enc v3 l) < U32) as Hb' by lia.
  unfold encode_step. rewrite (bi_payload _ _ _ Hi).
  destruct (v2 && on_cadence (Z.of_nat (length l)) && key_above (se_key e) (bs_last_restart st)) eqn:Hr.
  - bool_to_prop. cbn [orb].
    destruct (key_above (se_key e) (bs_prev st)) eqn:Hk; cbn.
    + eexists. split; [done|]. by eapply step_restart_new.
    + apply same_key in Hk; [|done]. destruct (bs_run_head st) as [[hp hs]|] eqn:Hh; cbn.
      * eexists. split; [done|]. by eapply step_restart_splice.
      * pose proof (bi_head _ _ _ Hi) as Hd. unfold head_inv in Hd. rewrite Hh in Hd.
        rewrite Hd, Hk in H0 by done. cbn in H0. apply bytes_ltb_lt, bytes_lt_irrefl in H0 as [].
  - cbn. eexists. split; [done|]. apply (step_append st l ridx e); try done.
    intros -> ->. cbn in Hr. destruct (bs_last_restart st) as [q|] eqn:Hq; [|done].
    destruct (bi_last _ _ _ Hi _ Hq) as (p & Hp & _). by rewrite (bi_prev _ _ _ Hi) in Hp.
Qed.

(** The whole loop over the rows of a block: it never panics, and leaves the invariant. *)
Lemma encode_entries_inv (rows : list SegmentEntry) st l ridx :
  (v4 = true -> v2 = true) -> block_inv st l ridx ->
  (forall e, rows !! 0%nat = Some e -> next_ok st e) ->
  StronglySorted (fun a b => bytes_leb (se_key a) (se_key b) = true) rows ->
  full_size v3 (map snd l ++ rows) < U32 ->
  exists st' l' ridx',
    encode_entries v2 v3 v4 st (zip (seqZ (zlen l) (zlen rows)) rows) = Some st' /\
    block_inv st' l' ridx' /\ map snd l' = map snd l ++ rows.
Proof.
  intros H42. revert st l ridx. induction rows as [|e rows IH]; intros st l ridx Hi Hn Hs Hb.
  { exists st, l, ridx. rewrite app_nil_r. done. }
  apply StronglySorted_inv in Hs as [Hs Hf].
  pose proof (zlen_nonneg rows). rewrite zlen_cons, seqZ_cons by lia. cbn [zip zip_with encode_entries].
  destruct (encode_step_inv st l ridx e H42 Hi (Hn e eq_refl)) as (st1 & E1 & l1 & ridx1 & Hi1 & Es1).
  { rewrite full_size_app in Hb. pose proof (full_size_nonneg v3 (e :: rows)). lia. }
  change (Z.of_nat (length l)) with (zlen l) in E1. rewrite E1. cbn [mbind option_bind].
  destruct (IH st1 l1 ridx1 Hi1) as (st2 & l2 & ridx2 & E2 & Hi2 & Es2).
  - intros e' He' p Hp. rewrite (bi_prev _ _ _ Hi1) in Hp. destruct (last l1) as [x|] eqn:L; [|done].
    injection Hp as <-. assert (x.2 = e) as ->.
    { apply (f_equal last) in Es1. rewrite fmap_last, L, last_snoc in Es1. by injection Es1. }
    eapply Forall_forall in Hf; [exact Hf|]. by eapply list_elem_of_lookup_2.
  - done.
  - by rewrite Es1, <-app_assoc.
  - exists st2, l2, ridx2. split_and!; try done.
    + rewrite <-E2. f_equal. f_equal. f_equal; [|lia].
      apply (f_equal zlen) in Es1. unfold zlen in *. rewrite length_app, !length_map in Es1. cbn in Es1. lia.
    + by rewrite Es2, Es1, <-app_assoc.
Qed.
End Encode.
