(* ===== verification/SegmentLookup.v ===== *)
(** Reading one data block back: the tables in front of the entries, the full decode, the
    restart-table point lookup and the dense window, each equal to a search of the rows. *)

From S2P Require Import Prelude Cursor Format Identity Segment SegmentBlock.

(* ------------------------------------------------------------------ *)
(** * Tables of fixed-width offsets *)

Lemma zlen_concat_le32 (zs : list Z) : zlen (concat (map le32 zs)) = 4 * zlen zs.
Proof.
  induction zs as [|z zs IH]; [done|]. cbn [map concat]. rewrite zlen_app, zlen_le32, IH, zlen_cons. lia.
Qed.

Lemma off_at_table (zs : list Z) (j : nat) z :
  Forall is_u32 zs -> zs !! j = Some z -> off_at (concat (map le32 zs)) (Z.of_nat j) = z.
Proof.
  intros Hz. revert j. induction Hz as [|x zs Hx Hz IH]; intros [|j] Hj; try done.
  - cbn in Hj. injection Hj as ->. unfold off_at. cbn [map concat]. change (Z.of_nat 0 * 4) with 0.
    unfold zslice. rewrite zdrop_0, ztake_app by (rewrite zlen_le32; lia). by apply le_val_le32.
  - cbn in Hj. rewrite <-(IH j Hj). unfold off_at. cbn [map concat]. unfold zslice.
    replace (Z.of_nat (S j) * 4) with (4 + Z.of_nat j * 4) by lia.
    rewrite <-zdrop_zdrop, zdrop_app by (rewrite ?zlen_le32; lia). do 2 f_equal. lia.
Qed.

(** What an offset into the payload sees, behind the tables. *)
Lemma zslice_behind {A} (t p : list A) a b :
  0 <= a -> 0 <= b -> zslice (zlen t + a) (zlen t + b) (t ++ p) = zslice a b p.
Proof.
  intros. unfold zslice. rewrite <-zdrop_zdrop, zdrop_app by (done || lia || apply zlen_nonneg).
  f_equal. lia.
Qed.

(* ------------------------------------------------------------------ *)
(** * Searching rows *)

(** The rows a lookup can answer with: the key, and the replica id when one is asked. *)
Definition row_match (key : bytes) (rid : option ReplicaId) (e : SegmentEntry) : bool :=
  bytes_eqb (se_key e) key && match rid with Some r => bool_decide (se_rid e = r) | None => true end.
Definition find_row (key : bytes) (rid : option ReplicaId) (rows : list SegmentEntry) : option SegmentEntry :=
  List.find (row_match key rid) rows.

Lemma find_row_app key rid a b :
  find_row key rid (a ++ b) = match find_row key rid a with Some e => Some e | None => find_row key rid b end.
Proof. unfold find_row. induction a as [|x a IH]; cbn; [done|]. by destruct (row_match key rid x). Qed.
Lemma find_row_none key rid rows : (forall e, e ∈ rows -> se_key e <> key) -> find_row key rid rows = None.
Proof.
  unfold find_row. induction rows as [|x rows IH]; intros H; cbn; [done|].
  assert (row_match key rid x = false) as ->.
  { unfold row_match. assert (bytes_eqb (se_key x) key = false) as ->; [|done].
    apply bytes_eqb_neq, H. set_solver. }
  apply IH. set_solver.
Qed.

Lemma persisted_key v3 e : se_key (persisted v3 e) = se_key e.
Proof. by destruct v3. Qed.

Abbreviation rows_of v3 l := (map (persisted v3) (map (@snd Z SegmentEntry) l)).

Lemma rows_of_key v3 l x : x ∈ rows_of v3 l -> exists y, y ∈ l /\ se_key x = se_key y.2.
Proof.
  intros H. apply list_elem_of_In, in_map_iff in H as (e & <- & H). apply in_map_iff in H as (y & <- & H).
  exists y. split; [by apply list_elem_of_In | apply persisted_key].
Qed.

Abbreviation keys_asc := (StronglySorted (fun a b : rec => bytes_leb (se_key a.2) (se_key b.2) = true)).

(** The interval scan finds the first matching row of the interval. *)
Lemma interval_scan_spec v3 key rid l fuel scratch c :
  recs_ok scratch l -> Forall entry_wf (map snd l) -> keys_asc l -> (length l < fuel)%nat ->
  cur_ok c -> crest c = enc v3 l ->
  exists c', interval_scan fuel v3 key rid scratch c = Ok (find_row key rid (rows_of v3 l), c').
Proof.
  revert fuel scratch c. induction l as [|x l IH]; intros fuel scratch c Hok Hwf Hs Hf Hc E;
    (destruct fuel as [|fuel]; [cbn in Hf; lia|]); cbn [interval_scan];
    unfold mbind, Dec_bind, dget; cbv beta iota.
  { rewrite (proj2 (is_empty_crest c Hc)) by done. eauto. }
  destruct Hok as [Hx Hok]. apply Forall_cons_1 in Hwf as [Hw Hwf]. apply StronglySorted_inv in Hs as [Hs Hlt].
  rewrite enc_cons in E. cbn in Hf.
  assert (is_empty c = false) as ->.
  { apply not_true_iff_false. rewrite (is_empty_crest c Hc), E. intros H%(f_equal zlen). revert H.
    unfold key_part. zlen_solve. }
  rewrite (reads_entry_key _ _ (body_part v3 x.2 ++ enc v3 l) Hx (proj1 Hw) c Hc E).
  pose proof (cur_ok_advance _ _ _ Hc E) as Hc1. pose proof (crest_advance _ _ _ Hc E) as E1.
  set (c1 := advance c (zlen (key_part x))) in *. cbn [map]. unfold find_row. cbn [List.find].
  unfold row_match at 1. rewrite persisted_key.
  destruct (bytes_eqb (se_key x.2) key) eqn:Ek; cbn [andb].
  - rewrite (reads_entry_body v3 _ (enc v3 l) Hw c1 Hc1 E1).
    pose proof (cur_ok_advance _ _ _ Hc1 E1) as Hc2. pose proof (crest_advance _ _ _ Hc1 E1) as E2.
    destruct (match rid with Some r => bool_decide (se_rid (persisted v3 x.2) = r) | None => true end);
      [eexists; done|]. by apply IH; try lia.
  - destruct (bytes_ltb key (se_key x.2)) eqn:El.
    + exists c1. apply bytes_ltb_lt in El. unfold mret, Dec_ret. f_equal. f_equal. symmetry.
      apply find_row_none. intros e He Hke. apply rows_of_key in He as (y & Hy & Ey). eapply Forall_forall in Hlt; [|exact Hy].
      apply (bytes_lt_neq key (se_key e)); [|by rewrite Hke]. rewrite Ey. by eapply bytes_lt_leb_trans.
    + rewrite (reads_skip_body v3 _ (enc v3 l) Hw c1 Hc1 E1). apply IH; try done; try lia.
      * by eapply cur_ok_advance.
      * by eapply crest_advance.
Qed.

(* ------------------------------------------------------------------ *)
(** * Restart keys in one blob *)

Definition key_starts (ks : list bytes) : list Z :=
  map (fun i => zlen (concat (take i ks))) (seq 0 (length ks)).

Lemma key_starts_snoc ks k : key_starts (ks ++ [k]) = key_starts ks ++ [zlen (concat ks)].
Proof.
  unfold key_starts. rewrite length_app. cbn [length]. rewrite Nat.add_1_r, seq_S, map_app. cbn [map]. f_equal.
  - apply map_ext_in. intros i Hi. apply in_seq in Hi. rewrite take_app_le by lia. done.
  - cbn. by rewrite take_app_length.
Qed.
Lemma length_key_starts ks : length (key_starts ks) = length ks.
Proof. unfold key_starts. by rewrite length_map, length_seq. Qed.

Definition blob_index (os : list Z) (ks : list bytes) : RestartIndex :=
  mkRestartIndex os (key_starts ks ++ [zlen (concat ks)]) (concat ks).

Lemma blob_key os ks i k : ks !! i = Some k -> restart_index_key (blob_index os ks) i = k.
Proof.
  intros Hk. pose proof (lookup_lt_Some _ _ _ Hk) as Hlt. unfold restart_index_key, blob_index. cbn.
  assert (forall j, (j <= length ks)%nat ->
    nth j (key_starts ks ++ [zlen (concat ks)]) 0 = zlen (concat (take j ks))) as Hn.
  { intros j Hj. destruct (decide (j = length ks)) as [->|Hne].
    - rewrite app_nth2; rewrite length_key_starts; [|lia]. rewrite Nat.sub_diag, firstn_all. done.
    - rewrite app_nth1 by (rewrite length_key_starts; lia). unfold key_starts.
      rewrite (nth_indep _ 0 (zlen (concat (take 0 ks)))) by (rewrite length_map, length_seq; lia).
      change (zlen (concat (take 0 ks))) with ((fun i => zlen (concat (take i ks))) 0%nat).
      rewrite map_nth, seq_nth by lia. done. }
  rewrite !Hn by lia. rewrite (take_S_r _ _ _ Hk), concat_app. cbn [concat]. rewrite app_nil_r.
  rewrite <-(take_drop_middle ks i k Hk) at 3. rewrite concat_app. cbn [concat].
  apply zslice_mid; [done | by rewrite zlen_app].
Qed.

(* ------------------------------------------------------------------ *)
(** * Binary search over increasing keys *)

Lemma restart_search_spec idx key (ks : list bytes) fuel (lo hi : nat) :
  (forall i k, ks !! i = Some k -> restart_index_key idx i = k) ->
  StronglySorted bytes_lt ks ->
  (lo <= hi <= length ks)%nat -> (hi - lo < fuel)%nat ->
  (forall i k, (i < lo)%nat -> ks !! i = Some k -> bytes_leb k key = true) ->
  (forall i k, (hi <= i)%nat -> ks !! i = Some k -> bytes_lt key k) ->
  let r := restart_search fuel idx key lo hi in
  (r <= length ks)%nat /\
  (forall i k, (i < r)%nat -> ks !! i = Some k -> bytes_leb k key = true) /\
  (forall i k, (r <= i)%nat -> ks !! i = Some k -> bytes_lt key k).
Proof.
  intros Hk Hs. revert lo hi. induction fuel as [|fuel IH]; intros lo hi Hle Hf Hlo Hhi; [lia|].
  cbn [restart_search]. destruct (lo <? hi)%nat eqn:E.
  - apply Nat.ltb_lt in E. set (mid := ((lo + hi) / 2)%nat).
    assert (lo <= mid < hi)%nat as Hm.
    { unfold mid. split; [apply Nat.div_le_lower_bound | apply Nat.div_lt_upper_bound]; lia. }
    destruct (lookup_lt_is_Some_2 ks mid) as [km Hkm]; [lia|]. rewrite (Hk _ _ Hkm).
    destruct (bytes_leb km key) eqn:Ek; apply IH; try lia; try done.
    + intros i k Hi Hik. destruct (decide (i = mid)) as [->|]; [congruence|].
      eapply bytes_leb_trans; [|exact Ek]. apply bytes_lt_leb.
      eapply (sorted_lookup bytes_lt); [exact Hs | exact Hik | exact Hkm | lia].
    + intros i k Hi Hik. apply bytes_leb_false in Ek. destruct (decide (i = mid)) as [->|]; [congruence|].
      etrans; [exact Ek|]. eapply (sorted_lookup bytes_lt); [exact Hs | exact Hkm | exact Hik | lia].
  - apply Nat.ltb_ge in E. assert (lo = hi) as -> by lia. cbv zeta. split_and!; [lia | done | done].
Qed.

(* ------------------------------------------------------------------ *)
(** * The full decode *)

Lemma decode_all v3 (l : list rec) (n : nat) :
  recs_ok [] l -> Forall entry_wf (map snd l) -> n = length l ->
  exists c, run_dec (l ← decode_entries v3 n []; c ← dget; mret (l, c)) (enc v3 l) =
    Ok (rows_of v3 l, c) /\ is_empty c = true.
Proof.
  intros Hok Hwf ->. unfold run_dec. set (c0 := cursor_new (enc v3 l)).
  assert (crest c0 = enc v3 l ++ []) as E by by rewrite app_nil_r.
  assert (cur_ok c0) as Hc by apply cur_ok_new.
  exists (advance c0 (zlen (enc v3 l))). split.
  - unfold mbind, Result_bind, Dec_bind. by rewrite (reads_entries v3 [] l [] Hok Hwf c0 Hc E).
  - apply is_empty_crest; [by eapply cur_ok_advance | by eapply crest_advance].
Qed.

(** The cadence points are the multiples of the interval. *)
Definition cadence_count (n : nat) : nat := (n + 15) / 16.

Lemma on_cadence_spec (n : nat) : on_cadence (Z.of_nat n) = (n mod 16 =? 0)%nat.
Proof.
  unfold on_cadence, RESTART_INTERVAL. change 16 with (Z.of_nat 16). rewrite <-Nat2Z.inj_mod.
  destruct (Nat.eqb_spec (n mod 16) 0) as [->|H]; [done|]. apply Z.eqb_neq. lia.
Qed.

Lemma cadence_points (n : nat) :
  dense_points true n = map (fun j => 16 * j)%nat (seq 0 (cadence_count n)).
Proof.
  induction n as [|n IH]; [done|]. rewrite dense_points_S, IH, on_cadence_spec. cbn [andb].
  assert (cadence_count (S n) = cadence_count n + (if (n mod 16 =? 0) then 1 else 0))%nat as ->.
  { unfold cadence_count. pose proof (Nat.div_mod_eq n 16). pose proof (Nat.mod_upper_bound n 16 ltac:(lia)).
    destruct (Nat.eqb_spec (n mod 16) 0).
    - replace (S n + 15)%nat with (0 + (n / 16 + 1) * 16)%nat by lia.
      replace (n + 15)%nat with (15 + (n / 16) * 16)%nat by lia.
      rewrite !Nat.div_add, (Nat.div_small 0), (Nat.div_small 15) by lia. lia.
    - replace (S n + 15)%nat with (n mod 16 + (n / 16 + 1) * 16)%nat by lia.
      replace (n + 15)%nat with ((n mod 16 - 1) + (n / 16 + 1) * 16)%nat by lia.
      rewrite !Nat.div_add, (Nat.div_small (n mod 16)), (Nat.div_small (n mod 16 - 1)) by lia. lia. }
  destruct (Nat.eqb_spec (n mod 16) 0) as [Hm|]; [|by rewrite Nat.add_0_r, app_nil_r].
  rewrite Nat.add_1_r, seq_S, map_app. cbn [map]. do 2 f_equal. unfold cadence_count.
  pose proof (Nat.div_mod_eq n 16). replace (n + 15)%nat with (15 + (n / 16) * 16)%nat by lia.
  rewrite Nat.div_add, (Nat.div_small 15) by lia. lia.
Qed.

Lemma cadence_lookup (n j : nat) :
  (16 * j < n)%nat -> dense_points true n !! j = Some (16 * j)%nat.
Proof.
  intros Hj. rewrite cadence_points. change (map ?f ?l) with (f <$> l). rewrite list_lookup_fmap, lookup_seq_lt; [done|].
  unfold cadence_count. apply Nat.div_le_lower_bound; lia.
Qed.
Lemma cadence_count_len n : length (dense_points true n) = cadence_count n.
Proof. by rewrite cadence_points, length_map, length_seq. Qed.

(* ------------------------------------------------------------------ *)
(** * A finished v2+ block *)

Definition rkey (l : list rec) (i : nat) : bytes :=
  match l !! i with Some x => se_key x.2 | None => [] end.

Lemma rkey_lookup l i x : l !! i = Some x -> rkey l i = se_key x.2.
Proof. unfold rkey. by intros ->. Qed.

Section Block.
Context (v3 v4 : bool) (st : BlockState) (l : list rec) (ridx : list nat).
Context (Hinv : block_inv true v3 v4 st l ridx).
Context (Hwf : Forall entry_wf (map snd l)).
Context (Hasc : keys_asc l).
Context (Hne : l <> []).
Let table := block_table v4 st.
Let T := zlen table.
Let payload := table ++ enc v3 l.
Context (Hfit : zlen payload < U32).

Let dp := dense_points v4 (length l).
Let at_ (i : nat) : Z := T + off v3 l i.

Lemma ridx_lt i : i ∈ ridx -> (i < length l)%nat.
Proof. intros H. pose proof (inv_ridx_lt _ _ _ _ _ _ Hinv) as Hl. by eapply Forall_forall in Hl; [|exact H]. Qed.
Lemma dp_lt i : i ∈ dp -> (i < length l)%nat.
Proof. intros H. pose proof (dense_points_lt v4 (length l)) as Hl. by eapply Forall_forall in Hl; [|exact H]. Qed.

Lemma at_bounds i : (i < length l)%nat -> T <= at_ i < zlen payload.
Proof.
  intros Hi. pose proof (off_lt v3 _ _ _ (bi_ok _ _ _ _ _ _ Hinv) Hi). pose proof (off_nonneg v3 l i).
  unfold at_, payload. rewrite zlen_app. fold T. lia.
Qed.
Lemma T_nonneg : 0 <= T.
Proof. apply zlen_nonneg. Qed.

Lemma at_table (ix : list nat) :
  (forall i, i ∈ ix -> (i < length l)%nat) ->
  concat (map (fun pos => le32 (as_u32 (T + pos))) (map (off v3 l) ix)) = concat (map le32 (map at_ ix)) /\
  Forall is_u32 (map at_ ix).
Proof.
  intros Hix. assert (forall i, i ∈ ix -> is_u32 (at_ i)) as Hu.
  { intros i Hi. pose proof (at_bounds i (Hix i Hi)). pose proof T_nonneg. unfold is_u32. lia. }
  split.
  - rewrite !map_map. f_equal. apply map_ext_in. intros i Hi. apply list_elem_of_In in Hi.
    change (T + off v3 l i) with (at_ i). by rewrite as_u32_small by by apply Hu.
  - apply Forall_map, Forall_forall. done.
Qed.

Let offs := concat (map le32 (map at_ ridx)).
Let doffs := concat (map le32 (map at_ dp)).

Lemma zlen_restarts : zlen (bs_restarts st) = zlen ridx.
Proof. rewrite (bi_restarts _ _ _ _ _ _ Hinv). unfold zlen. by rewrite length_map. Qed.
Lemma zlen_dense : zlen (bs_dense st) = zlen dp.
Proof. rewrite (bi_dense _ _ _ _ _ _ Hinv). unfold zlen. by rewrite length_map. Qed.

Lemma T_eq : T = 6 + 4 * zlen ridx + (if v4 then 4 + 4 * zlen dp else 0).
Proof.
  pose proof zlen_dense as Ed. pose proof zlen_restarts as Er.
  unfold T, table, block_table. rewrite Er, Ed. autorewrite with zlen.
  assert (forall f (ix : list Z), zlen (concat (map (fun pos => le32 (f pos)) ix)) = 4 * zlen ix) as Hc.
  { intros f ix. rewrite <-(map_map f le32), zlen_concat_le32. unfold zlen. by rewrite length_map. }
  rewrite Hc, Er. destruct v4; autorewrite with zlen; [|lia]. rewrite Hc, Ed. lia.
Qed.

Lemma counts_u32 : is_u32 (zlen ridx) /\ is_u32 (zlen dp).
Proof.
  pose proof T_eq as E. pose proof (zlen_nonneg ridx). pose proof (zlen_nonneg dp).
  assert (T < U32). { unfold payload in Hfit. rewrite zlen_app in Hfit. fold T in Hfit. pose proof (zlen_nonneg (enc v3 l)). lia. }
  assert (v4 = false -> dp = []) as Hd0 by by (unfold dp, dense_points; intros ->).
  unfold is_u32. destruct v4; [lia|]. rewrite (Hd0 eq_refl) in *. change (zlen []) with 0 in *. lia.
Qed.

Lemma table_form :
  table = le16 RESTART_INTERVAL ++ le32 (zlen ridx) ++ offs ++ (if v4 then le32 (zlen dp) ++ doffs else []).
Proof.
  unfold table at 1, block_table.
  replace (if v4 then 6 + 4 * zlen (bs_restarts st) + 4 + 4 * zlen (bs_dense st)
           else 6 + 4 * zlen (bs_restarts st)) with T.
  2: { pose proof T_eq as ET. rewrite zlen_restarts, zlen_dense. revert ET. generalize T dp. intros. destruct v4; lia. }
  destruct counts_u32 as [C1 C2]. rewrite zlen_restarts, zlen_dense, !as_u32_small by done.
  rewrite (bi_restarts _ _ _ _ _ _ Hinv), (bi_dense _ _ _ _ _ _ Hinv).
  rewrite (proj1 (at_table ridx ridx_lt)). fold dp. by rewrite (proj1 (at_table dp dp_lt)).
Qed.

Lemma zlen_offs : zlen offs = 4 * zlen ridx.
Proof. unfold offs. rewrite zlen_concat_le32. unfold zlen. by rewrite length_map. Qed.
Lemma zlen_doffs : zlen doffs = 4 * zlen dp.
Proof. unfold doffs. rewrite zlen_concat_le32. unfold zlen. by rewrite length_map. Qed.

Lemma payload_form :
  payload = (le16 RESTART_INTERVAL ++ le32 (zlen ridx)) ++ offs ++
    ((if v4 then le32 (zlen dp) ++ doffs else []) ++ enc v3 l).
Proof. unfold payload. rewrite table_form. by rewrite <-!app_assoc. Qed.

Lemma restarts_read : run_dec (_ ← cu16; cu32) payload = Ok (zlen ridx).
Proof.
  rewrite payload_form. eapply reads_run_front; [done|].
  eapply reads_bind; [by apply reads_u16|]. apply reads_u32, counts_u32.
Qed.

Lemma offs_slice : zslice 6 (6 + 4 * zlen ridx) payload = offs.
Proof. rewrite payload_form. apply zslice_mid; rewrite ?zlen_offs; by autorewrite with zlen. Qed.

Lemma dense_slices :
  v4 = true ->
  zslice (6 + 4 * zlen ridx) (6 + 4 * zlen ridx + 4) payload = le32 (zlen dp) /\
  zslice (6 + 4 * zlen ridx + 4) T payload = doffs.
Proof.
  intros H4. pose proof T_eq as ET. rewrite H4 in ET. rewrite payload_form, H4. split.
  - rewrite app_assoc, <-(app_assoc (le32 _)). apply zslice_mid; autorewrite with zlen; rewrite zlen_offs; lia.
  - rewrite (app_assoc _ offs), <-(app_assoc (le32 _)), (app_assoc _ (le32 _)).
    apply zslice_mid; autorewrite with zlen; rewrite ?zlen_offs, ?zlen_doffs; lia.
Qed.

Lemma table_bounds_ok : table_bounds v4 payload = Ok (zlen ridx, T).
Proof.
  unfold table_bounds. rewrite restarts_read. cbn [mbind Result_bind].
  pose proof T_eq as ET. pose proof (zlen_nonneg ridx). pose proof (zlen_nonneg dp). pose proof (zlen_nonneg (enc v3 l)).
  assert (zlen payload = T + zlen (enc v3 l)) as EP by (unfold payload; by rewrite zlen_app).
  destruct (bool_decide (v4 = true)) eqn:E4; bool_to_prop; [|apply not_true_is_false in E4]; rewrite E4 in ET |- *.
  - rewrite (proj2 (Z.ltb_ge _ _)) by lia. rewrite (proj2 (Z.ltb_ge _ _)) by lia.
    destruct (dense_slices E4) as [-> _]. rewrite le_val_le32 by apply counts_u32.
    rewrite (proj2 (Z.ltb_ge _ _)) by lia. do 2 f_equal. lia.
  - rewrite (proj2 (Z.ltb_ge _ _)) by lia. do 2 f_equal. lia.
Qed.

(** Any position behind the tables: the records from there on. *)
Lemma payload_from i : zdrop (at_ i) payload = enc v3 (drop i l).
Proof.
  unfold at_, payload. rewrite <-zdrop_zdrop, zdrop_app by (done || apply off_nonneg || apply T_nonneg).
  apply off_drop.
Qed.

Lemma wf_lookup i x : l !! i = Some x -> entry_wf x.2.
Proof.
  intros H. eapply Forall_forall in Hwf; [exact Hwf|]. change (x.2 ∈ (snd <$> l)).
  apply list_elem_of_fmap_2, (list_elem_of_lookup_2 _ _ _ H).
Qed.

Lemma restart_key_ok i : full_key l i -> restart_key payload (at_ i) = Ok (rkey l i).
Proof.
  intros [e He]. unfold restart_key. rewrite payload_from, (drop_S _ _ _ He), enc_cons, (rkey_lookup _ _ _ He).
  destruct (wf_lookup _ _ He) as (Hk & _). cbn [snd] in Hk. pose proof (zlen_nonneg (se_key e)).
  eapply reads_run_front; [done|]. unfold key_part. cbn [fst snd]. rewrite Z.sub_0_r, zdrop_0.
  eapply reads_bind; [by apply reads_u16|]. eapply reads_bind0; [by apply reads_guard|].
  rewrite as_u16_small by (unfold is_u16; lia).
  eapply reads_bind; [apply reads_u16; unfold is_u16; lia|]. by apply reads_take.
Qed.

(** The restart keys fit: together they are shorter than the records they open. *)
Lemma restart_keys_size (a b : list nat) : ridx = a ++ b -> zlen (concat (map (rkey l) a)) < U32.
Proof.
  intros E. enough (zlen (concat (map (rkey l) a)) <= match last a with Some i => off v3 l (S i) | None => 0 end) as H.
  { assert (match last a with Some i => off v3 l (S i) | None => 0 end <= zlen (enc v3 l)) as H2.
    { destruct (last a); [|apply zlen_nonneg]. unfold off. rewrite <-(take_drop (S n) l) at 2.
      rewrite enc_app, zlen_app. pose proof (zlen_nonneg (enc v3 (drop (S n) l))). lia. }
    unfold payload in Hfit. rewrite zlen_app in Hfit. fold T in Hfit. pose proof T_nonneg. lia. }
  revert b E. induction a as [|i a IH] using rev_ind; intros b E; [done|]. rewrite <-app_assoc in E.
  specialize (IH _ E). rewrite last_snoc, map_app, concat_app, zlen_app. cbn [map concat]. rewrite app_nil_r.
  assert (full_key l i) as [e He].
  { pose proof (bi_ridx _ _ _ _ _ _ Hinv) as Hr. eapply Forall_forall in Hr as [Hf _]; [exact Hf|].
    rewrite E. set_solver. }
  rewrite (rkey_lookup _ _ _ He). unfold off at 1. rewrite (take_S_r _ _ _ He), enc_app, zlen_app.
  fold (off v3 l i). assert (zlen (se_key e) <= zlen (enc v3 [(0, e)])).
  { rewrite enc_cons. unfold key_part. cbn [fst snd]. rewrite zdrop_0. zlen_solve. }
  assert (match last a with Some j => off v3 l (S j) | None => 0 end <= off v3 l i); [|cbn [snd]; lia].
  destruct (last a) as [j|] eqn:L; [|apply off_nonneg]. apply off_mono.
  pose proof (bi_sorted _ _ _ _ _ _ Hinv) as Hs. rewrite last_lookup in L.
  enough (j < i)%nat by lia.
  eapply (sorted_lookup lt ridx (pred (length a)) (length a)); [exact Hs| | |].
  - rewrite E. by apply lookup_app_l_Some.
  - rewrite E, lookup_app_r, Nat.sub_diag by lia. done.
  - apply lookup_lt_Some in L. lia.
Qed.

Lemma restart_keys_asc : StronglySorted bytes_lt (map (rkey l) ridx).
Proof.
  enough (forall r, StronglySorted lt r -> Forall (fun i => full_key l i /\ run_start l i) r ->
    StronglySorted bytes_lt (map (rkey l) r)) as H.
  { apply H; [apply (bi_sorted _ _ _ _ _ _ Hinv) | apply (bi_ridx _ _ _ _ _ _ Hinv)]. }
  induction 1 as [|i r Hs IH Hf]; intros Hr; cbn; constructor.
  - apply IH. by apply Forall_cons_1 in Hr as [_ Hr].
  - apply Forall_cons_1 in Hr as [[[e He] _] Hr]. apply Forall_map, Forall_forall. intros j Hj. cbn.
    eapply Forall_forall in Hr as [[e' He'] Hst]; [|exact Hj]. eapply Forall_forall in Hf; [|exact Hj].
    rewrite (rkey_lookup _ _ _ He), (rkey_lookup _ _ _ He'). by eapply (Hst _ He' _ _ Hf).
Qed.

Lemma parse_step (a b : list nat) i :
  ridx = a ++ i :: b ->
  let ks := map (rkey l) a in
  parse_restart payload T offs
    (mkRestartIndex (map at_ a) (key_starts ks) (concat ks), last ks) (Z.of_nat (length a)) =
  Ok (mkRestartIndex (map at_ (a ++ [i])) (key_starts (ks ++ [rkey l i])) (concat (ks ++ [rkey l i])),
      last (ks ++ [rkey l i])).
Proof.
  intros E ks. unfold parse_restart.
  assert (i ∈ ridx) as Hin by (rewrite E; set_solver).
  assert (off_at offs (Z.of_nat (length a)) = at_ i) as ->.
  { apply off_at_table; [apply (at_table ridx ridx_lt)|]. rewrite E, map_app, lookup_app_r by by rewrite length_map.
    by rewrite length_map, Nat.sub_diag. }
  pose proof (at_bounds i (ridx_lt i Hin)) as Hb. pose proof T_nonneg.
  rewrite (proj2 (Z.ltb_ge _ _)), (proj2 (Z.leb_gt _ _)) by lia. cbn [orb].
  pose proof (bi_ridx _ _ _ _ _ _ Hinv) as Hr. eapply Forall_forall in Hr as [Hfk Hst]; [|exact Hin].
  rewrite restart_key_ok by done. cbn [mbind Result_bind].
  assert (match last ks with Some p => bytes_leb (rkey l i) p | None => false end = false) as ->.
  { destruct (last ks) as [p|] eqn:L; [|done]. apply bytes_leb_false. unfold ks in L. rewrite last_lookup in L.
    pose proof (lookup_lt_Some _ _ _ L) as Hlt. rewrite length_map in *.
    apply (sorted_lookup bytes_lt _ (pred (length a)) (length a) p (rkey l i) restart_keys_asc).
    - rewrite E, map_app. by apply lookup_app_l_Some.
    - rewrite E, map_app, lookup_app_r by by rewrite length_map. by rewrite length_map, Nat.sub_diag.
    - lia. }
  rewrite last_snoc, key_starts_snoc, map_app, concat_app. cbn [map concat]. rewrite app_nil_r.
  rewrite !as_u32_small; [done| |unfold is_u32; lia].
  split; [apply zlen_nonneg | by eapply restart_keys_size].
Qed.

Lemma restart_parse_ok :
  restart_index_parse offs payload T = Ok (blob_index (map at_ ridx) (map (rkey l) ridx)).
Proof.
  unfold restart_index_parse. replace (zlen offs / 4) with (zlen ridx).
  2: { rewrite zlen_offs, Z.mul_comm, Z.div_mul; lia. }
  assert (forall b a, ridx = a ++ b ->
    fold_result (parse_restart payload T offs)
      (mkRestartIndex (map at_ a) (key_starts (map (rkey l) a)) (concat (map (rkey l) a)), last (map (rkey l) a))
      (seqZ (zlen a) (zlen b)) =
    Ok (mkRestartIndex (map at_ ridx) (key_starts (map (rkey l) ridx)) (concat (map (rkey l) ridx)),
        last (map (rkey l) ridx))) as H.
  { induction b as [|i b IH]; intros a E.
    - rewrite app_nil_r in E. by subst a.
    - rewrite zlen_cons, seqZ_cons by (pose proof (zlen_nonneg b); lia). cbn [fold_result].
      pose proof (parse_step a b i E) as Hp. cbv zeta in Hp.
      change (Z.of_nat (length a)) with (zlen a) in Hp. rewrite Hp. cbn [mbind Result_bind].
      replace (map (rkey l) a ++ [rkey l i]) with (map (rkey l) (a ++ [i])) by by rewrite map_app.
      rewrite <-(IH (a ++ [i])) by by rewrite <-app_assoc. f_equal. rewrite zlen_app. cbn. f_equal; lia. }
  specialize (H ridx [] eq_refl). cbn [map concat app last] in H. change (zlen []) with 0 in H.
  unfold key_starts at 1 in H. cbn [length seq map] in H. rewrite H. cbn [mbind Result_bind].
  unfold blob_index. cbn. rewrite as_u32_small; [done|]. split; [apply zlen_nonneg|].
  apply (restart_keys_size ridx []). by rewrite app_nil_r.
Qed.

Lemma at_end : at_ (length l) = zlen payload.
Proof. unfold at_, payload. by rewrite off_length, zlen_app. Qed.

Lemma payload_slice i j :
  (i <= j)%nat -> zslice (at_ i) (at_ j) payload = enc v3 (take (j - i) (drop i l)).
Proof.
  intros Hij. unfold at_, payload, T. rewrite zslice_behind by apply off_nonneg. by apply off_slice.
Qed.

Lemma length_enc (k : list rec) : (length k <= length (enc v3 k))%nat.
Proof.
  induction k as [|x k IH]; [done|]. rewrite enc_cons, !length_app. unfold key_part.
  rewrite length_app. unfold le16 at 1. rewrite length_le_bytes. cbn. lia.
Qed.

(** A window of records starting at a full key. *)
Lemma window_facts i j :
  full_key l i -> let k := take (j - i) (drop i l) in
  recs_ok [] k /\ Forall entry_wf (map snd k) /\ keys_asc k.
Proof.
  intros [e He] k. pose proof (recs_ok_drop _ _ _ _ (bi_ok _ _ _ _ _ _ Hinv) He eq_refl []) as Hok.
  assert (exists a b, l = a ++ k ++ b) as (a & b & El).
  { exists (take i l), (drop (j - i) (drop i l)). unfold k. by rewrite !take_drop. }
  split_and!.
  - unfold k. rewrite <-(take_drop (j - i) (drop i l)) in Hok. by apply recs_ok_app in Hok as [Hok _].
  - rewrite El, !map_app in Hwf. apply Forall_app in Hwf as [_ Hw]. by apply Forall_app in Hw as [Hw _].
  - rewrite El in Hasc. apply sorted_app_inv in Hasc as [_ Ha]. by apply sorted_app_inv in Ha as [Ha _].
Qed.

Lemma rows_below i key (k : list rec) :
  full_key l i -> run_start l i -> bytes_leb (rkey l i) key = true -> k = take i l ->
  forall e, e ∈ rows_of v3 k -> se_key e <> key.
Proof.
  intros [ei Hi] Hst Hle -> e He. apply rows_of_key in He as (y & Hy & ->).
  apply list_elem_of_lookup in Hy as (n & Hy). apply lookup_take_Some in Hy as [Hy Hn].
  apply bytes_lt_neq. rewrite (rkey_lookup _ _ _ Hi) in Hle.
  eapply bytes_lt_leb_trans; [|exact Hle]. by eapply Hst.
Qed.
Lemma rows_above j key :
  (j < length l)%nat -> bytes_lt key (rkey l j) -> forall e, e ∈ rows_of v3 (drop j l) -> se_key e <> key.
Proof.
  intros Hj Hlt e He. apply rows_of_key in He as (y & Hy & ->).
  apply list_elem_of_lookup in Hy as (n & Hy). rewrite lookup_drop in Hy.
  destruct (lookup_lt_is_Some_2 l j Hj) as [x Hx]. rewrite (rkey_lookup _ _ _ Hx) in Hlt.
  intros <-. apply (bytes_lt_irrefl (se_key y.2)). destruct n as [|n].
  - rewrite Nat.add_0_r in Hy. congruence.
  - pose proof (sorted_lookup _ _ _ _ _ _ Hasc Hx Hy ltac:(lia)) as Hle. cbn in Hle.
    by eapply bytes_lt_leb_trans.
Qed.

Lemma rows_of_app (a b : list rec) : rows_of v3 (a ++ b) = rows_of v3 a ++ rows_of v3 b.
Proof. by rewrite !map_app. Qed.

Lemma block_get_v2_ok b key rid :
  db_v3 b = v3 -> db_v4 b = v4 -> block_get_v2 b key payload rid = Ok (find_row key rid (rows_of v3 l)).
Proof.
  intros E3 E4. unfold block_get_v2. rewrite E3, E4, table_bounds_ok. cbn [mbind Result_bind].
  rewrite offs_slice, restart_parse_ok. cbn [mbind Result_bind]. cbn [blk_offs blob_index].
  rewrite length_map. set (idx := blob_index _ _).
  pose proof (restart_search_spec idx key (map (rkey l) ridx) (S (length ridx)) 0 (length ridx)
    (fun i k => blob_key _ _ i k) restart_keys_asc) as Hs.
  rewrite length_map in Hs. specialize (Hs ltac:(lia) ltac:(lia) ltac:(lia)).
  destruct Hs as (Hr & Hlo & Hhi).
  { intros i k Hi Hk. apply lookup_lt_Some in Hk. rewrite length_map in Hk. lia. }
  assert (forall n i, ridx !! n = Some i -> full_key l i /\ run_start l i) as Hfk.
  { intros n i Hn. pose proof (bi_ridx _ _ _ _ _ _ Hinv) as Hx. eapply Forall_forall in Hx; [exact Hx|].
    by eapply list_elem_of_lookup_2. }
  assert (forall n i, ridx !! n = Some i -> map (rkey l) ridx !! n = Some (rkey l i)) as Hkey.
  { intros n i Hn. by rewrite list_lookup_fmap, Hn. }
  destruct (restart_search (S (length ridx)) idx key 0 (length ridx)) as [|r] eqn:Er.
  { f_equal. symmetry. pose proof (bi_first _ _ _ _ _ _ Hinv eq_refl Hne) as H0.
    apply find_row_none. apply (rows_above 0); [destruct l; [done | cbn; lia]|].
    apply (Hhi 0%nat); [lia | by apply Hkey]. }
  destruct (lookup_lt_is_Some_2 ridx r) as [i Hi]; [lia|]. destruct (Hfk _ _ Hi) as [Hfi Hsi].
  set (j := default (length l) (ridx !! S r)).
  assert (i <= j <= length l)%nat as Hij.
  { unfold j. pose proof (full_key_lt _ _ Hfi). destruct (ridx !! S r) as [j'|] eqn:Ej; cbn; [|lia].
    pose proof (full_key_lt _ _ (proj1 (Hfk _ _ Ej))).
    pose proof (sorted_lookup lt _ _ _ _ _ (bi_sorted _ _ _ _ _ _ Hinv) Hi Ej). lia. }
  assert (nth r (map at_ ridx) 0 = at_ i) as ->.
  { rewrite nth_lookup, list_lookup_fmap, Hi. done. }
  assert ((if (S r <? length ridx)%nat then nth (S r) (map at_ ridx) 0 else zlen payload) = at_ j) as ->.
  { unfold j. destruct (S r <? length ridx)%nat eqn:El.
    - apply Nat.ltb_lt in El. destruct (lookup_lt_is_Some_2 _ _ El) as [j' Hj'].
      rewrite nth_lookup, list_lookup_fmap, Hj'. done.
    - apply Nat.ltb_ge in El. rewrite lookup_ge_None_2 by done. cbn. by rewrite at_end. }
  rewrite payload_slice by lia. destruct (window_facts i j Hfi) as (Wok & Wwf & Wasc).
  set (k := take (j - i) (drop i l)) in *.
  assert (l = take i l ++ k ++ drop j l) as El.
  { unfold k. rewrite <-(take_drop i l) at 1. f_equal. rewrite <-(take_drop (j - i) (drop i l)) at 1. f_equal.
    rewrite drop_drop. f_equal. lia. }
  destruct (interval_scan_spec v3 key rid k (S (length (enc v3 k))) [] (cursor_new (enc v3 k))) as [c' Hc]; try done.
  { pose proof (length_enc k). lia. }
  unfold run_dec. rewrite Hc. cbn. f_equal. rewrite El at 1. rewrite !rows_of_app, !find_row_app.
  rewrite (find_row_none key rid (rows_of v3 (take i l))).
  2: { eapply (rows_below i); try done. by eapply (Hlo r); [lia | apply Hkey]. }
  destruct (find_row key rid (rows_of v3 k)); [done|]. symmetry. unfold j.
  destruct (ridx !! S r) as [j'|] eqn:Ej; cbn.
  - apply find_row_none, rows_above; [by apply full_key_lt, (Hfk _ _ Ej)|]. eapply (Hhi (S r)); [lia | by apply Hkey].
  - by rewrite drop_all.
Qed.

Lemma payload_entries_ok b :
  db_v2 b = true -> db_v3 b = v3 -> db_v4 b = v4 -> db_entries b = zlen l ->
  payload_entries b payload = Ok (rows_of v3 l).
Proof.
  intros E2 E3 E4 En. unfold payload_entries. rewrite E2, E3, E4, En, table_bounds_ok. cbn [mbind Result_bind].
  assert (zdrop T payload = enc v3 l) as -> by (unfold payload; by rewrite zdrop_app).
  destruct (decode_all v3 l (Z.to_nat (zlen l)) (bi_ok _ _ _ _ _ _ Hinv) Hwf (zlen_to_nat l)) as (c & Hd & He).
  rewrite Hd. cbn [mbind Result_bind]. by rewrite He.
Qed.
End Block.

(* ------------------------------------------------------------------ *)
(** * The dense window of a v4 block *)

Section Dense.
Context (st : BlockState) (l : list rec) (ridx : list nat).
Context (Hinv : block_inv true true true st l ridx).
Context (Hwf : Forall entry_wf (map snd l)).
Context (Hasc : keys_asc l).
Let table := block_table true st.
Let payload := table ++ enc true l.
Context (Hfit : zlen payload < U32).

Let T := zlen table.
Let dp := dense_points true (length l).
Let doffs := concat (map le32 (map (fun i => T + off true l i) dp)).

Lemma dense_table_ok : dense_table payload = Ok (zlen dp, T, doffs).
Proof.
  pose proof (T_eq true true st l ridx Hinv Hfit) as ET. cbv beta iota in ET. fold table T dp in ET.
  assert (zlen payload = T + zlen (enc true l)) as EP by (unfold payload; by rewrite zlen_app).
  pose proof (zlen_nonneg (enc true l)). pose proof (zlen_nonneg ridx). pose proof (zlen_nonneg dp).
  pose proof (restarts_read true true st l ridx Hinv Hfit) as R1. fold table payload in R1.
  unfold dense_table. rewrite R1. cbn [mbind Result_bind].
  rewrite (proj2 (Z.ltb_ge (zlen payload) (6 + 4 * zlen ridx + 4))) by lia.
  destruct (dense_slices true true st l ridx Hinv Hfit eq_refl) as [D1 D2]. fold table payload dp T in D1, D2.
  rewrite D1, le_val_le32 by apply (counts_u32 true true st l ridx Hinv Hfit). fold dp.
  replace (6 + 4 * zlen ridx + 4 + 4 * zlen dp) with T by lia.
  rewrite (proj2 (Z.ltb_ge (zlen payload) T)) by lia. by rewrite D2.
Qed.

Lemma doffs_at (j : nat) :
  (16 * j < length l)%nat -> off_at doffs (Z.of_nat j) = T + off true l (16 * j).
Proof.
  intros Hj. apply off_at_table.
  - apply (at_table true true st l ridx Hinv Hfit dp). intros i Hi. by apply (dp_lt true).
  - rewrite list_lookup_fmap. unfold dp. by rewrite cadence_lookup.
Qed.

Lemma dp_len : zlen dp = Z.of_nat (cadence_count (length l)).
Proof. unfold zlen, dp. by rewrite cadence_count_len. Qed.

(** The end of the window that starts at cadence point [q]. *)
Lemma window_end (q : nat) :
  (16 * q < length l)%nat ->
  (if Z.of_nat q + 1 <? zlen dp then off_at doffs (Z.of_nat q + 1) else zlen payload) =
  T + off true l (Nat.min (16 * (q + 1)) (length l)).
Proof.
  intros Hq. assert (zlen payload = T + zlen (enc true l)) as EP by (unfold payload; by rewrite zlen_app).
  rewrite dp_len. unfold cadence_count. destruct (Z.of_nat q + 1 <? _) eqn:E; bool_to_prop.
  - assert (16 * (q + 1) < length l)%nat as Hj.
    { apply Nat.lt_nge. intros Hge.
      assert ((length l + 15) / 16 < q + 2)%nat by (apply Nat.div_lt_upper_bound; lia). lia. }
    replace (Z.of_nat q + 1) with (Z.of_nat (q + 1)) by lia. rewrite doffs_at by done. do 2 f_equal. lia.
  - rewrite EP. f_equal. rewrite Nat.min_r; [by rewrite off_length|].
    pose proof (Nat.div_mod_eq (length l + 15) 16). pose proof (Nat.mod_upper_bound (length l + 15) 16 ltac:(lia)). lia.
Qed.

(** Decoding a window up to its [m]-th record yields that record's row last. *)
Lemma window_decode (k : list rec) (m : nat) x :
  recs_ok [] k -> Forall entry_wf (map snd k) -> k !! m = Some x ->
  exists es, run_dec (decode_entries true (S m) []) (enc true k) = Ok es /\ last es = Some x.2.
Proof.
  intros Wok Wwf Hk. pose proof (lookup_lt_Some _ _ _ Hk) as Hlk.
  rewrite <-(take_drop (S m) k) in Wok, Wwf |- *. apply recs_ok_app in Wok as [Wok _].
  rewrite map_app in Wwf. apply Forall_app in Wwf as [Wwf _]. rewrite enc_app.
  pose proof (reads_entries true [] (take (S m) k) (enc true (drop (S m) k)) Wok Wwf) as Hr.
  rewrite length_take, Nat.min_l in Hr by lia.
  eexists. split; [apply (reads_run_front _ _ _ _ _ eq_refl Hr)|].
  rewrite (take_S_r _ _ _ Hk), !map_app. cbn [map]. by rewrite last_snoc.
Qed.

Lemma dense_entry_ok (n : nat) x :
  l !! n = Some x -> dense_entry payload (Z.of_nat n) = Ok (Some x.2).
Proof.
  intros Hx. pose proof (lookup_lt_Some _ _ _ Hx) as Hn.
  unfold dense_entry. rewrite dense_table_ok. cbn [mbind Result_bind].
  set (q := (n / 16)%nat). set (m := (n mod 16)%nat).
  assert (n = 16 * q + m /\ m < 16)%nat as [En Hm].
  { split; [apply Nat.div_mod_eq | by apply Nat.mod_upper_bound]. }
  change RESTART_INTERVAL with (Z.of_nat 16). rewrite <-Nat2Z.inj_div, <-Nat2Z.inj_mod. fold q m.
  rewrite (proj2 (Z.leb_gt (zlen dp) (Z.of_nat q))).
  2: { rewrite dp_len. apply inj_lt. unfold cadence_count. apply Nat.div_le_lower_bound; lia. }
  rewrite doffs_at, window_end by lia. set (j := Nat.min (16 * (q + 1)) (length l)).
  assert (full_key l (16 * q)) as Hfk.
  { pose proof (bi_full _ _ _ _ _ _ Hinv) as Hf. eapply Forall_forall in Hf; [exact Hf|].
    eapply (list_elem_of_lookup_2 _ q), cadence_lookup. lia. }
  assert (off true l (16 * q) < off true l j <= zlen (enc true l)) as Hoff.
  { split; [|rewrite <-off_length; apply off_mono; lia].
    destruct Hfk as [e He]. eapply Z.lt_le_trans; [|apply (off_mono true l (S (16 * q))); lia].
    unfold off at 2. rewrite (take_S_r _ _ _ He), enc_app, zlen_app. fold (off true l (16 * q)).
    rewrite enc_cons. unfold key_part. zlen_solve. }
  pose proof (off_nonneg true l (16 * q)).
  assert (zlen payload = T + zlen (enc true l)) as EP by (unfold payload; by rewrite zlen_app).
  rewrite (proj2 (Z.ltb_ge _ T)), (proj2 (Z.leb_gt (T + off true l j) _)), (proj2 (Z.ltb_ge (zlen payload) _)) by lia.
  cbn [orb]. unfold T, payload. rewrite zslice_behind, off_slice by (lia || apply off_nonneg).
  destruct (window_facts true true st l ridx Hinv Hwf Hasc (16 * q) j Hfk) as (Wok & Wwf & _).
  destruct (window_decode _ m x Wok Wwf) as (es & Hes & Hl).
  { rewrite lookup_take_lt, lookup_drop by lia. by rewrite <-En. }
  rewrite Nat2Z.id, Hes. cbn [mbind Result_bind]. by rewrite Hl.
Qed.
End Dense.
