(* ===== verification/SegmentFile.v ===== *)
(** A published segment opens to a reader over its rows: the block split partitions the
    rows, the file is header, data blocks, index, bloom and footer, and [open_segment]
    finds every block where the index says it is. *)

From S2P Require Import Prelude Cursor Format Identity Segment SegmentBlock SegmentLookup.

(* ------------------------------------------------------------------ *)
(** * The split is a partition *)

(** Contiguous non-empty spans from [a] to [b]. *)
Fixpoint spans (a : Z) (bs : list (Z * Z)) (b : Z) : Prop :=
  match bs with
  | [] => a = b
  | (x, y) :: bs => x = a /\ x < y /\ spans y bs b
  end.

Lemma spans_snoc a bs x y : spans a bs x -> x < y -> spans a (bs ++ [(x, y)]) y.
Proof.
  revert a. induction bs as [|[u v] bs IH]; intros a; cbn; [intros -> H; auto|].
  intros (-> & H & Hs) Hxy. auto.
Qed.

Lemma spans_le a bs b : spans a bs b -> a <= b.
Proof.
  revert a. induction bs as [|[u v] bs IH]; intros a; cbn; [lia|]. intros (-> & H & Hs). apply IH in Hs. lia.
Qed.

Definition dry_inv (i : Z) (st : DryState) : Prop :=
  0 <= dry_start st <= i /\ spans 0 (dry_bounds st) (dry_start st) /\ (0 < dry_len st -> dry_start st < i).

Lemma dry_step_inv target v2 v3 v4 st i e :
  dry_inv i st -> dry_inv (i + 1) (dry_step target v2 v3 v4 st (i, e)) /\ dry_start (dry_step target v2 v3 v4 st (i, e)) <= i.
Proof.
  intros (Hs & Hsp & Hlen). unfold dry_step.
  destruct ((0 <? dry_len st) && (target <? dry_len st + entry_len v3 (shared_of (dry_prev st) e) e)) eqn:E.
  - bool_to_prop. apply Hlen in H. cbn.
    assert (spans 0 (dry_bounds st ++ [(dry_start st, i)]) i) by by apply spans_snoc.
    case_test; cbn; (split; [|lia]); split_and!; cbn; try lia; done.
  - case_test; cbn; (split; [|lia]); split_and!; cbn; try lia; done.
Qed.

Lemma block_bounds_spans w entries : entries <> [] -> spans 0 (block_bounds w entries) (zlen entries).
Proof.
  intros Hne. unfold block_bounds, enumerate. set (f := dry_step _ _ _ _).
  assert (forall l i st, dry_inv i st ->
    let st' := fold_left f (zip (seqZ i (zlen l)) l) st in
    dry_inv (i + zlen l) st' /\ (l <> [] -> dry_start st' < i + zlen l)) as H.
  { induction l as [|e l IH]; intros i st Hi.
    - cbn. rewrite Z.add_0_r. done.
    - rewrite zlen_cons, seqZ_cons by (pose proof (zlen_nonneg l); lia). cbn [zip zip_with fold_left].
      destruct (dry_step_inv (sw_target w) (sw_v2 w) (sw_v3 w) (sw_v4 w) st i e Hi) as [H1 H2]. fold f in H1, H2.
      specialize (IH (i + 1) _ H1). replace (Z.pred (1 + zlen l)) with (zlen l) by lia. unfold Z.succ.
      replace (i + (1 + zlen l)) with (i + 1 + zlen l) by lia. cbv zeta in *. destruct IH as [I1 I2]. split; [done|].
      intros _. destruct l as [|e' l]; [|by apply I2]. rewrite zip_with_nil_r. cbn [fold_left].
      change (zlen []) with 0. lia. }
  specialize (H entries 0 (mkDryState 0 None None None 0 [])). cbv zeta in H.
  destruct H as [(Hs & Hsp & _) Hlt]; [unfold dry_inv; cbn; split_and!; try lia; done|].
  apply spans_snoc; [done|]. by apply Hlt.
Qed.

(** The rows of each span, and back. *)
Definition split_rows (bounds : list (Z * Z)) (entries : list SegmentEntry) : list (list SegmentEntry) :=
  map (fun '(a, b) => zslice a b entries) bounds.

Lemma split_concat bounds (entries : list SegmentEntry) a :
  0 <= a -> spans a bounds (zlen entries) -> concat (split_rows bounds entries) = zdrop a entries.
Proof.
  revert a. induction bounds as [|[x y] bs IH]; intros a Ha; cbn.
  - intros ->. unfold zdrop. by rewrite zlen_to_nat, drop_all.
  - intros (-> & Hxy & Hs). fold (split_rows bs entries). rewrite (IH y) by (lia || done). unfold zslice.
    replace (zdrop y entries) with (zdrop (y - a) (zdrop a entries)); [by rewrite ztake_zdrop|].
    rewrite zdrop_zdrop by lia. f_equal. lia.
Qed.

Lemma split_lens bounds (entries : list SegmentEntry) a :
  0 <= a -> spans a bounds (zlen entries) ->
  Forall2 (fun '(x, y) rows => zlen rows = y - x /\ rows <> []) bounds (split_rows bounds entries).
Proof.
  revert a. induction bounds as [|[x y] bs IH]; intros a Ha; cbn; [constructor|].
  intros (-> & Hxy & Hs). pose proof (spans_le _ _ _ Hs). constructor.
  - assert (zlen (zslice a y entries) = y - a) as E by (apply zlen_zslice; lia). split; [done|].
    intros H0. rewrite H0 in E. change (zlen []) with 0 in E. lia.
  - apply (IH y); [lia | done].
Qed.

(* ------------------------------------------------------------------ *)
(** * Blocks of a published segment *)

(** The writer's version flags, as its constructors set them. *)
Definition flags_ok (w : SegmentWriter) : Prop :=
  (sw_v4 w = true -> sw_v3 w = true) /\ (sw_v3 w = true -> sw_v2 w = true).

Abbreviation rows_asc := (StronglySorted (fun a b : SegmentEntry => bytes_leb (se_key a) (se_key b) = true)).

(** Rows whose encoding, tables included, stays inside the format's u32 fields. *)
Definition fits (entries : list SegmentEntry) : Prop := 2 * full_size true entries + 64 < U32.

Definition first_key (rows : list SegmentEntry) : bytes :=
  match rows !! 0%nat with Some e => se_key e | None => [] end.
Definition last_key (rows : list SegmentEntry) : bytes :=
  match last rows with Some e => se_key e | None => [] end.

Section File.
Context {SHA : Sha256}.
Context (w : SegmentWriter).
Implicit Types (rows entries : list SegmentEntry) (blocks : list (list SegmentEntry)).

Let v2 := sw_v2 w.
Let v3 := sw_v3 w.
Let v4 := sw_v4 w.

Definition data_state rows : BlockState :=
  default block_state0 (encode_entries v2 v3 v4 block_state0 (enumerate rows)).
Definition data_payload rows : bytes := block_payload v2 v4 (data_state rows).
Definition data_block rows : bytes :=
  encode_block BLOCK_DATA (as_u32 (zlen rows)) (data_payload rows) (data_version v2 v3 v4).

(** What the encode pass leaves behind for the rows of a block. *)
Record block_good rows : Prop := {
  bg_ne : rows <> [];
  bg_wf : Forall entry_wf rows;
  bg_asc : rows_asc rows;
  bg_enc : encode_entries v2 v3 v4 block_state0 (enumerate rows) = Some (data_state rows);
  bg_fit : zlen (data_payload rows) < U32;
  bg_min : MIN_ENTRY_LEN * zlen rows <= zlen (data_payload rows);
  bg_inv : exists l ridx, block_inv v2 v3 v4 (data_state rows) l ridx /\ map snd l = rows }.

Lemma full_size_mono rows : full_size v3 rows <= full_size true rows.
Proof. induction rows as [|e rows IH]; cbn [full_size]; [done|]. unfold entry_len. destruct v3; lia. Qed.
Lemma full_size_count rows : 25 * zlen rows <= full_size true rows.
Proof.
  induction rows as [|e rows IH]; cbn [full_size]; [done|]. rewrite zlen_cons. unfold entry_len.
  pose proof (zlen_nonneg (se_key e)). pose proof (zlen_nonneg (se_value e)). lia.
Qed.

Lemma enc_min (v : bool) (l : list rec) base : recs_ok base l -> MIN_ENTRY_LEN * zlen l <= zlen (enc v l).
Proof.
  intros H%recs_ok_len. unfold MIN_ENTRY_LEN. induction H as [|[s e] l Hx _ IH]; [done|]. cbn in Hx. unfold enc in *.
  cbn [map concat]. rewrite zlen_app, zlen_cons, entry_bytes_len by (cbn; lia). unfold entry_len. cbn [fst snd].
  pose proof (zlen_nonneg (se_value e)). destruct v; lia.
Qed.

Lemma sorted_length_le (r : list nat) (n : nat) :
  StronglySorted lt r -> Forall (fun i => (i < n)%nat) r -> zlen r <= Z.of_nat n.
Proof.
  intros Hs. assert (forall a, Forall (fun i => (a <= i < n)%nat) r -> (length r <= n - a)%nat) as H.
  { induction Hs as [|i r Hs IH Hf]; intros a Ha; cbn; [lia|]. apply Forall_cons_1 in Ha as [Hi Ha].
    assert (length r <= n - S i)%nat; [|lia]. apply IH. apply Forall_forall. intros j Hj.
    eapply Forall_forall in Hf; [|exact Hj]. eapply Forall_forall in Ha; [|exact Hj]. lia. }
  intros Hn. unfold zlen. specialize (H 0%nat). enough (length r <= n - 0)%nat by lia. apply H.
  eapply Forall_impl; [exact Hn|]. cbn. intros. lia.
Qed.

(** The tables cost at most eight bytes a row. *)
Lemma block_table_size st l ridx :
  block_inv v2 v3 v4 st l ridx -> zlen (block_table v4 st) <= 10 + 8 * zlen l.
Proof.
  intros Hi. unfold block_table.
  assert (forall f (ix : list Z), zlen (concat (map (fun pos => le32 (f pos)) ix)) = 4 * zlen ix) as Hc.
  { intros f ix. rewrite <-(map_map f le32), zlen_concat_le32. unfold zlen. by rewrite length_map. }
  assert (zlen (bs_restarts st) <= zlen l) as Hr.
  { rewrite (bi_restarts _ _ _ _ _ _ Hi). unfold zlen. rewrite length_map. fold (zlen ridx).
    apply sorted_length_le; [by eapply bi_sorted | by eapply inv_ridx_lt]. }
  assert (zlen (bs_dense st) <= zlen l) as Hd.
  { rewrite (bi_dense _ _ _ _ _ _ Hi). unfold zlen. rewrite length_map. unfold dense_points. destruct v4; [|cbn; lia].
    pose proof (List.filter_length_le (fun i => on_cadence (Z.of_nat i)) (seq 0 (length l))) as Hf.
    rewrite length_seq in Hf. lia. }
  autorewrite with zlen. rewrite Hc. pose proof (zlen_nonneg l).
  destruct v4; autorewrite with zlen; rewrite ?Hc; lia.
Qed.

Lemma block_good_of rows :
  flags_ok w -> rows <> [] -> Forall entry_wf rows -> rows_asc rows -> fits rows -> block_good rows.
Proof.
  intros [H43 H32] Hne Hwf Hasc Hfit. unfold fits in Hfit.
  pose proof (full_size_mono rows). pose proof (full_size_count rows). pose proof (full_size_nonneg v3 rows).
  destruct (encode_entries_inv v2 v3 v4 rows block_state0 [] []) as (st & l & ridx & He & Hi & Es); try done.
  - unfold v2, v4. auto.
  - apply block_inv_0.
  - cbn [map app]. lia.
  - assert (data_state rows = st) as Est.
    { unfold data_state, enumerate. change (zlen []) with 0 in He. by rewrite He. }
    pose proof (bi_ok _ _ _ _ _ _ Hi) as Hok. pose proof (enc_size v3 _ _ Hok) as Hsz.
    pose proof (enc_min v3 _ _ Hok) as Hmin. cbn [map app] in Es. rewrite Es in Hsz.
    assert (zlen l = zlen rows) as El by (rewrite <-Es; unfold zlen; by rewrite length_map).
    pose proof (block_table_size _ _ _ Hi) as Ht. pose proof (zlen_nonneg (block_table v4 st)).
    split; try done.
    + rewrite Est. exact He.
    + unfold data_payload, block_payload. rewrite Est, (bi_payload _ _ _ _ _ _ Hi).
      destruct v2; rewrite ?zlen_app; lia.
    + unfold data_payload, block_payload. rewrite Est, (bi_payload _ _ _ _ _ _ Hi), <-El.
      destruct v2; rewrite ?zlen_app; lia.
    + rewrite Est. eauto.
Qed.

(* ------------------------------------------------------------------ *)
(** * The block loop in closed form *)

Fixpoint index_bytes (offset : Z) blocks : bytes :=
  match blocks with
  | [] => []
  | rows :: blocks =>
      index_record (first_key rows) (last_key rows) offset (as_u32 (zlen rows)) ++
      index_bytes (offset + zlen (data_block rows)) blocks
  end.
Fixpoint anchors_of (id : Z) blocks (acc : AnchorMap) :=
  match blocks with
  | [] => acc
  | rows :: blocks => anchors_of (id + 1) blocks (fold_left (anchor_step v3 id) (enumerate rows) acc)
  end.

Lemma last_nonempty {A} (l : list A) : l <> [] -> exists x, last l = Some x.
Proof. intros H. destruct (last l) eqn:E; [eauto|]. by apply last_None in E. Qed.

Lemma publish_blocks m entries bounds id ps :
  Forall2 (fun '(x, y) rows => zlen rows = y - x /\ rows <> []) bounds (split_rows bounds entries) ->
  Forall block_good (split_rows bounds entries) ->
  let blocks := split_rows bounds entries in
  fold_result (publish_block w m entries) ps (zip (seqZ id (zlen bounds)) bounds) =
  Ok (mkPubState (ps_out ps ++ concat (map data_block blocks))
        (ps_index ps ++ index_bytes (zlen (ps_out ps)) blocks)
        (ps_skeleton ps ++ concat (map (fun rows => ztake BLOCK_HEADER_LEN (data_block rows)) blocks))
        (anchors_of id blocks (ps_anchors ps))
        (fold_left (bloom_add m) (concat blocks) (ps_bits ps))).
Proof.
  revert id ps. induction bounds as [|[x y] bs IH]; intros id ps Hl Hg blocks.
  { cbn. rewrite !app_nil_r. by destruct ps. }
  cbn [split_rows map] in Hl, Hg. fold (split_rows bs entries) in Hl, Hg.
  apply Forall2_cons_1 in Hl as [[Hlen Hne] Hl]. apply Forall_cons_1 in Hg as [Hb Hg].
  rewrite zlen_cons, seqZ_cons by (pose proof (zlen_nonneg bs); lia). cbn [zip zip_with fold_result].
  set (rows := zslice x y entries) in *.
  assert (publish_block w m entries ps (id, (x, y)) =
    Ok (mkPubState (ps_out ps ++ data_block rows)
      (ps_index ps ++ index_record (first_key rows) (last_key rows) (zlen (ps_out ps)) (as_u32 (zlen rows)))
      (ps_skeleton ps ++ ztake BLOCK_HEADER_LEN (data_block rows))
      (fold_left (anchor_step v3 id) (enumerate rows) (ps_anchors ps))
      (fold_left (bloom_add m) rows (ps_bits ps)))) as ->.
  { unfold publish_block. fold rows v2 v3 v4. rewrite (bg_enc _ Hb). unfold first_key, last_key.
    destruct (rows !! 0%nat) as [e0|] eqn:E0; [|exfalso; apply lookup_ge_None in E0; apply Hne, nil_length_inv; lia].
    destruct (last_nonempty rows Hne) as [e1 ->]. unfold data_block, data_payload. by rewrite Hlen. }
  cbn [mbind Result_bind]. replace (Z.pred (1 + zlen bs)) with (zlen bs) by lia. unfold Z.succ.
  rewrite IH by done. cbn [ps_out ps_index ps_skeleton ps_anchors ps_bits]. cbn [blocks split_rows map concat].
  unfold blocks. cbn [split_rows map concat index_bytes anchors_of]. fold rows (split_rows bs entries).
  rewrite fold_left_app, zlen_app. by rewrite <-!app_assoc.
Qed.
End File.

(* ------------------------------------------------------------------ *)
(** * Walking the blocks of a file *)

Section Walk.
Context {SHA : Sha256}.

Lemma read_at (a x b : bytes) o n :
  o = zlen a -> n = zlen x -> read_segment_at (a ++ x ++ b) o n = Ok x.
Proof.
  intros -> ->. unfold read_segment_at. rewrite (proj2 (Z.ltb_ge _ _)).
  - f_equal. by apply zslice_mid.
  - rewrite !zlen_app. pose proof (zlen_nonneg b). lia.
Qed.

Lemma read_at_0 (x b : bytes) n : n = zlen x -> read_segment_at (x ++ b) 0 n = Ok x.
Proof. intros ->. by apply (read_at []). Qed.

Definition block_fields (kind entries : Z) (payload : bytes) (version : Z) : bytes :=
  BLOCK_MAGIC ++ le16 version ++ [byte_of kind] ++ [byte_of 0] ++ le32 entries ++
  le32 (zlen payload) ++ le32 (zlen payload).
Definition block_header (kind entries : Z) (payload : bytes) (version : Z) : bytes :=
  block_fields kind entries payload version ++ checksum8 (block_fields kind entries payload version ++ payload).

Lemma encode_block_split kind entries payload version :
  zlen payload < U32 ->
  encode_block kind entries payload version = block_header kind entries payload version ++ payload.
Proof.
  intros H. unfold encode_block, block_header, block_fields.
  rewrite as_u32_small by (split; [apply zlen_nonneg | done]). by rewrite <-app_assoc.
Qed.
Lemma zlen_block_fields kind entries payload version : zlen (block_fields kind entries payload version) = 20.
Proof. unfold block_fields, BLOCK_MAGIC. autorewrite with zlen. lia. Qed.
Lemma zlen_block_header kind entries payload version : zlen (block_header kind entries payload version) = BLOCK_HEADER_LEN.
Proof. unfold block_header. rewrite zlen_app, zlen_block_fields, zlen_checksum8. done. Qed.

Lemma block_header_reads kind entries payload version :
  is_u8 kind -> is_u32 entries -> zlen payload < U32 -> is_u16 version ->
  run_dec block_header_dec (block_header kind entries payload version) =
  Ok (BLOCK_MAGIC, version, kind, 0, entries, zlen payload,
      checksum8 (block_fields kind entries payload version ++ payload)).
Proof.
  intros H1 H2 H3 H4. assert (is_u32 (zlen payload)) by (split; [apply zlen_nonneg | done]).
  eapply reads_run; [done|]. unfold block_header. set (ck := checksum8 _). unfold block_fields, block_header_dec.
  rewrite <-!app_assoc. eapply reads_bind; [by apply reads_take|]. do 2 reads_field.
  eapply reads_bind; [by apply reads_u8|]. do 3 reads_field.
  eapply reads_map; [apply reads_take, zlen_checksum8 | apply reads_ret].
Qed.

(** The kind order the walk keeps. *)
Definition kind_ok (st : WalkState) (kind : Z) : Prop :=
  match wk_last_kind st with Some k => k <= kind | None => True end.

(** What the walk records of a block. *)
Definition walked (st : WalkState) (cur kind entries : Z) (payload : bytes) (version : Z) : WalkState :=
  if kind =? BLOCK_DATA then
    mkWalkState
      (wk_data st ++ [mkDataBlock cur (zlen payload) entries
         ((version =? 2) || (version =? 3) || (version =? 4))
         ((version =? 3) || (version =? 4)) (version =? 4) (0, 0) (0, 0)])
      (wk_headers st ++ block_header kind entries payload version) (Some kind) (wk_index st) (wk_bloom st)
  else if kind =? BLOCK_INDEX then
    mkWalkState (wk_data st) (wk_headers st) (Some kind) (Some (cur, zlen payload)) (wk_bloom st)
  else mkWalkState (wk_data st) (wk_headers st) (Some kind) (wk_index st) (Some (cur, zlen payload)).

Definition block_valid (st : WalkState) (kind entries : Z) (payload : bytes) (version : Z) : Prop :=
  is_u32 entries /\ zlen payload < U32 /\ kind_ok st kind /\
  (kind = BLOCK_DATA /\ 1 <= version <= 4 /\ MIN_ENTRY_LEN * entries <= zlen payload \/
   kind = BLOCK_INDEX /\ version = SEGMENT_VERSION /\ wk_index st = None \/
   kind = BLOCK_BLOOM /\ version = SEGMENT_VERSION /\ wk_bloom st = None).

Lemma walk_block_ok pre post st kind entries payload version :
  block_valid st kind entries payload version ->
  walk_block (pre ++ encode_block kind entries payload version ++ post) (zlen pre) st =
  Ok (zlen pre + zlen (encode_block kind entries payload version), walked st (zlen pre) kind entries payload version).
Proof.
  intros (Hn & Hp & Hk & Hv). unfold walk_block. rewrite encode_block_split by done.
  pose proof (zlen_block_header kind entries payload version) as Hh. pose proof (zlen_nonneg payload).
  rewrite <-app_assoc, read_at by done. cbn [mbind Result_bind].
  assert (0 <= kind <= 2 /\ 1 <= version <= 4) as [Hk2 Hv4].
  { unfold BLOCK_DATA, BLOCK_INDEX, BLOCK_BLOOM, SEGMENT_VERSION in *. lia. }
  rewrite block_header_reads; [|unfold is_u8, U8; lia | done | done | unfold is_u16, U16; lia].
  cbn [mbind Result_bind]. rewrite slice_eqb_refl. cbn [negb].
  change (0 =? 0) with true. cbn [negb].
  assert ((BLOCK_BLOOM <? kind) || match wk_last_kind st with Some k => kind <? k | None => false end = false) as ->.
  { apply orb_false_iff. split; [apply Z.ltb_ge; unfold BLOCK_BLOOM; lia|].
    unfold kind_ok in Hk. destruct (wk_last_kind st); [by apply Z.ltb_ge | done]. }
  assert ((version =? SEGMENT_VERSION) || ((2 <=? version) && (version <=? 4) && (kind =? BLOCK_DATA)) = true) as ->.
  { unfold SEGMENT_VERSION, BLOCK_DATA, BLOCK_INDEX, BLOCK_BLOOM in *.
    destruct (Z.eqb_spec version 1); [done|]. cbn [orb].
    rewrite (proj2 (Z.leb_le 2 version)), (proj2 (Z.leb_le version 4)), (proj2 (Z.eqb_eq kind 0)) by lia. done. }
  cbn [negb]. rewrite (proj2 (Z.ltb_ge _ (zlen payload))).
  2: { rewrite !zlen_app, Hh. pose proof (zlen_nonneg post). lia. }
  unfold walked. rewrite zlen_app, Hh. unfold BLOCK_DATA, BLOCK_INDEX, BLOCK_BLOOM in *.
  destruct Hv as [(-> & _ & Hm)|[(-> & _ & Hi)|(-> & _ & Hb)]].
  - change (0 =? 0) with true. rewrite (proj2 (Z.ltb_ge (zlen payload / MIN_ENTRY_LEN) entries)).
    + cbn [mbind Result_bind]. do 2 f_equal. lia.
    + apply Z.div_le_lower_bound; unfold MIN_ENTRY_LEN in *; lia.
  - change (1 =? 0) with false. change (1 =? 1) with true. rewrite Hi. cbn [mbind Result_bind]. do 2 f_equal. lia.
  - change (2 =? 0) with false. change (2 =? 1) with false. rewrite Hb. cbn [mbind Result_bind]. do 2 f_equal. lia.
Qed.

Lemma walk_step fuel pre post st kind entries payload version :
  block_valid st kind entries payload version ->
  walk_blocks (S fuel) (pre ++ encode_block kind entries payload version ++ post) (zlen pre) st =
  walk_blocks fuel (pre ++ encode_block kind entries payload version ++ post)
    (zlen (pre ++ encode_block kind entries payload version)) (walked st (zlen pre) kind entries payload version).
Proof.
  intros Hv. cbn [walk_blocks].
  assert (encode_block kind entries payload version = BLOCK_MAGIC ++ zdrop 4 (encode_block kind entries payload version)) as E.
  { symmetry. apply (ztake_zdrop 4 (encode_block kind entries payload version)). }
  pose proof (zlen_nonneg post). pose proof (zlen_nonneg payload).
  assert (zlen (encode_block kind entries payload version) = BLOCK_HEADER_LEN + zlen payload) as Hl.
  { destruct Hv as (_ & Hp & _). by rewrite encode_block_split, zlen_app, zlen_block_header. }
  assert (zlen (pre ++ encode_block kind entries payload version ++ post) - zlen pre =
    BLOCK_HEADER_LEN + zlen payload + zlen post) as Er by (rewrite !zlen_app; lia).
  rewrite Er. rewrite (proj2 (Z.leb_le 4 _)), (proj2 (Z.ltb_ge _ BLOCK_HEADER_LEN)) by (unfold BLOCK_HEADER_LEN; lia).
  rewrite E at 1. rewrite <-app_assoc, read_at by done. cbn [mbind Result_bind].
  change (slice_eqb BLOCK_MAGIC FOOTER_MAGIC) with false. cbv iota.
  rewrite walk_block_ok by done. cbn [mbind Result_bind]. by rewrite zlen_app.
Qed.
End Walk.

(* ------------------------------------------------------------------ *)
(** * Decoders that look at the position *)

Definition reads_at {A} (pos : Z) (p : Dec A) (bs r : bytes) (a : A) : Prop :=
  forall c, cur_ok c -> cur_pos c = pos -> crest c = bs ++ r -> p c = Ok (a, advance c (zlen bs)).

Lemma reads_at_of {A} pos (p : Dec A) bs r a : reads p bs r a -> reads_at pos p bs r a.
Proof. intros H c Hc _. by apply H. Qed.
Lemma reads_at_bind {A B} pos (p : Dec A) (f : A -> Dec B) x y r a b :
  reads_at pos p x (y ++ r) a -> reads_at (pos + zlen x) (f a) y r b -> reads_at pos (p ≫= f) (x ++ y) r b.
Proof.
  intros Hp Hf c Hc Hpos E. rewrite <-app_assoc in E. unfold mbind, Dec_bind. rewrite (Hp c Hc Hpos E).
  rewrite (Hf _ (cur_ok_advance _ _ _ Hc E) ltac:(cbn; lia) (crest_advance _ _ _ Hc E)).
  by rewrite advance_advance, zlen_app.
Qed.
Lemma reads_at_cpos {B} pos (f : Z -> Dec B) y r b : reads_at pos (f pos) y r b -> reads_at pos (cpos ≫= f) y r b.
Proof. intros H c Hc Hpos E. unfold cpos, mbind, Dec_bind, dget. cbn. rewrite Hpos. by apply H. Qed.
Lemma reads_at_guard {B} pos t e (f : unit -> Dec B) y r b :
  t = false -> reads_at pos (f tt) y r b -> reads_at pos (dguard t e ≫= f) y r b.
Proof. intros -> H c Hc Hpos E. unfold mbind, Dec_bind, dguard. by apply H. Qed.

Section Locate.
Context {SHA : Sha256} (w : SegmentWriter).
Implicit Types (rows : list SegmentEntry) (blocks : list (list SegmentEntry)).
Context (Hflags : flags_ok w).

Abbreviation data_block := (data_block w).
Abbreviation data_payload := (data_payload w).
Abbreviation version := (data_version (sw_v2 w) (sw_v3 w) (sw_v4 w)).

Lemma good_count rows : block_good w rows -> is_u32 (zlen rows).
Proof.
  intros Hg. pose proof (bg_fit _ _ Hg). pose proof (bg_min _ _ Hg). unfold MIN_ENTRY_LEN in *.
  pose proof (zlen_nonneg rows). unfold is_u32. lia.
Qed.

Lemma data_block_eq rows :
  block_good w rows ->
  data_block rows = encode_block BLOCK_DATA (zlen rows) (data_payload rows) version.
Proof. intros Hg. unfold SegmentFile.data_block. by rewrite as_u32_small by by apply good_count. Qed.

Lemma version_range : 1 <= version <= 4.
Proof. unfold data_version, SEGMENT_VERSION. destruct (sw_v2 w), (sw_v3 w), (sw_v4 w); lia. Qed.
Lemma version_flags :
  ((version =? 2) || (version =? 3) || (version =? 4)) = sw_v2 w /\
  ((version =? 3) || (version =? 4)) = sw_v3 w /\ (version =? 4) = sw_v4 w.
Proof.
  destruct Hflags as [H1 H2]. unfold data_version, SEGMENT_VERSION.
  destruct (sw_v2 w), (sw_v3 w), (sw_v4 w); try done; exfalso;
    (discriminate (H1 eq_refl) || discriminate (H2 eq_refl)).
Qed.

(** The data blocks as the walk records them, and after the index gave the key ranges. *)
Definition placed_at (offset : Z) rows (fr lr : Z * Z) : DataBlock :=
  mkDataBlock offset (zlen (data_payload rows)) (zlen rows) (sw_v2 w) (sw_v3 w) (sw_v4 w) fr lr.
Fixpoint placed (offset : Z) blocks : list DataBlock :=
  match blocks with
  | [] => []
  | rows :: blocks => placed_at offset rows (0, 0) (0, 0) :: placed (offset + zlen (data_block rows)) blocks
  end.
Fixpoint located (offset pos : Z) blocks : list DataBlock :=
  match blocks with
  | [] => []
  | rows :: blocks =>
      let f := pos + 2 in let f' := f + zlen (first_key rows) in
      let l := f' + 2 in let l' := l + zlen (last_key rows) in
      placed_at offset rows (f, f') (l, l') :: located (offset + zlen (data_block rows)) (l' + 12) blocks
  end.
Fixpoint row_total blocks : Z :=
  match blocks with [] => 0 | rows :: blocks => zlen rows + row_total blocks end.

Lemma walk_data blocks pre post st fuel :
  Forall (block_good w) blocks -> wk_last_kind st = None \/ wk_last_kind st = Some BLOCK_DATA ->
  walk_blocks (length blocks + fuel) (pre ++ concat (map data_block blocks) ++ post) (zlen pre) st =
  walk_blocks fuel (pre ++ concat (map data_block blocks) ++ post) (zlen (pre ++ concat (map data_block blocks)))
    (mkWalkState (wk_data st ++ placed (zlen pre) blocks)
       (wk_headers st ++ concat (map (fun rows => ztake BLOCK_HEADER_LEN (data_block rows)) blocks))
       (match blocks with [] => wk_last_kind st | _ => Some BLOCK_DATA end) (wk_index st) (wk_bloom st)).
Proof.
  intros Hg. revert pre st. induction Hg as [|rows blocks Hr Hg IH]; intros pre st Hk; cbn [map concat placed].
  { rewrite !app_nil_r. by destruct st. }
  pose proof (bg_fit _ _ Hr) as Hfit. pose proof (bg_min _ _ Hr) as Hmin. rewrite <-!(app_assoc (data_block rows)).
  cbn [length Nat.add]. rewrite (data_block_eq rows Hr). rewrite walk_step.
  - set (blk := encode_block _ _ _ _). rewrite (app_assoc pre), (app_assoc pre).
    rewrite IH; [|right; done]. destruct version_flags as (E2 & E3 & E4).
    unfold walked. change (BLOCK_DATA =? BLOCK_DATA) with true. cbn [wk_data wk_headers wk_last_kind wk_index wk_bloom].
    rewrite E2, E3, E4. f_equal.
    f_equal; [| |by destruct blocks].
    + rewrite <-!app_assoc, zlen_app. done.
    + rewrite <-!app_assoc. do 2 f_equal. unfold blk. rewrite encode_block_split by done.
      symmetry. apply ztake_app. by rewrite zlen_block_header.
  - split_and!; [by apply good_count | done | |].
    + unfold kind_ok. by destruct Hk as [-> | ->].
    + left. split_and!; try done; apply version_range.
Qed.

Lemma first_key_u16 rows : Forall entry_wf rows -> is_u16 (zlen (first_key rows)).
Proof.
  intros H. unfold first_key. destruct (rows !! 0%nat) as [e|] eqn:E; [|done].
  eapply Forall_forall in H; [|by eapply list_elem_of_lookup_2]. destruct H as (Hk & _).
  split; [apply zlen_nonneg | done].
Qed.
Lemma last_key_u16 rows : Forall entry_wf rows -> is_u16 (zlen (last_key rows)).
Proof.
  intros H. unfold last_key. destruct (last rows) as [e|] eqn:E; [|done]. rewrite last_lookup in E.
  eapply Forall_forall in H; [|by eapply list_elem_of_lookup_2]. destruct H as (Hk & _).
  split; [apply zlen_nonneg | done].
Qed.

Lemma index_record_len rows offset n :
  zlen (index_record (first_key rows) (last_key rows) offset n) =
  2 + zlen (first_key rows) + 2 + zlen (last_key rows) + 12.
Proof. unfold index_record. autorewrite with zlen. lia. Qed.

Lemma data_block_len rows :
  block_good w rows -> zlen (data_block rows) = BLOCK_HEADER_LEN + zlen (data_payload rows).
Proof.
  intros Hg. rewrite data_block_eq, encode_block_split, zlen_app, zlen_block_header by (done || apply Hg). done.
Qed.

(** The index parse finds every block and gives it its key ranges. *)
Lemma parse_index_ok blocks offset pos total r :
  Forall (block_good w) blocks -> 0 <= offset -> offset + zlen (concat (map data_block blocks)) < U64 ->
  reads_at pos (parse_index (placed offset blocks) total) (index_bytes w offset blocks) r
    (located offset pos blocks, total + row_total blocks).
Proof.
  intros Hg. revert offset pos total. induction Hg as [|rows blocks Hr Hg IH]; intros offset pos total Ho Hb;
    cbn [placed located parse_index index_bytes row_total].
  { rewrite Z.add_0_r. apply reads_at_of, reads_ret. }
  pose proof (good_count rows Hr) as Hn. pose proof (bg_wf _ _ Hr) as Hwf.
  pose proof (first_key_u16 _ Hwf) as Hf. pose proof (last_key_u16 _ Hwf) as Hl.
  cbn [map concat] in Hb. rewrite zlen_app in Hb. pose proof (zlen_nonneg (data_block rows)).
  pose proof (zlen_nonneg (concat (map data_block blocks))).
  unfold index_record. rewrite as_u32_small, !as_u16_small by done. rewrite <-!app_assoc.
  eapply reads_at_bind; [by apply reads_at_of, reads_u16|]. apply reads_at_cpos.
  eapply reads_at_bind; [by apply reads_at_of, reads_take|]. apply reads_at_cpos.
  eapply reads_at_bind; [by apply reads_at_of, reads_u16|]. apply reads_at_cpos.
  eapply reads_at_bind; [by apply reads_at_of, reads_take|]. apply reads_at_cpos.
  eapply reads_at_bind; [apply reads_at_of, reads_u64; unfold is_u64; lia|].
  eapply reads_at_bind; [by apply reads_at_of, reads_u32|].
  apply reads_at_guard; [by rewrite Z.eqb_refl|]. apply reads_at_guard; [by rewrite Z.eqb_refl|].
  rewrite <-(app_nil_r (index_bytes w _ _)). eapply reads_at_bind; [apply IH; lia|]. cbn beta iota.
  rewrite !zlen_le16, zlen_le64, zlen_le32. rewrite Z.add_assoc.
  replace (pos + 2 + zlen (first_key rows) + 2 + zlen (last_key rows) + 8 + 4)
    with (pos + 2 + zlen (first_key rows) + 2 + zlen (last_key rows) + 12) by lia.
  apply reads_at_of, reads_ret.
Qed.

(** What an opened reader knows of a block, against the file and the index payload. *)
Record holds (file index : bytes) (b : DataBlock) rows : Prop := {
  h_good : block_good w rows;
  h_v2 : db_v2 b = sw_v2 w; h_v3 : db_v3 b = sw_v3 w; h_v4 : db_v4 b = sw_v4 w;
  h_entries : db_entries b = zlen rows;
  h_first : zslice (db_first b).1 (db_first b).2 index = first_key rows;
  h_last : zslice (db_last b).1 (db_last b).2 index = last_key rows;
  h_read : read_segment_at file (db_header b) (BLOCK_HEADER_LEN + db_payload_len b) = Ok (data_block rows) }.

Lemma located_holds blocks (fpre fpost ipre : bytes) :
  Forall (block_good w) blocks ->
  Forall2 (holds (fpre ++ concat (map data_block blocks) ++ fpost) (ipre ++ index_bytes w (zlen fpre) blocks))
    (located (zlen fpre) (zlen ipre) blocks) blocks.
Proof.
  intros Hg. revert fpre ipre. induction Hg as [|rows blocks Hr Hg IH]; intros fpre ipre;
    cbn [located index_bytes map concat]; [constructor|].
  pose proof (good_count rows Hr) as Hn. pose proof (bg_wf _ _ Hr) as Hwf.
  constructor.
  - split; try done; cbn [placed_at db_first db_last db_header db_payload_len fst snd].
    + unfold index_record. rewrite as_u16_small by by apply first_key_u16.
      rewrite <-!app_assoc, (app_assoc ipre). apply zslice_mid; rewrite zlen_app, zlen_le16; lia.
    + unfold index_record. rewrite !as_u16_small by (by apply first_key_u16 || by apply last_key_u16).
      rewrite <-!app_assoc, (app_assoc ipre), (app_assoc _ (first_key rows)), (app_assoc _ (le16 _)).
      apply zslice_mid; rewrite !zlen_app, !zlen_le16; lia.
    + rewrite <-app_assoc. apply read_at; [done|]. by rewrite data_block_len.
  - rewrite <-!app_assoc, (app_assoc fpre), (app_assoc ipre).
    replace (zlen fpre + zlen (data_block rows)) with (zlen (fpre ++ data_block rows)) by by rewrite zlen_app.
    replace (zlen ipre + 2 + zlen (first_key rows) + 2 + zlen (last_key rows) + 12) with
      (zlen (ipre ++ index_record (first_key rows) (last_key rows) (zlen fpre) (as_u32 (zlen rows)))).
    + apply IH.
    + rewrite zlen_app, index_record_len. lia.
Qed.
End Locate.

(* ------------------------------------------------------------------ *)
(** * Header and footer *)

Section Open.
Context {SHA : Sha256}.

Record header_ok (bc n : Z) (kmin kmax : bytes) (lo hi : Z) : Prop := {
  ho_bc : is_u32 bc; ho_n : is_u64 n; ho_min : is_u32 (zlen kmin); ho_max : is_u32 (zlen kmax);
  ho_lo : is_u64 lo; ho_hi : is_u64 hi; ho_le : lo <= hi }.

Lemma zslice_app_r {A} (a b : list A) i j n : n = zlen a -> 0 <= i -> 0 <= j -> zslice (n + i) (n + j) (a ++ b) = zslice i j b.
Proof. intros -> Hi Hj. by apply zslice_behind. Qed.

Lemma open_header_ok bc n kmin kmax lo hi rest :
  header_ok bc n kmin kmax lo hi ->
  open_header (segment_header bc n kmin kmax lo hi ++ rest) =
  Ok (segment_header bc n kmin kmax lo hi, (bc, n, kmin, kmax, lo, hi)).
Proof.
  intros [H1 H2 H3 H4 H5 H6 H7]. unfold segment_header. rewrite !as_u32_small by done.
  set (fields := SEGMENT_MAGIC ++ _). set (ck := checksum8 fields).
  assert (zlen ck = 8) as Hck by apply zlen_checksum8.
  set (prefix := SEGMENT_MAGIC ++ le16 SEGMENT_VERSION ++ le32 bc ++ le64 n ++ le32 (zlen kmin)).
  set (tail_ := le64 lo ++ le64 hi ++ ck).
  assert (zlen prefix = 22) as Hp by (unfold prefix, SEGMENT_MAGIC; autorewrite with zlen; lia).
  assert (zlen tail_ = 24) as Ht by (unfold tail_; autorewrite with zlen; lia).
  assert (fields ++ ck = prefix ++ kmin ++ le32 (zlen kmax) ++ kmax ++ tail_) as Ef.
  { unfold fields, prefix, tail_. by rewrite <-!app_assoc. }
  rewrite Ef. unfold open_header. rewrite <-!(app_assoc prefix), <-!(app_assoc kmin), <-!(app_assoc (le32 (zlen kmax))),
    <-!(app_assoc kmax).
  rewrite (read_at_0 prefix _ 22) by done. cbn [mbind Result_bind].
  assert (zslice 4 6 prefix = le16 SEGMENT_VERSION) as -> by (apply (zslice_mid SEGMENT_MAGIC); done).
  change (ztake 4 prefix) with SEGMENT_MAGIC. rewrite slice_eqb_refl. cbn [negb].
  rewrite le_val_le16 by done. change (SEGMENT_VERSION =? SEGMENT_VERSION) with true. cbn [negb].
  assert (zslice 6 10 prefix = le32 bc) as -> by (apply (zslice_mid (SEGMENT_MAGIC ++ le16 SEGMENT_VERSION)); done).
  assert (zslice 10 18 prefix = le64 n) as ->
    by (apply (zslice_mid (SEGMENT_MAGIC ++ le16 SEGMENT_VERSION ++ le32 bc)); done).
  assert (zslice 18 22 prefix = le32 (zlen kmin)) as ->.
  { unfold prefix. rewrite <-(app_nil_r (le32 (zlen kmin))), !app_assoc, <-(app_assoc _ (le32 (zlen kmin))).
    by apply zslice_mid. }
  rewrite !le_val_le32, le_val_le64 by done.
  rewrite (read_at prefix kmin) by done. cbn [mbind Result_bind].
  rewrite (app_assoc prefix kmin), (read_at (prefix ++ kmin) (le32 (zlen kmax))) by done. cbn [mbind Result_bind].
  rewrite le_val_le32 by done. rewrite (app_assoc (prefix ++ kmin)).
  rewrite (read_at ((prefix ++ kmin) ++ le32 (zlen kmax)) kmax) by done. cbn [mbind Result_bind].
  rewrite (app_assoc _ kmax). rewrite (read_at (((prefix ++ kmin) ++ le32 (zlen kmax)) ++ kmax) tail_) by done.
  cbn [mbind Result_bind].
  assert (zslice 0 8 tail_ = le64 lo) as -> by by apply (zslice_mid []).
  assert (zslice 8 16 tail_ = le64 hi) as -> by by apply (zslice_mid (le64 lo)).
  assert (zslice 16 24 tail_ = ck) as ->.
  { replace tail_ with ((le64 lo ++ le64 hi) ++ ck ++ []) by by (unfold tail_; rewrite app_nil_r, <-app_assoc).
    apply zslice_mid; autorewrite with zlen; lia. }
  assert (ztake 16 tail_ = le64 lo ++ le64 hi) as ->.
  { unfold tail_. rewrite app_assoc. apply ztake_app. by autorewrite with zlen. }
  rewrite !le_val_le64 by done. rewrite <-(app_assoc (le64 lo)). fold tail_.
  rewrite <-!app_assoc. rewrite <-Ef.
  rewrite ztake_app by (rewrite zlen_app; lia). fold ck. rewrite slice_eqb_refl. cbn [negb].
  by rewrite (proj2 (Z.ltb_ge hi lo)) by lia.
Qed.

(** The pieces of a segment file around its data blocks. *)
Context (w : SegmentWriter) (Hflags : flags_ok w).
Context (blocks : list (list SegmentEntry)) (bits : bytes) (m n lo hi : Z) (kmin kmax : bytes).
Let bc := zlen blocks.
Let header := segment_header bc n kmin kmax lo hi.
Let data := concat (map (data_block w) blocks).
Let index := index_bytes w (zlen header) blocks.
Let bloom := le32 m ++ bits.
Let index_block := encode_block BLOCK_INDEX bc index SEGMENT_VERSION.
Let bloom_block := encode_block BLOCK_BLOOM n bloom SEGMENT_VERSION.
Let headers := concat (map (fun rows => ztake BLOCK_HEADER_LEN (data_block w rows)) blocks).
Let skeleton := (header ++ headers) ++ index_block ++ bloom_block ++ footer_fields n.
Let footer := footer_fields n ++ checksum8 skeleton.
Let file := (header ++ data) ++ index_block ++ bloom_block ++ footer.

Record file_ok : Prop := {
  fo_header : header_ok bc n kmin kmax lo hi;
  fo_good : Forall (block_good w) blocks;
  fo_ne : blocks <> [];
  fo_index : zlen index < U32;
  fo_size : zlen header + zlen data + 4 * U32 < U64;
  fo_n : is_u32 n;
  fo_total : row_total blocks = n;
  fo_m : is_u32 m;
  fo_bits : zlen bits = div_ceil8 m }.
Context (Hok : file_ok).

Lemma zlen_bloom : zlen bloom = 4 + div_ceil8 m.
Proof. unfold bloom. rewrite zlen_app, zlen_le32, (fo_bits Hok). done. Qed.
Lemma bloom_fits : zlen bloom < U32.
Proof.
  rewrite zlen_bloom. unfold div_ceil8. pose proof (fo_m Hok) as [H0 H1]. unfold U32 in *.
  enough ((m + 7) / 8 < 2 ^ 32 - 4) by lia. apply Z.div_lt_upper_bound; lia.
Qed.
Lemma zlen_index_block : zlen index_block = BLOCK_HEADER_LEN + zlen index.
Proof. unfold index_block. by rewrite encode_block_split, zlen_app, zlen_block_header by apply Hok. Qed.
Lemma zlen_bloom_block : zlen bloom_block = BLOCK_HEADER_LEN + zlen bloom.
Proof. unfold bloom_block. by rewrite encode_block_split, zlen_app, zlen_block_header by apply bloom_fits. Qed.
Lemma zlen_footer : zlen footer = FOOTER_LEN.
Proof. unfold footer, footer_fields, FOOTER_MAGIC. rewrite zlen_app, zlen_checksum8. by autorewrite with zlen. Qed.

Lemma data_end : zlen header + zlen data < U64.
Proof. pose proof (fo_size Hok). unfold U32 in *. lia. Qed.
Lemma zlen_file : is_u64 (zlen file).
Proof.
  unfold file. rewrite !zlen_app, zlen_index_block, zlen_bloom_block, zlen_footer. pose proof (fo_size Hok).
  pose proof (fo_index Hok). pose proof bloom_fits. unfold BLOCK_HEADER_LEN, FOOTER_LEN, U32, U64 in *.
  pose proof (zlen_nonneg index). pose proof (zlen_nonneg bloom). pose proof (zlen_nonneg header). pose proof (zlen_nonneg data).
  unfold is_u64, U64. lia.
Qed.

Let idx_at := zlen header + zlen data.
Let blm_at := idx_at + zlen index_block.
Definition walked_state : WalkState :=
  mkWalkState (placed w (zlen header) blocks) headers (Some BLOCK_BLOOM)
    (Some (idx_at, zlen index)) (Some (blm_at, zlen bloom)).

Lemma data_len_ge (bs : list (list SegmentEntry)) :
  Forall (block_good w) bs -> zlen bs <= zlen (concat (map (data_block w) bs)).
Proof.
  induction 1 as [|rows bs Hr _ IH]; [done|]. cbn [map concat].
  rewrite zlen_cons, zlen_app, data_block_len by done. unfold BLOCK_HEADER_LEN.
  pose proof (zlen_nonneg (data_payload w rows)). lia.
Qed.

Lemma file_fuel : exists fuel, S (length file) = (length blocks + S (S (S fuel)))%nat.
Proof.
  enough (length blocks + 2 <= length file)%nat by (exists (length file - length blocks - 2)%nat; lia).
  pose proof (data_len_ge _ (fo_good Hok)) as Hd. fold data in Hd.
  assert (zlen file = zlen header + zlen data + zlen index_block + zlen bloom_block + zlen footer) as Ef
    by (unfold file; rewrite !zlen_app; lia).
  rewrite zlen_footer in Ef. unfold FOOTER_LEN in Ef.
  pose proof (zlen_nonneg header). pose proof (zlen_nonneg index_block). pose proof (zlen_nonneg bloom_block).
  unfold zlen in *. lia.
Qed.

Lemma walk_file fuel :
  walk_blocks (length blocks + S (S (S fuel))) file (zlen header) (mkWalkState [] [] None None None) =
  Ok (idx_at + zlen index_block + zlen bloom_block, walked_state).
Proof.
  assert (file = header ++ data ++ (index_block ++ bloom_block ++ footer)) as Ef by (unfold file; by rewrite <-app_assoc).
  rewrite Ef at 1. unfold data. rewrite (walk_data w Hflags blocks) by (apply Hok || by left). fold data.
  cbn [wk_data wk_headers wk_last_kind wk_index wk_bloom app]. fold headers.
  rewrite (app_assoc header data). unfold index_block. rewrite walk_step.
  2: { split_and!; [apply (fo_header Hok) | apply Hok | |right; by left].
       unfold kind_ok. cbn. generalize blocks. by intros []. }
  fold index_block. rewrite (app_assoc (header ++ data) index_block). unfold bloom_block. rewrite walk_step.
  2: { split_and!; [apply (fo_n Hok) | apply bloom_fits | done | right; by right]. }
  fold bloom_block. set (pre := ((header ++ data) ++ index_block) ++ bloom_block).
  rewrite (app_assoc _ bloom_block footer). fold pre. cbn [walk_blocks].
  rewrite (zlen_app pre footer), zlen_footer. rewrite (proj2 (Z.leb_le 4 _)) by (unfold FOOTER_LEN; lia).
  unfold footer, footer_fields. rewrite <-!app_assoc, read_at by done. cbn [mbind Result_bind].
  rewrite slice_eqb_refl. cbv iota. f_equal. f_equal.
  - unfold pre, idx_at. by rewrite !zlen_app.
  - unfold walked_state, walked, blm_at, idx_at. cbn [Z.eqb BLOCK_BLOOM BLOCK_INDEX BLOCK_DATA Pos.eqb wk_data wk_headers wk_index wk_bloom]. by rewrite !zlen_app, Z.add_assoc.
Qed.

Lemma index_block_split : index_block = block_header BLOCK_INDEX bc index SEGMENT_VERSION ++ index.
Proof. apply encode_block_split, Hok. Qed.
Lemma bloom_block_split : bloom_block = block_header BLOCK_BLOOM n bloom SEGMENT_VERSION ++ bloom.
Proof. apply encode_block_split, bloom_fits. Qed.

(** The entry count of a block header, at its offset. *)
Lemma header_count kind k payload version (a b : bytes) o :
  o = zlen a + 8 -> is_u32 k -> zlen payload < U32 ->
  exists x, read_segment_at (a ++ encode_block kind k payload version ++ b) o 4 = Ok x /\ le_val x = k.
Proof.
  intros -> Hk Hp. exists (le32 k). split; [|by apply le_val_le32]. rewrite encode_block_split by done.
  unfold block_header, block_fields.
  set (h := BLOCK_MAGIC ++ le16 version ++ [byte_of kind] ++ [byte_of 0]).
  match goal with |- read_segment_at ?f _ _ = _ => assert (exists r, f = (a ++ h) ++ le32 k ++ r) as [r ->] end.
  { eexists. unfold h. rewrite <-!app_assoc. reflexivity. }
  apply read_at; [|by autorewrite with zlen]. unfold h, BLOCK_MAGIC. autorewrite with zlen. lia.
Qed.

Lemma read_index : read_segment_at file (idx_at + BLOCK_HEADER_LEN) (zlen index) = Ok index.
Proof.
  unfold file. rewrite index_block_split, <-!app_assoc, (app_assoc header), (app_assoc (header ++ data)).
  apply read_at; [|done]. rewrite !zlen_app, zlen_block_header. unfold idx_at. lia.
Qed.
Lemma read_bloom : read_segment_at file (blm_at + BLOCK_HEADER_LEN) (zlen bloom) = Ok bloom.
Proof.
  unfold file. rewrite bloom_block_split, <-(app_assoc (block_header _ _ _ _)), (app_assoc _ index_block), (app_assoc _ (block_header _ _ _ _)).
  apply read_at; [|done]. rewrite !zlen_app, zlen_block_header. unfold blm_at, idx_at. lia.
Qed.
Lemma read_span :
  read_segment_at file idx_at (blm_at + BLOCK_HEADER_LEN + zlen bloom - idx_at) = Ok (index_block ++ bloom_block).
Proof.
  unfold file. rewrite (app_assoc index_block). apply read_at; [by rewrite zlen_app|].
  rewrite zlen_app, zlen_bloom_block. unfold blm_at. lia.
Qed.
Lemma read_footer : read_segment_at file (idx_at + zlen index_block + zlen bloom_block) FOOTER_LEN = Ok footer.
Proof.
  unfold file. rewrite (app_assoc index_block), (app_assoc (header ++ data)), <-(app_nil_r footer).
  rewrite (read_at _ footer []); rewrite ?app_nil_r; [done| |by rewrite zlen_footer].
  rewrite !zlen_app. unfold idx_at. lia.
Qed.
Lemma footer_parts :
  ztake 4 footer = FOOTER_MAGIC /\ zslice 4 6 footer = le16 SEGMENT_VERSION /\ zslice 6 14 footer = le64 n /\
  ztake 14 footer = footer_fields n /\ zdrop 14 footer = checksum8 skeleton.
Proof.
  assert (zlen (footer_fields n) = 14) as E by (unfold footer_fields, FOOTER_MAGIC; by autorewrite with zlen).
  split_and!.
  - done.
  - unfold footer, footer_fields. rewrite <-!app_assoc. by apply (zslice_mid FOOTER_MAGIC).
  - unfold footer, footer_fields. rewrite <-!app_assoc, (app_assoc FOOTER_MAGIC). by apply zslice_mid.
  - by apply ztake_app.
  - by apply zdrop_app.
Qed.

Lemma parse_index_file :
  exists c, run_dec ('(d, t) ← parse_index (placed w (zlen header) blocks) 0; c ← dget; mret (d, t, c)) index =
    Ok (located w (zlen header) 0 blocks, n, c) /\ is_empty c = true.
Proof.
  pose proof (parse_index_ok w blocks (zlen header) 0 0 [] (fo_good Hok) (zlen_nonneg _) data_end) as Hp.
  rewrite (fo_total Hok), Z.add_0_l in Hp. fold index in Hp.
  set (c0 := cursor_new index). assert (cur_ok c0) as Hc by apply cur_ok_new.
  assert (crest c0 = index ++ []) as E by by rewrite app_nil_r.
  exists (advance c0 (zlen index)). split.
  - unfold run_dec, mbind, Result_bind, Dec_bind. fold c0. by rewrite (Hp c0 Hc eq_refl E).
  - apply is_empty_crest; [by eapply cur_ok_advance | by eapply crest_advance].
Qed.

Lemma bloom_read :
  exists c, run_dec (m ← cu32; c ← dget; mret (m, c)) bloom = Ok (m, c) /\ remaining c = div_ceil8 m.
Proof.
  set (c0 := cursor_new bloom). assert (cur_ok c0) as Hc by apply cur_ok_new.
  assert (crest c0 = le32 m ++ bits) as E by done. exists (advance c0 (zlen (le32 m))). split.
  - unfold run_dec, mbind, Result_bind, Dec_bind. fold c0. by rewrite (reads_u32 m bits (fo_m Hok) c0 Hc E).
  - rewrite remaining_crest by by eapply cur_ok_advance. rewrite (crest_advance _ _ _ Hc E). apply (fo_bits Hok).
Qed.

Definition opened : SegmentReader :=
  mkSegmentReader file bc n kmin kmax lo hi (located w (zlen header) 0 blocks) index bloom m.

Lemma open_segment_ok : open_segment file = Ok opened.
Proof.
  unfold open_segment, open_tail.
  assert (open_header file = Ok (header, (bc, n, kmin, kmax, lo, hi))) as ->.
  { unfold file. rewrite <-app_assoc. apply open_header_ok, (fo_header Hok). }
  cbn [mbind Result_bind].
  destruct file_fuel as [fuel ->]. rewrite walk_file. cbn [mbind Result_bind].
  assert (zlen file = idx_at + zlen index_block + zlen bloom_block + FOOTER_LEN) as Ef.
  { unfold file. rewrite !zlen_app, zlen_footer. unfold idx_at. lia. }
  rewrite Ef. replace (_ + FOOTER_LEN - _) with FOOTER_LEN by lia. change (FOOTER_LEN =? FOOTER_LEN) with true.
  cbn [negb]. rewrite read_footer. cbn [mbind Result_bind].
  destruct footer_parts as (-> & -> & -> & P4 & P5). rewrite slice_eqb_refl, le_val_le16 by done.
  change (SEGMENT_VERSION =? SEGMENT_VERSION) with true. rewrite le_val_le64 by apply (fo_header Hok).
  rewrite Z.eqb_refl. cbn [negb walked_state wk_index wk_bloom wk_data wk_headers].
  assert (zlen (placed w (zlen header) blocks) = bc /\ placed w (zlen header) blocks <> []) as [Hpl Hpn].
  { assert (forall o bs, zlen (placed w o bs) = zlen bs) as H.
    { intros o bs. revert o. induction bs as [|r bs IH]; intros o; cbn [placed]; [done|]. by rewrite !zlen_cons, IH. }
    split; [apply H|]. intros E. apply (f_equal zlen) in E. rewrite H in E. apply (fo_ne Hok).
    apply nil_length_inv. unfold zlen in E. cbn in E. lia. }
  rewrite Hpl, Z.eqb_refl. destruct (placed w (zlen header) blocks) as [|d0 ds] eqn:Epl; [done|]. cbn [orb negb].
  rewrite <-Epl. rewrite read_index, read_bloom. cbn [mbind Result_bind].
  destruct parse_index_file as (c & Hpi & Hce). rewrite Hpi. cbn [mbind Result_bind]. rewrite Hce. cbn [negb].
  rewrite Z.eqb_refl. cbn [negb]. destruct bloom_read as (bc' & Hbr & Hrem). rewrite Hbr. cbn [mbind Result_bind].
  rewrite Hrem, as_u32_small, Z.eqb_refl by (split; [rewrite <-(fo_bits Hok); apply zlen_nonneg|];
    pose proof bloom_fits as H; rewrite zlen_bloom in H; lia).
  cbn [negb].
  destruct (header_count BLOCK_INDEX bc index SEGMENT_VERSION (header ++ data) (bloom_block ++ footer) (idx_at + 8))
    as (x1 & Hx1 & Ex1); [by rewrite zlen_app | apply (fo_header Hok) | apply Hok |].
  fold index_block file in Hx1. rewrite Hx1. cbn [mbind Result_bind]. rewrite Ex1, Z.eqb_refl. cbn [negb].
  destruct (header_count BLOCK_BLOOM n bloom SEGMENT_VERSION ((header ++ data) ++ index_block) footer (blm_at + 8))
    as (x2 & Hx2 & Ex2); [unfold blm_at, idx_at; by rewrite !zlen_app | apply (fo_n Hok) | apply bloom_fits |].
  fold bloom_block in Hx2. rewrite <-app_assoc in Hx2. fold file in Hx2. rewrite Hx2. cbn [mbind Result_bind].
  rewrite Ex2, Z.eqb_refl. cbn [negb]. rewrite read_span. cbn [mbind Result_bind].
  rewrite P4, P5. unfold skeleton. rewrite <-!app_assoc, slice_eqb_refl. done.
Qed.
End Open.
