(* ===== verification/SegmentQueries.v ===== *)
(** Published segments answer every query from their rows: iteration, point lookups on
    the byte and the replica surface, version walks, range scans, the bloom filter and
    the placement-direct read, each equal to the plain search of the published rows. *)

From S2P Require Import Prelude Cursor Format Identity Segment SegmentBlock SegmentLookup SegmentFile.

(** The publication order: key ascending, sequence descending within a key. *)
Definition publish_lt (a b : SegmentEntry) : Prop :=
  bytes_lt (se_key a) (se_key b) \/ se_key a = se_key b /\ se_seq b < se_seq a.

#[global] Instance publish_lt_trans : Transitive publish_lt.
Proof.
  intros a b c [H1|[E1 H1]] [H2|[E2 H2]]; unfold publish_lt.
  - left. by etrans.
  - left. by rewrite <-E2.
  - left. by rewrite E1.
  - right. split; [congruence | lia].
Qed.

Lemma order_tests a b : dup_pair a b = false /\ bad_order a b = false <-> publish_lt a b.
Proof.
  unfold dup_pair, bad_order, publish_lt. rewrite andb_false_iff, orb_false_iff, andb_false_iff.
  rewrite bytes_eqb_neq, bytes_ltb_false, bytes_leb_le, Z.eqb_neq, Z.ltb_ge. split.
  - intros [Hd [[Hk|Hk] Hs]]; [by left|]. right. split; [done|]. destruct Hd, Hs; try done; lia.
  - intros [Hk|[Hk Hs]].
    + split; [left; by apply bytes_lt_neq|]. split; [by left|]. left. by apply bytes_lt_neq.
    + split; [right; lia|]. split; [by right | right; lia].
Qed.

Lemma windows_spec test l :
  windows_any test l = false <-> Sorted (fun a b => test a b = false) l.
Proof.
  unfold windows_any. induction l as [|a [|b l] IH]; cbn; try (split; [repeat constructor | done]).
  rewrite orb_false_iff. cbn in IH. rewrite IH. split.
  - intros [H1 H2]. constructor; [done|]. by constructor.
  - intros H. inversion H as [|? ? Hs Hd]; subst. inversion Hd; subst. done.
Qed.

Lemma publish_order l :
  windows_any dup_pair l = false /\ windows_any bad_order l = false <-> StronglySorted publish_lt l.
Proof.
  rewrite !windows_spec. split.
  - intros [H1 H2]. apply Sorted_StronglySorted; [apply publish_lt_trans|].
    induction H1 as [|a l H1 IH Hd]; [constructor|]. inversion H2 as [|? ? Hs Hd2]; subst. constructor; [by apply IH|].
    destruct Hd; [constructor|]. inversion Hd2; subst. constructor. by apply order_tests.
  - intros H. apply StronglySorted_Sorted in H.
    split; (eapply Sorted_impl; [|exact H]); intros a b Hab; by apply order_tests in Hab as [? ?].
Qed.

Lemma publish_lt_asc l : StronglySorted publish_lt l -> rows_asc l.
Proof.
  induction 1 as [|a l Hs IH Hf]; constructor; [done|]. eapply Forall_impl; [exact Hf|].
  intros b [H|[-> _]]; [by apply bytes_lt_leb | apply bytes_leb_refl].
Qed.

(* ------------------------------------------------------------------ *)
(** * Sizes *)

Lemma fits_concat blocks : fits (concat blocks) -> Forall fits blocks.
Proof.
  unfold fits. induction blocks as [|b bs IH]; cbn; [constructor|]. rewrite full_size_app. intros H.
  pose proof (full_size_nonneg true b). pose proof (full_size_nonneg true (concat bs)).
  constructor; [lia|]. apply IH. lia.
Qed.

Lemma row_total_concat blocks : row_total blocks = zlen (concat blocks).
Proof. induction blocks as [|b bs IH]; cbn; [done|]. by rewrite zlen_app, IH. Qed.

Lemma key_size_le rows e : e ∈ rows -> 25 + zlen (se_key e) <= full_size true rows.
Proof.
  induction rows as [|x rows IH]; intros H; [by apply not_elem_of_nil in H|]. cbn [full_size]. unfold entry_len.
  pose proof (zlen_nonneg (se_value x)). pose proof (zlen_nonneg (se_key x)).
  pose proof (full_size_nonneg true rows). apply elem_of_cons in H as [->|H]; [lia|]. apply IH in H. lia.
Qed.

Lemma first_last_elem rows :
  rows <> [] -> exists a b, a ∈ rows /\ b ∈ rows /\ first_key rows = se_key a /\ last_key rows = se_key b.
Proof.
  intros H. destruct rows as [|a rows]; [done|]. destruct (last_nonempty (a :: rows) H) as [b Hb].
  exists a, b. unfold first_key, last_key. rewrite Hb. split_and!; try done; [set_solver|].
  rewrite last_lookup in Hb. by eapply list_elem_of_lookup_2.
Qed.

Section Publish.
Context {SHA : Sha256} (w : SegmentWriter).

Lemma index_size blocks offset :
  Forall (block_good w) blocks -> zlen (index_bytes w offset blocks) <= 2 * full_size true (concat blocks).
Proof.
  intros H. revert offset. induction H as [|rows blocks Hr _ IH]; intros offset; [done|]. cbn [index_bytes concat].
  rewrite zlen_app, index_record_len, full_size_app. specialize (IH (offset + zlen (data_block w rows))).
  destruct (first_last_elem rows (bg_ne _ _ Hr)) as (a & b & Ha & Hb & -> & ->).
  pose proof (key_size_le _ _ Ha). pose proof (key_size_le _ _ Hb). lia.
Qed.

Lemma data_size blocks :
  Forall (block_good w) blocks -> zlen (concat (map (data_block w) blocks)) <= zlen blocks * (U32 + 28).
Proof.
  induction 1 as [|rows blocks Hr _ IH]; [done|]. cbn [map concat]. rewrite zlen_app, zlen_cons, data_block_len by done.
  pose proof (bg_fit _ _ Hr). unfold BLOCK_HEADER_LEN. lia.
Qed.

Lemma blocks_count blocks : Forall (block_good w) blocks -> zlen blocks <= zlen (concat blocks).
Proof.
  induction 1 as [|rows blocks Hr _ IH]; [done|]. cbn [concat]. rewrite zlen_app, zlen_cons.
  pose proof (bg_ne _ _ Hr). destruct rows; [done|]. rewrite zlen_cons. pose proof (zlen_nonneg rows). lia.
Qed.

Lemma set_bit_len bits bit : zlen (set_bit bits bit) = zlen bits.
Proof. unfold set_bit, zlen. by rewrite length_alter. Qed.
Lemma bloom_add_len m bits e : zlen (bloom_add m bits e) = zlen bits.
Proof. unfold bloom_add. destruct (bloom_hashes (se_key e)). cbn. by rewrite !set_bit_len. Qed.
Lemma bloom_fold_len m rows bits : zlen (fold_left (bloom_add m) rows bits) = zlen bits.
Proof. revert bits. induction rows as [|e rows IH]; intros bits; cbn [fold_left]; [done|]. by rewrite IH, bloom_add_len. Qed.

Lemma seq_fold_bounds e0 rows :
  is_u64 (se_seq e0) -> Forall entry_wf rows ->
  is_u64 (min_seq e0 rows) /\ is_u64 (max_seq e0 rows) /\ min_seq e0 rows <= max_seq e0 rows.
Proof.
  intros H0 Hw. unfold min_seq, max_seq.
  assert (forall a b, is_u64 a -> is_u64 b -> a <= b ->
    let x := fold_left (fun m e => Z.min m (se_seq e)) rows a in
    let y := fold_left (fun m e => Z.max m (se_seq e)) rows b in is_u64 x /\ is_u64 y /\ x <= y) as H.
  { induction Hw as [|e rows He _ IH]; intros a b Ha Hb Hab; cbn; [done|].
    destruct He as (_ & _ & Hs & _). apply IH; unfold is_u64 in *; lia. }
  by apply H; [| |lia].
Qed.

(** The published file, from the rows of its blocks. *)
Definition segment_file (blocks : list (list SegmentEntry)) (bits : bytes) (m n lo hi : Z) (kmin kmax : bytes) : bytes :=
  let header := segment_header (zlen blocks) n kmin kmax lo hi in
  let index_block := encode_block BLOCK_INDEX (zlen blocks) (index_bytes w (zlen header) blocks) SEGMENT_VERSION in
  let bloom_block := encode_block BLOCK_BLOOM n (le32 m ++ bits) SEGMENT_VERSION in
  let headers := concat (map (fun rows => ztake BLOCK_HEADER_LEN (data_block w rows)) blocks) in
  let skeleton := (header ++ headers) ++ index_block ++ bloom_block ++ footer_fields n in
  (header ++ concat (map (data_block w) blocks)) ++ index_block ++ bloom_block ++ footer_fields n ++ checksum8 skeleton.

Record published (entries : list SegmentEntry) (file : bytes) (anchors : list SegmentAnchor)
    (blocks : list (list SegmentEntry)) (lo hi : Z) (kmin kmax : bytes) : Prop := {
  pb_concat : concat blocks = entries;
  pb_sorted : StronglySorted publish_lt entries;
  pb_wf : Forall entry_wf entries;
  pb_file : let n := zlen entries in let m := BLOOM_BITS_PER_KEY * n in
    let bits := fold_left (bloom_add m) entries (repeat x00 (Z.to_nat (div_ceil8 m))) in
    file = segment_file blocks bits m n lo hi kmin kmax /\ file_ok w blocks bits m n lo hi kmin kmax;
  pb_anchors : anchors = map snd (map_to_list (anchors_of w 0 blocks ∅)) }.

Lemma publish_file_ok entries blocks e0 kmax :
  Forall entry_wf entries -> fits entries -> concat blocks = entries -> entries <> [] ->
  Forall (block_good w) blocks -> e0 ∈ entries -> zlen kmax < U16 ->
  let n := zlen entries in let m := BLOOM_BITS_PER_KEY * n in
  let bits := fold_left (bloom_add m) entries (repeat x00 (Z.to_nat (div_ceil8 m))) in
  file_ok w blocks bits m n (min_seq e0 entries) (max_seq e0 entries) (se_key e0) kmax.
Proof.
  intros Hwf Hfit Ec Hne Hg H0 Hkx n m bits. unfold fits in Hfit.
  pose proof (full_size_count entries) as Hc. fold n in Hc. pose proof (zlen_nonneg entries) as Hn. fold n in Hn.
  pose proof (blocks_count blocks Hg) as Hb. rewrite Ec in Hb. fold n in Hb. pose proof (zlen_nonneg blocks).
  assert (entry_wf e0) as (Hk0 & _ & Hs0 & _) by by eapply Forall_forall.
  destruct (seq_fold_bounds e0 entries Hs0 Hwf) as (Hlo & Hhi & Hle).
  assert (is_u32 (zlen blocks)) as Hbc by (unfold is_u32; lia).
  assert (is_u32 n) as Hn32 by (unfold is_u32; lia).
  split; try done.
  - split; try done; unfold is_u64, is_u32, U64, U32, U16 in *; pose proof (zlen_nonneg (se_key e0)); pose proof (zlen_nonneg kmax); lia.
  - intros ->. by subst entries.
  - pose proof (index_size blocks (zlen (segment_header (zlen blocks) n (se_key e0) kmax (min_seq e0 entries) (max_seq e0 entries))) Hg) as Hi.
    rewrite Ec in Hi. lia.
  - pose proof (data_size blocks Hg) as Hd. unfold segment_header. autorewrite with zlen. rewrite zlen_checksum8.
    unfold SEGMENT_MAGIC. autorewrite with zlen. unfold U64, U32, U16 in *. nia.
  - by rewrite row_total_concat, Ec.
  - unfold m, is_u32, BLOOM_BITS_PER_KEY, U32 in *. lia.
  - unfold bits. rewrite bloom_fold_len. unfold zlen. rewrite repeat_length, Z2Nat.id; [done|].
    unfold div_ceil8, m, BLOOM_BITS_PER_KEY. apply Z.div_pos; lia.
Qed.

Lemma good_blocks entries blocks :
  flags_ok w -> concat blocks = entries -> Forall (fun rows => rows <> []) blocks ->
  Forall entry_wf entries -> rows_asc entries -> fits entries -> Forall (block_good w) blocks.
Proof.
  intros Hfl <- Hne Hwf Hasc Hfit. apply sorted_concat in Hasc. apply fits_concat in Hfit.
  apply Forall_forall. intros rows Hr.
  eapply Forall_forall in Hasc; [|exact Hr]. eapply Forall_forall in Hfit; [|exact Hr].
  eapply Forall_forall in Hne; [|exact Hr]. apply block_good_of; try done.
  apply Forall_forall. intros e He. eapply Forall_forall in Hwf; [exact Hwf|].
  apply list_elem_of_In, in_concat. exists rows. split; by apply list_elem_of_In.
Qed.

Lemma split_nonempty bounds (blocks : list (list SegmentEntry)) :
  Forall2 (fun '(x, y) rows => zlen rows = y - x /\ rows <> []) bounds blocks ->
  Forall (fun rows => rows <> []) blocks /\ zlen bounds = zlen blocks.
Proof.
  induction 1 as [|[x y] rows bs rs [_ Hr] _ [IH1 IH2]]; [done|]. rewrite !zlen_cons, IH2. by repeat constructor.
Qed.

Lemma last_entry_elem (e0 d : SegmentEntry) es : List.last (e0 :: es) d ∈ e0 :: es.
Proof.
  revert e0. induction es as [|e es IH]; intros e0; [cbn; set_solver|].
  change (List.last (e0 :: e :: es) d) with (List.last (e :: es) d). specialize (IH e). set_solver.
Qed.

(** The header's key and sequence bounds are those of the rows. *)
Definition row_bounds (entries : list SegmentEntry) (lo hi : Z) (kmin kmax : bytes) : Prop :=
  kmin = first_key entries /\ kmax = last_key entries /\ (forall e, e ∈ entries -> lo <= se_seq e <= hi) /\
  exists e, e ∈ entries /\ se_seq e = hi.

Lemma fold_seq_bounds (es : list SegmentEntry) : forall a b,
  fold_left (fun m e => Z.min m (se_seq e)) es a <= a /\ b <= fold_left (fun m e => Z.max m (se_seq e)) es b /\
  forall e, e ∈ es -> fold_left (fun m e => Z.min m (se_seq e)) es a <= se_seq e <= fold_left (fun m e => Z.max m (se_seq e)) es b.
Proof.
  induction es as [|x es IH]; intros a b; cbn [fold_left].
  - split_and!; [lia..|]. intros e He. by apply not_elem_of_nil in He.
  - destruct (IH (Z.min a (se_seq x)) (Z.max b (se_seq x))) as (H1 & H2 & H3). split_and!; [lia..|].
    intros e [->|He]%elem_of_cons; [lia | by apply H3].
Qed.
Lemma fold_max_attained (es : list SegmentEntry) : forall b,
  fold_left (fun m e => Z.max m (se_seq e)) es b = b \/ exists e, e ∈ es /\ se_seq e = fold_left (fun m e => Z.max m (se_seq e)) es b.
Proof.
  induction es as [|x es IH]; intros b; cbn [fold_left]; [by left|]. destruct (IH (Z.max b (se_seq x))) as [->|(e & He & E)].
  - destruct (Z.max_spec b (se_seq x)) as [[_ ->]|[_ ->]]; [right; exists x; set_solver | by left].
  - right. exists e. set_solver.
Qed.
Lemma last_default (x : SegmentEntry) l a b : List.last (x :: l) a = List.last (x :: l) b.
Proof. revert x. induction l as [|y l IH]; intros x; [done|]. apply (IH y). Qed.
Lemma rows_bounded e0 es : row_bounds (e0 :: es) (min_seq e0 (e0 :: es)) (max_seq e0 (e0 :: es)) (se_key e0) (se_key (List.last (e0 :: es) e0)).
Proof.
  split_and!; [done| | |].
  - unfold last_key. revert e0. induction es as [|e es IH]; intros e0; [done|]. change (last (e0 :: e :: es)) with (last (e :: es)).
    rewrite <-(IH e). f_equal. apply (last_default e es).
  - intros e He. apply fold_seq_bounds, He.
  - unfold max_seq. destruct (fold_max_attained (e0 :: es) (se_seq e0)) as [->|H]; [|done]. exists e0. set_solver.
Qed.

(** What a successful publication leaves. *)
Lemma publish_published entries file sz ck anchors :
  flags_ok w -> Forall entry_wf entries -> fits entries ->
  publish_sorted_entries w entries = Ok (file, (sz, ck, anchors)) ->
  sz = zlen file /\ ck = le_val (checksum8 file) /\
  exists blocks lo hi kmin kmax, published entries file anchors blocks lo hi kmin kmax /\ row_bounds entries lo hi kmin kmax.
Proof.
  intros Hfl Hwf Hfit. unfold publish_sorted_entries, publish_finish.
  destruct (sw_target w =? 0); [done|]. destruct entries as [|e0 es] eqn:Ees; [done|]. rewrite <-Ees in *.
  assert (entries <> []) as Hne by by subst. assert (e0 ∈ entries) as He0 by (subst; set_solver).
  assert (zlen (se_key (List.last entries e0)) < U16) as Hkx.
  { eapply Forall_forall in Hwf; [apply Hwf|]. rewrite Ees. apply last_entry_elem. }
  destruct (existsb _ entries); [done|]. destruct (windows_any dup_pair entries) eqn:Hd; [done|].
  destruct (windows_any bad_order entries) eqn:Ho; [done|].
  pose proof (proj1 (publish_order entries) (conj Hd Ho)) as Hs.
  pose proof (block_bounds_spans w entries Hne) as Hsp.
  pose proof (split_concat _ _ 0 ltac:(lia) Hsp) as Hc. rewrite zdrop_0 in Hc.
  pose proof (split_lens _ _ 0 ltac:(lia) Hsp) as Hl. destruct (split_nonempty _ _ Hl) as [Hbn Ebc].
  pose proof (good_blocks _ _ Hfl Hc Hbn Hwf (publish_lt_asc _ Hs) Hfit) as Hg.
  pose proof (publish_file_ok entries _ e0 _ Hwf Hfit Hc Hne Hg He0 Hkx) as Hok.
  pose proof (ho_bc _ _ _ _ _ _ (fo_header _ _ _ _ _ _ _ _ _ Hok)) as Hbc.
  unfold enumerate. rewrite (publish_blocks w _ _ _ 0 _ Hl Hg). cbn [mbind Result_bind].
  pose proof (fo_n _ _ _ _ _ _ _ _ _ Hok) as Hn32. pose proof (fo_m _ _ _ _ _ _ _ _ _ Hok) as Hm32.
  rewrite Ebc, !as_u32_small by done.
  cbn [ps_out ps_index ps_skeleton ps_anchors ps_bits]. rewrite app_nil_l. intros E.
  apply Ok_inj, pair_equal_spec in E as [Ef E]. apply pair_equal_spec in E as [E Ea].
  apply pair_equal_spec in E as [Es Ek]. subst file sz ck anchors.
  split; [done|]. split; [done|].
  exists (split_rows (block_bounds w entries) entries), (min_seq e0 entries), (max_seq e0 entries), (se_key e0),
    (se_key (List.last entries e0)).
  split; [|rewrite Ees; apply rows_bounded].
  split; [exact Hc | exact Hs | exact Hwf | | reflexivity]. cbv zeta. split; [|exact Hok].
  unfold segment_file. rewrite Hc, <-!app_assoc. reflexivity.
Qed.
End Publish.

(* ------------------------------------------------------------------ *)
(** * Rows in order *)

Lemma first_key_le rows e : rows_asc rows -> e ∈ rows -> bytes_leb (first_key rows) (se_key e) = true.
Proof.
  intros Hs He. destruct rows as [|x rows]; [by apply not_elem_of_nil in He|]. unfold first_key. cbn.
  apply elem_of_cons in He as [->|He]; [apply bytes_leb_refl|]. apply StronglySorted_inv in Hs as [_ Hf].
  by eapply Forall_forall in Hf.
Qed.
Lemma last_key_ge rows e : rows_asc rows -> e ∈ rows -> bytes_leb (se_key e) (last_key rows) = true.
Proof.
  intros Hs He. unfold last_key. destruct (last rows) as [x|] eqn:L.
  - apply last_Some in L as [rows' ->]. apply elem_of_app in He as [He|He].
    + eapply (sorted_app_rel _ _ _ _ _ Hs He). set_solver.
    + apply list_elem_of_singleton in He as ->. apply bytes_leb_refl.
  - apply last_None in L as ->. by apply not_elem_of_nil in He.
Qed.

Lemma partition_point_spec {A} (p : A -> bool) l :
  let n := partition_point_by p l in
  Forall (fun x => p x = true) (take n l) /\ forall x, l !! n = Some x -> p x = false.
Proof.
  induction l as [|x l [IH1 IH2]]; cbn; [split; [constructor | done]|].
  destruct (p x) eqn:E; cbn; [split; [by constructor | done]|]. split; [constructor|]. intros y Hy. congruence.
Qed.

Lemma persisted_not_elem (v : bool) key rid rows :
  (forall e, e ∈ rows -> se_key e <> key) -> find_row key rid (map (persisted v) rows) = None.
Proof.
  intros H. apply find_row_none. intros e He. apply list_elem_of_In, in_map_iff in He as (x & <- & Hx).
  rewrite persisted_key. apply H. by apply list_elem_of_In.
Qed.

(* ------------------------------------------------------------------ *)
(** * An opened reader *)

Section Reader.
Context {SHA : Sha256} (w : SegmentWriter) (Hflags : flags_ok w) (r : SegmentReader).
Abbreviation v3 := (sw_v3 w).
Abbreviation holds := (holds w (sr_file r) (sr_index r)).
Implicit Types (rows : list SegmentEntry) (blocks : list (list SegmentEntry)) (b : DataBlock) (key : bytes).

Lemma data_block_parts rows :
  block_good w rows ->
  zdrop BLOCK_HEADER_LEN (data_block w rows) = data_payload w rows /\
  slice_eqb (checksum8 (ztake 20 (data_block w rows) ++ zdrop BLOCK_HEADER_LEN (data_block w rows)))
    (zslice 20 28 (data_block w rows)) = true.
Proof.
  intros Hg. rewrite data_block_eq, encode_block_split by (done || apply Hg). set (p := data_payload w rows).
  rewrite zdrop_app by by rewrite zlen_block_header. split; [done|]. unfold block_header.
  set (f := block_fields _ _ _ _). assert (zlen f = 20) as Hf by apply zlen_block_fields.
  rewrite <-app_assoc, ztake_app by done. rewrite (zslice_mid f); [apply slice_eqb_refl | done |].
  rewrite Hf, zlen_checksum8. done.
Qed.

Lemma block_raw_ok b rows : holds b rows -> block_raw r b = Ok (data_block w rows).
Proof.
  intros Hh. unfold block_raw. rewrite (h_read _ _ _ _ _ Hh). cbn [mbind Result_bind].
  by rewrite (proj2 (data_block_parts rows (h_good _ _ _ _ _ Hh))).
Qed.

Lemma block_parts rows :
  block_good w rows -> exists l ridx,
    block_inv (sw_v2 w) v3 (sw_v4 w) (data_state w rows) l ridx /\ map snd l = rows /\
    Forall entry_wf (map snd l) /\ keys_asc l /\ l <> [] /\
    data_payload w rows = (if sw_v2 w then block_table (sw_v4 w) (data_state w rows) else []) ++ enc v3 l.
Proof.
  intros Hg. destruct (bg_inv _ _ Hg) as (l & ridx & Hi & Es). exists l, ridx. split_and!; try done.
  - rewrite Es. apply Hg.
  - pose proof (bg_asc _ _ Hg) as Ha. rewrite <-Es in Ha. clear -Ha. induction l as [|x l IH]; [constructor|].
    cbn [map] in Ha. apply StronglySorted_inv in Ha as [Ha Hf]. constructor; [by apply IH|]. by apply Forall_map in Hf.
  - intros ->. by apply (bg_ne _ _ Hg).
  - unfold data_payload, block_payload. rewrite (bi_payload _ _ _ _ _ _ Hi). by destruct (sw_v2 w).
Qed.

Lemma block_entries_ok b rows : holds b rows -> block_entries r b = Ok (map (persisted v3) rows).
Proof.
  intros Hh. pose proof (h_good _ _ _ _ _ Hh) as Hg. unfold block_entries. rewrite (block_raw_ok b rows Hh).
  cbn [mbind Result_bind]. rewrite (proj1 (data_block_parts rows Hg)).
  destruct (block_parts rows Hg) as (l & ridx & Hi & Es & Hw & Ha & Hne & Ep). pose proof (bg_fit _ _ Hg) as Hfit.
  assert (zlen l = zlen rows) as El by (rewrite <-Es; unfold zlen; by rewrite length_map).
  rewrite Ep in *. destruct (sw_v2 w) eqn:E2.
  - rewrite <-Es at 2. rewrite (payload_entries_ok v3 (sw_v4 w) _ l ridx Hi Hw Hfit); [by rewrite Es| | | |].
    + by rewrite (h_v2 _ _ _ _ _ Hh).
    + apply Hh.
    + apply Hh.
    + rewrite (h_entries _ _ _ _ _ Hh). done.
  - unfold payload_entries. rewrite (h_v2 _ _ _ _ _ Hh), E2. cbn [mbind Result_bind]. rewrite zdrop_0, app_nil_l.
    rewrite (h_v3 _ _ _ _ _ Hh), (h_entries _ _ _ _ _ Hh), <-El.
    destruct (decode_all v3 l (Z.to_nat (zlen l)) (bi_ok _ _ _ _ _ _ Hi) Hw (zlen_to_nat l)) as (c & Hd & He).
    rewrite Hd. cbn [mbind Result_bind]. by rewrite He, Es.
Qed.

Lemma block_lookup_ok b rows key rid :
  holds b rows -> sw_v2 w = true ->
  (raw ← block_raw r b; block_get_v2 b key (zdrop BLOCK_HEADER_LEN raw) rid) =
  Ok (find_row key rid (map (persisted v3) rows)).
Proof.
  intros Hh E2. pose proof (h_good _ _ _ _ _ Hh) as Hg. rewrite (block_raw_ok b rows Hh). cbn [mbind Result_bind].
  rewrite (proj1 (data_block_parts rows Hg)).
  destruct (block_parts rows Hg) as (l & ridx & Hi & Es & Hw & Ha & Hne & Ep). pose proof (bg_fit _ _ Hg) as Hfit.
  rewrite E2 in *. rewrite Ep in *. rewrite <-Es at 2.
  rewrite (block_get_v2_ok v3 (sw_v4 w) _ l ridx Hi Hw Ha Hne Hfit); [by rewrite Es | apply Hh | apply Hh].
Qed.

(** The byte-surface lookup of one block, on either format. *)
Lemma block_get_ok b rows key :
  holds b rows -> block_get r b key = Ok (find_row key (Some (mkReplicaId 0)) (map (persisted v3) rows)).
Proof.
  intros Hh. unfold block_get. rewrite (h_v2 _ _ _ _ _ Hh). destruct (sw_v2 w) eqn:E2; cbn [negb].
  - by apply block_lookup_ok.
  - rewrite (block_entries_ok b rows Hh). cbn [mbind Result_bind]. f_equal. unfold find_row.
    assert (v3 = false) as E3. { destruct v3 eqn:E; [|done]. destruct Hflags as [_ H]. by rewrite H in E2. }
    rewrite E3. clear. induction rows as [|e rows IH]; [done|]. cbn [map List.find]. unfold row_match at 1. cbn.
    rewrite andb_true_r. destruct (bytes_eqb (se_key e) key); [done | apply IH].
Qed.

Context (blocks : list (list SegmentEntry)).
Context (Hh : Forall2 holds (sr_data r) blocks).
Context (Hsort : StronglySorted publish_lt (concat blocks)).

Lemma concat_asc : rows_asc (concat blocks).
Proof. by apply publish_lt_asc. Qed.

Lemma seg_iter_ok : seg_iter r = Ok (map (persisted v3) (concat blocks)).
Proof.
  unfold seg_iter. enough (forall ds bs, Forall2 holds ds bs ->
    collect_result (block_entries r) ds = Ok (map (map (persisted v3)) bs)) as Hc.
  { rewrite (Hc _ _ Hh). cbn [mbind Result_bind]. by rewrite concat_map. }
  induction 1 as [|b rows ds bs Hb _ IH]; [done|]. cbn [collect_result map].
  rewrite (block_entries_ok b rows Hb), IH. done.
Qed.

(** Splitting at a block. *)
Lemma blocks_at (i : nat) b :
  sr_data r !! i = Some b -> exists rows, blocks !! i = Some rows /\ holds b rows /\
    blocks = take i blocks ++ rows :: drop (S i) blocks /\ drop i (sr_data r) = b :: drop (S i) (sr_data r).
Proof.
  intros Hb. destruct (Forall2_lookup_l _ _ _ _ _ Hh Hb) as (rows & Hr & Hbr). exists rows. split_and!; try done.
  - by rewrite take_drop_middle.
  - by apply drop_S.
Qed.

Definition covers (key : bytes) rows : Prop :=
  bytes_leb (first_key rows) key = true /\ bytes_leb key (last_key rows) = true.

Lemma locate_spec key :
  match locate r key with
  | Some i => exists b rows, sr_data r !! i = Some b /\ blocks !! i = Some rows /\ holds b rows /\ covers key rows /\
      forall e, e ∈ concat (take i blocks) -> bytes_lt (se_key e) key
  | None => forall e, e ∈ concat blocks -> se_key e <> key
  end.
Proof.
  unfold locate. set (p := fun b => bytes_ltb (block_key r (db_last b)) key). set (i := partition_point_by p (sr_data r)).
  destruct (partition_point_spec p (sr_data r)) as [H1 H2]. fold i in H1, H2.
  assert (forall rows, rows ∈ take i blocks -> bytes_lt (last_key rows) key) as Hlt.
  { intros rows Hr. apply list_elem_of_lookup in Hr as (j & Hj). apply lookup_take_Some in Hj as [Hj Hji].
    destruct (Forall2_lookup_r _ _ _ _ _ Hh Hj) as (b & Hb & Hbr).
    eapply Forall_forall in H1; [|eapply list_elem_of_lookup_2; apply lookup_take_Some; done].
    unfold p, block_key in H1. rewrite (h_last _ _ _ _ _ Hbr) in H1. by apply bytes_ltb_lt. }
  assert (forall e, e ∈ concat (take i blocks) -> bytes_lt (se_key e) key) as Hbelow.
  { intros e He. apply list_elem_of_In, in_concat in He as (rows & Hr & He). apply list_elem_of_In in Hr, He.
    eapply bytes_leb_lt_trans; [|by apply Hlt]. apply last_key_ge; [|done].
    pose proof (sorted_concat _ _ concat_asc) as Hs. eapply Forall_forall in Hs; [exact Hs|].
    by eapply subseteq_take in Hr. }
  destruct (sr_data r !! i) as [b|] eqn:Hb; cbn [mbind option_bind].
  - destruct (blocks_at i b Hb) as (rows & Hr & Hbr & Eb & _).
    destruct (bytes_leb (block_key r (db_first b)) key) eqn:Ef; unfold block_key in Ef; rewrite (h_first _ _ _ _ _ Hbr) in Ef.
    + exists b, rows. split_and!; try done. specialize (H2 b eq_refl). unfold p, block_key in H2.
      rewrite (h_last _ _ _ _ _ Hbr) in H2. split; [done|]. by apply bytes_ltb_false in H2.
    + intros e He. rewrite Eb, concat_app in He. apply elem_of_app in He as [He|He].
      * apply bytes_lt_neq. by apply Hbelow.
      * pose proof concat_asc as Ha. rewrite Eb, concat_app in Ha. apply sorted_app_inv in Ha as [_ Ha].
        apply bytes_leb_false in Ef. intros <-. apply (bytes_lt_irrefl (se_key e)).
        eapply bytes_lt_leb_trans; [exact Ef|].
        pose proof (bg_ne _ _ (h_good _ _ _ _ _ Hbr)) as Hne. destruct rows as [|x rows]; [done|].
        apply (first_key_le _ e Ha) in He. unfold first_key in *. cbn in *. done.
  - intros e He. apply bytes_lt_neq, Hbelow. apply lookup_ge_None in Hb.
    rewrite (Forall2_length _ _ _ Hh) in Hb. by rewrite take_ge.
Qed.

(** Rows behind a block that ends above the key do not have it. *)
Lemma none_behind key rows (bs : list (list SegmentEntry)) rid :
  rows_asc (rows ++ concat bs) -> rows <> [] -> bytes_lt key (last_key rows) ->
  find_row key rid (map (persisted v3) (concat bs)) = None.
Proof.
  intros Ha Hne Hlt. apply persisted_not_elem. intros e He <-.
  apply (bytes_lt_irrefl (se_key e)). eapply bytes_lt_leb_trans; [exact Hlt|].
  destruct (first_last_elem rows Hne) as (_ & x & _ & Hx & _ & ->).
  by apply (sorted_app_rel _ _ _ _ _ Ha Hx).
Qed.

Lemma find_last key rows :
  rows <> [] -> key = last_key rows -> find_row key None (map (persisted v3) rows) <> None.
Proof.
  intros Hne -> Hn. destruct (first_last_elem rows Hne) as (_ & x & _ & Hx & _ & Hk).
  pose proof (List.find_none _ _ Hn (persisted v3 x)) as H. unfold row_match in H.
  rewrite persisted_key, Hk, bytes_eqb_refl in H. discriminate H. apply in_map. by apply list_elem_of_In.
Qed.

Lemma rid_walk_ok key rid ds (bs : list (list SegmentEntry)) :
  v3 = true -> Forall2 holds ds bs -> rows_asc (concat bs) ->
  (forall rows, bs !! 0%nat = Some rows -> bytes_leb key (last_key rows) = true) ->
  rid_walk r key rid ds = Ok (find_row key (Some rid) (map (persisted v3) (concat bs))).
Proof.
  intros E3 Hds. assert (sw_v2 w = true) as E2 by by apply Hflags.
  induction Hds as [|b rows ds bs Hb Hds IH]; intros Ha Hl; [done|]. cbn [rid_walk concat].
  pose proof (bg_ne _ _ (h_good _ _ _ _ _ Hb)) as Hne. cbn [concat] in Ha.
  rewrite (h_v3 _ _ _ _ _ Hb), E3, (block_lookup_ok _ _ _ (Some rid) Hb E2), E3. cbn [mbind Result_bind].
  rewrite map_app, find_row_app. destruct (find_row key (Some rid) (map (persisted true) rows)); [done|].
  unfold block_key. rewrite (h_last _ _ _ _ _ Hb). specialize (Hl rows eq_refl).
  destruct (bytes_eqb (last_key rows) key) eqn:Ek; cbn [andb].
  - apply bytes_eqb_eq in Ek. destruct Hds as [|b2 rows2 ds bs Hb2 Hds]; [done|]. rewrite <-E3.
    apply IH; [by apply sorted_app_inv in Ha as [_ Ha]|]. intros rows' Hr. injection Hr as <-.
    destruct (first_last_elem rows Hne) as (_ & x & _ & Hx & _ & Hxk).
    destruct (first_last_elem rows2 (bg_ne _ _ (h_good _ _ _ _ _ Hb2))) as (_ & y & _ & Hy & _ & Hyk).
    rewrite Hyk, <-Ek, Hxk. apply (sorted_app_rel _ _ _ _ _ Ha Hx). cbn. set_solver.
  - apply bytes_eqb_neq in Ek. apply bytes_leb_le in Hl as [Hl| ->]; [|done].
    f_equal. symmetry. rewrite <-E3. by apply (none_behind key rows).
Qed.

Lemma asc_drop (i : nat) : rows_asc (concat (drop i blocks)).
Proof.
  pose proof concat_asc as Ha. rewrite <-(take_drop i blocks), concat_app in Ha. by apply sorted_app_inv in Ha as [_ Ha].
Qed.

Lemma find_from (i : nat) key rid :
  (forall e, e ∈ concat (take i blocks) -> bytes_lt (se_key e) key) ->
  find_row key rid (map (persisted v3) (concat blocks)) = find_row key rid (map (persisted v3) (concat (drop i blocks))).
Proof.
  intros Hb. rewrite <-(take_drop i blocks) at 1. rewrite concat_app, map_app, find_row_app.
  rewrite persisted_not_elem; [done|]. intros e He. apply bytes_lt_neq. by apply Hb.
Qed.

Lemma seg_get_by_rid_ok key rid :
  v3 = true -> seg_get_by_rid r key rid = Ok (find_row key (Some rid) (map (persisted v3) (concat blocks))).
Proof.
  intros E3. unfold seg_get_by_rid. pose proof (locate_spec key) as Hloc. destruct (locate r key) as [i|].
  - destruct Hloc as (b & rows & Hb & Hr & Hbr & [_ Hc] & Hbelow). rewrite (find_from i) by done.
    apply rid_walk_ok; [done | by apply Forall2_drop | apply asc_drop |].
    intros rows' Hr'. rewrite lookup_drop, Nat.add_0_r in Hr'. congruence.
  - f_equal. symmetry. by apply persisted_not_elem.
Qed.

(** Rows without a replica id, or a format that drops it: every row is a byte row. *)
Definition byte_rows rows : Prop := v3 = false \/ Forall (fun e => se_rid e = mkReplicaId 0) rows.

Lemma byte_rows_match key rows :
  byte_rows rows ->
  find_row key (Some (mkReplicaId 0)) (map (persisted v3) rows) = find_row key None (map (persisted v3) rows).
Proof.
  intros Hb. unfold find_row. assert (forall e, e ∈ rows -> se_rid (persisted v3 e) = mkReplicaId 0) as H0.
  { intros e He. unfold persisted. destruct v3 eqn:E3; [|done]. destruct Hb as [Hb|Hb]; [congruence|].
    by eapply Forall_forall in Hb. }
  clear Hb. induction rows as [|e rows IH]; [done|]. cbn [map List.find]. unfold row_match.
  rewrite (H0 e) by set_solver. rewrite bool_decide_eq_true_2 by done. rewrite andb_true_r.
  destruct (bytes_eqb _ _); [done|]. apply IH. set_solver.
Qed.

Lemma seg_get_ok key :
  byte_rows (concat blocks) -> seg_get r key = Ok (find_row key None (map (persisted v3) (concat blocks))).
Proof.
  intros Hby. unfold seg_get. pose proof (locate_spec key) as Hloc. destruct (locate r key) as [i|].
  - destruct Hloc as (b & rows & Hb & Hr & Hbr & [_ Hc] & Hbelow). rewrite Hb, (block_get_ok _ _ _ Hbr).
    rewrite (find_from i) by done. rewrite (drop_S _ _ _ Hr). cbn [concat]. rewrite map_app, find_row_app.
    pose proof (asc_drop i) as Ha. rewrite (drop_S _ _ _ Hr) in Ha. cbn [concat] in Ha.
    assert (byte_rows rows) as Hbr'.
    { destruct Hby as [Hby|Hby]; [by left|]. right. rewrite <-(take_drop_middle _ _ _ Hr), concat_app in Hby.
      apply Forall_app in Hby as [_ Hby]. cbn in Hby. by apply Forall_app in Hby as [Hby _]. }
    rewrite (byte_rows_match _ _ Hbr'). pose proof (bg_ne _ _ (h_good _ _ _ _ _ Hbr)) as Hne.
    destruct (find_row key None (map (persisted v3) rows)) eqn:Ef; [done|]. f_equal. symmetry.
    apply bytes_leb_le in Hc as [Hc|Hc]; [by apply (none_behind key rows)|]. by apply find_last in Hc.
  - f_equal. symmetry. by apply persisted_not_elem.
Qed.

(** Range queries: the rows kept by a key predicate. *)
Abbreviation keep := (fun (f : SegmentEntry -> bool) rows => List.filter f (map (persisted v3) rows)).

Lemma keep_none (f : bytes -> bool) rows :
  (forall e, e ∈ rows -> f (se_key e) = false) -> List.filter (fun e => f (se_key e)) (map (persisted v3) rows) = [].
Proof.
  induction rows as [|e rows IH]; intros H; [done|]. cbn [map List.filter]. rewrite persisted_key, (H e) by set_solver.
  apply IH. set_solver.
Qed.

Lemma versions_walk_ok key ds (bs : list (list SegmentEntry)) :
  Forall2 holds ds bs -> rows_asc (concat bs) ->
  versions_walk r key ds = Ok (keep (fun e => bytes_eqb (se_key e) key) (concat bs)).
Proof.
  induction 1 as [|b rows ds bs Hb Hds IH]; intros Ha; [done|]. cbn [versions_walk concat] in *.
  unfold block_key. rewrite (h_first _ _ _ _ _ Hb). pose proof (bg_ne _ _ (h_good _ _ _ _ _ Hb)) as Hne.
  destruct (bytes_leb (first_key rows) key) eqn:Ef.
  - rewrite (block_entries_ok _ _ Hb), IH by by apply sorted_app_inv in Ha as [_ Ha]. cbn [mbind Result_bind].
    by rewrite map_app, List.filter_app.
  - f_equal. symmetry. apply (keep_none (fun k => bytes_eqb k key)). intros e He. apply bytes_eqb_neq.
    apply bytes_leb_false in Ef. intros <-. apply (bytes_lt_irrefl (se_key e)). eapply bytes_lt_leb_trans; [exact Ef|].
    apply (first_key_le _ e Ha) in He. destruct rows as [|x rows]; [done|]. exact He.
Qed.

Lemma seg_versions_ok key :
  seg_versions r key = Ok (keep (fun e => bytes_eqb (se_key e) key) (concat blocks)).
Proof.
  unfold seg_versions. pose proof (locate_spec key) as Hloc. destruct (locate r key) as [i|].
  - destruct Hloc as (b & rows & Hb & Hr & Hbr & _ & Hbelow).
    rewrite (versions_walk_ok key _ (drop i blocks)); [|by apply Forall2_drop | apply asc_drop]. f_equal.
    rewrite <-(take_drop i blocks) at 2. rewrite concat_app, map_app, List.filter_app.
    rewrite (keep_none (fun k => bytes_eqb k key) (concat (take i blocks))); [done|].
    intros e He. apply bytes_eqb_neq, bytes_lt_neq. by apply Hbelow.
  - f_equal. symmetry. apply (keep_none (fun k => bytes_eqb k key)). intros e He. by apply bytes_eqb_neq, Hloc.
Qed.

Abbreviation in_range := (fun lo hi e => bytes_leb lo (se_key e) && bytes_ltb (se_key e) hi).

Lemma scan_walk_ok lo hi ds (bs : list (list SegmentEntry)) :
  Forall2 holds ds bs -> rows_asc (concat bs) -> scan_walk r lo hi ds = Ok (keep (in_range lo hi) (concat bs)).
Proof.
  induction 1 as [|b rows ds bs Hb Hds IH]; intros Ha; [done|]. cbn [scan_walk concat] in *.
  unfold block_key. rewrite (h_first _ _ _ _ _ Hb). pose proof (bg_ne _ _ (h_good _ _ _ _ _ Hb)) as Hne.
  destruct (bytes_leb hi (first_key rows)) eqn:Ef.
  - f_equal. symmetry. apply (keep_none (fun k => bytes_leb lo k && bytes_ltb k hi)). intros e He.
    apply andb_false_iff. right. apply bytes_ltb_false. eapply bytes_leb_trans; [exact Ef|].
    apply (first_key_le _ e Ha) in He. destruct rows as [|x rows]; [done|]. exact He.
  - rewrite (block_entries_ok _ _ Hb), IH by by apply sorted_app_inv in Ha as [_ Ha]. cbn [mbind Result_bind].
    by rewrite map_app, List.filter_app.
Qed.

Lemma seg_scan_ok lo hi : seg_scan r lo hi = Ok (keep (in_range lo hi) (concat blocks)).
Proof.
  unfold seg_scan. set (p := fun b => bytes_ltb (block_key r (db_last b)) lo).
  destruct (partition_point_spec p (sr_data r)) as [H1 _]. set (i := partition_point_by p (sr_data r)) in *.
  rewrite (scan_walk_ok lo hi _ (drop i blocks)); [|by apply Forall2_drop | apply asc_drop]. f_equal.
  rewrite <-(take_drop i blocks) at 2. rewrite concat_app, map_app, List.filter_app.
  rewrite (keep_none (fun k => bytes_leb lo k && bytes_ltb k hi) (concat (take i blocks))); [done|].
  intros e He. apply andb_false_iff. left. apply bytes_leb_false.
  apply list_elem_of_In, in_concat in He as (rows & Hr & He). apply list_elem_of_In in Hr, He.
  pose proof (subseteq_take i blocks _ Hr) as Hr'.
  pose proof (sorted_concat _ _ concat_asc) as Hs. eapply Forall_forall in Hs; [|exact Hr'].
  eapply bytes_leb_lt_trans; [by apply (last_key_ge rows)|].
  apply list_elem_of_lookup in Hr as (j & Hj). apply lookup_take_Some in Hj as [Hj Hji].
  destruct (Forall2_lookup_r _ _ _ _ _ Hh Hj) as (b & Hb & Hbr).
  eapply Forall_forall in H1; [|eapply list_elem_of_lookup_2; apply lookup_take_Some; done].
  unfold p, block_key in H1. rewrite (h_last _ _ _ _ _ Hbr) in H1. by apply bytes_ltb_lt.
Qed.
End Reader.

(* ------------------------------------------------------------------ *)
(** * The bloom filter *)

Definition bit_set (bits : bytes) (bit : Z) : bool :=
  match bits !! Z.to_nat (bit / 8) with
  | Some b => negb (Z.land (byte_val b) (Z.shiftl 1 (bit mod 8)) =? 0)
  | None => false
  end.

Lemma land_bit v k : 0 <= k -> negb (Z.land v (Z.shiftl 1 k) =? 0) = Z.testbit v k.
Proof.
  intros Hk. assert (Z.shiftl 1 k = 2 ^ k) as -> by (rewrite Z.shiftl_mul_pow2; lia).
  destruct (Z.testbit v k) eqn:E.
  - apply negb_true_iff, Z.eqb_neq. intros H0. apply (f_equal (fun z => Z.testbit z k)) in H0.
    rewrite Z.land_spec, E, Z.pow2_bits_true, Z.bits_0 in H0 by done. done.
  - apply negb_false_iff, Z.eqb_eq. apply Z.bits_inj'. intros n Hn. rewrite Z.land_spec, Z.bits_0.
    destruct (decide (n = k)) as [->|Hne]; [by rewrite E|]. rewrite Z.pow2_bits_false by lia. apply andb_false_r.
Qed.

Lemma or_bit v k n :
  0 <= v < 256 -> 0 <= k < 8 -> 0 <= n < 8 ->
  Z.testbit (byte_val (byte_of (Z.lor v (Z.shiftl 1 k)))) n = Z.testbit v n || (n =? k).
Proof.
  intros Hv Hk Hn. rewrite byte_val_of. change 256 with (2 ^ 8). rewrite Z.mod_pow2_bits_low by lia.
  rewrite Z.lor_spec. f_equal. rewrite Z.shiftl_mul_pow2, Z.mul_1_l by lia.
  destruct (Z.eqb_spec n k) as [->|Hne]; [apply Z.pow2_bits_true; lia | apply Z.pow2_bits_false; lia].
Qed.

Lemma bit_set_add bits i j :
  0 <= i -> 0 <= j -> i / 8 < zlen bits -> bit_set (set_bit bits i) j = bit_set bits j || (j =? i).
Proof.
  intros Hi Hj Hl. unfold bit_set, set_bit. pose proof (Z.mod_pos_bound j 8 ltac:(lia)).
  pose proof (Z.mod_pos_bound i 8 ltac:(lia)). pose proof (Z.div_pos i 8 Hi ltac:(lia)). pose proof (Z.div_pos j 8 Hj ltac:(lia)).
  destruct (decide (i / 8 = j / 8)) as [E|E].
  - rewrite <-E, list_lookup_alter_eq. destruct (lookup_lt_is_Some_2 bits (Z.to_nat (i / 8))) as [b Hb].
    { unfold zlen in Hl. lia. }
    rewrite Hb. cbn. rewrite !land_bit, or_bit by (lia || apply byte_val_range). f_equal.
    destruct (Z.eqb_spec (j mod 8) (i mod 8)) as [Em|Em]; symmetry; [apply Z.eqb_eq | apply Z.eqb_neq].
    + rewrite (Z.div_mod i 8), (Z.div_mod j 8), E, Em by lia. done.
    + intros ->. done.
  - rewrite list_lookup_alter_ne by lia. rewrite (proj2 (Z.eqb_neq j i)) by (intros ->; done). by rewrite orb_false_r.
Qed.

Section Bloom.
Context {SHA : Sha256} (m : Z) (Hm : 0 < m).

Definition probe_bits (key : bytes) : list Z :=
  let '(h1, h2) := bloom_hashes key in map (bloom_bit h1 h2 m) BLOOM_PROBES.

Lemma probe_range key bit : bit ∈ probe_bits key -> 0 <= bit < m.
Proof.
  unfold probe_bits. destruct (bloom_hashes key) as [h1 h2]. intros H.
  apply list_elem_of_In, in_map_iff in H as (i & <- & _). by apply Z.mod_pos_bound.
Qed.

Lemma bit_index bit : 0 <= bit < m -> bit / 8 < div_ceil8 m.
Proof. intros H. unfold div_ceil8. apply Z.div_lt_upper_bound; [lia|]. pose proof (Z.div_mod (m + 7) 8). pose proof (Z.mod_pos_bound (m + 7) 8). lia. Qed.

Lemma set_bits_spec l bits j :
  0 <= j < m -> (forall i, i ∈ l -> 0 <= i < m) -> zlen bits = div_ceil8 m ->
  bit_set (fold_left set_bit l bits) j = bit_set bits j || existsb (Z.eqb j) l.
Proof.
  intros Hj. revert bits. induction l as [|i l IH]; intros bits Hl Hb; cbn [fold_left existsb]; [by rewrite orb_false_r|].
  assert (0 <= i < m) as Hi by (apply Hl; set_solver).
  rewrite IH; [|intros; apply Hl; set_solver | by rewrite set_bit_len].
  rewrite bit_set_add by (rewrite ?Hb; try apply bit_index; lia). by rewrite orb_assoc.
Qed.

Lemma bloom_add_bits bits e : bloom_add m bits e = fold_left set_bit (probe_bits (se_key e)) bits.
Proof. unfold bloom_add, probe_bits. by destruct (bloom_hashes (se_key e)). Qed.

(** No false negatives: every probe of every added key is set. *)
Lemma bloom_complete entries bits key bit :
  zlen bits = div_ceil8 m -> bit ∈ probe_bits key ->
  (bit_set bits bit = true \/ exists e, e ∈ entries /\ se_key e = key) ->
  bit_set (fold_left (bloom_add m) entries bits) bit = true.
Proof.
  intros Hb Hbit. pose proof (probe_range _ _ Hbit) as Hr. revert bits Hb.
  induction entries as [|e entries IH]; intros bits Hb [H|(x & Hx & Hk)]; cbn [fold_left]; try done.
  - by apply not_elem_of_nil in Hx.
  - apply IH; [by rewrite bloom_add_len|]. left. rewrite bloom_add_bits, set_bits_spec, H; try done. intros i. apply probe_range.
  - apply IH; [by rewrite bloom_add_len|]. apply elem_of_cons in Hx as [->|Hx]; [|right; eauto]. left.
    rewrite bloom_add_bits, set_bits_spec; try done; [|intros i; apply probe_range].
    apply orb_true_iff. right. apply existsb_exists. exists bit. rewrite Hk. split; [by apply list_elem_of_In | apply Z.eqb_refl].
Qed.
End Bloom.

Lemma bloom_test_spec {SHA : Sha256} r key :
  bloom_may_contain r key = forallb (bit_set (zdrop 4 (sr_bloom r))) (probe_bits (sr_bloom_m r) key).
Proof. unfold bloom_may_contain, bloom_may_contain_hashes, probe_bits. by destruct (bloom_hashes key). Qed.

(* ------------------------------------------------------------------ *)
(** * Anchors *)

(** A row with its block id and block-local index, in publication order. *)
Abbreviation placed_row := (Z * Z * SegmentEntry)%type.
Fixpoint positions (id : Z) (blocks : list (list SegmentEntry)) : list placed_row :=
  match blocks with
  | [] => []
  | rows :: blocks => map (fun '(c, e) => (id, c, e)) (enumerate rows) ++ positions (id + 1) blocks
  end.
Definition anchor_row (anchors : AnchorMap) (x : placed_row) : AnchorMap :=
  anchor_step true x.1.1 anchors (x.1.2, x.2).

Lemma anchors_of_fold w id blocks acc :
  sw_v3 w = true -> anchors_of w id blocks acc = fold_left anchor_row (positions id blocks) acc.
Proof.
  intros E3. revert id acc. induction blocks as [|rows blocks IH]; intros id acc; cbn [anchors_of positions]; [done|].
  rewrite IH, fold_left_app, E3. f_equal. generalize (enumerate rows). intros l. revert acc.
  induction l as [|[c e] l IHl]; intros acc; cbn [map fold_left]; [done|]. by rewrite IHl.
Qed.

Definition anchor_of (x : placed_row) : SegmentAnchor :=
  mkSegmentAnchor (se_rid x.2) (se_seq x.2) (as_u32 x.1.1) (as_u32 x.1.2).

(** Exactly the replicas seen have an anchor, at one of their rows of highest sequence. *)
Definition anchors_inv (seen : list placed_row) (anchors : AnchorMap) : Prop :=
  forall rid,
    match anchors !! rid with
    | Some a => rid <> mkReplicaId 0 /\ (exists x, x ∈ seen /\ a = anchor_of x /\ se_rid x.2 = rid) /\
        forall y, y ∈ seen -> se_rid y.2 = rid -> se_seq y.2 <= sa_seq a
    | None => rid <> mkReplicaId 0 -> forall y, y ∈ seen -> se_rid y.2 <> rid
    end.

Lemma anchor_row_inv seen anchors x :
  anchors_inv seen anchors -> anchors_inv (seen ++ [x]) (anchor_row anchors x).
Proof.
  intros Hi rid. pose proof (Hi rid) as Hr. destruct x as [[id c] e].
  assert (forall y : placed_row, y ∈ seen ++ [(id, c, e)] <-> y ∈ seen \/ y = (id, c, e)) as Hel.
  { intros y. by rewrite elem_of_app, list_elem_of_singleton. }
  unfold anchor_row, anchor_step. cbn [fst snd andb].
  destruct (decide (se_rid e = rid)) as [Er|Er].
  - subst rid. case_bool_decide as E0; cbn [negb].
    + destruct (anchors !! se_rid e); [by destruct Hr|]. done.
    + destruct (anchors !! se_rid e) as [old|] eqn:Ho.
      * destruct Hr as (Hn & (x & Hx & -> & Ex) & Hmax). destruct (sa_seq (anchor_of x) <? se_seq e) eqn:Es; bool_to_prop.
        -- rewrite lookup_insert_eq. split_and!; [done | exists (id, c, e); rewrite Hel; auto|].
           cbn. intros y [Hy| ->]%Hel Ey; [|done]. specialize (Hmax y Hy Ey). lia.
        -- rewrite Ho. split_and!; [done | exists x; rewrite Hel; auto|]. intros y [Hy| ->]%Hel Ey; [by apply Hmax | cbn in *; lia].
      * rewrite lookup_insert_eq. split_and!; [done | exists (id, c, e); rewrite Hel; auto|].
        cbn. intros y [Hy| ->]%Hel Ey; [|done]. exfalso. by apply (Hr E0 y Hy).
  - assert (match anchors !! rid with
      | Some a => rid <> mkReplicaId 0 /\ (exists x, x ∈ seen ++ [(id, c, e)] /\ a = anchor_of x /\ se_rid x.2 = rid) /\
          forall y, y ∈ seen ++ [(id, c, e)] -> se_rid y.2 = rid -> se_seq y.2 <= sa_seq a
      | None => rid <> mkReplicaId 0 -> forall y, y ∈ seen ++ [(id, c, e)] -> se_rid y.2 <> rid end) as Hr'.
    { destruct (anchors !! rid) as [a|].
      - destruct Hr as (Hn & (x & Hx & -> & Ex) & Hmax). split_and!; [done | exists x; rewrite Hel; auto|].
        intros y [Hy| ->]%Hel Ey; [by apply Hmax | by cbn in Ey].
      - intros Hn y [Hy| ->]%Hel; [by apply Hr | done]. }
    destruct (negb _); [|done]. destruct (anchors !! se_rid e) as [old|]; [|by rewrite lookup_insert_ne].
    destruct (sa_seq old <? se_seq e); [by rewrite lookup_insert_ne | done].
Qed.

Lemma anchors_fold_inv l seen acc :
  anchors_inv seen acc -> anchors_inv (seen ++ l) (fold_left anchor_row l acc).
Proof.
  revert seen acc. induction l as [|x l IH]; intros seen acc H; cbn [fold_left]; [by rewrite app_nil_r|].
  rewrite (cons_middle x seen l), app_assoc. apply IH. by apply anchor_row_inv.
Qed.

Lemma positions_rows id blocks x :
  x ∈ positions id blocks <->
  exists i rows j, blocks !! i = Some rows /\ rows !! j = Some x.2 /\ x.1.1 = id + Z.of_nat i /\ x.1.2 = Z.of_nat j.
Proof.
  revert id. induction blocks as [|rows blocks IH]; intros id; cbn [positions].
  { split; [by intros H%not_elem_of_nil|]. by intros (i & r & j & H & _). }
  rewrite elem_of_app, IH. clear IH. destruct x as [[a b] e]. cbn [fst snd].
  assert ((a, b, e) ∈ map (fun '(c, e) => (id, c, e)) (enumerate rows) <-> a = id /\ exists j, rows !! j = Some e /\ b = Z.of_nat j) as ->.
  { rewrite list_elem_of_In, in_map_iff. unfold enumerate. split.
    - intros ([c e'] & E & Hin). injection E as <- <- <-. split; [done|]. apply list_elem_of_In, list_elem_of_lookup in Hin as [j Hj].
      apply lookup_zip_with_Some in Hj as (z & e2 & E & Hz & He). injection E as -> ->. exists j. split; [done|].
      apply lookup_seqZ in Hz. lia.
    - intros (-> & j & Hj & ->). exists (Z.of_nat j, e). split; [done|]. apply list_elem_of_In.
      eapply (list_elem_of_lookup_2 _ j), lookup_zip_with_Some. exists (Z.of_nat j), e. split_and!; try done.
      apply lookup_seqZ. pose proof (lookup_lt_Some _ _ _ Hj). unfold zlen. lia. }
  split.
  - intros [(-> & j & Hj & ->)|(i & r & j & Hi & Hj & -> & ->)].
    + exists 0%nat, rows, j. split_and!; try done. lia.
    + exists (S i), r, j. split_and!; try done. lia.
  - intros ([|i] & r & j & Hi & Hj & -> & ->); cbn in Hi.
    + injection Hi as ->. left. split; [lia | eauto].
    + right. exists i, r, j. split_and!; try done. lia.
Qed.
