(* ===== verification/SegmentProps.v ===== *)
(** The properties of published segments: publication succeeds exactly on ordered rows,
    the file opens back to the rows, and every read of the opened segment is the search of
    those rows, with the one case where the byte lookup is not. *)

From S2P Require Import Prelude Cursor Format Identity Segment SegmentBlock SegmentLookup SegmentFile SegmentQueries.

(* ------------------------------------------------------------------ *)
(** * Orders of the publish entry points *)

(** The memtable's flush order: key ascending, sequence ascending within a key. *)
Definition flush_lt (a b : SegmentEntry) : Prop :=
  bytes_lt (se_key a) (se_key b) \/ se_key a = se_key b /\ se_seq a < se_seq b.

Lemma publish_lt_irrefl a : ~ publish_lt a a.
Proof. intros [H|[_ H]]; [by apply bytes_lt_irrefl in H | lia]. Qed.

Lemma reverse_runs_perm run l : reverse_runs run l ≡ₚ run ++ l.
Proof.
  revert run. induction l as [|e l IH]; intros run; cbn [reverse_runs]; [by rewrite app_nil_r|].
  destruct run as [|h run]; [by rewrite IH|]. destruct (bytes_eqb (se_key e) (se_key h)).
  - rewrite IH. cbn [app]. by rewrite (Permutation_middle (h :: run) l e).
  - by rewrite IH.
Qed.

(** Reversing each key's run turns the flush order into the publication order. *)
Lemma reverse_runs_sorted run l :
  StronglySorted publish_lt run -> StronglySorted flush_lt l ->
  (forall a b, a ∈ run -> b ∈ run -> se_key a = se_key b) ->
  (forall a b, a ∈ run -> b ∈ l -> flush_lt a b) -> StronglySorted publish_lt (reverse_runs run l).
Proof.
  revert run. induction l as [|e l IH]; intros run Hr Hl Hk Hx; cbn [reverse_runs]; [done|].
  apply StronglySorted_inv in Hl as [Hl Hf]. rewrite Forall_forall in Hf.
  assert (StronglySorted publish_lt (reverse_runs [e] l)) as H1.
  { apply IH; [repeat constructor | done | set_solver|]. intros a b Ha Hb.
    apply list_elem_of_singleton in Ha as ->. by apply Hf. }
  destruct run as [|h run]; [done|]. destruct (bytes_eqb (se_key e) (se_key h)) eqn:E.
  - apply bytes_eqb_eq in E. apply IH; try done.
    + constructor; [done|]. apply Forall_forall. intros a Ha. right.
      destruct (Hx a e Ha) as [H|[Ek Hs]]; [set_solver| |].
      * rewrite (Hk a h), <-E in H by set_solver. by apply bytes_lt_irrefl in H.
      * split; [by rewrite E, (Hk a h) by set_solver | lia].
    + intros a b Ha Hb. assert (forall x, x ∈ e :: h :: run -> se_key x = se_key h) as Hall.
      { intros x Hx'. apply elem_of_cons in Hx' as [->|Hx']; [done|]. apply Hk; set_solver. }
      by rewrite (Hall a Ha), (Hall b Hb).
    + intros a b Ha Hb. apply elem_of_cons in Ha as [->|Ha]; [by apply Hf|]. apply Hx; set_solver.
  - apply bytes_eqb_neq in E. apply StronglySorted_app; [done | done|]. intros a b Ha Hb. left.
    rewrite reverse_runs_perm in Hb. rewrite (Hk a h) by set_solver.
    assert (bytes_lt (se_key h) (se_key e)) as He.
    { destruct (Hx h e) as [H|[H _]]; [set_solver | set_solver | done | by rewrite H in E]. }
    cbn [app] in Hb. apply elem_of_cons in Hb as [->|Hb]; [done|].
    destruct (Hf b Hb) as [H|[<- _]]; [by etrans | done].
Qed.

Lemma insert_entry_perm e l : insert_entry e l ≡ₚ e :: l.
Proof.
  induction l as [|x l IH]; cbn; [done|]. destruct (entry_le e x); [done|]. rewrite IH. apply Permutation_swap.
Qed.
Lemma sort_entries_perm l : sort_entries l ≡ₚ l.
Proof. unfold sort_entries. induction l as [|x l IH]; cbn; [done|]. by rewrite insert_entry_perm, IH. Qed.

Lemma entry_le_spec a b : entry_le a b = true <-> bytes_lt (se_key a) (se_key b) \/ se_key a = se_key b /\ se_seq b <= se_seq a.
Proof.
  unfold entry_le, bytes_lt. destruct (bytes_compare (se_key a) (se_key b)) eqn:E.
  - apply bytes_compare_eq in E. rewrite Z.leb_le. split; [auto|]. intros [H|[_ H]]; done.
  - naive_solver.
  - split; [done|]. intros [H|[H _]]; [done|]. by rewrite H, bytes_compare_refl in E.
Qed.

Definition sort_le (a b : SegmentEntry) : Prop := entry_le a b = true.
Lemma sort_le_trans a b c : sort_le a b -> sort_le b c -> sort_le a c.
Proof.
  unfold sort_le. rewrite !entry_le_spec. intros [H1|[E1 H1]] [H2|[E2 H2]].
  - left. by etrans.
  - left. by rewrite <-E2.
  - left. by rewrite E1.
  - right. split; [congruence | lia].
Qed.
Lemma sort_le_total a b : entry_le a b = false -> sort_le b a.
Proof.
  intros H. unfold sort_le. apply entry_le_spec. apply not_true_iff_false in H. rewrite entry_le_spec in H.
  destruct (bytes_trichotomy (se_key a) (se_key b)) as [[Hl|He]|Hg]; [tauto| |tauto].
  right. split; [done|]. destruct (Z.le_gt_cases (se_seq b) (se_seq a)); [tauto | lia].
Qed.

Lemma insert_entry_sorted e l : StronglySorted sort_le l -> StronglySorted sort_le (insert_entry e l).
Proof.
  induction 1 as [|x l Hs IH Hf]; cbn; [repeat constructor|]. destruct (entry_le e x) eqn:E.
  - repeat constructor; try done. eapply Forall_impl; [exact Hf|]. intros y. by apply sort_le_trans.
  - constructor; [done|]. apply Forall_forall. intros y Hy. rewrite insert_entry_perm in Hy.
    apply elem_of_cons in Hy as [->|Hy]; [by apply sort_le_total | by eapply Forall_forall in Hf].
Qed.
Lemma sort_entries_sorted l : StronglySorted sort_le (sort_entries l).
Proof. unfold sort_entries. induction l as [|x l IH]; cbn; [constructor | by apply insert_entry_sorted]. Qed.

(** An ordered list is the only ordered arrangement of its rows. *)
Lemma sorted_unique l k :
  StronglySorted publish_lt l -> StronglySorted sort_le k -> l ≡ₚ k -> l = k.
Proof.
  intros Hl. revert k. induction Hl as [|a l Hl IH Hf]; intros k Hk Hp.
  - by apply Permutation_nil_l in Hp.
  - destruct k as [|b k]; [by apply Permutation_nil_r in Hp|]. apply StronglySorted_inv in Hk as [Hk Hkf].
    assert (a = b) as ->.
    { assert (b ∈ a :: l) as Hb by (rewrite Hp; set_solver). apply elem_of_cons in Hb as [->|Hb]; [done|].
      assert (a ∈ b :: k) as Ha by (rewrite <-Hp; set_solver). apply elem_of_cons in Ha as [->|Ha]; [done|].
      eapply Forall_forall in Hf; [|exact Hb]. eapply Forall_forall in Hkf; [|exact Ha].
      unfold sort_le in Hkf. apply entry_le_spec in Hkf. exfalso.
      destruct Hf as [Hf|[Ef Hf]], Hkf as [Hkf|[Ekf Hkf]].
      - apply (bytes_lt_irrefl (se_key a)). by etrans.
      - rewrite Ekf in Hf. by apply bytes_lt_irrefl in Hf.
      - rewrite Ef in Hkf. by apply bytes_lt_irrefl in Hkf.
      - lia. }
    f_equal. apply IH; [done|]. by apply Permutation_cons_inv in Hp.
Qed.

(* ------------------------------------------------------------------ *)
(** * Publication and opening *)

Lemma row_block_le (blocks : list (list SegmentEntry)) (i : nat) rows :
  blocks !! i = Some rows -> zlen rows <= zlen (concat blocks).
Proof.
  intros H. rewrite <-(take_drop_middle _ _ _ H), concat_app. cbn [concat]. rewrite !zlen_app.
  pose proof (zlen_nonneg (concat (take i blocks))). pose proof (zlen_nonneg (concat (drop (S i) blocks))). lia.
Qed.

Section Published.
Context {SHA : Sha256} (w : SegmentWriter).
Implicit Types (entries : list SegmentEntry) (file : bytes).

(** The rows a publication accepts. *)
Record publishable entries : Prop := {
  pa_flags : flags_ok w; pa_wf : Forall entry_wf entries; pa_fits : fits entries }.

Lemma published_open entries file sz ck anchors :
  publishable entries -> publish_sorted_entries w entries = Ok (file, (sz, ck, anchors)) ->
  exists r blocks, open_segment file = Ok r /\
    Forall2 (holds w (sr_file r) (sr_index r)) (sr_data r) blocks /\ concat blocks = entries /\
    StronglySorted publish_lt entries /\ Forall entry_wf entries /\
    sr_entry_count r = zlen entries /\ sr_bloom_m r = BLOOM_BITS_PER_KEY * zlen entries /\
    zdrop 4 (sr_bloom r) = fold_left (bloom_add (sr_bloom_m r)) entries (repeat x00 (Z.to_nat (div_ceil8 (sr_bloom_m r)))) /\
    anchors = map snd (map_to_list (anchors_of w 0 blocks ∅)) /\ is_u32 (zlen blocks) /\ is_u32 (zlen entries) /\
    entries <> [].
Proof.
  intros [Hf Hw Hfi] Hp. destruct (publish_published w _ _ _ _ _ Hf Hw Hfi Hp) as (_ & _ & blocks & lo & hi & kmin & kmax & [Hc Hs _ [-> Hok] Ha] & _).
  eexists (opened w blocks _ _ _ lo hi kmin kmax), blocks. split; [by apply open_segment_ok|]. cbn [sr_file sr_index sr_data sr_entry_count sr_bloom sr_bloom_m opened].
  split_and!; try done.
  - rewrite <-app_assoc. apply (located_holds w blocks _ _ [] (fo_good _ _ _ _ _ _ _ _ _ Hok)).
  - apply (ho_bc _ _ _ _ _ _ (fo_header _ _ _ _ _ _ _ _ _ Hok)).
  - apply (fo_n _ _ _ _ _ _ _ _ _ Hok).
  - intros E. pose proof (fo_ne _ _ _ _ _ _ _ _ _ Hok) as Hne. pose proof (blocks_count w _ (fo_good _ _ _ _ _ _ _ _ _ Hok)) as H.
    rewrite Hc, E in H. apply Hne, nil_length_inv. unfold zlen in H. cbn in H. lia.
Qed.

Lemma publish_ok_iff entries :
  publishable entries ->
  (exists x, publish_sorted_entries w entries = Ok x) <->
  sw_target w <> 0 /\ entries <> [] /\ StronglySorted publish_lt entries.
Proof.
  intros [Hf Hw Hfi]. split.
  - intros [[file [[sz ck] anchors]] Hp].
    assert (sw_target w <> 0) as Ht by (intros E; unfold publish_sorted_entries, publish_finish in Hp; by rewrite E in Hp).
    destruct (published_open entries file sz ck anchors) as (r & blocks & _ & _ & _ & Hs & _ & _ & _ & _ & _ & _ & _ & Hne); try done.
  - intros (Ht & Hne & Hs). unfold publish_sorted_entries, publish_finish. rewrite (proj2 (Z.eqb_neq _ _)) by done.
    destruct entries as [|e0 es] eqn:Ees; [done|]. rewrite <-Ees in *.
    assert (existsb (fun e => U16 - 1 <? zlen (se_key e)) entries = false) as ->.
    { apply not_true_iff_false. intros (e & He & Hl)%existsb_exists. apply list_elem_of_In in He.
      eapply Forall_forall in Hw; [|exact He]. destruct Hw as (Hk & _). apply Z.ltb_lt in Hl. lia. }
    destruct (proj2 (publish_order entries) Hs) as [-> ->]. assert (entries <> []) as Hne' by by subst.
    pose proof (block_bounds_spans w entries Hne') as Hsp.
    pose proof (split_concat _ _ 0 ltac:(lia) Hsp) as Hc. rewrite zdrop_0 in Hc.
    pose proof (split_lens _ _ 0 ltac:(lia) Hsp) as Hl. destruct (split_nonempty _ _ Hl) as [Hbn _].
    pose proof (good_blocks w _ _ Hf Hc Hbn Hw (publish_lt_asc _ Hs) Hfi) as Hg.
    unfold enumerate. rewrite (publish_blocks w _ _ _ 0 _ Hl Hg). cbn [mbind Result_bind]. eauto.
Qed.

(** Publication is total on ordered rows and refuses everything else: over rows whose
    fields fit the format, it succeeds exactly when the block target is not zero, there is
    a row, and the rows are strictly in publication order (key ascending, sequence
    descending within a key, no duplicate). The encode loop's [expect] never fires. *)
Theorem publish_accepts_ordered entries :
  flags_ok w -> Forall entry_wf entries -> fits entries ->
  (exists x, publish_sorted_entries w entries = Ok x) <->
  sw_target w <> 0 /\ entries <> [] /\ StronglySorted publish_lt entries.
Proof. intros Hf Hw Hfi. by apply publish_ok_iff. Qed.

(** C32: a published segment opens, in every block format, to a reader that iterates exactly
    the published rows in order (v1 and v2 blocks without the replica id), and the size
    and checksum the publication returned are those of the file. *)
Theorem segment_roundtrip entries file size checksum anchors :
  flags_ok w -> Forall entry_wf entries -> fits entries ->
  publish_sorted_entries w entries = Ok (file, (size, checksum, anchors)) ->
  size = zlen file /\ checksum = le_val (checksum8 file) /\
  exists r, open_segment file = Ok r /\ sr_entry_count r = zlen entries /\
    seg_iter r = Ok (map (persisted (sw_v3 w)) entries).
Proof.
  intros Hf Hw Hfi Hp. destruct (publish_published w _ _ _ _ _ Hf Hw Hfi Hp) as (Hsz & Hck & _).
  split; [done|]. split; [done|].
  destruct (published_open entries file size checksum anchors) as (r & blocks & Ho & Hh & Hc & _ & _ & Hn & _); try done.
  exists r. split_and!; try done. rewrite <-Hc. by apply seg_iter_ok.
Qed.

(** The replica read of a v3 or v4 segment answers the first row of the key with that
    replica id, which is its row of highest sequence, and [None] exactly when there is
    none: the restart-table search, the run-head restarts and the fall-through across
    blocks lose no row of a run of any length. *)
Theorem segment_get_by_rid_correct entries file res key rid r :
  flags_ok w -> Forall entry_wf entries -> fits entries -> sw_v3 w = true ->
  publish_sorted_entries w entries = Ok (file, res) -> open_segment file = Ok r ->
  seg_get_by_rid r key rid = Ok (find_row key (Some rid) entries).
Proof.
  intros Hf Hw Hfi E3 Hp Hr. destruct res as [[sz ck] anchors].
  destruct (published_open entries file sz ck anchors) as (r' & blocks & Ho & Hh & Hc & Hs & _); try done.
  rewrite Hr in Ho. injection Ho as <-. rewrite <-Hc in Hs. rewrite (seg_get_by_rid_ok w Hf r blocks Hh Hs) by done.
  rewrite E3, Hc. unfold persisted. by rewrite map_id.
Qed.

(** The byte read of a segment of byte rows, in every block format, answers the first
    row of the key, which is its head version, and [None] exactly when the key has no row. *)
Theorem segment_get_correct entries file res key r :
  flags_ok w -> Forall entry_wf entries -> fits entries ->
  sw_v3 w = false \/ Forall (fun e => se_rid e = mkReplicaId 0) entries ->
  publish_sorted_entries w entries = Ok (file, res) -> open_segment file = Ok r ->
  seg_get r key = Ok (find_row key None (map (persisted (sw_v3 w)) entries)).
Proof.
  intros Hf Hw Hfi Hb Hp Hr. destruct res as [[sz ck] anchors].
  destruct (published_open entries file sz ck anchors) as (r' & blocks & Ho & Hh & Hc & Hs & _); try done.
  rewrite Hr in Ho. injection Ho as <-. rewrite <-Hc in Hs, Hb |- *. by apply (seg_get_ok w Hf r blocks Hh Hs).
Qed.

(** Version walks and range scans over a published segment, which open only the blocks
    whose key range can match, return exactly the rows of the key and exactly the rows in
    the range, in order. *)
Theorem segment_ranges_correct entries file res key lo hi r :
  flags_ok w -> Forall entry_wf entries -> fits entries ->
  publish_sorted_entries w entries = Ok (file, res) -> open_segment file = Ok r ->
  let rows := map (persisted (sw_v3 w)) entries in
  seg_versions r key = Ok (List.filter (fun e => bytes_eqb (se_key e) key) rows) /\
  seg_scan r lo hi = Ok (List.filter (fun e => bytes_leb lo (se_key e) && bytes_ltb (se_key e) hi) rows).
Proof.
  intros Hf Hw Hfi Hp Hr rows. destruct res as [[sz ck] anchors].
  destruct (published_open entries file sz ck anchors) as (r' & blocks & Ho & Hh & Hc & Hs & _); try done.
  rewrite Hr in Ho. injection Ho as <-. unfold rows. rewrite <-Hc in Hs |- *. split.
  - by apply (seg_versions_ok w Hf r blocks Hh Hs).
  - by apply (seg_scan_ok w Hf r blocks Hh Hs).
Qed.

(** The key and sequence range of the opened reader, and the sizes the manifest records. *)
Lemma published_range entries file sz ck anchors r :
  publishable entries -> publish_sorted_entries w entries = Ok (file, (sz, ck, anchors)) -> open_segment file = Ok r ->
  sr_key_min r = first_key entries /\ sr_key_max r = last_key entries /\
  (forall e, e ∈ entries -> sr_seq_lo r <= se_seq e <= sr_seq_hi r) /\
  is_u64 (sr_seq_lo r) /\ is_u64 (sr_seq_hi r) /\ sr_seq_lo r <= sr_seq_hi r /\
  sz = zlen file /\ is_u64 sz /\ is_u64 ck /\ exists e, e ∈ entries /\ se_seq e = sr_seq_hi r.
Proof.
  intros [Hf Hw Hfi] Hp Hr. destruct (publish_published w _ _ _ _ _ Hf Hw Hfi Hp) as (-> & -> & blocks & lo & hi & kmin & kmax & [Hc Hs _ [-> Hok] Ha] & (Hk & Hx & Hb & Hh)).
  pose proof (eq_trans (eq_sym Hr) (open_segment_ok w Hf blocks _ _ _ lo hi kmin kmax Hok)) as [= ->].
  destruct (fo_header _ _ _ _ _ _ _ _ _ Hok). cbn [sr_key_min sr_key_max sr_seq_lo sr_seq_hi opened]. split_and!; try done.
  - apply (zlen_file w blocks _ _ _ lo hi kmin kmax Hok).
  - apply le_val_u64, zlen_checksum8.
Qed.

Lemma published_bloom entries file sz ck anchors e r :
  publishable entries -> publish_sorted_entries w entries = Ok (file, (sz, ck, anchors)) -> open_segment file = Ok r ->
  e ∈ entries -> bloom_may_contain r (se_key e) = true.
Proof.
  intros Hpa Hp Hr He.
  destruct (published_open entries file sz ck anchors) as (r' & blocks & Ho & _ & _ & _ & _ & _ & Hm & Hb & _ & _ & _ & Hne); try done.
  rewrite Hr in Ho. injection Ho as <-. rewrite bloom_test_spec. apply forallb_forall. intros bit Hbit.
  apply list_elem_of_In in Hbit. rewrite Hb. assert (0 < zlen entries) as Hz.
  { destruct entries; [done|]. rewrite zlen_cons. pose proof (zlen_nonneg entries). lia. }
  assert (0 < sr_bloom_m r) as Hm0 by (rewrite Hm; unfold BLOOM_BITS_PER_KEY; lia).
  apply (bloom_complete _ Hm0 _ _ (se_key e)); [|done | right; eauto].
  unfold zlen. rewrite repeat_length, Z2Nat.id; [done|]. unfold div_ceil8. apply Z.div_pos; lia.
Qed.

(** The bloom filter of a published segment has no false negatives: it answers true for
    the key of every published row. *)
Theorem segment_bloom_complete entries file res e r :
  flags_ok w -> Forall entry_wf entries -> fits entries ->
  publish_sorted_entries w entries = Ok (file, res) -> open_segment file = Ok r ->
  e ∈ entries -> bloom_may_contain r (se_key e) = true.
Proof. intros Hf Hw Hfi Hp Hr He. destruct res as [[sz ck] anchors]. by eapply published_bloom. Qed.

(** The placement-direct read of the row at a position. *)
Lemma get_entry_at_ok r blocks (i j : nat) rows e :
  flags_ok w -> sw_v4 w = true -> Forall2 (holds w (sr_file r) (sr_index r)) (sr_data r) blocks ->
  blocks !! i = Some rows -> rows !! j = Some e ->
  get_entry_at r (se_key e) (se_rid e) (Z.of_nat i) (Z.of_nat j) = Ok (Some e).
Proof.
  intros [H43 H32] E4 Hh Hi Hj. assert (sw_v3 w = true) as E3 by auto. assert (sw_v2 w = true) as E2 by auto.
  destruct (Forall2_lookup_r _ _ _ _ _ Hh Hi) as (b & Hb & Hbr). unfold get_entry_at. rewrite Nat2Z.id, Hb.
  rewrite (h_v4 _ _ _ _ _ Hbr), E4. cbn [negb]. unfold block_key. rewrite (h_first _ _ _ _ _ Hbr), (h_last _ _ _ _ _ Hbr).
  pose proof (h_good _ _ _ _ _ Hbr) as Hg. pose proof (list_elem_of_lookup_2 _ _ _ Hj) as He.
  rewrite (proj2 (bytes_ltb_false _ _) (first_key_le _ _ (bg_asc _ _ Hg) He)).
  rewrite (proj2 (bytes_ltb_false _ _) (last_key_ge _ _ (bg_asc _ _ Hg) He)). cbn [orb].
  rewrite (block_raw_ok w r b rows Hbr). cbn [mbind Result_bind]. rewrite (proj1 (data_block_parts w rows Hg)).
  destruct (block_parts w rows Hg) as (l & ridx & Hinv & Es & Hw & Ha & _ & Ep). pose proof (bg_fit _ _ Hg) as Hfit.
  rewrite E2, E3, E4 in *. rewrite Ep in *.
  assert (exists x, l !! j = Some x /\ x.2 = e) as (x & Hx & Ex).
  { rewrite <-Es in Hj. change (map snd l) with (snd <$> l) in Hj. rewrite list_lookup_fmap in Hj.
    destruct (l !! j) as [x|]; [|done]. injection Hj as <-. eauto. }
  rewrite (dense_entry_ok _ l ridx Hinv Hw Ha Hfit j x Hx). cbn [mbind Result_bind]. rewrite Ex.
  by rewrite bytes_eqb_refl, bool_decide_eq_true_2.
Qed.

(** The anchor map of a publication, over the placed rows. *)
Lemma anchors_complete blocks : sw_v3 w = true -> anchors_inv (positions 0 blocks) (anchors_of w 0 blocks ∅).
Proof.
  intros E3. rewrite (anchors_of_fold _ _ _ _ E3). apply (anchors_fold_inv _ []).
  intros rid. rewrite lookup_empty. intros _ y Hy. by apply not_elem_of_nil in Hy.
Qed.

Lemma positions_concat blocks e : e ∈ concat blocks <-> exists x, x ∈ positions 0 blocks /\ x.2 = e.
Proof.
  rewrite list_elem_of_In, in_concat. setoid_rewrite positions_rows. split.
  - intros (rows & Hrow & He). apply list_elem_of_In, list_elem_of_lookup in Hrow as [i Hi'].
    apply list_elem_of_In, list_elem_of_lookup in He as [j Hj]. exists (0 + Z.of_nat i, Z.of_nat j, e).
    split; [|done]. by exists i, rows, j.
  - intros (x & (i & rows & j & Hi' & Hj & _) & <-). exists rows.
    split; apply list_elem_of_In; by eapply list_elem_of_lookup_2.
Qed.

Lemma anchors_inv_rid seen (am : AnchorMap) rid a : anchors_inv seen am -> am !! rid = Some a -> sa_rid a = rid.
Proof. intros Hi Hl. pose proof (Hi rid) as H. rewrite Hl in H. destruct H as (_ & (x & _ & -> & <-) & _). done. Qed.

(** The anchors a publication returns: one per replica, keyed by its own id. *)
Lemma anchors_listed seen (am : AnchorMap) :
  anchors_inv seen am ->
  NoDup (map sa_rid (map snd (map_to_list am))) /\ forall a, a ∈ map snd (map_to_list am) <-> am !! sa_rid a = Some a.
Proof.
  intros Hi. split.
  - assert (map sa_rid (map snd (map_to_list am)) = map fst (map_to_list am)) as ->; [|apply NoDup_fst_map_to_list].
    rewrite map_map. apply map_ext_in. intros [rid a] H. apply list_elem_of_In, elem_of_map_to_list in H.
    by apply (anchors_inv_rid _ _ _ _ Hi).
  - intros a. rewrite list_elem_of_In, in_map_iff. split.
    + intros ([rid a'] & <- & H). apply list_elem_of_In, elem_of_map_to_list in H. cbn.
      by rewrite (anchors_inv_rid _ _ _ _ Hi H).
    + intros H. exists (sa_rid a, a). split; [done|]. by apply list_elem_of_In, elem_of_map_to_list.
Qed.

Lemma published_anchors entries file size checksum anchors r :
  flags_ok w -> Forall entry_wf entries -> fits entries -> sw_v4 w = true ->
  publish_sorted_entries w entries = Ok (file, (size, checksum, anchors)) -> open_segment file = Ok r ->
  NoDup (map sa_rid anchors) /\
  (forall e, e ∈ entries -> se_rid e <> mkReplicaId 0 -> se_rid e ∈ map sa_rid anchors) /\
  forall a, a ∈ anchors -> exists e, e ∈ entries /\ se_rid e = sa_rid a /\ se_rid e <> mkReplicaId 0 /\ sa_seq a = se_seq e /\
    (forall e', e' ∈ entries -> se_rid e' = sa_rid a -> se_seq e' <= se_seq e) /\
    get_entry_at r (se_key e) (sa_rid a) (sa_block a) (sa_offset a) = Ok (Some e).
Proof.
  intros Hf Hw Hfi E4 Hp Hr. assert (sw_v3 w = true) as E3 by by apply Hf.
  destruct (published_open entries file size checksum anchors) as
    (r' & blocks & Ho & Hh & Hc & _ & _ & _ & _ & _ & Ea & Hub & Hue & _); try done.
  rewrite Hr in Ho. injection Ho as <-. pose proof (anchors_complete blocks E3) as Hi.
  destruct (anchors_listed _ _ Hi) as [Hnd Hin]. rewrite <-Ea in Hnd, Hin. rewrite <-Hc in Hue |- *.
  setoid_rewrite positions_concat. split_and!; [done| |].
  - intros e (x & Hx & <-) Hne. pose proof (Hi (se_rid x.2)) as H. destruct (_ !! _) as [a|] eqn:Ha.
    + rewrite <-(anchors_inv_rid _ _ _ _ Hi Ha) in Ha |- *. by apply list_elem_of_In, in_map, list_elem_of_In, Hin.
    + by destruct (H Hne x Hx).
  - intros a Ha. apply Hin in Ha. pose proof (Hi (sa_rid a)) as H. rewrite Ha in H.
    destruct H as (Hn & (x & Hx & -> & _) & Hmax). exists x.2. split_and!; [eauto | done | done | done | |].
    + intros e' (y & Hy & <-) Ey. by apply (Hmax y Hy).
    + apply positions_rows in Hx as (i & rows & j & Hrow & Hj & Ei & Ej). cbn [anchor_of sa_rid sa_block sa_offset].
      assert (as_u32 x.1.1 = Z.of_nat i) as ->.
      { rewrite Ei. apply lookup_lt_Some in Hrow. apply as_u32_small. unfold is_u32, zlen in *. lia. }
      assert (as_u32 x.1.2 = Z.of_nat j) as ->; [|by apply (get_entry_at_ok r blocks i j rows)].
      rewrite Ej. apply lookup_lt_Some in Hj. apply as_u32_small.
      pose proof (row_block_le blocks i rows Hrow). unfold is_u32, zlen in *. lia.
Qed.

(** Every non-zero replica id of the rows has exactly one anchor, and the
    placement-direct read at an anchor, which decodes at most one 16-entry window, returns
    that replica's row of highest sequence. *)
Theorem segment_anchor_reads entries file size checksum anchors r :
  flags_ok w -> Forall entry_wf entries -> fits entries -> sw_v4 w = true ->
  publish_sorted_entries w entries = Ok (file, (size, checksum, anchors)) -> open_segment file = Ok r ->
  NoDup (map sa_rid anchors) /\
  (forall e, e ∈ entries -> se_rid e <> mkReplicaId 0 -> se_rid e ∈ map sa_rid anchors) /\
  forall a, a ∈ anchors -> exists e, e ∈ entries /\ se_rid e = sa_rid a /\ se_rid e <> mkReplicaId 0 /\ sa_seq a = se_seq e /\
    (forall e', e' ∈ entries -> se_rid e' = sa_rid a -> se_seq e' <= se_seq e) /\
    get_entry_at r (se_key e) (sa_rid a) (sa_block a) (sa_offset a) = Ok (Some e).
Proof. apply published_anchors. Qed.
End Published.

(* ------------------------------------------------------------------ *)
(** * The publish entry points *)

Definition version_of (e : SegmentEntry) : bytes * Z := (se_key e, se_seq e).

Lemma sort_le_lt l : NoDup (map version_of l) -> StronglySorted sort_le l -> StronglySorted publish_lt l.
Proof.
  induction l as [|a l IH]; intros Hn Hs; [constructor|]. cbn [map] in Hn. apply NoDup_cons in Hn as [Ha Hn].
  apply StronglySorted_inv in Hs as [Hs Hf]. constructor; [by apply IH|]. apply Forall_forall. intros b Hb.
  eapply Forall_forall in Hf; [|exact Hb]. apply entry_le_spec in Hf as [Hf|[Ek Hq]]; [by left|].
  right. split; [done|]. apply Z.le_neq. split; [done|]. intros Eq. apply Ha.
  apply list_elem_of_In, in_map_iff. exists b. split; [|by apply list_elem_of_In]. unfold version_of. by rewrite Ek, Eq.
Qed.

Lemma publish_lt_versions l : StronglySorted publish_lt l -> NoDup (map version_of l).
Proof.
  induction 1 as [|a l Hs IH Hf]; [constructor|]. cbn [map]. constructor; [|done]. intros H.
  apply list_elem_of_In, in_map_iff in H as (b & E & Hb). apply list_elem_of_In in Hb.
  eapply Forall_forall in Hf; [|exact Hb]. unfold version_of in E. injection E as Ek Eq.
  apply (publish_lt_irrefl a). destruct Hf as [Hf|[_ Hf]]; [left; by rewrite Ek in Hf | lia].
Qed.

Lemma full_size_perm v l k : l ≡ₚ k -> full_size v l = full_size v k.
Proof. induction 1; cbn [full_size]; lia. Qed.

(** The three publish entry points write the same file: on a buffer in the memtable's
    flush order the run-reversing publish is the sorting publish, and on a buffer already
    in publication order (what the compaction merge emits) so is the one that does not
    reorder. *)
Theorem publish_entry_points {SHA : Sha256} (w : SegmentWriter) :
  (StronglySorted flush_lt (sw_entries w) -> publish_with_anchors_sorted w = publish_with_anchors w) /\
  (StronglySorted publish_lt (sw_entries w) -> publish_with_anchors_sorted_staged w = publish_with_anchors w).
Proof.
  unfold publish_with_anchors_sorted, publish_with_anchors_sorted_staged, publish_with_anchors. split; intros H.
  - do 2 f_equal. apply sorted_unique; [|apply sort_entries_sorted|by rewrite reverse_runs_perm, sort_entries_perm].
    apply reverse_runs_sorted; [constructor | done | set_solver | set_solver].
  - do 2 f_equal. apply sorted_unique; [done | apply sort_entries_sorted | by rewrite sort_entries_perm].
Qed.

(** The sorting publish accepts a buffer in any order, and refuses only an empty one, a
    zero block target, or two rows with the same (key, sequence); the writer's buffer is
    taken on every outcome. *)
Theorem publish_sorts_any {SHA : Sha256} (w : SegmentWriter) :
  flags_ok w -> Forall entry_wf (sw_entries w) -> fits (sw_entries w) ->
  ((exists x, publish_with_anchors w = (sw_take w, Ok x)) <->
   sw_target w <> 0 /\ sw_entries w <> [] /\ NoDup (map version_of (sw_entries w))).
Proof.
  intros Hf Hw Hfi. pose proof (sort_entries_perm (sw_entries w)) as Hp.
  assert (publishable w (sort_entries (sw_entries w))) as Hpub.
  { split; [done | by rewrite Hp | unfold fits in *; by rewrite (full_size_perm _ _ _ Hp)]. }
  pose proof (publish_ok_iff w _ Hpub) as Hiff. unfold publish_with_anchors.
  assert (NoDup (map version_of (sort_entries (sw_entries w))) <-> NoDup (map version_of (sw_entries w))) as Hnd.
  { by rewrite (Permutation_map version_of Hp). }
  rewrite <-Hnd. split.
  - intros [x Hx]. injection Hx as Hx. destruct (proj1 Hiff (ex_intro _ x Hx)) as (Ht & Hne & Hs).
    split_and!; [done | intros E; by rewrite E in Hne | by apply publish_lt_versions].
  - intros (Ht & Hne & Hn). destruct (proj2 Hiff) as [x ->]; [|eauto]. split_and!; [done | |].
    + intros E. rewrite E in Hp. by apply Permutation_nil_l in Hp.
    + apply sort_le_lt; [done | apply sort_entries_sorted].
Qed.

(* ------------------------------------------------------------------ *)
(** * Concrete segments *)

(** Object rows and a tombstone of two keys, and byte rows, in blocks of two rows or fewer. *)
Definition sample_rows : list SegmentEntry :=
  [mkSegmentEntry [x61] [x01] 5 FLAG_PUT (mkReplicaId 1); mkSegmentEntry [x61] [x02] 4 FLAG_PUT (mkReplicaId 2);
   mkSegmentEntry [x61] [x03] 3 FLAG_PUT (mkReplicaId 1); mkSegmentEntry [x62] [] 2 FLAG_DELETE (mkReplicaId 0)].
Definition byte_rows : list SegmentEntry :=
  [mkSegmentEntry [x61] [x01] 5 FLAG_PUT (mkReplicaId 0); mkSegmentEntry [x61] [x02] 4 FLAG_PUT (mkReplicaId 0);
   mkSegmentEntry [x62] [] 2 FLAG_DELETE (mkReplicaId 0)].

Definition published_file (w : SegmentWriter) : bytes :=
  match @publish_sorted_entries toy_sha w (sw_entries w) with Ok (file, _) => file | Err _ => [] end.
Definition published_fields (w : SegmentWriter) : Z * Z * list SegmentAnchor :=
  match @publish_sorted_entries toy_sha w (sw_entries w) with Ok (_, res) => res | Err _ => (0, 0, []) end.
Definition opened_reader (w : SegmentWriter) : SegmentReader :=
  match @open_segment toy_sha (published_file w) with
  | Ok r => r
  | Err _ => mkSegmentReader [] 0 0 [] [] 0 0 [] [] [] 0
  end.

Definition sample_writer : SegmentWriter := mkSegmentWriter 48 sample_rows true true true.
Definition sample_file : bytes := Eval vm_compute in published_file sample_writer.
Definition sample_fields : Z * Z * list SegmentAnchor := Eval vm_compute in published_fields sample_writer.
Definition sample_reader : SegmentReader := Eval vm_compute in opened_reader sample_writer.
Definition byte_writer : SegmentWriter := mkSegmentWriter 48 byte_rows true false false.
Definition byte_file : bytes := Eval vm_compute in published_file byte_writer.
Definition byte_fields : Z * Z * list SegmentAnchor := Eval vm_compute in published_fields byte_writer.
Definition byte_reader : SegmentReader := Eval vm_compute in opened_reader byte_writer.

(** Discharges the side conditions of the segment theorems on a concrete segment. *)
Ltac concrete_segment :=
  match goal with
  | |- flags_ok _ => split; done
  | |- Forall entry_wf _ => repeat constructor; done
  | |- fits _ => vm_compute; reflexivity
  | |- @eq _ _ _ => vm_compute; reflexivity
  end.

Lemma publish_accepts_ordered_witness :
  exists x, @publish_sorted_entries toy_sha sample_writer sample_rows = Ok x.
Proof.
  apply (@publish_accepts_ordered toy_sha sample_writer sample_rows); [concrete_segment..|].
  split_and!; [done | done|]. apply publish_order. split; vm_compute; reflexivity.
Defined.

Lemma segment_roundtrip_witness :
  exists r, @open_segment toy_sha sample_file = Ok r /\ sr_entry_count r = 4 /\ @seg_iter toy_sha r = Ok sample_rows.
Proof.
  destruct (@segment_roundtrip toy_sha sample_writer sample_rows sample_file
    sample_fields.1.1 sample_fields.1.2 sample_fields.2) as (_ & _ & r & Ho & Hn & Hi); [concrete_segment..|].
  exists r. split; [exact Ho|]. split; [exact Hn | exact Hi].
Defined.

Lemma segment_get_by_rid_correct_witness :
  @seg_get_by_rid toy_sha sample_reader [x61] (mkReplicaId 2) =
  Ok (find_row [x61] (Some (mkReplicaId 2)) sample_rows).
Proof.
  apply (@segment_get_by_rid_correct toy_sha sample_writer sample_rows sample_file sample_fields); concrete_segment.
Defined.

Lemma segment_get_correct_witness :
  @seg_get toy_sha byte_reader [x61] = Ok (find_row [x61] None (map (persisted false) byte_rows)).
Proof.
  apply (@segment_get_correct toy_sha byte_writer byte_rows byte_file byte_fields);
    [concrete_segment.. | left; done | concrete_segment | concrete_segment].
Defined.

Lemma segment_ranges_correct_witness :
  @seg_versions toy_sha sample_reader [x61] = Ok (take 3 sample_rows).
Proof.
  destruct (@segment_ranges_correct toy_sha sample_writer sample_rows sample_file sample_fields [x61] [x61] [x62]
    sample_reader) as [H _]; [concrete_segment..|]. exact H.
Defined.

Lemma segment_bloom_complete_witness : @bloom_may_contain toy_sha sample_reader [x62] = true.
Proof.
  apply (@segment_bloom_complete toy_sha sample_writer sample_rows sample_file sample_fields
    (mkSegmentEntry [x62] [] 2 FLAG_DELETE (mkReplicaId 0)) sample_reader); [concrete_segment..|].
  unfold sample_rows. set_solver.
Defined.

Lemma segment_anchor_reads_witness :
  map sa_rid sample_fields.2 ≡ₚ [mkReplicaId 1; mkReplicaId 2] /\ NoDup (map sa_rid sample_fields.2) /\
  forall a, a ∈ sample_fields.2 -> exists e, e ∈ sample_rows /\
    @get_entry_at toy_sha sample_reader (se_key e) (sa_rid a) (sa_block a) (sa_offset a) = Ok (Some e).
Proof.
  destruct (@segment_anchor_reads toy_sha sample_writer sample_rows sample_file
    sample_fields.1.1 sample_fields.1.2 sample_fields.2 sample_reader) as (Hn & _ & Ha); [concrete_segment..|].
  split_and!; [vm_compute; solve_Permutation | done|].
  intros a Hin. destruct (Ha a Hin) as (e & He & _ & _ & _ & _ & Hr). exists e. split; [exact He | exact Hr].
Defined.

Lemma publish_sorts_any_witness :
  exists x, @publish_with_anchors toy_sha (mkSegmentWriter 48 (reverse sample_rows) true true true)
    = (mkSegmentWriter 48 [] true true true, Ok x).
Proof.
  apply (@publish_sorts_any toy_sha (mkSegmentWriter 48 (reverse sample_rows) true true true)).
  - concrete_segment.
  - cbn [sw_entries]. rewrite Forall_reverse. concrete_segment.
  - concrete_segment.
  - split_and!; [done | done|]. apply (bool_decide_eq_true_1 (NoDup (map version_of (reverse sample_rows)))). vm_compute. reflexivity.
Defined.

(** Where the byte read is not the search of the rows: when the object rows of a key
    fill its first block, a byte row of the same key in the next block is there for the
    version walk and the scan, and the byte read answers [None], because it looks into
    one block only. *)
Theorem segment_get_misses_byte_row :
  exists (w : SegmentWriter) (file : bytes) res r,
    flags_ok w /\ Forall entry_wf (sw_entries w) /\ fits (sw_entries w) /\
    @publish_sorted_entries toy_sha w (sw_entries w) = Ok (file, res) /\ @open_segment toy_sha file = Ok r /\
    @seg_get toy_sha r [x61] = Ok None /\
    (exists e vs, @seg_versions toy_sha r [x61] = Ok vs /\ e ∈ vs /\ se_rid e = mkReplicaId 0 /\
      se_flags e = FLAG_PUT /\ @seg_get_by_rid toy_sha r [x61] (mkReplicaId 0) = Ok (Some e)).
Proof.
  set (e1 := mkSegmentEntry [x61] [x01] 2 FLAG_PUT (mkReplicaId 1)).
  set (e0 := mkSegmentEntry [x61] [x02] 1 FLAG_PUT (mkReplicaId 0)).
  exists (mkSegmentWriter 10 [e1; e0] true true true).
  exists (published_file (mkSegmentWriter 10 [e1; e0] true true true)).
  exists (published_fields (mkSegmentWriter 10 [e1; e0] true true true)).
  exists (opened_reader (mkSegmentWriter 10 [e1; e0] true true true)).
  split_and!; [concrete_segment..|]. exists e0, [e1; e0].
  split_and!; [concrete_segment | set_solver | done | done | concrete_segment].
Qed.

Lemma publish_entry_points_witness :
  @publish_with_anchors_sorted toy_sha (mkSegmentWriter 48 (reverse (take 3 sample_rows)) true true true) =
  @publish_with_anchors toy_sha (mkSegmentWriter 48 (reverse (take 3 sample_rows)) true true true).
Proof.
  apply (@publish_entry_points toy_sha (mkSegmentWriter 48 (reverse (take 3 sample_rows)) true true true)).
  cbn [sw_entries sample_rows take reverse rev_append]. repeat constructor; right; split; done.
Defined.
