(* ===== verification/SegmentScan.v ===== *)
(** crates/storage/aikoql-v2/src/segment.rs: the streaming range cursor [SegmentScan] and
    the batch lookup [SegmentReader::get_many], against the published rows and the point
    lookup. *)

From S2P Require Import Prelude Cursor Format Identity Segment SegmentBlock SegmentLookup SegmentFile SegmentQueries.

Section Scan.
Context {SHA : Sha256}.

(* ------------------------------------------------------------------ *)
(** * The cursor *)

(** [struct SegmentScan]. *)
Record SegmentScan : Type := mkSegmentScan {
  sc_reader : SegmentReader; sc_start : bytes; sc_end : option bytes; sc_block : nat; sc_raw : option bytes;
  sc_pos : Z; sc_scratch : bytes; sc_last : option bytes; sc_v3 : bool; sc_done : bool }.

(** [SegmentReader::scan_iter]. *)
Definition scan_iter (r : SegmentReader) (start : bytes) (end_ : option bytes) : SegmentScan :=
  mkSegmentScan r start end_ (partition_point_by (fun b => bytes_ltb (block_key r (db_last b)) start) (sr_data r))
    None 0 [] None false false.

(** [scan_seek_pos]: the binary search over the restart table.  The interval halves, so
    [restarts + 1] rounds are enough. *)
Definition seek_at (payload offs : bytes) (table_len : Z) (j : nat) : Result bytes :=
  let o := off_at offs (Z.of_nat j) in
  if (o <? table_len) || (zlen payload <=? o) then Err (Corrupt "restart offset outside payload")
  else restart_key payload o.
Fixpoint seek_search (fuel : nat) (payload offs : bytes) (table_len : Z) (start : bytes) (lo hi : nat) : Result nat :=
  match fuel with
  | O => Ok lo
  | S fuel =>
      if (lo <? hi)%nat then
        let mid := ((lo + hi) / 2)%nat in
        k ← seek_at payload offs table_len mid;
        if bytes_leb k start then seek_search fuel payload offs table_len start (S mid) hi
        else seek_search fuel payload offs table_len start lo mid
      else Ok lo
  end.
Definition scan_seek_pos (payload : bytes) (v2 v4 : bool) (start : bytes) : Result Z :=
  if negb v2 then Ok 0 else
  '(restarts, table_len) ← table_bounds v4 payload;
  let offs := zslice 6 table_len payload in
  let n := Z.to_nat restarts in
  lo ← seek_search (S n) payload offs table_len start 0 n;
  let r := Z.of_nat (lo - 1) in
  if zlen offs <? r * 4 + 4 then Err (Invalid "panic") else Ok (off_at offs r).

(** [load_block]: [None] when no block can hold keys of the range. *)
Definition load_block (s : SegmentScan) : Result (option SegmentScan) :=
  let r := sc_reader s in
  match sr_data r !! sc_block s with
  | None => Ok None
  | Some b =>
      if match sc_end s with Some e => bytes_leb e (block_key r (db_first b)) | None => false end then Ok None else
      raw ← block_raw r b;
      pos ← scan_seek_pos (zdrop BLOCK_HEADER_LEN raw) (db_v2 b) (db_v4 b) (sc_start s);
      Ok (Some (mkSegmentScan r (sc_start s) (sc_end s) (S (sc_block s)) (Some raw) pos [] (sc_last s) (db_v3 b) (sc_done s)))
  end.

(** One entry of the loaded block: the key, what to do with it, the bytes it took. *)
Inductive ScanAct : Type := ActSkip | ActDone | ActRow (e : SegmentEntry).
Definition past_end (end_ : option bytes) (key : bytes) : bool :=
  match end_ with Some e => bytes_leb e key | None => false end.
Definition scan_entry (start : bytes) (end_ last : option bytes) (v3 : bool) (scratch : bytes) : Dec (bytes * ScanAct * Z) :=
  key ← entry_key_dec scratch;
  if bytes_ltb key start then _ ← skip_entry_body v3; n ← cpos; mret (key, ActSkip, n) else
  if past_end end_ key then n ← cpos; mret (key, ActDone, n) else
  if bool_decide (last = Some key) then _ ← skip_entry_body v3; n ← cpos; mret (key, ActSkip, n) else
  e ← entry_body_dec v3 key; n ← cpos;
  mret (key, (if bool_decide (se_rid e = mkReplicaId 0) then ActRow e else ActSkip), n).

(** [SegmentScan::next].  A round opens a block, leaves one, or takes an entry of at least
    four bytes. *)
Definition set_raw (raw : option bytes) (s : SegmentScan) : SegmentScan :=
  mkSegmentScan (sc_reader s) (sc_start s) (sc_end s) (sc_block s) raw (sc_pos s) (sc_scratch s) (sc_last s) (sc_v3 s) (sc_done s).
Definition set_entry (n : Z) (key : bytes) (last : option bytes) (done_ : bool) (s : SegmentScan) : SegmentScan :=
  mkSegmentScan (sc_reader s) (sc_start s) (sc_end s) (sc_block s) (sc_raw s) (sc_pos s + n) key last (sc_v3 s) done_.
Fixpoint scan_loop (fuel : nat) (s : SegmentScan) : Result (SegmentScan * option SegmentEntry) :=
  match fuel with
  | O => Err (Invalid "out of fuel")
  | S fuel =>
      if sc_done s then Ok (s, None) else
      loaded ← match sc_raw s with Some _ => Ok (Some s) | None => load_block s end;
      match loaded with
      | None => Ok (s, None)
      | Some s =>
          let payload := zdrop BLOCK_HEADER_LEN (default [] (sc_raw s)) in
          if zlen payload <=? sc_pos s then scan_loop fuel (set_raw None s) else
          '(key, act, n) ← run_dec (scan_entry (sc_start s) (sc_end s) (sc_last s) (sc_v3 s) (sc_scratch s))
                             (zdrop (sc_pos s) payload);
          match act with
          | ActSkip => scan_loop fuel (set_entry n key (sc_last s) false s)
          | ActDone => Ok (set_entry 0 key (sc_last s) true s, None)
          | ActRow e => Ok (set_entry n key (Some key) false s, Some e)
          end
      end
  end.
Definition scan_fuel (r : SegmentReader) : nat :=
  S (list_sum (map (fun b => S (Z.to_nat (db_payload_len b))) (sr_data r))).
Definition scan_next (s : SegmentScan) : Result (SegmentScan * option SegmentEntry) := scan_loop (scan_fuel (sc_reader s)) s.

(* ------------------------------------------------------------------ *)
(** * The batch lookup *)

(** [by_block.entry(i).or_default().push(pos)] in a [BTreeMap]. *)
Fixpoint block_push (i pos : nat) (m : list (nat * list nat)) : list (nat * list nat) :=
  match m with
  | [] => [(i, [pos])]
  | (j, ps) :: m =>
      if (i <? j)%nat then (i, [pos]) :: (j, ps) :: m
      else if (i =? j)%nat then (j, ps ++ [pos]) :: m
      else (j, ps) :: block_push i pos m
  end.
Definition group_by_block (r : SegmentReader) (keys : list bytes) : list (nat * list nat) :=
  fold_left (fun m '(pos, key) => match locate r key with Some i => block_push i pos m | None => m end)
    (zip (seq 0 (length keys)) keys) [].

(** The answers of one block. *)
Definition key_at (keys : list bytes) (pos : nat) : bytes := default [] (keys !! pos).
Definition block_answers (r : SegmentReader) (keys : list bytes) (out : list (option SegmentEntry)) (g : nat * list nat)
    : Result (list (option SegmentEntry)) :=
  let '(i, positions) := g in
  match sr_data r !! i with
  | None => Err (Invalid "panic")
  | Some b =>
      if negb (db_v2 b) then
        entries ← block_entries r b;
        Ok (fold_left (fun out pos => <[pos := List.find (fun e => bytes_eqb (se_key e) (key_at keys pos)) entries]> out) positions out)
      else
        raw ← block_raw r b;
        fold_result (fun out pos =>
          res ← block_get_v2 b (key_at keys pos) (zdrop BLOCK_HEADER_LEN raw) (Some (mkReplicaId 0));
          Ok (<[pos := res]> out)) out positions
  end.
Definition seg_get_many (r : SegmentReader) (keys : list bytes) : Result (list (option SegmentEntry)) :=
  fold_result (block_answers r keys) (replicate (length keys) None) (group_by_block r keys).

(* ------------------------------------------------------------------ *)
(** * The seek *)

Lemma seek_search_eq payload offs table_len start idx n :
  (forall j, (j < n)%nat -> seek_at payload offs table_len j = Ok (restart_index_key idx j)) ->
  forall fuel lo hi, (hi <= n)%nat ->
  seek_search fuel payload offs table_len start lo hi = Ok (restart_search fuel idx start lo hi).
Proof.
  intros Hk. induction fuel as [|fuel IH]; intros lo hi Hh; [done|]. cbn [seek_search restart_search].
  destruct (lo <? hi)%nat eqn:E; [|done]. apply Nat.ltb_lt in E.
  assert ((lo + hi) / 2 < hi)%nat as Hm by (apply Nat.div_lt_upper_bound; lia).
  rewrite Hk by lia. cbn [mbind Result_bind]. destruct (bytes_leb _ _); apply IH; lia.
Qed.

Lemma off_at_front (a b : bytes) j : 0 <= j -> j * 4 + 4 <= zlen a -> off_at (a ++ b) j = off_at a j.
Proof.
  intros Hj Ha. unfold off_at, zslice, ztake, zdrop, zlen in *. f_equal. rewrite skipn_app, firstn_app.
  rewrite length_skipn. replace (Z.to_nat (j * 4 + 4 - j * 4) - _)%nat with 0%nat by lia. cbn. by rewrite app_nil_r.
Qed.

(** In a written block the seek lands on a restart with no row at or above [start] before it. *)
Lemma seek_ok v3 v4 st l ridx start :
  block_inv true v3 v4 st l ridx -> Forall entry_wf (map snd l) -> keys_asc l -> l <> [] ->
  let payload := block_table v4 st ++ enc v3 l in zlen payload < U32 ->
  exists i, scan_seek_pos payload true v4 start = Ok (zlen (block_table v4 st) + off v3 l i) /\ full_key l i /\
    forall x, x ∈ take i l -> bytes_lt (se_key x.2) start.
Proof.
  intros Hinv Hwf Hasc Hne payload Hfit. set (T := zlen (block_table v4 st)). set (at_ := fun i => T + off v3 l i).
  unfold scan_seek_pos. cbn [negb]. pose proof (table_bounds_ok v3 v4 st l ridx Hinv Hfit) as Hb. fold payload in Hb. rewrite Hb. clear Hb. fold T. cbn [mbind Result_bind].
  pose proof (T_eq v3 v4 st l ridx Hinv Hfit) as ET. fold T in ET. set (offs := concat (map le32 (map at_ ridx))).
  assert (zlen offs = 4 * zlen ridx) as Elen by (unfold offs; rewrite zlen_concat_le32; unfold zlen; by rewrite length_map).
  assert (exists more, zslice 6 T payload = offs ++ more) as (more & ->).
  { pose proof (offs_slice v3 v4 st l ridx Hinv Hfit) as Ho. fold payload in Ho. change (concat _) with offs in Ho.
    exists (zslice (6 + 4 * zlen ridx) T payload). rewrite <-Ho. pose proof (zlen_nonneg ridx). apply zslice_split; [lia|].
    destruct v4; pose proof (zlen_nonneg (dense_points true (length l))); lia. }
  set (idx := blob_index (map at_ ridx) (map (rkey l) ridx)). set (n := length ridx).
  assert (forall j i, ridx !! j = Some i -> off_at (offs ++ more) (Z.of_nat j) = at_ i) as Hoff.
  { intros j i Hj. pose proof (lookup_lt_Some _ _ _ Hj). rewrite off_at_front by (rewrite ?Elen; unfold zlen; lia). apply off_at_table.
    - apply (at_table v3 v4 st l ridx Hinv Hfit ridx (ridx_lt v3 v4 st l ridx Hinv)).
    - by rewrite list_lookup_fmap, Hj. }
  assert (forall j i, ridx !! j = Some i -> full_key l i /\ run_start l i) as Hfk.
  { intros j i Hj. pose proof (bi_ridx _ _ _ _ _ _ Hinv) as Hx. eapply Forall_forall in Hx; [exact Hx|]. by eapply list_elem_of_lookup_2. }
  rewrite (seek_search_eq _ _ _ _ idx n); [|intros j Hj|by rewrite zlen_to_nat].
  2: { destruct (lookup_lt_is_Some_2 ridx j Hj) as [i Hi]. unfold seek_at. rewrite (Hoff _ _ Hi). destruct (Hfk _ _ Hi) as [Hf _].
    pose proof (at_bounds v3 v4 st l ridx Hinv i (full_key_lt _ _ Hf)) as Hb. change (T <= at_ i < zlen payload) in Hb.
    rewrite (proj2 (Z.ltb_ge _ _)), (proj2 (Z.leb_gt _ _)) by lia. cbn [orb].
    pose proof (restart_key_ok v3 v4 st l Hwf i Hf) as Hk. change (restart_key payload (at_ i) = Ok (rkey l i)) in Hk. rewrite Hk. f_equal. symmetry. apply blob_key. by rewrite list_lookup_fmap, Hi. }
  cbn [mbind Result_bind]. rewrite zlen_to_nat. fold n.
  pose proof (restart_search_spec idx start (map (rkey l) ridx) (S n) 0 n (fun i k => blob_key _ _ i k)
    (restart_keys_asc v3 v4 st l ridx Hinv)) as Hs.
  rewrite length_map in Hs. specialize (Hs ltac:(lia) ltac:(lia) ltac:(lia)). destruct Hs as (Hr & Hlo & _).
  { intros i k Hi Hk. apply lookup_lt_Some in Hk. rewrite length_map in Hk. lia. }
  set (lo := restart_search (S n) idx start 0 n) in *.
  pose proof (bi_first _ _ _ _ _ _ Hinv eq_refl Hne) as H0. pose proof (lookup_lt_Some _ _ _ H0) as Hn0.
  destruct (lookup_lt_is_Some_2 ridx (lo - 1)) as [i Hi]; [lia|]. exists i.
  rewrite (Hoff _ _ Hi). rewrite (proj2 (Z.ltb_ge _ _)).
  2: { rewrite zlen_app, Elen. pose proof (zlen_nonneg more). unfold zlen. lia. }
  split_and!; [done | by eapply Hfk|]. intros x Hx. destruct (decide (lo = 0)%nat) as [E|E].
  - rewrite E in Hi. cbn in Hi. rewrite H0 in Hi. injection Hi as <-. by apply not_elem_of_nil in Hx.
  - apply list_elem_of_lookup in Hx as (j & Hx). apply lookup_take_Some in Hx as [Hx Hj]. destruct (Hfk _ _ Hi) as [[e He] Hst].
    eapply bytes_lt_leb_trans; [by eapply Hst|]. apply (Hlo (lo - 1)%nat); [lia|]. by rewrite list_lookup_fmap, Hi; cbn; rewrite (rkey_lookup _ _ _ He).
Qed.

(* ------------------------------------------------------------------ *)
(** * What a scan yields *)

(** The byte rows of the range, one per key: the first after [last]. *)
Definition in_scan (start : bytes) (end_ : option bytes) (key : bytes) : bool := bytes_leb start key && negb (past_end end_ key).
Definition yields_row (start : bytes) (end_ last : option bytes) (e : SegmentEntry) : bool :=
  in_scan start end_ (se_key e) && negb (bool_decide (last = Some (se_key e))) && bool_decide (se_rid e = mkReplicaId 0).
Fixpoint heads (start : bytes) (end_ last : option bytes) (rows : list SegmentEntry) : list SegmentEntry :=
  match rows with
  | [] => []
  | e :: rows =>
      if yields_row start end_ last e then e :: heads start end_ (Some (se_key e)) rows else heads start end_ last rows
  end.

Lemma heads_below start end_ last a b :
  (forall e, e ∈ a -> bytes_lt (se_key e) start) -> heads start end_ last (a ++ b) = heads start end_ last b.
Proof.
  induction a as [|e a IH]; intros H; [done|]. cbn [app heads]. unfold yields_row, in_scan.
  rewrite (proj2 (bytes_leb_false start (se_key e))) by (apply H; set_solver). cbn. apply IH. set_solver.
Qed.
Lemma past_end_mono end_ k k' : past_end end_ k = true -> bytes_leb k k' = true -> past_end end_ k' = true.
Proof. destruct end_; [|done]. cbn. intros. by eapply bytes_leb_trans. Qed.
Lemma heads_past start end_ last rows :
  (forall e, e ∈ rows -> past_end end_ (se_key e) = true) -> heads start end_ last rows = [].
Proof.
  induction rows as [|e rows IH]; intros H; [done|]. cbn [heads]. unfold yields_row, in_scan.
  rewrite (H e) by set_solver. cbn. rewrite andb_false_r. cbn. apply IH. set_solver.
Qed.

(** The entry decoder takes one record and classifies its row. *)
Lemma scan_entry_ok start end_ last v3 scratch x l :
  rec_ok scratch x -> entry_wf x.2 ->
  let row := persisted v3 x.2 in let key := se_key x.2 in
  run_dec (scan_entry start end_ last v3 scratch) (enc v3 (x :: l)) =
  Ok (key,
      (if bytes_ltb key start then ActSkip else if past_end end_ key then ActDone else
       if bool_decide (last = Some key) then ActSkip else if bool_decide (se_rid row = mkReplicaId 0) then ActRow row else ActSkip),
      if negb (bytes_ltb key start) && past_end end_ key then zlen (key_part x) else zlen (enc v3 [x])).
Proof.
  intros Hx Hw row key. subst row key. unfold run_dec, scan_entry. rewrite enc_cons. set (c := cursor_new _).
  assert (cur_ok c) as Hc by apply cur_ok_new. assert (crest c = key_part x ++ body_part v3 x.2 ++ enc v3 l) as E by done.
  unfold mbind, Dec_bind, Result_bind. rewrite (reads_entry_key _ _ _ Hx (proj1 Hw) c Hc E).
  pose proof (cur_ok_advance _ _ _ Hc E) as Hc1. pose proof (crest_advance _ _ _ Hc E) as E1. set (c1 := advance c (zlen (key_part x))) in *.
  assert (cur_pos (advance c1 (zlen (body_part v3 x.2))) = zlen (enc v3 [x])) as Ep.
  { unfold c1, c. cbn [cur_pos advance cursor_new]. rewrite enc_cons. cbn. rewrite app_nil_r, zlen_app. lia. }
  destruct (bytes_ltb (se_key x.2) start); cbn [negb andb].
  { rewrite (reads_skip_body v3 _ (enc v3 l) Hw c1 Hc1 E1). unfold cpos, dget, mbind, Dec_bind, mret, Dec_ret. by rewrite Ep. }
  destruct (past_end end_ (se_key x.2)); [done|]. destruct (bool_decide (last = Some (se_key x.2))).
  { rewrite (reads_skip_body v3 _ (enc v3 l) Hw c1 Hc1 E1). unfold cpos, dget, mbind, Dec_bind, mret, Dec_ret. by rewrite Ep. }
  rewrite (reads_entry_body v3 _ (enc v3 l) Hw c1 Hc1 E1). unfold cpos, dget, mbind, Dec_bind, mret, Dec_ret. rewrite Ep. done.
Qed.

(** The rows a cursor yields, to its end. *)
Inductive cursor_yields : SegmentScan -> list SegmentEntry -> Prop :=
  | cy_nil s s' : scan_next s = Ok (s', None) -> cursor_yields s []
  | cy_cons s s' e es : scan_next s = Ok (s', Some e) -> cursor_yields s' es -> cursor_yields s (e :: es).

Section Cursor.
Context (w : SegmentWriter) (Hflags : flags_ok w) (r : SegmentReader) (blocks : list (list SegmentEntry)).
Abbreviation v3 := (sw_v3 w).
Abbreviation holds := (holds w (sr_file r) (sr_index r)).
Context (Hh : Forall2 holds (sr_data r) blocks) (Hsort : StronglySorted publish_lt (concat blocks)).
Context (start : bytes) (end_ : option bytes).

(** The rows behind block [i], and the rounds they can take. *)
Definition rows_from (i : nat) : list SegmentEntry := map (persisted v3) (concat (drop i blocks)).
Definition cost_from (i : nat) : nat := S (list_sum (map (fun b => S (Z.to_nat (db_payload_len b))) (drop i (sr_data r)))).

(** A cursor with rows [rest] before it, of a loaded block and of the blocks behind. *)
Record scan_at (s : SegmentScan) (rest : list SegmentEntry) (cost : nat) : Prop := {
  sa_reader : sc_reader s = r; sa_start : sc_start s = start; sa_end : sc_end s = end_; sa_done : sc_done s = false;
  sa_rest : match sc_raw s with
    | None => rest = rows_from (sc_block s) /\ cost = cost_from (sc_block s)
    | Some raw => exists l, sc_v3 s = v3 /\ 0 <= sc_pos s <= zlen (zdrop BLOCK_HEADER_LEN raw) /\
        zdrop (sc_pos s) (zdrop BLOCK_HEADER_LEN raw) = enc v3 l /\ recs_ok (sc_scratch s) l /\ Forall entry_wf (map snd l) /\
        rest = rows_of v3 l ++ rows_from (sc_block s) /\ cost = (S (length l) + cost_from (sc_block s))%nat
    end;
  sa_asc : rows_asc rest }.

Lemma rows_from_asc i : rows_asc (rows_from i).
Proof.
  unfold rows_from. pose proof (asc_drop blocks Hsort i) as Ha. revert Ha. generalize (concat (drop i blocks)). intros rows.
  induction 1 as [|e rows Hs IH Hf]; cbn [map]; constructor; [done|]. apply Forall_map. eapply Forall_impl; [exact Hf|].
  intros e'. cbn. by rewrite !persisted_key.
Qed.
Lemma rows_from_S i rows : blocks !! i = Some rows -> rows_from i = map (persisted v3) rows ++ rows_from (S i).
Proof. intros H. unfold rows_from. rewrite (drop_S _ _ _ H). cbn [concat]. by rewrite map_app. Qed.
Lemma cost_from_S i b : sr_data r !! i = Some b -> cost_from i = (S (Z.to_nat (db_payload_len b)) + cost_from (S i))%nat.
Proof. intros H. unfold cost_from. rewrite (drop_S _ _ _ H). cbn [map]. change (list_sum (?x :: ?l)) with (x + list_sum l)%nat. by rewrite Nat.add_succ_r. Qed.

Lemma holds_payload b rows : holds b rows -> zlen (data_payload w rows) <= db_payload_len b.
Proof.
  intros Hb. pose proof (h_read _ _ _ _ _ Hb) as Hr. unfold read_segment_at in Hr. destruct (_ <? _) eqn:E; [done|]. apply Ok_inj in Hr.
  pose proof (data_block_len w rows (h_good _ _ _ _ _ Hb)) as Hl. apply (f_equal zlen) in Hr. rewrite Hl in Hr. bool_to_prop.
  unfold zslice, ztake, zdrop, zlen in *. rewrite length_take in Hr. unfold BLOCK_HEADER_LEN in *. lia.
Qed.

Lemma load_block_ok s rest cost :
  scan_at s rest cost -> sc_raw s = None ->
  (load_block s = Ok None /\ forall last, heads start end_ last rest = []) \/
  exists s' rest' cost', load_block s = Ok (Some s') /\ is_Some (sc_raw s') /\ scan_at s' rest' cost' /\ (cost' <= cost)%nat /\
    sc_last s' = sc_last s /\ forall last, heads start end_ last rest = heads start end_ last rest'.
Proof.
  intros [S1 S2 S3 S4 S5 S6] Hn. rewrite Hn in S5. destruct S5 as [-> ->]. unfold load_block. rewrite S1, S2, S3, S4.
  destruct (sr_data r !! sc_block s) as [b|] eqn:Hb.
  2: { left. split; [done|]. intros last. unfold rows_from. rewrite drop_ge; [done|]. rewrite <-(Forall2_length _ _ _ Hh). by apply lookup_ge_None. }
  destruct (Forall2_lookup_l _ _ _ _ _ Hh Hb) as (rows & Hr & Hbr). pose proof (h_good _ _ _ _ _ Hbr) as Hg.
  rewrite (rows_from_S _ _ Hr) in S6 |- *. change (match end_ with Some e => _ | None => _ end) with (past_end end_ (block_key r (db_first b))).
  unfold block_key. rewrite (h_first _ _ _ _ _ Hbr). destruct (past_end end_ (first_key rows)) eqn:Ep.
  { left. split; [done|]. intros last. apply heads_past. intros e He. eapply past_end_mono; [exact Ep|].
    pose proof (first_key_le _ e S6 He) as Hf. pose proof (bg_ne _ _ Hg) as Hne. destruct rows as [|x rows]; [done|]. unfold first_key in *. cbn in Hf |- *.
    by rewrite persisted_key in Hf. }
  right. rewrite (block_raw_ok w r b rows Hbr). cbn [mbind Result_bind]. destruct (data_block_parts w rows Hg) as [Epl _]. rewrite Epl.
  destruct (block_parts w rows Hg) as (l & ridx & Hi & Es & Hw & Ha & Hne & Epay). pose proof (bg_fit _ _ Hg) as Hfit.
  rewrite (h_v2 _ _ _ _ _ Hbr), (h_v4 _ _ _ _ _ Hbr).
  assert (exists i, scan_seek_pos (data_payload w rows) (sw_v2 w) (sw_v4 w) start = Ok (zlen (if sw_v2 w then block_table (sw_v4 w) (data_state w rows) else []) + off v3 l i) /\
    (i <= length l)%nat /\ recs_ok [] (drop i l) /\ forall x, x ∈ take i l -> bytes_lt (se_key x.2) start) as (i & Hseek & Hil & Hok & Hlt).
  { rewrite Epay in *. destruct (sw_v2 w) eqn:E2.
    - destruct (seek_ok v3 (sw_v4 w) _ l ridx start Hi Hw Ha Hne Hfit) as (i & H1 & [e He] & H3). exists i. split_and!; try done.
      + apply lookup_lt_Some in He. lia.
      + exact (recs_ok_drop _ _ _ _ (bi_ok _ _ _ _ _ _ Hi) He eq_refl []).
    - exists 0%nat. split_and!; [done | lia | apply Hi | intros x Hx; by apply not_elem_of_nil in Hx]. }
  rewrite Hseek. cbn [mbind Result_bind]. set (t := if sw_v2 w then _ else _) in *. pose proof (off_nonneg v3 l i) as Ho. pose proof (zlen_nonneg t).
  assert (zlen (data_payload w rows) = zlen t + zlen (enc v3 l)) as Ez by by rewrite Epay, zlen_app.
  assert (zdrop (zlen t + off v3 l i) (data_payload w rows) = enc v3 (drop i l)) as Edrop.
  { rewrite Epay, <-zdrop_zdrop, zdrop_app by (done || lia). apply off_drop. }
  assert (map (persisted v3) rows = rows_of v3 (take i l) ++ rows_of v3 (drop i l)) as Esplit.
  { rewrite <-!map_app, take_drop. by rewrite Es. }
  assert (length (drop i l) <= Z.to_nat (db_payload_len b))%nat as Hcost.
  { pose proof (holds_payload _ _ Hbr) as Hp. rewrite Ez in Hp. pose proof (length_enc v3 true block_state0 l). rewrite length_drop. unfold zlen in *. lia. }
  eexists _, (rows_of v3 (drop i l) ++ rows_from (S (sc_block s))), (S (length (drop i l)) + cost_from (S (sc_block s)))%nat.
  split; [reflexivity|]. split_and!; [by eexists | | | done |].
  - split; cbn [sc_reader sc_start sc_end sc_done sc_raw sc_v3 sc_pos sc_scratch sc_block]; try done.
    + exists (drop i l). rewrite Epl. split_and!; try done; [by rewrite (h_v3 _ _ _ _ _ Hbr) | lia | |].
      * pose proof (off_mono v3 l i (length l) Hil) as Hm. rewrite off_length in Hm. lia.
      * rewrite <-(take_drop i l), map_app in Hw. by apply Forall_app in Hw as [_ Hw].
    + rewrite Esplit, <-app_assoc in S6. by apply sorted_app_inv in S6 as [_ S6].
  - rewrite (cost_from_S _ _ Hb). lia.
  - intros last. rewrite Esplit, <-app_assoc. apply heads_below. intros e He. apply rows_of_key in He as (y & Hy & ->). by apply Hlt.
Qed.

Lemma scan_at_cons s x l cost raw :
  sc_raw s = Some raw -> scan_at s (rows_of v3 (x :: l) ++ rows_from (sc_block s)) cost ->
  sc_v3 s = v3 -> 0 <= sc_pos s <= zlen (zdrop BLOCK_HEADER_LEN raw) ->
  zdrop (sc_pos s) (zdrop BLOCK_HEADER_LEN raw) = enc v3 (x :: l) -> recs_ok (sc_scratch s) (x :: l) ->
  Forall entry_wf (map snd (x :: l)) -> cost = (S (S (length l)) + cost_from (sc_block s))%nat ->
  forall last, scan_at (set_entry (zlen (enc v3 [x])) (se_key x.2) last false s) (rows_of v3 l ++ rows_from (sc_block s)) (pred cost).
Proof.
  intros Hr [S1 S2 S3 S4 _ S6] E3 Hpos Hd Hok Hw -> last.
  assert (zlen (zdrop BLOCK_HEADER_LEN raw) = sc_pos s + zlen (enc v3 (x :: l))) as Ez by (rewrite <-Hd, (zlen_zdrop (sc_pos _)) by lia; lia).
  assert (enc v3 (x :: l) = enc v3 [x] ++ enc v3 l) as Ee by (by rewrite <-enc_app).
  split; cbn [set_entry sc_reader sc_start sc_end sc_done sc_raw sc_v3 sc_pos sc_scratch sc_block]; try done.
  - rewrite Hr. exists l. pose proof (zlen_nonneg (enc v3 [x])). pose proof (zlen_nonneg (enc v3 l)). rewrite Ee, zlen_app in Ez.
    split_and!; try done; try lia.
    + rewrite <-zdrop_zdrop, Hd, Ee by lia. by apply zdrop_app.
    + by destruct Hok.
    + by apply Forall_cons_1 in Hw as [_ Hw].
  - cbn [map app] in S6. by apply StronglySorted_inv in S6 as [S6 _].
Qed.

(** One call of the cursor: the next head, and a cursor before what follows it. *)
Definition scan_found (s' : SegmentScan) (x : option SegmentEntry) (last : option bytes) (rest : list SegmentEntry) (cost : nat) : Prop :=
  match x with
  | None => heads start end_ last rest = []
  | Some e => exists rest' cost', heads start end_ last rest = e :: heads start end_ (Some (se_key e)) rest' /\
      scan_at s' rest' cost' /\ (cost' <= cost)%nat /\ sc_last s' = Some (se_key e)
  end.
Lemma scan_loop_ok fuel : forall s rest cost,
  scan_at s rest cost -> (cost <= fuel)%nat ->
  exists s' x, scan_loop fuel s = Ok (s', x) /\ scan_found s' x (sc_last s) rest cost.
Proof.
  induction fuel as [|fuel IH]; intros s rest cost Hs Hf.
  { exfalso. destruct Hs as [_ _ _ _ H _]. destruct (sc_raw s) as [raw|]; [destruct H as (l & _ & _ & _ & _ & _ & _ & ->); lia|].
    destruct H as [_ ->]. unfold cost_from in Hf. lia. }
  cbn [scan_loop]. rewrite (sa_done _ _ _ Hs).
  assert (exists s1 rest1 cost1, scan_at s1 rest1 cost1 /\ is_Some (sc_raw s1) /\ (cost1 <= cost)%nat /\ sc_last s1 = sc_last s /\
      heads start end_ (sc_last s) rest = heads start end_ (sc_last s) rest1 /\
      match sc_raw s with Some _ => Ok (Some s) | None => load_block s end = Ok (Some s1) \/
    load_block s = Ok None /\ sc_raw s = None /\ heads start end_ (sc_last s) rest = []) as (s1 & rest1 & cost1 & [(Hs1 & [raw Hraw] & Hc1 & El & Eh & ->)|(El & -> & Eh)]).
  { destruct (sc_raw s) as [raw|] eqn:Hraw; [exists s, rest, cost; left; split_and!; [done | by eexists | done..]|].
    destruct (load_block_ok s rest cost Hs Hraw) as [[-> H]|(s1 & rest1 & cost1 & H1 & H2 & H3 & H4 & H5 & H6)].
    - exists s, rest, cost. by right.
    - exists s1, rest1, cost1. left. by split_and!. }
  2: { rewrite El. cbn [mbind Result_bind]. eexists _, None. split; [reflexivity | exact Eh]. }
  cbn [mbind Result_bind]. rewrite Hraw. cbn [default id]. unfold scan_found. rewrite Eh. clear Eh. rewrite <-El.
  pose proof Hs1 as [T1 T2 T3 T4 T5 T6]. rewrite Hraw in T5. destruct T5 as (l & E3 & Hpos & Hd & Hok & Hw & Erest & Ecost).
  assert (zlen (zdrop BLOCK_HEADER_LEN raw) = sc_pos s1 + zlen (enc v3 l)) as Ez by (rewrite <-Hd, (zlen_zdrop (sc_pos _)) by lia; lia).
  destruct l as [|x l].
  - change (zlen (enc v3 [])) with 0 in Ez. rewrite (proj2 (Z.leb_le _ _)) by lia.
    destruct (IH (set_raw None s1) rest1 (pred cost1)) as (s' & y & Hrun & Hfound).
    { split; cbn; try done. split; [by rewrite Erest | by rewrite Ecost]. }
    { lia. }
    exists s', y. split; [done|]. destruct y as [e|]; [|done]. destruct Hfound as (rest' & cost' & ? & ? & ? & ?).
    exists rest', cost'. split_and!; try done. lia.
  - rewrite (proj2 (Z.leb_gt _ _)).
    2: { rewrite Ez. pose proof (length_enc v3 true block_state0 (x :: l)). unfold zlen. cbn [length] in *. lia. }
    rewrite Hd, E3, T2, T3. destruct Hok as [Hx Hok]. pose proof Hw as Hw0. apply Forall_cons_1 in Hw as [Hwx Hw].
    rewrite (scan_entry_ok start end_ (sc_last s1) v3 _ x l Hx Hwx). cbn [mbind Result_bind].
    pose proof Hs1 as Hs1'. rewrite Erest in Hs1'. pose proof (scan_at_cons s1 x l cost1 raw Hraw Hs1' E3 Hpos Hd (conj Hx Hok) Hw0 Ecost) as Hnext.
    rewrite Erest. cbn [map app heads]. unfold yields_row, in_scan. rewrite !persisted_key.
    assert (exists s' y, scan_loop fuel (set_entry (zlen (enc v3 [x])) (se_key x.2) (sc_last s1) false s1) = Ok (s', y) /\
        scan_found s' y (sc_last s1) (rows_of v3 l ++ rows_from (sc_block s1)) cost) as Hskip.
    { destruct (IH _ _ _ (Hnext (sc_last s1))) as (s' & y & Hrun & Hfound); [lia|]. exists s', y. split; [done|].
      destruct y as [e|]; [|done]. destruct Hfound as (rest' & cost' & ? & ? & ? & ?). exists rest', cost'. split_and!; try done. lia. }
    rewrite bytes_ltb_leb. destruct (bytes_leb start (se_key x.2)) eqn:Elt; cbn [negb andb]; [|exact Hskip].
    destruct (past_end end_ (se_key x.2)) eqn:Epast; cbn [negb andb].
    { eexists _, None. split; [reflexivity|]. apply heads_past. intros e He. eapply past_end_mono; [exact Epast|].
      rewrite Erest in T6. cbn [map app] in T6. apply StronglySorted_inv in T6 as [_ T6]. eapply Forall_forall in T6; [|exact He]. by rewrite persisted_key in T6. }
    case_bool_decide as Elast; cbn [negb andb]; [exact Hskip|].
    case_bool_decide as Erid; [|exact Hskip].
    eexists _, (Some _). split; [reflexivity|]. exists (rows_of v3 l ++ rows_from (sc_block s1)), (pred cost1). rewrite persisted_key.
    split_and!; [done | apply Hnext | lia | done].
Qed.

Lemma cost_from_le i : (cost_from i <= scan_fuel r)%nat.
Proof.
  unfold cost_from, scan_fuel. apply le_n_S. rewrite <-(take_drop i (sr_data r)) at 2. rewrite map_app, list_sum_app. lia.
Qed.
Lemma scan_at_yields es : forall s rest cost,
  scan_at s rest cost -> (cost <= scan_fuel r)%nat -> es = heads start end_ (sc_last s) rest -> cursor_yields s es.
Proof.
  induction es as [|e es IH]; intros s rest cost Hs Hc E;
    destruct (scan_loop_ok _ s rest cost Hs Hc) as (s' & x & Hrun & Hf); unfold scan_found in Hf; rewrite <-E in Hf; rewrite <-(sa_reader _ _ _ Hs) in Hrun.
  - destruct x as [e|]; [by destruct Hf as (? & ? & ? & _)|]. by eapply cy_nil.
  - destruct x as [e'|]; [|done]. destruct Hf as (rest' & cost' & [= <- Ees] & Hs' & Hc' & El). eapply cy_cons; [exact Hrun|].
    eapply (IH s' rest' cost'); [done | lia | by rewrite El].
Qed.
Lemma scan_iter_yields : cursor_yields (scan_iter r start end_) (heads start end_ None (map (persisted v3) (concat blocks))).
Proof.
  set (p := fun b => bytes_ltb (block_key r (db_last b)) start). destruct (partition_point_spec p (sr_data r)) as [H1 _].
  set (i := partition_point_by p (sr_data r)) in *.
  apply (scan_at_yields _ _ (rows_from i) (cost_from i)); [|apply cost_from_le|].
  - split; try done. apply rows_from_asc.
  - cbn. unfold rows_from. rewrite <-(take_drop i blocks) at 1. rewrite concat_app, map_app. apply heads_below.
    intros e' He'. apply list_elem_of_In, in_map_iff in He' as (e & <- & He). rewrite persisted_key.
    apply in_concat in He as (rows & Hr & He). apply list_elem_of_In in Hr, He. pose proof (subseteq_take i blocks _ Hr) as Hr'.
    pose proof (sorted_concat _ _ (concat_asc blocks Hsort)) as Hs. eapply Forall_forall in Hs; [|exact Hr'].
    eapply bytes_leb_lt_trans; [by apply (last_key_ge rows)|].
    apply list_elem_of_lookup in Hr as (j & Hj). apply lookup_take_Some in Hj as [Hj Hji].
    destruct (Forall2_lookup_r _ _ _ _ _ Hh Hj) as (b & Hb & Hbr).
    eapply Forall_forall in H1; [|eapply list_elem_of_lookup_2; apply lookup_take_Some; done].
    unfold p, block_key in H1. rewrite (h_last _ _ _ _ _ Hbr) in H1. by apply bytes_ltb_lt.
Qed.
Lemma rows_payload : (length (concat blocks) <= list_sum (map (fun b => Z.to_nat (db_payload_len b)) (sr_data r)))%nat.
Proof.
  clear Hsort. induction Hh as [|b rows ds bs Hb _ IH]; [done|]. cbn [concat map]. rewrite length_app.
  change (list_sum (?x :: ?l)) with (x + list_sum l)%nat. apply Nat.add_le_mono; [|apply IH; by apply Forall2_cons_1 in Hh as [_ ?]].
  pose proof (holds_payload _ _ Hb) as Hp. destruct (block_parts w rows (h_good _ _ _ _ _ Hb)) as (l & ridx & _ & <- & _ & _ & _ & Epay).
  rewrite Epay, zlen_app in Hp. pose proof (length_enc v3 true block_state0 l). rewrite length_map. pose proof (zlen_nonneg (if sw_v2 w then block_table (sw_v4 w) (data_state w (map snd l)) else [])).
  unfold zlen in *. lia.
Qed.
End Cursor.

(* ------------------------------------------------------------------ *)
(** * The batch lookup is the point lookup of each key *)

(** Answers written at positions. *)
Definition write_at_pos {A} (f : nat -> Result A) (out : list A) (pos : nat) : Result (list A) :=
  res ← f pos; Ok (<[pos := res]> out).

Lemma write_at_pos_spec {A} (f : nat -> Result A) ps : forall out0 out,
  (forall pos, pos ∈ ps -> (pos < length out0)%nat) ->
  fold_result (write_at_pos f) out0 ps = Ok out <->
  length out = length out0 /\ forall pos x, out !! pos = Some x -> if bool_decide (pos ∈ ps) then f pos = Ok x else out0 !! pos = Some x.
Proof.
  induction ps as [|p ps IH]; intros out0 out Hps; cbn [fold_result].
  { split; [by intros [= ->]|]. intros [Hl Hx]. f_equal. apply list_eq. intros i. destruct (out !! i) as [x|] eqn:E; [by apply Hx|].
    apply lookup_ge_None in E. apply lookup_ge_None. lia. }
  assert (p < length out0)%nat as Hp by (apply Hps; set_solver). change (write_at_pos f out0 p) with (res ← f p; Ok (<[p := res]> out0)). destruct (f p) as [y|e] eqn:Ef; cbn [mbind Result_bind].
  - rewrite IH by (rewrite length_insert; set_solver). rewrite length_insert.
    apply and_iff_compat_l. apply forall_proper. intros pos. apply forall_proper. intros x. apply imp_iff_compat_l.
    destruct (decide (pos ∈ ps)) as [Hin|Hin].
    + rewrite !bool_decide_eq_true_2 by set_solver. done.
    + rewrite (bool_decide_eq_false_2 (pos ∈ ps)) by done. destruct (decide (pos = p)) as [->|Hne].
      * rewrite bool_decide_eq_true_2 by set_solver. rewrite list_lookup_insert_eq by done. rewrite Ef. split; congruence.
      * rewrite bool_decide_eq_false_2 by set_solver. by rewrite list_lookup_insert_ne.
  - split; [done|]. intros [Hl Hx]. destruct (lookup_lt_is_Some_2 out p) as [x Hxp]; [lia|]. specialize (Hx p x Hxp).
    rewrite bool_decide_eq_true_2 in Hx by set_solver. congruence.
Qed.

Lemma fold_result_ext {S X} (f g : S -> X -> Result S) xs : forall s,
  (forall s x, x ∈ xs -> f s x = g s x) -> fold_result f s xs = fold_result g s xs.
Proof.
  induction xs as [|x xs IH]; intros s H; cbn [fold_result]; [done|]. rewrite (H s x) by set_solver.
  destruct (g s x); cbn [mbind Result_bind]; [apply IH; set_solver | done].
Qed.
Lemma fold_result_concat {S X} (f : S -> X -> Result S) (xss : list (list X)) : forall s,
  fold_result (fold_result f) s xss = fold_result f s (concat xss).
Proof.
  induction xss as [|xs xss IH]; intros s; cbn [fold_result concat]; [done|]. rewrite fold_result_app.
  destruct (fold_result f s xs); cbn [mbind Result_bind]; [apply IH | done].
Qed.
Lemma fold_result_map {S X Y} (f : S -> Y -> Result S) (g : X -> Y) (xs : list X) : forall s,
  fold_result (fun s x => f s (g x)) s xs = fold_result f s (map g xs).
Proof.
  induction xs as [|x xs IH]; intros s; cbn [fold_result map]; [done|]. destruct (f s (g x)); cbn [mbind Result_bind]; [apply IH | done].
Qed.
Lemma fold_left_result {S X} (f : S -> X -> S) xs : forall s, fold_result (fun s x => Ok (f s x)) s xs = Ok (fold_left f xs s).
Proof. induction xs as [|x xs IH]; intros s; cbn [fold_result fold_left mbind Result_bind]; [done | apply IH]. Qed.

Section Many.
Context (r : SegmentReader) (keys : list bytes).

(** The groups: positions under the block their key is located in, none empty. *)
Definition groups_ok (seen : list (nat * bytes)) (m : list (nat * list nat)) : Prop :=
  Forall (fun g => g.2 <> []) m /\ forall i pos, (exists ps, (i, ps) ∈ m /\ pos ∈ ps) <-> exists key, (pos, key) ∈ seen /\ locate r key = Some i.

Lemma block_push_ok i pos m :
  Forall (fun g => g.2 <> []) m ->
  Forall (fun g => g.2 <> []) (block_push i pos m) /\ forall j p, (exists ps, (j, ps) ∈ block_push i pos m /\ p ∈ ps) <->
    (j = i /\ p = pos) \/ exists ps, (j, ps) ∈ m /\ p ∈ ps.
Proof.
  induction m as [|[k qs] m IH]; cbn [block_push].
  { intros _. split; [by repeat constructor|]. intros j p. split.
    - intros (ps & Hin%list_elem_of_singleton & Hp). injection Hin as -> ->. left. by apply list_elem_of_singleton in Hp.
    - intros [[-> ->]|(ps & Hin & _)]; [exists [pos]; set_solver | by apply not_elem_of_nil in Hin]. }
  intros [Hq Hm]%Forall_cons_1. destruct (i <? k)%nat eqn:E1; [|destruct (i =? k)%nat eqn:E2].
  - split; [by repeat constructor|]. intros j p. split.
    + intros (ps & [Hin|Hin]%elem_of_cons & Hp); [|eauto]. injection Hin as -> ->. left. by apply list_elem_of_singleton in Hp.
    + intros [[-> ->]|(ps & Hin & Hp)]; [exists [pos]; set_solver | exists ps; set_solver].
  - apply Nat.eqb_eq in E2 as ->. split; [constructor; [by destruct qs | done]|]. intros j p. split.
    + intros (ps & [Hin|Hin]%elem_of_cons & Hp); [|right; exists ps; set_solver]. injection Hin as -> ->.
      apply elem_of_app in Hp as [Hp|Hp%list_elem_of_singleton]; [right; exists qs; set_solver | by left].
    + intros [[-> ->]|(ps & [Hin|Hin]%elem_of_cons & Hp)]; [exists (qs ++ [pos]); set_solver | | exists ps; set_solver].
      injection Hin as -> ->. exists (qs ++ [pos]). set_solver.
  - destruct (IH Hm) as [H1 H2]. split; [by constructor|]. intros j p. split.
    + intros (ps & [Hin|Hin]%elem_of_cons & Hp); [right; exists ps; set_solver|]. destruct (proj1 (H2 j p)) as [?|(ps' & ? & ?)]; [eauto | by left | right; exists ps'; set_solver].
    + intros [[-> ->]|(ps & [Hin|Hin]%elem_of_cons & Hp)].
      * destruct (proj2 (H2 i pos)) as (ps & ? & ?); [by left|]. exists ps. set_solver.
      * exists ps. set_solver.
      * destruct (proj2 (H2 j p)) as (ps' & ? & ?); [eauto|]. exists ps'. set_solver.
Qed.

Lemma group_ok : groups_ok (zip (seq 0 (length keys)) keys) (group_by_block r keys).
Proof.
  unfold group_by_block. set (l := zip _ _). assert (forall l seen m, groups_ok seen m ->
    groups_ok (seen ++ l) (fold_left (fun m '(pos, key) => match locate r key with Some i => block_push i pos m | None => m end) l m)) as H.
  { clear. induction l as [|[pos key] l IH]; intros seen m Hm; cbn [fold_left]; [by rewrite app_nil_r|].
    rewrite (cons_middle _ seen), app_assoc. apply IH. destruct Hm as [H1 H2]. destruct (locate r key) as [i|] eqn:El.
    - destruct (block_push_ok i pos m H1) as [B1 B2]. split; [done|]. intros j p. rewrite B2, H2. split.
      + intros [[-> ->]|(k & ? & ?)]; [exists key; set_solver | exists k; set_solver].
      + intros (k & [Hin|Hin%list_elem_of_singleton]%elem_of_app & Hk); [eauto|]. injection Hin as -> ->. left. split; congruence.
    - split; [done|]. intros j p. rewrite H2. split; intros (k & Hin & Hk); exists k; [set_solver|].
      apply elem_of_app in Hin as [Hin|Hin%list_elem_of_singleton]; [done|]. injection Hin as -> ->. congruence. }
  apply (H l [] []). split; [constructor|]. intros i pos. split; [intros (ps & Hin & _) | intros (k & Hin & _)]; by apply not_elem_of_nil in Hin.
Qed.

Lemma block_answers_eq i ps b out :
  sr_data r !! i = Some b -> ps <> [] ->
  block_answers r keys out (i, ps) = fold_result (write_at_pos (fun pos => block_get r b (key_at keys pos))) out ps.
Proof.
  intros Hb Hne. cbn [block_answers]. rewrite Hb. unfold write_at_pos, block_get. destruct (db_v2 b); cbn [negb].
  - destruct (block_raw r b) as [raw|e]; cbn [mbind Result_bind]; [done|]. by destruct ps.
  - destruct (block_entries r b) as [es|e]; cbn [mbind Result_bind]; [by rewrite fold_left_result | by destruct ps].
Qed.

Lemma elem_of_positions {A} (l : list A) pos x : (pos, x) ∈ zip (seq 0 (length l)) l <-> l !! pos = Some x.
Proof.
  rewrite list_elem_of_lookup. split.
  - intros (i & Hi). apply lookup_zip_Some in Hi as [H1 H2]. apply lookup_seq in H1 as [-> _]. done.
  - intros H. exists pos. apply lookup_zip_Some. split; [|done]. apply lookup_seq. split; [done|]. by apply lookup_lt_Some in H.
Qed.

Lemma located_positions pos i : (exists ps, (i, ps) ∈ group_by_block r keys /\ pos ∈ ps) <-> exists key, keys !! pos = Some key /\ locate r key = Some i.
Proof. rewrite (proj2 group_ok). by setoid_rewrite elem_of_positions. Qed.

Lemma seg_get_many_eq :
  seg_get_many r keys = fold_result (write_at_pos (fun pos => seg_get r (key_at keys pos))) (replicate (length keys) None)
    (concat (map snd (group_by_block r keys))).
Proof.
  unfold seg_get_many. rewrite <-fold_result_concat, <-fold_result_map. apply fold_result_ext. intros out [i ps] Hg.
  pose proof (proj1 group_ok) as H1. eapply Forall_forall in H1; [|exact Hg]. cbn [snd] in *.
  assert (forall pos, pos ∈ ps -> locate r (key_at keys pos) = Some i) as Hloc.
  { intros pos Hp. destruct (proj1 (located_positions pos i)) as (key & Hk & El); [eauto|]. unfold key_at. by rewrite Hk. }
  assert (exists b, sr_data r !! i = Some b) as [b Hb].
  { destruct ps as [|pos ps]; [done|]. specialize (Hloc pos ltac:(set_solver)). unfold locate in Hloc.
    destruct (sr_data r !! _) as [b|] eqn:E; [|done]. cbn in Hloc. destruct (bytes_leb _ _); [|done]. injection Hloc as <-. eauto. }
  rewrite (block_answers_eq i ps b out Hb H1). apply fold_result_ext. intros out' pos Hp. unfold write_at_pos, seg_get.
  by rewrite (Hloc pos Hp), Hb.
Qed.

Lemma seg_get_many_ok out : seg_get_many r keys = Ok out <-> Forall2 (fun key x => seg_get r key = Ok x) keys out.
Proof.
  rewrite seg_get_many_eq, write_at_pos_spec.
  2: { intros pos (ps & Hps & Hp)%list_elem_of_In%in_concat. apply list_elem_of_In in Hp. apply in_map_iff in Hps as ([i ps'] & <- & Hg%list_elem_of_In).
    rewrite length_replicate. destruct (proj1 (located_positions pos i)) as (key & Hk & _); [eauto|]. by apply lookup_lt_Some in Hk. }
  rewrite length_replicate, Forall2_lookup.
  assert (forall pos key, keys !! pos = Some key -> pos ∉ concat (map snd (group_by_block r keys)) -> seg_get r key = Ok None) as Hnone.
  { intros pos key Hk Hn. unfold seg_get. destruct (locate r key) as [i|] eqn:El; [|done]. exfalso. apply Hn.
    destruct (proj2 (located_positions pos i)) as (ps & Hg & Hp); [eauto|]. apply list_elem_of_In, in_concat. exists ps.
    split; [|by apply list_elem_of_In]. apply in_map_iff. exists (i, ps). split; [done | by apply list_elem_of_In]. }
  split.
  - intros [Hl Hx] pos. destruct (keys !! pos) as [key|] eqn:Hk.
    + destruct (lookup_lt_is_Some_2 out pos) as [x Hxp]; [apply lookup_lt_Some in Hk; lia|]. rewrite Hxp. constructor. specialize (Hx pos x Hxp).
      case_bool_decide as Hin; [by unfold key_at in Hx; rewrite Hk in Hx|]. apply lookup_replicate in Hx as [-> _]. by eapply Hnone.
    + apply lookup_ge_None in Hk. rewrite lookup_ge_None_2 by lia. constructor.
  - intros H. assert (length out = length keys) as Hl.
    { destruct (Nat.lt_trichotomy (length out) (length keys)) as [Hlt|[?|Hlt]]; [|done|]; exfalso.
      - specialize (H (length out)). rewrite (lookup_ge_None_2 out) in H by lia. destruct (lookup_lt_is_Some_2 keys _ Hlt) as [k Hk]. rewrite Hk in H. inversion H.
      - specialize (H (length keys)). rewrite (lookup_ge_None_2 keys) in H by lia. destruct (lookup_lt_is_Some_2 out _ Hlt) as [k Hk]. rewrite Hk in H. inversion H. }
    split; [done|]. intros pos x Hx. specialize (H pos). rewrite Hx in H. inversion H as [key ? Hg Hk|]; subst. symmetry in Hk.
    case_bool_decide as Hin; [unfold key_at; by rewrite Hk|]. rewrite (Hnone _ _ Hk Hin) in Hg. injection Hg as <-.
    apply lookup_replicate. split; [done|]. by apply lookup_lt_Some in Hk.
Qed.
End Many.
End Scan.
