(* ===== verification/Cache.v ===== *)
(** crates/storage/aikoql-v2/src/cache.rs: the block cache, an LRU over a hash map with
    generation stamps and a lazy-deletion binary heap; and segment.rs, [block_raw] through
    it.  The counters of hits, misses and lock waits are left out. *)

From stdpp Require Import gmap.
From S2P Require Import Prelude Cursor Format Identity Segment.

Abbreviation CacheKey := (Z * Z)%type.

(** [struct Entry], [struct HeapNode]. *)
Record Entry : Type := mkEntry { en_gen : Z; en_bytes : bytes }.
Record HeapNode : Type := mkHeapNode { hn_gen : Z; hn_key : CacheKey }.

(** [struct State], [struct BlockCache]. *)
Record CacheState : Type := mkCacheState {
  cs_entries : gmap CacheKey Entry; cs_clock : Z; cs_bytes : Z; cs_scan_steps : Z; cs_heap : list HeapNode }.
Record BlockCache : Type := mkBlockCache { bc_cap : Z; bc_state : CacheState; bc_evictions : Z; bc_next_id : Z }.

Definition upd_heap (f : list HeapNode -> list HeapNode) (st : CacheState) : CacheState :=
  mkCacheState (cs_entries st) (cs_clock st) (cs_bytes st) (cs_scan_steps st) (f (cs_heap st)).

(* ------------------------------------------------------------------ *)
(** * The heap *)

(** The order of two positions; a position out of range is not compared by the source. *)
Definition gen_at (h : list HeapNode) (i : nat) : Z := default 0 (hn_gen <$> h !! i).
Definition swap (h : list HeapNode) (i j : nat) : list HeapNode :=
  match h !! i, h !! j with Some a, Some b => <[i := b]> (<[j := a]> h) | _, _ => h end.

(** [heap_push]: append, then swap with the parent while it is larger. *)
Fixpoint sift_up (fuel : nat) (h : list HeapNode) (i : nat) : list HeapNode :=
  match fuel with
  | O => h
  | S fuel =>
      match i with
      | O => h
      | _ =>
          let parent := ((i - 1) / 2)%nat in
          if gen_at h parent <=? gen_at h i then h else sift_up fuel (swap h parent i) parent
      end
  end.
Definition heap_push (h : list HeapNode) (gen : Z) (key : CacheKey) : list HeapNode :=
  sift_up (length h) (h ++ [mkHeapNode gen key]) (length h).

(** [sift_down]. *)
Definition smaller_child (h : list HeapNode) (i : nat) : nat :=
  let l := (2 * i + 1)%nat in
  let r := S l in
  let smallest := if (l <? length h)%nat && (gen_at h l <? gen_at h i) then l else i in
  if (r <? length h)%nat && (gen_at h r <? gen_at h smallest) then r else smallest.
Fixpoint sift_down (fuel : nat) (h : list HeapNode) (i : nat) : list HeapNode :=
  match fuel with
  | O => h
  | S fuel =>
      let smallest := smaller_child h i in
      if (smallest =? i)%nat then h else sift_down fuel (swap h i smallest) smallest
  end.

(** [heap_pop]: the last node takes the root's place. *)
Definition heap_pop (h : list HeapNode) : option (HeapNode * list HeapNode) :=
  match last h with
  | None => None
  | Some z =>
      match removelast h with
      | [] => Some (z, [])
      | (root :: _) as rest => Some (root, sift_down (length rest) (<[0%nat := z]> rest) 0)
      end
  end.

(** [rebuild_heap]: the live entries, heapified from the middle down. *)
Definition heapify (h : list HeapNode) : list HeapNode :=
  fold_left (fun h i => sift_down (length h) h i) (rev (seq 0 (length h / 2))) h.
Definition rebuild_heap (st : CacheState) : CacheState :=
  mkCacheState (cs_entries st) (cs_clock st) (cs_bytes st) (cs_scan_steps st + Z.of_nat (size (cs_entries st)))
    (heapify (map (fun kv => mkHeapNode (en_gen kv.2) kv.1) (map_to_list (cs_entries st)))).

(* ------------------------------------------------------------------ *)
(** * Eviction, lookup, insertion *)

(** One iteration of [evict_for]'s loop, and whether it evicted. *)
Definition evict_step (st : CacheState) : option (CacheState * bool) :=
  match heap_pop (cs_heap st) with
  | None => None
  | Some (node, h) =>
      match cs_entries st !! hn_key node with
      | None => Some (upd_heap (fun _ => h) st, false)
      | Some e =>
          if en_gen e =? hn_gen node then
            Some (mkCacheState (base.delete (hn_key node) (cs_entries st)) (cs_clock st) (cs_bytes st - zlen (en_bytes e))
                    (cs_scan_steps st) h, true)
          else Some (upd_heap (fun _ => heap_push h (en_gen e) (hn_key node)) st, false)
      end
  end.
Fixpoint evict_loop (fuel : nat) (cap needed : Z) (st : CacheState) (evicted : Z) : CacheState * Z :=
  match fuel with
  | O => (st, evicted)
  | S fuel =>
      if cap <? cs_bytes st + needed then
        match evict_step st with
        | None => (st, evicted)
        | Some (st, b) => evict_loop fuel cap needed st (if b : bool then evicted + 1 else evicted)
        end
      else (st, evicted)
  end.

(** [evict_for]: a node is popped at most twice, once stale and once current. *)
Definition evict_for (cap needed : Z) (st : CacheState) : CacheState * Z :=
  evict_loop (2 * length (cs_heap st) + 1) cap needed st 0.

(** [BlockCache::new], [reader_id], [get], [insert]. *)
Definition cache_new (cap : Z) : BlockCache := mkBlockCache cap (mkCacheState ∅ 0 0 0 []) 0 0.
Definition reader_id (c : BlockCache) : BlockCache * Z :=
  (mkBlockCache (bc_cap c) (bc_state c) (bc_evictions c) ((bc_next_id c + 1) mod U64), bc_next_id c).
Definition cache_get (c : BlockCache) (id block : Z) : BlockCache * option bytes :=
  let st := bc_state c in
  match cs_entries st !! (id, block) with
  | None => (c, None)
  | Some e =>
      let gen := (cs_clock st + 1) mod U64 in
      (mkBlockCache (bc_cap c)
         (mkCacheState (<[(id, block) := mkEntry gen (en_bytes e)]> (cs_entries st)) gen (cs_bytes st) (cs_scan_steps st) (cs_heap st))
         (bc_evictions c) (bc_next_id c), Some (en_bytes e))
  end.
Definition cache_insert (c : BlockCache) (id block : Z) (raw : bytes) : BlockCache :=
  let st := bc_state c in
  let bytes := zlen raw in
  if bc_cap c <? bytes then c else
  let key := (id, block) in
  let st := match cs_entries st !! key with
            | Some old => mkCacheState (base.delete key (cs_entries st)) (cs_clock st) (cs_bytes st - zlen (en_bytes old))
                            (cs_scan_steps st) (cs_heap st)
            | None => st
            end in
  let '(st, n) := evict_for (bc_cap c) bytes st in
  let gen := (cs_clock st + 1) mod U64 in
  let st := mkCacheState (<[key := mkEntry gen raw]> (cs_entries st)) gen (cs_bytes st + bytes) (cs_scan_steps st)
              (heap_push (cs_heap st) gen key) in
  let st := if (2 * size (cs_entries st) <? length (cs_heap st))%nat then rebuild_heap st else st in
  mkBlockCache (bc_cap c) st (bc_evictions c + n) (bc_next_id c).

(* ------------------------------------------------------------------ *)
(** * The block read through the cache *)

Section Read.
Context {SHA : Sha256}.

(** A reader with its cache identity and the blocks whose checksum it has validated. *)
Record CachedReader : Type := mkCachedReader { cr_reader : SegmentReader; cr_id : Z; cr_validated : gset nat }.

(** [open_inner]'s last step: a fresh identity of the cache. *)
Definition open_cached (c : BlockCache) (r : SegmentReader) : BlockCache * CachedReader :=
  let '(c, id) := reader_id c in (c, mkCachedReader r id ∅).

(** [block_raw]: block [i], which is [b]: the cache, then the file with the checksum on the
    first touch, then into the cache. *)
Definition block_raw_cached (c : BlockCache) (cr : CachedReader) (i : nat) (b : DataBlock)
    : BlockCache * CachedReader * Result bytes :=
  let '(c, hit) := cache_get c (cr_id cr) (Z.of_nat i) in
  match hit with
  | Some raw => (c, cr, Ok raw)
  | None =>
      match read_segment_at (sr_file (cr_reader cr)) (db_header b) (BLOCK_HEADER_LEN + db_payload_len b) with
      | Err e => (c, cr, Err e)
      | Ok raw =>
          if negb (bool_decide (i ∈ cr_validated cr)) &&
             negb (slice_eqb (checksum8 (ztake 20 raw ++ zdrop BLOCK_HEADER_LEN raw)) (zslice 20 28 raw))
          then (c, cr, Err (Corrupt "data block checksum mismatch"))
          else (cache_insert c (cr_id cr) (Z.of_nat i) raw,
                mkCachedReader (cr_reader cr) (cr_id cr) ({[i]} ∪ cr_validated cr), Ok raw)
      end
  end.
End Read.

(* ================================================================== *)
(** The cache's binary heap: pushing, popping and heapifying keep the nodes and the heap
    order, so a pop takes a node of least generation. *)

(** [j] is a child of [i]. *)
Definition child (i j : nat) : Prop := (j = 2 * i + 1 \/ j = 2 * i + 2)%nat.
Definition parent (j : nat) : nat := ((j - 1) / 2)%nat.
Lemma parent_child j : (0 < j)%nat -> child (parent j) j.
Proof. intros Hj. unfold child, parent. pose proof (Nat.div_mod_eq (j - 1) 2). pose proof (Nat.mod_upper_bound (j - 1) 2). lia. Qed.
Lemma child_parent i j : child i j -> i = parent j.
Proof.
  unfold child, parent. intros [->| ->]; [replace (2 * i + 1 - 1)%nat with (i * 2)%nat by lia; by rewrite Nat.div_mul|].
  replace (2 * i + 2 - 1)%nat with (1 + i * 2)%nat by lia. rewrite Nat.div_add by done. done.
Qed.
Lemma child_lt i j : child i j -> (i < j)%nat.
Proof. unfold child. lia. Qed.

(** The edges from [lo] on, all but those out of [x] (into [x]) in order. *)
Definition edge_ok (h : list HeapNode) (i j : nat) : Prop := child i j -> (j < length h)%nat -> gen_at h i <= gen_at h j.
Definition heap_from (lo : nat) (h : list HeapNode) : Prop := forall i j, (lo <= i)%nat -> edge_ok h i j.
Abbreviation heap_ok := (heap_from 0).

Lemma length_swap h i j : length (swap h i j) = length h.
Proof. unfold swap. destruct (h !! i), (h !! j); rewrite ?length_insert; done. Qed.
Lemma gen_swap h i j k :
  (i < length h)%nat -> (j < length h)%nat ->
  gen_at (swap h i j) k = if decide (k = i) then gen_at h j else if decide (k = j) then gen_at h i else gen_at h k.
Proof.
  intros Hi Hj. unfold swap, gen_at. destruct (lookup_lt_is_Some_2 h i Hi) as [a Ea], (lookup_lt_is_Some_2 h j Hj) as [b Eb].
  rewrite Ea, Eb. destruct (decide (k = i)) as [->|Hk]; [by rewrite list_lookup_insert_eq by (by rewrite length_insert)|].
  rewrite list_lookup_insert_ne by done. destruct (decide (k = j)) as [->|Hk']; [by rewrite list_lookup_insert_eq|].
  by rewrite list_lookup_insert_ne.
Qed.
Lemma swap_perm h i j : swap h i j ≡ₚ h.
Proof.
  assert (forall i j, (i < j)%nat -> swap h i j ≡ₚ h) as Hlt.
  { clear i j. intros i j Hij. unfold swap. destruct (h !! i) as [a|] eqn:Ei; [|done]. destruct (h !! j) as [b|] eqn:Ej; [|done].
    apply list_elem_of_split_length in Ei as (l1 & l2 & -> & ->). rewrite lookup_app_r in Ej by lia.
    replace (j - length l1)%nat with (S (j - length l1 - 1)) in Ej by lia. cbn in Ej.
    apply list_elem_of_split_length in Ej as (l3 & l4 & -> & E). replace j with (length l1 + S (length l3))%nat by lia.
    rewrite insert_app_r. cbn [insert list_insert]. rewrite insert_app_r_alt by lia. rewrite Nat.sub_diag.
    assert (<[length l3 := a]> (l3 ++ b :: l4) = l3 ++ a :: l4) as Ei by (rewrite insert_app_r_alt by lia; by rewrite Nat.sub_diag).
    change (<[0%nat := b]> (a :: <[length l3 := a]> (l3 ++ b :: l4))) with (b :: <[length l3 := a]> (l3 ++ b :: l4)). rewrite Ei.
    apply Permutation_app_head. rewrite <-!Permutation_middle. apply Permutation_swap. }
  destruct (Nat.lt_trichotomy i j) as [H|[->|H]]; [by apply Hlt | |].
  - unfold swap. destruct (h !! j) as [b|] eqn:E; [|done]. by rewrite list_insert_insert_eq, list_insert_id.
  - rewrite <-(Hlt j i H) at 2. unfold swap. destruct (h !! i) as [a|] eqn:Ei, (h !! j) as [b|] eqn:Ej; try done.
    by rewrite list_insert_insert_ne by lia.
Qed.

(* ------------------------------------------------------------------ *)
(** * Sifting *)

(** Down from [x]: every edge but those out of [x] holds, and the parent of [x] is not above
    its children. *)
Definition down_at (lo x : nat) (h : list HeapNode) : Prop :=
  (forall i j, (lo <= i)%nat -> i <> x -> edge_ok h i j) /\
  forall p c, (lo <= p)%nat -> child p x -> child x c -> (c < length h)%nat -> gen_at h p <= gen_at h c.

Lemma smaller_child_spec h x :
  let s := smaller_child h x in
  (s = x /\ forall c, child x c -> (c < length h)%nat -> gen_at h x <= gen_at h c) \/
  (child x s /\ (s < length h)%nat /\ gen_at h s < gen_at h x /\ forall c, child x c -> (c < length h)%nat -> gen_at h s <= gen_at h c).
Proof.
  unfold smaller_child. remember (2 * x + 1)%nat as l eqn:El. cbv zeta.
  assert (forall c, child x c <-> c = l \/ c = S l) as Hc by (intros c; unfold child; lia).
  destruct (Nat.ltb_spec l (length h)), (Z.ltb_spec (gen_at h l) (gen_at h x)), (Nat.ltb_spec (S l) (length h)); cbn [andb]; try lia;
    repeat match goal with |- context [?a <? ?b] => destruct (Z.ltb_spec a b) end;
    first [left; split; [done|]; intros c [->| ->]%Hc Hl; lia
          |right; split_and!; [apply Hc; auto | lia | lia|]; intros c [->| ->]%Hc Hl; lia].
Qed.

Lemma sift_down_perm fuel : forall h x, sift_down fuel h x ≡ₚ h.
Proof.
  induction fuel as [|fuel IH]; intros h x; cbn [sift_down]; [done|]. destruct (_ =? _)%nat; [done|]. rewrite IH. apply swap_perm.
Qed.
Lemma sift_down_ok lo fuel : forall h x, (lo <= x)%nat -> (length h <= fuel + x)%nat -> down_at lo x h -> heap_from lo (sift_down fuel h x).
Proof.
  induction fuel as [|fuel IH]; intros h x Hlo Hf [He Hp]; cbn [sift_down].
  { intros i j Hi Hc Hj. destruct (decide (i = x)) as [->|Hx]; [apply child_lt in Hc; lia | by apply He]. }
  destruct (smaller_child_spec h x) as [[-> Hx]|(Hs & Hsl & Hlt & Hmin)].
  { rewrite Nat.eqb_refl. intros i j Hi Hc Hj. destruct (decide (i = x)) as [->|Hn]; [by apply Hx | by apply He]. }
  set (s := smaller_child h x) in *. pose proof (child_lt _ _ Hs) as Hxs. rewrite (proj2 (Nat.eqb_neq s x)) by lia.
  apply IH; [lia | rewrite length_swap; lia|]. assert (forall k, gen_at (swap h x s) k = if decide (k = x) then gen_at h s else if decide (k = s) then gen_at h x else gen_at h k) as Hg.
  { intros k. apply gen_swap; lia. }
  split.
  - intros i j Hi His Hc Hj. rewrite length_swap in Hj. rewrite !Hg. pose proof (child_lt _ _ Hc) as Hij.
    destruct (decide (i = x)) as [->|Hix].
    + rewrite (decide_False (P := j = x)) by lia. destruct (decide (j = s)); [lia | by apply Hmin].
    + rewrite (decide_False (P := i = s)) by done. destruct (decide (j = x)) as [->|Hjx]; [by apply Hp|].
      destruct (decide (j = s)) as [->|Hjs]; [|by apply He]. apply child_parent in Hc, Hs. congruence.
  - intros p c Hp' Hps Hsc Hcl. rewrite length_swap in Hcl. assert (p = x) as -> by (apply child_parent in Hps, Hs; congruence).
    rewrite !Hg. rewrite decide_True by done. pose proof (child_lt _ _ Hsc). rewrite !decide_False by lia. apply He; [lia | lia | done | done].
Qed.

(** Up from [x]: every edge but the one into [x] holds. *)
Definition up_at (x : nat) (h : list HeapNode) : Prop :=
  (forall i j, j <> x -> edge_ok h i j) /\
  forall p c, child p x -> child x c -> (c < length h)%nat -> gen_at h p <= gen_at h c.
Lemma sift_up_perm fuel : forall h x, sift_up fuel h x ≡ₚ h.
Proof. induction fuel as [|fuel IH]; intros h [|x]; cbn [sift_up]; try done. destruct (_ <=? _); [done|]. rewrite IH. apply swap_perm. Qed.
Lemma sift_up_ok fuel : forall h x, (x <= fuel)%nat -> (x < length h)%nat -> up_at x h -> heap_ok (sift_up fuel h x).
Proof.
  induction fuel as [|fuel IH]; intros h x Hf Hx [He Hp].
  { intros i j _ Hc Hj. destruct (decide (j = x)) as [->|Hn]; [apply child_lt in Hc; lia | by apply He]. }
  destruct x as [|x']; cbn [sift_up].
  { intros i j _ Hc Hj. destruct (decide (j = 0%nat)) as [->|Hn]; [apply child_lt in Hc; lia | by apply He]. }
  set (x := S x') in *. change ((x - 1) / 2)%nat with (parent x). pose proof (parent_child x ltac:(lia)) as Hpx. set (p := parent x) in *.
  pose proof (child_lt _ _ Hpx) as Hlt. destruct (Z.leb_spec (gen_at h p) (gen_at h x)) as [Hle|Hgt].
  { intros i j _ Hc Hj. destruct (decide (j = x)) as [->|Hn]; [|by apply He]. by rewrite (child_parent _ _ Hc). }
  apply IH; [lia | rewrite length_swap; lia|]. assert (forall k, gen_at (swap h p x) k = if decide (k = p) then gen_at h x else if decide (k = x) then gen_at h p else gen_at h k) as Hg.
  { intros k. apply gen_swap; lia. }
  split.
  - intros i j Hjp Hc Hj. rewrite length_swap in Hj. rewrite !Hg. pose proof (child_lt _ _ Hc). rewrite (decide_False (P := j = p)) by done.
    destruct (decide (i = p)) as [->|Hip].
    + destruct (decide (j = x)) as [->|Hjx]; [lia|]. pose proof (He p j Hjx Hc Hj). lia.
    + destruct (decide (j = x)) as [->|Hjx]; [by rewrite (child_parent _ _ Hc) in Hip|].
      destruct (decide (i = x)) as [->|Hix]; [by apply Hp | by apply He].
  - intros q c Hq Hc Hcl. rewrite length_swap in Hcl. pose proof (child_lt _ _ Hq). pose proof (child_lt _ _ Hc). rewrite !Hg.
    rewrite !(decide_False (P := q = _)), (decide_False (P := c = p)) by lia.
    pose proof (He q p ltac:(lia) Hq ltac:(lia)). destruct (decide (c = x)) as [->|Hcx]; [done|]. pose proof (He p c Hcx Hc Hcl). lia.
Qed.

(* ------------------------------------------------------------------ *)
(** * Push, pop, heapify *)

Lemma gen_push_perm h g k : heap_push h g k ≡ₚ h ++ [mkHeapNode g k].
Proof. apply sift_up_perm. Qed.
Lemma gen_app_l h h' i : (i < length h)%nat -> gen_at (h ++ h') i = gen_at h i.
Proof. intros Hi. unfold gen_at. by rewrite lookup_app_l. Qed.
Lemma heap_push_ok h g k : heap_ok h -> heap_ok (heap_push h g k).
Proof.
  intros Hh. apply sift_up_ok; [done | rewrite length_app; cbn; lia|]. split.
  - intros i j Hj Hc Hl. rewrite length_app in Hl. cbn in Hl. pose proof (child_lt _ _ Hc). rewrite !gen_app_l by lia. apply Hh; [lia | done | lia].
  - intros p c _ Hc Hl. rewrite length_app in Hl. cbn in Hl. apply child_lt in Hc. lia.
Qed.
Lemma heap_root h i : heap_ok h -> (i < length h)%nat -> gen_at h 0 <= gen_at h i.
Proof.
  intros Hh. induction i as [i IH] using lt_wf_ind. intros Hi. destruct (decide (i = 0%nat)) as [->|Hn]; [done|].
  pose proof (parent_child i ltac:(lia)) as Hp. pose proof (child_lt _ _ Hp). pose proof (IH (parent i) ltac:(lia) ltac:(lia)).
  pose proof (Hh (parent i) i ltac:(lia) Hp Hi). lia.
Qed.
Lemma heap_pop_spec h :
  heap_ok h ->
  match heap_pop h with
  | None => h = []
  | Some (n, h') => n :: h' ≡ₚ h /\ heap_ok h' /\ forall m, m ∈ h -> hn_gen n <= hn_gen m
  end.
Proof.
  intros Hh. assert (forall root rest, h = root :: rest -> forall m, m ∈ h -> hn_gen root <= hn_gen m) as Hmin.
  { intros root rest -> m [i Hm]%list_elem_of_lookup. pose proof (heap_root _ i Hh (lookup_lt_Some _ _ _ Hm)) as H. unfold gen_at in H. by rewrite Hm in H. }
  unfold heap_pop. destruct (last h) as [z|] eqn:El; [|by apply last_None in El].
  apply last_Some in El as [rest ->]. rewrite removelast_last. destruct rest as [|root rest]; [cbn; split_and!; [done | intros i j _ _ Hj; cbn in Hj; lia | by apply (Hmin z [])]|].
  set (h0 := <[0%nat := z]> (root :: rest)). assert (h0 = z :: rest) as E0 by done. split_and!.
  - rewrite sift_down_perm, E0. rewrite <-Permutation_cons_append. apply Permutation_swap.
  - apply sift_down_ok; [lia | rewrite E0; cbn; lia|]. rewrite E0. split.
    + intros i j _ Hi Hc Hj. pose proof (child_lt _ _ Hc). cbn [length] in Hj.
      assert (gen_at ((root :: rest) ++ [z]) i <= gen_at ((root :: rest) ++ [z]) j) as Hle by (apply Hh; [lia | done | rewrite length_app; cbn; lia]).
      rewrite !gen_app_l in Hle by (cbn; lia). by destruct i as [|i], j as [|j]; try lia.
    + intros p c _ Hp _ _. apply child_lt in Hp. lia.
  - by apply (Hmin root (rest ++ [z])).
Qed.

Lemma heapify_perm h : heapify h ≡ₚ h.
Proof.
  unfold heapify. generalize (rev (seq 0 (length h / 2))). intros l. revert h. induction l as [|i l IH]; intros h; cbn; [done|].
  rewrite IH. apply sift_down_perm.
Qed.
Lemma heapify_ok h : heap_ok (heapify h).
Proof.
  unfold heapify. assert (forall n h, heap_from n h -> heap_ok (fold_left (fun h i => sift_down (length h) h i) (rev (seq 0 n)) h)) as H.
  { clear h. induction n as [|n IH]; intros h Hh; [done|]. rewrite seq_S, rev_app_distr. cbn. apply IH. apply sift_down_ok; [lia | lia|]. split.
    - intros i j Hi Hn. apply Hh. lia.
    - intros p c Hp Hc. apply child_lt in Hc. lia. }
  apply H. intros i j Hi Hc Hj. exfalso. pose proof (Nat.div_mod_eq (length h) 2). pose proof (Nat.mod_upper_bound (length h) 2). unfold child in Hc. lia.
Qed.
