(* ===== verification/CacheProps.v ===== *)
(** The block cache is an LRU: bounded, and answering as a list ordered by recency; and the
    reads through it answer what the files answer. *)

From stdpp Require Import gmap.
From S2P Require Import Prelude Cursor Format Identity Segment SegmentProps Cache.

(* ------------------------------------------------------------------ *)
(** * Bytes held *)

Definition total (m : gmap CacheKey Entry) : Z := map_fold (fun _ e acc => zlen (en_bytes e) + acc) 0 m.
Lemma total_empty : total ∅ = 0.
Proof. apply map_fold_empty. Qed.
Lemma total_insert m k e : m !! k = None -> total (<[k := e]> m) = zlen (en_bytes e) + total m.
Proof. intros Hk. unfold total. rewrite map_fold_insert_L; [done | intros; lia | done]. Qed.
Lemma total_delete m k e : m !! k = Some e -> total (base.delete k m) = total m - zlen (en_bytes e).
Proof.
  intros Hk. assert (total m = zlen (en_bytes e) + total (base.delete k m)) as H; [|lia].
  rewrite <-(total_insert (base.delete k m) k e) by apply lookup_delete_eq. by rewrite insert_delete_id.
Qed.
Lemma total_nonneg m : 0 <= total m.
Proof.
  induction m as [|k e m Hk IH] using map_ind; [by rewrite total_empty|]. rewrite total_insert by done. pose proof (zlen_nonneg (en_bytes e)). lia.
Qed.

(* ------------------------------------------------------------------ *)
(** * Eviction *)

(** What holds between the operations and inside them: the byte count, the heap order, and a
    heap node for every live key. *)
Record cache_ok (st : CacheState) : Prop := {
  co_bytes : cs_bytes st = total (cs_entries st);
  co_heap : heap_ok (cs_heap st);
  co_nodes : forall k e, cs_entries st !! k = Some e -> exists n, n ∈ cs_heap st /\ hn_key n = k }.

(** The nodes of keys touched since the push; each is popped once more. *)
Definition stale (entries : gmap CacheKey Entry) (n : HeapNode) : Prop := exists e, entries !! hn_key n = Some e /\ en_gen e <> hn_gen n.
#[local] Instance stale_dec entries n : Decision (stale entries n).
Proof.
  unfold stale. destruct (entries !! hn_key n) as [e|]; [|right; by intros (? & ? & _)].
  destruct (decide (en_gen e = hn_gen n)) as [E|E]; [right; by intros (? & [= <-] & ?) | left; eauto].
Defined.
Definition measure (st : CacheState) : nat := length (cs_heap st) + length (filter (stale (cs_entries st)) (cs_heap st)).

Lemma evict_step_none st : cache_ok st -> evict_step st = None -> cs_entries st = ∅.
Proof.
  intros [_ Hh Hn] E. unfold evict_step in E. pose proof (heap_pop_spec _ Hh) as Hp. destruct (heap_pop (cs_heap st)) as [[n h]|].
  - destruct (cs_entries st !! hn_key n) as [e|]; [|done]. by destruct (en_gen e =? hn_gen n).
  - apply map_empty. intros k. destruct (cs_entries st !! k) as [e|] eqn:Ek; [|done]. destruct (Hn k e Ek) as (n & Hin & _). rewrite Hp in Hin.
    by apply not_elem_of_nil in Hin.
Qed.
Lemma stale_fewer m m' h :
  (forall n, stale m n -> stale m' n) -> (length (filter (stale m) h) <= length (filter (stale m') h))%nat.
Proof.
  intros Hs. induction h as [|n h IH]; [done|]. rewrite !filter_cons. destruct (decide (stale m n)) as [Hn|Hn].
  - rewrite decide_True by auto. cbn [length]. lia.
  - destruct (decide (stale m' n)); cbn [length]; lia.
Qed.
Lemma evict_step_ok st st' b : cache_ok st -> evict_step st = Some (st', b) -> cache_ok st' /\ (measure st' < measure st)%nat.
Proof.
  intros [Hb Hh Hn]. unfold evict_step. pose proof (heap_pop_spec _ Hh) as Hp. destruct (heap_pop (cs_heap st)) as [[n h]|]; [|done].
  destruct Hp as (Hperm & Hh' & _). unfold measure. rewrite <-Hperm. assert (length (n :: h) = S (length h)) as El by done. rewrite El.
  assert (forall k e', cs_entries st !! k = Some e' -> hn_key n <> k -> exists m, m ∈ h /\ hn_key m = k) as Hrest.
  { intros k e' E Hk. destruct (Hn k e' E) as (m & Hm & Em). exists m. split; [|done]. rewrite <-Hperm in Hm. apply elem_of_cons in Hm as [->|]; [congruence | done]. }
  destruct (cs_entries st !! hn_key n) as [e|] eqn:Ek.
  - destruct (Z.eqb_spec (en_gen e) (hn_gen n)) as [Eg|Eg]; intros [= <- _]; cbn [cs_entries cs_heap upd_heap].
    + split; [split; cbn; [by rewrite Hb, (total_delete _ _ e) | done|]|].
      * intros k e' [Hk E]%lookup_delete_Some. by eapply Hrest.
      * rewrite (filter_cons_False _ n) by (intros (e' & E & Hne); congruence).
        pose proof (stale_fewer (base.delete (hn_key n) (cs_entries st)) (cs_entries st) h ltac:(intros m (e' & [_ E]%lookup_delete_Some & Hne); by exists e')). lia.
    + split; [split; cbn; [done | by apply heap_push_ok|]|].
      * intros k e' E. setoid_rewrite gen_push_perm. destruct (decide (hn_key n = k)) as [<-|Hk]; [exists (mkHeapNode (en_gen e) (hn_key n)); set_solver|].
        destruct (Hrest k e' E Hk) as (m & Hm & Em). exists m. set_solver.
      * rewrite !gen_push_perm, filter_app, !length_app, (filter_cons_True _ n) by (by exists e). rewrite (filter_cons_False _ (mkHeapNode _ _)), filter_nil; [cbn [length]; lia|].
        intros (e' & E & Hne). cbn in *. congruence.
  - intros [= <- _]. cbn [cs_entries cs_heap upd_heap]. split; [split; cbn; [done | done|]|].
    + intros k e' E. eapply Hrest; [exact E|]. intros <-. congruence.
    + rewrite (filter_cons_False _ n) by (intros (e' & E & Hne); congruence). lia.
Qed.

(** The loop runs to the end: something preserved by every eviction holds there, and the
    bytes fit or nothing is left. *)
Lemma evict_loop_end (P : CacheState -> Prop) cap needed :
  (forall st st' b, cache_ok st -> cap < cs_bytes st + needed -> evict_step st = Some (st', b) -> P st -> P st') ->
  forall fuel st n st' n', cache_ok st -> (measure st < fuel)%nat -> P st -> evict_loop fuel cap needed st n = (st', n') ->
  cache_ok st' /\ P st' /\ (cs_bytes st' + needed <= cap \/ cs_entries st' = ∅).
Proof.
  intros HP. induction fuel as [|fuel IH]; intros st n st' n' Hok Hm Hs E; [lia|]. cbn [evict_loop] in E.
  destruct (Z.ltb_spec cap (cs_bytes st + needed)) as [Hlt|Hge]; [|injection E as <- _; auto].
  destruct (evict_step st) as [[st1 b]|] eqn:Es; [|injection E as <- _; split_and!; [done | done | right; by apply evict_step_none]].
  destruct (evict_step_ok _ _ _ Hok Es) as [Hok1 Hm1]. eapply IH; [exact Hok1 | lia | exact (HP st st1 b Hok Hlt Es Hs) | exact E].
Qed.
Lemma evict_for_end (P : CacheState -> Prop) cap needed st st' n :
  (forall st st' b, cache_ok st -> cap < cs_bytes st + needed -> evict_step st = Some (st', b) -> P st -> P st') ->
  cache_ok st -> P st -> needed <= cap -> evict_for cap needed st = (st', n) -> cache_ok st' /\ P st' /\ cs_bytes st' + needed <= cap.
Proof.
  intros HP Hok Hs Hn E. eapply (evict_loop_end P) in E as (H1 & H2 & H3); [|done | done | | done].
  - split_and!; [done | done|]. destruct H3 as [|H3]; [done|]. rewrite (co_bytes _ H1), H3, total_empty. lia.
  - unfold measure. pose proof (length_filter (stale (cs_entries st)) (cs_heap st)). lia.
Qed.

(* ------------------------------------------------------------------ *)
(** * The operations *)

(** The state between operations. *)
Record cache_inv (c : BlockCache) : Prop := {
  cv_ok : cache_ok (bc_state c);
  cv_cap : 0 <= cs_bytes (bc_state c) <= bc_cap c;
  cv_heap : (length (cs_heap (bc_state c)) <= 2 * size (cs_entries (bc_state c)))%nat }.

Lemma cache_new_inv cap : 0 <= cap -> cache_inv (cache_new cap).
Proof.
  intros Hc. split; cbn; [|done..]. split; cbn; [by rewrite total_empty | intros i j _ _ Hj; cbn in Hj; lia|].
  intros k e. by rewrite lookup_empty.
Qed.
Lemma total_update m k e g : m !! k = Some e -> total (<[k := mkEntry g (en_bytes e)]> m) = total m.
Proof.
  intros Hk. rewrite <-insert_delete_eq, total_insert by apply lookup_delete_eq. cbn. rewrite (total_delete m k e) by done. lia.
Qed.
Lemma cache_get_inv c id block : cache_inv c -> cache_inv (cache_get c id block).1.
Proof.
  intros [[H1 H2 H3] H4 H5]. unfold cache_get. destruct (cs_entries (bc_state c) !! (id, block)) as [e|] eqn:E; [|by split].
  split; cbn; [|done | by rewrite map_size_insert_Some by eauto].
  split; cbn; [by rewrite total_update | done|]. intros k e' [[<- _]|[_ Hk]]%lookup_insert_Some; [by eapply H3 | by eapply H3].
Qed.

(** [insert] in its steps: the old block of the key goes, room is made, the new one is
    stamped and pushed, and the heap is rebuilt when it outgrew the map. *)
Definition without (key : CacheKey) (st : CacheState) : CacheState :=
  match cs_entries st !! key with
  | Some old => mkCacheState (base.delete key (cs_entries st)) (cs_clock st) (cs_bytes st - zlen (en_bytes old)) (cs_scan_steps st) (cs_heap st)
  | None => st
  end.
Definition stamped (key : CacheKey) (raw : bytes) (st : CacheState) : CacheState :=
  let gen := (cs_clock st + 1) mod U64 in
  mkCacheState (<[key := mkEntry gen raw]> (cs_entries st)) gen (cs_bytes st + zlen raw) (cs_scan_steps st) (heap_push (cs_heap st) gen key).
Definition trimmed (st : CacheState) : CacheState :=
  if (2 * size (cs_entries st) <? length (cs_heap st))%nat then rebuild_heap st else st.

Lemma without_lookup key st : cs_entries (without key st) = base.delete key (cs_entries st).
Proof. unfold without. destruct (cs_entries st !! key) eqn:E; [done|]. by rewrite delete_id. Qed.
Lemma without_ok key st : cache_ok st -> cache_ok (without key st) /\ cs_clock (without key st) = cs_clock st /\ cs_heap (without key st) = cs_heap st.
Proof.
  intros [H1 H2 H3]. unfold without. destruct (cs_entries st !! key) as [old|] eqn:E; [|done]. split; [|done].
  split; cbn; [by rewrite H1, (total_delete _ _ old) | done|]. intros k e [_ Hk]%lookup_delete_Some. by eapply H3.
Qed.
Lemma stamped_ok key raw st : cache_ok st -> cs_entries st !! key = None -> cache_ok (stamped key raw st).
Proof.
  intros [H1 H2 H3] E. split; cbn; [rewrite total_insert by done; cbn; lia | by apply heap_push_ok|]. setoid_rewrite gen_push_perm.
  intros k e [[<- _]|[_ Hk]]%lookup_insert_Some; [eexists; split; [apply elem_of_app; right; by apply list_elem_of_singleton | done]|].
  destruct (H3 k e Hk) as (n & Hn & En). exists n. set_solver.
Qed.
Lemma rebuilt_nodes st n :
  n ∈ cs_heap (rebuild_heap st) <-> exists e, cs_entries st !! hn_key n = Some e /\ hn_gen n = en_gen e.
Proof.
  unfold rebuild_heap. cbn [cs_heap]. rewrite heapify_perm, list_elem_of_fmap. split.
  - intros ([k e] & -> & Hin%elem_of_map_to_list). cbn. eauto.
  - intros (e & Hk & Hg). exists (hn_key n, e). split; [destruct n; cbn in *; by subst | by apply elem_of_map_to_list].
Qed.
Lemma trimmed_ok st : cache_ok st -> cache_ok (trimmed st) /\ (length (cs_heap (trimmed st)) <= 2 * size (cs_entries (trimmed st)))%nat /\
  cs_entries (trimmed st) = cs_entries st /\ cs_bytes (trimmed st) = cs_bytes st /\ cs_clock (trimmed st) = cs_clock st.
Proof.
  intros [H1 H2 H3]. unfold trimmed. destruct (Nat.ltb_spec (2 * size (cs_entries st)) (length (cs_heap st))); [|by split_and!].
  split_and!; [|unfold rebuild_heap; cbn [cs_heap cs_entries]; rewrite heapify_perm, length_map, length_map_to_list; lia | done..].
  split; [done | apply heapify_ok|]. intros k e Hk. exists (mkHeapNode (en_gen e) k). split; [|done]. apply rebuilt_nodes. cbn. eauto.
Qed.

Lemma evict_keeps key cap needed st st' b :
  cache_ok st -> cap < cs_bytes st + needed -> evict_step st = Some (st', b) -> cs_entries st !! key = None -> cs_entries st' !! key = None.
Proof.
  intros _ _. unfold evict_step. destruct (heap_pop _) as [[n h]|]; [|done]. destruct (cs_entries st !! hn_key n) as [e|]; [|by intros [= <- _]].
  destruct (_ =? _); intros [= <- _]; [|done]. cbn. intros Hk. by apply lookup_delete_None; right.
Qed.
Lemma cache_insert_steps c id block raw :
  cache_insert c id block raw = if bc_cap c <? zlen raw then c else
    let '(st, n) := evict_for (bc_cap c) (zlen raw) (without (id, block) (bc_state c)) in
    mkBlockCache (bc_cap c) (trimmed (stamped (id, block) raw st)) (bc_evictions c + n) (bc_next_id c).
Proof. unfold cache_insert. destruct (bc_cap c <? zlen raw); [done|]. fold (without (id, block) (bc_state c)). by destruct (evict_for _ _ _). Qed.
Lemma cache_insert_inv c id block raw : cache_inv c -> cache_inv (cache_insert c id block raw).
Proof.
  intros [H1 H2 H3]. rewrite cache_insert_steps. destruct (Z.ltb_spec (bc_cap c) (zlen raw)) as [|Hr]; [by split|]. set (key := (id, block)).
  destruct (without_ok key _ H1) as (Hw & _ & _). destruct (evict_for _ _ _) as [st n] eqn:E.
  apply (evict_for_end (fun st => cs_entries st !! key = None)) in E as (H4 & H5 & H6);
    [|intros * ? ? ? ?; by eapply evict_keeps | done | rewrite without_lookup; apply lookup_delete_eq | done].
  pose proof (stamped_ok key raw st H4 H5) as H7. destruct (trimmed_ok _ H7) as (H8 & H9 & E1 & E2 & E3). split; cbn; [done | | done].
  rewrite E2. cbn. rewrite (co_bytes _ H4). pose proof (total_nonneg (cs_entries st)). pose proof (zlen_nonneg raw). rewrite (co_bytes _ H4) in H6. lia.
Qed.

(* ------------------------------------------------------------------ *)
(** * The reference: a list by recency *)

Abbreviation items := (list (CacheKey * bytes)).
Definition held_bytes (l : items) : Z := foldr (fun x acc => zlen x.2 + acc) 0 l.
Definition lru_without (key : CacheKey) (l : items) : items := filter (fun x => x.1 <> key) l.

(** Drop the least recently used, at the head, until [needed] more bytes fit. *)
Fixpoint lru_trim (cap needed : Z) (l : items) : items :=
  match l with
  | [] => []
  | x :: l' => if cap <? held_bytes l + needed then lru_trim cap needed l' else l
  end.
Definition lru_get (l : items) (key : CacheKey) : items * option bytes :=
  match list_find (fun x => x.1 = key) l with
  | None => (l, None)
  | Some (_, (_, bs)) => (lru_without key l ++ [(key, bs)], Some bs)
  end.
Definition lru_insert (cap : Z) (l : items) (key : CacheKey) (raw : bytes) : items :=
  if cap <? zlen raw then l else lru_trim cap (zlen raw) (lru_without key l) ++ [(key, raw)].

(** The cache holds the entries [l], oldest stamp first; every one has a node that is not
    newer than its stamp. *)
Abbreviation stamps := (list (CacheKey * Entry)).
Record lru_of (st : CacheState) (l : stamps) : Prop := {
  lr_map : cs_entries st = list_to_map l;
  lr_keys : NoDup (map fst l);
  lr_sorted : StronglySorted (fun x y => en_gen x.2 < en_gen y.2) l;
  lr_clock : forall x, x ∈ l -> 0 <= en_gen x.2 <= cs_clock st;
  lr_nodes : forall x, x ∈ l -> exists n, n ∈ cs_heap st /\ hn_key n = x.1 /\ hn_gen n <= en_gen x.2 }.
Definition contents (l : stamps) : items := map (fun x => (x.1, en_bytes x.2)) l.
Definition drop_key (key : CacheKey) (l : stamps) : stamps := filter (fun x => x.1 <> key) l.

Lemma total_stamps l : NoDup (map fst l) -> total (list_to_map l) = held_bytes (contents l).
Proof.
  induction l as [|[k e] l IH]; cbn [map fst]; intros Hn; [apply total_empty|]. apply NoDup_cons in Hn as [Hk Hn]. rewrite list_to_map_cons, total_insert.
  - cbn. by rewrite IH.
  - by apply not_elem_of_list_to_map_1.
Qed.
Lemma lru_lookup st l k e : lru_of st l -> cs_entries st !! k = Some e <-> (k, e) ∈ l.
Proof. intros [-> Hn _ _ _]. symmetry. by apply elem_of_list_to_map. Qed.
Lemma elem_drop_key key l x : x ∈ drop_key key l <-> x ∈ l /\ x.1 <> key.
Proof. unfold drop_key. rewrite list_elem_of_filter. tauto. Qed.
Lemma drop_key_keys key l : NoDup (map fst l) -> NoDup (map fst (drop_key key l)) /\ key ∉ map fst (drop_key key l).
Proof.
  intros Hn. split.
  - induction l as [|x l IH]; [done|]. cbn [map] in Hn. apply NoDup_cons in Hn as [Hx Hn]. unfold drop_key. rewrite filter_cons.
    destruct (decide _); [|by apply IH]. cbn [map]. apply NoDup_cons. split; [|by apply IH]. intros (y & E & Hy)%list_elem_of_fmap.
    apply Hx, list_elem_of_fmap. exists y. split; [done|]. by apply list_elem_of_filter in Hy as [_ ?].
  - intros (y & -> & Hy)%list_elem_of_fmap. by apply elem_drop_key in Hy as [_ ?].
Qed.
Lemma drop_key_map key l : NoDup (map fst l) -> (list_to_map (drop_key key l) : gmap CacheKey Entry) = base.delete key (list_to_map l).
Proof.
  intros Hn. destruct (drop_key_keys key l Hn) as [Hn' Hk]. apply map_eq. intros k. apply option_eq. intros e.
  rewrite lookup_delete_Some, <-!elem_of_list_to_map by done. rewrite elem_drop_key. cbn. split; [intros [? ?]; by split | intros [? ?]; by split].
Qed.
Lemma contents_drop key l : contents (drop_key key l) = lru_without key (contents l).
Proof.
  unfold contents, drop_key, lru_without. induction l as [|x l IH]; [done|]. cbn [map]. rewrite !filter_cons. cbn [fst]. destruct (decide _); cbn [map]; by rewrite IH.
Qed.
Lemma contents_find key l : NoDup (map fst l) -> forall e, (key, e) ∈ l ->
  exists i, list_find (fun x => x.1 = key) (contents l) = Some (i, (key, en_bytes e)).
Proof.
  intros Hn e He. destruct (list_find (fun x => x.1 = key) (contents l)) as [[i [k bs]]|] eqn:E.
  - exists i. apply list_find_Some in E as (Hi & Ek & _). cbn in Ek. subst k. unfold contents in Hi. rewrite list_lookup_fmap in Hi.
    destruct (l !! i) as [[k' e']|] eqn:Ei; [|done]. cbn in Hi. injection Hi as -> <-. assert (e' = e) as ->; [|done].
    apply list_elem_of_lookup_2 in Ei. apply (elem_of_list_to_map (M := gmap CacheKey)) in Ei, He; [|done..]. congruence.
  - apply list_find_None in E. eapply Forall_forall in E; [|apply list_elem_of_fmap; exists (key, e); split; [reflexivity | exact He]]. by destruct E.
Qed.
Lemma contents_find_none key l : (forall e, (key, e) ∉ l) -> list_find (fun x => x.1 = key) (contents l) = None.
Proof.
  intros Hn. apply list_find_None, Forall_forall. intros x (y & -> & Hy)%list_elem_of_fmap. cbn. intros E. destruct y as [k e]. cbn in E. subst. by apply (Hn e).
Qed.

(** The newest entry. *)
Lemma lru_append st st' l key g raw :
  lru_of st l -> key ∉ map fst l -> cs_entries st' = <[key := mkEntry g raw]> (cs_entries st) -> cs_clock st' = g -> cs_clock st < g -> 0 <= g ->
  (forall n, n ∈ cs_heap st -> hn_key n <> key -> n ∈ cs_heap st') -> (exists n, n ∈ cs_heap st' /\ hn_key n = key /\ hn_gen n <= g) ->
  lru_of st' (l ++ [(key, mkEntry g raw)]).
Proof.
  intros [H1 H2 H3 H4 H5] Hk Em Ec Hc Hg Hh (n & Hn1 & Hn2 & Hn3). assert (forall x, x ∈ l -> x.1 <> key) as Hx.
  { intros x Hx <-. apply Hk, list_elem_of_fmap. by exists x. }
  split.
  - rewrite Em, H1. symmetry. by apply list_to_map_snoc.
  - rewrite map_app. apply NoDup_app. split_and!; [done | set_solver | apply NoDup_singleton].
  - apply sorted_snoc; [done|]. apply Forall_forall. intros x Hin. cbn. specialize (H4 x Hin). lia.
  - intros x [Hin| ->%list_elem_of_singleton]%elem_of_app; [specialize (H4 x Hin); lia | cbn; lia].
  - intros x [Hin| ->%list_elem_of_singleton]%elem_of_app; [|by exists n]. destruct (H5 x Hin) as (m & M1 & M2 & M3).
    exists m. split_and!; [apply Hh; [done|]; rewrite M2; by apply Hx | done | done].
Qed.

(** Without a key. *)
Lemma lru_drop st l key : lru_of st l -> lru_of (without key st) (drop_key key l).
Proof.
  intros [H1 H2 H3 H4 H5]. split.
  - by rewrite without_lookup, drop_key_map, H1.
  - by apply drop_key_keys.
  - by apply sorted_filter.
  - intros x [Hx _]%elem_drop_key. unfold without. destruct (cs_entries st !! key); by apply H4.
  - intros x [Hx _]%elem_drop_key. unfold without. destruct (cs_entries st !! key); by apply H5.
Qed.

(** An iteration of the eviction loop drops nothing, or the least recently used. *)
Lemma lru_evict st l st' b :
  cache_ok st -> lru_of st l -> evict_step st = Some (st', b) ->
  cs_clock st' = cs_clock st /\ (lru_of st' l \/ exists x l', l = x :: l' /\ lru_of st' l').
Proof.
  intros Hok Hl. pose proof Hl as [H1 H2 H3 H4 H5]. unfold evict_step. pose proof (heap_pop_spec _ (co_heap _ Hok)) as Hp.
  destruct (heap_pop (cs_heap st)) as [[n h]|]; [|done]. destruct Hp as (Hperm & _ & Hmin).
  assert (forall x, x ∈ l -> x.1 <> hn_key n -> exists m, m ∈ h /\ hn_key m = x.1 /\ hn_gen m <= en_gen x.2) as Hrest.
  { intros x Hx Hk. destruct (H5 x Hx) as (m & M1 & M2 & M3). exists m. split_and!; [|done|done]. rewrite <-Hperm in M1.
    apply elem_of_cons in M1 as [->|]; [congruence | done]. }
  destruct (cs_entries st !! hn_key n) as [e|] eqn:Ek.
  - pose proof (proj1 (lru_lookup st l _ _ Hl) Ek) as He. destruct (Z.eqb_spec (en_gen e) (hn_gen n)) as [Eg|Eg]; intros [= <- _]; (split; [done|]).
    + right. destruct l as [|x l]; [by apply not_elem_of_nil in He|]. exists x, l. split; [done|].
      apply StronglySorted_inv in H3 as [Hs Hx]. cbn [map] in H2. apply NoDup_cons in H2 as [Hxk Hn]. destruct (H5 x ltac:(set_solver)) as (m & M1 & M2 & M3).
      assert (x = (hn_key n, e)) as ->.
      { apply elem_of_cons in He as [->|He]; [done|]. eapply Forall_forall in Hx; [|exact He]. cbn in Hx. specialize (Hmin m M1). lia. }
      cbn [fst] in *. split; cbn; [|done | done | intros y Hy; apply H4; set_solver|].
      * rewrite H1, list_to_map_cons, delete_insert_id; [done | by apply not_elem_of_list_to_map_1].
      * intros y Hy. apply Hrest; [set_solver|]. intros E. apply Hxk. rewrite <-E. apply list_elem_of_fmap. by exists y.
    + left. split; cbn; try done. intros x Hx. setoid_rewrite gen_push_perm. destruct (decide (x.1 = hn_key n)) as [E|E].
      * exists (mkHeapNode (en_gen e) (hn_key n)). split_and!; [set_solver | done|]. cbn. destruct x as [k e']. cbn in *. subst k.
        apply (lru_lookup st l) in Hx; [|done]. assert (e' = e) as -> by congruence. done.
      * destruct (Hrest x Hx E) as (m & ? & ? & ?). exists m. set_solver.
  - intros [= <- _]. split; [done|]. left. split; cbn; try done. intros x Hx. apply Hrest; [done|]. intros E. destruct x as [k e']. cbn in E. subst k.
    apply (lru_lookup st l) in Hx; [|done]. congruence.
Qed.
Lemma lru_bytes st l : cache_ok st -> lru_of st l -> cs_bytes st = held_bytes (contents l).
Proof. intros Hok [H1 H2 _ _ _]. rewrite (co_bytes _ Hok), H1. by apply total_stamps. Qed.

Lemma lru_evict_for st l cap needed key st' n :
  cache_ok st -> lru_of st l -> key ∉ map fst l -> needed <= cap -> evict_for cap needed st = (st', n) ->
  cache_ok st' /\ cs_clock st' = cs_clock st /\ exists l', lru_of st' l' /\ key ∉ map fst l' /\ contents l' = lru_trim cap needed (contents l).
Proof.
  intros Hok Hl Hk Hn E. set (target := lru_trim cap needed (contents l)).
  set (P := fun s => cs_clock s = cs_clock st /\ exists l', lru_of s l' /\ key ∉ map fst l' /\ lru_trim cap needed (contents l') = target).
  assert (forall s s' b, cache_ok s -> cap < cs_bytes s + needed -> evict_step s = Some (s', b) -> P s -> P s') as HP.
  { intros s s' b Hs Hlt Hev (Ec & l' & Hl' & Hk' & Et). destruct (lru_evict s l' s' b Hs Hl' Hev) as [Ec' [Hl1|(x & l1 & -> & Hl1)]].
    - split; [congruence | by exists l'].
    - split; [congruence|]. exists l1. split_and!; [done | set_solver|]. rewrite <-Et. rewrite (lru_bytes _ _ Hs Hl') in Hlt.
      change (contents (x :: l1)) with ((x.1, en_bytes x.2) :: contents l1) in *. cbn [lru_trim]. by rewrite (proj2 (Z.ltb_lt _ _)) by lia. }
  assert (P st) as HPst by (split; [done | by exists l]).
  destruct (evict_for_end P cap needed st st' n HP Hok HPst Hn E) as (Hok' & (Ec & l' & Hl' & Hk' & Et) & Hb).
  split_and!; [done | done|]. exists l'. split_and!; [done | done|]. rewrite <-Et. rewrite (lru_bytes _ _ Hok' Hl') in Hb. destruct l' as [|x l']; [done|].
  change (contents (x :: l')) with ((x.1, en_bytes x.2) :: contents l') in *. cbn [lru_trim]. by rewrite (proj2 (Z.ltb_ge _ _)) by lia.
Qed.

(** [get] and [insert] are those of the reference, as long as the clock does not wrap. *)
Lemma lru_get_ok c l id block :
  lru_of (bc_state c) l -> 0 <= cs_clock (bc_state c) -> cs_clock (bc_state c) + 1 < U64 -> let r := cache_get c id block in
  (exists l', lru_of (bc_state r.1) l' /\ lru_get (contents l) (id, block) = (contents l', r.2)) /\
  bc_cap r.1 = bc_cap c /\ cs_clock (bc_state c) <= cs_clock (bc_state r.1) <= cs_clock (bc_state c) + 1.
Proof.
  intros Hl H0 Hu r. unfold r, cache_get, lru_get. destruct (cs_entries (bc_state c) !! (id, block)) as [e|] eqn:E; cbn [fst snd].
  - pose proof (proj1 (lru_lookup _ _ _ _ Hl) E) as He. destruct (contents_find _ _ (lr_keys _ _ Hl) _ He) as [i ->].
    rewrite Z.mod_small by lia. set (g := cs_clock (bc_state c) + 1). split; [|cbn; lia]. exists (drop_key (id, block) l ++ [((id, block), mkEntry g (en_bytes e))]). split.
    + pose proof (lru_drop _ _ (id, block) Hl) as Hd. destruct (drop_key_keys (id, block) l (lr_keys _ _ Hl)) as [_ Hk].
      assert (cs_clock (without (id, block) (bc_state c)) = cs_clock (bc_state c) /\ cs_heap (without (id, block) (bc_state c)) = cs_heap (bc_state c)) as [Ec Eh]
        by (unfold without; by destruct (cs_entries _ !! _)).
      apply (lru_append (without (id, block) (bc_state c))); cbn [cs_entries cs_clock cs_heap bc_state]; try done.
      * by rewrite without_lookup, insert_delete_eq.
      * rewrite Ec. lia.
      * lia.
      * intros n Hn _. by rewrite Eh in Hn.
      * destruct (lr_nodes _ _ Hl _ He) as (n & N1 & N2 & N3). cbn in N2, N3. destruct (lr_clock _ _ Hl _ He). exists n. split_and!; [done | done | cbn in *; lia].
    + unfold contents. rewrite map_app. cbn. by rewrite <-contents_drop.
  - split; [|cbn; lia]. exists l. split; [done|]. rewrite contents_find_none; [done|]. intros e He. apply (lru_lookup _ _ _ _ Hl) in He. congruence.
Qed.

Lemma lru_trimmed st l : lru_of st l -> lru_of (trimmed st) l.
Proof.
  intros Hl. pose proof Hl as [H1 H2 H3 H4 H5]. unfold trimmed. destruct (_ <? _)%nat; [|done]. split; try done.
  intros [k e] Hx. exists (mkHeapNode (en_gen e) k). split_and!; [|done | done]. apply rebuilt_nodes. exists e. split; [|done]. by apply (lru_lookup _ _ _ _ Hl).
Qed.
Lemma lru_insert_ok c l id block raw :
  cache_inv c -> lru_of (bc_state c) l -> 0 <= cs_clock (bc_state c) -> cs_clock (bc_state c) + 1 < U64 -> let c' := cache_insert c id block raw in
  (exists l', lru_of (bc_state c') l' /\ lru_insert (bc_cap c) (contents l) (id, block) raw = contents l') /\
  bc_cap c' = bc_cap c /\ cs_clock (bc_state c) <= cs_clock (bc_state c') <= cs_clock (bc_state c) + 1.
Proof.
  intros Hi Hl H0 Hu c'. unfold c', lru_insert. rewrite cache_insert_steps. destruct (Z.ltb_spec (bc_cap c) (zlen raw)) as [|Hr]; [split; [by exists l | lia]|].
  set (key := (id, block)) in *. destruct (without_ok key _ (cv_ok _ Hi)) as (Hw & Ec & _). destruct (evict_for _ _ _) as [st n] eqn:E.
  destruct (drop_key_keys key l (lr_keys _ _ Hl)) as [_ Hk].
  destruct (lru_evict_for _ _ _ _ key _ _ Hw (lru_drop _ _ key Hl) Hk Hr E) as (Hok & Ec' & l' & Hl' & Hk' & Et). rewrite <-contents_drop, <-Et.
  assert (cs_entries st !! key = None) as Hnone.
  { destruct (cs_entries st !! key) as [e|] eqn:Ee; [|done]. apply (lru_lookup _ _ _ _ Hl') in Ee. destruct Hk'. apply list_elem_of_fmap. by exists (key, e). }
  destruct (trimmed_ok _ (stamped_ok key raw st Hok Hnone)) as (_ & _ & _ & _ & Ect). cbn [bc_cap bc_state]. rewrite Ect. cbn [stamped cs_clock].
  assert ((cs_clock st + 1) mod U64 = cs_clock (bc_state c) + 1) as Eg by (rewrite Ec', Ec; by apply Z.mod_small; lia). split; [|rewrite Eg; lia].
  exists (l' ++ [(key, mkEntry (cs_clock (bc_state c) + 1) raw)]). split.
  - apply lru_trimmed, (lru_append st); cbn [stamped cs_entries cs_clock cs_heap]; rewrite ?Eg; try done; try lia.
    + intros m Hm _. rewrite gen_push_perm. set_solver.
    + eexists. rewrite gen_push_perm. split; [apply elem_of_app; right; by apply list_elem_of_singleton | done].
  - unfold contents. by rewrite map_app.
Qed.

(* ------------------------------------------------------------------ *)
(** * Sequences of operations *)

Inductive CacheOp : Type :=
  | CacheGet (id block : Z)
  | CacheInsert (id block : Z) (raw : bytes).
Definition cache_op (c : BlockCache) (op : CacheOp) : BlockCache * option bytes :=
  match op with CacheGet id block => cache_get c id block | CacheInsert id block raw => (cache_insert c id block raw, None) end.
Definition lru_op (cap : Z) (l : items) (op : CacheOp) : items * option bytes :=
  match op with CacheGet id block => lru_get l (id, block) | CacheInsert id block raw => (lru_insert cap l (id, block) raw, None) end.
Fixpoint outcomes {S} (step : S -> CacheOp -> S * option bytes) (s : S) (ops : list CacheOp) : S * list (option bytes) :=
  match ops with
  | [] => (s, [])
  | op :: ops => let '(s, r) := step s op in let '(s, rs) := outcomes step s ops in (s, r :: rs)
  end.

Lemma cache_op_inv c op : cache_inv c -> cache_inv (cache_op c op).1.
Proof. destruct op; cbn; [apply cache_get_inv | apply cache_insert_inv]. Qed.
Lemma lru_op_ok c l op :
  cache_inv c -> lru_of (bc_state c) l -> 0 <= cs_clock (bc_state c) -> cs_clock (bc_state c) + 1 < U64 -> let r := cache_op c op in
  (exists l', lru_of (bc_state r.1) l' /\ lru_op (bc_cap c) (contents l) op = (contents l', r.2)) /\
  bc_cap r.1 = bc_cap c /\ cs_clock (bc_state c) <= cs_clock (bc_state r.1) <= cs_clock (bc_state c) + 1.
Proof.
  intros Hi Hl H0 Hu. destruct op as [id block|id block raw]; cbn [cache_op lru_op fst snd]; [by apply lru_get_ok|].
  destruct (lru_insert_ok c l id block raw Hi Hl H0 Hu) as [(l' & H1 & H2) H3]. split; [|done]. exists l'. by rewrite H2.
Qed.
Lemma outcomes_lru ops : forall c l,
  cache_inv c -> lru_of (bc_state c) l -> 0 <= cs_clock (bc_state c) -> cs_clock (bc_state c) + zlen ops < U64 ->
  (outcomes cache_op c ops).2 = (outcomes (lru_op (bc_cap c)) (contents l) ops).2.
Proof.
  induction ops as [|op ops IH]; intros c l Hi Hl H0 Hu; [done|]. rewrite zlen_cons in Hu. pose proof (zlen_nonneg ops). cbn [outcomes].
  destruct (lru_op_ok c l op Hi Hl H0 ltac:(lia)) as ((l' & Hl' & ->) & Ec & Hc). pose proof (cache_op_inv c op Hi) as Hi'.
  destruct (cache_op c op) as [c' r]. cbn [fst snd] in *. specialize (IH c' l' Hi' Hl' ltac:(lia) ltac:(lia)). rewrite Ec in IH.
  destruct (outcomes cache_op c' ops), (outcomes (lru_op (bc_cap c)) (contents l') ops). cbn in *. by subst.
Qed.
Lemma outcomes_inv ops : forall c, cache_inv c -> cache_inv (outcomes cache_op c ops).1.
Proof.
  induction ops as [|op ops IH]; intros c Hi; [done|]. cbn [outcomes]. pose proof (cache_op_inv c op Hi) as Hi'. destruct (cache_op c op) as [c' r].
  specialize (IH c' Hi'). by destruct (outcomes cache_op c' ops).
Qed.

Lemma cache_op_cap c op : bc_cap (cache_op c op).1 = bc_cap c.
Proof.
  destruct op as [id block|id block raw]; cbn [cache_op fst]; [unfold cache_get; by destruct (_ !! _)|].
  rewrite cache_insert_steps. destruct (_ <? _); [done|]. by destruct (evict_for _ _ _).
Qed.
Lemma outcomes_cap ops : forall c, bc_cap (outcomes cache_op c ops).1 = bc_cap c.
Proof.
  induction ops as [|op ops IH]; intros c; [done|]. cbn [outcomes]. pose proof (cache_op_cap c op) as Hc. destruct (cache_op c op) as [c' r].
  specialize (IH c'). destruct (outcomes cache_op c' ops). cbn in *. congruence.
Qed.

(* ------------------------------------------------------------------ *)
(** * Properties of the cache *)

(** The cache is an LRU.  Over any sequence of lookups and insertions short enough for
    the clock not to wrap, the hash map with stamps and the lazily cleaned heap answers
    exactly what a list kept in order of use answers: a lookup finds the block last
    inserted under its key and makes it the most recent, an insertion drops the least
    recently used blocks, and only those, until its block fits, and a block larger than
    the capacity is not cached. *)
Theorem cache_is_lru cap ops :
  0 <= cap -> zlen ops < U64 -> (outcomes cache_op (cache_new cap) ops).2 = (outcomes (lru_op cap) [] ops).2.
Proof.
  intros Hc Hu. apply (outcomes_lru ops (cache_new cap) []); [by apply cache_new_inv | | done | done].
  split; cbn; [done | constructor | constructor | intros x Hx; by apply not_elem_of_nil in Hx..].
Qed.

(** The cache stays within its bounds.  After any operations, a wrapped clock included,
    the byte count is the sum of the blocks held and at most the capacity, the heap holds
    at most twice as many nodes as there are blocks, in heap order and with a node for
    every block. *)
Theorem cache_bounded cap ops :
  0 <= cap -> let st := bc_state (outcomes cache_op (cache_new cap) ops).1 in
  cs_bytes st = total (cs_entries st) /\ cs_bytes st <= cap /\
  (length (cs_heap st) <= 2 * size (cs_entries st))%nat /\
  (forall i j a b, (j = 2 * i + 1 \/ j = 2 * i + 2)%nat -> cs_heap st !! i = Some a -> cs_heap st !! j = Some b -> hn_gen a <= hn_gen b) /\
  forall k e, cs_entries st !! k = Some e -> exists n, n ∈ cs_heap st /\ hn_key n = k.
Proof.
  intros Hc st. destruct (outcomes_inv ops _ (cache_new_inv cap Hc)) as [[H1 H2 H3] H4 H5]. rewrite outcomes_cap in H4.
  fold st in H1, H2, H3, H4, H5. split_and!; [done | by apply H4 | done | | done].
  intros i j a b Hij Ha Hb. pose proof (H2 i j ltac:(lia) Hij (lookup_lt_Some _ _ _ Hb)) as Hle. unfold gen_at in Hle. by rewrite Ha, Hb in Hle.
Qed.

(** Eviction terminates.  From every state the operations reach, any number of
    iterations beyond twice the heap's length gives the same result as that many: the
    loop ends by itself, with room for the block, and not because the heap ran empty
    while blocks were held. *)
Theorem evict_terminates cap ops needed fuel st n :
  0 <= cap -> needed <= cap -> let st0 := bc_state (outcomes cache_op (cache_new cap) ops).1 in
  (2 * length (cs_heap st0) < fuel)%nat -> evict_loop fuel cap needed st0 0 = (st, n) ->
  evict_for cap needed st0 = (st, n) /\ cs_bytes st + needed <= cap.
Proof.
  intros Hc Hn st0 Hf E. destruct (outcomes_inv ops _ (cache_new_inv cap Hc)) as [Hok _ _]. fold st0 in Hok.
  assert (forall f1 f2 s k, cache_ok s -> (measure s < f1)%nat -> (measure s < f2)%nat -> evict_loop f1 cap needed s k = evict_loop f2 cap needed s k) as Heq.
  { induction f1 as [|f1 IH]; intros [|f2] s k Hs H1 H2; try lia. cbn [evict_loop]. destruct (cap <? _); [|done].
    destruct (evict_step s) as [[s' b]|] eqn:Es; [|done]. destruct (evict_step_ok _ _ _ Hs Es). apply IH; [done | lia | lia]. }
  assert (measure st0 <= 2 * length (cs_heap st0))%nat as Hm by (unfold measure; pose proof (length_filter (stale (cs_entries st0)) (cs_heap st0)); lia).
  assert (evict_for cap needed st0 = (st, n)) as Ee by (unfold evict_for; rewrite <-E; apply Heq; [done | lia | lia]). split; [done|].
  by apply (evict_for_end (fun _ => True)) in Ee as (_ & _ & ?).
Qed.

(* ------------------------------------------------------------------ *)
(** * Reads through the cache *)

Section Reads.
Context {SHA : Sha256}.

(** Readers share the cache of the database; each read goes through it. *)
Record ReadSys : Type := mkReadSys { rs_cache : BlockCache; rs_readers : list CachedReader }.
Inductive ReadOp : Type :=
  | RdOpen (r : SegmentReader)
  | RdBlock (reader block : nat).
Definition read_op (s : ReadSys) (op : ReadOp) : ReadSys * option (Result bytes) :=
  match op with
  | RdOpen r => let '(c, cr) := open_cached (rs_cache s) r in (mkReadSys c (rs_readers s ++ [cr]), None)
  | RdBlock k i =>
      match rs_readers s !! k with
      | None => (s, None)
      | Some cr =>
          match sr_data (cr_reader cr) !! i with
          | None => (s, None)
          | Some b => let '(c, cr, r) := block_raw_cached (rs_cache s) cr i b in (mkReadSys c (<[k := cr]> (rs_readers s)), Some r)
          end
      end
  end.

(** Without a cache: every read goes to the file and checks the checksum. *)
Definition plain_op (rs : list SegmentReader) (op : ReadOp) : list SegmentReader * option (Result bytes) :=
  match op with
  | RdOpen r => (rs ++ [r], None)
  | RdBlock k i =>
      match rs !! k with
      | None => (rs, None)
      | Some r => match sr_data r !! i with None => (rs, None) | Some b => (rs, Some (block_raw r b)) end
      end
  end.
Fixpoint read_run {S} (step : S -> ReadOp -> S * option (Result bytes)) (s : S) (ops : list ReadOp) : list (option (Result bytes)) :=
  match ops with [] => [] | op :: ops => let '(s, r) := step s op in r :: read_run step s ops end.

(** Cached blocks are the blocks of the reader with that identity, and validated blocks
    have a valid checksum. *)
Record coherent (s : ReadSys) (rs : list SegmentReader) : Prop := {
  ch_readers : map cr_reader (rs_readers s) = rs;
  ch_ids : forall k cr, rs_readers s !! k = Some cr -> cr_id cr = Z.of_nat k;
  ch_next : bc_next_id (rs_cache s) = zlen rs;
  ch_cached : forall id block e, cs_entries (bc_state (rs_cache s)) !! (id, block) = Some e ->
    exists k i r b, id = Z.of_nat k /\ block = Z.of_nat i /\ rs !! k = Some r /\ sr_data r !! i = Some b /\ block_raw r b = Ok (en_bytes e);
  ch_valid : forall k cr i b, rs_readers s !! k = Some cr -> i ∈ cr_validated cr -> sr_data (cr_reader cr) !! i = Some b -> is_ok (block_raw (cr_reader cr) b) = true }.

Lemma cache_get_entries c id block k e' :
  cs_entries (bc_state (cache_get c id block).1) !! k = Some e' -> exists e, cs_entries (bc_state c) !! k = Some e /\ en_bytes e = en_bytes e'.
Proof.
  unfold cache_get. destruct (cs_entries (bc_state c) !! (id, block)) as [e|] eqn:E; cbn; [|by eauto].
  intros [[<- <-]|[_ H]]%lookup_insert_Some; eauto.
Qed.
Lemma evict_step_sub st st' b k e : evict_step st = Some (st', b) -> cs_entries st' !! k = Some e -> cs_entries st !! k = Some e.
Proof.
  unfold evict_step. destruct (heap_pop _) as [[n h]|]; [|done]. destruct (cs_entries st !! hn_key n) as [x|]; [|by intros [= <- _]].
  destruct (_ =? _); intros [= <- _]; [|done]. cbn. by intros [_ ?]%lookup_delete_Some.
Qed.
Lemma evict_loop_sub fuel cap needed k e : forall st n st' n',
  evict_loop fuel cap needed st n = (st', n') -> cs_entries st' !! k = Some e -> cs_entries st !! k = Some e.
Proof.
  induction fuel as [|fuel IH]; intros st n st' n' E; cbn [evict_loop] in E; [by injection E as <- _|].
  destruct (_ <? _); [|by injection E as <- _]. destruct (evict_step st) as [[s b]|] eqn:Es; [|by injection E as <- _].
  intros H. eapply evict_step_sub; [exact Es|]. by eapply IH.
Qed.
Lemma cache_insert_entries c id block raw k e :
  cs_entries (bc_state (cache_insert c id block raw)) !! k = Some e ->
  cs_entries (bc_state c) !! k = Some e \/ k = (id, block) /\ en_bytes e = raw.
Proof.
  rewrite cache_insert_steps. destruct (_ <? _); [by left|]. destruct (evict_for _ _ _) as [st n] eqn:E. cbn [bc_state].
  assert (cs_entries (trimmed (stamped (id, block) raw st)) = cs_entries (stamped (id, block) raw st)) as -> by (unfold trimmed; by destruct (_ <? _)%nat).
  cbn. intros [[<- <-]|[_ H]]%lookup_insert_Some; [by right|]. left. eapply evict_loop_sub in H; [|exact E]. rewrite without_lookup in H.
  by apply lookup_delete_Some in H as [_ ?].
Qed.
Lemma cache_next_id c id block raw : bc_next_id (cache_get c id block).1 = bc_next_id c /\ bc_next_id (cache_insert c id block raw) = bc_next_id c.
Proof.
  split; [unfold cache_get; by destruct (_ !! _)|]. rewrite cache_insert_steps. destruct (_ <? _); [done|]. by destruct (evict_for _ _ _).
Qed.
Lemma block_raw_split r b :
  block_raw r b = match read_segment_at (sr_file r) (db_header b) (BLOCK_HEADER_LEN + db_payload_len b) with
    | Err e => Err e
    | Ok raw => if negb (slice_eqb (checksum8 (ztake 20 raw ++ zdrop BLOCK_HEADER_LEN raw)) (zslice 20 28 raw))
                then Err (Corrupt "data block checksum mismatch") else Ok raw
    end.
Proof. unfold block_raw. by destruct (read_segment_at _ _ _). Qed.

(** A cached read keeps the coherence and answers as an uncached one. *)
Lemma coherent_open s rs r :
  coherent s rs -> zlen rs + 1 < U64 -> coherent (read_op s (RdOpen r)).1 (rs ++ [r]).
Proof.
  intros [H1 H2 H3 H4 H5] Hu. assert (length (rs_readers s) = length rs) as El by (rewrite <-H1; by rewrite length_map).
  split; cbn [read_op open_cached reader_id fst rs_readers rs_cache bc_next_id bc_state].
  - by rewrite map_app, H1.
  - intros k cr [Hk|[Hk Hc]]%lookup_app_Some; [by apply H2|]. apply list_lookup_singleton_Some in Hc as [Hc <-]. cbn. rewrite H3. unfold zlen. lia.
  - rewrite H3, zlen_app. pose proof (zlen_nonneg rs). apply Z.mod_small. change (zlen [r]) with 1. lia.
  - intros id block e He. destruct (H4 id block e He) as (k & i & r' & b & ? & ? & Hr & ? & ?). exists k, i, r', b. by rewrite lookup_app_l_Some with (x := r').
  - intros k cr i b [Hk|[Hk Hc]]%lookup_app_Some; [by eapply H5|]. apply list_lookup_singleton_Some in Hc as [_ <-]. cbn. set_solver.
Qed.

(** The coherence of a system only the cache, or one validated set, of which changed. *)
Lemma coherent_step s rs k cr c v :
  coherent s rs -> rs_readers s !! k = Some cr -> bc_next_id c = bc_next_id (rs_cache s) ->
  (forall id block e, cs_entries (bc_state c) !! (id, block) = Some e ->
     (exists e', cs_entries (bc_state (rs_cache s)) !! (id, block) = Some e' /\ en_bytes e' = en_bytes e) \/
     exists i b, id = cr_id cr /\ block = Z.of_nat i /\ sr_data (cr_reader cr) !! i = Some b /\ block_raw (cr_reader cr) b = Ok (en_bytes e)) ->
  (forall i b, i ∈ v -> i ∉ cr_validated cr -> sr_data (cr_reader cr) !! i = Some b -> is_ok (block_raw (cr_reader cr) b) = true) ->
  coherent (mkReadSys c (<[k := mkCachedReader (cr_reader cr) (cr_id cr) v]> (rs_readers s))) rs.
Proof.
  intros [H1 H2 H3 H4 H5] Hk Hn He Hv. split; cbn [rs_readers rs_cache].
  - rewrite <-H1. rewrite list_fmap_insert. apply list_insert_id. by rewrite list_lookup_fmap, Hk.
  - intros j x [(<- & <- & _)|[_ Hx]]%list_lookup_insert_Some; [cbn; by apply H2 | by apply H2].
  - congruence.
  - intros id block e E. destruct (He id block e E) as [(e' & E' & Eb)|(i & b & -> & -> & Hb & Hr)]; [rewrite <-Eb; by apply H4|].
    exists k, i, (cr_reader cr), b. split_and!; [by apply H2 | done | | done | done]. by rewrite <-H1, list_lookup_fmap, Hk.
  - intros j x i b [(<- & <- & _)|[_ Hx]]%list_lookup_insert_Some; [|by eapply H5]. cbn. intros Hi Hb.
    destruct (decide (i ∈ cr_validated cr)) as [Hin|Hin]; [by eapply H5 | by eapply Hv].
Qed.
Lemma coherent_read s rs k i cr b :
  coherent s rs -> rs_readers s !! k = Some cr -> sr_data (cr_reader cr) !! i = Some b ->
  let '(c, cr', r) := block_raw_cached (rs_cache s) cr i b in
  coherent (mkReadSys c (<[k := cr']> (rs_readers s))) rs /\ r = block_raw (cr_reader cr) b.
Proof.
  intros Hs Hk Hb. pose proof Hs as [H1 H2 H3 H4 H5]. unfold block_raw_cached.
  destruct (cache_next_id (rs_cache s) (cr_id cr) (Z.of_nat i) []) as [En _].
  pose proof (cache_get_entries (rs_cache s) (cr_id cr) (Z.of_nat i)) as Hent. unfold cache_get in *.
  assert (forall c, bc_next_id c = bc_next_id (rs_cache s) ->
    (forall key e', cs_entries (bc_state c) !! key = Some e' -> exists e, cs_entries (bc_state (rs_cache s)) !! key = Some e /\ en_bytes e = en_bytes e') ->
    coherent (mkReadSys c (<[k := cr]> (rs_readers s))) rs) as Hsame.
  { intros c Hn Hc. destruct cr as [r id v]. apply (coherent_step s rs k (mkCachedReader r id v)); [done | done | done | | done].
    intros id' block e E. left. by apply Hc. }
  destruct (cs_entries (bc_state (rs_cache s)) !! (cr_id cr, Z.of_nat i)) as [e|] eqn:E.
  - split; [apply Hsame; [done | exact Hent]|]. destruct (H4 _ _ _ E) as (k' & i' & r' & b' & Ek & Ei & Hr & Hb' & Hraw).
    rewrite (H2 _ _ Hk) in Ek. apply Nat2Z.inj in Ek, Ei. subst k' i'. rewrite <-H1, list_lookup_fmap, Hk in Hr. cbn in Hr. injection Hr as <-. congruence.
  - pose proof (block_raw_split (cr_reader cr) b) as Hraw. destruct (read_segment_at _ _ _) as [raw|err]; [|split; [by apply Hsame | done]].
    destruct (slice_eqb _ _); cbn [negb] in Hraw |- *.
    + rewrite andb_false_r. split; [|done]. destruct (cache_next_id (rs_cache s) (cr_id cr) (Z.of_nat i) raw) as [_ En'].
      apply coherent_step; [done | done | done | |].
      * intros id block e [He|[[= -> ->] He]]%cache_insert_entries; [left; eauto|]. right. exists i, b. by rewrite He.
      * intros i' b' [->%elem_of_singleton|]%elem_of_union Hni Hb'; [|done]. rewrite Hb in Hb'. injection Hb' as <-. by rewrite Hraw.
    + destruct (decide (i ∈ cr_validated cr)) as [Hin|Hin].
      * exfalso. pose proof (H5 _ _ _ _ Hk Hin Hb) as Hok. by rewrite Hraw in Hok.
      * rewrite bool_decide_eq_false_2 by done. cbn. split; [by apply Hsame | done].
Qed.
Lemma read_run_exact ops : forall s rs, coherent s rs -> zlen rs + zlen ops < U64 -> read_run read_op s ops = read_run plain_op rs ops.
Proof.
  induction ops as [|op ops IH]; intros s rs Hs Hu; [done|]. rewrite zlen_cons in Hu. pose proof (zlen_nonneg ops).
  assert (exists s' rs' r, read_op s op = (s', r) /\ plain_op rs op = (rs', r) /\ coherent s' rs' /\ zlen rs' <= zlen rs + 1) as (s' & rs' & r & E1 & E2 & Hs' & Hl).
  { destruct op as [r|k i].
    - pose proof (coherent_open s rs r Hs ltac:(lia)) as Ho. destruct (read_op s (RdOpen r)) as [s' x] eqn:E. exists s', (rs ++ [r]), None.
      split_and!; [by injection E as <- <- | done | done | rewrite zlen_app; change (zlen [r]) with 1; lia].
    - cbn [read_op plain_op]. rewrite <-(ch_readers _ _ Hs), list_lookup_fmap. destruct (rs_readers s !! k) as [cr|] eqn:Ek; cbn [fmap option_fmap option_map].
      + destruct (sr_data (cr_reader cr) !! i) as [b|] eqn:Eb; [|eexists _, _, _; split_and!; [done | done | by rewrite (ch_readers _ _ Hs) | lia]].
        pose proof (coherent_read s rs k i cr b Hs Ek Eb) as Hr. destruct (block_raw_cached _ _ _ _) as [[c cr'] r']. destruct Hr as [Hc ->].
        eexists _, _, _. split_and!; [done | done | by rewrite (ch_readers _ _ Hs) | lia].
      + eexists _, _, _. split_and!; [done | done | by rewrite (ch_readers _ _ Hs) | lia]. }
  cbn [read_run]. rewrite E1, E2. f_equal. apply IH; [done | lia].
Qed.

(** Reads through the cache are reads of the file.  However readers that share one
    cache are opened and their blocks read, every block read gives what reading and
    checking the block of that reader's file gives, the same error included: a cached
    block is never another reader's or another block's, and a block read without a
    checksum was read with one before. *)
Theorem cached_reads_exact cap ops :
  zlen ops < U64 -> read_run read_op (mkReadSys (cache_new cap) []) ops = read_run plain_op [] ops.
Proof.
  intros Hu. apply read_run_exact; [|by rewrite Z.add_0_l]. by split.
Qed.
End Reads.

(* ------------------------------------------------------------------ *)
(** * Witnesses *)

(** Room for four bytes: the third block evicts the second, since the first was read. *)
Definition sample_ops : list CacheOp :=
  [CacheInsert 0 1 [x61; x62]; CacheInsert 0 2 [x63; x64]; CacheGet 0 1; CacheInsert 7 1 [x65]; CacheGet 0 2; CacheGet 0 1; CacheGet 7 1;
   CacheInsert 0 9 [x61; x62; x63; x64; x65]; CacheGet 0 9].
Definition sample_answers : list (option bytes) :=
  [None; None; Some [x61; x62]; None; None; Some [x61; x62]; Some [x65]; None; None].

Lemma cache_is_lru_witness :
  (outcomes cache_op (cache_new 4) sample_ops).2 = sample_answers /\ (outcomes (lru_op 4) [] sample_ops).2 = sample_answers.
Proof. split; [|vm_compute; reflexivity]. rewrite (cache_is_lru 4 sample_ops); [vm_compute; reflexivity | lia | vm_compute; reflexivity]. Defined.

Lemma cache_bounded_witness :
  cs_bytes (bc_state (outcomes cache_op (cache_new 4) sample_ops).1) = 3 /\ cs_bytes (bc_state (outcomes cache_op (cache_new 4) sample_ops).1) <= 4.
Proof. split; [vm_compute; reflexivity|]. apply (cache_bounded 4 sample_ops). lia. Defined.

(** A heap with a stale node: evicting for two bytes pops it twice. *)
Lemma evict_terminates_witness :
  let st0 := bc_state (outcomes cache_op (cache_new 4) (take 3 sample_ops)).1 in
  (evict_for 4 2 st0).2 = 1 /\ cs_bytes (evict_for 4 2 st0).1 + 2 <= 4.
Proof.
  intros st0. destruct (evict_loop 100 4 2 st0 0) as [st n] eqn:E.
  assert (2 * length (cs_heap st0) < 100)%nat as Hf by (vm_compute; lia).
  destruct (evict_terminates 4 (take 3 sample_ops) 2 100 st n ltac:(lia) ltac:(lia) Hf E) as [E1 E2]. fold st0 in E1. rewrite E1. split; [|exact E2].
  cbn [snd]. vm_compute in E. by injection E as _ <-.
Defined.

Definition sample_reads : list ReadOp := [RdOpen sample_reader; RdOpen sample_reader; RdBlock 0 0; RdBlock 0 0; RdBlock 1 0; RdBlock 2 0].
Lemma cached_reads_exact_witness :
  map (fun r => match r with Some (Ok _) => true | _ => false end)
    (read_run (@read_op toy_sha) (mkReadSys (cache_new 4096) []) sample_reads) = [false; false; true; true; true; false].
Proof. rewrite (@cached_reads_exact toy_sha 4096 sample_reads); vm_compute; reflexivity. Defined.
