(* ===== verification/Handles.v ===== *)
(** crates/storage/aikoql-v2/src/placement/handles.rs: physical handles, the opaque
    references between a replica and the block that holds it; and the placement view of
    placement/directory.rs they resolve through. *)

From stdpp Require Import gmap.
From S2P Require Import Prelude Cursor Format Identity Placement.

(** [trait PlacementSource]: the live placement view. *)
Class PlacementSource (S : Type) : Type := { placement : S -> ReplicaId -> option Placement }.

(** The directory's own map, what [LocalPlacementResolver] reads through [Db::resolve_placement]. *)
#[global] Instance LocalPlacementResolver : PlacementSource Placements := {| placement m rid := m !! rid |}.

Abbreviation PhysicalHandle := Z.

(** [struct HandleRegistry], less the source, which lives and changes beside it. *)
Record HandleRegistry : Type := mkHandleRegistry {
  hr_by_handle : gmap PhysicalHandle (ReplicaId * Z); hr_by_rid : gmap ReplicaId PhysicalHandle; hr_next : Z }.

(** [HandleRegistry::new], [retire]. *)
Definition registry_new : HandleRegistry := mkHandleRegistry ∅ ∅ 1.
Definition retire (r : HandleRegistry) (rid : ReplicaId) : HandleRegistry :=
  match hr_by_rid r !! rid with
  | Some h => mkHandleRegistry (delete h (hr_by_handle r)) (delete rid (hr_by_rid r)) (hr_next r)
  | None => r
  end.

Section Registry.
Context {S : Type} `{PlacementSource S}.

(** The handle [resolve] returns as it is: the replica has one, of this generation. *)
Definition stable_handle (r : HandleRegistry) (rid : ReplicaId) (gen : Z) : option PhysicalHandle :=
  match hr_by_rid r !! rid with
  | Some h => match hr_by_handle r !! h with Some (_, g) => if g =? gen then Some h else None | None => None end
  | None => None
  end.

(** [resolve]. *)
Definition resolve (source : S) (r : HandleRegistry) (rid : ReplicaId) : HandleRegistry * Result (option PhysicalHandle) :=
  match placement source rid with
  | None => (retire r rid, Ok None)
  | Some (PMemtable _) | Some (PRetired _) => (retire r rid, Ok None)
  | Some (PSegment loc) =>
      match stable_handle r rid (pl_generation loc) with
      | Some h => (r, Ok (Some h))
      | None =>
          let r := retire r rid in
          let h := hr_next r in
          let next := (h + 1) mod U64 in
          match hr_by_handle r !! h with
          | Some _ => (mkHandleRegistry (hr_by_handle r) (hr_by_rid r) next, Err (Corrupt "physical handle collision"))
          | None => (mkHandleRegistry (<[h := (rid, pl_generation loc)]> (hr_by_handle r)) (<[rid := h]> (hr_by_rid r)) next, Ok (Some h))
          end
      end
  end.

(** [resolve_many]: the iterator stops at the first error. *)
Fixpoint resolve_many (source : S) (r : HandleRegistry) (rids : list ReplicaId) : HandleRegistry * Result (list (option PhysicalHandle)) :=
  match rids with
  | [] => (r, Ok [])
  | rid :: rids =>
      let '(r, h) := resolve source r rid in
      match h with
      | Err e => (r, Err e)
      | Ok h => let '(r, hs) := resolve_many source r rids in (r, hs ← hs; Ok (h :: hs))
      end
  end.

(** [location]. *)
Definition location (source : S) (r : HandleRegistry) (h : PhysicalHandle) : Result PhysicalLocation :=
  match hr_by_handle r !! h with
  | None => Err (Stale "physical handle unknown or retired")
  | Some (rid, gen) =>
      match placement source rid with
      | Some (PSegment loc) =>
          if pl_generation loc =? gen then Ok loc else Err (Stale "physical handle stale: placement generation moved")
      | _ => Err (Stale "physical handle stale: placement generation moved")
      end
  end.

(* ------------------------------------------------------------------ *)
(** * Invariant *)

(** Every handle ever issued, with what it was issued for. *)
Abbreviation Issued := (gmap PhysicalHandle (ReplicaId * Z)).
Record registry_ok (ghost : Issued) (r : HandleRegistry) : Prop := {
  ro_next : 1 <= hr_next r;
  ro_issued : forall h x, ghost !! h = Some x -> 1 <= h < hr_next r;
  ro_ghost : forall h x, hr_by_handle r !! h = Some x -> ghost !! h = Some x;
  ro_rid : forall rid h, hr_by_rid r !! rid = Some h <-> exists gen, hr_by_handle r !! h = Some (rid, gen) }.

Lemma registry_new_ok : registry_ok ∅ registry_new.
Proof. split; cbn; try done. intros rid h. rewrite lookup_empty. split; [done|]. by intros (? & ?). Qed.

Lemma retire_ok ghost r rid :
  registry_ok ghost r -> registry_ok ghost (retire r rid) /\ hr_next (retire r rid) = hr_next r /\
  (forall h x, hr_by_handle (retire r rid) !! h = Some x <-> hr_by_handle r !! h = Some x /\ x.1 <> rid) /\
  hr_by_rid (retire r rid) = delete rid (hr_by_rid r).
Proof.
  intros [H1 H2 H3 H4]. unfold retire. destruct (hr_by_rid r !! rid) as [h0|] eqn:E.
  - pose proof (proj1 (H4 rid h0) E) as (g0 & E0). cbn.
    assert (forall h x, delete h0 (hr_by_handle r) !! h = Some x <-> hr_by_handle r !! h = Some x /\ x.1 <> rid) as Hd.
    { intros h [rid' g]. rewrite lookup_delete_Some. split; intros [Hx Hy].
      - split; [done|]. cbn. intros ->. apply Hx. assert (hr_by_rid r !! rid = Some h) by (apply H4; eauto). congruence.
      - split; [|done]. intros <-. cbn in *. congruence. }
    split_and!; [|done | done | done]. split; cbn; [done | done | intros h x [_ Hx]%lookup_delete_Some; auto|].
    intros rid' h. rewrite lookup_delete_Some, H4. split.
    + intros [Hne (g & Hg)]. exists g. by apply Hd.
    + intros (g & [Hg Hne]%Hd). cbn in Hne. split; [done | by exists g].
  - split_and!; [by split | done | | by rewrite delete_id]. intros h [rid' g]. split; [|tauto]. intros Hg. split; [done|]. cbn. intros ->.
    assert (hr_by_rid r !! rid = Some h) by (apply H4; eauto). congruence.
Qed.

(** What a source says of a replica's segment. *)
Definition segment_of (source : S) (rid : ReplicaId) : option PhysicalLocation :=
  match placement source rid with Some (PSegment loc) => Some loc | _ => None end.

(** What a resolution does: the handles of other replicas stay, and the replica's own is the
    answer. *)
Record resolved (source : S) (ghost : Issued) (r : HandleRegistry) (rid : ReplicaId) (ghost' : Issued) (r' : HandleRegistry)
    (h : option PhysicalHandle) : Prop := {
  rv_ok : registry_ok ghost' r';
  rv_sub : ghost ⊆ ghost';
  rv_next : hr_next r <= hr_next r' <= hr_next r + 1;
  rv_other : forall h x, x.1 <> rid -> hr_by_handle r' !! h = Some x <-> hr_by_handle r !! h = Some x;
  rv_handle : h = match segment_of source rid with Some _ => hr_by_rid r' !! rid | None => None end;
  rv_live : forall loc, segment_of source rid = Some loc -> exists h', h = Some h' /\ hr_by_handle r' !! h' = Some (rid, pl_generation loc);
  rv_gone : segment_of source rid = None -> hr_by_rid r' !! rid = None;
  rv_stable : forall loc h, segment_of source rid = Some loc -> hr_by_handle r !! h = Some (rid, pl_generation loc) -> r' = r }.

Lemma resolve_segment source r rid :
  resolve source r rid =
  match segment_of source rid with
  | None => (retire r rid, Ok None)
  | Some loc =>
      match stable_handle r rid (pl_generation loc) with
      | Some h => (r, Ok (Some h))
      | None =>
          let r := retire r rid in
          match hr_by_handle r !! hr_next r with
          | Some _ => (mkHandleRegistry (hr_by_handle r) (hr_by_rid r) ((hr_next r + 1) mod U64), Err (Corrupt "physical handle collision"))
          | None => (mkHandleRegistry (<[hr_next r := (rid, pl_generation loc)]> (hr_by_handle r)) (<[rid := hr_next r]> (hr_by_rid r))
                       ((hr_next r + 1) mod U64), Ok (Some (hr_next r)))
          end
      end
  end.
Proof. unfold resolve, segment_of. by destruct (placement source rid) as [[| |]|]. Qed.

Lemma stable_handle_some r rid gen h ghost :
  registry_ok ghost r -> stable_handle r rid gen = Some h -> hr_by_rid r !! rid = Some h /\ hr_by_handle r !! h = Some (rid, gen).
Proof.
  intros Hr. unfold stable_handle. destruct (hr_by_rid r !! rid) as [h'|] eqn:Eh; [|done].
  pose proof (proj1 (ro_rid _ _ Hr rid h') Eh) as (g & Eg). rewrite Eg. destruct (Z.eqb_spec g gen) as [->|]; [|done]. by intros [= <-].
Qed.

(** A fresh handle: the counter is past every handle issued. *)
Lemma allocate_ok ghost r rid gen :
  registry_ok ghost r -> hr_by_rid r !! rid = None -> hr_next r + 1 < U64 ->
  ghost !! hr_next r = None /\ hr_by_handle r !! hr_next r = None /\
  registry_ok (<[hr_next r := (rid, gen)]> ghost)
    (mkHandleRegistry (<[hr_next r := (rid, gen)]> (hr_by_handle r)) (<[rid := hr_next r]> (hr_by_rid r)) ((hr_next r + 1) mod U64)).
Proof.
  intros [H1 H2 H3 H4] Hn Hu. assert (ghost !! hr_next r = None) as Hg.
  { destruct (ghost !! hr_next r) as [x|] eqn:E; [|done]. specialize (H2 _ _ E). lia. }
  assert (hr_by_handle r !! hr_next r = None) as Hf by (destruct (hr_by_handle r !! hr_next r) as [x|] eqn:E; [apply H3 in E; congruence | done]).
  split_and!; [done | done|]. split; cbn; rewrite ?Z.mod_small by lia.
  - lia.
  - intros h x [[<- _]|[_ Hx]]%lookup_insert_Some; [lia | specialize (H2 _ _ Hx); lia].
  - intros h x [[<- <-]|[Hne Hx]]%lookup_insert_Some; [apply lookup_insert_eq | rewrite lookup_insert_ne by done; auto].
  - intros rid' h. rewrite lookup_insert_Some. setoid_rewrite lookup_insert_Some. split.
    + intros [[<- <-]|[Hne Hx]]; [eauto|]. apply H4 in Hx as (g & Hg'). exists g. right. split; [|done]. intros <-. congruence.
    + intros (g & [[<- [= <- <-]]|[Hne Hx]]); [by left|]. right. assert (hr_by_rid r !! rid' = Some h) as Hr by (apply H4; eauto).
      split; [|done]. intros <-. congruence.
Qed.

Lemma resolve_ok source ghost r rid :
  registry_ok ghost r -> hr_next r + 1 < U64 ->
  exists ghost' r' h, resolve source r rid = (r', Ok h) /\ resolved source ghost r rid ghost' r' h.
Proof.
  intros Hr Hu. destruct (retire_ok ghost r rid Hr) as (Ht & En & Hd & Eb). rewrite resolve_segment.
  destruct (segment_of source rid) as [loc|] eqn:Es.
  - destruct (stable_handle r rid (pl_generation loc)) as [h|] eqn:Eh.
    + destruct (stable_handle_some _ _ _ _ _ Hr Eh) as [E1 E2]. exists ghost, r, (Some h). split; [done|].
      split; rewrite ?Es; try done; [lia | intros loc' [= <-]; eauto].
    + assert (hr_by_rid (retire r rid) !! rid = None) as Hnone by (rewrite Eb; apply lookup_delete_eq).
      destruct (allocate_ok ghost (retire r rid) rid (pl_generation loc) Ht Hnone ltac:(lia)) as (G1 & G2 & G3). cbv zeta. rewrite G2.
      eexists _, _, _. split; [reflexivity|]. split; rewrite ?Es; cbn [hr_next hr_by_handle hr_by_rid].
      * exact G3.
      * by apply insert_subseteq.
      * pose proof (ro_next _ _ Ht). rewrite Z.mod_small by lia. lia.
      * intros h x Hx. rewrite lookup_insert_Some, Hd. split; [|intros Hh].
        -- intros [[_ <-]|[_ [? _]]]; [done | done].
        -- right. split; [|done]. intros <-. assert (hr_by_handle (retire r rid) !! hr_next (retire r rid) = Some x) by (by apply Hd). congruence.
      * by rewrite lookup_insert_eq.
      * intros loc' [= <-]. eexists. split; [reflexivity | apply lookup_insert_eq].
      * done.
      * intros loc' h [= <-] Hh. assert (hr_by_rid r !! rid = Some h) as E1 by (apply (ro_rid _ _ Hr); eauto).
        unfold stable_handle in Eh. by rewrite E1, Hh, Z.eqb_refl in Eh.
  - exists ghost, (retire r rid), None. split; [done|].
    split; rewrite ?Es; [done | done | lia | | done | done | intros _; rewrite Eb; apply lookup_delete_eq | done]. intros h x Hx. rewrite Hd. tauto.
Qed.

(** A live handle stays live through a resolution by the same source. *)
Lemma resolved_keeps source ghost r rid ghost' r' h h0 rid0 loc :
  resolved source ghost r rid ghost' r' h -> segment_of source rid0 = Some loc ->
  hr_by_handle r !! h0 = Some (rid0, pl_generation loc) -> hr_by_handle r' !! h0 = Some (rid0, pl_generation loc).
Proof.
  intros Hv Hs Hh. destruct (decide (rid0 = rid)) as [->|Hne]; [by rewrite (rv_stable _ _ _ _ _ _ _ Hv _ _ Hs Hh)|]. by apply (rv_other _ _ _ _ _ _ _ Hv).
Qed.
Lemma location_live source r h rid loc :
  segment_of source rid = Some loc -> hr_by_handle r !! h = Some (rid, pl_generation loc) -> location source r h = Ok loc.
Proof.
  unfold segment_of, location. intros Hs ->. destruct (placement source rid) as [[| |]|]; try done. injection Hs as ->. by rewrite Z.eqb_refl.
Qed.
Lemma location_inv source r h loc :
  location source r h = Ok loc -> exists rid, hr_by_handle r !! h = Some (rid, pl_generation loc) /\ placement source rid = Some (PSegment loc).
Proof.
  unfold location. destruct (hr_by_handle r !! h) as [[rid g]|] eqn:E; [|done]. destruct (placement source rid) as [[|l|]|] eqn:Ep; try done.
  destruct (Z.eqb_spec (pl_generation l) g) as [<-|]; [|done]. intros [= <-]. by exists rid.
Qed.

(** The batch: every answer is its replica's, live in the registry the batch leaves. *)
Definition answers_for (source : S) (r : HandleRegistry) (rid : ReplicaId) (h : option PhysicalHandle) : Prop :=
  match segment_of source rid with
  | None => h = None
  | Some loc => exists h', h = Some h' /\ hr_by_handle r !! h' = Some (rid, pl_generation loc)
  end.
Lemma resolved_answers source ghost r rid ghost' r' h : resolved source ghost r rid ghost' r' h -> answers_for source r' rid h.
Proof.
  intros Hv. unfold answers_for. pose proof (rv_handle _ _ _ _ _ _ _ Hv) as Hh. pose proof (rv_live _ _ _ _ _ _ _ Hv) as Hl.
  destruct (segment_of source rid); [by apply Hl | done].
Qed.
Lemma resolve_many_ok source rids : forall ghost r,
  registry_ok ghost r -> hr_next r + zlen rids < U64 ->
  exists ghost' r' hs, resolve_many source r rids = (r', Ok hs) /\ registry_ok ghost' r' /\ ghost ⊆ ghost' /\
    hr_next r' <= hr_next r + zlen rids /\ Forall2 (answers_for source r') rids hs /\
    (forall h0 rid0 loc, segment_of source rid0 = Some loc -> hr_by_handle r !! h0 = Some (rid0, pl_generation loc) ->
       hr_by_handle r' !! h0 = Some (rid0, pl_generation loc)).
Proof.
  induction rids as [|rid rids IH]; intros ghost r Hr Hu.
  { exists ghost, r, []. split_and!; try done; change (zlen []) with 0; lia. }
  rewrite zlen_cons in *. pose proof (zlen_nonneg rids). destruct (resolve_ok source ghost r rid Hr ltac:(lia)) as (g1 & r1 & h & E & Hv).
  pose proof (rv_next _ _ _ _ _ _ _ Hv). destruct (IH g1 r1 (rv_ok _ _ _ _ _ _ _ Hv) ltac:(lia)) as (g2 & r2 & hs & E2 & Hr2 & Hs2 & Hn2 & Ha & Hk).
  exists g2, r2, (h :: hs). cbn [resolve_many]. rewrite E, E2. split_and!; [done | done | | lia | | intros; eapply Hk; [done|]; by eapply resolved_keeps].
  - etrans; [apply (rv_sub _ _ _ _ _ _ _ Hv) | done].
  - constructor; [|done]. pose proof (resolved_answers _ _ _ _ _ _ _ Hv) as Hh. unfold answers_for in *. destruct (segment_of source rid) as [loc|] eqn:Es; [|done].
    destruct Hh as (h' & -> & Hh'). exists h'. split; [done | by eapply Hk].
Qed.

(* ------------------------------------------------------------------ *)
(** * Histories *)

(** The source moves replicas as it likes between the calls. *)
Inductive HandleEvent : Type :=
  | HRelocate (source : S)
  | HResolve (rid : ReplicaId)
  | HResolveMany (rids : list ReplicaId).
Definition handle_step (s : S * HandleRegistry) (ev : HandleEvent) : S * HandleRegistry :=
  match ev with
  | HRelocate source => (source, s.2)
  | HResolve rid => (s.1, (resolve s.1 s.2 rid).1)
  | HResolveMany rids => (s.1, (resolve_many s.1 s.2 rids).1)
  end.
Definition handle_run (s : S * HandleRegistry) (evs : list HandleEvent) : S * HandleRegistry := fold_left handle_step evs s.
Definition ev_resolutions (ev : HandleEvent) : Z := match ev with HRelocate _ => 0 | HResolve _ => 1 | HResolveMany rids => zlen rids end.
Definition resolutions (evs : list HandleEvent) : Z := foldr (fun ev n => ev_resolutions ev + n) 0 evs.

Lemma resolutions_nonneg evs : 0 <= resolutions evs.
Proof.
  unfold resolutions. induction evs as [|[source|rid|rids] evs IH]; cbn [foldr ev_resolutions]; [done | lia | lia|]. pose proof (zlen_nonneg rids). lia.
Qed.
Lemma handle_run_ok evs : forall s ghost,
  registry_ok ghost s.2 -> hr_next s.2 + resolutions evs < U64 ->
  exists ghost', registry_ok ghost' (handle_run s evs).2 /\ ghost ⊆ ghost' /\ hr_next (handle_run s evs).2 <= hr_next s.2 + resolutions evs.
Proof.
  induction evs as [|ev evs IH]; intros [src r] ghost Hr Hu; [exists ghost; split_and!; [done | done | cbn; lia]|].
  change (resolutions (ev :: evs)) with (ev_resolutions ev + resolutions evs) in *. pose proof (resolutions_nonneg evs). cbn [handle_run fold_left]. cbn [snd] in *.
  assert (exists g1, registry_ok g1 (handle_step (src, r) ev).2 /\ ghost ⊆ g1 /\ hr_next (handle_step (src, r) ev).2 <= hr_next r + ev_resolutions ev)
    as (g1 & Hr1 & Hs1 & Hn1).
  { destruct ev as [source|rid|rids]; cbn [handle_step snd fst ev_resolutions] in *.
    - exists ghost. split_and!; [done | done | lia].
    - destruct (resolve_ok src ghost r rid Hr ltac:(lia)) as (g1 & r1 & h & -> & Hv). exists g1. split_and!; [apply Hv | apply Hv | apply Hv].
    - destruct (resolve_many_ok src rids ghost r Hr ltac:(lia)) as (g1 & r1 & hs & -> & H1 & H2 & H3 & _). exists g1. by split_and!. }
  destruct (IH _ g1 Hr1 ltac:(lia)) as (g2 & Hr2 & Hs2 & Hn2). exists g2. split_and!; [done | by etrans | unfold handle_run in *; lia].
Qed.

(** A handle means one place.  A handle issued for a replica, at any point of any history
    of relocations and resolutions, either fails from then on or gives the replica's live
    location, at the generation it was issued for: never another replica's location, never
    one the replica has left. *)
Theorem handle_exact source evs rid r h evs' loc :
  resolutions evs + 1 + resolutions evs' < U64 - 1 -> let s := handle_run (source, registry_new) evs in
  resolve s.1 s.2 rid = (r, Ok (Some h)) -> let s' := handle_run (s.1, r) evs' in location s'.1 s'.2 h = Ok loc ->
  exists issued, placement s.1 rid = Some (PSegment issued) /\ placement s'.1 rid = Some (PSegment loc) /\ pl_generation loc = pl_generation issued.
Proof.
  intros Hu s E s' El. pose proof (resolutions_nonneg evs). pose proof (resolutions_nonneg evs').
  destruct (handle_run_ok evs (source, registry_new) ∅ registry_new_ok ltac:(cbn [snd registry_new hr_next]; lia)) as (g & Hr & _ & Hn). fold s in Hr, Hn.
  cbn [snd registry_new hr_next] in Hn. destruct (resolve_ok s.1 g s.2 rid Hr ltac:(lia)) as (g1 & r1 & h1 & E1 & Hv). rewrite E in E1. injection E1 as <- <-.
  pose proof (rv_next _ _ _ _ _ _ _ Hv). destruct (handle_run_ok evs' (s.1, r) g1 (rv_ok _ _ _ _ _ _ _ Hv) ltac:(cbn [snd]; lia)) as (g2 & Hr2 & Hs2 & _). fold s' in Hr2.
  pose proof (rv_handle _ _ _ _ _ _ _ Hv) as Hh. destruct (segment_of s.1 rid) as [issued|] eqn:Es; [|done]. exists issued.
  destruct (rv_live _ _ _ _ _ _ _ Hv _ Es) as (h' & [= <-] & Hlive). apply (ro_ghost _ _ (rv_ok _ _ _ _ _ _ _ Hv)) in Hlive.
  eapply lookup_weaken in Hlive; [|exact Hs2]. destruct (location_inv _ _ _ _ El) as (rid' & Hh' & Hp). apply (ro_ghost _ _ Hr2) in Hh'.
  rewrite Hh' in Hlive. injection Hlive as -> Hg. split_and!; [|done | done]. unfold segment_of in Es. destruct (placement s.1 rid) as [[| |]|]; by simplify_eq.
Qed.

(** Resolution is exact.  After any history a batch resolution succeeds, the collision
    check never fires; a replica gets a handle exactly when it is in a segment, and the
    handle's location in the registry the batch leaves is the replica's. *)
Theorem resolve_many_exact source evs rids :
  resolutions evs + zlen rids < U64 - 1 -> let s := handle_run (source, registry_new) evs in
  exists r hs, resolve_many s.1 s.2 rids = (r, Ok hs) /\
  Forall2 (fun rid h => match placement s.1 rid with
                        | Some (PSegment loc) => exists h', h = Some h' /\ location s.1 r h' = Ok loc
                        | _ => h = None end) rids hs.
Proof.
  intros Hu s. pose proof (zlen_nonneg rids).
  destruct (handle_run_ok evs (source, registry_new) ∅ registry_new_ok ltac:(cbn [snd registry_new hr_next]; lia)) as (g & Hr & _ & Hn). fold s in Hr, Hn.
  cbn [snd registry_new hr_next] in Hn. destruct (resolve_many_ok s.1 rids g s.2 Hr ltac:(lia)) as (g' & r & hs & E & _ & _ & _ & Ha & _). exists r, hs. split; [done|].
  eapply Forall2_impl; [exact Ha|]. intros rid h Hh. unfold answers_for in Hh. pose proof (location_live s.1 r) as Hl. unfold segment_of in *.
  destruct (placement s.1 rid) as [[|loc|]|] eqn:Ep; try done. destruct Hh as (h' & -> & Hh'). exists h'. split; [done|]. eapply Hl; [|done]. by rewrite Ep.
Qed.
End Registry.

(* ------------------------------------------------------------------ *)
(** * Witnesses *)

Definition sample_place (segment generation : Z) : Placement := PSegment (mkPhysicalLocation segment 0 0 generation).
Definition before_move : Placements := {[mkReplicaId 1 := sample_place 10 5; mkReplicaId 2 := PMemtable 1]}.
Definition after_move : Placements := {[mkReplicaId 1 := sample_place 11 5; mkReplicaId 2 := sample_place 12 2]}.

Lemma handle_exact_witness :
  location after_move (handle_run (before_move, (resolve before_move registry_new (mkReplicaId 1)).1) [HRelocate after_move; HResolve (mkReplicaId 2)]).2 1 =
    Ok (mkPhysicalLocation 11 0 0 5) /\
  exists issued, placement before_move (mkReplicaId 1) = Some (PSegment issued) /\
    placement after_move (mkReplicaId 1) = Some (sample_place 11 5) /\ 5 = pl_generation issued.
Proof.
  split; [vm_compute; reflexivity|].
  destruct (handle_exact before_move [] (mkReplicaId 1) (resolve before_move registry_new (mkReplicaId 1)).1 1 [HRelocate after_move; HResolve (mkReplicaId 2)]
    (mkPhysicalLocation 11 0 0 5)) as (issued & H1 & H2 & H3); [vm_compute; reflexivity..|]. by exists issued.
Defined.

Lemma resolve_many_exact_witness :
  exists r, resolve_many after_move registry_new [mkReplicaId 2; mkReplicaId 3; mkReplicaId 2; mkReplicaId 1] = (r, Ok [Some 1; None; Some 1; Some 2]) /\
    location after_move r 1 = Ok (mkPhysicalLocation 12 0 0 2).
Proof.
  destruct (resolve_many_exact after_move [] [mkReplicaId 2; mkReplicaId 3; mkReplicaId 2; mkReplicaId 1] ltac:(vm_compute; reflexivity)) as (r & hs & E & H).
  exists r. cbn [fst snd handle_run fold_left] in E. assert (hs = [Some 1; None; Some 1; Some 2]) as -> by (vm_compute in E; by injection E as _ <-).
  split; [exact E|]. apply Forall2_cons_1 in H as [H _]. vm_compute in E. injection E as <-. vm_compute. reflexivity.
Defined.
