(* ===== verification/Kom.v ===== *)
(** crates/kernel/src/knowledge/kom.rs: the knowledge object model, its identifiers, value
    and block types, lifecycle and epistemic state machines and error type; and the result
    type of the kernel crate.

    A [String] is the list of its UTF-8 bytes, a [BTreeMap<String, _>] the list of its
    entries in key order, a float its bit pattern, a byte array a list of its length. *)

From S2P Require Import Prelude Memtable.

(* ------------------------------------------------------------------ *)
(** * UTF-8 *)

Definition is_cont (b : byte) : bool := (128 <=? byte_val b) && (byte_val b <=? 191).

(** [String::from_utf8]: the well-formed sequences, no overlong form, no surrogate,
    nothing above U+10FFFF. *)
Fixpoint utf8_valid (bs : bytes) : bool :=
  match bs with
  | [] => true
  | a :: bs =>
      let x := byte_val a in
      if x <=? 127 then utf8_valid bs
      else if (194 <=? x) && (x <=? 223) then
        match bs with b :: bs => is_cont b && utf8_valid bs | _ => false end
      else if (224 <=? x) && (x <=? 239) then
        match bs with
        | b :: c :: bs =>
            ((if x =? 224 then 160 else 128) <=? byte_val b) && (byte_val b <=? (if x =? 237 then 159 else 191)) &&
            is_cont c && utf8_valid bs
        | _ => false
        end
      else if (240 <=? x) && (x <=? 244) then
        match bs with
        | b :: c :: d :: bs =>
            ((if x =? 240 then 144 else 128) <=? byte_val b) && (byte_val b <=? (if x =? 244 then 143 else 191)) &&
            is_cont c && is_cont d && utf8_valid bs
        | _ => false
        end
      else false
  end.

(* ------------------------------------------------------------------ *)
(** * Identifiers *)

Definition KOID_LEN : Z := 16.
Record KOID : Type := mkKOID { koid_bytes : bytes }.
Definition koid_wf (k : KOID) : Prop := zlen (koid_bytes k) = KOID_LEN.

#[global] Instance KOID_eq_dec : EqDecision KOID.
Proof. solve_decision. Defined.
#[global] Instance KOID_countable : Countable KOID.
Proof. apply (inj_countable koid_bytes (fun b => Some (mkKOID b))). by intros []. Defined.

(** [to_be_bytes] of an n-byte integer, [from_be_bytes]. *)
Definition be_bytes (n : nat) (z : Z) : bytes := rev (le_bytes n z).
Definition be_val (bs : bytes) : Z := le_val (rev bs).

(** [KOID::created_ms]: the first six bytes. *)
Definition created_ms (k : KOID) : Z := be_val (ztake 6 (koid_bytes k)).

(** [struct IdGen], [IdGen::new], [skip_past], [next].  [ms + 1] is the 64-bit sum. *)
Record IdGen : Type := mkIdGen { id_seed : Z; last_ms : Z; counter : Z }.
Definition idgen_new (seed : Z) : IdGen := mkIdGen seed 0 0.
Definition skip_past (g : IdGen) (ms : Z) : IdGen := mkIdGen (id_seed g) ((ms + 1) mod U64) 0.
Definition koid_of (ms counter seed : Z) : KOID := mkKOID (be_bytes 6 ms ++ be_bytes 4 counter ++ be_bytes 6 seed).
Definition next_id (g : IdGen) (now_ms : Z) : IdGen * KOID :=
  let '(ms, counter) := if last_ms g <? now_ms then (now_ms, 0) else (last_ms g, as_u32 (counter g + 1)) in
  (mkIdGen (id_seed g) ms counter, koid_of ms counter (id_seed g)).

(* ------------------------------------------------------------------ *)
(** * Enumerations and their tags *)

Module Direction.
Inductive t : Type := Outbound | Inbound.
Definition tag (d : t) : Z := match d with Outbound => 0 | Inbound => 1 end.
Definition from_tag (z : Z) : option t := match z with 0 => Some Outbound | 1 => Some Inbound | _ => None end.
#[global] Instance eq_dec : EqDecision t.
Proof. solve_decision. Defined.
End Direction.

Module EventKind.
Inductive t : Type := Created | Updated | Forgotten | LifecycleChanged | ClaimAsserted | Audit | EpistemicChanged.
Definition tag (k : t) : Z :=
  match k with
  | Created => 0 | Updated => 1 | Forgotten => 2 | LifecycleChanged => 3 | ClaimAsserted => 4 | Audit => 5 | EpistemicChanged => 6
  end.
Definition from_tag (z : Z) : option t :=
  match z with
  | 0 => Some Created | 1 => Some Updated | 2 => Some Forgotten | 3 => Some LifecycleChanged | 4 => Some ClaimAsserted
  | 5 => Some Audit | 6 => Some EpistemicChanged | _ => None
  end.
#[global] Instance eq_dec : EqDecision t.
Proof. solve_decision. Defined.
End EventKind.

Module Action.
Inductive t : Type := Read | Write | Evolve | Delete | Admin.
Definition tag (a : t) : Z := match a with Read => 0 | Write => 1 | Evolve => 2 | Delete => 3 | Admin => 4 end.
Definition from_tag (z : Z) : option t :=
  match z with 0 => Some Read | 1 => Some Write | 2 => Some Evolve | 3 => Some Delete | 4 => Some Admin | _ => None end.
#[global] Instance eq_dec : EqDecision t.
Proof. solve_decision. Defined.
End Action.

Module Effect.
Inductive t : Type := Allow | Deny.
Definition tag (e : t) : Z := match e with Allow => 0 | Deny => 1 end.
Definition from_tag (z : Z) : option t := match z with 0 => Some Allow | 1 => Some Deny | _ => None end.
#[global] Instance eq_dec : EqDecision t.
Proof. solve_decision. Defined.
End Effect.

Module Origin.
Inductive t : Type := Human | Agent (id : bytes) | SemanticEnrichment | Reason | System.
#[global] Instance eq_dec : EqDecision t.
Proof. solve_decision. Defined.
End Origin.

(** [LifecycleState], its tags and its transitions. *)
Module LifecycleState.
Inductive t : Type :=
  | Draft | Active | Verified | Archived | Deleted
  | Discovered | Extracted | Proposed | Validated | Accepted | Updated | Superseded.
Definition tag (s : t) : Z :=
  match s with
  | Draft => 0 | Active => 1 | Verified => 2 | Archived => 3 | Deleted => 4 | Discovered => 5 | Extracted => 6
  | Proposed => 7 | Validated => 8 | Accepted => 9 | Updated => 10 | Superseded => 11
  end.
Definition from_tag (z : Z) : option t :=
  match z with
  | 0 => Some Draft | 1 => Some Active | 2 => Some Verified | 3 => Some Archived | 4 => Some Deleted | 5 => Some Discovered
  | 6 => Some Extracted | 7 => Some Proposed | 8 => Some Validated | 9 => Some Accepted | 10 => Some Updated
  | 11 => Some Superseded | _ => None
  end.
Definition can_transition (from to : t) : bool :=
  match from, to with
  | Draft, Active | Active, Verified | Verified, Archived | Archived, Deleted
  | Discovered, Extracted | Extracted, Proposed | Proposed, Validated | Validated, Accepted | Accepted, Active
  | Active, Updated | Updated, Superseded | Superseded, Archived
  | Draft, Proposed | Draft, Accepted | Proposed, Active | Accepted, Archived | Accepted, Updated | Active, Superseded => true
  | _, _ => false
  end.
#[global] Instance eq_dec : EqDecision t.
Proof. solve_decision. Defined.
End LifecycleState.

(** [EpistemicStatus] and its transitions. *)
Module EpistemicStatus.
Inductive t : Type := Observed | Extracted | Asserted | Inferred | Verified | Contradicted | Superseded.
Definition can_transition (from to : t) : bool :=
  match from, to with
  | Observed, (Extracted | Asserted | Verified | Contradicted | Superseded)
  | Extracted, (Asserted | Verified | Contradicted | Superseded)
  | Asserted, (Verified | Contradicted | Superseded)
  | Inferred, (Verified | Contradicted | Superseded)
  | Verified, (Contradicted | Superseded)
  | Contradicted, (Asserted | Superseded) => true
  | _, _ => false
  end.
Definition for_origin (o : Origin.t) : t :=
  match o with
  | Origin.Reason => Inferred
  | Origin.Human | Origin.Agent _ => Asserted
  | Origin.System | Origin.SemanticEnrichment => Observed
  end.
#[global] Instance eq_dec : EqDecision t.
Proof. solve_decision. Defined.
End EpistemicStatus.

(* ------------------------------------------------------------------ *)
(** * Values and the blocks of an object *)

Inductive Value : Type :=
  | VNull
  | VBool (b : bool)
  | VInt (i : Z)
  | VFloat (bits : Z)
  | VText (s : bytes)
  | VBytes (b : bytes)
  | VList (xs : list Value)
  | VMap (m : list (bytes * Value)).
Abbreviation PropertyMap := (list (bytes * Value)).

Record Metadata : Type := mkMetadata { type_name : bytes; tenant : option bytes; schema_version : Z; tags : list bytes }.
Record SemanticBlock : Type := mkSemanticBlock {
  embedding_model : option bytes; embedding : option (list Z); confidence : option Z; sb_source : option bytes; summary : option bytes }.
Record RelationshipRef : Type := mkRelationshipRef { rel_type : bytes; target : KOID; direction : Direction.t }.
Record EventRef : Type := mkEventRef { er_seq : Z; er_kind : EventKind.t; er_commit_ts : Z }.
Record AclEntry : Type := mkAclEntry { principal : bytes; action : Action.t; effect : Effect.t }.
Record SecurityDescriptor : Type := mkSecurityDescriptor { owner : bytes; acl : list AclEntry; classification : option bytes }.
Record Lifecycle : Type := mkLifecycle { lc_state : LifecycleState.t; lc_origin : Origin.t }.
Record KnowledgeObject : Type := mkKnowledgeObject {
  ko_koid : KOID; ko_version : Z; ko_commit_ts : Z; ko_metadata : Metadata; ko_properties : PropertyMap;
  ko_semantic : option SemanticBlock; ko_relationships : list RelationshipRef; ko_event_refs : list EventRef;
  ko_security : SecurityDescriptor; ko_lifecycle : Lifecycle; ko_extensions : PropertyMap }.
Record KnowledgeEvent : Type := mkKnowledgeEvent {
  ke_seq : Z; ke_koid : KOID; ke_version : Z; ke_kind : EventKind.t; ke_origin : Origin.t; ke_actor : bytes; ke_commit_ts : Z;
  ke_payload_hash : bytes; ke_prev_audit_hash : bytes; ke_audit_hash : bytes; ke_signature : option bytes;
  ke_audit_signature : option bytes; ke_note : option bytes }.

(* ------------------------------------------------------------------ *)
(** * Errors *)

Inductive KError : Type :=
  | InvalidObject (m : string)
  | InvalidSchema (m : string)
  | InvalidQuery (m : string)
  | VersionConflict (koid : KOID) (expected found : Z)
  | ClaimConflict (koid : KOID) (holder : bytes) (until : Z)
  | AccessDenied (subject : bytes) (a : Action.t) (koid : KOID)
  | InvalidState (from to : LifecycleState.t)
  | InvalidEpistemic (from to : EpistemicStatus.t)
  | NotFound (koid : KOID)
  | UnsupportedOperation (m : string)
  | Cancelled
  | IndexLagExceeded
  | JobRejected (m : string)
  | Retryable (m : string)
  | IdempotencyConflict (m : string)
  | Store (m : string)
  | Codec (m : string).

(** [KResult], with the panics the source can raise as a third outcome. *)
Inductive KResult (A : Type) : Type :=
  | KOk (a : A)
  | KErr (e : KError)
  | KPanic.
Arguments KOk {_} _.
Arguments KErr {_} _.
Arguments KPanic {_}.
#[global] Instance KResult_ret : MRet KResult := fun A a => KOk a.
#[global] Instance KResult_bind : MBind KResult := fun A B f m => match m with KOk a => f a | KErr e => KErr e | KPanic => KPanic end.

Lemma bind_KOk_inv {A B} (m : KResult A) (f : A -> KResult B) b : (m ≫= f) = KOk b -> exists a, m = KOk a /\ f a = KOk b.
Proof. destruct m; cbn; [eauto | discriminate..]. Qed.

(** [LifecycleManager::validate_transition], [transition] (lifecycle/manager.rs). *)
Definition validate_transition (from to : LifecycleState.t) : KResult unit :=
  if LifecycleState.can_transition from to then KOk tt else KErr (InvalidState from to).
Definition set_state (ko : KnowledgeObject) (s : LifecycleState.t) : KnowledgeObject :=
  mkKnowledgeObject (ko_koid ko) (ko_version ko) (ko_commit_ts ko) (ko_metadata ko) (ko_properties ko) (ko_semantic ko)
    (ko_relationships ko) (ko_event_refs ko) (ko_security ko) (mkLifecycle s (lc_origin (ko_lifecycle ko))) (ko_extensions ko).
Definition transition (ko : KnowledgeObject) (to : LifecycleState.t) : KResult (KnowledgeObject * LifecycleState.t) :=
  _ ← validate_transition (lc_state (ko_lifecycle ko)) to; KOk (set_state ko to, to).

(* ------------------------------------------------------------------ *)
(** * Big-endian integers *)

Lemma zlen_be_bytes n z : zlen (be_bytes n z) = Z.of_nat n.
Proof. unfold be_bytes, zlen. by rewrite length_rev, length_le_bytes. Qed.
Lemma be_val_bytes n z : 0 <= z < 256 ^ Z.of_nat n -> be_val (be_bytes n z) = z.
Proof. intros H. unfold be_val, be_bytes. rewrite rev_involutive. by apply le_val_bytes. Qed.
Lemma be_val_range bs : 0 <= be_val bs < 256 ^ zlen bs.
Proof. unfold be_val. pose proof (le_val_range (rev bs)) as H. unfold zlen in *. by rewrite length_rev in H. Qed.
Lemma be_bytes_val bs : be_bytes (length bs) (be_val bs) = bs.
Proof. unfold be_bytes, be_val. rewrite <-(length_rev bs), le_bytes_val. apply rev_involutive. Qed.

Lemma bytes_compare_app a b c d :
  length a = length b -> bytes_compare (a ++ c) (b ++ d) = match bytes_compare a b with Eq => bytes_compare c d | r => r end.
Proof.
  revert b. induction a as [|x a IH]; intros [|y b]; try done. intros [= El]. cbn. destruct (byte_val x ?= byte_val y); [by apply IH | done..].
Qed.

(** Big-endian encodings compare as their integers. *)
Lemma be_bytes_compare n : forall x y,
  0 <= x < 256 ^ Z.of_nat n -> 0 <= y < 256 ^ Z.of_nat n -> bytes_compare (be_bytes n x) (be_bytes n y) = (x ?= y).
Proof.
  induction n as [|n IH]; intros x y Hx Hy.
  { cbn in *. assert (x = 0) as -> by lia. by assert (y = 0) as -> by lia. }
  unfold be_bytes in *. cbn [le_bytes rev]. rewrite Nat2Z.inj_succ, Z.pow_succ_r in Hx, Hy by lia.
  rewrite bytes_compare_app by (by rewrite !length_rev, !length_le_bytes). rewrite IH by (split; [apply Z.div_pos; lia | apply Z.div_lt_upper_bound; lia]).
  cbn. rewrite !byte_val_of.
  pose proof (Z.div_mod x 256 ltac:(lia)). pose proof (Z.div_mod y 256 ltac:(lia)). pose proof (Z.mod_pos_bound x 256 ltac:(lia)). pose proof (Z.mod_pos_bound y 256 ltac:(lia)).
  destruct (Z.compare_spec (x / 256) (y / 256)) as [E|E|E].
  - destruct (Z.compare_spec (x mod 256) (y mod 256)); symmetry; [apply Z.compare_eq_iff | apply Z.compare_lt_iff | apply Z.compare_gt_iff]; lia.
  - symmetry. apply Z.compare_lt_iff. lia.
  - symmetry. apply Z.compare_gt_iff. lia.
Qed.

(* ------------------------------------------------------------------ *)
(** * The id generator *)

(** The position of an id: its millisecond, then its counter. *)
Definition id_order (a b : Z * Z) : Prop := a.1 < b.1 \/ a.1 = b.1 /\ a.2 < b.2.
Lemma koid_of_lt ms c ms' c' seed seed' :
  0 <= ms < 2 ^ 48 -> is_u32 c -> 0 <= ms' < 2 ^ 48 -> is_u32 c' -> id_order (ms, c) (ms', c') ->
  bytes_lt (koid_bytes (koid_of ms c seed)) (koid_bytes (koid_of ms' c' seed')).
Proof.
  unfold is_u32, id_order, bytes_lt. cbn [fst snd koid_of koid_bytes]. intros H1 H2 H3 H4 Ho.
  assert (forall n a b, length (be_bytes n a) = length (be_bytes n b)) as El by (intros; unfold be_bytes; by rewrite !length_rev, !length_le_bytes).
  rewrite !bytes_compare_app by apply El. rewrite !be_bytes_compare by (cbn; unfold U32 in *; lia).
  destruct Ho as [Ho|[-> Ho]]; [by rewrite (proj2 (Z.compare_lt_iff _ _) Ho)|]. by rewrite Z.compare_refl, (proj2 (Z.compare_lt_iff _ _) Ho).
Qed.
Lemma created_ms_of ms c seed : 0 <= ms < 2 ^ 48 -> created_ms (koid_of ms c seed) = ms.
Proof. intros H. unfold created_ms. cbn [koid_of koid_bytes]. rewrite ztake_app by (by rewrite zlen_be_bytes). by apply be_val_bytes. Qed.

(* ------------------------------------------------------------------ *)
(** * The lifecycle *)

Fixpoint lifecycle_path (s : LifecycleState.t) (path : list LifecycleState.t) : bool :=
  match path with [] => true | s' :: path => LifecycleState.can_transition s s' && lifecycle_path s' path end.
(** The number of transitions left from a state. *)
Definition lifecycle_rank (s : LifecycleState.t) : Z :=
  match s with
  | LifecycleState.Deleted => 0 | LifecycleState.Archived => 1 | LifecycleState.Verified => 2 | LifecycleState.Superseded => 2
  | LifecycleState.Updated => 3 | LifecycleState.Active => 4 | LifecycleState.Accepted => 5 | LifecycleState.Validated => 6
  | LifecycleState.Proposed => 7 | LifecycleState.Extracted => 8 | LifecycleState.Draft => 8 | LifecycleState.Discovered => 9
  end.
Lemma transition_decreases s s' : LifecycleState.can_transition s s' = true -> lifecycle_rank s' < lifecycle_rank s.
Proof. by destruct s, s'. Qed.

(** The lifecycle ends.  No chain of legal transitions is longer than nine, whatever it
    starts from; the deleted state has no way out, every state has a way to it, and no
    other state is final; and [transition] changes the state, and only the state, exactly
    along the legal transitions. *)
Theorem lifecycle_ends (s : LifecycleState.t) :
  (forall path, lifecycle_path s path = true -> zlen path <= 9) /\
  (exists path, lifecycle_path s path = true /\ default s (last path) = LifecycleState.Deleted) /\
  ((forall s', LifecycleState.can_transition s s' = false) <-> s = LifecycleState.Deleted) /\
  forall ko s' r, lc_state (ko_lifecycle ko) = s ->
    transition ko s' = KOk r <-> LifecycleState.can_transition s s' = true /\ r = (set_state ko s', s').
Proof.
  split_and!.
  - intros path. assert (forall path s, lifecycle_path s path = true -> zlen path <= lifecycle_rank s) as Hr.
    { clear s path. induction path as [|s' path IH]; intros s; [by destruct s|]. cbn [lifecycle_path]. rewrite andb_true_iff, zlen_cons.
      intros [Ht Hp]. specialize (IH _ Hp). pose proof (transition_decreases _ _ Ht). lia. }
    intros Hp. specialize (Hr _ _ Hp). destruct s; cbn in Hr; lia.
  - exists (match s with
            | LifecycleState.Deleted => []
            | LifecycleState.Archived => [LifecycleState.Deleted]
            | LifecycleState.Verified | LifecycleState.Superseded | LifecycleState.Accepted => [LifecycleState.Archived; LifecycleState.Deleted]
            | LifecycleState.Updated => [LifecycleState.Superseded; LifecycleState.Archived; LifecycleState.Deleted]
            | LifecycleState.Active => [LifecycleState.Verified; LifecycleState.Archived; LifecycleState.Deleted]
            | LifecycleState.Draft | LifecycleState.Validated => [LifecycleState.Accepted; LifecycleState.Archived; LifecycleState.Deleted]
            | LifecycleState.Proposed => [LifecycleState.Active; LifecycleState.Verified; LifecycleState.Archived; LifecycleState.Deleted]
            | LifecycleState.Extracted => [LifecycleState.Proposed; LifecycleState.Active; LifecycleState.Verified; LifecycleState.Archived; LifecycleState.Deleted]
            | LifecycleState.Discovered => [LifecycleState.Extracted; LifecycleState.Proposed; LifecycleState.Active; LifecycleState.Verified; LifecycleState.Archived; LifecycleState.Deleted]
            end). by destruct s.
  - split; [|by intros ->]. intros H. destruct s; try done; exfalso.
    + specialize (H LifecycleState.Active). done.
    + specialize (H LifecycleState.Verified). done.
    + specialize (H LifecycleState.Archived). done.
    + specialize (H LifecycleState.Deleted). done.
    + specialize (H LifecycleState.Extracted). done.
    + specialize (H LifecycleState.Proposed). done.
    + specialize (H LifecycleState.Validated). done.
    + specialize (H LifecycleState.Accepted). done.
    + specialize (H LifecycleState.Active). done.
    + specialize (H LifecycleState.Superseded). done.
    + specialize (H LifecycleState.Archived). done.
  - intros ko s' r Es. unfold transition, validate_transition. rewrite Es. destruct (LifecycleState.can_transition s s'); cbn.
    + split; [intros [= <-]; done | by intros [_ ->]].
    + split; [done | by intros [? _]].
Qed.

(** The lifecycle manager refuses the transition its documentation allows: a draft
    cannot be deleted. *)
Theorem draft_not_deletable ko :
  lc_state (ko_lifecycle ko) = LifecycleState.Draft ->
  transition ko LifecycleState.Deleted = KErr (InvalidState LifecycleState.Draft LifecycleState.Deleted).
Proof. unfold transition. by intros ->. Qed.

(* ------------------------------------------------------------------ *)
(** * Witnesses *)

Definition sample_ko : KnowledgeObject :=
  mkKnowledgeObject (koid_of 1001 1 7) 1 2 (mkMetadata [x54] (Some [x61]) 1 [[x78]; [x79]])
    [([x6b], VMap [([x61], VList [VNull; VBool true; VInt (-5)]); ([x62], VText [xc3; xa9])]); ([x6c], VFloat 0)]
    (Some (mkSemanticBlock None (Some [1; 2]) (Some 3) None (Some [x73]))) [mkRelationshipRef [x72] (koid_of 1500 0 7) Direction.Outbound]
    [mkEventRef 4 EventKind.Created 2] (mkSecurityDescriptor [x6f] [mkAclEntry [x70] Action.Read Effect.Allow] None)
    (mkLifecycle LifecycleState.Draft (Origin.Agent [x61])) [([x65], VBytes [xff])].

Lemma lifecycle_ends_witness :
  lifecycle_path LifecycleState.Draft [LifecycleState.Active; LifecycleState.Verified] = true /\
  zlen [LifecycleState.Active; LifecycleState.Verified] <= 9.
Proof. split; [reflexivity|]. apply (lifecycle_ends LifecycleState.Draft). reflexivity. Defined.
Lemma draft_not_deletable_witness :
  transition sample_ko LifecycleState.Deleted = KErr (InvalidState LifecycleState.Draft LifecycleState.Deleted).
Proof. apply (draft_not_deletable sample_ko). reflexivity. Defined.
