(* ===== verification/Codec.v ===== *)
(** crates/kernel/src/knowledge/codec.rs: the canonical binary codec of knowledge objects
    and events, the wire envelope, and the slim decoder behind vector recall.  Encoders are
    functions to the bytes they append, decoders a state, error and panic monad over the
    position and the bytes not yet read. *)

From S2P Require Import Prelude Memtable Kom.

(* ------------------------------------------------------------------ *)
(** * Encoder *)

(** [Enc::u8], [bool], [u32], [u64], [i64], [bytes], [str], the optional forms. *)
Definition e_u8 (z : Z) : bytes := [byte_of z].
Definition e_bool (b : bool) : bytes := e_u8 (if b then 1 else 0).
Definition e_u32 (z : Z) : bytes := be_bytes 4 z.
Definition e_u64 (z : Z) : bytes := be_bytes 8 z.
Definition e_i64 (z : Z) : bytes := be_bytes 8 (z mod U64).
Definition e_bytes (b : bytes) : bytes := e_u64 (zlen b) ++ b.
Definition e_str (s : bytes) : bytes := e_bytes s.
Definition e_opt {A} (enc : A -> bytes) (o : option A) : bytes := match o with None => e_u8 0 | Some a => e_u8 1 ++ enc a end.
Definition e_opt_str (s : option bytes) : bytes := e_opt e_str s.
Definition e_opt_raw (h : option bytes) : bytes := e_opt id h.
(** A length and the elements, one after the other. *)
Definition e_list {A} (enc : A -> bytes) (l : list A) : bytes := e_u64 (zlen l) ++ flat_map enc l.

(** [enc_value], [enc_map], [enc_origin], [enc_semantic]. *)
Fixpoint enc_value (v : Value) : bytes :=
  match v with
  | VNull => e_u8 0
  | VBool b => e_u8 1 ++ e_bool b
  | VInt i => e_u8 2 ++ e_i64 i
  | VFloat f => e_u8 3 ++ e_u64 f
  | VText s => e_u8 4 ++ e_str s
  | VBytes b => e_u8 5 ++ e_bytes b
  | VList xs => e_u8 6 ++ e_u64 (zlen xs) ++ flat_map enc_value xs
  | VMap m => e_u8 7 ++ e_u64 (zlen m) ++ flat_map (fun kv => e_str kv.1 ++ enc_value kv.2) m
  end.
Definition enc_entry (kv : bytes * Value) : bytes := e_str kv.1 ++ enc_value kv.2.
Definition enc_map (m : PropertyMap) : bytes := e_list enc_entry m.
Definition enc_origin (o : Origin.t) : bytes :=
  match o with
  | Origin.Human => e_u8 0
  | Origin.Agent id => e_u8 1 ++ e_str id
  | Origin.SemanticEnrichment => e_u8 2
  | Origin.Reason => e_u8 3
  | Origin.System => e_u8 4
  end.
Definition enc_semantic (s : SemanticBlock) : bytes :=
  e_opt_str (embedding_model s) ++ e_opt (e_list e_u32) (embedding s) ++ e_opt e_u32 (confidence s) ++
  e_opt_str (sb_source s) ++ e_opt_str (summary s).

(** [encode_ko], block by block. *)
Definition enc_metadata (m : Metadata) : bytes :=
  e_str (type_name m) ++ e_opt_str (tenant m) ++ e_u32 (schema_version m) ++ e_list e_str (tags m).
Definition enc_rel (r : RelationshipRef) : bytes := e_str (rel_type r) ++ koid_bytes (target r) ++ e_u8 (Direction.tag (direction r)).
Definition enc_event_ref (r : EventRef) : bytes := e_u64 (er_seq r) ++ e_u8 (EventKind.tag (er_kind r)) ++ e_u64 (er_commit_ts r).
Definition enc_acl (a : AclEntry) : bytes := e_str (principal a) ++ e_u8 (Action.tag (action a)) ++ e_u8 (Effect.tag (effect a)).
Definition enc_security (s : SecurityDescriptor) : bytes := e_str (owner s) ++ e_list enc_acl (acl s) ++ e_opt_str (classification s).
Definition enc_lifecycle (l : Lifecycle) : bytes := e_u8 (LifecycleState.tag (lc_state l)) ++ enc_origin (lc_origin l).
Definition encode_ko (ko : KnowledgeObject) : bytes :=
  koid_bytes (ko_koid ko) ++ e_u64 (ko_version ko) ++ e_u64 (ko_commit_ts ko) ++ enc_metadata (ko_metadata ko) ++
  enc_map (ko_properties ko) ++ e_opt enc_semantic (ko_semantic ko) ++ e_list enc_rel (ko_relationships ko) ++
  e_list enc_event_ref (ko_event_refs ko) ++ enc_security (ko_security ko) ++ enc_lifecycle (ko_lifecycle ko) ++
  enc_map (ko_extensions ko).

(** [WIRE_HEADER_V1], [encode_ko_wire]. *)
Definition WIRE_HEADER_V1 : bytes := [xa1; x4b; x4f; x31; x00; x00; x00; x01].
Definition encode_ko_wire (ko : KnowledgeObject) : bytes := WIRE_HEADER_V1 ++ encode_ko ko.

(** [encode_ke]. *)
Definition encode_ke (ke : KnowledgeEvent) : bytes :=
  e_u64 (ke_seq ke) ++ koid_bytes (ke_koid ke) ++ e_u64 (ke_version ke) ++ e_u8 (EventKind.tag (ke_kind ke)) ++ enc_origin (ke_origin ke) ++
  e_str (ke_actor ke) ++ e_u64 (ke_commit_ts ke) ++ ke_payload_hash ke ++ ke_prev_audit_hash ke ++ ke_audit_hash ke ++
  e_opt_raw (ke_signature ke) ++ e_opt_str (ke_note ke) ++ e_opt_raw (ke_audit_signature ke).

(* ------------------------------------------------------------------ *)
(** * Decoder *)

(** [struct Dec]: the position and the bytes from it on. *)
Record KDec : Type := mkKDec { kd_pos : Z; kd_rest : bytes }.
Definition KD (A : Type) : Type := KDec -> KResult (A * KDec).
#[global] Instance KD_ret : MRet KD := fun A a d => KOk (a, d).
#[global] Instance KD_bind : MBind KD := fun A B f m d => match m d with KOk (a, d) => f a d | KErr e => KErr e | KPanic => KPanic end.
Definition d_fail {A} (m : string) : KD A := fun _ => KErr (Codec m).
Definition d_new (bs : bytes) : KDec := mkKDec 0 bs.

(** [take]: the end [pos + n] that does not fit in a [usize] panics, in the addition or,
    wrapped, in the slice. *)
Definition d_take (n : Z) : KD bytes := fun d =>
  if USIZE <=? kd_pos d + n then KPanic
  else if zlen (kd_rest d) <? n then KErr (Codec "truncated")
  else KOk (ztake n (kd_rest d), mkKDec (kd_pos d + n) (zdrop n (kd_rest d))).
(** [finish], [remaining]. *)
Definition d_finish : KD unit := fun d => match kd_rest d with [] => KOk (tt, d) | _ => KErr (Codec "trailing bytes") end.
Definition d_remaining : KD Z := fun d => KOk (zlen (kd_rest d), d).

Definition d_u8 : KD Z := bs ← d_take 1; mret (be_val bs).
Definition d_bool : KD bool := t ← d_u8; match t with 0 => mret false | 1 => mret true | _ => d_fail "invalid bool tag" end.
Definition d_u32 : KD Z := bs ← d_take 4; mret (be_val bs).
Definition d_u64 : KD Z := bs ← d_take 8; mret (be_val bs).
Definition d_i64 : KD Z := z ← d_u64; mret (if z <? 2 ^ 63 then z else z - U64).
Definition d_bytes : KD bytes := n ← d_u64; d_take n.
Definition d_str : KD bytes := b ← d_bytes; if utf8_valid b then mret b else d_fail "invalid utf-8".
Definition d_opt {A} (dec : KD A) : KD (option A) :=
  t ← d_u8; match t with 0 => mret None | 1 => a ← dec; mret (Some a) | _ => d_fail "invalid option tag" end.
Definition d_opt_str : KD (option bytes) := d_opt d_str.
Definition d_opt_raw (n : Z) : KD (option bytes) := d_opt (d_take n).
Definition d_koid : KD KOID := b ← d_take KOID_LEN; mret (mkKOID b).
Definition dec_tag {A} (f : Z -> option A) : KD A := t ← d_u8; match f t with Some a => mret a | None => d_fail "invalid tag" end.

(** [for _ in 0..n { acc = step(acc)? }].  Every element takes a byte at least, so one round
    more than the bytes left is enough. *)
Fixpoint d_fold {S} (fuel : nat) (n : Z) (step : S -> KD S) (acc : S) : KD S :=
  if n <=? 0 then mret acc else
  match fuel with
  | O => d_fail "out of fuel"
  | S fuel => acc ← step acc; d_fold fuel (n - 1) step acc
  end.
Definition d_push {A} (dec : KD A) (l : list A) : KD (list A) := a ← dec; mret (l ++ [a]).
Definition d_times {S} (n : Z) (step : S -> KD S) (acc : S) : KD S := fun d => d_fold (1 + length (kd_rest d)) n step acc d.
Definition d_list {A} (dec : KD A) : KD (list A) := n ← d_u64; d_times n (d_push dec) [].

(** [dec_value]: the nesting is at most the bytes left. *)
Definition d_insert (dec : KD Value) (m : PropertyMap) : KD PropertyMap := k ← d_str; v ← dec; mret (btree_insert m k v).
Fixpoint d_value (fuel : nat) : KD Value :=
  match fuel with
  | O => d_fail "out of fuel"
  | S fuel =>
      t ← d_u8;
      match t with
      | 0 => mret VNull
      | 1 => b ← d_bool; mret (VBool b)
      | 2 => i ← d_i64; mret (VInt i)
      | 3 => f ← d_u64; mret (VFloat f)
      | 4 => s ← d_str; mret (VText s)
      | 5 => b ← d_bytes; mret (VBytes b)
      | 6 => n ← d_u64; xs ← d_fold fuel n (d_push (d_value fuel)) []; mret (VList xs)
      | 7 => n ← d_u64; m ← d_fold fuel n (d_insert (d_value fuel)) []; mret (VMap m)
      | _ => d_fail "invalid value tag"
      end
  end.
Definition dec_value : KD Value := fun d => d_value (1 + length (kd_rest d)) d.
Definition dec_map : KD PropertyMap := n ← d_u64; d_times n (d_insert dec_value) [].

(** [dec_origin], [dec_semantic], [decode_ko]. *)
Definition dec_origin : KD Origin.t :=
  t ← d_u8;
  match t with
  | 0 => mret Origin.Human
  | 1 => s ← d_str; mret (Origin.Agent s)
  | 2 => mret Origin.SemanticEnrichment
  | 3 => mret Origin.Reason
  | 4 => mret Origin.System
  | _ => d_fail "invalid origin tag"
  end.
Definition dec_semantic : KD SemanticBlock :=
  model ← d_opt_str; emb ← d_opt (d_list d_u32); conf ← d_opt d_u32; src ← d_opt_str; sum ← d_opt_str;
  mret (mkSemanticBlock model emb conf src sum).
Definition dec_metadata : KD Metadata :=
  ty ← d_str; te ← d_opt_str; sv ← d_u32; ts ← d_list d_str; mret (mkMetadata ty te sv ts).
Definition dec_rel : KD RelationshipRef :=
  rt ← d_str; tg ← d_koid; dir ← dec_tag Direction.from_tag; mret (mkRelationshipRef rt tg dir).
Definition dec_event_ref : KD EventRef := s ← d_u64; k ← dec_tag EventKind.from_tag; ts ← d_u64; mret (mkEventRef s k ts).
Definition dec_acl : KD AclEntry :=
  p ← d_str; a ← dec_tag Action.from_tag; e ← dec_tag Effect.from_tag; mret (mkAclEntry p a e).
Definition dec_security : KD SecurityDescriptor := o ← d_str; l ← d_list dec_acl; c ← d_opt_str; mret (mkSecurityDescriptor o l c).
Definition dec_lifecycle : KD Lifecycle := s ← dec_tag LifecycleState.from_tag; o ← dec_origin; mret (mkLifecycle s o).
Definition dec_ko : KD KnowledgeObject :=
  k ← d_koid; v ← d_u64; ts ← d_u64; md ← dec_metadata; props ← dec_map; sem ← d_opt dec_semantic;
  rels ← d_list dec_rel; evs ← d_list dec_event_ref; sec ← dec_security; lc ← dec_lifecycle; ext ← dec_map;
  mret (mkKnowledgeObject k v ts md props sem rels evs sec lc ext).
Definition run_kd {A} (p : KD A) (bs : bytes) : KResult A := '(a, _) ← p (d_new bs); KOk a.
Definition decode_ko (bs : bytes) : KResult KnowledgeObject := run_kd (ko ← dec_ko; _ ← d_finish; mret ko) bs.

(** [decode_ko_wire]: the envelope, or a payload from before it. *)
Definition decode_ko_wire (bs : bytes) : KResult KnowledgeObject :=
  if (zlen bs <? 8) || negb (bytes_eqb (ztake 7 bs) (ztake 7 WIRE_HEADER_V1)) then decode_ko bs
  else if be_val (zslice 7 8 bs) =? 1 then decode_ko (zdrop 8 bs) else KErr (Codec "unknown wire format version").

(** [decode_ke]: rows from before the signature field end early. *)
Definition dec_ke : KD KnowledgeEvent :=
  sq ← d_u64; k ← d_koid; v ← d_u64; kd ← dec_tag EventKind.from_tag; o ← dec_origin; a ← d_str; ts ← d_u64;
  ph ← d_take 32; pa ← d_take 32; ah ← d_take 32; sg ← d_opt_raw 32; nt ← d_opt_str;
  r ← d_remaining; asg ← (if 0 <? r then d_opt_raw 64 else mret None);
  mret (mkKnowledgeEvent sq k v kd o a ts ph pa ah sg asg nt).
Definition decode_ke (bs : bytes) : KResult KnowledgeEvent := run_kd (ke ← dec_ke; _ ← d_finish; mret ke) bs.

(* ------------------------------------------------------------------ *)
(** * The slim decoder *)

Record ScoringRecord : Type := mkScoringRecord {
  sc_koid : KOID; sc_type_name : bytes; sc_tenant : option bytes; sc_props : PropertyMap; sc_embedding : option (list Z);
  sc_embedding_model : option bytes; sc_security : SecurityDescriptor }.

(** [skip_str], [skip_value]. *)
Definition skip_str : KD unit := n ← d_u64; _ ← d_take n; mret tt.
Fixpoint s_value (fuel : nat) : KD unit :=
  match fuel with
  | O => d_fail "out of fuel"
  | S fuel =>
      t ← d_u8;
      match t with
      | 0 => mret tt
      | 1 => _ ← d_u8; mret tt
      | 2 | 3 => _ ← d_take 8; mret tt
      | 4 => skip_str
      | 5 => n ← d_u64; _ ← d_take n; mret tt
      | 6 => n ← d_u64; d_fold fuel n (fun _ => s_value fuel) tt
      | 7 => n ← d_u64; d_fold fuel n (fun _ => _ ← skip_str; s_value fuel) tt
      | _ => d_fail "invalid value tag"
      end
  end.
Definition skip_value : KD unit := fun d => s_value (1 + length (kd_rest d)) d.

(** [decode_ko_scoring]. *)
Definition scoring_prop (required : list bytes) (props : PropertyMap) : KD PropertyMap :=
  key ← d_str;
  if existsb (bytes_eqb key) required then v ← dec_value; mret (btree_insert props key v)
  else _ ← skip_value; mret props.
Definition scoring_semantic : KD (option (list Z) * option bytes) :=
  t ← d_u8;
  match t with
  | 0 => mret (None, None)
  | 1 => model ← d_opt_str; emb ← d_opt (d_list d_u32); _ ← d_opt d_u32; _ ← d_opt_str; _ ← d_opt_str; mret (emb, model)
  | _ => d_fail "invalid semantic tag"
  end.
Definition dec_scoring (required : list bytes) : KD ScoringRecord :=
  k ← d_koid; _ ← d_u64; _ ← d_u64; ty ← d_str; te ← d_opt_str; _ ← d_u32;
  n ← d_u64; _ ← d_times n (fun _ => _ ← d_str; mret tt) tt;
  n ← d_u64; props ← d_times n (scoring_prop required) [];
  '(emb, model) ← scoring_semantic;
  n ← d_u64; _ ← d_times n (fun _ => _ ← d_str; _ ← d_take KOID_LEN; _ ← d_u8; mret tt) tt;
  n ← d_u64; _ ← d_times n (fun _ => _ ← d_u64; _ ← d_u8; _ ← d_u64; mret tt) tt;
  sec ← dec_security;
  mret (mkScoringRecord k ty te props emb model sec).
Definition decode_ko_scoring (bs : bytes) (required : list bytes) : KResult ScoringRecord := run_kd (dec_scoring required) bs.
