(* ===== verification/CodecProps.v ===== *)
(** The codec of the knowledge object model: round trips, strictness, the agreement of the
    slim decoder with the full one, and where they part. *)

From S2P Require Import Prelude Memtable Kom Codec.

(* ------------------------------------------------------------------ *)
(** * Reading back *)

(** In front of [bs], with room for the whole buffer, [p] consumes it and yields [a]. *)
Definition kreads {A} (p : KD A) (bs : bytes) (a : A) : Prop :=
  forall pos rest, 0 <= pos -> pos + zlen bs + zlen rest < USIZE -> p (mkKDec pos (bs ++ rest)) = KOk (a, mkKDec (pos + zlen bs) rest).

Lemma kreads_ret {A} (a : A) : kreads (mret a) [] a.
Proof. intros pos rest _ _. cbn. by rewrite Z.add_0_r. Qed.
Lemma kreads_bind {A B} (p : KD A) (f : A -> KD B) x y a b : kreads p x a -> kreads (f a) y b -> kreads (p ≫= f) (x ++ y) b.
Proof.
  intros Hp Hf pos rest H0 Hu. rewrite zlen_app in *. pose proof (zlen_nonneg x). pose proof (zlen_nonneg y). rewrite <-app_assoc.
  unfold mbind, KD_bind. rewrite Hp by (rewrite ?zlen_app; lia). rewrite Hf by lia. by rewrite Z.add_assoc.
Qed.
Lemma kreads_map {A B} (p : KD A) (f : A -> KD B) x a b : kreads p x a -> kreads (f a) [] b -> kreads (p ≫= f) x b.
Proof. intros Hp Hf. rewrite <-(app_nil_r x). by eapply kreads_bind. Qed.
Lemma kreads_take n bs : zlen bs = n -> kreads (d_take n) bs bs.
Proof.
  intros <- pos rest H0 Hu. unfold d_take. cbn [kd_pos kd_rest]. pose proof (zlen_nonneg rest). rewrite (proj2 (Z.leb_gt _ _)) by lia. rewrite zlen_app.
  rewrite (proj2 (Z.ltb_ge _ _)) by lia. by rewrite ztake_app, zdrop_app.
Qed.
Lemma kreads_be {A} n (f : Z -> KD A) z y a : 0 <= z < 256 ^ Z.of_nat n -> kreads (f z) y a -> kreads (bs ← d_take (Z.of_nat n); f (be_val bs)) (be_bytes n z ++ y) a.
Proof. intros Hz Hf. eapply kreads_bind; [apply kreads_take, zlen_be_bytes|]. by rewrite be_val_bytes. Qed.
Lemma kreads_int n z : 0 <= z < 256 ^ Z.of_nat n -> kreads (bs ← d_take (Z.of_nat n); mret (be_val bs)) (be_bytes n z) z.
Proof. intros Hz. rewrite <-(app_nil_r (be_bytes n z)). apply (kreads_be n mret); [done | apply kreads_ret]. Qed.
Lemma kreads_u64 z : is_u64 z -> kreads d_u64 (e_u64 z) z.
Proof. exact (kreads_int 8 z). Qed.
Lemma kreads_u32 z : is_u32 z -> kreads d_u32 (e_u32 z) z.
Proof. exact (kreads_int 4 z). Qed.
Lemma kreads_u8 z : is_u8 z -> kreads d_u8 (e_u8 z) z.
Proof. exact (kreads_int 1 z). Qed.
Lemma kreads_i64 z : - 2 ^ 63 <= z < 2 ^ 63 -> kreads d_i64 (e_i64 z) z.
Proof.
  intros Hz. eapply kreads_map; [apply kreads_u64; unfold is_u64; apply Z.mod_pos_bound; done|]. cbn beta.
  assert ((if z mod U64 <? 2 ^ 63 then z mod U64 else z mod U64 - U64) = z) as ->; [|apply kreads_ret].
  unfold U64 in *. destruct (Z_lt_le_dec z 0).
  - assert (z mod 2 ^ 64 = z + 2 ^ 64) as -> by (symmetry; apply Z.mod_unique with (-1); lia). rewrite (proj2 (Z.ltb_ge _ _)) by lia. lia.
  - rewrite Z.mod_small by lia. by rewrite (proj2 (Z.ltb_lt _ _)) by lia.
Qed.
Lemma kreads_bool b : kreads d_bool (e_bool b) b.
Proof. eapply kreads_map; [apply kreads_u8; by destruct b|]. destruct b; apply kreads_ret. Qed.

(** A length prefix fits because what it counts does. *)
Lemma kreads_fits {A} (p : KD A) bs a : (zlen bs < USIZE -> kreads p bs a) -> kreads p bs a.
Proof. intros H pos rest H0 Hu. pose proof (zlen_nonneg rest). apply H; lia. Qed.
Lemma kreads_bytes b : kreads d_bytes (e_bytes b) b.
Proof.
  apply kreads_fits. unfold e_bytes. rewrite zlen_app. unfold e_u64 at 1. rewrite zlen_be_bytes. intros Hb. pose proof (zlen_nonneg b).
  eapply kreads_bind; [apply kreads_u64; unfold is_u64, U64, USIZE in *; lia|]. by apply kreads_take.
Qed.
Lemma kreads_str s : utf8_valid s = true -> kreads d_str (e_str s) s.
Proof. intros Hs. eapply kreads_map; [apply kreads_bytes|]. rewrite Hs. apply kreads_ret. Qed.
Lemma kreads_opt {A} (dec : KD A) enc o : (forall a, o = Some a -> kreads dec (enc a) a) -> kreads (d_opt dec) (e_opt enc o) o.
Proof.
  intros H. destruct o as [a|]; unfold d_opt, e_opt.
  - eapply kreads_bind; [by apply kreads_u8|]. cbn beta iota. eapply kreads_map; [by apply H | apply kreads_ret].
  - eapply kreads_map; [by apply kreads_u8 | apply kreads_ret].
Qed.
Lemma kreads_koid k : koid_wf k -> kreads d_koid (koid_bytes k) k.
Proof. intros Hk. eapply kreads_map; [by apply kreads_take|]. destruct k. apply kreads_ret. Qed.
Lemma kreads_tag {A} (f : Z -> option A) t a : is_u8 t -> f t = Some a -> kreads (dec_tag f) (e_u8 t) a.
Proof. intros Ht Hf. eapply kreads_map; [by apply kreads_u8|]. rewrite Hf. apply kreads_ret. Qed.

(** The counted loop. *)
Lemma kreads_fold {A S} (step : S -> KD S) (enc : A -> bytes) (g : S -> A -> S) l : forall fuel acc,
  (length l <= fuel)%nat ->
  (forall l1 a l2, l = l1 ++ a :: l2 -> kreads (step (fold_left g l1 acc)) (enc a) (fold_left g (l1 ++ [a]) acc)) ->
  kreads (d_fold fuel (zlen l) step acc) (flat_map enc l) (fold_left g l acc).
Proof.
  induction l as [|a l IH]; intros fuel acc Hf Hs.
  { destruct fuel; apply kreads_ret. }
  destruct fuel as [|fuel]; [cbn in Hf; lia|]. rewrite zlen_cons. pose proof (zlen_nonneg l). cbn [d_fold flat_map fold_left].
  rewrite (proj2 (Z.leb_gt _ _)) by lia. replace (1 + zlen l - 1) with (zlen l) by lia.
  eapply kreads_bind; [exact (Hs [] a l eq_refl)|]. apply IH; [cbn in Hf; lia|]. intros l1 b l2 ->. exact (Hs (a :: l1) b l2 eq_refl).
Qed.
Lemma flat_map_length {A} (enc : A -> bytes) l : (forall a, a ∈ l -> enc a <> []) -> (length l <= length (flat_map enc l))%nat.
Proof.
  induction l as [|a l IH]; intros H; [done|]. cbn [flat_map length]. rewrite length_app. specialize (IH ltac:(set_solver)).
  assert (enc a <> []) by (apply H; set_solver). destruct (enc a); [done|]. cbn. lia.
Qed.
Lemma kreads_times {A S} (step : S -> KD S) (enc : A -> bytes) (g : S -> A -> S) l acc :
  (forall a, a ∈ l -> enc a <> []) ->
  (forall l1 a l2, l = l1 ++ a :: l2 -> kreads (step (fold_left g l1 acc)) (enc a) (fold_left g (l1 ++ [a]) acc)) ->
  kreads (d_times (zlen l) step acc) (flat_map enc l) (fold_left g l acc).
Proof.
  intros Hn Hs pos rest H0 Hu. unfold d_times. cbn [kd_rest]. apply kreads_fold; [|done|done|done].
  rewrite length_app. pose proof (flat_map_length enc l Hn). lia.
Qed.
Lemma kreads_counted {A S} (f : Z -> KD S) (enc : A -> bytes) l x :
  (forall a, a ∈ l -> enc a <> []) -> kreads (f (zlen l)) (flat_map enc l) x -> kreads (n ← d_u64; f n) (e_list enc l) x.
Proof.
  intros Hn Hf. apply kreads_fits. unfold e_list. rewrite zlen_app. unfold e_u64 at 1. rewrite zlen_be_bytes. intros Hu.
  pose proof (flat_map_length enc l Hn). pose proof (zlen_nonneg l). eapply kreads_bind; [apply kreads_u64|done]. unfold is_u64, U64, USIZE, zlen in *. lia.
Qed.
Lemma push_fold {A} (l acc : list A) : fold_left (fun l a => l ++ [a]) l acc = acc ++ l.
Proof. revert acc. induction l as [|a l IH]; intros acc; cbn; [by rewrite app_nil_r|]. rewrite IH. by rewrite <-app_assoc. Qed.
Lemma kreads_push {A} (dec : KD A) bs a l : kreads dec bs a -> kreads (d_push dec l) bs (l ++ [a]).
Proof. intros H. eapply kreads_map; [exact H | apply kreads_ret]. Qed.
Lemma kreads_list {A} (dec : KD A) enc l : Forall (fun a => kreads dec (enc a) a /\ enc a <> []) l -> kreads (d_list dec) (e_list enc l) l.
Proof.
  intros Hl. rewrite Forall_forall in Hl. apply kreads_counted; [intros a Ha; by apply Hl|].
  rewrite <-(app_nil_l l) at 3. rewrite <-(push_fold l []). apply kreads_times; [intros a Ha; by apply Hl|]. intros l1 a l2 ->.
  rewrite !push_fold. cbn [app]. apply kreads_push, Hl. set_solver.
Qed.

(* ------------------------------------------------------------------ *)
(** * Values *)

Section ValueInd.
Context (P : Value -> Prop) (Hnull : P VNull) (Hbool : forall b, P (VBool b)) (Hint : forall i, P (VInt i)) (Hfloat : forall f, P (VFloat f)).
Context (Htext : forall s, P (VText s)) (Hbytes : forall b, P (VBytes b)).
Context (Hlist : forall xs, Forall P xs -> P (VList xs)) (Hmap : forall m, Forall (fun kv => P kv.2) m -> P (VMap m)).
Fixpoint value_ind (v : Value) : P v :=
  match v with
  | VNull => Hnull | VBool b => Hbool b | VInt i => Hint i | VFloat f => Hfloat f | VText s => Htext s | VBytes b => Hbytes b
  | VList xs => Hlist xs ((fix go l := match l return Forall P l with [] => Forall_nil_2 P | x :: l => Forall_cons_2 P x l (value_ind x) (go l) end) xs)
  | VMap m => Hmap m ((fix go l := match l return Forall (fun kv => P kv.2) l with
                                    | [] => Forall_nil_2 _ | x :: l => Forall_cons_2 (fun kv => P kv.2) x l (value_ind x.2) (go l) end) m)
  end.
End ValueInd.

(** Integers in range, strings valid, map keys ascending. *)
Fixpoint keys_ascend {V} (m : list (bytes * V)) : bool :=
  match m with
  | (k, _) :: m' => match m' with (k', _) :: _ => bytes_ltb k k' | [] => true end && keys_ascend m'
  | [] => true
  end.
Fixpoint value_wf (v : Value) : bool :=
  match v with
  | VNull | VBool _ | VBytes _ => true
  | VInt i => (- 2 ^ 63 <=? i) && (i <? 2 ^ 63)
  | VFloat f => (0 <=? f) && (f <? U64)
  | VText s => utf8_valid s
  | VList xs => forallb value_wf xs
  | VMap m => keys_ascend m && forallb (fun kv => utf8_valid kv.1 && value_wf kv.2) m
  end.
Definition map_wf (m : PropertyMap) : bool := keys_ascend m && forallb (fun kv => utf8_valid kv.1 && value_wf kv.2) m.

Lemma keys_ascend_sorted {V} (m : list (bytes * V)) : keys_ascend m = true -> keys_sorted m.
Proof.
  intros H. apply Sorted_StronglySorted; [intros a b c Ha Hb; by etrans|]. induction m as [|[k v] m IH]; constructor.
  - apply IH. cbn in H. by apply andb_true_iff in H as [_ ?].
  - cbn in H. apply andb_true_iff in H as [H _]. destruct m as [|[k' v'] m]; constructor. by apply bytes_ltb_lt.
Qed.
Lemma btree_insert_last {V} (m : list (bytes * V)) k v : Forall (fun x => bytes_lt x.1 k) m -> btree_insert m k v = m ++ [(k, v)].
Proof.
  induction 1 as [|[k' v'] m Hk _ IH]; [done|]. cbn in Hk |- *. rewrite bytes_compare_antisym, Hk. cbn. by rewrite IH.
Qed.
Lemma insert_fold {V} (m : list (bytes * V)) : keys_sorted m -> fold_left (fun m kv => btree_insert m kv.1 kv.2) m [] = m.
Proof.
  induction m as [|x m IH] using rev_ind; intros Hs; [done|]. rewrite fold_left_app. pose proof (sorted_app_inv _ _ _ Hs) as [Hm _]. rewrite IH by done. cbn.
  destruct x as [k v]. apply btree_insert_last, Forall_forall. intros y Hy. exact (sorted_app_rel _ _ _ y (k, v) Hs Hy ltac:(set_solver)).
Qed.

Lemma e_u8_ne z bs : e_u8 z ++ bs <> [].
Proof. done. Qed.
Lemma enc_value_ne v : enc_value v <> [].
Proof. by destruct v. Qed.
Lemma e_str_ne s bs : e_str s ++ bs <> [].
Proof. intros E. apply (f_equal zlen) in E. unfold e_str, e_bytes, e_u64 in E. rewrite !zlen_app, zlen_be_bytes in E. pose proof (zlen_nonneg s). pose proof (zlen_nonneg bs). rewrite zlen_nil in E. lia. Qed.
Lemma enc_entry_ne kv : enc_entry kv <> [].
Proof. exact (e_str_ne kv.1 (enc_value kv.2)). Qed.
Lemma flat_map_part {A} (enc : A -> bytes) l a : a ∈ l -> (length (enc a) <= length (flat_map enc l))%nat.
Proof. induction l as [|b l IH]; [set_solver|]. cbn. rewrite length_app. intros [->|H]%elem_of_cons; [lia | specialize (IH H); lia]. Qed.

Lemma kreads_value v : forall fuel, value_wf v = true -> (length (enc_value v) <= fuel)%nat -> kreads (d_value fuel) (enc_value v) v.
Proof.
  induction v as [| | | | | |xs IH|m IH] using value_ind; intros fuel Hw Hf; (destruct fuel as [|fuel]; [cbn in Hf; lia|]); cbn [d_value enc_value value_wf] in *.
  - eapply kreads_map; [by apply kreads_u8 | apply kreads_ret].
  - eapply kreads_bind; [by apply kreads_u8|]. eapply kreads_map; [apply kreads_bool | apply kreads_ret].
  - eapply kreads_bind; [by apply kreads_u8|]. bool_to_prop. eapply kreads_map; [apply kreads_i64; lia | apply kreads_ret].
  - eapply kreads_bind; [by apply kreads_u8|]. bool_to_prop. eapply kreads_map; [by apply kreads_u64 | apply kreads_ret].
  - eapply kreads_bind; [by apply kreads_u8|]. eapply kreads_map; [by apply kreads_str | apply kreads_ret].
  - eapply kreads_bind; [by apply kreads_u8|]. eapply kreads_map; [by apply kreads_bytes | apply kreads_ret].
  - rewrite !length_app in Hf. change (length (e_u8 6)) with 1%nat in Hf. change (length (e_u64 (zlen xs))) with 8%nat in Hf.
    pose proof (flat_map_length enc_value xs ltac:(intros; apply enc_value_ne)).
    eapply kreads_bind; [by apply kreads_u8|]. cbn beta iota. change (e_u64 (zlen xs) ++ flat_map enc_value xs) with (e_list enc_value xs).
    apply (kreads_counted (fun n => xs ← d_fold fuel n (d_push (d_value fuel)) []; mret (VList xs))); [intros; apply enc_value_ne|].
    apply (kreads_map _ _ _ xs); [|apply kreads_ret]. rewrite <-(app_nil_l xs) at 3. rewrite <-(push_fold xs []). apply kreads_fold; [lia|].
    intros l1 a l2 ->. rewrite !push_fold. cbn [app]. apply kreads_push. rewrite Forall_forall in IH. rewrite forallb_forall in Hw.
    assert (a ∈ l1 ++ a :: l2) as Ha by set_solver. apply IH; [done | by apply Hw, list_elem_of_In|]. pose proof (flat_map_part enc_value _ _ Ha). lia.
  - apply andb_true_iff in Hw as [Hs Hw]. apply keys_ascend_sorted in Hs. rewrite !length_app in Hf. change (length (e_u8 7)) with 1%nat in Hf. change (length (e_u64 (zlen m))) with 8%nat in Hf.
    change (fun kv => e_str kv.1 ++ enc_value kv.2) with enc_entry in *. pose proof (flat_map_length enc_entry m ltac:(intros; apply enc_entry_ne)).
    eapply kreads_bind; [by apply kreads_u8|]. cbn beta iota. change (e_u64 (zlen m) ++ flat_map enc_entry m) with (e_list enc_entry m).
    apply (kreads_counted (fun n => m ← d_fold fuel n (d_insert (d_value fuel)) []; mret (VMap m))); [intros; apply enc_entry_ne|].
    apply (kreads_map _ _ _ m); [|apply kreads_ret]. rewrite <-(insert_fold m Hs) at 3. apply kreads_fold; [lia|].
    intros l1 [k a] l2 ->. rewrite fold_left_app. cbn [fold_left fst snd]. rewrite Forall_forall in IH. rewrite forallb_forall in Hw.
    assert ((k, a) ∈ l1 ++ (k, a) :: l2) as Ha by set_solver. pose proof (Hw _ (proj1 (list_elem_of_In _ _) Ha)) as [Hk Hv]%andb_true_iff. cbn [fst snd] in *.
    unfold d_insert, enc_entry. cbn [fst snd]. eapply kreads_bind; [by apply kreads_str|]. eapply kreads_map; [|apply kreads_ret].
    apply (IH (k, a)); [done | done|]. pose proof (flat_map_part enc_entry _ _ Ha) as Hl. unfold enc_entry in Hl at 1. cbn [fst snd] in Hl. rewrite length_app in Hl. cbn [snd]. lia.
Qed.
Lemma kreads_dec_value v : value_wf v = true -> kreads dec_value (enc_value v) v.
Proof.
  intros Hw pos rest H0 Hu. unfold dec_value. cbn [kd_rest]. apply kreads_value; [done | | done | done]. rewrite length_app. lia.
Qed.
Lemma kreads_dec_map m : map_wf m = true -> kreads dec_map (enc_map m) m.
Proof.
  intros [Hs Hw]%andb_true_iff. apply keys_ascend_sorted in Hs. apply (kreads_counted (fun n => d_times n (d_insert dec_value) [])); [intros; apply enc_entry_ne|].
  rewrite <-(insert_fold m Hs) at 3. apply kreads_times; [intros; apply enc_entry_ne|]. intros l1 [k a] l2 ->. rewrite fold_left_app. cbn [fold_left fst snd].
  rewrite forallb_forall in Hw. pose proof (Hw (k, a) ltac:(apply list_elem_of_In; set_solver)) as [Hk Hv]%andb_true_iff. cbn [fst snd] in *.
  unfold d_insert, enc_entry. cbn [fst snd]. eapply kreads_bind; [by apply kreads_str|]. eapply kreads_map; [by apply kreads_dec_value | apply kreads_ret].
Qed.

(* ------------------------------------------------------------------ *)
(** * Objects and events *)

(** The type invariants of the source: widths, array lengths, valid strings. *)
Definition fits_in (hi z : Z) : bool := (0 <=? z) && (z <? hi).
Definition opt_wf {A} (wf : A -> bool) (o : option A) : bool := match o with Some a => wf a | None => true end.
Definition len_is (n : Z) (b : bytes) : bool := zlen b =? n.
Definition metadata_wf (m : Metadata) : bool :=
  utf8_valid (type_name m) && opt_wf utf8_valid (tenant m) && fits_in U32 (schema_version m) && forallb utf8_valid (tags m).
Definition semantic_wf (s : SemanticBlock) : bool :=
  opt_wf utf8_valid (embedding_model s) && opt_wf (forallb (fits_in U32)) (embedding s) && opt_wf (fits_in U32) (confidence s) &&
  opt_wf utf8_valid (sb_source s) && opt_wf utf8_valid (summary s).
Definition rel_wf (r : RelationshipRef) : bool := utf8_valid (rel_type r) && len_is KOID_LEN (koid_bytes (target r)).
Definition event_ref_wf (r : EventRef) : bool := fits_in U64 (er_seq r) && fits_in U64 (er_commit_ts r).
Definition security_wf (s : SecurityDescriptor) : bool :=
  utf8_valid (owner s) && forallb (fun a => utf8_valid (principal a)) (acl s) && opt_wf utf8_valid (classification s).
Definition origin_wf (o : Origin.t) : bool := match o with Origin.Agent id => utf8_valid id | _ => true end.
Definition ko_wf (ko : KnowledgeObject) : bool :=
  len_is KOID_LEN (koid_bytes (ko_koid ko)) && fits_in U64 (ko_version ko) && fits_in U64 (ko_commit_ts ko) && metadata_wf (ko_metadata ko) &&
  map_wf (ko_properties ko) && opt_wf semantic_wf (ko_semantic ko) && forallb rel_wf (ko_relationships ko) &&
  forallb event_ref_wf (ko_event_refs ko) && security_wf (ko_security ko) && origin_wf (lc_origin (ko_lifecycle ko)) && map_wf (ko_extensions ko).
Definition ke_wf (ke : KnowledgeEvent) : bool :=
  fits_in U64 (ke_seq ke) && len_is KOID_LEN (koid_bytes (ke_koid ke)) && fits_in U64 (ke_version ke) && origin_wf (ke_origin ke) &&
  utf8_valid (ke_actor ke) && fits_in U64 (ke_commit_ts ke) && len_is 32 (ke_payload_hash ke) && len_is 32 (ke_prev_audit_hash ke) &&
  len_is 32 (ke_audit_hash ke) && opt_wf (len_is 32) (ke_signature ke) && opt_wf utf8_valid (ke_note ke) && opt_wf (len_is 64) (ke_audit_signature ke).

Lemma fits_in_iff hi z : fits_in hi z = true <-> 0 <= z < hi.
Proof. unfold fits_in. rewrite andb_true_iff, Z.leb_le, Z.ltb_lt. done. Qed.
Lemma len_is_iff n b : len_is n b = true <-> zlen b = n.
Proof. apply Z.eqb_eq. Qed.

#[global] Arguments be_bytes : simpl never.
#[global] Arguments e_u8 : simpl never.
#[global] Arguments e_u32 : simpl never.
#[global] Arguments e_u64 : simpl never.
#[global] Arguments e_str : simpl never.
#[global] Arguments e_opt : simpl never.
#[global] Arguments e_list : simpl never.
#[global] Arguments enc_map : simpl never.

(** The reading lemmas of the pieces, and the step that walks a decoder along its encoding. *)
Lemma kreads_u64b z : fits_in U64 z = true -> kreads d_u64 (e_u64 z) z.
Proof. intros H%fits_in_iff. by apply kreads_u64. Qed.
Lemma kreads_u32b z : fits_in U32 z = true -> kreads d_u32 (e_u32 z) z.
Proof. intros H%fits_in_iff. by apply kreads_u32. Qed.
Lemma kreads_koidb k : len_is KOID_LEN (koid_bytes k) = true -> kreads d_koid (koid_bytes k) k.
Proof. intros H%len_is_iff. by apply kreads_koid. Qed.
Lemma kreads_takeb n b : len_is n b = true -> kreads (d_take n) b b.
Proof. intros H%len_is_iff. by apply kreads_take. Qed.
Lemma kreads_optb {A} (dec : KD A) enc wf o : (forall a, wf a = true -> kreads dec (enc a) a) -> opt_wf wf o = true -> kreads (d_opt dec) (e_opt enc o) o.
Proof. intros H Hw. apply kreads_opt. intros a ->. by apply H. Qed.
Lemma kreads_listb {A} (dec : KD A) enc wf l :
  (forall a, wf a = true -> kreads dec (enc a) a) -> (forall a, enc a <> []) -> forallb wf l = true -> kreads (d_list dec) (e_list enc l) l.
Proof. intros H Hn Hw. apply kreads_list, Forall_forall. intros a Ha. rewrite forallb_forall in Hw. split; [apply H, Hw; by apply list_elem_of_In | done]. Qed.
Lemma be_bytes_ne n z bs : be_bytes (S n) z ++ bs <> [].
Proof. intros E. apply (f_equal zlen) in E. rewrite zlen_app, zlen_be_bytes, zlen_nil in E. pose proof (zlen_nonneg bs). lia. Qed.

Lemma kreads_origin o : origin_wf o = true -> kreads dec_origin (enc_origin o) o.
Proof.
  intros Hw. destruct o; cbn [enc_origin]; try (eapply kreads_map; [by apply kreads_u8 | apply kreads_ret]).
  eapply kreads_bind; [by apply kreads_u8|]. eapply kreads_map; [by apply kreads_str | apply kreads_ret].
Qed.
Lemma kreads_dir d : kreads (dec_tag Direction.from_tag) (e_u8 (Direction.tag d)) d.
Proof. apply kreads_tag; by destruct d. Qed.
Lemma kreads_kind k : kreads (dec_tag EventKind.from_tag) (e_u8 (EventKind.tag k)) k.
Proof. apply kreads_tag; by destruct k. Qed.
Lemma kreads_action a : kreads (dec_tag Action.from_tag) (e_u8 (Action.tag a)) a.
Proof. apply kreads_tag; by destruct a. Qed.
Lemma kreads_effect e : kreads (dec_tag Effect.from_tag) (e_u8 (Effect.tag e)) e.
Proof. apply kreads_tag; by destruct e. Qed.
Lemma kreads_state s : kreads (dec_tag LifecycleState.from_tag) (e_u8 (LifecycleState.tag s)) s.
Proof. apply kreads_tag; by destruct s. Qed.
Lemma kreads_opt_str o : opt_wf utf8_valid o = true -> kreads d_opt_str (e_opt_str o) o.
Proof. apply (kreads_optb d_str e_str utf8_valid). apply kreads_str. Qed.
Lemma kreads_opt_raw n o : opt_wf (len_is n) o = true -> kreads (d_opt_raw n) (e_opt_raw o) o.
Proof. apply (kreads_optb (d_take n) id (len_is n)). apply kreads_takeb. Qed.

Create HintDb codec.
#[export] Hint Resolve kreads_u64b kreads_u32b kreads_koidb kreads_takeb kreads_str kreads_bytes kreads_origin kreads_dir kreads_kind
  kreads_action kreads_effect kreads_state kreads_opt_str kreads_opt_raw kreads_dec_map : codec.
Ltac kread_step := first [eapply kreads_bind; [solve [eauto with codec]|] | eapply kreads_map; [solve [eauto with codec] | try apply kreads_ret]].
Ltac kread := repeat kread_step.

Lemma kreads_tags l : forallb utf8_valid l = true -> kreads (d_list d_str) (e_list e_str l) l.
Proof. apply kreads_listb; [apply kreads_str|]. intros a. rewrite <-(app_nil_r (e_str a)). apply e_str_ne. Qed.
Lemma kreads_floats l : forallb (fits_in U32) l = true -> kreads (d_list d_u32) (e_list e_u32 l) l.
Proof. apply kreads_listb; [apply kreads_u32b|]. intros a. rewrite <-(app_nil_r (e_u32 a)). apply be_bytes_ne. Qed.
#[export] Hint Resolve kreads_tags kreads_floats : codec.
Lemma kreads_embedding o : opt_wf (forallb (fits_in U32)) o = true -> kreads (d_opt (d_list d_u32)) (e_opt (e_list e_u32) o) o.
Proof. apply kreads_optb, kreads_floats. Qed.
Lemma kreads_confidence o : opt_wf (fits_in U32) o = true -> kreads (d_opt d_u32) (e_opt e_u32 o) o.
Proof. apply kreads_optb, kreads_u32b. Qed.
#[export] Hint Resolve kreads_embedding kreads_confidence : codec.

Lemma kreads_metadata m : metadata_wf m = true -> kreads dec_metadata (enc_metadata m) m.
Proof. destruct m. unfold metadata_wf. cbn. intros H. bool_to_prop. unfold dec_metadata, enc_metadata. cbn. kread. Qed.
Lemma kreads_semantic s : semantic_wf s = true -> kreads dec_semantic (enc_semantic s) s.
Proof. destruct s. unfold semantic_wf. cbn. intros H. bool_to_prop. unfold dec_semantic, enc_semantic. cbn. kread. Qed.
Lemma kreads_rel r : rel_wf r = true -> kreads dec_rel (enc_rel r) r.
Proof. destruct r. unfold rel_wf. cbn. intros H. bool_to_prop. unfold dec_rel, enc_rel. cbn. kread. Qed.
Lemma kreads_event_ref r : event_ref_wf r = true -> kreads dec_event_ref (enc_event_ref r) r.
Proof. destruct r. unfold event_ref_wf. cbn. intros H. bool_to_prop. unfold dec_event_ref, enc_event_ref. cbn. kread. Qed.
Lemma kreads_acl a : utf8_valid (principal a) = true -> kreads dec_acl (enc_acl a) a.
Proof. destruct a. cbn. intros H. unfold dec_acl, enc_acl. cbn. kread. Qed.
Lemma kreads_acls l : forallb (fun a => utf8_valid (principal a)) l = true -> kreads (d_list dec_acl) (e_list enc_acl l) l.
Proof. apply kreads_listb; [apply kreads_acl|]. intros a. exact (e_str_ne (principal a) _). Qed.
Lemma kreads_rels l : forallb rel_wf l = true -> kreads (d_list dec_rel) (e_list enc_rel l) l.
Proof. apply kreads_listb; [apply kreads_rel|]. intros a. exact (e_str_ne (rel_type a) _). Qed.
Lemma kreads_event_refs l : forallb event_ref_wf l = true -> kreads (d_list dec_event_ref) (e_list enc_event_ref l) l.
Proof. apply kreads_listb; [apply kreads_event_ref|]. intros a. exact (be_bytes_ne 7 (er_seq a) _). Qed.
#[export] Hint Resolve kreads_metadata kreads_acls kreads_rels kreads_event_refs : codec.
Lemma kreads_security s : security_wf s = true -> kreads dec_security (enc_security s) s.
Proof. destruct s. unfold security_wf. cbn. intros H. bool_to_prop. unfold dec_security, enc_security. cbn. kread. Qed.
Lemma kreads_lifecycle l : origin_wf (lc_origin l) = true -> kreads dec_lifecycle (enc_lifecycle l) l.
Proof. destruct l. cbn. intros H. unfold dec_lifecycle, enc_lifecycle. cbn. kread. Qed.
Lemma kreads_semantics o : opt_wf semantic_wf o = true -> kreads (d_opt dec_semantic) (e_opt enc_semantic o) o.
Proof. apply kreads_optb, kreads_semantic. Qed.
#[export] Hint Resolve kreads_security kreads_lifecycle kreads_semantics : codec.

Lemma kreads_ko ko : ko_wf ko = true -> kreads dec_ko (encode_ko ko) ko.
Proof. destruct ko. unfold ko_wf. cbn. intros H. bool_to_prop. unfold dec_ko, encode_ko. cbn. kread. Qed.

(** A decoder that must end at the end of the buffer. *)
Lemma run_finish {A} (p : KD A) bs a : kreads p bs a -> zlen bs < USIZE -> run_kd (x ← p; _ ← d_finish; mret x) bs = KOk a.
Proof.
  intros Hp Hu. unfold run_kd, mbind, KD_bind, KResult_bind, d_new. rewrite <-(app_nil_r bs). assert (0 + zlen bs + zlen (@nil byte) < USIZE) as Hs by (change (zlen (@nil byte)) with 0; lia). rewrite (Hp 0 [] ltac:(lia) Hs). done.
Qed.
Lemma run_trailing {A} (p : KD A) bs a b rest :
  kreads p bs a -> zlen bs + zlen (b :: rest) < USIZE -> run_kd (x ← p; _ ← d_finish; mret x) (bs ++ b :: rest) = KErr (Codec "trailing bytes").
Proof. intros Hp Hu. unfold run_kd, mbind, KD_bind, KResult_bind, d_new. rewrite (Hp 0 (b :: rest)) by lia. done. Qed.

(** An event row from before the signature field. *)
Definition encode_ke_legacy (ke : KnowledgeEvent) : bytes :=
  e_u64 (ke_seq ke) ++ koid_bytes (ke_koid ke) ++ e_u64 (ke_version ke) ++ e_u8 (EventKind.tag (ke_kind ke)) ++ enc_origin (ke_origin ke) ++
  e_str (ke_actor ke) ++ e_u64 (ke_commit_ts ke) ++ ke_payload_hash ke ++ ke_prev_audit_hash ke ++ ke_audit_hash ke ++
  e_opt_raw (ke_signature ke) ++ e_opt_str (ke_note ke).

Lemma kreads_more {A B} (p q : KD A) (g : A -> KD B) bs b :
  bs <> [] -> kreads (a ← p; g a) bs b -> kreads (r ← d_remaining; a ← (if 0 <? r then p else q); g a) bs b.
Proof.
  intros Hn Hp pos rest H0 Hu. pose proof (Hp pos rest H0 Hu) as E. unfold mbind, KD_bind in *. cbn [d_remaining kd_rest]. rewrite (proj2 (Z.ltb_lt _ _)); [exact E|].
  rewrite zlen_app. destruct bs; [done|]. rewrite zlen_cons. pose proof (zlen_nonneg bs). pose proof (zlen_nonneg rest). lia.
Qed.
Lemma kreads_ke ke : ke_wf ke = true -> kreads dec_ke (encode_ke ke) ke.
Proof.
  destruct ke. unfold ke_wf. cbn. intros H. bool_to_prop. unfold dec_ke, encode_ke. cbn. do 12 (eapply kreads_bind; [solve [eauto with codec]|]).
  apply kreads_more; [by destruct ke_audit_signature|]. kread.
Qed.
Lemma decode_ke_legacy ke :
  ke_wf ke = true -> ke_audit_signature ke = None -> zlen (encode_ke_legacy ke) < USIZE -> decode_ke (encode_ke_legacy ke) = KOk ke.
Proof.
  destruct ke as [sq k v kd o a ts ph pa ah sg asg nt]. unfold ke_wf. cbn [ke_audit_signature]. intros H -> Hu. cbn in H. bool_to_prop.
  set (p := sq ← d_u64; k ← d_koid; v ← d_u64; kd ← dec_tag EventKind.from_tag; o ← dec_origin; a ← d_str; ts ← d_u64;
    ph ← d_take 32; pa ← d_take 32; ah ← d_take 32; sg ← d_opt_raw 32; nt ← d_opt_str; mret (mkKnowledgeEvent sq k v kd o a ts ph pa ah sg None nt)).
  set (ke := mkKnowledgeEvent sq k v kd o a ts ph pa ah sg None nt) in *.
  assert (kreads p (encode_ke_legacy ke) ke) as Hp by (unfold p, encode_ke_legacy; cbn; kread).
  specialize (Hp 0 [] ltac:(lia) ltac:(change (zlen (@nil byte)) with 0; lia)). rewrite app_nil_r in Hp.
  unfold decode_ke, run_kd, d_new. unfold mbind, KD_bind, KResult_bind in *. unfold p, dec_ke, mbind, KD_bind in *.
  repeat match goal with
  | H : match ?x with _ => _ end = KOk _ |- _ => destruct x as [[? ?]|?|]; [|discriminate H..]
  end.
  cbn in Hp. injection Hp as -> -> -> -> -> -> -> -> -> -> -> -> ->. done.
Qed.

(* ------------------------------------------------------------------ *)
(** * More fuel, and more bytes *)

(** [q] succeeds where [p] does, with the same outcome. *)
Definition kle {A} (p q : KD A) : Prop := forall d x, p d = KOk x -> q d = KOk x.
Lemma kle_refl {A} (p : KD A) : kle p p.
Proof. by intros d x. Qed.
Lemma kle_bind {A B} (p q : KD A) (f g : A -> KD B) : kle p q -> (forall a, kle (f a) (g a)) -> kle (p ≫= f) (q ≫= g).
Proof. intros Hp Hf d x. unfold mbind, KD_bind. destruct (p d) as [[a d']|e|] eqn:E; [|done..]. rewrite (Hp _ _ E). apply Hf. Qed.
Lemma kle_fold {S} (step step' : S -> KD S) f : forall f' n acc,
  (f <= f')%nat -> (forall acc, kle (step acc) (step' acc)) -> kle (d_fold f n step acc) (d_fold f' n step' acc).
Proof.
  induction f as [|f IH]; intros [|f'] n acc Hf Hs; try lia; cbn [d_fold]; (destruct (n <=? 0); [apply kle_refl|]); [done | by intros d x|].
  apply kle_bind; [done|]. intros a. apply IH; [lia | done].
Qed.
Lemma kle_value f : forall f', (f <= f')%nat -> kle (d_value f) (d_value f').
Proof.
  induction f as [|f IH]; intros [|f'] Hf; try lia; [by intros d x.. |]. cbn [d_value]. apply kle_bind; [apply kle_refl|]. intros t.
  assert (kle (d_value f) (d_value f')) as Hv by (apply IH; lia).
  destruct t as [|[[[|[]|]|[]|]|[[]|[]|]|]|]; try apply kle_refl; (apply kle_bind; [apply kle_refl|]; intros n; apply kle_bind; [|intros; apply kle_refl]; apply kle_fold; [lia|]; intros acc).
  - unfold d_insert. apply kle_bind; [apply kle_refl|]. intros k. apply kle_bind; [done | intros; apply kle_refl].
  - unfold d_push. apply kle_bind; [done | intros; apply kle_refl].
Qed.

(** Bytes after those read do not matter. *)
Definition kext {A} (p : KD A) : Prop :=
  forall pos s a pos' r t, p (mkKDec pos s) = KOk (a, mkKDec pos' r) -> p (mkKDec pos (s ++ t)) = KOk (a, mkKDec pos' (r ++ t)).
Lemma kext_ret {A} (a : A) : kext (mret a).
Proof. intros pos s b pos' r t. by intros [= -> -> ->]. Qed.
Lemma kext_fail {A} m : kext (@d_fail A m).
Proof. by intros pos s b pos' r t. Qed.
Lemma kext_bind {A B} (p : KD A) (f : A -> KD B) : kext p -> (forall a, kext (f a)) -> kext (p ≫= f).
Proof.
  intros Hp Hf pos s b pos' r t. unfold mbind, KD_bind. destruct (p (mkKDec pos s)) as [[a [q u]]|e|] eqn:E; [|done..]. rewrite (Hp _ _ _ _ _ t E). apply Hf.
Qed.
Lemma kext_take n : kext (d_take n).
Proof.
  intros pos s a pos' r t. unfold d_take. cbn [kd_pos kd_rest]. destruct (USIZE <=? pos + n); [done|]. destruct (zlen s <? n) eqn:E; [done|]. bool_to_prop.
  intros [= <- <- <-]. rewrite zlen_app. pose proof (zlen_nonneg t). rewrite (proj2 (Z.ltb_ge _ _)) by lia. unfold ztake, zdrop, zlen in *. by rewrite take_app_le, drop_app_le by lia.
Qed.
Lemma kext_fold {S} (step : S -> KD S) f : (forall acc, kext (step acc)) -> forall n acc, kext (d_fold f n step acc).
Proof.
  intros Hs. induction f as [|f IH]; intros n acc; cbn [d_fold]; (destruct (n <=? 0); [apply kext_ret|]); [apply kext_fail | by apply kext_bind].
Qed.
Create HintDb kext.
#[export] Hint Resolve kext_ret kext_fail kext_take kext_fold : kext.
Ltac kext_step :=
  match goal with
  | |- kext (_ ≫= _) => apply kext_bind; [|intros ?]
  | |- kext (match ?x with _ => _ end) => destruct x
  | |- kext (if ?x then _ else _) => destruct x
  | |- kext (d_u8) => unfold d_u8 | |- kext (d_u64) => unfold d_u64 | |- kext (d_u32) => unfold d_u32
  | |- kext (d_bool) => unfold d_bool | |- kext (d_i64) => unfold d_i64 | |- kext (d_bytes) => unfold d_bytes | |- kext (d_str) => unfold d_str
  | |- kext (d_opt _) => unfold d_opt | |- kext d_opt_str => unfold d_opt_str | |- kext (d_opt_raw _) => unfold d_opt_raw
  | |- kext (d_koid) => unfold d_koid | |- kext (dec_tag _) => unfold dec_tag | |- kext (d_push _ _) => unfold d_push
  | |- kext (d_insert _ _) => unfold d_insert
  | _ => solve [eauto with kext]
  end.
Lemma kext_value f : kext (d_value f).
Proof. induction f as [|f IH]; cbn [d_value]; [apply kext_fail|]. repeat kext_step; (apply kext_fold; intros acc; repeat kext_step). Qed.
Lemma kext_dec_value : kext dec_value.
Proof.
  intros pos s a pos' r t E. unfold dec_value in *. cbn [kd_rest] in *. eapply kle_value; [|by apply kext_value]. rewrite length_app. lia.
Qed.
Lemma kext_times {S} (step : S -> KD S) n acc : (forall acc, kext (step acc)) -> kext (d_times n step acc).
Proof.
  intros Hs pos s a pos' r t E. unfold d_times in *. cbn [kd_rest] in *. eapply kle_fold; [|intros; apply kle_refl | by apply kext_fold]. rewrite length_app. lia.
Qed.
#[export] Hint Resolve kext_dec_value : kext.
Lemma kext_list {A} (p : KD A) : kext p -> kext (d_list p).
Proof. intros Hp. unfold d_list. kext_step; [repeat kext_step|]. apply kext_times. intros acc. unfold d_push. by repeat kext_step. Qed.
Lemma kext_map : kext dec_map.
Proof. unfold dec_map. kext_step; [repeat kext_step|]. apply kext_times. intros acc. repeat kext_step. Qed.
#[export] Hint Resolve kext_list kext_map : kext.
Lemma kext_ko : kext dec_ko.
Proof.
  unfold dec_ko, dec_metadata, dec_semantic, dec_security, dec_lifecycle, dec_origin.
  assert (kext dec_rel /\ kext dec_event_ref /\ kext dec_acl /\ kext d_str /\ kext d_u32) as (? & ? & ? & ? & ?)
    by (unfold dec_rel, dec_event_ref, dec_acl; split_and!; repeat kext_step).
  repeat (kext_step || apply kext_list).
Qed.

(* ------------------------------------------------------------------ *)
(** * The slim decoder follows the full one *)

(** Where [p] succeeds [q] does, at the same place, with a related value. *)
Definition ksim {A B} (R : A -> B -> Prop) (p : KD A) (q : KD B) : Prop :=
  forall d a d', p d = KOk (a, d') -> exists b, q d = KOk (b, d') /\ R a b.
Lemma ksim_refl {A} (p : KD A) : ksim eq p p.
Proof. intros d a d' E. by exists a. Qed.
Lemma ksim_ret {A B} (R : A -> B -> Prop) a b : R a b -> ksim R (mret a) (mret b).
Proof. intros H d a' d' [= <- <-]. by exists b. Qed.
Lemma ksim_bind {A B A' B'} (R : A -> B -> Prop) (R' : A' -> B' -> Prop) p q (f : A -> KD A') (g : B -> KD B') :
  ksim R p q -> (forall a b, R a b -> ksim R' (f a) (g b)) -> ksim R' (p ≫= f) (q ≫= g).
Proof.
  intros Hp Hf d a d' E. unfold mbind, KD_bind in *. destruct (p d) as [[x d1]|e|] eqn:Ep; [|done..]. destruct (Hp _ _ _ Ep) as (b & -> & Hr). by eapply Hf.
Qed.
Lemma ksim_same {A A' B'} (R' : A' -> B' -> Prop) (p : KD A) (f : A -> KD A') (g : A -> KD B') :
  (forall a, ksim R' (f a) (g a)) -> ksim R' (p ≫= f) (p ≫= g).
Proof. intros H. eapply ksim_bind; [apply ksim_refl|]. by intros a b <-. Qed.
Lemma ksim_fold {S T} (R : S -> T -> Prop) (step : S -> KD S) (step' : T -> KD T) f :
  (forall acc acc', R acc acc' -> ksim R (step acc) (step' acc')) -> forall n acc acc', R acc acc' -> ksim R (d_fold f n step acc) (d_fold f n step' acc').
Proof.
  intros Hs. induction f as [|f IH]; intros n acc acc' Hr; cbn [d_fold]; (destruct (n <=? 0); [by apply ksim_ret|]); [by intros d a d'|].
  eapply ksim_bind; [by apply Hs|]. intros a b Hab. by apply IH.
Qed.
Lemma ksim_times {S T} (R : S -> T -> Prop) (step : S -> KD S) (step' : T -> KD T) n acc acc' :
  (forall acc acc', R acc acc' -> ksim R (step acc) (step' acc')) -> R acc acc' -> ksim R (d_times n step acc) (d_times n step' acc').
Proof. intros Hs Hr d. unfold d_times. by apply ksim_fold. Qed.

Definition any {A B} : A -> B -> Prop := fun _ _ => True.
(** A decoder whose value is dropped. *)
Lemma ksim_skip {A} (p : KD A) : ksim any p (_ ← p; mret tt).
Proof. intros d a d' E. exists tt. unfold mbind, KD_bind. by rewrite E. Qed.
Lemma ksim_any {A B} (R : A -> B -> Prop) p q : ksim R p q -> ksim any p q.
Proof. intros H d a d' E. destruct (H _ _ _ E) as (b & ? & _). by exists b. Qed.
Lemma ksim_str : ksim any d_str skip_str.
Proof.
  unfold d_str, skip_str, d_bytes. intros d a d' E. unfold mbind, KD_bind in *. destruct (d_u64 d) as [[n d1]|e|]; [|done..].
  destruct (d_take n d1) as [[b d2]|e|]; [|done..]. destruct (utf8_valid b); [|done]. injection E as _ <-. by exists tt.
Qed.
Lemma ksim_value f : ksim any (d_value f) (s_value f).
Proof.
  induction f as [|f IH]; [by intros d a d'|]. cbn [d_value s_value]. apply ksim_same. intros t.
  destruct t as [|[[[|[]|]|[]|]|[[]|[]|]|]|]; try (by intros d a d'); try by apply ksim_ret.
  - apply ksim_same. intros n. intros d a d' E. unfold mbind at 1, KD_bind in E.
    destruct (d_fold f n (d_insert (d_value f)) [] d) as [[m d1]|e|] eqn:Ef; [|done..]. injection E as _ <-.
    eapply (ksim_fold any (d_insert (d_value f)) (fun _ => _ ← skip_str; s_value f)) in Ef; [exact Ef | | done].
    intros acc acc' _. unfold d_insert. eapply ksim_bind; [apply ksim_str|]. intros k ? _. intros d2 a2 d3 E. unfold mbind, KD_bind in E.
    destruct (d_value f d2) as [[v d4]|e|] eqn:Ev; [|done..]. injection E as _ <-. by apply IH in Ev.
  - unfold d_bytes. intros d a d' E. unfold mbind, KD_bind in *. destruct (d_u64 d) as [[n d1]|e|]; [|done..].
    destruct (d_take n d1) as [[b d2]|e|]; [|done..]. injection E as _ <-. by exists tt.
  - unfold d_u64. intros d a d' E. unfold mbind, KD_bind in *. destruct (d_take 8 d) as [[n d1]|e|]; [|done..]. injection E as _ <-. by exists tt.
  - apply ksim_same. intros n. intros d a d' E. unfold mbind at 1, KD_bind in E.
    destruct (d_fold f n (d_push (d_value f)) [] d) as [[m d1]|e|] eqn:Ef; [|done..]. injection E as _ <-.
    eapply (ksim_fold any (d_push (d_value f)) (fun _ => s_value f)) in Ef; [exact Ef | | done].
    intros acc acc' _ d2 a2 d3 E. unfold d_push, mbind, KD_bind in E. destruct (d_value f d2) as [[v d4]|e|] eqn:Ev; [|done..]. injection E as _ <-. by apply IH in Ev.
  - intros d a d' E. unfold mbind, KD_bind in E. destruct (d_str d) as [[s d1]|e|] eqn:Es; [|done..]. injection E as _ <-. by apply ksim_str in Es.
  - unfold d_i64, d_u64. intros d a d' E. unfold mbind, KD_bind in *. destruct (d_take 8 d) as [[n d1]|e|]; [|done..]. injection E as _ <-. by exists tt.
  - unfold d_bool. intros d a d' E. unfold mbind, KD_bind in *. destruct (d_u8 d) as [[n d1]|e|]; [|done..].
    destruct n as [|[| |]|]; try done; injection E as _ <-; by exists tt.
Qed.
Lemma ksim_dec_value : ksim any dec_value skip_value.
Proof. intros d. apply ksim_value. Qed.

Lemma btree_insert_first {V} (m : list (bytes * V)) k v : Forall (fun x => bytes_lt k x.1) m -> btree_insert m k v = (k, v) :: m.
Proof. destruct 1 as [|[k' v'] m Hk _]; [done|]. cbn in *. by rewrite Hk. Qed.
Lemma filter_btree_insert {V} (keep : bytes -> bool) (m : list (bytes * V)) k v :
  keys_sorted m -> List.filter (fun x => keep x.1) (btree_insert m k v) =
    if keep k then btree_insert (List.filter (fun x => keep x.1) m) k v else List.filter (fun x => keep x.1) m.
Proof.
  unfold keys_sorted. induction 1 as [|[k' v'] m Hs IH Hf]; cbn [btree_insert List.filter fst]; [by destruct (keep k)|].
  destruct (bytes_compare k k') eqn:E; cbn [List.filter fst].
  - apply bytes_compare_eq in E as ->. destruct (keep k'); [|done]. cbn. by rewrite bytes_compare_refl.
  - destruct (keep k); [|done]. rewrite btree_insert_first; [done|]. assert (Forall (fun x => bytes_lt k x.1) ((k', v') :: m)) as Ha.
    { constructor; [done|]. eapply Forall_impl; [exact Hf|]. intros x Hx. cbn in Hx. by etrans. }
    apply Forall_forall. intros x Hx. eapply Forall_forall in Ha; [exact Ha|]. destruct (keep k'); apply list_elem_of_In; apply list_elem_of_In in Hx; [|right; by apply filter_In in Hx as [? _]].
    destruct Hx as [<-|[Hx _]%filter_In]; [by left | by right].
  - rewrite IH. destruct (keep k), (keep k'); try done. cbn. by rewrite E.
Qed.

(** What the slim record of an object is. *)
Definition scoring_of (required : list bytes) (ko : KnowledgeObject) : ScoringRecord :=
  mkScoringRecord (ko_koid ko) (type_name (ko_metadata ko)) (tenant (ko_metadata ko))
    (List.filter (fun kv => existsb (bytes_eqb kv.1) required) (ko_properties ko))
    (ko_semantic ko ≫= embedding) (ko_semantic ko ≫= embedding_model) (ko_security ko).

(** As [ksim], for decoders that may stop at different places. *)
Definition kimp {A B} (R : A -> B -> Prop) (p : KD A) (q : KD B) : Prop :=
  forall d a d', p d = KOk (a, d') -> exists b d'', q d = KOk (b, d'') /\ R a b.
Lemma kimp_bind {A B A' B'} (R : A -> B -> Prop) (R' : A' -> B' -> Prop) p q (f : A -> KD A') (g : B -> KD B') :
  ksim R p q -> (forall a b, R a b -> kimp R' (f a) (g b)) -> kimp R' (p ≫= f) (q ≫= g).
Proof.
  intros Hp Hf d a d' E. unfold mbind, KD_bind in *. destruct (p d) as [[x d1]|e|] eqn:Ep; [|done..]. destruct (Hp _ _ _ Ep) as (b & -> & Hr). by eapply Hf.
Qed.
Lemma kimp_same {A A' B'} (R' : A' -> B' -> Prop) (p : KD A) (f : A -> KD A') (g : A -> KD B') :
  (forall a, kimp R' (f a) (g a)) -> kimp R' (p ≫= f) (p ≫= g).
Proof. intros H. eapply kimp_bind; [apply ksim_refl|]. by intros a b <-. Qed.
Lemma kimp_ret {A B C} (R : B -> C -> Prop) (p : KD A) (f : A -> B) c : (forall a, R (f a) c) -> kimp R (a ← p; mret (f a)) (mret c).
Proof. intros H d b d' E. unfold mbind, KD_bind in E. destruct (p d) as [[x d1]|e|]; [|done..]. injection E as <- <-. by eexists _, _. Qed.
Lemma bind_assoc {A B C} (p : KD A) (f : A -> KD B) (g : B -> KD C) d : ((p ≫= f) ≫= g) d = (p ≫= (fun a => f a ≫= g)) d.
Proof. unfold mbind, KD_bind. by destruct (p d) as [[? ?]|?|]. Qed.
Lemma kimp_assoc {A B C D} (R : C -> D -> Prop) (p : KD A) (f : A -> KD B) (g : B -> KD C) q :
  kimp R (p ≫= (fun a => f a ≫= g)) q -> kimp R ((p ≫= f) ≫= g) q.
Proof. intros H d c d'. rewrite bind_assoc. apply H. Qed.
Lemma ksim_assoc {A B C D} (R : C -> D -> Prop) (p : KD A) (f : A -> KD B) (g : B -> KD C) q :
  ksim R (p ≫= (fun a => f a ≫= g)) q -> ksim R ((p ≫= f) ≫= g) q.
Proof. intros H d c d'. rewrite bind_assoc. apply H. Qed.

(** The counted loops of the two decoders. *)
Lemma ksim_props required n :
  ksim (fun m m' => keys_sorted m /\ m' = List.filter (fun kv => existsb (bytes_eqb kv.1) required) m)
    (d_times n (d_insert dec_value) []) (d_times n (scoring_prop required) []).
Proof.
  apply ksim_times; [|split; [constructor | done]]. intros m m' [Hs ->]. unfold d_insert, scoring_prop. apply ksim_same. intros k.
  pose proof (fun v => filter_btree_insert (fun k => existsb (bytes_eqb k) required) m k v Hs) as Hf. destruct (existsb (bytes_eqb k) required).
  - apply ksim_same. intros v. apply ksim_ret. split; [by apply btree_insert_sorted | by rewrite Hf].
  - eapply ksim_bind; [apply ksim_dec_value|]. intros v u _. apply ksim_ret. split; [by apply btree_insert_sorted | by rewrite Hf].
Qed.
Lemma ksim_count {A} (p : KD A) (q : KD unit) n (l : list A) : ksim any p q -> ksim any (d_times n (d_push p) l) (d_times n (fun _ => q) tt).
Proof.
  intros Hp. apply ksim_times; [|done]. intros acc u _ d a d' E. unfold d_push, mbind, KD_bind in E. destruct (p d) as [[x d1]|e|] eqn:Ep; [|done..].
  injection E as _ <-. by apply Hp in Ep.
Qed.
Lemma ksim_semantic :
  ksim (fun o x => x = (o ≫= embedding, o ≫= embedding_model)) (d_opt dec_semantic) scoring_semantic.
Proof.
  unfold d_opt, scoring_semantic. apply ksim_same. intros t. destruct t as [|[]|]; try (by intros d a d'); [by apply ksim_ret|].
  unfold dec_semantic. repeat (apply ksim_assoc, ksim_same; intros ?). by apply ksim_ret.
Qed.
Lemma kimp_retl {A B C} (R : B -> C -> Prop) (a : A) (f : A -> KD B) q : kimp R (f a) q -> kimp R (mret a ≫= f) q.
Proof. done. Qed.
Ltac kimp_next := first [apply kimp_same; intros ? | apply kimp_assoc | apply kimp_retl].

Lemma ksim_tag {A} (f : Z -> option A) : ksim any (dec_tag f) d_u8.
Proof.
  intros d a d' E. unfold dec_tag, mbind at 1, KD_bind in E. destruct (d_u8 d) as [[t d1]|e|]; [|done..]. destruct (f t); [|done]. injection E as _ <-. by exists t.
Qed.
Lemma ksim_koid : ksim any d_koid (d_take KOID_LEN).
Proof. intros d a d' E. unfold d_koid, mbind, KD_bind in E. destruct (d_take KOID_LEN d) as [[t d1]|e|]; [|done..]. injection E as _ <-. by exists t. Qed.
Lemma ksim_rel : ksim any dec_rel (_ ← d_str; _ ← d_take KOID_LEN; _ ← d_u8; mret tt).
Proof.
  unfold dec_rel. apply ksim_same. intros rt. eapply ksim_bind; [apply ksim_koid|]. intros k x _. eapply ksim_bind; [apply ksim_tag|]. intros. by apply ksim_ret.
Qed.
Lemma ksim_event_ref : ksim any dec_event_ref (_ ← d_u64; _ ← d_u8; _ ← d_u64; mret tt).
Proof.
  unfold dec_event_ref. apply ksim_same. intros sq. eapply ksim_bind; [apply ksim_tag|]. intros k x _. apply ksim_same. intros. by apply ksim_ret.
Qed.

Lemma kimp_scoring required : kimp (fun ko rec => rec = scoring_of required ko) dec_ko (dec_scoring required).
Proof.
  unfold dec_ko, dec_scoring, dec_metadata, dec_map, d_list. repeat kimp_next.
  eapply kimp_bind; [apply ksim_count, ksim_skip|]. intros tags _ _. repeat kimp_next.
  eapply kimp_bind; [apply ksim_props|]. intros props props' [_ ->].
  eapply kimp_bind; [apply ksim_semantic|]. intros sem x ->. repeat kimp_next.
  eapply kimp_bind; [apply ksim_count, ksim_rel|]. intros rels _ _. repeat kimp_next.
  eapply kimp_bind; [apply ksim_count, ksim_event_ref|]. intros evs _ _. apply kimp_same. intros sec.
  intros d ko d' E. eexists _, _. split; [reflexivity|]. unfold mbind, KD_bind in E.
  repeat match type of E with match ?x with _ => _ end = KOk _ => destruct x as [[? ?]|?|]; [|discriminate E..] end. injection E as <- _. done.
Qed.

Lemma decode_wire_header bs : decode_ko_wire (WIRE_HEADER_V1 ++ bs) = decode_ko bs.
Proof.
  unfold decode_ko_wire. rewrite zlen_app. change (zlen WIRE_HEADER_V1) with 8. pose proof (zlen_nonneg bs). rewrite (proj2 (Z.ltb_ge _ _)) by lia.
  assert (ztake 7 (WIRE_HEADER_V1 ++ bs) = ztake 7 WIRE_HEADER_V1 /\ zslice 7 8 (WIRE_HEADER_V1 ++ bs) = [x01] /\ zdrop 8 (WIRE_HEADER_V1 ++ bs) = bs) as (-> & -> & ->)
    by (split_and!; reflexivity). rewrite bytes_eqb_refl. reflexivity.
Qed.

(* ------------------------------------------------------------------ *)
(** * Properties *)

(** C37: the object codec round-trips and is strict.  A well-formed object decodes from its
    canonical encoding, and from the stored envelope, to itself; a canonical encoding with
    bytes after it is refused, and no proper prefix of one decodes to anything. *)
Theorem ko_codec_strict ko :
  ko_wf ko = true -> zlen (encode_ko_wire ko) < USIZE ->
  decode_ko (encode_ko ko) = KOk ko /\ decode_ko_wire (encode_ko_wire ko) = KOk ko /\
  (forall b rest, zlen (encode_ko ko) + zlen (b :: rest) < USIZE -> decode_ko (encode_ko ko ++ b :: rest) = KErr (Codec "trailing bytes")) /\
  forall p b rest ko', encode_ko ko = p ++ b :: rest -> decode_ko p <> KOk ko'.
Proof.
  intros Hw Hu. unfold encode_ko_wire in Hu. rewrite zlen_app in Hu. pose proof (zlen_nonneg WIRE_HEADER_V1). pose proof (kreads_ko ko Hw) as Hr.
  assert (decode_ko (encode_ko ko) = KOk ko) as Hd by (apply run_finish; [done | lia]). split_and!; [done | unfold encode_ko_wire; by rewrite decode_wire_header | intros; by apply (run_trailing _ _ ko)|].
  intros p b rest ko' E Hp. unfold decode_ko, run_kd, mbind, KD_bind, KResult_bind, d_new in Hp.
  destruct (dec_ko (mkKDec 0 p)) as [[x [q r]]|e|] eqn:Ep; [|done..]. cbn in Hp. destruct r; [|done]. apply (kext_ko _ _ _ _ _ (b :: rest)) in Ep.
  specialize (Hr 0 [] ltac:(lia) ltac:(change (zlen (@nil byte)) with 0; lia)). rewrite app_nil_r, E, Ep in Hr. by injection Hr.
Qed.

(** The event codec round-trips, for rows with the audit signature field and for rows
    from before it. *)
Theorem ke_codec_roundtrip ke :
  ke_wf ke = true -> zlen (encode_ke ke) < USIZE ->
  decode_ke (encode_ke ke) = KOk ke /\ (ke_audit_signature ke = None -> decode_ke (encode_ke_legacy ke) = KOk ke).
Proof.
  intros Hw Hu. split; [apply run_finish; [by apply kreads_ke | done]|]. intros Hn. apply decode_ke_legacy; [done | done|].
  unfold encode_ke, encode_ke_legacy in *. rewrite !zlen_app in *. pose proof (zlen_nonneg (e_opt_raw (ke_audit_signature ke))). lia.
Qed.

(** The slim decoder agrees with the full one.  Whatever bytes decode to an object, the
    slim decoder reads from them exactly that object's identity, type, tenant, required
    properties, embedding, model and security block. *)
Theorem scoring_agrees bs required ko :
  decode_ko bs = KOk ko -> decode_ko_scoring bs required = KOk (scoring_of required ko).
Proof.
  unfold decode_ko, decode_ko_scoring, run_kd, mbind, KResult_bind. intros E. unfold KD_bind in E.
  destruct (dec_ko (d_new bs)) as [[x d]|e|] eqn:Ed; [|done..]. destruct (d_finish d) as [[u d1]|e|]; [|done..]. cbn in E. injection E as <-.
  destruct (kimp_scoring required _ _ _ Ed) as (rec & d2 & -> & ->). done.
Qed.

(** A damaged length panics the decoder.  A stored row whose type name is given a length
    near 2^64 is neither decoded nor refused: the bound check itself overflows. *)
Theorem huge_length_panics :
  decode_ko (repeat x00 32 ++ repeat xff 8) = KPanic /\ decode_ko_wire (WIRE_HEADER_V1 ++ repeat x00 32 ++ repeat xff 8) = KPanic /\
  decode_ko (repeat x00 32 ++ repeat x0f 8) = KErr (Codec "truncated").
Proof. split_and!; vm_compute; reflexivity. Qed.

(* ------------------------------------------------------------------ *)
(** * Witnesses *)

Definition sample_ke : KnowledgeEvent :=
  mkKnowledgeEvent 4 (koid_of 1001 1 7) 1 EventKind.Created Origin.Human [x61] 2 (repeat x00 32) (repeat x01 32) (repeat x02 32)
    (Some (repeat x03 32)) None (Some [x6e]).

Lemma ko_codec_strict_witness : decode_ko_wire (encode_ko_wire sample_ko) = KOk sample_ko /\ decode_ko (encode_ko sample_ko) = KOk sample_ko.
Proof.
  destruct (ko_codec_strict sample_ko ltac:(vm_compute; reflexivity) ltac:(vm_compute; reflexivity)) as (H1 & H2 & _). split; [exact H2 | exact H1].
Defined.
Lemma ke_codec_roundtrip_witness : decode_ke (encode_ke sample_ke) = KOk sample_ke /\ decode_ke (encode_ke_legacy sample_ke) = KOk sample_ke.
Proof.
  destruct (ke_codec_roundtrip sample_ke ltac:(vm_compute; reflexivity) ltac:(vm_compute; reflexivity)) as [H1 H2]. split; [exact H1 | exact (H2 eq_refl)].
Defined.
Lemma scoring_agrees_witness :
  decode_ko_scoring (encode_ko sample_ko) [[x6c]; [x7a]] = KOk (scoring_of [[x6c]; [x7a]] sample_ko) /\ sc_props (scoring_of [[x6c]; [x7a]] sample_ko) = [([x6c], VFloat 0)].
Proof. split; [|reflexivity]. apply (scoring_agrees (encode_ko sample_ko) [[x6c]; [x7a]] sample_ko). vm_compute. reflexivity. Defined.
