(* ===== verification/Store.v ===== *)
(** crates/kernel/src/storage/store.rs: the storage engine trait the kernel depends on, with
    its default methods, and the in-memory engine; and the laws a client of the trait may
    rely on, which every engine of the system is proved to satisfy. *)

From S2P Require Import Prelude Memtable Kom.

(** [struct WriteBatch], [new], [put], [del], [is_empty]. *)
Record WriteBatch : Type := mkWriteBatch { wb_puts : list (bytes * bytes); wb_dels : list bytes }.
Definition wb_new : WriteBatch := mkWriteBatch [] [].
Definition wb_put (b : WriteBatch) (k v : bytes) : WriteBatch := mkWriteBatch (wb_puts b ++ [(k, v)]) (wb_dels b).
Definition wb_del (b : WriteBatch) (k : bytes) : WriteBatch := mkWriteBatch (wb_puts b) (wb_dels b ++ [k]).
Definition wb_is_empty (b : WriteBatch) : bool := match wb_puts b, wb_dels b with [], [] => true | _, _ => false end.

(** [trait StorageEngine]. *)
Class StorageEngine (E : Type) : Type := {
  eng_get : E -> bytes -> KResult (option bytes);
  eng_get_many : E -> list bytes -> KResult (list (option bytes));
  eng_scan : E -> bytes -> KResult (list (bytes * bytes));
  eng_scan_from : E -> bytes -> bytes -> KResult (list (bytes * bytes));
  eng_predecessor : E -> bytes -> bytes -> KResult (option (bytes * bytes));
  eng_write_batch : E -> WriteBatch -> E * KResult unit }.

(** The default methods: [get_many], [scan_from], [predecessor]. *)
Fixpoint k_collect {A B} (f : A -> KResult B) (l : list A) : KResult (list B) :=
  match l with [] => KOk [] | a :: l => b ← f a; bs ← k_collect f l; KOk (b :: bs) end.
Definition default_get_many (get : bytes -> KResult (option bytes)) (keys : list bytes) : KResult (list (option bytes)) := k_collect get keys.
Definition default_scan_from (scan : bytes -> KResult (list (bytes * bytes))) (prefix start : bytes) : KResult (list (bytes * bytes)) :=
  rows ← scan prefix; KOk (List.filter (fun kv => bytes_leb start kv.1) rows).
Definition default_predecessor (scan : bytes -> KResult (list (bytes * bytes))) (prefix at_ : bytes) : KResult (option (bytes * bytes)) :=
  rows ← scan prefix; KOk (last (List.filter (fun kv => bytes_leb kv.1 at_) rows)).

(* ------------------------------------------------------------------ *)
(** * The in-memory engine *)

(** [BTreeMap::remove], [take_while], the range [lo..=hi]. *)
Fixpoint btree_remove {V} (m : list (bytes * V)) (k : bytes) : list (bytes * V) :=
  match m with
  | [] => []
  | (k', v) :: m => if bytes_eqb k k' then m else (k', v) :: btree_remove m k
  end.
Fixpoint take_while {A} (f : A -> bool) (l : list A) : list A :=
  match l with [] => [] | a :: l => if f a then a :: take_while f l else [] end.
Definition range_incl {V} (m : list (bytes * V)) (lo hi : bytes) : list (bytes * V) := take_while (fun kv => bytes_leb kv.1 hi) (range_from m lo).

Record MemoryEngine : Type := mkMemoryEngine { me_map : list (bytes * bytes) }.
Definition mem_new : MemoryEngine := mkMemoryEngine [].
Definition mem_get (e : MemoryEngine) (key : bytes) : KResult (option bytes) := KOk (btree_get (me_map e) key).
Definition mem_scan (e : MemoryEngine) (prefix : bytes) : KResult (list (bytes * bytes)) :=
  KOk (take_while (fun kv => starts_with prefix kv.1) (range_from (me_map e) prefix)).
Definition mem_scan_from (e : MemoryEngine) (prefix start : bytes) : KResult (list (bytes * bytes)) :=
  KOk (take_while (fun kv => starts_with prefix kv.1) (range_from (me_map e) (if bytes_leb start prefix then prefix else start))).
Definition mem_predecessor (e : MemoryEngine) (prefix at_ : bytes) : KResult (option (bytes * bytes)) :=
  if bytes_ltb at_ prefix then KOk None
  else KOk (match last (range_incl (me_map e) prefix at_) with Some (k, v) => if starts_with prefix k then Some (k, v) else None | None => None end).
Definition mem_write_batch (e : MemoryEngine) (b : WriteBatch) : MemoryEngine * KResult unit :=
  let m := fold_left (fun m kv => btree_insert m kv.1 kv.2) (wb_puts b) (me_map e) in
  (mkMemoryEngine (fold_left btree_remove (wb_dels b) m), KOk tt).
#[global] Instance memory_engine : StorageEngine MemoryEngine := {|
  eng_get := mem_get; eng_get_many e := default_get_many (mem_get e); eng_scan := mem_scan; eng_scan_from := mem_scan_from;
  eng_predecessor := mem_predecessor; eng_write_batch := mem_write_batch |}.

(* ------------------------------------------------------------------ *)
(** * What an engine promises *)

(** The entries of a map in key order. *)
Definition entries (m : gmap bytes bytes) : list (bytes * bytes) :=
  foldr (fun kv l => btree_insert l kv.1 kv.2) [] (map_to_list m).
Definition rows (m : gmap bytes bytes) (prefix start : bytes) : list (bytes * bytes) :=
  List.filter (fun kv => starts_with prefix kv.1 && bytes_leb start kv.1) (entries m).
Definition batch_effect (m : gmap bytes bytes) (b : WriteBatch) : gmap bytes bytes :=
  fold_left (fun m k => base.delete k m) (wb_dels b) (fold_left (fun m kv => <[kv.1 := kv.2]> m) (wb_puts b) m).

(** An engine that holds a map answers from it, in key order and within the prefix, and a
    batch it is ready for takes its effect whole. *)
Class EngineLaws (E : Type) `{StorageEngine E} : Type := {
  holds : E -> gmap bytes bytes -> Prop;
  ready : E -> WriteBatch -> Prop;
  scannable : E -> bytes -> Prop;
  law_get e m k : holds e m -> eng_get e k = KOk (m !! k);
  law_get_many e m ks : holds e m -> eng_get_many e ks = KOk (map (fun k => m !! k) ks);
  law_scan e m p : holds e m -> scannable e p -> eng_scan e p = KOk (rows m p []);
  law_scan_from e m p s : holds e m -> scannable e p -> eng_scan_from e p s = KOk (rows m p s);
  law_predecessor e m p a : holds e m -> scannable e p -> starts_with p a = true ->
    eng_predecessor e p a = KOk (last (List.filter (fun kv => bytes_leb kv.1 a) (rows m p [])));
  law_write e m b : holds e m -> ready e b -> exists e', eng_write_batch e b = (e', KOk tt) /\ holds e' (batch_effect m b) }.

(* ------------------------------------------------------------------ *)
(** * Ordered listings *)

Lemma sorted_elems_unique {V} (l l' : list (bytes * V)) : keys_sorted l -> keys_sorted l' -> (forall x, x ∈ l <-> x ∈ l') -> l = l'.
Proof.
  unfold keys_sorted. intros Hl. revert l'. induction Hl as [|x l Hs IH Hf]; intros l' Hl' He.
  { destruct l' as [|y l']; [done|]. exfalso. apply (not_elem_of_nil y), He. set_solver. }
  destruct Hl' as [|y l' Hs' Hf']; [exfalso; apply (not_elem_of_nil x), He; set_solver|]. rewrite Forall_forall in Hf, Hf'.
  assert (x = y) as <-.
  { assert (x ∈ y :: l') as Hx by (apply He; set_solver). assert (y ∈ x :: l) as Hy by (apply He; set_solver).
    apply elem_of_cons in Hx as [?|Hx]; [done|]. apply elem_of_cons in Hy as [?|Hy]; [done|]. exfalso. apply (bytes_lt_irrefl x.1). etrans; [by apply Hf | by apply Hf']. }
  f_equal. apply IH; [done|]. intros z. specialize (He z). rewrite !elem_of_cons in He.
  assert (x ∉ l /\ x ∉ l') as [? ?] by (split; intros Hx; apply (bytes_lt_irrefl x.1); auto). split; intros Hz; naive_solver.
Qed.
Lemma entries_sorted m : keys_sorted (entries m).
Proof. unfold entries. induction (map_to_list m) as [|x l IH]; [constructor | by apply btree_insert_sorted]. Qed.
Lemma entries_get m k : btree_get (entries m) k = m !! k.
Proof.
  rewrite <-(list_to_map_to_list m) at 2. unfold entries. induction (map_to_list m) as [|[k' v] l IH]; cbn [foldr]; [by rewrite list_to_map_nil, lookup_empty|].
  rewrite btree_get_insert, list_to_map_cons, IH. cbn [fst snd]. destruct (bytes_eqb k k') eqn:E; [apply bytes_eqb_eq in E as ->; by rewrite lookup_insert_eq|].
  apply bytes_eqb_neq in E. by rewrite lookup_insert_ne by done.
Qed.
Lemma entries_elem m k v : (k, v) ∈ entries m <-> m !! k = Some v.
Proof. rewrite <-(btree_get_elem _ _ _ (entries_sorted m)). by rewrite entries_get. Qed.
Lemma rows_sorted m p s : keys_sorted (rows m p s).
Proof. apply filter_sorted, entries_sorted. Qed.
Lemma rows_elem m p s k v : (k, v) ∈ rows m p s <-> m !! k = Some v /\ starts_with p k = true /\ bytes_leb s k = true.
Proof. unfold rows. rewrite elem_of_filter_bool, entries_elem. cbn. by rewrite andb_true_iff. Qed.

(** A listing is determined by its order and its entries. *)
Lemma rows_unique m p s l :
  keys_sorted l -> (forall k v, (k, v) ∈ l <-> m !! k = Some v /\ starts_with p k = true /\ bytes_leb s k = true) -> l = rows m p s.
Proof. intros Hs He. apply sorted_elems_unique; [done | apply rows_sorted|]. intros [k v]. by rewrite He, rows_elem. Qed.
Lemma rows_from m p s : List.filter (fun kv => bytes_leb s kv.1) (rows m p []) = rows m p s.
Proof.
  apply rows_unique; [apply filter_sorted, rows_sorted|]. intros k v. rewrite elem_of_filter_bool, rows_elem. cbn. split; [tauto|]. intros (? & ? & ?). split_and!; try done. by destruct k.
Qed.

(** The default methods, over a scan that lists the prefix. *)
Lemma default_scan_from_rows scan m p s : scan p = KOk (rows m p []) -> default_scan_from scan p s = KOk (rows m p s).
Proof. unfold default_scan_from. intros ->. cbn. by rewrite rows_from. Qed.
Lemma default_predecessor_rows scan m p a : scan p = KOk (rows m p []) ->
  default_predecessor scan p a = KOk (last (List.filter (fun kv => bytes_leb kv.1 a) (rows m p []))).
Proof. unfold default_predecessor. by intros ->. Qed.
Lemma k_collect_map {A B} (f : A -> KResult B) (g : A -> B) l : (forall a, f a = KOk (g a)) -> k_collect f l = KOk (map g l).
Proof. intros H. induction l as [|a l IH]; [done|]. cbn [k_collect map]. rewrite H. cbn. by rewrite IH. Qed.

(* ------------------------------------------------------------------ *)
(** * The in-memory engine keeps the promise *)

Lemma range_from_filter {V} (m : list (bytes * V)) lo : keys_sorted m -> range_from m lo = List.filter (fun kv => bytes_leb lo kv.1) m.
Proof.
  unfold keys_sorted. induction 1 as [|[k v] m Hs IH Hf]; [done|]. cbn [range_from List.filter fst]. rewrite bytes_ltb_leb. destruct (bytes_leb lo k) eqn:E; cbn [negb]; [|done].
  f_equal. symmetry. apply filter_all. intros x Hx. eapply Forall_forall in Hf; [|exact Hx]. eapply bytes_leb_trans; [exact E | by apply bytes_lt_leb].
Qed.
Lemma take_while_filter {A} (R : A -> A -> Prop) (f : A -> bool) l :
  StronglySorted R l -> (forall x y, x ∈ l -> R x y -> f y = true -> f x = true) -> take_while f l = List.filter f l.
Proof.
  induction 1 as [|x l Hs IH Hf]; intros Hc; [done|]. cbn. destruct (f x) eqn:E; [f_equal; apply IH; intros; eapply Hc; [set_solver | done..]|].
  symmetry. apply filter_none. intros y Hy. eapply Forall_forall in Hf; [|exact Hy]. destruct (f y) eqn:Ey; [|done]. rewrite (Hc x y) in E; [done | set_solver | done | done].
Qed.
Lemma btree_remove_elem {V} (m : list (bytes * V)) k x : keys_sorted m -> x ∈ btree_remove m k <-> x ∈ m /\ x.1 <> k.
Proof.
  unfold keys_sorted. induction 1 as [|[k' v] m Hs IH Hf]; [cbn; set_solver|]. cbn. destruct (bytes_eqb k k') eqn:E.
  - apply bytes_eqb_eq in E as ->. rewrite elem_of_cons. rewrite Forall_forall in Hf. split; [|intros [[->|] ?]; done]. intros Hx. split; [by right|].
    intros E. apply (bytes_lt_irrefl k'). rewrite <-E at 2. by apply Hf.
  - apply bytes_eqb_neq in E. rewrite !elem_of_cons, IH. split; [intros [->|[? ?]]; cbn; auto | intros [[->|] ?]; auto].
Qed.
Lemma btree_remove_sorted {V} (m : list (bytes * V)) k : keys_sorted m -> keys_sorted (btree_remove m k).
Proof.
  intros Hm. pose proof Hm as Hm'. unfold keys_sorted in *. induction Hm as [|[k' v] m Hs IH Hf]; [done|]. cbn. destruct (bytes_eqb k k'); [done|].
  constructor; [by apply IH|]. apply Forall_forall. intros x [Hx _]%btree_remove_elem; [|done]. by eapply Forall_forall in Hf.
Qed.

Definition mem_holds (e : MemoryEngine) (m : gmap bytes bytes) : Prop := keys_sorted (me_map e) /\ forall k v, (k, v) ∈ me_map e <-> m !! k = Some v.
Lemma mem_seek e m p lo : mem_holds e m -> bytes_leb p lo = true ->
  take_while (fun kv => starts_with p kv.1) (range_from (me_map e) lo) = rows m p lo.
Proof.
  intros [Hs He] Hl. rewrite range_from_filter by done. rewrite (take_while_filter (fun a b => bytes_lt a.1 b.1)).
  - apply rows_unique; [by do 2 apply filter_sorted|]. intros k v. rewrite !elem_of_filter_bool, He. cbn. tauto.
  - by apply filter_sorted.
  - intros x y [_ Hx]%elem_of_filter_bool Hxy Hy. eapply starts_with_convex; [|exact Hxy | exact Hy]. apply bytes_ltb_false. by eapply bytes_leb_trans.
Qed.
Lemma rows_max m p s : rows m p (if bytes_leb s p then p else s) = rows m p s.
Proof.
  destruct (bytes_leb s p) eqn:E; [|done]. apply rows_unique; [apply rows_sorted|]. intros k v. rewrite rows_elem.
  split; intros (? & Hp & ?); (split_and!; [done | done|]); [by eapply bytes_leb_trans|]. apply bytes_ltb_false. by apply starts_with_ge.
Qed.
Lemma mem_scan_from_rows e m p s : mem_holds e m -> mem_scan_from e p s = KOk (rows m p s).
Proof.
  intros Hh. unfold mem_scan_from. rewrite (mem_seek e m); [by rewrite rows_max | done|]. destruct (bytes_leb s p) eqn:E; [apply bytes_leb_refl|].
  apply bytes_leb_false in E. by apply bytes_lt_leb.
Qed.
Lemma mem_scan_rows e m p : mem_holds e m -> mem_scan e p = KOk (rows m p []).
Proof. intros Hh. unfold mem_scan. rewrite (mem_seek e m p p Hh (bytes_leb_refl p)). rewrite <-(rows_max m p []). by destruct p. Qed.
Lemma mem_predecessor_rows e m p a : mem_holds e m -> starts_with p a = true ->
  mem_predecessor e p a = KOk (last (List.filter (fun kv => bytes_leb kv.1 a) (rows m p []))).
Proof.
  intros [Hs He] Ha. unfold mem_predecessor. rewrite (starts_with_ge _ _ Ha). unfold range_incl. rewrite range_from_filter by done.
  rewrite (take_while_filter (fun a b => bytes_lt a.1 b.1)); [|by apply filter_sorted | intros x y _ Hxy Hy; eapply bytes_leb_trans; [by apply bytes_lt_leb | done]].
  assert (List.filter (fun kv => bytes_leb kv.1 a) (List.filter (fun kv => bytes_leb p kv.1) (me_map e)) = List.filter (fun kv => bytes_leb kv.1 a) (rows m p [])) as ->.
  { apply sorted_elems_unique; [by do 2 apply filter_sorted | apply filter_sorted, rows_sorted|]. intros [k v]. rewrite !elem_of_filter_bool, He, rows_elem. cbn.
    split; [intros [[? Hp] Hk]|intros [(? & Hp & _) Hk]]; (split_and!; try done).
    - apply bytes_leb_le in Hk as [Hk| ->]; [|done]. eapply starts_with_convex; [by apply bytes_ltb_false | done | done].
    - by destruct k.
    - apply bytes_ltb_false. by apply starts_with_ge. }
  destruct (last _) as [[k v]|] eqn:El; [|done]. apply last_Some_elem_of in El. apply elem_of_filter_bool in El as [El _]. apply rows_elem in El as (_ & -> & _). done.
Qed.
Lemma mem_write_holds e m b : mem_holds e m -> mem_holds (mem_write_batch e b).1 (batch_effect m b).
Proof.
  intros Hh. unfold mem_write_batch, batch_effect. cbn [fst].
  assert (mem_holds (mkMemoryEngine (fold_left (fun m kv => btree_insert m kv.1 kv.2) (wb_puts b) (me_map e))) (fold_left (fun m kv => <[kv.1 := kv.2]> m) (wb_puts b) m)) as Hp.
  { clear -Hh. destruct e as [l]. cbn in *. revert l m Hh. induction (wb_puts b) as [|[k v] ps IH]; intros l m [Hs He]; [done|]. cbn. apply IH. split; [by apply btree_insert_sorted|].
    cbn. intros k' v'. rewrite <-btree_get_elem by (by apply btree_insert_sorted). rewrite btree_get_insert. destruct (bytes_eqb k' k) eqn:E.
    - apply bytes_eqb_eq in E as ->. by rewrite lookup_insert_eq.
    - apply bytes_eqb_neq in E. rewrite lookup_insert_ne by done. rewrite <-He. by apply btree_get_elem. }
  revert Hp. generalize (fold_left (fun m kv => btree_insert m kv.1 kv.2) (wb_puts b) (me_map e)), (fold_left (fun m kv => <[kv.1 := kv.2]> m) (wb_puts b) m).
  induction (wb_dels b) as [|k ks IH]; intros l m' [Hs He]; [done|]. cbn. apply IH. split; [by apply btree_remove_sorted|]. cbn. intros k' v'.
  rewrite btree_remove_elem by done. rewrite He, lookup_delete_Some. cbn. naive_solver.
Qed.
#[global] Instance memory_laws : EngineLaws MemoryEngine.
Proof.
  apply (Build_EngineLaws _ _ mem_holds (fun _ _ => True) (fun _ _ => True)).
  - intros e m k [Hs He]. cbn. unfold mem_get. f_equal. apply option_eq. intros v. rewrite <-He. by apply btree_get_elem.
  - intros e m ks [Hs He]. cbn. apply k_collect_map. intros k. unfold mem_get. f_equal. apply option_eq. intros v. rewrite <-He. by apply btree_get_elem.
  - intros e m p Hh _. by apply mem_scan_rows.
  - intros e m p s Hh _. by apply mem_scan_from_rows.
  - intros e m p a Hh _. by apply mem_predecessor_rows.
  - intros e m b Hh _. eexists. split; [reflexivity | by apply mem_write_holds].
Defined.
Lemma mem_new_holds : mem_holds mem_new ∅.
Proof. split; [constructor|]. intros k v. cbn. rewrite lookup_empty. set_solver. Qed.

(* ------------------------------------------------------------------ *)
(** * Two engines *)

(** A client's calls, and what it sees. *)
Inductive EngineOp : Type :=
  | EGet (key : bytes)
  | EGetMany (keys : list bytes)
  | EScan (prefix : bytes)
  | EScanFrom (prefix start : bytes)
  | EPredecessor (prefix at_ : bytes)
  | EWrite (b : WriteBatch).
Inductive EngineAnswer : Type :=
  | AValue (r : KResult (option bytes))
  | AValues (r : KResult (list (option bytes)))
  | ARows (r : KResult (list (bytes * bytes)))
  | ARow (r : KResult (option (bytes * bytes)))
  | AUnit (r : KResult unit).
Definition engine_op {E} `{StorageEngine E} (e : E) (op : EngineOp) : E * EngineAnswer :=
  match op with
  | EGet k => (e, AValue (eng_get e k))
  | EGetMany ks => (e, AValues (eng_get_many e ks))
  | EScan p => (e, ARows (eng_scan e p))
  | EScanFrom p s => (e, ARows (eng_scan_from e p s))
  | EPredecessor p a => (e, ARow (eng_predecessor e p a))
  | EWrite b => let '(e, r) := eng_write_batch e b in (e, AUnit r)
  end.
Fixpoint engine_run {E} `{StorageEngine E} (e : E) (ops : list EngineOp) : list EngineAnswer :=
  match ops with [] => [] | op :: ops => let '(e, a) := engine_op e op in a :: engine_run e ops end.

(** What the calls need: batches the engine is ready for, prefixes it can scan, a
    predecessor position under its prefix. *)
Definition op_fits {E} `{EngineLaws E} (e : E) (op : EngineOp) : Prop :=
  match op with
  | EGet _ | EGetMany _ => True
  | EScan p | EScanFrom p _ => scannable e p
  | EPredecessor p a => scannable e p /\ starts_with p a = true
  | EWrite b => ready e b
  end.
Fixpoint run_fits {E} `{EngineLaws E} (e : E) (ops : list EngineOp) : Prop :=
  match ops with [] => True | op :: ops => op_fits e op /\ run_fits (engine_op e op).1 ops end.

Lemma engines_agree {E F} `{EngineLaws E, EngineLaws F} ops : forall (e : E) (f : F) m,
  holds e m -> holds f m -> run_fits e ops -> run_fits f ops -> engine_run e ops = engine_run f ops.
Proof.
  induction ops as [|op ops IH]; intros e f m He Hf Hoe Hof; [done|]. cbn [engine_run run_fits] in *. destruct Hoe as [Hoe Hre], Hof as [Hof Hrf].
  destruct op as [k|ks|p|p s|p a|b]; cbn [engine_op fst op_fits] in *.
  - rewrite (law_get e m), (law_get f m) by done. f_equal. by eapply IH.
  - rewrite (law_get_many e m), (law_get_many f m) by done. f_equal. by eapply IH.
  - rewrite (law_scan e m), (law_scan f m) by done. f_equal. by eapply IH.
  - rewrite (law_scan_from e m), (law_scan_from f m) by done. f_equal. by eapply IH.
  - destruct Hoe, Hof. rewrite (law_predecessor e m), (law_predecessor f m) by done. f_equal. by eapply IH.
  - destruct (law_write e m b He Hoe) as (e' & Ee & He'). destruct (law_write f m b Hf Hof) as (f' & Ef & Hf'). rewrite Ee, Ef in *. f_equal. by eapply IH.
Qed.

(** The in-memory engine takes what another engine takes. *)
Lemma memory_fits {E} `{EngineLaws E} ops : forall (e : E) (f : MemoryEngine), run_fits e ops -> run_fits f ops.
Proof. induction ops as [|op ops IH]; intros e f; [done|]. cbn [run_fits]. intros [Ho Hr]. split; [|by eapply IH]. destruct op; cbn in *; tauto. Qed.
