(* ===== verification/Encrypted.v ===== *)
(** crates/kernel/src/storage/encrypted.rs and security/crypto.rs: the store that encrypts
    values on their way to any storage engine, over the two providers and their version
    byte; and that it keeps the engine's promise.

    The ciphers are in other crates: the class [Aead] is what the code relies on, that
    opening a sealed message with the same key, nonce and associated data gives it back,
    and that the tag adds sixteen bytes. *)

From S2P Require Import Prelude Memtable Kom Store.

Class Aead : Type := {
  aead_seal : bytes -> bytes -> bytes -> bytes -> option bytes;
  aead_open : bytes -> bytes -> bytes -> bytes -> option bytes;
  aead_round key nonce aad msg c : aead_seal key nonce aad msg = Some c -> aead_open key nonce aad c = Some msg;
  aead_len key nonce aad msg c : aead_seal key nonce aad msg = Some c -> zlen c = zlen msg + 16 }.

(* ------------------------------------------------------------------ *)
(** * Providers *)

Definition CRYPTO_VERSION_AES : Z := 1.
Definition CRYPTO_VERSION_CHACHA : Z := 2.
Definition NONCE_LEN : Z := 12.
Definition TAG_LEN : Z := 16.

(** [wrap], [unwrap]. *)
Definition wrap (version : Z) (raw : bytes) : bytes := byte_of version :: raw.
Definition unwrap (data : bytes) : option (Z * bytes) :=
  if zlen data <? 1 + NONCE_LEN + TAG_LEN then None else
  match data with
  | v :: raw => if (byte_val v =? CRYPTO_VERSION_AES) || (byte_val v =? CRYPTO_VERSION_CHACHA) then Some (byte_val v, raw) else None
  | [] => None
  end.

(** A provider is its version byte and its cipher ([Aes256Gcm], [ChaCha20Poly1305]). *)
Record Provider : Type := mkProvider { pv_version : Z; pv_aead : Aead }.

(** [encrypt], with the nonce the random source fills in, and [decrypt]. *)
Definition encrypt (p : Provider) (key nonce plaintext aad : bytes) : KResult bytes :=
  match @aead_seal (pv_aead p) key nonce aad plaintext with
  | None => KErr (Store "encrypt")
  | Some raw => KOk (wrap (pv_version p) (nonce ++ raw))
  end.
Definition decrypt (p : Provider) (key data aad : bytes) : KResult bytes :=
  match unwrap data with
  | None => KErr (Store "decrypt: unsupported crypto version or truncated data")
  | Some (version, raw) =>
      if negb (version =? pv_version p) then KErr (Store "decrypt: expected another version")
      else if zlen raw <? NONCE_LEN + TAG_LEN then KErr (Store "decrypt: ciphertext too short")
      else match @aead_open (pv_aead p) key (ztake NONCE_LEN raw) aad (zdrop NONCE_LEN raw) with
           | None => KErr (Store "decrypt")
           | Some msg => KOk msg
           end
  end.

(* ------------------------------------------------------------------ *)
(** * The store *)

(** [struct EncryptedStore]; the random source as the nonces still to come. *)
Record EncryptedStore (E : Type) : Type := mkEncryptedStore {
  es_inner : E; es_provider : Provider; es_key : bytes; es_nonces : list bytes }.
Arguments mkEncryptedStore {_}.
Arguments es_inner {_}.
Arguments es_provider {_}.
Arguments es_key {_}.
Arguments es_nonces {_}.

Section Store.
Context {E : Type} `{StorageEngine E}.

Definition decrypt_row (s : EncryptedStore E) (kv : bytes * bytes) : KResult (bytes * bytes) :=
  v ← decrypt (es_provider s) (es_key s) kv.2 kv.1; KOk (kv.1, v).
Definition enc_get (s : EncryptedStore E) (key : bytes) : KResult (option bytes) :=
  o ← eng_get (es_inner s) key;
  match o with Some c => v ← decrypt (es_provider s) (es_key s) c key; KOk (Some v) | None => KOk None end.
Definition enc_scan (s : EncryptedStore E) (prefix : bytes) : KResult (list (bytes * bytes)) :=
  rows ← eng_scan (es_inner s) prefix; k_collect (decrypt_row s) rows.
Definition enc_scan_from (s : EncryptedStore E) (prefix start : bytes) : KResult (list (bytes * bytes)) :=
  rows ← eng_scan_from (es_inner s) prefix start; k_collect (decrypt_row s) rows.

(** The encrypted puts: a nonce each, drawn in order. *)
Fixpoint encrypt_puts (p : Provider) (key : bytes) (nonces : list bytes) (puts : list (bytes * bytes)) {struct puts}
    : KResult (list (bytes * bytes)) * list bytes :=
  match puts with
  | [] => (KOk [], nonces)
  | (k, v) :: puts =>
      match nonces with
      | [] => (KErr (Store "encrypt: random source"), [])
      | nonce :: nonces =>
          match encrypt p key nonce v k with
          | KOk c => let '(r, nonces) := encrypt_puts p key nonces puts in (cs ← r; KOk ((k, c) :: cs), nonces)
          | KErr e => (KErr e, nonces)
          | KPanic => (KPanic, nonces)
          end
      end
  end.
Definition enc_write_batch (s : EncryptedStore E) (b : WriteBatch) : EncryptedStore E * KResult unit :=
  let '(r, nonces) := encrypt_puts (es_provider s) (es_key s) (es_nonces s) (wb_puts b) in
  match r with
  | KOk puts =>
      let '(inner, r) := eng_write_batch (es_inner s) (mkWriteBatch puts (wb_dels b)) in
      (mkEncryptedStore inner (es_provider s) (es_key s) nonces, r)
  | KErr e => (mkEncryptedStore (es_inner s) (es_provider s) (es_key s) nonces, KErr e)
  | KPanic => (mkEncryptedStore (es_inner s) (es_provider s) (es_key s) nonces, KPanic)
  end.
#[global] Instance encrypted_engine : StorageEngine (EncryptedStore E) := {|
  eng_get := enc_get; eng_get_many s := default_get_many (enc_get s); eng_scan := enc_scan; eng_scan_from := enc_scan_from;
  eng_predecessor s := default_predecessor (enc_scan s); eng_write_batch := enc_write_batch |}.
End Store.

(* ------------------------------------------------------------------ *)
(** * What is sealed opens *)

Definition provider_ok (p : Provider) : Prop := pv_version p = CRYPTO_VERSION_AES \/ pv_version p = CRYPTO_VERSION_CHACHA.
Lemma decrypt_encrypt p key nonce v k c :
  provider_ok p -> zlen nonce = NONCE_LEN -> encrypt p key nonce v k = KOk c -> decrypt p key c k = KOk v.
Proof.
  unfold encrypt, decrypt, provider_ok, CRYPTO_VERSION_AES, CRYPTO_VERSION_CHACHA. intros Hp Hn. destruct (@aead_seal _ key nonce k v) as [raw|] eqn:E; [|done]. intros [= <-].
  pose proof (@aead_len _ _ _ _ _ _ E) as Hl. pose proof (@aead_round _ _ _ _ _ _ E) as Ho. pose proof (zlen_nonneg v). unfold unwrap, wrap, NONCE_LEN, TAG_LEN, CRYPTO_VERSION_AES, CRYPTO_VERSION_CHACHA in *.
  assert (byte_val (byte_of (pv_version p)) = pv_version p) as Ev by (rewrite byte_val_of; destruct Hp as [-> | ->]; reflexivity).
  rewrite zlen_cons, zlen_app, (proj2 (Z.ltb_ge _ _)) by lia. rewrite Ev.
  assert ((pv_version p =? 1) || (pv_version p =? 2) = true) as -> by (destruct Hp as [-> | ->]; reflexivity).
  rewrite Z.eqb_refl. cbn [negb]. rewrite zlen_app, (proj2 (Z.ltb_ge _ _)) by lia. by rewrite ztake_app, zdrop_app, Ho.
Qed.

(** A stored map, and the map it decrypts to. *)
Definition decrypts (p : Provider) (key : bytes) (enc m : gmap bytes bytes) : Prop :=
  forall k, match enc !! k with Some c => exists v, m !! k = Some v /\ decrypt p key c k = KOk v | None => m !! k = None end.

Lemma decrypts_rows p key enc m pre s :
  decrypts p key enc m -> rows m pre s = map (fun kv => (kv.1, default [] (m !! kv.1))) (rows enc pre s).
Proof.
  intros Hd. symmetry. apply rows_unique.
  - apply (sorted_map (fun a b : bytes * bytes => bytes_lt a.1 b.1)); [apply rows_sorted | done].
  - intros k v. split.
    + intros ([k' c] & E & Hin)%list_elem_of_fmap. cbn in E. injection E as -> ->. apply rows_elem in Hin as (He & ? & ?).
      specialize (Hd k'). rewrite He in Hd. destruct Hd as (v' & -> & _). done.
    + intros (Hm & Hp & Hs). specialize (Hd k). destruct (enc !! k) as [c|] eqn:Ec; [|congruence]. apply list_elem_of_fmap. exists (k, c).
      cbn. rewrite Hm. split; [done|]. by apply rows_elem.
Qed.
Lemma k_collect_in {A B} (f : A -> KResult B) (g : A -> B) l : (forall a, a ∈ l -> f a = KOk (g a)) -> k_collect f l = KOk (map g l).
Proof. induction l as [|a l IH]; intros Hl; [done|]. cbn [k_collect map]. rewrite Hl by set_solver. cbn. rewrite IH; [done | set_solver]. Qed.
Lemma decrypts_put p key enc m k c v : decrypts p key enc m -> decrypt p key c k = KOk v -> decrypts p key (<[k := c]> enc) (<[k := v]> m).
Proof.
  intros Hd Hc k'. destruct (decide (k = k')) as [<-|Hne]; [rewrite !lookup_insert_eq; by exists v|]. rewrite !lookup_insert_ne by done. apply Hd.
Qed.
Lemma decrypts_del p key enc m k : decrypts p key enc m -> decrypts p key (base.delete k enc) (base.delete k m).
Proof.
  intros Hd k'. destruct (decide (k = k')) as [<-|Hne]; [by rewrite !lookup_delete_eq|]. rewrite !lookup_delete_ne by done. apply Hd.
Qed.
Lemma encrypt_puts_decrypts p key puts : forall nonces enc m cs nonces',
  provider_ok p -> Forall (fun n => zlen n = NONCE_LEN) nonces -> decrypts p key enc m -> encrypt_puts p key nonces puts = (KOk cs, nonces') ->
  decrypts p key (fold_left (fun m kv => <[kv.1 := kv.2]> m) cs enc) (fold_left (fun m kv => <[kv.1 := kv.2]> m) puts m) /\
  Forall (fun n => zlen n = NONCE_LEN) nonces'.
Proof.
  induction puts as [|[k v] puts IH]; intros nonces enc m cs nonces' Hp Hn Hd E; cbn [encrypt_puts] in E; [simplify_eq; split; [exact Hd | exact Hn]|].
  destruct nonces as [|n nonces]; [done|]. apply Forall_cons_1 in Hn as [Hn Hns]. destruct (encrypt p key n v k) as [c|e|] eqn:Ec; [|done..].
  destruct (encrypt_puts p key nonces puts) as [[cs'|e|] ns] eqn:Ep; try done. injection E as <- <-. cbn [fold_left fst snd].
  eapply IH; [done | done | | exact Ep]. apply decrypts_put; [done|]. by eapply decrypt_encrypt.
Qed.
Lemma decrypts_dels p key dels : forall enc m, decrypts p key enc m ->
  decrypts p key (fold_left (fun m k => base.delete k m) dels enc) (fold_left (fun m k => base.delete k m) dels m).
Proof. induction dels as [|k ks IH]; intros enc m Hd; [done|]. cbn. by apply IH, decrypts_del. Qed.

(* ------------------------------------------------------------------ *)
(** * The promise is kept *)

Section Laws.
Context {E : Type} `{EngineLaws E}.

Definition enc_holds (s : EncryptedStore E) (m : gmap bytes bytes) : Prop :=
  provider_ok (es_provider s) /\ Forall (fun n => zlen n = NONCE_LEN) (es_nonces s) /\
  exists enc, holds (es_inner s) enc /\ decrypts (es_provider s) (es_key s) enc m.
(** The values are sealed, and the engine below is ready for the result. *)
Definition enc_ready (s : EncryptedStore E) (b : WriteBatch) : Prop :=
  exists cs nonces, encrypt_puts (es_provider s) (es_key s) (es_nonces s) (wb_puts b) = (KOk cs, nonces) /\ ready (es_inner s) (mkWriteBatch cs (wb_dels b)).

Lemma decrypt_rows (s : EncryptedStore E) enc m pre st : decrypts (es_provider s) (es_key s) enc m -> k_collect (decrypt_row s) (rows enc pre st) = KOk (rows m pre st).
Proof.
  intros Hd. rewrite (decrypts_rows _ _ _ _ pre st Hd). apply k_collect_in. intros [k c] Hin. apply rows_elem in Hin as (He & _ & _).
  specialize (Hd k). rewrite He in Hd. destruct Hd as (v & Hv & Hc). unfold decrypt_row. cbn [fst snd]. rewrite Hc, Hv. done.
Qed.
Lemma enc_get_value s m k : enc_holds s m -> enc_get s k = KOk (m !! k).
Proof.
  intros (_ & _ & enc & Hh & Hd). unfold enc_get. rewrite (law_get _ enc) by done. cbn. specialize (Hd k). destruct (enc !! k) as [c|]; [|by rewrite Hd].
  destruct Hd as (v & -> & Hc). by rewrite Hc.
Qed.
Lemma enc_scan_rows s m p : enc_holds s m -> scannable (es_inner s) p -> enc_scan s p = KOk (rows m p []).
Proof. intros (_ & _ & enc & Hh & Hd) Hs. unfold enc_scan. rewrite (law_scan _ enc) by done. cbn. by apply decrypt_rows. Qed.
#[global] Instance encrypted_laws : EngineLaws (EncryptedStore E).
Proof.
  apply (Build_EngineLaws _ _ enc_holds enc_ready (fun s p => scannable (es_inner s) p)).
  - intros s m k Hh. by apply enc_get_value.
  - intros s m ks Hh. apply k_collect_map. intros k. by apply enc_get_value.
  - intros s m p Hh Hp. by apply enc_scan_rows.
  - intros s m p st (_ & _ & enc & Hh & Hd) Hp. cbn. unfold enc_scan_from. rewrite (law_scan_from _ enc) by done. cbn. by apply decrypt_rows.
  - intros s m p a Hh Hp _. cbn. apply default_predecessor_rows. by apply enc_scan_rows.
  - intros s m b (Hp & Hn & enc & Hh & Hd) (cs & ns & Ec & Hr). destruct (encrypt_puts_decrypts _ _ _ _ enc m _ _ Hp Hn Hd Ec) as [Hd' Hn'].
    destruct (law_write _ enc _ Hh Hr) as (inner & Ew & Hw). exists (mkEncryptedStore inner (es_provider s) (es_key s) ns).
    cbn [eng_write_batch encrypted_engine]. unfold enc_write_batch. rewrite Ec, Ew. split; [done|]. split_and!; [done | done|]. exists (batch_effect enc (mkWriteBatch cs (wb_dels b))).
    split; [done|]. unfold batch_effect. cbn [wb_puts wb_dels]. by apply decrypts_dels.
Defined.

(** C38: encryption is transparent.  Over any engine that keeps its promise, the encrypting
    store answers every sequence of calls as an in-memory engine that stores the plain
    values does, whatever nonces are drawn; scans, seeks and predecessor searches
    included. *)
Theorem encryption_transparent (inner : E) p key nonces ops :
  provider_ok p -> Forall (fun n => zlen n = NONCE_LEN) nonces -> holds inner ∅ ->
  let s := mkEncryptedStore inner p key nonces in run_fits s ops -> engine_run s ops = engine_run mem_new ops.
Proof.
  intros Hp Hn Hh s Hf. apply (engines_agree ops s mem_new ∅); [|apply mem_new_holds | done | exact (memory_fits ops s mem_new Hf)].
  split_and!; [done | done|]. exists ∅. split; [done|]. intros k. by rewrite !lookup_empty.
Qed.
End Laws.

(** A value is read by the provider that wrote it, and refused by the other. *)
Lemma other_provider_refuses (aes chacha : Aead) key nonce v k c :
  zlen nonce = NONCE_LEN -> encrypt (mkProvider CRYPTO_VERSION_AES aes) key nonce v k = KOk c ->
  decrypt (mkProvider CRYPTO_VERSION_AES aes) key c k = KOk v /\
  decrypt (mkProvider CRYPTO_VERSION_CHACHA chacha) key c k = KErr (Store "decrypt: expected another version").
Proof.
  intros Hn E. split; [eapply decrypt_encrypt; [by left | done | done]|]. unfold encrypt in E. cbn [pv_aead pv_version] in E.
  destruct (@aead_seal aes key nonce k v) as [raw|] eqn:Es; [|done]. injection E as <-. pose proof (@aead_len _ _ _ _ _ _ Es). pose proof (zlen_nonneg v).
  unfold decrypt, unwrap, wrap, NONCE_LEN, TAG_LEN in *. rewrite zlen_cons, zlen_app, (proj2 (Z.ltb_ge _ _)) by lia. done.
Qed.

(* ------------------------------------------------------------------ *)
(** * Witness *)

(** A cipher that appends an empty tag. *)
Definition toy_aead : Aead.
Proof.
  refine {| aead_seal _ _ _ msg := Some (msg ++ repeat x00 16); aead_open _ _ _ c := Some (ztake (zlen c - 16) c) |}.
  - intros _ _ _ msg c [= <-]. f_equal. apply ztake_app. rewrite zlen_app. unfold zlen. cbn [length repeat]. lia.
  - intros _ _ _ msg c [= <-]. rewrite zlen_app. done.
Defined.
Definition toy_store : EncryptedStore MemoryEngine := mkEncryptedStore mem_new (mkProvider CRYPTO_VERSION_AES toy_aead) (repeat x01 32) [repeat x02 12; repeat x03 12].
Definition toy_calls : list EngineOp := [EWrite (mkWriteBatch [([x61], [x31]); ([x62], [x32])] []); EGet [x61]; EWrite (mkWriteBatch [] [[x61]]); EScan []; EGet [x61]].

Lemma encryption_transparent_witness :
  engine_run toy_store toy_calls = engine_run mem_new toy_calls /\
  engine_run toy_store toy_calls = [AUnit (KOk tt); AValue (KOk (Some [x31])); AUnit (KOk tt); ARows (KOk [([x62], [x32])]); AValue (KOk None)].
Proof.
  split; [|vm_compute; reflexivity]. apply (encryption_transparent mem_new (mkProvider CRYPTO_VERSION_AES toy_aead) (repeat x01 32) [repeat x02 12; repeat x03 12] toy_calls).
  - left. reflexivity.
  - repeat constructor.
  - apply mem_new_holds.
  - cbn [run_fits toy_calls]. split; [eexists _, _; split; [vm_compute; reflexivity | exact I]|]. split; [exact I|].
    split; [eexists _, _; split; [vm_compute; reflexivity | exact I]|]. repeat split.
Defined.
