(* ===== verification/Repository.v ===== *)
(** crates/kernel/src/storage/repository.rs and storage/cache.rs: the kernel's storage
    boundary, the key layout, the row codecs, the LRU caches of heads and object versions,
    and the operations over any storage engine. *)

From stdpp Require Import gmap.
From S2P Require Import Prelude Memtable Kom Codec Store.

(* ------------------------------------------------------------------ *)
(** * Key layout *)

Definition P_OBJ : bytes := [x6b; x6f; x2f].
Definition P_HEAD : bytes := [x68; x65; x61; x64; x2f].
Definition P_KE : bytes := [x6b; x65; x2f].
Definition P_TOMB : bytes := [x74; x6f; x6d; x62; x2f].
Definition P_IDEM : bytes := [x69; x64; x65; x6d; x2f].
Definition P_SUB : bytes := [x73; x75; x62; x2f].
Definition P_REL_OUT : bytes := [x72; x65; x6c; x6f; x2f].
Definition P_REL_IN : bytes := [x72; x65; x6c; x69; x2f].
Definition P_TYPE : bytes := [x74; x79; x70; x65; x2f].
Definition K_JOURNAL : bytes := [x6d; x65; x74; x61; x2f; x6a; x6f; x75; x72; x6e; x61; x6c].
Definition K_TYPE_INDEX : bytes := [x6d; x65; x74; x61; x2f; x74; x79; x70; x65; x5f; x69; x6e; x64; x65; x78].
Definition K_SCHEMA_PREFIX : bytes := [x73; x79; x73; x2f; x73; x63; x68; x65; x6d; x61; x2f].
Definition K_TXN_PREFIX : bytes := [x73; x79; x73; x2f; x74; x78; x6e; x2f].
Definition SLASH : byte := x2f.

(** [USAGE_PREFIX], [USAGE_HEAD_KEY], [usage_row_key], [usage_head] (security/tenant.rs). *)
Definition USAGE_PREFIX : bytes := [x5f; x5f; x74; x65; x6e; x61; x6e; x74; x73; x2f; x75; x73; x61; x67; x65; x2f].
Definition USAGE_HEAD_KEY : bytes := [x5f; x5f; x74; x65; x6e; x61; x6e; x74; x73; x2f; x75; x73; x61; x67; x65; x2d; x68; x65; x61; x64].
Definition usage_row_key (tenant : bytes) : bytes := USAGE_PREFIX ++ tenant.
Definition usage_head (seq ts : Z) : bytes := le_bytes 8 seq ++ le_bytes 8 ts.

Definition obj_key (k : KOID) (commit_ts : Z) : bytes := P_OBJ ++ koid_bytes k ++ be_bytes 8 commit_ts.
Definition obj_prefix (k : KOID) : bytes := P_OBJ ++ koid_bytes k.
Definition head_key (k : KOID) : bytes := P_HEAD ++ koid_bytes k.
Definition ke_key (seq : Z) : bytes := P_KE ++ be_bytes 8 seq.
Definition tomb_key (k : KOID) : bytes := P_TOMB ++ koid_bytes k.
Definition idem_key (k : bytes) : bytes := P_IDEM ++ k.
Definition sub_key (id : bytes) : bytes := P_SUB ++ id.
Definition rel_out_key (src : KOID) (rt : bytes) (dst : KOID) : bytes := P_REL_OUT ++ koid_bytes src ++ [SLASH] ++ rt ++ [SLASH] ++ koid_bytes dst.
Definition rel_out_prefix_src (src : KOID) : bytes := P_REL_OUT ++ koid_bytes src ++ [SLASH].
Definition rel_out_prefix_src_type (src : KOID) (rt : bytes) : bytes := P_REL_OUT ++ koid_bytes src ++ [SLASH] ++ rt ++ [SLASH].
Definition rel_in_key (dst : KOID) (rt : bytes) (src : KOID) : bytes := P_REL_IN ++ koid_bytes dst ++ [SLASH] ++ rt ++ [SLASH] ++ koid_bytes src.
Definition rel_in_prefix_dst (dst : KOID) : bytes := P_REL_IN ++ koid_bytes dst ++ [SLASH].
Definition rel_in_prefix_dst_type (dst : KOID) (rt : bytes) : bytes := P_REL_IN ++ koid_bytes dst ++ [SLASH] ++ rt ++ [SLASH].
Definition type_key (ty : bytes) (k : KOID) : bytes := P_TYPE ++ ty ++ [SLASH] ++ koid_bytes k.
Definition type_prefix (ty : bytes) : bytes := P_TYPE ++ ty ++ [SLASH].

(** [decode_rel_out_key], [decode_rel_in_key]: the koid after the prefix, the type, the koid
    at the end. *)
Definition decode_rel_key (short bad : string) (key : bytes) : KResult (KOID * bytes * KOID) :=
  if zlen key <? 5 + KOID_LEN + 1 + 1 + KOID_LEN then KErr (Codec short) else
  let a := mkKOID (zslice 5 (5 + KOID_LEN) key) in
  let tail := zdrop (5 + KOID_LEN + 1) key in
  let split := zlen tail - KOID_LEN - 1 in
  if utf8_valid (ztake split tail) then KOk (a, ztake split tail, mkKOID (zdrop (split + 1) tail)) else KErr (Codec bad).
Definition decode_rel_out_key : bytes -> KResult (KOID * bytes * KOID) := decode_rel_key "rel out key too short" "rel out key bad utf-8".
Definition decode_rel_in_key : bytes -> KResult (KOID * bytes * KOID) := decode_rel_key "rel in key too short" "rel in key bad utf-8".

(* ------------------------------------------------------------------ *)
(** * Row codecs *)

Abbreviation Head := (Z * Z * LifecycleState.t)%type.
Definition encode_head (version commit_ts : Z) (state : LifecycleState.t) : bytes :=
  e_u64 version ++ e_u64 commit_ts ++ e_u8 (LifecycleState.tag state).
Definition dec_head : KD Head := v ← d_u64; ts ← d_u64; st ← dec_tag LifecycleState.from_tag; mret (v, ts, st).
Definition decode_head (b : bytes) : KResult Head := run_kd (h ← dec_head; _ ← d_finish; mret h) b.
Definition encode_journal (seq : Z) (audit : bytes) (last_ts : Z) : bytes := e_u64 seq ++ audit ++ e_u64 last_ts.
Definition dec_journal : KD (Z * bytes * Z) := s ← d_u64; a ← d_take 32; t ← d_u64; mret (s, a, t).
Definition decode_journal (b : bytes) : KResult (Z * bytes * Z) := run_kd (h ← dec_journal; _ ← d_finish; mret h) b.
Definition encode_idem (k : KOID) (version commit_ts kind : Z) : bytes := koid_bytes k ++ e_u64 version ++ e_u64 commit_ts ++ e_u8 kind.
Definition dec_idem : KD (KOID * Z * Z * option Z) :=
  k ← d_koid; v ← d_u64; ts ← d_u64; r ← d_remaining; kind ← (if 1 <=? r then z ← d_u8; mret (Some z) else mret None); mret (k, v, ts, kind).
Definition encode_tomb (hash : bytes) (seq : Z) : bytes := hash ++ e_u64 seq.
Definition dec_tomb : KD (bytes * Z) := h ← d_take 32; s ← d_u64; mret (h, s).
Definition decode_tomb (b : bytes) : KResult (bytes * Z) := run_kd (h ← dec_tomb; _ ← d_finish; mret h) b.

(** [EventFilter] with [matches], [SubscriptionRecord] (knowledge/notify.rs). *)
Record EventFilter : Type := mkEventFilter { ef_koid : option KOID; ef_kinds : option (list EventKind.t) }.
Record SubscriptionRecord : Type := mkSubscriptionRecord { sub_filter : EventFilter; sub_last_seq : Z }.
Definition filter_matches (f : EventFilter) (ke : KnowledgeEvent) : bool :=
  match ef_koid f with Some k => bool_decide (k = ke_koid ke) | None => true end &&
  match ef_kinds f with Some ks => bool_decide (ke_kind ke ∈ ks) | None => true end.
Definition encode_filter (f : EventFilter) : bytes :=
  e_opt koid_bytes (ef_koid f) ++ e_opt (e_list (fun k => e_u8 (EventKind.tag k))) (ef_kinds f).
Definition decode_filter : KD EventFilter := k ← d_opt d_koid; ks ← d_opt (d_list (dec_tag EventKind.from_tag)); mret (mkEventFilter k ks).
Definition encode_sub (r : SubscriptionRecord) : bytes := encode_filter (sub_filter r) ++ e_u64 (sub_last_seq r).
Definition decode_sub (b : bytes) : KResult SubscriptionRecord :=
  run_kd (r ← (f ← decode_filter; s ← d_u64; mret (mkSubscriptionRecord f s)); _ ← d_finish; mret r) b.

(* ------------------------------------------------------------------ *)
(** * The caches *)

(** [struct Lru], [get], [put], [remove], [clear]. *)
Section Lru.
Context {K V : Type} `{Countable K}.
Record Lru : Type := mkLru { lru_capacity : nat; lru_order : list K; lru_map : gmap K V }.
Definition lru_with_capacity (capacity : nat) : Lru := mkLru capacity [] ∅.
Definition retain_ne (key : K) (l : list K) : list K := filter (fun k => k <> key) l.
Definition lru_lookup (c : Lru) (key : K) : Lru * option V :=
  match lru_map c !! key with
  | Some v => (mkLru (lru_capacity c) (retain_ne key (lru_order c) ++ [key]) (lru_map c), Some v)
  | None => (c, None)
  end.
Definition lru_put (c : Lru) (key : K) (value : V) : Lru :=
  let c :=
    match lru_map c !! key with
    | Some _ => mkLru (lru_capacity c) (retain_ne key (lru_order c)) (lru_map c)
    | None =>
        if (0 <? lru_capacity c)%nat && (lru_capacity c <=? length (lru_order c))%nat then
          match lru_order c with
          | evicted :: order => mkLru (lru_capacity c) order (base.delete evicted (lru_map c))
          | [] => c
          end
        else c
    end in
  mkLru (lru_capacity c) (lru_order c ++ [key]) (<[key := value]> (lru_map c)).
Definition lru_remove (c : Lru) (key : K) : Lru := mkLru (lru_capacity c) (retain_ne key (lru_order c)) (base.delete key (lru_map c)).
Definition lru_clear (c : Lru) : Lru := mkLru (lru_capacity c) [] ∅.
End Lru.
Arguments Lru : clear implicits.
Arguments Lru _ _ {_ _}.

(** [struct CacheInner] of [KnowledgeCache]. *)
Record KnowledgeCache : Type := mkKnowledgeCache { kc_heads : Lru KOID Head; kc_objects : Lru (KOID * Z) KnowledgeObject }.
Definition kc_with_capacity (capacity : nat) : KnowledgeCache := mkKnowledgeCache (lru_with_capacity capacity) (lru_with_capacity capacity).
Definition kc_get_head (c : KnowledgeCache) (k : KOID) : KnowledgeCache * option Head :=
  let '(h, r) := lru_lookup (kc_heads c) k in (mkKnowledgeCache h (kc_objects c), r).
Definition kc_put_head (c : KnowledgeCache) (k : KOID) (h : Head) : KnowledgeCache := mkKnowledgeCache (lru_put (kc_heads c) k h) (kc_objects c).
Definition kc_delete_head (c : KnowledgeCache) (k : KOID) : KnowledgeCache := mkKnowledgeCache (lru_remove (kc_heads c) k) (kc_objects c).
Definition kc_get_object (c : KnowledgeCache) (k : KOID) (ts : Z) : KnowledgeCache * option KnowledgeObject :=
  let '(o, r) := lru_lookup (kc_objects c) (k, ts) in (mkKnowledgeCache (kc_heads c) o, r).
Definition kc_put_object (c : KnowledgeCache) (k : KOID) (ts : Z) (ko : KnowledgeObject) : KnowledgeCache :=
  mkKnowledgeCache (kc_heads c) (lru_put (kc_objects c) (k, ts) ko).
Definition kc_delete_object (c : KnowledgeCache) (k : KOID) (ts : Z) : KnowledgeCache :=
  mkKnowledgeCache (kc_heads c) (lru_remove (kc_objects c) (k, ts)).
Definition kc_clear (c : KnowledgeCache) : KnowledgeCache := mkKnowledgeCache (lru_clear (kc_heads c)) (lru_clear (kc_objects c)).

(* ------------------------------------------------------------------ *)
(** * The repository *)

(** [struct KnowledgeRepository], [new], [with_cache].  The engine and the cache sit behind
    shared references; reads fill the cache, so every cached read returns the repository. *)
Record Repo (E : Type) : Type := mkRepo { rp_engine : E; rp_cache : option KnowledgeCache }.
Arguments mkRepo {_} _ _.
Arguments rp_engine {_} _.
Arguments rp_cache {_} _.
Definition repo_new {E} (e : E) : Repo E := mkRepo e None.
Definition with_cache {E} (r : Repo E) (capacity : nat) : Repo E := mkRepo (rp_engine r) (Some (kc_with_capacity capacity)).

Definition RM (E A : Type) : Type := Repo E -> Repo E * KResult A.
#[global] Instance RM_ret E : MRet (RM E) := fun A a r => (r, KOk a).
#[global] Instance RM_bind E : MBind (RM E) := fun A B f m r =>
  match m r with (r, KOk a) => f a r | (r, KErr e) => (r, KErr e) | (r, KPanic) => (r, KPanic) end.

(** A call on the engine, a call on the cache when there is one. *)
Definition on_engine {E A} (f : E -> KResult A) : RM E A := fun r => (r, f (rp_engine r)).
Definition on_cache {E A} (f : KnowledgeCache -> KnowledgeCache * option A) : RM E (option A) := fun r =>
  match rp_cache r with
  | Some c => let '(c, a) := f c in (mkRepo (rp_engine r) (Some c), KOk a)
  | None => (r, KOk None)
  end.
Definition upd_cache {E} (f : KnowledgeCache -> KnowledgeCache) (r : Repo E) : Repo E := mkRepo (rp_engine r) (f <$> rp_cache r).
Definition fill_cache {E} (f : KnowledgeCache -> KnowledgeCache) : RM E unit := fun r => (upd_cache f r, KOk tt).
Definition lift {E A} (x : KResult A) : RM E A := fun r => (r, x).

(** [for row in rows { ... continue ... ?; out.push(..) }]. *)
Fixpoint k_filter_map {A B} (f : A -> KResult (option B)) (l : list A) : KResult (list B) :=
  match l with
  | [] => KOk []
  | a :: l => o ← f a; bs ← k_filter_map f l; KOk (match o with Some b => b :: bs | None => bs end)
  end.
Definition k_opt {A B} (f : A -> KResult B) (o : option A) : KResult (option B) :=
  match o with Some a => b ← f a; KOk (Some b) | None => KOk None end.

Section Operations.
Context {E : Type} `{StorageEngine E}.
Implicit Types (r : Repo E) (b : WriteBatch).

Definition repo_write_batch r b : Repo E * KResult unit :=
  let '(e, res) := eng_write_batch (rp_engine r) b in (mkRepo e (rp_cache r), res).

(** ** Relationship and type indexes *)
Definition write_rel_index b (src : KOID) (rt : bytes) (dst : KOID) : WriteBatch :=
  wb_put (wb_put b (rel_out_key src rt dst) []) (rel_in_key dst rt src) [].
Definition del_rel_index b (src : KOID) (rt : bytes) (dst : KOID) : WriteBatch :=
  wb_del (wb_del b (rel_out_key src rt dst)) (rel_in_key dst rt src).
Definition scan_outbound (e : E) (src : KOID) (rt : option bytes) : KResult (list (bytes * KOID)) :=
  let prefix := match rt with Some rt => rel_out_prefix_src_type src rt | None => rel_out_prefix_src src end in
  found ← eng_scan e prefix;
  k_collect (fun kv => '(_, rt, dst) ← decode_rel_out_key kv.1; KOk (rt, dst)) found.
Definition scan_inbound (e : E) (dst : KOID) (rt : option bytes) : KResult (list (bytes * KOID)) :=
  let prefix := match rt with Some rt => rel_in_prefix_dst_type dst rt | None => rel_in_prefix_dst dst end in
  found ← eng_scan e prefix;
  k_collect (fun kv => '(_, rt, src) ← decode_rel_in_key kv.1; KOk (rt, src)) found.

(** [is_catalog_type] (catalog.rs). *)
Definition CATALOG_TYPE : bytes := [x61; x69; x6b; x6f; x71; x6c; x3a; x63; x61; x74; x61; x6c; x6f; x67].
Definition is_catalog_type (ty : bytes) : bool := starts_with CATALOG_TYPE ty.
Definition write_type_index b (ty : bytes) (k : KOID) : WriteBatch := if is_catalog_type ty then b else wb_put b (type_key ty k) [].
Definition delete_type_index b (ty : bytes) (k : KOID) : WriteBatch := wb_del b (type_key ty k).
Definition scan_type (e : E) (ty : bytes) : KResult (list KOID) :=
  let prefix := type_prefix ty in
  found ← eng_scan e prefix;
  k_filter_map (fun kv => KOk (if zlen kv.1 =? zlen prefix + KOID_LEN then Some (mkKOID (zdrop (zlen prefix) kv.1)) else None)) found.
Definition type_index_marker (e : E) : KResult bool := o ← eng_get e K_TYPE_INDEX; KOk (bool_decide (is_Some o)).
Definition put_type_index_marker b : WriteBatch := wb_put b K_TYPE_INDEX [].

(** ** Schemas, transaction outcomes, journal *)
Definition schema_key (ty : bytes) : bytes := K_SCHEMA_PREFIX ++ ty.
Definition put_schema_row b (ty v : bytes) : WriteBatch := wb_put b (schema_key ty) v.
Definition schema_rows (e : E) : KResult (list (bytes * bytes)) :=
  found ← eng_scan e K_SCHEMA_PREFIX;
  k_filter_map (fun kv =>
    if zlen kv.1 <=? zlen K_SCHEMA_PREFIX then KOk None
    else let name := zdrop (zlen K_SCHEMA_PREFIX) kv.1 in
         if utf8_valid name then KOk (Some (name, kv.2)) else KErr (Codec "schema row key bad utf-8")) found.
Definition txn_key (id : bytes) : bytes := K_TXN_PREFIX ++ id.
Definition put_txn_record b (id v : bytes) : WriteBatch := wb_put b (txn_key id) v.
Definition txn_record (e : E) (id : bytes) : KResult (option bytes) := eng_get e (txn_key id).
Definition journal_head (e : E) : KResult (option (Z * bytes * Z)) := o ← eng_get e K_JOURNAL; k_opt decode_journal o.
Definition current_seq (e : E) : KResult Z :=
  o ← eng_get e K_JOURNAL;
  match o with Some v => '(seq, _, _) ← decode_journal v; KOk seq | None => KOk 0 end.
Definition put_journal b (seq : Z) (audit : bytes) (last_ts : Z) : WriteBatch := wb_put b K_JOURNAL (encode_journal seq audit last_ts).

(** ** Heads and object versions *)
Definition get_object_version (k : KOID) (ts : Z) : RM E (option KnowledgeObject) :=
  hit ← on_cache (fun c => kc_get_object c k ts);
  match hit with
  | Some ko => mret (Some ko)
  | None =>
      v ← on_engine (fun e => eng_get e (obj_key k ts));
      res ← lift (k_opt decode_ko_wire v);
      match res with Some ko => _ ← fill_cache (fun c => kc_put_object c k ts ko); mret (Some ko) | None => mret None end
  end.
Definition get_head (k : KOID) : RM E (option Head) :=
  hit ← on_cache (fun c => kc_get_head c k);
  match hit with
  | Some h => mret (Some h)
  | None =>
      v ← on_engine (fun e => eng_get e (head_key k));
      res ← lift (k_opt decode_head v);
      match res with Some h => _ ← fill_cache (fun c => kc_put_head c k h); mret (Some h) | None => mret None end
  end.

(** [get_heads_many], [get_object_versions_many]: hits in place, misses through one
    [get_many]; [out[i]] and [keys[i]] are checked. *)
Fixpoint many_pass {K A} (hit : K -> RM E (option A)) (key : K -> bytes) (i : nat) (ks : list K) : RM E (list (option A) * list (nat * bytes)) :=
  match ks with
  | [] => mret ([], [])
  | k :: ks =>
      h ← hit k;
      '(out, misses) ← many_pass hit key (S i) ks;
      mret (h :: out, match h with Some _ => misses | None => (i, key k) :: misses end)
  end.
Fixpoint many_fill {K A} (dec : bytes -> KResult A) (fill : K -> A -> KnowledgeCache -> KnowledgeCache) (ks : list K)
    (misses : list ((nat * bytes) * option bytes)) (out : list (option A)) : RM E (list (option A)) :=
  match misses with
  | [] => mret out
  | ((i, _), None) :: misses => many_fill dec fill ks misses out
  | ((i, _), Some v) :: misses =>
      a ← lift (dec v);
      match ks !! i, out !! i with
      | Some k, Some _ => _ ← fill_cache (fill k a); many_fill dec fill ks misses (<[i := Some a]> out)
      | _, _ => lift KPanic
      end
  end.
Definition get_many_cached {K A} (hit : K -> RM E (option A)) (key : K -> bytes) (dec : bytes -> KResult A)
    (fill : K -> A -> KnowledgeCache -> KnowledgeCache) (ks : list K) : RM E (list (option A)) :=
  '(out, misses) ← many_pass hit key 0 ks;
  match misses with
  | [] => mret out
  | _ => results ← on_engine (fun e => eng_get_many e (map snd misses)); many_fill dec fill ks (zip misses results) out
  end.
Definition get_heads_many : list KOID -> RM E (list (option Head)) :=
  get_many_cached (fun k => on_cache (fun c => kc_get_head c k)) head_key decode_head (fun k h c => kc_put_head c k h).
Definition get_object_versions_many : list (KOID * Z) -> RM E (list (option KnowledgeObject)) :=
  get_many_cached (fun k => on_cache (fun c => kc_get_object c k.1 k.2)) (fun k => obj_key k.1 k.2) decode_ko_wire (fun k ko c => kc_put_object c k.1 k.2 ko).

(** [k[k.len() - 8..]] as a big-endian integer. *)
Definition key_ts (k : bytes) : KResult Z := if zlen k <? 8 then KPanic else KOk (be_val (zdrop (zlen k - 8) k)).
Definition get_version_at (e : E) (k : KOID) (snap_ts : Z) : KResult (option (Z * KnowledgeObject)) :=
  found ← eng_predecessor e (obj_prefix k) (obj_key k snap_ts);
  match found with Some (key, v) => ts ← key_ts key; ko ← decode_ko_wire v; KOk (Some (ts, ko)) | None => KOk None end.
Definition get_object_at (e : E) (k : KOID) (snap_ts : Z) : KResult (option KnowledgeObject) :=
  o ← get_version_at e k snap_ts; KOk (option_map snd o).
Definition get_object_scoring (e : E) (k : KOID) (snap_ts : Z) (required : list bytes) : KResult (option ScoringRecord) :=
  found ← eng_predecessor e (obj_prefix k) (obj_key k snap_ts);
  match found with
  | Some (_, v) => if zlen v <? 8 then KErr (Codec "scoring blob under 8 bytes") else s ← decode_ko_scoring (zdrop 8 v) required; KOk (Some s)
  | None => KOk None
  end.

Definition put_object_version r b (k : KOID) (ts : Z) (ko : KnowledgeObject) : Repo E * WriteBatch :=
  (upd_cache (fun c => kc_delete_object c k ts) r, wb_put b (obj_key k ts) (encode_ko_wire ko)).
Definition delete_object_version r b (k : KOID) (ts : Z) : Repo E * WriteBatch :=
  (upd_cache (fun c => kc_delete_object c k ts) r, wb_del b (obj_key k ts)).
Definition put_head r b (k : KOID) (version commit_ts : Z) (state : LifecycleState.t) : Repo E * WriteBatch :=
  (upd_cache (fun c => kc_delete_head c k) r, wb_put b (head_key k) (encode_head version commit_ts state)).
Definition delete_head r b (k : KOID) : Repo E * WriteBatch :=
  (upd_cache (fun c => kc_delete_head c k) r, wb_del b (head_key k)).
Definition scan_heads (e : E) : KResult (list (KOID * Z * Z * LifecycleState.t)) :=
  found ← eng_scan e P_HEAD;
  k_filter_map (fun kv =>
    if zlen kv.1 <? zlen P_HEAD + KOID_LEN then KOk None
    else '(version, ts, state) ← decode_head kv.2;
         KOk (Some (mkKOID (zslice (zlen P_HEAD) (zlen P_HEAD + KOID_LEN) kv.1), version, ts, state))) found.
Definition scan_object_versions (e : E) (k : KOID) : KResult (list (Z * KnowledgeObject)) :=
  found ← eng_scan e (obj_prefix k);
  k_collect (fun kv => ts ← key_ts kv.1; ko ← decode_ko_wire kv.2; KOk (ts, ko)) found.

(** ** Events, idempotency rows, tombstones, subscriptions *)
Definition put_event b (seq : Z) (ke : KnowledgeEvent) : WriteBatch := wb_put b (ke_key seq) (encode_ke ke).
Definition get_event (e : E) (seq : Z) : KResult (option KnowledgeEvent) := o ← eng_get e (ke_key seq); k_opt decode_ke o.
Definition scan_events (e : E) : KResult (list KnowledgeEvent) := found ← eng_scan e P_KE; k_collect (fun kv => decode_ke kv.2) found.
Definition scan_events_after (e : E) (after_seq : Z) : KResult (list KnowledgeEvent) :=
  if after_seq =? U64 - 1 then KOk []
  else found ← eng_scan_from e P_KE (ke_key (after_seq + 1)); k_collect (fun kv => decode_ke kv.2) found.
Definition put_idem b (key : bytes) (k : KOID) (version commit_ts kind : Z) : WriteBatch := wb_put b (idem_key key) (encode_idem k version commit_ts kind).
Definition get_idem_tagged (e : E) (key : bytes) : KResult (option (KOID * Z * Z * option Z)) := o ← eng_get e (idem_key key); k_opt (run_kd dec_idem) o.
Definition get_idem (e : E) (key : bytes) : KResult (option (KOID * Z * Z)) :=
  o ← get_idem_tagged e key; KOk (option_map fst o).
Definition put_tombstone b (k : KOID) (hash : bytes) (seq : Z) : WriteBatch := wb_put b (tomb_key k) (encode_tomb hash seq).
Definition get_tombstone (e : E) (k : KOID) : KResult (option (bytes * Z)) := o ← eng_get e (tomb_key k); k_opt decode_tomb o.
Definition put_subscription b (id : bytes) (rec : SubscriptionRecord) : WriteBatch := wb_put b (sub_key id) (encode_sub rec).
Definition delete_subscription b (id : bytes) : WriteBatch := wb_del b (sub_key id).
Definition scan_subscriptions (e : E) : KResult (list (bytes * SubscriptionRecord)) :=
  found ← eng_scan e P_SUB;
  k_filter_map (fun kv =>
    if zlen kv.1 <=? zlen P_SUB then KOk None
    else let id := zdrop (zlen P_SUB) kv.1 in
         if utf8_valid id then rec ← decode_sub kv.2; KOk (Some (id, rec)) else KErr (Codec "invalid subscription id bytes")) found.

(** ** Rebuilding the derived indexes *)
Record DerivedIndexRebuild : Type := mkRebuild {
  heads_scanned : Z; relo_rows : Z; reli_rows : Z; type_rows : Z; removed_stale : Z; removed_invalid : Z }.

(** The rows an object of a head derives: the edges of its relationships, its type. *)
Definition edge_of (k : KOID) (rel : RelationshipRef) : KOID * bytes * KOID :=
  match direction rel with Direction.Outbound => (k, rel_type rel, target rel) | Direction.Inbound => (target rel, rel_type rel, k) end.
Definition edge_keys (e : KOID * bytes * KOID) : list bytes := let '(src, rt, dst) := e in [rel_out_key src rt dst; rel_in_key dst rt src].
Definition derived_keys (k : KOID) (ko : KnowledgeObject) : list bytes :=
  flat_map (fun rel => edge_keys (edge_of k rel)) (ko_relationships ko) ++
  (if is_catalog_type (type_name (ko_metadata ko)) then [] else [type_key (type_name (ko_metadata ko)) k]).

Definition k_is_err {A} (x : KResult A) : bool := match x with KErr _ => true | _ => false end.
Definition count_if {A} (f : A -> bool) (l : list A) : Z := zlen (List.filter f l).

(** The loop over the heads: the new keys, the relationships and the types counted. *)
Fixpoint derive_loop (heads : list (KOID * Z * Z * LifecycleState.t)) (new : gset bytes) (rels types : Z) : RM E (gset bytes * Z * Z) :=
  match heads with
  | [] => mret (new, rels, types)
  | (k, _, ts, _) :: heads =>
      o ← get_object_version k ts;
      match o with
      | None => derive_loop heads new rels types
      | Some ko =>
          derive_loop heads (new ∪ list_to_set (derived_keys k ko)) (rels + zlen (ko_relationships ko))
            (types + (if is_catalog_type (type_name (ko_metadata ko)) then 0 else 1))
      end
  end.
Definition rebuild_batch (old new : gset bytes) : WriteBatch :=
  mkWriteBatch (map (fun k => (k, [])) (elements (new ∖ old))) (elements (old ∖ new)).
Definition write_nonempty b : RM E unit := if wb_is_empty b then mret tt else fun r => repo_write_batch r b.
Definition rebuild_derived_indexes : RM E DerivedIndexRebuild :=
  outs ← on_engine (fun e => eng_scan e P_REL_OUT);
  ins ← on_engine (fun e => eng_scan e P_REL_IN);
  types ← on_engine (fun e => eng_scan e P_TYPE);
  let invalid := count_if (fun kv => k_is_err (decode_rel_out_key kv.1)) outs + count_if (fun kv => k_is_err (decode_rel_in_key kv.1)) ins +
                 count_if (fun kv : bytes * bytes => zlen kv.1 <? zlen P_TYPE + 1 + KOID_LEN) types in
  let old : gset bytes := list_to_set (map fst (outs ++ ins ++ types)) in
  heads ← on_engine scan_heads;
  '(new, rels, tys) ← derive_loop heads ∅ 0 0;
  let removed := Z.of_nat (size (old ∖ new)) in
  let batch := rebuild_batch old new in
  _ ← write_nonempty batch;
  if removed <? invalid then lift KPanic else mret (mkRebuild (zlen heads) rels rels tys (removed - invalid) invalid).
End Operations.
