(* ===== verification/RepositorySpec.v ===== *)
(** The contract of the repository: a map from typed row names to typed rows, the edits of a
    batch and the reads on it; and what it means for the byte store of an engine, and for a
    cache, to represent such a map. *)

From stdpp Require Import gmap.
From S2P Require Import Prelude Memtable Kom Codec CodecProps Store Repository.

(* ------------------------------------------------------------------ *)
(** * Typed rows *)

Inductive RowId : Type :=
  | IdObj (k : KOID) (ts : Z)
  | IdHead (k : KOID)
  | IdKe (seq : Z)
  | IdTomb (k : KOID)
  | IdIdem (key : bytes)
  | IdSub (id : bytes)
  | IdRelOut (src : KOID) (rt : bytes) (dst : KOID)
  | IdRelIn (dst : KOID) (rt : bytes) (src : KOID)
  | IdType (ty : bytes) (k : KOID)
  | IdJournal
  | IdTypeIndex
  | IdSchema (ty : bytes)
  | IdTxn (id : bytes)
  | IdUsageHead
  | IdUsage (tenant : bytes).
Inductive RowValue : Type :=
  | VObj (ko : KnowledgeObject)
  | VHead (h : Head)
  | VKe (ke : KnowledgeEvent)
  | VTomb (hash : bytes) (seq : Z)
  | VIdem (k : KOID) (version commit_ts kind : Z)
  | VSub (rec : SubscriptionRecord)
  | VJournal (seq : Z) (audit : bytes) (last_ts : Z)
  | VRaw (v : bytes).

#[global] Instance RowId_eq_dec : EqDecision RowId.
Proof. solve_decision. Defined.
#[global] Instance RowId_countable : Countable RowId.
Proof.
  pose (none := mkKOID []).
  apply (inj_countable'
    (fun id => match id with
      | IdObj k ts => (0, k, [], none, ts) | IdHead k => (1, k, [], none, 0) | IdKe s => (2, none, [], none, s) | IdTomb k => (3, k, [], none, 0)
      | IdIdem b => (4, none, b, none, 0) | IdSub b => (5, none, b, none, 0) | IdRelOut a b c => (6, a, b, c, 0) | IdRelIn a b c => (7, a, b, c, 0)
      | IdType b k => (8, k, b, none, 0) | IdJournal => (9, none, [], none, 0) | IdTypeIndex => (10, none, [], none, 0)
      | IdSchema b => (11, none, b, none, 0) | IdTxn b => (12, none, b, none, 0)
      | IdUsageHead => (13, none, [], none, 0) | IdUsage b => (14, none, b, none, 0) end)
    (fun x => let '(t, a, b, c, z) := x in
      match t with
      | 0 => IdObj a z | 1 => IdHead a | 2 => IdKe z | 3 => IdTomb a | 4 => IdIdem b | 5 => IdSub b | 6 => IdRelOut a b c | 7 => IdRelIn a b c
      | 8 => IdType b a | 9 => IdJournal | 10 => IdTypeIndex | 11 => IdSchema b | 12 => IdTxn b | 13 => IdUsageHead | _ => IdUsage b end)).
  by intros [].
Defined.

Definition row_key (id : RowId) : bytes :=
  match id with
  | IdObj k ts => obj_key k ts
  | IdHead k => head_key k
  | IdKe seq => ke_key seq
  | IdTomb k => tomb_key k
  | IdIdem key => idem_key key
  | IdSub id => sub_key id
  | IdRelOut src rt dst => rel_out_key src rt dst
  | IdRelIn dst rt src => rel_in_key dst rt src
  | IdType ty k => type_key ty k
  | IdJournal => K_JOURNAL
  | IdTypeIndex => K_TYPE_INDEX
  | IdSchema ty => schema_key ty
  | IdTxn id => txn_key id
  | IdUsageHead => USAGE_HEAD_KEY
  | IdUsage tenant => usage_row_key tenant
  end.
Definition row_bytes (v : RowValue) : bytes :=
  match v with
  | VObj ko => encode_ko_wire ko
  | VHead (version, ts, st) => encode_head version ts st
  | VKe ke => encode_ke ke
  | VTomb hash seq => encode_tomb hash seq
  | VIdem k version ts kind => encode_idem k version ts kind
  | VSub rec => encode_sub rec
  | VJournal seq audit ts => encode_journal seq audit ts
  | VRaw v => v
  end.
Definition enc_row (x : RowId * RowValue) : bytes * bytes := (row_key x.1, row_bytes x.2).

(** What the types of the source guarantee of a name and of a row. *)
Definition koid_ok (k : KOID) : bool := len_is KOID_LEN (koid_bytes k).
Definition id_wf (id : RowId) : bool :=
  match id with
  | IdObj k ts => koid_ok k && fits_in U64 ts
  | IdHead k | IdTomb k => koid_ok k
  | IdKe seq => fits_in U64 seq
  | IdIdem s | IdSub s | IdSchema s | IdTxn s | IdUsage s => utf8_valid s
  | IdRelOut a rt c | IdRelIn a rt c => koid_ok a && utf8_valid rt && koid_ok c
  | IdType ty k => utf8_valid ty && koid_ok k
  | IdJournal | IdTypeIndex | IdUsageHead => true
  end.
Definition sub_wf (rec : SubscriptionRecord) : bool := opt_wf koid_ok (ef_koid (sub_filter rec)) && fits_in U64 (sub_last_seq rec).
Definition row_wf (id : RowId) (v : RowValue) : bool :=
  (zlen (row_bytes v) <? USIZE) &&
  match id, v with
  | IdObj _ _, VObj ko => ko_wf ko
  | IdHead _, VHead (version, ts, _) => fits_in U64 version && fits_in U64 ts
  | IdKe _, VKe ke => ke_wf ke
  | IdTomb _, VTomb hash seq => len_is 32 hash && fits_in U64 seq
  | IdIdem _, VIdem k version ts kind => koid_ok k && fits_in U64 version && fits_in U64 ts && fits_in 256 kind
  | IdSub _, VSub rec => sub_wf rec
  | IdJournal, VJournal seq audit ts => fits_in U64 seq && len_is 32 audit && fits_in U64 ts
  | IdRelOut _ _ _, VRaw v | IdRelIn _ _ _, VRaw v | IdType _ _, VRaw v | IdTypeIndex, VRaw v => bool_decide (v = [])
  | IdSchema _, VRaw _ | IdTxn _, VRaw _ | IdUsageHead, VRaw _ | IdUsage _, VRaw _ => true
  | _, _ => false
  end.

Abbreviation SpecState := (gmap RowId RowValue).

(** The rows in key order. *)
Definition sorted_rows (s : SpecState) : list (RowId * RowValue) :=
  map snd (foldr (fun x l => btree_insert l (row_key x.1) x) [] (map_to_list s)).

(* ------------------------------------------------------------------ *)
(** * Edits and reads on the contract *)

Inductive Edit : Type :=
  | PutObject (k : KOID) (ts : Z) (ko : KnowledgeObject)
  | DelObject (k : KOID) (ts : Z)
  | PutHead (k : KOID) (version commit_ts : Z) (state : LifecycleState.t)
  | DelHead (k : KOID)
  | PutEvent (seq : Z) (ke : KnowledgeEvent)
  | PutIdem (key : bytes) (k : KOID) (version commit_ts kind : Z)
  | PutTomb (k : KOID) (hash : bytes) (seq : Z)
  | PutSub (id : bytes) (rec : SubscriptionRecord)
  | DelSub (id : bytes)
  | WriteRel (src : KOID) (rt : bytes) (dst : KOID)
  | DelRel (src : KOID) (rt : bytes) (dst : KOID)
  | WriteType (ty : bytes) (k : KOID)
  | DelType (ty : bytes) (k : KOID)
  | PutMarker
  | PutSchema (ty v : bytes)
  | PutTxn (id v : bytes)
  | PutJournal (seq : Z) (audit : bytes) (last_ts : Z)
  | PutUsageHead (seq ts : Z)
  | PutUsage (tenant : bytes) (count : Z).

Definition edit_puts (ed : Edit) : list (RowId * RowValue) :=
  match ed with
  | PutObject k ts ko => [(IdObj k ts, VObj ko)]
  | PutHead k version ts st => [(IdHead k, VHead (version, ts, st))]
  | PutEvent seq ke => [(IdKe seq, VKe ke)]
  | PutIdem key k version ts kind => [(IdIdem key, VIdem k version ts kind)]
  | PutTomb k hash seq => [(IdTomb k, VTomb hash seq)]
  | PutSub id rec => [(IdSub id, VSub rec)]
  | WriteRel src rt dst => [(IdRelOut src rt dst, VRaw []); (IdRelIn dst rt src, VRaw [])]
  | WriteType ty k => if is_catalog_type ty then [] else [(IdType ty k, VRaw [])]
  | PutMarker => [(IdTypeIndex, VRaw [])]
  | PutSchema ty v => [(IdSchema ty, VRaw v)]
  | PutTxn id v => [(IdTxn id, VRaw v)]
  | PutJournal seq audit ts => [(IdJournal, VJournal seq audit ts)]
  | PutUsageHead seq ts => [(IdUsageHead, VRaw (usage_head seq ts))]
  | PutUsage tenant count => [(IdUsage tenant, VRaw (le_bytes 8 count))]
  | _ => []
  end.
Definition edit_dels (ed : Edit) : list RowId :=
  match ed with
  | DelObject k ts => [IdObj k ts]
  | DelHead k => [IdHead k]
  | DelSub id => [IdSub id]
  | DelRel src rt dst => [IdRelOut src rt dst; IdRelIn dst rt src]
  | DelType ty k => [IdType ty k]
  | _ => []
  end.
Definition edit_wf (ed : Edit) : bool := forallb (fun x => id_wf x.1 && row_wf x.1 x.2) (edit_puts ed) && forallb id_wf (edit_dels ed).

(** A batch takes its puts in order and then its deletions. *)
Definition spec_puts (s : SpecState) (ps : list (RowId * RowValue)) : SpecState := fold_left (fun s x => <[x.1 := x.2]> s) ps s.
Definition spec_dels (s : SpecState) (ds : list RowId) : SpecState := fold_left (fun s id => base.delete id s) ds s.
Definition spec_commit (s : SpecState) (eds : list Edit) : SpecState := spec_dels (spec_puts s (flat_map edit_puts eds)) (flat_map edit_dels eds).

Inductive Query : Type :=
  | QHead (k : KOID)
  | QObject (k : KOID) (ts : Z)
  | QHeads (ks : list KOID)
  | QObjects (ks : list (KOID * Z))
  | QVersionAt (k : KOID) (snap : Z)
  | QScanHeads
  | QScanVersions (k : KOID)
  | QEvent (seq : Z)
  | QEvents
  | QEventsAfter (seq : Z)
  | QIdem (key : bytes)
  | QTomb (k : KOID)
  | QSubs
  | QOutbound (src : KOID)
  | QInbound (dst : KOID)
  | QType (ty : bytes)
  | QMarker
  | QSchemas
  | QTxn (id : bytes)
  | QSeq
  | QJournal.
Inductive Reply : Type :=
  | RHead (o : option Head)
  | RObject (o : option KnowledgeObject)
  | RHeads (l : list (option Head))
  | RObjects (l : list (option KnowledgeObject))
  | RVersion (o : option (Z * KnowledgeObject))
  | RScanHeads (l : list (KOID * Z * Z * LifecycleState.t))
  | RVersions (l : list (Z * KnowledgeObject))
  | REvent (o : option KnowledgeEvent)
  | REvents (l : list KnowledgeEvent)
  | RIdem (o : option (KOID * Z * Z * option Z))
  | RTomb (o : option (bytes * Z))
  | RSubs (l : list (bytes * SubscriptionRecord))
  | REdges (l : list (bytes * KOID))
  | RKoids (l : list KOID)
  | RFlag (b : bool)
  | RRows (l : list (bytes * bytes))
  | RRow (o : option bytes)
  | RSeq (z : Z)
  | RJournal (o : option (Z * bytes * Z)).

Definition as_head (v : RowValue) : option Head := match v with VHead h => Some h | _ => None end.
Definition as_obj (v : RowValue) : option KnowledgeObject := match v with VObj ko => Some ko | _ => None end.
Definition as_ke (v : RowValue) : option KnowledgeEvent := match v with VKe ke => Some ke | _ => None end.
Definition as_tomb (v : RowValue) : option (bytes * Z) := match v with VTomb h s => Some (h, s) | _ => None end.
Definition as_idem (v : RowValue) : option (KOID * Z * Z * option Z) := match v with VIdem k ver ts kind => Some (k, ver, ts, Some kind) | _ => None end.
Definition as_journal (v : RowValue) : option (Z * bytes * Z) := match v with VJournal q a t => Some (q, a, t) | _ => None end.
Definition as_raw (v : RowValue) : option bytes := match v with VRaw v => Some v | _ => None end.
Definition spec_head (s : SpecState) (k : KOID) : option Head := s !! IdHead k ≫= as_head.
Definition spec_object (s : SpecState) (k : KOID) (ts : Z) : option KnowledgeObject := s !! IdObj k ts ≫= as_obj.

(** The rows of one kind, in key order. *)
Definition sel_version (k : KOID) (x : RowId * RowValue) : option (Z * KnowledgeObject) :=
  match x with (IdObj k' ts, VObj ko) => if bool_decide (k' = k) then Some (ts, ko) else None | _ => None end.
Definition sel_head (x : RowId * RowValue) : option (KOID * Z * Z * LifecycleState.t) :=
  match x with (IdHead k, VHead (version, ts, st)) => Some (k, version, ts, st) | _ => None end.
Definition sel_event (from : Z) (x : RowId * RowValue) : option KnowledgeEvent :=
  match x with (IdKe seq, VKe ke) => if from <=? seq then Some ke else None | _ => None end.
Definition sel_sub (x : RowId * RowValue) : option (bytes * SubscriptionRecord) :=
  match x with (IdSub id, VSub rec) => if bool_decide (id = []) then None else Some (id, rec) | _ => None end.
Definition sel_out (src : KOID) (x : RowId * RowValue) : option (bytes * KOID) :=
  match x.1 with IdRelOut src' rt dst => if bool_decide (src' = src) then Some (rt, dst) else None | _ => None end.
Definition sel_in (dst : KOID) (x : RowId * RowValue) : option (bytes * KOID) :=
  match x.1 with IdRelIn dst' rt src => if bool_decide (dst' = dst) then Some (rt, src) else None | _ => None end.
Definition sel_type (ty : bytes) (x : RowId * RowValue) : option KOID :=
  match x.1 with IdType ty' k => if bool_decide (ty' = ty) then Some k else None | _ => None end.
Definition sel_schema (x : RowId * RowValue) : option (bytes * bytes) :=
  match x with (IdSchema ty, VRaw v) => if bool_decide (ty = []) then None else Some (ty, v) | _ => None end.
Definition listed {B} (sel : RowId * RowValue -> option B) (s : SpecState) : list B := omap sel (sorted_rows s).

(** The reads.  The version at a snapshot is the last, in version order, of those no newer. *)
Definition spec_version_at (s : SpecState) (k : KOID) (snap : Z) : option (Z * KnowledgeObject) :=
  last (List.filter (fun x => x.1 <=? snap) (listed (sel_version k) s)).
Definition spec_query (s : SpecState) (q : Query) : Reply :=
  match q with
  | QHead k => RHead (spec_head s k)
  | QObject k ts => RObject (spec_object s k ts)
  | QHeads ks => RHeads (map (spec_head s) ks)
  | QObjects ks => RObjects (map (fun k => spec_object s k.1 k.2) ks)
  | QVersionAt k snap => RVersion (spec_version_at s k snap)
  | QScanHeads => RScanHeads (listed sel_head s)
  | QScanVersions k => RVersions (listed (sel_version k) s)
  | QEvent seq => REvent (s !! IdKe seq ≫= as_ke)
  | QEvents => REvents (listed (sel_event 0) s)
  | QEventsAfter seq => REvents (listed (sel_event (seq + 1)) s)
  | QIdem key => RIdem (s !! IdIdem key ≫= as_idem)
  | QTomb k => RTomb (s !! IdTomb k ≫= as_tomb)
  | QSubs => RSubs (listed sel_sub s)
  | QOutbound src => REdges (listed (sel_out src) s)
  | QInbound dst => REdges (listed (sel_in dst) s)
  | QType ty => RKoids (listed (sel_type ty) s)
  | QMarker => RFlag (bool_decide (is_Some (s !! IdTypeIndex)))
  | QSchemas => RRows (listed sel_schema s)
  | QTxn id => RRow (s !! IdTxn id ≫= as_raw)
  | QSeq => RSeq (match s !! IdJournal ≫= as_journal with Some (q, _, _) => q | None => 0 end)
  | QJournal => RJournal (s !! IdJournal ≫= as_journal)
  end.
Definition query_wf (q : Query) : bool :=
  match q with
  | QHead k | QScanVersions k | QTomb k | QOutbound k | QInbound k => koid_ok k
  | QObject k ts | QVersionAt k ts => koid_ok k && fits_in U64 ts
  | QHeads ks => forallb koid_ok ks
  | QObjects ks => forallb (fun k => koid_ok k.1 && fits_in U64 k.2) ks
  | QEvent seq | QEventsAfter seq => fits_in U64 seq
  | QIdem s | QType s | QTxn s => utf8_valid s
  | _ => true
  end.

(* ------------------------------------------------------------------ *)
(** * The same edits and reads on the repository *)

Section Calls.
Context {E : Type} `{StorageEngine E}.

Definition edit_step (x : Repo E * WriteBatch) (ed : Edit) : Repo E * WriteBatch :=
  let '(r, b) := x in
  match ed with
  | PutObject k ts ko => put_object_version r b k ts ko
  | DelObject k ts => delete_object_version r b k ts
  | PutHead k version ts st => put_head r b k version ts st
  | DelHead k => delete_head r b k
  | PutEvent seq ke => (r, put_event b seq ke)
  | PutIdem key k version ts kind => (r, put_idem b key k version ts kind)
  | PutTomb k hash seq => (r, put_tombstone b k hash seq)
  | PutSub id rec => (r, put_subscription b id rec)
  | DelSub id => (r, delete_subscription b id)
  | WriteRel src rt dst => (r, write_rel_index b src rt dst)
  | DelRel src rt dst => (r, del_rel_index b src rt dst)
  | WriteType ty k => (r, write_type_index b ty k)
  | DelType ty k => (r, delete_type_index b ty k)
  | PutMarker => (r, put_type_index_marker b)
  | PutSchema ty v => (r, put_schema_row b ty v)
  | PutTxn id v => (r, put_txn_record b id v)
  | PutJournal seq audit ts => (r, put_journal b seq audit ts)
  | PutUsageHead seq ts => (r, wb_put b USAGE_HEAD_KEY (usage_head seq ts))
  | PutUsage tenant count => (r, wb_put b (usage_row_key tenant) (le_bytes 8 count))
  end.
Definition build_batch (r : Repo E) (eds : list Edit) : Repo E * WriteBatch := fold_left edit_step eds (r, wb_new).
Definition commit_edits (r : Repo E) (eds : list Edit) : Repo E * KResult unit := let '(r, b) := build_batch r eds in repo_write_batch r b.

Definition with_reply {A} (f : A -> Reply) (m : RM E A) : RM E Reply := a ← m; mret (f a).
Definition run_query (q : Query) : RM E Reply :=
  match q with
  | QHead k => with_reply RHead (get_head k)
  | QObject k ts => with_reply RObject (get_object_version k ts)
  | QHeads ks => with_reply RHeads (get_heads_many ks)
  | QObjects ks => with_reply RObjects (get_object_versions_many ks)
  | QVersionAt k snap => with_reply RVersion (on_engine (fun e => get_version_at e k snap))
  | QScanHeads => with_reply RScanHeads (on_engine scan_heads)
  | QScanVersions k => with_reply RVersions (on_engine (fun e => scan_object_versions e k))
  | QEvent seq => with_reply REvent (on_engine (fun e => get_event e seq))
  | QEvents => with_reply REvents (on_engine scan_events)
  | QEventsAfter seq => with_reply REvents (on_engine (fun e => scan_events_after e seq))
  | QIdem key => with_reply RIdem (on_engine (fun e => get_idem_tagged e key))
  | QTomb k => with_reply RTomb (on_engine (fun e => get_tombstone e k))
  | QSubs => with_reply RSubs (on_engine scan_subscriptions)
  | QOutbound src => with_reply REdges (on_engine (fun e => scan_outbound e src None))
  | QInbound dst => with_reply REdges (on_engine (fun e => scan_inbound e dst None))
  | QType ty => with_reply RKoids (on_engine (fun e => scan_type e ty))
  | QMarker => with_reply RFlag (on_engine type_index_marker)
  | QSchemas => with_reply RRows (on_engine schema_rows)
  | QTxn id => with_reply RRow (on_engine (fun e => txn_record e id))
  | QSeq => with_reply RSeq (on_engine current_seq)
  | QJournal => with_reply RJournal (on_engine journal_head)
  end.

(** A client of the repository: each batch is written as soon as it is built. *)
Inductive Call : Type := CQuery (q : Query) | CCommit (eds : list Edit).
Inductive Answer : Type := AReply (x : KResult Reply) | ADone (x : KResult unit).
Definition repo_call (r : Repo E) (c : Call) : Repo E * Answer :=
  match c with
  | CQuery q => let '(r, x) := run_query q r in (r, AReply x)
  | CCommit eds => let '(r, x) := commit_edits r eds in (r, ADone x)
  end.
Fixpoint repo_calls (r : Repo E) (cs : list Call) : list Answer :=
  match cs with [] => [] | c :: cs => let '(r, a) := repo_call r c in a :: repo_calls r cs end.
End Calls.

Definition spec_call (s : SpecState) (c : Call) : SpecState * Answer :=
  match c with CQuery q => (s, AReply (KOk (spec_query s q))) | CCommit eds => (spec_commit s eds, ADone (KOk tt)) end.
Fixpoint spec_calls (s : SpecState) (cs : list Call) : list Answer :=
  match cs with [] => [] | c :: cs => let '(s, a) := spec_call s c in a :: spec_calls s cs end.

(* ------------------------------------------------------------------ *)
(** * Representation *)

Definition represents (m : gmap bytes bytes) (s : SpecState) : Prop :=
  (forall id v, s !! id = Some v -> id_wf id = true /\ row_wf id v = true) /\
  (forall k v, m !! k = Some v <-> exists id x, s !! id = Some x /\ k = row_key id /\ v = row_bytes x).

(** Every cached head and version is the stored one. *)
Definition cache_agrees (c : KnowledgeCache) (s : SpecState) : Prop :=
  (forall k h, lru_map (kc_heads c) !! k = Some h -> s !! IdHead k = Some (VHead h)) /\
  (forall k ts ko, lru_map (kc_objects c) !! (k, ts) = Some ko -> s !! IdObj k ts = Some (VObj ko)).
Definition repo_ok {E} `{EngineLaws E} (r : Repo E) (s : SpecState) : Prop :=
  exists m, holds (rp_engine r) m /\ represents m s /\ forall c, rp_cache r = Some c -> cache_agrees c s.
