(* ===== verification/RepositoryReads.v ===== *)
(** Rows and keys of the repository: no two rows share a key, a prefix selects the rows of
    its kind, every row reads back, and a byte store that represents a typed one is scanned
    in its order. *)

From stdpp Require Import gmap.
From S2P Require Import Prelude Memtable Kom Codec CodecProps Store Repository RepositorySpec.

(* ------------------------------------------------------------------ *)
(** * Keys *)

Lemma koid_ok_wf k : koid_ok k = true <-> koid_wf k.
Proof. apply len_is_iff. Qed.
Lemma koid_length k : koid_ok k = true -> length (koid_bytes k) = 16%nat.
Proof. rewrite koid_ok_wf. unfold koid_wf, KOID_LEN, zlen. lia. Qed.
Lemma koid_bytes_inj a b : koid_bytes a = koid_bytes b -> a = b.
Proof. destruct a, b. cbn. by intros ->. Qed.
Lemma koid_app_inj a b x y : koid_ok a = true -> koid_ok b = true -> koid_bytes a ++ x = koid_bytes b ++ y -> a = b /\ x = y.
Proof. intros Ha%koid_length Hb%koid_length E. apply app_inj_1 in E as [E ->]; [|congruence]. split; [by apply koid_bytes_inj | done]. Qed.
Lemma app_koid_inj a b x y : koid_ok a = true -> koid_ok b = true -> x ++ koid_bytes a = y ++ koid_bytes b -> x = y /\ a = b.
Proof. intros Ha%koid_length Hb%koid_length E. apply app_inj_2 in E as [-> E]; [|congruence]. split; [done | by apply koid_bytes_inj]. Qed.
Lemma be_inj z z' : fits_in U64 z = true -> fits_in U64 z' = true -> be_bytes 8 z = be_bytes 8 z' -> z = z'.
Proof. rewrite !fits_in_iff. intros Hz Hz' E. rewrite <-(be_val_bytes 8 z), <-(be_val_bytes 8 z'), E by (cbn; unfold U64 in *; lia). done. Qed.
Lemma snoc_inj (x y : bytes) c : x ++ [c] = y ++ [c] -> x = y.
Proof. intros E. by apply app_inj_2 in E as [-> _]. Qed.
Lemma triple_inj a b rt rt' c d :
  koid_ok a = true -> koid_ok b = true -> koid_ok c = true -> koid_ok d = true ->
  koid_bytes a ++ [SLASH] ++ rt ++ [SLASH] ++ koid_bytes c = koid_bytes b ++ [SLASH] ++ rt' ++ [SLASH] ++ koid_bytes d -> a = b /\ rt = rt' /\ c = d.
Proof.
  intros Ha Hb Hc Hd E. apply koid_app_inj in E as [-> E]; [|done..]. apply app_inv_head in E. rewrite !app_assoc in E.
  apply app_koid_inj in E as [E ->]; [|done..]. by apply snoc_inj in E as ->.
Qed.

#[global] Arguments koid_ok : simpl never.
Lemma row_key_inj id id' : id_wf id = true -> id_wf id' = true -> row_key id = row_key id' -> id = id'.
Proof.
  intros Hi Hi' E. destruct id, id'; try (exfalso; cbn in E; discriminate E); cbn [id_wf row_key] in *; bool_to_prop; destruct_and?.
  - unfold obj_key in E. apply app_inv_head in E. apply koid_app_inj in E as [-> E]; [|done..]. by rewrite (be_inj ts ts0).
  - unfold head_key in E. apply app_inv_head in E. by rewrite (koid_bytes_inj _ _ E).
  - unfold ke_key in E. apply app_inv_head in E. by rewrite (be_inj seq seq0).
  - unfold tomb_key in E. apply app_inv_head in E. by rewrite (koid_bytes_inj _ _ E).
  - unfold idem_key in E. apply app_inv_head in E. by subst.
  - unfold sub_key in E. apply app_inv_head in E. by subst.
  - unfold rel_out_key in E. apply app_inv_head in E. apply triple_inj in E as (-> & -> & ->); done.
  - unfold rel_in_key in E. apply app_inv_head in E. apply triple_inj in E as (-> & -> & ->); done.
  - unfold type_key in E. apply app_inv_head in E. rewrite !app_assoc in E. apply app_koid_inj in E as [E ->]; [|done..]. by apply snoc_inj in E as ->.
  - done.
  - done.
  - unfold schema_key in E. apply app_inv_head in E. by subst.
  - unfold txn_key in E. apply app_inv_head in E. by subst.
  - done.
  - unfold usage_row_key in E. apply app_inv_head in E. by subst.
Qed.

Lemma starts_with_app p k k' : starts_with (p ++ k) (p ++ k') = starts_with k k'.
Proof. induction p as [|x p IH]; [done|]. cbn. by rewrite bool_decide_true. Qed.
Lemma starts_with_self p k : starts_with p (p ++ k) = true.
Proof. apply starts_with_spec. eauto. Qed.
Lemma starts_with_koid a b x y : koid_ok a = true -> koid_ok b = true ->
  starts_with (koid_bytes a ++ x) (koid_bytes b ++ y) = bool_decide (b = a) && starts_with x y.
Proof.
  intros Ha Hb. case_bool_decide as E; [subst; by rewrite starts_with_app|]. cbn [andb]. apply not_true_iff_false. intros (z & Hz)%starts_with_spec.
  rewrite <-app_assoc in Hz. apply koid_app_inj in Hz as [-> _]; done.
Qed.

Lemma starts_with_koid_end a b y : koid_ok a = true -> koid_ok b = true -> starts_with (koid_bytes a) (koid_bytes b ++ y) = bool_decide (b = a).
Proof. intros Ha Hb. pose proof (starts_with_koid a b [] y Ha Hb) as E. rewrite app_nil_r, andb_true_r in E. exact E. Qed.

(* ------------------------------------------------------------------ *)
(** * Rows read back *)

Lemma kreads_head version ts st : fits_in U64 version = true -> fits_in U64 ts = true -> kreads dec_head (encode_head version ts st) (version, ts, st).
Proof. intros. unfold dec_head, encode_head. kread. Qed.
Lemma kreads_journal seq audit ts : fits_in U64 seq = true -> len_is 32 audit = true -> fits_in U64 ts = true ->
  kreads dec_journal (encode_journal seq audit ts) (seq, audit, ts).
Proof. intros. unfold dec_journal, encode_journal. kread. Qed.
Lemma kreads_tomb hash seq : len_is 32 hash = true -> fits_in U64 seq = true -> kreads dec_tomb (encode_tomb hash seq) (hash, seq).
Proof. intros. unfold dec_tomb, encode_tomb. kread. Qed.
Lemma kreads_kinds l : kreads (d_list (dec_tag EventKind.from_tag)) (e_list (fun k => e_u8 (EventKind.tag k)) l) l.
Proof. apply kreads_list, Forall_forall. intros k _. split; [apply kreads_kind|]. rewrite <-(app_nil_r (e_u8 _)). apply e_u8_ne. Qed.
Lemma kreads_filter f : opt_wf koid_ok (ef_koid f) = true -> kreads decode_filter (encode_filter f) f.
Proof.
  destruct f as [k ks]. cbn [ef_koid]. intros Hk. unfold decode_filter, encode_filter. cbn [ef_koid ef_kinds].
  eapply kreads_bind; [eapply kreads_optb; [|exact Hk]; apply kreads_koidb|].
  eapply kreads_map; [apply kreads_opt; intros a _; apply kreads_kinds | apply kreads_ret].
Qed.
#[export] Hint Resolve kreads_filter kreads_head kreads_journal kreads_tomb : codec.
Lemma kreads_sub rec : sub_wf rec = true ->
  kreads (f ← decode_filter; s ← d_u64; mret (mkSubscriptionRecord f s)) (encode_sub rec) rec.
Proof. destruct rec as [f s]. unfold sub_wf, encode_sub. cbn [sub_filter sub_last_seq]. intros [? ?]%andb_true_iff. kread. Qed.
Lemma kreads_idem k version ts kind :
  koid_ok k = true -> fits_in U64 version = true -> fits_in U64 ts = true -> fits_in 256 kind = true ->
  kreads dec_idem (encode_idem k version ts kind) (k, version, ts, Some kind).
Proof.
  intros Hk Hv Ht Hz. unfold dec_idem, encode_idem. do 3 (eapply kreads_bind; [solve [eauto with codec]|]). intros pos rest H0 Hu.
  apply fits_in_iff in Hz. pose proof (kreads_u8 kind Hz pos rest H0 Hu) as E.
  unfold mbind, KD_bind in *. cbn [d_remaining kd_rest]. rewrite (proj2 (Z.leb_le _ _)); [by rewrite E|].
  rewrite zlen_app. change (zlen (e_u8 kind)) with 1. pose proof (zlen_nonneg rest). lia.
Qed.
Lemma run_plain {A} (p : KD A) bs a : kreads p bs a -> zlen bs < USIZE -> run_kd p bs = KOk a.
Proof.
  intros Hp Hu. unfold run_kd, mbind, KResult_bind, d_new. rewrite <-(app_nil_r bs).
  assert (0 + zlen bs + zlen (@nil byte) < USIZE) as Hs by (change (zlen (@nil byte)) with 0; lia). by rewrite (Hp 0 [] ltac:(lia) Hs).
Qed.

(** The decoder of each kind on the bytes of a row of its kind. *)
Ltac row_fields H := unfold row_wf in H; cbn [row_bytes] in H; bool_to_prop; destruct_and?.
Lemma read_obj k ts ko : row_wf (IdObj k ts) (VObj ko) = true -> decode_ko_wire (encode_ko_wire ko) = KOk ko.
Proof.
  intros H. row_fields H. unfold encode_ko_wire in *. rewrite decode_wire_header. apply run_finish; [by apply kreads_ko|].
  match goal with Hz : zlen _ < USIZE |- _ => rewrite zlen_app in Hz; change (zlen WIRE_HEADER_V1) with 8 in Hz; lia end.
Qed.
Lemma read_head k version ts st : row_wf (IdHead k) (VHead (version, ts, st)) = true -> decode_head (encode_head version ts st) = KOk (version, ts, st).
Proof. intros H. row_fields H. apply run_finish; [by apply kreads_head | done]. Qed.
Lemma read_ke seq ke : row_wf (IdKe seq) (VKe ke) = true -> decode_ke (encode_ke ke) = KOk ke.
Proof. intros H. row_fields H. apply run_finish; [by apply kreads_ke | done]. Qed.
Lemma read_tomb k hash seq : row_wf (IdTomb k) (VTomb hash seq) = true -> decode_tomb (encode_tomb hash seq) = KOk (hash, seq).
Proof. intros H. row_fields H. apply run_finish; [by apply kreads_tomb | done]. Qed.
Lemma read_idem key k version ts kind : row_wf (IdIdem key) (VIdem k version ts kind) = true ->
  run_kd dec_idem (encode_idem k version ts kind) = KOk (k, version, ts, Some kind).
Proof. intros H. row_fields H. apply run_plain; [by apply kreads_idem | done]. Qed.
Lemma read_sub id rec : row_wf (IdSub id) (VSub rec) = true -> decode_sub (encode_sub rec) = KOk rec.
Proof. intros H. row_fields H. unfold decode_sub. apply run_finish; [by apply kreads_sub | done]. Qed.
Lemma read_journal seq audit ts : row_wf IdJournal (VJournal seq audit ts) = true -> decode_journal (encode_journal seq audit ts) = KOk (seq, audit, ts).
Proof. intros H. row_fields H. apply run_finish; [by apply kreads_journal | done]. Qed.
Lemma decode_rel_key_app short bad p a rt c : zlen p = 5 -> koid_ok a = true -> koid_ok c = true -> utf8_valid rt = true ->
  decode_rel_key short bad (p ++ koid_bytes a ++ [SLASH] ++ rt ++ [SLASH] ++ koid_bytes c) = KOk (a, rt, c).
Proof.
  intros Hp Ha%koid_ok_wf Hc%koid_ok_wf Hu. unfold koid_wf, KOID_LEN in *. unfold decode_rel_key, KOID_LEN.
  rewrite !zlen_app, Ha, Hc, Hp. change (zlen [SLASH]) with 1. pose proof (zlen_nonneg rt). rewrite (proj2 (Z.ltb_ge _ _)) by lia.
  unfold zslice. rewrite (zdrop_app p _ 5) by lia. rewrite (ztake_app (koid_bytes a)) by lia.
  replace (p ++ koid_bytes a ++ [SLASH] ++ rt ++ [SLASH] ++ koid_bytes c) with ((p ++ koid_bytes a ++ [SLASH]) ++ rt ++ [SLASH] ++ koid_bytes c) by (by rewrite <-!app_assoc).
  rewrite (zdrop_app (p ++ koid_bytes a ++ [SLASH])) by (rewrite !zlen_app, Ha, Hp; change (zlen [SLASH]) with 1; lia).
  rewrite !zlen_app, Hc. change (zlen [SLASH]) with 1. rewrite (ztake_app rt) by lia. rewrite Hu.
  rewrite (app_assoc rt [SLASH]), zdrop_app by (rewrite zlen_app; change (zlen [SLASH]) with 1; lia). by destruct a, c.
Qed.

(* ------------------------------------------------------------------ *)
(** * The store in key order *)

Lemma represents_lookup m s id : represents m s -> id_wf id = true -> m !! row_key id = row_bytes <$> s !! id.
Proof.
  intros [Hw Hm] Hid. apply option_eq. intros v. rewrite Hm, fmap_Some. split.
  - intros (id' & x & Hs & Ek & ->). apply Hw in Hs as Hs'. destruct Hs' as [Hid' _]. apply row_key_inj in Ek as <-; [|done..]. eauto.
  - intros (x & Hs & ->). eauto.
Qed.

(** The typed rows keyed by their bytes. *)
Definition keyed_rows (s : SpecState) : list (bytes * (RowId * RowValue)) := foldr (fun x l => btree_insert l (row_key x.1) x) [] (map_to_list s).
Lemma keyed_sorted s : keys_sorted (keyed_rows s).
Proof. unfold keyed_rows. induction (map_to_list s) as [|x l IH]; [constructor | by apply btree_insert_sorted]. Qed.
Lemma keyed_elem m s k x : represents m s -> (k, x) ∈ keyed_rows s <-> s !! x.1 = Some x.2 /\ k = row_key x.1.
Proof.
  intros [Hw _]. rewrite <-(btree_get_elem _ _ _ (keyed_sorted s)). destruct x as [id v]. cbn [fst snd]. rewrite <-elem_of_map_to_list. unfold keyed_rows.
  assert (forall x, x ∈ map_to_list s -> id_wf x.1 = true) as Hl by (intros [i w] Hx; apply elem_of_map_to_list, Hw in Hx; tauto).
  pose proof (NoDup_fst_map_to_list s) as Hd. revert Hl Hd. induction (map_to_list s) as [|[id' v'] l IH]; intros Hl Hd; [cbn; set_solver|].
  cbn [foldr fst snd]. rewrite btree_get_insert. cbn in Hd. apply NoDup_cons in Hd as [Hn Hd]. specialize (IH ltac:(set_solver) Hd). destruct (bytes_eqb k (row_key id')) eqn:E.
  - apply bytes_eqb_eq in E as ->. rewrite elem_of_cons. split; [by intros [= -> ->]; auto|]. intros [Hx Ek].
    assert (id_wf id' = true) as Hid' by (apply (Hl (id', v')); set_solver). apply row_key_inj in Ek as <-; [|done|destruct Hx as [[= -> ->]|Hx]; [done | by apply (Hl (id, v)); set_solver]].
    destruct Hx as [[= ->]|Hx]; [done|]. destruct Hn. apply list_elem_of_fmap. by exists (id', v).
  - rewrite IH, elem_of_cons. apply bytes_eqb_neq in E. split; [tauto|]. intros [[[= -> ->]|Hx] Ek]; [congruence | auto].
Qed.
Lemma sorted_rows_elem m s x : represents m s -> x ∈ sorted_rows s <-> s !! x.1 = Some x.2.
Proof.
  intros Hr. unfold sorted_rows. change (foldr _ _ _) with (keyed_rows s). rewrite list_elem_of_fmap. split.
  - intros ([k y] & -> & Hy). cbn. by apply (keyed_elem m) in Hy as [? _].
  - intros Hs. exists (row_key x.1, x). split; [done|]. by apply (keyed_elem m).
Qed.
Lemma keyed_map s : map (fun y => (y.1, row_bytes y.2.2)) (keyed_rows s) = map enc_row (sorted_rows s).
Proof.
  unfold sorted_rows, keyed_rows. rewrite map_map.
  assert (Forall (fun y => y.1 = row_key y.2.1) (keyed_rows s)) as Hf.
  { unfold keyed_rows. induction (map_to_list s) as [|x l IH]; [constructor|]. cbn. apply Forall_forall. intros y Hy. apply btree_insert_elem in Hy as [->|Hy]; [done|].
    rewrite Forall_forall in IH. by apply IH. }
  apply map_ext_in. intros y Hy. apply list_elem_of_In in Hy. eapply Forall_forall in Hf; [|exact Hy]. unfold enc_row. by rewrite Hf.
Qed.
Lemma map_sorted {V W} (f : bytes * V -> bytes * W) l : (forall x, (f x).1 = x.1) -> keys_sorted l -> keys_sorted (map f l).
Proof.
  intros Hf. unfold keys_sorted. induction 1 as [|x l Hs IH Hl]; [constructor|]. cbn. constructor; [done|]. apply Forall_fmap. eapply Forall_impl; [exact Hl|].
  intros y Hy. cbn. by rewrite !Hf.
Qed.
Lemma filter_map_comm {A B} (f : A -> B) (g : B -> bool) l : List.filter g (map f l) = map f (List.filter (fun x => g (f x)) l).
Proof. induction l as [|x l IH]; [done|]. cbn. destruct (g (f x)); cbn; by rewrite IH. Qed.
Lemma rows_image m s p start : represents m s ->
  rows m p start = map enc_row (List.filter (fun x => starts_with p (row_key x.1) && bytes_leb start (row_key x.1)) (sorted_rows s)).
Proof.
  intros Hr. symmetry. apply rows_unique.
  - rewrite <-(filter_map_comm enc_row (fun kv => starts_with p kv.1 && bytes_leb start kv.1)). rewrite <-keyed_map. apply filter_sorted. by apply map_sorted, keyed_sorted.
  - intros k v. rewrite list_elem_of_fmap. destruct Hr as [Hw Hm] eqn:Er. rewrite Hm. split.
    + intros ([id x] & [= -> ->] & [Hx Hf]%elem_of_filter_bool). apply andb_true_iff in Hf. cbn in *. apply (sorted_rows_elem m) in Hx; [|done]. cbn in Hx. naive_solver.
    + intros ((id & x & Hs & -> & ->) & Hp & Hb). exists (id, x). split; [done|]. apply elem_of_filter_bool. cbn. rewrite Hp, Hb. split; [by apply (sorted_rows_elem m) | done].
Qed.

(* ================================================================== *)
(** The reads and the batches of the repository against their contract, over any engine that
    keeps the promise of the engine trait, with and without a cache. *)

(* ------------------------------------------------------------------ *)
(** * Scans *)

Lemma k_collect_filter {A B} (f : A -> KResult B) l : k_collect f l = k_filter_map (fun x => b ← f x; KOk (Some b)) l.
Proof. induction l as [|a l IH]; [done|]. cbn. rewrite IH. by destruct (f a). Qed.
Lemma filter_map_omap {A B C} (enc : A -> C) (c : A -> bool) (f : C -> KResult (option B)) (sel : A -> option B) l :
  (forall x, x ∈ l -> if c x then f (enc x) = KOk (sel x) else sel x = None) -> k_filter_map f (map enc (List.filter c l)) = KOk (omap sel l).
Proof.
  induction l as [|x l IH]; intros Hl; [done|]. cbn [List.filter]. pose proof (Hl x ltac:(set_solver)) as Hx. specialize (IH ltac:(set_solver)).
  destruct (c x); cbn; rewrite Hx; [cbn; rewrite IH; cbn; by destruct (sel x) | done].
Qed.

Lemma omap_none {A B} (f : A -> option B) l : (forall x, x ∈ l -> f x = None) -> omap f l = [].
Proof. induction l as [|x l IH]; intros Hl; [done|]. cbn. rewrite (Hl x) by set_solver. apply IH. set_solver. Qed.
Lemma zlen_pos {A} (l : list A) : l <> [] -> 0 < zlen l.
Proof. destruct l; [done|]. intros _. rewrite zlen_cons. pose proof (zlen_nonneg l). lia. Qed.

Lemma filter_filter_and {A} (f g : A -> bool) l : List.filter f (List.filter g l) = List.filter (fun x => g x && f x) l.
Proof. induction l as [|x l IH]; [done|]. cbn. destruct (g x); cbn; [by destruct (f x); rewrite IH | done]. Qed.

Section Reads.
Context {E : Type} `{HL : EngineLaws E}.
Implicit Types (e : E) (m : gmap bytes bytes) (s : SpecState).

(** What a selector must do with each stored row. *)
Definition selects (s : SpecState) (c : RowId -> bool) {B} (f : bytes * bytes -> KResult (option B)) (sel : RowId * RowValue -> option B) : Prop :=
  forall id v, s !! id = Some v -> id_wf id = true -> row_wf id v = true ->
  if c id then f (row_key id, row_bytes v) = KOk (sel (id, v)) else sel (id, v) = None.
Lemma scan_from_select e m s p start {B} f (sel : _ -> option B) :
  holds e m -> represents m s -> scannable e p ->
  selects s (fun id => starts_with p (row_key id) && bytes_leb start (row_key id)) f sel ->
  (found ← eng_scan_from e p start; k_filter_map f found) = KOk (listed sel s).
Proof.
  intros Hh Hr Hp Hs. rewrite (law_scan_from e m) by done. cbn. rewrite (rows_image m s) by done. apply filter_map_omap. intros [id v] Hx.
  apply (sorted_rows_elem m) in Hx; [|done]. destruct (proj1 Hr _ _ Hx). by apply Hs.
Qed.
(** A scan sees the rows under its prefix alone: [mc] may differ from [m] elsewhere. *)
Lemma scan_select_under e m mc s p {B} f (sel : _ -> option B) :
  holds e m -> rows m p [] = rows mc p [] -> represents mc s -> scannable e p -> selects s (fun id => starts_with p (row_key id)) f sel ->
  (found ← eng_scan e p; k_filter_map f found) = KOk (listed sel s).
Proof.
  intros Hh Hmc Hr Hp Hs. rewrite (law_scan e m), Hmc by done. cbn. rewrite (rows_image mc s) by done. apply filter_map_omap. intros [id v] Hx.
  apply (sorted_rows_elem mc) in Hx; [|done]. destruct (proj1 Hr _ _ Hx) as [Hi Hv]. pose proof (Hs _ _ Hx Hi Hv) as E0. cbn [fst] in *.
  by replace (bytes_leb [] (row_key id)) with true by (by destruct (row_key id)); rewrite andb_true_r.
Qed.
Lemma scan_select e m s p {B} f (sel : _ -> option B) :
  holds e m -> represents m s -> scannable e p -> selects s (fun id => starts_with p (row_key id)) f sel ->
  (found ← eng_scan e p; k_filter_map f found) = KOk (listed sel s).
Proof. intros Hh Hr. by apply (scan_select_under e m m). Qed.
Lemma scan_collect e m s p {B} f (sel : _ -> option B) :
  holds e m -> represents m s -> scannable e p -> selects s (fun id => starts_with p (row_key id)) (fun x => b ← f x; KOk (Some b)) sel ->
  (found ← eng_scan e p; k_collect f found) = KOk (listed sel s).
Proof. intros Hh Hr Hp Hs. rewrite <-(scan_select e m s p _ sel Hh Hr Hp Hs). destruct (eng_scan e p); [apply k_collect_filter | done..]. Qed.

(** A row whose value is not of the kind of its name is not stored. *)
Ltac wrong_kind Hv := solve [exfalso; unfold row_wf in Hv; rewrite andb_false_r in Hv; discriminate Hv].

Lemma scan_heads_under e m mc s : holds e m -> rows m P_HEAD [] = rows mc P_HEAD [] -> represents mc s -> scannable e P_HEAD -> scan_heads e = KOk (listed sel_head s).
Proof.
  intros Hh Hmc Hr Hp. apply (scan_select_under e m mc); [done..|]. intros id v _ Hi Hv. destruct id; try (cbn; by destruct v). destruct v as [|[[ver ts] st]| | | | | |]; try wrong_kind Hv.
  cbn [row_key row_bytes id_wf] in *. unfold head_key. rewrite starts_with_self.
  pose proof (koid_length _ Hi) as El. cbn [fst snd]. rewrite zlen_app. unfold zlen at 2. rewrite El. rewrite (proj2 (Z.ltb_ge _ _)) by (unfold KOID_LEN; lia).
  rewrite (read_head k) by done. cbn [mbind KResult_bind]. unfold zslice. rewrite (zdrop_app P_HEAD) by done. unfold ztake. rewrite take_ge by (rewrite El; unfold KOID_LEN; lia). by destruct k.
Qed.
Lemma scan_heads_spec e m s : holds e m -> represents m s -> scannable e P_HEAD -> scan_heads e = KOk (listed sel_head s).
Proof. intros Hh Hr. by apply (scan_heads_under e m m). Qed.
Lemma key_ts_of k ts : fits_in U64 ts = true -> key_ts (obj_key k ts) = KOk ts.
Proof.
  rewrite fits_in_iff. intros Hts. unfold key_ts, obj_key. rewrite app_assoc. set (p := P_OBJ ++ koid_bytes k). rewrite zlen_app, zlen_be_bytes. pose proof (zlen_nonneg p).
  rewrite (proj2 (Z.ltb_ge _ _)) by lia. rewrite (zdrop_app p) by lia. by rewrite be_val_bytes by (cbn; unfold U64 in *; lia).
Qed.
Lemma obj_prefix_of k id : koid_ok k = true -> id_wf id = true ->
  starts_with (obj_prefix k) (row_key id) = match id with IdObj k' _ => bool_decide (k' = k) | _ => false end.
Proof.
  intros Hk Hi. destruct id; try (cbn; reflexivity). cbn [row_key id_wf] in *. bool_to_prop; destruct_and?. unfold obj_prefix, obj_key. rewrite starts_with_app. by rewrite starts_with_koid_end.
Qed.
Lemma scan_versions_spec e m s k : holds e m -> represents m s -> scannable e (obj_prefix k) -> koid_ok k = true ->
  scan_object_versions e k = KOk (listed (sel_version k) s).
Proof.
  intros Hh Hr Hp Hk. apply (scan_collect e m); [done..|]. intros id v _ Hi Hv. rewrite obj_prefix_of by done.
  destruct id as [k' ts'| | | | | | | | | | | | | |]; try (cbn; by destruct v). destruct v as [ko| | | | | | |]; try wrong_kind Hv.
  cbn [sel_version row_key row_bytes id_wf fst snd] in *. case_bool_decide; [|done]. bool_to_prop; destruct_and?. rewrite key_ts_of by done. cbn [mbind KResult_bind]. by rewrite (read_obj k' ts').
Qed.
Lemma ke_start from seq : fits_in U64 from = true -> fits_in U64 seq = true -> bytes_leb (ke_key from) (ke_key seq) = (from <=? seq).
Proof.
  rewrite !fits_in_iff. intros Hf Hs. unfold ke_key, bytes_leb. rewrite bytes_compare_app by done. rewrite bytes_compare_refl.
  rewrite be_bytes_compare by (cbn; unfold U64 in *; lia). done.
Qed.
Lemma scan_events_spec e m s : holds e m -> represents m s -> scannable e P_KE -> scan_events e = KOk (listed (sel_event 0) s).
Proof.
  intros Hh Hr Hp. apply (scan_collect e m); [done..|]. intros id v _ Hi Hv. destruct id; try (cbn; by destruct v). destruct v as [| |ke| | | | |]; try wrong_kind Hv.
  cbn [row_key row_bytes id_wf sel_event snd] in *. unfold ke_key. rewrite starts_with_self. rewrite (read_ke seq) by done. apply fits_in_iff in Hi. rewrite (proj2 (Z.leb_le _ _)) by lia. done.
Qed.
Lemma scan_events_after_spec e m s q : holds e m -> represents m s -> scannable e P_KE -> fits_in U64 q = true ->
  scan_events_after e q = KOk (listed (sel_event (q + 1)) s).
Proof.
  intros Hh Hr Hp Hq. pose proof (proj1 (fits_in_iff _ _) Hq). unfold scan_events_after. destruct (Z.eqb_spec q (U64 - 1)) as [->|Hn].
  - f_equal. unfold listed. symmetry. apply omap_none. intros [id v] Hx. apply (sorted_rows_elem m) in Hx; [|done]. destruct (proj1 Hr _ _ Hx) as [Hi _].
    destruct id; try done. destruct v; try done. cbn in *. apply fits_in_iff in Hi. by rewrite (proj2 (Z.leb_gt _ _)) by lia.
  - rewrite <-(scan_from_select e m s P_KE (ke_key (q + 1)) (fun x => b ← decode_ke x.2; KOk (Some b)) (sel_event (q + 1))); [|done..|].
    { destruct (eng_scan_from e P_KE _); [apply k_collect_filter | done..]. }
    intros id v _ Hi Hv. destruct id; try (cbn; by destruct v). destruct v as [| |ke| | | | |]; try wrong_kind Hv. cbn [row_key row_bytes id_wf sel_event snd] in *.
    rewrite ke_start by (done || apply fits_in_iff; lia). unfold ke_key at 1. rewrite starts_with_self. cbn [andb]. destruct (q + 1 <=? seq); [by rewrite (read_ke seq) | done].
Qed.
Lemma scan_subs_spec e m s : holds e m -> represents m s -> scannable e P_SUB -> scan_subscriptions e = KOk (listed sel_sub s).
Proof.
  intros Hh Hr Hp. apply (scan_select e m); [done..|]. intros id v _ Hi Hv. destruct id as [| | | | |i| | | | | | | | |]; try (cbn; by destruct v). destruct v as [| | | | |rec| |]; try wrong_kind Hv.
  cbn [row_key row_bytes id_wf sel_sub fst snd] in *. unfold sub_key. rewrite starts_with_self, zlen_app. case_bool_decide as Ei.
  - subst i. by rewrite (proj2 (Z.leb_le _ _)) by (change (zlen (@nil byte)) with 0; lia).
  - rewrite (proj2 (Z.leb_gt _ _)) by (pose proof (zlen_pos i Ei); lia). rewrite (zdrop_app P_SUB) by done. rewrite Hi. by rewrite (read_sub i).
Qed.
Lemma schema_rows_spec e m s : holds e m -> represents m s -> scannable e K_SCHEMA_PREFIX -> schema_rows e = KOk (listed sel_schema s).
Proof.
  intros Hh Hr Hp. apply (scan_select e m); [done..|]. intros id v _ Hi Hv. destruct id as [| | | | | | | | | | |i| | |]; try (cbn; by destruct v). destruct v; try wrong_kind Hv.
  cbn [row_key row_bytes id_wf sel_schema fst snd] in *. unfold schema_key. rewrite starts_with_self, zlen_app. case_bool_decide as Ei.
  - subst i. by rewrite (proj2 (Z.leb_le _ _)) by (change (zlen (@nil byte)) with 0; lia).
  - rewrite (proj2 (Z.leb_gt _ _)) by (pose proof (zlen_pos i Ei); lia). rewrite (zdrop_app K_SCHEMA_PREFIX) by done. by rewrite Hi.
Qed.
Lemma rel_prefix_of p (k k' : KOID) x : koid_ok k = true -> koid_ok k' = true ->
  starts_with (p ++ koid_bytes k ++ [SLASH]) (p ++ koid_bytes k' ++ [SLASH] ++ x) = bool_decide (k' = k).
Proof. intros Hk Hk'. rewrite starts_with_app, starts_with_koid by done. by rewrite starts_with_self, andb_true_r. Qed.
Lemma scan_outbound_spec e m s src : holds e m -> represents m s -> scannable e (rel_out_prefix_src src) -> koid_ok src = true ->
  scan_outbound e src None = KOk (listed (sel_out src) s).
Proof.
  intros Hh Hr Hp Hk. apply (scan_collect e m); [done..|]. intros id v _ Hi Hv. destruct id; try (cbn; by destruct v).
  cbn [row_key row_bytes id_wf sel_out fst snd] in *. bool_to_prop; destruct_and?. unfold rel_out_prefix_src, rel_out_key at 1. rewrite rel_prefix_of by done. case_bool_decide; [|done].
  unfold decode_rel_out_key, rel_out_key. by rewrite decode_rel_key_app.
Qed.
Lemma scan_inbound_spec e m s dst : holds e m -> represents m s -> scannable e (rel_in_prefix_dst dst) -> koid_ok dst = true ->
  scan_inbound e dst None = KOk (listed (sel_in dst) s).
Proof.
  intros Hh Hr Hp Hk. apply (scan_collect e m); [done..|]. intros id v _ Hi Hv. destruct id; try (cbn; by destruct v).
  cbn [row_key row_bytes id_wf sel_in fst snd] in *. bool_to_prop; destruct_and?. unfold rel_in_prefix_dst, rel_in_key at 1. rewrite rel_prefix_of by done. case_bool_decide; [|done].
  unfold decode_rel_in_key, rel_in_key. by rewrite decode_rel_key_app.
Qed.

(** A longer type name with this one as its prefix gives a longer key. *)
Lemma scan_type_spec e m s ty : holds e m -> represents m s -> scannable e (type_prefix ty) -> scan_type e ty = KOk (listed (sel_type ty) s).
Proof.
  intros Hh Hr Hp. apply (scan_select e m); [done..|]. intros id v _ Hi Hv. destruct id as [| | | | | | | |ty' k| | | | | |]; try (cbn; by destruct v).
  cbn [row_key row_bytes id_wf sel_type fst snd] in *. bool_to_prop; destruct_and?. pose proof (koid_length k ltac:(done)) as El. unfold type_prefix, type_key. rewrite starts_with_app.
  case_bool_decide as Et.
  - subst ty'. rewrite (app_assoc ty), starts_with_self. rewrite !zlen_app. unfold zlen at 4. rewrite El. rewrite (proj2 (Z.eqb_eq _ _)) by (unfold KOID_LEN; lia).
    rewrite (app_assoc P_TYPE), (zdrop_app (P_TYPE ++ ty ++ [SLASH])) by (rewrite !zlen_app; lia). by destruct k.
  - destruct (starts_with _ _) eqn:Es; [|done]. f_equal. rewrite (proj2 (Z.eqb_neq _ _)); [done|]. rewrite !zlen_app. unfold zlen at 4. rewrite El. intros Ez.
    apply starts_with_spec in Es as (z & Ez'). apply Et. rewrite <-!app_assoc in Ez'. apply app_inj_1 in Ez' as [Ez' _]; [done|]. unfold zlen, KOID_LEN in Ez. lia.
Qed.


(** ** The version at a snapshot *)
Lemma last_select {A B C} (enc : A -> C) (c : A -> bool) (f : C -> KResult B) (sel : A -> option B) l :
  (forall x, x ∈ l -> if c x then exists b, sel x = Some b /\ f (enc x) = KOk b else sel x = None) ->
  match last (map enc (List.filter c l)) with Some y => b ← f y; KOk (Some b) | None => KOk None end = KOk (last (omap sel l)).
Proof.
  induction l as [|x l IH] using rev_ind; intros Hl; [done|]. rewrite List.filter_app, map_app, omap_app. pose proof (Hl x ltac:(set_solver)) as Hx. cbn.
  destruct (c x); [destruct Hx as (b & -> & Hf) | rewrite Hx]; cbn.
  - rewrite !last_snoc. by rewrite Hf.
  - rewrite !app_nil_r. apply IH. set_solver.
Qed.
Lemma filter_omap {A B} (f : B -> bool) (sel : A -> option B) l :
  List.filter f (omap sel l) = omap (fun x => b ← sel x; if f b then Some b else None) l.
Proof. induction l as [|x l IH]; [done|]. cbn. destruct (sel x) as [b|]; cbn; [|done]. destruct (f b); by rewrite IH. Qed.
Lemma obj_key_le k ts snap : koid_ok k = true -> fits_in U64 ts = true -> fits_in U64 snap = true -> bytes_leb (obj_key k ts) (obj_key k snap) = (ts <=? snap).
Proof.
  rewrite !fits_in_iff. intros _ Ht Hs. unfold obj_key, bytes_leb. rewrite !app_assoc, bytes_compare_app by done. rewrite bytes_compare_refl.
  rewrite be_bytes_compare by (cbn; unfold U64 in *; lia). done.
Qed.
Lemma version_at_spec e m s k snap : holds e m -> represents m s -> scannable e (obj_prefix k) -> koid_ok k = true -> fits_in U64 snap = true ->
  get_version_at e k snap = KOk (spec_version_at s k snap).
Proof.
  intros Hh Hr Hp Hk Hs. unfold get_version_at. rewrite (law_predecessor e m) by (done || (unfold obj_key; rewrite app_assoc; apply starts_with_self)).
  cbn [mbind KResult_bind]. rewrite (rows_image m s), filter_map_comm by done. unfold spec_version_at, listed. rewrite filter_omap.
  rewrite <-(last_select enc_row (fun x => (starts_with (obj_prefix k) (row_key x.1) && bytes_leb [] (row_key x.1)) && bytes_leb (row_key x.1) (obj_key k snap))
    (fun kv => ts ← key_ts kv.1; ko ← decode_ko_wire kv.2; KOk (ts, ko))).
  - rewrite filter_filter_and. destruct (last _) as [[key v]|]; [|done]. cbn. destruct (key_ts key); [|done..]. cbn. by destruct (decode_ko_wire v).
  - intros [id v] Hx. apply (sorted_rows_elem m) in Hx; [|done]. destruct (proj1 Hr _ _ Hx) as [Hi Hv]. cbn [fst snd] in *. rewrite obj_prefix_of by done.
    destruct id as [k' ts| | | | | | | | | | | | | |]; try (cbn; by destruct v). destruct v as [ko| | | | | | |]; try wrong_kind Hv.
    cbn [sel_version row_key row_bytes id_wf enc_row fst snd] in *. apply andb_true_iff in Hi as [Hk' Hts]. case_bool_decide as Ek; [subst k'|done]. rewrite obj_key_le by done.
    cbn [andb mbind option_bind fst]. replace (bytes_leb [] (obj_key k ts)) with true by done. cbn [andb]. destruct (ts <=? snap); [|done]. exists (ts, ko). split; [done|].
    rewrite key_ts_of by done. cbn [mbind KResult_bind]. by rewrite (read_obj k ts).
Qed.

(** ** Point reads *)
Lemma get_row e m s id {A} (dec : bytes -> KResult A) (as_ : RowValue -> option A) :
  holds e m -> represents m s -> id_wf id = true ->
  (forall v, row_wf id v = true -> exists a, dec (row_bytes v) = KOk a /\ as_ v = Some a) ->
  (o ← eng_get e (row_key id); k_opt dec o) = KOk (s !! id ≫= as_).
Proof.
  intros Hh Hr Hi Hd. rewrite (law_get e m) by done. rewrite (represents_lookup m s) by done. cbn. destruct (s !! id) as [v|] eqn:Es; [|done].
  destruct (proj1 Hr _ _ Es) as [_ Hv]. destruct (Hd v Hv) as (a & Ed & Ea). cbn. rewrite Ed, Ea. done.
Qed.
Lemma read_head_row k v : row_wf (IdHead k) v = true -> exists h, decode_head (row_bytes v) = KOk h /\ as_head v = Some h.
Proof. intros Hv. destruct v as [|[[ver ts] st]| | | | | |]; try wrong_kind Hv. exists (ver, ts, st). by rewrite <-(read_head k). Qed.
Lemma read_obj_row k ts v : row_wf (IdObj k ts) v = true -> exists ko, decode_ko_wire (row_bytes v) = KOk ko /\ as_obj v = Some ko.
Proof. intros Hv. destruct v as [ko| | | | | | |]; try wrong_kind Hv. exists ko. by rewrite <-(read_obj k ts). Qed.
Lemma read_journal_row v : row_wf IdJournal v = true -> exists j, decode_journal (row_bytes v) = KOk j /\ as_journal v = Some j.
Proof. intros Hv. destruct v as [| | | | | |q a t|]; try wrong_kind Hv. exists (q, a, t). by rewrite <-(read_journal q a t). Qed.
Lemma get_event_spec e m s q : holds e m -> represents m s -> fits_in U64 q = true -> get_event e q = KOk (s !! IdKe q ≫= as_ke).
Proof.
  intros Hh Hr Hq. apply (get_row e m s (IdKe q)); [done..|]. intros v Hv. destruct v as [| |ke| | | | |]; try wrong_kind Hv. exists ke. by rewrite <-(read_ke q).
Qed.
Lemma get_tombstone_spec e m s k : holds e m -> represents m s -> koid_ok k = true -> get_tombstone e k = KOk (s !! IdTomb k ≫= as_tomb).
Proof.
  intros Hh Hr Hq. apply (get_row e m s (IdTomb k)); [done..|]. intros v Hv. destruct v as [| | |hash q| | | |]; try wrong_kind Hv. exists (hash, q). by rewrite <-(read_tomb k hash q).
Qed.
Lemma get_idem_spec e m s key : holds e m -> represents m s -> utf8_valid key = true -> get_idem_tagged e key = KOk (s !! IdIdem key ≫= as_idem).
Proof.
  intros Hh Hr Hq. apply (get_row e m s (IdIdem key)); [done..|]. intros v Hv. destruct v as [| | | |k ver ts kind| | |]; try wrong_kind Hv. exists (k, ver, ts, Some kind).
  by rewrite <-(read_idem key k ver ts kind).
Qed.
Lemma journal_head_spec e m s : holds e m -> represents m s -> journal_head e = KOk (s !! IdJournal ≫= as_journal).
Proof. intros Hh Hr. apply (get_row e m s IdJournal); [done..|]. apply read_journal_row. Qed.
Lemma current_seq_spec e m s : holds e m -> represents m s ->
  current_seq e = KOk (match s !! IdJournal ≫= as_journal with Some (q, _, _) => q | None => 0 end).
Proof.
  intros Hh Hr. pose proof (journal_head_spec e m s Hh Hr) as E0. unfold current_seq, journal_head in *. destruct (eng_get e K_JOURNAL) as [[v|]|?|]; try done; cbn in *.
  - destruct (decode_journal v) as [[[q a] t]|?|]; [|done..]. cbn in *. injection E0 as <-. done.
  - injection E0 as <-. done.
Qed.
Lemma txn_record_spec e m s i : holds e m -> represents m s -> utf8_valid i = true -> txn_record e i = KOk (s !! IdTxn i ≫= as_raw).
Proof.
  intros Hh Hr Hi. unfold txn_record. rewrite (law_get e m) by done. pose proof (represents_lookup m s (IdTxn i) Hr Hi) as El. cbn [row_key] in El. rewrite El.
  destruct (s !! IdTxn i) as [v|] eqn:Es; [|done]. destruct (proj1 Hr _ _ Es) as [_ Hv]. destruct v; try wrong_kind Hv. done.
Qed.
Lemma type_index_marker_spec e m s : holds e m -> represents m s -> type_index_marker e = KOk (bool_decide (is_Some (s !! IdTypeIndex))).
Proof.
  intros Hh Hr. unfold type_index_marker. rewrite (law_get e m) by done. cbn. f_equal. apply bool_decide_ext. pose proof (represents_lookup m s IdTypeIndex Hr eq_refl) as El. cbn in El.
  rewrite El. by rewrite fmap_is_Some.
Qed.

(** ** The cache keeps what is stored *)
Lemma lru_lookup_map {K V} `{Countable K} (c : Lru K V) k : lru_map (lru_lookup c k).1 = lru_map c /\ (lru_lookup c k).2 = lru_map c !! k.
Proof. unfold lru_lookup. by destruct (lru_map c !! k) eqn:Ek. Qed.
Lemma lru_put_map {K V} `{Countable K} (c : Lru K V) k v k' w :
  lru_map (lru_put c k v) !! k' = Some w -> k' = k /\ w = v \/ lru_map c !! k' = Some w.
Proof.
  unfold lru_put. cbn [lru_map]. intros [[-> ->]|[Hne Hl]]%lookup_insert_Some; [auto|]. right. destruct (lru_map c !! k); [done|].
  destruct (_ && _); [|done]. destruct (lru_order c); [done|]. cbn in Hl. by apply lookup_delete_Some in Hl as [_ ?].
Qed.
Lemma lru_remove_map {K V} `{Countable K} (c : Lru K V) k k' w : lru_map (lru_remove c k) !! k' = Some w <-> k <> k' /\ lru_map c !! k' = Some w.
Proof. cbn. apply lookup_delete_Some. Qed.
Definition cached (s : SpecState) (r : Repo E) : Prop := forall c, rp_cache r = Some c -> cache_agrees c s.
Lemma cached_fill_head s r k h : cached s r -> s !! IdHead k = Some (VHead h) -> cached s (upd_cache (fun c => kc_put_head c k h) r).
Proof.
  intros Hc Hs c' Ec. cbn in Ec. apply fmap_Some in Ec as (c & Ec & ->). destruct (Hc c Ec) as [Hh Ho]. split; [|done].
  intros k' h' Hl. cbn in Hl. apply lru_put_map in Hl as [[-> ->]|Hl]; [done | auto].
Qed.
Lemma cached_fill_obj s r k ts ko : cached s r -> s !! IdObj k ts = Some (VObj ko) -> cached s (upd_cache (fun c => kc_put_object c k ts ko) r).
Proof.
  intros Hc Hs c' Ec. cbn in Ec. apply fmap_Some in Ec as (c & Ec & ->). destruct (Hc c Ec) as [Hh Ho]. split; [done|].
  intros k' ts' ko' Hl. cbn in Hl. apply lru_put_map in Hl as [[[= -> ->] ->]|Hl]; [done | auto].
Qed.

(** A hit is the stored row, and the cache still agrees. *)
Definition hits {A} (s : SpecState) (hit : RM E (option A)) (want : option A) : Prop :=
  forall r, cached s r -> exists r' o, hit r = (r', KOk o) /\ rp_engine r' = rp_engine r /\ cached s r' /\ (o = None \/ o = want).
Lemma hits_head s k : hits s (on_cache (fun c => kc_get_head c k)) (spec_head s k).
Proof.
  intros r Hc. unfold on_cache. destruct (rp_cache r) as [c|] eqn:Ec; [|exists r, None; auto]. destruct (Hc c Ec) as [Hh Ho].
  unfold kc_get_head. pose proof (lru_lookup_map (kc_heads c) k) as [Em El]. destruct (lru_lookup (kc_heads c) k) as [l o]. cbn in Em, El.
  eexists _, o. split; [reflexivity|]. split; [done|]. split.
  - intros c' [= <-]. split; [cbn; by rewrite Em | done].
  - destruct o as [h|]; [right|by left]. symmetry in El. unfold spec_head. by rewrite (Hh _ _ El).
Qed.
Lemma hits_obj s k ts : hits s (on_cache (fun c => kc_get_object c k ts)) (spec_object s k ts).
Proof.
  intros r Hc. unfold on_cache. destruct (rp_cache r) as [c|] eqn:Ec; [|exists r, None; auto]. destruct (Hc c Ec) as [Hh Ho].
  unfold kc_get_object. pose proof (lru_lookup_map (kc_objects c) (k, ts)) as [Em El]. destruct (lru_lookup (kc_objects c) (k, ts)) as [l o]. cbn in Em, El.
  eexists _, o. split; [reflexivity|]. split; [done|]. split.
  - intros c' [= <-]. split; [done | cbn; by rewrite Em].
  - destruct o as [ko|]; [right|by left]. symmetry in El. unfold spec_object. by rewrite (Ho _ _ _ El).
Qed.

(** A read leaves the engine alone and the cache in agreement. *)
Definition reads {A} (s : SpecState) (rd : RM E A) (r : Repo E) (a : A) : Prop :=
  exists r', rd r = (r', KOk a) /\ rp_engine r' = rp_engine r /\ cached s r'.
Lemma reads_cached {A} s m (hit : RM E (option A)) key dec fill want r :
  hits s hit want -> cached s r -> holds (rp_engine r) m ->
  (m !! key = None /\ want = None \/ exists v a, m !! key = Some v /\ dec v = KOk a /\ want = Some a) ->
  (forall r a, cached s r -> want = Some a -> cached s (upd_cache (fill a) r)) ->
  reads s (h ← hit;
    match h with
    | Some a => mret (Some a)
    | None => v ← on_engine (fun e => eng_get e key); res ← lift (k_opt dec v);
              match res with Some a => _ ← fill_cache (fill a); mret (Some a) | None => mret None end
    end) r want.
Proof.
  intros Hhit Hc Hh Hm Hf. destruct (Hhit r Hc) as (r' & o & Eo & Ee & Hc' & Ho). unfold reads, mbind, RM_bind. rewrite Eo. destruct o as [a|].
  { destruct Ho as [Ho| <-]; [done|]. by exists r'. }
  unfold on_engine. rewrite Ee. rewrite (law_get _ m) by done. destruct Hm as [[-> ->]|(v & a & -> & Ed & ->)]; [by exists r'|]. cbn. rewrite Ed. cbn.
  eexists. split; [reflexivity|]. split; [done | by apply Hf].
Qed.
Lemma head_row s m k : represents m s -> koid_ok k = true ->
  m !! head_key k = None /\ spec_head s k = None \/ exists v h, m !! head_key k = Some v /\ decode_head v = KOk h /\ spec_head s k = Some h.
Proof.
  intros Hr Hk. pose proof (represents_lookup m s (IdHead k) Hr Hk) as El. cbn [row_key] in El. rewrite El. unfold spec_head. destruct (s !! IdHead k) as [v|] eqn:Es; [right|by left].
  destruct (proj1 Hr _ _ Es) as [_ Hv]. destruct (read_head_row k v Hv) as (h & ? & ?). exists (row_bytes v), h. done.
Qed.
Lemma obj_row s m k ts : represents m s -> koid_ok k = true -> fits_in U64 ts = true ->
  m !! obj_key k ts = None /\ spec_object s k ts = None \/
  exists v ko, m !! obj_key k ts = Some v /\ decode_ko_wire v = KOk ko /\ spec_object s k ts = Some ko.
Proof.
  intros Hr Hk Ht. assert (id_wf (IdObj k ts) = true) as Hi by (cbn; by rewrite Hk, Ht). pose proof (represents_lookup m s (IdObj k ts) Hr Hi) as El. cbn [row_key] in El. rewrite El.
  unfold spec_object. destruct (s !! IdObj k ts) as [v|] eqn:Es; [right|by left].
  destruct (proj1 Hr _ _ Es) as [_ Hv]. destruct (read_obj_row k ts v Hv) as (ko & ? & ?). exists (row_bytes v), ko. done.
Qed.
Lemma spec_head_row s k h : spec_head s k = Some h -> s !! IdHead k = Some (VHead h).
Proof. unfold spec_head. destruct (s !! IdHead k) as [[]|]; try done. by intros [= ->]. Qed.
Lemma spec_object_row s k ts ko : spec_object s k ts = Some ko -> s !! IdObj k ts = Some (VObj ko).
Proof. unfold spec_object. destruct (s !! IdObj k ts) as [[]|]; try done. by intros [= ->]. Qed.
Lemma get_head_spec s m r k : holds (rp_engine r) m -> represents m s -> cached s r -> koid_ok k = true -> reads s (get_head k) r (spec_head s k).
Proof.
  intros Hh Hr Hc Hk. apply (reads_cached s m _ (head_key k) decode_head (fun h c => kc_put_head c k h)); [apply hits_head | done | done | by apply head_row|].
  intros r' h Hc' Hs. by apply cached_fill_head; [|apply spec_head_row].
Qed.
Lemma get_object_version_under s m mc r k ts : holds (rp_engine r) m -> m !! obj_key k ts = mc !! obj_key k ts -> represents mc s -> cached s r ->
  koid_ok k = true -> fits_in U64 ts = true -> reads s (get_object_version k ts) r (spec_object s k ts).
Proof.
  intros Hh Hmc Hr Hc Hk Ht. apply (reads_cached s m _ (obj_key k ts) decode_ko_wire (fun ko c => kc_put_object c k ts ko)); [apply hits_obj | done | done | rewrite Hmc; by apply obj_row|].
  intros r' ko Hc' Hs. by apply cached_fill_obj; [|apply spec_object_row].
Qed.
Lemma get_object_version_spec s m r k ts : holds (rp_engine r) m -> represents m s -> cached s r -> koid_ok k = true -> fits_in U64 ts = true ->
  reads s (get_object_version k ts) r (spec_object s k ts).
Proof. intros Hh Hr. by apply (get_object_version_under s m m). Qed.

(** ** Batched reads *)
Section Many.
Context {K A : Type} (s : SpecState) (m : gmap bytes bytes) (hit : K -> RM E (option A)) (key : K -> bytes) (dec : bytes -> KResult A).
Context (fill : K -> A -> KnowledgeCache -> KnowledgeCache) (want : K -> option A) (ok : K -> bool).
Hypothesis Hhit : forall k, hits s (hit k) (want k).
Hypothesis Hrow : forall k, ok k = true -> m !! key k = None /\ want k = None \/ exists v a, m !! key k = Some v /\ dec v = KOk a /\ want k = Some a.
Hypothesis Hfill : forall k a r, cached s r -> want k = Some a -> cached s (upd_cache (fill k a) r).

Fixpoint miss_of (i : nat) (ks : list K) (hs : list (option A)) : list (nat * bytes) :=
  match ks, hs with
  | k :: ks, h :: hs => match h with Some _ => miss_of (S i) ks hs | None => (i, key k) :: miss_of (S i) ks hs end
  | _, _ => []
  end.
Lemma many_pass_spec ks : forall i r, cached s r ->
  exists r' hs, many_pass hit key i ks r = (r', KOk (hs, miss_of i ks hs)) /\ rp_engine r' = rp_engine r /\ cached s r' /\
    Forall2 (fun k h => h = None \/ h = want k) ks hs.
Proof.
  induction ks as [|k ks IH]; intros i r Hc; [by exists r, []|].
  destruct (Hhit k r Hc) as (r1 & h & E1 & Ee1 & Hc1 & Ho). destruct (IH (S i) r1 Hc1) as (r2 & hs & E2 & Ee2 & Hc2 & Hf). exists r2, (h :: hs).
  cbn [many_pass]. unfold mbind, RM_bind. rewrite E1, E2. split; [by destruct h|]. split; [congruence|]. split; [done|]. by constructor.
Qed.
Lemma many_fill_spec ks2 : forall ks1 hs2 r, cached s r -> forallb ok ks2 = true -> Forall2 (fun k h => h = None \/ h = want k) ks2 hs2 ->
  let misses := miss_of (length ks1) ks2 hs2 in
  reads s (many_fill dec fill (ks1 ++ ks2) (zip misses (map (fun x => m !! x.2) misses)) (map want ks1 ++ hs2)) r (map want (ks1 ++ ks2)).
Proof.
  induction ks2 as [|k ks2 IH]; intros ks1 hs2 r Hc Hk Hf; inversion Hf as [|? h ? hs Hh Hf']; subst; cbn.
  { rewrite !app_nil_r. by exists r. }
  cbn in Hk. apply andb_true_iff in Hk as [Hk Hks]. specialize (IH (ks1 ++ [k]) hs). rewrite length_app, Nat.add_1_r, map_app, <-!app_assoc in IH. cbn in IH.
  destruct h as [a|].
  { destruct Hh as [Hh| ->]; [done|]. apply IH; done. }
  cbn [map zip zip_with]. destruct (Hrow k Hk) as [[Em Ew]|(v & a & Em & Ed & Ew)]; cbn [snd]; rewrite Em.
  - rewrite Ew in IH. by apply IH.
  - cbn [many_fill]. unfold mbind, RM_bind, lift. rewrite Ed. rewrite list_lookup_middle by done. rewrite (list_lookup_middle (map want ks1)) by (by rewrite length_map).
    assert (<[length ks1 := Some a]> (map want ks1 ++ None :: hs) = map want ks1 ++ Some a :: hs) as ->.
    { rewrite insert_app_r_alt by (by rewrite length_map). by rewrite length_map, Nat.sub_diag. }
    rewrite Ew in IH. destruct (IH (upd_cache (fill k a) r)) as (r' & E' & Ee & Hc'); [by apply Hfill | done | done|]. exists r'. split; [exact E' | done].
Qed.
Lemma get_many_cached_spec ks r : cached s r -> holds (rp_engine r) m -> forallb ok ks = true ->
  reads s (get_many_cached hit key dec fill ks) r (map want ks).
Proof.
  intros Hc Hh Hk. unfold get_many_cached. destruct (many_pass_spec ks 0 r Hc) as (r1 & hs & E1 & Ee1 & Hc1 & Hf). unfold reads, mbind, RM_bind. rewrite E1.
  pose proof (many_fill_spec ks [] hs r1 Hc1 Hk Hf) as Hl. cbn [app length map] in Hl. destruct (miss_of 0 ks hs) as [|x misses] eqn:Em.
  - destruct Hl as (r' & [= <- <-] & He & ?). by exists r1.
  - unfold on_engine. rewrite Ee1, (law_get_many _ m) by done. rewrite map_map. destruct Hl as (r' & El & He & ?). exists r'. split; [exact El|]. split; [congruence | done].
Qed.
End Many.
Lemma get_heads_many_spec s m r ks : holds (rp_engine r) m -> represents m s -> cached s r -> forallb koid_ok ks = true ->
  reads s (get_heads_many ks) r (map (spec_head s) ks).
Proof.
  intros Hh Hr Hc Hk. apply (get_many_cached_spec s m _ _ _ _ _ koid_ok); [intros; apply hits_head | intros; by apply head_row | | done..].
  intros k h r' Hc' Hs. by apply cached_fill_head; [|apply spec_head_row].
Qed.
Lemma get_object_versions_many_spec s m r ks : holds (rp_engine r) m -> represents m s -> cached s r ->
  forallb (fun k => koid_ok k.1 && fits_in U64 k.2) ks = true -> reads s (get_object_versions_many ks) r (map (fun k => spec_object s k.1 k.2) ks).
Proof.
  intros Hh Hr Hc Hk. apply (get_many_cached_spec s m _ _ _ _ _ (fun k => koid_ok k.1 && fits_in U64 k.2)); [intros; apply hits_obj | | | done..].
  - intros k [? ?]%andb_true_iff. by apply obj_row.
  - intros k h r' Hc' Hs. by apply cached_fill_obj; [|apply spec_object_row].
Qed.

(** ** Every query *)
Definition query_prefix (q : Query) : option bytes :=
  match q with
  | QVersionAt k _ | QScanVersions k => Some (obj_prefix k)
  | QScanHeads => Some P_HEAD
  | QEvents | QEventsAfter _ => Some P_KE
  | QSubs => Some P_SUB
  | QOutbound src => Some (rel_out_prefix_src src)
  | QInbound dst => Some (rel_in_prefix_dst dst)
  | QType ty => Some (type_prefix ty)
  | QSchemas => Some K_SCHEMA_PREFIX
  | _ => None
  end.
Definition query_fits (e : E) (q : Query) : Prop := query_wf q = true /\ forall p, query_prefix q = Some p -> scannable e p.
Lemma reads_reply {A} s (f : A -> Reply) rd r a : reads s rd r a -> reads s (with_reply f rd) r (f a).
Proof. intros (r' & Er & ?). exists r'. split; [|done]. unfold with_reply, mbind, RM_bind. by rewrite Er. Qed.
Lemma reads_engine {A} s (r : Repo E) (g : E -> KResult A) a :
  g (rp_engine r) = KOk a -> cached s r -> reads s (on_engine g) r a.
Proof. intros Hg Hc. exists r. unfold on_engine. by rewrite Hg. Qed.
Lemma run_query_spec s m r q : holds (rp_engine r) m -> represents m s -> cached s r -> query_fits (rp_engine r) q -> reads s (run_query q) r (spec_query s q).
Proof.
  intros Hh Hr Hc [Hw Hp]. destruct q; cbn [run_query spec_query query_wf query_prefix] in *; bool_to_prop; destruct_and?; apply reads_reply.
  - by apply (get_head_spec s m).
  - by apply (get_object_version_spec s m).
  - by apply (get_heads_many_spec s m).
  - by apply (get_object_versions_many_spec s m).
  - apply reads_engine; [|done]. by apply (version_at_spec _ m); [| |apply Hp|..].
  - apply reads_engine; [|done]. by apply (scan_heads_spec _ m); [| |apply Hp].
  - apply reads_engine; [|done]. by apply (scan_versions_spec _ m); [| |apply Hp|..].
  - apply reads_engine; [|done]. by apply (get_event_spec _ m).
  - apply reads_engine; [|done]. by apply (scan_events_spec _ m); [| |apply Hp].
  - apply reads_engine; [|done]. by apply (scan_events_after_spec _ m); [| |apply Hp|].
  - apply reads_engine; [|done]. by apply (get_idem_spec _ m).
  - apply reads_engine; [|done]. by apply (get_tombstone_spec _ m).
  - apply reads_engine; [|done]. by apply (scan_subs_spec _ m); [| |apply Hp].
  - apply reads_engine; [|done]. by apply (scan_outbound_spec _ m); [| |apply Hp|].
  - apply reads_engine; [|done]. by apply (scan_inbound_spec _ m); [| |apply Hp|].
  - apply reads_engine; [|done]. by apply (scan_type_spec _ m); [| |apply Hp].
  - apply reads_engine; [|done]. by apply (type_index_marker_spec _ m).
  - apply reads_engine; [|done]. by apply (schema_rows_spec _ m); [| |apply Hp].
  - apply reads_engine; [|done]. by apply (txn_record_spec _ m).
  - apply reads_engine; [|done]. by apply (current_seq_spec _ m).
  - apply reads_engine; [|done]. by apply (journal_head_spec _ m).
Qed.

(* ------------------------------------------------------------------ *)
(** * Batches *)

Lemma represents_put m s id v : represents m s -> id_wf id = true -> row_wf id v = true -> represents (<[row_key id := row_bytes v]> m) (<[id := v]> s).
Proof.
  intros [Hw Hm] Hi Hv. split.
  - intros id' v' [[<- <-]|[_ Hs]]%lookup_insert_Some; auto.
  - intros k w. rewrite lookup_insert_Some, Hm. split.
    + intros [[<- <-]|[Hk (id' & x & Hs & -> & ->)]]; [exists id, v; by rewrite lookup_insert_eq|]. exists id', x. rewrite lookup_insert_ne by congruence. done.
    + intros (id' & x & [[<- <-]|[Hne Hs]]%lookup_insert_Some & -> & ->); [by left|]. right. split; [|by exists id', x]. intros Ek. apply Hne. apply row_key_inj; [done| |done]. by apply Hw in Hs as [? _].
Qed.
Lemma represents_del m s id : represents m s -> id_wf id = true -> represents (base.delete (row_key id) m) (base.delete id s).
Proof.
  intros [Hw Hm] Hi. split.
  - intros id' v' [_ Hs]%lookup_delete_Some. auto.
  - intros k w. rewrite lookup_delete_Some, Hm. split.
    + intros [Hk (id' & x & Hs & -> & ->)]. exists id', x. rewrite lookup_delete_ne by congruence. done.
    + intros (id' & x & [Hne Hs]%lookup_delete_Some & -> & ->). split; [|by exists id', x]. intros Ek. apply Hne. apply row_key_inj; [done| |done]. by apply Hw in Hs as [? _].
Qed.
Lemma represents_puts ps : forall m s, represents m s -> forallb (fun x => id_wf x.1 && row_wf x.1 x.2) ps = true ->
  represents (fold_left (fun m kv => <[kv.1 := kv.2]> m) (map enc_row ps) m) (spec_puts s ps).
Proof. induction ps as [|[id v] ps IH]; intros m s Hr Hp; [done|]. cbn in *. bool_to_prop; destruct_and?. apply IH; [by apply represents_put | done]. Qed.
Lemma represents_dels ds : forall m s, represents m s -> forallb id_wf ds = true ->
  represents (fold_left (fun m k => base.delete k m) (map row_key ds) m) (spec_dels s ds).
Proof. induction ds as [|id ds IH]; intros m s Hr Hp; [done|]. cbn in *. bool_to_prop; destruct_and?. apply IH; [by apply represents_del | done]. Qed.

(** The batch holds the typed edits' bytes; the cache has forgotten the rows it touches. *)
Definition edit_touches (ed : Edit) : list RowId := map fst (edit_puts ed) ++ edit_dels ed.
Definition forgets (ts : list RowId) (r : Repo E) : Prop := forall c, rp_cache r = Some c ->
  (forall k h, lru_map (kc_heads c) !! k = Some h -> IdHead k ∉ ts) /\ (forall k t ko, lru_map (kc_objects c) !! (k, t) = Some ko -> IdObj k t ∉ ts).
Lemma forget_head s ts k r : cached s r -> forgets ts r ->
  cached s (upd_cache (fun c => kc_delete_head c k) r) /\ forgets (ts ++ [IdHead k]) (upd_cache (fun c => kc_delete_head c k) r).
Proof.
  intros Hc Hf. split; intros c' Ec; cbn in Ec; apply fmap_Some in Ec as (c & Ec & ->); destruct (Hc c Ec) as [Hh Ho], (Hf c Ec) as [Fh Fo]; (split; [|try done]).
  - intros k' h [_ Hl]%lru_remove_map. by apply Hh.
  - intros k' h [Hne Hl]%lru_remove_map. rewrite not_elem_of_app. split; [by eapply Fh | set_solver].
  - intros k' t ko Hl. rewrite not_elem_of_app. split; [by eapply Fo | set_solver].
Qed.
Lemma forget_obj s ts k t r : cached s r -> forgets ts r ->
  cached s (upd_cache (fun c => kc_delete_object c k t) r) /\ forgets (ts ++ [IdObj k t]) (upd_cache (fun c => kc_delete_object c k t) r).
Proof.
  intros Hc Hf. split; intros c' Ec; cbn in Ec; apply fmap_Some in Ec as (c & Ec & ->); destruct (Hc c Ec) as [Hh Ho], (Hf c Ec) as [Fh Fo]; (split; [try done|]).
  - intros k' t' ko [_ Hl]%lru_remove_map. by apply Ho.
  - intros k' h Hl. rewrite not_elem_of_app. split; [by eapply Fh | set_solver].
  - intros k' t' ko [Hne Hl]%lru_remove_map. rewrite not_elem_of_app. split; [by eapply Fo | set_solver].
Qed.
Lemma forget_other s ts new r : cached s r -> forgets ts r -> (forall k, IdHead k ∉ new) -> (forall k t, IdObj k t ∉ new) -> cached s r /\ forgets (ts ++ new) r.
Proof. intros Hc Hf H1 H2. split; [done|]. intros c Ec. destruct (Hf c Ec) as [Fh Fo]. split; intros; rewrite not_elem_of_app; eauto. Qed.
Lemma edit_step_spec s ts r b ed : cached s r -> forgets ts r ->
  exists r' b', edit_step (r, b) ed = (r', b') /\ rp_engine r' = rp_engine r /\ (cached s r' /\ forgets (ts ++ edit_touches ed) r') /\
    wb_puts b' = wb_puts b ++ map enc_row (edit_puts ed) /\ wb_dels b' = wb_dels b ++ map row_key (edit_dels ed).
Proof.
  intros Hc Hf. destruct ed; cbn [edit_step]; eexists _, _; (split; [reflexivity|]); (split; [reflexivity|]); cbn [edit_touches edit_puts edit_dels map fst app];
    try (destruct (is_catalog_type ty) eqn:Ety; unfold write_type_index; rewrite ?Ety);
    rewrite ?app_nil_r; (split; [|split; cbn; rewrite ?app_nil_r, <-?app_assoc; reflexivity]);
    first [apply forget_obj; done | apply forget_head; done | done | apply forget_other; [done | done | set_solver..]].
Qed.
Lemma build_batch_spec s eds : forall ts r b, cached s r -> forgets ts r ->
  exists r' b', fold_left edit_step eds (r, b) = (r', b') /\ rp_engine r' = rp_engine r /\ (cached s r' /\ forgets (ts ++ flat_map edit_touches eds) r') /\
    wb_puts b' = wb_puts b ++ map enc_row (flat_map edit_puts eds) /\ wb_dels b' = wb_dels b ++ map row_key (flat_map edit_dels eds).
Proof.
  induction eds as [|ed eds IH]; intros ts r b Hc Hf.
  { exists r, b. cbn. by rewrite !app_nil_r. }
  destruct (edit_step_spec s ts r b ed Hc Hf) as (r1 & b1 & E1 & Ee1 & [Hc1 Hf1] & Ep1 & Ed1).
  destruct (IH (ts ++ edit_touches ed) r1 b1 Hc1 Hf1) as (r2 & b2 & E2 & Ee2 & [Hc2 Hf2] & Ep2 & Ed2). exists r2, b2. cbn [fold_left flat_map]. rewrite E1.
  rewrite !map_app, !app_assoc, <-Ep1, <-Ed1. split_and!; [done | congruence | done | by rewrite <-!app_assoc in * | done | done].
Qed.
Lemma spec_puts_other ps : forall s id, id ∉ map fst ps -> spec_puts s ps !! id = s !! id.
Proof. induction ps as [|[i v] ps IH]; intros s id Hn; [done|]. change (spec_puts (<[i := v]> s) ps !! id = s !! id). cbn in Hn. rewrite IH by set_solver. by rewrite lookup_insert_ne by set_solver. Qed.
Lemma spec_dels_other ds : forall s id, id ∉ ds -> spec_dels s ds !! id = s !! id.
Proof. induction ds as [|i ds IH]; intros s id Hn; [done|]. change (spec_dels (base.delete i s) ds !! id = s !! id). rewrite IH by set_solver. by rewrite lookup_delete_ne by set_solver. Qed.
Lemma touches_split eds id : id ∉ flat_map edit_touches eds -> id ∉ map fst (flat_map edit_puts eds) /\ id ∉ flat_map edit_dels eds.
Proof. induction eds as [|ed eds IH]; [cbn; set_solver|]. cbn. unfold edit_touches. rewrite map_app. set_solver. Qed.
Lemma spec_commit_other eds s id : id ∉ flat_map edit_touches eds -> spec_commit s eds !! id = s !! id.
Proof. intros [? ?]%touches_split. unfold spec_commit. by rewrite spec_dels_other, spec_puts_other. Qed.
Lemma edits_wf eds : forallb edit_wf eds = true ->
  forallb (fun x => id_wf x.1 && row_wf x.1 x.2) (flat_map edit_puts eds) = true /\ forallb id_wf (flat_map edit_dels eds) = true.
Proof.
  induction eds as [|ed eds IH]; [done|]. cbn. rewrite !forallb_app. intros [[? ?]%andb_true_iff [? ?]%IH]%andb_true_iff.
  split; apply andb_true_iff; done.
Qed.

(** What a commit needs: rows the types allow, a batch the engine is ready for. *)
Definition commit_fits (r : Repo E) (eds : list Edit) : Prop := forallb edit_wf eds = true /\ ready (rp_engine r) (build_batch r eds).2.
Lemma commit_spec s r eds : repo_ok r s -> commit_fits r eds -> exists r', commit_edits r eds = (r', KOk tt) /\ repo_ok r' (spec_commit s eds).
Proof.
  intros (m & Hh & Hr & Hc) [Hw Hb]. unfold commit_edits. unfold build_batch in *.
  destruct (build_batch_spec s eds [] r wb_new Hc) as (r1 & b & E1 & Ee & [Hc1 Hf1] & Ep & Ed); [intros c _; split; intros; apply not_elem_of_nil|]. rewrite E1 in *. cbn in Hb, Ep, Ed, Hf1.
  unfold repo_write_batch. rewrite Ee. destruct (law_write _ m b Hh Hb) as (e' & Ew & Hh'). rewrite Ew. eexists. split; [reflexivity|].
  exists (batch_effect m b). split; [done|]. apply edits_wf in Hw as [Hp Hd]. split.
  - unfold batch_effect. rewrite Ep, Ed. by apply represents_dels; [apply represents_puts|].
  - cbn. intros c Hc'. destruct (Hc1 c Hc') as [Ch Co], (Hf1 c Hc') as [Fh Fo]. split.
    + intros k h Hl. rewrite spec_commit_other by (by eapply Fh). auto.
    + intros k t ko Hl. rewrite spec_commit_other by (by eapply Fo). auto.
Qed.

(** ** Any client *)
Definition call_fits (r : Repo E) (c : Call) : Prop := match c with CQuery q => query_fits (rp_engine r) q | CCommit eds => commit_fits r eds end.
Fixpoint calls_fit (r : Repo E) (cs : list Call) : Prop :=
  match cs with [] => True | c :: cs => call_fits r c /\ calls_fit (repo_call r c).1 cs end.
Lemma calls_spec cs : forall r s, repo_ok r s -> calls_fit r cs -> repo_calls r cs = spec_calls s cs.
Proof.
  induction cs as [|c cs IH]; intros r s Hok Hf; [done|]. destruct Hf as [Hc Hf]. cbn [repo_calls spec_calls]. destruct c as [q|eds]; cbn [repo_call spec_call call_fits] in *.
  - destruct Hok as (m & Hh & Hr & Hca). destruct (run_query_spec s m r q Hh Hr Hca Hc) as (r' & E1 & Ee & Hca'). rewrite E1 in *. f_equal. apply IH; [|done].
    exists m. by rewrite Ee.
  - destruct (commit_spec s r eds Hok Hc) as (r' & E1 & Hok'). rewrite E1 in *. f_equal. by apply IH.
Qed.
Lemma repo_ok_new e : holds e ∅ -> repo_ok (repo_new e) ∅.
Proof.
  intros Hh. exists ∅. split; [done|]. split; [|done]. split; [intros id v; by rewrite lookup_empty|]. intros k v. rewrite lookup_empty. split; [done|].
  intros (id & x & Hs & _). by rewrite lookup_empty in Hs.
Qed.
Lemma repo_ok_cache r s capacity : repo_ok r s -> repo_ok (with_cache r capacity) s.
Proof. intros (m & Hh & Hr & _). exists m. split; [done|]. split; [done|]. intros c [= <-]. split; cbn; intros *; by rewrite lookup_empty. Qed.
End Reads.
