(* ===== verification/RepositoryRebuild.v ===== *)
(** Rebuilding the derived indexes: whatever rows the relationship and type indexes hold,
    corrupt ones included, afterwards they are the image of the heads. *)

From stdpp Require Import gmap.
From S2P Require Import Prelude Memtable Kom Codec CodecProps Store Repository RepositorySpec RepositoryReads.

(** The keys of the derived indexes; the rest of the store is canonical. *)
Definition is_derived (k : bytes) : bool := starts_with P_REL_OUT k || starts_with P_REL_IN k || starts_with P_TYPE k.
Definition derived_rows (m : gmap bytes bytes) : gset bytes := filter (fun k => is_derived k = true) (dom m).
Definition canonical (m : gmap bytes bytes) : gmap bytes bytes := filter (fun kv => is_derived kv.1 = false) m.

(** What the heads derive. *)
Definition head_keys (s : SpecState) (h : KOID * Z * Z * LifecycleState.t) : list bytes :=
  let '(k, _, ts, _) := h in match spec_object s k ts with Some ko => derived_keys k ko | None => [] end.
Definition image (s : SpecState) : gset bytes := list_to_set (flat_map (head_keys s) (listed sel_head s)).

Lemma canonical_lookup m k : is_derived k = false -> canonical m !! k = m !! k.
Proof. intros Hd. unfold canonical. apply option_eq. intros v. rewrite map_lookup_filter_Some. cbn. naive_solver. Qed.
Lemma derived_none m k : is_derived k = true -> canonical m !! k = None.
Proof. intros Hd. unfold canonical. apply map_lookup_filter_None. right. intros v _. cbn. by rewrite Hd. Qed.
Lemma rows_canonical m p : (forall k, starts_with p k = true -> is_derived k = false) -> rows m p [] = rows (canonical m) p [].
Proof.
  intros Hp. apply rows_unique; [apply rows_sorted|]. intros k v. rewrite rows_elem. split; intros (Hl & Hs & Hb); (split; [|done]).
  - by rewrite canonical_lookup by auto.
  - by rewrite canonical_lookup in Hl by auto.
Qed.
Lemma starts_derived p k : starts_with p k = true -> is_derived p = false -> (5 <= length p)%nat -> is_derived k = false.
Proof.
  intros (x & ->)%starts_with_spec. do 5 (destruct p as [|? p]; [cbn; intros; lia|]). unfold is_derived. intros Hd _. cbn in *. exact Hd.
Qed.
Lemma head_not_derived k : starts_with P_HEAD k = true -> is_derived k = false.
Proof. intros Hs. by apply (starts_derived P_HEAD). Qed.
Lemma obj_not_derived k ts : is_derived (obj_key k ts) = false.
Proof. done. Qed.

(** ** Derived keys are well formed *)
Lemma edge_keys_ok k rel : koid_ok k = true -> rel_wf rel = true ->
  exists src rt dst, edge_keys (edge_of k rel) = [rel_out_key src rt dst; rel_in_key dst rt src] /\ koid_ok src = true /\ utf8_valid rt = true /\ koid_ok dst = true.
Proof. unfold rel_wf, edge_of. intros Hk [? ?]%andb_true_iff. destruct (direction rel); eauto 10. Qed.
Definition key_valid (k : bytes) : Prop :=
  starts_with P_TYPE k = false /\ is_derived k = true /\ k_is_err (decode_rel_out_key k) = false /\ k_is_err (decode_rel_in_key k) = false \/
  starts_with P_TYPE k = true /\ zlen P_TYPE + 1 + KOID_LEN <= zlen k.
Lemma rel_key_valid p a rt c : zlen p = 5 -> koid_ok a = true -> utf8_valid rt = true -> koid_ok c = true ->
  let k := p ++ koid_bytes a ++ [SLASH] ++ rt ++ [SLASH] ++ koid_bytes c in k_is_err (decode_rel_out_key k) = false /\ k_is_err (decode_rel_in_key k) = false.
Proof. intros Hp Ha Hr Hc. cbn zeta. unfold decode_rel_out_key, decode_rel_in_key. by rewrite !decode_rel_key_app. Qed.
Lemma derived_keys_valid k ko key : koid_ok k = true -> ko_wf ko = true -> key ∈ derived_keys k ko -> key_valid key.
Proof.
  intros Hk Hw Hx. unfold derived_keys in Hx. apply elem_of_app in Hx as [Hx|Hx].
  - left. apply list_elem_of_In, in_flat_map in Hx as (rel & Hrel & Hx). assert (rel_wf rel = true) as Hrw.
    { unfold ko_wf in Hw. bool_to_prop; destruct_and?. match goal with Hf : forallb rel_wf _ = true |- _ => rewrite forallb_forall in Hf; by apply Hf end. }
    destruct (edge_keys_ok k rel Hk Hrw) as (src & rt & dst & Ee & Hs & Hr & Hd). rewrite Ee in Hx. destruct Hx as [<-|[<-|[]]]; (split; [done|]); (split; [done|]).
    + by apply (rel_key_valid P_REL_OUT).
    + by apply (rel_key_valid P_REL_IN).
  - right. destruct (is_catalog_type _); [set_solver|]. apply list_elem_of_singleton in Hx as ->. unfold type_key. split; [apply starts_with_self|].
    rewrite !zlen_app. apply koid_ok_wf in Hk. rewrite Hk. change (zlen [SLASH]) with 1. pose proof (zlen_nonneg (type_name (ko_metadata ko))). lia.
Qed.

Section Rebuild.
Context {E : Type} `{HL : EngineLaws E}.
Implicit Types (e : E) (m : gmap bytes bytes) (s : SpecState).

(** ** The keys found *)
Lemma prefix_exclusive p q k : starts_with p k = true -> starts_with q k = true -> length p = length q -> p = q.
Proof. intros (x & ->)%starts_with_spec (y & Ey)%starts_with_spec El. by apply app_inj_1 in Ey as [-> _]. Qed.
Lemma rows_keys_nodup m p start : NoDup (map fst (rows m p start)).
Proof.
  pose proof (rows_sorted m p start) as Hs. unfold keys_sorted in Hs. induction Hs as [|x l Hl IH Hf]; [constructor|]. cbn. constructor; [|done].
  intros (y & Ey & Hy)%list_elem_of_fmap. eapply Forall_forall in Hf; [|exact Hy]. rewrite Ey in Hf. by apply (bytes_lt_irrefl y.1).
Qed.
Lemma rows_keys m p k : k ∈ map fst (rows m p []) <-> k ∈ dom m /\ starts_with p k = true.
Proof.
  rewrite list_elem_of_fmap, elem_of_dom. split.
  - intros ([k' v] & -> & (? & ? & _)%rows_elem). cbn. eauto.
  - intros [[v Hv] Hp]. exists (k, v). split; [done|]. apply rows_elem. split_and!; [done | done | by destruct k].
Qed.
Lemma derived_elem m k : k ∈ derived_rows m <-> is_derived k = true /\ is_Some (m !! k).
Proof. unfold derived_rows. by rewrite elem_of_filter, elem_of_dom. Qed.
Lemma prefix_derived k : starts_with P_REL_OUT k = true \/ starts_with P_REL_IN k = true \/ starts_with P_TYPE k = true -> is_derived k = true.
Proof. unfold is_derived. rewrite !orb_true_iff. tauto. Qed.
Lemma old_keys m : list_to_set (map fst (rows m P_REL_OUT [] ++ rows m P_REL_IN [] ++ rows m P_TYPE [])) =@{gset bytes} derived_rows m.
Proof.
  apply set_eq. intros k. rewrite elem_of_list_to_set, !map_app, !elem_of_app, !rows_keys. unfold derived_rows, is_derived. rewrite elem_of_filter, !orb_true_iff. tauto.
Qed.
Definition bad_keys m : list bytes :=
  map fst (List.filter (fun kv => k_is_err (decode_rel_out_key kv.1)) (rows m P_REL_OUT [])) ++
  map fst (List.filter (fun kv => k_is_err (decode_rel_in_key kv.1)) (rows m P_REL_IN [])) ++
  map fst (List.filter (fun kv : bytes * bytes => zlen kv.1 <? zlen P_TYPE + 1 + KOID_LEN) (rows m P_TYPE [])).
Lemma filter_keys (f : bytes * bytes -> bool) l k : k ∈ map fst (List.filter f l) <-> exists v, (k, v) ∈ l /\ f (k, v) = true.
Proof.
  rewrite list_elem_of_fmap. split.
  - intros ([k' v] & -> & [? ?]%elem_of_filter_bool). eauto.
  - intros (v & ? & ?). exists (k, v). split; [done | by apply elem_of_filter_bool].
Qed.
Lemma filtered_keys_nodup (f : bytes * bytes -> bool) l : NoDup (map fst l) -> NoDup (map fst (List.filter f l)).
Proof.
  induction l as [|x l IH]; [done|]. cbn. intros [Hn Hd]%NoDup_cons. destruct (f x); [|auto]. cbn. constructor; [|auto].
  intros (y & Ey & [Hy _]%elem_of_filter_bool)%list_elem_of_fmap. apply Hn. rewrite Ey. by apply list_elem_of_fmap_2.
Qed.
Lemma bad_keys_nodup m : NoDup (bad_keys m).
Proof.
  assert (forall p q (f g : bytes * bytes -> bool), p <> q -> length p = length q -> forall k, k ∈ map fst (List.filter f (rows m p [])) -> k ∉ map fst (List.filter g (rows m q []))) as Hd.
  { intros p q f g Hpq El k (v & (_ & Hp & _)%rows_elem & _)%filter_keys (w & (_ & Hq & _)%rows_elem & _)%filter_keys. apply Hpq. by eapply prefix_exclusive. }
  unfold bad_keys. apply NoDup_app. split_and!; [apply filtered_keys_nodup, rows_keys_nodup | |apply NoDup_app; split_and!; [apply filtered_keys_nodup, rows_keys_nodup | |apply filtered_keys_nodup, rows_keys_nodup]].
  - intros k Hk. apply not_elem_of_app. split; [by eapply Hd; [| |exact Hk] | by eapply Hd; [| |exact Hk]].
  - intros k Hk. by eapply Hd; [| |exact Hk].
Qed.
Lemma bad_keys_removed m (new : gset bytes) : (forall k, k ∈ new -> key_valid k) -> list_to_set (bad_keys m) ⊆ derived_rows m ∖ new.
Proof.
  intros Hv k Hk. apply elem_of_list_to_set in Hk. unfold bad_keys in Hk. rewrite !elem_of_app, !filter_keys in Hk. apply elem_of_difference. split.
  - apply derived_elem. destruct Hk as [(v & (? & ? & _)%rows_elem & _)|[(v & (? & ? & _)%rows_elem & _)|(v & (? & ? & _)%rows_elem & _)]];
      (split; [apply prefix_derived; tauto | by eexists]).
  - intros Hn. apply Hv in Hn. destruct Hk as [(v & (_ & Hp & _)%rows_elem & Hb)|[(v & (_ & Hp & _)%rows_elem & Hb)|(v & (_ & Hp & _)%rows_elem & Hb)]]; cbn [fst] in Hb.
    + destruct Hn as [(_ & _ & He & _)|[Ht _]]; [congruence|]. by pose proof (prefix_exclusive _ _ _ Hp Ht eq_refl).
    + destruct Hn as [(_ & _ & _ & He)|[Ht _]]; [congruence|]. by pose proof (prefix_exclusive _ _ _ Hp Ht eq_refl).
    + destruct Hn as [(Ht & _)|[_ Hl]]; [congruence|]. apply Z.ltb_lt in Hb. lia.
Qed.
Lemma bad_keys_count m : zlen (bad_keys m) =
  count_if (fun kv => k_is_err (decode_rel_out_key kv.1)) (rows m P_REL_OUT []) + count_if (fun kv => k_is_err (decode_rel_in_key kv.1)) (rows m P_REL_IN []) +
  count_if (fun kv : bytes * bytes => zlen kv.1 <? zlen P_TYPE + 1 + KOID_LEN) (rows m P_TYPE []).
Proof. unfold bad_keys, count_if, zlen. rewrite !length_app, !length_map. lia. Qed.
Lemma bad_keys_le m (new : gset bytes) : (forall k, k ∈ new -> key_valid k) -> zlen (bad_keys m) <= Z.of_nat (size (derived_rows m ∖ new)).
Proof.
  intros Hv. pose proof (subseteq_size _ _ (bad_keys_removed m new Hv)) as Hs. rewrite size_list_to_set in Hs by apply bad_keys_nodup. unfold zlen. lia.
Qed.

(** ** The loop over the heads *)
Definition head_wf (h : KOID * Z * Z * LifecycleState.t) : Prop := let '(k, _, ts, _) := h in koid_ok k = true /\ fits_in U64 ts = true.
Lemma derive_loop_spec s m hs : represents (canonical m) s -> forall r new rels tys, holds (rp_engine r) m -> cached s r -> Forall head_wf hs ->
  exists rels' tys', reads s (derive_loop hs new rels tys) r (new ∪ list_to_set (flat_map (head_keys s) hs), rels', tys').
Proof.
  intros Hr. induction hs as [|[[[k ver] ts] st] hs IH]; intros r new rels tys Hh Hc Hw.
  { exists rels, tys, r. cbn. by rewrite (right_id_L ∅ (∪)). }
  apply Forall_cons in Hw as [[Hk Ht] Hw].
  destruct (get_object_version_under s m (canonical m) r k ts Hh (eq_sym (canonical_lookup m _ (obj_not_derived k ts))) Hr Hc Hk Ht) as (r1 & E1 & Ee1 & Hc1).
  cbn [derive_loop flat_map head_keys]. unfold reads, mbind, RM_bind. rewrite E1. destruct (spec_object s k ts) as [ko|].
  - edestruct (IH r1) as (rels' & tys' & r2 & E2 & Ee2 & Hc2); [by rewrite Ee1 | done | done|]. eexists _, _, r2. split; [|split; [congruence | done]].
    etrans; [exact E2|]. by rewrite list_to_set_app_L, (assoc_L (∪)).
  - edestruct (IH r1) as (rels' & tys' & r2 & E2 & Ee2 & Hc2); [by rewrite Ee1 | done | done|]. eexists _, _, r2. split; [exact E2 | split; [congruence | done]].
Qed.
Lemma listed_elem {B} m s (sel : RowId * RowValue -> option B) b : represents m s -> b ∈ listed sel s <-> exists id v, s !! id = Some v /\ sel (id, v) = Some b.
Proof.
  intros Hr. unfold listed. rewrite list_elem_of_omap. split.
  - intros ([id v] & Hx & Hb). apply (sorted_rows_elem m) in Hx; [|done]. eauto.
  - intros (id & v & Hs & Hb). exists (id, v). split; [|done]. by apply (sorted_rows_elem m).
Qed.
Lemma heads_wf m s : represents m s -> Forall head_wf (listed sel_head s).
Proof.
  intros Hr. apply Forall_forall. intros h (id & v & Hs & Hb)%(listed_elem m); [|done]. destruct (proj1 Hr _ _ Hs) as [Hi Hv].
  destruct id; try done. destruct v as [|[[ver ts] st]| | | | | |]; try done. injection Hb as <-. row_fields Hv. done.
Qed.
Lemma image_elem m s key : represents m s ->
  key ∈ image s <-> exists k ver ts st ko, s !! IdHead k = Some (VHead (ver, ts, st)) /\ s !! IdObj k ts = Some (VObj ko) /\ key ∈ derived_keys k ko.
Proof.
  intros Hr. unfold image. rewrite elem_of_list_to_set, list_elem_of_In, in_flat_map. split.
  - intros ([[[k ver] ts] st] & Hh & Hx). apply list_elem_of_In, (listed_elem m) in Hh as (id & v & Hs & Hb); [|done].
    destruct id; try done. destruct v as [|[[ver' ts'] st']| | | | | |]; try done. injection Hb as -> -> -> ->. cbn in Hx.
    destruct (spec_object s k ts) as [ko|] eqn:Eo; [|done]. apply spec_object_row in Eo. apply list_elem_of_In in Hx. eauto 10.
  - intros (k & ver & ts & st & ko & Hh & Ho & Hx). exists (k, ver, ts, st). rewrite <-!list_elem_of_In. split.
    + apply (listed_elem m); [done|]. by exists (IdHead k), (VHead (ver, ts, st)).
    + cbn. unfold spec_object. by rewrite Ho.
Qed.
Lemma image_valid m s k : represents m s -> k ∈ image s -> key_valid k.
Proof.
  intros Hr (k' & ver & ts & st & ko & Hh & Ho & Hx)%(image_elem m); [|done]. destruct (proj1 Hr _ _ Hh) as [Hk _], (proj1 Hr _ _ Ho) as [_ Hv]. row_fields Hv.
  by eapply derived_keys_valid.
Qed.
Lemma valid_derived k : key_valid k -> is_derived k = true.
Proof. intros [(_ & ? & _)|[? _]]; [done|]. apply prefix_derived. auto. Qed.

(** ** The batch *)
Lemma rebuild_effect m (old new : gset bytes) k :
  batch_effect m (rebuild_batch old new) !! k = if decide (k ∈ old ∖ new) then None else if decide (k ∈ new ∖ old) then Some [] else m !! k.
Proof.
  unfold batch_effect, rebuild_batch. cbn [wb_puts wb_dels].
  assert (forall ds m, fold_left (fun (m : gmap bytes bytes) k => base.delete k m) ds m !! k = if decide (k ∈ ds) then None else m !! k) as Hd.
  { induction ds as [|d ds IH]; intros m'; [done|]. cbn. rewrite IH. destruct (decide (k ∈ ds)) as [Hk|Hk]; [by rewrite decide_True by (by right)|].
    destruct (decide (d = k)) as [->|Hne]; [rewrite decide_True by left; apply lookup_delete_eq|]. rewrite lookup_delete_ne by done. by rewrite decide_False by set_solver. }
  assert (forall ps m, fold_left (fun (m : gmap bytes bytes) kv => <[kv.1 := kv.2]> m) (map (fun k => (k, [])) ps) m !! k = if decide (k ∈ ps) then Some [] else m !! k) as Hp.
  { induction ps as [|d ps IH]; intros m'; [done|]. cbn. rewrite IH. destruct (decide (k ∈ ps)) as [Hk|Hk]; [by rewrite decide_True by (by right)|].
    destruct (decide (d = k)) as [->|Hne]; [rewrite decide_True by left; apply lookup_insert_eq|]. rewrite lookup_insert_ne by done. by rewrite decide_False by set_solver. }
  rewrite Hd, Hp. rewrite (decide_ext (k ∈ elements (old ∖ new)) (k ∈ old ∖ new)) by apply elem_of_elements.
  by rewrite (decide_ext (k ∈ elements (new ∖ old)) (k ∈ new ∖ old)) by apply elem_of_elements.
Qed.
Lemma rebuild_empty m old new : wb_is_empty (rebuild_batch old new) = true -> batch_effect m (rebuild_batch old new) = m.
Proof. unfold wb_is_empty, batch_effect. destruct (wb_puts _), (wb_dels _); done. Qed.
Lemma rebuild_canonical m s : represents (canonical m) s -> canonical (batch_effect m (rebuild_batch (derived_rows m) (image s))) = canonical m.
Proof.
  intros Hr. apply map_eq. intros k. destruct (is_derived k) eqn:Ed; [by rewrite !derived_none|]. rewrite !canonical_lookup by done. rewrite rebuild_effect.
  rewrite decide_False, decide_False; [done | |].
  - intros [Hn _]%elem_of_difference. apply (image_valid (canonical m)), valid_derived in Hn; [congruence | done].
  - intros [Hn _]%elem_of_difference. apply derived_elem in Hn as [? _]. congruence.
Qed.
Lemma rebuild_derived m s : represents (canonical m) s -> derived_rows (batch_effect m (rebuild_batch (derived_rows m) (image s))) = image s.
Proof.
  intros Hr. apply set_eq. intros k. rewrite derived_elem, rebuild_effect. destruct (decide (k ∈ derived_rows m ∖ image s)) as [Hx|Hy]; [|destruct (decide (k ∈ image s ∖ derived_rows m)) as [Hx|Hx]]; rewrite elem_of_difference in Hx.
  - split; [by intros [_ [? ?]]|]. tauto.
  - destruct Hx as [Hx _]. pose proof (valid_derived k (image_valid (canonical m) s k Hr Hx)) as Hd. split; [by intros _ | intros _; split; [done | by eexists]].
  - rewrite elem_of_difference in Hy. rewrite <-derived_elem. destruct (decide (k ∈ derived_rows m)), (decide (k ∈ image s)); tauto.
Qed.
End Rebuild.
