(* ===== verification/RepositoryProps.v ===== *)
(** The theorems about the repository. *)

From stdpp Require Import gmap.
From S2P Require Import Prelude Memtable Kom Codec CodecProps Store Repository RepositorySpec RepositoryReads RepositoryRebuild.

(** C28: over any engine that keeps the promise of the engine trait, whatever bytes it holds
    for whatever typed rows, and whatever agreeing cache sits in front of it, a client that
    writes each batch when it has built it sees the repository as a map from typed names to
    typed rows, in the queries of [Query]: the point and batched reads of heads, versions,
    events, keys, tombstones, records and the journal, the version at a snapshot, and the
    ordered scans of heads, versions, events, subscriptions, types, schemas and of all the
    edges out of or into an object answer from that map; and a batch takes its puts and then
    its deletions.  So the key layout never confuses two rows, every row reads back as written,
    and the cache is never observable.  Not among the queries are the edge scans restricted to
    a type, which also return types that extend it with a slash ([edge_filter_leaks]), and the
    scoring read ([scoring_rejects_legacy]); a batch is committed as it is built, so the cache is
    never ahead of the store ([head_cache_stale]). *)
Theorem repository_refines {E} `{EngineLaws E} (r : Repo E) (s : SpecState) (cs : list Call) :
  repo_ok r s -> calls_fit r cs -> repo_calls r cs = spec_calls s cs.
Proof. intros. by apply calls_spec. Qed.

(** ** Newest version *)

Lemma versions_sorted m s k : represents m s -> koid_ok k = true -> StronglySorted (fun a b => a.1 < b.1) (listed (sel_version k) s).
Proof.
  intros Hr Hk. unfold listed, sorted_rows. change (foldr _ _ _) with (keyed_rows s). pose proof (keyed_sorted s) as Hs.
  assert (forall y, y ∈ keyed_rows s -> s !! y.2.1 = Some y.2.2 /\ y.1 = row_key y.2.1) as He by (intros [key x] Hy; by apply (keyed_elem m) in Hy).
  unfold keys_sorted in Hs. induction Hs as [|[key [id v]] l Hl IH Hf]; [constructor|]. cbn [map omap list_omap snd]. specialize (IH ltac:(set_solver)).
  destruct (sel_version k (id, v)) as [[ts ko]|] eqn:Ev; [|exact IH]. constructor; [exact IH|]. apply Forall_forall. intros [ts' ko'] Hx.
  apply list_elem_of_omap in Hx as ([id' v'] & Hx & Ev'). apply list_elem_of_fmap in Hx as ([key' x'] & Ex & Hx). cbn in Ex. subst x'. eapply Forall_forall in Hf; [|exact Hx].
  destruct (He (key, (id, v))) as [H1 K1]; [set_solver|]. destruct (He (key', (id', v'))) as [H2 K2]; [set_solver|]. cbn [fst snd] in *. subst key key'.
  destruct (proj1 Hr _ _ H1) as [Hi _], (proj1 Hr _ _ H2) as [Hi' _].
  destruct id; try done. destruct v; try done. destruct id'; try done. destruct v'; try done. cbn in Ev, Ev'. repeat case_bool_decide; try done. simplify_eq.
  cbn [id_wf row_key] in *. bool_to_prop; destruct_and?. apply Z.nle_gt. intros Hle. apply Z.leb_le in Hle. rewrite <-(obj_key_le k) in Hle by done.
  apply (bytes_lt_irrefl (obj_key k ts)). by eapply bytes_lt_leb_trans.
Qed.
Lemma sorted_last {A} (l : list (Z * A)) x y : StronglySorted (fun a b => a.1 < b.1) l -> last l = Some x -> y ∈ l -> y.1 <= x.1.
Proof.
  intros Hs Hl Hy. apply last_Some in Hl as (l' & ->). apply elem_of_app in Hy as [Hy|Hy]; [|apply list_elem_of_singleton in Hy as ->; lia].
  induction l' as [|z l' IH]; [by apply not_elem_of_nil in Hy|]. cbn in Hs. inversion Hs as [|? ? Hs' Hf]; subst.
  apply elem_of_cons in Hy as [->|Hy]; [|by apply IH]. eapply Forall_forall in Hf; [apply Z.lt_le_incl, Hf | set_solver].
Qed.

(** The version read at a snapshot is the newest committed at or before it: the object
    stored under the timestamp it returns, that timestamp not after the snapshot, nothing
    stored in between; and nothing is returned only when no version is that old. *)
Theorem version_at_newest {E} `{EngineLaws E} (r : Repo E) (s : SpecState) k snap :
  repo_ok r s -> koid_ok k = true -> fits_in U64 snap = true -> scannable (rp_engine r) (obj_prefix k) ->
  match get_version_at (rp_engine r) k snap with
  | KOk (Some (ts, ko)) => spec_object s k ts = Some ko /\ ts <= snap /\ forall ts', ts < ts' <= snap -> spec_object s k ts' = None
  | KOk None => forall ts', ts' <= snap -> spec_object s k ts' = None
  | _ => False
  end.
Proof.
  intros (m & Hh & Hr & _) Hk Hs Hp. rewrite (version_at_spec _ m s) by done. unfold spec_version_at.
  assert (forall ts ko, (ts, ko) ∈ listed (sel_version k) s <-> spec_object s k ts = Some ko) as He.
  { intros ts ko. rewrite (listed_elem m) by done. split.
    - intros (id & v & Hs' & Hb). destruct id; try done. destruct v; try done. cbn in Hb. case_bool_decide; [|done]. simplify_eq. unfold spec_object. by rewrite Hs'.
    - intros Ho%spec_object_row. exists (IdObj k ts), (VObj ko). cbn. by rewrite bool_decide_true. }
  destruct (last _) as [[ts ko]|] eqn:El.
  - pose proof (last_Some_elem_of _ _ El) as [Hx Hle]%elem_of_filter_bool. cbn in Hle. apply Z.leb_le in Hle. split; [by apply He|]. split; [done|].
    intros ts' Hts. destruct (spec_object s k ts') as [ko'|] eqn:Eo; [|done]. apply He in Eo. exfalso.
    pose proof (sorted_last _ _ (ts', ko') (filter_sorted _ _ _ (versions_sorted m s k Hr Hk)) El) as Hle'. cbn in Hle'.
    rewrite elem_of_filter_bool in Hle'. cbn in Hle'. specialize (Hle' (conj Eo (proj2 (Z.leb_le _ _) (proj2 Hts)))). lia.
  - intros ts' Hts. destruct (spec_object s k ts') as [ko'|] eqn:Eo; [|done]. apply He in Eo. exfalso. apply last_None in El.
    apply (not_elem_of_nil (ts', ko')). rewrite <-El. apply elem_of_filter_bool. split; [done|]. by apply Z.leb_le.
Qed.

(** ** Rebuilding the indexes *)

(** C36: rebuilding the derived indexes, whatever rows they hold (stale, missing, undecodable),
    succeeds and leaves them the exact image of the heads: a key is present exactly when an
    object that is a head's current version derives it; no canonical row changes; and the
    report counts every removed row once, as stale or as invalid, without underflow. *)
Theorem rebuild_exact {E} `{EngineLaws E} (r : Repo E) m (s : SpecState) :
  holds (rp_engine r) m -> represents (canonical m) s -> cached s r ->
  (forall p, p ∈ [P_REL_OUT; P_REL_IN; P_TYPE; P_HEAD] -> scannable (rp_engine r) p) ->
  ready (rp_engine r) (rebuild_batch (derived_rows m) (image s)) ->
  exists r' m' rep, rebuild_derived_indexes r = (r', KOk rep) /\ holds (rp_engine r') m' /\ canonical m' = canonical m /\
    (forall key, key ∈ derived_rows m' <->
       exists k ver ts st ko, s !! IdHead k = Some (VHead (ver, ts, st)) /\ s !! IdObj k ts = Some (VObj ko) /\ key ∈ derived_keys k ko) /\
    0 <= removed_stale rep /\ 0 <= removed_invalid rep /\ removed_stale rep + removed_invalid rep = Z.of_nat (size (derived_rows m ∖ derived_rows m')).
Proof.
  intros Hh Hr Hc Hp Hb. unfold rebuild_derived_indexes.
  assert (forall p, p ∈ [P_REL_OUT; P_REL_IN; P_TYPE; P_HEAD] -> eng_scan (rp_engine r) p = KOk (rows m p [])) as Hs by (intros p Hin; apply law_scan; auto).
  pose proof (Hs P_REL_OUT ltac:(set_solver)) as S1. pose proof (Hs P_REL_IN ltac:(set_solver)) as S2. pose proof (Hs P_TYPE ltac:(set_solver)) as S3.
  pose proof (scan_heads_under _ m (canonical m) s Hh (rows_canonical m P_HEAD head_not_derived) Hr (Hp P_HEAD ltac:(set_solver))) as S4.
  destruct (derive_loop_spec s m (listed sel_head s) Hr r ∅ 0 0 Hh Hc (heads_wf _ s Hr)) as (rels & tys & r1 & E1 & Ee1 & Hc1).
  unfold mbind, RM_bind, on_engine. rewrite S1, S2, S3, S4. rewrite E1. rewrite old_keys, (left_id_L ∅ (∪)), <-bad_keys_count. fold (image s).
  pose proof (bad_keys_le m (image s) (fun k => image_valid _ s k Hr)) as Hle.
  assert (exists r2, write_nonempty (rebuild_batch (derived_rows m) (image s)) r1 = (r2, KOk tt) /\
    holds (rp_engine r2) (batch_effect m (rebuild_batch (derived_rows m) (image s)))) as (r2 & E2 & Hh2).
  { unfold write_nonempty. destruct (wb_is_empty _) eqn:Ew; [exists r1; split; [done|]; rewrite rebuild_empty, Ee1 by done; done|]. unfold repo_write_batch. rewrite Ee1.
    destruct (law_write _ m _ Hh Hb) as (e' & -> & ?). by eexists. }
  rewrite E2, (proj2 (Z.ltb_ge _ _)) by done. eexists r2, _, _. split; [reflexivity|]. split; [exact Hh2|]. split; [by apply rebuild_canonical|].
  rewrite rebuild_derived by done. split; [intros key; by apply image_elem with (m := canonical m)|]. cbn. split_and!; [lia | apply zlen_nonneg | lia].
Qed.

(** ** Typed edge scans *)
Definition slash_free (rt : bytes) : bool := forallb (fun b => negb (bool_decide (b = SLASH))) rt.
Lemma slash_prefix a : forall b x, slash_free a = true -> slash_free b = true -> starts_with (a ++ [SLASH]) (b ++ [SLASH] ++ x) = bool_decide (b = a).
Proof.
  unfold slash_free. induction a as [|c a IH]; intros [|d b] x Ha Hb; cbn in *; bool_to_prop; destruct_and?.
  - done.
  - rewrite bool_decide_false by congruence. by rewrite bool_decide_false by done.
  - rewrite bool_decide_false by congruence. by rewrite bool_decide_false by done.
  - rewrite IH by done. case_bool_decide; case_bool_decide; subst; [by rewrite bool_decide_true | by rewrite bool_decide_false by congruence | by rewrite bool_decide_false by congruence..].
Qed.
Definition sel_out_type (src : KOID) (rt : bytes) (x : RowId * RowValue) : option (bytes * KOID) :=
  match x.1 with IdRelOut src' rt' dst => if bool_decide (src' = src) && bool_decide (rt' = rt) then Some (rt', dst) else None | _ => None end.
Definition sel_in_type (dst : KOID) (rt : bytes) (x : RowId * RowValue) : option (bytes * KOID) :=
  match x.1 with IdRelIn dst' rt' src => if bool_decide (dst' = dst) && bool_decide (rt' = rt) then Some (rt', src) else None | _ => None end.
Lemma typed_prefix p (k k' : KOID) rt rt' x : koid_ok k = true -> koid_ok k' = true -> slash_free rt = true -> slash_free rt' = true ->
  starts_with (p ++ koid_bytes k ++ [SLASH] ++ rt ++ [SLASH]) (p ++ koid_bytes k' ++ [SLASH] ++ rt' ++ [SLASH] ++ x) = bool_decide (k' = k) && bool_decide (rt' = rt).
Proof. intros Hk Hk' Hr Hr'. rewrite starts_with_app, starts_with_koid, starts_with_app by done. by rewrite slash_prefix. Qed.

(** The outbound half, which asks nothing of the inbound rows. *)
Lemma out_scan_exact {E} `{EngineLaws E} (r : Repo E) (s : SpecState) k rt :
  repo_ok r s -> koid_ok k = true -> slash_free rt = true -> (forall src rt' dst v, s !! IdRelOut src rt' dst = Some v -> slash_free rt' = true) ->
  scannable (rp_engine r) (rel_out_prefix_src_type k rt) -> scan_outbound (rp_engine r) k (Some rt) = KOk (listed (sel_out_type k rt) s).
Proof.
  intros (m & Hh & Hr & _) Hk Hs Hall Hp. apply (scan_collect _ m); try done. intros id v Hst Hi Hv. destruct id; try (cbn; by destruct v). apply Hall in Hst.
  cbn [row_key row_bytes id_wf sel_out_type fst snd] in *. bool_to_prop; destruct_and?.
  unfold rel_out_prefix_src_type, rel_out_key at 1. rewrite typed_prefix by done. destruct (bool_decide _ && bool_decide _); [|done].
  unfold decode_rel_out_key, rel_out_key. by rewrite decode_rel_key_app.
Qed.
(** Where no relationship type holds a slash, the edges scanned from or to an object for
    one type are exactly the stored edges of that object and that type, in key order. *)
Theorem edge_scan_exact {E} `{EngineLaws E} (r : Repo E) (s : SpecState) k rt :
  repo_ok r s -> koid_ok k = true -> slash_free rt = true ->
  (forall id v, s !! id = Some v -> match id with IdRelOut _ rt' _ | IdRelIn _ rt' _ => slash_free rt' = true | _ => True end) ->
  (scannable (rp_engine r) (rel_out_prefix_src_type k rt) -> scan_outbound (rp_engine r) k (Some rt) = KOk (listed (sel_out_type k rt) s)) /\
  (scannable (rp_engine r) (rel_in_prefix_dst_type k rt) -> scan_inbound (rp_engine r) k (Some rt) = KOk (listed (sel_in_type k rt) s)).
Proof.
  intros Hok Hk Hs Hall. split; [apply out_scan_exact; [done..|]; intros src rt' dst v Hst; apply (Hall _ _ Hst)|]. destruct Hok as (m & Hh & Hr & _).
  intros Hp. apply (scan_collect _ m); try done. intros id v Hst Hi Hv. specialize (Hall id v Hst). destruct id; try (cbn; by destruct v).
  cbn [row_key row_bytes id_wf sel_in_type fst snd] in *. bool_to_prop; destruct_and?.
  unfold rel_in_prefix_dst_type, rel_in_key at 1. rewrite typed_prefix by done. destruct (bool_decide _ && bool_decide _); [|done].
  unfold decode_rel_in_key, rel_in_key. by rewrite decode_rel_key_app.
Qed.

(** ** A read between building a batch and writing it *)

(** The cache is not coherent with a reader that runs between building a batch and
    writing it.  [put_head] drops the cached head at once; a [get_head] before the write puts
    the old one back; after the write, [get_head] answers the old head while the store holds
    the new one, for every object, every pair of heads and every capacity. *)
Theorem head_cache_stale {E} `{EngineLaws E} (r : Repo E) (s : SpecState) c k h version ts st :
  repo_ok r s -> rp_cache r = Some c -> koid_ok k = true -> spec_head s k = Some h ->
  ready (rp_engine r) (put_head r wb_new k version ts st).2 ->
  let '(r1, b) := put_head r wb_new k version ts st in
  let '(r2, seen) := get_head k r1 in
  let '(r3, done_) := repo_write_batch r2 b in
  seen = KOk (Some h) /\ done_ = KOk tt /\ (get_head k r3).2 = KOk (Some h) /\ eng_get (rp_engine r3) (head_key k) = KOk (Some (encode_head version ts st)).
Proof.
  intros (m & Hh & Hr & Hc) Ec Hk Hs Hb. unfold put_head in *. cbn [snd] in Hb. set (r1 := upd_cache _ r).
  assert (rp_cache r1 = Some (kc_delete_head c k)) as Ec1 by (unfold r1, upd_cache; cbn; by rewrite Ec).
  assert (get_head k r1 = (upd_cache (fun c => kc_put_head c k h) r1, KOk (Some h))) as ->.
  { unfold get_head, mbind, RM_bind, on_cache. rewrite Ec1. unfold kc_get_head, lru_lookup. cbn [kc_delete_head kc_heads lru_remove lru_map]. rewrite lookup_delete_eq.
    cbn [on_engine rp_engine]. rewrite (law_get _ m) by done. destruct (head_row s m k Hr Hk) as [[_ ?]|(v & h' & -> & Ed & Es)]; [congruence|]. cbn [lift k_opt mbind KResult_bind].
    rewrite Ed. cbn. rewrite Hs in Es. injection Es as <-. unfold fill_cache, upd_cache. cbn. by rewrite Ec. }
  unfold repo_write_batch. change (rp_engine (upd_cache _ r1)) with (rp_engine r). destruct (law_write _ m _ Hh Hb) as (e' & -> & Hh'). split; [done|]. split; [done|]. split.
  - unfold get_head, mbind, RM_bind, on_cache. cbn [rp_cache upd_cache]. unfold r1, upd_cache. cbn [rp_cache]. rewrite Ec. cbn [fmap option_fmap option_map].
    unfold kc_get_head, lru_lookup. cbn [kc_put_head kc_heads lru_put lru_map]. by rewrite lookup_insert_eq.
  - cbn [rp_engine]. rewrite (law_get _ _ _ Hh'). f_equal. cbn. apply lookup_insert_eq.
Qed.

(** ** Two divergences *)

(** A filter on the type ["a"] also returns the edges of type ["a/b"]. *)
Definition slash_edge : KOID * bytes * KOID := (mkKOID (repeat x01 16), [x61; x2f; x62], mkKOID (repeat x02 16)).
Lemma edge_filter_leaks :
  let '(src, rt, dst) := slash_edge in
  let e := rp_engine (commit_edits (repo_new mem_new) [WriteRel src rt dst]).1 in
  rt <> [x61] /\ scan_outbound e src (Some [x61]) = KOk [(rt, dst)].
Proof. split; [done | vm_compute; reflexivity]. Qed.

(** An object row from before the envelope, which every other read accepts, fails the scoring
    read: it drops eight bytes of payload as if they were the header. *)
Lemma scoring_rejects_legacy :
  let k := ko_koid sample_ko in
  let e := (mem_write_batch mem_new (wb_put wb_new (obj_key k 7) (encode_ko sample_ko))).1 in
  get_version_at e k 7 = KOk (Some (7, sample_ko)) /\ exists err, get_object_scoring e k 7 [] = KErr err.
Proof. split; [vm_compute; reflexivity|]. eexists. vm_compute. reflexivity. Qed.

(* ------------------------------------------------------------------ *)
(** * Witnesses *)

Definition sample_edits : list Edit :=
  [PutObject (ko_koid sample_ko) 5 sample_ko; PutHead (ko_koid sample_ko) 1 5 LifecycleState.Draft; PutEvent 4 sample_ke;
   WriteRel (ko_koid sample_ko) [x72] (koid_of 1500 0 7); WriteType [x54] (ko_koid sample_ko); PutJournal 4 (repeat x02 32) 5;
   PutSub [x73] (mkSubscriptionRecord (mkEventFilter (Some (ko_koid sample_ko)) (Some [EventKind.Created])) 3)].
Definition sample_calls : list Call :=
  [CCommit sample_edits; CQuery (QHead (ko_koid sample_ko)); CQuery (QHeads [ko_koid sample_ko; koid_of 1 1 1]); CQuery (QVersionAt (ko_koid sample_ko) 8);
   CQuery (QEventsAfter 3); CQuery QSubs; CQuery (QOutbound (ko_koid sample_ko)); CQuery (QType [x54]); CQuery QSeq;
   CCommit [PutHead (ko_koid sample_ko) 2 9 LifecycleState.Active; DelSub [x73]]; CQuery (QHead (ko_koid sample_ko)); CQuery QSubs].
Definition sample_repo : Repo MemoryEngine := with_cache (repo_new mem_new) 1.
Definition sample_state : SpecState := spec_commit ∅ sample_edits.
Lemma sample_repo_ok : repo_ok sample_repo ∅.
Proof. apply repo_ok_cache, repo_ok_new, mem_new_holds. Qed.
Lemma sample_committed : repo_ok (commit_edits sample_repo sample_edits).1 sample_state.
Proof.
  destruct (commit_spec ∅ sample_repo sample_edits sample_repo_ok) as (r' & E1 & Hok); [split; [vm_compute; reflexivity | exact I]|].
  by rewrite E1.
Qed.
Ltac fits_all := repeat first [exact I | split; [split; [vm_compute; reflexivity | intros; exact I]|]].

Lemma repository_refines_witness :
  repo_calls sample_repo sample_calls = spec_calls ∅ sample_calls /\
  last (repo_calls sample_repo sample_calls) = Some (AReply (KOk (RSubs []))).
Proof.
  split; [|vm_compute; reflexivity]. apply (repository_refines sample_repo ∅ sample_calls); [exact sample_repo_ok|]. unfold sample_calls. cbn [calls_fit]. fits_all.
Defined.
Lemma version_at_newest_witness :
  get_version_at (rp_engine (commit_edits sample_repo sample_edits).1) (ko_koid sample_ko) 8 = KOk (Some (5, sample_ko)) /\
  forall ts', 5 < ts' <= 8 -> spec_object sample_state (ko_koid sample_ko) ts' = None.
Proof.
  pose proof (version_at_newest _ sample_state (ko_koid sample_ko) 8 sample_committed eq_refl eq_refl I) as W.
  assert (get_version_at (rp_engine (commit_edits sample_repo sample_edits).1) (ko_koid sample_ko) 8 = KOk (Some (5, sample_ko))) as Eg by (vm_compute; reflexivity).
  rewrite Eg in W. destruct W as (_ & _ & W). split; [exact Eg | exact W].
Defined.
Lemma edge_scan_exact_witness :
  scan_outbound (rp_engine (commit_edits sample_repo sample_edits).1) (ko_koid sample_ko) (Some [x72]) = KOk (listed (sel_out_type (ko_koid sample_ko) [x72]) sample_state).
Proof.
  apply (edge_scan_exact _ sample_state (ko_koid sample_ko) [x72] sample_committed eq_refl eq_refl); [|exact I].
  intros id v Hs. apply elem_of_map_to_list in Hs. revert Hs. assert (Forall (fun x => match x.1 with IdRelOut _ rt' _ | IdRelIn _ rt' _ => slash_free rt' = true | _ => True end) (map_to_list sample_state)) as Hf.
  { vm_compute. repeat constructor. }
  intros Hs. eapply Forall_forall in Hf; [|exact Hs]. exact Hf.
Defined.
Lemma head_cache_stale_witness :
  let r := (commit_edits sample_repo sample_edits).1 in let k := ko_koid sample_ko in
  let '(r1, b) := put_head r wb_new k 2 9 LifecycleState.Active in
  let '(r2, _) := get_head k r1 in let '(r3, _) := repo_write_batch r2 b in (get_head k r3).2 = KOk (Some (1, 5, LifecycleState.Draft)).
Proof.
  cbn zeta. pose proof (head_cache_stale (commit_edits sample_repo sample_edits).1 sample_state (kc_with_capacity 1) (ko_koid sample_ko) (1, 5, LifecycleState.Draft) 2 9 LifecycleState.Active
    sample_committed ltac:(vm_compute; reflexivity) eq_refl ltac:(vm_compute; reflexivity) I) as W.
  destruct (put_head _ _ _ _ _ _) as [r1 b]. destruct (get_head _ r1) as [r2 seen]. destruct (repo_write_batch r2 b) as [r3 d]. destruct W as (_ & _ & W & _). exact W.
Defined.

(** Stale and corrupt index rows beside the canonical ones. *)
Definition dirty_edits : list Edit :=
  [PutObject (ko_koid sample_ko) 5 sample_ko; PutHead (ko_koid sample_ko) 1 5 LifecycleState.Draft].
Definition dirty_batch : WriteBatch := mkWriteBatch [(P_REL_OUT ++ [x00], []); (type_key [x55] (ko_koid sample_ko), [])] [].
Definition dirty_repo : Repo MemoryEngine := (repo_write_batch (commit_edits (repo_new mem_new) dirty_edits).1 dirty_batch).1.
Definition clean_map : gmap bytes bytes := batch_effect ∅ (build_batch (repo_new mem_new) dirty_edits).2.
Lemma dirty_holds : holds (rp_engine dirty_repo) (batch_effect clean_map dirty_batch).
Proof. apply (mem_write_holds _ clean_map dirty_batch), (mem_write_holds _ ∅), mem_new_holds. Qed.
Lemma clean_represents : represents clean_map (spec_commit ∅ dirty_edits).
Proof.
  apply (represents_puts (flat_map edit_puts dirty_edits) ∅ ∅); [|vm_compute; reflexivity].
  split; [intros id v; by rewrite lookup_empty|]. intros k v. rewrite lookup_empty. split; [done|]. intros (id & x & Hs & _). by rewrite lookup_empty in Hs.
Qed.
Lemma dirty_canonical : canonical (batch_effect clean_map dirty_batch) = clean_map.
Proof.
  apply map_eq. intros k. destruct (is_derived k) eqn:Ed.
  - rewrite derived_none by done. symmetry. apply eq_None_not_Some. intros [v (id & x & Hs & -> & _)%(proj2 clean_represents)].
    apply elem_of_map_to_list in Hs. revert Ed. assert (forallb (fun x => negb (is_derived (row_key x.1))) (map_to_list (spec_commit ∅ dirty_edits)) = true) as Hf by (vm_compute; reflexivity).
    rewrite forallb_forall in Hf. apply list_elem_of_In, Hf in Hs. cbn [fst] in Hs. by destruct (is_derived (row_key id)).
  - rewrite canonical_lookup by done. unfold batch_effect, dirty_batch. cbn [wb_puts wb_dels fold_left fst snd]. rewrite !lookup_insert_ne; [done | intros <-; vm_compute in Ed; discriminate..].
Qed.
Lemma rebuild_exact_witness : exists r' rep, rebuild_derived_indexes dirty_repo = (r', KOk rep) /\ 0 <= removed_stale rep /\
  rebuild_derived_indexes dirty_repo = (r', KOk (mkRebuild 1 1 1 1 1 1)).
Proof.
  destruct (rebuild_exact dirty_repo (batch_effect clean_map dirty_batch) (spec_commit ∅ dirty_edits) dirty_holds) as (r' & m' & rep & E1 & _ & _ & _ & W & _).
  - rewrite dirty_canonical. exact clean_represents.
  - intros c Hc. discriminate Hc.
  - intros p _. exact I.
  - exact I.
  - exists r', rep. split; [exact E1|]. split; [exact W|]. rewrite E1. assert ((rebuild_derived_indexes dirty_repo).2 = KOk (mkRebuild 1 1 1 1 1 1)) as Er by (vm_compute; reflexivity).
    rewrite E1 in Er. cbn in Er. by rewrite Er.
Defined.
