(* ===== verification/Commit.v ===== *)
(** crates/kernel/src/transaction/kernel.rs: the commit pipeline of the kernel, its hybrid
    clock, the audit chain and its verification, forgetting and evolving an object; with the
    tenant counters (security/tenant.rs), the object manager's head read (object/mod.rs) and
    the object validation (knowledge/kom.rs).

    The caller holds the pipeline lock: one operation runs at a time.  HMAC and the Ed25519
    signature are parameters (the hmac and ed25519 crates); so is the authorization decision,
    which no state here depends on.  The wall clock is an argument of the operations that
    read it. *)

From Stdlib Require Import String.
From stdpp Require Import gmap.
From S2P Require Import Prelude Format Memtable Kom Codec Store Repository.

(* ------------------------------------------------------------------ *)
(** * Validation *)

(** [s.trim().is_empty()]: nothing but Unicode white space. *)
Fixpoint is_blank (bs : bytes) : bool :=
  match bs with
  | [] => true
  | (x09 | x0a | x0b | x0c | x0d | x20) :: bs => is_blank bs
  | xc2 :: (x85 | xa0) :: bs => is_blank bs
  | xe1 :: x9a :: x80 :: bs => is_blank bs
  | xe2 :: x80 :: (x80 | x81 | x82 | x83 | x84 | x85 | x86 | x87 | x88 | x89 | x8a | xa8 | xa9 | xaf) :: bs => is_blank bs
  | xe2 :: x81 :: x9f :: bs => is_blank bs
  | xe3 :: x80 :: x80 :: bs => is_blank bs
  | _ => false
  end.

(** [KnowledgeObject::validate]. *)
Definition ko_validate (ko : KnowledgeObject) : KResult unit :=
  if is_blank (type_name (ko_metadata ko)) then KErr (InvalidObject "metadata.type_name must be non-empty")
  else if is_blank (owner (ko_security ko)) then KErr (InvalidObject "security.owner must be non-empty")
  else if existsb is_blank (tags (ko_metadata ko)) then KErr (InvalidObject "metadata.tags must not contain empty entries")
  else if existsb (fun r => is_blank (rel_type r)) (ko_relationships ko) then KErr (InvalidObject "relationships[].rel_type must be non-empty")
  else if existsb (fun a => is_blank (principal a)) (acl (ko_security ko)) then KErr (InvalidObject "security.acl[].principal must be non-empty")
  else KOk tt.

(* ------------------------------------------------------------------ *)
(** * Clock, idempotency scope, audit hash *)

(** [Hlc::now], [Hlc::observe]: the packed time is [ms << 16 | counter]. *)
Definition hlc_now (last ms : Z) : Z := if last / 2 ^ 16 <? ms then (ms * 2 ^ 16) mod U64 else (last + 1) mod U64.
Definition hlc_observe (last ts : Z) : Z := Z.max last ts.

(** [idem_scope]. *)
Definition idem_scope (tenant : option bytes) (key : bytes) : bytes :=
  match tenant with Some (c :: t) => (c :: t) ++ [x00] ++ key | _ => key end.

(** The preimage of [audit_hash_of]. *)
Definition audit_preimage (prev : bytes) (seq : Z) (k : KOID) (version : Z) (kind : EventKind.t) (commit_ts : Z) (payload_hash : bytes)
    (signature : option bytes) (actor : bytes) (note : option bytes) : bytes :=
  prev ++ e_u64 seq ++ koid_bytes k ++ e_u64 version ++ e_u8 (EventKind.tag kind) ++ e_u64 commit_ts ++ payload_hash ++
  e_opt_raw signature ++ e_str actor ++ e_opt_str note.
Definition audit_hash_of `{Sha256} (prev : bytes) (seq : Z) (k : KOID) (version : Z) (kind : EventKind.t) (commit_ts : Z) (payload_hash : bytes)
    (signature : option bytes) (actor : bytes) (note : option bytes) : bytes :=
  sha256 (audit_preimage prev seq k version kind commit_ts payload_hash signature actor note).

(* ------------------------------------------------------------------ *)
(** * Tenant counters *)

(** [TenantManager]: the counts ([usage], [record_create], [record_delete], [rebuild],
    [load], [usage_rows]) and the quotas ([check_create]); no tenant is ["default"]. *)
Definition DEFAULT_TENANT : bytes := [x64; x65; x66; x61; x75; x6c; x74].
Definition tenant_name (t : option bytes) : bytes := default DEFAULT_TENANT t.
Abbreviation Usage := (gmap bytes Z).
Definition usage_of (u : Usage) (t : bytes) : Z := default 0 (u !! t).
Definition record_create (u : Usage) (t : option bytes) : Usage := <[tenant_name t := usage_of u (tenant_name t) + 1]> u.
Definition record_delete (u : Usage) (t : option bytes) : Usage :=
  match u !! tenant_name t with Some c => <[tenant_name t := Z.max 0 (c - 1)]> u | None => u end.
Definition usage_rebuild (heads : list (KOID * Z * Z * LifecycleState.t)) (resolver : KOID -> Z -> option bytes) : Usage :=
  fold_left (fun u h => let '(k, _, ts, st) := h in if bool_decide (st = LifecycleState.Deleted) then u else record_create u (resolver k ts)) heads ∅.
Definition check_create (quotas : gmap bytes Z) (u : Usage) (t : option bytes) : KResult unit :=
  match quotas !! tenant_name t with
  | Some max => if max <=? usage_of u (tenant_name t) then KErr (InvalidObject "quota exceeded") else KOk tt
  | None => KOk tt
  end.

(* ------------------------------------------------------------------ *)
(** * The kernel *)

Record Pipeline : Type := mkPipeline { p_seq : Z; p_audit : bytes; p_prev_sig : bytes; p_pair_pin : option Z }.
Definition ZERO32 : bytes := repeat x00 32.
Definition ZERO64 : bytes := repeat x00 64.
Definition KOID_ZERO : KOID := mkKOID (repeat x00 16).

(** The state a commit changes; [k_sent] are the events handed to the subscribers. *)
Record Kernel (E : Type) : Type := mkKernel {
  k_repo : Repo E; k_hlc : Z; k_pipe : Pipeline; k_usage : Usage; k_sent : list KnowledgeEvent }.
Arguments mkKernel {_} _ _ _ _ _.
Arguments k_repo {_} _.
Arguments k_hlc {_} _.
Arguments k_pipe {_} _.
Arguments k_usage {_} _.
Arguments k_sent {_} _.

Definition KM (E A : Type) : Type := Kernel E -> Kernel E * KResult A.
#[global] Instance KM_ret E : MRet (KM E) := fun A a k => (k, KOk a).
#[global] Instance KM_bind E : MBind (KM E) := fun A B f m k =>
  match m k with (k, KOk a) => f a k | (k, KErr e) => (k, KErr e) | (k, KPanic) => (k, KPanic) end.
Definition klift {E A} (x : KResult A) : KM E A := fun k => (k, x).
Definition kget {E A} (f : Kernel E -> A) : KM E A := fun k => (k, KOk (f k)).
Definition kset {E} (f : Kernel E -> Kernel E) : KM E unit := fun k => (f k, KOk tt).
Definition set_repo {E} (k : Kernel E) (r : Repo E) : Kernel E := mkKernel r (k_hlc k) (k_pipe k) (k_usage k) (k_sent k).
Definition set_hlc {E} (k : Kernel E) (z : Z) : Kernel E := mkKernel (k_repo k) z (k_pipe k) (k_usage k) (k_sent k).
Definition set_pipe {E} (k : Kernel E) (p : Pipeline) : Kernel E := mkKernel (k_repo k) (k_hlc k) p (k_usage k) (k_sent k).
Definition set_usage {E} (k : Kernel E) (u : Usage) : Kernel E := mkKernel (k_repo k) (k_hlc k) (k_pipe k) u (k_sent k).
Definition on_repo {E A} (m : RM E A) : KM E A := fun k => let '(r, x) := m (k_repo k) in (set_repo k r, x).
Definition broadcast {E} (ke : KnowledgeEvent) : KM E unit := kset (fun k => mkKernel (k_repo k) (k_hlc k) (k_pipe k) (k_usage k) (k_sent k ++ [ke])).
Definition tick {E} (ms : Z) : KM E Z := fun k => let ts := hlc_now (k_hlc k) ms in (set_hlc k ts, KOk ts).

(** [removed.iter().position(..)] and [swap_remove]: the edges of the previous version that
    the new one lacks, counted with multiplicity. *)
#[global] Instance RelationshipRef_eq_dec : EqDecision RelationshipRef.
Proof. solve_decision. Defined.
Fixpoint position {A} `{EqDecision A} (x : A) (l : list A) : option nat :=
  match l with [] => None | y :: l => if bool_decide (y = x) then Some 0%nat else S <$> position x l end.
Definition swap_remove {A} (i : nat) (l : list A) : list A :=
  match last l with Some z => removelast (<[i := z]> l) | None => l end.
Definition removed_edges (prev new : list RelationshipRef) : list RelationshipRef :=
  fold_left (fun rem rel => match position rel rem with Some i => swap_remove i rem | None => rem end) new prev.

Definition put_edges (b : WriteBatch) (k : KOID) (rels : list RelationshipRef) : WriteBatch :=
  fold_left (fun b rel => let '(src, rt, dst) := edge_of k rel in write_rel_index b src rt dst) rels b.
Definition del_edges (b : WriteBatch) (k : KOID) (rels : list RelationshipRef) : WriteBatch :=
  fold_left (fun b rel => let '(src, rt, dst) := edge_of k rel in del_rel_index b src rt dst) rels b.

(** [ko.commit_ts = ..; ko.event_refs.push(..)]. *)
Definition stamp (ko : KnowledgeObject) (commit_ts seq : Z) (kind : EventKind.t) : KnowledgeObject :=
  mkKnowledgeObject (ko_koid ko) (ko_version ko) commit_ts (ko_metadata ko) (ko_properties ko) (ko_semantic ko) (ko_relationships ko)
    (ko_event_refs ko ++ [mkEventRef seq kind commit_ts]) (ko_security ko) (ko_lifecycle ko) (ko_extensions ko).

Definition IDEM_KIND_REMEMBER : Z := 0.

Section Kernel.
Context {E : Type} `{StorageEngine E} `{Sha256}.
Context (hmac_sha256 : bytes -> bytes -> bytes) (signer : option (bytes -> bytes)) (signing_key : option bytes).
Context (authorize : KnowledgeObject -> Action.t -> KResult unit).

Definition sign_audit_event (prev_sig audit : bytes) : option bytes := (fun sign => sign (prev_sig ++ audit)) <$> signer.
Definition version_signature (payload : bytes) : option bytes := (fun key => hmac_sha256 key payload) <$> signing_key.

(** The event of one version, chained to the previous audit hash and signature. *)
Definition version_event (prev_audit prev_sig : bytes) (seq : Z) (k : KOID) (version : Z) (kind : EventKind.t) (origin : Origin.t)
    (actor : bytes) (commit_ts : Z) (payload : bytes) (note : option bytes) : KnowledgeEvent :=
  let payload_hash := sha256 payload in
  let signature := version_signature payload in
  let audit := audit_hash_of prev_audit seq k version kind commit_ts payload_hash signature actor note in
  mkKnowledgeEvent seq k version kind origin actor commit_ts payload_hash prev_audit audit signature (sign_audit_event prev_sig audit) note.
Definition next_sig (ke : KnowledgeEvent) : bytes := default ZERO64 (ke_audit_signature ke).

(** [commit_version]. *)
Definition commit_version (ms : Z) (ko : KnowledgeObject) (kind : EventKind.t) (origin : Origin.t) (actor : bytes) (note : option bytes)
    (idem : option bytes) (prev_rels : option (list RelationshipRef)) (usage : option (bytes * Z)) : KM E (Z * Z) :=
  _ ← klift (ko_validate ko);
  pipe ← kget k_pipe;
  commit_ts ← match p_pair_pin pipe with Some ts => mret ts | None => tick ms end;
  let seq := (p_seq pipe + 1) mod U64 in
  let ko := stamp ko commit_ts seq kind in
  let ke := version_event (p_audit pipe) (p_prev_sig pipe) seq (ko_koid ko) (ko_version ko) kind origin actor commit_ts (encode_ko ko) note in
  _ ← (fun k =>
    let '(r, b) := put_object_version (k_repo k) wb_new (ko_koid ko) commit_ts ko in
    let b := put_edges b (ko_koid ko) (ko_relationships ko) in
    let b := match prev_rels with Some prev => del_edges b (ko_koid ko) (removed_edges prev (ko_relationships ko)) | None => b end in
    let '(r, b) := put_head r b (ko_koid ko) (ko_version ko) commit_ts (lc_state (ko_lifecycle ko)) in
    let b := write_type_index b (type_name (ko_metadata ko)) (ko_koid ko) in
    let b := put_event b seq ke in
    let b := put_journal b seq (ke_audit_hash ke) commit_ts in
    let b := wb_put b USAGE_HEAD_KEY (usage_head seq commit_ts) in
    let b := match usage with Some (tenant, count) => wb_put b (usage_row_key tenant) (le_bytes 8 count) | None => b end in
    let b := match idem with Some key => put_idem b key (ko_koid ko) (ko_version ko) commit_ts IDEM_KIND_REMEMBER | None => b end in
    let '(r, x) := repo_write_batch r b in (set_repo k r, x));
  _ ← kset (fun k => set_pipe k (mkPipeline seq (ke_audit_hash ke) (next_sig ke) (p_pair_pin pipe)));
  _ ← broadcast ke;
  mret (commit_ts, seq).

(** [transact_inner], phase 3: one timestamp, consecutive sequences, one batch.  A pending
    version is the object, the event's kind, origin, actor and note, and the previous edges;
    the last argument is the journal's companions: tenants created, schema and outcome rows. *)
Record Pending : Type := mkPending {
  pd_ko : KnowledgeObject; pd_kind : EventKind.t; pd_origin : Origin.t; pd_actor : bytes; pd_note : option bytes; pd_prev : list RelationshipRef }.
Fixpoint transact_loop (commit_ts : Z) (ps : list Pending) (seq : Z) (prev_audit prev_sig : bytes) (r : Repo E) (b : WriteBatch)
    : Repo E * KResult (WriteBatch * list KnowledgeEvent * bytes * bytes) :=
  match ps with
  | [] => (r, KOk (b, [], prev_audit, prev_sig))
  | p :: ps =>
      let ko := stamp (pd_ko p) commit_ts seq (pd_kind p) in
      match ko_validate ko with
      | KOk _ =>
          let ke := version_event prev_audit prev_sig seq (ko_koid ko) (ko_version ko) (pd_kind p) (pd_origin p) (pd_actor p) commit_ts (encode_ko ko) (pd_note p) in
          let '(r, b) := put_object_version r b (ko_koid ko) commit_ts ko in
          let '(r, b) := put_head r b (ko_koid ko) (ko_version ko) commit_ts (lc_state (ko_lifecycle ko)) in
          let b := put_edges b (ko_koid ko) (ko_relationships ko) in
          let b := del_edges b (ko_koid ko) (removed_edges (pd_prev p) (ko_relationships ko)) in
          let b := write_type_index b (type_name (ko_metadata ko)) (ko_koid ko) in
          let b := put_event b seq ke in
          let '(r, x) := transact_loop commit_ts ps ((seq + 1) mod U64) (ke_audit_hash ke) (next_sig ke) r b in
          (r, '(b, kes, audit, sig) ← x; KOk (b, ke :: kes, audit, sig))
      | KErr e => (r, KErr e)
      | KPanic => (r, KPanic)
      end
  end.

(** [forget]. *)
Inductive ForgetMode : Type := Tombstone | Erase.
Definition head_object (k : KOID) : RM E (option KnowledgeObject) :=
  h ← get_head k; match h with Some (_, ts, _) => get_object_version k ts | None => mret None end.
Definition with_lifecycle (ko : KnowledgeObject) (version : Z) (l : Lifecycle) : KnowledgeObject :=
  mkKnowledgeObject (ko_koid ko) version (ko_commit_ts ko) (ko_metadata ko) (ko_properties ko) (ko_semantic ko) (ko_relationships ko)
    (ko_event_refs ko) (ko_security ko) l (ko_extensions ko).
Definition authorized_head (koid : KOID) (action : Action.t) : KM E KnowledgeObject :=
  o ← on_repo (head_object koid);
  head ← klift (match o with Some h => KOk h | None => KErr (NotFound koid) end);
  _ ← klift (authorize head action);
  mret head.
Definition current_head (koid : KOID) (action : Action.t) (expected_version : option Z) : KM E KnowledgeObject :=
  head ← authorized_head koid action;
  let expected := default (ko_version head) expected_version in
  if expected =? ko_version head then mret head else klift (KErr (VersionConflict koid expected (ko_version head))).
Definition erase (ms : Z) (koid : KOID) (head : KnowledgeObject) (actor : bytes) (note : option bytes) : KM E (Z * Z) :=
  versions ← on_repo (on_engine (fun e => scan_object_versions e koid));
  commit_ts ← tick ms;
  pipe ← kget k_pipe;
  usage ← kget k_usage;
  let seq := (p_seq pipe + 1) mod U64 in
  let payload := encode_ko head in
  let ke := version_event (p_audit pipe) (p_prev_sig pipe) seq koid (ko_version head) EventKind.Forgotten Origin.System actor commit_ts payload note in
  let t := tenant_name (tenant (ko_metadata head)) in
  _ ← (fun k =>
    let b := put_event wb_new seq ke in
    let b := put_journal b seq (ke_audit_hash ke) commit_ts in
    let b := wb_put b USAGE_HEAD_KEY (usage_head seq commit_ts) in
    let b := wb_put b (usage_row_key t) (le_bytes 8 (Z.max 0 (usage_of usage t - 1))) in
    let b := put_tombstone b koid (sha256 payload) seq in
    let '(r, b) := delete_head (k_repo k) b koid in
    let b := delete_type_index b (type_name (ko_metadata head)) koid in
    let '(r, b) := fold_left (fun x v => delete_object_version x.1 x.2 koid v.1) versions (r, b) in
    let '(r, x) := repo_write_batch r b in (set_repo k r, x));
  _ ← kset (fun k => set_usage k (record_delete (k_usage k) (tenant (ko_metadata head))));
  _ ← kset (fun k => set_pipe k (mkPipeline seq (ke_audit_hash ke) (next_sig ke) (p_pair_pin pipe)));
  _ ← broadcast ke;
  mret (ko_version head, commit_ts).
Definition forget (ms : Z) (koid : KOID) (mode : ForgetMode) (expected_version : option Z) (actor : bytes) (note : option bytes) : KM E (Z * Z) :=
  head ← current_head koid Action.Delete expected_version;
  match mode with
  | Tombstone =>
      usage ← kget k_usage;
      let ko := with_lifecycle head ((ko_version head + 1) mod U64) (mkLifecycle LifecycleState.Deleted Origin.System) in
      let t := tenant_name (tenant (ko_metadata head)) in
      '(commit_ts, _) ← commit_version ms ko EventKind.Forgotten Origin.System actor note None (Some (ko_relationships head))
        (Some (t, Z.max 0 (usage_of usage t - 1)));
      _ ← kset (fun k => set_usage k (record_delete (k_usage k) (tenant (ko_metadata head))));
      mret ((ko_version head + 1) mod U64, commit_ts)
  | Erase => erase ms koid head actor note
  end.

(** [evolve], with [push_lifecycle_history]. *)
Definition state_name (s : LifecycleState.t) : bytes :=
  list_byte_of_string
    match s with
    | LifecycleState.Draft => "draft" | LifecycleState.Active => "active" | LifecycleState.Verified => "verified"
    | LifecycleState.Archived => "archived" | LifecycleState.Deleted => "deleted" | LifecycleState.Discovered => "discovered"
    | LifecycleState.Extracted => "extracted" | LifecycleState.Proposed => "proposed" | LifecycleState.Validated => "validated"
    | LifecycleState.Accepted => "accepted" | LifecycleState.Updated => "updated" | LifecycleState.Superseded => "superseded"
    end.
Definition EXT_LIFECYCLE_HISTORY : bytes := list_byte_of_string "lifecycle_history".
Definition as_i64 (z : Z) : Z := if z mod U64 <? 2 ^ 63 then z mod U64 else z mod U64 - U64.
(** The record both histories append: from, to, at, by and, where given, the reason. *)
Definition history_entry (from to : bytes) (at_millis : Z) (by_ : bytes) (reason : option bytes) : PropertyMap :=
  let put k v m := btree_insert m (list_byte_of_string k) v in
  let entry := put "by" (VText by_) (put "at" (VInt (as_i64 at_millis)) (put "to" (VText to) (put "from" (VText from) []))) in
  match reason with Some r => put "reason" (VText r) entry | None => entry end.
Definition push_history (ext : PropertyMap) (key : bytes) (entry : PropertyMap) : PropertyMap :=
  match btree_get ext key with
  | Some (VList l) => btree_insert ext key (VList (l ++ [VMap entry]))
  | _ => btree_insert ext key (VList [VMap entry])
  end.
Definition push_lifecycle_history (ext : PropertyMap) (from to : LifecycleState.t) (at_millis : Z) (by_ : bytes) (reason : option bytes) : PropertyMap :=
  push_history ext EXT_LIFECYCLE_HISTORY (history_entry (state_name from) (state_name to) at_millis by_ reason).
Definition evolve (at_ms ms : Z) (koid : KOID) (to : LifecycleState.t) (origin : Origin.t) (expected_version : option Z) (actor : bytes)
    (note : option bytes) : KM E (Z * Z) :=
  head ← authorized_head koid Action.Evolve;
  let from := lc_state (ko_lifecycle head) in
  _ ← klift (if LifecycleState.can_transition from to then KOk tt else KErr (InvalidState from to));
  let expected := default (ko_version head) expected_version in
  _ ← klift (if expected =? ko_version head then KOk tt else KErr (VersionConflict koid expected (ko_version head)));
  let ko := with_lifecycle head ((ko_version head + 1) mod U64) (mkLifecycle to origin) in
  let ko := mkKnowledgeObject (ko_koid ko) (ko_version ko) (ko_commit_ts ko) (ko_metadata ko) (ko_properties ko) (ko_semantic ko) (ko_relationships ko)
    (ko_event_refs ko) (ko_security ko) (ko_lifecycle ko) (push_lifecycle_history (ko_extensions ko) from to at_ms actor note) in
  '(commit_ts, _) ← commit_version ms ko EventKind.LifecycleChanged origin actor note None (Some (ko_relationships head)) None;
  mret ((ko_version head + 1) mod U64, commit_ts).

(** [record_audit]. *)
Definition record_audit (ms : Z) (note : bytes) : KM E unit :=
  commit_ts ← tick ms;
  pipe ← kget k_pipe;
  let seq := (p_seq pipe + 1) mod U64 in
  let actor := list_byte_of_string "kernel" in
  let audit := audit_hash_of (p_audit pipe) seq KOID_ZERO 0 EventKind.Audit commit_ts ZERO32 None actor (Some note) in
  let ke := mkKnowledgeEvent seq KOID_ZERO 0 EventKind.Audit Origin.System actor commit_ts ZERO32 (p_audit pipe) audit None
    (sign_audit_event (p_prev_sig pipe) audit) (Some note) in
  _ ← (fun k =>
    let b := put_event wb_new seq ke in
    let b := put_journal b seq audit commit_ts in
    let b := wb_put b USAGE_HEAD_KEY (usage_head seq commit_ts) in
    let '(r, x) := repo_write_batch (k_repo k) b in (set_repo k r, x));
  _ ← kset (fun k => set_pipe k (mkPipeline seq audit (next_sig ke) (p_pair_pin pipe)));
  broadcast ke.

(** [transact_inner], phase 3 to the end of the lock. *)
Definition transact_commit (ms : Z) (ps : list Pending) (created : list (option bytes)) (schema_row txn_row : option (bytes * bytes)) : KM E (list KnowledgeEvent) :=
  commit_ts ← tick ms;
  pipe ← kget k_pipe;
  usage ← kget k_usage;
  let seq := (p_seq pipe + 1) mod U64 in
  '(kes, audit, sig) ← (fun k =>
    match transact_loop commit_ts ps seq (p_audit pipe) (p_prev_sig pipe) (k_repo k) wb_new with
    | (r, KOk (b, kes, audit, sig)) =>
        let final := (p_seq pipe + zlen kes) mod U64 in
        let b := put_journal b final audit commit_ts in
        let b := wb_put b USAGE_HEAD_KEY (usage_head final commit_ts) in
        let counts := fold_left record_create created ∅ in
        let b := fold_left (fun b x => wb_put b (usage_row_key x.1) (le_bytes 8 (usage_of usage x.1 + x.2))) (map_to_list counts) b in
        let b := match schema_row with Some (ty, v) => put_schema_row b ty v | None => b end in
        let b := match txn_row with Some (tid, v) => put_txn_record b tid v | None => b end in
        let '(r, x) := repo_write_batch r b in
        (set_repo k r, match x with KOk _ => KOk (kes, audit, sig) | KErr e => KErr e | KPanic => KPanic end)
    | (r, KErr e) => (set_repo k r, KErr e)
    | (r, KPanic) => (set_repo k r, KPanic)
    end);
  _ ← kset (fun k => set_usage k (fold_left record_create created (k_usage k)));
  _ ← kset (fun k => set_pipe k (mkPipeline ((p_seq pipe + zlen kes) mod U64) audit sig (p_pair_pin pipe)));
  _ ← foldr (fun ke m => _ ← broadcast ke; m) (mret tt) kes;
  mret kes.

(* ------------------------------------------------------------------ *)
(** * Opening, following, proving *)

(** [open_with]: the pipeline, the clock and the id generator resume from the journal. *)
Definition open_pipeline (e : E) : KResult (Pipeline * Z) :=
  o ← journal_head e;
  let '(seq, audit, last_ts) := default (0, ZERO32, 0) o in
  KOk (mkPipeline seq audit ZERO64 None, last_ts).
Definition open_idgen (id_seed last_ts : Z) : IdGen :=
  if 0 <? last_ts then skip_past (idgen_new id_seed) (last_ts / 2 ^ 16) else idgen_new id_seed.

(** [catch_up] of a standby: the head moves to the journal's, later events are broadcast. *)
Definition catch_up : KM E Z :=
  o ← on_repo (on_engine journal_head);
  match o with
  | None => mret 0
  | Some (head, audit, last_ts) =>
      pipe ← kget k_pipe;
      if head <=? p_seq pipe then mret (p_seq pipe)
      else
        events ← on_repo (on_engine (fun e => scan_events_after e (p_seq pipe)));
        _ ← kset (fun k => set_pipe k (mkPipeline head audit (p_prev_sig pipe) (p_pair_pin pipe)));
        _ ← kset (fun k => set_hlc k (hlc_observe (k_hlc k) last_ts));
        _ ← foldr (fun ke m => _ ← broadcast ke; m) (mret tt) (List.filter (fun ke => ke_seq ke <=? head) events);
        mret head
  end.

(** [prove]: the chain over every event, each payload against its hash. *)
Record Proof_ : Type := mkProof { pr_claim : KOID; pr_events : Z; pr_chain_valid : bool; pr_head : bytes; pr_signatures : bool }.
Definition event_hash (prev : bytes) (ke : KnowledgeEvent) : bytes :=
  audit_hash_of prev (ke_seq ke) (ke_koid ke) (ke_version ke) (ke_kind ke) (ke_commit_ts ke) (ke_payload_hash ke) (ke_signature ke) (ke_actor ke) (ke_note ke).
Record Walk : Type := mkWalk { w_prev : bytes; w_valid : bool; w_count : Z; w_sigs : bool; w_signed : Z }.
Fixpoint prove_loop (kes : list KnowledgeEvent) (w : Walk) : RM E Walk :=
  match kes with
  | [] => mret w
  | ke :: kes =>
      let stop := mkWalk (w_prev w) false (w_count w) (w_sigs w) (w_signed w) in
      if negb (slice_eqb (event_hash (w_prev w) ke) (ke_audit_hash ke)) || negb (slice_eqb (ke_prev_audit_hash ke) (w_prev w)) then mret stop
      else
        o ← get_object_version (ke_koid ke) (ke_commit_ts ke);
        match o with
        | Some ko =>
            let payload := encode_ko ko in
            if negb (slice_eqb (sha256 payload) (ke_payload_hash ke)) then mret stop
            else
              let '(sigs, signed) :=
                match ke_signature ke with
                | Some sg =>
                    (match signing_key with Some key => if slice_eqb (hmac_sha256 key payload) sg then w_sigs w else false | None => w_sigs w end, w_signed w + 1)
                | None => (w_sigs w, w_signed w)
                end in
              prove_loop kes (mkWalk (ke_audit_hash ke) true (w_count w + 1) sigs signed)
        | None =>
            gone ← (if bool_decide (ke_kind ke = EventKind.Audit) then mret true else o ← on_engine (fun e => get_tombstone e (ke_koid ke)); mret (bool_decide (is_Some o)));
            if (gone : bool) then prove_loop kes (mkWalk (ke_audit_hash ke) true (w_count w + 1) (w_sigs w) (w_signed w)) else mret stop
        end
  end.
Definition prove (claim : KOID) : RM E Proof_ := fun r =>
  match head_object claim r with
  | (r, KOk None) => (r, KErr (NotFound claim))
  | (r, KErr (Codec _)) => (r, KOk (mkProof claim 0 false ZERO32 false))
  | (r, KErr e) => (r, KErr e)
  | (r, KPanic) => (r, KPanic)
  | (r, KOk (Some head)) =>
      (_ ← lift (authorize head Action.Read);
       kes ← on_engine scan_events;
       w ← prove_loop kes (mkWalk ZERO32 true 0 true 0);
       valid ← (if w_valid w then j ← on_engine journal_head; mret (match j with Some (_, audit, _) => slice_eqb audit (w_prev w) | None => true end) else mret false);
       mret (mkProof claim (w_count w) valid (w_prev w) (match signing_key with None => true | Some _ => w_sigs w && (0 <? w_signed w) end))) r
  end.
End Kernel.
