(* ===== verification/CommitInv.v ===== *)
(** The audit chain: what it protects, and the order of the journal's events; then the
    invariant of the kernel's state. *)

From stdpp Require Import gmap.
From S2P Require Import Prelude Format Memtable Kom Codec CodecProps Store Repository RepositorySpec RepositoryReads Commit.

(* ------------------------------------------------------------------ *)
(** * The preimage determines the fields *)

(** What the audit hash covers of an event. *)
Definition audited (ke : KnowledgeEvent) : Z * KOID * Z * EventKind.t * Z * bytes * option bytes * bytes * option bytes :=
  (ke_seq ke, ke_koid ke, ke_version ke, ke_kind ke, ke_commit_ts ke, ke_payload_hash ke, ke_signature ke, ke_actor ke, ke_note ke).
Definition event_preimage (prev : bytes) (ke : KnowledgeEvent) : bytes :=
  audit_preimage prev (ke_seq ke) (ke_koid ke) (ke_version ke) (ke_kind ke) (ke_commit_ts ke) (ke_payload_hash ke) (ke_signature ke) (ke_actor ke) (ke_note ke).
Definition dec_preimage : KD (bytes * (Z * KOID * Z * EventKind.t * Z * bytes * option bytes * bytes * option bytes)) :=
  prev ← d_take 32; sq ← d_u64; k ← d_koid; v ← d_u64; kd ← dec_tag EventKind.from_tag; ts ← d_u64; ph ← d_take 32; sg ← d_opt_raw 32; a ← d_str; nt ← d_opt_str;
  mret (prev, (sq, k, v, kd, ts, ph, sg, a, nt)).
Lemma kreads_preimage prev ke : len_is 32 prev = true -> ke_wf ke = true -> kreads dec_preimage (event_preimage prev ke) (prev, audited ke).
Proof. destruct ke. unfold ke_wf. cbn. intros Hp H. bool_to_prop. unfold dec_preimage, event_preimage, audit_preimage, audited. cbn. kread. Qed.
Lemma preimage_inj prev prev' ke ke' :
  len_is 32 prev = true -> len_is 32 prev' = true -> ke_wf ke = true -> ke_wf ke' = true -> zlen (event_preimage prev ke) < USIZE ->
  event_preimage prev ke = event_preimage prev' ke' -> prev = prev' /\ audited ke = audited ke'.
Proof.
  intros Hp Hp' Hk Hk' Hu E. pose proof (run_plain _ _ _ (kreads_preimage prev ke Hp Hk) Hu) as R1.
  rewrite E in R1, Hu. rewrite (run_plain _ _ _ (kreads_preimage prev' ke' Hp' Hk') Hu) in R1. revert R1. generalize (audited ke), (audited ke'). by intros ? ? [= -> ->].
Qed.

Section Chain.
Context `{Sha256}.

(** The chain [prove] checks: each event carries the previous hash and its own. *)
Fixpoint chain (prev : bytes) (evs : list KnowledgeEvent) (last : bytes) : Prop :=
  match evs with
  | [] => last = prev
  | ke :: evs => ke_prev_audit_hash ke = prev /\ ke_audit_hash ke = event_hash prev ke /\ chain (ke_audit_hash ke) evs last
  end.
Lemma chain_app prev evs evs' mid last : chain prev evs mid -> chain mid evs' last -> chain prev (evs ++ evs') last.
Proof. revert prev. induction evs as [|ke evs IH]; cbn; [by intros prev -> | intros prev (? & ? & ?) ?; auto]. Qed.
Lemma chain_snoc prev evs ke last : chain prev (evs ++ [ke]) last ->
  exists mid, chain prev evs mid /\ ke_prev_audit_hash ke = mid /\ ke_audit_hash ke = event_hash mid ke /\ last = ke_audit_hash ke.
Proof.
  revert prev. induction evs as [|e evs IH]; cbn; intros prev; [naive_solver|]. intros (? & ? & (mid & ? & ?)%IH). exists mid. naive_solver.
Qed.
Lemma event_hash_len prev ke : len_is 32 (event_hash prev ke) = true.
Proof. apply len_is_iff, sha256_len. Qed.
Lemma chain_last_len prev evs last : len_is 32 prev = true -> chain prev evs last -> len_is 32 last = true.
Proof. revert prev. induction evs as [|ke evs IH]; cbn; [by intros prev ? -> | intros prev Hp (_ & -> & Hc)]. eapply IH; [|exact Hc]. apply event_hash_len. Qed.

(** What the events of a journal hash, and two journals in which SHA-256 does not break: no
    two different inputs among them have one hash, none hashes to the zeros a chain starts from. *)
Definition preimages (evs : list KnowledgeEvent) : list bytes := map (fun ke => event_preimage (ke_prev_audit_hash ke) ke) evs.
Definition sha_sound (xs ys : list bytes) : Prop :=
  (forall x y, x ∈ xs -> y ∈ ys -> sha256 x = sha256 y -> x = y) /\ forall x, x ∈ xs ++ ys -> sha256 x <> ZERO32.
Lemma sha_sound_init xs x ys y : sha_sound (xs ++ [x]) (ys ++ [y]) -> sha_sound xs ys.
Proof. intros [Hi Hz]. split; [intros; apply Hi; set_solver | intros; apply Hz; set_solver]. Qed.
Definition journal_wf (evs : list KnowledgeEvent) : Prop := Forall (fun ke => ke_wf ke = true /\ zlen (event_preimage ZERO32 ke) < USIZE) evs.
Lemma preimage_len prev prev' ke : len_is 32 prev = true -> len_is 32 prev' = true -> zlen (event_preimage prev ke) = zlen (event_preimage prev' ke).
Proof. intros ?%len_is_iff ?%len_is_iff. unfold event_preimage, audit_preimage. rewrite !zlen_app. lia. Qed.

(** C18: the audit chain is tamper evident: two journals that both pass the chain check and end
    in the same head hash agree, event for event, on every field the hash covers (sequence,
    object, version, kind, commit time, payload hash, signature, actor, note), unless among the
    very strings the two journals hash there is a SHA-256 collision or one that hashes to zero. *)
Theorem chain_tamper_evident evs evs' last :
  journal_wf evs -> journal_wf evs' -> sha_sound (preimages evs) (preimages evs') -> chain ZERO32 evs last -> chain ZERO32 evs' last ->
  map audited evs = map audited evs'.
Proof.
  revert evs' last. induction evs as [|ke evs IH] using rev_ind; intros evs' last Hw Hw' Hs Hc Hc'.
  - destruct evs' as [|ke' evs' _] using rev_ind; [done|]. exfalso. change (last = ZERO32) in Hc. subst last. apply chain_snoc in Hc' as (mid & _ & Ep & Eh & El).
    apply (proj2 Hs (event_preimage mid ke')); [|rewrite El; symmetry; exact Eh]. unfold preimages. rewrite map_app. cbn. rewrite Ep. set_solver.
  - apply chain_snoc in Hc as (mid & Hc & Ep & Eh & ->). unfold preimages in Hs. rewrite map_app in Hs. cbn [map] in Hs. rewrite Ep in Hs. destruct evs' as [|ke' evs' _] using rev_ind.
    { exfalso. change (ke_audit_hash ke = ZERO32) in Hc'. apply (proj2 Hs (event_preimage mid ke)); [set_solver|]. rewrite <-Hc'. symmetry. exact Eh. }
    apply chain_snoc in Hc' as (mid' & Hc' & Ep' & Eh' & El). rewrite Eh, Eh' in El. apply Forall_app in Hw as [Hw [[Hk Hu] _]%Forall_cons], Hw' as [Hw' [[Hk' _] _]%Forall_cons].
    rewrite map_app in Hs. cbn [map] in Hs. rewrite Ep' in Hs.
    assert (event_preimage mid ke = event_preimage mid' ke') as E by (apply (proj1 Hs); [set_solver.. | exact El]).
    apply chain_last_len in Hc as Hm; [|done]. apply chain_last_len in Hc' as Hm'; [|done]. rewrite (preimage_len _ mid) in Hu by done.
    apply preimage_inj in E as [-> Ea]; [|done..]. apply sha_sound_init in Hs. rewrite !map_app, (IH evs' mid' Hw Hw' Hs Hc Hc'). cbn [map]. by rewrite Ea.
Qed.

(** The hash covers neither the origin of an event nor its chained signature. *)
Definition set_origin (o : Origin.t) (ke : KnowledgeEvent) : KnowledgeEvent :=
  mkKnowledgeEvent (ke_seq ke) (ke_koid ke) (ke_version ke) (ke_kind ke) o (ke_actor ke) (ke_commit_ts ke) (ke_payload_hash ke) (ke_prev_audit_hash ke)
    (ke_audit_hash ke) (ke_signature ke) (ke_audit_signature ke) (ke_note ke).
Lemma chain_ignores_origin o prev evs last : chain prev evs last <-> chain prev (map (set_origin o) evs) last.
Proof. revert prev. induction evs as [|ke evs IH]; intros prev; cbn; [done|]. unfold event_hash. cbn. by rewrite IH. Qed.
End Chain.

(* ------------------------------------------------------------------ *)
(** * Idempotency scopes *)

(** Two scopes meet in one key only through a NUL byte. *)
Lemma idem_scope_collides t c key : idem_scope (Some (c :: t)) key = idem_scope None ((c :: t) ++ [x00] ++ key).
Proof. done. Qed.
Definition nul_free (s : bytes) : bool := forallb (fun b => negb (bool_decide (b = x00))) s.
Lemma nul_split a : forall b x y, nul_free a = true -> nul_free b = true -> a ++ x00 :: x = b ++ x00 :: y -> a = b /\ x = y.
Proof.
  unfold nul_free. induction a as [|c a IH]; intros [|d b] x y Ha Hb; cbn in *; bool_to_prop; destruct_and?; intros E; simplify_eq; [done|].
  destruct (IH b x y) as [-> ->]; done.
Qed.
Lemma nul_free_app a x : nul_free (a ++ [x00] ++ x) = false.
Proof. unfold nul_free. rewrite !forallb_app. cbn. apply andb_false_r. Qed.
Lemma idem_scope_inj t t' key key' :
  (forall x, t = Some x -> nul_free x = true /\ x <> []) -> (forall x, t' = Some x -> nul_free x = true /\ x <> []) -> nul_free key = true -> nul_free key' = true ->
  idem_scope t key = idem_scope t' key' -> t = t' /\ key = key'.
Proof.
  intros Ht Ht' Hk Hk'. destruct t as [[|c t]|]; [by destruct (Ht [] eq_refl)| |]; (destruct t' as [[|c' t']|]; [by destruct (Ht' [] eq_refl)| |]); cbn [idem_scope]; intros E.
  - apply nul_split in E as [[= -> ->] ->]; [done | by apply Ht | by apply Ht'].
  - rewrite <-E, nul_free_app in Hk'. done.
  - rewrite E, nul_free_app in Hk. done.
  - by subst.
Qed.

(* ================================================================== *)
(** The state the commit pipeline keeps: the journal of a kernel is a chain of numbered
    events, the pipeline is at its end, every event's payload is stored or erased. *)

(* ------------------------------------------------------------------ *)
(** * Events in journal order *)

Fixpoint numbered (n : Z) (evs : list KnowledgeEvent) : list (Z * KnowledgeEvent) :=
  match evs with [] => [] | ke :: evs => (n + 1, ke) :: numbered (n + 1) evs end.
Lemma numbered_elem evs : forall n q ke, (q, ke) ∈ numbered n evs <-> n + 1 <= q /\ evs !! Z.to_nat (q - n - 1) = Some ke.
Proof.
  induction evs as [|e evs IH]; intros n q ke; [cbn; rewrite elem_of_nil; naive_solver|]. cbn [numbered]. rewrite elem_of_cons, IH. split.
  - intros [[= -> ->]|[Hq Hl]]; [split; [lia|]; by replace (n + 1 - n - 1) with 0 by lia|]. split; [lia|].
    replace (Z.to_nat (q - n - 1)) with (S (Z.to_nat (q - (n + 1) - 1))) by lia. done.
  - intros [Hq Hl]. destruct (decide (q = n + 1)) as [->|Hne]; [left; replace (n + 1 - n - 1) with 0 in Hl by lia; by injection Hl as ->|]. right. split; [lia|].
    replace (Z.to_nat (q - n - 1)) with (S (Z.to_nat (q - (n + 1) - 1))) in Hl by lia. done.
Qed.
Lemma numbered_bound evs n q ke : (q, ke) ∈ numbered n evs -> n + 1 <= q <= n + zlen evs.
Proof. intros [Hq Hl]%numbered_elem. apply lookup_lt_Some in Hl. unfold zlen. lia. Qed.
Lemma numbered_snd n evs : map snd (numbered n evs) = evs.
Proof. revert n. induction evs as [|e evs IH]; intros n; [done|]. cbn. by rewrite IH. Qed.
Definition keyed_event (x : Z * KnowledgeEvent) : bytes * (Z * KnowledgeEvent) := (ke_key x.1, x).
Lemma ke_key_lt a b : fits_in U64 a = true -> fits_in U64 b = true -> a < b -> bytes_lt (ke_key a) (ke_key b).
Proof. intros Ha Hb Hlt. apply bytes_leb_false. rewrite ke_start by done. by apply Z.leb_gt. Qed.
Lemma numbered_sorted evs : forall n, 0 <= n -> n + zlen evs < U64 -> keys_sorted (map keyed_event (numbered n evs)).
Proof.
  unfold keys_sorted. induction evs as [|e evs IH]; intros n Hn Hu; [constructor|]. rewrite zlen_cons in Hu. pose proof (zlen_nonneg evs). cbn [numbered map].
  constructor; [apply IH; lia|]. apply Forall_fmap, Forall_forall. intros [q ke] Hq. apply numbered_bound in Hq. cbn. apply ke_key_lt; [apply fits_in_iff; lia.. | lia].
Qed.

(** A listing in the order of the keys of its rows. *)
Lemma listed_sorted {B} m s (sel : RowId * RowValue -> option B) (kf : B -> bytes) :
  represents m s -> (forall id v b, sel (id, v) = Some b -> kf b = row_key id) -> keys_sorted (map (fun b => (kf b, b)) (listed sel s)).
Proof.
  intros Hr Hk. unfold listed, sorted_rows. change (foldr _ _ _) with (keyed_rows s). pose proof (keyed_sorted s) as Hs.
  assert (forall y, y ∈ keyed_rows s -> y.1 = row_key y.2.1) as He by (intros [key x] Hy; by apply (keyed_elem m) in Hy as [_ ?]).
  unfold keys_sorted in *. induction Hs as [|[key [id v]] l Hl IH Hf]; [constructor|]. cbn [map omap list_omap snd]. specialize (IH ltac:(set_solver)).
  destruct (sel (id, v)) as [b|] eqn:Eb; [|exact IH]. cbn [map]. constructor; [exact IH|]. apply Forall_fmap, Forall_forall. intros b' Hb'. cbn.
  apply list_elem_of_omap in Hb' as ([id' v'] & Hx & Eb'). apply list_elem_of_fmap in Hx as ([key' x'] & Ex & Hx). cbn in Ex. subst x'. eapply Forall_forall in Hf; [|exact Hx].
  rewrite (Hk _ _ _ Eb), (Hk _ _ _ Eb'). pose proof (He (key, (id, v)) ltac:(set_solver)) as E1. pose proof (He (key', (id', v')) ltac:(set_solver)) as E2. cbn in *. by subst.
Qed.
Definition events_are (s : SpecState) (evs : list KnowledgeEvent) : Prop :=
  forall q v, s !! IdKe q = Some v <-> exists ke, v = VKe ke /\ (q, ke) ∈ numbered 0 evs.
Definition sel_numbered (x : RowId * RowValue) : option (Z * KnowledgeEvent) := match x with (IdKe q, VKe ke) => Some (q, ke) | _ => None end.
Lemma listed_events m s evs : represents m s -> events_are s evs -> zlen evs < U64 -> listed (sel_event 0) s = evs.
Proof.
  intros Hr He Hu. assert (listed sel_numbered s = numbered 0 evs) as Hn.
  { assert (map keyed_event (listed sel_numbered s) = map keyed_event (numbered 0 evs)) as Em.
    { apply sorted_elems_unique.
      - apply (listed_sorted m s sel_numbered (fun x => ke_key x.1)); [done|]. intros id v [q ke] Hs. destruct id; try done. destruct v; try done. by injection Hs as -> ->.
      - apply numbered_sorted; [lia | done].
      - assert (forall x, x ∈ listed sel_numbered s <-> x ∈ numbered 0 evs) as Hx.
        { intros [q ke]. unfold listed. rewrite list_elem_of_omap. split.
          - intros ([id v] & Hx & Hs). apply (sorted_rows_elem m) in Hx; [|done]. destruct id; try done. destruct v; try done. injection Hs as -> ->. cbn in Hx.
            apply He in Hx as (? & [= ->] & ?). done.
          - intros Hq. exists (IdKe q, VKe ke). split; [|done]. apply (sorted_rows_elem m); [done|]. apply He. eauto. }
        intros [k y]. rewrite !list_elem_of_fmap. split; intros (x & -> & Hin); exists x; (split; [done|]); by apply Hx. }
    apply (f_equal (map snd)) in Em. rewrite !map_map in Em. cbn in Em. by rewrite !map_id in Em. }
  assert (listed (sel_event 0) s = map snd (listed sel_numbered s)) as ->; [|by rewrite Hn, numbered_snd].
  unfold listed. assert (forall x, x ∈ sorted_rows s -> s !! x.1 = Some x.2) as Hx by (intros x Hx; by apply (sorted_rows_elem m) in Hx).
  induction (sorted_rows s) as [|[id v] l IH]; [done|]. specialize (IH ltac:(set_solver)). pose proof (Hx (id, v) ltac:(set_solver)) as Hs. cbn in Hs.
  cbn [omap list_omap]. destruct id as [| |q| | | | | | | | | | | |]; try exact IH. destruct v; try exact IH. cbn [sel_event sel_numbered map snd].
  apply He in Hs as (? & _ & Hq). apply numbered_bound in Hq. rewrite (proj2 (Z.leb_le _ _)) by lia. by rewrite IH.
Qed.

(* ------------------------------------------------------------------ *)
(** * Batches and the rows of the invariant *)

(** The rows the invariant speaks of. *)
Definition core (id : RowId) : bool := match id with IdKe _ | IdObj _ _ | IdTomb _ | IdJournal | IdHead _ => true | _ => false end.
Lemma spec_puts_core ps : forall s s' id, core id = true -> (forall id, core id = true -> s !! id = s' !! id) ->
  spec_puts s ps !! id = spec_puts s' (List.filter (fun x => core x.1) ps) !! id.
Proof.
  induction ps as [|[i v] ps IH]; intros s s' id Hc Hs; [by apply Hs|]. change (spec_puts s ((i, v) :: ps)) with (spec_puts (<[i := v]> s) ps). cbn [List.filter fst].
  destruct (core i) eqn:Ei.
  - change (spec_puts s' ((i, v) :: ?l)) with (spec_puts (<[i := v]> s') l). apply IH; [done|]. intros j Hj. rewrite !lookup_insert. case_decide; [done | auto].
  - apply IH; [done|]. intros j Hj. rewrite lookup_insert_ne by congruence. auto.
Qed.
Lemma spec_dels_core ds : forall s s' id, core id = true -> (forall id, core id = true -> s !! id = s' !! id) ->
  spec_dels s ds !! id = spec_dels s' (List.filter core ds) !! id.
Proof.
  induction ds as [|i ds IH]; intros s s' id Hc Hs; [by apply Hs|]. change (spec_dels s (i :: ds)) with (spec_dels (base.delete i s) ds). cbn [List.filter].
  destruct (core i) eqn:Ei.
  - change (spec_dels s' (i :: ?l)) with (spec_dels (base.delete i s') l). apply IH; [done|]. intros j Hj. rewrite !lookup_delete. case_decide; [done | auto].
  - apply IH; [done|]. intros j Hj. rewrite lookup_delete_ne by congruence. auto.
Qed.
Definition core_puts (eds : list Edit) : list (RowId * RowValue) := List.filter (fun x => core x.1) (flat_map edit_puts eds).
Definition core_dels (eds : list Edit) : list RowId := List.filter core (flat_map edit_dels eds).
Lemma spec_commit_core s eds id : core id = true -> spec_commit s eds !! id = spec_dels (spec_puts s (core_puts eds)) (core_dels eds) !! id.
Proof. intros Hc. apply spec_dels_core; [done|]. intros j Hj. by apply spec_puts_core. Qed.
Lemma core_puts_app a b : core_puts (a ++ b) = core_puts a ++ core_puts b.
Proof. unfold core_puts. by rewrite flat_map_app, List.filter_app. Qed.
Lemma core_dels_app a b : core_dels (a ++ b) = core_dels a ++ core_dels b.
Proof. unfold core_dels. by rewrite flat_map_app, List.filter_app. Qed.

(** The edges of a version as edits. *)
Definition edge_write (k : KOID) (rel : RelationshipRef) : Edit := let '(src, rt, dst) := edge_of k rel in WriteRel src rt dst.
Definition edge_drop (k : KOID) (rel : RelationshipRef) : Edit := let '(src, rt, dst) := edge_of k rel in DelRel src rt dst.
Lemma core_edges k rels : core_puts (map (edge_write k) rels) = [] /\ core_dels (map (edge_write k) rels) = [].
Proof.
  induction rels as [|rel rels [IH1 IH2]]; [done|]. unfold core_puts, core_dels in *. cbn [map flat_map]. rewrite !List.filter_app, IH1, IH2. unfold edge_write.
  by destruct (edge_of k rel) as [[? ?] ?].
Qed.
Lemma core_drops k rels : core_puts (map (edge_drop k) rels) = [] /\ core_dels (map (edge_drop k) rels) = [].
Proof.
  induction rels as [|rel rels [IH1 IH2]]; [done|]. unfold core_puts, core_dels in *. cbn [map flat_map]. rewrite !List.filter_app, IH1, IH2. unfold edge_drop.
  by destruct (edge_of k rel) as [[? ?] ?].
Qed.
Lemma core_type ty k : core_puts [WriteType ty k] = [] /\ core_dels [WriteType ty k] = [].
Proof. unfold core_puts, core_dels. cbn [flat_map edit_puts edit_dels]. by destruct (is_catalog_type ty). Qed.
Lemma fold_edges {E} `{StorageEngine E} (r : Repo E) k rels : forall b, fold_left edit_step (map (edge_write k) rels) (r, b) = (r, put_edges b k rels).
Proof. induction rels as [|rel rels IH]; intros b; [done|]. cbn [map fold_left]. unfold edge_write at 2. unfold put_edges. cbn [fold_left]. destruct (edge_of k rel) as [[? ?] ?]. apply IH. Qed.
Lemma fold_drops {E} `{StorageEngine E} (r : Repo E) k rels : forall b, fold_left edit_step (map (edge_drop k) rels) (r, b) = (r, del_edges b k rels).
Proof. induction rels as [|rel rels IH]; intros b; [done|]. cbn [map fold_left]. unfold edge_drop at 2. unfold del_edges. cbn [fold_left]. destruct (edge_of k rel) as [[? ?] ?]. apply IH. Qed.

(* ------------------------------------------------------------------ *)
(** * The invariant *)

Section Inv.
Context {E : Type} `{HL : EngineLaws E} `{SHA : Sha256}.
Context (hmac_sha256 : bytes -> bytes -> bytes) (signing_key : option bytes).

(** The payload of an event is stored under its time, hashes and signs to what it says; or
    the object was erased, or the event carries none. *)
Definition payload_ok (s : SpecState) (ke : KnowledgeEvent) : Prop :=
  match spec_object s (ke_koid ke) (ke_commit_ts ke) with
  | Some ko => ke_payload_hash ke = sha256 (encode_ko ko) /\ (forall sg key, ke_signature ke = Some sg -> signing_key = Some key -> sg = hmac_sha256 key (encode_ko ko))
  | None => ke_kind ke = EventKind.Audit \/ is_Some (s !! IdTomb (ke_koid ke))
  end.

(** A head names a stored version of its object, and repeats its version and state. *)
Definition heads_ok (s : SpecState) : Prop :=
  forall x ver ts st, s !! IdHead x = Some (VHead (ver, ts, st)) ->
    exists ko, s !! IdObj x ts = Some (VObj ko) /\ ko_koid ko = x /\ ko_version ko = ver /\ ko_commit_ts ko = ts /\ lc_state (ko_lifecycle ko) = st.

Lemma heads_put (s s' : SpecState) ko :
  heads_ok s ->
  (forall x, s' !! IdHead x = <[IdHead (ko_koid ko) := VHead (ko_version ko, ko_commit_ts ko, lc_state (ko_lifecycle ko))]> s !! IdHead x) ->
  (forall x t, s' !! IdObj x t = <[IdObj (ko_koid ko) (ko_commit_ts ko) := VObj ko]> s !! IdObj x t) -> heads_ok s'.
Proof.
  intros Hs Hh Ho x ver ts st. rewrite Hh, Ho. intros [[[= <-] [= <- <- <-]]|[Hne Hx]]%lookup_insert_Some; [exists ko; by rewrite lookup_insert_eq|].
  apply Hs in Hx as (ko' & ? & ?). exists ko'. rewrite lookup_insert_ne by congruence. done.
Qed.
Lemma heads_del (s s' : SpecState) k :
  heads_ok s -> (forall x, s' !! IdHead x = base.delete (IdHead k) s !! IdHead x) -> (forall x t, x <> k -> s' !! IdObj x t = s !! IdObj x t) -> heads_ok s'.
Proof.
  intros Hs Hh Ho x ver ts st. rewrite Hh. intros [Hne Hx]%lookup_delete_Some. rewrite Ho by congruence. by apply Hs.
Qed.
Lemma heads_same (s s' : SpecState) : heads_ok s -> (forall x, s' !! IdHead x = s !! IdHead x) -> (forall x t, s' !! IdObj x t = s !! IdObj x t) -> heads_ok s'.
Proof. intros Hs Hh Ho x ver ts st. rewrite Hh, Ho. by apply Hs. Qed.

(** The time of the journal's last commit. *)
Definition journal_ts (s : SpecState) : Z := match s !! IdJournal ≫= as_journal with Some (_, _, ts) => ts | None => 0 end.

Record kernel_ok (k : Kernel E) (s : SpecState) (evs : list KnowledgeEvent) : Prop := {
  ok_repo : repo_ok (k_repo k) s;
  ok_seq : p_seq (k_pipe k) = zlen evs /\ zlen evs < U64;
  ok_pin : p_pair_pin (k_pipe k) = None;
  ok_events : events_are s evs;
  ok_chain : chain ZERO32 evs (p_audit (k_pipe k));
  ok_journal : match s !! IdJournal with
    | Some v => exists ts, v = VJournal (zlen evs) (p_audit (k_pipe k)) ts /\ 0 <= ts <= k_hlc k
    | None => evs = []
    end;
  ok_payloads : Forall (fun ke => payload_ok s ke /\ ke_commit_ts ke <= journal_ts s) evs;
  ok_versions : forall x ts v, s !! IdObj x ts = Some v -> ts <= journal_ts s;
  ok_hlc : 0 <= k_hlc k < U64;
  ok_heads : heads_ok s }.

Lemma hlc_now_later last ms : 0 <= last -> last + 1 < U64 -> 0 <= ms < 2 ^ 48 -> last < hlc_now last ms < U64.
Proof.
  intros Hl Hu Hm. unfold hlc_now. unfold U64 in *. destruct (Z.ltb_spec (last / 2 ^ 16) ms).
  - rewrite Z.mod_small by lia. pose proof (Z.mul_succ_div_gt last (2 ^ 16) ltac:(lia)). nia.
  - rewrite Z.mod_small by lia. lia.
Qed.

Lemma journal_ts_le k s evs : kernel_ok k s evs -> 0 <= journal_ts s <= k_hlc k.
Proof. intros [_ _ _ _ _ Hj _ _ Hh _]. unfold journal_ts. destruct (s !! IdJournal); [destruct Hj as (ts & -> & ?); done | cbn; lia]. Qed.
Lemma ok_fresh k s evs : kernel_ok k s evs -> forall x ts v, s !! IdObj x ts = Some v -> ts <= k_hlc k.
Proof. intros Hok x ts v Hx%(ok_versions _ _ _ Hok). pose proof (journal_ts_le _ _ _ Hok). lia. Qed.

(** What one operation may do to the rows the invariant speaks of. *)
Lemma kernel_extend k s evs k' s' new ts :
  kernel_ok k s evs -> repo_ok (k_repo k') s' -> k_hlc k < ts < U64 -> k_hlc k' = ts -> p_pair_pin (k_pipe k') = None ->
  p_seq (k_pipe k') = zlen (evs ++ new) -> zlen (evs ++ new) < U64 -> chain (p_audit (k_pipe k)) new (p_audit (k_pipe k')) ->
  (forall q v, s' !! IdKe q = Some v <-> s !! IdKe q = Some v /\ (forall ke, (q, ke) ∉ numbered (zlen evs) new) \/ exists ke, v = VKe ke /\ (q, ke) ∈ numbered (zlen evs) new) ->
  s' !! IdJournal = Some (VJournal (zlen (evs ++ new)) (p_audit (k_pipe k')) ts) ->
  (forall x, is_Some (s !! IdTomb x) -> is_Some (s' !! IdTomb x)) ->
  (forall x t, t <= k_hlc k -> s' !! IdObj x t = s !! IdObj x t \/ s' !! IdObj x t = None /\ is_Some (s' !! IdTomb x)) ->
  (forall x t v, s' !! IdObj x t = Some v -> t <= ts) ->
  Forall (fun ke => payload_ok s' ke /\ ke_commit_ts ke <= ts) new -> heads_ok s' -> kernel_ok k' s' (evs ++ new).
Proof.
  intros Hok Hr' Hts Hh' Hpin' Hs' Hu' Hc' He' Hj' Ht Ho Hf' Hn Hhd. pose proof (journal_ts_le _ _ _ Hok) as Hjt.
  assert (journal_ts s' = ts) as Ej by (unfold journal_ts; by rewrite Hj'). destruct Hok as [Hr [Hs Hu] Hpin He Hc Hj Hp Hf Hh _]. split; try done.
  - intros q v. rewrite He'. unfold events_are in He. rewrite He. rewrite zlen_app in Hu'.
    assert (forall ke, (q, ke) ∈ numbered 0 (evs ++ new) <-> (q, ke) ∈ numbered 0 evs \/ (q, ke) ∈ numbered (zlen evs) new) as Ha.
    { intros ke. rewrite !numbered_elem. rewrite lookup_app. unfold zlen. split.
      - intros [Hq Hl]. destruct (evs !! Z.to_nat (q - 0 - 1)) as [x|] eqn:El; [left; split; [done | congruence]|]. apply lookup_ge_None in El. right. split; [lia|].
        replace (Z.to_nat (q - Z.of_nat (length evs) - 1)) with (Z.to_nat (q - 0 - 1) - length evs)%nat by lia. done.
      - intros [[Hq Hl]|[Hq Hl]]; [split; [done|]; by rewrite Hl|]. split; [lia|]. rewrite (proj2 (lookup_ge_None evs _)) by lia.
        replace (Z.to_nat (q - 0 - 1) - length evs)%nat with (Z.to_nat (q - Z.of_nat (length evs) - 1)) by lia. done. }
    split.
    + intros [[(ke & -> & Hq) _]|(ke & -> & Hq)]; exists ke; (split; [done|]); apply Ha; auto.
    + intros (ke & -> & [Hq|Hq]%Ha); [left | right; eauto]. split; [eauto|]. intros ke' Hq'. apply numbered_bound in Hq, Hq'. lia.
  - by eapply chain_app.
  - rewrite Hj'. exists ts. split; [done | lia].
  - rewrite Ej. apply Forall_app. split; [|done]. eapply Forall_impl; [exact Hp|]. intros ke [Hk Hle]. split; [|lia]. unfold payload_ok, spec_object in *.
    destruct (Ho (ke_koid ke) (ke_commit_ts ke) ltac:(lia)) as [->|[-> Hto]]; [|by right]. destruct (s !! IdObj _ _ ≫= as_obj); [done|]. destruct Hk as [?|?]; [by left | right; auto].
  - rewrite Ej. done.
  - lia.
Qed.
End Inv.
