(* ===== verification/CommitOps.v ===== *)
(** Every operation of the commit pipeline keeps the invariant of the journal. *)

From stdpp Require Import gmap.
From S2P Require Import Prelude Format Memtable Kom Codec CodecProps Store Repository RepositorySpec RepositoryReads Commit CommitInv.

Section Ops.
Context {E : Type} `{HL : EngineLaws E} `{SHA : Sha256}.
Context (hmac_sha256 : bytes -> bytes -> bytes) (signer : option (bytes -> bytes)) (signing_key : option bytes).
Abbreviation kernel_ok := (kernel_ok hmac_sha256 signing_key).
Abbreviation payload_ok := (payload_ok hmac_sha256 signing_key).
Abbreviation version_event := (version_event hmac_sha256 signer signing_key).
Abbreviation commit_version := (commit_version hmac_sha256 signer signing_key).
Implicit Types (k : Kernel E) (s : SpecState).

(** ** One version *)
Definition usage_edits (usage : option (bytes * Z)) : list Edit := match usage with Some (t, n) => [PutUsage t n] | None => [] end.
Definition idem_edits (idem : option bytes) (ko : KnowledgeObject) (ts : Z) : list Edit :=
  match idem with Some key => [PutIdem key (ko_koid ko) (ko_version ko) ts IDEM_KIND_REMEMBER] | None => [] end.
Definition drop_edits (prev : option (list RelationshipRef)) (ko : KnowledgeObject) : list Edit :=
  match prev with Some p => map (edge_drop (ko_koid ko)) (removed_edges p (ko_relationships ko)) | None => [] end.
Definition commit_eds (ko : KnowledgeObject) (ts seq : Z) (ke : KnowledgeEvent) (prev : option (list RelationshipRef)) (usage : option (bytes * Z)) (idem : option bytes) : list Edit :=
  [PutObject (ko_koid ko) ts ko] ++ map (edge_write (ko_koid ko)) (ko_relationships ko) ++ drop_edits prev ko ++
  [PutHead (ko_koid ko) (ko_version ko) ts (lc_state (ko_lifecycle ko))] ++ [WriteType (type_name (ko_metadata ko)) (ko_koid ko)] ++
  [PutEvent seq ke; PutJournal seq (ke_audit_hash ke) ts; PutUsageHead seq ts] ++ usage_edits usage ++ idem_edits idem ko ts.
Lemma core_drop_edits prev ko : core_puts (drop_edits prev ko) = [] /\ core_dels (drop_edits prev ko) = [].
Proof. destruct prev; [apply core_drops | done]. Qed.
Lemma core_commit_eds ko ts seq ke prev usage idem :
  core_puts (commit_eds ko ts seq ke prev usage idem) = [(IdObj (ko_koid ko) ts, VObj ko); (IdHead (ko_koid ko), VHead (ko_version ko, ts, lc_state (ko_lifecycle ko))); (IdKe seq, VKe ke); (IdJournal, VJournal seq (ke_audit_hash ke) ts)] /\
  core_dels (commit_eds ko ts seq ke prev usage idem) = [].
Proof.
  unfold commit_eds. rewrite !core_puts_app, !core_dels_app. destruct (core_edges (ko_koid ko) (ko_relationships ko)) as [-> ->], (core_drop_edits prev ko) as [-> ->].
  destruct (core_type (type_name (ko_metadata ko)) (ko_koid ko)) as [-> ->]. destruct usage as [[? ?]|], idem; done.
Qed.

(** The stamped version, its event and the edits of a commit at a kernel's state. *)
Definition stamped k ms ko kind : KnowledgeObject := stamp ko (hlc_now (k_hlc k) ms) ((p_seq (k_pipe k) + 1) mod U64) kind.
Definition commit_event k ms ko kind origin actor note : KnowledgeEvent :=
  let ko' := stamped k ms ko kind in
  version_event (p_audit (k_pipe k)) (p_prev_sig (k_pipe k)) ((p_seq (k_pipe k) + 1) mod U64) (ko_koid ko') (ko_version ko') kind origin actor (hlc_now (k_hlc k) ms) (encode_ko ko') note.
Definition commit_edits_at k ms ko kind origin actor note idem prev usage : list Edit :=
  commit_eds (stamped k ms ko kind) (hlc_now (k_hlc k) ms) ((p_seq (k_pipe k) + 1) mod U64) (commit_event k ms ko kind origin actor note) prev usage idem.
Definition after_commit k (ts : Z) (kes : list KnowledgeEvent) (audit sig : bytes) (r : Repo E) : Kernel E :=
  mkKernel r ts (mkPipeline ((p_seq (k_pipe k) + zlen kes) mod U64) audit sig (p_pair_pin (k_pipe k))) (k_usage k) (k_sent k ++ kes).

(** The batch the source builds is the batch of those edits. *)
Lemma build_commit (r : Repo E) ko ts seq ke prev usage idem :
  build_batch r (commit_eds ko ts seq ke prev usage idem) =
  let '(r, b) := put_object_version r wb_new (ko_koid ko) ts ko in
  let b := put_edges b (ko_koid ko) (ko_relationships ko) in
  let b := match prev with Some p => del_edges b (ko_koid ko) (removed_edges p (ko_relationships ko)) | None => b end in
  let '(r, b) := put_head r b (ko_koid ko) (ko_version ko) ts (lc_state (ko_lifecycle ko)) in
  let b := write_type_index b (type_name (ko_metadata ko)) (ko_koid ko) in
  let b := put_event b seq ke in
  let b := put_journal b seq (ke_audit_hash ke) ts in
  let b := wb_put b USAGE_HEAD_KEY (usage_head seq ts) in
  let b := match usage with Some (tenant, count) => wb_put b (usage_row_key tenant) (le_bytes 8 count) | None => b end in
  let b := match idem with Some key => put_idem b key (ko_koid ko) (ko_version ko) ts IDEM_KIND_REMEMBER | None => b end in
  (r, b).
Proof.
  unfold build_batch, commit_eds. rewrite !fold_left_app. unfold put_object_version, put_head. cbn [fold_left]. change (edit_step (r, wb_new) (PutObject (ko_koid ko) ts ko)) with
    (put_object_version r wb_new (ko_koid ko) ts ko). unfold put_object_version at 1. rewrite fold_edges. set (r1 := upd_cache _ r).
  assert (forall b, fold_left edit_step (drop_edits prev ko) (r1, b) =
    (r1, match prev with Some p => del_edges b (ko_koid ko) (removed_edges p (ko_relationships ko)) | None => b end)) as Hd by (intros b; destruct prev; [apply fold_drops | done]).
  rewrite Hd. destruct usage as [[? ?]|], idem; reflexivity.
Qed.
Lemma commit_version_eq k ms ko kind origin actor note idem prev usage :
  ko_validate ko = KOk tt -> p_pair_pin (k_pipe k) = None ->
  let ke := commit_event k ms ko kind origin actor note in let ts := hlc_now (k_hlc k) ms in
  commit_version ms ko kind origin actor note idem prev usage k =
  match commit_edits (k_repo k) (commit_edits_at k ms ko kind origin actor note idem prev usage) with
  | (r, KOk _) => (after_commit k ts [ke] (ke_audit_hash ke) (next_sig ke) r, KOk (ts, (p_seq (k_pipe k) + 1) mod U64))
  | (r, KErr e) => (set_repo (set_hlc k ts) r, KErr e)
  | (r, KPanic) => (set_repo (set_hlc k ts) r, KPanic)
  end.
Proof.
  intros Hv Hp ke ts. unfold commit_edits, commit_edits_at. rewrite build_commit. unfold commit_version, mbind, KM_bind, klift, kget. rewrite Hv. rewrite Hp. unfold tick.
  unfold ke, ts, commit_event, stamped, put_object_version, put_head. cbn [k_repo set_hlc k_pipe].
  match goal with |- context [repo_write_batch ?r ?b] => destruct (repo_write_batch r b) as [r0 [?|?|]] end; [|reflexivity..].
  unfold after_commit. rewrite Hp. reflexivity.
Qed.

Lemma numbered_one n ke q ke' : (q, ke') ∈ numbered n [ke] <-> q = n + 1 /\ ke' = ke.
Proof. cbn. rewrite list_elem_of_singleton. naive_solver. Qed.
Lemma event_appended (s s' : SpecState) n ke : (forall q, s' !! IdKe q = <[IdKe (n + 1) := VKe ke]> s !! IdKe q) ->
  forall q v, s' !! IdKe q = Some v <-> s !! IdKe q = Some v /\ (forall ke', (q, ke') ∉ numbered n [ke]) \/ exists ke', v = VKe ke' /\ (q, ke') ∈ numbered n [ke].
Proof.
  intros Hl q v. rewrite Hl. rewrite lookup_insert. case_decide as Hd.
  - injection Hd as <-. split; [intros [= <-]; right; exists ke; split; [done | by apply numbered_one]|]. intros [[_ Hn]|(ke' & -> & [_ ->]%numbered_one)]; [|done].
    exfalso. by apply (Hn ke), numbered_one.
  - split; [intros Hs; left; split; [done|]; intros ke' [-> _]%numbered_one; done|]. intros [[? _]|(ke' & _ & [-> _]%numbered_one)]; done.
Qed.

Lemma commit_rows k s ms ko kind origin actor note idem prev usage id : core id = true ->
  let ts := hlc_now (k_hlc k) ms in let seq := (p_seq (k_pipe k) + 1) mod U64 in let ke := commit_event k ms ko kind origin actor note in
  spec_commit s (commit_edits_at k ms ko kind origin actor note idem prev usage) !! id =
  <[IdJournal := VJournal seq (ke_audit_hash ke) ts]> (<[IdKe seq := VKe ke]> (<[IdHead (ko_koid ko) := VHead (ko_version ko, ts, lc_state (ko_lifecycle ko))]>
    (<[IdObj (ko_koid ko) ts := VObj (stamped k ms ko kind)]> s))) !! id.
Proof.
  intros Hc ts seq ke. rewrite spec_commit_core by done. unfold commit_edits_at. fold ts seq ke. by destruct (core_commit_eds (stamped k ms ko kind) ts seq ke prev usage idem) as [-> ->].
Qed.

(** What a commit of one version needs: sizes the types allow, room in the counters. *)
Definition version_fits k ms ko kind origin actor note idem prev usage : Prop :=
  0 <= ms < 2 ^ 48 /\ k_hlc k + 1 < U64 /\ p_seq (k_pipe k) + 1 < U64 /\
  commit_fits (k_repo k) (commit_edits_at k ms ko kind origin actor note idem prev usage).
Lemma commit_version_ok k s evs ms ko kind origin actor note idem prev usage :
  kernel_ok k s evs -> ko_validate ko = KOk tt -> version_fits k ms ko kind origin actor note idem prev usage ->
  let ke := commit_event k ms ko kind origin actor note in
  exists k', commit_version ms ko kind origin actor note idem prev usage k = (k', KOk (hlc_now (k_hlc k) ms, zlen evs + 1)) /\
    kernel_ok k' (spec_commit s (commit_edits_at k ms ko kind origin actor note idem prev usage)) (evs ++ [ke]) /\
    k_sent k' = k_sent k ++ [ke] /\ k_usage k' = k_usage k.
Proof.
  intros Hok Hv (Hms & Hh & Hq & Hf) ke. destruct (ok_seq _ _ _ _ _ Hok) as [Eq Hu]. rewrite commit_version_eq by (done || apply Hok).
  destruct (commit_spec s (k_repo k) _ (ok_repo _ _ _ _ _ Hok) Hf) as (r & Er & Hr). rewrite Er.
  pose proof (hlc_now_later (k_hlc k) ms ltac:(apply Hok) Hh Hms) as Hts. pose proof (zlen_nonneg evs).
  assert ((p_seq (k_pipe k) + 1) mod U64 = zlen evs + 1) as Es by (rewrite Z.mod_small; lia). rewrite Es. eexists. split; [reflexivity|]. split; [|done].
  set (ts := hlc_now (k_hlc k) ms) in *. set (s' := spec_commit s _).
  assert (forall id, core id = true -> s' !! id = <[IdJournal := VJournal (zlen evs + 1) (ke_audit_hash ke) ts]>
    (<[IdKe (zlen evs + 1) := VKe ke]> (<[IdHead (ko_koid ko) := VHead (ko_version ko, ts, lc_state (ko_lifecycle ko))]>
    (<[IdObj (ko_koid ko) ts := VObj (stamped k ms ko kind)]> s))) !! id) as Hl.
  { intros id Hc. unfold s'. rewrite commit_rows by done. by rewrite Es. }
  apply (kernel_extend _ _ k s evs _ s' [ke] ts); [exact Hok | exact Hr | exact Hts | reflexivity | apply Hok | | | | | | | | | |].
  - cbn [k_pipe after_commit p_seq]. change (zlen [_]) with 1. rewrite Es. by rewrite zlen_app.
  - rewrite zlen_app. change (zlen [ke]) with 1. lia.
  - split; [reflexivity|]. split; [|reflexivity]. reflexivity.
  - apply event_appended. intros q. rewrite Hl by done. rewrite lookup_insert_ne by done. rewrite !lookup_insert. case_decide; [done|]. by rewrite !decide_False.
  - rewrite Hl by done. rewrite lookup_insert_eq, zlen_app. done.
  - intros x Hx. rewrite Hl by done. by rewrite !lookup_insert_ne by done.
  - intros x t Ht. left. rewrite Hl by done. rewrite !lookup_insert_ne; [done | intros [= _ <-]; lia | done..].
  - intros x t v. rewrite Hl by done. rewrite !lookup_insert_ne by done. intros [[[= <- <-] _]|[_ Hs]]%lookup_insert_Some; [lia|]. apply (ok_fresh _ _ _ _ _ Hok) in Hs. lia.
  - constructor; [|constructor]. split; [|cbn; lia]. unfold payload_ok. change (ke_koid ke) with (ko_koid ko). change (ke_commit_ts ke) with ts.
    unfold spec_object. rewrite Hl by done. rewrite !lookup_insert_ne by done. rewrite lookup_insert_eq. cbn [as_obj mbind option_bind]. split; [done|].
    intros sg key Hsg Hkey. unfold ke, commit_event, Commit.version_event in Hsg. cbn in Hsg. unfold version_signature in Hsg. rewrite Hkey in Hsg. cbn in Hsg. by injection Hsg as <-.
  - apply (heads_put s s' (stamped k ms ko kind)); [apply Hok | |].
    + intros x. rewrite Hl by done. rewrite !lookup_insert_ne by done. change (ko_koid (stamped k ms ko kind)) with (ko_koid ko).
      destruct (decide (x = ko_koid ko)) as [->|Hne]; [by rewrite !lookup_insert_eq|]. by rewrite !lookup_insert_ne by congruence.
    + intros x t. rewrite Hl by done. by rewrite !lookup_insert_ne by done.
Qed.

(** ** Changes the journal does not see *)
Lemma kernel_ok_hlc k s evs z : kernel_ok k s evs -> k_hlc k <= z < U64 -> kernel_ok (set_hlc k z) s evs.
Proof.
  intros [Hr Hq Hp He Hc Hj Hpl Hf Hh Hd] Hz. split; try done.
  - cbn in *. destruct (s !! IdJournal); [|done]. destruct Hj as (ts & -> & ?). exists ts. split; [done | lia].
  - cbn. lia.
Qed.
Lemma kernel_ok_repo k s evs r : kernel_ok k s evs -> repo_ok r s -> kernel_ok (set_repo k r) s evs.
Proof. intros [Hr Hq Hp He Hc Hj Hpl Hf Hh Hd] Hr'. by split. Qed.
Lemma kernel_ok_usage k s evs u : kernel_ok k s evs -> kernel_ok (set_usage k u) s evs.
Proof. intros [Hr Hq Hp He Hc Hj Hpl Hf Hh Hd]. by split. Qed.
Lemma kernel_ok_read {A} k s evs (rd : RM E A) a :
  kernel_ok k s evs -> reads s rd (k_repo k) a -> exists r', on_repo rd k = (set_repo k r', KOk a) /\ kernel_ok (set_repo k r') s evs /\ rp_engine r' = rp_engine (k_repo k).
Proof.
  intros Hok (r' & Er & Ee & Hc). exists r'. unfold on_repo. rewrite Er. split; [done|]. split; [|done]. apply kernel_ok_repo; [done|].
  destruct (ok_repo _ _ _ _ _ Hok) as (m & Hh & Hr & _). exists m. rewrite Ee. done.
Qed.
Definition spec_head_object (s : SpecState) (x : KOID) : option KnowledgeObject := h ← spec_head s x; spec_object s x h.1.2.
Lemma spec_head_ts m s x ver ts st : represents m s -> spec_head s x = Some (ver, ts, st) -> fits_in U64 ts = true.
Proof. intros Hr Hh%spec_head_row. apply (proj1 Hr) in Hh as [_ Hv]. row_fields Hv. done. Qed.
Lemma head_object_spec s m (r : Repo E) x : holds (rp_engine r) m -> represents m s -> cached s r -> koid_ok x = true -> reads s (head_object x) r (spec_head_object s x).
Proof.
  intros Hh Hr Hc Hx. destruct (get_head_spec s m r x Hh Hr Hc Hx) as (r1 & E1 & Ee1 & Hc1). unfold reads, head_object, mbind, RM_bind. rewrite E1.
  unfold spec_head_object. destruct (spec_head s x) as [[[ver ts] st]|] eqn:Es; [|by exists r1].
  destruct (get_object_version_spec s m r1 x ts) as (r2 & E2 & Ee2 & Hc2); [by rewrite Ee1 | done | done | done | by eapply spec_head_ts|]. exists r2. split; [exact E2|]. split; [congruence | done].
Qed.

Lemma commit_object k s ms ko kind origin actor note idem prev usage x t : x <> ko_koid ko \/ t <> hlc_now (k_hlc k) ms ->
  spec_object (spec_commit s (commit_edits_at k ms ko kind origin actor note idem prev usage)) x t = spec_object s x t.
Proof. intros Hne. unfold spec_object. rewrite commit_rows by done. rewrite !lookup_insert_ne by done. rewrite lookup_insert_ne by naive_solver. done. Qed.
Lemma commit_head_object k s ms ko kind origin actor note idem prev usage x :
  spec_head_object (spec_commit s (commit_edits_at k ms ko kind origin actor note idem prev usage)) x =
  if bool_decide (x = ko_koid ko) then Some (stamped k ms ko kind) else spec_head_object s x.
Proof.
  unfold spec_head_object, spec_head. rewrite commit_rows by done. rewrite 2!lookup_insert_ne by done. case_bool_decide as Hx; [subst x|].
  - rewrite lookup_insert_eq. cbn [mbind option_bind as_head fst snd]. unfold spec_object. rewrite commit_rows by done. rewrite 3!lookup_insert_ne by done. by rewrite lookup_insert_eq.
  - rewrite lookup_insert_ne by congruence. rewrite lookup_insert_ne by done. destruct (s !! IdHead x ≫= as_head) as [[[? t] ?]|]; [|done]. cbn. apply commit_object. by left.
Qed.
Lemma head_object_is k s evs x : kernel_ok k s evs -> koid_ok x = true -> (head_object x (k_repo k)).2 = KOk (spec_head_object s x).
Proof. intros Hok Hx. destruct (ok_repo _ _ _ _ _ Hok) as (m & Hm & Hr & Hc). by destruct (head_object_spec s m (k_repo k) x Hm Hr Hc Hx) as (r1 & -> & _). Qed.

(** ** Erasure *)
Definition erase_eds (koid : KOID) (head : KnowledgeObject) (ts seq : Z) (ke : KnowledgeEvent) (t : bytes) (count : Z) (versions : list (Z * KnowledgeObject)) : list Edit :=
  [PutEvent seq ke; PutJournal seq (ke_audit_hash ke) ts; PutUsageHead seq ts; PutUsage t count; PutTomb koid (sha256 (encode_ko head)) seq;
   DelHead koid; DelType (type_name (ko_metadata head)) koid] ++ map (fun v => DelObject koid v.1) versions.
Lemma core_erase_eds koid head ts seq ke t count versions :
  core_puts (erase_eds koid head ts seq ke t count versions) = [(IdKe seq, VKe ke); (IdJournal, VJournal seq (ke_audit_hash ke) ts); (IdTomb koid, VTomb (sha256 (encode_ko head)) seq)] /\
  core_dels (erase_eds koid head ts seq ke t count versions) = IdHead koid :: map (fun v => IdObj koid v.1) versions.
Proof.
  unfold erase_eds. rewrite core_puts_app, core_dels_app.
  assert (core_puts (map (fun v => DelObject koid v.1) versions) = [] /\ core_dels (map (fun v => DelObject koid v.1) versions) = map (fun v => IdObj koid v.1) versions) as [-> ->]; [|done].
  induction versions as [|v vs [IH1 IH2]]; [done|]. unfold core_puts, core_dels in *. cbn [map flat_map]. rewrite !List.filter_app, IH1, IH2. done.
Qed.
Definition erase_event k ms koid head actor note : KnowledgeEvent :=
  version_event (p_audit (k_pipe k)) (p_prev_sig (k_pipe k)) ((p_seq (k_pipe k) + 1) mod U64) koid (ko_version head) EventKind.Forgotten Origin.System actor
    (hlc_now (k_hlc k) ms) (encode_ko head) note.
Definition erase_edits_at k ms koid head actor note versions : list Edit :=
  let t := tenant_name (tenant (ko_metadata head)) in
  erase_eds koid head (hlc_now (k_hlc k) ms) ((p_seq (k_pipe k) + 1) mod U64) (erase_event k ms koid head actor note) t (Z.max 0 (usage_of (k_usage k) t - 1)) versions.
Lemma fold_versions (koid : KOID) versions : forall (r : Repo E) b,
  fold_left edit_step (map (fun v : Z * KnowledgeObject => DelObject koid v.1) versions) (r, b) = fold_left (fun x v => delete_object_version x.1 x.2 koid v.1) versions (r, b).
Proof. induction versions as [|v vs IH]; intros r b; [done|]. cbn [map fold_left]. apply IH. Qed.
Lemma erase_eq k ms koid head actor note versions :
  scan_object_versions (rp_engine (k_repo k)) koid = KOk versions ->
  let ke := erase_event k ms koid head actor note in let ts := hlc_now (k_hlc k) ms in
  erase hmac_sha256 signer signing_key ms koid head actor note k =
  match commit_edits (k_repo k) (erase_edits_at k ms koid head actor note versions) with
  | (r, KOk _) => (set_usage (after_commit k ts [ke] (ke_audit_hash ke) (next_sig ke) r) (record_delete (k_usage k) (tenant (ko_metadata head))), KOk (ko_version head, ts))
  | (r, KErr e) => (set_repo (set_hlc k ts) r, KErr e)
  | (r, KPanic) => (set_repo (set_hlc k ts) r, KPanic)
  end.
Proof.
  intros Hs ke ts. unfold commit_edits, build_batch, erase_edits_at, erase_eds. rewrite fold_left_app. cbn [fold_left].
  unfold erase, mbind, KM_bind, on_repo, on_engine, kget, tick. rewrite Hs. unfold ke, ts, erase_event. cbn [set_repo k_repo set_hlc k_hlc k_pipe k_usage edit_step].
  unfold delete_head. cbn [edit_step]. rewrite fold_versions. destruct k as [r hlc pipe u sent]. cbn [k_repo k_hlc k_pipe k_usage k_sent rp_engine rp_cache set_repo].
  destruct (fold_left _ _ _) as [r1 b1]. destruct (repo_write_batch r1 b1) as [r2 [?|?|]]; reflexivity.
Qed.

Lemma spec_dels_none ds : forall (s : SpecState) id, id ∈ ds -> spec_dels s ds !! id = None.
Proof.
  induction ds as [|i ds IH]; intros s id Hid; [by apply not_elem_of_nil in Hid|]. change (spec_dels s (i :: ds)) with (spec_dels (base.delete i s) ds).
  destruct (decide (id ∈ ds)) as [Hin|Hn]; [by apply IH|]. apply elem_of_cons in Hid as [->|]; [|done]. rewrite spec_dels_other by done. apply lookup_delete_eq.
Qed.
Definition erase_fits k ms koid head actor note : Prop :=
  0 <= ms < 2 ^ 48 /\ k_hlc k + 1 < U64 /\ p_seq (k_pipe k) + 1 < U64 /\ scannable (rp_engine (k_repo k)) (obj_prefix koid) /\
  forall versions, scan_object_versions (rp_engine (k_repo k)) koid = KOk versions -> commit_fits (k_repo k) (erase_edits_at k ms koid head actor note versions).
Lemma erase_rows k s ms koid head actor note versions id : core id = true ->
  let ts := hlc_now (k_hlc k) ms in let seq := (p_seq (k_pipe k) + 1) mod U64 in let ke := erase_event k ms koid head actor note in
  spec_commit s (erase_edits_at k ms koid head actor note versions) !! id =
  spec_dels (base.delete (IdHead koid) (<[IdTomb koid := VTomb (sha256 (encode_ko head)) seq]> (<[IdJournal := VJournal seq (ke_audit_hash ke) ts]>
    (<[IdKe seq := VKe ke]> s)))) (map (fun v => IdObj koid v.1) versions) !! id.
Proof.
  intros Hc ts seq ke. rewrite spec_commit_core by done. unfold erase_edits_at. fold ts seq ke.
  by destruct (core_erase_eds koid head ts seq ke (tenant_name (tenant (ko_metadata head)))
    (Z.max 0 (usage_of (k_usage k) (tenant_name (tenant (ko_metadata head))) - 1)) versions) as [-> ->].
Qed.
Lemma version_ids m s koid : represents m s -> forall x t, IdObj x t ∈ map (fun v : Z * KnowledgeObject => IdObj koid v.1) (listed (sel_version koid) s) <-> x = koid /\ is_Some (s !! IdObj x t).
Proof.
  intros Hr x t. rewrite list_elem_of_fmap. split.
  - intros ([t' ko] & [= -> ->] & Hin). unfold listed in Hin. apply list_elem_of_omap in Hin as ([id v] & Hx & Hsel). apply (sorted_rows_elem m) in Hx; [|done].
    destruct id; try done. destruct v; try done. cbn in Hsel, Hx. case_bool_decide; [|done]. simplify_eq. split; [done | by eexists].
  - intros [-> [v Hv]]. destruct (proj1 Hr _ _ Hv) as [_ Hw]. destruct v as [ko| | | | | | |]; try (unfold row_wf in Hw; rewrite andb_false_r in Hw; discriminate).
    exists (t, ko). split; [done|]. unfold listed. apply list_elem_of_omap. exists (IdObj koid t, VObj ko). split; [by apply (sorted_rows_elem m)|]. cbn. by rewrite bool_decide_true.
Qed.
Lemma erase_ok k s evs ms koid head actor note :
  kernel_ok k s evs -> koid_ok koid = true -> erase_fits k ms koid head actor note ->
  let ke := erase_event k ms koid head actor note in
  exists k', erase hmac_sha256 signer signing_key ms koid head actor note k = (k', KOk (ko_version head, hlc_now (k_hlc k) ms)) /\
    kernel_ok k' (spec_commit s (erase_edits_at k ms koid head actor note (listed (sel_version koid) s))) (evs ++ [ke]) /\ k_sent k' = k_sent k ++ [ke].
Proof.
  intros Hok Hk (Hms & Hh & Hq & Hsc & Hf) ke. destruct (ok_seq _ _ _ _ _ Hok) as [Eq Hu]. destruct (ok_repo _ _ _ _ _ Hok) as (m & Hm & Hr & Hca).
  pose proof (scan_versions_spec _ m s koid Hm Hr Hsc Hk) as Es. specialize (Hf _ Es). rewrite (erase_eq k ms koid head actor note _ Es).
  destruct (commit_spec s (k_repo k) _ (ok_repo _ _ _ _ _ Hok) Hf) as (r & Er & Hr'). rewrite Er. eexists. split; [reflexivity|]. split; [|done]. apply kernel_ok_usage.
  pose proof (hlc_now_later (k_hlc k) ms ltac:(apply Hok) Hh Hms) as Hts. pose proof (zlen_nonneg evs).
  assert ((p_seq (k_pipe k) + 1) mod U64 = zlen evs + 1) as Eq' by (rewrite Z.mod_small; lia).
  set (ts := hlc_now (k_hlc k) ms) in *. set (s' := spec_commit s _) in *. set (vs := map (fun v : Z * KnowledgeObject => IdObj koid v.1) (listed (sel_version koid) s)).
  assert (forall x t, IdObj x t ∈ vs <-> x = koid /\ is_Some (s !! IdObj x t)) as Hvs by (intros x t; by apply (version_ids m)).
  assert (forall id, core id = true -> s' !! id = spec_dels (base.delete (IdHead koid) (<[IdTomb koid := VTomb (sha256 (encode_ko head)) (zlen evs + 1)]>
    (<[IdJournal := VJournal (zlen evs + 1) (ke_audit_hash ke) ts]> (<[IdKe (zlen evs + 1) := VKe ke]> s)))) vs !! id) as Hl.
  { intros id Hc. unfold s', vs. rewrite erase_rows by done. by rewrite Eq'. }
  assert (forall id, (forall x t, id <> IdObj x t) -> id ∉ vs) as Hnv by (intros id Hid (y & Ey & _)%list_elem_of_fmap; by apply (Hid koid y.1)).
  apply (kernel_extend _ _ k s evs _ s' [ke] ts); [exact Hok | exact Hr' | exact Hts | reflexivity | apply Hok | | | | | | | | | |].
  - cbn [k_pipe after_commit p_seq]. change (zlen [_]) with 1. rewrite Eq'. by rewrite zlen_app.
  - rewrite zlen_app. change (zlen [ke]) with 1. lia.
  - split; [reflexivity|]. split; reflexivity.
  - apply event_appended. intros q. rewrite Hl by done. rewrite spec_dels_other by (by apply Hnv). rewrite ?lookup_delete_ne by done. rewrite !lookup_insert_ne by done. done.
  - rewrite Hl by done. rewrite spec_dels_other by (by apply Hnv). rewrite ?lookup_delete_ne by done. rewrite lookup_insert_ne by done. by rewrite lookup_insert_eq, zlen_app.
  - intros x Hx. rewrite Hl by done. rewrite spec_dels_other by (by apply Hnv). rewrite ?lookup_delete_ne by done. rewrite lookup_insert. case_decide; [by eexists|]. by rewrite !lookup_insert_ne by done.
  - intros x t Ht. rewrite !Hl by done. destruct (decide (IdObj x t ∈ vs)) as [Hin|Hn].
    + right. split; [by apply spec_dels_none|]. apply Hvs in Hin as [-> _]. rewrite spec_dels_other by (by apply Hnv). rewrite ?lookup_delete_ne by done. rewrite lookup_insert_eq. by eexists.
    + left. rewrite spec_dels_other by done. rewrite ?lookup_delete_ne by done. by rewrite !lookup_insert_ne by done.
  - intros x t v. rewrite Hl by done. destruct (decide (IdObj x t ∈ vs)) as [Hin|Hn]; [by rewrite spec_dels_none|]. rewrite spec_dels_other by done. rewrite ?lookup_delete_ne by done.
    rewrite !lookup_insert_ne by done. intros Hx%(ok_fresh _ _ _ _ _ Hok). lia.
  - constructor; [|constructor]. split; [|cbn; lia]. unfold payload_ok. change (ke_koid ke) with koid. change (ke_commit_ts ke) with ts.
    assert (s' !! IdObj koid ts = None) as Ho.
    { rewrite Hl by done. destruct (decide (IdObj koid ts ∈ vs)) as [Hin|Hn]; [by apply spec_dels_none|]. rewrite spec_dels_other by done. rewrite ?lookup_delete_ne by done. rewrite !lookup_insert_ne by done.
      destruct (s !! IdObj koid ts) as [v|] eqn:Ev; [|done]. apply (ok_fresh _ _ _ _ _ Hok) in Ev. lia. }
    unfold spec_object. rewrite Ho. right. rewrite Hl by done. rewrite spec_dels_other by (by apply Hnv). rewrite ?lookup_delete_ne by done. rewrite lookup_insert_eq. by eexists.
  - apply (heads_del s s' koid); [apply Hok | |].
    + intros x. rewrite Hl by done. rewrite spec_dels_other by (by apply Hnv). rewrite !lookup_delete. case_decide; [done|]. by rewrite !lookup_insert_ne by done.
    + intros x t Hne. rewrite Hl by done. rewrite spec_dels_other by (intros [? _]%Hvs; done). rewrite lookup_delete_ne by done. by rewrite !lookup_insert_ne by done.
Qed.

(** What an erasure leaves readable. *)
Definition erased_state k s ms koid head actor note : SpecState := spec_commit s (erase_edits_at k ms koid head actor note (listed (sel_version koid) s)).
Lemma erase_object k s m ms koid head actor note x t : represents m s ->
  spec_object (erased_state k s ms koid head actor note) x t = if bool_decide (x = koid) then None else spec_object s x t.
Proof.
  intros Hr. pose proof (version_ids m s koid Hr) as Hvs. unfold spec_object, erased_state. rewrite erase_rows by done. set (vs := map _ (listed (sel_version koid) s)) in *.
  destruct (decide (IdObj x t ∈ vs)) as [Hin|Hn]; [rewrite spec_dels_none by done; apply Hvs in Hin as [-> _]; by rewrite bool_decide_true|].
  rewrite spec_dels_other by done. rewrite lookup_delete_ne by done. rewrite !lookup_insert_ne by done. case_bool_decide as Hx; [|done]. subst x.
  destruct (s !! IdObj koid t) eqn:Ev; [|done]. exfalso. apply Hn, Hvs. split; [done | by rewrite Ev].
Qed.
Lemma erase_head_object k s m ms koid head actor note x : represents m s ->
  spec_head_object (erased_state k s ms koid head actor note) x = if bool_decide (x = koid) then None else spec_head_object s x.
Proof.
  intros Hr. pose proof (fun y t => erase_object k s m ms koid head actor note y t Hr) as Ho. unfold spec_head_object, spec_head.
  assert (erased_state k s ms koid head actor note !! IdHead x = if bool_decide (x = koid) then None else s !! IdHead x) as ->.
  { unfold erased_state. rewrite erase_rows by done. rewrite spec_dels_other by (intros (y & Ey & _)%list_elem_of_fmap; done). case_bool_decide as Hx; [subst; by rewrite lookup_delete_eq|].
    rewrite lookup_delete_ne by congruence. by rewrite !lookup_insert_ne by done. }
  case_bool_decide as Hx; [done|]. destruct (s !! IdHead x ≫= as_head) as [[[? t] ?]|]; [|done]. cbn. rewrite Ho. by rewrite bool_decide_false.
Qed.

(** ** Audit entries *)
Definition audit_event k ms (note : bytes) : KnowledgeEvent :=
  let seq := (p_seq (k_pipe k) + 1) mod U64 in let ts := hlc_now (k_hlc k) ms in let actor := String.list_byte_of_string "kernel" in
  let audit := audit_hash_of (p_audit (k_pipe k)) seq KOID_ZERO 0 EventKind.Audit ts ZERO32 None actor (Some note) in
  mkKnowledgeEvent seq KOID_ZERO 0 EventKind.Audit Origin.System actor ts ZERO32 (p_audit (k_pipe k)) audit None (sign_audit_event signer (p_prev_sig (k_pipe k)) audit) (Some note).
Definition audit_edits_at k ms (note : bytes) : list Edit :=
  let seq := (p_seq (k_pipe k) + 1) mod U64 in let ts := hlc_now (k_hlc k) ms in let ke := audit_event k ms note in
  [PutEvent seq ke; PutJournal seq (ke_audit_hash ke) ts; PutUsageHead seq ts].
Definition audit_fits k ms note : Prop :=
  0 <= ms < 2 ^ 48 /\ k_hlc k + 1 < U64 /\ p_seq (k_pipe k) + 1 < U64 /\ commit_fits (k_repo k) (audit_edits_at k ms note).
Lemma record_audit_eq k ms note :
  let ke := audit_event k ms note in let ts := hlc_now (k_hlc k) ms in
  record_audit signer ms note k =
  match commit_edits (k_repo k) (audit_edits_at k ms note) with
  | (r, KOk _) => (after_commit k ts [ke] (ke_audit_hash ke) (next_sig ke) r, KOk tt)
  | (r, KErr e) => (set_repo (set_hlc k ts) r, KErr e)
  | (r, KPanic) => (set_repo (set_hlc k ts) r, KPanic)
  end.
Proof.
  intros ke ts. unfold commit_edits, build_batch, audit_edits_at. cbn [fold_left edit_step]. unfold record_audit, mbind, KM_bind, tick, kget.
  unfold ke, ts, audit_event. cbn [set_hlc k_pipe k_repo ke_audit_hash].
  match goal with |- context [repo_write_batch ?r ?b] => destruct (repo_write_batch r b) as [r0 [?|?|]] end; reflexivity.
Qed.
Lemma record_audit_ok k s evs ms note :
  kernel_ok k s evs -> audit_fits k ms note ->
  exists k', record_audit signer ms note k = (k', KOk tt) /\ kernel_ok k' (spec_commit s (audit_edits_at k ms note)) (evs ++ [audit_event k ms note]) /\
    k_sent k' = k_sent k ++ [audit_event k ms note].
Proof.
  intros Hok (Hms & Hh & Hq & Hf). destruct (ok_seq _ _ _ _ _ Hok) as [Eq Hu].
  destruct (commit_spec s (k_repo k) _ (ok_repo _ _ _ _ _ Hok) Hf) as (r & Er & Hr'). set (ke := audit_event k ms note) in *. set (ts := hlc_now (k_hlc k) ms) in *.
  assert (record_audit signer ms note k = (after_commit k ts [ke] (ke_audit_hash ke) (next_sig ke) r, KOk tt)) as -> by (unfold ke, ts; by rewrite record_audit_eq, Er).
  eexists. split; [reflexivity|]. split; [|done]. pose proof (hlc_now_later (k_hlc k) ms ltac:(apply Hok) Hh Hms) as Hts. fold ts in Hts. pose proof (zlen_nonneg evs).
  assert ((p_seq (k_pipe k) + 1) mod U64 = zlen evs + 1) as Eq' by (rewrite Z.mod_small; lia). set (s' := spec_commit s _) in *.
  assert (forall id, core id = true -> s' !! id = <[IdJournal := VJournal (zlen evs + 1) (ke_audit_hash ke) ts]> (<[IdKe (zlen evs + 1) := VKe ke]> s) !! id) as Hl.
  { intros id Hc. unfold s'. rewrite spec_commit_core by done. unfold audit_edits_at. rewrite Eq'. done. }
  apply (kernel_extend _ _ k s evs _ s' [ke] ts); [exact Hok | exact Hr' | exact Hts | reflexivity | apply Hok | | | | | | | | | |].
  - cbn [k_pipe after_commit p_seq]. change (zlen [_]) with 1. rewrite Eq'. by rewrite zlen_app.
  - rewrite zlen_app. change (zlen [ke]) with 1. lia.
  - split; [reflexivity|]. split; reflexivity.
  - apply event_appended. intros q. rewrite Hl by done. by rewrite lookup_insert_ne by done.
  - rewrite Hl by done. by rewrite lookup_insert_eq, zlen_app.
  - intros x Hx. rewrite Hl by done. by rewrite !lookup_insert_ne by done.
  - intros x t Ht. left. rewrite Hl by done. by rewrite !lookup_insert_ne by done.
  - intros x t v. rewrite Hl by done. rewrite !lookup_insert_ne by done. intros Hx%(ok_fresh _ _ _ _ _ Hok). lia.
  - constructor; [|constructor]. split; [|cbn; lia]. unfold payload_ok. change (ke_koid ke) with KOID_ZERO. change (ke_commit_ts ke) with ts.
    unfold spec_object. rewrite Hl by done. rewrite !lookup_insert_ne by done.
    destruct (s !! IdObj KOID_ZERO ts) as [v|] eqn:Ev; [apply (ok_fresh _ _ _ _ _ Hok) in Ev; lia|]. by left.
  - apply (heads_same s s'); [apply Hok | |]; intros; rewrite Hl by done; by rewrite !lookup_insert_ne by done.
Qed.
End Ops.
