(* ===== verification/CommitRun.v ===== *)
(** The operations of the kernel as a type, their runs, and that every run keeps the journal. *)

From stdpp Require Import gmap.
From S2P Require Import Prelude Format Memtable Kom Codec CodecProps Store Repository RepositorySpec RepositoryReads Commit CommitInv CommitOps.

Section Run.
Context {E : Type} `{HL : EngineLaws E} `{SHA : Sha256}.
Context (hmac_sha256 : bytes -> bytes -> bytes) (signer : option (bytes -> bytes)) (signing_key : option bytes).
Context (authorize : KnowledgeObject -> Action.t -> KResult unit).
Abbreviation kernel_ok := (kernel_ok hmac_sha256 signing_key).
Abbreviation commit_version := (commit_version hmac_sha256 signer signing_key).
Abbreviation version_fits := (version_fits hmac_sha256 signer signing_key).
Implicit Types k : Kernel E.

(** The batch of edits does not depend on the cache. *)
Lemma edit_step_batch (r r' : Repo E) b ed : (edit_step (r, b) ed).2 = (edit_step (r', b) ed).2.
Proof. by destruct ed. Qed.
Lemma build_batch_same (r r' : Repo E) eds : (build_batch r eds).2 = (build_batch r' eds).2.
Proof.
  unfold build_batch. generalize wb_new. revert r r'. induction eds as [|ed eds IH]; intros r r' b; [done|]. cbn [fold_left].
  pose proof (edit_step_batch r r' b ed) as He. destruct (edit_step (r, b) ed) as [r1 b1], (edit_step (r', b) ed) as [r2 b2]. cbn in He. subst. apply IH.
Qed.
Lemma commit_fits_same (r r' : Repo E) eds : rp_engine r' = rp_engine r -> commit_fits r eds -> commit_fits r' eds.
Proof. intros He [Hw Hr]. split; [done|]. by rewrite He, (build_batch_same r' r). Qed.
Lemma version_fits_same k r' ms ko kind origin actor note idem prev usage :
  rp_engine r' = rp_engine (k_repo k) -> version_fits k ms ko kind origin actor note idem prev usage -> version_fits (set_repo k r') ms ko kind origin actor note idem prev usage.
Proof. intros He (? & ? & ? & Hf). refine (conj _ (conj _ (conj _ _))); [done.. |]. by apply (commit_fits_same (k_repo k)). Qed.

(** What a step leaves: the journal extended by [n] events, all broadcast, or untouched on an error. *)
Definition step_ok {A} (n : Z) k (s : SpecState) (evs : list KnowledgeEvent) (x : Kernel E * KResult A) : Prop :=
  exists s' new, kernel_ok x.1 s' (evs ++ new) /\ k_sent x.1 = k_sent k ++ new /\
    match x.2 with KOk _ => zlen new = n | _ => s' = s /\ new = [] /\ k_pipe x.1 = k_pipe k /\ k_usage x.1 = k_usage k end.
Lemma step_err {A} n k k' s evs err : kernel_ok k' s evs -> k_sent k' = k_sent k -> k_pipe k' = k_pipe k -> k_usage k' = k_usage k -> step_ok (A := A) n k s evs (k', KErr err).
Proof. intros Hok Hs Hp Hu. exists s, []. cbn. by rewrite !app_nil_r. Qed.

Lemma commit_step k s evs ms ko kind origin actor note idem prev usage :
  kernel_ok k s evs -> version_fits k ms ko kind origin actor note idem prev usage -> step_ok 1 k s evs (commit_version ms ko kind origin actor note idem prev usage k).
Proof.
  intros Hok Hf. destruct (ko_validate ko) as [[]|err|] eqn:Ev.
  - destruct (commit_version_ok hmac_sha256 signer signing_key k s evs ms ko kind origin actor note idem prev usage Hok Ev Hf) as (k' & -> & Hok' & Hs & _).
    eexists _, [_]. split; [exact Hok'|]. split; [done|]. cbn. done.
  - unfold Commit.commit_version, mbind, KM_bind, klift. rewrite Ev. by apply step_err.
  - exfalso. revert Ev. unfold ko_validate. repeat case_match; done.
Qed.

(** ** Reading the head an operation works on *)
Lemma authorized_head_ok k s evs koid action : kernel_ok k s evs -> koid_ok koid = true ->
  exists r', kernel_ok (set_repo k r') s evs /\ rp_engine r' = rp_engine (k_repo k) /\ (head_object koid (k_repo k)).2 = KOk (spec_head_object s koid) /\
    authorized_head authorize koid action k = (set_repo k r', match spec_head_object s koid with None => KErr (NotFound koid) | Some h => _ ← authorize h action; KOk h end).
Proof.
  intros Hok Hk. destruct (ok_repo _ _ _ _ _ Hok) as (m & Hh & Hr & Hc). pose proof (head_object_spec s m (k_repo k) koid Hh Hr Hc Hk) as Hrd.
  destruct (kernel_ok_read _ _ k s evs _ _ Hok Hrd) as (r' & Er & Hok' & He). exists r'. split; [done|]. split; [done|]. split; [by destruct Hrd as (? & -> & _)|].
  unfold authorized_head. unfold mbind at 1. unfold KM_bind. rewrite Er. destruct (spec_head_object s koid) as [h|]; [|done].
  unfold klift, mbind, KM_bind, KResult_bind. by destruct (authorize h action) as [[]|?|].
Qed.
Lemma step_from {A} n k r' s evs (x : Kernel E * KResult A) : step_ok n (set_repo k r') s evs x -> step_ok n k s evs x.
Proof. done. Qed.

(** The rest of an operation after a committed version. *)
Lemma step_bind {A B} n k s evs (m : KM E A) (f : A -> KM E B) :
  step_ok n k s evs (m k) -> (forall a k', exists b u, f a k' = (set_usage k' u, KOk b)) -> step_ok n k s evs ((a ← m; f a) k).
Proof.
  intros (s' & new & Hok & Hs & Hx) Hf. unfold mbind, KM_bind. destruct (m k) as [k' [a|e|]]; cbn [fst snd] in *; [|by exists s', new..].
  destruct (Hf a k') as (b & u & ->). exists s', new. split; [by apply kernel_ok_usage|]. done.
Qed.

(** The version a tombstone writes, the version a transition writes. *)
Definition tombstoned (head : KnowledgeObject) : KnowledgeObject := with_lifecycle head ((ko_version head + 1) mod U64) (mkLifecycle LifecycleState.Deleted Origin.System).
Definition evolved (at_ms : Z) (head : KnowledgeObject) (to : LifecycleState.t) (origin : Origin.t) (actor : bytes) (note : option bytes) : KnowledgeObject :=
  let ko := with_lifecycle head ((ko_version head + 1) mod U64) (mkLifecycle to origin) in
  mkKnowledgeObject (ko_koid ko) (ko_version ko) (ko_commit_ts ko) (ko_metadata ko) (ko_properties ko) (ko_semantic ko) (ko_relationships ko)
    (ko_event_refs ko) (ko_security ko) (ko_lifecycle ko) (push_lifecycle_history (ko_extensions ko) (lc_state (ko_lifecycle head)) to at_ms actor note).
Definition forget_fits k ms koid mode actor note : Prop :=
  koid_ok koid = true /\ forall head, (head_object koid (k_repo k)).2 = KOk (Some head) ->
    match mode with
    | Tombstone => let t := tenant_name (tenant (ko_metadata head)) in
        version_fits k ms (tombstoned head) EventKind.Forgotten Origin.System actor note None (Some (ko_relationships head)) (Some (t, Z.max 0 (usage_of (k_usage k) t - 1)))
    | Erase => erase_fits hmac_sha256 signer signing_key k ms koid head actor note
    end.
Definition evolve_fits k at_ms ms koid to origin actor note : Prop :=
  koid_ok koid = true /\ forall head, (head_object koid (k_repo k)).2 = KOk (Some head) ->
    version_fits k ms (evolved at_ms head to origin actor note) EventKind.LifecycleChanged origin actor note None (Some (ko_relationships head)) None.
Lemma erase_fits_same k r' ms koid head actor note :
  rp_engine r' = rp_engine (k_repo k) -> erase_fits hmac_sha256 signer signing_key k ms koid head actor note ->
  erase_fits hmac_sha256 signer signing_key (set_repo k r') ms koid head actor note.
Proof.
  intros He (? & ? & ? & Hsc & Hf). refine (conj _ (conj _ (conj _ (conj _ _)))); [done.. | |]; cbn [k_repo set_repo]; rewrite He; [done|].
  intros vs Hv. apply (commit_fits_same (k_repo k)); [done|]. by apply Hf.
Qed.
Lemma authorized_step {A} n k s evs koid action (f : KnowledgeObject -> KM E A) :
  kernel_ok k s evs -> koid_ok koid = true ->
  (forall r' head, kernel_ok (set_repo k r') s evs -> rp_engine r' = rp_engine (k_repo k) -> (head_object koid (k_repo k)).2 = KOk (Some head) ->
    step_ok n k s evs (f head (set_repo k r'))) ->
  step_ok n k s evs ((head ← authorized_head authorize koid action; f head) k).
Proof.
  intros Hok Hk Hf. destruct (authorized_head_ok k s evs koid action Hok Hk) as (r' & Hok' & He & Hh & Ea). unfold mbind, KM_bind. rewrite Ea.
  destruct (spec_head_object s koid) as [h|]; [|by apply step_err]. unfold mbind, KResult_bind. destruct (authorize h action) as [[]|?|].
  - by apply Hf.
  - by apply step_err.
  - exists s, []. cbn. by rewrite !app_nil_r.
Qed.
Lemma forget_step k s evs ms koid mode expected actor note :
  kernel_ok k s evs -> forget_fits k ms koid mode actor note -> step_ok 1 k s evs (forget hmac_sha256 signer signing_key authorize ms koid mode expected actor note k).
Proof.
  intros Hok [Hk Hf]. unfold forget, current_head.
  enough (step_ok 1 k s evs ((head ← authorized_head authorize koid Action.Delete;
    head ← (let exp := default (ko_version head) expected in if exp =? ko_version head then mret head else klift (KErr (VersionConflict koid exp (ko_version head))));
    match mode with
    | Tombstone =>
        usage ← kget k_usage;
        let t := tenant_name (tenant (ko_metadata head)) in
        '(commit_ts, _) ← commit_version ms (tombstoned head) EventKind.Forgotten Origin.System actor note None (Some (ko_relationships head))
          (Some (t, Z.max 0 (usage_of usage t - 1)));
        _ ← kset (fun k => set_usage k (record_delete (k_usage k) (tenant (ko_metadata head))));
        mret ((ko_version head + 1) mod U64, commit_ts)
    | Erase => erase hmac_sha256 signer signing_key ms koid head actor note
    end) k)) as Hs.
  { unfold mbind, KM_bind in Hs |- *. destruct (authorized_head authorize koid Action.Delete k) as [k1 [h|e|]]; [|exact Hs..]. exact Hs. }
  apply authorized_step; [done..|]. intros r' head Hok' He Hh. specialize (Hf head Hh). cbn zeta. unfold mbind at 1. unfold KM_bind.
  destruct (_ =? _); [|by apply step_err]. cbn [mret KM_ret]. apply (step_from 1 k r'). destruct mode.
  - unfold mbind at 1. unfold KM_bind. cbn [kget]. apply (step_bind _ _ _ _ (commit_version _ _ _ _ _ _ _ _ _)); [apply commit_step; [done|]; by apply version_fits_same|].
    intros [ts q] k'. eexists _, _. reflexivity.
  - destruct (erase_ok hmac_sha256 signer signing_key _ s evs ms koid head actor note Hok' Hk (erase_fits_same _ _ _ _ _ _ _ He Hf)) as (k' & Ee & Hok'' & Hsent). rewrite Ee.
    eexists _, [_]. split; [exact Hok''|]. done.
Qed.
Lemma evolve_step k s evs at_ms ms koid to origin expected actor note :
  kernel_ok k s evs -> evolve_fits k at_ms ms koid to origin actor note ->
  step_ok 1 k s evs (evolve hmac_sha256 signer signing_key authorize at_ms ms koid to origin expected actor note k).
Proof.
  intros Hok [Hk Hf]. unfold evolve. apply authorized_step; [done..|]. intros r' head Hok' He Hh. specialize (Hf head Hh). cbn zeta. apply (step_from 1 k r').
  unfold mbind at 1. unfold KM_bind. unfold klift at 1. destruct (LifecycleState.can_transition _ _); [|by apply step_err].
  unfold mbind at 1. unfold KM_bind. unfold klift at 1. destruct (_ =? _); [|by apply step_err].
  apply (step_bind _ _ _ _ (commit_version _ _ _ _ _ _ _ _ _)); [apply commit_step; [done|]; by apply (version_fits_same k)|].
  intros [ts q] k'. eexists _, (k_usage k'). by destruct k'.
Qed.
Lemma audit_step k s evs ms note : kernel_ok k s evs -> audit_fits signer k ms note -> step_ok 1 k s evs (record_audit signer ms note k).
Proof.
  intros Hok Hf. destruct (record_audit_ok hmac_sha256 signer signing_key k s evs ms note Hok Hf) as (k' & -> & Hok' & Hs). eexists _, [_]. split; [exact Hok'|]. done.
Qed.
End Run.
