(* ===== verification/Epistemic.v ===== *)
(** crates/kernel/src/knowledge/kom.rs and transaction/kernel.rs: the epistemic status of an
    object and its history, the interval in which it is valid, and the transition that moves
    the status under the pipeline lock. *)

From Stdlib Require Import String.
From stdpp Require Import gmap.
From S2P Require Import Prelude Format Memtable Kom Codec CodecProps Store Repository RepositorySpec RepositoryReads Commit CommitInv CommitOps CommitRun.

(* ------------------------------------------------------------------ *)
(** * Status and validity in the extensions *)

Definition epistemic_name (s : EpistemicStatus.t) : bytes :=
  list_byte_of_string
    match s with
    | EpistemicStatus.Observed => "observed" | EpistemicStatus.Extracted => "extracted" | EpistemicStatus.Asserted => "asserted"
    | EpistemicStatus.Inferred => "inferred" | EpistemicStatus.Verified => "verified" | EpistemicStatus.Contradicted => "contradicted"
    | EpistemicStatus.Superseded => "superseded"
    end.
Definition all_epistemic : list EpistemicStatus.t :=
  [EpistemicStatus.Observed; EpistemicStatus.Extracted; EpistemicStatus.Asserted; EpistemicStatus.Inferred; EpistemicStatus.Verified;
   EpistemicStatus.Contradicted; EpistemicStatus.Superseded].
Definition epistemic_from_name (b : bytes) : option EpistemicStatus.t := List.find (fun s => bytes_eqb b (epistemic_name s)) all_epistemic.

Definition EXT_EPISTEMIC_STATUS : bytes := list_byte_of_string "epistemic_status".
Definition EXT_EPISTEMIC_HISTORY : bytes := list_byte_of_string "epistemic_history".
Definition EXT_VALID_FROM : bytes := list_byte_of_string "valid_from".
Definition EXT_VALID_TO : bytes := list_byte_of_string "valid_to".
Definition EXT_VALID_TO_ASSERTED : bytes := list_byte_of_string "valid_to_asserted".
Definition SUPERSEDES : bytes := list_byte_of_string "supersedes".

Definition text_status (v : Value) : option EpistemicStatus.t := match v with VText s => epistemic_from_name s | _ => None end.
Definition epistemic_status (ext : PropertyMap) (state : LifecycleState.t) : EpistemicStatus.t :=
  default (match state with LifecycleState.Verified => EpistemicStatus.Verified | LifecycleState.Extracted => EpistemicStatus.Extracted | _ => EpistemicStatus.Observed end)
    (btree_get ext EXT_EPISTEMIC_STATUS ≫= text_status).
Definition set_epistemic_status (ext : PropertyMap) (s : EpistemicStatus.t) : PropertyMap := btree_insert ext EXT_EPISTEMIC_STATUS (VText (epistemic_name s)).
Definition push_epistemic_history (ext : PropertyMap) (from to : EpistemicStatus.t) (at_millis : Z) (by_ : bytes) (reason : option bytes) : PropertyMap :=
  push_history ext EXT_EPISTEMIC_HISTORY (history_entry (epistemic_name from) (epistemic_name to) at_millis by_ reason).

Definition ext_instant (ext : PropertyMap) (key : bytes) : option Z := match btree_get ext key with Some (VInt v) => if 0 <=? v then Some v else None | _ => None end.
Definition valid_from (ext : PropertyMap) : option Z := ext_instant ext EXT_VALID_FROM.
Definition valid_to (ext : PropertyMap) : option Z := ext_instant ext EXT_VALID_TO.
Definition set_bound (ext : PropertyMap) (key : bytes) (o : option Z) : PropertyMap :=
  match o with Some t => btree_insert ext key (VInt (as_i64 t)) | None => btree_remove ext key end.
Definition set_valid_time (ext : PropertyMap) (from to : option Z) : KResult PropertyMap :=
  if match from, to with Some f, Some t => t <? f | _, _ => false end then KErr (InvalidObject "valid interval must satisfy valid_from <= valid_to")
  else KOk (set_bound (set_bound ext EXT_VALID_FROM from) EXT_VALID_TO to).
Definition close_valid_time (ext : PropertyMap) (at_ : Z) : KResult PropertyMap :=
  match valid_to ext with
  | Some _ => KOk ext
  | None => let from := valid_from ext in set_valid_time ext from (Some (match from with Some f => Z.max f at_ | None => at_ end))
  end.
Definition valid_at (ext : PropertyMap) (at_millis : Z) : bool :=
  match valid_from ext with Some f => f <=? at_millis | None => true end && match valid_to ext with Some t => at_millis <? t | None => true end.

(* ------------------------------------------------------------------ *)
(** * The transition *)

Section Transition.
Context {E : Type} `{StorageEngine E} `{Sha256}.
Context (hmac_sha256 : bytes -> bytes -> bytes) (signer : option (bytes -> bytes)) (signing_key : option bytes).
Context (authorize : KnowledgeObject -> Action.t -> KResult unit).

(** The version the transition writes, but for the check of the successor. *)
Definition transitioned (at_ : Z) (head : KnowledgeObject) (to : EpistemicStatus.t) (superseded_by : option KOID) (predecessor_valid_to : option Z)
    (actor : bytes) (reason : option bytes) : KResult KnowledgeObject :=
  let from := epistemic_status (ko_extensions head) (lc_state (ko_lifecycle head)) in
  let ext := set_epistemic_status (ko_extensions head) to in
  ext ← (if bool_decide (to = EpistemicStatus.Superseded) then
           ext ← close_valid_time ext at_;
           KOk (match predecessor_valid_to with
                | Some t => btree_insert ext EXT_VALID_TO_ASSERTED (VInt (as_i64 (match valid_from ext with Some f => Z.max f t | None => t end)))
                | None => ext end)
         else KOk ext);
  let rels := match superseded_by with Some t => ko_relationships head ++ [mkRelationshipRef SUPERSEDES t Direction.Outbound] | None => ko_relationships head end in
  KOk (mkKnowledgeObject (ko_koid head) ((ko_version head + 1) mod U64) (ko_commit_ts head) (ko_metadata head) (ko_properties head) (ko_semantic head) rels
    (ko_event_refs head) (ko_security head) (ko_lifecycle head) (push_epistemic_history ext from to at_ actor reason)).
Definition check_successor (to : EpistemicStatus.t) (superseded_by : option KOID) : KM E unit :=
  if bool_decide (to = EpistemicStatus.Superseded) then
    match superseded_by with
    | Some t => o ← on_repo (head_object t); klift (match o with Some _ => KOk tt | None => KErr (InvalidObject "superseded_by target not found") end)
    | None => mret tt
    end
  else klift (match superseded_by with Some _ => KErr (InvalidObject "'superseded_by' requires a transition to 'superseded'") | None => KOk tt end).

(** [transition_epistemic_locked]. *)
Definition transition_epistemic (clock ms : Z) (koid : KOID) (to : EpistemicStatus.t) (origin : Origin.t) (superseded_by : option KOID) (expected_version : option Z)
    (actor : bytes) (reason : option bytes) (predecessor_valid_to : option Z) : KM E (Z * Z) :=
  head ← authorized_head authorize koid Action.Write;
  let from := epistemic_status (ko_extensions head) (lc_state (ko_lifecycle head)) in
  _ ← klift (if EpistemicStatus.can_transition from to then KOk tt else KErr (InvalidEpistemic from to));
  let expected := default (ko_version head) expected_version in
  _ ← klift (if expected =? ko_version head then KOk tt else KErr (VersionConflict koid expected (ko_version head)));
  pipe ← kget k_pipe;
  let at_ := match p_pair_pin pipe with Some ts => ts / 2 ^ 16 | None => clock end in
  ko ← klift (transitioned at_ head to superseded_by predecessor_valid_to actor reason);
  _ ← check_successor to superseded_by;
  '(commit_ts, _) ← commit_version hmac_sha256 signer signing_key ms ko EventKind.EpistemicChanged origin actor reason None (Some (ko_relationships head)) None;
  mret ((ko_version head + 1) mod U64, commit_ts).
End Transition.

(* ------------------------------------------------------------------ *)
(** * The extensions after a transition *)

Lemma get_insert_eq {V} (m : list (bytes * V)) k v : btree_get (btree_insert m k v) k = Some v.
Proof. rewrite btree_get_insert. by rewrite (proj2 (bytes_eqb_eq k k) eq_refl). Qed.
Lemma get_insert_ne {V} (m : list (bytes * V)) k v k' : k' <> k -> btree_get (btree_insert m k v) k' = btree_get m k'.
Proof. intros Hne. rewrite btree_get_insert. by rewrite (proj2 (bytes_eqb_neq k' k) Hne). Qed.
Lemma get_remove {V} (m : list (bytes * V)) k k' : keys_sorted m -> btree_get (btree_remove m k) k' = if bytes_eqb k' k then None else btree_get m k'.
Proof.
  intros Hs. destruct (btree_get (btree_remove m k) k') as [v|] eqn:Eg.
  - apply btree_get_elem, btree_remove_elem in Eg as [Hin Hne]; [|done | by apply btree_remove_sorted]. cbn in Hne. rewrite (proj2 (bytes_eqb_neq k' k) Hne). symmetry. by apply btree_get_elem.
  - destruct (bytes_eqb k' k) eqn:E1; [done|]. apply bytes_eqb_neq in E1. destruct (btree_get m k') as [v|] eqn:Eg'; [|done]. exfalso.
    apply btree_get_elem in Eg'; [|done]. assert ((k', v) ∈ btree_remove m k) as Hin by (by apply btree_remove_elem). apply btree_get_elem in Hin; [congruence | by apply btree_remove_sorted].
Qed.
Lemma as_i64_small z : 0 <= z < 2 ^ 63 -> as_i64 z = z.
Proof. intros Hz. unfold as_i64, U64. rewrite Z.mod_small by lia. by rewrite (proj2 (Z.ltb_lt _ _)) by lia. Qed.
Lemma epistemic_names s : epistemic_from_name (epistemic_name s) = Some s.
Proof. by destruct s. Qed.
Definition history_of (ext : PropertyMap) (key : bytes) : list Value := match btree_get ext key with Some (VList l) => l | _ => [] end.
Lemma push_history_get ext key entry : history_of (push_history ext key entry) key = history_of ext key ++ [VMap entry].
Proof. unfold history_of, push_history. destruct (btree_get ext key) as [[]|]; by rewrite get_insert_eq. Qed.
Lemma push_history_other ext key entry k : k <> key -> btree_get (push_history ext key entry) k = btree_get ext k.
Proof. intros Hne. unfold push_history. destruct (btree_get ext key) as [[]|]; by apply get_insert_ne. Qed.

(** The instants of a stored interval are 64-bit signed and not negative. *)
Lemma ext_instant_bound ext key t : (forall v, btree_get ext key = Some (VInt v) -> v < 2 ^ 63) -> ext_instant ext key = Some t -> 0 <= t < 2 ^ 63 /\ btree_get ext key = Some (VInt t).
Proof.
  intros Hb. unfold ext_instant. destruct (btree_get ext key) as [[| |v| | | | |]|]; try done. destruct (0 <=? v) eqn:Ez; [|done]. intros [= ->]. split; [|done]. apply Z.leb_le in Ez. split; [done | by apply Hb].
Qed.
Definition ints_fit (ext : PropertyMap) : Prop := forall k v, btree_get ext k = Some (VInt v) -> v < 2 ^ 63.
Lemma close_valid_time_spec ext at_ : keys_sorted ext -> ints_fit ext -> 0 <= at_ < 2 ^ 63 ->
  exists ext' t, close_valid_time ext at_ = KOk ext' /\ valid_to ext' = Some t /\ valid_from ext' = valid_from ext /\
    (valid_to ext = Some t \/ valid_to ext = None /\ t = match valid_from ext with Some f => Z.max f at_ | None => at_ end) /\
    (forall k, k <> EXT_VALID_FROM -> k <> EXT_VALID_TO -> btree_get ext' k = btree_get ext k).
Proof.
  intros Hks Hi Ha. unfold close_valid_time. destruct (valid_to ext) as [t|] eqn:Et; [exists ext, t; split_and!; auto|].
  set (t := match valid_from ext with Some f => Z.max f at_ | None => at_ end).
  assert (0 <= t < 2 ^ 63) as Ht by (unfold t; destruct (valid_from ext) as [f|] eqn:Ef; [apply ext_instant_bound in Ef as [? _]; [lia | by apply Hi] | done]).
  unfold set_valid_time. assert ((match valid_from ext with Some f => t <? f | None => false end) = false) as ->.
  { unfold t. destruct (valid_from ext); [apply Z.ltb_ge; lia | done]. }
  eexists _, t. split; [reflexivity|]. cbn [set_bound]. rewrite as_i64_small by done. split_and!.
  - unfold valid_to, ext_instant. rewrite get_insert_eq. by rewrite (proj2 (Z.leb_le _ _)) by lia.
  - unfold valid_from at 1, ext_instant. rewrite get_insert_ne by done. destruct (valid_from ext) as [f|] eqn:Ef; cbn [set_bound].
    + apply ext_instant_bound in Ef as [Hf _]; [|by apply Hi]. rewrite get_insert_eq, as_i64_small by done. by rewrite (proj2 (Z.leb_le _ _)) by lia.
    + rewrite get_remove by done. done.
  - right. done.
  - intros k H1 H2. rewrite get_insert_ne by done. destruct (valid_from ext); cbn [set_bound]; [by apply get_insert_ne|]. rewrite get_remove by done. by rewrite (proj2 (bytes_eqb_neq k _) H1).
Qed.

Lemma map_wf_facts ext : map_wf ext = true -> keys_sorted ext /\ ints_fit ext.
Proof.
  intros [Hk Hv]%andb_true_iff. apply keys_ascend_sorted in Hk. split; [done|]. intros k v Hg. apply btree_get_elem in Hg; [|done]. rewrite forallb_forall in Hv.
  apply list_elem_of_In, Hv in Hg. cbn in Hg. bool_to_prop; destruct_and?. lia.
Qed.

(** What a transition makes of a head. *)
Definition status_of (ko : KnowledgeObject) : EpistemicStatus.t := epistemic_status (ko_extensions ko) (lc_state (ko_lifecycle ko)).
Record moved (at_ : Z) (head ko : KnowledgeObject) (to : EpistemicStatus.t) (actor : bytes) (reason : option bytes) : Prop := {
  moved_koid : ko_koid ko = ko_koid head;
  moved_version : ko_version ko = (ko_version head + 1) mod U64;
  moved_body : ko_metadata ko = ko_metadata head /\ ko_properties ko = ko_properties head /\ ko_lifecycle ko = ko_lifecycle head;
  moved_status : status_of ko = to;
  moved_history : history_of (ko_extensions ko) EXT_EPISTEMIC_HISTORY =
    history_of (ko_extensions head) EXT_EPISTEMIC_HISTORY ++ [VMap (history_entry (epistemic_name (status_of head)) (epistemic_name to) at_ actor reason)];
  moved_from : valid_from (ko_extensions ko) = valid_from (ko_extensions head);
  moved_to : valid_to (ko_extensions ko) =
    if bool_decide (to = EpistemicStatus.Superseded)
    then Some (default (match valid_from (ko_extensions head) with Some f => Z.max f at_ | None => at_ end) (valid_to (ko_extensions head)))
    else valid_to (ko_extensions head);
  moved_kept : forall key, key ∉ [EXT_EPISTEMIC_STATUS; EXT_EPISTEMIC_HISTORY; EXT_VALID_FROM; EXT_VALID_TO; EXT_VALID_TO_ASSERTED] ->
    btree_get (ko_extensions ko) key = btree_get (ko_extensions head) key }.
Lemma ext_instant_get ext ext' key : btree_get ext' key = btree_get ext key -> ext_instant ext' key = ext_instant ext key.
Proof. unfold ext_instant. by intros ->. Qed.
Lemma transitioned_ok at_ head to superseded_by pv actor reason : map_wf (ko_extensions head) = true -> 0 <= at_ < 2 ^ 63 ->
  exists ko, transitioned at_ head to superseded_by pv actor reason = KOk ko /\ moved at_ head ko to actor reason.
Proof.
  intros [Hk Hi]%map_wf_facts Ha. unfold transitioned. set (from := epistemic_status _ _). set (ext0 := set_epistemic_status (ko_extensions head) to).
  assert (keys_sorted ext0) as Hk0 by (by apply btree_insert_sorted).
  assert (ints_fit ext0) as Hi0.
  { intros k v. unfold ext0, set_epistemic_status. rewrite btree_get_insert. destruct (bytes_eqb k _); [done | by apply Hi]. }
  assert (forall k, k <> EXT_EPISTEMIC_STATUS -> btree_get ext0 k = btree_get (ko_extensions head) k) as Hg0 by (intros; by apply get_insert_ne).
  assert (exists ext1, (if bool_decide (to = EpistemicStatus.Superseded) then
      ext ← close_valid_time ext0 at_;
      KOk (match pv with Some t => btree_insert ext EXT_VALID_TO_ASSERTED (VInt (as_i64 (match valid_from ext with Some f => Z.max f t | None => t end))) | None => ext end)
    else KOk ext0) = KOk ext1 /\ btree_get ext1 EXT_EPISTEMIC_STATUS = btree_get ext0 EXT_EPISTEMIC_STATUS /\
    btree_get ext1 EXT_EPISTEMIC_HISTORY = btree_get ext0 EXT_EPISTEMIC_HISTORY /\ valid_from ext1 = valid_from ext0 /\
    valid_to ext1 = (if bool_decide (to = EpistemicStatus.Superseded) then Some (default (match valid_from ext0 with Some f => Z.max f at_ | None => at_ end) (valid_to ext0)) else valid_to ext0) /\
    (forall k, k <> EXT_VALID_FROM -> k <> EXT_VALID_TO -> k <> EXT_VALID_TO_ASSERTED -> btree_get ext1 k = btree_get ext0 k))
    as (ext1 & -> & Es & Eh & Ef & Et & Eo).
  { case_bool_decide; [|by exists ext0]. destruct (close_valid_time_spec ext0 at_ Hk0 Hi0 Ha) as (ext' & t & -> & E1 & E2 & E3 & E4). cbn [mbind KResult_bind].
    eexists. split; [reflexivity|]. assert (Some t = Some (default (match valid_from ext0 with Some f => Z.max f at_ | None => at_ end) (valid_to ext0))) as <- by (destruct E3 as [->|[-> ->]]; done).
    destruct pv as [p|]; [|rewrite !E4 by done; split_and!; auto]. rewrite !get_insert_ne by done. rewrite !E4 by done. split; [done|]. split; [done|].
    split; [etrans; [|exact E2]; apply ext_instant_get; by apply get_insert_ne|]. split; [etrans; [|exact E1]; apply ext_instant_get; by apply get_insert_ne|].
    intros k H1 H2 H3. rewrite get_insert_ne by done. by apply E4. }
  cbn [mbind KResult_bind]. eexists. split; [reflexivity|]. unfold push_epistemic_history. split; cbn [ko_koid ko_version ko_extensions ko_lifecycle status_of]; try done.
  - unfold status_of, epistemic_status. cbn [ko_extensions ko_lifecycle]. rewrite push_history_other by done. rewrite Es. unfold ext0, set_epistemic_status. rewrite get_insert_eq.
    cbn [mbind option_bind text_status]. by rewrite epistemic_names.
  - rewrite push_history_get. f_equal. unfold history_of. by rewrite Eh, Hg0.
  - unfold valid_from. rewrite (ext_instant_get ext1) by (by apply push_history_other). change (ext_instant ext1 EXT_VALID_FROM) with (valid_from ext1). rewrite Ef. apply ext_instant_get. by apply Hg0.
  - assert (valid_from ext0 = valid_from (ko_extensions head) /\ valid_to ext0 = valid_to (ko_extensions head)) as [<- <-] by (split; apply ext_instant_get; by apply Hg0).
    rewrite <-Et. apply ext_instant_get. by apply push_history_other.
  - intros key Hn. rewrite !not_elem_of_cons in Hn. destruct Hn as (H1 & H2 & H3 & H4 & H5 & _). rewrite push_history_other by done. rewrite Eo by done. by apply Hg0.
Qed.

(** The rest of the object a transition writes: the successor's edge, the asserted end of a
    supersession, and everything it does not name as it was. *)
Definition successor_edge (superseded_by : option KOID) : list RelationshipRef :=
  match superseded_by with Some t => [mkRelationshipRef SUPERSEDES t Direction.Outbound] | None => [] end.
Definition asserted_end (head : KnowledgeObject) (to : EpistemicStatus.t) (pv : option Z) : option Value :=
  if bool_decide (to = EpistemicStatus.Superseded) then
    match pv with
    | Some t => Some (VInt (as_i64 (match valid_from (ko_extensions head) with Some f => Z.max f t | None => t end)))
    | None => btree_get (ko_extensions head) EXT_VALID_TO_ASSERTED
    end
  else btree_get (ko_extensions head) EXT_VALID_TO_ASSERTED.
Record kept_otherwise (head ko : KnowledgeObject) (to : EpistemicStatus.t) (superseded_by : option KOID) (pv : option Z) : Prop := {
  kept_relationships : ko_relationships ko = ko_relationships head ++ successor_edge superseded_by;
  kept_semantic : ko_semantic ko = ko_semantic head;
  kept_security : ko_security ko = ko_security head;
  kept_asserted : btree_get (ko_extensions ko) EXT_VALID_TO_ASSERTED = asserted_end head to pv }.
Lemma transitioned_kept at_ head to superseded_by pv actor reason ko : map_wf (ko_extensions head) = true -> 0 <= at_ < 2 ^ 63 ->
  transitioned at_ head to superseded_by pv actor reason = KOk ko -> kept_otherwise head ko to superseded_by pv /\ ko_event_refs ko = ko_event_refs head.
Proof.
  intros [Hk Hi]%map_wf_facts Ha. unfold transitioned, asserted_end. set (ext0 := set_epistemic_status (ko_extensions head) to).
  assert (keys_sorted ext0) as Hk0 by (by apply btree_insert_sorted).
  assert (ints_fit ext0) as Hi0 by (intros k v; unfold ext0, set_epistemic_status; rewrite btree_get_insert; destruct (bytes_eqb k _); [done | by apply Hi]).
  assert (valid_from ext0 = valid_from (ko_extensions head)) as Ef0 by (apply ext_instant_get; by apply get_insert_ne).
  assert (forall ext ko', (mkKnowledgeObject (ko_koid head) ((ko_version head + 1) mod U64) (ko_commit_ts head) (ko_metadata head) (ko_properties head) (ko_semantic head)
      (match superseded_by with Some t => ko_relationships head ++ [mkRelationshipRef SUPERSEDES t Direction.Outbound] | None => ko_relationships head end)
      (ko_event_refs head) (ko_security head) (ko_lifecycle head) (push_epistemic_history ext (status_of head) to at_ actor reason)) = ko' ->
    btree_get ext EXT_VALID_TO_ASSERTED = asserted_end head to pv -> kept_otherwise head ko' to superseded_by pv /\ ko_event_refs ko' = ko_event_refs head) as Hfin.
  { intros ext ko' <- Ea. split; [|done]. split; cbn [ko_relationships ko_semantic ko_security ko_extensions]; [by destruct superseded_by; [|rewrite app_nil_r] | done | done|].
    unfold push_epistemic_history. rewrite push_history_other by done. exact Ea. }
  unfold asserted_end in Hfin. destruct (bool_decide (to = EpistemicStatus.Superseded)) eqn:Eb.
  - destruct (close_valid_time_spec ext0 at_ Hk0 Hi0 Ha) as (ext1 & t & -> & _ & Ef & _ & Ho). cbn [mbind KResult_bind]. intros [= Eko]. eapply Hfin; [exact Eko|].
    destruct pv as [z|]; [by rewrite get_insert_eq, Ef, Ef0|]. rewrite Ho by done. by apply get_insert_ne.
  - cbn [mbind KResult_bind]. intros [= Eko]. eapply Hfin; [exact Eko|]. by apply get_insert_ne.
Qed.
Lemma transitioned_validate at_ head to superseded_by pv actor reason ko :
  transitioned at_ head to superseded_by pv actor reason = KOk ko -> ko_validate ko = ko_validate head.
Proof.
  unfold transitioned. destruct (if bool_decide _ then _ else _) as [ext|e|]; [|done..]. intros [= <-]. unfold ko_validate. cbn [ko_metadata ko_security ko_relationships].
  destruct superseded_by; [|done]. rewrite existsb_app. cbn [existsb rel_type]. change (is_blank SUPERSEDES) with false. by rewrite !orb_false_r.
Qed.

(* ------------------------------------------------------------------ *)
(** * The transition in the pipeline *)

Section Ops.
Context {E : Type} `{HL : EngineLaws E} `{SHA : Sha256}.
Context (hmac_sha256 : bytes -> bytes -> bytes) (signer : option (bytes -> bytes)) (signing_key : option bytes).
Context (authorize : KnowledgeObject -> Action.t -> KResult unit).
Abbreviation kernel_ok := (kernel_ok hmac_sha256 signing_key).
Abbreviation transition_epistemic := (transition_epistemic hmac_sha256 signer signing_key authorize).
Implicit Types k : Kernel E.

Definition epistemic_fits k clock ms koid to origin superseded_by actor reason pv : Prop :=
  koid_ok koid = true /\ (forall t, superseded_by = Some t -> koid_ok t = true) /\ 0 <= clock < 2 ^ 63 /\
  forall head ko, (head_object koid (k_repo k)).2 = KOk (Some head) -> transitioned clock head to superseded_by pv actor reason = KOk ko ->
    version_fits hmac_sha256 signer signing_key k ms ko EventKind.EpistemicChanged origin actor reason None (Some (ko_relationships head)) None.
Lemma head_wf k s evs koid head : kernel_ok k s evs -> spec_head_object s koid = Some head -> ko_wf head = true /\ ko_koid head = koid.
Proof.
  intros Hok Hs. destruct (ok_repo _ _ _ _ _ Hok) as (m & Hm & Hr & _). unfold spec_head_object in Hs. destruct (spec_head s koid) as [[[ver ts] st]|] eqn:Eh; [|done]. cbn in Hs.
  apply spec_object_row in Hs. apply spec_head_row in Eh. destruct (proj1 Hr _ _ Hs) as [_ Hw]. row_fields Hw. split; [done|].
  destruct (ok_heads _ _ _ _ _ Hok _ _ _ _ Eh) as (ko & Ho & Hko & _). rewrite Hs in Ho. by injection Ho as ->.
Qed.

Lemma km_bind {A B} (m : KM E A) (f : A -> KM E B) k : (m ≫= f) k = match m k with (k, KOk a) => f a k | (k, KErr e) => (k, KErr e) | (k, KPanic) => (k, KPanic) end.
Proof. reflexivity. Qed.

(** When a head may move: the subject may write it, the statuses allow it, it is the version
    expected, a successor is named only for a supersession and is there, and the object is
    one the commit accepts. *)
Record may_move (heads : KOID -> option KnowledgeObject) (head : KnowledgeObject) (to : EpistemicStatus.t) (superseded_by : option KOID) (expected : option Z) : Prop := {
  mm_authorized : authorize head Action.Write = KOk tt;
  mm_lawful : EpistemicStatus.can_transition (status_of head) to = true;
  mm_expected : forall v, expected = Some v -> v = ko_version head;
  mm_successor : forall t, superseded_by = Some t -> to = EpistemicStatus.Superseded /\ is_Some (heads t);
  mm_valid : ko_validate head = KOk tt }.

(** The check of the successor, decided. *)
Lemma check_successor_ok k s evs to superseded_by : kernel_ok k s evs -> (forall t, superseded_by = Some t -> koid_ok t = true) ->
  exists r' x, check_successor to superseded_by k = (set_repo k r', x) /\ kernel_ok (set_repo k r') s evs /\ rp_engine r' = rp_engine (k_repo k) /\
    (x = KOk tt <-> forall t, superseded_by = Some t -> to = EpistemicStatus.Superseded /\ is_Some (spec_head_object s t)).
Proof.
  intros Hok Hk. assert (set_repo k (k_repo k) = k) as Ek by (by destruct k). unfold check_successor. case_bool_decide as Et.
  - destruct superseded_by as [t|]; [|exists (k_repo k), (KOk tt); by rewrite Ek]. destruct (ok_repo _ _ _ _ _ Hok) as (m & Hm & Hr & Hc).
    destruct (kernel_ok_read _ _ k s evs _ _ Hok (head_object_spec s m (k_repo k) t Hm Hr Hc (Hk t eq_refl))) as (r' & Er & Hok' & He).
    unfold mbind, KM_bind. rewrite Er. exists r'. unfold klift. destruct (spec_head_object s t) eqn:Es; eexists; (split; [reflexivity|]); (split; [done|]); (split; [done|]).
    + split; [|done]. intros _ t' [= <-]. by rewrite Es.
    + split; [done|]. intros Hs. destruct (Hs t eq_refl) as [_ []]. congruence.
  - unfold klift. exists (k_repo k). rewrite Ek. destruct superseded_by as [t|]; eexists; (split; [reflexivity|]); (split; [done|]); (split; [done|]); [|done].
    split; [done|]. intros Hs. by destruct (Hs t eq_refl).
Qed.

Ltac refuse r Er := exists r; split; [done|]; split; [done|]; left; eexists; split; [exact Er|]; split; [done|]; intros ? [= <-] [].

(** The transition is refused with only the cache changed, or is the commit of a moved head;
    it is refused exactly when the head may not move. *)
Lemma transition_cases k s evs clock ms koid to origin superseded_by expected actor reason pv :
  kernel_ok k s evs -> epistemic_fits k clock ms koid to origin superseded_by actor reason pv ->
  exists r', kernel_ok (set_repo k r') s evs /\ rp_engine r' = rp_engine (k_repo k) /\
    ((exists x, transition_epistemic clock ms koid to origin superseded_by expected actor reason pv k = (set_repo k r', x) /\ (forall a, x <> KOk a) /\
        forall head, spec_head_object s koid = Some head -> ~ may_move (spec_head_object s) head to superseded_by expected) \/
     exists head ko, spec_head_object s koid = Some head /\ may_move (spec_head_object s) head to superseded_by expected /\
       transitioned clock head to superseded_by pv actor reason = KOk ko /\ ko_validate ko = KOk tt /\
       version_fits hmac_sha256 signer signing_key (set_repo k r') ms ko EventKind.EpistemicChanged origin actor reason None (Some (ko_relationships head)) None /\
       transition_epistemic clock ms koid to origin superseded_by expected actor reason pv k =
         ('(ts, _) ← commit_version hmac_sha256 signer signing_key ms ko EventKind.EpistemicChanged origin actor reason None (Some (ko_relationships head)) None;
          mret ((ko_version head + 1) mod U64, ts)) (set_repo k r')).
Proof.
  intros Hok (Hk & Hsk & Hcl & Hf). destruct (authorized_head_ok hmac_sha256 signing_key authorize k s evs koid Action.Write Hok Hk) as (r1 & Hok1 & He1 & Hh & Ea).
  remember (transition_epistemic clock ms koid to origin superseded_by expected actor reason pv k) as res eqn:Er.
  unfold Epistemic.transition_epistemic in Er. rewrite km_bind, Ea in Er.
  destruct (spec_head_object s koid) as [head|] eqn:Es; [|refuse r1 Er].
  unfold mbind at 1 in Er. unfold KResult_bind in Er. destruct (authorize head Action.Write) as [[]|e|] eqn:Eau; [|refuse r1 Er; congruence..].
  cbn zeta in Er. rewrite km_bind in Er. unfold klift at 1 in Er. fold (status_of head) in Er.
  destruct (EpistemicStatus.can_transition (status_of head) to) eqn:Ec; [|refuse r1 Er; congruence].
  rewrite km_bind in Er. unfold klift at 1 in Er. destruct (Z.eqb_spec (default (ko_version head) expected) (ko_version head)) as [Ev|Ev].
  2: { refuse r1 Er. destruct expected as [v|]; cbn in Ev; [by rewrite (mm_expected0 v eq_refl) in Ev | done]. }
  rewrite km_bind in Er. unfold kget in Er. cbn [set_repo k_pipe] in Er. rewrite (ok_pin _ _ _ _ _ Hok) in Er. destruct (head_wf k s evs koid head Hok Es) as [Hw _].
  assert (map_wf (ko_extensions head) = true) as Hm by (unfold ko_wf in Hw; bool_to_prop; destruct_and?; done).
  destruct (transitioned_ok clock head to superseded_by pv actor reason Hm Hcl) as (ko & Et & Hmv). rewrite km_bind in Er. unfold klift at 1 in Er. rewrite Et in Er.
  destruct (check_successor_ok (set_repo k r1) s evs to superseded_by Hok1 Hsk) as (r2 & x & Ex & Hok2 & He2 & Hx). rewrite km_bind, Ex in Er.
  change (set_repo (set_repo k r1) r2) with (set_repo k r2) in *. assert (rp_engine r2 = rp_engine (k_repo k)) as He by (by rewrite He2).
  destruct x as [[]|e|]; [|refuse r2 Er; by apply Hx in mm_successor0..]. pose proof (transitioned_validate _ _ _ _ _ _ _ _ Et) as Ev'.
  destruct (ko_validate head) as [[]|e|] eqn:Evh.
  - exists r2. split; [done|]. split; [done|]. right. exists head, ko. split; [done|]. split; [split; [done | done | | by apply Hx | done]|].
    { intros v ->. done. }
    split; [done|]. split; [done|]. split; [|exact Er]. apply version_fits_same; [by rewrite He2|]. by apply Hf.
  - rewrite km_bind in Er. unfold commit_version in Er. rewrite km_bind in Er. unfold klift at 1 in Er. rewrite Ev' in Er. refuse r2 Er; congruence.
  - rewrite km_bind in Er. unfold commit_version in Er. rewrite km_bind in Er. unfold klift at 1 in Er. rewrite Ev' in Er. refuse r2 Er; congruence.
Qed.
Lemma transition_run k s evs clock ms koid to origin superseded_by expected actor reason pv :
  kernel_ok k s evs -> epistemic_fits k clock ms koid to origin superseded_by actor reason pv ->
  exists r', kernel_ok (set_repo k r') s evs /\ rp_engine r' = rp_engine (k_repo k) /\
    ((exists x, transition_epistemic clock ms koid to origin superseded_by expected actor reason pv k = (set_repo k r', x) /\ forall a, x <> KOk a) \/
     exists head ko, spec_head_object s koid = Some head /\ EpistemicStatus.can_transition (status_of head) to = true /\ moved clock head ko to actor reason /\
       version_fits hmac_sha256 signer signing_key (set_repo k r') ms ko EventKind.EpistemicChanged origin actor reason None (Some (ko_relationships head)) None /\
       transition_epistemic clock ms koid to origin superseded_by expected actor reason pv k =
         ('(ts, _) ← commit_version hmac_sha256 signer signing_key ms ko EventKind.EpistemicChanged origin actor reason None (Some (ko_relationships head)) None;
          mret ((ko_version head + 1) mod U64, ts)) (set_repo k r')).
Proof.
  intros Hok Hf. destruct (transition_cases k s evs clock ms koid to origin superseded_by expected actor reason pv Hok Hf) as (r' & Hok' & He & [(x & Ex & Hx & _)|(head & ko & Es & Hm & Et & _ & Hfit & Ex)]);
    exists r'; (split; [done|]); (split; [done|]); [left; by exists x | right]. exists head, ko. split; [done|]. split; [apply Hm|]. split; [|done]. destruct Hf as (_ & _ & Hcl & _).
  destruct (head_wf k s evs koid head Hok Es) as [Hw _]. destruct (transitioned_ok clock head to superseded_by pv actor reason) as (ko' & Et' & Hmv); [unfold ko_wf in Hw; bool_to_prop; destruct_and?; done | done|].
  rewrite Et in Et'. by injection Et' as <-.
Qed.
Lemma epistemic_step k s evs clock ms koid to origin superseded_by expected actor reason pv :
  kernel_ok k s evs -> epistemic_fits k clock ms koid to origin superseded_by actor reason pv ->
  step_ok hmac_sha256 signing_key 1 k s evs (transition_epistemic clock ms koid to origin superseded_by expected actor reason pv k).
Proof.
  intros Hok Hf. destruct (transition_run k s evs clock ms koid to origin superseded_by expected actor reason pv Hok Hf) as (r' & Hok' & He & [(x & -> & Hx)|(head & ko & _ & _ & _ & Hfit & ->)]).
  - exists s, []. rewrite !app_nil_r. split; [exact Hok'|]. split; [done|]. destruct x as [a|e|]; [by destruct (Hx a) | done | done].
  - apply (step_from _ _ _ k r'). apply (step_bind _ _ _ _ _ _ (commit_version _ _ _ _ _ _ _ _ _ _ _ _)); [by apply commit_step|]. intros [ts q] k'. eexists _, (k_usage k'). by destruct k'.
Qed.

(** C27: an epistemic transition succeeds exactly when the head may move, and moves nothing
    else.  It succeeds if and only if the object has a head that the subject may write, whose
    status may become the wanted one, which is the version expected, with a successor only for
    a supersession and then present, and which passes the commit's own validation.  Then the
    next read returns the wanted status, the next version number and the commit time it
    reports, one more history entry (from, to, instant, actor, reason) after the earlier ones,
    one more event reference, the successor's edge after the earlier relationships; a
    supersession ends the validity of an open interval at the instant, or at its start if that
    is later, and records the asserted end likewise; every other part of the object, and every
    other object, reads as before.  Where it is refused every object reads as before and the
    journal is untouched.  The kernel is one the commit pipeline keeps, and the new version
    fits the codec's lengths ([epistemic_fits]). *)
Theorem epistemic_transition_exact k s evs clock ms koid to origin superseded_by expected actor reason pv :
  kernel_ok k s evs -> epistemic_fits k clock ms koid to origin superseded_by actor reason pv ->
  let heads x := match (head_object x (k_repo k)).2 with KOk o => o | _ => None end in
  match transition_epistemic clock ms koid to origin superseded_by expected actor reason pv k with
  | (k', KOk (ver, ts)) => exists head ko, heads koid = Some head /\ may_move heads head to superseded_by expected /\
      (head_object koid (k_repo k')).2 = KOk (Some ko) /\ moved clock head ko to actor reason /\ kept_otherwise head ko to superseded_by pv /\
      ko_event_refs ko = ko_event_refs head ++ [mkEventRef (p_seq (k_pipe k')) EventKind.EpistemicChanged ts] /\
      ver = ko_version ko /\ ts = ko_commit_ts ko /\ p_seq (k_pipe k') = p_seq (k_pipe k) + 1 /\
      (forall x, x <> koid -> koid_ok x = true -> (head_object x (k_repo k')).2 = (head_object x (k_repo k)).2)
  | (k', _) => (forall head, heads koid = Some head -> ~ may_move heads head to superseded_by expected) /\
      (forall x, koid_ok x = true -> (head_object x (k_repo k')).2 = (head_object x (k_repo k)).2) /\ k_pipe k' = k_pipe k
  end.
Proof.
  intros Hok Hf heads. pose proof Hf as (Hk & Hsk & Hcl & _). assert (forall x, koid_ok x = true -> heads x = spec_head_object s x) as Eh by (intros x Hx; unfold heads; by rewrite (head_object_is _ _ _ _ _ x Hok Hx)).
  assert (forall head, may_move heads head to superseded_by expected <-> may_move (spec_head_object s) head to superseded_by expected) as Emm.
  { intros head. split; intros []; split; try done; intros t Ht; destruct (mm_successor0 t Ht) as [? Hs]; (split; [done|]); [rewrite <-Eh by (by apply Hsk) | rewrite Eh by (by apply Hsk)]; exact Hs. }
  destruct (transition_cases k s evs clock ms koid to origin superseded_by expected actor reason pv Hok Hf) as (r' & Hok' & He & [(x & -> & Hx & Hno)|(head & ko & Es & Hmm & Et & Ev & Hfit & ->)]).
  - assert ((forall head, heads koid = Some head -> ~ may_move heads head to superseded_by expected) /\
      (forall x, koid_ok x = true -> (head_object x (k_repo (set_repo k r'))).2 = (head_object x (k_repo k)).2) /\ k_pipe (set_repo k r') = k_pipe k); [|destruct x as [[? ?]|e|]; [by destruct (Hx (z, z0)) | done | done]].
    split; [|split; [|done]]; [intros head Hh; rewrite Emm; apply Hno; by rewrite <-Eh|]. intros z Hz. by rewrite (head_object_is _ _ _ _ _ _ Hok' Hz), (head_object_is _ _ _ _ _ _ Hok Hz).
  - rewrite km_bind. destruct (commit_version_ok hmac_sha256 signer signing_key (set_repo k r') s evs ms ko _ origin actor reason _ _ _ Hok' Ev Hfit) as (k' & -> & Hok'' & _).
    cbn [mret KM_ret]. destruct (head_wf _ _ _ _ _ Hok Es) as [Hw Hko]. assert (map_wf (ko_extensions head) = true) as Hmw by (unfold ko_wf in Hw; bool_to_prop; destruct_and?; done).
    destruct (transitioned_ok clock head to superseded_by pv actor reason Hmw Hcl) as (ko' & Et' & Hm). rewrite Et in Et'. injection Et' as <-.
    destruct (transitioned_kept _ _ _ _ _ _ _ _ Hmw Hcl Et) as [Hkept Hrefs]. destruct (ok_seq _ _ _ _ _ Hok) as [Eq _], (ok_seq _ _ _ _ _ Hok'') as [Eq' Hu].
    pose proof (moved_koid _ _ _ _ _ _ Hm) as Hkk. rewrite Hko in Hkk. assert (p_seq (k_pipe k') = p_seq (k_pipe k) + 1) as Eq1 by (by rewrite Eq', zlen_app, Eq).
    assert ((p_seq (k_pipe (set_repo k r')) + 1) mod U64 = p_seq (k_pipe k')) as Esq.
    { destruct Hfit as (_ & _ & Hq & _). cbn [set_repo k_pipe] in *. pose proof (zlen_nonneg evs). rewrite Z.mod_small by lia. lia. }
    exists head, (stamped (set_repo k r') ms ko EventKind.EpistemicChanged). split; [by rewrite Eh|]. split; [by apply Emm|].
    split; [rewrite (head_object_is _ _ _ _ _ _ Hok'' Hk), commit_head_object; by rewrite bool_decide_true|]. split; [by destruct Hm; split|]. split; [by destruct Hkept; split|].
    split; [unfold stamped; cbn [stamp ko_event_refs]; by rewrite Hrefs, Esq|]. split; [symmetry; apply (moved_version _ _ _ _ _ _ Hm)|]. split; [done|]. split; [lia|].
    intros z Hz Hzk. rewrite (head_object_is _ _ _ _ _ _ Hok'' Hzk), (head_object_is _ _ _ _ _ _ Hok Hzk), commit_head_object. by rewrite bool_decide_false by congruence.
Qed.
End Ops.
