(* ===== verification/CommitTxn.v ===== *)
(** A transaction keeps the journal: its batch as edits, its events as a chain, its rows. *)

From stdpp Require Import gmap.
From S2P Require Import Prelude Format Memtable Kom Codec CodecProps Store Repository RepositorySpec RepositoryReads Commit CommitInv CommitOps CommitRun.

(** The puts of a batch whose names are distinct. *)
Lemma spec_puts_nodup ps : forall (s : SpecState) id v, NoDup ps.*1 -> spec_puts s ps !! id = Some v <-> (id, v) ∈ ps \/ id ∉ ps.*1 /\ s !! id = Some v.
Proof.
  induction ps as [|[i w] ps IH]; intros s id v Hn; [cbn; set_solver|]. change (spec_puts s ((i, w) :: ps)) with (spec_puts (<[i := w]> s) ps).
  cbn [fmap list_fmap fst] in Hn |- *. inversion_clear Hn as [|? ? Hi Hn']. rewrite IH by done. rewrite lookup_insert_Some, elem_of_cons, not_elem_of_cons. split.
  - intros [Hin|[Hni [[-> ->]|[Hne Hs]]]]; [auto | by left; left | by right].
  - intros [[[= -> ->]|Hin]|[[Hne Hni] Hs]]; [right; split; [done | by left] | by left | right; split; [done | right; done]].
Qed.

Section Txn.
Context {E : Type} `{HL : EngineLaws E} `{SHA : Sha256}.
Context (hmac_sha256 : bytes -> bytes -> bytes) (signer : option (bytes -> bytes)) (signing_key : option bytes).
Abbreviation kernel_ok := (kernel_ok hmac_sha256 signing_key).
Abbreviation version_event := (version_event hmac_sha256 signer signing_key).
Abbreviation step_ok := (step_ok hmac_sha256 signing_key).
Implicit Types k : Kernel E.

(** A version of the transaction: the stamped object, its event, its previous edges. *)
Record Item : Type := mkItem { it_ko : KnowledgeObject; it_ke : KnowledgeEvent; it_prev : list RelationshipRef }.
Fixpoint txn_items (ts : Z) (ps : list Pending) (seq : Z) (audit sig : bytes) : list Item :=
  match ps with
  | [] => []
  | p :: ps =>
      let ko := stamp (pd_ko p) ts seq (pd_kind p) in
      let ke := version_event audit sig seq (ko_koid ko) (ko_version ko) (pd_kind p) (pd_origin p) (pd_actor p) ts (encode_ko ko) (pd_note p) in
      mkItem ko ke (pd_prev p) :: txn_items ts ps ((seq + 1) mod U64) (ke_audit_hash ke) (next_sig ke)
  end.
Definition item_eds (ts : Z) (i : Item) : list Edit :=
  let ko := it_ko i in
  [PutObject (ko_koid ko) ts ko; PutHead (ko_koid ko) (ko_version ko) ts (lc_state (ko_lifecycle ko))] ++ map (edge_write (ko_koid ko)) (ko_relationships ko) ++
  drop_edits (Some (it_prev i)) ko ++ [WriteType (type_name (ko_metadata ko)) (ko_koid ko)] ++ [PutEvent (ke_seq (it_ke i)) (it_ke i)].
Definition last_audit (audit : bytes) (its : list Item) : bytes := default audit ((fun i => ke_audit_hash (it_ke i)) <$> last its).
Definition last_sig (sig : bytes) (its : list Item) : bytes := default sig ((fun i => next_sig (it_ke i)) <$> last its).
Lemma last_audit_cons a i its : last_audit a (i :: its) = last_audit (ke_audit_hash (it_ke i)) its.
Proof. unfold last_audit. destruct its as [|j l]; [done|]. change (last (i :: j :: l)) with (last (j :: l)). destruct (last (j :: l)) eqn:El; [done|]. by apply last_None in El. Qed.
Lemma last_sig_cons a i its : last_sig a (i :: its) = last_sig (next_sig (it_ke i)) its.
Proof. unfold last_sig. destruct its as [|j l]; [done|]. change (last (i :: j :: l)) with (last (j :: l)). destruct (last (j :: l)) eqn:El; [done|]. by apply last_None in El. Qed.

(** The loop builds the batch of these edits, or stops at the first invalid object with only
    cache entries dropped. *)
Lemma item_step ts i (r : Repo E) b :
  fold_left edit_step (item_eds ts i) (r, b) =
  let ko := it_ko i in
  let '(r, b) := put_object_version r b (ko_koid ko) ts ko in
  let '(r, b) := put_head r b (ko_koid ko) (ko_version ko) ts (lc_state (ko_lifecycle ko)) in
  let b := put_edges b (ko_koid ko) (ko_relationships ko) in
  let b := del_edges b (ko_koid ko) (removed_edges (it_prev i) (ko_relationships ko)) in
  let b := write_type_index b (type_name (ko_metadata ko)) (ko_koid ko) in
  (r, put_event b (ke_seq (it_ke i)) (it_ke i)).
Proof.
  unfold item_eds. rewrite !fold_left_app. set (ko := it_ko i). cbn zeta.
  assert (fold_left edit_step [PutObject (ko_koid ko) ts ko; PutHead (ko_koid ko) (ko_version ko) ts (lc_state (ko_lifecycle ko))] (r, b) =
    let '(r, b) := put_object_version r b (ko_koid ko) ts ko in put_head r b (ko_koid ko) (ko_version ko) ts (lc_state (ko_lifecycle ko))) as -> by done.
  unfold put_object_version, put_head. rewrite fold_edges. unfold drop_edits. rewrite fold_drops. reflexivity.
Qed.
Lemma transact_loop_eq ts ps : forall seq audit sig (r : Repo E) b,
  let its := txn_items ts ps seq audit sig in
  if forallb (fun p => match ko_validate (pd_ko p) with KOk _ => true | _ => false end) ps
  then exists r' b', fold_left edit_step (flat_map (item_eds ts) its) (r, b) = (r', b') /\
    transact_loop hmac_sha256 signer signing_key ts ps seq audit sig r b = (r', KOk (b', map it_ke its, last_audit audit its, last_sig sig its))
  else exists eds r' b' err, fold_left edit_step eds (r, b) = (r', b') /\ transact_loop hmac_sha256 signer signing_key ts ps seq audit sig r b = (r', KErr err).
Proof.
  induction ps as [|p ps IH]; intros seq audit sig r b its; [by exists r, b|]. cbn [forallb]. set (ko := stamp (pd_ko p) ts seq (pd_kind p)).
  assert (ko_validate ko = ko_validate (pd_ko p)) as Ev by done. unfold its. clear its. cbn [txn_items transact_loop]. fold ko. rewrite Ev.
  destruct (ko_validate (pd_ko p)) as [[]|err|] eqn:Ep; cbn [andb].
  - set (ke := version_event _ _ _ _ _ _ _ _ _ _ _). pose proof (item_step ts (mkItem ko ke (pd_prev p)) r b) as Es. cbn [it_ko it_ke it_prev] in Es. cbn zeta in Es.
    destruct (put_object_version r b (ko_koid ko) ts ko) as [r1 b1]. destruct (put_head r1 b1 (ko_koid ko) (ko_version ko) ts (lc_state (ko_lifecycle ko))) as [r2 b2].
    change (ke_seq ke) with seq in Es. set (b3 := put_event _ seq ke) in *.
    specialize (IH ((seq + 1) mod U64) (ke_audit_hash ke) (next_sig ke) r2 b3). cbn zeta in IH. destruct (forallb _ ps).
    + destruct IH as (r' & b' & Ef & El). exists r', b'. cbn [flat_map]. rewrite fold_left_app, Es. split; [exact Ef|]. rewrite El, last_audit_cons, last_sig_cons. done.
    + destruct IH as (eds & r' & b' & err & Ef & El). exists (item_eds ts (mkItem ko ke (pd_prev p)) ++ eds), r', b', err. rewrite fold_left_app, Es. split; [exact Ef|]. by rewrite El.
  - by exists [], r, b, err.
  - exfalso. revert Ep. unfold ko_validate. repeat case_match; done.
Qed.

(** The events of the items are chained and numbered; each speaks of its object. *)
Definition item_good (ts : Z) (i : Item) : Prop :=
  ke_koid (it_ke i) = ko_koid (it_ko i) /\ ke_commit_ts (it_ke i) = ts /\ ko_commit_ts (it_ko i) = ts /\
  ke_payload_hash (it_ke i) = sha256 (encode_ko (it_ko i)) /\ ke_signature (it_ke i) = version_signature hmac_sha256 signing_key (encode_ko (it_ko i)).
Lemma items_good ts ps : forall seq audit sig, Forall (item_good ts) (txn_items ts ps seq audit sig).
Proof. induction ps as [|p ps IH]; intros seq audit sig; cbn [txn_items]; constructor; [done | apply IH]. Qed.
Lemma items_chain ts ps : forall seq audit sig, let its := txn_items ts ps seq audit sig in chain audit (map it_ke its) (last_audit audit its).
Proof.
  induction ps as [|p ps IH]; intros seq audit sig its; [done|]. unfold its. cbn [txn_items map]. rewrite last_audit_cons. cbn [it_ke chain].
  split; [done|]. split; [done|]. apply IH.
Qed.
Lemma items_numbered ts ps : forall n audit sig, 0 <= n -> n + zlen ps < U64 -> let its := txn_items ts ps ((n + 1) mod U64) audit sig in
  numbered n (map it_ke its) = map (fun i => (ke_seq (it_ke i), it_ke i)) its.
Proof.
  induction ps as [|p ps IH]; intros n audit sig Hn Hu its; [done|]. rewrite zlen_cons in Hu. pose proof (zlen_nonneg ps). unfold its. cbn [txn_items map numbered it_ke].
  assert ((n + 1) mod U64 = n + 1) as En by (rewrite Z.mod_small; lia). f_equal; [cbn; by rewrite En|]. rewrite En. apply IH; lia.
Qed.
Lemma items_koids ts ps : forall seq audit sig, map (fun i => ko_koid (it_ko i)) (txn_items ts ps seq audit sig) = map (fun p => ko_koid (pd_ko p)) ps.
Proof. induction ps as [|p ps IH]; intros seq audit sig; [done|]. cbn [txn_items map]. by rewrite IH. Qed.
Lemma numbered_nodup evs : forall n, NoDup (map fst (numbered n evs)).
Proof.
  induction evs as [|e evs IH]; intros n; [constructor|]. cbn [numbered map fst]. constructor; [|apply IH]. intros ([q ke] & Eq & Hin)%list_elem_of_fmap.
  apply numbered_bound in Hin. cbn in Eq. lia.
Qed.

(** The rows of the journal a transaction writes. *)
Definition item_puts (ts : Z) (i : Item) : list (RowId * RowValue) :=
  let ko := it_ko i in
  [(IdObj (ko_koid ko) ts, VObj ko); (IdHead (ko_koid ko), VHead (ko_version ko, ts, lc_state (ko_lifecycle ko))); (IdKe (ke_seq (it_ke i)), VKe (it_ke i))].
Lemma core_items ts its : core_puts (flat_map (item_eds ts) its) = flat_map (item_puts ts) its /\ core_dels (flat_map (item_eds ts) its) = [].
Proof.
  induction its as [|i its [IH1 IH2]]; [done|]. cbn [flat_map]. rewrite core_puts_app, core_dels_app, IH1, IH2. unfold item_eds. rewrite !core_puts_app, !core_dels_app.
  destruct (core_edges (ko_koid (it_ko i)) (ko_relationships (it_ko i))) as [-> ->], (core_drop_edits (Some (it_prev i)) (it_ko i)) as [-> ->].
  by destruct (core_type (type_name (ko_metadata (it_ko i))) (ko_koid (it_ko i))) as [-> ->].
Qed.
Definition item_ids (ts : Z) (i : Item) : list RowId := [IdObj (ko_koid (it_ko i)) ts; IdHead (ko_koid (it_ko i)); IdKe (ke_seq (it_ke i))].
Lemma item_ids_elem ts its id : id ∈ (flat_map (item_puts ts) its).*1 <-> exists i, i ∈ its /\ id ∈ item_ids ts i.
Proof.
  induction its as [|i its IH]; [cbn; split; [by intros ?%not_elem_of_nil | intros (? & ?%not_elem_of_nil & _); done]|].
  cbn [flat_map]. rewrite fmap_app, elem_of_app, IH. setoid_rewrite elem_of_cons. change (item_puts ts i).*1 with (item_ids ts i). naive_solver.
Qed.
Lemma item_puts_elem ts its x : x ∈ flat_map (item_puts ts) its <-> exists i, i ∈ its /\ x ∈ item_puts ts i.
Proof.
  induction its as [|i its IH]; [cbn; split; [by intros ?%not_elem_of_nil | intros (? & ?%not_elem_of_nil & _); done]|].
  cbn [flat_map]. rewrite elem_of_app, IH. setoid_rewrite elem_of_cons. naive_solver.
Qed.
Lemma item_ids_nodup ts its : NoDup (map (fun i => ko_koid (it_ko i)) its) -> NoDup (map (fun i => ke_seq (it_ke i)) its) -> NoDup (flat_map (item_puts ts) its).*1.
Proof.
  induction its as [|i its IH]; [constructor|]. cbn [map flat_map]. intros [Hk Hk']%NoDup_cons [Hq Hq']%NoDup_cons. rewrite fmap_app. apply NoDup_app.
  change (item_puts ts i).*1 with (item_ids ts i). split; [|split; [|by apply IH]].
  - unfold item_ids. repeat constructor; rewrite ?elem_of_cons; intros Hx; destruct_or? Hx; try done; by apply not_elem_of_nil in Hx.
  - intros id Hid (j & Hj & Hid')%item_ids_elem.
    assert (ko_koid (it_ko i) <> ko_koid (it_ko j)) as Hne by (intros Heq; apply Hk, list_elem_of_fmap; eauto).
    assert (ke_seq (it_ke i) <> ke_seq (it_ke j)) as Hne' by (intros Heq; apply Hq, list_elem_of_fmap; eauto).
    unfold item_ids in *. rewrite !elem_of_cons in Hid, Hid'. rewrite elem_of_nil in Hid, Hid'. naive_solver.
Qed.

(** ** The transaction at a kernel's state *)
Definition items_at k ms ps : list Item :=
  txn_items (hlc_now (k_hlc k) ms) ps ((p_seq (k_pipe k) + 1) mod U64) (p_audit (k_pipe k)) (p_prev_sig (k_pipe k)).
Definition txn_tail (seq : Z) (audit : bytes) (ts : Z) (u : Usage) (created : list (option bytes)) (schema_row txn_row : option (bytes * bytes)) : list Edit :=
  [PutJournal seq audit ts; PutUsageHead seq ts] ++ map (fun x => PutUsage x.1 (usage_of u x.1 + x.2)) (map_to_list (fold_left record_create created ∅)) ++
  match schema_row with Some (ty, v) => [PutSchema ty v] | None => [] end ++ match txn_row with Some (tid, v) => [PutTxn tid v] | None => [] end.
Definition txn_edits_at k ms ps created schema_row txn_row : list Edit :=
  let ts := hlc_now (k_hlc k) ms in let its := items_at k ms ps in
  flat_map (item_eds ts) its ++ txn_tail ((p_seq (k_pipe k) + zlen (map it_ke its)) mod U64) (last_audit (p_audit (k_pipe k)) its) ts (k_usage k) created schema_row txn_row.
Lemma fold_usage (u : Usage) cs : forall (r : Repo E) b,
  fold_left edit_step (map (fun x => PutUsage x.1 (usage_of u x.1 + x.2)) cs) (r, b) =
  (r, fold_left (fun b x => wb_put b (usage_row_key x.1) (le_bytes 8 (usage_of u x.1 + x.2))) cs b).
Proof. induction cs as [|c cs IH]; intros r b; [done|]. cbn [map fold_left]. apply IH. Qed.
Lemma core_tail seq audit ts u created schema_row txn_row :
  core_puts (txn_tail seq audit ts u created schema_row txn_row) = [(IdJournal, VJournal seq audit ts)] /\ core_dels (txn_tail seq audit ts u created schema_row txn_row) = [].
Proof.
  unfold txn_tail. rewrite !core_puts_app, !core_dels_app.
  assert (forall cs, core_puts (map (fun x => PutUsage x.1 (usage_of u x.1 + x.2)) cs) = [] /\ core_dels (map (fun x => PutUsage x.1 (usage_of u x.1 + x.2)) cs) = []) as Hu
    by (intros cs; induction cs; done).
  destruct (Hu (map_to_list (fold_left record_create created ∅))) as [-> ->]. by destruct schema_row as [[? ?]|], txn_row as [[? ?]|].
Qed.
Lemma broadcast_all (kes : list KnowledgeEvent) : forall k,
  foldr (fun ke m => _ ← broadcast ke; m) (mret tt) kes k = (mkKernel (k_repo k) (k_hlc k) (k_pipe k) (k_usage k) (k_sent k ++ kes), KOk tt).
Proof.
  induction kes as [|ke kes IH]; intros k; [destruct k; cbn; by rewrite app_nil_r|]. cbn [foldr]. unfold mbind, KM_bind, broadcast, kset. rewrite IH. cbn. by rewrite <-app_assoc.
Qed.
Lemma transact_eq k ms ps created schema_row txn_row :
  let ts := hlc_now (k_hlc k) ms in let its := items_at k ms ps in
  if forallb (fun p => match ko_validate (pd_ko p) with KOk _ => true | _ => false end) ps
  then transact_commit hmac_sha256 signer signing_key ms ps created schema_row txn_row k =
    match commit_edits (k_repo k) (txn_edits_at k ms ps created schema_row txn_row) with
    | (r, KOk _) => (set_usage (after_commit k ts (map it_ke its) (last_audit (p_audit (k_pipe k)) its) (last_sig (p_prev_sig (k_pipe k)) its) r)
        (fold_left record_create created (k_usage k)), KOk (map it_ke its))
    | (r, KErr e) => (set_repo (set_hlc k ts) r, KErr e)
    | (r, KPanic) => (set_repo (set_hlc k ts) r, KPanic)
    end
  else exists eds err, transact_commit hmac_sha256 signer signing_key ms ps created schema_row txn_row k = (set_repo (set_hlc k ts) (build_batch (k_repo k) eds).1, KErr err).
Proof.
  intros ts its. pose proof (transact_loop_eq ts ps ((p_seq (k_pipe k) + 1) mod U64) (p_audit (k_pipe k)) (p_prev_sig (k_pipe k)) (k_repo k) wb_new) as Hl.
  cbn zeta in Hl. unfold transact_commit. destruct (forallb _ ps).
  - destruct Hl as (r' & b' & Ef & El). unfold mbind, KM_bind, kget, tick. fold ts. cbn [set_hlc k_pipe k_usage k_repo]. rewrite El. unfold commit_edits, build_batch, txn_edits_at, txn_tail.
    unfold its, items_at. fold ts. rewrite !fold_left_app. rewrite Ef. cbn [fold_left edit_step].
    rewrite fold_usage.
    assert (forall (r : Repo E) b, fold_left edit_step (match txn_row with Some (tid, v) => [PutTxn tid v] | None => [] end)
      (fold_left edit_step (match schema_row with Some (ty, v) => [PutSchema ty v] | None => [] end) (r, b)) =
      (r, let b := match schema_row with Some (ty, v) => put_schema_row b ty v | None => b end in match txn_row with Some (tid, v) => put_txn_record b tid v | None => b end)) as Et
      by (intros r b; by destruct schema_row as [[? ?]|], txn_row as [[? ?]|]).
    rewrite Et. cbn zeta. match goal with |- context [repo_write_batch ?r ?b] => destruct (repo_write_batch r b) as [r0 [?|?|]] end; [|reflexivity..].
    unfold kset. rewrite broadcast_all. reflexivity.
  - destruct Hl as (eds & r' & b' & err & Ef & El). exists eds, err. unfold mbind, KM_bind, kget, tick. fold ts. cbn [set_hlc k_pipe k_usage k_repo]. rewrite El. unfold build_batch. by rewrite Ef.
Qed.

(** What a transaction needs: distinct objects, counters with room, a batch that fits. *)
Definition txn_fits k ms ps created schema_row txn_row : Prop :=
  0 <= ms < 2 ^ 48 /\ k_hlc k + 1 < U64 /\ p_seq (k_pipe k) + zlen ps < U64 /\ NoDup (map (fun p => ko_koid (pd_ko p)) ps) /\
  commit_fits (k_repo k) (txn_edits_at k ms ps created schema_row txn_row).

(** The rows after the batch. *)
Lemma txn_rows (s : SpecState) ts its (n : Z) (audit : bytes) (P : list (RowId * RowValue)) :
  NoDup (map (fun i => ko_koid (it_ko i)) its) -> NoDup (map (fun i => ke_seq (it_ke i)) its) ->
  P = flat_map (item_puts ts) its ++ [(IdJournal, VJournal n audit ts)] ->
  (forall id v, spec_puts s P !! id = Some v <-> (id, v) ∈ P \/ id ∉ P.*1 /\ s !! id = Some v) /\
  (forall id, (forall i, i ∈ its -> id ∉ item_ids ts i) -> id <> IdJournal -> spec_puts s P !! id = s !! id) /\
  (forall i x, i ∈ its -> x ∈ item_puts ts i -> spec_puts s P !! x.1 = Some x.2).
Proof.
  intros Hk Hq ->. assert (NoDup (flat_map (item_puts ts) its ++ [(IdJournal, VJournal n audit ts)]).*1) as Hn.
  { rewrite fmap_app. apply NoDup_app. split; [by apply item_ids_nodup|]. split; [|repeat constructor; apply not_elem_of_nil].
    intros id (i & _ & Hi)%item_ids_elem Hj. apply list_elem_of_singleton in Hj as ->. unfold item_ids in Hi. rewrite !elem_of_cons, elem_of_nil in Hi. naive_solver. }
  split; [intros id v; by apply spec_puts_nodup|]. split.
  - intros id Hid Hj. apply spec_puts_other. change (map fst ?l) with l.*1. rewrite fmap_app, elem_of_app, item_ids_elem. change ([(IdJournal, _)].*1) with [IdJournal]. rewrite list_elem_of_singleton. naive_solver.
  - intros i [id v] Hi Hx. cbn. apply spec_puts_nodup; [done|]. left. apply elem_of_app. left. apply item_puts_elem. eauto.
Qed.
Lemma item_ids_ne ts i id : (match id with IdObj x t => x <> ko_koid (it_ko i) \/ t <> ts | IdHead x => x <> ko_koid (it_ko i) | IdKe q => q <> ke_seq (it_ke i) | _ => True end) -> id ∉ item_ids ts i.
Proof. unfold item_ids. rewrite !elem_of_cons, elem_of_nil. destruct id; naive_solver. Qed.

Lemma txn_core k (s : SpecState) ms ps created schema_row txn_row id : core id = true ->
  let its := items_at k ms ps in
  spec_commit s (txn_edits_at k ms ps created schema_row txn_row) !! id =
  spec_puts s (flat_map (item_puts (hlc_now (k_hlc k) ms)) its ++
    [(IdJournal, VJournal ((p_seq (k_pipe k) + zlen (map it_ke its)) mod U64) (last_audit (p_audit (k_pipe k)) its) (hlc_now (k_hlc k) ms))]) !! id.
Proof.
  intros Hc its. rewrite spec_commit_core by done. unfold txn_edits_at. fold its. rewrite core_puts_app, core_dels_app. destruct (core_items (hlc_now (k_hlc k) ms) its) as [-> ->].
  by destruct (core_tail ((p_seq (k_pipe k) + zlen (map it_ke its)) mod U64) (last_audit (p_audit (k_pipe k)) its) (hlc_now (k_hlc k) ms) (k_usage k) created schema_row txn_row) as [-> ->].
Qed.

Lemma txn_extends k s evs ms ps created schema_row txn_row (r : Repo E) :
  let ts := hlc_now (k_hlc k) ms in let its := items_at k ms ps in let s' := spec_commit s (txn_edits_at k ms ps created schema_row txn_row) in
  kernel_ok k s evs -> txn_fits k ms ps created schema_row txn_row -> repo_ok r s' ->
  kernel_ok (after_commit k ts (map it_ke its) (last_audit (p_audit (k_pipe k)) its) (last_sig (p_prev_sig (k_pipe k)) its) r) s' (evs ++ map it_ke its).
Proof.
  intros ts its s' Hok (Hms & Hh & Hq & Hnd & Hf) Hr'. pose proof (hlc_now_later (k_hlc k) ms ltac:(apply Hok) Hh Hms) as Hts. fold ts in Hts.
  destruct (ok_seq _ _ _ _ _ Hok) as [Eq Hu]. pose proof (zlen_nonneg evs). pose proof (zlen_nonneg ps).
  assert (map (fun i => ko_koid (it_ko i)) its = map (fun p => ko_koid (pd_ko p)) ps) as Ek by apply items_koids.
  assert (zlen (map it_ke its) = zlen ps) as El by (apply (f_equal length) in Ek; rewrite !length_map in Ek; unfold zlen; rewrite length_map; lia).
  assert (numbered (zlen evs) (map it_ke its) = map (fun i => (ke_seq (it_ke i), it_ke i)) its) as Hnum by (unfold its, items_at; rewrite Eq; apply items_numbered; lia).
  assert (NoDup (map (fun i => ke_seq (it_ke i)) its)) as Hqs by (pose proof (numbered_nodup (map it_ke its) (zlen evs)) as Hn; rewrite Hnum, map_map in Hn; exact Hn).
  assert (forall q ke, (q, ke) ∈ numbered (zlen evs) (map it_ke its) <-> exists i, i ∈ its /\ q = ke_seq (it_ke i) /\ ke = it_ke i) as Hne
    by (intros q ke; rewrite Hnum, list_elem_of_fmap; naive_solver).
  pose proof (items_good ts ps ((p_seq (k_pipe k) + 1) mod U64) (p_audit (k_pipe k)) (p_prev_sig (k_pipe k))) as Hg. change (Forall (item_good ts) its) in Hg. rewrite Forall_forall in Hg.
  assert ((p_seq (k_pipe k) + zlen (map it_ke its)) mod U64 = zlen evs + zlen ps) as Es by (rewrite Z.mod_small; lia).
  destruct (txn_rows s ts its (zlen evs + zlen ps) (last_audit (p_audit (k_pipe k)) its) _ ltac:(by rewrite Ek) Hqs eq_refl) as (Hl & Hother & Hput). set (P := _ ++ _) in Hl, Hother, Hput.
  assert (forall id, core id = true -> s' !! id = spec_puts s P !! id) as Hc by (intros id Hc; unfold s'; rewrite txn_core by done; unfold P; by rewrite <-Es).
  assert (forall i, i ∈ its -> spec_puts s P !! IdObj (ko_koid (it_ko i)) ts = Some (VObj (it_ko i))) as Hobj
    by (intros i Hi; apply (Hput i (IdObj (ko_koid (it_ko i)) ts, VObj (it_ko i)) Hi); unfold item_puts; set_solver).
  apply (kernel_extend _ _ k s evs _ s' (map it_ke its) ts); [exact Hok | exact Hr' | exact Hts | reflexivity | apply Hok | | | | | | | | | |].
  - cbn [k_pipe after_commit p_seq]. rewrite zlen_app, El. by rewrite El in Es.
  - rewrite zlen_app. lia.
  - apply items_chain.
  - intros q v. rewrite Hc, Hl by done. setoid_rewrite Hne. unfold P. rewrite elem_of_app, item_puts_elem, fmap_app, elem_of_app, item_ids_elem.
    change ([(IdJournal, _)].*1) with [IdJournal]. rewrite !list_elem_of_singleton. split.
    + intros [[(i & Hi & Hx)|Hx]|[Hn Hs]]; [right | done | left].
      * unfold item_puts in Hx. rewrite !elem_of_cons, elem_of_nil in Hx. naive_solver.
      * split; [done|]. intros ke (i & Hi & -> & _). apply Hn. left. exists i. split; [done|]. unfold item_ids. set_solver.
    + intros [[Hs Hn]|(ke & -> & i & Hi & -> & ->)]; [right | left; left; exists i; split; [done|]; unfold item_puts; set_solver].
      split; [|done]. intros [(i & Hi & Hx)|?]; [|done]. unfold item_ids in Hx. rewrite !elem_of_cons, elem_of_nil in Hx. naive_solver.
  - rewrite Hc by done. rewrite zlen_app, El. apply Hl. left. unfold P. set_solver.
  - intros x Hx. rewrite Hc by done. rewrite Hother; [done | | done]. intros i _. by apply item_ids_ne.
  - intros x t Ht. left. rewrite Hc by done. apply Hother; [|done]. intros i _. apply item_ids_ne. right. lia.
  - intros x t v. rewrite Hc, Hl by done. intros [Hin|[_ Hs%(ok_fresh _ _ _ _ _ Hok)]]; [|lia]. unfold P in Hin. rewrite elem_of_app, item_puts_elem, list_elem_of_singleton in Hin.
    destruct Hin as [(i & Hi & Hx)|?]; [|done]. unfold item_puts in Hx. rewrite !elem_of_cons, elem_of_nil in Hx. naive_solver lia.
  - apply Forall_fmap, Forall_forall. intros i Hi. destruct (Hg i Hi) as (Gk & Gt & _ & Gp & Gs). cbn [compose]. rewrite Gt. split; [|lia]. unfold payload_ok. rewrite Gk, Gt.
    unfold spec_object. rewrite Hc by done. rewrite (Hobj i Hi). cbn [snd as_obj mbind option_bind].
    split; [done|]. intros sg key Hsg Hkey. rewrite Gs in Hsg. unfold version_signature in Hsg. rewrite Hkey in Hsg. by injection Hsg as <-.
  - intros x ver t st. rewrite Hc, Hl by done. intros [Hin|[Hn Hs]].
    + unfold P in Hin. rewrite elem_of_app, item_puts_elem, list_elem_of_singleton in Hin. destruct Hin as [(i & Hi & Hx)|?]; [|done].
      unfold item_puts in Hx. rewrite !elem_of_cons, elem_of_nil in Hx. destruct Hx as [?|[[= -> -> -> ->]|[?|[]]]]; [done| |done]. exists (it_ko i). rewrite Hc by done.
      rewrite (Hobj i Hi). destruct (Hg i Hi) as (_ & _ & ? & _). done.
    + apply (ok_heads _ _ _ _ _ Hok) in Hs as (ko & Ho & ?). exists ko. rewrite Hc by done. rewrite Hother; [done | | done]. intros i Hi. apply item_ids_ne. left. intros ->.
      apply Hn. unfold P. rewrite fmap_app, elem_of_app, item_ids_elem. left. exists i. split; [done|]. unfold item_ids. set_solver.
Qed.

Lemma build_batch_quiet (r : Repo E) s eds : repo_ok r s -> repo_ok (build_batch r eds).1 s.
Proof.
  intros (m & Hm & Hr & Hc). destruct (build_batch_spec s eds [] r wb_new Hc) as (r1 & b & E1 & Ee & [Hc1 _] & _); [intros c _; split; intros; apply not_elem_of_nil|].
  unfold build_batch. rewrite E1. exists m. cbn. rewrite Ee. done.
Qed.

Lemma transact_step k s evs ms ps created schema_row txn_row :
  kernel_ok k s evs -> txn_fits k ms ps created schema_row txn_row ->
  step_ok (zlen ps) k s evs (transact_commit hmac_sha256 signer signing_key ms ps created schema_row txn_row k).
Proof.
  intros Hok Hfit. pose proof Hfit as (Hms & Hh & Hq & Hnd & Hf). pose proof (hlc_now_later (k_hlc k) ms ltac:(apply Hok) Hh Hms) as Hts.
  pose proof (transact_eq k ms ps created schema_row txn_row) as Ht. cbn zeta in Ht. destruct (forallb _ ps) eqn:Ev.
  - destruct (commit_spec s (k_repo k) _ (ok_repo _ _ _ _ _ Hok) Hf) as (r & Er & Hr'). rewrite Er in Ht. rewrite Ht. eexists _, (map it_ke (items_at k ms ps)).
    split; [apply kernel_ok_usage; by apply txn_extends|]. split; [done|]. cbn.
    pose proof (f_equal length (items_koids (hlc_now (k_hlc k) ms) ps ((p_seq (k_pipe k) + 1) mod U64) (p_audit (k_pipe k)) (p_prev_sig (k_pipe k)))) as El.
    rewrite !length_map in El. unfold zlen. rewrite length_map. unfold items_at. lia.
  - destruct Ht as (eds & err & ->). apply step_err; [|done..]. apply kernel_ok_repo; [apply kernel_ok_hlc; [done | lia]|]. by apply build_batch_quiet, Hok.
Qed.

Lemma items_seqs k s evs ms ps : kernel_ok k s evs -> p_seq (k_pipe k) + zlen ps < U64 -> NoDup (map (fun i => ke_seq (it_ke i)) (items_at k ms ps)).
Proof.
  intros Hok Hq. destruct (ok_seq _ _ _ _ _ Hok) as [Eq _]. pose proof (zlen_nonneg evs).
  assert (numbered (zlen evs) (map it_ke (items_at k ms ps)) = map (fun i => (ke_seq (it_ke i), it_ke i)) (items_at k ms ps)) as Hnum by (unfold items_at; rewrite Eq; apply items_numbered; lia).
  pose proof (numbered_nodup (map it_ke (items_at k ms ps)) (zlen evs)) as Hn. by rewrite Hnum, map_map in Hn.
Qed.
(** The heads after the batch. *)
Lemma txn_heads k s evs ms ps created schema_row txn_row :
  kernel_ok k s evs -> p_seq (k_pipe k) + zlen ps < U64 -> NoDup (map (fun p => ko_koid (pd_ko p)) ps) ->
  let s' := spec_commit s (txn_edits_at k ms ps created schema_row txn_row) in
  (forall i, i ∈ items_at k ms ps -> spec_head_object s' (ko_koid (it_ko i)) = Some (it_ko i)) /\
  (forall x, x ∉ map (fun p => ko_koid (pd_ko p)) ps -> spec_head_object s' x = spec_head_object s x).
Proof.
  intros Hok Hq Hnd s'. pose proof (items_koids (hlc_now (k_hlc k) ms) ps ((p_seq (k_pipe k) + 1) mod U64) (p_audit (k_pipe k)) (p_prev_sig (k_pipe k))) as Ek.
  change (txn_items _ ps _ _ _) with (items_at k ms ps) in Ek. rewrite <-Ek in Hnd |- *. set (ts := hlc_now (k_hlc k) ms) in *.
  pose proof (fun id => txn_core k s ms ps created schema_row txn_row id) as Hc. fold ts in Hc. cbn zeta in Hc. fold s' in Hc.
  destruct (txn_rows s ts (items_at k ms ps) ((p_seq (k_pipe k) + zlen (map it_ke (items_at k ms ps))) mod U64) (last_audit (p_audit (k_pipe k)) (items_at k ms ps)) _ Hnd
    (items_seqs k s evs ms ps Hok Hq) eq_refl) as (_ & Hother & Hput). split.
  - intros i Hi. assert (s' !! IdHead (ko_koid (it_ko i)) = Some (VHead (ko_version (it_ko i), ts, lc_state (ko_lifecycle (it_ko i))))) as Eh
      by (rewrite Hc by done; apply (Hput i (IdHead _, VHead _) Hi); unfold item_puts; set_solver).
    assert (s' !! IdObj (ko_koid (it_ko i)) ts = Some (VObj (it_ko i))) as Eo by (rewrite Hc by done; apply (Hput i (IdObj _ _, VObj _) Hi); unfold item_puts; set_solver).
    unfold spec_head_object, spec_head. rewrite Eh. cbn [snd as_head mbind option_bind fst]. unfold spec_object. by rewrite Eo.
  - intros x Hx. assert (forall i, i ∈ items_at k ms ps -> x <> ko_koid (it_ko i)) as Hne by (intros i Hi ->; apply Hx, list_elem_of_fmap; eauto).
    unfold spec_head_object, spec_head. rewrite Hc, Hother by (done || (intros i Hi; apply item_ids_ne; by apply Hne)). destruct (s !! IdHead x ≫= as_head) as [[[ver t] st]|]; [|done].
    cbn [mbind option_bind fst snd]. unfold spec_object. rewrite Hc, Hother by (done || (intros i Hi; apply item_ids_ne; left; by apply Hne)). done.
Qed.
(** Only the row of its own transaction is written by a batch. *)
Lemma txn_row_other (s : SpecState) eds t : (forall v, PutTxn t v ∉ eds) -> spec_commit s eds !! IdTxn t = s !! IdTxn t.
Proof.
  intros Hn. apply spec_commit_other. intros Hin. apply list_elem_of_In, in_flat_map in Hin as (ed & Hed & Hin). apply list_elem_of_In in Hed, Hin.
  unfold edit_touches in Hin. rewrite elem_of_app in Hin.
  destruct ed; cbn [edit_puts edit_dels] in Hin; repeat case_match; cbn [map fst] in Hin; rewrite ?elem_of_cons in Hin;
    destruct_or?; try discriminate; try (by apply elem_of_nil in Hin). by eapply Hn; simplify_eq.
Qed.
Lemma edge_plain (x : KOID) rel t v : PutTxn t v <> edge_write x rel /\ PutTxn t v <> edge_drop x rel.
Proof. unfold edge_write, edge_drop. by destruct (edge_of x rel) as [[? ?] ?]. Qed.
Lemma edges_plain (x : KOID) rels t v : PutTxn t v ∉ map (edge_write x) rels /\ PutTxn t v ∉ map (edge_drop x) rels.
Proof. split; intros (rel & Hr & _)%list_elem_of_fmap; by destruct (edge_plain x rel t v). Qed.
Lemma commit_eds_plain ko ts seq ke prev usage idem t v : PutTxn t v ∉ commit_eds ko ts seq ke prev usage idem.
Proof.
  unfold commit_eds, drop_edits, usage_edits, idem_edits. rewrite !elem_of_app. pose proof (edges_plain (ko_koid ko) (ko_relationships ko) t v) as [Hw _].
  intros [Hx|[Hx|[Hx|Hx]]]; [set_solver | done | | destruct usage as [[? ?]|], idem; set_solver].
  destruct prev; [by apply (edges_plain (ko_koid ko)) in Hx | set_solver].
Qed.
Lemma commit_txn_rows k (s : SpecState) ms ko kind origin actor note idem prev usage t :
  spec_commit s (commit_edits_at hmac_sha256 signer signing_key k ms ko kind origin actor note idem prev usage) !! IdTxn t = s !! IdTxn t.
Proof. apply txn_row_other. intros v. apply commit_eds_plain. Qed.
Lemma txn_rows_other k (s : SpecState) ms ps created schema_row txn_row t : fst <$> txn_row <> Some t ->
  spec_commit s (txn_edits_at k ms ps created schema_row txn_row) !! IdTxn t = s !! IdTxn t.
Proof.
  intros Hne. apply txn_row_other. intros v. unfold txn_edits_at, txn_tail. rewrite !elem_of_app. intros [Hx|[Hx|[Hx|[Hx|Hx]]]].
  - apply list_elem_of_In, in_flat_map in Hx as (i & _ & Hx). apply list_elem_of_In in Hx. unfold item_eds, drop_edits in Hx. rewrite !elem_of_app in Hx.
    pose proof (edges_plain (ko_koid (it_ko i)) (ko_relationships (it_ko i)) t v) as [Hw _]. destruct Hx as [Hx|[Hx|[Hx|[Hx|Hx]]]]; [set_solver | done | by apply (edges_plain (ko_koid (it_ko i))) in Hx | set_solver | set_solver].
  - set_solver.
  - by apply list_elem_of_fmap in Hx as (? & ? & _).
  - destruct schema_row as [[? ?]|]; set_solver.
  - destruct txn_row as [[tid ?]|]; [|set_solver]. apply list_elem_of_singleton in Hx as [= ->]. done.
Qed.
Lemma txn_row_kept k (s : SpecState) ms ps created schema_row tid v : spec_commit s (txn_edits_at k ms ps created schema_row (Some (tid, v))) !! IdTxn tid = Some (VRaw v).
Proof.
  assert (forall eds, IdTxn tid ∉ flat_map edit_dels eds) as Hd.
  { induction eds as [|ed eds IH]; [apply not_elem_of_nil|]. cbn. rewrite elem_of_app. intros [Hin|Hin]; [|done]. revert Hin. clear.
    destruct ed; cbn [edit_dels]; intros Hin; repeat (apply elem_of_cons in Hin as [Hin|Hin]; [discriminate Hin|]); by apply elem_of_nil in Hin. }
  unfold spec_commit. rewrite spec_dels_other by apply Hd. unfold txn_edits_at, txn_tail. rewrite !app_assoc. rewrite flat_map_app.
  change (flat_map edit_puts [PutTxn tid v]) with [(IdTxn tid, VRaw v)]. unfold spec_puts. rewrite fold_left_app. apply lookup_insert_eq.
Qed.
(** A transaction of valid objects commits its batch; one with an invalid object commits nothing. *)
Lemma transact_commit_ok k s evs ms ps created schema_row txn_row :
  kernel_ok k s evs -> txn_fits k ms ps created schema_row txn_row -> Forall (fun p => ko_validate (pd_ko p) = KOk tt) ps ->
  exists k', transact_commit hmac_sha256 signer signing_key ms ps created schema_row txn_row k = (k', KOk (map it_ke (items_at k ms ps))) /\
    kernel_ok k' (spec_commit s (txn_edits_at k ms ps created schema_row txn_row)) (evs ++ map it_ke (items_at k ms ps)).
Proof.
  intros Hok Hfit Hv. pose proof Hfit as (_ & _ & _ & _ & Hf). pose proof (transact_eq k ms ps created schema_row txn_row) as Ht. cbn zeta in Ht.
  assert (forallb (fun p => match ko_validate (pd_ko p) with KOk _ => true | _ => false end) ps = true) as Ev
    by (apply forallb_forall; intros p Hp%list_elem_of_In; rewrite Forall_forall in Hv; by rewrite (Hv p Hp)).
  rewrite Ev in Ht. destruct (commit_spec s (k_repo k) _ (ok_repo _ _ _ _ _ Hok) Hf) as (r & Er & Hr'). rewrite Er in Ht. eexists. split; [exact Ht|]. apply kernel_ok_usage. by apply txn_extends.
Qed.
Lemma transact_commit_err k s evs ms ps created schema_row txn_row p :
  kernel_ok k s evs -> txn_fits k ms ps created schema_row txn_row -> p ∈ ps -> ko_validate (pd_ko p) <> KOk tt ->
  exists k' err, transact_commit hmac_sha256 signer signing_key ms ps created schema_row txn_row k = (k', KErr err) /\ kernel_ok k' s evs /\ k_pipe k' = k_pipe k.
Proof.
  intros Hok (Hms & Hh & _) Hp Hv. pose proof (hlc_now_later (k_hlc k) ms ltac:(apply Hok) Hh Hms) as Hts. pose proof (transact_eq k ms ps created schema_row txn_row) as Ht. cbn zeta in Ht.
  assert (forallb (fun p => match ko_validate (pd_ko p) with KOk _ => true | _ => false end) ps = false) as Ev.
  { apply not_true_is_false. rewrite forallb_forall. intros Ha. specialize (Ha p (proj1 (list_elem_of_In _ _) Hp)). destruct (ko_validate (pd_ko p)) as [[]|?|]; done. }
  rewrite Ev in Ht. destruct Ht as (eds & err & Ht). exists (set_repo (set_hlc k (hlc_now (k_hlc k) ms)) (build_batch (k_repo k) eds).1), err. split; [exact Ht|]. split; [|done].
  apply kernel_ok_repo; [apply kernel_ok_hlc; [done | lia]|]. apply build_batch_quiet, Hok.
Qed.
End Txn.
