(* ===== verification/CommitProps.v ===== *)
(** Verifying a journal: [prove] accepts every journal the pipeline writes. *)

From stdpp Require Import gmap sorting.
From S2P Require Import Prelude Format Memtable Kom Codec CodecProps Store Repository RepositorySpec RepositoryReads Commit CommitInv CommitOps CommitRun Epistemic CommitTxn.

Section Prove.
Context {E : Type} `{HL : EngineLaws E} `{SHA : Sha256}.
Context (hmac_sha256 : bytes -> bytes -> bytes) (signing_key : option bytes) (authorize : KnowledgeObject -> Action.t -> KResult unit).
Abbreviation kernel_ok := (kernel_ok hmac_sha256 signing_key).
Abbreviation payload_ok := (payload_ok hmac_sha256 signing_key).
Implicit Types k : Kernel E.

Lemma events_wf m s evs : represents m s -> events_are s evs -> Forall (fun ke => ke_wf ke = true) evs.
Proof.
  intros Hr He. apply Forall_lookup. intros i ke Hi. assert (s !! IdKe (Z.of_nat i + 1) = Some (VKe ke)) as Hs.
  { apply He. exists ke. split; [done|]. apply numbered_elem. split; [lia|]. by replace (Z.to_nat (Z.of_nat i + 1 - 0 - 1)) with i by lia. }
  apply (proj1 Hr) in Hs as [_ Hw]. by row_fields Hw.
Qed.

(** How many events still have a signed payload. *)
Definition signed_stored (s : SpecState) (ke : KnowledgeEvent) : bool :=
  bool_decide (is_Some (spec_object s (ke_koid ke) (ke_commit_ts ke))) && bool_decide (is_Some (ke_signature ke)).
Definition signed_count (s : SpecState) (evs : list KnowledgeEvent) : Z := zlen (List.filter (signed_stored s) evs).
Lemma prove_loop_spec s m evs : represents m s -> forall (r : Repo E) w last, holds (rp_engine r) m -> cached s r ->
  chain (w_prev w) evs last -> w_valid w = true -> Forall (fun ke => ke_wf ke = true) evs -> Forall (payload_ok s) evs ->
  reads s (prove_loop hmac_sha256 signing_key evs w) r (mkWalk last true (w_count w + zlen evs) (w_sigs w) (w_signed w + signed_count s evs)).
Proof.
  intros Hr. induction evs as [|ke evs IH]; intros r w last Hh Hc Hch Hv Hw Hp.
  { cbn in Hch. subst last. exists r. destruct w as [? ? ? ? ?]. cbn in Hv |- *. subst. unfold signed_count. cbn. by rewrite !Z.add_0_r. }
  destruct Hch as (Ep & Eh & Hch). apply Forall_cons in Hw as [Hw Hws], Hp as [Hp Hps]. cbn [prove_loop]. rewrite <-Eh, Ep, !slice_eqb_refl. cbn [negb orb].
  unfold ke_wf in Hw. bool_to_prop; destruct_and?.
  destruct (get_object_version_spec s m r (ke_koid ke) (ke_commit_ts ke)) as (r1 & E1 & Ee1 & Hc1); [done..|]. unfold reads, mbind, RM_bind. rewrite E1.
  unfold CommitInv.payload_ok in Hp.
  destruct (spec_object s (ke_koid ke) (ke_commit_ts ke)) as [ko|] eqn:Eo.
  - destruct Hp as [Epl Esg]. rewrite Epl, slice_eqb_refl. cbn [negb].
    set (w' := mkWalk (ke_audit_hash ke) true (w_count w + 1) (w_sigs w) (w_signed w + if bool_decide (is_Some (ke_signature ke)) then 1 else 0)).
    destruct (IH r1 w' last) as (r2 & E2 & Ee2 & Hc2); [by rewrite Ee1 | done..|]. exists r2. split; [|split; [congruence | done]].
    unfold w' in E2. cbn [w_count w_sigs w_signed] in E2. rewrite zlen_cons. unfold signed_count in *. cbn [List.filter]. unfold signed_stored at 1. rewrite Eo.
    rewrite (bool_decide_true (is_Some (Some ko))) by done. cbn [andb].
    destruct (ke_signature ke) as [sg|] eqn:Es.
    + rewrite bool_decide_true in E2 |- * by done. assert (match signing_key with Some key => if slice_eqb (hmac_sha256 key (encode_ko ko)) sg then w_sigs w else false | None => w_sigs w end = w_sigs w) as ->.
      { destruct signing_key as [key|]; [|done]. by rewrite (Esg sg key eq_refl eq_refl), slice_eqb_refl. }
      rewrite E2, zlen_cons. do 3 f_equal; lia.
    + rewrite bool_decide_false in E2 |- * by (by intros [? ?]). rewrite Z.add_0_r in E2. rewrite E2. do 3 f_equal; lia.
  - assert (exists r2, (if bool_decide (ke_kind ke = EventKind.Audit) then mret true else o ← on_engine (fun e => get_tombstone e (ke_koid ke)); mret (bool_decide (is_Some o))) r1 = (r2, KOk true) /\ r2 = r1) as (r2 & E2 & ->).
    { case_bool_decide as Hk; [by exists r1|]. destruct Hp as [?|[v Hv']]; [done|]. exists r1. split; [|done]. unfold mbind, RM_bind, on_engine. rewrite Ee1.
      rewrite (get_tombstone_spec _ m s) by done. rewrite Hv'. apply (proj1 Hr) in Hv' as [_ Hrw]. destruct v; try (unfold row_wf in Hrw; rewrite andb_false_r in Hrw; discriminate). done. }
    unfold mbind, RM_bind in E2. rewrite E2. destruct (IH r1 (mkWalk (ke_audit_hash ke) true (w_count w + 1) (w_sigs w) (w_signed w)) last) as (r2 & E3 & Ee3 & Hc3); [by rewrite Ee1 | done..|].
    exists r2. split; [|split; [congruence | done]]. rewrite E3. cbn [w_count w_sigs w_signed]. rewrite zlen_cons. unfold signed_count. cbn [List.filter].
    unfold signed_stored at 2. rewrite Eo, (bool_decide_false (is_Some None)) by (by intros [? ?]). cbn [andb]. do 3 f_equal; lia.
Qed.

Definition signatures_hold (s : SpecState) (evs : list KnowledgeEvent) : bool := match signing_key with None => true | Some _ => 0 <? signed_count s evs end.
Lemma prove_spec k s evs claim head :
  kernel_ok k s evs -> koid_ok claim = true -> spec_head_object s claim = Some head -> authorize head Action.Read = KOk tt -> scannable (rp_engine (k_repo k)) P_KE ->
  (prove hmac_sha256 signing_key authorize claim (k_repo k)).2 = KOk (mkProof claim (zlen evs) true (p_audit (k_pipe k)) (signatures_hold s evs)).
Proof.
  intros Hok Hk Hs Ha Hsc. destruct (ok_repo _ _ _ _ _ Hok) as (m & Hh & Hr & Hc). destruct (ok_seq _ _ _ _ _ Hok) as [_ Hu].
  destruct (head_object_spec s m (k_repo k) claim Hh Hr Hc Hk) as (r1 & E1 & Ee1 & Hc1). rewrite Hs in E1. unfold prove. rewrite E1.
  unfold mbind, RM_bind, lift. rewrite Ha. unfold on_engine at 1. rewrite Ee1, (scan_events_spec _ m s), (listed_events m s evs) by (done || apply Hok).
  destruct (prove_loop_spec s m evs Hr r1 (mkWalk ZERO32 true 0 true 0) (p_audit (k_pipe k))) as (r2 & E2 & Ee2 & Hc2).
  { by rewrite Ee1. } { done. } { apply Hok. } { done. } { eapply events_wf; [done | apply Hok]. } { eapply Forall_impl; [apply Hok|]. by intros ke [? _]. }
  rewrite E2. cbn [w_valid w_count w_prev w_sigs w_signed]. unfold on_engine. rewrite Ee2, Ee1, (journal_head_spec _ m s) by done.
  pose proof (ok_journal _ _ _ _ _ Hok) as Hj. unfold signatures_hold. rewrite !Z.add_0_l.
  destruct (s !! IdJournal) as [v|]; [destruct Hj as (ts & -> & _); cbn [mbind option_bind as_journal] |]; cbn; rewrite ?slice_eqb_refl; by destruct signing_key.
Qed.

(** ** Opening again *)
Definition reopen_kernel (u : Usage) : KM E unit := fun k =>
  match open_pipeline (rp_engine (k_repo k)) with
  | KOk (pipe, last_ts) => (mkKernel (repo_new (rp_engine (k_repo k))) last_ts pipe u (k_sent k), KOk tt)
  | KErr e => (k, KErr e)
  | KPanic => (k, KPanic)
  end.
Lemma reopen_step k s evs u : kernel_ok k s evs -> step_ok hmac_sha256 signing_key 0 k s evs (reopen_kernel u k).
Proof.
  intros Hok. pose proof (journal_ts_le _ _ _ _ _ Hok) as Hjt. destruct Hok as [(m & Hh & Hr & Hc) [Hq Hu] Hp He Hch Hj Hpl Hf Hlc Hd]. unfold reopen_kernel, open_pipeline.
  rewrite (journal_head_spec _ m s) by done.
  assert (exists q a, default (0, ZERO32, 0) (s !! IdJournal ≫= as_journal) = (q, a, journal_ts s) /\ q = zlen evs /\ a = p_audit (k_pipe k)) as (q & a & Ed & Eq & Ea).
  { unfold journal_ts. destruct (s !! IdJournal) as [v|]; [destruct Hj as (ts & -> & _); cbn; by eexists _, _|]. subst evs. cbn in Hch |- *. by eexists _, _. }
  cbn [mbind KResult_bind]. rewrite Ed. exists s, []. rewrite !app_nil_r. split; [|done]. split; cbn [fst k_repo k_pipe k_hlc p_seq p_audit p_pair_pin]; try done.
  - exists m. split; [done|]. split; [done|]. intros c Ec. done.
  - by subst a.
  - subst a. destruct (s !! IdJournal) as [v|] eqn:Ej; [|done]. destruct Hj as (ts & -> & ?). exists ts. split; [done|]. unfold journal_ts. rewrite Ej. cbn. lia.
  - lia.
Qed.
End Prove.

(* ================================================================== *)
(** The theorems about the commit pipeline. *)

(* ------------------------------------------------------------------ *)
(** * Runs of the kernel *)

Inductive KernelOp : Type :=
  | OpCommit (ms : Z) (ko : KnowledgeObject) (kind : EventKind.t) (origin : Origin.t) (actor : bytes) (note idem : option bytes)
      (prev : option (list RelationshipRef)) (usage : option (bytes * Z))
  | OpTransact (ms : Z) (ps : list Pending) (created : list (option bytes)) (schema_row txn_row : option (bytes * bytes))
  | OpForget (ms : Z) (koid : KOID) (mode : ForgetMode) (expected : option Z) (actor : bytes) (note : option bytes)
  | OpEvolve (at_ms ms : Z) (koid : KOID) (to : LifecycleState.t) (origin : Origin.t) (expected : option Z) (actor : bytes) (note : option bytes)
  | OpEpistemic (clock ms : Z) (koid : KOID) (to : EpistemicStatus.t) (origin : Origin.t) (superseded_by : option KOID) (expected : option Z) (actor : bytes)
      (reason : option bytes) (predecessor_valid_to : option Z)
  | OpAudit (ms : Z) (note : bytes)
  | OpReopen (u : Usage).

Section Props.
Context {E : Type} `{HL : EngineLaws E} `{SHA : Sha256}.
Context (hmac_sha256 : bytes -> bytes -> bytes) (signer : option (bytes -> bytes)) (signing_key : option bytes).
Context (authorize : KnowledgeObject -> Action.t -> KResult unit).
Abbreviation kernel_ok := (kernel_ok hmac_sha256 signing_key).
Implicit Types k : Kernel E.

Definition kernel_op k (op : KernelOp) : Kernel E :=
  match op with
  | OpCommit ms ko kind origin actor note idem prev usage => (commit_version hmac_sha256 signer signing_key ms ko kind origin actor note idem prev usage k).1
  | OpTransact ms ps created schema_row txn_row => (transact_commit hmac_sha256 signer signing_key ms ps created schema_row txn_row k).1
  | OpForget ms koid mode expected actor note => (forget hmac_sha256 signer signing_key authorize ms koid mode expected actor note k).1
  | OpEvolve at_ms ms koid to origin expected actor note => (evolve hmac_sha256 signer signing_key authorize at_ms ms koid to origin expected actor note k).1
  | OpEpistemic clock ms koid to origin superseded_by expected actor reason pv =>
      (transition_epistemic hmac_sha256 signer signing_key authorize clock ms koid to origin superseded_by expected actor reason pv k).1
  | OpAudit ms note => (record_audit signer ms note k).1
  | OpReopen u => (reopen_kernel u k).1
  end.
Definition op_fits k (op : KernelOp) : Prop :=
  match op with
  | OpCommit ms ko kind origin actor note idem prev usage => version_fits hmac_sha256 signer signing_key k ms ko kind origin actor note idem prev usage
  | OpTransact ms ps created schema_row txn_row => txn_fits hmac_sha256 signer signing_key k ms ps created schema_row txn_row
  | OpForget ms koid mode _ actor note => forget_fits hmac_sha256 signer signing_key k ms koid mode actor note
  | OpEvolve at_ms ms koid to origin _ actor note => evolve_fits hmac_sha256 signer signing_key k at_ms ms koid to origin actor note
  | OpEpistemic clock ms koid to origin superseded_by _ actor reason pv =>
      epistemic_fits hmac_sha256 signer signing_key k clock ms koid to origin superseded_by actor reason pv
  | OpAudit ms note => audit_fits signer k ms note
  | OpReopen _ => True
  end.
Definition run_ops k (ops : list KernelOp) : Kernel E := fold_left kernel_op ops k.
Fixpoint ops_fit k (ops : list KernelOp) : Prop := match ops with [] => True | op :: ops => op_fits k op /\ ops_fit (kernel_op k op) ops end.
Definition kernel_new (e : E) : Kernel E := mkKernel (repo_new e) 0 (mkPipeline 0 ZERO32 ZERO64 None) ∅ [].

Lemma kernel_op_ok k s evs op : kernel_ok k s evs -> op_fits k op -> exists s' new, kernel_ok (kernel_op k op) s' (evs ++ new) /\ k_sent (kernel_op k op) = k_sent k ++ new.
Proof.
  intros Hok Hf. assert (exists (A : Type) n (x : Kernel E * KResult A), step_ok hmac_sha256 signing_key n k s evs x /\ x.1 = kernel_op k op) as (A & n & x & (s' & new & Hok' & Hs & _) & Ex).
  { destruct op; eexists _, _, _; (split; [|reflexivity]).
    - by apply commit_step. - by apply transact_step. - by apply forget_step. - by apply evolve_step. - by apply epistemic_step. - by apply audit_step. - by apply reopen_step. }
  rewrite Ex in Hok', Hs. eauto.
Qed.
Lemma run_ops_ok ops : forall k s evs, kernel_ok k s evs -> ops_fit k ops -> exists s' new, kernel_ok (run_ops k ops) s' (evs ++ new) /\ k_sent (run_ops k ops) = k_sent k ++ new.
Proof.
  induction ops as [|op ops IH]; intros k s evs Hok Hf; [exists s, []; by rewrite !app_nil_r|]. destruct Hf as [Hf Hfs].
  destruct (kernel_op_ok k s evs op Hok Hf) as (s1 & n1 & Hok1 & Hs1). destruct (IH _ s1 (evs ++ n1) Hok1 Hfs) as (s2 & n2 & Hok2 & Hs2).
  exists s2, (n1 ++ n2). rewrite app_assoc. split; [exact Hok2|]. by rewrite app_assoc, <-Hs1.
Qed.
Lemma kernel_new_ok e : holds e ∅ -> kernel_ok (kernel_new e) ∅ [].
Proof.
  intros He. split; cbn; try done.
  - by apply repo_ok_new.
  - intros q v. rewrite lookup_empty. split; [done|]. intros (ke & _ & Hin). by apply not_elem_of_nil in Hin.
Qed.

(** C15: from an empty store, after any sequence of single commits, transactions, tombstones,
    legal erasures, lifecycle and epistemic transitions, audit entries and restarts (each one successful or
    refused), [prove] accepts the journal for every live object its caller may read: the chain
    is valid, it counts exactly the events that were broadcast to the subscribers, it ends in
    the pipeline's head hash; with no signing key the verdict on signatures is good too. *)
Theorem journal_always_proves e ops claim head :
  holds e ∅ -> ops_fit (kernel_new e) ops -> let k := run_ops (kernel_new e) ops in
  koid_ok claim = true -> (head_object claim (k_repo k)).2 = KOk (Some head) -> authorize head Action.Read = KOk tt -> scannable (rp_engine (k_repo k)) P_KE ->
  exists sigs, (prove hmac_sha256 signing_key authorize claim (k_repo k)).2 = KOk (mkProof claim (zlen (k_sent k)) true (p_audit (k_pipe k)) sigs) /\ (signing_key = None -> sigs = true).
Proof.
  intros He Hf k Hk Hh Ha Hsc. destruct (run_ops_ok ops _ _ _ (kernel_new_ok e He) Hf) as (s & evs & Hok & Hs). fold k in Hok, Hs. rewrite app_nil_l in Hok.
  change (k_sent (kernel_new e)) with (@nil KnowledgeEvent) in Hs. rewrite app_nil_l in Hs. rewrite Hs. destruct (ok_repo _ _ _ _ _ Hok) as (m & Hm & Hr & Hc).
  destruct (head_object_spec s m (k_repo k) claim Hm Hr Hc Hk) as (r1 & E1 & _). rewrite E1 in Hh. injection Hh as Hh. eexists. split; [by eapply prove_spec|].
  unfold signatures_hold. by intros ->.
Qed.
End Props.

Section Reads.
Context {E : Type} `{HL : EngineLaws E} `{SHA : Sha256}.
Context (hmac_sha256 : bytes -> bytes -> bytes) (signer : option (bytes -> bytes)) (signing_key : option bytes).
Abbreviation kernel_ok := (kernel_ok hmac_sha256 signing_key).
Implicit Types k : Kernel E.

Lemma object_is k s evs x ts : kernel_ok k s evs -> koid_ok x = true -> fits_in U64 ts = true -> (get_object_version x ts (k_repo k)).2 = KOk (spec_object s x ts).
Proof. intros Hok Hx Ht. destruct (ok_repo _ _ _ _ _ Hok) as (m & Hm & Hr & Hc). by destruct (get_object_version_spec s m (k_repo k) x ts Hm Hr Hc Hx Ht) as (r1 & -> & _). Qed.

(** A committed version is what the next read returns: after [commit_version] the head of
    the object is the version given, stamped with the commit time and with the event appended
    to its references; the head of every other object, and every stored version of every
    object, reads as before; and the time returned is later than every time issued so far. *)
Theorem commit_then_read k s evs ms ko kind origin actor note idem prev usage :
  kernel_ok k s evs -> ko_validate ko = KOk tt -> koid_ok (ko_koid ko) = true -> version_fits hmac_sha256 signer signing_key k ms ko kind origin actor note idem prev usage ->
  exists k' ts seq, commit_version hmac_sha256 signer signing_key ms ko kind origin actor note idem prev usage k = (k', KOk (ts, seq)) /\ k_hlc k < ts /\ seq = p_seq (k_pipe k) + 1 /\
    (head_object (ko_koid ko) (k_repo k')).2 = KOk (Some (stamp ko ts seq kind)) /\
    (forall x, x <> ko_koid ko -> koid_ok x = true -> (head_object x (k_repo k')).2 = (head_object x (k_repo k)).2) /\
    (forall x t, koid_ok x = true -> fits_in U64 t = true -> t <> ts -> (get_object_version x t (k_repo k')).2 = (get_object_version x t (k_repo k)).2).
Proof.
  intros Hok Hv Hk Hf. pose proof Hf as (Hms & Hh & Hq & _). destruct (commit_version_ok hmac_sha256 signer signing_key k s evs ms ko kind origin actor note idem prev usage Hok Hv Hf) as (k' & Ek & Hok' & _).
  pose proof (hlc_now_later (k_hlc k) ms ltac:(apply Hok) Hh Hms) as Hts. destruct (ok_seq _ _ _ _ _ Hok) as [Eq _]. pose proof (zlen_nonneg evs).
  exists k', (hlc_now (k_hlc k) ms), (zlen evs + 1). split; [done|]. split; [lia|]. split; [lia|].
  assert ((p_seq (k_pipe k) + 1) mod U64 = zlen evs + 1) as Es by (rewrite Z.mod_small; lia).
  split; [|split].
  - rewrite (head_object_is _ _ _ _ _ _ Hok' Hk), commit_head_object. rewrite bool_decide_true by done. unfold stamped. by rewrite Es.
  - intros x Hx Hx'. rewrite (head_object_is _ _ _ _ _ _ Hok' Hx'), (head_object_is _ _ _ _ _ _ Hok Hx'), commit_head_object. by rewrite bool_decide_false.
  - intros x t Hx Ht Hne. rewrite (object_is _ _ _ _ _ Hok' Hx Ht), (object_is _ _ _ _ _ Hok Hx Ht). f_equal. apply commit_object. by right.
Qed.

(** C16: a legal erasure removes the object for good: no head, no stored version at any time,
    a tombstone with the hash of the erased head in their place, one more event; every other
    object reads as before. *)
Theorem erase_forgets k s evs ms koid head actor note :
  kernel_ok k s evs -> koid_ok koid = true -> erase_fits hmac_sha256 signer signing_key k ms koid head actor note ->
  exists k' ts, erase hmac_sha256 signer signing_key ms koid head actor note k = (k', KOk (ko_version head, ts)) /\
    (head_object koid (k_repo k')).2 = KOk None /\
    (forall t, fits_in U64 t = true -> (get_object_version koid t (k_repo k')).2 = KOk None) /\
    get_tombstone (rp_engine (k_repo k')) koid = KOk (Some (sha256 (encode_ko head), p_seq (k_pipe k) + 1)) /\ p_seq (k_pipe k') = p_seq (k_pipe k) + 1 /\
    (forall x, x <> koid -> koid_ok x = true -> (head_object x (k_repo k')).2 = (head_object x (k_repo k)).2).
Proof.
  intros Hok Hk Hf. pose proof Hf as (Hms & Hh & Hq & _). destruct (erase_ok hmac_sha256 signer signing_key k s evs ms koid head actor note Hok Hk Hf) as (k' & Ek & Hok' & _).
  destruct (ok_seq _ _ _ _ _ Hok) as [Eq _]. pose proof (zlen_nonneg evs). assert ((p_seq (k_pipe k) + 1) mod U64 = zlen evs + 1) as Es by (rewrite Z.mod_small; lia).
  exists k', (hlc_now (k_hlc k) ms). split; [done|]. destruct (ok_repo _ _ _ _ _ Hok) as (m & Hm & Hr & _). destruct (ok_repo _ _ _ _ _ Hok') as (m' & Hm' & Hr' & _).
  pose proof (fun x t => erase_object hmac_sha256 signer signing_key k s m ms koid head actor note x t Hr) as Ho.
  pose proof (fun x => erase_head_object hmac_sha256 signer signing_key k s m ms koid head actor note x Hr) as Hd. unfold erased_state in Ho, Hd. split_and!.
  - rewrite (head_object_is _ _ _ _ _ _ Hok' Hk), Hd. by rewrite bool_decide_true.
  - intros t Ht. rewrite (object_is _ _ _ _ _ Hok' Hk Ht), Ho. by rewrite bool_decide_true.
  - rewrite (get_tombstone_spec _ m' _ _ Hm' Hr' Hk), erase_rows by done. rewrite spec_dels_other by (intros (y & Ey & _)%list_elem_of_fmap; done).
    rewrite lookup_delete_ne by done. rewrite lookup_insert_eq. cbn. by rewrite Es, Eq.
  - destruct (ok_seq _ _ _ _ _ Hok') as [-> _]. rewrite zlen_app, Eq. done.
  - intros x Hx Hx'. rewrite (head_object_is _ _ _ _ _ _ Hok' Hx'), (head_object_is _ _ _ _ _ _ Hok Hx'), Hd. by rewrite bool_decide_false.
Qed.
End Reads.

(* ------------------------------------------------------------------ *)
(** * Identifiers across restarts *)

(** What a session does with the clock: it creates an object, reading the clock when it mints
    the identifier and again when it commits, or it commits a change to one. *)
Inductive Work : Type := Create (minted committed : Z) | Change (committed : Z).

(** A session opens on the time of the newest commit and leaves the time of its own. *)
Fixpoint run_session (g : IdGen) (hlc : Z) (works : list Work) : list KOID * Z :=
  match works with
  | [] => ([], hlc)
  | Create a b :: works => let '(g, k) := next_id g a in let '(ids, last_ts) := run_session g (hlc_now hlc b) works in (k :: ids, last_ts)
  | Change b :: works => run_session g (hlc_now hlc b) works
  end.
Fixpoint run_sessions (last_ts : Z) (sessions : list (Z * list Work)) : list KOID :=
  match sessions with
  | [] => []
  | (seed, works) :: sessions => let '(ids, last_ts) := run_session (open_idgen seed last_ts) last_ts works in ids ++ run_sessions last_ts sessions
  end.

(** The readings of the clock are in range (a reading, and the counter under it, stay below
    the last millisecond a KOID can hold). *)
Definition LAST_MS : Z := 2 ^ 48 - 1.
Fixpoint clock_fits (hlc : Z) (works : list Work) : Prop :=
  match works with
  | [] => True
  | Create a b :: works => 0 <= a < LAST_MS /\ 0 <= b < LAST_MS /\ hlc + 1 < LAST_MS * 2 ^ 16 /\ clock_fits (hlc_now hlc b) works
  | Change b :: works => 0 <= b < LAST_MS /\ hlc + 1 < LAST_MS * 2 ^ 16 /\ clock_fits (hlc_now hlc b) works
  end.
(** What [skip_past] counts on: when a session ends no identifier it minted is of a later
    millisecond than its newest commit. *)
Fixpoint sessions_fit (last_ts : Z) (sessions : list (Z * list Work)) : Prop :=
  match sessions with
  | [] => True
  | (seed, works) :: sessions => let '(ids, ts) := run_session (open_idgen seed last_ts) last_ts works in
      zlen works < U32 /\ clock_fits last_ts works /\ Forall (fun k => created_ms k <= ts / 2 ^ 16) ids /\ sessions_fit ts sessions
  end.

Definition koid_lt (a b : KOID) : Prop := bytes_lt (koid_bytes a) (koid_bytes b).
(** An identifier past the position [last]. *)
Definition minted_past (last : Z * Z) (k : KOID) : Prop :=
  exists ms c seed, k = koid_of ms c seed /\ id_order last (ms, c) /\ 0 <= ms < 2 ^ 48 /\ is_u32 c.
Lemma hlc_now_reaches hlc b :
  0 <= hlc -> hlc + 1 < LAST_MS * 2 ^ 16 -> 0 <= b < LAST_MS -> b <= hlc_now hlc b / 2 ^ 16 /\ hlc < hlc_now hlc b < LAST_MS * 2 ^ 16.
Proof.
  unfold LAST_MS. intros Hl Hu Hb. pose proof (Z.mul_div_le hlc (2 ^ 16) ltac:(lia)) as Hd.
  assert (b * 2 ^ 16 <= hlc_now hlc b /\ hlc < hlc_now hlc b < (2 ^ 48 - 1) * 2 ^ 16) as [H1 H2].
  { unfold hlc_now. destruct (Z.ltb_spec (hlc / 2 ^ 16) b).
    - rewrite Z.mod_small by (unfold U64; lia). pose proof (Z.mul_succ_div_gt hlc (2 ^ 16) ltac:(lia)). nia.
    - rewrite Z.mod_small by (unfold U64; lia). nia. }
  split; [apply Z.div_le_lower_bound; lia | done].
Qed.
Lemma next_id_past g now :
  0 <= last_ms g < 2 ^ 48 -> 0 <= now < LAST_MS -> 0 <= counter g -> counter g + 1 < U32 ->
  exists ms c, next_id g now = (mkIdGen (id_seed g) ms c, koid_of ms c (id_seed g)) /\ id_order (last_ms g, counter g) (ms, c) /\
    ms = Z.max (last_ms g) now /\ 0 <= c <= counter g + 1.
Proof.
  intros Hg Hn Hc Hu. unfold next_id, id_order, LAST_MS in *. cbn [fst snd]. destruct (Z.ltb_spec (last_ms g) now).
  - exists now, 0. split; [done | lia].
  - exists (last_ms g), (counter g + 1). rewrite as_u32_small by (unfold is_u32; lia). split; [done | lia].
Qed.
Lemma minted_past_mono last last' k : id_order last last' -> minted_past last' k -> minted_past last k.
Proof. intros Ho (ms & c & seed & -> & Ho' & Hr). exists ms, c, seed. split; [done|]. split; [|done]. unfold id_order in *. cbn [fst snd] in *. lia. Qed.
Lemma session_ids works : forall g hlc,
  0 <= last_ms g < 2 ^ 48 -> 0 <= counter g -> counter g + zlen works < U32 -> 0 <= hlc < LAST_MS * 2 ^ 16 -> clock_fits hlc works ->
  let '(ids, last_ts) := run_session g hlc works in
  StronglySorted koid_lt ids /\ hlc <= last_ts < LAST_MS * 2 ^ 16 /\ (ids <> [] -> hlc < last_ts) /\ Forall (minted_past (last_ms g, counter g)) ids.
Proof.
  induction works as [|[a b|b] works IH]; intros g hlc Hg Hc Hl Hh Hf; cbn [run_session clock_fits] in *; [split_and!; [constructor | lia | lia | done | constructor]|rewrite zlen_cons in Hl..];
    pose proof (zlen_nonneg works).
  - destruct Hf as (Ha & Hb & Hu & Hf). destruct (hlc_now_reaches hlc b) as [Hr Hn]; [lia..|]. destruct (next_id_past g a) as (ms & c & -> & Ho & Hms & Hcc); [done | done | done | lia|].
    assert (0 <= ms < 2 ^ 48) as Hm48 by (unfold LAST_MS in *; lia).
    specialize (IH (mkIdGen (id_seed g) ms c) (hlc_now hlc b)). destruct (run_session _ _ works) as [ids last_ts]. cbn [last_ms counter] in IH.
    destruct IH as (Hs & Ht & _ & Hm); [lia | lia | lia | lia | done|]. split_and!; [|lia | lia | lia|].
    + constructor; [done|]. eapply Forall_impl; [exact Hm|]. intros k (ms' & c' & seed & -> & Ho' & Hms' & Hc'). apply koid_of_lt; unfold is_u32 in *; lia || done.
    + constructor; [exists ms, c, (id_seed g); unfold is_u32; split_and!; done || lia|]. eapply Forall_impl; [exact Hm|]. intros k. by apply minted_past_mono.
  - destruct Hf as (Hb & Hu & Hf). destruct (hlc_now_reaches hlc b) as [Hr Hn]; [lia..|]. specialize (IH g (hlc_now hlc b)). destruct (run_session _ _ works) as [ids last_ts].
    destruct IH as (Hs & Ht & _ & Hm); [lia | lia | lia | lia | done|]. split_and!; [done | lia | lia | lia | done].
Qed.

(** The condition holds of a session whose clock does not go backwards and starts past the
    millisecond of the commit it opened on. *)
Fixpoint steady_clock (from : Z) (works : list Work) : Prop :=
  match works with
  | [] => True
  | Create a b :: works => from <= a <= b /\ steady_clock b works
  | Change b :: works => from <= b /\ steady_clock b works
  end.
Lemma steady_clock_covers works : forall g hlc from,
  0 <= last_ms g <= from -> 0 <= counter g -> counter g + zlen works < U32 -> from <= LAST_MS -> 0 <= hlc < LAST_MS * 2 ^ 16 -> clock_fits hlc works -> steady_clock from works ->
  let '(ids, last_ts) := run_session g hlc works in hlc <= last_ts /\ Forall (fun k => created_ms k <= last_ts / 2 ^ 16) ids.
Proof.
  induction works as [|[a b|b] works IH]; intros g hlc from Hg Hc Hl H48 Hh Hf Hs; cbn [run_session clock_fits steady_clock] in *; [split; [lia | constructor]|rewrite zlen_cons in Hl..];
    pose proof (zlen_nonneg works).
  - destruct Hf as (Ha & Hb & Hu & Hf), Hs as [Hab Hs]. destruct (hlc_now_reaches hlc b) as [Hr Hn]; [lia..|]. destruct (next_id_past g a) as (ms & c & -> & Ho & Hms & Hcc); [unfold LAST_MS in *; lia | done | done | lia|].
    specialize (IH (mkIdGen (id_seed g) ms c) (hlc_now hlc b) b). destruct (run_session _ _ works) as [ids last_ts]. cbn [last_ms counter] in IH.
    destruct IH as [Ht Hi]; [lia | lia | lia | lia | lia | done | done|]. split; [lia|]. constructor; [|done].
    rewrite created_ms_of by (unfold LAST_MS in *; lia). pose proof (Z.div_le_mono (hlc_now hlc b) last_ts (2 ^ 16)). lia.
  - destruct Hf as (Hb & Hu & Hf), Hs as [Hfb Hs]. destruct (hlc_now_reaches hlc b) as [Hr Hn]; [lia..|]. specialize (IH g (hlc_now hlc b) b). destruct (run_session _ _ works) as [ids last_ts].
    destruct IH as [Ht Hi]; [lia | lia | lia | lia | lia | done | done|]. split; [lia | done].
Qed.
Lemma opened_past seed last_ts :
  0 <= last_ts < LAST_MS * 2 ^ 16 -> let g := open_idgen seed last_ts in 0 <= last_ms g < 2 ^ 48 /\ counter g = 0 /\ (0 < last_ts -> last_ms g = last_ts / 2 ^ 16 + 1).
Proof.
  intros Hl. assert (0 <= last_ts / 2 ^ 16 < LAST_MS) as Hd by (split; [apply Z.div_pos; lia | apply Z.div_lt_upper_bound; lia]).
  unfold open_idgen, LAST_MS in *. cbv zeta. destruct (Z.ltb_spec 0 last_ts); cbn; [|lia]. rewrite Z.mod_small by (unfold U64; lia). lia.
Qed.

(** C40: no identifier is issued twice.  Over any number of sessions of a kernel, each opened
    on the newest commit of the one before, under whatever seed and with whatever clock, also
    one that lags behind that commit or goes backwards, every identifier minted for a committed
    object is greater than all earlier ones, within and across the sessions; provided that at
    the end of each session no identifier is of a later millisecond than the newest commit
    ([steady_clock_covers] is the ordinary case), and that the readings stay below 2^48 - 1 ms
    and the commits of a session below 2^32.  The documentation of [skip_past] takes the first
    condition for granted; a session under a lagging clock breaks it, and an identifier comes
    back ([lagging_clock_reissues]). *)
Theorem ids_never_reissued sessions : sessions_fit 0 sessions -> StronglySorted koid_lt (run_sessions 0 sessions).
Proof.
  assert (forall last_ts, 0 <= last_ts < LAST_MS * 2 ^ 16 -> sessions_fit last_ts sessions ->
    StronglySorted koid_lt (run_sessions last_ts sessions) /\ forall k, k ∈ run_sessions last_ts sessions ->
      exists ms c seed, k = koid_of ms c seed /\ (0 < last_ts -> last_ts / 2 ^ 16 < ms) /\ 0 <= ms < 2 ^ 48 /\ is_u32 c) as Hall; [|intros Hf; apply Hall; [unfold LAST_MS; lia | done]].
  induction sessions as [|[seed works] sessions IH]; intros last_ts Hl Hf; cbn [run_sessions sessions_fit] in *; [split; [constructor | set_solver]|].
  destruct (opened_past seed last_ts Hl) as (Hm & Hc & Hp). pose proof (session_ids works (open_idgen seed last_ts) last_ts Hm ltac:(lia)) as Hs.
  destruct (run_session _ _ works) as [ids ts]. destruct Hf as (Hw & Hf & Hco & Hfs). destruct (Hs ltac:(lia) Hl Hf) as (Hso & Ht & Hne & Hi).
  destruct (IH ts ltac:(lia) Hfs) as [Hs' Hi']. rewrite Forall_forall in Hi, Hco. split.
  - apply StronglySorted_app_2; [|done | done]. intros x y Hx Hy. destruct (Hi x Hx) as (ms & c & sd & -> & _ & Hms & Hc'), (Hi' y Hy) as (ms' & c' & sd' & -> & Hms' & H48 & Hc'').
    apply koid_of_lt; [lia | done | lia | done | left; cbn [fst snd]]. specialize (Hco _ Hx). rewrite created_ms_of in Hco by done. assert (last_ts < ts) as Hlt by (apply Hne; intros ->; set_solver). specialize (Hms' ltac:(lia)). lia.
  - pose proof (Z.div_le_mono last_ts ts (2 ^ 16) ltac:(lia) ltac:(lia)). intros k [Hk|Hk]%elem_of_app; [destruct (Hi k Hk) as (ms & c & sd & -> & Ho & Hr) | destruct (Hi' k Hk) as (ms & c & sd & -> & Hms & Hr)];
      exists ms, c, sd; (split; [done|]); (split; [|done]); intros Hpos; [specialize (Hp Hpos); unfold id_order in Ho; cbn [fst snd] in Ho; lia | specialize (Hms ltac:(lia)); lia].
Qed.

(** Three sessions: the clock of the second lags behind the last commit and catches up before
    the session ends. *)
Lemma ids_never_reissued_witness :
  let sessions := [(7, [Create 1000 1000; Create 1000 1002; Change 1002]); (7, [Create 900 900; Change 1003]); (9, [Create 1003 1003; Change 1004])] in
  map created_ms (run_sessions 0 sessions) = [1000; 1000; 1003; 1004] /\ StronglySorted koid_lt (run_sessions 0 sessions).
Proof. split; [vm_compute; reflexivity|]. apply ids_never_reissued. repeat split; try (vm_compute; congruence). all: repeat constructor; vm_compute; congruence. Defined.

(** An identifier issued twice.  A kernel reopened while the clock lags behind the last
    commit mints in the millisecond after that commit, but commits at a time still within
    it; reopened again, it mints the same identifier for another object.  [skip_past] is
    documented to make that impossible. *)
Theorem lagging_clock_reissues :
  exists a b, run_sessions 0 [(7, [Create 1000 1000]); (7, [Create 900 900]); (7, [Create 900 900])] = [a; b; b].
Proof. by do 2 eexists. Qed.
