(* ===== verification/CommitEdges.v ===== *)
(** The relationship index under a commit: it follows the head of an object whose edges are
    distinct; and the cases where it does not. *)

From stdpp Require Import gmap.
From S2P Require Import Prelude Format Memtable Kom Codec CodecProps Store Repository RepositorySpec RepositoryReads RepositoryRebuild Commit CommitInv CommitOps CommitRun Epistemic CommitTxn CommitProps.

(* ------------------------------------------------------------------ *)
(** * The edges a version drops *)

Lemma position_Some {A} `{EqDecision A} (x : A) l i : position x l = Some i -> l !! i = Some x.
Proof.
  revert i. induction l as [|y l IH]; intros i; cbn; [done|]. case_bool_decide; [intros [= <-]; by subst|].
  intros (j & Hj & ->)%fmap_Some. cbn. by apply IH.
Qed.
Lemma position_None {A} `{EqDecision A} (x : A) l : position x l = None -> x ∉ l.
Proof. induction l as [|y l IH]; cbn; [set_solver|]. case_bool_decide; [done|]. intros Hn%fmap_None. apply IH in Hn. set_solver. Qed.
Lemma swap_remove_perm {A} (l : list A) i x : l !! i = Some x -> x :: swap_remove i l ≡ₚ l.
Proof.
  intros Hi. destruct l as [|z l _] using rev_ind; [done|]. unfold swap_remove. rewrite last_snoc. apply lookup_app_Some in Hi as [Hi|[Hle Hi]].
  - rewrite insert_app_l by (by eapply lookup_lt_Some). rewrite removelast_app by done. cbn [removelast]. rewrite app_nil_r.
    apply list_elem_of_split_length in Hi as (a & b & -> & ->). rewrite (insert_app_r_alt a (x :: b)) by lia. rewrite Nat.sub_diag. cbn. rewrite <-app_assoc. cbn.
    rewrite <-(Permutation_middle a (b ++ [z]) x). apply Permutation_skip, Permutation_app_head, Permutation_cons_append.
  - destruct (i - length l)%nat as [|j] eqn:Ej; [|done]. injection Hi as ->. rewrite insert_app_r_alt, Ej by lia. cbn [insert list_insert]. rewrite removelast_app by done. cbn [removelast].
    rewrite app_nil_r. apply Permutation_cons_append.
Qed.
Lemma removed_edges_elem new : forall prev x, NoDup prev -> x ∈ removed_edges prev new <-> x ∈ prev /\ x ∉ new.
Proof.
  induction new as [|y new IH]; intros prev x Hn; [cbn; set_solver|]. unfold removed_edges. cbn [fold_left]. fold (removed_edges prev new).
  destruct (position y prev) as [i|] eqn:Ep.
  - apply position_Some, swap_remove_perm in Ep. assert (NoDup (y :: swap_remove i prev)) as Hn' by (by rewrite Ep). apply NoDup_cons in Hn' as [Hy Hn'].
    change (x ∈ removed_edges (swap_remove i prev) new <-> x ∈ prev /\ x ∉ y :: new). rewrite IH by done.
    pose proof (elem_of_Permutation_proper x _ _ Ep) as He. rewrite elem_of_cons in He. rewrite not_elem_of_cons. naive_solver.
  - apply position_None in Ep. change (x ∈ removed_edges prev new <-> x ∈ prev /\ x ∉ y :: new). rewrite IH by done. set_solver.
Qed.

(* ------------------------------------------------------------------ *)
(** * Index rows after a batch *)

Lemma spec_puts_some ps : forall (s : SpecState) id, is_Some (spec_puts s ps !! id) <-> id ∈ map fst ps \/ is_Some (s !! id).
Proof.
  induction ps as [|[i v] ps IH]; intros s id; [cbn; set_solver|]. change (spec_puts s ((i, v) :: ps)) with (spec_puts (<[i := v]> s) ps). rewrite IH. cbn [map fst].
  rewrite elem_of_cons, lookup_insert. case_decide as Hd; [subst; split; auto; intros _; right; by eexists|]. naive_solver.
Qed.
Lemma spec_commit_some (s : SpecState) eds id :
  is_Some (spec_commit s eds !! id) <-> id ∉ flat_map edit_dels eds /\ (id ∈ map fst (flat_map edit_puts eds) \/ is_Some (s !! id)).
Proof.
  unfold spec_commit. destruct (decide (id ∈ flat_map edit_dels eds)) as [Hin|Hn].
  - rewrite spec_dels_none by done. split; [by intros [? ?] | by intros [? _]].
  - rewrite spec_dels_other, spec_puts_some by done. naive_solver.
Qed.
Definition edges (k : KOID) (rels : list RelationshipRef) : list (KOID * bytes * KOID) := map (edge_of k) rels.
Definition out_id (e : KOID * bytes * KOID) : RowId := let '(src, rt, dst) := e in IdRelOut src rt dst.
Lemma out_writes k rels e : (out_id e ∈ map fst (flat_map edit_puts (map (edge_write k) rels)) <-> e ∈ edges k rels) /\ flat_map edit_dels (map (edge_write k) rels) = [].
Proof.
  unfold edges. induction rels as [|rel rels [IH1 IH2]]; [cbn; split; [|done]; rewrite !elem_of_nil; done|]. cbn [map flat_map]. unfold edge_write at 1 3. destruct (edge_of k rel) as [[a rt] b].
  cbn [edit_puts edit_dels app map fst]. split; [|exact IH2]. rewrite !elem_of_cons, IH1. destruct e as [[a' rt'] b']. cbn. naive_solver.
Qed.
Lemma out_drops k rels e : (out_id e ∈ flat_map edit_dels (map (edge_drop k) rels) <-> e ∈ edges k rels) /\ flat_map edit_puts (map (edge_drop k) rels) = [].
Proof.
  unfold edges. induction rels as [|rel rels [IH1 IH2]]; [cbn; split; [|done]; rewrite !elem_of_nil; done|]. cbn [map flat_map]. unfold edge_drop at 1 3. destruct (edge_of k rel) as [[a rt] b].
  cbn [edit_puts edit_dels app map fst]. split; [|exact IH2]. rewrite !elem_of_cons, IH1. destruct e as [[a' rt'] b']. cbn. naive_solver.
Qed.
Lemma commit_out_rows `{Sha256} (s : SpecState) ko ts seq ke prev usage idem e :
  is_Some (spec_commit s (commit_eds ko ts seq ke (Some prev) usage idem) !! out_id e) <->
  e ∉ edges (ko_koid ko) (removed_edges prev (ko_relationships ko)) /\ (e ∈ edges (ko_koid ko) (ko_relationships ko) \/ is_Some (s !! out_id e)).
Proof.
  rewrite spec_commit_some. unfold commit_eds. rewrite !flat_map_app, !map_app. destruct (out_writes (ko_koid ko) (ko_relationships ko) e) as [Hw ->].
  unfold drop_edits. destruct (out_drops (ko_koid ko) (removed_edges prev (ko_relationships ko)) e) as [Hd ->]. rewrite !elem_of_app, Hw, Hd.
  assert (flat_map edit_dels (usage_edits usage) = [] /\ flat_map edit_dels (idem_edits idem ko ts) = []) as [-> ->] by (by destruct usage as [[? ?]|], idem).
  assert (out_id e ∉ map fst (flat_map edit_puts (usage_edits usage)) /\ out_id e ∉ map fst (flat_map edit_puts (idem_edits idem ko ts)) /\
    out_id e ∉ map fst (flat_map edit_puts [WriteType (type_name (ko_metadata ko)) (ko_koid ko)])) as (N1 & N2 & N3).
  { destruct e as [[? ?] ?]. cbn [flat_map edit_puts]. split_and!; [destruct usage as [[? ?]|] | destruct idem | destruct (is_catalog_type _)];
      cbn [usage_edits idem_edits flat_map edit_puts map app fst out_id]; set_solver. }
  destruct e as [[? ?] ?]. cbn [flat_map edit_puts edit_dels map app fst out_id] in *. rewrite !elem_of_cons, !elem_of_nil. naive_solver.
Qed.
Lemma edge_of_inj k r r' : target r <> k -> target r' <> k -> edge_of k r = edge_of k r' -> r = r'.
Proof. destruct r as [rt t d], r' as [rt' t' d']. unfold edge_of. cbn. destruct d, d'; naive_solver. Qed.

Section Edges.
Context {E : Type} `{HL : EngineLaws E} `{SHA : Sha256}.
Context (hmac_sha256 : bytes -> bytes -> bytes) (signer : option (bytes -> bytes)) (signing_key : option bytes).
Implicit Types k : Kernel E.

(** C17: the relationship index follows the head: where an object's previous edges are listed
    once each and none points at the object itself, after [commit_version] the edges scanned
    from any source are those of the new version, and those scanned before that were not edges
    of the previous version; no edge is lost and none is left behind. *)
Theorem edge_index_follows k s evs ms ko kind origin actor note idem prev usage src l :
  kernel_ok hmac_sha256 signing_key k s evs -> ko_validate ko = KOk tt -> koid_ok src = true ->
  version_fits hmac_sha256 signer signing_key k ms ko kind origin actor note idem (Some prev) usage ->
  NoDup prev -> Forall (fun r => target r <> ko_koid ko) (prev ++ ko_relationships ko) ->
  scannable (rp_engine (k_repo k)) (rel_out_prefix_src src) -> scan_outbound (rp_engine (k_repo k)) src None = KOk l ->
  exists k' x, commit_version hmac_sha256 signer signing_key ms ko kind origin actor note idem (Some prev) usage k = (k', KOk x) /\
    (scannable (rp_engine (k_repo k')) (rel_out_prefix_src src) -> exists l', scan_outbound (rp_engine (k_repo k')) src None = KOk l' /\
      forall rt dst, (rt, dst) ∈ l' <-> (src, rt, dst) ∈ edges (ko_koid ko) (ko_relationships ko) \/ (rt, dst) ∈ l /\ (src, rt, dst) ∉ edges (ko_koid ko) prev).
Proof.
  intros Hok Hv Hk Hf Hn Hself Hp Hsc. destruct (ok_repo _ _ _ _ _ Hok) as (m & Hm & Hr & _). rewrite (scan_outbound_spec _ m s src Hm Hr Hp Hk) in Hsc. injection Hsc as <-.
  destruct (commit_version_ok hmac_sha256 signer signing_key k s evs ms ko kind origin actor note idem (Some prev) usage Hok Hv Hf) as (k' & Ek & Hok' & _).
  eexists k', _. split; [exact Ek|]. intros Hp'. destruct (ok_repo _ _ _ _ _ Hok') as (m' & Hm' & Hr' & _).
  eexists. split; [by apply (scan_outbound_spec _ m')|]. set (s' := spec_commit _ _) in *.
  assert (forall m s, represents m s -> forall rt dst, (rt, dst) ∈ listed (sel_out src) s <-> is_Some (s !! out_id (src, rt, dst))) as Hl.
  { intros m0 s0 Hr0 rt dst. rewrite (listed_elem m0) by done. split.
    - intros (id & v & Hs & Hsel). unfold sel_out in Hsel. destruct id; try done. cbn in Hsel. case_bool_decide; [|done]. simplify_eq. by exists v.
    - intros [v Hs]. exists (IdRelOut src rt dst), v. split; [done|]. cbn. by rewrite bool_decide_true. }
  intros rt dst. rewrite (Hl m' s' Hr'), (Hl m s Hr). unfold s', commit_edits_at. rewrite commit_out_rows. change (ko_koid (stamped _ _ _ _)) with (ko_koid ko).
  change (ko_relationships (stamped _ _ _ _)) with (ko_relationships ko). set (e := (src, rt, dst)). rewrite Forall_forall in Hself.
  assert (e ∈ edges (ko_koid ko) (removed_edges prev (ko_relationships ko)) <-> e ∈ edges (ko_koid ko) prev /\ e ∉ edges (ko_koid ko) (ko_relationships ko)) as ->; [|destruct (decide (e ∈ edges (ko_koid ko) (ko_relationships ko))); naive_solver].
  unfold edges. rewrite !list_elem_of_fmap. setoid_rewrite removed_edges_elem; [|done]. split.
  - intros (r & -> & Hr1 & Hr2). split; [eauto|]. intros (r' & Er & Hr3). apply edge_of_inj in Er; [congruence | apply Hself; set_solver..].
  - intros [(r & -> & Hr1) Hr2]. exists r. split_and!; [done.. |]. intros Hr3. apply Hr2. eauto.
Qed.
End Edges.
