(* ===== verification/CommitWitness.v ===== *)
(** The commit pipeline run on concrete kernels: a history with every operation, and the
    places where the code departs from what it says. *)

From stdpp Require Import gmap.
From S2P Require Import Prelude Format Memtable Kom Codec CodecProps Store Repository RepositorySpec RepositoryReads Commit CommitInv CommitOps CommitRun Epistemic CommitTxn CommitProps CommitEdges.

#[local] Existing Instance toy_sha.

Definition toy_hmac (key payload : bytes) : bytes := toy_digest (key ++ payload).
Definition toy_signer : option (bytes -> bytes) := Some (fun m => toy_digest m ++ toy_digest m).
Definition toy_key : option bytes := Some [x6b].
Definition allow_all (_ : KnowledgeObject) (_ : Action.t) : KResult unit := KOk tt.

Definition ko_a : KOID := mkKOID (repeat x0a 16).
Definition ko_b : KOID := mkKOID (repeat x0b 16).
Definition ko_c : KOID := mkKOID (repeat x0c 16).
Definition knows (dir : Direction.t) (k : KOID) : RelationshipRef := mkRelationshipRef [x72] k dir.
Definition draft (k : KOID) (version : Z) (rels : list RelationshipRef) : KnowledgeObject :=
  mkKnowledgeObject k version 0 (mkMetadata [x54] (Some [x74]) 1 []) [([x70], VInt 7)] None rels [] (mkSecurityDescriptor [x6f] [] None)
    (mkLifecycle LifecycleState.Draft Origin.Human) [].
Definition put_op (ms : Z) (ko : KnowledgeObject) (prev : option (list RelationshipRef)) : KernelOp :=
  OpCommit ms ko EventKind.Created Origin.Human [x75] None None prev (Some ([x74], 1)).
Definition pend (ko : KnowledgeObject) : Pending := mkPending ko EventKind.Created Origin.Human [x75] None [].
Definition history : list KernelOp :=
  [put_op 5 (draft ko_a 1 [knows Direction.Outbound ko_b]) None;
   OpTransact 6 [pend (draft ko_b 1 []); pend (draft ko_c 1 [knows Direction.Inbound ko_a])] [Some [x74]; Some [x74]] None None;
   OpEvolve 7 7 ko_a LifecycleState.Active Origin.Human (Some 1) [x75] None;
   OpEpistemic 7 7 ko_a EpistemicStatus.Superseded Origin.Human (Some ko_c) None [x75] None None;
   OpEpistemic 7 7 ko_a EpistemicStatus.Asserted Origin.Human None None [x75] None None;
   OpForget 7 ko_b Tombstone (Some 4) [x75] None;
   OpForget 8 ko_b Tombstone None [x75] None;
   OpAudit 8 [x6e];
   OpForget 9 ko_c Erase None [x75] (Some [x67]);
   OpReopen ∅;
   put_op 3 (draft ko_a 4 []) (Some [knows Direction.Outbound ko_b])].
Abbreviation run_history := (run_ops toy_hmac toy_signer toy_key allow_all (kernel_new mem_new)).

Example history_sent : map ke_kind (k_sent (run_history history)) =
  [EventKind.Created; EventKind.Created; EventKind.Created; EventKind.LifecycleChanged; EventKind.EpistemicChanged; EventKind.Forgotten; EventKind.Audit; EventKind.Forgotten; EventKind.Created].
Proof. vm_compute. reflexivity. Qed.

(** The hypotheses of an operation at a computed kernel. *)
Ltac room := split; [lia|]; split; [vm_compute; reflexivity|]; split; [vm_compute; reflexivity|].
Ltac batch_fits := split; [vm_compute; reflexivity | exact I].
Ltac fits_op :=
  cbn [op_fits];
  lazymatch goal with
  | |- True => exact I
  | |- version_fits _ _ _ _ _ _ _ _ _ _ _ _ _ => room; batch_fits
  | |- audit_fits _ _ _ _ => room; batch_fits
  | |- txn_fits _ _ _ _ _ _ _ _ _ => room; split; [apply (bool_decide_eq_true_1 (NoDup _)); vm_compute; reflexivity | batch_fits]
  | |- erase_fits _ _ _ _ _ _ _ _ _ =>
      room; split; [exact I|]; let Hv := fresh in intros ? Hv; vm_compute in Hv; injection Hv as <-; batch_fits
  | |- forget_fits _ _ _ _ _ _ _ _ _ => split; [reflexivity|]; let Hh := fresh in intros ? Hh; vm_compute in Hh; injection Hh as <-; cbv beta iota; fits_op
  | |- epistemic_fits _ _ _ _ _ _ _ _ _ _ _ _ _ =>
      split; [reflexivity|]; split; [intros ? [= <-]; reflexivity || intros ? [=]|]; split; [lia|];
      let Hh := fresh in let Ht := fresh in intros ? ? Hh Ht; vm_compute in Hh; injection Hh as <-; vm_compute in Ht; injection Ht as <-; fits_op
  | |- evolve_fits _ _ _ _ _ _ _ _ _ _ _ => split; [reflexivity|]; let Hh := fresh in intros ? Hh; vm_compute in Hh; injection Hh as <-; fits_op
  end.

Lemma history_fits : ops_fit toy_hmac toy_signer toy_key allow_all (kernel_new mem_new) history.
Proof. unfold history. cbn [ops_fit]. repeat (split; [unfold put_op; fits_op|]). exact I. Qed.

Lemma fresh_holds : holds mem_new ∅.
Proof. apply mem_new_holds. Qed.
Lemma journal_always_proves_witness : exists sigs,
  (prove toy_hmac toy_key allow_all ko_a (k_repo (run_history history))).2 = KOk (mkProof ko_a 9 true (p_audit (k_pipe (run_history history))) sigs).
Proof.
  destruct (journal_always_proves toy_hmac toy_signer toy_key allow_all mem_new history ko_a
    (stamp (draft ko_a 4 []) 589825 9 EventKind.Created) fresh_holds history_fits) as (sigs & W & _);
    [reflexivity | vm_compute; reflexivity | reflexivity | exact I | exists sigs; rewrite W; vm_compute; reflexivity].
Defined.

(** The first commit and what it leaves. *)
Definition first_op : KernelOp := put_op 5 (draft ko_a 1 [knows Direction.Outbound ko_b]) None.
Definition kernel_a : Kernel MemoryEngine := run_history [first_op].
Lemma kernel_a_ok : exists s evs, kernel_ok toy_hmac toy_key kernel_a s evs.
Proof.
  destruct (run_ops_ok toy_hmac toy_signer toy_key allow_all [first_op] (kernel_new mem_new) ∅ [] (kernel_new_ok toy_hmac toy_key mem_new fresh_holds)) as (s & new & Hok & _); [|eauto].
  cbn [ops_fit]. split; [unfold first_op, put_op; fits_op | exact I].
Qed.
Lemma commit_then_read_witness : exists k' ts seq,
  commit_version toy_hmac toy_signer toy_key 9 (draft ko_b 1 []) EventKind.Created Origin.Human [x75] None None None None kernel_a = (k', KOk (ts, seq)) /\
  (head_object ko_b (k_repo k')).2 = KOk (Some (stamp (draft ko_b 1 []) ts seq EventKind.Created)) /\ (head_object ko_a (k_repo k')).2 = (head_object ko_a (k_repo kernel_a)).2.
Proof.
  destruct kernel_a_ok as (s & evs & Hok).
  destruct (commit_then_read toy_hmac toy_signer toy_key kernel_a s evs 9 (draft ko_b 1 []) EventKind.Created Origin.Human [x75] None None None None Hok) as (k' & ts & seq & W1 & _ & _ & W2 & W3 & _);
    [vm_compute; reflexivity | reflexivity | fits_op | exists k', ts, seq; split; [exact W1|]; split; [exact W2|]; apply W3; [discriminate | reflexivity]].
Defined.
Lemma erase_forgets_witness : exists k' x,
  erase toy_hmac toy_signer toy_key 9 ko_a (draft ko_a 1 []) [x75] None kernel_a = (k', KOk x) /\ (head_object ko_a (k_repo k')).2 = KOk None.
Proof.
  destruct kernel_a_ok as (s & evs & Hok).
  destruct (erase_forgets toy_hmac toy_signer toy_key kernel_a s evs 9 ko_a (draft ko_a 1 []) [x75] None Hok) as (k' & ts & W1 & W2 & _); [reflexivity | fits_op | exists k'; eexists; split; [exact W1 | exact W2]].
Defined.
Lemma epistemic_transition_exact_witness : exists k' r ko,
  transition_epistemic toy_hmac toy_signer toy_key allow_all 9 9 ko_a EpistemicStatus.Superseded Origin.Human None None [x75] None (Some 4) kernel_a = (k', KOk r) /\
  (head_object ko_a (k_repo k')).2 = KOk (Some ko) /\ status_of ko = EpistemicStatus.Superseded /\ valid_to (ko_extensions ko) = Some 9.
Proof.
  destruct kernel_a_ok as (s & evs & Hok).
  pose proof (epistemic_transition_exact toy_hmac toy_signer toy_key allow_all kernel_a s evs 9 9 ko_a EpistemicStatus.Superseded Origin.Human None None [x75] None (Some 4) Hok
    ltac:(fits_op)) as W.
  destruct (transition_epistemic _ _ _ _ _ _ _ _ _ _ _ _ _ _ kernel_a) as [k' [[ver ts]|e|]] eqn:Et; [|vm_compute in Et; discriminate..].
  destruct W as (head & ko & Eh & _ & W1 & W2 & _). exists k', (ver, ts), ko. split; [done|]. split; [exact W1|]. split; [apply W2|].
  rewrite (moved_to _ _ _ _ _ _ W2). vm_compute in Eh. injection Eh as <-. vm_compute. reflexivity.
Defined.
Lemma edge_index_follows_witness :
  let op := commit_version toy_hmac toy_signer toy_key 9 (draft ko_a 2 [knows Direction.Outbound ko_c]) EventKind.Updated Origin.Human [x75] None None (Some [knows Direction.Outbound ko_b]) None in
  exists k' x l', op kernel_a = (k', KOk x) /\ scan_outbound (rp_engine (k_repo k')) ko_a None = KOk l' /\ ([x72], ko_b) ∉ l' /\ ([x72], ko_c) ∈ l'.
Proof.
  destruct kernel_a_ok as (s & evs & Hok).
  destruct (edge_index_follows toy_hmac toy_signer toy_key kernel_a s evs 9 (draft ko_a 2 [knows Direction.Outbound ko_c]) EventKind.Updated Origin.Human [x75] None None
    [knows Direction.Outbound ko_b] None ko_a [([x72], ko_b)] Hok) as (k' & x & W1 & W2);
    [vm_compute; reflexivity | reflexivity | fits_op | apply (bool_decide_eq_true_1 (NoDup _)); vm_compute; reflexivity | repeat constructor; discriminate | exact I | vm_compute; reflexivity|].
  destruct (W2 I) as (l' & W3 & W4). exists k', x, l'. split; [exact W1|]. split; [exact W3|]. rewrite !W4. cbn. split; [|set_solver].
  rewrite !list_elem_of_singleton. intros [[=]|[_ Hn]]. apply Hn. set_solver.
Defined.
Definition sent : list KnowledgeEvent := k_sent (run_history history).
Lemma journal_wf_check evs : forallb (fun ke => ke_wf ke && (zlen (event_preimage ZERO32 ke) <? USIZE)) evs = true -> journal_wf evs.
Proof. rewrite forallb_forall. intros Hf. apply Forall_forall. intros ke Hk%list_elem_of_In%Hf. apply andb_true_iff in Hk as [? ?%Z.ltb_lt]. done. Qed.
Lemma sha_sound_check xs ys :
  forallb (fun x => forallb (fun y => bool_decide (x = y) || negb (bool_decide (sha256 x = sha256 y))) ys) xs = true -> forallb (fun x => negb (bool_decide (sha256 x = ZERO32))) (xs ++ ys) = true ->
  sha_sound xs ys.
Proof.
  rewrite !forallb_forall. intros Hi Hz. split.
  - intros x y Hx%list_elem_of_In%Hi Hy Heq. rewrite forallb_forall in Hx. apply list_elem_of_In, Hx in Hy. rewrite Heq in Hy. rewrite (bool_decide_true (sha256 y = sha256 y)) in Hy by done.
    rewrite orb_false_r in Hy. by apply bool_decide_eq_true_1 in Hy.
  - intros x Hx%list_elem_of_In%Hz Heq. by rewrite bool_decide_true in Hx.
Qed.
Lemma chain_tamper_evident_witness : map audited sent = map audited (map (set_origin Origin.System) sent) /\ zlen sent = 9.
Proof.
  split; [|vm_compute; reflexivity]. apply (chain_tamper_evident sent (map (set_origin Origin.System) sent) (p_audit (k_pipe (run_history history)))).
  - apply journal_wf_check. vm_compute. reflexivity.
  - apply journal_wf_check. vm_compute. reflexivity.
  - apply sha_sound_check; vm_compute; reflexivity.
  - vm_compute. repeat split.
  - vm_compute. repeat split.
Defined.

(* ------------------------------------------------------------------ *)
(** * Departures *)

Abbreviation outbound k src := (scan_outbound (rp_engine (k_repo k)) src None).
Definition live_edges (k : Kernel MemoryEngine) (x : KOID) : list (KOID * bytes * KOID) :=
  match head_object x (k_repo k) with (_, KOk (Some ko)) => edges x (ko_relationships ko) | _ => [] end.

(** An edge listed twice and then once: the second copy is dropped from the index, where both
    had one row, and the edge the head still has is gone from it. *)
Definition twice : list RelationshipRef := [knows Direction.Outbound ko_b; knows Direction.Outbound ko_b].
Lemma duplicate_edge_lost :
  let k := run_history [put_op 5 (draft ko_a 1 twice) None; put_op 6 (draft ko_a 2 [knows Direction.Outbound ko_b]) (Some twice)] in
  live_edges k ko_a = [(ko_a, [x72], ko_b)] /\ outbound k ko_a = KOk [].
Proof. vm_compute. split; reflexivity. Qed.

(** An edge two heads declare, one from each end, has one row: when one head drops it, the
    index loses it though the other head still has it. *)
Lemma shared_edge_lost :
  let k := run_history [put_op 5 (draft ko_a 1 [knows Direction.Outbound ko_b]) None; put_op 6 (draft ko_b 1 [knows Direction.Inbound ko_a]) None;
    put_op 7 (draft ko_a 2 []) (Some [knows Direction.Outbound ko_b])] in
  live_edges k ko_b = [(ko_a, [x72], ko_b)] /\ outbound k ko_a = KOk [].
Proof. vm_compute. split; reflexivity. Qed.

(** A legal erasure leaves the relationships of the erased object in the index. *)
Lemma erased_edges_stay :
  let k := run_history [first_op; OpForget 6 ko_a Erase None [x75] None] in
  (head_object ko_a (k_repo k)).2 = KOk None /\ outbound k ko_a = KOk [([x72], ko_b)].
Proof. vm_compute. split; reflexivity. Qed.

(** Forgetting a deleted object takes it from its tenant's count again: the count is then
    below the number of live objects, which a rebuild counts. *)
Lemma double_forget_undercounts :
  let k := run_history [OpTransact 5 [pend (draft ko_a 1 []); pend (draft ko_b 1 [])] [Some [x74]; Some [x74]] None None;
    OpForget 6 ko_a Tombstone None [x75] None; OpForget 7 ko_a Tombstone None [x75] None] in
  usage_of (k_usage k) [x74] = 0 /\
  match scan_heads (rp_engine (k_repo k)) with KOk hs => usage_of (usage_rebuild hs (fun _ _ => Some [x74])) [x74] = 1 | _ => False end.
Proof. vm_compute. split; reflexivity. Qed.

(** With a signing key and a journal no event of which is signed, the verdict on signatures
    is bad. *)
Lemma unsigned_not_verified :
  let k := run_ops toy_hmac None None allow_all (kernel_new mem_new) [first_op] in
  Forall (fun ke => ke_signature ke = None) (k_sent k) /\
  match prove toy_hmac toy_key allow_all ko_a (k_repo k) with (_, KOk p) => pr_chain_valid p = true /\ pr_signatures p = false | _ => False end.
Proof. vm_compute. repeat constructor. Qed.
