(* ===== verification/Auth.v ===== *)
(** crates/kernel/src/security/auth.rs: the authorization manager; its role graph and type
    policies, how they are loaded from the repository, and the decision; with [Subject] of
    transaction/kernel.rs and the names of actions and effects of knowledge/kom.rs. *)

From Stdlib Require Import String.
From stdpp Require Import gmap relations.
From S2P Require Import Prelude Format Memtable Kom Codec Store Repository.

(* ------------------------------------------------------------------ *)
(** * Subjects and properties *)

Definition txt (s : string) : bytes := list_byte_of_string s.
Definition ADMIN : bytes := txt "admin".
Definition STAR : bytes := txt "*".

Record Subject : Type := mkSubject { su_name : bytes; su_roles : list bytes; su_tenant : option bytes }.
Definition is_admin (s : Subject) : bool := existsb (fun r => bool_decide (r = ADMIN)) (su_roles s).

Definition action_from_name (s : bytes) : option Action.t :=
  if bool_decide (s = txt "read") then Some Action.Read else if bool_decide (s = txt "write") then Some Action.Write
  else if bool_decide (s = txt "evolve") then Some Action.Evolve else if bool_decide (s = txt "delete") then Some Action.Delete
  else if bool_decide (s = txt "admin") then Some Action.Admin else None.
Definition effect_from_name (s : bytes) : option Effect.t :=
  if bool_decide (s = txt "allow") then Some Effect.Allow else if bool_decide (s = txt "deny") then Some Effect.Deny else None.

Definition value_text (v : Value) : option bytes := match v with VText s => Some s | _ => None end.
Definition text_prop (props : PropertyMap) (key : bytes) : option bytes := btree_get props key ≫= value_text.
Definition text_list (props : PropertyMap) (key : bytes) : list bytes := match btree_get props key with Some (VList xs) => omap value_text xs | _ => [] end.
Definition parse_acl_rule (x : Value) : option AclEntry :=
  match x with
  | VMap m =>
      match btree_get m (txt "principal") ≫= value_text, (btree_get m (txt "action") ≫= value_text) ≫= action_from_name,
        (btree_get m (txt "effect") ≫= value_text) ≫= effect_from_name with
      | Some p, Some a, Some e => Some (mkAclEntry p a e)
      | _, _, _ => None
      end
  | _ => None
  end.
Definition parse_acl_rules (props : PropertyMap) (key : bytes) : list AclEntry := match btree_get props key with Some (VList xs) => omap parse_acl_rule xs | _ => [] end.

(* ------------------------------------------------------------------ *)
(** * The manager *)

Record AuthManager : Type := mkAuthManager { am_role_parents : gmap bytes (list bytes); am_policies : gmap bytes (list AclEntry) }.
Definition ROLE_TYPE : bytes := txt "aikoql:role".
Definition POLICY_TYPE : bytes := txt "aikoql:policy".

(** One head of [AuthManager::load], and the loop over the heads. *)
Definition load_object (auth : AuthManager) (ko : KnowledgeObject) : AuthManager :=
  if bool_decide (type_name (ko_metadata ko) = ROLE_TYPE) then
    match text_prop (ko_properties ko) (txt "name") with
    | Some name => mkAuthManager (<[name := text_list (ko_properties ko) (txt "parents")]> (am_role_parents auth)) (am_policies auth)
    | None => auth
    end
  else if bool_decide (type_name (ko_metadata ko) = POLICY_TYPE) then
    match text_prop (ko_properties ko) (txt "target_type") with
    | Some target => mkAuthManager (am_role_parents auth) (<[target := parse_acl_rules (ko_properties ko) (txt "rules")]> (am_policies auth))
    | None => auth
    end
  else auth.
Definition auth_default : AuthManager := mkAuthManager ∅ ∅.
Section Load.
Context {E : Type} `{StorageEngine E}.
Fixpoint load_loop (heads : list (KOID * Z * Z * LifecycleState.t)) (auth : AuthManager) : RM E AuthManager :=
  match heads with
  | [] => mret auth
  | (koid, _, ts, _) :: heads =>
      o ← get_object_version koid ts;
      match o with
      | None => lift (KErr (Kom.Store "head points at missing version"))
      | Some ko => load_loop heads (load_object auth ko)
      end
  end.
Definition auth_load : RM E AuthManager := heads ← on_engine scan_heads; load_loop heads auth_default.
End Load.

(** [effective_roles]: the walk up the role graph.  A role is pushed when it is first seen;
    the fuel is one more than the names there are. *)
Definition see_role (x : gset bytes * list bytes) (r : bytes) : gset bytes * list bytes :=
  if decide (r ∈ x.1) then x else ({[r]} ∪ x.1, r :: x.2).
Fixpoint roles_loop (auth : AuthManager) (fuel : nat) (x : gset bytes * list bytes) : gset bytes :=
  match fuel, x.2 with
  | S fuel, r :: stack => roles_loop auth fuel (fold_left see_role (default [] (am_role_parents auth !! r)) (x.1, stack))
  | _, _ => x.1
  end.
Definition role_names (auth : AuthManager) (s : Subject) : list bytes := su_roles s ++ concat (map snd (map_to_list (am_role_parents auth))).
Definition effective_roles (auth : AuthManager) (s : Subject) : gset bytes :=
  roles_loop auth (S (length (role_names auth s))) (fold_left see_role (su_roles s) (∅, [])).
Definition effective_principals (auth : AuthManager) (s : Subject) : gset bytes := {[su_name s]} ∪ effective_roles auth s.

(** [eval_acl]: a matching denial decides at once; a matching permission, or none. *)
Definition entry_matches (principals : gset bytes) (a : Action.t) (e : AclEntry) : bool :=
  (bool_decide (principal e = STAR) || bool_decide (principal e ∈ principals)) && (bool_decide (action e = a) || bool_decide (action e = Action.Admin)).
Fixpoint eval_acl_loop (entries : list AclEntry) (principals : gset bytes) (a : Action.t) (allowed : bool) : option bool :=
  match entries with
  | [] => if allowed then Some true else None
  | e :: entries =>
      if entry_matches principals a e then match effect e with Effect.Deny => Some false | Effect.Allow => eval_acl_loop entries principals a true end
      else eval_acl_loop entries principals a allowed
  end.
Definition eval_acl (entries : list AclEntry) (principals : gset bytes) (a : Action.t) : option bool := eval_acl_loop entries principals a false.

(** [authorize_parts], [authorize]. *)
Definition authorize_parts (auth : AuthManager) (s : Subject) (tenant : option bytes) (koid : KOID) (security : SecurityDescriptor) (ty : bytes) (a : Action.t)
    : KResult unit :=
  let denied := KErr (AccessDenied (su_name s) a koid) in
  if match su_tenant s, tenant with Some st, Some kt => negb (bool_decide (st = kt)) | _, _ => false end then denied
  else if bool_decide (a = Action.Read) && bool_decide (is_Some (su_tenant s)) && bool_decide (tenant = None) then denied
  else
    let principals := effective_principals auth s in
    if bool_decide (a = Action.Read) && bool_decide (su_tenant s = None) && bool_decide (is_Some tenant) && negb (is_admin s) && negb (bool_decide (ADMIN ∈ principals)) then denied
    else if bool_decide (su_name s = owner security) || is_admin s then KOk tt
    else if bool_decide (ADMIN ∈ principals) then KOk tt
    else
      match eval_acl (acl security) principals a with
      | Some allowed => if (allowed : bool) then KOk tt else denied
      | None =>
          match am_policies auth !! ty with
          | Some rules => match eval_acl rules principals a with Some allowed => if (allowed : bool) then KOk tt else denied | None => denied end
          | None => denied
          end
      end.
Definition authorize (auth : AuthManager) (s : Subject) (ko : KnowledgeObject) (a : Action.t) : KResult unit :=
  authorize_parts auth s (tenant (ko_metadata ko)) (ko_koid ko) (ko_security ko) (type_name (ko_metadata ko)) a.

(* ------------------------------------------------------------------ *)
(** * The role graph *)

Definition parent_of (auth : AuthManager) (r p : bytes) : Prop := p ∈ default [] (am_role_parents auth !! r).
Definition inherits (auth : AuthManager) (s : Subject) (r : bytes) : Prop := exists r0, r0 ∈ su_roles s /\ rtc (parent_of auth) r0 r.

Lemma see_roles rs : forall seen stack, let x := fold_left see_role rs (seen, stack) in
  (forall r, r ∈ x.1 <-> r ∈ seen \/ r ∈ rs) /\ (forall r, r ∈ x.2 <-> r ∈ stack \/ r ∈ rs /\ r ∉ seen) /\ (length x.2 + size seen = length stack + size x.1)%nat.
Proof.
  induction rs as [|r rs IH]; intros seen stack x; [unfold x; cbn; set_solver|]. unfold x. cbn [fold_left]. unfold see_role at 2 4 6 8. cbn [fst snd].
  destruct (decide (r ∈ seen)) as [Hin|Hn].
  - destruct (IH seen stack) as (H1 & H2 & H3). split_and!; [intros r'; rewrite H1, elem_of_cons; naive_solver | intros r'; rewrite H2, elem_of_cons; naive_solver | done].
  - destruct (IH ({[r]} ∪ seen) (r :: stack)) as (H1 & H2 & H3). split_and!.
    + intros r'. rewrite H1, elem_of_union, elem_of_singleton, elem_of_cons. tauto.
    + intros r'. rewrite H2, elem_of_cons, not_elem_of_union, elem_of_cons, not_elem_of_singleton. destruct (decide (r' = r)); naive_solver.
    + rewrite size_union, size_singleton in H3 by set_solver. cbn in H3. lia.
Qed.
Section Walk.
Context (auth : AuthManager) (s : Subject).
Record walk (x : gset bytes * list bytes) : Prop := {
  walk_sound : forall r, r ∈ x.1 -> inherits auth s r;
  walk_stack : forall r, r ∈ x.2 -> r ∈ x.1;
  walk_roles : forall r, r ∈ su_roles s -> r ∈ x.1;
  walk_done : forall r p, r ∈ x.1 -> r ∉ x.2 -> parent_of auth r p -> p ∈ x.1 }.
Lemma role_walk_step r seen stack : walk (seen, r :: stack) ->
  let x := fold_left see_role (default [] (am_role_parents auth !! r)) (seen, stack) in walk x /\ (length x.2 + size seen = length stack + size x.1)%nat.
Proof.
  intros [Hs Hst Hr Hd] x. destruct (see_roles (default [] (am_role_parents auth !! r)) seen stack) as (H1 & H2 & H3). fold x in H1, H2, H3. cbn [fst snd] in *. split; [|done]. split.
  - intros r' [Hin|Hin]%H1; [by apply Hs|]. destruct (Hs r) as (r0 & Hr0 & Hp); [apply Hst; set_solver|]. exists r0. split; [done|]. by eapply rtc_r.
  - intros r' [Hin|[Hin _]]%H2; apply H1; [left; apply Hst; set_solver | by right].
  - intros r' Hin. apply H1. left. by apply Hr.
  - intros r' p Hin Hns Hp. apply H1 in Hin as [Hin|Hin].
    + destruct (decide (r' = r)) as [->|Hne]; [apply H1; by right|]. apply H1. left. eapply Hd; [exact Hin | | exact Hp]. rewrite not_elem_of_cons. split; [done|]. intros ?. apply Hns, H2. by left.
    + destruct (decide (r' ∈ seen)) as [Hs'|Hns']; [|exfalso; apply Hns, H2; by right]. destruct (decide (r' = r)) as [->|Hne]; [apply H1; by right|].
      apply H1. left. eapply Hd; [exact Hs' | | exact Hp]. rewrite not_elem_of_cons. split; [done|]. intros ?. apply Hns, H2. by left.
Qed.

(** Every name the walk can see. *)
Definition names : gset bytes := list_to_set (role_names auth s).
Lemma parent_named r p : parent_of auth r p -> p ∈ names.
Proof.
  unfold parent_of, names, role_names. destruct (am_role_parents auth !! r) as [ps|] eqn:Er; cbn; [|by intros ?%not_elem_of_nil]. intros Hp. apply elem_of_list_to_set, elem_of_app. right.
  apply list_elem_of_In, in_concat. exists ps. split; [|by apply list_elem_of_In]. apply list_elem_of_In, list_elem_of_fmap. exists (r, ps). split; [done|]. by apply elem_of_map_to_list.
Qed.
Lemma roles_loop_ok fuel : forall x, walk x -> x.1 ⊆ names -> (length x.2 + size names - size x.1 < fuel)%nat -> forall r, r ∈ roles_loop auth fuel x <-> inherits auth s r.
Proof.
  induction fuel as [|fuel IH]; intros [seen stack] Hw Hu Hf r; [lia|]. cbn [fst snd] in *. pose proof (subseteq_size _ _ Hu) as Hsz. destruct stack as [|r0 stack].
  - cbn. split; [by apply (walk_sound _ Hw)|]. intros (r1 & Hr1 & Hp). apply (walk_roles _ Hw) in Hr1. cbn in Hr1. induction Hp as [|a b c Hab _ IHp]; [done|]. apply IHp.
    eapply (walk_done _ Hw); [exact Hr1 | apply not_elem_of_nil | exact Hab].
  - cbn [roles_loop fst snd]. destruct (role_walk_step r0 seen stack Hw) as [Hw' Hm]. set (x := fold_left _ _ _) in *.
    assert (x.1 ⊆ names) as Hu'.
    { intros p Hp. destruct (see_roles (default [] (am_role_parents auth !! r0)) seen stack) as (H1 & _). apply H1 in Hp as [Hp|Hp]; [by apply Hu | by eapply parent_named]. }
    pose proof (subseteq_size _ _ Hu') as Hsz'. cbn in Hf. apply IH; [done | done | lia].
Qed.
End Walk.
Lemma effective_roles_spec auth s r : r ∈ effective_roles auth s <-> inherits auth s r.
Proof.
  unfold effective_roles. destruct (see_roles (su_roles s) ∅ []) as (H1 & H2 & H3). set (x := fold_left see_role (su_roles s) (∅, [])) in *.
  assert (x.1 ⊆ names auth s) as Hu by (intros p [Hp|Hp]%H1; [set_solver|]; unfold names, role_names; apply elem_of_list_to_set, elem_of_app; by left).
  apply roles_loop_ok; [|done|].
  - split; [intros r' [?|?]%H1; [set_solver|]; exists r'; split; [done | constructor] | intros r' [?|[? _]]%H2; [set_solver|]; apply H1; by right | intros; apply H1; by right|].
    intros r' p [?|?]%H1 Hns; [set_solver|]. exfalso. apply Hns, H2. right. set_solver.
  - rewrite size_empty in H3. cbn in H3. pose proof (size_of_list (role_names auth s)). unfold names. lia.
Qed.

(* ------------------------------------------------------------------ *)
(** * The decision *)

(** The policy in words: who a subject counts as, which rules speak of it. *)
Definition acts_as (auth : AuthManager) (s : Subject) (p : bytes) : Prop := p = su_name s \/ inherits auth s p.
Definition rule_for (auth : AuthManager) (s : Subject) (a : Action.t) (eff : Effect.t) (rules : list AclEntry) : Prop :=
  exists e, e ∈ rules /\ (principal e = STAR \/ acts_as auth s (principal e)) /\ (action e = a \/ action e = Action.Admin) /\ effect e = eff.
Definition grants (auth : AuthManager) (s : Subject) (a : Action.t) (rules : list AclEntry) : Prop :=
  rule_for auth s a Effect.Allow rules /\ ~ rule_for auth s a Effect.Deny rules.
Definition silent (auth : AuthManager) (s : Subject) (a : Action.t) (rules : list AclEntry) : Prop :=
  ~ rule_for auth s a Effect.Allow rules /\ ~ rule_for auth s a Effect.Deny rules.
(** An administrator has the role ["admin"], directly or by inheritance, or is named so. *)
Definition administrator (auth : AuthManager) (s : Subject) : Prop := ADMIN = su_name s \/ inherits auth s ADMIN.
Definition confined (auth : AuthManager) (s : Subject) (tenant : option bytes) (a : Action.t) : Prop :=
  match su_tenant s, tenant with
  | Some st, Some kt => st = kt
  | Some _, None => a <> Action.Read
  | None, Some _ => a = Action.Read -> administrator auth s
  | None, None => True
  end.
Definition entitled (auth : AuthManager) (s : Subject) (security : SecurityDescriptor) (ty : bytes) (a : Action.t) : Prop :=
  su_name s = owner security \/ administrator auth s \/ grants auth s a (acl security) \/
  silent auth s a (acl security) /\ exists rules, am_policies auth !! ty = Some rules /\ grants auth s a rules.
Definition permitted (auth : AuthManager) (s : Subject) (ko : KnowledgeObject) (a : Action.t) : Prop :=
  confined auth s (tenant (ko_metadata ko)) a /\ entitled auth s (ko_security ko) (type_name (ko_metadata ko)) a.

Lemma principals_spec auth s p : p ∈ effective_principals auth s <-> acts_as auth s p.
Proof. unfold effective_principals, acts_as. rewrite elem_of_union, elem_of_singleton, effective_roles_spec. done. Qed.
Lemma is_admin_spec auth s : is_admin s = true -> administrator auth s.
Proof. unfold is_admin. rewrite existsb_exists. intros (r & Hr & ->%bool_decide_eq_true_1). right. exists ADMIN. split; [by apply list_elem_of_In | constructor]. Qed.
Lemma entry_matches_spec auth s a e : entry_matches (effective_principals auth s) a e = true <->
  (principal e = STAR \/ acts_as auth s (principal e)) /\ (action e = a \/ action e = Action.Admin).
Proof. unfold entry_matches. rewrite andb_true_iff, !orb_true_iff, !bool_decide_eq_true, principals_spec. done. Qed.
Lemma eval_acl_loop_spec auth s a rules : forall allowed,
  match eval_acl_loop rules (effective_principals auth s) a allowed with
  | Some true => (allowed = true \/ rule_for auth s a Effect.Allow rules) /\ ~ rule_for auth s a Effect.Deny rules
  | Some false => rule_for auth s a Effect.Deny rules
  | None => allowed = false /\ silent auth s a rules
  end.
Proof.
  assert (forall eff e rules, rule_for auth s a eff (e :: rules) <-> entry_matches (effective_principals auth s) a e = true /\ effect e = eff \/ rule_for auth s a eff rules) as Hc.
  { intros eff e rs. rewrite entry_matches_spec. unfold rule_for. setoid_rewrite elem_of_cons. naive_solver. }
  assert (forall eff, ~ rule_for auth s a eff []) as Hnil by (intros eff (e & ?%not_elem_of_nil & _); done).
  induction rules as [|e rules IH]; intros allowed; cbn [eval_acl_loop].
  - destruct allowed; [split; [by left | done]|]. split; [done|]. split; done.
  - unfold silent in *. pose proof (Hc Effect.Allow e rules) as Ha. pose proof (Hc Effect.Deny e rules) as Hd. destruct (entry_matches _ a e) eqn:Em.
    + destruct (effect e) eqn:Ee; [|apply Hd; by left]. specialize (IH true). destruct (eval_acl_loop _ _ _ _) as [[]|]; naive_solver.
    + specialize (IH allowed). destruct (eval_acl_loop _ _ _ _) as [[]|]; naive_solver.
Qed.
Lemma eval_acl_spec auth s a rules :
  match eval_acl rules (effective_principals auth s) a with
  | Some true => grants auth s a rules | Some false => rule_for auth s a Effect.Deny rules | None => silent auth s a rules
  end.
Proof. unfold eval_acl. pose proof (eval_acl_loop_spec auth s a rules false) as H. destruct (eval_acl_loop _ _ _ _) as [[]|]; unfold grants; naive_solver. Qed.

Lemma grants_exclusive auth s a rules : grants auth s a rules -> ~ silent auth s a rules.
Proof. intros [? _] [? _]. done. Qed.
Lemma entitled_spec auth s security ty a (denied : KResult unit) :
  let P := effective_principals auth s in
  let decision :=
    if bool_decide (su_name s = owner security) || is_admin s then KOk tt
    else if bool_decide (ADMIN ∈ P) then KOk tt
    else
      match eval_acl (acl security) P a with
      | Some allowed => if (allowed : bool) then KOk tt else denied
      | None => match am_policies auth !! ty with
        | Some rules => match eval_acl rules P a with Some allowed => if (allowed : bool) then KOk tt else denied | None => denied end
        | None => denied
        end
      end in
  decision = KOk tt /\ entitled auth s security ty a \/ decision = denied /\ ~ entitled auth s security ty a.
Proof.
  intros P. cbn zeta. unfold entitled. destruct (bool_decide (su_name s = owner security)) eqn:Eo; [apply bool_decide_eq_true_1 in Eo; left; auto|]. apply bool_decide_eq_false_1 in Eo.
  destruct (is_admin s) eqn:Ei; [apply (is_admin_spec auth) in Ei; left; auto|]. cbn [orb].
  destruct (bool_decide (ADMIN ∈ P)) eqn:Ea; [apply bool_decide_eq_true_1, principals_spec in Ea; left; auto|].
  apply bool_decide_eq_false_1 in Ea. unfold P in Ea. rewrite principals_spec in Ea. pose proof (eval_acl_spec auth s a (acl security)) as Hacl. fold P in Hacl.
  destruct (eval_acl (acl security) P a) as [[]|]; [left; auto | right |].
  { split; [done|]. unfold grants, silent. naive_solver. }
  destruct (am_policies auth !! ty) as [rules|] eqn:Ep; [|right; split; [done|]; pose proof (grants_exclusive auth s a (acl security)); naive_solver].
  pose proof (eval_acl_spec auth s a rules) as Hr. fold P in Hr. pose proof (grants_exclusive auth s a (acl security)). pose proof (grants_exclusive auth s a rules).
  destruct (eval_acl rules P a) as [[]|]; [left; naive_solver | right; split; [done|] | right; split; [done|]]; unfold grants in *; naive_solver.
Qed.

