(* ===== verification/AuthProps.v ===== *)
(** The authorization manager in the kernel: what a load reads, and where the code departs
    from its documentation. *)

From Stdlib Require Import String.
From stdpp Require Import gmap relations sorting.
From S2P Require Import Prelude Format Memtable Kom Codec CodecProps Store Repository RepositorySpec RepositoryReads RepositoryRebuild Commit CommitInv CommitOps CommitRun Epistemic CommitTxn CommitProps CommitEdges CommitWitness Auth.

(** What a stored object declares, read off its properties.  [picks R vs l]: [l] is what [R]
    makes of the values of [vs], in order, the values it does not read left out. *)
Inductive picks {A} (R : Value -> A -> Prop) : list Value -> list A -> Prop :=
  | picks_nil : picks R [] []
  | picks_take v a vs l : R v a -> picks R vs l -> picks R (v :: vs) (a :: l)
  | picks_skip v vs l : (forall a, ~ R v a) -> picks R vs l -> picks R (v :: vs) l.
Definition holds_list {A} (R : Value -> A -> Prop) (props : PropertyMap) (key : bytes) (l : list A) : Prop :=
  match btree_get props key with Some (VList vs) => picks R vs l | _ => l = [] end.
Definition action_name (a : Action.t) : bytes :=
  txt match a with Action.Read => "read" | Action.Write => "write" | Action.Evolve => "evolve" | Action.Delete => "delete" | Action.Admin => "admin" end.
Definition effect_name (e : Effect.t) : bytes := txt match e with Effect.Allow => "allow" | Effect.Deny => "deny" end.
Definition is_rule (v : Value) (e : AclEntry) : Prop :=
  exists m, v = VMap m /\ btree_get m (txt "principal") = Some (VText (principal e)) /\
    btree_get m (txt "action") = Some (VText (action_name (action e))) /\ btree_get m (txt "effect") = Some (VText (effect_name (effect e))).
Definition declares_role (ko : KnowledgeObject) (name : bytes) (parents : list bytes) : Prop :=
  type_name (ko_metadata ko) = ROLE_TYPE /\ btree_get (ko_properties ko) (txt "name") = Some (VText name) /\
  holds_list (fun v s => v = VText s) (ko_properties ko) (txt "parents") parents.
Definition declares_policy (ko : KnowledgeObject) (target : bytes) (rules : list AclEntry) : Prop :=
  type_name (ko_metadata ko) = POLICY_TYPE /\ btree_get (ko_properties ko) (txt "target_type") = Some (VText target) /\
  holds_list is_rule (ko_properties ko) (txt "rules") rules.
(** The declaration in force: that of the object with the greatest identifier. *)
Definition in_force {A} (objects : KnowledgeObject -> Prop) (declares : KnowledgeObject -> bytes -> A -> Prop) (name : bytes) (x : A) : Prop :=
  exists ko, objects ko /\ declares ko name x /\
    forall ko' x', objects ko' -> declares ko' name x' -> ko' = ko \/ bytes_lt (koid_bytes (ko_koid ko')) (koid_bytes (ko_koid ko)).

Lemma picks_omap {A} (R : Value -> A -> Prop) (f : Value -> option A) : (forall v a, R v a <-> f v = Some a) -> forall vs l, picks R vs l <-> l = omap f vs.
Proof.
  intros Hf vs l. split.
  - induction 1 as [|v a vs l Hr _ IH|v vs l Hr _ IH]; cbn [omap list_omap]; [done | by rewrite (proj1 (Hf v a) Hr), IH|].
    destruct (f v) as [a|] eqn:Ev; [by destruct (Hr a); apply Hf | exact IH].
  - intros ->. induction vs as [|v vs IH]; cbn [omap list_omap]; [constructor|]. destruct (f v) as [a|] eqn:Ev; [by constructor; [apply Hf|]|].
    apply picks_skip; [|done]. intros a Hr. apply Hf in Hr. congruence.
Qed.
Lemma action_names s a : action_from_name s = Some a <-> s = action_name a.
Proof.
  unfold action_from_name, action_name. split; [|by intros ->; destruct a]. repeat (case_bool_decide; [by intros [= <-]|]). done.
Qed.
Lemma effect_names s e : effect_from_name s = Some e <-> s = effect_name e.
Proof. unfold effect_from_name, effect_name. split; [|by intros ->; destruct e]. repeat (case_bool_decide; [by intros [= <-]|]). done. Qed.
Lemma value_texts v s : v = VText s <-> value_text v = Some s.
Proof. destruct v; cbn; naive_solver. Qed.
Lemma text_field m key s : btree_get m key = Some (VText s) <-> btree_get m key ≫= value_text = Some s.
Proof. destruct (btree_get m key) as [v|]; cbn; [|done]. rewrite <-value_texts. naive_solver. Qed.
Lemma named_field {A} (from : bytes -> option A) (name : A -> bytes) m key a : (forall s a, from s = Some a <-> s = name a) ->
  btree_get m key = Some (VText (name a)) <-> (btree_get m key ≫= value_text) ≫= from = Some a.
Proof. intros Hn. rewrite bind_Some, text_field. setoid_rewrite Hn. naive_solver. Qed.
Lemma rule_reads v e : is_rule v e <-> parse_acl_rule v = Some e.
Proof.
  unfold is_rule, parse_acl_rule. setoid_rewrite (named_field _ _ _ _ _ action_names). setoid_rewrite (named_field _ _ _ _ _ effect_names). setoid_rewrite text_field. split.
  - intros (m & -> & -> & -> & ->). by destruct e.
  - destruct v; try done. repeat case_match; try done. intros [= <-]. eexists. split; [reflexivity|]. done.
Qed.
Lemma holds_omap {A} (R : Value -> A -> Prop) f props key l : (forall v a, R v a <-> f v = Some a) ->
  holds_list R props key l <-> l = match btree_get props key with Some (VList vs) => omap f vs | _ => [] end.
Proof. intros Hf. unfold holds_list. destruct (btree_get props key) as [[]|]; try done. by apply picks_omap. Qed.

(** One object of the load, and the load of a list of them, in increasing order of identifier. *)
Lemma load_object_roles auth ko name : am_role_parents (load_object auth ko) !! name =
  if bool_decide (type_name (ko_metadata ko) = ROLE_TYPE /\ text_prop (ko_properties ko) (txt "name") = Some name)
  then Some (text_list (ko_properties ko) (txt "parents")) else am_role_parents auth !! name.
Proof.
  unfold load_object. case_bool_decide as Ht.
  - destruct (text_prop (ko_properties ko) (txt "name")) as [n|] eqn:En; cbn [am_role_parents].
    + case_bool_decide as Hn; [destruct Hn as [_ [= ->]]; apply lookup_insert_eq|]. apply lookup_insert_ne. intros ->. by apply Hn.
    + rewrite bool_decide_false; [done|]. by intros [_ ?].
  - rewrite (bool_decide_false (_ /\ _)) by (by intros [? _]). repeat case_match; done.
Qed.
Lemma load_object_policies auth ko target : am_policies (load_object auth ko) !! target =
  if bool_decide (type_name (ko_metadata ko) = POLICY_TYPE /\ text_prop (ko_properties ko) (txt "target_type") = Some target)
  then Some (parse_acl_rules (ko_properties ko) (txt "rules")) else am_policies auth !! target.
Proof.
  unfold load_object. case_bool_decide as Ht; [|case_bool_decide as Hp].
  - rewrite bool_decide_false by (rewrite Ht; by intros [? _]). by destruct (text_prop _ _).
  - destruct (text_prop (ko_properties ko) (txt "target_type")) as [n|] eqn:En; cbn [am_policies].
    + case_bool_decide as Hn; [destruct Hn as [_ [= ->]]; apply lookup_insert_eq|]. apply lookup_insert_ne. intros ->. by apply Hn.
    + rewrite bool_decide_false; [done|]. by intros [_ ?].
  - rewrite (bool_decide_false (_ /\ _)) by (by intros [? _]). done.
Qed.
Definition koids_ascend (l : list KnowledgeObject) : Prop := StronglySorted (fun a b => bytes_lt (koid_bytes (ko_koid a)) (koid_bytes (ko_koid b))) l.
Lemma last_in_force {A} (declares : KnowledgeObject -> bytes -> A -> Prop) (look : AuthManager -> option A) name (P : KnowledgeObject -> Prop) `{forall ko, Decision (P ko)} (val : KnowledgeObject -> A) :
  (forall ko x, declares ko name x <-> P ko /\ x = val ko) -> (forall auth ko, look (load_object auth ko) = if bool_decide (P ko) then Some (val ko) else look auth) -> look auth_default = None ->
  forall l x, koids_ascend l -> look (fold_left load_object l auth_default) = Some x <-> in_force (fun ko => ko ∈ l) declares name x.
Proof.
  intros Hd Hl H0 l. induction l as [|ko l IH] using rev_ind; intros x Hs.
  { cbn. rewrite H0. split; [done|]. intros (ko & Hin & _). by apply not_elem_of_nil in Hin. }
  rewrite fold_left_app. cbn [fold_left]. rewrite Hl. unfold koids_ascend in Hs. rewrite sorting.StronglySorted_app in Hs. destruct Hs as (Hlt & Hs & _). unfold in_force in *. setoid_rewrite elem_of_app. setoid_rewrite list_elem_of_singleton.
  case_bool_decide as HP.
  - split.
    + intros [= <-]. exists ko. split; [by right|]. split; [by apply Hd|]. intros ko' x' [Hin| ->] _; [right | by left]. apply (Hlt ko' ko); [done | by apply list_elem_of_singleton].
    + intros (ko' & Hin & Hx%Hd & Hmax). destruct Hx as [_ ->]. destruct (Hmax ko (val ko)) as [->|Hlt']; [by right | by apply Hd | done|]. exfalso.
      destruct Hin as [Hin| ->]; [|by apply bytes_lt_irrefl in Hlt']. pose proof (Hlt ko' ko Hin ltac:(by apply list_elem_of_singleton)) as Hlt''. by eapply bytes_lt_irrefl, bytes_lt_trans.
  - rewrite (IH x Hs). split.
    + intros (ko' & Hin & Hx & Hmax). exists ko'. split; [by left|]. split; [done|]. intros k2 x2 [Hin2| ->] Hx2; [by eapply Hmax|]. apply Hd in Hx2 as [? _]. done.
    + intros (ko' & [Hin| ->] & Hx & Hmax); [|apply Hd in Hx as [? _]; done]. exists ko'. split; [done|]. split; [done|]. intros k2 x2 Hin2 Hx2. apply (Hmax k2 x2); [by left | done].
Qed.
Lemma loaded_roles l name ps : koids_ascend l ->
  am_role_parents (fold_left load_object l auth_default) !! name = Some ps <-> in_force (fun ko => ko ∈ l) declares_role name ps.
Proof.
  apply (last_in_force _ (fun auth => am_role_parents auth !! name) name (fun ko => type_name (ko_metadata ko) = ROLE_TYPE /\ text_prop (ko_properties ko) (txt "name") = Some name) (fun ko => text_list (ko_properties ko) (txt "parents"))); [|intros; apply load_object_roles | done].
  intros ko x. unfold declares_role. rewrite text_field, (holds_omap _ _ _ _ _ value_texts). unfold text_list. tauto.
Qed.
Lemma loaded_policies l target rules : koids_ascend l ->
  am_policies (fold_left load_object l auth_default) !! target = Some rules <-> in_force (fun ko => ko ∈ l) declares_policy target rules.
Proof.
  apply (last_in_force _ (fun auth => am_policies auth !! target) target (fun ko => type_name (ko_metadata ko) = POLICY_TYPE /\ text_prop (ko_properties ko) (txt "target_type") = Some target) (fun ko => parse_acl_rules (ko_properties ko) (txt "rules"))); [|intros; apply load_object_policies | done].
  intros ko x. unfold declares_policy. rewrite text_field, (holds_omap _ _ _ _ _ rule_reads). unfold parse_acl_rules. tauto.
Qed.

Section Load.
Context {E : Type} `{HL : EngineLaws E} `{SHA : Sha256}.
Context (hmac_sha256 : bytes -> bytes -> bytes) (signing_key : option bytes).

(** The objects of the heads, in key order. *)
Definition head_objects (s : SpecState) : list KnowledgeObject := omap (fun h => spec_object s h.1.1.1 h.1.2) (listed sel_head s).
Lemma load_loop_spec (s : SpecState) m heads : represents m s -> forall (r : Repo E) auth, holds (rp_engine r) m -> cached s r ->
  Forall (fun h => koid_ok h.1.1.1 = true /\ fits_in U64 h.1.2 = true /\ is_Some (spec_object s h.1.1.1 h.1.2)) heads ->
  reads s (load_loop heads auth) r (fold_left load_object (omap (fun h => spec_object s h.1.1.1 h.1.2) heads) auth).
Proof.
  intros Hr. induction heads as [|[[[k ver] ts] st] heads IH]; intros r auth Hh Hc Hf; [by exists r|]. apply Forall_cons in Hf as [(Hk & Ht & ko & Eo) Hf]. cbn [fst snd] in *.
  destruct (get_object_version_spec s m r k ts Hh Hr Hc Hk Ht) as (r1 & E1 & Ee1 & Hc1). unfold reads. cbn [load_loop]. unfold mbind, RM_bind. rewrite E1, Eo.
  destruct (IH r1 (load_object auth ko)) as (r2 & E2 & Ee2 & Hc2); [by rewrite Ee1 | done | done|]. exists r2. cbn [omap list_omap fst snd]. rewrite Eo. cbn [fold_left].
  split; [exact E2|]. split; [congruence | done].
Qed.

Lemma heads_listed m (s : SpecState) : represents m s -> forall h, h ∈ listed sel_head s <-> s !! IdHead h.1.1.1 = Some (VHead (h.1.1.2, h.1.2, h.2)).
Proof.
  intros Hr [[[x ver] ts] st]. rewrite (listed_elem m) by done. split; [|intros Hx; by exists (IdHead x), (VHead (ver, ts, st))].
  intros (id & v & Hs & Hsel). destruct id; try done. destruct v as [|[[? ?] ?]| | | | | |]; try done. cbn in Hsel. by simplify_eq.
Qed.
Lemma heads_ascend m (s : SpecState) : represents m s -> StronglySorted (fun a b => bytes_lt (koid_bytes a.1.1.1) (koid_bytes b.1.1.1)) (listed sel_head s).
Proof.
  intros Hr. unfold listed, sorted_rows. change (foldr _ _ _) with (keyed_rows s). pose proof (keyed_sorted s) as Hs.
  assert (forall y, y ∈ keyed_rows s -> y.1 = row_key y.2.1) as He by (intros [key x] Hy; by apply (keyed_elem m) in Hy as [_ ?]).
  unfold keys_sorted in Hs. induction Hs as [|[key [id v]] l Hl IH Hf]; [constructor|]. cbn [map omap list_omap snd]. specialize (IH ltac:(set_solver)).
  destruct (sel_head (id, v)) as [h|] eqn:Ev; [|exact IH]. constructor; [exact IH|]. apply Forall_forall. intros h' Hx.
  apply list_elem_of_omap in Hx as ([id' v'] & Hx & Ev'). apply list_elem_of_fmap in Hx as ([key' x'] & Ex & Hx). cbn in Ex. subst x'. eapply Forall_forall in Hf; [|exact Hx].
  pose proof (He (key, (id, v)) ltac:(set_solver)) as K1. pose proof (He (key', (id', v')) ltac:(set_solver)) as K2. cbn [fst snd] in *. subst key key'.
  destruct id; try done. destruct v as [|[[? ?] ?]| | | | | |]; try done. destruct id'; try done. destruct v' as [|[[? ?] ?]| | | | | |]; try done. cbn in Ev, Ev'. simplify_eq.
  cbn [row_key fst] in *. unfold head_key, bytes_lt in *. by rewrite bytes_compare_app, bytes_compare_refl in Hf by done.
Qed.
Lemma head_objects_elem k (s : SpecState) evs : kernel_ok hmac_sha256 signing_key k s evs ->
  (forall ko, ko ∈ head_objects s <-> spec_head_object s (ko_koid ko) = Some ko) /\ koids_ascend (head_objects s).
Proof.
  intros Hok. destruct (ok_repo _ _ _ _ _ Hok) as (m & Hm & Hr & Hc). pose proof (heads_listed m s Hr) as Hl.
  assert (forall h ko, h ∈ listed sel_head s -> spec_object s h.1.1.1 h.1.2 = Some ko -> ko_koid ko = h.1.1.1) as Hkoid.
  { intros [[[x ver] ts] st] ko Hx Ho. apply Hl in Hx. cbn [fst snd] in *. destruct (ok_heads _ _ _ _ _ Hok _ _ _ _ Hx) as (ko' & Ho' & Hk & _). unfold spec_object in Ho. rewrite Ho' in Ho. cbn in Ho. by injection Ho as ->. }
  split.
  - intros ko. unfold head_objects. rewrite list_elem_of_omap. unfold spec_head_object, spec_head. split.
    + intros (h & Hx & Ho). rewrite (Hkoid h ko Hx Ho). apply Hl in Hx. rewrite Hx. exact Ho.
    + intros Hs. destruct (s !! IdHead (ko_koid ko)) as [v|] eqn:Eh; [|done]. cbn in Hs. destruct v as [|[[ver ts] st]| | | | | |]; try done. cbn in Hs.
      exists (ko_koid ko, ver, ts, st). split; [by apply Hl | done].
  - unfold head_objects, koids_ascend. pose proof (heads_ascend m s Hr) as Ha. revert Hkoid. clear -Ha. intros Hkoid. induction Ha as [|h l Ha IH Hf]; [constructor|]. cbn [omap list_omap].
    assert (forall h' ko, h' ∈ l -> spec_object s h'.1.1.1 h'.1.2 = Some ko -> ko_koid ko = h'.1.1.1) as Hk' by (intros; apply Hkoid; [by apply list_elem_of_further | done]).
    specialize (IH Hk'). destruct (spec_object s h.1.1.1 h.1.2) as [ko|] eqn:Eo; [|exact IH]. constructor; [exact IH|].
    apply Forall_forall. intros ko' (h' & Hx & Ho)%list_elem_of_omap. rewrite (Hkoid h ko), (Hk' h' ko') by (done || apply list_elem_of_here). by eapply Forall_forall in Hf.
Qed.

(** C20: a restart decides as the stored roles and policies say.  In every state the commit
    pipeline keeps, loading the authorization manager succeeds, never meeting a head without
    its version, and leaves the store alone.  A role has exactly the parents, and a type
    exactly the rules, that the object in force declares: the object of the role or policy
    type, among the current versions, that names it and has the greatest identifier; its
    parents are the texts of its list in order, its rules the entries whose principal, action
    and effect are all readable, in order.  What no current version declares has no entry.
    (The engine must be able to scan the heads: no byte of their prefix carries.) *)
Theorem auth_load_exact (k : Kernel E) (s : SpecState) evs :
  kernel_ok hmac_sha256 signing_key k s evs -> scannable (rp_engine (k_repo k)) P_HEAD ->
  let current ko := spec_head_object s (ko_koid ko) = Some ko in
  exists r' auth, auth_load (k_repo k) = (r', KOk auth) /\ rp_engine r' = rp_engine (k_repo k) /\
    (forall name parents, am_role_parents auth !! name = Some parents <-> in_force current declares_role name parents) /\
    (forall target rules, am_policies auth !! target = Some rules <-> in_force current declares_policy target rules).
Proof.
  intros Hok Hp current. destruct (ok_repo _ _ _ _ _ Hok) as (m & Hm & Hr & Hc). destruct (head_objects_elem k s evs Hok) as [He Ha].
  assert (reads s auth_load (k_repo k) (fold_left load_object (head_objects s) auth_default)) as (r' & Er & Ee & _).
  { unfold reads, auth_load, mbind, RM_bind, on_engine. rewrite (scan_heads_spec _ m s) by done. apply (load_loop_spec s m); [done.. |].
    apply Forall_forall. intros [[[x ver] ts] st] Hx. apply (heads_listed m s Hr) in Hx. cbn [fst snd] in *. destruct (proj1 Hr _ _ Hx) as [Hi Hv]. row_fields Hv.
    destruct (ok_heads _ _ _ _ _ Hok _ _ _ _ Hx) as (ko & Ho & _). split; [done|]. split; [done|]. unfold spec_object. rewrite Ho. by exists ko. }
  exists r', (fold_left load_object (head_objects s) auth_default). split; [done|]. split; [done|].
  split; intros name x; [rewrite (loaded_roles _ _ _ Ha) | rewrite (loaded_policies _ _ _ Ha)]; unfold in_force; by setoid_rewrite He.
Qed.
End Load.

(* ------------------------------------------------------------------ *)
(** * Witness and departures *)

#[local] Existing Instance toy_sha.

Definition role_ko (version : Z) : KnowledgeObject :=
  mkKnowledgeObject ko_a version 0 (mkMetadata ROLE_TYPE None 1 []) [(txt "name", VText (txt "clerk")); (txt "parents", VList [VText ADMIN])] None [] []
    (mkSecurityDescriptor [x6f] [] None) (mkLifecycle LifecycleState.Draft Origin.Human) [].
Definition role_ops : list KernelOp :=
  [OpCommit 5 (role_ko 1) EventKind.Created Origin.Human [x75] None None None None; OpForget 6 ko_a Tombstone None [x75] None].
Definition role_kernel : Kernel MemoryEngine := run_ops toy_hmac toy_signer toy_key allow_all (kernel_new mem_new) role_ops.
Lemma role_kernel_ok : exists s evs, kernel_ok toy_hmac toy_key role_kernel s evs.
Proof.
  destruct (run_ops_ok toy_hmac toy_signer toy_key allow_all role_ops (kernel_new mem_new) ∅ [] (kernel_new_ok toy_hmac toy_key mem_new fresh_holds)) as (s & new & Hok & _); [|eauto].
  unfold role_ops. cbn [ops_fit]. split; [fits_op|]. split; [fits_op | exact I].
Qed.
Lemma auth_load_exact_witness : exists s r' auth, auth_load (k_repo role_kernel) = (r', KOk auth) /\ am_role_parents auth !! txt "clerk" = Some [ADMIN] /\
  in_force (fun ko => spec_head_object s (ko_koid ko) = Some ko) declares_role (txt "clerk") [ADMIN].
Proof.
  destruct role_kernel_ok as (s & evs & Hok). destruct (auth_load_exact toy_hmac toy_key role_kernel s evs Hok I) as (r' & auth & W & _ & Wr & _). exists s, r', auth. split; [exact W|].
  assert (am_role_parents auth !! txt "clerk" = Some [ADMIN]) as Er.
  { assert ((auth_load (k_repo role_kernel)).2 = KOk (mkAuthManager {[txt "clerk" := [ADMIN]]} ∅)) as E2 by (vm_compute; reflexivity). rewrite W in E2. cbn [snd] in E2. injection E2 as ->. vm_compute. reflexivity. }
  split; [exact Er|]. by apply Wr.
Defined.

(** The role object is deleted in [role_kernel], and a load still installs the role: a clerk
    of no tenant is an administrator. *)
Lemma deleted_role_grants :
  let k := role_kernel in
  match head_object ko_a (k_repo k) with (_, KOk (Some ko)) => lc_state (ko_lifecycle ko) = LifecycleState.Deleted | _ => False end /\
  match auth_load (k_repo k) with
  | (_, KOk auth) => authorize auth (mkSubject [x7a] [txt "clerk"] None) (draft ko_b 1 []) Action.Delete = KOk tt
  | _ => False
  end.
Proof. split; vm_compute; reflexivity. Qed.

(** A subject whose name is ["admin"] is an administrator without any role. *)
Lemma name_is_admin auth ko a : authorize auth (mkSubject ADMIN [] None) ko a = KOk tt.
Proof.
  assert (bool_decide (ADMIN ∈ effective_principals auth (mkSubject ADMIN [] None)) = true) as Ha by (apply bool_decide_eq_true, principals_spec; by left).
  unfold authorize, authorize_parts. cbn [su_name su_tenant]. rewrite Ha, (bool_decide_false (is_Some None)), andb_false_r by (by intros [? ?]). cbn [andb negb].
  rewrite andb_false_r. by destruct (bool_decide _ || _).
Qed.
