(* ===== verification/Compaction.v ===== *)
(** Compaction (compaction.rs): the k-way merge of segments into bounded chunks, with the
    per-(key, replica) winner rule, the retention policy, the archive, and the relocation
    set.  The merge's file-system effect is the list of files it publishes, in order. *)

From stdpp Require Import gmap.
From S2P Require Import Prelude Cursor Format Identity Disk Segment.

(** [struct CompactStats], without the publication's [stale] mark. *)
Record CompactStats : Type := mkCompactStats {
  segments_in : Z; segments_out : Z; entries_in : Z; entries_out : Z; entries_archived : Z;
  rids_seen : Z; dedup_compares : Z }.

(** [enum Retention] and [trait RetentionPolicy]. *)
Inductive Retention : Type := Keep | Drop | Archive.
Class RetentionPolicy : Type := classify : bytes -> Retention.
Definition KeepAll : RetentionPolicy := fun _ => Keep.

Definition DEDUP_CROSSOVER : Z := 64.

(** The files the merge publishes, [SEGMENT-{id}.seg] and [archive/ARCHIVE-{id}[-{chunk}].seg]. *)
Abbreviation Files := (list (FileName * bytes)).

(** [type LiveChunk]: id, opened reader, size, checksum, anchors. *)
Record LiveChunk : Type := mkLiveChunk {
  lc_id : Z; lc_reader : SegmentReader; lc_size : Z; lc_checksum : Z; lc_anchors : list SegmentAnchor }.

(** [struct LiveSink], [struct ArchiveSink]. *)
Record LiveSink : Type := mkLiveSink { ls_writer : SegmentWriter; ls_len : Z; ls_chunks : list LiveChunk }.
Record ArchiveSink : Type := mkArchiveSink {
  ar_writer : SegmentWriter; ar_len : Z; ar_chunk : Z; ar_id : option Z }.
Definition archive_new (block_target : Z) : ArchiveSink := mkArchiveSink (sw_new_v2 block_target) 0 0 None.

(** [type Relocation], [type RelocationSet]: (segment id, block id, entry offset). *)
Abbreviation Relocation := (option (Z * Z * Z)).
Abbreviation RelocationSet := (gmap ReplicaId Relocation).
(** Per replica: sequence, segment id, block id, entry offset. *)
Abbreviation Anchored := (gmap ReplicaId (Z * Z * Z * Z)).

(** [entry_bytes]: the wire-size bound of one entry. *)
Definition est_bytes (e : SegmentEntry) : Z := zlen (se_key e) + zlen (se_value e) + 17.

(* ------------------------------------------------------------------ *)
(** * The heap *)

(** [struct HeapEntry] and its [Ord]: (Reverse(key), seq, idx). *)
Record HeapEntry : Type := mkHeapEntry { he_entry : SegmentEntry; he_idx : nat }.
Definition heap_cmp (a b : HeapEntry) : comparison :=
  match bytes_compare (se_key (he_entry b)) (se_key (he_entry a)) with
  | Eq => match Z.compare (se_seq (he_entry a)) (se_seq (he_entry b)) with
          | Eq => Nat.compare (he_idx a) (he_idx b)
          | c => c
          end
  | c => c
  end.

(** [BinaryHeap]: a list in pop order, the greatest element first. *)
Fixpoint heap_push (x : HeapEntry) (heap : list HeapEntry) : list HeapEntry :=
  match heap with
  | [] => [x]
  | y :: heap' => match heap_cmp x y with Lt => y :: heap_push x heap' | _ => x :: heap end
  end.

Section Merge.
Context {SHA : Sha256}.

(** [struct SegmentIter]: the reader, the blocks not loaded yet, and the loaded rows. *)
Record SegmentIter : Type := mkSegmentIter {
  it_reader : SegmentReader; it_data : list DataBlock; it_entries : list SegmentEntry }.
Definition iter_new (r : SegmentReader) : SegmentIter := mkSegmentIter r (sr_data r) [].
Fixpoint iter_load (r : SegmentReader) (data : list DataBlock) : Result (option SegmentEntry * SegmentIter) :=
  match data with
  | [] => Ok (None, mkSegmentIter r [] [])
  | b :: data =>
      es ← block_entries r b;
      match es with
      | [] => iter_load r data
      | e :: es => Ok (Some e, mkSegmentIter r data es)
      end
  end.
(** [SegmentIter::next]. *)
Definition iter_next (it : SegmentIter) : Result (option SegmentEntry * SegmentIter) :=
  match it_entries it with
  | e :: es => Ok (Some e, mkSegmentIter (it_reader it) (it_data it) es)
  | [] => iter_load (it_reader it) (it_data it)
  end.

(** [advance]. *)
Definition advance (iters : list SegmentIter) (heap : list HeapEntry) (i : nat)
    : Result (list SegmentIter * list HeapEntry) :=
  match iters !! i with
  | None => Err (Invalid "panic")
  | Some it =>
      '(oe, it) ← iter_next it;
      Ok (<[i := it]> iters, match oe with Some e => heap_push (mkHeapEntry e i) heap | None => heap end)
  end.

(** The initial fronts: every iterator is advanced once, in input order. *)
Definition heap_init (iters : list SegmentIter) : Result (list SegmentIter * list HeapEntry) :=
  fold_result (fun '(iters, heap) i => advance iters heap i) (iters, []) (seq 0 (length iters)).

(** The inner loop: the further versions of the run's key, each followed by an advance. *)
Fixpoint drain_run (fuel : nat) (key : bytes) (run : list SegmentEntry)
    (iters : list SegmentIter) (heap : list HeapEntry)
    : Result (list SegmentEntry * list SegmentIter * list HeapEntry) :=
  match heap with
  | h :: heap' =>
      if bytes_eqb (se_key (he_entry h)) key then
        match fuel with
        | O => Err (Invalid "out of fuel")
        | S fuel =>
            '(iters, heap) ← advance iters heap' (he_idx h);
            drain_run fuel key (run ++ [he_entry h]) iters heap
        end
      else Ok (run, iters, heap)
  | [] => Ok (run, iters, heap)
  end.

(* ------------------------------------------------------------------ *)
(** * Sinks *)

(** [publish_chunk]: the chunk, the emptied writer, the next id, the file. *)
Definition publish_chunk (w : SegmentWriter) (next_id : Z) (files : Files)
    : Result (LiveChunk * SegmentWriter * Z * Files) :=
  let id := next_id in
  let '(w', res) := publish_with_anchors_sorted_staged w in
  '(file, (size, checksum, anchors)) ← res;
  reader ← open_segment file;
  Ok (mkLiveChunk id reader size checksum anchors, w', next_id + 1, files ++ [(FSegment id, file)]).

(** [push_live]. *)
Definition push_live (sink : LiveSink) (next_id : Z) (files : Files) (chunk_bytes : Z) (e : SegmentEntry)
    : Result (LiveSink * Z * Files) :=
  let est := est_bytes e in
  '(sink, next_id, files) ←
    (if (0 <? chunk_bytes) && (0 <? ls_len sink) && (chunk_bytes <? ls_len sink + est) then
       '(c, w, next_id, files) ← publish_chunk (ls_writer sink) next_id files;
       Ok (mkLiveSink w 0 (ls_chunks sink ++ [c]), next_id, files)
     else Ok (sink, next_id, files));
  let w := if bool_decide (se_rid e = mkReplicaId 0) then ls_writer sink else enable_v4 (ls_writer sink) in
  Ok (mkLiveSink (sw_push w e) (ls_len sink + est) (ls_chunks sink), next_id, files).

(** [publish_archive_chunk]. *)
Definition publish_archive_chunk (w : SegmentWriter) (files : Files) (id chunk : Z)
    : Result (SegmentWriter * Files) :=
  let '(w', res) := publish_with_anchors_sorted_staged w in
  '(file, _) ← res;
  Ok (w', files ++ [(FArchive id chunk, file)]).

(** [get_or_insert_with] of the archive's id. *)
Definition archive_id (id : option Z) (next_id : Z) : Z * Z :=
  match id with Some id => (id, next_id) | None => (next_id, next_id + 1) end.

(** [push_archive]. *)
Definition push_archive (sink : ArchiveSink) (next_id : Z) (files : Files) (chunk_bytes : Z) (e : SegmentEntry)
    : Result (ArchiveSink * Z * Files) :=
  let est := est_bytes e in
  '(sink, next_id, files) ←
    (if (0 <? chunk_bytes) && (0 <? ar_len sink) && (chunk_bytes <? ar_len sink + est) then
       let '(this, next_id) := archive_id (ar_id sink) next_id in
       '(w, files) ← publish_archive_chunk (ar_writer sink) files this (ar_chunk sink);
       Ok (mkArchiveSink w 0 (ar_chunk sink + 1) (Some this), next_id, files)
     else Ok (sink, next_id, files));
  let w := if bool_decide (se_rid e = mkReplicaId 0) then ar_writer sink else enable_v4 (ar_writer sink) in
  Ok (mkArchiveSink (sw_push w e) (ar_len sink + est) (ar_chunk sink) (ar_id sink), next_id, files).

(* ------------------------------------------------------------------ *)
(** * The merge *)

(** The Vec tier of the replica dedup: the compares made, and whether the id is there. *)
Fixpoint grouped_scan (grouped : list ReplicaId) (rid : ReplicaId) : Z * bool :=
  match grouped with
  | [] => (0, false)
  | r :: grouped =>
      if bool_decide (r = rid) then (1, true)
      else let '(n, found) := grouped_scan grouped rid in (n + 1, found)
  end.

(** The dedup state of a run: both tiers (only one is used) and the compare counter. *)
Record Dedup : Type := mkDedup { dd_vec : list ReplicaId; dd_set : gset ReplicaId; dd_compares : Z }.
Definition dedup_fresh (use_set : bool) (d : Dedup) (rid : ReplicaId) : bool * Dedup :=
  if use_set then
    (negb (bool_decide (rid ∈ dd_set d)), mkDedup (dd_vec d) ({[rid]} ∪ dd_set d) (dd_compares d + 1))
  else
    let '(n, found) := grouped_scan (dd_vec d) rid in
    (negb found, mkDedup (if found then dd_vec d else dd_vec d ++ [rid]) (dd_set d) (dd_compares d + n)).

Record MergeState : Type := mkMergeState {
  ms_live : LiveSink; ms_archive : option ArchiveSink; ms_seen : gset ReplicaId;
  ms_in : Z; ms_out : Z; ms_archived : Z; ms_compares : Z; ms_next_id : Z; ms_files : Files }.

(** One row of a kept run. *)
Definition keep_row (use_set : bool) (chunk_bytes : Z) (st : MergeState * Dedup) (e : SegmentEntry)
    : Result (MergeState * Dedup) :=
  let '(ms, d) := st in
  let '(fresh, d) := dedup_fresh use_set d (se_rid e) in
  if fresh && (Z.land (se_flags e) FLAG_DELETE =? 0) then
    '(live, next_id, files) ← push_live (ms_live ms) (ms_next_id ms) (ms_files ms) chunk_bytes e;
    Ok (mkMergeState live (ms_archive ms) (ms_seen ms) (ms_in ms) (ms_out ms + 1) (ms_archived ms)
          (ms_compares ms) next_id files, d)
  else Ok (ms, d).

(** One row of an archived run. *)
Definition archive_row (chunk_bytes : Z) (st : MergeState * ArchiveSink) (e : SegmentEntry)
    : Result (MergeState * ArchiveSink) :=
  let '(ms, aw) := st in
  '(aw, next_id, files) ← push_archive aw (ms_next_id ms) (ms_files ms) chunk_bytes e;
  Ok (mkMergeState (ms_live ms) (ms_archive ms) (ms_seen ms) (ms_in ms) (ms_out ms) (ms_archived ms + 1)
        (ms_compares ms) next_id files, aw).

(** The body of the outer loop on a drained run. *)
Definition merge_run {RP : RetentionPolicy} (block_target chunk_bytes : Z) (ms : MergeState)
    (run : list SegmentEntry) : Result MergeState :=
  match run with
  | [] => Err (Invalid "panic")
  | e0 :: _ =>
  let seen := fold_left (fun seen e => if bool_decide (se_rid e = mkReplicaId 0) then seen else {[se_rid e]} ∪ seen)
    run (ms_seen ms) in
  let ms := mkMergeState (ms_live ms) (ms_archive ms) seen (ms_in ms + zlen run) (ms_out ms) (ms_archived ms)
    (ms_compares ms) (ms_next_id ms) (ms_files ms) in
  let use_set := DEDUP_CROSSOVER <? zlen run in
  match classify (se_key e0) with
  | Keep =>
      '(ms, d) ← fold_result (keep_row use_set chunk_bytes) (ms, mkDedup [] ∅ (ms_compares ms)) run;
      Ok (mkMergeState (ms_live ms) (ms_archive ms) (ms_seen ms) (ms_in ms) (ms_out ms) (ms_archived ms)
            (dd_compares d) (ms_next_id ms) (ms_files ms))
  | Drop => Ok ms
  | Archive =>
      '(ms, aw) ← fold_result (archive_row chunk_bytes) (ms, default (archive_new block_target) (ms_archive ms)) run;
      Ok (mkMergeState (ms_live ms) (Some aw) (ms_seen ms) (ms_in ms) (ms_out ms) (ms_archived ms)
            (ms_compares ms) (ms_next_id ms) (ms_files ms))
  end
  end.

(** The outer loop.  Every round consumes a row, so the number of rows bounds the rounds. *)
Fixpoint merge_loop {RP : RetentionPolicy} (fuel : nat) (block_target chunk_bytes : Z)
    (iters : list SegmentIter) (heap : list HeapEntry) (ms : MergeState) : Result MergeState :=
  match heap with
  | [] => Ok ms
  | h :: heap =>
      match fuel with
      | O => Err (Invalid "out of fuel")
      | S fuel =>
          '(iters, heap) ← advance iters heap (he_idx h);
          '(run, iters, heap) ← drain_run fuel (se_key (he_entry h)) [he_entry h] iters heap;
          ms ← merge_run block_target chunk_bytes ms run;
          merge_loop fuel block_target chunk_bytes iters heap ms
      end
  end.

(** The last chunk, and the last archive chunk. *)
Definition finish_live (ms : MergeState) : Result MergeState :=
  if 0 <? ls_len (ms_live ms) then
    '(c, w, next_id, files) ← publish_chunk (ls_writer (ms_live ms)) (ms_next_id ms) (ms_files ms);
    Ok (mkMergeState (mkLiveSink w 0 (ls_chunks (ms_live ms) ++ [c])) (ms_archive ms) (ms_seen ms) (ms_in ms)
          (ms_out ms) (ms_archived ms) (ms_compares ms) next_id files)
  else Ok ms.
Definition finish_archive (ms : MergeState) : Result MergeState :=
  match ms_archive ms with
  | Some aw =>
      if 0 <? ar_len aw then
        let '(id, next_id) := archive_id (ar_id aw) (ms_next_id ms) in
        '(w, files) ← publish_archive_chunk (ar_writer aw) (ms_files ms) id (ar_chunk aw);
        Ok (mkMergeState (ms_live ms) (Some (mkArchiveSink w 0 (ar_chunk aw) (Some id))) (ms_seen ms) (ms_in ms)
              (ms_out ms) (ms_archived ms) (ms_compares ms) next_id files)
      else Ok ms
  | None => Ok ms
  end.

(** The relocation set: per replica the anchor of highest sequence over the chunks. *)
Definition anchor_slot (segment_id : Z) (anchored : Anchored) (a : SegmentAnchor) : Anchored :=
  let slot := (sa_seq a, segment_id, sa_block a, sa_offset a) in
  match anchored !! sa_rid a with
  | Some (best, _, _, _) => if sa_seq a <=? best then anchored else <[sa_rid a := slot]> anchored
  | None => <[sa_rid a := slot]> anchored
  end.
Definition anchored_of (chunks : list LiveChunk) : Anchored :=
  fold_left (fun m c => fold_left (anchor_slot (lc_id c)) (lc_anchors c) m) chunks ∅.
Definition relocations_of (seen : gset ReplicaId) (chunks : list LiveChunk) : RelocationSet :=
  set_to_map (fun rid => (rid, '(_, sid, b, o) ← anchored_of chunks !! rid; Some (sid, b, o))) seen.

(** [merge]: stats, live chunks, relocations; and the files published and the next id. *)
Definition merge {RP : RetentionPolicy} (inputs : list SegmentReader) (block_target chunk_bytes next_id : Z)
    : Result (CompactStats * list LiveChunk * RelocationSet * Files * Z) :=
  '(iters, heap) ← heap_init (map iter_new inputs);
  let fuel := S (foldr Nat.add 0%nat (map (fun b => Z.to_nat (db_entries b)) (concat (map sr_data inputs)))) in
  ms ← merge_loop fuel block_target chunk_bytes iters heap
    (mkMergeState (mkLiveSink (sw_new_v2 block_target) 0 []) None ∅ 0 0 0 0 next_id []);
  ms ← finish_live ms;
  ms ← finish_archive ms;
  let chunks := ls_chunks (ms_live ms) in
  Ok (mkCompactStats (zlen inputs) (zlen chunks) (ms_in ms) (ms_out ms) (ms_archived ms)
        (Z.of_nat (size (ms_seen ms))) (ms_compares ms),
      chunks, relocations_of (ms_seen ms) chunks, ms_files ms, ms_next_id ms).
End Merge.
