(* ===== verification/CompactionMerge.v ===== *)
(** The k-way merge order: the heap of fronts pops every row of the inputs in publication
    order, whatever the interleaving of the inputs. *)

From stdpp Require Import gmap.
From S2P Require Import Prelude Cursor Format Identity Disk Segment SegmentBlock SegmentLookup SegmentFile SegmentQueries SegmentProps Compaction.

(** Rows that agree on key and sequence are the same row (a replayed flush may leave the
    same row in two segments). *)
Definition consistent (l : list SegmentEntry) : Prop :=
  forall a b, a ∈ l -> b ∈ l -> version_of a = version_of b -> a = b.

Lemma consistent_perm l k : l ≡ₚ k -> consistent l -> consistent k.
Proof. intros Hp H a b Ha Hb. apply H; by rewrite Hp. Qed.
Lemma consistent_tail a l : consistent (a :: l) -> consistent l.
Proof. intros H x y Hx Hy. apply H; by right. Qed.

Lemma sort_le_antisym a b : sort_le a b -> sort_le b a -> version_of a = version_of b.
Proof.
  unfold sort_le. rewrite !entry_le_spec. unfold version_of. intros [H|[E H]] [H'|[E' H']].
  - exfalso. apply (bytes_lt_irrefl (se_key a)). by etrans.
  - exfalso. rewrite E' in H. by apply bytes_lt_irrefl in H.
  - exfalso. rewrite E in H'. by apply bytes_lt_irrefl in H'.
  - f_equal; [done | lia].
Qed.

(** Consistent rows have one ordered arrangement. *)
Lemma sort_unique l k :
  StronglySorted sort_le l -> StronglySorted sort_le k -> l ≡ₚ k -> consistent l -> l = k.
Proof.
  intros Hl. revert k. induction Hl as [|a l Hl IH Hf]; intros k Hk Hp Hc.
  - by apply Permutation_nil_l in Hp.
  - destruct k as [|b k]; [by apply Permutation_nil_r in Hp|]. apply StronglySorted_inv in Hk as [Hk Hkf].
    assert (a = b) as ->.
    { assert (b ∈ a :: l) as Hb by (rewrite Hp; set_solver). assert (a ∈ b :: k) as Ha by (rewrite <-Hp; set_solver).
      apply Hc; [set_solver | done|]. apply elem_of_cons in Hb as [->|Hb]; [done|].
      apply elem_of_cons in Ha as [->|Ha]; [done|].
      eapply Forall_forall in Hf; [|exact Hb]. eapply Forall_forall in Hkf; [|exact Ha]. by apply sort_le_antisym. }
    f_equal. apply IH; [done | by apply Permutation_cons_inv in Hp | by eapply consistent_tail].
Qed.

Lemma heap_cmp_le a b : heap_cmp a b <> Lt -> sort_le (he_entry a) (he_entry b).
Proof.
  unfold heap_cmp, sort_le. rewrite entry_le_spec. unfold bytes_lt. intros H.
  rewrite (bytes_compare_antisym (se_key (he_entry b)) (se_key (he_entry a))).
  destruct (bytes_compare (se_key (he_entry b)) (se_key (he_entry a))) eqn:E; [|done|by left].
  right. apply bytes_compare_eq in E. split; [done|].
  destruct (Z.compare_spec (se_seq (he_entry a)) (se_seq (he_entry b))); [lia | done | lia].
Qed.
Lemma heap_cmp_lt a b : heap_cmp a b = Lt -> sort_le (he_entry b) (he_entry a).
Proof.
  unfold heap_cmp, sort_le. rewrite entry_le_spec. unfold bytes_lt. intros H.
  destruct (bytes_compare (se_key (he_entry b)) (se_key (he_entry a))) eqn:E; [|by left|done].
  right. apply bytes_compare_eq in E. split; [done|].
  destruct (Z.compare_spec (se_seq (he_entry a)) (se_seq (he_entry b))); [lia | lia | done].
Qed.

Abbreviation heap_sorted := (StronglySorted (fun a b : HeapEntry => sort_le (he_entry a) (he_entry b))).

Lemma heap_push_perm x heap : heap_push x heap ≡ₚ x :: heap.
Proof.
  induction heap as [|y heap IH]; cbn; [done|]. destruct (heap_cmp x y); [done| |done].
  rewrite IH. apply Permutation_swap.
Qed.
Lemma heap_push_sorted x heap : heap_sorted heap -> heap_sorted (heap_push x heap).
Proof.
  induction 1 as [|y heap Hs IH Hf]; cbn; [repeat constructor|].
  assert (heap_cmp x y <> Lt -> heap_sorted (x :: y :: heap)) as Hx.
  { intros H. apply heap_cmp_le in H. constructor; [by constructor|]. constructor; [done|].
    eapply Forall_impl; [exact Hf|]. intros z. by apply sort_le_trans. }
  destruct (heap_cmp x y) eqn:E; [by apply Hx| |by apply Hx].
  constructor; [done|]. apply Forall_forall. intros z Hz. rewrite heap_push_perm in Hz.
  apply elem_of_cons in Hz as [->|Hz]; [by apply heap_cmp_lt | by eapply Forall_forall in Hf].
Qed.

(** Taking the front of one list out of a list of lists. *)
Lemma concat_take_front {A} (ls : list (list A)) (i : nat) x l :
  ls !! i = Some (x :: l) -> concat ls ≡ₚ x :: concat (<[i := l]> ls).
Proof.
  revert i. induction ls as [|k ls IH]; intros [|i] H; cbn in *; try done.
  - injection H as ->. done.
  - rewrite (IH i H). apply Permutation_sym, Permutation_cons_app. done.
Qed.

Section Order.
Context {SHA : Sha256}.

(** The rows an iterator is going to yield. *)
Definition iter_rows (it : SegmentIter) (l : list SegmentEntry) : Prop :=
  exists bs, collect_result (block_entries (it_reader it)) (it_data it) = Ok bs /\ l = it_entries it ++ concat bs.

Lemma iter_new_rows r l : seg_iter r = Ok l -> iter_rows (iter_new r) l.
Proof.
  unfold seg_iter, iter_rows. cbn. destruct (collect_result _ _) as [bs|]; [|done]. cbn. intros H.
  apply Ok_inj in H as <-. by exists bs.
Qed.

Lemma iter_load_rows r data bs :
  collect_result (block_entries r) data = Ok bs ->
  exists it, iter_load r data = Ok (head (concat bs), it) /\ iter_rows it (tail (concat bs)).
Proof.
  revert bs. induction data as [|b data IH]; intros bs H; cbn [collect_result iter_load] in *.
  { apply Ok_inj in H as <-. eexists. split; [reflexivity|]. by exists []. }
  destruct (block_entries r b) as [es|]; [|done]. cbn [mbind Result_bind] in *.
  destruct (collect_result _ data) as [bs'|] eqn:E; [|done]. cbn [mbind Result_bind] in H. apply Ok_inj in H as <-.
  destruct es as [|e es]; [exact (IH bs' eq_refl)|]. cbn [concat head tail app]. eexists. split; [reflexivity|]. by exists bs'.
Qed.

Lemma iter_next_rows it l :
  iter_rows it l -> exists it', iter_next it = Ok (head l, it') /\ iter_rows it' (tail l).
Proof.
  intros (bs & Hb & ->). unfold iter_next. destruct (it_entries it) as [|e es]; cbn [app]; [by apply iter_load_rows|].
  eexists. split; [reflexivity|]. by exists bs.
Qed.

(** The heap holds the front of every iterator but those in [pend]; [s] is what the pops
    will yield. *)
Record heap_inv (heap : list HeapEntry) (iters : list SegmentIter) (rests : list (list SegmentEntry))
    (pend : list nat) (s : list SegmentEntry) : Prop := {
  hi_iters : Forall2 iter_rows iters rests;
  hi_sorted : heap_sorted heap;
  hi_nodup : NoDup (pend ++ map he_idx heap);
  hi_range : forall i, i ∈ pend ++ map he_idx heap -> (i < length iters)%nat;
  hi_front : forall h l, h ∈ heap -> rests !! he_idx h = Some l -> StronglySorted sort_le (he_entry h :: l);
  hi_rest : forall i l, rests !! i = Some l -> StronglySorted sort_le l;
  hi_all : forall i l, rests !! i = Some l -> l <> [] -> i ∈ pend ++ map he_idx heap;
  hi_perm : s ≡ₚ map he_entry heap ++ concat rests;
  hi_order : StronglySorted sort_le s;
  hi_consistent : consistent s }.

Lemma advance_inv heap iters rests i pend s :
  heap_inv heap iters rests (i :: pend) s ->
  exists iters' heap' rests', advance iters heap i = Ok (iters', heap') /\ heap_inv heap' iters' rests' pend s.
Proof.
  intros [Hi Hs Hn Hr Hf Hl Ha Hp Ho Hc]. cbn [app] in *.
  destruct (lookup_lt_is_Some_2 iters i) as [it Hit]; [apply Hr; set_solver|].
  destruct (Forall2_lookup_l _ _ _ _ _ Hi Hit) as (l & Hlk & Hrows).
  destruct (iter_next_rows it l Hrows) as (it' & Hnx & Hrows'). unfold advance. rewrite Hit, Hnx. cbn [mbind Result_bind].
  apply NoDup_cons in Hn as [Hni Hn].
  assert (Forall2 iter_rows (<[i := it']> iters) (<[i := tail l]> rests)) as Hi' by by apply Forall2_insert.
  assert (forall j k, <[i := tail l]> rests !! j = Some k -> StronglySorted sort_le k) as Hl'.
  { intros j k Hj. apply list_lookup_insert_Some in Hj as [(-> & <- & _)|[_ Hj]]; [|by eapply Hl].
    specialize (Hl _ _ Hlk). destruct l; [constructor|]. by apply StronglySorted_inv in Hl as [? _]. }
  assert (forall h k, h ∈ heap -> <[i := tail l]> rests !! he_idx h = Some k -> StronglySorted sort_le (he_entry h :: k)) as Hf'.
  { intros h k Hh Hk. apply list_lookup_insert_Some in Hk as [(E & _ & _)|[_ Hk]]; [|by apply Hf].
    exfalso. apply Hni. rewrite elem_of_app. right. apply list_elem_of_In, in_map_iff. exists h. by rewrite <-list_elem_of_In. }
  destruct l as [|e l]; cbn [head tail] in *.
  - eexists _, _, _. split; [reflexivity|]. rewrite list_insert_id in * by done.
    split; rewrite ?length_insert; try done; [set_solver|].
    intros j k Hj Hk. specialize (Ha j k Hj Hk). apply elem_of_cons in Ha as [->|Ha]; [|done].
    rewrite Hlk in Hj. injection Hj as <-. done.
  - eexists _, _, _. split; [reflexivity|]. assert (map he_idx (heap_push (mkHeapEntry e i) heap) ≡ₚ i :: map he_idx heap) as Hidx.
    { by rewrite (Permutation_map he_idx (heap_push_perm _ _)). }
    split; rewrite ?length_insert, ?Hidx; try done.
    + by apply heap_push_sorted.
    + rewrite <-Permutation_middle. by constructor.
    + intros j Hj. apply Hr. by rewrite Hidx, <-Permutation_middle in Hj.
    + intros h k Hh Hk. rewrite heap_push_perm in Hh. apply elem_of_cons in Hh as [->|Hh]; [|by apply Hf'].
      cbn in Hk |- *. rewrite list_lookup_insert_eq in Hk by (by eapply lookup_lt_Some). injection Hk as <-. by eapply Hl.
    + intros j k Hj Hk. apply list_lookup_insert_Some in Hj as [(-> & _ & _)|[Hne Hj]].
      * rewrite Hidx, <-Permutation_middle. by left.
      * rewrite Hidx, <-Permutation_middle. by apply (Ha j k).
    + rewrite Hp, (concat_take_front _ _ _ _ Hlk), (Permutation_map he_entry (heap_push_perm _ _)). cbn [map app].
      by rewrite Permutation_middle.
Qed.

Lemma heap_inv_init inputs rows s :
  Forall2 (fun r l => seg_iter r = Ok l) inputs rows -> Forall (StronglySorted sort_le) rows ->
  s ≡ₚ concat rows -> StronglySorted sort_le s -> consistent s ->
  exists iters heap rests, heap_init (map iter_new inputs) = Ok (iters, heap) /\ heap_inv heap iters rests [] s.
Proof.
  intros Hi Hr Hp Ho Hc. unfold heap_init. rewrite length_map.
  assert (heap_inv [] (map iter_new inputs) rows (seq 0 (length inputs)) s) as H.
  { split; try done; rewrite ?app_nil_r.
    - apply Forall2_fmap_l. eapply Forall2_impl; [exact Hi|]. intros. by apply iter_new_rows.
    - constructor.
    - apply NoDup_seq.
    - intros i Hin. rewrite length_map. apply elem_of_seq in Hin. lia.
    - intros h l Hh. by apply not_elem_of_nil in Hh.
    - intros i l Hl. eapply Forall_lookup_1 in Hr; done.
    - intros i l Hl _. apply elem_of_seq. apply lookup_lt_Some in Hl. rewrite (Forall2_length _ _ _ Hi). lia. }
  revert H. generalize (map iter_new inputs) as iters, rows, (seq 0 (length inputs)) as pend, (@nil HeapEntry) as heap.
  clear. intros iters rows pend. revert iters rows. induction pend as [|i pend IH]; intros iters rows heap H.
  { by exists iters, heap, rows. }
  destruct (advance_inv _ _ _ _ _ _ H) as (iters' & heap' & rests' & E & H'). cbn [fold_result]. rewrite E.
  cbn [mbind Result_bind]. by eapply IH.
Qed.

Lemma heap_inv_pop h heap iters rests s :
  heap_inv (h :: heap) iters rests [] s ->
  exists s', s = he_entry h :: s' /\ heap_inv heap iters rests [he_idx h] s'.
Proof.
  intros [Hi Hs Hn Hr Hf Hl Ha Hp Ho Hc]. cbn [app map] in *. apply StronglySorted_inv in Hs as [Hs Hmin].
  rewrite Forall_forall in Hmin.
  assert (forall x, x ∈ s -> sort_le (he_entry h) x) as Hle.
  { intros x Hx. rewrite Hp in Hx. apply elem_of_cons in Hx as [->|Hx].
    { apply entry_le_spec. right. split; [done | lia]. }
    apply elem_of_app in Hx as [Hx|Hx].
    - apply list_elem_of_In, in_map_iff in Hx as (h' & <- & Hh'). apply list_elem_of_In in Hh'. by apply Hmin.
    - apply list_elem_of_In, in_concat in Hx as (l & Hli & Hx). apply list_elem_of_In in Hx, Hli.
      apply list_elem_of_lookup in Hli as [i Hli]. assert (i ∈ he_idx h :: map he_idx heap) as Hin.
      { eapply Ha; [exact Hli|]. by intros ->; apply not_elem_of_nil in Hx. }
      assert (exists h', h' ∈ h :: heap /\ he_idx h' = i) as (h' & Hh' & <-).
      { apply list_elem_of_In in Hin. change (he_idx h :: map he_idx heap) with (map he_idx (h :: heap)) in Hin.
        apply in_map_iff in Hin as (h' & <- & Hh'). exists h'. split; [by apply list_elem_of_In | done]. }
      specialize (Hf h' l Hh' Hli). apply StronglySorted_inv in Hf as [_ Hf]. eapply Forall_forall in Hf; [|exact Hx].
      apply elem_of_cons in Hh' as [->|Hh']; [done|]. eapply sort_le_trans; [by apply Hmin | done]. }
  destruct s as [|a s']; [by apply Permutation_nil_l in Hp|].
  assert (he_entry h ∈ a :: s') as Hin by (rewrite Hp; set_solver).
  assert (a = he_entry h) as ->.
  { apply Hc; [set_solver | done|]. apply elem_of_cons in Hin as [->|Hin]; [done|].
    apply StronglySorted_inv in Ho as [_ Ho]. eapply Forall_forall in Ho; [|exact Hin].
    apply sort_le_antisym; [done | apply Hle; set_solver]. }
  exists s'. split; [done|]. apply StronglySorted_inv in Ho as [Ho _]. split; try done.
  - intros x l Hx. apply Hf. set_solver.
  - by apply Permutation_cons_inv in Hp.
  - by eapply consistent_tail.
Qed.

Lemma heap_inv_nil iters rests s : heap_inv [] iters rests [] s -> s = [].
Proof.
  intros [_ _ _ _ _ _ Ha Hp _ _]. cbn in *. apply Permutation_nil_r. rewrite Hp. clear Hp.
  assert (forall l, l ∈ rests -> l = []) as H.
  { intros l Hl. apply list_elem_of_lookup in Hl as [i Hi]. destruct l as [|x l]; [done|].
    exfalso. eapply not_elem_of_nil. by eapply Ha. }
  clear Ha. induction rests as [|l rests IH]; [done|]. cbn. rewrite (H l) by set_solver. apply IH. set_solver.
Qed.
Lemma heap_inv_cons heap iters rests e s :
  heap_inv heap iters rests [] (e :: s) -> exists h heap', heap = h :: heap' /\ he_entry h = e.
Proof.
  intros H. destruct heap as [|h heap]; [by apply heap_inv_nil in H|]. exists h, heap. split; [done|].
  apply heap_inv_pop in H as (s' & E & _). by injection E.
Qed.

(** The inner loop takes exactly the rows of the run's key. *)
Lemma drain_run_ok run_tail : forall fuel key run heap iters rests rest,
  heap_inv heap iters rests [] (run_tail ++ rest) -> (length run_tail <= fuel)%nat ->
  Forall (fun e => se_key e = key) run_tail -> (forall e, head rest = Some e -> se_key e <> key) ->
  exists heap' iters' rests', drain_run fuel key run iters heap = Ok (run ++ run_tail, iters', heap') /\
    heap_inv heap' iters' rests' [] rest.
Proof.
  induction run_tail as [|e run_tail IH]; intros fuel key run heap iters rests rest H Hfu Hk Hr.
  - cbn [app] in H. rewrite app_nil_r. exists heap, iters, rests. split; [|done].
    destruct fuel, heap as [|h heap]; cbn [drain_run]; try done; (destruct rest as [|x rest];
      [apply heap_inv_pop in H as (? & ? & _); done|]); apply heap_inv_pop in H as (s' & E & _); injection E as -> ->;
      rewrite (proj2 (bytes_eqb_neq _ _)) by (by apply Hr); done.
  - cbn [app] in H. destruct (heap_inv_cons _ _ _ _ _ H) as (h & heap' & -> & <-). inversion Hk as [|? ? Hke Hkt]; subst.
    destruct fuel as [|fuel]; cbn [length] in Hfu; [lia|]. apply heap_inv_pop in H as (s' & E & H). injection E as <-.
    destruct (advance_inv _ _ _ _ _ _ H) as (iters' & heap'' & rests' & Ea & H').
    cbn [drain_run]. rewrite bytes_eqb_refl, Ea. cbn [mbind Result_bind].
    destruct (IH fuel (se_key (he_entry h)) (run ++ [he_entry h]) heap'' iters' rests' rest H') as (h2 & i2 & r2 & Ed & H2); try done; [lia|].
    exists h2, i2, r2. split; [|done]. rewrite Ed. by rewrite <-app_assoc.
Qed.
End Order.

(* ================================================================== *)
(** Compaction: what survives a merge, and the live and archive sinks: the buffered writer
    publishes bounded chunks that hold exactly the pushed rows. *)

(* ------------------------------------------------------------------ *)
(** * What survives *)

(** Two rows of one (key, replica). *)
Definition same_slot (a b : SegmentEntry) : bool :=
  bytes_eqb (se_key a) (se_key b) && bool_decide (se_rid a = se_rid b).
(** The first row of every (key, replica), in order. *)
Fixpoint first_rows (l : list SegmentEntry) : list SegmentEntry :=
  match l with
  | [] => []
  | e :: l => e :: List.filter (fun x => negb (same_slot e x)) (first_rows l)
  end.

Definition is_tombstone (e : SegmentEntry) : bool := negb (Z.land (se_flags e) FLAG_DELETE =? 0).
Definition retained {RP : RetentionPolicy} (v : Retention) (e : SegmentEntry) : bool :=
  match classify (se_key e), v with Keep, Keep | Drop, Drop | Archive, Archive => true | _, _ => false end.
(** The rows the live output keeps, and the rows the archive keeps, of a merged sequence. *)
Definition live_rows {RP : RetentionPolicy} (l : list SegmentEntry) : list SegmentEntry :=
  List.filter (fun e => retained Keep e && negb (is_tombstone e)) (first_rows l).
Definition archive_rows {RP : RetentionPolicy} (l : list SegmentEntry) : list SegmentEntry :=
  List.filter (retained Archive) l.

Lemma first_rows_sub l x : x ∈ first_rows l -> x ∈ l.
Proof.
  induction l as [|e l IH]; cbn; [done|]. intros [->|H]%elem_of_cons; [set_solver|].
  apply elem_of_filter_bool in H as [H _]. set_solver.
Qed.

(** Without the repeated rows the merge order is strict. *)
Lemma first_rows_sorted l : StronglySorted sort_le l -> consistent l -> StronglySorted publish_lt (first_rows l).
Proof.
  induction 1 as [|e l Hs IH Hf]; intros Hc; cbn; [constructor|].
  constructor; [apply filter_sorted, IH; by eapply consistent_tail|]. apply Forall_forall.
  intros x [Hx Hn]%elem_of_filter_bool. apply first_rows_sub in Hx. assert (sort_le e x) as Hle by by eapply Forall_forall in Hf.
  apply entry_le_spec in Hle as [Hk|[Ek Hq]]; [by left|]. right. split; [done|]. apply Z.le_neq. split; [done|].
  intros Eq. assert (e = x) as -> by (apply Hc; [set_solver | set_solver|]; unfold version_of; congruence).
  apply negb_true_iff in Hn. unfold same_slot in Hn. by rewrite bytes_eqb_refl, bool_decide_eq_true_2 in Hn.
Qed.

Lemma first_rows_app l k :
  (forall a b, a ∈ l -> b ∈ k -> se_key a <> se_key b) -> first_rows (l ++ k) = first_rows l ++ first_rows k.
Proof.
  induction l as [|e l IH]; intros H; [done|]. cbn [app first_rows]. rewrite IH by set_solver.
  rewrite List.filter_app. cbn. do 2 f_equal. apply filter_all. intros x Hx%first_rows_sub. apply negb_true_iff.
  unfold same_slot. rewrite (proj2 (bytes_eqb_neq _ _)); [done|]. apply H; set_solver.
Qed.

(** The dedup of one key's run, by the replicas already seen. *)
Fixpoint fresh_rows (seen : list ReplicaId) (l : list SegmentEntry) : list SegmentEntry :=
  match l with
  | [] => []
  | e :: l => if bool_decide (se_rid e ∈ seen) then fresh_rows seen l else e :: fresh_rows (se_rid e :: seen) l
  end.
Lemma fresh_rows_first seen key l :
  Forall (fun e => se_key e = key) l ->
  fresh_rows seen l = List.filter (fun e => negb (bool_decide (se_rid e ∈ seen))) (first_rows l).
Proof.
  revert seen. induction l as [|e l IH]; intros seen H; [done|]. inversion H as [|? ? He Hl]; subst. cbn.
  assert (forall x, x ∈ first_rows l -> same_slot e x = bool_decide (se_rid e = se_rid x)) as Hss.
  { intros x Hx%first_rows_sub. unfold same_slot. eapply Forall_forall in Hl; [|exact Hx]. cbn in Hl. by rewrite Hl, bytes_eqb_refl. }
  rewrite !IH by done. case_bool_decide as Hin; cbn [negb].
  - rewrite filter_comm. symmetry. apply filter_all. intros x [Hx Hs]%elem_of_filter_bool. rewrite Hss by done.
    apply negb_true_iff, bool_decide_eq_false. apply negb_true_iff, bool_decide_eq_false in Hs. congruence.
  - f_equal. clear -Hss. induction (first_rows l) as [|x k IH]; [done|]. cbn.
    rewrite Hss by set_solver. rewrite IH by set_solver. clear.
    rewrite (bool_decide_ext (se_rid x ∈ se_rid e :: seen) (se_rid e = se_rid x \/ se_rid x ∈ seen)) by set_solver.
    rewrite bool_decide_or. destruct (bool_decide (se_rid e = se_rid x)); cbn; by destruct (bool_decide (se_rid x ∈ seen)).
Qed.

(** A slot search does not tell the rows of a slot apart. *)
Lemma same_slot_eq a b : same_slot a b = true <-> se_key a = se_key b /\ se_rid a = se_rid b.
Proof. unfold same_slot. by rewrite andb_true_iff, bytes_eqb_eq, bool_decide_eq_true. Qed.
Lemma row_match_eq key rid e : row_match key (Some rid) e = true <-> se_key e = key /\ se_rid e = rid.
Proof. unfold row_match. by rewrite andb_true_iff, bytes_eqb_eq, bool_decide_eq_true. Qed.
Lemma find_other_slot key rid e l :
  row_match key (Some rid) e = false -> find_row key (Some rid) (List.filter (fun x => negb (same_slot e x)) l) = find_row key (Some rid) l.
Proof.
  intros He. unfold find_row. induction l as [|x l IH]; [done|]. cbn. destruct (same_slot e x) eqn:Es; cbn; [|by rewrite IH].
  assert (row_match key (Some rid) x = false) as ->; [|done]. apply not_true_iff_false. apply not_true_iff_false in He.
  apply same_slot_eq in Es as [Ek Er]. by rewrite row_match_eq, <-Ek, <-Er, <-row_match_eq.
Qed.
Lemma find_row_first key rid l : find_row key (Some rid) (first_rows l) = find_row key (Some rid) l.
Proof.
  induction l as [|e l IH]; [done|]. cbn [first_rows]. unfold find_row in *. cbn.
  destruct (row_match key (Some rid) e) eqn:E; [done|]. rewrite <-IH. by apply (find_other_slot key rid).
Qed.

(** The newest row of a slot survives unless it is a tombstone or its key is not kept. *)
Lemma find_row_live {RP : RetentionPolicy} key rid l :
  find_row key (Some rid) (live_rows l) =
  (e ← find_row key (Some rid) l; if retained Keep e && negb (is_tombstone e) then Some e else None).
Proof.
  unfold live_rows. set (f := fun e => retained Keep e && negb (is_tombstone e)). induction l as [|e l IH]; [done|].
  cbn [first_rows List.filter]. unfold find_row at 2. cbn [List.find]. fold (find_row key (Some rid) l).
  destruct (row_match key (Some rid) e) eqn:E.
  - cbn [mbind option_bind]. fold (f e). destruct (f e); [unfold find_row; cbn [List.find]; by rewrite E|].
    apply find_none_iff. intros x Hx'. apply list_elem_of_In, elem_of_filter_bool in Hx' as [[_ Hx]%elem_of_filter_bool _]. apply not_true_iff_false.
    intros Hm. apply row_match_eq in E as [<- <-]. apply row_match_eq in Hm as [Hk Hr].
    by rewrite (proj2 (same_slot_eq e x)) in Hx.
  - rewrite <-IH. rewrite filter_comm. rewrite <-(find_other_slot key rid e (List.filter f (first_rows l))) by done.
    unfold find_row. destruct (f e); cbn [List.find]; [by rewrite E | done].
Qed.

(* ------------------------------------------------------------------ *)
(** * Sinks *)

Definition sum_est (rows : list SegmentEntry) : Z := foldr (fun e n => est_bytes e + n) 0 rows.
Lemma sum_est_app a b : sum_est (a ++ b) = sum_est a + sum_est b.
Proof. induction a as [|e a IH]; cbn; [done|]. unfold sum_est in *. cbn. lia. Qed.
Lemma est_pos e : 17 <= est_bytes e.
Proof. unfold est_bytes. pose proof (zlen_nonneg (se_key e)). pose proof (zlen_nonneg (se_value e)). lia. Qed.
Lemma sum_est_nonneg rows : 0 <= sum_est rows.
Proof. induction rows as [|e rows IH]; cbn; [done|]. pose proof (est_pos e). unfold sum_est in *. lia. Qed.
Lemma sum_est_pos rows : 0 < sum_est rows <-> rows <> [].
Proof.
  destruct rows as [|e rows]; cbn; [split; [lia | done]|]. pose proof (est_pos e). pose proof (sum_est_nonneg rows).
  unfold sum_est in *. split; [done | lia].
Qed.
Lemma full_size_est rows : full_size true rows <= 2 * sum_est rows.
Proof.
  induction rows as [|e rows IH]; cbn [full_size sum_est foldr]; [done|]. fold (sum_est rows). unfold entry_len, est_bytes.
  pose proof (zlen_nonneg (se_key e)). pose proof (zlen_nonneg (se_value e)). lia.
Qed.

(** Merges whose chunks stay inside the format: a chunk cap (and no row) above 512 MiB, or
    rows that fit one segment. *)
Definition CAP : Z := 2 ^ 29.
Definition merge_fits (chunk_bytes : Z) (rows : list SegmentEntry) : Prop :=
  fits rows \/ 0 < chunk_bytes <= CAP /\ Forall (fun e => est_bytes e <= CAP) rows.
(** The chunk bound: at most the cap, or one row. *)
Definition buffer_ok (chunk_bytes : Z) (rows : list SegmentEntry) : Prop :=
  0 < chunk_bytes -> sum_est rows <= chunk_bytes \/ (length rows <= 1)%nat.

Lemma buffer_fits chunk_bytes out done rows :
  merge_fits chunk_bytes out -> out = done ++ rows -> buffer_ok chunk_bytes rows -> fits rows.
Proof.
  unfold fits. intros [Hf|[Hc Ha]] -> Hb.
  - unfold fits in Hf. rewrite full_size_app in Hf. pose proof (full_size_nonneg true done). lia.
  - pose proof (full_size_est rows). unfold CAP, U32 in *. destruct (Hb (proj1 Hc)) as [H1|H1]; [lia|].
    apply Forall_app in Ha as [_ Ha]. destruct rows as [|e [|]]; cbn in H1; [done| |lia].
    inversion Ha; subst. unfold sum_est in *. cbn in *. lia.
Qed.
Lemma merge_fits_app chunk_bytes a b : merge_fits chunk_bytes (a ++ b) -> merge_fits chunk_bytes a.
Proof.
  unfold merge_fits, fits. intros [Hf|[Hc Ha]].
  - left. rewrite full_size_app in Hf. pose proof (full_size_nonneg true b). lia.
  - right. split; [done|]. by apply Forall_app in Ha as [? _].
Qed.

Definition byte_row (e : SegmentEntry) : Prop := se_rid e = mkReplicaId 0.
(** A chunk writer: v2 until a replica row arrives, v4 after it. *)
Record writer_inv (target : Z) (w : SegmentWriter) : Prop := {
  wi_target : sw_target w = target; wi_v2 : sw_v2 w = true; wi_v34 : sw_v3 w = sw_v4 w;
  wi_rid : sw_v4 w = true \/ Forall byte_row (sw_entries w) }.

Section Sinks.
Context {SHA : Sha256} (target chunk_bytes : Z) (Htarget : target <> 0).

(** Rows published as one file. *)
Definition published_as (w : SegmentWriter) (rows : list SegmentEntry) (file : bytes)
    (res : Z * Z * list SegmentAnchor) : Prop :=
  writer_inv target w /\ rows = sw_entries w /\ rows <> [] /\ buffer_ok chunk_bytes rows /\ Forall entry_wf rows /\
  fits rows /\ publish_sorted_entries w rows = Ok (file, res).

Lemma writer_flags w : writer_inv target w -> flags_ok w.
Proof. intros [_ H2 H3 _]. split; [congruence | done]. Qed.

Lemma push_writer w e :
  writer_inv target w ->
  let w' := if bool_decide (se_rid e = mkReplicaId 0) then w else enable_v4 w in
  writer_inv target (sw_push w' e) /\ sw_entries (sw_push w' e) = sw_entries w ++ [e].
Proof.
  intros [Ht H2 H3 Hr]. case_bool_decide as E; (split; [|done]); split; cbn; try done.
  - destruct Hr as [?|Hr]; [by left|]. right. apply Forall_app. split; [done|]. by repeat constructor.
  - by left.
Qed.

Lemma seal_ok w done :
  writer_inv target w -> sw_entries w <> [] -> buffer_ok chunk_bytes (sw_entries w) ->
  StronglySorted publish_lt (done ++ sw_entries w) -> Forall entry_wf (done ++ sw_entries w) ->
  merge_fits chunk_bytes (done ++ sw_entries w) ->
  exists file res r, publish_with_anchors_sorted_staged w = (sw_take w, Ok (file, res)) /\
    open_segment file = Ok r /\ published_as w (sw_entries w) file res /\ writer_inv target (sw_take w).
Proof.
  intros Hw Hne Hb Hs Hwf Hf. apply sorted_app_inv in Hs as [_ Hs]. apply Forall_app in Hwf as [_ Hwf].
  pose proof (buffer_fits _ _ _ _ Hf eq_refl Hb) as Hfit. pose proof (writer_flags w Hw) as Hfl.
  assert (publishable w (sw_entries w)) as Hp by done.
  destruct (proj2 (publish_ok_iff w _ Hp)) as [[file res] Hx]; [rewrite (wi_target _ _ Hw); done|].
  destruct res as [[sz ck] anchors].
  destruct (published_open w (sw_entries w) file sz ck anchors) as (r & _ & Ho & _); try done.
  exists file, (sz, ck, anchors), r. unfold publish_with_anchors_sorted_staged. rewrite Hx. split_and!; try done.
  destruct Hw as [Ht H2 H3 Hr]. split; cbn; try done. destruct Hr; [by left | by right].
Qed.
Definition extends (files files' : Files) : Prop := exists more, files' = files ++ more.

(** A published live chunk, and an archive chunk. *)
Definition chunk_holds (files : Files) (c : LiveChunk) (rows : list SegmentEntry) : Prop :=
  exists w file, (FSegment (lc_id c), file) ∈ files /\
    published_as w rows file (lc_size c, lc_checksum c, lc_anchors c) /\ open_segment file = Ok (lc_reader c).
Definition archive_holds (files : Files) (id : Z) (done : list (list SegmentEntry)) : Prop :=
  forall (k : nat) rows, done !! k = Some rows ->
  exists w file res, (FArchive id (Z.of_nat k), file) ∈ files /\ published_as w rows file res.

Lemma chunk_holds_extends files files' c rows : extends files files' -> chunk_holds files c rows -> chunk_holds files' c rows.
Proof. intros [more ->] (w & file & Hin & H). exists w, file. split; [|done]. rewrite elem_of_app. by left. Qed.
Lemma archive_holds_extends files files' id done : extends files files' -> archive_holds files id done -> archive_holds files' id done.
Proof.
  intros [more ->] H k rows Hk. destruct (H k rows Hk) as (w & file & res & Hin & Hp). exists w, file, res. rewrite elem_of_app. auto.
Qed.

(** The live sink after the rows [out]: published chunks and the buffer. *)
Record live_inv (files : Files) (next_id : Z) (sink : LiveSink) (done : list (list SegmentEntry)) : Prop := {
  li_chunks : Forall2 (chunk_holds files) (ls_chunks sink) done;
  li_writer : writer_inv target (ls_writer sink);
  li_len : ls_len sink = sum_est (sw_entries (ls_writer sink));
  li_buffer : buffer_ok chunk_bytes (sw_entries (ls_writer sink));
  li_ids : StronglySorted Z.lt (map lc_id (ls_chunks sink) ++ [next_id]) }.

Record archive_inv (files : Files) (aw : ArchiveSink) (done : list (list SegmentEntry)) : Prop := {
  ai_id : done <> [] -> ar_id aw <> None;
  ai_chunks : forall id, ar_id aw = Some id -> archive_holds files id done;
  ai_count : ar_chunk aw = zlen done;
  ai_writer : writer_inv target (ar_writer aw);
  ai_len : ar_len aw = sum_est (sw_entries (ar_writer aw));
  ai_buffer : buffer_ok chunk_bytes (sw_entries (ar_writer aw)) }.

Lemma ids_bump ids next_id : StronglySorted Z.lt (ids ++ [next_id]) -> StronglySorted Z.lt (ids ++ [next_id + 1]).
Proof.
  intros H. apply StronglySorted_app; [by apply sorted_app_inv in H as [? _] | repeat constructor|].
  intros a b Ha Hb. apply list_elem_of_singleton in Hb as ->.
  assert (a < next_id) by (apply (sorted_app_rel _ _ _ _ _ H Ha); set_solver). lia.
Qed.
Lemma ids_push ids next_id : StronglySorted Z.lt (ids ++ [next_id]) -> StronglySorted Z.lt ((ids ++ [next_id]) ++ [next_id + 1]).
Proof.
  intros H. apply StronglySorted_app; [done | repeat constructor|].
  intros a b Ha Hb. apply list_elem_of_singleton in Hb as ->. apply elem_of_app in Ha as [Ha|Ha].
  - assert (a < next_id) by (apply (sorted_app_rel _ _ _ _ _ H Ha); set_solver). lia.
  - apply list_elem_of_singleton in Ha as ->. lia.
Qed.

Lemma publish_chunk_ok files next_id sink done :
  live_inv files next_id sink done -> let buf := sw_entries (ls_writer sink) in
  buf <> [] -> StronglySorted publish_lt (concat done ++ buf) -> Forall entry_wf (concat done ++ buf) ->
  merge_fits chunk_bytes (concat done ++ buf) ->
  exists c file, publish_chunk (ls_writer sink) next_id files =
      Ok (c, sw_take (ls_writer sink), next_id + 1, files ++ [(FSegment next_id, file)]) /\
    live_inv (files ++ [(FSegment next_id, file)]) (next_id + 1)
      (mkLiveSink (sw_take (ls_writer sink)) 0 (ls_chunks sink ++ [c])) (done ++ [buf]).
Proof.
  intros [Hc Hw Hl Hb Hi] buf Hne Hs Hwf Hf.
  destruct (seal_ok (ls_writer sink) (concat done)) as (file & [[sz ck] an] & r & Hp & Ho & Hpub & Hw'); try done.
  unfold publish_chunk. rewrite Hp. cbn [mbind Result_bind]. rewrite Ho. cbn [mbind Result_bind].
  eexists _, file. split; [reflexivity|]. split; cbn; try done.
  - apply Forall2_app; [eapply Forall2_impl; [exact Hc|]; intros; eapply chunk_holds_extends; [by eexists | done]|].
    repeat constructor. exists (ls_writer sink), file. split_and!; try done. rewrite elem_of_app. right. set_solver.
  - intros _. right. cbn. lia.
  - rewrite map_app. cbn. by apply ids_push.
Qed.

Lemma buffer_push buf e :
  buffer_ok chunk_bytes buf -> (0 < chunk_bytes -> 0 < sum_est buf -> sum_est buf + est_bytes e <= chunk_bytes) ->
  buffer_ok chunk_bytes (buf ++ [e]).
Proof.
  intros Hb Hc H0. destruct buf as [|x buf]; [right; cbn; lia|]. left. rewrite sum_est_app.
  change (sum_est [e]) with (est_bytes e + 0). assert (0 < sum_est (x :: buf)) by by apply sum_est_pos. specialize (Hc H0). lia.
Qed.

Lemma push_live_ok files next_id sink done e :
  live_inv files next_id sink done -> let out := concat done ++ sw_entries (ls_writer sink) in
  StronglySorted publish_lt (out ++ [e]) -> Forall entry_wf (out ++ [e]) -> merge_fits chunk_bytes (out ++ [e]) ->
  exists sink' next_id' files' done', push_live sink next_id files chunk_bytes e = Ok (sink', next_id', files') /\
    live_inv files' next_id' sink' done' /\ concat done' ++ sw_entries (ls_writer sink') = out ++ [e] /\
    next_id <= next_id' /\ extends files files'.
Proof.
  intros Hl out Hs Hwf Hf. unfold push_live.
  destruct ((0 <? chunk_bytes) && (0 <? ls_len sink) && (chunk_bytes <? ls_len sink + est_bytes e)) eqn:Ec.
  - bool_to_prop. destruct (publish_chunk_ok files next_id sink done Hl) as (c & file & -> & Hl').
    + apply sum_est_pos. rewrite <-(li_len _ _ _ _ Hl). lia.
    + by apply sorted_app_inv in Hs as [? _].
    + by apply Forall_app in Hwf as [? _].
    + by eapply merge_fits_app.
    + cbn [mbind Result_bind ls_writer ls_len ls_chunks]. set (w := sw_take (ls_writer sink)) in *.
      destruct (push_writer w e (li_writer _ _ _ _ Hl')) as [Hw1 Hw2].
      eexists _, _, _, _. split; [reflexivity|]. split; [split; cbn [ls_chunks ls_writer ls_len]; try apply Hl'; [done| |]|].
      * rewrite Hw2. cbn. lia.
      * rewrite Hw2. right. cbn. lia.
      * cbn [ls_writer]. rewrite Hw2, concat_app. cbn [concat sw_entries sw_take]. rewrite app_nil_r. split_and!; [done | lia | by eexists].
  - cbn [mbind Result_bind]. destruct (push_writer (ls_writer sink) e (li_writer _ _ _ _ Hl)) as [Hw1 Hw2].
    eexists _, _, _, done. split; [reflexivity|]. split; [split; cbn [ls_chunks ls_writer ls_len]; try apply Hl; [done| |]|].
    + rewrite Hw2, sum_est_app, (li_len _ _ _ _ Hl). cbn. lia.
    + rewrite Hw2. apply buffer_push; [apply Hl|]. rewrite (li_len _ _ _ _ Hl) in Ec. intros H1 H2.
      rewrite !andb_false_iff, !Z.ltb_ge in Ec. lia.
    + cbn [ls_writer]. rewrite Hw2, app_assoc. split_and!; [done | lia | by exists []; rewrite app_nil_r].
Qed.
Lemma live_inv_extends files files' next_id next_id' sink done :
  extends files files' -> next_id <= next_id' -> live_inv files next_id sink done -> live_inv files' next_id' sink done.
Proof.
  intros He Hn [Hc Hw Hl Hb Hi]. split; try done.
  - eapply Forall2_impl; [exact Hc|]. intros. by eapply chunk_holds_extends.
  - apply StronglySorted_app; [by apply sorted_app_inv in Hi as [? _] | repeat constructor|].
    intros a b Ha Hb'. apply list_elem_of_singleton in Hb' as ->.
    assert (a < next_id) by (apply (sorted_app_rel _ _ _ _ _ Hi Ha); set_solver). lia.
Qed.
Lemma archive_inv_extends files files' aw done : extends files files' -> archive_inv files aw done -> archive_inv files' aw done.
Proof. intros He [H1 H2 H3 H4 H5 H6]. split; try done. intros id Hid. eapply archive_holds_extends; [done | by apply H2]. Qed.

Lemma archive_inv_new files : archive_inv files (archive_new target) [].
Proof. split; cbn; try done; [split; try done; by right | intros _; right; cbn; lia]. Qed.

Lemma publish_archive_ok files next_id aw done :
  archive_inv files aw done -> let buf := sw_entries (ar_writer aw) in
  let '(id, next_id') := archive_id (ar_id aw) next_id in
  buf <> [] -> StronglySorted publish_lt (concat done ++ buf) -> Forall entry_wf (concat done ++ buf) ->
  merge_fits chunk_bytes (concat done ++ buf) ->
  next_id <= next_id' /\ exists file, publish_archive_chunk (ar_writer aw) files id (ar_chunk aw) =
      Ok (sw_take (ar_writer aw), files ++ [(FArchive id (ar_chunk aw), file)]) /\
    archive_holds (files ++ [(FArchive id (ar_chunk aw), file)]) id (done ++ [buf]) /\
    writer_inv target (sw_take (ar_writer aw)).
Proof.
  intros [Hid Hc Hn Hw Hl Hb] buf. destruct (archive_id (ar_id aw) next_id) as [id next_id'] eqn:Eid.
  intros Hne Hs Hwf Hf. split; [unfold archive_id in Eid; destruct (ar_id aw); injection Eid as <- <-; lia|].
  destruct (seal_ok (ar_writer aw) (concat done)) as (file & res & r & Hp & _ & Hpub & Hw'); try done.
  unfold publish_archive_chunk. rewrite Hp. cbn [mbind Result_bind]. exists file. split_and!; try done.
  intros k rows Hk. apply lookup_app_Some in Hk as [Hk|[Hge Hk]].
  - assert (done <> []) as Hd by by intros ->. assert (ar_id aw = Some id) as Ei.
    { specialize (Hid Hd). unfold archive_id in Eid. destruct (ar_id aw); [by injection Eid as -> ->|done]. }
    destruct (Hc id Ei k rows Hk) as (w & fl & rs & Hin & H). exists w, fl, rs. rewrite elem_of_app. auto.
  - destruct (k - length done)%nat as [|m] eqn:E; [|by destruct m]. cbn in Hk. injection Hk as <-.
    exists (ar_writer aw), file, res. split; [|done]. rewrite elem_of_app. right. rewrite Hn. unfold zlen.
    assert (k = length done) as -> by lia. set_solver.
Qed.

Lemma push_archive_ok files next_id aw done e :
  archive_inv files aw done -> let out := concat done ++ sw_entries (ar_writer aw) in
  StronglySorted publish_lt (out ++ [e]) -> Forall entry_wf (out ++ [e]) -> merge_fits chunk_bytes (out ++ [e]) ->
  exists aw' next_id' files' done', push_archive aw next_id files chunk_bytes e = Ok (aw', next_id', files') /\
    archive_inv files' aw' done' /\ concat done' ++ sw_entries (ar_writer aw') = out ++ [e] /\
    next_id <= next_id' /\ extends files files'.
Proof.
  intros Ha out Hs Hwf Hf. unfold push_archive.
  destruct ((0 <? chunk_bytes) && (0 <? ar_len aw) && (chunk_bytes <? ar_len aw + est_bytes e)) eqn:Ec.
  - bool_to_prop. pose proof (publish_archive_ok files next_id aw done Ha) as Hp.
    destruct (archive_id (ar_id aw) next_id) as [id next_id']. destruct Hp as (Hn & file & -> & Hh & Hw').
    + apply sum_est_pos. rewrite <-(ai_len _ _ _ Ha). lia.
    + by apply sorted_app_inv in Hs as [? _].
    + by apply Forall_app in Hwf as [? _].
    + by eapply merge_fits_app.
    + cbn [mbind Result_bind ar_writer ar_len ar_chunk ar_id]. destruct (push_writer _ e Hw') as [Hw1 Hw2].
      eexists _, _, _, (done ++ [sw_entries (ar_writer aw)]). split; [reflexivity|].
      split; [split; cbn [ar_writer ar_len ar_chunk ar_id]; try done|].
      * intros id' E. injection E as <-. done.
      * rewrite (ai_count _ _ _ Ha). unfold zlen. rewrite length_app. cbn. lia.
      * rewrite Hw2. cbn. lia.
      * rewrite Hw2. right. cbn. lia.
      * cbn [ar_writer]. rewrite Hw2, concat_app. cbn [concat sw_entries sw_take]. rewrite app_nil_r.
        split_and!; [done | lia | eexists; reflexivity].
  - cbn [mbind Result_bind]. destruct (push_writer _ e (ai_writer _ _ _ Ha)) as [Hw1 Hw2].
    eexists _, _, _, done. split; [reflexivity|]. split; [split; cbn [ar_writer ar_len ar_chunk ar_id]; try apply Ha; [done| |]|].
    + rewrite Hw2, sum_est_app, (ai_len _ _ _ Ha). cbn. lia.
    + rewrite Hw2. apply buffer_push; [apply Ha|]. rewrite (ai_len _ _ _ Ha) in Ec. intros H1 H2.
      rewrite !andb_false_iff, !Z.ltb_ge in Ec. lia.
    + cbn [ar_writer]. rewrite Hw2, app_assoc. split_and!; [done | lia | by exists []; rewrite app_nil_r].
Qed.
End Sinks.
