(* ===== verification/CompactionProps.v ===== *)
(** Compaction: the merge publishes exactly the surviving rows, in bounded chunks that
    open back to them, and the relocation set points at each replica's newest survivor. *)

From stdpp Require Import gmap.
From S2P Require Import Prelude Cursor Format Identity Disk Segment SegmentBlock SegmentLookup SegmentFile SegmentQueries SegmentProps Compaction CompactionMerge.

Section Loop.
Context {SHA : Sha256} {RP : RetentionPolicy} (target chunk_bytes : Z) (Htarget : target <> 0).

(** The merge after the input rows [din], with [out] pushed to the live output and [aout]
    to the archive. *)
Record merged (ms : MergeState) (din out aout : list SegmentEntry) : Prop := {
  mg_live : exists done, live_inv target chunk_bytes (ms_files ms) (ms_next_id ms) (ms_live ms) done /\
    concat done ++ sw_entries (ls_writer (ms_live ms)) = out;
  mg_archive : match ms_archive ms with
    | None => aout = []
    | Some aw => exists done, archive_inv target chunk_bytes (ms_files ms) aw done /\
        concat done ++ sw_entries (ar_writer aw) = aout
    end;
  mg_seen : forall rid, rid ∈ ms_seen ms <-> rid <> mkReplicaId 0 /\ exists e, e ∈ din /\ se_rid e = rid;
  mg_in : ms_in ms = zlen din;
  mg_out : ms_out ms = zlen out;
  mg_archived : ms_archived ms = zlen aout }.

(** What the sinks need of the rows still to come. *)
Definition pushable (rows : list SegmentEntry) : Prop :=
  StronglySorted publish_lt rows /\ Forall entry_wf rows /\ merge_fits chunk_bytes rows.
Lemma pushable_app a b : pushable (a ++ b) -> pushable a.
Proof.
  intros (Hs & Hw & Hf). split_and!; [by apply sorted_app_inv in Hs as [? _] | by apply Forall_app in Hw as [? _] | by eapply merge_fits_app].
Qed.
Lemma pushable_step a e b : pushable (a ++ e :: b) -> pushable (a ++ [e]) /\ pushable ((a ++ [e]) ++ b).
Proof. intros H. rewrite cons_middle, app_assoc in H. split; [by apply pushable_app in H | done]. Qed.

Definition dedup_rep (use_set : bool) (d : Dedup) (seen : list ReplicaId) : Prop :=
  forall rid, (if use_set then rid ∈ dd_set d else rid ∈ dd_vec d) <-> rid ∈ seen.

Lemma grouped_scan_found grouped rid : (grouped_scan grouped rid).2 = bool_decide (rid ∈ grouped).
Proof.
  induction grouped as [|r grouped IH]; cbn [grouped_scan]; [done|].
  destruct (decide (r = rid)) as [E|E].
  - rewrite bool_decide_eq_true_2 by done. symmetry. apply bool_decide_eq_true. subst. set_solver.
  - rewrite bool_decide_eq_false_2 by done. destruct (grouped_scan grouped rid) as [n found]. cbn in *. rewrite IH.
    apply bool_decide_ext. set_solver.
Qed.

Lemma dedup_fresh_ok use_set d seen rid :
  dedup_rep use_set d seen ->
  exists d', dedup_fresh use_set d rid = (negb (bool_decide (rid ∈ seen)), d') /\
    dedup_rep use_set d' (if bool_decide (rid ∈ seen) then seen else rid :: seen).
Proof.
  intros H. unfold dedup_fresh, dedup_rep in *. destruct use_set.
  - eexists. split; [f_equal; f_equal; apply bool_decide_ext, H|]. intros r. cbn. specialize (H r). case_bool_decide; set_solver.
  - pose proof (grouped_scan_found (dd_vec d) rid) as Hg. destruct (grouped_scan (dd_vec d) rid) as [n found]. cbn in Hg.
    rewrite (bool_decide_ext (rid ∈ dd_vec d) (rid ∈ seen)) in Hg by apply H. subst found. eexists. split; [reflexivity|].
    intros r. cbn. specialize (H r). case_bool_decide; set_solver.
Qed.

Lemma push_merged ms din out aout e :
  merged ms din out aout -> pushable (out ++ [e]) ->
  exists live next_id files, push_live (ms_live ms) (ms_next_id ms) (ms_files ms) chunk_bytes e = Ok (live, next_id, files) /\
    merged (mkMergeState live (ms_archive ms) (ms_seen ms) (ms_in ms) (ms_out ms + 1) (ms_archived ms) (ms_compares ms) next_id files)
      din (out ++ [e]) aout.
Proof.
  intros [(done & Hl & Eo) Ha Hs Hi Ho Har] (Hp1 & Hp2 & Hp3). subst out.
  destruct (push_live_ok target chunk_bytes Htarget _ _ _ _ e Hl Hp1 Hp2 Hp3) as (live & next_id & files & done' & E & Hl' & Eo' & Hn & He).
  exists live, next_id, files. split; [done|]. split; cbn; try done; [by exists done' | | rewrite Ho; unfold zlen; rewrite !length_app; cbn; lia].
  destruct (ms_archive ms) as [aw|]; [|done]. destruct Ha as (ad & Hai & Ea). exists ad. split; [|done]. by eapply archive_inv_extends.
Qed.

Lemma keep_fold_ok use_set l : forall ms d seen din out aout,
  merged ms din out aout -> dedup_rep use_set d seen ->
  let new := List.filter (fun e => negb (is_tombstone e)) (fresh_rows seen l) in
  pushable (out ++ new) ->
  exists ms' d', fold_result (keep_row use_set chunk_bytes) (ms, d) l = Ok (ms', d') /\ merged ms' din (out ++ new) aout.
Proof.
  induction l as [|e l IH]; intros ms d seen din out aout Hm Hd new Hp.
  { exists ms, d. split; [done|]. unfold new. cbn. by rewrite app_nil_r. }
  destruct (dedup_fresh_ok use_set d seen (se_rid e) Hd) as (d' & Ef & Hd').
  cbn [fold_result]. unfold keep_row at 2. cbv beta iota. rewrite Ef. unfold new in *. cbn [fresh_rows] in *.
  destruct (bool_decide (se_rid e ∈ seen)) eqn:Ein; cbn [negb andb] in *.
  { cbn [mbind Result_bind]. by apply (IH ms d' seen din out aout). }
  cbn [List.filter] in *. unfold is_tombstone in * at 1 3. rewrite negb_involutive in *.
  destruct (Z.land (se_flags e) FLAG_DELETE =? 0) eqn:Et.
  - apply pushable_step in Hp as [Hp1 Hp2]. destruct (push_merged ms din out aout e Hm Hp1) as (live & nid & fl & -> & Hm').
    cbn [mbind Result_bind]. destruct (IH _ d' _ _ _ _ Hm' Hd' Hp2) as (ms' & d2 & -> & Hm2). exists ms', d2.
    split; [done|]. by rewrite <-app_assoc in Hm2.
  - cbn [mbind Result_bind]. by apply (IH ms d' (se_rid e :: seen) din out aout).
Qed.
Lemma archive_fold_ok l : forall ms aw done out aout,
  (exists ld, live_inv target chunk_bytes (ms_files ms) (ms_next_id ms) (ms_live ms) ld /\
    concat ld ++ sw_entries (ls_writer (ms_live ms)) = out) ->
  archive_inv target chunk_bytes (ms_files ms) aw done -> concat done ++ sw_entries (ar_writer aw) = aout ->
  pushable (aout ++ l) ->
  exists ms' aw', fold_result (archive_row chunk_bytes) (ms, aw) l = Ok (ms', aw') /\
    ms_archived ms' = ms_archived ms + zlen l /\ ms_seen ms' = ms_seen ms /\ ms_in ms' = ms_in ms /\ ms_out ms' = ms_out ms /\
    (exists ld, live_inv target chunk_bytes (ms_files ms') (ms_next_id ms') (ms_live ms') ld /\
      concat ld ++ sw_entries (ls_writer (ms_live ms')) = out) /\
    exists done', archive_inv target chunk_bytes (ms_files ms') aw' done' /\ concat done' ++ sw_entries (ar_writer aw') = aout ++ l.
Proof.
  induction l as [|e l IH]; intros ms aw done out aout Hl Ha Ea Hp.
  { exists ms, aw. rewrite app_nil_r. change (zlen (@nil SegmentEntry)) with 0. rewrite Z.add_0_r. split_and!; try done. by exists done. }
  apply pushable_step in Hp as [Hp1 Hp2]. destruct Hp1 as (H1 & H2 & H3). subst aout.
  destruct (push_archive_ok target chunk_bytes Htarget (ms_files ms) (ms_next_id ms) aw done e Ha H1 H2 H3)
    as (aw' & nid & fl & done' & E & Ha' & Ea' & Hn & He).
  cbn [fold_result]. unfold archive_row at 2. cbv beta iota. rewrite E. cbn [mbind Result_bind].
  destruct Hl as (ld & Hl & Eo). set (ms1 := mkMergeState _ _ _ _ _ _ _ _ _).
  destruct (IH ms1 aw' done' out ((concat done ++ sw_entries (ar_writer aw)) ++ [e])) as (ms' & aw2 & -> & Har & Hs & Hi & Ho & Hl2 & Hd2).
  - exists ld. split; [|done]. by eapply live_inv_extends.
  - done.
  - done.
  - done.
  - exists ms', aw2. rewrite <-app_assoc in Hd2. split_and!; try done. rewrite Har, zlen_cons. cbn. lia.
Qed.

Lemma seen_fold run (seen : gset ReplicaId) rid :
  rid ∈ fold_left (fun seen e => if bool_decide (se_rid e = mkReplicaId 0) then seen else {[se_rid e]} ∪ seen) run seen <->
  rid ∈ seen \/ rid <> mkReplicaId 0 /\ exists e, e ∈ run /\ se_rid e = rid.
Proof.
  revert seen. induction run as [|e run IH]; intros seen; cbn [fold_left].
  { split; [by left|]. intros [H|(_ & e & H & _)]; [done|]. by apply not_elem_of_nil in H. }
  rewrite IH. setoid_rewrite elem_of_cons. case_bool_decide as E; [|rewrite elem_of_union, elem_of_singleton]; naive_solver.
Qed.

(** A key's rows share its verdict. *)
Lemma retained_run key l :
  Forall (fun e => se_key e = key) l -> forall v, classify key = v ->
  List.filter (retained v) l = l /\ forall v', v' <> v -> List.filter (retained v') l = [].
Proof.
  intros Hk v Ev. assert (forall x v', x ∈ l -> retained v' x = match v, v' with Keep, Keep | Drop, Drop | Archive, Archive => true | _, _ => false end) as H.
  { intros x v' Hx. eapply Forall_forall in Hk; [|exact Hx]. unfold retained. by rewrite Hk, Ev. }
  split; [apply filter_all | intros v' Hv; apply filter_none]; intros x Hx; rewrite H by done; destruct v; try done; by destruct v'.
Qed.
Lemma live_rows_split l :
  live_rows l = List.filter (fun e => negb (is_tombstone e)) (List.filter (retained Keep) (first_rows l)).
Proof.
  unfold live_rows. induction (first_rows l) as [|x k IH]; [done|]. cbn. destruct (retained Keep x); cbn; [|done].
  by destruct (negb (is_tombstone x)); rewrite ?IH.
Qed.

(** One key's run: the survivors go to the live output, an archived key's rows to the archive. *)
Lemma merge_run_ok ms din out aout run key :
  merged ms din out aout -> run <> [] -> Forall (fun e => se_key e = key) run ->
  pushable (out ++ live_rows run) -> pushable (aout ++ archive_rows run) ->
  exists ms', merge_run target chunk_bytes ms run = Ok ms' /\
    merged ms' (din ++ run) (out ++ live_rows run) (aout ++ archive_rows run).
Proof.
  intros Hm Hne Hk Hp1 Hp2. destruct run as [|e0 run'] eqn:Er; [done|]. rewrite <-Er in *. unfold merge_run.
  rewrite Er. cbv iota. rewrite <-Er. clear Hne. set (ms1 := mkMergeState _ _ _ _ _ _ _ _ _).
  assert (forall e, e ∈ run -> se_key e = key) as Hkey by (by apply Forall_forall).
  assert (merged ms1 (din ++ run) out aout) as Hm1.
  { destruct Hm as [Hl Ha Hs Hi Ho Har]. split; cbn; try done; [|rewrite Hi, zlen_app; done].
    intros rid. rewrite seen_fold, Hs. setoid_rewrite elem_of_app. naive_solver. }
  pose proof (live_rows_split run) as Elive. assert (Forall (fun e => se_key e = key) (first_rows run)) as Hkf.
  { apply Forall_forall. intros e He. by apply Hkey, first_rows_sub. }
  rewrite (Hkey e0) by (rewrite Er; set_solver). unfold archive_rows in *. destruct (classify key) eqn:Ec.
  - destruct (retained_run key run Hk Keep Ec) as [_ Hno]. rewrite (Hno Archive), app_nil_r in * by done.
    destruct (retained_run key _ Hkf Keep Ec) as [Eall _]. rewrite Eall in Elive.
    assert (first_rows run = fresh_rows [] run) as Ef.
    { rewrite (fresh_rows_first [] key) by done. symmetry. apply filter_all. intros x _. apply negb_true_iff, bool_decide_eq_false. set_solver. }
    rewrite Elive, Ef in *. destruct (keep_fold_ok (DEDUP_CROSSOVER <? zlen run) run ms1 (mkDedup [] ∅ (ms_compares ms1)) [] (din ++ run) out aout)
      as (ms' & d' & E & Hm'); try done; [intros rid; destruct (_ <? _); set_solver|].
    rewrite E. cbn [mbind Result_bind]. eexists. split; [reflexivity|]. destruct Hm'. by split.
  - destruct (retained_run key run Hk Drop Ec) as [_ Hno]. destruct (retained_run key _ Hkf Drop Ec) as [_ Hno2].
    rewrite Elive, (Hno Archive), (Hno2 Keep) by done. cbn [List.filter]. rewrite !app_nil_r. eauto.
  - destruct (retained_run key run Hk Archive Ec) as [Eall _]. destruct (retained_run key _ Hkf Archive Ec) as [_ Hno2].
    rewrite Elive, (Hno2 Keep), Eall in * by done. cbn [List.filter] in *. rewrite app_nil_r in *.
    destruct Hm1 as [Hl Ha Hs Hi Ho Har].
    assert (exists done, archive_inv target chunk_bytes (ms_files ms1) (default (archive_new target) (ms_archive ms1)) done /\
      concat done ++ sw_entries (ar_writer (default (archive_new target) (ms_archive ms1))) = aout) as (done & Hai & Ea).
    { destruct (ms_archive ms1) as [aw|]; [done|]. subst. exists []. split; [apply archive_inv_new | done]. }
    destruct (archive_fold_ok run ms1 _ done out aout Hl Hai Ea Hp2) as (ms' & aw' & E & Har' & Hs' & Hi' & Ho' & Hl' & Hd').
    rewrite E. cbn [mbind Result_bind]. eexists. split; [reflexivity|]. split; cbn; try done.
    + intros rid. rewrite Hs'. apply Hs.
    + by rewrite Hi'.
    + by rewrite Ho'.
    + rewrite Har', Har, zlen_app. done.
Qed.
(** The leading run of a sorted sequence. *)
Lemma run_split e s :
  StronglySorted sort_le (e :: s) -> exists run rest, s = run ++ rest /\
    Forall (fun x => se_key x = se_key e) run /\ (forall x, x ∈ rest -> bytes_lt (se_key e) (se_key x)).
Proof.
  revert e. induction s as [|x s IH]; intros e Hs; [exists [], []; split_and!; [done | done | set_solver]|].
  apply StronglySorted_inv in Hs as [Hs Hf]. destruct (IH x Hs) as (run & rest & -> & Hr & Hx).
  destruct (decide (se_key x = se_key e)) as [E|E].
  - exists (x :: run), rest. split_and!; [done | |by rewrite <-E]. constructor; [done|]. by rewrite <-E.
  - exists [], (x :: run ++ rest). split_and!; [done | done|].
    assert (bytes_lt (se_key e) (se_key x)) as Hlt.
    { inversion Hf as [|? ? Hle _]; subst. apply entry_le_spec in Hle as [?|[? _]]; [done | congruence]. }
    intros y [->|[Hy|Hy]%elem_of_app]%elem_of_cons; [done| |etrans; [done | by apply Hx]].
    eapply Forall_forall in Hr; [|exact Hy]. cbn in Hr. by rewrite Hr.
Qed.

Lemma live_rows_app l k : (forall a b, a ∈ l -> b ∈ k -> se_key a <> se_key b) -> live_rows (l ++ k) = live_rows l ++ live_rows k.
Proof. intros H. unfold live_rows. by rewrite first_rows_app, List.filter_app. Qed.

Lemma merge_loop_ok fuel : forall s heap iters rests ms din out aout,
  heap_inv heap iters rests [] s -> merged ms din out aout -> (length s <= fuel)%nat ->
  pushable (out ++ live_rows s) -> pushable (aout ++ archive_rows s) ->
  exists ms', merge_loop fuel target chunk_bytes iters heap ms = Ok ms' /\
    merged ms' (din ++ s) (out ++ live_rows s) (aout ++ archive_rows s).
Proof.
  induction fuel as [|fuel IH]; intros s heap iters rests ms din out aout Hh Hm Hfu Hp1 Hp2.
  { destruct s; [|cbn in Hfu; lia]. destruct heap as [|h heap]; [|by apply heap_inv_pop in Hh as (? & ? & _)].
    exists ms. cbn. by rewrite !app_nil_r. }
  destruct s as [|e s].
  { destruct heap as [|h heap]; [|by apply heap_inv_pop in Hh as (? & ? & _)]. exists ms. cbn. by rewrite !app_nil_r. }
  destruct (run_split e s (hi_order _ _ _ _ _ Hh)) as (rt & rest & -> & Hk & Hlt).
  destruct (heap_inv_cons _ _ _ _ _ Hh) as (h & heap' & -> & <-). apply heap_inv_pop in Hh as (s' & E & Hh). injection E as <-.
  destruct (advance_inv _ _ _ _ _ _ Hh) as (iters1 & heap1 & rests1 & Ea & Hh1). cbn [merge_loop]. rewrite Ea. cbn [mbind Result_bind].
  cbn [length] in Hfu. rewrite length_app in Hfu.
  destruct (drain_run_ok rt fuel (se_key (he_entry h)) [he_entry h] heap1 iters1 rests1 rest Hh1) as (heap2 & iters2 & rests2 & Ed & Hh2);
    [lia | done | |].
  { intros x Hx Ex. destruct rest as [|y rest]; [done|]. injection Hx as ->. specialize (Hlt x). rewrite Ex in Hlt.
    eapply bytes_lt_irrefl, Hlt. set_solver. }
  rewrite Ed. cbn [mbind Result_bind]. change ([he_entry h] ++ rt) with (he_entry h :: rt). set (run := he_entry h :: rt) in *.
  assert (Forall (fun x => se_key x = se_key (he_entry h)) run) as Hkr by (by constructor).
  change (he_entry h :: rt ++ rest) with (run ++ rest) in *.
  assert (live_rows (run ++ rest) = live_rows run ++ live_rows rest) as El.
  { apply live_rows_app. intros a b Ha Hb. eapply Forall_forall in Hkr; [|exact Ha]. cbn in Hkr. rewrite Hkr. by apply bytes_lt_neq, Hlt. }
  assert (archive_rows (run ++ rest) = archive_rows run ++ archive_rows rest) as Ear by apply List.filter_app.
  rewrite El, Ear, !app_assoc in *.
  destruct (merge_run_ok ms din out aout run (se_key (he_entry h)) Hm) as (ms1 & Er & Hm1);
    [done | done | by apply pushable_app in Hp1 | by apply pushable_app in Hp2 |].
  rewrite Er. cbn [mbind Result_bind]. apply (IH rest heap2 iters2 rests2 ms1 (din ++ run)); try done. lia.
Qed.
Lemma finish_live_ok ms din out aout :
  merged ms din out aout -> pushable out ->
  exists ms' done, finish_live ms = Ok ms' /\ merged ms' din out aout /\ concat done = out /\
    Forall2 (chunk_holds target chunk_bytes (ms_files ms')) (ls_chunks (ms_live ms')) done /\
    StronglySorted Z.lt (map lc_id (ls_chunks (ms_live ms'))).
Proof.
  intros Hm Hp. pose proof Hm as [(done & Hl & Eo) Ha Hs Hi Ho Har]. destruct Hp as (H1 & H2 & H3). subst out. unfold finish_live.
  destruct (0 <? ls_len (ms_live ms)) eqn:E; bool_to_prop.
  - destruct (publish_chunk_ok target chunk_bytes Htarget _ _ _ _ Hl) as (c & file & Ep & Hl'); try done.
    { apply sum_est_pos. rewrite <-(li_len _ _ _ _ _ _ Hl). done. }
    rewrite Ep. cbn [mbind Result_bind]. eexists _, (done ++ [sw_entries (ls_writer (ms_live ms))]). split; [reflexivity|]. cbn [ms_live ms_files ls_chunks].
    split_and!; [|rewrite concat_app; cbn; by rewrite app_nil_r|apply Hl'|].
    2: { pose proof (li_ids _ _ _ _ _ _ Hl') as H. by apply sorted_app_inv in H as [? _]. }
    split; cbn; try done.
    + eexists. split; [exact Hl'|]. cbn. rewrite concat_app. cbn. by rewrite !app_nil_r.
    + destruct (ms_archive ms) as [aw|]; [|done]. destruct Ha as (ad & Hai & Ea). exists ad. split; [|done].
      eapply archive_inv_extends; [by eexists | done].
  - assert (sw_entries (ls_writer (ms_live ms)) = []) as Eb.
    { pose proof (sum_est_pos (sw_entries (ls_writer (ms_live ms)))) as Hsp. rewrite <-(li_len _ _ _ _ _ _ Hl) in Hsp.
      destruct (sw_entries _); [done|]. destruct Hsp as [_ Hsp]. assert (0 < ls_len (ms_live ms)) by by apply Hsp. lia. }
    exists ms, done. rewrite Eb, app_nil_r in *. split_and!; try done; [apply Hl|].
    pose proof (li_ids _ _ _ _ _ _ Hl) as H. by apply sorted_app_inv in H as [? _].
Qed.
Lemma finish_archive_ok ms din out aout :
  merged ms din out aout -> pushable aout ->
  exists ms', finish_archive ms = Ok ms' /\ extends (ms_files ms) (ms_files ms') /\ ms_live ms' = ms_live ms /\
    ms_seen ms' = ms_seen ms /\ ms_in ms' = ms_in ms /\ ms_out ms' = ms_out ms /\ ms_archived ms' = ms_archived ms /\
    exists id done, concat done = aout /\ archive_holds target chunk_bytes (ms_files ms') id done.
Proof.
  intros [_ Ha _ _ _ _] (H1 & H2 & H3). unfold finish_archive. destruct (ms_archive ms) as [aw|] eqn:Em.
  2: { subst aout. exists ms. split_and!; try done. exists 0, []. split; [done|]. by intros k rows Hk. }
  destruct Ha as (done & Hai & Ea). subst aout. destruct (0 <? ar_len aw) eqn:E; bool_to_prop.
  - pose proof (publish_archive_ok target chunk_bytes Htarget (ms_files ms) (ms_next_id ms) aw done Hai) as Hp.
    destruct (archive_id (ar_id aw) (ms_next_id ms)) as [id nid]. destruct Hp as (Hn & file & -> & Hh & Hw'); try done.
    { apply sum_est_pos. rewrite <-(ai_len _ _ _ _ _ Hai). done. }
    cbn [mbind Result_bind]. eexists. split; [reflexivity|]. cbn. split_and!; try done; [by eexists|].
    exists id, (done ++ [sw_entries (ar_writer aw)]). split; [|done]. rewrite concat_app. cbn. by rewrite app_nil_r.
  - assert (sw_entries (ar_writer aw) = []) as Eb.
    { pose proof (sum_est_pos (sw_entries (ar_writer aw))) as [_ Hsp]. rewrite <-(ai_len _ _ _ _ _ Hai) in Hsp.
      destruct (sw_entries _); [done|]. assert (0 < ar_len aw) by by apply Hsp. lia. }
    exists ms. split_and!; try done. rewrite Eb, app_nil_r.
    destruct (ar_id aw) as [id|] eqn:Ei.
    + exists id, done. split; [done|]. by apply (ai_chunks _ _ _ _ _ Hai).
    + exists 0, done. split; [done|]. destruct done as [|d ds]; [by intros k rows Hk|].
      by destruct (ai_id _ _ _ _ _ Hai).
Qed.
End Loop.

(* ------------------------------------------------------------------ *)
(** * Sizes *)

Lemma full_size_filter f l : full_size true (List.filter f l) <= full_size true l.
Proof.
  induction l as [|e l IH]; cbn; [done|]. pose proof (full_size_nonneg true [e]) as H. cbn in H.
  destruct (f e); cbn; lia.
Qed.
Lemma full_size_first l : full_size true (first_rows l) <= full_size true l.
Proof. induction l as [|e l IH]; cbn; [done|]. pose proof (full_size_filter (fun x => negb (same_slot e x)) (first_rows l)). lia. Qed.

Lemma merge_fits_sub chunk_bytes l k :
  full_size true k <= full_size true l -> (forall x, x ∈ k -> x ∈ l) -> merge_fits chunk_bytes l -> merge_fits chunk_bytes k.
Proof.
  intros Hs Hi [Hf|[Hc Ha]]; [left; unfold fits in *; lia|]. right. split; [done|].
  rewrite Forall_forall in *. auto.
Qed.

Section Lengths.
Context {SHA : Sha256}.

Lemma decode_entries_length v3 n : forall base c l c', decode_entries v3 n base c = Ok (l, c') -> length l = n.
Proof.
  induction n as [|n IH]; intros base c l c' H; cbn [decode_entries] in H; [by injection H as <- <-|].
  apply bind_dec_inv in H as (key & c1 & _ & H). apply bind_dec_inv in H as (e & c2 & _ & H).
  apply bind_dec_inv in H as (rest & c3 & Hr & H). injection H as <- <-. cbn. by rewrite (IH _ _ _ _ Hr).
Qed.
Lemma payload_entries_length b payload l : payload_entries b payload = Ok l -> length l = Z.to_nat (db_entries b).
Proof.
  unfold payload_entries. intros H. destruct (if db_v2 b then _ else _) as [start|]; [|done]. cbn [mbind Result_bind] in H.
  destruct (run_dec _ _) as [[out cur]|] eqn:Er; [|done]. cbn [mbind Result_bind] in H. destruct (negb (is_empty cur)); [done|].
  apply Ok_inj in H as <-. apply run_dec_Ok in Er as (c' & Er). apply bind_dec_inv in Er as (l' & c1 & Hd & Er).
  apply bind_dec_inv in Er as (c2 & c3 & _ & Er). injection Er as <- <- <-. by eapply decode_entries_length.
Qed.
Lemma seg_iter_length r l :
  seg_iter r = Ok l -> length l = foldr Nat.add 0%nat (map (fun b => Z.to_nat (db_entries b)) (sr_data r)).
Proof.
  unfold seg_iter. intros H. destruct (collect_result _ _) as [bs|] eqn:E; [|done]. apply Ok_inj in H as <-.
  revert bs E. induction (sr_data r) as [|b data IH]; intros bs E; cbn [collect_result map foldr] in *; [by apply Ok_inj in E as <-|].
  destruct (block_entries r b) as [es|] eqn:Eb; [|done]. cbn [mbind Result_bind] in E.
  unfold block_entries in Eb. destruct (block_raw r b) as [raw|]; [|done]. cbn [mbind Result_bind] in Eb.
  destruct (collect_result _ data) as [bs'|] eqn:Ec; [|done]. cbn [mbind Result_bind] in E. apply Ok_inj in E as <-.
  cbn. by rewrite length_app, (payload_entries_length _ _ _ Eb), (IH bs' eq_refl).
Qed.
End Lengths.

(* ------------------------------------------------------------------ *)
(** * The merge *)

Section MergeTheory.
Context {SHA : Sha256} {RP : RetentionPolicy}.
Implicit Types (inputs : list SegmentReader) (rows : list (list SegmentEntry)).

(** Inputs a merge accepts: ordered readers whose rows agree where they overlap. *)
Record mergeable (target chunk_bytes : Z) inputs rows : Prop := {
  mb_target : target <> 0;
  mb_iter : Forall2 (fun r l => seg_iter r = Ok l) inputs rows;
  mb_sorted : Forall (StronglySorted publish_lt) rows;
  mb_consistent : consistent (concat rows);
  mb_wf : Forall entry_wf (concat rows);
  mb_fits : merge_fits chunk_bytes (concat rows);
  mb_archive : NoDup (map version_of (archive_rows (concat rows))) }.

Lemma publish_lt_sort l : StronglySorted publish_lt l -> StronglySorted sort_le l.
Proof.
  induction 1 as [|a l Hs IH Hf]; constructor; [done|]. eapply Forall_impl; [exact Hf|].
  intros b H. apply entry_le_spec. destruct H as [H|[? ?]]; [by left | right; split; [done | lia]].
Qed.

(** The merged sequence: all input rows in publication order. *)
Definition merge_order rows : list SegmentEntry := sort_entries (concat rows).

Lemma merge_pushable target chunk_bytes inputs rows :
  mergeable target chunk_bytes inputs rows ->
  pushable chunk_bytes (live_rows (merge_order rows)) /\ pushable chunk_bytes (archive_rows (merge_order rows)).
Proof.
  intros [Ht Hi Hs Hc Hw Hf Ha]. pose proof (sort_entries_perm (concat rows)) as Hp. fold (merge_order rows) in Hp.
  pose proof (sort_entries_sorted (concat rows)) as Ho. fold (merge_order rows) in Ho.
  assert (consistent (merge_order rows)) as Hcs by (eapply consistent_perm; [symmetry; exact Hp | done]).
  assert (full_size true (merge_order rows) = full_size true (concat rows)) as Hsz by by apply full_size_perm.
  assert (forall x, x ∈ merge_order rows -> x ∈ concat rows) as Hin by (intros x; by rewrite Hp).
  assert (forall l, (forall x, x ∈ l -> x ∈ merge_order rows) -> Forall entry_wf l) as Hwf.
  { intros l Hl. rewrite Forall_forall in *. auto. }
  assert (forall x, x ∈ live_rows (merge_order rows) -> x ∈ merge_order rows) as Hlive.
  { intros x [Hx _]%elem_of_filter_bool. by apply first_rows_sub. }
  assert (forall x, x ∈ archive_rows (merge_order rows) -> x ∈ merge_order rows) as Harch by by intros x [Hx _]%elem_of_filter_bool.
  split; split_and!.
  - apply filter_sorted. by apply first_rows_sorted.
  - by apply Hwf.
  - eapply merge_fits_sub; [|intros x Hx; by apply Hin, Hlive|exact Hf]. rewrite <-Hsz.
    etrans; [apply full_size_filter | apply full_size_first].
  - apply sort_le_lt; [|by apply filter_sorted]. unfold archive_rows in *.
    assert (List.filter (retained Archive) (merge_order rows) ≡ₚ List.filter (retained Archive) (concat rows)) as E.
    { clear -Hp. induction Hp as [|x l k _ IH|x y l|l k j _ IH1 _ IH2]; cbn; [done| | |by rewrite IH1].
      - destruct (retained Archive x); by rewrite IH.
      - destruct (retained Archive x), (retained Archive y); try done. apply Permutation_swap. }
    by rewrite (Permutation_map version_of E).
  - by apply Hwf.
  - eapply merge_fits_sub; [|intros x Hx; by apply Hin, Harch|exact Hf]. rewrite <-Hsz. apply full_size_filter.
Qed.

Lemma rows_length inputs rows :
  Forall2 (fun r l => seg_iter r = Ok l) inputs rows ->
  length (concat rows) = foldr Nat.add 0%nat (map (fun b => Z.to_nat (db_entries b)) (concat (map sr_data inputs))).
Proof.
  induction 1 as [|r l inputs rows Hr _ IH]; [done|]. cbn. rewrite length_app, map_app, (seg_iter_length _ _ Hr), IH.
  rewrite foldr_app. clear. induction (map _ (sr_data r)) as [|n k IH]; [done|]. cbn. rewrite <-IH. lia.
Qed.

Lemma merge_ok target chunk_bytes inputs rows next_id :
  mergeable target chunk_bytes inputs rows -> let s := merge_order rows in
  exists stats chunks relocs files next_id' seen done,
    merge inputs target chunk_bytes next_id = Ok (stats, chunks, relocs, files, next_id') /\
    concat done = live_rows s /\ Forall2 (chunk_holds target chunk_bytes files) chunks done /\
    StronglySorted Z.lt (map lc_id chunks) /\ relocs = relocations_of seen chunks /\
    (forall rid, rid ∈ seen <-> rid <> mkReplicaId 0 /\ exists e, e ∈ concat rows /\ se_rid e = rid) /\
    entries_in stats = zlen (concat rows) /\ entries_out stats = zlen (live_rows s) /\
    entries_archived stats = zlen (archive_rows s) /\ segments_out stats = zlen chunks /\
    exists id adone, concat adone = archive_rows s /\ archive_holds target chunk_bytes files id adone.
Proof.
  intros Hm s. destruct (merge_pushable _ _ _ _ Hm) as [Hp1 Hp2]. fold s in Hp1, Hp2. destruct Hm as [Ht Hi Hs Hc Hw Hf Ha].
  pose proof (sort_entries_perm (concat rows)) as Hp. change (sort_entries (concat rows)) with s in Hp.
  destruct (heap_inv_init inputs rows s) as (iters & heap & rests & Eh & Hh); try done.
  { eapply Forall_impl; [exact Hs|]. apply publish_lt_sort. }
  { apply sort_entries_sorted. }
  { eapply consistent_perm; [symmetry; exact Hp | done]. }
  unfold merge. rewrite Eh. cbn [mbind Result_bind]. rewrite <-(rows_length _ _ Hi). set (ms0 := mkMergeState _ _ _ _ _ _ _ _ _).
  assert (merged target chunk_bytes ms0 [] [] []) as Hm0.
  { split; cbn; try done.
    - exists []. split; [|done]. split; cbn; try done; [split; try done; by right | intros _; right; cbn; lia | repeat constructor].
    - intros rid. split; [set_solver|]. intros (_ & e & H & _). by apply not_elem_of_nil in H. }
  destruct (merge_loop_ok target chunk_bytes Ht (S (length (concat rows))) s heap iters rests ms0 [] [] [] Hh Hm0) as (ms1 & E1 & Hm1); try done.
  { rewrite <-Hp. lia. }
  rewrite E1. cbn [mbind Result_bind app] in *.
  destruct (finish_live_ok target chunk_bytes Ht ms1 _ _ _ Hm1 Hp1) as (ms2 & done & E2 & Hm2 & Ed & Hch & Hids).
  rewrite E2. cbn [mbind Result_bind].
  destruct (finish_archive_ok target chunk_bytes Ht ms2 _ _ _ Hm2 Hp2) as (ms3 & E3 & Hx & El & Es & Ein & Eo & Ear & Harc).
  rewrite E3. cbn [mbind Result_bind]. rewrite El. destruct Hm2 as [_ _ Hsn Hin Hout Harv].
  eexists _, _, _, _, _, (ms_seen ms3), done. split; [reflexivity|]. cbn [entries_in entries_out entries_archived segments_out].
  split_and!; try done.
  - eapply Forall2_impl; [exact Hch|]. intros. by eapply chunk_holds_extends.
  - intros rid. rewrite Es, Hsn. by setoid_rewrite Hp.
  - rewrite Ein, Hin. unfold zlen. by rewrite Hp.
  - by rewrite Eo.
  - by rewrite Ear.
Qed.
(** A published chunk reads back its rows. *)
Lemma chunk_iter target chunk_bytes files c l :
  chunk_holds target chunk_bytes files c l -> seg_iter (lc_reader c) = Ok l.
Proof.
  intros (w & file & _ & (Hw & El & _ & _ & Hwf & Hfit & Hp) & Ho). pose proof (writer_flags target w Hw) as Hfl.
  destruct (published_open w l file (lc_size c) (lc_checksum c) (lc_anchors c)) as (r & blocks & Ho' & Hh & Hc & _); try done.
  rewrite Ho in Ho'. injection Ho' as <-. rewrite (seg_iter_ok w _ blocks Hh), Hc. f_equal.
  rewrite <-(map_id l) at 2. apply map_ext_in. intros e He. destruct Hw as [_ _ H34 [H4|Hr]].
  - by rewrite H34, H4.
  - rewrite <-El in Hr. eapply Forall_forall in Hr; [|apply list_elem_of_In, He]. unfold byte_row in Hr.
    unfold persisted. destruct (sw_v3 w); [done|]. destruct e. cbn in *. by rewrite Hr.
Qed.

Lemma anchors_of_bytes w id blocks acc : sw_v3 w = false -> anchors_of w id blocks acc = acc.
Proof.
  intros E. revert id acc. induction blocks as [|l blocks IH]; intros id acc; cbn [anchors_of]; [done|]. rewrite IH, E.
  generalize (enumerate l). intros k. revert acc. induction k as [|[c e] k IHk]; intros acc; cbn [fold_left]; [done|]. by rewrite IHk.
Qed.

(** The anchors of a published chunk. *)
Lemma chunk_anchors target chunk_bytes files c l :
  chunk_holds target chunk_bytes files c l ->
  (forall e, e ∈ l -> se_rid e <> mkReplicaId 0 -> exists a, a ∈ lc_anchors c /\ sa_rid a = se_rid e /\ se_seq e <= sa_seq a) /\
  forall a, a ∈ lc_anchors c -> exists e, e ∈ l /\ se_rid e = sa_rid a /\ sa_seq a = se_seq e /\
    get_entry_at (lc_reader c) (se_key e) (sa_rid a) (sa_block a) (sa_offset a) = Ok (Some e).
Proof.
  intros (w & file & _ & (Hw & El & _ & _ & Hwf & Hfit & Hp) & Ho). pose proof (writer_flags target w Hw) as Hfl.
  destruct Hw as [_ _ H34 [H4|Hr]].
  - destruct (published_anchors w l file _ _ _ _ Hfl Hwf Hfit H4 Hp Ho) as (_ & Hall & Ha). split.
    + intros e He Hn. specialize (Hall e He Hn). apply list_elem_of_In, in_map_iff in Hall as (a & Er & Hin).
      apply list_elem_of_In in Hin. exists a. split_and!; try done. destruct (Ha a Hin) as (x & _ & _ & _ & -> & Hmax & _).
      by apply Hmax.
    + intros a Hin. destruct (Ha a Hin) as (e & He & Er & _ & Eq & _ & Hg). by exists e.
  - rewrite <-El in Hr. split.
    + intros e He Hn. eapply Forall_forall in Hr; [|exact He]. done.
    + intros a Hin. exfalso. destruct (sw_v3 w) eqn:E3.
      * destruct (published_anchors w l file _ _ _ _ Hfl Hwf Hfit ltac:(congruence) Hp Ho) as (_ & _ & Ha).
        destruct (Ha a Hin) as (e & He & _ & Hn & _). eapply Forall_forall in Hr; [|exact He]. done.
      * destruct (published_open w l file _ _ _ (Build_publishable _ _ Hfl Hwf Hfit) Hp)
          as (r & blocks & _ & _ & _ & _ & _ & _ & _ & _ & Ea & _).
        rewrite Ea, (anchors_of_bytes _ _ _ _ E3), map_to_list_empty in Hin. by apply not_elem_of_nil in Hin.
Qed.

(** The relocation fold: every anchored replica maps to an anchor of highest sequence. *)
Definition anchored_inv (seen : list (Z * SegmentAnchor)) (m : Anchored) : Prop :=
  forall rid, match m !! rid with
    | Some (q, sid, b, o) => (exists a, (sid, a) ∈ seen /\ sa_rid a = rid /\ q = sa_seq a /\ b = sa_block a /\ o = sa_offset a) /\
        forall x, x ∈ seen -> sa_rid x.2 = rid -> sa_seq x.2 <= q
    | None => forall x, x ∈ seen -> sa_rid x.2 <> rid
    end.

Lemma anchor_slot_inv seen m sid a : anchored_inv seen m -> anchored_inv (seen ++ [(sid, a)]) (anchor_slot sid m a).
Proof.
  intros H rid. pose proof (H rid) as Hr. unfold anchor_slot.
  assert (forall y, y ∈ seen ++ [(sid, a)] <-> y ∈ seen \/ y = (sid, a)) as Hel.
  { intros y. by rewrite elem_of_app, list_elem_of_singleton. }
  destruct (decide (sa_rid a = rid)) as [E|E].
  - subst rid. assert (exists a0, (sid, a0) ∈ seen ++ [(sid, a)] /\ sa_rid a0 = sa_rid a /\ sa_seq a = sa_seq a0 /\
      sa_block a = sa_block a0 /\ sa_offset a = sa_offset a0) as Hex by (exists a; rewrite Hel; auto).
    destruct (m !! sa_rid a) as [[[[q s0] b] o]|] eqn:Em.
    + destruct Hr as [(a0 & Hin0 & Ha0) Hmax]. destruct (sa_seq a <=? q) eqn:Eq; bool_to_prop.
      * rewrite Em. split; [exists a0; rewrite Hel; auto|]. intros x [Hx| ->]%Hel Ex; [by apply Hmax | done].
      * rewrite lookup_insert_eq. split; [done|]. intros x [Hx| ->]%Hel Ex; [|done]. specialize (Hmax x Hx Ex). lia.
    + rewrite lookup_insert_eq. split; [done|]. intros x [Hx| ->]%Hel Ex; [|done]. by destruct (Hr x Hx).
  - assert (match m !! rid with
      | Some (q, sid0, b, o) => (exists a0, (sid0, a0) ∈ seen ++ [(sid, a)] /\ sa_rid a0 = rid /\ q = sa_seq a0 /\
            b = sa_block a0 /\ o = sa_offset a0) /\ forall x, x ∈ seen ++ [(sid, a)] -> sa_rid x.2 = rid -> sa_seq x.2 <= q
      | None => forall x, x ∈ seen ++ [(sid, a)] -> sa_rid x.2 <> rid end) as Hr'.
    { destruct (m !! rid) as [[[[q s0] b] o]|].
      - destruct Hr as [(a0 & Hin0 & Ha0) Hmax]. split; [exists a0; rewrite Hel; auto|].
        intros x [Hx| ->]%Hel Ex; [by apply Hmax | done].
      - intros x [Hx| ->]%Hel; [by apply Hr | done]. }
    destruct (m !! sa_rid a) as [[[[q s0] b] o]|]; [destruct (sa_seq a <=? q); [done|]|]; by rewrite lookup_insert_ne.
Qed.

Lemma anchored_of_inv chunks : anchored_inv (concat (map (fun c => map (pair (lc_id c)) (lc_anchors c)) chunks)) (anchored_of chunks).
Proof.
  unfold anchored_of. assert (anchored_inv [] ∅) as H0. { intros rid. rewrite lookup_empty. intros x Hx. by apply not_elem_of_nil in Hx. }
  change (concat (map (fun c => map (pair (lc_id c)) (lc_anchors c)) chunks)) with ([] ++ concat (map (fun c => map (pair (lc_id c)) (lc_anchors c)) chunks)).
  revert H0. generalize (@nil (Z * SegmentAnchor)) as seen, (∅ : Anchored) as m.
  induction chunks as [|c chunks IH]; intros seen m H; cbn [map concat fold_left]; [by rewrite app_nil_r|].
  rewrite app_assoc. apply IH. revert seen m H. induction (lc_anchors c) as [|a l IHl]; intros seen m H; cbn [map fold_left].
  { by rewrite app_nil_r. }
  rewrite (cons_middle (lc_id c, a) seen), app_assoc. apply IHl. by apply anchor_slot_inv.
Qed.
(** C33: compaction's merge succeeds on every set of ordered inputs that agree where they
    overlap and of which no archived version is in two, and its output is exactly the surviving
    rows: per (key, replica) the row of highest sequence over all inputs, unless it is a
    tombstone or its key is not kept, in publication order.  The output is cut into non-empty
    chunks below the cap (or of one row), each in its own file under an increasing id, and each
    file opens to its rows; every row of an archived key is in the archive's files, and the
    counters are exact.  The rows are within the formats' sizes and the block target is not
    zero.  The condition on the archive is empty under [KeepAll], which archives nothing; under
    a policy that archives, a version in two inputs makes the merge fail
    ([merge_archive_duplicate_fails]). *)
Theorem merge_correct target chunk_bytes inputs rows next_id :
  mergeable target chunk_bytes inputs rows -> let s := merge_order rows in
  exists stats chunks relocs files next_id' done,
    merge inputs target chunk_bytes next_id = Ok (stats, chunks, relocs, files, next_id') /\
    concat done = live_rows s /\ StronglySorted Z.lt (map lc_id chunks) /\
    Forall2 (fun c l => l <> [] /\ buffer_ok chunk_bytes l /\ seg_iter (lc_reader c) = Ok l /\
      exists file, (FSegment (lc_id c), file) ∈ files /\ open_segment file = Ok (lc_reader c)) chunks done /\
    (exists id adone, concat adone = archive_rows s /\ forall (k : nat) l, adone !! k = Some l ->
      exists w file res, (FArchive id (Z.of_nat k), file) ∈ files /\ publish_sorted_entries w l = Ok (file, res)) /\
    entries_in stats = zlen (concat rows) /\ entries_out stats = zlen (live_rows s) /\
    entries_archived stats = zlen (archive_rows s).
Proof.
  intros Hm s. destruct (merge_ok target chunk_bytes inputs rows next_id Hm) as
    (stats & chunks & relocs & files & next_id' & seen & done & E & Hd & Hc & Hi & _ & _ & H1 & H2 & H3 & _ & id & ad & Ha & Hah).
  exists stats, chunks, relocs, files, next_id', done. split_and!; try done.
  - eapply Forall2_impl; [exact Hc|]. intros c l H. pose proof (chunk_iter _ _ _ _ _ H) as Hit.
    destruct H as (w & file & Hin & (_ & _ & Hne & Hb & _) & Ho). split_and!; try done. by exists file.
  - exists id, ad. split; [done|]. intros k l Hk. destruct (Hah k l Hk) as (w & file & res & Hin & Hp).
    exists w, file, res. split; [done|]. apply Hp.
Qed.

(** C34: compaction preserves reads: over the merged output every (key, replica) answers
    what it answered over all the inputs, except that tombstones and the keys the policy
    does not keep answer nothing. *)
Theorem merge_preserves_reads target chunk_bytes inputs rows next_id stats chunks relocs files next_id' :
  mergeable target chunk_bytes inputs rows ->
  merge inputs target chunk_bytes next_id = Ok (stats, chunks, relocs, files, next_id') ->
  exists outs, collect_result seg_iter (map lc_reader chunks) = Ok outs /\ forall key rid,
    find_row key (Some rid) (concat outs) =
    (e ← find_row key (Some rid) (merge_order rows); if retained Keep e && negb (is_tombstone e) then Some e else None).
Proof.
  intros Hm E. destruct (merge_ok target chunk_bytes inputs rows next_id Hm) as
    (st & ch & rl & fl & ni & seen & done & E' & Hd & Hc & _). rewrite E in E'. injection E' as <- <- <- <- <-.
  exists done. split; [|intros key rid; rewrite Hd; apply find_row_live].
  clear -Hc. induction Hc as [|c l cs ls H _ IH]; [done|]. cbn [map collect_result]. by rewrite (chunk_iter _ _ _ _ _ H), IH.
Qed.

Lemma concat_anchors (chunks : list LiveChunk) sid a :
  (sid, a) ∈ concat (map (fun c => map (pair (lc_id c)) (lc_anchors c)) chunks) <->
  exists c, c ∈ chunks /\ lc_id c = sid /\ a ∈ lc_anchors c.
Proof.
  rewrite list_elem_of_In, in_concat. split.
  - intros (l & Hl & Hin). apply in_map_iff in Hl as (c & <- & Hc). apply in_map_iff in Hin as (a' & E & Ha). injection E as <- <-.
    exists c. by rewrite !list_elem_of_In.
  - intros (c & Hc & <- & Ha). apply list_elem_of_In in Hc. apply list_elem_of_In in Ha. exists (map (pair (lc_id c)) (lc_anchors c)).
    split; apply in_map_iff; [by exists c | by exists a].
Qed.

(** The relocation set is exact: a replica is in it iff an input row carries it; it is
    retired iff no row of it survives; otherwise its location is in an output chunk, and
    the placement-direct read there returns its surviving row of highest sequence. *)
Theorem merge_relocations target chunk_bytes inputs rows next_id stats chunks relocs files next_id' rid :
  mergeable target chunk_bytes inputs rows ->
  merge inputs target chunk_bytes next_id = Ok (stats, chunks, relocs, files, next_id') ->
  let live := live_rows (merge_order rows) in
  match relocs !! rid with
  | None => rid = mkReplicaId 0 \/ forall e, e ∈ concat rows -> se_rid e <> rid
  | Some None => rid <> mkReplicaId 0 /\ (exists e, e ∈ concat rows /\ se_rid e = rid) /\ forall e, e ∈ live -> se_rid e <> rid
  | Some (Some (sid, b, o)) => rid <> mkReplicaId 0 /\ exists c e, c ∈ chunks /\ lc_id c = sid /\ e ∈ live /\ se_rid e = rid /\
      (forall x, x ∈ live -> se_rid x = rid -> se_seq x <= se_seq e) /\
      get_entry_at (lc_reader c) (se_key e) rid b o = Ok (Some e)
  end.
Proof.
  intros Hm E live. destruct (merge_ok target chunk_bytes inputs rows next_id Hm) as
    (st & ch & rl & fl & ni & seen & done & E' & Hd & Hc & _ & Er & Hs & _). rewrite E in E'. injection E' as <- <- <- <- <-.
  fold live in Hd. pose proof (anchored_of_inv chunks rid) as Ha.
  assert (forall e, e ∈ live -> exists c l, c ∈ chunks /\ e ∈ l /\ chunk_holds target chunk_bytes files c l) as Hlive.
  { intros e He. rewrite <-Hd in He. apply list_elem_of_In, in_concat in He as (l & Hl & He). apply list_elem_of_In in Hl, He.
    apply list_elem_of_lookup in Hl as [i Hi]. destruct (Forall2_lookup_r _ _ _ _ _ Hc Hi) as (c & Hci & Hch).
    exists c, l. split_and!; try done. by eapply list_elem_of_lookup_2. }
  assert (forall q, relocs !! rid = Some q <-> rid ∈ seen /\ q = ('(_, sid, b, o) ← anchored_of chunks !! rid; Some (sid, b, o))) as Hrel.
  { intros q. rewrite Er. unfold relocations_of. rewrite lookup_set_to_map by (intros; done).
    split; [intros (y & Hy & Ey); injection Ey as -> <-; done | intros [? ->]; by exists rid]. }
  destruct (relocs !! rid) as [q|] eqn:Eq.
  2: { destruct (decide (rid ∈ seen)) as [Hin|Hin]; [discriminate (proj2 (Hrel _) (conj Hin eq_refl))|].
       destruct (decide (rid = mkReplicaId 0)); [by left|]. right. intros e He Ee. apply Hin, Hs. split; [done|]. by exists e. }
  destruct (proj1 (Hrel q) eq_refl) as [Hin ->]. apply Hs in Hin as [Hn Hex].
  destruct (anchored_of chunks !! rid) as [[[[sq sid] b] o]|]; cbn [mbind option_bind].
  - destruct Ha as [(a & Hain & Ear & -> & -> & ->) Hmax]. split; [done|]. apply concat_anchors in Hain as (c & Hcin & <- & Ha).
    apply list_elem_of_lookup in Hcin as [i Hi]. destruct (Forall2_lookup_l _ _ _ _ _ Hc Hi) as (l & Hl & Hch).
    destruct (chunk_anchors _ _ _ _ _ Hch) as [_ Hg]. destruct (Hg a Ha) as (e & He & Ee & Eseq & Hget).
    exists c, e. rewrite <-Ear. split_and!; try done; [by eapply list_elem_of_lookup_2| |].
    + rewrite <-Hd. apply list_elem_of_In, in_concat. exists l. split; apply list_elem_of_In; [by eapply list_elem_of_lookup_2 | done].
    + intros x Hx Ex. destruct (Hlive x Hx) as (c' & l' & Hc' & Hxl & Hch'). destruct (chunk_anchors _ _ _ _ _ Hch') as [Hall _].
      destruct (Hall x Hxl) as (a' & Ha' & Er' & Hle); [by rewrite Ex, Ear|]. rewrite <-Eseq. etrans; [exact Hle|].
      apply (Hmax (lc_id c', a')); [|cbn; congruence]. apply concat_anchors. by exists c'.
  - split_and!; [done | done|]. intros e He Ee. destruct (Hlive e He) as (c & l & Hcin & Hel & Hch).
    destruct (chunk_anchors _ _ _ _ _ Hch) as [Hall _]. destruct (Hall e Hel) as (a & Hain & Er' & _); [by rewrite Ee|].
    apply (Ha (lc_id c, a)); [apply concat_anchors; by exists c | cbn; congruence].
Qed.
End MergeTheory.

(* ------------------------------------------------------------------ *)
(** * Concrete merges *)

Lemma consistent_nodup l : NoDup (map version_of l) -> consistent l.
Proof.
  induction l as [|e l IH]; intros H a b Ha Hb E; [by apply not_elem_of_nil in Ha|]. cbn [map] in H. apply NoDup_cons in H as [He H].
  assert (forall x, x ∈ l -> version_of x ∈ map version_of l) as Hin.
  { intros x Hx. apply list_elem_of_In, in_map, list_elem_of_In, Hx. }
  apply elem_of_cons in Ha as [->|Ha], Hb as [->|Hb]; [done | | |by apply IH].
  - exfalso. apply He. rewrite E. by apply Hin.
  - exfalso. apply He. rewrite <-E. by apply Hin.
Qed.

(** A newer input over [sample_rows]: a byte row, an overwrite, and a replica's tombstone. *)
Definition newer_rows : list SegmentEntry :=
  [mkSegmentEntry [x61] [x09] 9 FLAG_PUT (mkReplicaId 0); mkSegmentEntry [x61] [] 8 FLAG_DELETE (mkReplicaId 2);
   mkSegmentEntry [x63] [x05] 7 FLAG_PUT (mkReplicaId 1)].
Definition newer_writer : SegmentWriter := mkSegmentWriter 48 newer_rows true true true.
Definition newer_reader : SegmentReader := Eval vm_compute in opened_reader newer_writer.
(** Keys [c] are archived. *)
Definition sample_policy : RetentionPolicy := fun key => if bytes_eqb key [x63] then Archive else Keep.

Lemma sample_mergeable :
  @mergeable toy_sha sample_policy 48 40 [sample_reader; newer_reader] [sample_rows; newer_rows].
Proof.
  split.
  - done.
  - repeat constructor; vm_compute; reflexivity.
  - repeat constructor; apply publish_order; split; vm_compute; reflexivity.
  - apply consistent_nodup, (bool_decide_eq_true_1 (NoDup (map version_of (concat [sample_rows; newer_rows])))). vm_compute. reflexivity.
  - repeat constructor; done.
  - left. vm_compute. reflexivity.
  - apply (bool_decide_eq_true_1 (NoDup (map version_of (@archive_rows sample_policy (concat [sample_rows; newer_rows]))))).
    vm_compute. reflexivity.
Qed.

Lemma merge_correct_witness :
  exists stats chunks relocs files next_id' done,
    @merge toy_sha sample_policy [sample_reader; newer_reader] 48 40 10 = Ok (stats, chunks, relocs, files, next_id') /\
    concat done = [mkSegmentEntry [x61] [x09] 9 FLAG_PUT (mkReplicaId 0); mkSegmentEntry [x61] [x01] 5 FLAG_PUT (mkReplicaId 1)] /\
    entries_archived stats = 1.
Proof.
  destruct (@merge_correct toy_sha sample_policy 48 40 _ _ 10 sample_mergeable)
    as (stats & chunks & relocs & files & ni & done & E & Hd & _ & _ & _ & _ & _ & Ha).
  exists stats, chunks, relocs, files, ni, done. split; [exact E|]. split; [exact Hd | exact Ha].
Defined.

Lemma merge_preserves_reads_witness :
  exists chunks outs, @collect_result _ _ (@seg_iter toy_sha) (map lc_reader chunks) = Ok outs /\
    find_row [x61] (Some (mkReplicaId 1)) (concat outs) = Some (mkSegmentEntry [x61] [x01] 5 FLAG_PUT (mkReplicaId 1)) /\
    find_row [x61] (Some (mkReplicaId 2)) (concat outs) = None.
Proof.
  destruct (@merge_ok toy_sha sample_policy 48 40 _ _ 10 sample_mergeable) as (stats & chunks & relocs & files & ni & _ & _ & E & _).
  destruct (@merge_preserves_reads toy_sha sample_policy 48 40 _ _ 10 stats chunks relocs files ni sample_mergeable E) as (outs & Ho & H).
  exists chunks, outs. split; [exact Ho|]. split; [exact (H [x61] (mkReplicaId 1)) | exact (H [x61] (mkReplicaId 2))].
Defined.

Lemma merge_relocations_witness :
  exists stats chunks (relocs : RelocationSet) files next_id',
    @merge toy_sha sample_policy [sample_reader; newer_reader] 48 40 10 = Ok (stats, chunks, relocs, files, next_id') /\
    relocs !! mkReplicaId 2 = Some None.
Proof.
  destruct (@merge_ok toy_sha sample_policy 48 40 _ _ 10 sample_mergeable) as (stats & chunks & relocs & files & ni & _ & _ & E & _).
  pose proof (@merge_relocations toy_sha sample_policy 48 40 _ _ 10 stats chunks relocs files ni (mkReplicaId 2) sample_mergeable E) as H.
  exists stats, chunks, relocs, files, ni. split; [exact E|]. cbv zeta in H.
  destruct (relocs !! mkReplicaId 2) as [[[[sid b] o]|]|]; [exfalso | reflexivity | exfalso].
  - destruct H as (_ & c & e & _ & _ & He & Er & _).
    change (e ∈ [mkSegmentEntry [x61] [x09] 9 FLAG_PUT (mkReplicaId 0); mkSegmentEntry [x61] [x01] 5 FLAG_PUT (mkReplicaId 1)]) in He.
    apply elem_of_cons in He as [->|He]; [discriminate Er|]. apply list_elem_of_singleton in He as ->. discriminate Er.
  - destruct H as [H|H]; [discriminate H|]. apply (H (mkSegmentEntry [x61] [x02] 4 FLAG_PUT (mkReplicaId 2))); [|reflexivity].
    apply list_elem_of_In. right. left. reflexivity.
Defined.

(** An archived row that two inputs hold, which a crash between the CURRENT publication
    and the WAL truncation leaves after the next flush, makes the merge fail with the
    duplicate-pair error of the publication: the archive path has no dedup. *)
Theorem merge_archive_duplicate_fails :
  exists (RP : RetentionPolicy) (r : SegmentReader) (e : SegmentEntry),
    @seg_iter toy_sha r = Ok [e] /\ entry_wf e /\
    (exists x, @merge toy_sha RP [r] 48 0 10 = Ok x) /\
    @merge toy_sha RP [r; r] 48 0 10 = Err (Invalid "duplicate (key, seq) pair") /\
    (exists x, @merge toy_sha KeepAll [r; r] 48 0 10 = Ok x).
Proof.
  set (e := mkSegmentEntry [x63] [x05] 7 FLAG_PUT (mkReplicaId 0)).
  exists (fun _ => Archive), (opened_reader (mkSegmentWriter 48 [e] true false false)), e.
  split_and!; [vm_compute; reflexivity | done | eexists; vm_compute; reflexivity | vm_compute; reflexivity |
    eexists; vm_compute; reflexivity].
Qed.
