(* ===== verification/DbState.v ===== *)
(** crates/storage/aikoql-v2/src/db.rs: the database state, and the monad its operations
    run in: the in-memory state, the directory and the WAL file, and the outcomes the
    file system gives to the writes still to come. *)

From stdpp Require Import gmap.
From S2P Require Import Prelude Cursor Format Identity Placement Disk Checkpoint Wal Memtable Segment.

Inductive DurabilityMode : Type := Sync | GroupCommit | Async.
#[global] Instance DurabilityMode_eq_dec : EqDecision DurabilityMode.
Proof. solve_decision. Defined.

(** [struct Config], the knobs the modelled paths read. *)
Record Config : Type := mkConfig {
  memtable_bytes : Z; block_target : Z; durability : DurabilityMode;
  l0_compact_trigger : Z; l0_tier_ratio : Z; compact_background : bool;
  merge_chunk_bytes : Z; checkpoint_bytes : Z; retain_log : bool }.

(** [struct State]. *)
Record State : Type := mkState {
  st_active : Memtable; st_immutables : list Memtable; st_segments : list SegmentReader;
  st_segment_records : list SegmentRecord; st_l0_count : Z; st_l0_bytes : Z; st_l1_bytes : Z;
  st_next_seq : Z; st_next_segment_id : Z; st_generation : Z; st_identity : IdentityMap;
  st_replicas : ReplicaMap; st_pending_identity : list IdentityRecord;
  st_pending_replicas : list ReplicaRecord; st_next_logical_id : Z; st_next_replica_id : Z;
  st_placements : Placements; st_pending_placements : list PlacementRecord;
  st_next_placement_generation : Z; st_bytes_since_checkpoint : Z; st_identity_floor : Z;
  st_replica_floor : Z; st_placement_floor : Z; st_identity_chain : Z; st_replica_chain : Z;
  st_placement_chain : Z; st_snapshot_pins : gset FileName }.

(** Field updates. *)
Definition upd_active (f : Memtable -> Memtable) (s : State) : State :=
  mkState (f (st_active s)) (st_immutables s) (st_segments s) (st_segment_records s) (st_l0_count s)
    (st_l0_bytes s) (st_l1_bytes s) (st_next_seq s) (st_next_segment_id s) (st_generation s)
    (st_identity s) (st_replicas s) (st_pending_identity s) (st_pending_replicas s) (st_next_logical_id s)
    (st_next_replica_id s) (st_placements s) (st_pending_placements s) (st_next_placement_generation s)
    (st_bytes_since_checkpoint s) (st_identity_floor s) (st_replica_floor s) (st_placement_floor s)
    (st_identity_chain s) (st_replica_chain s) (st_placement_chain s) (st_snapshot_pins s).
Definition upd_immutables (f : list Memtable -> list Memtable) (s : State) : State :=
  mkState (st_active s) (f (st_immutables s)) (st_segments s) (st_segment_records s) (st_l0_count s)
    (st_l0_bytes s) (st_l1_bytes s) (st_next_seq s) (st_next_segment_id s) (st_generation s)
    (st_identity s) (st_replicas s) (st_pending_identity s) (st_pending_replicas s) (st_next_logical_id s)
    (st_next_replica_id s) (st_placements s) (st_pending_placements s) (st_next_placement_generation s)
    (st_bytes_since_checkpoint s) (st_identity_floor s) (st_replica_floor s) (st_placement_floor s)
    (st_identity_chain s) (st_replica_chain s) (st_placement_chain s) (st_snapshot_pins s).
Definition upd_segments (f : list SegmentReader -> list SegmentReader) (s : State) : State :=
  mkState (st_active s) (st_immutables s) (f (st_segments s)) (st_segment_records s) (st_l0_count s)
    (st_l0_bytes s) (st_l1_bytes s) (st_next_seq s) (st_next_segment_id s) (st_generation s)
    (st_identity s) (st_replicas s) (st_pending_identity s) (st_pending_replicas s) (st_next_logical_id s)
    (st_next_replica_id s) (st_placements s) (st_pending_placements s) (st_next_placement_generation s)
    (st_bytes_since_checkpoint s) (st_identity_floor s) (st_replica_floor s) (st_placement_floor s)
    (st_identity_chain s) (st_replica_chain s) (st_placement_chain s) (st_snapshot_pins s).
Definition upd_segment_records (f : list SegmentRecord -> list SegmentRecord) (s : State) : State :=
  mkState (st_active s) (st_immutables s) (st_segments s) (f (st_segment_records s)) (st_l0_count s)
    (st_l0_bytes s) (st_l1_bytes s) (st_next_seq s) (st_next_segment_id s) (st_generation s)
    (st_identity s) (st_replicas s) (st_pending_identity s) (st_pending_replicas s) (st_next_logical_id s)
    (st_next_replica_id s) (st_placements s) (st_pending_placements s) (st_next_placement_generation s)
    (st_bytes_since_checkpoint s) (st_identity_floor s) (st_replica_floor s) (st_placement_floor s)
    (st_identity_chain s) (st_replica_chain s) (st_placement_chain s) (st_snapshot_pins s).
Definition upd_l0_count (f : Z -> Z) (s : State) : State :=
  mkState (st_active s) (st_immutables s) (st_segments s) (st_segment_records s) (f (st_l0_count s))
    (st_l0_bytes s) (st_l1_bytes s) (st_next_seq s) (st_next_segment_id s) (st_generation s)
    (st_identity s) (st_replicas s) (st_pending_identity s) (st_pending_replicas s) (st_next_logical_id s)
    (st_next_replica_id s) (st_placements s) (st_pending_placements s) (st_next_placement_generation s)
    (st_bytes_since_checkpoint s) (st_identity_floor s) (st_replica_floor s) (st_placement_floor s)
    (st_identity_chain s) (st_replica_chain s) (st_placement_chain s) (st_snapshot_pins s).
Definition upd_l0_bytes (f : Z -> Z) (s : State) : State :=
  mkState (st_active s) (st_immutables s) (st_segments s) (st_segment_records s) (st_l0_count s)
    (f (st_l0_bytes s)) (st_l1_bytes s) (st_next_seq s) (st_next_segment_id s) (st_generation s)
    (st_identity s) (st_replicas s) (st_pending_identity s) (st_pending_replicas s) (st_next_logical_id s)
    (st_next_replica_id s) (st_placements s) (st_pending_placements s) (st_next_placement_generation s)
    (st_bytes_since_checkpoint s) (st_identity_floor s) (st_replica_floor s) (st_placement_floor s)
    (st_identity_chain s) (st_replica_chain s) (st_placement_chain s) (st_snapshot_pins s).
Definition upd_l1_bytes (f : Z -> Z) (s : State) : State :=
  mkState (st_active s) (st_immutables s) (st_segments s) (st_segment_records s) (st_l0_count s) (st_l0_bytes s)
    (f (st_l1_bytes s)) (st_next_seq s) (st_next_segment_id s) (st_generation s) (st_identity s)
    (st_replicas s) (st_pending_identity s) (st_pending_replicas s) (st_next_logical_id s)
    (st_next_replica_id s) (st_placements s) (st_pending_placements s) (st_next_placement_generation s)
    (st_bytes_since_checkpoint s) (st_identity_floor s) (st_replica_floor s) (st_placement_floor s)
    (st_identity_chain s) (st_replica_chain s) (st_placement_chain s) (st_snapshot_pins s).
Definition upd_next_seq (f : Z -> Z) (s : State) : State :=
  mkState (st_active s) (st_immutables s) (st_segments s) (st_segment_records s) (st_l0_count s) (st_l0_bytes s)
    (st_l1_bytes s) (f (st_next_seq s)) (st_next_segment_id s) (st_generation s) (st_identity s)
    (st_replicas s) (st_pending_identity s) (st_pending_replicas s) (st_next_logical_id s)
    (st_next_replica_id s) (st_placements s) (st_pending_placements s) (st_next_placement_generation s)
    (st_bytes_since_checkpoint s) (st_identity_floor s) (st_replica_floor s) (st_placement_floor s)
    (st_identity_chain s) (st_replica_chain s) (st_placement_chain s) (st_snapshot_pins s).
Definition upd_next_segment_id (f : Z -> Z) (s : State) : State :=
  mkState (st_active s) (st_immutables s) (st_segments s) (st_segment_records s) (st_l0_count s) (st_l0_bytes s)
    (st_l1_bytes s) (st_next_seq s) (f (st_next_segment_id s)) (st_generation s) (st_identity s)
    (st_replicas s) (st_pending_identity s) (st_pending_replicas s) (st_next_logical_id s)
    (st_next_replica_id s) (st_placements s) (st_pending_placements s) (st_next_placement_generation s)
    (st_bytes_since_checkpoint s) (st_identity_floor s) (st_replica_floor s) (st_placement_floor s)
    (st_identity_chain s) (st_replica_chain s) (st_placement_chain s) (st_snapshot_pins s).
Definition upd_generation (f : Z -> Z) (s : State) : State :=
  mkState (st_active s) (st_immutables s) (st_segments s) (st_segment_records s) (st_l0_count s) (st_l0_bytes s)
    (st_l1_bytes s) (st_next_seq s) (st_next_segment_id s) (f (st_generation s)) (st_identity s)
    (st_replicas s) (st_pending_identity s) (st_pending_replicas s) (st_next_logical_id s)
    (st_next_replica_id s) (st_placements s) (st_pending_placements s) (st_next_placement_generation s)
    (st_bytes_since_checkpoint s) (st_identity_floor s) (st_replica_floor s) (st_placement_floor s)
    (st_identity_chain s) (st_replica_chain s) (st_placement_chain s) (st_snapshot_pins s).
Definition upd_identity (f : IdentityMap -> IdentityMap) (s : State) : State :=
  mkState (st_active s) (st_immutables s) (st_segments s) (st_segment_records s) (st_l0_count s) (st_l0_bytes s)
    (st_l1_bytes s) (st_next_seq s) (st_next_segment_id s) (st_generation s) (f (st_identity s))
    (st_replicas s) (st_pending_identity s) (st_pending_replicas s) (st_next_logical_id s)
    (st_next_replica_id s) (st_placements s) (st_pending_placements s) (st_next_placement_generation s)
    (st_bytes_since_checkpoint s) (st_identity_floor s) (st_replica_floor s) (st_placement_floor s)
    (st_identity_chain s) (st_replica_chain s) (st_placement_chain s) (st_snapshot_pins s).
Definition upd_replicas (f : ReplicaMap -> ReplicaMap) (s : State) : State :=
  mkState (st_active s) (st_immutables s) (st_segments s) (st_segment_records s) (st_l0_count s) (st_l0_bytes s)
    (st_l1_bytes s) (st_next_seq s) (st_next_segment_id s) (st_generation s) (st_identity s)
    (f (st_replicas s)) (st_pending_identity s) (st_pending_replicas s) (st_next_logical_id s)
    (st_next_replica_id s) (st_placements s) (st_pending_placements s) (st_next_placement_generation s)
    (st_bytes_since_checkpoint s) (st_identity_floor s) (st_replica_floor s) (st_placement_floor s)
    (st_identity_chain s) (st_replica_chain s) (st_placement_chain s) (st_snapshot_pins s).
Definition upd_pending_identity (f : list IdentityRecord -> list IdentityRecord) (s : State) : State :=
  mkState (st_active s) (st_immutables s) (st_segments s) (st_segment_records s) (st_l0_count s) (st_l0_bytes s)
    (st_l1_bytes s) (st_next_seq s) (st_next_segment_id s) (st_generation s) (st_identity s)
    (st_replicas s) (f (st_pending_identity s)) (st_pending_replicas s) (st_next_logical_id s)
    (st_next_replica_id s) (st_placements s) (st_pending_placements s) (st_next_placement_generation s)
    (st_bytes_since_checkpoint s) (st_identity_floor s) (st_replica_floor s) (st_placement_floor s)
    (st_identity_chain s) (st_replica_chain s) (st_placement_chain s) (st_snapshot_pins s).
Definition upd_pending_replicas (f : list ReplicaRecord -> list ReplicaRecord) (s : State) : State :=
  mkState (st_active s) (st_immutables s) (st_segments s) (st_segment_records s) (st_l0_count s) (st_l0_bytes s)
    (st_l1_bytes s) (st_next_seq s) (st_next_segment_id s) (st_generation s) (st_identity s)
    (st_replicas s) (st_pending_identity s) (f (st_pending_replicas s)) (st_next_logical_id s)
    (st_next_replica_id s) (st_placements s) (st_pending_placements s) (st_next_placement_generation s)
    (st_bytes_since_checkpoint s) (st_identity_floor s) (st_replica_floor s) (st_placement_floor s)
    (st_identity_chain s) (st_replica_chain s) (st_placement_chain s) (st_snapshot_pins s).
Definition upd_next_logical_id (f : Z -> Z) (s : State) : State :=
  mkState (st_active s) (st_immutables s) (st_segments s) (st_segment_records s) (st_l0_count s) (st_l0_bytes s)
    (st_l1_bytes s) (st_next_seq s) (st_next_segment_id s) (st_generation s) (st_identity s)
    (st_replicas s) (st_pending_identity s) (st_pending_replicas s) (f (st_next_logical_id s))
    (st_next_replica_id s) (st_placements s) (st_pending_placements s) (st_next_placement_generation s)
    (st_bytes_since_checkpoint s) (st_identity_floor s) (st_replica_floor s) (st_placement_floor s)
    (st_identity_chain s) (st_replica_chain s) (st_placement_chain s) (st_snapshot_pins s).
Definition upd_next_replica_id (f : Z -> Z) (s : State) : State :=
  mkState (st_active s) (st_immutables s) (st_segments s) (st_segment_records s) (st_l0_count s) (st_l0_bytes s)
    (st_l1_bytes s) (st_next_seq s) (st_next_segment_id s) (st_generation s) (st_identity s)
    (st_replicas s) (st_pending_identity s) (st_pending_replicas s) (st_next_logical_id s)
    (f (st_next_replica_id s)) (st_placements s) (st_pending_placements s) (st_next_placement_generation s)
    (st_bytes_since_checkpoint s) (st_identity_floor s) (st_replica_floor s) (st_placement_floor s)
    (st_identity_chain s) (st_replica_chain s) (st_placement_chain s) (st_snapshot_pins s).
Definition upd_placements (f : Placements -> Placements) (s : State) : State :=
  mkState (st_active s) (st_immutables s) (st_segments s) (st_segment_records s) (st_l0_count s) (st_l0_bytes s)
    (st_l1_bytes s) (st_next_seq s) (st_next_segment_id s) (st_generation s) (st_identity s)
    (st_replicas s) (st_pending_identity s) (st_pending_replicas s) (st_next_logical_id s)
    (st_next_replica_id s) (f (st_placements s)) (st_pending_placements s) (st_next_placement_generation s)
    (st_bytes_since_checkpoint s) (st_identity_floor s) (st_replica_floor s) (st_placement_floor s)
    (st_identity_chain s) (st_replica_chain s) (st_placement_chain s) (st_snapshot_pins s).
Definition upd_pending_placements (f : list PlacementRecord -> list PlacementRecord) (s : State) : State :=
  mkState (st_active s) (st_immutables s) (st_segments s) (st_segment_records s) (st_l0_count s) (st_l0_bytes s)
    (st_l1_bytes s) (st_next_seq s) (st_next_segment_id s) (st_generation s) (st_identity s)
    (st_replicas s) (st_pending_identity s) (st_pending_replicas s) (st_next_logical_id s)
    (st_next_replica_id s) (st_placements s) (f (st_pending_placements s)) (st_next_placement_generation s)
    (st_bytes_since_checkpoint s) (st_identity_floor s) (st_replica_floor s) (st_placement_floor s)
    (st_identity_chain s) (st_replica_chain s) (st_placement_chain s) (st_snapshot_pins s).
Definition upd_next_placement_generation (f : Z -> Z) (s : State) : State :=
  mkState (st_active s) (st_immutables s) (st_segments s) (st_segment_records s) (st_l0_count s) (st_l0_bytes s)
    (st_l1_bytes s) (st_next_seq s) (st_next_segment_id s) (st_generation s) (st_identity s)
    (st_replicas s) (st_pending_identity s) (st_pending_replicas s) (st_next_logical_id s)
    (st_next_replica_id s) (st_placements s) (st_pending_placements s) (f (st_next_placement_generation s))
    (st_bytes_since_checkpoint s) (st_identity_floor s) (st_replica_floor s) (st_placement_floor s)
    (st_identity_chain s) (st_replica_chain s) (st_placement_chain s) (st_snapshot_pins s).
Definition upd_bytes_since_checkpoint (f : Z -> Z) (s : State) : State :=
  mkState (st_active s) (st_immutables s) (st_segments s) (st_segment_records s) (st_l0_count s) (st_l0_bytes s)
    (st_l1_bytes s) (st_next_seq s) (st_next_segment_id s) (st_generation s) (st_identity s)
    (st_replicas s) (st_pending_identity s) (st_pending_replicas s) (st_next_logical_id s)
    (st_next_replica_id s) (st_placements s) (st_pending_placements s) (st_next_placement_generation s)
    (f (st_bytes_since_checkpoint s)) (st_identity_floor s) (st_replica_floor s) (st_placement_floor s)
    (st_identity_chain s) (st_replica_chain s) (st_placement_chain s) (st_snapshot_pins s).
Definition upd_identity_floor (f : Z -> Z) (s : State) : State :=
  mkState (st_active s) (st_immutables s) (st_segments s) (st_segment_records s) (st_l0_count s) (st_l0_bytes s)
    (st_l1_bytes s) (st_next_seq s) (st_next_segment_id s) (st_generation s) (st_identity s)
    (st_replicas s) (st_pending_identity s) (st_pending_replicas s) (st_next_logical_id s)
    (st_next_replica_id s) (st_placements s) (st_pending_placements s) (st_next_placement_generation s)
    (st_bytes_since_checkpoint s) (f (st_identity_floor s)) (st_replica_floor s) (st_placement_floor s)
    (st_identity_chain s) (st_replica_chain s) (st_placement_chain s) (st_snapshot_pins s).
Definition upd_replica_floor (f : Z -> Z) (s : State) : State :=
  mkState (st_active s) (st_immutables s) (st_segments s) (st_segment_records s) (st_l0_count s) (st_l0_bytes s)
    (st_l1_bytes s) (st_next_seq s) (st_next_segment_id s) (st_generation s) (st_identity s)
    (st_replicas s) (st_pending_identity s) (st_pending_replicas s) (st_next_logical_id s)
    (st_next_replica_id s) (st_placements s) (st_pending_placements s) (st_next_placement_generation s)
    (st_bytes_since_checkpoint s) (st_identity_floor s) (f (st_replica_floor s)) (st_placement_floor s)
    (st_identity_chain s) (st_replica_chain s) (st_placement_chain s) (st_snapshot_pins s).
Definition upd_placement_floor (f : Z -> Z) (s : State) : State :=
  mkState (st_active s) (st_immutables s) (st_segments s) (st_segment_records s) (st_l0_count s) (st_l0_bytes s)
    (st_l1_bytes s) (st_next_seq s) (st_next_segment_id s) (st_generation s) (st_identity s)
    (st_replicas s) (st_pending_identity s) (st_pending_replicas s) (st_next_logical_id s)
    (st_next_replica_id s) (st_placements s) (st_pending_placements s) (st_next_placement_generation s)
    (st_bytes_since_checkpoint s) (st_identity_floor s) (st_replica_floor s) (f (st_placement_floor s))
    (st_identity_chain s) (st_replica_chain s) (st_placement_chain s) (st_snapshot_pins s).
Definition upd_identity_chain (f : Z -> Z) (s : State) : State :=
  mkState (st_active s) (st_immutables s) (st_segments s) (st_segment_records s) (st_l0_count s) (st_l0_bytes s)
    (st_l1_bytes s) (st_next_seq s) (st_next_segment_id s) (st_generation s) (st_identity s)
    (st_replicas s) (st_pending_identity s) (st_pending_replicas s) (st_next_logical_id s)
    (st_next_replica_id s) (st_placements s) (st_pending_placements s) (st_next_placement_generation s)
    (st_bytes_since_checkpoint s) (st_identity_floor s) (st_replica_floor s) (st_placement_floor s)
    (f (st_identity_chain s)) (st_replica_chain s) (st_placement_chain s) (st_snapshot_pins s).
Definition upd_replica_chain (f : Z -> Z) (s : State) : State :=
  mkState (st_active s) (st_immutables s) (st_segments s) (st_segment_records s) (st_l0_count s) (st_l0_bytes s)
    (st_l1_bytes s) (st_next_seq s) (st_next_segment_id s) (st_generation s) (st_identity s)
    (st_replicas s) (st_pending_identity s) (st_pending_replicas s) (st_next_logical_id s)
    (st_next_replica_id s) (st_placements s) (st_pending_placements s) (st_next_placement_generation s)
    (st_bytes_since_checkpoint s) (st_identity_floor s) (st_replica_floor s) (st_placement_floor s)
    (st_identity_chain s) (f (st_replica_chain s)) (st_placement_chain s) (st_snapshot_pins s).
Definition upd_placement_chain (f : Z -> Z) (s : State) : State :=
  mkState (st_active s) (st_immutables s) (st_segments s) (st_segment_records s) (st_l0_count s) (st_l0_bytes s)
    (st_l1_bytes s) (st_next_seq s) (st_next_segment_id s) (st_generation s) (st_identity s)
    (st_replicas s) (st_pending_identity s) (st_pending_replicas s) (st_next_logical_id s)
    (st_next_replica_id s) (st_placements s) (st_pending_placements s) (st_next_placement_generation s)
    (st_bytes_since_checkpoint s) (st_identity_floor s) (st_replica_floor s) (st_placement_floor s)
    (st_identity_chain s) (st_replica_chain s) (f (st_placement_chain s)) (st_snapshot_pins s).

(* ------------------------------------------------------------------ *)
(** * The database and its environment *)

(** What the file system does with one write: it completes, or fails after [landed] bytes
    of an append.  A crash at a write is the directory and WAL a failure there leaves. *)
Inductive IoOutcome : Type := IoOk | IoFail (landed : Z).

(** What is done to the WAL file between two [sync_all]: the kernel of the operating system
    may hold it in memory, and a power loss keeps a prefix of it, the last append cut at any
    byte. *)
Inductive WalWrite : Type := WAppend (bs : bytes) | WSetLen (n : Z).
Definition wal_apply (wal : bytes) (w : WalWrite) : bytes :=
  match w with WAppend bs => wal ++ bs | WSetLen n => ztake n wal end.

(** The environment of a database: the outcomes of the writes to come (all complete when the
    list is spent), the WAL as the last sync left it on the disk, and the writes since. *)
Record IoEnv : Type := mkIo { io_next : list IoOutcome; io_synced : bytes; io_pending : list WalWrite }.

(** The WAL file after a power loss that lets [n] of the unsynced writes reach the disk, and
    [cut] bytes of the next one if that is an append. *)
Definition power_loss (io : IoEnv) (n : nat) (cut : Z) : bytes :=
  fold_left wal_apply (take n (io_pending io)) (io_synced io) ++
  match io_pending io !! n with Some (WAppend bs) => ztake cut bs | _ => [] end.

(** [struct Db]: the state, the directory, the WAL file as the process sees it, its
    environment, and the control flags. *)
Record Db : Type := mkDb {
  db_state : State; db_dir : Dir; db_wal : bytes; db_io : IoEnv;
  db_fenced : option string; db_wal_fail_next : bool; db_compactor_pending : bool }.

Definition upd_state (f : State -> State) (d : Db) : Db :=
  mkDb (f (db_state d)) (db_dir d) (db_wal d) (db_io d) (db_fenced d) (db_wal_fail_next d) (db_compactor_pending d).
Definition upd_dir (f : Dir -> Dir) (d : Db) : Db :=
  mkDb (db_state d) (f (db_dir d)) (db_wal d) (db_io d) (db_fenced d) (db_wal_fail_next d) (db_compactor_pending d).
Definition upd_wal (f : bytes -> bytes) (d : Db) : Db :=
  mkDb (db_state d) (db_dir d) (f (db_wal d)) (db_io d) (db_fenced d) (db_wal_fail_next d) (db_compactor_pending d).
Definition upd_io (f : IoEnv -> IoEnv) (d : Db) : Db :=
  mkDb (db_state d) (db_dir d) (db_wal d) (f (db_io d)) (db_fenced d) (db_wal_fail_next d) (db_compactor_pending d).
Definition upd_fenced (f : option string -> option string) (d : Db) : Db :=
  mkDb (db_state d) (db_dir d) (db_wal d) (db_io d) (f (db_fenced d)) (db_wal_fail_next d) (db_compactor_pending d).
Definition upd_wal_fail_next (f : bool -> bool) (d : Db) : Db :=
  mkDb (db_state d) (db_dir d) (db_wal d) (db_io d) (db_fenced d) (f (db_wal_fail_next d)) (db_compactor_pending d).
Definition upd_compactor_pending (f : bool -> bool) (d : Db) : Db :=
  mkDb (db_state d) (db_dir d) (db_wal d) (db_io d) (db_fenced d) (db_wal_fail_next d) (f (db_compactor_pending d)).

(** An operation on the database: an error keeps the changes made before it, as [?] does. *)
Definition M (A : Type) : Type := Db -> Db * Result A.
#[global] Instance M_ret : MRet M := fun A a d => (d, Ok a).
#[global] Instance M_bind : MBind M := fun A B f m d =>
  let '(d, r) := m d in match r with Ok a => f a d | Err e => (d, Err e) end.

Definition throw {A} (e : FormatError) : M A := fun d => (d, Err e).
Definition lift {A} (r : Result A) : M A := fun d => (d, r).
Definition get_db : M Db := fun d => (d, Ok d).
Definition gets {A} (f : State -> A) : M A := fun d => (d, Ok (f (db_state d))).
Definition modify (f : State -> State) : M unit := fun d => (upd_state f d, Ok tt).
Definition modify_db (f : Db -> Db) : M unit := fun d => (f d, Ok tt).
Definition when (b : bool) (m : M unit) : M unit := if b then m else mret tt.
Fixpoint for_each {A} (l : list A) (f : A -> M unit) : M unit :=
  match l with [] => mret tt | a :: l => _ ← f a; for_each l f end.

(** The next write's outcome. *)
Definition next_io : M IoOutcome := fun d =>
  match io_next (db_io d) with
  | [] => (d, Ok IoOk)
  | o :: l => (upd_io (fun io => mkIo l (io_synced io) (io_pending io)) d, Ok o)
  end.

(** [publish_atomic]: write a temporary file, fsync, rename; a failure leaves the target as
    it was. *)
Definition publish_atomic (n : FileName) (bs : bytes) : M unit :=
  o ← next_io;
  match o with
  | IoOk => modify_db (upd_dir (<[n := bs]>))
  | IoFail _ => throw (Io "publish")
  end.

(** [remove_file] where the caller only warns. *)
Definition remove_file (n : FileName) : M unit :=
  o ← next_io;
  match o with
  | IoOk => modify_db (upd_dir (delete n))
  | IoFail _ => mret tt
  end.

(** The WAL file: [seek(End(0))] with [write_all], [set_len], [sync_all].  The first two are
    seen at once and wait for the third to be on the disk. *)
Definition wal_write (w : WalWrite) (d : Db) : Db :=
  upd_io (fun io => mkIo (io_next io) (io_synced io) (io_pending io ++ [w])) (upd_wal (fun wal => wal_apply wal w) d).
Definition wal_flushed (d : Db) : Db := upd_io (fun io => mkIo (io_next io) (db_wal d) []) d.
Definition wal_append (bs : bytes) : M unit :=
  o ← next_io;
  match o with
  | IoOk => modify_db (wal_write (WAppend bs))
  | IoFail landed => _ ← modify_db (wal_write (WAppend (ztake landed bs))); throw (Io "WAL append")
  end.
Definition wal_set_len (n : Z) : M unit :=
  o ← next_io;
  match o with
  | IoOk => modify_db (wal_write (WSetLen n))
  | IoFail _ => throw (Io "WAL truncate")
  end.
Definition wal_sync : M unit :=
  o ← next_io;
  match o with IoOk => modify_db wal_flushed | IoFail _ => throw (Io "WAL sync") end.
