(* ===== verification/Db.v ===== *)
(** crates/storage/aikoql-v2/src/db.rs: flush in its three phases, the checkpoint protocol,
    compaction in its three phases, the write path with group commit, and the point
    reads. *)

From stdpp Require Import gmap sorting.
From S2P Require Import Prelude Cursor Format Identity Placement Disk Checkpoint Wal Memtable Segment Compaction DbState.

Section Db.
Context {SHA : Sha256}.

(* ------------------------------------------------------------------ *)
(** * Placement of object rows *)

(** [apply_object_placement]: a write moves the replica to the memtable. *)
Definition apply_placement (rid : ReplicaId) (p : Placement) : M unit :=
  placements ← gets st_placements;
  '(placements, _) ← lift (merge_placement placements rid p);
  _ ← modify (upd_placements (fun _ => placements));
  modify (upd_pending_placements (fun l => l ++ [mkPlacementRecord rid p])).
Definition apply_object_placement (rid : ReplicaId) : M unit :=
  pgen ← gets st_next_placement_generation;
  _ ← modify (upd_next_placement_generation (fun g => g + 1));
  apply_placement rid (PMemtable pgen).

(* ------------------------------------------------------------------ *)
(** * Flush *)

(** [struct FlushPlan], [struct FlushBuild]. *)
Record FlushPlan : Type := mkFlushPlan {
  fp_immutables : list Memtable; fp_segment_ids : list Z; fp_wal_truncate_len : Z }.
Record FlushBuild : Type := mkFlushBuild {
  fb_new_segments : list SegmentReader; fb_records : list SegmentRecord; fb_anchors : Anchored }.

(** [rotate]. *)
Definition rotate_active : M unit :=
  active ← gets st_active;
  when (negb (mt_is_empty active))
    (_ ← modify (upd_active (fun _ => mt_new));
     modify (upd_immutables (fun l => l ++ [active]))).
Definition rotate : M unit := rotate_active.

(** [flush_phase_a]: rotate, detach the immutables, reserve their ids, capture the WAL
    length. *)
Definition flush_phase_a : M (option FlushPlan) :=
  _ ← rotate_active;
  immutables ← gets st_immutables;
  match immutables with
  | [] => mret None
  | _ =>
      _ ← modify (upd_immutables (fun _ => []));
      base ← gets st_next_segment_id;
      _ ← modify (upd_next_segment_id (fun n => n + zlen immutables));
      d ← get_db;
      mret (Some (mkFlushPlan immutables (seqZ base (zlen immutables)) (zlen (db_wal d))))
  end.

(** The row of a memtable entry, as the flush pushes it. *)
Definition flush_row (x : bytes * Z * MemEntry) : SegmentEntry :=
  let '(key, seq, e) := x in
  let '(value, rid) := into_parts e in
  mkSegmentEntry key (default [] value) seq (match value with Some _ => FLAG_PUT | None => FLAG_DELETE end) rid.
Definition flush_writer (block_target : Z) (mem : Memtable) : SegmentWriter :=
  fold_left sw_push (map flush_row (mt_entries mem))
    (if has_identity mem then sw_new_v4 block_target else sw_new_v2 block_target).

(** The manifest record of a segment just published. *)
Definition record_of (id level : Z) (r : SegmentReader) (file_size checksum : Z) : SegmentRecord :=
  mkSegmentRecord id level (sr_key_min r) (sr_key_max r) (sr_seq_lo r) (sr_seq_hi r) (sr_entry_count r)
    file_size checksum.

(** [flush_phase_b]: one immutable, then all of them. *)
Definition flush_one (cfg : Config) (b : FlushBuild) (mem : Memtable) (id : Z) : M FlushBuild :=
  '(file, (file_size, checksum, anchors)) ← lift (publish_with_anchors_sorted (flush_writer (block_target cfg) mem)).2;
  _ ← publish_atomic (FSegment id) file;
  d ← get_db;
  bs ← lift (read_file (db_dir d) (FSegment id));
  reader ← lift (open_segment bs);
  mret (mkFlushBuild (fb_new_segments b ++ [reader]) (fb_records b ++ [record_of id 0 reader file_size checksum])
          (fold_left (anchor_slot id) anchors (fb_anchors b))).
Fixpoint flush_all (cfg : Config) (b : FlushBuild) (work : list (Memtable * Z)) : M FlushBuild :=
  match work with
  | [] => mret b
  | (mem, id) :: work => b ← flush_one cfg b mem id; flush_all cfg b work
  end.
Definition flush_phase_b (cfg : Config) (plan : FlushPlan) : M FlushBuild :=
  flush_all cfg (mkFlushBuild [] [] ∅) (zip (fp_immutables plan) (fp_segment_ids plan)).

(** The anchors in replica order, each with a fresh placement generation. *)
Definition anchor_le (a b : ReplicaId * (Z * Z * Z * Z)) : Prop := rid_val a.1 <= rid_val b.1.
#[global] Instance anchor_le_dec a b : Decision (anchor_le a b).
Proof. unfold anchor_le. apply _. Defined.
Definition place_anchor (a : ReplicaId * (Z * Z * Z * Z)) : M unit :=
  let '(rid, (_, segment_id, block_id, entry_offset)) := a in
  pgen ← gets st_next_placement_generation;
  _ ← modify (upd_next_placement_generation (fun g => g + 1));
  apply_placement rid (PSegment (mkPhysicalLocation segment_id block_id entry_offset pgen)).

(** The delta logs of a publication window. *)
Definition publish_identity_log : M unit :=
  recs ← gets st_pending_identity;
  gen ← gets st_generation;
  when (match recs with [] => false | _ => true end)
    (let log := mkIdentityLog FORMAT_VERSION gen recs in
     _ ← modify (upd_pending_identity (fun _ => []));
     _ ← modify (upd_bytes_since_checkpoint (fun n => n + identity_log_encoded_len log));
     _ ← publish_atomic (FIdentityLog gen) (identity_log_encode log);
     _ ← modify (upd_identity_floor (fun _ => gen));
     modify (upd_identity_chain (fun c => chain_extend c gen))).
Definition publish_replica_log : M unit :=
  recs ← gets st_pending_replicas;
  gen ← gets st_generation;
  when (match recs with [] => false | _ => true end)
    (let log := mkReplicaLog FORMAT_VERSION gen recs in
     _ ← modify (upd_pending_replicas (fun _ => []));
     _ ← modify (upd_bytes_since_checkpoint (fun n => n + replica_log_encoded_len log));
     _ ← publish_atomic (FReplicaLog gen) (replica_log_encode log);
     _ ← modify (upd_replica_floor (fun _ => gen));
     modify (upd_replica_chain (fun c => chain_extend c gen))).
Definition publish_placement_log (recs : list PlacementRecord) : M unit :=
  gen ← gets st_generation;
  when (match recs with [] => false | _ => true end)
    (let log := mkPlacementLog FORMAT_VERSION gen recs in
     _ ← modify (upd_bytes_since_checkpoint (fun n => n + placement_log_encoded_len log));
     _ ← publish_atomic (FPlacementLog gen) (placement_log_encode log);
     _ ← modify (upd_placement_floor (fun _ => gen));
     modify (upd_placement_chain (fun c => chain_extend c gen))).

(** The manifest of the state's generation, and the pair's publication. *)
Definition manifest_of (s : State) (segments : list SegmentRecord) : Manifest :=
  mkManifest FORMAT_VERSION (st_generation s) segments [] (st_identity_floor s) (st_replica_floor s)
    (st_placement_floor s) (st_identity_chain s) (st_replica_chain s) (st_placement_chain s).
Definition publish_pair (segments : list SegmentRecord) : M unit :=
  s ← gets id;
  _ ← publish_atomic (FManifest (st_generation s)) (manifest_encode (manifest_of s segments));
  publish_atomic FCurrent (current_encode (mkCurrent FORMAT_VERSION (st_generation s))).

(** [write_checkpoint]: publish, verify by reading back, prune. *)
Definition write_checkpoint : M unit :=
  s ← gets id;
  let c := checkpoint_from_state (st_generation s) (st_identity s) (st_replicas s) (st_placements s)
    (st_next_logical_id s) (st_next_replica_id s) (st_next_placement_generation s)
    (st_identity_chain s) (st_replica_chain s) (st_placement_chain s) in
  _ ← publish_atomic (FCheckpoint (st_generation s)) (write_streamed c);
  d ← get_db;
  bs ← lift (read_file (db_dir d) (FCheckpoint (st_generation s)));
  read_back ← lift (checkpoint_decode bs);
  if negb (bool_decide (read_back = c))
  then throw (Corrupt "checkpoint read-back differs from the published bytes") else
  _ ← for_each (List.filter (prunable (st_generation s) (st_snapshot_pins s)) (read_dir (db_dir d))) remove_file;
  modify (upd_bytes_since_checkpoint (fun _ => 0)).
Definition maybe_checkpoint (cfg : Config) : M unit :=
  n ← gets st_bytes_since_checkpoint;
  when ((0 <? checkpoint_bytes cfg) && (checkpoint_bytes cfg <=? n)) write_checkpoint.

(** The WAL truncation of phase C: keep the frames appended since phase A. *)
Definition truncate_wal (cfg : Config) (wal_truncate_len : Z) : M unit :=
  d ← get_db;
  let wal := db_wal d in
  let tail := if wal_truncate_len <? zlen wal then zdrop wal_truncate_len wal else [] in
  _ ← when (retain_log cfg && (0 <? wal_truncate_len))
        (let covered := ztake wal_truncate_len wal in
         '(first, _) ← lift (decode_frame covered);
         publish_atomic (FRlog (frame_seq first)) covered);
  _ ← wal_set_len 0;
  _ ← when (match tail with [] => false | _ => true end) (wal_append tail);
  wal_sync.

(** [flush_phase_c]. *)
Definition flush_phase_c (cfg : Config) (build : FlushBuild) (wal_truncate_len : Z) : M unit :=
  _ ← modify (upd_l0_count (fun n => n + zlen (fb_records build)));
  _ ← modify (upd_l0_bytes (fun n => n + foldr Z.add 0 (map file_size (fb_records build))));
  _ ← modify (upd_segment_records (fun l => l ++ fb_records build));
  _ ← for_each (merge_sort anchor_le (map_to_list (fb_anchors build))) place_anchor;
  _ ← modify (upd_generation (fun g => g + 1));
  _ ← publish_identity_log;
  _ ← publish_replica_log;
  recs ← gets st_pending_placements;
  _ ← modify (upd_pending_placements (fun _ => []));
  _ ← publish_placement_log recs;
  records ← gets st_segment_records;
  _ ← publish_pair records;
  _ ← truncate_wal cfg wal_truncate_len;
  _ ← modify (upd_segments (fun l => l ++ fb_new_segments build));
  maybe_checkpoint cfg.

(** [flush_entry]: the three phases; the pipe keeps two flushes apart. *)
Definition flush (cfg : Config) : M unit :=
  plan ← flush_phase_a;
  match plan with
  | None => mret tt
  | Some plan =>
      build ← flush_phase_b cfg plan;
      flush_phase_c cfg build (fp_wal_truncate_len plan)
  end.

(* ------------------------------------------------------------------ *)
(** * Compaction *)

(** [scan_l0]: L0 segments, L0 bytes, L1 bytes. *)
Definition scan_l0 (records : list SegmentRecord) : Z * Z * Z :=
  fold_left (fun '(n, l0, l1) r =>
      if level r =? 0 then (n + 1, l0 + file_size r, l1) else (n, l0, l1 + file_size r)) records (0, 0, 0).

(** Phase C: a staged file moves into the data directory under a fresh id. *)
Definition staged_file (files : Files) (n : FileName) : M bytes :=
  match list_find (fun f => f.1 = n) files with
  | Some (_, (_, bs)) => mret bs
  | None => throw (Io "rename staged segment")
  end.
Definition fresh_segment_id : M Z :=
  id ← gets st_next_segment_id;
  _ ← modify (upd_next_segment_id (fun n => n + 1));
  mret id.
Fixpoint rename_chunks (files : Files) (chunks : list LiveChunk) (remap : gmap Z Z)
    : M (list LiveChunk * gmap Z Z) :=
  match chunks with
  | [] => mret ([], remap)
  | c :: chunks =>
      new_id ← fresh_segment_id;
      bs ← staged_file files (FSegment (lc_id c));
      _ ← publish_atomic (FSegment new_id) bs;
      '(cs, remap) ← rename_chunks files chunks (<[lc_id c := new_id]> remap);
      mret (mkLiveChunk new_id (lc_reader c) (lc_size c) (lc_checksum c) (lc_anchors c) :: cs, remap)
  end.
Fixpoint rename_archives (files : Files) (remap : gmap Z Z) : M (gmap Z Z) :=
  match files with
  | [] => mret remap
  | (FArchive old_id chunk, bs) :: files =>
      new_id ← match remap !! old_id with Some id => mret id | None => fresh_segment_id end;
      _ ← publish_atomic (FArchive new_id chunk) bs;
      rename_archives files (<[old_id := new_id]> remap)
  | _ :: files => rename_archives files remap
  end.

(** The relocation set under the real ids. *)
Definition remap_relocation (remap : gmap Z Z) (m : RelocationSet) (kv : ReplicaId * Relocation) : Result RelocationSet :=
  match kv with
  | (rid, None) => Ok (<[rid := None]> m)
  | (rid, Some (sid, b, o)) =>
      match remap !! sid with
      | Some new_id => Ok (<[rid := Some (new_id, b, o)]> m)
      | None => Err (Corrupt "relocation names a staged segment id the remap lacks")
      end
  end.
Definition remap_relocations (remap : gmap Z Z) (relocations : RelocationSet) : Result RelocationSet :=
  fold_result (remap_relocation remap) ∅ (map_to_list relocations).

(** The Segment-placed replicas in order, and the placement record of each move. *)
Definition is_segment_placed (p : Placement) : bool := match p with PSegment _ => true | _ => false end.
Definition rid_order (a b : ReplicaId) : Prop := rid_val a <= rid_val b.
#[global] Instance rid_order_dec a b : Decision (rid_order a b).
Proof. unfold rid_order. apply _. Defined.
Definition segment_rids (placements : Placements) : list ReplicaId :=
  merge_sort rid_order (map fst (List.filter (fun kv => is_segment_placed kv.2) (map_to_list placements))).
Fixpoint relocate (relocations : RelocationSet) (rids : list ReplicaId) (recs : list PlacementRecord)
    : M (list PlacementRecord) :=
  match rids with
  | [] => mret recs
  | rid :: rids =>
      pgen ← gets st_next_placement_generation;
      _ ← modify (upd_next_placement_generation (fun g => g + 1));
      p ← match relocations !! rid with
          | Some (Some (sid, b, o)) => mret (PSegment (mkPhysicalLocation sid b o pgen))
          | Some None => mret (PRetired pgen)
          | None => throw (Corrupt "segment-placed replica absent from the relocation set")
          end;
      relocate relocations rids (recs ++ [mkPlacementRecord rid p])
  end.

(** Phase C after the generation check. *)
Definition compact_publish (cfg : Config) (chunks : list LiveChunk) (relocations : RelocationSet) (files : Files) : M unit :=
  '(chunks, remap) ← rename_chunks files chunks ∅;
  remap ← rename_archives files remap;
  relocations ← lift (remap_relocations remap relocations);
  pending ← gets st_pending_placements;
  _ ← modify (upd_pending_placements (fun _ => []));
  placements ← gets st_placements;
  placement_records ← relocate relocations (segment_rids placements) pending;
  old_records ← gets st_segment_records;
  let new_records := map (fun c => record_of (lc_id c) 1 (lc_reader c) (lc_size c) (lc_checksum c)) chunks in
  _ ← modify (upd_generation (fun g => g + 1));
  _ ← publish_placement_log placement_records;
  _ ← publish_pair new_records;
  _ ← modify (upd_segments (fun _ => map lc_reader chunks));
  _ ← modify (upd_segment_records (fun _ => new_records));
  let '(n, b0, b1) := scan_l0 new_records in
  _ ← modify (upd_l0_count (fun _ => n));
  _ ← modify (upd_l0_bytes (fun _ => b0));
  _ ← modify (upd_l1_bytes (fun _ => b1));
  _ ← for_each placement_records (fun r =>
        placements ← gets st_placements;
        '(placements, _) ← lift (merge_placement placements (pr_rid r) (pr_placement r));
        modify (upd_placements (fun _ => placements)));
  pins ← gets st_snapshot_pins;
  _ ← for_each (List.filter (fun n => negb (bool_decide (n ∈ pins))) (map (fun r => FSegment (segment_id r)) old_records)) remove_file;
  maybe_checkpoint cfg.

(** [compact_impl]: capture, merge unlocked, then publish if the generation stood still;
    [between] is what other threads do to the database during the merge.  The result is the
    merge's counters with the [stale] mark. *)
Definition compact_impl {RP : RetentionPolicy} (cfg : Config) (between : M unit) : M (CompactStats * bool) :=
  inputs ← gets st_segments;
  match inputs with
  | [] => mret (mkCompactStats 0 0 0 0 0 0 0, false)
  | _ =>
      gen ← gets st_generation;
      next_id ← gets st_next_segment_id;
      '(stats, chunks, relocations, files, _) ←
        lift (merge inputs (block_target cfg) (merge_chunk_bytes cfg) next_id);
      _ ← between;
      gen' ← gets st_generation;
      if negb (gen' =? gen) then mret (stats, true) else
      _ ← compact_publish cfg chunks relocations files;
      mret (stats, false)
  end.

(** [compact_with] and [compact]. *)
Definition compact_with {RP : RetentionPolicy} (cfg : Config) : M (CompactStats * bool) := compact_impl cfg (mret tt).
Definition compact (cfg : Config) : M (CompactStats * bool) :=
  segments ← gets st_segments;
  if zlen segments <=? 1 then mret (mkCompactStats 0 0 0 0 0 0 0, false)
  else @compact_with KeepAll cfg.

(** [maybe_compact]: the trigger and the size tier; in background mode only a kick. *)
Definition compact_due (cfg : Config) (s : State) : bool :=
  (l0_compact_trigger cfg <=? st_l0_count s) &&
  ((l0_tier_ratio cfg =? 0) || (st_l1_bytes s =? 0) || (st_l1_bytes s / l0_tier_ratio cfg <=? st_l0_bytes s)).
Definition maybe_compact (cfg : Config) : M unit :=
  if l0_compact_trigger cfg =? 0 then mret tt else
  s ← gets id;
  if negb (compact_due cfg s) then mret tt else
  if negb (compact_background cfg) then _ ← compact cfg; mret tt
  else modify_db (upd_compactor_pending (fun _ => true)).

(* ------------------------------------------------------------------ *)
(** * Writes *)

(** One operation of a committed batch.  [write_at] also moves the allocators past the ids
    of a replicated create ([bump]); the committer does not. *)
Definition apply_create (bump : bool) (oid : ObjectId) (lid : LogicalId) (rid : ReplicaId) (pgen : Z) : M unit :=
  identity ← gets st_identity;
  identity ← lift (merge_identity identity oid lid);
  _ ← modify (upd_identity (fun _ => identity));
  _ ← when bump
        (_ ← modify (upd_next_logical_id (fun n => Z.max n (lid_val lid + 1)));
         _ ← modify (upd_next_replica_id (fun n => Z.max n (rid_val rid + 1)));
         modify (upd_next_placement_generation (fun n => Z.max n (pgen + 1))));
  _ ← modify (upd_pending_identity (fun l => l ++ [mkIdentityRecord oid lid]));
  replicas ← gets st_replicas;
  replicas ← lift (merge_replica replicas lid LOCAL_NODE_ID rid);
  _ ← modify (upd_replicas (fun _ => replicas));
  _ ← modify (upd_pending_replicas (fun l => l ++ [mkReplicaRecord lid LOCAL_NODE_ID rid]));
  apply_placement rid (PMemtable pgen).
Definition apply_op (bump : bool) (seq : Z) (op : Op) : M unit :=
  match op with
  | Put k v => modify (upd_active (fun m => mt_apply m k seq (Some v)))
  | Delete k => modify (upd_active (fun m => mt_apply m k seq None))
  | PutObject rid k v =>
      _ ← modify (upd_active (fun m => mt_apply_object m k seq (Some v) rid));
      apply_object_placement rid
  | DeleteObject rid k =>
      _ ← modify (upd_active (fun m => mt_apply_object m k seq None rid));
      apply_object_placement rid
  | CreateObject oid lid rid pgen => apply_create bump oid lid rid pgen
  end.

(** The committer: every frame of the group is appended, one sync covers them, then the
    batches apply and every batch gets the group's outcome.  An error while applying a
    batch skips the rest of that batch and is the outcome, but later batches still apply. *)
Definition try_ {A} (m : M A) : M (Result A) := fun d => let '(d, r) := m d in (d, Ok r).
Fixpoint append_group (group : list (list Op)) : M (list Z) :=
  match group with
  | [] => mret []
  | ops :: group =>
      seq ← gets st_next_seq;
      _ ← modify (upd_next_seq (fun n => n + 1));
      frame ← lift (encode_frame seq ops);
      _ ← wal_append frame;
      seqs ← append_group group;
      mret (seq :: seqs)
  end.
Fixpoint apply_group (outcome : Result unit) (batches : list (list Op * Z)) : M (Result unit) :=
  match batches with
  | [] => mret outcome
  | (ops, seq) :: batches =>
      r ← try_ (for_each ops (apply_op false seq));
      apply_group (match r with Ok _ => outcome | Err e => Err e end) batches
  end.
Definition commit_group (cfg : Config) (group : list (list Op)) : M (list Z) :=
  seqs ← append_group group;
  _ ← wal_sync;
  outcome ← apply_group (Ok tt) (zip group seqs);
  active ← gets st_active;
  outcome ← (if is_ok outcome && (memtable_bytes cfg <=? mt_bytes active) then try_ (flush cfg) else mret outcome);
  _ ← lift outcome;
  mret seqs.

(** [write_at] past its guards: append, sync, apply, flush on the trigger, compact. *)
Definition commit_at (cfg : Config) (seq : Z) (ops : list Op) : M Z :=
  _ ← modify (upd_next_seq (fun n => n + 1));
  frame ← lift (encode_frame seq ops);
  d ← get_db;
  _ ← modify_db (upd_wal_fail_next (fun _ => false));
  _ ← when (db_wal_fail_next d) (throw (Io "injected WAL append failure (wal_fail_next)"));
  _ ← wal_append frame;
  _ ← when (bool_decide (durability cfg = Sync)) wal_sync;
  _ ← for_each ops (apply_op true seq);
  active ← gets st_active;
  _ ← when (memtable_bytes cfg <=? mt_bytes active) (flush cfg);
  _ ← maybe_compact cfg;
  mret seq.

(** [write_at].  In group-commit mode the batch goes through the queue; here its group is
    the batch alone. *)
Definition write_at (cfg : Config) (ops : list Op) (expected : option Z) : M Z :=
  match ops with
  | [] => throw (Invalid "empty write batch")
  | _ =>
  if existsb (fun op => U16 - 1 <? zlen (op_key op)) ops
  then throw (Invalid "key length exceeds the format limit") else
  d ← get_db;
  match expected with
  | None =>
      match db_fenced d with
      | Some _ => throw (Stale "not leader")
      | None =>
          if bool_decide (durability cfg = GroupCommit) then
            seqs ← commit_group cfg [ops];
            _ ← maybe_compact cfg;
            match seqs with seq :: _ => mret seq | [] => throw (Io "commit queue closed") end
          else commit_at cfg (st_next_seq (db_state d)) ops
      end
  | Some e =>
      let seq := st_next_seq (db_state d) in
      if e <? seq then mret e
      else if seq <? e then throw (Invalid "replicated frame skips: the follower never holds a hole")
      else commit_at cfg seq ops
  end
  end.

(** [write], with no commit gate armed; [put], [delete], [apply_replicated], [fence]. *)
Definition write (cfg : Config) (ops : list Op) : M Z := write_at cfg ops None.
Definition put (cfg : Config) (key value : bytes) : M Z := write cfg [Put key value].
Definition delete (cfg : Config) (key : bytes) : M Z := write cfg [Delete key].
Definition apply_replicated (cfg : Config) (seq : Z) (ops : list Op) : M Z :=
  if negb (bool_decide (durability cfg = Sync))
  then throw (Invalid "apply_replicated requires DurabilityMode::Sync") else write_at cfg ops (Some seq).
Definition fence (why : string) : M unit := modify_db (upd_fenced (fun _ => Some why)).

(* ------------------------------------------------------------------ *)
(** * Objects *)

(** [reserve_identity], [create_object], [put_object], [delete_object]. *)
Definition reserve_identity : M (LogicalId * ReplicaId * Z) :=
  s ← gets id;
  _ ← modify (upd_next_logical_id (fun n => n + 1));
  _ ← modify (upd_next_replica_id (fun n => n + 1));
  _ ← modify (upd_next_placement_generation (fun n => n + 1));
  mret (mkLogicalId (st_next_logical_id s), mkReplicaId (st_next_replica_id s), st_next_placement_generation s).
Definition create_object (cfg : Config) : M ObjectId :=
  '(lid, rid, pgen) ← reserve_identity;
  let oid := mkObjectId (ztake 16 (sha256 (lid_to_bytes lid))) in
  _ ← write cfg [CreateObject oid lid rid pgen];
  mret oid.
Definition resolve_local (lid : LogicalId) : M ReplicaId :=
  replicas ← gets st_replicas;
  match replicas !! lid with
  | Some rid => mret rid
  | None => throw (Corrupt "logical id has no local replica")
  end.
Definition put_object (cfg : Config) (oid : ObjectId) (key value : bytes) : M Z :=
  identity ← gets st_identity;
  ops ← match identity !! oid with
        | Some lid => rid ← resolve_local lid; mret [PutObject rid key value]
        | None =>
            '(lid, rid, pgen) ← reserve_identity;
            mret [CreateObject oid lid rid pgen; PutObject rid key value]
        end;
  write cfg ops.
Definition delete_object (cfg : Config) (oid : ObjectId) (key : bytes) : M Z :=
  identity ← gets st_identity;
  match identity !! oid with
  | None => throw (Invalid "delete_object on unknown ObjectId")
  | Some lid => rid ← resolve_local lid; write cfg [DeleteObject rid key]
  end.

(* ------------------------------------------------------------------ *)
(** * Reads *)

(** [iter().rev().find_map(f)] over the immutables. *)
Fixpoint newest_first {A B} (f : A -> option B) (l : list A) : option B :=
  match l with
  | [] => None
  | x :: l => match newest_first f l with Some b => Some b | None => f x end
  end.
Definition row_value (e : SegmentEntry) : option bytes :=
  if Z.land (se_flags e) FLAG_DELETE =? 0 then Some (se_value e) else None.

(** [get_inner] over the segments, given newest first. *)
Fixpoint get_segments (segs : list SegmentReader) (key : bytes) : Result (option bytes) :=
  match segs with
  | [] => Ok None
  | seg :: segs =>
      if bytes_ltb key (sr_key_min seg) || bytes_ltb (sr_key_max seg) key then get_segments segs key else
      if negb (bloom_may_contain seg key) then get_segments segs key else
      oe ← seg_get seg key;
      match oe with
      | Some e => Ok (row_value e)
      | None => get_segments segs key
      end
  end.
Definition get_inner (s : State) (key : bytes) : Result (option bytes) :=
  match mt_get (st_active s) key with
  | Some b => Ok (br_value b)
  | None =>
      match newest_first (fun m => mt_get m key) (st_immutables s) with
      | Some b => Ok (br_value b)
      | None => get_segments (rev (st_segments s)) key
      end
  end.

(** [get_object]. *)
Fixpoint get_rid_segments (segs : list SegmentReader) (key : bytes) (rid : ReplicaId) : Result (option bytes) :=
  match segs with
  | [] => Ok None
  | seg :: segs =>
      oe ← seg_get_by_rid seg key rid;
      match oe with Some e => Ok (row_value e) | None => get_rid_segments segs key rid end
  end.
Definition direct_segment (s : State) (rid : ReplicaId) : option (SegmentReader * PhysicalLocation) :=
  match st_placements s !! rid with
  | Some (PSegment loc) =>
      '(i, _) ← list_find (fun r => segment_id r = pl_segment_id loc) (st_segment_records s);
      seg ← st_segments s !! i;
      Some (seg, loc)
  | _ => None
  end.
Definition get_object (s : State) (oid : ObjectId) (key : bytes) : Result (option bytes) :=
  match st_identity s !! oid with
  | None => Ok None
  | Some lid =>
  match st_replicas s !! lid with
  | None => Err (Corrupt "logical id has no local replica")
  | Some rid =>
  let segments := rev (st_segments s) in
  match direct_segment s rid with
  | Some (seg, loc) =>
      oe ← get_entry_at seg key rid (pl_block_id loc) (pl_entry_offset loc);
      match oe with Some e => Ok (row_value e) | None => get_rid_segments segments key rid end
  | None =>
      match mt_get_by_rid (st_active s) key rid with
      | Some o => Ok (or_value o)
      | None =>
          match newest_first (fun m => mt_get_by_rid m key rid) (st_immutables s) with
          | Some o => Ok (or_value o)
          | None => get_rid_segments segments key rid
          end
      end
  end
  end
  end.
End Db.
