(* ===== verification/DbOpen.v ===== *)
(** crates/storage/aikoql-v2/src/db.rs, [Db::open]: recovery from the directory and the
    WAL; and format.rs, [validate_manifest]. *)

From stdpp Require Import gmap.
From S2P Require Import Prelude Cursor Format Identity Placement Disk Checkpoint Wal Memtable Segment Compaction DbState Db.

Section Open.
Context {SHA : Sha256}.

(** [validate_manifest]. *)
Definition validate_record (dir : Dir) (seen : gset Z) (rec : SegmentRecord) : Result (gset Z) :=
  if bool_decide (segment_id rec ∈ seen) then Err (Corrupt "manifest names a segment twice") else
  if 1 <? level rec then Err (Corrupt "segment has unsupported level") else
  if bytes_ltb (key_max rec) (key_min rec) then Err (Corrupt "segment key range flipped") else
  if seq_hi rec <? seq_lo rec then Err (Corrupt "segment sequence range flipped") else
  if record_count rec =? 0 then Err (Corrupt "segment claims zero records") else
  bs ← read_file dir (FSegment (segment_id rec));
  if negb (zlen bs =? file_size rec) then Err (Corrupt "segment size mismatch") else
  Ok ({[segment_id rec]} ∪ seen).
Definition validate_manifest (dir : Dir) (m : Manifest) : Result unit :=
  if generation m =? 0 then Err (Corrupt "manifest generation must be > 0") else
  _ ← fold_result (validate_record dir) ∅ (segments m);
  Ok tt.

(** CURRENT, or the empty pair of a fresh database published first. *)
Definition empty_manifest : Manifest := mkManifest FORMAT_VERSION 1 [] [] 0 0 0 0 0 0.
Definition open_current : M Current :=
  d ← get_db;
  match read_file (db_dir d) FCurrent with
  | Ok bs => lift (current_decode bs)
  | Err _ =>
      _ ← publish_atomic (FManifest 1) (manifest_encode empty_manifest);
      _ ← publish_atomic FCurrent (current_encode (mkCurrent FORMAT_VERSION 1));
      mret (mkCurrent FORMAT_VERSION 1)
  end.

(** Every manifest segment opens and agrees with its record. *)
Definition open_record (dir : Dir) (rec : SegmentRecord) : Result SegmentReader :=
  bs ← read_file dir (FSegment (segment_id rec));
  r ← open_segment bs;
  if negb (bytes_eqb (key_min rec) (sr_key_min r)) || negb (bytes_eqb (key_max rec) (sr_key_max r)) ||
     negb (seq_lo rec =? sr_seq_lo r) || negb (seq_hi rec =? sr_seq_hi r) || negb (record_count rec =? sr_entry_count r)
  then Err (Corrupt "manifest record disagrees with the segment header") else Ok r.
Definition open_segments (dir : Dir) (recs : list SegmentRecord) : Result (list SegmentReader) :=
  fold_result (fun rs rec => r ← open_record dir rec; Ok (rs ++ [r])) [] recs.

(** [block_entry_count]. *)
Definition block_entry_count (r : SegmentReader) (block_id : Z) : option Z :=
  db_entries <$> (sr_data r !! Z.to_nat block_id).

(** The placements that survived the merge name a manifest segment and an entry in range. *)
Definition validate_placement (recs : list SegmentRecord) (readers : list SegmentReader) (p : Placement) : Result unit :=
  match p with
  | PSegment loc =>
      match list_find (fun rr => segment_id rr.1 = pl_segment_id loc) (zip recs readers) with
      | None => Err (Corrupt "placement references a segment absent from the manifest")
      | Some (_, (_, r)) =>
          validate_segment_location loc (list_to_set (map segment_id recs)) (block_entry_count r (pl_block_id loc))
      end
  | _ => Ok tt
  end.

(** The highest placement generation of a map. *)
Definition max_generation (placements : Placements) : Z :=
  fold_left Z.max (map (fun kv => placement_generation kv.2) (map_to_list placements)) 0.

(** The state of the WAL replay. *)
Record Replay : Type := mkReplay {
  rp_active : Memtable; rp_max : Z; rp_pgen : Z;
  rp_identity : IdentityMap; rp_replicas : ReplicaMap; rp_placements : Placements;
  rp_pending_identity : list IdentityRecord; rp_pending_replicas : list ReplicaRecord;
  rp_pending_placements : list PlacementRecord }.

(** [replay_object_placement]: a memtable placement already carries the flip. *)
Definition replay_object_placement (r : Replay) (rid : ReplicaId) : Result Replay :=
  match rp_placements r !! rid with
  | Some (PMemtable _) => Ok r
  | _ =>
      let p := PMemtable (rp_pgen r) in
      '(placements, _) ← merge_placement (rp_placements r) rid p;
      Ok (mkReplay (rp_active r) (rp_max r) (rp_pgen r + 1) (rp_identity r) (rp_replicas r) placements
            (rp_pending_identity r) (rp_pending_replicas r) (rp_pending_placements r ++ [mkPlacementRecord rid p]))
  end.
Definition replay_active (f : Memtable -> Memtable) (r : Replay) : Replay :=
  mkReplay (f (rp_active r)) (rp_max r) (rp_pgen r) (rp_identity r) (rp_replicas r) (rp_placements r)
    (rp_pending_identity r) (rp_pending_replicas r) (rp_pending_placements r).
Definition replay_seq (seq : Z) (r : Replay) : Replay :=
  mkReplay (rp_active r) (Z.max (rp_max r) seq) (rp_pgen r) (rp_identity r) (rp_replicas r) (rp_placements r)
    (rp_pending_identity r) (rp_pending_replicas r) (rp_pending_placements r).
Definition replay_create (r : Replay) (oid : ObjectId) (lid : LogicalId) (rid : ReplicaId) (pgen : Z) : Result Replay :=
  identity ← merge_identity (rp_identity r) oid lid;
  replicas ← merge_replica (rp_replicas r) lid LOCAL_NODE_ID rid;
  '(placements, _) ← merge_placement (rp_placements r) rid (PMemtable pgen);
  Ok (mkReplay (rp_active r) (rp_max r) (rp_pgen r) identity replicas placements
        (rp_pending_identity r ++ [mkIdentityRecord oid lid])
        (rp_pending_replicas r ++ [mkReplicaRecord lid LOCAL_NODE_ID rid])
        (rp_pending_placements r ++ [mkPlacementRecord rid (PMemtable pgen)])).
Definition replay_op (r : Replay) (seq : Z) (op : Op) : Result Replay :=
  r ← match op with
      | Put k v => Ok (replay_active (fun m => mt_apply m k seq (Some v)) r)
      | Delete k => Ok (replay_active (fun m => mt_apply m k seq None) r)
      | PutObject rid k v => replay_object_placement (replay_active (fun m => mt_apply_object m k seq (Some v) rid) r) rid
      | DeleteObject rid k => replay_object_placement (replay_active (fun m => mt_apply_object m k seq None rid) r) rid
      | CreateObject oid lid rid pgen => replay_create r oid lid rid pgen
      end;
  Ok (replay_seq seq r).

(** The recovered state. *)
Definition recovered_state (dir : Dir) (manifest : Manifest) (checkpoint : option DirectoryCheckpoint)
    (readers : list SegmentReader) (orphan_pgen_max : Z) (r : Replay) : State :=
  let segs := segments manifest in
  let '(n, b0, b1) := scan_l0 segs in
  let floor := fun f : DirectoryCheckpoint -> Z => match checkpoint with Some c => f c | None => 0 end in
  mkState (rp_active r) [] readers segs n b0 b1
    (Z.max (rp_max r) (fold_left Z.max (map seq_hi segs) 0) + 1)
    (fold_left Z.max (map segment_id segs) 0 + 1)
    (generation manifest)
    (rp_identity r) (rp_replicas r) (rp_pending_identity r) (rp_pending_replicas r)
    (Z.max (fold_left Z.max (map (fun kv => lid_val kv.2) (map_to_list (rp_identity r))) 0 + 1) (floor ck_next_logical_id))
    (Z.max (fold_left Z.max (map (fun kv => rid_val kv.2) (map_to_list (rp_replicas r))) 0 + 1) (floor ck_next_replica_id))
    (rp_placements r) (rp_pending_placements r)
    (Z.max (Z.max (max_generation (rp_placements r)) orphan_pgen_max + 1) (floor ck_next_placement_generation))
    (directory_log_bytes dir (ckp_generation checkpoint))
    (identity_floor manifest) (replica_floor manifest) (placement_floor manifest)
    (identity_chain manifest) (replica_chain manifest) (placement_chain manifest) ∅.

(** [Db::open]: everything but the directory, the WAL and the outcomes to come is replaced. *)
Definition open_manifest (dir : Dir) (current : Current) : Result Manifest :=
  bs ← read_file dir (FManifest (manifest_generation current));
  manifest ← manifest_decode bs;
  _ ← verify_pair current manifest;
  _ ← validate_manifest dir manifest;
  Ok manifest.
Definition open_db (cfg : Config) : M unit :=
  if block_target cfg =? 0 then throw (Invalid "target block size must be > 0") else
  current ← open_current;
  d ← get_db;
  let dir := db_dir d in
  let gen := manifest_generation current in
  manifest ← lift (open_manifest dir current);
  checkpoint ← lift (load_newest dir gen);
  _ ← lift (validate_delta_coverage dir checkpoint manifest);
  '(identity, replicas) ← lift (recover_identity dir gen checkpoint);
  readers ← lift (open_segments dir (segments manifest));
  placements ← lift (recover_placement dir gen checkpoint);
  let orphan_pgen_max := orphan_placement_max_generation dir gen in
  _ ← lift (fold_result (fun _ p => validate_placement (segments manifest) readers p) tt
              (map snd (map_to_list placements)));
  '(r, (consumed, wal_end)) ← lift (replay_reader replay_op (db_wal d)
      (mkReplay mt_new 0 (Z.max (max_generation placements) orphan_pgen_max + 1) identity replicas placements [] [] []));
  _ ← when (negb (consumed =? wal_end)) (_ ← wal_set_len consumed; wal_sync);
  modify_db (fun d => mkDb (recovered_state dir manifest checkpoint readers orphan_pgen_max r)
    (db_dir d) (db_wal d) (db_io d) None false false).
End Open.
