(* ===== verification/DbRead.v ===== *)
(** crates/storage/aikoql-v2/src/db.rs: the batch point lookup [get_many] and the prefix
    scans, a k-way merge over the layers. *)

From stdpp Require Import gmap.
From S2P Require Import Prelude Cursor Format Identity Placement Disk Checkpoint Wal Memtable Segment.
From S2P Require Import SegmentBlock SegmentLookup SegmentFile SegmentQueries SegmentScan DbState Db.

(** [MergeEntry] of the scan merge, and its [HeapEntry]. *)
Abbreviation MergeEntry := (bytes * option bytes)%type.
Abbreviation ScanHead := (bytes * nat * option bytes)%type.

Section Read.
Context {SHA : Sha256}.

(* ------------------------------------------------------------------ *)
(** * The batch lookup *)

(** The first position of each key, and the positions that are one, in order. *)
Definition first_step (st : gmap bytes nat * list nat) (x : nat * bytes) : gmap bytes nat * list nat :=
  let '(first_pos, unique) := st in let '(pos, key) := x in
  match first_pos !! key with
  | Some _ => st
  | None => (<[key := pos]> first_pos, unique ++ [pos])
  end.
Definition positions_of {A} (l : list A) : list (nat * A) := zip (seq 0 (length l)) l.
Definition first_positions (keys : list bytes) : gmap bytes nat * list nat := fold_left first_step (positions_of keys) (∅, []).

(** The memtables, under the state guard. *)
Definition mem_lookup (s : State) (key : bytes) : option ByteRow :=
  match mt_get (st_active s) key with
  | Some b => Some b
  | None => newest_first (fun m => mt_get m key) (st_immutables s)
  end.
Definition mem_step (s : State) (keys : list bytes) (st : list (option bytes) * list nat) (pos : nat)
    : list (option bytes) * list nat :=
  let '(answers, remaining) := st in
  match mem_lookup s (key_at keys pos) with
  | Some b => (<[pos := br_value b]> answers, remaining)
  | None => (answers, remaining ++ [pos])
  end.

(** The segments, newest first: the positions each can hold, one batch lookup, and the
    positions still open.  The bloom hashes of a key are computed once. *)
Definition seg_wants (seg : SegmentReader) (key : bytes) : bool :=
  negb (bytes_ltb key (sr_key_min seg) || bytes_ltb (sr_key_max seg) key) && bloom_may_contain seg key.
Definition resolve_step (st : list (option bytes) * list bool) (x : nat * option SegmentEntry) : list (option bytes) * list bool :=
  let '(answers, resolved) := st in
  match x with
  | (pos, Some e) => (<[pos := row_value e]> answers, <[pos := true]> resolved)
  | (_, None) => st
  end.
Definition is_resolved (resolved : list bool) (pos : nat) : bool := default false (resolved !! pos).
Fixpoint many_segments (segs : list SegmentReader) (keys : list bytes) (answers : list (option bytes)) (resolved : list bool)
    (remaining : list nat) : Result (list (option bytes)) :=
  match segs with
  | [] => Ok answers
  | seg :: segs =>
      let wanted := List.filter (fun pos => seg_wants seg (key_at keys pos)) remaining in
      match wanted with
      | [] => many_segments segs keys answers resolved remaining
      | _ =>
          found ← seg_get_many seg (map (key_at keys) wanted);
          let '(answers, resolved) := fold_left resolve_step (zip wanted found) (answers, resolved) in
          many_segments segs keys answers resolved (List.filter (fun pos => negb (is_resolved resolved pos)) remaining)
      end
  end.

(** Duplicates take their first position's answer. *)
Definition copy_step (first_pos : gmap bytes nat) (answers : list (option bytes)) (x : nat * bytes) : list (option bytes) :=
  let '(pos, key) := x in
  match first_pos !! key with
  | Some first => if (first =? pos)%nat then answers else <[pos := default None (answers !! first)]> answers
  | None => answers
  end.

(** [get_many_inner]. *)
Definition get_many_inner (s : State) (keys : list bytes) : Result (list (option bytes)) :=
  let '(first_pos, unique) := first_positions keys in
  let '(answers, remaining) := fold_left (mem_step s keys) unique (replicate (length keys) None, []) in
  answers ← many_segments (rev (st_segments s)) keys answers (replicate (length keys) false) remaining;
  Ok (fold_left (copy_step first_pos) (positions_of keys) answers).

(* ------------------------------------------------------------------ *)
(** * Prefix scans *)

(** [prefix_end]: the wrapping increment from the last byte. *)
Fixpoint bump (l : bytes) : option bytes :=
  match l with
  | [] => None
  | b :: l => let b' := byte_of (byte_val b + 1) in if negb (byte_val b' =? 0) then Some (b' :: l) else option_map (cons b') (bump l)
  end.
Definition prefix_end (prefix : bytes) : option bytes := option_map (@rev byte) (bump (rev prefix)).

(** [ScanStream] and [ScanStream::next]. *)
Inductive ScanStream : Type := ScanSeg (s : SegmentScan) | ScanMem (l : list MergeEntry).
Definition stream_next (st : ScanStream) : Result (ScanStream * option MergeEntry) :=
  match st with
  | ScanSeg s => '(s, e) ← scan_next s; Ok (ScanSeg s, option_map (fun e => (se_key e, row_value e)) e)
  | ScanMem [] => Ok (ScanMem [], None)
  | ScanMem (x :: l) => Ok (ScanMem l, Some x)
  end.

(** The heap, as the list of its pops: keys ascending, the newer stream first. *)
Definition pops_before (a b : ScanHead) : bool :=
  bytes_ltb a.1.1 b.1.1 || (bytes_eqb a.1.1 b.1.1 && (b.1.2 <? a.1.2)%nat).
Fixpoint scan_push (x : ScanHead) (heap : list ScanHead) : list ScanHead :=
  match heap with
  | [] => [x]
  | y :: heap => if pops_before x y then x :: y :: heap else y :: scan_push x heap
  end.

(** Pull the next row of a stream into the heap. *)
Definition pull (st : list ScanStream * list ScanHead) (i : nat) : Result (list ScanStream * list ScanHead) :=
  let '(streams, heap) := st in
  match streams !! i with
  | None => Err (Invalid "panic")
  | Some s =>
      '(s, x) ← stream_next s;
      Ok (<[i := s]> streams, match x with Some (k, v) => scan_push (k, i, v) heap | None => heap end)
  end.

(** The equal-key drain: the streams drained, the newest one and its value. *)
Fixpoint drain_key (k : bytes) (run : list nat) (best_i : nat) (win_v : option bytes) (heap : list ScanHead)
    : list nat * option bytes * list ScanHead :=
  match heap with
  | (k2, j, v) :: heap' =>
      if negb (bytes_eqb k2 k) then (run, win_v, heap)
      else if (best_i <=? j)%nat then drain_key k (run ++ [j]) j v heap' else drain_key k (run ++ [j]) best_i win_v heap'
  | [] => (run, win_v, [])
  end.

(** The merge loop.  Every round takes a row of some stream; a row of a segment takes at
    least a byte of a payload. *)
Fixpoint scan_merge (fuel : nat) (streams : list ScanStream) (heap : list ScanHead) : Result (list (bytes * bytes)) :=
  match heap with
  | [] => Ok []
  | (k, i, v) :: heap =>
      match fuel with
      | O => Err (Invalid "out of fuel")
      | S fuel =>
          let '(run, win_v, heap) := drain_key k [i] i v heap in
          '(streams, heap) ← fold_result pull (streams, heap) run;
          out ← scan_merge fuel streams heap;
          Ok (match win_v with Some v => (k, v) :: out | None => out end)
      end
  end.
Definition stream_size (s : ScanStream) : nat :=
  match s with ScanSeg c => list_sum (map (fun b => Z.to_nat (db_payload_len b)) (sr_data (sc_reader c))) | ScanMem l => length l end.

(** [scan_from]: streams oldest first. *)
Definition mem_run (m : Memtable) (prefix start : bytes) : list MergeEntry :=
  map (fun x => (x.1, br_value x.2)) (List.filter (fun x => bytes_leb start x.1) (prefix_heads m prefix)).
Definition bytes_max (a b : bytes) : bytes := if bytes_leb a b then b else a.
Definition scan_streams (s : State) (prefix start : bytes) : list ScanStream :=
  let start := bytes_max start prefix in
  map (fun seg => ScanSeg (scan_iter seg start (prefix_end prefix))) (st_segments s) ++
  map (fun m => ScanMem (mem_run m prefix start)) (st_immutables s ++ [st_active s]).
Definition scan_from (s : State) (prefix start : bytes) : Result (list (bytes * bytes)) :=
  let streams := scan_streams s prefix start in
  let fuel := list_sum (map stream_size streams) in
  '(streams, heap) ← fold_result pull (streams, []) (seq 0 (length streams));
  scan_merge fuel streams heap.

(** [Db::scan]. *)
Definition scan (s : State) (prefix : bytes) : Result (list (bytes * bytes)) := scan_from s prefix prefix.

(* ------------------------------------------------------------------ *)
(** * The batch lookup is the point lookup of each key *)

(** A point read is the memtables, then the segments. *)
Lemma get_inner_eq s key :
  get_inner s key = match mem_lookup s key with Some b => Ok (br_value b) | None => get_segments (rev (st_segments s)) key end.
Proof. unfold get_inner, mem_lookup. destruct (mt_get (st_active s) key); [done|]. by destruct (newest_first _ _). Qed.
Lemma get_segments_eq seg segs key :
  get_segments (seg :: segs) key =
  if seg_wants seg key then oe ← seg_get seg key; match oe with Some e => Ok (row_value e) | None => get_segments segs key end
  else get_segments segs key.
Proof. cbn [get_segments]. unfold seg_wants. destruct (_ || _); [done|]. by destruct (bloom_may_contain seg key). Qed.

(** What the fold over a batch's answers leaves. *)
Definition answer_at (l : list (nat * option SegmentEntry)) (pos : nat) : option SegmentEntry :=
  match List.find (fun x => (x.1 =? pos)%nat) l with Some x => x.2 | None => None end.
Lemma resolve_fold l : forall answers resolved,
  NoDup (map fst l) -> length resolved = length answers -> (forall x, x ∈ l -> (x.1 < length answers)%nat) ->
  let '(answers', resolved') := fold_left resolve_step l (answers, resolved) in
  length answers' = length answers /\ length resolved' = length answers /\
  (forall pos, answers' !! pos = match answer_at l pos with Some e => Some (row_value e) | None => answers !! pos end) /\
  (forall pos, resolved' !! pos = match answer_at l pos with Some e => Some true | None => resolved !! pos end).
Proof.
  induction l as [|[p o] l IH]; intros answers resolved Hnd Hlen Hlt; cbn [fold_left]; [by split_and!|].
  cbn [map] in Hnd. apply NoDup_cons in Hnd as [Hp Hnd]. assert (answer_at l p = None) as Hno.
  { unfold answer_at. destruct (List.find _ l) as [x|] eqn:E; [|done]. apply find_some in E as [Hin Ex]. apply Nat.eqb_eq in Ex. exfalso. apply Hp.
    change (p ∈ map fst l). rewrite <-Ex. apply list_elem_of_In. exact (in_map fst _ _ Hin). }
  assert (forall pos, answer_at ((p, o) :: l) pos = if (p =? pos)%nat then o else answer_at l pos) as Hans.
  { intros pos. unfold answer_at. cbn. by destruct (p =? pos)%nat. }
  assert (p < length answers)%nat as Hpl by (apply (Hlt (p, o)); set_solver).
  destruct o as [e|]; cbn [resolve_step].
  - specialize (IH (<[p := row_value e]> answers) (<[p := true]> resolved) Hnd). rewrite !length_insert in IH.
    specialize (IH Hlen ltac:(set_solver)). destruct (fold_left _ _ _) as [a' r']. destruct IH as (H1 & H2 & H3 & H4).
    split_and!; [done | done | |]; intros pos; rewrite Hans.
    + rewrite H3. destruct (Nat.eqb_spec p pos) as [<-|Hne]; [rewrite Hno; by apply list_lookup_insert_eq | by rewrite list_lookup_insert_ne].
    + rewrite H4. destruct (Nat.eqb_spec p pos) as [<-|Hne]; [rewrite Hno; apply list_lookup_insert_eq; lia | by rewrite list_lookup_insert_ne].
  - specialize (IH answers resolved Hnd Hlen ltac:(set_solver)). destruct (fold_left _ _ _) as [a' r']. destruct IH as (H1 & H2 & H3 & H4).
    split_and!; [done | done | |]; intros pos; rewrite Hans; [rewrite H3 | rewrite H4]; (destruct (Nat.eqb_spec p pos) as [<-|Hne]; [by rewrite Hno | done]).
Qed.

Lemma answer_at_zip wanted : forall found i pos x,
  NoDup wanted -> wanted !! i = Some pos -> found !! i = Some x -> answer_at (zip wanted found) pos = x.
Proof.
  induction wanted as [|p wanted IH]; intros [|y found] [|i] pos x Hnd Hi Hx; try done; apply NoDup_cons in Hnd as [Hp Hnd].
  - cbn in *. injection Hi as ->. injection Hx as ->. unfold answer_at. cbn. by rewrite Nat.eqb_refl.
  - cbn in *. unfold answer_at. cbn. destruct (Nat.eqb_spec p pos) as [->|Hne]; [|by eapply IH].
    exfalso. apply Hp. by eapply list_elem_of_lookup_2.
Qed.
Lemma NoDup_filter_bool {A} (f : A -> bool) l : NoDup l -> NoDup (List.filter f l).
Proof.
  induction 1 as [|x l Hx Hnd IH]; cbn; [constructor|]. destruct (f x); [|done]. constructor; [|done]. by rewrite (elem_of_filter_bool f); intros [? _].
Qed.
Lemma and_iff_compat_l_hyp (A B C : Prop) : (A -> B <-> C) -> A /\ B <-> A /\ C.
Proof. tauto. Qed.

(** The segment passes: each open position is answered as its point lookup. *)
Lemma many_segments_ok keys n segs : forall answers resolved remaining out,
  length answers = n -> length resolved = n -> NoDup remaining ->
  (forall pos, pos ∈ remaining -> answers !! pos = Some None /\ resolved !! pos = Some false) ->
  many_segments segs keys answers resolved remaining = Ok out <->
  length out = n /\ forall pos x, out !! pos = Some x ->
    if bool_decide (pos ∈ remaining) then get_segments segs (key_at keys pos) = Ok x else answers !! pos = Some x.
Proof.
  induction segs as [|seg segs IH]; intros answers resolved remaining out Ha Hr Hnd Hopen; cbn [many_segments].
  { split.
    - intros [= <-]. split; [done|]. intros pos x Hx. case_bool_decide as Hin; [|done]. destruct (Hopen pos Hin) as [E _]. cbn. congruence.
    - intros [Hl Hx]. f_equal. apply list_eq. intros pos. destruct (out !! pos) as [x|] eqn:E; [|apply lookup_ge_None in E; apply lookup_ge_None; lia].
      specialize (Hx pos x E). case_bool_decide as Hin; [|done]. destruct (Hopen pos Hin) as [-> _]. cbn in Hx. congruence. }
  set (wanted := List.filter _ remaining).
  assert (forall pos, pos ∈ wanted <-> pos ∈ remaining /\ seg_wants seg (key_at keys pos) = true) as Hw.
  { intros pos. unfold wanted. by rewrite (elem_of_filter_bool (fun pos => seg_wants seg (key_at keys pos))). }
  destruct (decide (wanted = [])) as [Ew|Ew].
  { rewrite Ew. rewrite (IH answers resolved remaining out Ha Hr Hnd Hopen). apply and_iff_compat_l, forall_proper. intros pos. apply forall_proper. intros x.
    apply imp_iff_compat_l. case_bool_decide as Hin; [|done]. rewrite get_segments_eq. destruct (seg_wants seg (key_at keys pos)) eqn:E; [|done].
    exfalso. rewrite Ew in Hw. by apply (not_elem_of_nil pos), Hw. }
  assert (forall X Y : Result (list (option bytes)), match wanted with [] => X | _ => Y end = Y) as Em by (intros; by destruct wanted). rewrite Em. clear Em.
  assert (NoDup wanted) as Hndw by (unfold wanted; by apply NoDup_filter_bool).
  assert (forall found, Forall2 (fun key x => seg_get seg key = Ok x) (map (key_at keys) wanted) found ->
    let '(answers', resolved') := fold_left resolve_step (zip wanted found) (answers, resolved) in
    (many_segments segs keys answers' resolved' (List.filter (fun pos => negb (is_resolved resolved' pos)) remaining) = Ok out <->
     length out = n /\ forall pos x, out !! pos = Some x ->
       if bool_decide (pos ∈ remaining) then get_segments (seg :: segs) (key_at keys pos) = Ok x else answers !! pos = Some x)) as Hpass.
  { intros found Hf. assert (length found = length wanted) as Hlf by (rewrite <-(Forall2_length _ _ _ Hf); by rewrite length_map).
    assert (map fst (zip wanted found) = wanted) as Ez by (by apply fst_zip; lia).
    pose proof (resolve_fold (zip wanted found) answers resolved) as Hres. rewrite Ez in Hres. specialize (Hres Hndw ltac:(lia)).
    destruct (fold_left _ _ _) as [answers' resolved'].
    destruct Hres as (H1 & H2 & H3 & H4).
    { intros x Hx. assert (x.1 ∈ wanted) as Hin by (rewrite <-Ez; apply list_elem_of_In, in_map, list_elem_of_In, Hx).
      apply Hw in Hin as [Hin _]. destruct (Hopen _ Hin) as [E _]. by eapply lookup_lt_Some. }
    assert (forall pos, pos ∈ wanted -> seg_get seg (key_at keys pos) = Ok (answer_at (zip wanted found) pos)) as Hans.
    { intros pos (i & Hi)%list_elem_of_lookup. destruct (lookup_lt_is_Some_2 found i) as [x Hx]; [apply lookup_lt_Some in Hi; lia|].
      assert (map (key_at keys) wanted !! i = Some (key_at keys pos)) as Hk by (by rewrite list_lookup_fmap, Hi).
      rewrite (Forall2_lookup_lr _ _ _ _ _ _ Hf Hk Hx). f_equal. symmetry. by eapply answer_at_zip. }
    assert (forall pos, pos ∉ wanted -> answer_at (zip wanted found) pos = None) as Hout.
    { intros pos Hn. unfold answer_at. destruct (List.find _ _) as [x|] eqn:E; [|done]. apply find_some in E as [Hin E]. apply Nat.eqb_eq in E.
      exfalso. apply Hn. rewrite <-E, <-Ez. apply list_elem_of_In. exact (in_map fst _ _ Hin). }
    set (remaining' := List.filter _ remaining).
    assert (forall pos, pos ∈ remaining' <-> pos ∈ remaining /\ answer_at (zip wanted found) pos = None) as Hrem.
    { intros pos. unfold remaining'. rewrite (elem_of_filter_bool (fun pos => negb (is_resolved resolved' pos))). apply and_iff_compat_l_hyp.
      intros Hin. unfold is_resolved. rewrite H4. destruct (Hopen pos Hin) as [_ ->]. by destruct (answer_at _ pos). }
    rewrite (IH answers' resolved' remaining' out).
    - apply and_iff_compat_l, forall_proper. intros pos. apply forall_proper. intros x. apply imp_iff_compat_l.
      destruct (decide (pos ∈ remaining)) as [Hin|Hin].
      + rewrite (bool_decide_eq_true_2 (pos ∈ remaining)) by done. rewrite get_segments_eq.
        destruct (answer_at (zip wanted found) pos) as [e|] eqn:Ea.
        * rewrite bool_decide_eq_false_2 by (rewrite Hrem; naive_solver). rewrite H3, Ea.
          destruct (decide (pos ∈ wanted)) as [Hp|Hp]; [|by rewrite Hout in Ea]. rewrite (Hans pos Hp), Ea.
          apply Hw in Hp as [_ ->]. cbn. split; congruence.
        * rewrite bool_decide_eq_true_2 by by rewrite Hrem. destruct (seg_wants seg (key_at keys pos)) eqn:Es; [|done].
          rewrite (Hans pos), Ea by by apply Hw. done.
      + rewrite !bool_decide_eq_false_2 by (rewrite ?Hrem; naive_solver). rewrite H3, Hout; [done|]. intros Hp. by apply Hw in Hp as [Hp _].
    - lia.
    - lia.
    - by apply NoDup_filter_bool.
    - intros pos [Hin Ea]%Hrem. rewrite H3, H4, Ea. by apply Hopen. }
  destruct (seg_get_many seg (map (key_at keys) wanted)) as [found|e] eqn:Em; cbn [mbind Result_bind].
  - apply seg_get_many_ok in Em. specialize (Hpass found Em). by destruct (fold_left _ _ _).
  - split; [done|]. intros [Hl Hx]. exfalso.
    assert (exists found, Forall2 (fun key x => seg_get seg key = Ok x) (map (key_at keys) wanted) found) as (found & Hf).
    { assert (forall pos, pos ∈ wanted -> exists x, seg_get seg (key_at keys pos) = Ok x) as Hok.
      { intros pos Hp. apply Hw in Hp as [Hin Hs]. destruct (Hopen pos Hin) as [E0 _]. destruct (lookup_lt_is_Some_2 out pos) as [x Hox].
        { rewrite Hl, <-Ha. by eapply lookup_lt_Some. }
        specialize (Hx pos x Hox). rewrite bool_decide_eq_true_2, get_segments_eq, Hs in Hx by done. destruct (seg_get seg _); [eauto | done]. }
      clear -Hok. induction wanted as [|pos wanted IHw]; [by exists []|]. destruct IHw as (found & Hf); [intros; apply Hok; set_solver|].
      destruct (Hok pos) as [x Hx]; [set_solver|]. exists (x :: found). by constructor. }
    apply seg_get_many_ok in Hf. congruence.
Qed.

(** The positions looked up. *)
Record first_inv (seen : list (nat * bytes)) (st : gmap bytes nat * list nat) : Prop := {
  fi_nodup : NoDup st.2;
  fi_first : forall key pos, st.1 !! key = Some pos -> (pos, key) ∈ seen;
  fi_all : forall key pos, (pos, key) ∈ seen -> exists first, st.1 !! key = Some first;
  fi_unique : forall pos, pos ∈ st.2 <-> exists key, st.1 !! key = Some pos }.

Lemma first_step_inv seen st pos key :
  (forall key', (pos, key') ∉ seen) -> first_inv seen st -> first_inv (seen ++ [(pos, key)]) (first_step st (pos, key)).
Proof.
  destruct st as [fp unique]. intros Hfresh [H1 H2 H3 H4]. cbn [first_step fst snd] in *. destruct (fp !! key) as [f|] eqn:Ef.
  - split; cbn [fst snd]; try done.
    + intros k p Hk. apply elem_of_app. left. by apply H2.
    + intros k p [Hin|Hin%list_elem_of_singleton]%elem_of_app; [by eapply H3|]. injection Hin as -> ->. eauto.
  - split; cbn [fst snd].
    + apply NoDup_app. split_and!; [done | | apply NoDup_singleton]. intros p Hp Hq. apply list_elem_of_singleton in Hq as ->.
      apply H4 in Hp as (k & Hk). by apply H2, Hfresh in Hk.
    + intros k p [[-> ->]|[Hne Hk]]%lookup_insert_Some; apply elem_of_app; [right; set_solver | left; by apply H2].
    + intros k p [Hin|Hin%list_elem_of_singleton]%elem_of_app.
      * destruct (H3 k p Hin) as [f Hf]. exists f. rewrite lookup_insert_ne; [done | congruence].
      * injection Hin as -> ->. exists pos. apply lookup_insert_eq.
    + intros p. rewrite elem_of_app, list_elem_of_singleton, H4. split.
      * intros [(k & Hk)| ->]; [exists k; rewrite lookup_insert_ne; [done | congruence] | exists key; apply lookup_insert_eq].
      * intros (k & [[-> ->]|[Hne Hk]]%lookup_insert_Some); [by right | left; eauto].
Qed.
Lemma first_positions_inv keys : first_inv (positions_of keys) (first_positions keys).
Proof.
  unfold first_positions. assert (forall l seen st, NoDup (map fst (seen ++ l)) -> first_inv seen st -> first_inv (seen ++ l) (fold_left first_step l st)) as H.
  { induction l as [|[pos key] l IH]; intros seen st Hnd Hi; cbn [fold_left]; [by rewrite app_nil_r|].
    rewrite (cons_middle _ seen), app_assoc. apply IH; [by rewrite <-app_assoc|]. apply first_step_inv; [|done].
    intros key' Hin. rewrite map_app in Hnd. apply NoDup_app in Hnd as (_ & Hnd & _). apply (Hnd pos); [|set_solver].
    apply list_elem_of_In. exact (in_map fst _ _ (proj1 (list_elem_of_In _ _) Hin)). }
  apply (H _ []).
  - cbn. unfold positions_of. change (NoDup (fst <$> zip (seq 0 (length keys)) keys)). rewrite fst_zip by (by rewrite length_seq). apply NoDup_ListNoDup, seq_NoDup.
  - split; cbn; [constructor | done | intros ? ? Hin; by apply not_elem_of_nil in Hin |]. intros pos. split; [intros Hin; by apply not_elem_of_nil in Hin | intros (k & Hk); done].
Qed.

(** The memtable pass. *)
Lemma mem_fold s keys l : forall answers remaining,
  NoDup l -> (forall pos, pos ∈ l -> (pos < length answers)%nat) ->
  let '(answers', remaining') := fold_left (mem_step s keys) l (answers, remaining) in
  length answers' = length answers /\
  remaining' = remaining ++ List.filter (fun pos => bool_decide (mem_lookup s (key_at keys pos) = None)) l /\
  forall pos, answers' !! pos = match (if bool_decide (pos ∈ l) then mem_lookup s (key_at keys pos) else None) with
                                | Some b => Some (br_value b) | None => answers !! pos end.
Proof.
  induction l as [|p l IH]; intros answers remaining Hnd Hlt; cbn [fold_left].
  { split_and!; [done | by rewrite app_nil_r | done]. }
  apply NoDup_cons in Hnd as [Hp Hnd]. assert (p < length answers)%nat as Hpl by (apply Hlt; set_solver). unfold mem_step at 2.
  cbn [List.filter]. destruct (mem_lookup s (key_at keys p)) as [b|] eqn:Em.
  - specialize (IH (<[p := br_value b]> answers) remaining Hnd). rewrite length_insert in IH. specialize (IH ltac:(set_solver)).
    destruct (fold_left _ _ _) as [a' r']. destruct IH as (H1 & H2 & H3). split_and!; [done | done|]. intros pos. rewrite H3.
    destruct (decide (pos = p)) as [->|Hne].
    + rewrite (bool_decide_eq_false_2 (p ∈ l)), (bool_decide_eq_true_2 (p ∈ p :: l)), Em by set_solver. by apply list_lookup_insert_eq.
    + rewrite list_lookup_insert_ne by done. rewrite (bool_decide_ext (pos ∈ p :: l) (pos ∈ l)); [done | set_solver].
  - specialize (IH answers (remaining ++ [p]) Hnd ltac:(set_solver)). destruct (fold_left _ _ _) as [a' r']. destruct IH as (H1 & H2 & H3).
    split_and!; [done | by rewrite H2, <-app_assoc|]. intros pos. rewrite H3. destruct (decide (pos = p)) as [->|Hne].
    + rewrite (bool_decide_eq_false_2 (p ∈ l)), (bool_decide_eq_true_2 (p ∈ p :: l)), Em by set_solver. done.
    + rewrite (bool_decide_ext (pos ∈ p :: l) (pos ∈ l)); [done | set_solver].
Qed.

(** The copies. *)
Lemma copy_fold fp l : forall answers,
  (forall key f, fp !! key = Some f -> (f < length answers)%nat) -> (forall pos key, (pos, key) ∈ l -> (pos < length answers)%nat) ->
  (forall pos key, (pos, key) ∈ l -> forall key', fp !! key' = Some pos -> key' = key) -> NoDup (map fst l) ->
  let out := fold_left (copy_step fp) l answers in
  length out = length answers /\ (forall key f, fp !! key = Some f -> out !! f = answers !! f) /\
  (forall pos, pos ∉ map fst l -> out !! pos = answers !! pos) /\ forall pos key f, (pos, key) ∈ l -> fp !! key = Some f -> out !! pos = answers !! f.
Proof.
  induction l as [|[p k] l IH]; intros answers Hfl Hlt Hkey Hnd; cbn [fold_left].
  { split_and!; [done | done | done | intros ? ? ? Hin; by apply not_elem_of_nil in Hin]. }
  cbn [map] in Hnd. apply NoDup_cons in Hnd as [Hp Hnd]. assert (p < length answers)%nat as Hpl by (apply (Hlt p k); set_solver).
  set (a1 := copy_step fp answers (p, k)). assert (length a1 = length answers /\ (forall key f, fp !! key = Some f -> a1 !! f = answers !! f) /\
    (forall pos, pos <> p -> a1 !! pos = answers !! pos) /\ forall f, fp !! k = Some f -> a1 !! p = answers !! f) as (L1 & F1 & N1 & P1).
  { unfold a1, copy_step. destruct (fp !! k) as [f|] eqn:Ek; [|by split_and!]. destruct (Nat.eqb_spec f p) as [->|Hne].
    { split_and!; [done | done | done | by intros f [= <-]]. }
    split_and!; [by rewrite length_insert| | |].
    - intros key f' Hf'. apply list_lookup_insert_ne. intros ->. apply Hne. specialize (Hkey f' k ltac:(set_solver) key Hf'). subst key. congruence.
    - intros pos Hpos. by apply list_lookup_insert_ne.
    - intros f' [= <-]. rewrite list_lookup_insert_eq by done. destruct (lookup_lt_is_Some_2 answers f) as [x Hx]; [by eapply Hfl|]. by rewrite Hx. }
  specialize (IH a1). rewrite L1 in IH. specialize (IH Hfl ltac:(set_solver) ltac:(set_solver) Hnd). destruct IH as (H1 & H2 & H3 & H4). split_and!; [done| | |].
  - intros key f Hf. rewrite (H2 _ _ Hf). by eapply F1.
  - intros pos Hpos. rewrite H3 by set_solver. apply N1. set_solver.
  - intros pos key f [Hin|Hin]%elem_of_cons Hf; [|rewrite (H4 _ _ _ Hin Hf); by eapply F1]. injection Hin as -> ->.
    rewrite H3 by done. by apply P1.
Qed.

Lemma get_many_points s keys out :
  get_many_inner s keys = Ok out <-> Forall2 (fun key v => get_inner s key = Ok v) keys out.
Proof.
  unfold get_many_inner. pose proof (first_positions_inv keys) as Hfi. destruct (first_positions keys) as [fp unique]. destruct Hfi as [F1 F2 F3 F4].
  cbn [fst snd] in *. set (n := length keys).
  assert (forall pos, pos ∈ unique -> exists key, keys !! pos = Some key /\ fp !! key = Some pos) as Hu.
  { intros pos (key & Hk)%F4. exists key. split; [|done]. by apply elem_of_positions, F2. }
  pose proof (mem_fold s keys unique (replicate n None) [] F1) as Hm. rewrite length_replicate in Hm.
  destruct (fold_left (mem_step s keys) unique _) as [answers remaining]. destruct Hm as (A1 & -> & A3).
  { intros pos (key & Hk & _)%Hu. by apply lookup_lt_Some in Hk. }
  cbn [app]. set (remaining := List.filter _ unique).
  assert (forall pos, pos ∈ remaining <-> pos ∈ unique /\ mem_lookup s (key_at keys pos) = None) as Hrem.
  { intros pos. unfold remaining. rewrite (elem_of_filter_bool (fun pos => bool_decide (mem_lookup s (key_at keys pos) = None))).
    by rewrite bool_decide_eq_true. }
  pose proof (fun out => many_segments_ok keys n (rev (st_segments s)) answers (replicate n false) remaining out A1 (length_replicate _ _) (NoDup_filter_bool _ _ F1)) as Hs.
  assert (forall out, many_segments (rev (st_segments s)) keys answers (replicate n false) remaining = Ok out <->
    length out = n /\ forall pos x, out !! pos = Some x -> if bool_decide (pos ∈ remaining)
      then get_segments (rev (st_segments s)) (key_at keys pos) = Ok x else answers !! pos = Some x) as Hseg.
  { intros o. apply Hs. intros pos [Hin Hn]%Hrem. destruct (Hu pos Hin) as (key & Hk & _). apply lookup_lt_Some in Hk.
    rewrite A3, (bool_decide_eq_true_2 (pos ∈ unique)), Hn by done. by rewrite !lookup_replicate_2. }
  clear Hs. assert (forall ans, many_segments (rev (st_segments s)) keys answers (replicate n false) remaining = Ok ans ->
    Forall2 (fun key v => get_inner s key = Ok v) keys (fold_left (copy_step fp) (positions_of keys) ans)) as Hfwd.
  { intros ans [Hl Hx]%Hseg. destruct (copy_fold fp (positions_of keys) ans) as (C1 & C2 & C3 & C4).
    - intros key f Hf. rewrite Hl. apply F2, elem_of_positions, lookup_lt_Some in Hf. done.
    - intros pos key Hin%elem_of_positions. rewrite Hl. by apply lookup_lt_Some in Hin.
    - intros pos key Hin key' Hk'. apply F2, elem_of_positions in Hk'. apply elem_of_positions in Hin. congruence.
    - unfold positions_of. change (NoDup (fst <$> zip (seq 0 (length keys)) keys)). rewrite fst_zip by (by rewrite length_seq). apply NoDup_ListNoDup, seq_NoDup.
    - apply Forall2_same_length_lookup. split; [by rewrite C1, Hl|]. intros pos key x Hk Hox. pose proof (proj2 (elem_of_positions _ _ _) Hk) as Hin.
      destruct (F3 key pos Hin) as [f Hf]. rewrite (C4 pos key f Hin Hf) in Hox. specialize (Hx f x Hox).
      pose proof (proj1 (elem_of_positions _ _ _) (F2 _ _ Hf)) as Hkf. assert (f ∈ unique) as Hfu by (apply F4; eauto).
      assert (key_at keys f = key) as Ek by (unfold key_at; by rewrite Hkf). rewrite get_inner_eq.
      case_bool_decide as Hr.
      + apply Hrem in Hr as [_ Hn]. rewrite Ek in *. by rewrite Hn.
      + rewrite A3, bool_decide_eq_true_2, Ek in Hx by done. destruct (mem_lookup s key) as [b|] eqn:Em; [congruence|]. exfalso. apply Hr, Hrem. by rewrite Ek. }
  split.
  - destruct (many_segments _ _ _ _ _) as [ans|] eqn:E; cbn [mbind Result_bind]; [|done]. intros [= <-]. by apply Hfwd.
  - intros Hall. apply Forall2_same_length_lookup in Hall as [Hlen Hall].
    set (ans := imap (fun pos x => if bool_decide (pos ∈ remaining) then x else default None (answers !! pos)) out).
    assert (many_segments (rev (st_segments s)) keys answers (replicate n false) remaining = Ok ans) as Hans.
    { apply Hseg. unfold ans. rewrite length_imap. split; [done|]. intros pos x Hx. rewrite list_lookup_imap in Hx.
      destruct (out !! pos) as [y|] eqn:Ey; [|done]. cbn in Hx. injection Hx as <-. case_bool_decide as Hin.
      - apply Hrem in Hin as [Hu' Hn]. destruct (Hu pos Hu') as (key & Hk & _). specialize (Hall pos key y Hk Ey). rewrite get_inner_eq in Hall.
        unfold key_at in *. rewrite Hk in *. cbn in Hn |- *. by rewrite Hn in Hall.
      - destruct (lookup_lt_is_Some_2 answers pos) as [z Hz]; [rewrite A1; unfold n; rewrite Hlen; by eapply lookup_lt_Some|]. by rewrite Hz. }
    rewrite Hans. cbn [mbind Result_bind]. f_equal. specialize (Hfwd ans Hans). apply Forall2_same_length_lookup in Hfwd as [Hl2 H2].
    apply list_eq. intros pos. destruct (keys !! pos) as [key|] eqn:Ek.
    + destruct (lookup_lt_is_Some_2 out pos) as [x Hx]; [apply lookup_lt_Some in Ek; lia|].
      destruct (lookup_lt_is_Some_2 (fold_left (copy_step fp) (positions_of keys) ans) pos) as [y Hy]; [apply lookup_lt_Some in Ek; lia|].
      rewrite Hx, Hy. pose proof (Hall _ _ _ Ek Hx). pose proof (H2 _ _ _ Ek Hy). congruence.
    + apply lookup_ge_None in Ek. rewrite !lookup_ge_None_2 by lia. done.
Qed.

(** C30: the batch lookup answers position by position what point lookups answer, in any
    state: deduplication, the one pass over the memtables and the per-segment batches
    with their range and bloom filters change no answer, and it fails exactly when one of
    the point lookups does. *)
Theorem get_many_equiv s keys out :
  get_many_inner s keys = Ok out <-> Forall2 (fun key v => get_inner s key = Ok v) keys out.
Proof. apply get_many_points. Qed.
End Read.
