(* ===== verification/DbLayers.v ===== *)
(** Byte histories as layers: a memtable built from WAL frames and a segment are both a
    list of rows in publication order, a read of the database is a first hit over the
    layers, and the operations of a frame are their effect on a map. *)

From stdpp Require Import gmap.
From S2P Require Import Prelude Cursor Format Identity Disk Wal WalFrames WalReplay Memtable Segment SegmentBlock.
From S2P Require Import SegmentLookup SegmentFile SegmentQueries SegmentProps Compaction CompactionMerge.
From S2P Require Import CompactionProps DbState Db.

(* ------------------------------------------------------------------ *)
(** * Abstract content *)

(** The byte operations: what [put], [delete] and a batch of them carry. *)
Definition byte_op (o : Op) : Prop := match o with Put _ _ | Delete _ => True | _ => False end.
Definition op_effect (m : gmap bytes bytes) (o : Op) : gmap bytes bytes :=
  match o with Put k v => <[k := v]> m | Delete k => base.delete k m | _ => m end.
Definition ops_effect (m : gmap bytes bytes) (ops : list Op) : gmap bytes bytes := fold_left op_effect ops m.

(** A specification of the database: a state that changes batch by batch and determines
    the map its reads answer from.  The map itself is one. *)
Class Spec (G : Type) : Type := {
  spec_map : G -> gmap bytes bytes;
  spec_batch : G -> list Op -> G;
  spec_map_batch g ops : spec_map (spec_batch g ops) = ops_effect (spec_map g) ops }.
#[global] Instance map_spec : Spec (gmap bytes bytes) := {| spec_map m := m; spec_batch := ops_effect; spec_map_batch _ _ := eq_refl |}.

(** What a batch last says of a key: nothing, or the value it leaves. *)
Definition op_says (k : bytes) (o : Op) : option (option bytes) :=
  match o with
  | Put k' v => if bytes_eqb k' k then Some (Some v) else None
  | Delete k' => if bytes_eqb k' k then Some None else None
  | _ => None
  end.
Definition last_says (ops : list Op) (k : bytes) : option (option bytes) :=
  fold_left (fun acc o => match op_says k o with Some x => Some x | None => acc end) ops None.

Lemma last_says_snoc ops o k :
  last_says (ops ++ [o]) k = match op_says k o with Some x => Some x | None => last_says ops k end.
Proof. unfold last_says. by rewrite fold_left_app. Qed.

Lemma ops_effect_lookup m ops k :
  Forall byte_op ops -> ops_effect m ops !! k = match last_says ops k with Some x => x | None => m !! k end.
Proof.
  induction ops as [|o ops IH] using rev_ind; intros Hb; [done|]. apply Forall_app in Hb as [Hb Ho]. apply Forall_inv in Ho.
  unfold ops_effect in *. rewrite fold_left_app, last_says_snoc. cbn. specialize (IH Hb).
  destruct o as [k' v|k'| | |]; try done; cbn; destruct (bytes_eqb k' k) eqn:E.
  - apply bytes_eqb_eq in E as ->. by rewrite lookup_insert_eq.
  - apply bytes_eqb_neq in E. by rewrite lookup_insert_ne.
  - apply bytes_eqb_eq in E as ->. by rewrite lookup_delete_eq.
  - apply bytes_eqb_neq in E. by rewrite lookup_delete_ne.
Qed.

(* ------------------------------------------------------------------ *)
(** * Frames as memtables *)

Definition op_write (seq : Z) (o : Op) : bytes * Z * MemEntry :=
  match o with
  | Put k v => (k, seq, Byte (mkByteRow (Some v)))
  | Delete k => (k, seq, Byte (mkByteRow None))
  | _ => (op_key o, seq, Byte (mkByteRow None))
  end.
Definition frame_writes (f : WalFrame) : list (bytes * Z * MemEntry) := map (op_write (frame_seq f)) (frame_ops f).
(** The memtable a run of frames builds. *)
Definition mem_of (fs : list WalFrame) : Memtable := mt_run (flat_map frame_writes fs).

#[global] Arguments mem_of : simpl never.

(** Frames of byte operations within the format's field sizes. *)
Definition op_good (o : Op) : Prop :=
  byte_op o /\ zlen (op_key o) < U16 /\ match o with Put _ v => zlen v < U32 | _ => True end.
Record frame_good (f : WalFrame) : Prop := {
  fg_seq : is_u64 (frame_seq f); fg_ne : frame_ops f <> []; fg_ops : Forall op_good (frame_ops f) }.
Record frames_good (fs : list WalFrame) : Prop := {
  fsg_each : Forall frame_good fs; fsg_sorted : StronglySorted Z.lt (map frame_seq fs) }.

Lemma frame_good_wf f : frame_good f -> frame_wf f.
Proof.
  intros [Hs _ Ho]. split; [done|]. eapply Forall_impl; [exact Ho|]. intros [] (H & _); done.
Qed.
Lemma frames_good_app fs gs :
  frames_good (fs ++ gs) <-> frames_good fs /\ frames_good gs /\ (forall f g, f ∈ fs -> g ∈ gs -> frame_seq f < frame_seq g).
Proof.
  split.
  - intros [He Hs]. apply Forall_app in He as [? ?]. rewrite map_app in Hs. pose proof (sorted_app_inv _ _ _ Hs) as [? ?].
    split_and!; [done | done|]. intros f g Hf Hg. eapply (sorted_app_rel _ _ _ _ _ Hs); apply list_elem_of_In, in_map, list_elem_of_In; done.
  - intros ([He Hs] & [He' Hs'] & Hx). split; [by apply Forall_app|]. rewrite map_app. apply StronglySorted_app; [done | done|].
    intros a b Ha Hb. apply list_elem_of_In, in_map_iff in Ha as (f & <- & Hf), Hb as (g & <- & Hg). apply Hx; by apply list_elem_of_In.
Qed.

Lemma flat_run_frame ws s ops k s' :
  Forall byte_op ops ->
  flat_run (ws ++ map (op_write s) ops) !! (k, s') =
  match (if s' =? s then last_says ops k else None) with
  | Some x => Some (Byte (mkByteRow x))
  | None => flat_run ws !! (k, s')
  end.
Proof.
  induction ops as [|o ops IH] using rev_ind; intros Hb.
  { cbn. rewrite app_nil_r. by destruct (s' =? s). }
  apply Forall_app in Hb as [Hb Ho]. apply Forall_inv in Ho. specialize (IH Hb).
  rewrite map_app, app_assoc, last_says_snoc. cbn [map].
  assert (forall k' x, op_write s o = (k', s, Byte (mkByteRow x)) -> op_says k o = (if bytes_eqb k' k then Some x else None) ->
    flat_run ((ws ++ map (op_write s) ops) ++ [op_write s o]) !! (k, s') =
    match (if s' =? s then match op_says k o with Some x => Some x | None => last_says ops k end else None) with
    | Some x => Some (Byte (mkByteRow x)) | None => flat_run ws !! (k, s') end) as H.
  { intros k' x -> ->. rewrite flat_run_snoc. destruct (s' =? s) eqn:Es; bool_to_prop.
    - subst s'. destruct (bytes_eqb k' k) eqn:E.
      + apply bytes_eqb_eq in E as ->. by rewrite lookup_insert_eq.
      + apply bytes_eqb_neq in E. rewrite lookup_insert_ne by congruence. by rewrite IH.
    - rewrite lookup_insert_ne by congruence. by rewrite IH. }
  destruct o; try done; by eapply H.
Qed.

(** The rows of a run of frames: per frame and key, what the frame last says of the key. *)
Definition mem_row (k : bytes) (seq : Z) (x : option bytes) : SegmentEntry := flush_row (k, seq, Byte (mkByteRow x)).

#[global] Arguments mem_row : simpl never.

Lemma mem_of_lookup fs k s e :
  frames_good fs ->
  flat_run (flat_map frame_writes fs) !! (k, s) = Some e <->
  exists f x, f ∈ fs /\ frame_seq f = s /\ last_says (frame_ops f) k = Some x /\ e = Byte (mkByteRow x).
Proof.
  induction fs as [|f fs IH] using rev_ind; intros Hg.
  { cbn. unfold flat_run. cbn. rewrite lookup_empty. split; [done|]. intros (? & ? & H & _). by apply not_elem_of_nil in H. }
  apply frames_good_app in Hg as (Hg & [Hf _] & Hx). apply Forall_inv in Hf. rewrite flat_map_app. cbn [flat_map]. rewrite app_nil_r.
  unfold frame_writes at 2. rewrite flat_run_frame by (eapply Forall_impl; [apply Hf|]; by intros ? [? _]).
  specialize (IH Hg). destruct (s =? frame_seq f) eqn:Es; bool_to_prop.
  - destruct (last_says (frame_ops f) k) as [x|] eqn:El.
    + split.
      * intros [= <-]. exists f, x. split_and!; try done. set_solver.
      * intros (g & y & Hin & Hs & Hl & ->). apply elem_of_app in Hin as [Hin|Hin]; [|apply list_elem_of_singleton in Hin; congruence].
        specialize (Hx g f Hin ltac:(set_solver)). lia.
    + rewrite IH. split; intros (g & y & Hin & Hs & Hl & ->); exists g, y; (split; [|done]); [set_solver|].
      apply elem_of_app in Hin as [Hin|Hin]; [done|]. apply list_elem_of_singleton in Hin. congruence.
  - rewrite IH. split; intros (g & y & Hin & Hs & Hl & ->); exists g, y; (split; [|done]); [set_solver|].
    apply elem_of_app in Hin as [Hin|Hin]; [done|]. apply list_elem_of_singleton in Hin. congruence.
Qed.

(* ------------------------------------------------------------------ *)
(** * Layers *)

(** The rows a memtable flushes, in publication order. *)
Definition mem_rows (m : Memtable) : list SegmentEntry := reverse_runs [] (map flush_row (mt_entries m)).
Abbreviation frames_rows fs := (mem_rows (mem_of fs)).

Lemma flush_row_key x : se_key (flush_row x) = x.1.1.
Proof. destruct x as [[k s] e]. cbn. by destruct (into_parts e). Qed.
Lemma flush_row_seq x : se_seq (flush_row x) = x.1.2.
Proof. destruct x as [[k s] e]. cbn. by destruct (into_parts e). Qed.

Lemma mem_rows_sorted m : mt_sorted m -> StronglySorted publish_lt (mem_rows m).
Proof.
  intros H%mt_entries_sorted. apply reverse_runs_sorted; [constructor | | set_solver | set_solver].
  induction H as [|x l Hs IH Hf]; cbn; constructor; [done|]. apply Forall_map. eapply Forall_impl; [exact Hf|].
  intros y Hy. unfold flush_lt. by rewrite !flush_row_key, !flush_row_seq.
Qed.
Lemma frames_rows_sorted fs : StronglySorted publish_lt (frames_rows fs).
Proof. apply mem_rows_sorted, mt_run_sorted. Qed.

Lemma mem_rows_elem m e : e ∈ mem_rows m <-> exists x, x ∈ mt_entries m /\ e = flush_row x.
Proof.
  unfold mem_rows. rewrite reverse_runs_perm. cbn [app]. rewrite list_elem_of_In, in_map_iff.
  split; intros (x & H & Hx); exists x; [by rewrite list_elem_of_In | by rewrite <-list_elem_of_In].
Qed.

Lemma mem_of_flat fs k s : mt_lookup (mem_of fs) k s = flat_run (flat_map frame_writes fs) !! (k, s).
Proof. rewrite <-flat_lookup by apply mt_run_sorted. unfold mem_of. by rewrite mt_run_flat. Qed.
Lemma frames_rows_elem fs e :
  frames_good fs ->
  e ∈ frames_rows fs <-> exists f k x, f ∈ fs /\ last_says (frame_ops f) k = Some x /\ e = mem_row k (frame_seq f) x.
Proof.
  intros Hg. rewrite mem_rows_elem. split.
  - intros ([[k s] y] & Hy & ->). apply mt_entries_elem in Hy; [|apply mt_run_sorted].
    rewrite mem_of_flat in Hy. apply mem_of_lookup in Hy as (f & x & Hin & <- & Hl & ->); [|done].
    by exists f, k, x.
  - intros (f & k & x & Hin & Hl & ->). exists (k, frame_seq f, Byte (mkByteRow x)). split; [|done].
    apply mt_entries_elem; [apply mt_run_sorted|]. rewrite mem_of_flat.
    apply mem_of_lookup; [done|]. by exists f, x.
Qed.

Lemma mem_row_fields k s x : se_key (mem_row k s x) = k /\ se_seq (mem_row k s x) = s /\ byte_row (mem_row k s x) /\
  row_value (mem_row k s x) = x.
Proof. unfold mem_row. cbn. split_and!; try done. by destruct x. Qed.

(** The row a sorted layer answers: the one of highest sequence. *)
Lemma find_row_top l k e :
  StronglySorted publish_lt l ->
  find_row k None l = Some e <-> e ∈ l /\ se_key e = k /\ forall x, x ∈ l -> se_key x = k -> se_seq x <= se_seq e.
Proof.
  unfold find_row. intros Hs. revert e. induction Hs as [|a l Hs IH Hf]; intros e; cbn.
  { split; [done|]. intros [H _]. by apply not_elem_of_nil in H. }
  rewrite Forall_forall in Hf. unfold row_match at 1. destruct (bytes_eqb (se_key a) k) eqn:E; cbn [andb].
  - apply bytes_eqb_eq in E. split.
    + intros [= <-]. split_and!; [set_solver | done|]. intros x Hx Ek. apply elem_of_cons in Hx as [->|Hx]; [done|].
      destruct (Hf x Hx) as [H|[_ H]]; [|lia]. rewrite E, Ek in H. by apply bytes_lt_irrefl in H.
    + intros (He & Ek & Hm). f_equal. apply elem_of_cons in He as [->|He]; [done|]. specialize (Hm a ltac:(set_solver) E).
      destruct (Hf e He) as [H|[_ H]]; [|lia]. rewrite E, Ek in H. by apply bytes_lt_irrefl in H.
  - apply bytes_eqb_neq in E. rewrite IH. split.
    + intros (He & Ek & Hm). split_and!; [set_solver | done|]. intros x Hx Exk. apply elem_of_cons in Hx as [->|Hx]; [done | by apply Hm].
    + intros (He & Ek & Hm). apply elem_of_cons in He as [->|He]; [done|]. split_and!; [done | done|]. intros x Hx. apply Hm. set_solver.
Qed.
Lemma find_row_no l k : find_row k None l = None <-> forall x, x ∈ l -> se_key x <> k.
Proof.
  unfold find_row. rewrite find_none_iff. unfold row_match. split.
  - intros H x Hx. specialize (H x (proj1 (list_elem_of_In _ _) Hx)). rewrite andb_true_r in H. by apply bytes_eqb_neq.
  - intros H x Hx%list_elem_of_In. rewrite andb_true_r. by apply bytes_eqb_neq, H.
Qed.

(** A read over layers, oldest first in the list: the first hit of the newest. *)
Definition layers_get (ls : list (list SegmentEntry)) (k : bytes) : option SegmentEntry := newest_first (find_row k None) ls.
Definition view (ls : list (list SegmentEntry)) (k : bytes) : option bytes := layers_get ls k ≫= row_value.
Definition represents (ls : list (list SegmentEntry)) (m : gmap bytes bytes) : Prop := forall k, view ls k = m !! k.

Lemma newest_first_app {A B} (f : A -> option B) l k :
  newest_first f (l ++ k) = match newest_first f k with Some b => Some b | None => newest_first f l end.
Proof. induction l as [|x l IH]; cbn; [by destruct (newest_first f k)|]. rewrite IH. by destruct (newest_first f k). Qed.
Lemma layers_get_app ls ms k :
  layers_get (ls ++ ms) k = match layers_get ms k with Some e => Some e | None => layers_get ls k end.
Proof. apply newest_first_app. Qed.
Lemma represents_ext ls ls' m : (forall k, layers_get ls k = layers_get ls' k) -> represents ls m -> represents ls' m.
Proof. intros H Hr k. unfold view. rewrite <-H. apply Hr. Qed.

(* ------------------------------------------------------------------ *)
(** * Runs of frames as layers *)

Lemma frames_rows_app fs gs e :
  frames_good (fs ++ gs) -> e ∈ frames_rows (fs ++ gs) <-> e ∈ frames_rows fs \/ e ∈ frames_rows gs.
Proof.
  intros Hg. pose proof (proj1 (frames_good_app _ _) Hg) as (Hf & Hgs & _). rewrite !frames_rows_elem by done.
  setoid_rewrite elem_of_app. naive_solver.
Qed.
Lemma frames_rows_seq fs e : frames_good fs -> e ∈ frames_rows fs -> exists f, f ∈ fs /\ se_seq e = frame_seq f.
Proof. intros Hg (f & k & x & Hf & _ & ->)%frames_rows_elem; [|done]. exists f. split; [done|]. apply mem_row_fields. Qed.
Lemma frames_rows_byte fs : frames_good fs -> Forall byte_row (frames_rows fs).
Proof. intros Hg. apply Forall_forall. intros e (f & k & x & _ & _ & ->)%frames_rows_elem; [|done]. apply mem_row_fields. Qed.

Lemma last_says_in ops k x : last_says ops k = Some x -> exists o, o ∈ ops /\ op_says k o = Some x.
Proof.
  induction ops as [|o ops IH] using rev_ind; [done|]. rewrite last_says_snoc. destruct (op_says k o) as [y|] eqn:E.
  - intros [= <-]. exists o. set_solver.
  - intros H. destruct (IH H) as (o' & ? & ?). exists o'. set_solver.
Qed.
Lemma frames_rows_wf fs : frames_good fs -> Forall entry_wf (frames_rows fs).
Proof.
  intros Hg. apply Forall_forall. intros e (f & k & x & Hf & Hl & ->)%frames_rows_elem; [|done].
  pose proof (proj1 (Forall_forall _ _) (fsg_each _ Hg) f Hf) as [Hs _ Ho]. apply last_says_in in Hl as (o & Hin & Hsay).
  eapply Forall_forall in Ho; [|exact Hin]. destruct Ho as (Hb & Hk & Hv).
  destruct o as [k' v|k'| | |]; try done; cbn in Hsay, Hk, Hv; destruct (bytes_eqb k' k) eqn:E; try done; apply bytes_eqb_eq in E as ->;
    injection Hsay as <-; unfold mem_row, entry_wf; cbn; split_and!; done.
Qed.

Lemma frames_get_app fs gs k :
  frames_good (fs ++ gs) ->
  find_row k None (frames_rows (fs ++ gs)) =
  match find_row k None (frames_rows gs) with Some e => Some e | None => find_row k None (frames_rows fs) end.
Proof.
  intros Hg. pose proof (proj1 (frames_good_app _ _) Hg) as (Hf & Hgs & Hx).
  pose proof (fun e => frames_rows_app fs gs e Hg) as Hel. pose proof (frames_rows_sorted (fs ++ gs)) as Hs.
  destruct (find_row k None (frames_rows gs)) as [e|] eqn:E.
  - apply find_row_top in E as (He & Hk & Hm); [|apply frames_rows_sorted]. apply find_row_top; [done|].
    rewrite Hel. split_and!; [by right | done|]. intros x [Hin|Hin]%Hel Ek; [|by apply Hm].
    apply frames_rows_seq in Hin as (f & Hff & ->); [|done]. apply frames_rows_seq in He as (g & Hgg & ->); [|done].
    specialize (Hx f g Hff Hgg). lia.
  - rewrite find_row_no in E. destruct (find_row k None (frames_rows fs)) as [e|] eqn:E2.
    + apply find_row_top in E2 as (He & Hk & Hm); [|apply frames_rows_sorted]. apply find_row_top; [done|].
      rewrite Hel. split_and!; [by left | done|]. intros x [Hin|Hin]%Hel Ek; [by apply Hm | by apply E in Hin].
    + rewrite find_row_no in E2. apply find_row_no. intros x [Hin|Hin]%Hel; auto.
Qed.

(** The memtables of consecutive runs answer as the one memtable of all the frames. *)
Lemma frames_layers_get fss k :
  frames_good (concat fss) ->
  layers_get (map (fun fs => frames_rows fs) fss) k = find_row k None (frames_rows (concat fss)).
Proof.
  unfold layers_get. induction fss as [|fs fss IH]; intros Hg; [done|]. cbn [map concat newest_first] in *.
  rewrite frames_get_app by done. apply frames_good_app in Hg as (_ & Hg & _). by rewrite IH.
Qed.

(** What one more frame says. *)
Lemma frame_get f k :
  frame_good f -> find_row k None (frames_rows [f]) = (fun x => mem_row k (frame_seq f) x) <$> last_says (frame_ops f) k.
Proof.
  intros Hf. assert (frames_good [f]) as Hg by (split; [by constructor | repeat constructor]).
  destruct (last_says (frame_ops f) k) as [x|] eqn:E; cbn.
  - apply find_row_top; [apply frames_rows_sorted|]. split_and!.
    + apply frames_rows_elem; [done|]. exists f, k, x. split_and!; [set_solver | done | done].
    + apply mem_row_fields.
    + intros y (g & Hgin & ->)%frames_rows_seq _; [|done]. by apply list_elem_of_singleton in Hgin as ->.
  - apply find_row_no. intros y (g & k' & x & Hgin & Hl & ->)%frames_rows_elem; [|done]. apply list_elem_of_singleton in Hgin as ->.
    destruct (mem_row_fields k' (frame_seq f) x) as (-> & _). congruence.
Qed.

(** Committing a frame to the newest layer is its effect on the content. *)
Lemma represents_frame ls fs f m :
  frames_good (fs ++ [f]) -> represents (ls ++ [frames_rows fs]) m ->
  represents (ls ++ [frames_rows (fs ++ [f])]) (ops_effect m (frame_ops f)).
Proof.
  intros Hg Hr k. pose proof (proj1 (frames_good_app _ _) Hg) as (_ & [Hf _] & _). apply Forall_inv in Hf.
  specialize (Hr k). unfold view in *. rewrite layers_get_app in *. unfold layers_get at 1 in Hr. unfold layers_get at 1.
  cbn [newest_first] in *. rewrite frames_get_app, frame_get by done.
  rewrite ops_effect_lookup by (eapply Forall_impl; [apply Hf|]; by intros ? [? _]).
  destruct (last_says (frame_ops f) k) as [x|]; [|done]. cbn. by destruct (mem_row_fields k (frame_seq f) x) as (_ & _ & _ & ->).
Qed.

(** The memtable read is the layer's. *)
Lemma mem_of_get fs k :
  frames_good fs -> mt_get (mem_of fs) k = (fun e => mkByteRow (row_value e)) <$> find_row k None (frames_rows fs).
Proof.
  intros Hg. pose proof (fun b => mt_read_spec (mem_of fs) k as_byte b (mt_run_sorted _)) as H. unfold mt_get.
  assert (forall b, is_head (flat (mem_of fs)) k as_byte b <-> exists e, find_row k None (frames_rows fs) = Some e /\ b = mkByteRow (row_value e)) as Hh.
  { intros b. setoid_rewrite find_row_top; [|apply frames_rows_sorted]. unfold is_head, mem_of. setoid_rewrite mt_run_flat.
    setoid_rewrite mem_of_lookup; [|done..]. split.
    - intros (s & e & (f & x & Hf & <- & Hl & ->) & Hb & Hm). injection Hb as <-. exists (mem_row k (frame_seq f) x).
      destruct (mem_row_fields k (frame_seq f) x) as (E1 & E2 & _ & E4). rewrite E2, E4. split; [|done]. split_and!; [|done|].
      + apply frames_rows_elem; [done|]. by exists f, k, x.
      + intros y (g & k' & z & Hgg & Hlz & ->)%frames_rows_elem Ek; [|done].
        destruct (mem_row_fields k' (frame_seq g) z) as (E5 & -> & _). rewrite E5 in Ek. subst k'.
        apply (Hm (frame_seq g) (Byte (mkByteRow z))); [by exists g, z | done].
    - intros (e & ((f & k' & x & Hf & Hl & ->)%frames_rows_elem & Ek & Hm) & ->); [|done].
      destruct (mem_row_fields k' (frame_seq f) x) as (E1 & E2 & _ & E4). rewrite E1 in Ek. subst k'. rewrite E4.
      exists (frame_seq f), (Byte (mkByteRow x)). split_and!; [by exists f, x | done|].
      intros s' e' (g & z & Hgg & <- & Hlz & ->) _. rewrite E2 in Hm. specialize (Hm (mem_row k (frame_seq g) z)).
      destruct (mem_row_fields k (frame_seq g) z) as (E5 & E6 & _). rewrite E6 in Hm. apply Hm; [|done].
      apply frames_rows_elem; [done|]. by exists g, k, z. }
  destruct (btree_get (mt_map (mem_of fs)) k ≫= find_map_rev as_byte) as [b|] eqn:E.
  - destruct (proj1 (Hh b) (proj1 (H b) eq_refl)) as (e & -> & ->). done.
  - destruct (find_row k None (frames_rows fs)) as [e|] eqn:E2; [|done]. exfalso.
    assert (is_head (flat (mem_of fs)) k as_byte (mkByteRow (row_value e))) as Hd by (apply Hh; eauto).
    by apply H in Hd.
Qed.

(* ------------------------------------------------------------------ *)
(** * Ordered layers *)

(** Layers whose first hit for a key is its row of highest sequence.  A crash between a
    flush's publication and its WAL truncation leaves rows in a segment and in the replayed
    memtable: they repeat, but agree. *)
Record layered (ls : list (list SegmentEntry)) : Prop := {
  ly_sorted : Forall (StronglySorted publish_lt) ls;
  ly_consistent : consistent (concat ls);
  ly_top : forall k e x, layers_get ls k = Some e -> x ∈ concat ls -> se_key x = k -> se_seq x <= se_seq e }.

Lemma elem_of_concat {A} (x : A) ls : x ∈ concat ls <-> exists l, l ∈ ls /\ x ∈ l.
Proof. rewrite list_elem_of_In, in_concat. by setoid_rewrite list_elem_of_In. Qed.
Lemma layers_get_in ls k e : layers_get ls k = Some e -> exists l, l ∈ ls /\ find_row k None l = Some e.
Proof.
  unfold layers_get. induction ls as [|l ls IH]; cbn; [done|]. destruct (newest_first _ ls) as [b|].
  - intros [= <-]. destruct IH as (l' & ? & ?); [done|]. exists l'. set_solver.
  - intros H. exists l. set_solver.
Qed.
Lemma layers_get_no ls k : layers_get ls k = None <-> forall x, x ∈ concat ls -> se_key x <> k.
Proof.
  unfold layers_get. induction ls as [|l ls IH]; cbn; [split; [intros _ x H; by apply not_elem_of_nil in H | done]|].
  setoid_rewrite elem_of_app. destruct (newest_first _ ls) as [b|].
  - split; [done|]. intros H. apply IH. intros x Hx. apply H. by right.
  - rewrite find_row_no. pose proof (proj1 IH eq_refl). split; [naive_solver|]. intros Hx x Hin. apply Hx. by left.
Qed.

(** The answer is a row of the key. *)
Lemma layers_get_elem ls k e :
  Forall (StronglySorted publish_lt) ls -> layers_get ls k = Some e -> e ∈ concat ls /\ se_key e = k.
Proof.
  intros Hs (l & Hl & Hf)%layers_get_in. assert (StronglySorted publish_lt l) as Hsl by (by eapply Forall_forall in Hl).
  apply find_row_top in Hf as (He & Hk & _); [|done]. split; [|done]. apply elem_of_concat. eauto.
Qed.

(** Reading the layers is reading their merge. *)
Lemma find_row_sorted l k e :
  StronglySorted sort_le l -> find_row k None l = Some e -> e ∈ l /\ se_key e = k /\ forall x, x ∈ l -> se_key x = k -> se_seq x <= se_seq e.
Proof.
  unfold find_row. induction 1 as [|a l Hs IH Hf]; cbn; [done|]. rewrite Forall_forall in Hf. unfold row_match at 1.
  destruct (bytes_eqb (se_key a) k) eqn:E; cbn [andb].
  - intros [= <-]. apply bytes_eqb_eq in E. split_and!; [set_solver | done|]. intros x Hx Ek. apply elem_of_cons in Hx as [->|Hx]; [done|].
    specialize (Hf x Hx). apply entry_le_spec in Hf as [H|[_ H]]; [|done]. rewrite E, Ek in H. by apply bytes_lt_irrefl in H.
  - intros H. apply bytes_eqb_neq in E. destruct (IH H) as (H1 & H2 & H3). split_and!; [set_solver | done|].
    intros x Hx Ek. apply elem_of_cons in Hx as [->|Hx]; [done | by apply H3].
Qed.
Lemma find_row_merge ls k e :
  consistent (concat ls) -> e ∈ concat ls -> se_key e = k -> (forall x, x ∈ concat ls -> se_key x = k -> se_seq x <= se_seq e) ->
  find_row k None (merge_order ls) = Some e.
Proof.
  intros Hc He Hk Hm. pose proof (sort_entries_perm (concat ls)) as Hp. pose proof (sort_entries_sorted (concat ls)) as Hs.
  unfold merge_order. destruct (find_row k None (sort_entries (concat ls))) as [e'|] eqn:E.
  - apply find_row_sorted in E as (H1 & H2 & H3); [|done]. rewrite Hp in H1. f_equal. apply Hc; [done | done|].
    unfold version_of. specialize (Hm e' H1 H2). specialize (H3 e ltac:(by rewrite Hp) Hk). f_equal; [congruence | lia].
  - rewrite find_row_no in E. exfalso. by apply (E e); [rewrite Hp|].
Qed.

(** Where the layers above have no row of a key, reading the layers below is reading their
    merge. *)
Lemma layers_get_merge ls ms k :
  layered (ls ++ ms) -> layers_get ms k = None -> layers_get ls k = find_row k None (merge_order ls).
Proof.
  intros [Hs Hc Ht] Hn. specialize (Ht k). rewrite layers_get_app, Hn in Ht. rewrite concat_app in Hc, Ht. setoid_rewrite elem_of_app in Ht.
  apply Forall_app in Hs as [Hs _]. destruct (layers_get ls k) as [e|] eqn:E; symmetry.
  - destruct (layers_get_elem _ _ _ Hs E) as [He Hk]. apply find_row_merge; [|done|done|].
    + intros a b Ha Hb. apply Hc; set_solver.
    + intros x Hx. apply Ht; [done | by left].
  - rewrite layers_get_no in E. apply find_row_no. intros x. unfold merge_order. rewrite sort_entries_perm. apply E.
Qed.

(** Layers that answer alike out of the same rows. *)
Lemma layered_ext ls ls' :
  layered ls -> Forall (StronglySorted publish_lt) ls' -> (forall k, layers_get ls' k = layers_get ls k) ->
  (forall x, x ∈ concat ls' -> x ∈ concat ls) -> layered ls'.
Proof.
  intros [_ Hc Ht] Hs' Hg Hi. split; [done | |].
  - intros a b Ha Hb. apply Hc; auto.
  - intros k e x. rewrite Hg. intros He Hx. apply (Ht k); auto.
Qed.

(** A committed frame keeps the layers in order. *)
Lemma layered_frame ls fs f :
  frames_good (fs ++ [f]) -> (forall x, x ∈ concat ls -> se_seq x < frame_seq f) ->
  layered (ls ++ [frames_rows fs]) -> layered (ls ++ [frames_rows (fs ++ [f])]).
Proof.
  intros Hg Hlt [Hs Hc Ht]. pose proof (proj1 (frames_good_app _ _) Hg) as (Hgf & Hgs & Hx). pose proof Hgs as [Hf _]. apply Forall_inv in Hf.
  assert (forall x, x ∈ concat (ls ++ [frames_rows (fs ++ [f])]) <-> x ∈ concat (ls ++ [frames_rows fs]) \/ x ∈ frames_rows [f]) as Hel.
  { intros x. rewrite !concat_app. cbn. rewrite !app_nil_r, !elem_of_app, frames_rows_app by done. tauto. }
  assert (forall x, x ∈ concat (ls ++ [frames_rows fs]) -> se_seq x < frame_seq f) as Hold.
  { intros x. rewrite concat_app. cbn. rewrite app_nil_r, elem_of_app. intros [Hin|Hin]; [by apply Hlt|].
    apply frames_rows_seq in Hin as (g & Hgin & ->); [|done]. apply Hx; [done | set_solver]. }
  assert (forall x, x ∈ frames_rows [f] -> exists y, last_says (frame_ops f) (se_key x) = Some y /\ x = mem_row (se_key x) (frame_seq f) y) as Hnew.
  { intros x (g & k & y & Hgin & Hl & ->)%frames_rows_elem; [|done]. apply list_elem_of_singleton in Hgin as ->. exists y.
    destruct (mem_row_fields k (frame_seq f) y) as (-> & _). done. }
  split.
  - apply Forall_app in Hs as [Hs _]. apply Forall_app. split; [done|]. constructor; [apply frames_rows_sorted | done].
  - intros a b Ha Hb E. apply Hel in Ha, Hb. pose proof (f_equal snd E) as Eq. pose proof (f_equal fst E) as Ek. cbn in Eq, Ek.
    destruct Ha as [Ha|Ha], Hb as [Hb|Hb].
    + by apply Hc.
    + specialize (Hold a Ha). apply Hnew in Hb as (y & _ & Eb). rewrite Eq, Eb in Hold.
      destruct (mem_row_fields (se_key b) (frame_seq f) y) as (_ & Es & _). rewrite Es in Hold. lia.
    + specialize (Hold b Hb). apply Hnew in Ha as (y & _ & Ea). rewrite <-Eq, Ea in Hold.
      destruct (mem_row_fields (se_key a) (frame_seq f) y) as (_ & Es & _). rewrite Es in Hold. lia.
    + apply Hnew in Ha as (y & Hy & Ea), Hb as (z & Hz & Eb). rewrite Ek in Ea, Hy. congruence.
  - intros k e x He Hin Hk. apply Hel in Hin. rewrite layers_get_app in He. unfold layers_get at 1 in He. cbn [newest_first] in He.
    rewrite frames_get_app, frame_get in He by done. destruct (last_says (frame_ops f) k) as [y|] eqn:El; cbn [fmap option_fmap option_map] in He.
    + injection He as <-. destruct (mem_row_fields k (frame_seq f) y) as (_ & -> & _). destruct Hin as [Hin|Hin]; [specialize (Hold x Hin); lia|].
      apply Hnew in Hin as (z & _ & ->). destruct (mem_row_fields (se_key x) (frame_seq f) z) as (_ & -> & _). done.
    + destruct Hin as [Hin|Hin].
      * eapply (Ht k e x); [|done|done]. rewrite layers_get_app. exact He.
      * apply Hnew in Hin as (z & Hz & _). congruence.
Qed.

(** Layers of consecutive runs hold the rows of the one run of all the frames. *)
Lemma frames_layers_rows fss x :
  frames_good (concat fss) -> x ∈ concat (map (fun fs => frames_rows fs) fss) <-> x ∈ frames_rows (concat fss).
Proof.
  induction fss as [|fs fss IH]; intros Hg; [done|]. cbn [map concat] in *. rewrite frames_rows_app by done.
  apply frames_good_app in Hg as (_ & Hg & _). rewrite elem_of_app, IH by done. done.
Qed.
