(* ===== verification/DbWp.v ===== *)
(** Reasoning about the database monad: what an operation guarantees when it succeeds and
    what it leaves behind when it stops with an error. *)

From stdpp Require Import gmap.
From S2P Require Import Prelude Format Disk DbState.

(** [wp m Q E d]: run from [d], [m] ends in a state and answer of [Q], or stops in a state
    of [E].  [E] is also what a crash at the failing write leaves. *)
Definition wp {A} (m : M A) (Q : A -> Db -> Prop) (E : Db -> Prop) (d : Db) : Prop :=
  match m d with (d', Ok a) => Q a d' | (d', Err _) => E d' end.

(** Some write to come fails.  [calm F d]: that only happens under [F], so with [F] false
    every write completes. *)
Definition faulty (io : list IoOutcome) : Prop := Exists (fun o => o <> IoOk) io.
Definition calm (F : Prop) (io : IoEnv) : Prop := faulty (io_next io) -> F.

Lemma calm_nil F io : io_next io = [] -> calm F io.
Proof. intros E H. unfold faulty in H. rewrite E in H. by apply Exists_nil in H. Qed.
Lemma calm_tail F o io w p w' p' : calm F (mkIo (o :: io) w p) -> calm F (mkIo io w' p').
Proof. intros H Hf. apply H. by apply Exists_cons_tl. Qed.
Lemma calm_fail F n io w p : calm F (mkIo (IoFail n :: io) w p) -> F.
Proof. intros H. apply H. by apply Exists_cons_hd. Qed.

(** The three outcomes of the next write. *)
Ltac io_cases :=
  match goal with
  | |- forall _ : calm _ ?io, _ =>
      intros Hc HQ HE; destruct io as [[|[|l] io] w p];
        [by apply HQ, calm_nil | apply HQ; by eapply calm_tail | apply HE; try (by eapply calm_fail); by eapply calm_tail]
  end.

Section Rules.
Context {A B : Type}.
Implicit Types (Q : A -> Db -> Prop) (E : Db -> Prop) (d : Db).

Lemma wp_mono (m : M A) Q Q' E E' d :
  wp m Q E d -> (forall a d', Q a d' -> Q' a d') -> (forall d', E d' -> E' d') -> wp m Q' E' d.
Proof. unfold wp. destruct (m d) as [d' [a|e]]; auto. Qed.
Lemma wp_bind (m : M B) (f : B -> M A) Q E d : wp m (fun b => wp (f b) Q E) E d -> wp (m ≫= f) Q E d.
Proof. unfold wp, mbind, M_bind. destruct (m d) as [d' [b|e]]; auto. Qed.
Lemma wp_ret (a : A) Q E d : Q a d -> wp (mret a) Q E d.
Proof. done. Qed.
Lemma wp_gets (f : State -> A) Q E d : Q (f (db_state d)) d -> wp (gets f) Q E d.
Proof. done. Qed.
Lemma wp_lift (r : Result A) a Q E d : r = Ok a -> Q a d -> wp (lift r) Q E d.
Proof. by intros ->. Qed.
Lemma wp_throw e Q E d : E d -> wp (throw (A:=A) e) Q E d.
Proof. done. Qed.
End Rules.

Lemma wp_get_db Q E d : Q d d -> wp get_db Q E d.
Proof. done. Qed.
Lemma wp_modify f (Q : unit -> Db -> Prop) E d : Q tt (upd_state f d) -> wp (modify f) Q E d.
Proof. done. Qed.
Lemma wp_modify_db f (Q : unit -> Db -> Prop) E d : Q tt (f d) -> wp (modify_db f) Q E d.
Proof. done. Qed.
Lemma wp_when b m (Q : unit -> Db -> Prop) E d :
  (b = true -> wp m Q E d) -> (b = false -> Q tt d) -> wp (when b m) Q E d.
Proof. destruct b; intros H1 H2; [by apply H1 | by apply H2]. Qed.

(** The writes: each completes, or fails under [F] and leaves what it found (an append
    what landed). *)
Section Io.
Context (F : Prop) (s : State) (dir : Dir) (wal : bytes) (fe : option string) (wf cp : bool).
Abbreviation at_ dir wal io := (mkDb s dir wal io fe wf cp).

Lemma wp_publish n bs io (Q : unit -> Db -> Prop) E :
  calm F io -> (forall io, calm F io -> Q tt (at_ (<[n := bs]> dir) wal io)) ->
  (F -> forall io, calm F io -> E (at_ dir wal io)) -> wp (publish_atomic n bs) Q E (at_ dir wal io).
Proof. io_cases. Qed.
Lemma wp_remove n io (Q : unit -> Db -> Prop) E :
  calm F io -> (forall io, calm F io -> Q tt (at_ (delete n dir) wal io)) ->
  (forall io, calm F io -> Q tt (at_ dir wal io)) -> wp (remove_file n) Q E (at_ dir wal io).
Proof. io_cases. Qed.
Lemma wp_append bs io (Q : unit -> Db -> Prop) E :
  calm F io -> (forall io, calm F io -> Q tt (at_ dir (wal ++ bs) io)) ->
  (F -> forall n io, calm F io -> E (at_ dir (wal ++ ztake n bs) io)) -> wp (wal_append bs) Q E (at_ dir wal io).
Proof. io_cases. Qed.
Lemma wp_set_len n io (Q : unit -> Db -> Prop) E :
  calm F io -> (forall io, calm F io -> Q tt (at_ dir (ztake n wal) io)) ->
  (F -> forall io, calm F io -> E (at_ dir wal io)) -> wp (wal_set_len n) Q E (at_ dir wal io).
Proof. io_cases. Qed.
Lemma wp_sync io (Q : unit -> Db -> Prop) E :
  calm F io -> (forall io, calm F io -> Q tt (at_ dir wal io)) ->
  (F -> forall io, calm F io -> E (at_ dir wal io)) -> wp wal_sync Q E (at_ dir wal io).
Proof. io_cases. Qed.
End Io.

(** Steps the pure operations of a sequence, leaving the writes to their rules. *)
Ltac wp_pure :=
  cbv beta iota zeta; match goal with
  | |- wp (_ ≫= _) _ _ _ => apply wp_bind
  | |- wp (mret _) _ _ _ => apply wp_ret
  | |- wp (gets _) _ _ _ => apply wp_gets
  | |- wp get_db _ _ _ => apply wp_get_db
  | |- wp (modify _) _ _ _ => apply wp_modify
  | |- wp (modify_db _) _ _ _ => apply wp_modify_db
  end.
Ltac wp_steps := repeat wp_pure; cbv beta iota zeta.

(* ------------------------------------------------------------------ *)
(** * Power loss *)

(** Nothing waits for a sync: a power loss leaves the WAL the process sees. *)
Definition settled (d : Db) : Prop := io_pending (db_io d) = [] /\ io_synced (db_io d) = db_wal d.

(** The same database with other writes to come. *)
Definition set_io (io : list IoOutcome) (d : Db) : Db := upd_io (fun e => mkIo io (io_synced e) (io_pending e)) d.

(** The directory and the WAL that stopping at a failing write can leave. *)
Definition crashes {A} (m : M A) (d : Db) (dir : Dir) (wal : bytes) : Prop :=
  exists io d' e, m (set_io io d) = (d', Err e) /\ db_dir d' = dir /\ db_wal d' = wal.

(** What a power loss can leave, other than the WAL the process sees, is in [C]. *)
Definition steady (C : Dir -> bytes -> Prop) (d : Db) : Prop :=
  fold_left wal_apply (io_pending (db_io d)) (io_synced (db_io d)) = db_wal d /\
  forall n cut, power_loss (db_io d) n cut = db_wal d \/ C (db_dir d) (power_loss (db_io d) n cut).

(** An operation uses up some outcomes and does not look at the others. *)
Definition framed {A} (m : M A) : Prop :=
  forall d, exists used, forall io, m (set_io (used ++ io) d) = (set_io io (m d).1, (m d).2).

(** [covered m]: whatever a power loss leaves of [m] stopped at a failing write, a failure
    at some earlier write of it leaves too; and a completed [m] leaves nothing unsynced.
    [exposed m]: the same of an operation on the WAL alone, started with unsynced writes and
    perhaps leaving some. *)
Definition covered {A} (m : M A) : Prop :=
  framed m /\ forall d, settled d -> match m d with (d', Ok _) => settled d' | (d', Err _) => steady (crashes m d) d' end.
Definition exposed {A} (m : M A) : Prop :=
  framed m /\ forall d C, steady C d ->
    steady (fun dir wal => C dir wal \/ crashes m d dir wal) (m d).1 /\ db_dir (m d).1 = db_dir d.

Lemma set_io_twice io io' d : set_io io (set_io io' d) = set_io io d.
Proof. done. Qed.
Lemma set_io_next d : set_io (io_next (db_io d)) d = d.
Proof. by destruct d as [? ? ? [] ? ? ?]. Qed.
Lemma settled_steady C d : settled d -> steady C d.
Proof.
  intros [Hp Hs]. unfold steady, power_loss. rewrite Hp, Hs. split; [done|]. intros n cut. left. by rewrite take_nil, lookup_nil, app_nil_r.
Qed.
Lemma settled_loss d n cut : settled d -> power_loss (db_io d) n cut = db_wal d.
Proof. intros [Hp Hs]. unfold power_loss. by rewrite Hp, Hs, take_nil, lookup_nil, app_nil_r. Qed.
Lemma steady_mono (C C' : Dir -> bytes -> Prop) d : steady C d -> (forall dir wal, C dir wal -> C' dir wal) -> steady C' d.
Proof. intros [Hf Hc] H. split; [done|]. intros n cut. destruct (Hc n cut); auto. Qed.

Section Cover.
Context {A B : Type}.
Implicit Types (m : M A) (f : A -> M B).

(** The run from [d] is a run with outcomes of its own. *)
Lemma crashes_self m d d' e : m d = (d', Err e) -> crashes m d (db_dir d') (db_wal d').
Proof. intros E. exists (io_next (db_io d)), d', e. by rewrite set_io_next. Qed.
Lemma framed_run m d : framed m -> exists used, forall io, m (set_io (used ++ io) d) = (set_io io (m d).1, (m d).2).
Proof. intros H. apply H. Qed.

Lemma framed_bind m f : framed m -> (forall a, framed (f a)) -> framed (m ≫= f).
Proof.
  intros Hm Hf d. destruct (Hm d) as [u1 H1]. unfold mbind, M_bind. destruct (m d) as [d1 [a|e]]; cbn [fst snd] in *.
  - destruct (Hf a d1) as [u2 H2]. exists (u1 ++ u2). intros io. rewrite <-app_assoc, H1. apply H2.
  - exists u1. intros io. by rewrite H1.
Qed.
Lemma crashes_bind_l m f d dir wal : crashes m d dir wal -> crashes (m ≫= f) d dir wal.
Proof. intros (io & d' & e & E & H). exists io, d', e. unfold mbind, M_bind. by rewrite E. Qed.
Lemma crashes_bind_r m f d d1 a dir wal : framed m -> m d = (d1, Ok a) -> crashes (f a) d1 dir wal -> crashes (m ≫= f) d dir wal.
Proof.
  intros Hm E (io & d' & e & Ef & H). destruct (Hm d) as [u Hu]. rewrite E in Hu. exists (u ++ io), d', e. split; [|done].
  unfold mbind, M_bind. rewrite Hu. cbn [fst snd]. done.
Qed.
Lemma covered_bind m f : covered m -> (forall a, covered (f a)) -> covered (m ≫= f).
Proof.
  intros [Fm Hm] Hf. split; [apply framed_bind; [done | intros a; apply Hf]|]. intros d Hd. specialize (Hm d Hd). destruct (m d) as [d1 [a|e]] eqn:E.
  - assert ((m ≫= f) d = f a d1) as -> by (unfold mbind, M_bind; by rewrite E). destruct (Hf a) as [_ Ha]. specialize (Ha d1 Hm).
    destruct (f a d1) as [d2 [b|e]]; [done|]. eapply steady_mono; [exact Ha|]. intros dir wal. by apply crashes_bind_r.
  - assert ((m ≫= f) d = (d1, Err e)) as -> by (unfold mbind, M_bind; by rewrite E). eapply steady_mono; [exact Hm|]. intros dir wal. apply crashes_bind_l.
Qed.
Lemma exposed_bind m f : exposed m -> (forall a, exposed (f a)) -> exposed (m ≫= f).
Proof.
  intros [Fm Hm] Hf. split; [apply framed_bind; [done | intros a; apply Hf]|]. intros d C Hd. destruct (Hm d C Hd) as [H1 D1]. destruct (m d) as [d1 [a|e]] eqn:E; cbn [fst] in *.
  - assert ((m ≫= f) d = f a d1) as -> by (unfold mbind, M_bind; by rewrite E). destruct (Hf a) as [_ Ha]. destruct (Ha d1 _ H1) as [H2 D2].
    split; [|congruence]. eapply steady_mono; [exact H2|]. intros dir wal [[Hc|Hc]|Hc]; [by left | right; by apply crashes_bind_l | right; by eapply crashes_bind_r].
  - assert ((m ≫= f) d = (d1, Err e)) as -> by (unfold mbind, M_bind; by rewrite E). split; [|done]. eapply steady_mono; [exact H1|].
    intros dir wal [Hc|Hc]; [by left | right; by apply crashes_bind_l].
Qed.

(** A block on the WAL that ends with a sync. *)
Lemma covered_block m : exposed m -> (forall d d' a, m d = (d', Ok a) -> settled d') -> covered m.
Proof.
  intros [Fm Hm] Hs. split; [done|]. intros d Hd. destruct (Hm d (fun _ _ => False) (settled_steady _ _ Hd)) as [H1 _]. destruct (m d) as [d' [a|e]] eqn:E; [by eapply Hs|].
  eapply steady_mono; [exact H1|]. intros dir wal [[]|H]. exact H.
Qed.
End Cover.

(** An operation on the memory alone. *)
Definition quiet {A} (m : M A) : Prop := forall d io,
  m (set_io io d) = (set_io io (m d).1, (m d).2) /\ db_dir (m d).1 = db_dir d /\ db_wal (m d).1 = db_wal d /\ db_io (m d).1 = db_io d.

Section Quiet.
Context {A B : Type}.

Lemma quiet_framed (m : M A) : quiet m -> framed m.
Proof. intros H d. exists []. intros io. apply H. Qed.
Lemma quiet_covered (m : M A) : quiet m -> covered m.
Proof.
  intros H. split; [by apply quiet_framed|]. intros d Hd. destruct (H d []) as (_ & _ & Hw & Hi). assert (settled (m d).1) by (unfold settled; by rewrite Hi, Hw).
  destruct (m d) as [d' [a|e]]; [done | by apply settled_steady].
Qed.
Lemma quiet_exposed (m : M A) : quiet m -> exposed m.
Proof.
  intros H. split; [by apply quiet_framed|]. intros d C Hd. destruct (H d []) as (_ & Ed & Ew & Ei). split; [|done].
  apply (steady_mono C); [|by left]. unfold steady in *. by rewrite Ei, Ew, Ed.
Qed.
Lemma quiet_bind (m : M A) (f : A -> M B) : quiet m -> (forall a, quiet (f a)) -> quiet (m ≫= f).
Proof.
  intros Hm Hf d io. destruct (Hm d io) as (E & Hd & Hw & Hi). unfold mbind, M_bind. rewrite E. destruct (m d) as [d1 [a|e]]; cbn [fst snd] in *; [|done].
  destruct (Hf a d1 io) as (E' & Hd' & Hw' & Hi'). split; [exact E' | split_and!; congruence].
Qed.
Lemma quiet_ret (a : A) : quiet (mret a).
Proof. done. Qed.
Lemma quiet_gets (f : State -> A) : quiet (gets f).
Proof. done. Qed.
Lemma quiet_lift (r : Result A) : quiet (lift r).
Proof. done. Qed.
Lemma quiet_throw e : quiet (throw (A:=A) e).
Proof. done. Qed.
Lemma quiet_modify f : quiet (modify f).
Proof. done. Qed.
End Quiet.

Lemma quiet_for_each {A} (l : list A) f : (forall a, quiet (f a)) -> quiet (for_each l f).
Proof. intros Hf. induction l as [|a l IH]; [done|]. cbn [for_each]. by apply quiet_bind. Qed.
Lemma quiet_when b m : quiet m -> quiet (when b m).
Proof. by destruct b. Qed.

(** The database as it stands, read for anything but the writes to come. *)
Lemma covered_get_db {A} (f : Db -> M A) : (forall d io, f (set_io io d) = f d) -> (forall d, covered (f d)) -> covered (get_db ≫= f).
Proof.
  intros Hi Hf. split.
  - intros d. destruct (proj1 (Hf d) d) as [u Hu]. exists u. intros io. change ((get_db ≫= f) d) with (f d d). rewrite <-Hu.
    change (f (set_io (u ++ io) d) (set_io (u ++ io) d) = f d (set_io (u ++ io) d)). by rewrite Hi.
  - intros d Hd. change ((get_db ≫= f) d) with (f d d). pose proof (proj2 (Hf d) d Hd) as H. destruct (f d d) as [d' [a|e]]; [done|]. eapply steady_mono; [exact H|].
    intros dir wal (io & d2 & e2 & E & Hc). exists io, d2, e2. split; [|done]. rewrite <-E. change (f (set_io io d) (set_io io d) = f d (set_io io d)). by rewrite Hi.
Qed.
Lemma covered_when b m : covered m -> covered (when b m).
Proof. destruct b; [done | intros _; by apply quiet_covered]. Qed.
Lemma covered_for_each {A} (l : list A) f : (forall a, covered (f a)) -> covered (for_each l f).
Proof. intros Hf. induction l as [|a l IH]; [by apply quiet_covered|]. cbn [for_each]. by apply covered_bind. Qed.

(** The writes. *)
Lemma next_io_cases d : (next_io d = (d, Ok IoOk) /\ io_next (db_io d) = []) \/
  exists o l, io_next (db_io d) = o :: l /\ next_io d = (set_io l d, Ok o).
Proof. unfold next_io. destruct (io_next (db_io d)) as [|o l]; [by left | right; by exists o, l]. Qed.
Lemma framed_next_io : framed next_io.
Proof. intros d. destruct (next_io_cases d) as [[E El]|(o & l & El & E)]; rewrite E; [exists [IoOk] | exists [o]]; done. Qed.
Lemma framed_modify_db f : (forall d io, f (set_io io d) = set_io io (f d)) -> framed (modify_db f).
Proof. intros H d. exists []. intros io. unfold modify_db. cbn [app fst snd]. by rewrite H. Qed.
Ltac framed_io := apply framed_bind; [apply framed_next_io | intros [|landed]].
Lemma framed_publish n bs : framed (publish_atomic n bs).
Proof. framed_io; [by apply framed_modify_db | by apply quiet_framed]. Qed.
Lemma framed_remove n : framed (remove_file n).
Proof. framed_io; [by apply framed_modify_db | by apply quiet_framed]. Qed.
Lemma framed_append bs : framed (wal_append bs).
Proof. framed_io; [by apply framed_modify_db | apply framed_bind; [by apply framed_modify_db | intros _; by apply quiet_framed]]. Qed.
Lemma framed_set_len n : framed (wal_set_len n).
Proof. framed_io; [by apply framed_modify_db | by apply quiet_framed]. Qed.
Lemma framed_sync : framed wal_sync.
Proof. framed_io; [by apply framed_modify_db | by apply quiet_framed]. Qed.

Lemma covered_publish n bs : covered (publish_atomic n bs).
Proof.
  split; [apply framed_publish|]. intros d Hd. unfold publish_atomic, mbind, M_bind.
  destruct (next_io_cases d) as [[-> _]|([|landed] & l & _ & ->)]; cbn; [exact Hd.. | by apply settled_steady].
Qed.
Lemma covered_remove n : covered (remove_file n).
Proof.
  split; [apply framed_remove|]. intros d Hd. unfold remove_file, mbind, M_bind.
  destruct (next_io_cases d) as [[-> _]|([|landed] & l & _ & ->)]; cbn; exact Hd.
Qed.

(** What a power loss leaves after one more unsynced write: what it left before, or that
    write cut. *)
Lemma power_loss_write d w n cut :
  fold_left wal_apply (io_pending (db_io d)) (io_synced (db_io d)) = db_wal d ->
  (exists n' cut', power_loss (db_io (wal_write w d)) n cut = power_loss (db_io d) n' cut') \/
  power_loss (db_io (wal_write w d)) n cut = wal_apply (db_wal d) w \/
  exists bs, w = WAppend bs /\ power_loss (db_io (wal_write w d)) n cut = db_wal d ++ ztake cut bs.
Proof.
  intros Hf. unfold power_loss, wal_write. cbn [db_io upd_io upd_wal io_pending io_synced].
  destruct (lt_eq_lt_dec n (length (io_pending (db_io d)))) as [[Hn| ->]|Hn].
  - left. exists n, cut. rewrite take_app_le, lookup_app_l by lia. done.
  - rewrite take_app_length, list_lookup_middle, Hf by done. destruct w as [bs|k]; [right; right; by exists bs | left].
    exists (length (io_pending (db_io d))), 0. rewrite firstn_all, lookup_ge_None_2 by lia. by rewrite Hf.
  - right. left. rewrite take_ge, lookup_ge_None_2 by (rewrite length_app; cbn; lia). rewrite fold_left_app, Hf, app_nil_r. done.
Qed.
Lemma steady_write C d w : steady C d -> C (db_dir d) (db_wal d) ->
  (forall bs cut, w = WAppend bs -> C (db_dir d) (db_wal d ++ ztake cut bs)) -> steady C (wal_write w d).
Proof.
  intros [Hf Hc] H0 Ha. split.
  - unfold wal_write. cbn. by rewrite fold_left_app, Hf.
  - intros n cut. destruct (power_loss_write d w n cut Hf) as [(n' & cut' & ->)|[->|(bs & -> & ->)]]; [|by left | right; by apply Ha].
    right. destruct (Hc n' cut') as [->|H]; [exact H0 | exact H].
Qed.
Lemma exposed_append bs : exposed (wal_append bs).
Proof.
  split; [apply framed_append|]. intros d C Hd.
  assert (forall cut, crashes (wal_append bs) d (db_dir d) (db_wal d ++ ztake cut bs)) as Hcr by (intros cut; by eexists [IoFail cut], _, _).
  assert (crashes (wal_append bs) d (db_dir d) (db_wal d)) as H0 by (rewrite <-(app_nil_r (db_wal d)); exact (Hcr 0)).
  assert (forall l cs, (forall cut, exists cut', ztake cut cs = ztake cut' bs) ->
    steady (fun dir wal => C dir wal \/ crashes (wal_append bs) d dir wal) (wal_write (WAppend cs) (set_io l d))) as Hw.
  { intros l cs Hcs. apply steady_write; [by eapply steady_mono; [exact Hd|]; left | by right|]. intros bs' cut [= <-]. right. destruct (Hcs cut) as [cut' ->]. apply Hcr. }
  unfold wal_append, mbind, M_bind. destruct (next_io_cases d) as [[-> E]|([|landed] & l & _ & ->)]; cbn [fst snd].
  - split; [|done]. pose proof (Hw (io_next (db_io d)) bs) as H. rewrite set_io_next in H. apply H. eauto.
  - split; [|done]. apply Hw. eauto.
  - split; [|done]. apply Hw. intros cut. exists (Z.min cut landed). unfold ztake. by rewrite take_take, Z2Nat.inj_min.
Qed.
Lemma exposed_set_len n : exposed (wal_set_len n).
Proof.
  split; [apply framed_set_len|]. intros d C Hd. assert (crashes (wal_set_len n) d (db_dir d) (db_wal d)) as H0 by (by eexists [IoFail 0], _, _).
  assert (forall l, steady (fun dir wal => C dir wal \/ crashes (wal_set_len n) d dir wal) (wal_write (WSetLen n) (set_io l d))) as Hw.
  { intros l. apply steady_write; [by eapply steady_mono; [exact Hd|]; left | by right | done]. }
  unfold wal_set_len, mbind, M_bind. destruct (next_io_cases d) as [[-> E]|([|landed] & l & _ & ->)]; cbn [fst snd].
  - split; [|done]. pose proof (Hw (io_next (db_io d))) as H. rewrite set_io_next in H. exact H.
  - split; [|done]. apply Hw.
  - split; [|done]. by eapply (steady_mono C (fun dir wal => C dir wal \/ _) (set_io l d)); [exact Hd|]; left.
Qed.
Lemma exposed_sync : exposed wal_sync.
Proof.
  split; [apply framed_sync|]. intros d C Hd. unfold wal_sync, mbind, M_bind.
  destruct (next_io_cases d) as [[-> E]|([|landed] & l & _ & ->)]; cbn [fst snd]; (split; [|done]); [by apply settled_steady.. |].
  by eapply (steady_mono C (fun dir wal => C dir wal \/ _) (set_io l d)); [exact Hd|]; left.
Qed.
Lemma sync_settles d d' a : wal_sync d = (d', Ok a) -> settled d'.
Proof.
  unfold wal_sync, mbind, M_bind. destruct (next_io_cases d) as [[-> E]|([|landed] & l & _ & ->)]; cbn; intros [=]; by subst.
Qed.
Lemma bind_settles {A B} (m : M A) (f : A -> M B) : (forall a d d' b, f a d = (d', Ok b) -> settled d') -> forall d d' b, (m ≫= f) d = (d', Ok b) -> settled d'.
Proof. intros Hf d d' b. unfold mbind, M_bind. destruct (m d) as [d1 [a|e]]; [apply Hf | done]. Qed.
Lemma covered_ext {A} (m m' : M A) : (forall d, m d = m' d) -> covered m -> covered m'.
Proof.
  intros E [Hf Hc]. split; [intros d; destruct (Hf d) as [u Hu]; exists u; intros io; by rewrite <-!E|]. intros d Hd. rewrite <-E. specialize (Hc d Hd).
  destruct (m d) as [d' [a|e]]; [done|]. eapply steady_mono; [exact Hc|]. intros dir wal (io & d2 & e2 & Er & H). exists io, d2, e2. by rewrite <-E.
Qed.

(** Goes through an operation, branch by branch, down to operations known to be covered. *)
Create HintDb cover discriminated.
Create HintDb still discriminated.
#[export] Hint Resolve quiet_ret quiet_gets quiet_lift quiet_throw quiet_modify : still.
#[export] Hint Resolve covered_publish covered_remove : cover.
Ltac still_step :=
  cbv beta zeta; match goal with
  | |- quiet (_ ≫= _) => apply quiet_bind; [|intros ?]
  | |- quiet (when _ _) => apply quiet_when
  | |- quiet (for_each _ _) => apply quiet_for_each; intros ?
  | |- quiet (match ?x with _ => _ end) => destruct x
  | |- quiet _ => solve [auto with still nocore]
  end.
Ltac still := repeat still_step.
Ltac cover_step :=
  cbv beta zeta; match goal with
  | |- covered _ => solve [auto with cover nocore]
  | |- covered (get_db ≫= _) => apply covered_get_db; [done | intros ?]
  | |- covered (_ ≫= _) => apply covered_bind; [|intros ?]
  | |- covered (when _ _) => apply covered_when
  | |- covered (for_each _ _) => apply covered_for_each; intros ?
  | |- covered (match ?x with _ => _ end) => destruct x
  | |- covered _ => solve [apply quiet_covered; still]
  end.
Ltac cover := repeat cover_step.
