(* ===== verification/DbInv.v ===== *)
(** The invariant of a database with a byte history, the disk states a crash can leave, and
    the reads: what is in memory, in the WAL and in the segments represents one map. *)

From stdpp Require Import gmap.
From S2P Require Import Prelude Cursor Format Identity Placement Disk Checkpoint Wal WalFrames WalReplay WalReader.
From S2P Require Import Memtable Segment SegmentBlock SegmentLookup SegmentFile SegmentQueries SegmentProps Compaction.
From S2P Require Import CompactionMerge DbState Db DbOpen DbLayers DbWp.

(** The key range of ordered rows. *)
Lemma sorted_key_range rows e :
  StronglySorted publish_lt rows -> e ∈ rows ->
  bytes_leb (first_key rows) (se_key e) = true /\ bytes_leb (se_key e) (last_key rows) = true.
Proof.
  intros Hs He. assert (forall a b, publish_lt a b -> bytes_leb (se_key a) (se_key b) = true) as Hle.
  { intros a b [H|[H _]]; apply bytes_leb_le; [by left | by right]. }
  apply list_elem_of_lookup in He as [i Hi]. split.
  - unfold first_key. destruct (rows !! 0%nat) as [a|] eqn:E; [|by destruct rows].
    destruct i as [|i]; [assert (a = e) as -> by congruence; apply bytes_leb_refl|]. apply Hle.
    eapply (sorted_lookup _ _ _ _ _ _ Hs E Hi). lia.
  - unfold last_key. rewrite last_lookup. destruct (rows !! pred (length rows)) as [z|] eqn:E.
    + pose proof (lookup_lt_Some _ _ _ Hi). destruct (decide (i = pred (length rows))) as [->|].
      * assert (e = z) as -> by congruence. apply bytes_leb_refl.
      * apply Hle. eapply (sorted_lookup _ _ _ _ _ _ Hs Hi E). lia.
    + apply lookup_ge_None in E. pose proof (lookup_lt_Some _ _ _ Hi). lia.
Qed.

Section Inv.
Context {SHA : Sha256}.

(* ------------------------------------------------------------------ *)
(** * Segments on disk *)

(** A live segment: its manifest record, its open reader, its rows. *)
Record Seg : Type := mkSeg { sg_rec : SegmentRecord; sg_reader : SegmentReader; sg_rows : list SegmentEntry }.
Definition sg_id (g : Seg) : Z := segment_id (sg_rec g).

Record seg_ok (dir : Dir) (g : Seg) : Prop := {
  so_wf : Forall entry_wf (sg_rows g); so_byte : Forall byte_row (sg_rows g); so_fits : fits (sg_rows g);
  so_id : is_u64 (sg_id g); so_level : 0 <= level (sg_rec g) <= 1;
  so_file : exists w file anchors, flags_ok w /\
    publish_sorted_entries w (sg_rows g) = Ok (file, (file_size (sg_rec g), checksum (sg_rec g), anchors)) /\
    dir !! FSegment (sg_id g) = Some file /\ open_segment file = Ok (sg_reader g);
  so_rec : sg_rec g = record_of (sg_id g) (level (sg_rec g)) (sg_reader g) (file_size (sg_rec g)) (checksum (sg_rec g)) }.

Lemma seg_ok_dir dir dir' g : dir' !! FSegment (sg_id g) = dir !! FSegment (sg_id g) -> seg_ok dir g -> seg_ok dir' g.
Proof.
  intros E [H1 H2 H3 H4 H5 (w & file & an & Hw & Hp & Hd & Ho) H7]. split; try done. exists w, file, an. by rewrite E.
Qed.

(** What an opened segment of ordered rows answers. *)
Record seg_reads (r : SegmentReader) (rows : list SegmentEntry) : Prop := {
  rd_sorted : StronglySorted publish_lt rows; rd_ne : rows <> [];
  rd_min : sr_key_min r = first_key rows; rd_max : sr_key_max r = last_key rows;
  rd_bloom : forall e, e ∈ rows -> bloom_may_contain r (se_key e) = true;
  rd_get : forall k, seg_get r k = Ok (find_row k None rows);
  rd_seq : forall e, e ∈ rows -> se_seq e <= sr_seq_hi r;
  rd_hi : exists e, e ∈ rows /\ se_seq e = sr_seq_hi r }.

Lemma persisted_bytes v rows : Forall byte_row rows -> map (persisted v) rows = rows.
Proof.
  induction 1 as [|e rows He _ IH]; [done|]. cbn. rewrite IH. f_equal. unfold persisted. destruct v; [done|].
  destruct e. unfold byte_row in He. cbn in *. by rewrite He.
Qed.

Lemma published_reads w rows file sz ck anchors r :
  flags_ok w -> Forall entry_wf rows -> Forall byte_row rows -> fits rows ->
  publish_sorted_entries w rows = Ok (file, (sz, ck, anchors)) -> open_segment file = Ok r -> seg_reads r rows.
Proof.
  intros Hw Hwf Hb Hf Hp Ho. assert (publishable w rows) as Hpa by done.
  destruct (published_open w rows file sz ck anchors Hpa Hp) as (r' & blocks & Ho' & Hh & Hc & Hs & _ & _ & _ & _ & _ & _ & _ & Hne).
  rewrite Ho in Ho'. injection Ho' as <-. destruct (published_range w rows file sz ck anchors r Hpa Hp Ho) as (Hk & Hx & Hq & _ & _ & _ & _ & _ & _ & Hhi).
  split; try done.
  - intros e He. by eapply published_bloom.
  - intros k. rewrite <-Hc in Hs. rewrite (seg_get_ok w Hw r blocks Hh Hs) by (right; by rewrite Hc). by rewrite Hc, persisted_bytes.
  - intros e He. specialize (Hq e He). lia.
Qed.
Lemma seg_ok_reads dir g : seg_ok dir g -> seg_reads (sg_reader g) (sg_rows g).
Proof. intros [H1 H2 H3 H4 H5 (w & file & an & Hw & Hp & Hd & Ho) H7]. by eapply published_reads. Qed.

(** The point read over a segment, then over all of them. *)
Lemma get_segments_cons r rows rs k :
  seg_reads r rows ->
  get_segments (r :: rs) k = match find_row k None rows with Some e => Ok (row_value e) | None => get_segments rs k end.
Proof.
  intros [Hs Hne Hmin Hmax Hb Hg _ _]. cbn [get_segments]. rewrite Hmin, Hmax, Hg.
  assert (forall e, e ∈ rows -> se_key e = k -> bytes_ltb k (first_key rows) || bytes_ltb (last_key rows) k = false /\ negb (bloom_may_contain r k) = false) as Hin.
  { intros e He <-. destruct (sorted_key_range rows e Hs He) as [H1 H2]. apply bytes_ltb_false in H1, H2. rewrite H1, H2.
    split; [done|]. by rewrite Hb. }
  destruct (find_row k None rows) as [e|] eqn:E.
  - apply find_row_top in E as (He & Ek & _); [|done]. destruct (Hin e He Ek) as [-> ->]. done.
  - destruct (_ || _); [done|]. by destruct (negb _).
Qed.
Lemma get_segments_ok gs rss k :
  Forall2 seg_reads gs rss -> get_segments (rev gs) k = Ok (view rss k).
Proof.
  intros H. unfold view, layers_get.
  assert (forall rest, get_segments (rev gs ++ rest) k = match newest_first (find_row k None) rss with Some e => Ok (row_value e) | None => get_segments rest k end) as Hc.
  { induction H as [|r rows gs rss Hr _ IH]; intros rest; [done|]. cbn [rev newest_first]. rewrite <-app_assoc, IH.
    destruct (newest_first _ rss); [done|]. cbn [app]. by rewrite (get_segments_cons _ _ _ _ Hr). }
  specialize (Hc []). rewrite app_nil_r in Hc. rewrite Hc. by destruct (newest_first _ rss).
Qed.

(* ------------------------------------------------------------------ *)
(** * The disk *)

(** The files of the object directories: a byte history writes none. *)
Definition directory_file (n : FileName) : bool :=
  match n with FIdentityLog _ | FReplicaLog _ | FPlacementLog _ | FCheckpoint _ => true | _ => false end.
Definition no_directories (dir : Dir) : Prop := forall n, directory_file n = true -> dir !! n = None.

Definition manifest_at (gen : Z) (segs : list Seg) : Manifest := mkManifest FORMAT_VERSION gen (map sg_rec segs) [] 0 0 0 0 0 0.

(** The published pair of a generation and the segments it names. *)
Record disk_ok (dir : Dir) (gen : Z) (segs : list Seg) : Prop := {
  dk_gen : 0 < gen < U64;
  dk_current : dir !! FCurrent = Some (current_encode (mkCurrent FORMAT_VERSION gen));
  dk_manifest : dir !! FManifest gen = Some (manifest_encode (manifest_at gen segs));
  dk_count : is_u32 (zlen segs);
  dk_ids : NoDup (map sg_id segs);
  dk_segs : Forall (seg_ok dir) segs;
  dk_dirs : no_directories dir }.

(** The WAL holds these frames, and past them at most a cut append. *)
Definition wal_holds (wal : bytes) (fs : list WalFrame) : Prop :=
  frames_good fs /\ exists n, replayable wal fs n /\ read_frame_bytes wal n (zlen wal) = None.

(** Segments and frames represent a map. *)
Record content (segs : list Seg) (fs : list WalFrame) (m : gmap bytes bytes) : Prop := {
  ct_layered : layered (map sg_rows segs ++ [frames_rows fs]);
  ct_represents : represents (map sg_rows segs ++ [frames_rows fs]) m }.

(* ------------------------------------------------------------------ *)
(** * What a history is tracked by *)

(** The sequence number recovery resumes at. *)
Definition replay_max (s : Z) (fs : list WalFrame) : Z := fold_left (fun s f => Z.max s (frame_seq f)) fs s.
Definition max_hi (segs : list Seg) : Z := fold_left Z.max (map seq_hi (map sg_rec segs)) 0.
Definition resume_seq (segs : list Seg) (fs : list WalFrame) : Z := Z.max (replay_max 0 fs) (max_hi segs) + 1.

(** How a specification state [g] is tracked: what it says beyond its map of the directory,
    the segments and the WAL's frames, and of the next sequence number. *)
Class Track (G : Type) `{Spec G} : Type := {
  tracks : Dir -> list Seg -> list WalFrame -> G -> Prop;
  numbered : G -> Z -> Prop }.

(** The directory after the flushed WAL [wal] of frames [fs] is archived. *)
Definition archived (cfg : Config) (dir : Dir) (fs : list WalFrame) (wal : bytes) : Dir :=
  match fs with f :: _ => if retain_log cfg then <[FRlog (frame_seq f) := wal]> dir else dir | [] => dir end.

(** What the database's operations need of it: only the archive files of the directory
    matter, a batch adds a frame, a flush adds segments, archives and lets go of the WAL,
    and recovery numbers on. *)
Class TrackLaws (cfg : Config) (G : Type) `{Track G} : Prop := {
  tl_dir dir dir' segs fs g :
    (forall n, dir' !! FRlog n = dir !! FRlog n) -> tracks dir segs fs g -> tracks dir' segs fs g;
  tl_batch dir segs fs g n ops :
    tracks dir segs fs g -> numbered g n -> 0 <= n < U64 -> Forall op_good ops -> ops <> [] ->
    tracks dir segs (fs ++ [mkWalFrame n ops]) (spec_batch g ops) /\ numbered (spec_batch g ops) (n + 1);
  tl_flush dir segs new fss wal g :
    frames_good (concat fss) -> encode_stream (concat fss) = Ok wal ->
    map sg_rows new = map (fun fs => frames_rows fs) fss -> Forall (seg_ok dir) new -> tracks dir segs (concat fss) g ->
    let dir' := archived cfg dir (concat fss) wal in
    tracks dir (segs ++ new) (concat fss) g /\ tracks dir' (segs ++ new) (concat fss) g /\ tracks dir' (segs ++ new) [] g;
  tl_open dir gen segs fs g :
    disk_ok dir gen segs -> frames_good fs -> tracks dir segs fs g -> numbered g (resume_seq segs fs) }.

(** Segments and frames hold a specification state. *)
Record held {G} `{Track G} (dir : Dir) (segs : list Seg) (fs : list WalFrame) (g : G) : Prop := {
  hd_content : content segs fs (spec_map g);
  hd_tracks : tracks dir segs fs g }.

(** The disk states from which recovery restores [g]: a database before its first
    publication, or a published pair with its segments and a WAL. *)
Definition durable {G} `{Track G} (dir : Dir) (wal : bytes) (g : G) : Prop :=
  (dir !! FCurrent = None /\ no_directories dir /\ wal = [] /\ held dir [] [] g) \/
  exists gen segs fs, disk_ok dir gen segs /\ wal_holds wal fs /\ held dir segs fs g.

(* ------------------------------------------------------------------ *)
(** * The invariant *)

(** The object surface is unused. *)
Record no_objects (s : State) : Prop := {
  no_identity : st_identity s = ∅; no_replicas : st_replicas s = ∅; no_placements : st_placements s = ∅;
  no_pending : st_pending_identity s = [] /\ st_pending_replicas s = [] /\ st_pending_placements s = [];
  no_bytes : st_bytes_since_checkpoint s = 0;
  no_floors : st_identity_floor s = 0 /\ st_replica_floor s = 0 /\ st_placement_floor s = 0;
  no_chains : st_identity_chain s = 0 /\ st_replica_chain s = 0 /\ st_placement_chain s = 0 }.

(** The state over segments [segs], immutable memtables of frames [fss] and an active one
    of frames [fs]. *)
Record state_ok (s : State) (segs : list Seg) (fss : list (list WalFrame)) (fs : list WalFrame) : Prop := {
  sk_active : st_active s = mem_of fs;
  sk_immutables : st_immutables s = map mem_of fss;
  sk_nonempty : Forall (fun fs => fs <> []) fss;
  sk_segments : st_segments s = map sg_reader segs;
  sk_records : st_segment_records s = map sg_rec segs;
  sk_frames_seq : Forall (fun f => frame_seq f < st_next_seq s) (concat fss ++ fs);
  sk_rows_seq : Forall (fun g => Forall (fun e => se_seq e < st_next_seq s) (sg_rows g)) segs;
  sk_next_seq : 0 <= st_next_seq s;
  sk_next_id : 0 <= st_next_segment_id s;
  sk_ids : Forall (fun g => sg_id g < st_next_segment_id s) segs;
  sk_objects : no_objects s }.

Record inv_at {G} `{Track G} (d : Db) (segs : list Seg) (fss : list (list WalFrame)) (fs : list WalFrame) (g : G) : Prop := {
  iv_state : state_ok (db_state d) segs fss fs;
  iv_disk : disk_ok (db_dir d) (st_generation (db_state d)) segs;
  iv_wal : encode_stream (concat fss ++ fs) = Ok (db_wal d);
  iv_frames : frames_good (concat fss ++ fs);
  iv_held : held (db_dir d) segs (concat fss ++ fs) g;
  iv_numbered : numbered g (st_next_seq (db_state d));
  iv_fenced : db_fenced d = None;
  iv_fail : db_wal_fail_next d = false }.
Definition inv {G} `{Track G} (d : Db) (g : G) : Prop := exists segs fss fs, inv_at d segs fss fs g.

(* ------------------------------------------------------------------ *)
(** * Reads *)

Lemma newest_first_mem fss k :
  Forall frames_good fss ->
  newest_first (fun m => mt_get m k) (map mem_of fss) =
  (fun e => mkByteRow (row_value e)) <$> layers_get (map (fun fs => frames_rows fs) fss) k.
Proof.
  unfold layers_get. induction 1 as [|fs fss Hf _ IH]; [done|]. cbn [map newest_first]. rewrite IH.
  destruct (newest_first (find_row k None) _) as [e|]; [reflexivity|]. by apply mem_of_get.
Qed.
Lemma frames_good_concat fss : frames_good (concat fss) -> Forall frames_good fss.
Proof. induction fss as [|fs fss IH]; [done|]. cbn. intros (H & H' & _)%frames_good_app. constructor; auto. Qed.

(** A point read of an invariant state answers the represented map. *)
Lemma inv_get {G} `{HT : Track G} d (g : G) k : inv d g -> get_inner (db_state d) k = Ok (spec_map g !! k).
Proof.
  intros (segs & fss & fs & [Hs Hd _ Hf [[_ Hr] _] _ _ _]). rewrite <-(Hr k). unfold view. rewrite layers_get_app.
  assert (concat fss ++ fs = concat (fss ++ [fs])) as E by (rewrite concat_app; cbn; by rewrite app_nil_r).
  change (layers_get [frames_rows (concat fss ++ fs)] k) with (find_row k None (frames_rows (concat fss ++ fs))).
  rewrite E in *. rewrite <-frames_layers_get by done. rewrite map_app, layers_get_app. unfold layers_get at 1. cbn [map newest_first].
  pose proof (frames_good_concat _ Hf) as Hg. apply Forall_app in Hg as [Hg1 Hg2]. apply Forall_inv in Hg2.
  unfold get_inner. rewrite (sk_active _ _ _ _ Hs), (sk_immutables _ _ _ _ Hs), (sk_segments _ _ _ _ Hs).
  rewrite mem_of_get, newest_first_mem by done. destruct (find_row k None (frames_rows fs)); [done|]. cbn [fmap option_fmap option_map].
  destruct (layers_get (map _ fss) k); [done|]. cbn [fmap option_fmap option_map]. apply get_segments_ok.
  pose proof (dk_segs _ _ _ Hd) as Hsg. clear -Hsg. induction Hsg as [|g0 segs Hg _ IH]; constructor; [by eapply seg_ok_reads | done].
Qed.

(* ------------------------------------------------------------------ *)
(** * Changes of the directory *)

Section Track.
Context {G : Type} `{HT : Track G} {cfg : Config} {HL : TrackLaws cfg G}.

Lemma held_dir dir dir' segs fs (g : G) : (forall n, dir' !! FRlog n = dir !! FRlog n) -> held dir segs fs g -> held dir' segs fs g.
Proof. intros E [H1 H2]. split; [done | by eapply tl_dir]. Qed.
Lemma held_insert dir n bs segs fs (g : G) : (forall q, n <> FRlog q) -> held dir segs fs g -> held (<[n := bs]> dir) segs fs g.
Proof. intros Hn. apply held_dir. intros q. by apply lookup_insert_ne. Qed.
Lemma held_delete dir n segs fs (g : G) : (forall q, n <> FRlog q) -> held dir segs fs g -> held (base.delete n dir) segs fs g.
Proof. intros Hn. apply held_dir. intros q. by apply lookup_delete_ne. Qed.
End Track.
End Inv.

(** The map is tracked by itself. *)
#[global] Instance map_track {SHA : Sha256} : Track (gmap bytes bytes) := {| tracks _ _ _ _ := True; numbered _ _ := True |}.
#[global] Instance map_track_laws {SHA : Sha256} cfg : TrackLaws cfg (gmap bytes bytes).
Proof. by split. Qed.
