(* ===== verification/DbRecover.v ===== *)
(** Recovery: [open_db] succeeds on every disk state a byte history can leave and restores
    the map that state represents. *)

From stdpp Require Import gmap.
From S2P Require Import Prelude Cursor Format Identity Placement Disk Checkpoint Wal WalFrames WalReplay WalReader.
From S2P Require Import Memtable Segment SegmentBlock SegmentLookup SegmentFile SegmentQueries SegmentProps Compaction.
From S2P Require Import CompactionMerge DbState Db DbOpen DbLayers DbWp DbInv.

Section Recover.
Context {SHA : Sha256}.

(* ------------------------------------------------------------------ *)
(** * Empty object directories *)

Lemma no_directories_insert dir n bs : directory_file n = false -> no_directories dir -> no_directories (<[n := bs]> dir).
Proof. intros Hn H n' Hn'. rewrite lookup_insert_ne by congruence. by apply H. Qed.
Lemma no_directories_delete dir n : no_directories dir -> no_directories (base.delete n dir).
Proof. intros H n' Hn'. rewrite lookup_delete_None. right. by apply H. Qed.

Section Empty.
Context (dir : Dir) (Hdir : no_directories dir).

Lemma no_family of_name path keep :
  parses of_name path -> (forall g, directory_file (path g) = true) -> family_gens of_name keep dir = [].
Proof.
  intros Hp Hd. destruct (family_gens of_name keep dir) as [|g l] eqn:E; [done|].
  assert (g ∈ family_gens of_name keep dir) as Hg by (rewrite E; set_solver).
  apply (elem_of_family_gens _ _ _ _ _ Hp) in Hg as [_ Hg]. rewrite Hdir in Hg by done. by destruct Hg.
Qed.
#[local] Hint Extern 1 (directory_file _ = true) => reflexivity : disk.
Lemma no_checkpoint gen : load_newest dir gen = Ok None.
Proof.
  unfold load_newest. pose proof (best_checkpoint_max gen (read_dir dir) None) as H. destruct (fold_left _ _ _) as [g|]; [|done].
  destruct H as [[|[H _]] _]; [done|]. apply elem_of_read_dir in H. rewrite Hdir in H by done. by destruct H.
Qed.
Lemma no_recover_identity gen : recover_identity dir gen None = Ok (∅, ∅).
Proof.
  unfold recover_identity, load_identity_logs, load_replica_logs.
  rewrite (no_family identity_log_generation FIdentityLog), (no_family replica_log_generation FReplicaLog) by auto with disk. done.
Qed.
Lemma no_recover_placement gen : recover_placement dir gen None = Ok ∅.
Proof. unfold recover_placement, load_placement_logs. rewrite (no_family placement_log_generation FPlacementLog) by auto with disk. done. Qed.
Lemma no_orphans gen : orphan_placement_max_generation dir gen = 0.
Proof.
  unfold orphan_placement_max_generation, orphan_placement_logs. rewrite (no_family placement_log_generation FPlacementLog) by auto with disk. done.
Qed.
Lemma no_log_bytes g : directory_log_bytes dir g = 0.
Proof.
  unfold directory_log_bytes. assert (Forall (fun n => log_generation_of n = None) (read_dir dir)) as H.
  { apply Forall_forall. intros n Hn%elem_of_read_dir. destruct (log_generation_of n) eqn:E; [|done].
    rewrite Hdir in Hn; [by destruct Hn|]. by destruct n. }
  induction H as [|n l Hn _ IH]; [done|]. cbn [fold_left]. by rewrite Hn.
Qed.
End Empty.

(* ------------------------------------------------------------------ *)
(** * The published pair *)

Lemma seg_record_ok dir g : seg_ok dir g ->
  segment_record_wf (sg_rec g) /\ record_count (sg_rec g) <> 0 /\ bytes_ltb (key_max (sg_rec g)) (key_min (sg_rec g)) = false /\
  seq_lo (sg_rec g) <= seq_hi (sg_rec g) /\
  exists file, dir !! FSegment (sg_id g) = Some file /\ zlen file = file_size (sg_rec g) /\ open_segment file = Ok (sg_reader g).
Proof.
  intros [H1 H2 H3 H4 H5 (w & file & an & Hw & Hp & Hd & Ho) H7]. assert (publishable w (sg_rows g)) as Hpa by done.
  destruct (published_open w _ _ _ _ _ Hpa Hp) as (r' & blocks & Ho' & _ & _ & Hs & _ & Hc & _ & _ & _ & _ & Hn & Hne).
  rewrite Ho in Ho'. injection Ho' as <-.
  destruct (published_range w _ _ _ _ _ _ Hpa Hp Ho) as (Hk & Hx & _ & Hlo & Hhi & Hle & Hz & Hsz & Hck & _).
  destruct (sg_rows g) as [|e0 es] eqn:Er; [done|].
  assert (first_key (e0 :: es) = se_key e0) as Ef by done.
  assert (exists z, z ∈ e0 :: es /\ last_key (e0 :: es) = se_key z) as (z & Hz1 & Ez).
  { unfold last_key. destruct (last (e0 :: es)) as [z|] eqn:El; [|by apply last_None in El]. exists z. split; [|done].
    rewrite last_lookup in El. by eapply list_elem_of_lookup_2. }
  assert (zlen (se_key e0) < U16 /\ zlen (se_key z) < U16) as [L1 L2].
  { rewrite Forall_forall in H1. split; apply H1; [set_solver | done]. }
  pose proof (zlen_nonneg (se_key e0)). pose proof (zlen_nonneg (se_key z)). unfold U16 in *.
  assert (0 < zlen (e0 :: es)) by (rewrite zlen_cons; pose proof (zlen_nonneg es); lia).
  rewrite H7. cbn [record_of segment_id level key_min key_max seq_lo seq_hi record_count file_size checksum].
  rewrite Hk, Hx, Hc, Ef, Ez. split_and!.
  - unfold segment_record_wf. cbn. rewrite Hk, Hx, Hc, Ef, Ez. unfold is_u32, is_u8, is_u64, U32, U8, U64 in *. split_and!; try done; try lia.
    all: unfold sg_id, is_u64, U64 in *; lia.
  - lia.
  - destruct (sorted_key_range _ z Hs Hz1) as [Hr _]. rewrite Ef in Hr. by apply bytes_ltb_false.
  - done.
  - exists file. by rewrite <-Hz.
Qed.

Lemma manifest_at_wf dir gen segs : disk_ok dir gen segs -> manifest_wf (manifest_at gen segs).
Proof.
  intros [Hg _ _ Hc _ Hs _]. unfold manifest_wf, manifest_at. cbn. split_and!; try done; try (unfold is_u64; lia).
  - unfold is_u32, zlen in *. rewrite length_map. lia.
  - apply Forall_map. eapply Forall_impl; [exact Hs|]. intros g Hg'. by eapply seg_record_ok.
Qed.

Lemma validate_ok dir segs : forall seen : gset Z,
  Forall (seg_ok dir) segs -> NoDup (map sg_id segs) -> Forall (fun g => sg_id g ∉ seen) segs ->
  exists seen', fold_result (validate_record dir) seen (map sg_rec segs) = Ok seen'.
Proof.
  induction segs as [|g segs IH]; intros seen Hs Hn Hf; cbn [map fold_result]; [eauto|].
  apply Forall_cons_1 in Hs as [Hg Hs]. apply Forall_cons_1 in Hf as [Hgs Hf]. cbn [map] in Hn. apply NoDup_cons in Hn as [Hgn Hn].
  destruct (seg_record_ok dir g Hg) as (_ & Hc & Hk & Hq & file & Hd & Hz & _). unfold validate_record.
  change (segment_id (sg_rec g)) with (sg_id g). rewrite bool_decide_eq_false_2 by done.
  destruct (so_level _ _ Hg) as [_ Hl]. rewrite (proj2 (Z.ltb_ge _ _)) by lia. rewrite Hk. rewrite (proj2 (Z.ltb_ge _ _)) by lia.
  rewrite (proj2 (Z.eqb_neq _ _)) by done. unfold read_file. rewrite Hd. cbn [mbind Result_bind]. rewrite Hz, Z.eqb_refl. cbn [negb].
  apply IH; [done | done|]. rewrite Forall_forall in *. intros h Hh. specialize (Hf h Hh).
  assert (sg_id h <> sg_id g); [|set_solver]. intros E. apply Hgn. rewrite <-E. apply list_elem_of_In, in_map, list_elem_of_In, Hh.
Qed.

Lemma open_manifest_ok dir gen segs :
  disk_ok dir gen segs -> open_manifest dir (mkCurrent FORMAT_VERSION gen) = Ok (manifest_at gen segs).
Proof.
  intros Hd. pose proof (manifest_at_wf _ _ _ Hd) as Hw. destruct Hd as [Hg _ Hm _ Hn Hs _]. unfold open_manifest, read_file.
  cbn [manifest_generation]. rewrite Hm. cbn [mbind Result_bind]. rewrite manifest_decode_encode by done. cbn [mbind Result_bind].
  unfold verify_pair, manifest_at. cbn [generation manifest_generation]. rewrite Z.eqb_refl. cbn [negb mbind Result_bind].
  unfold validate_manifest. cbn [generation segments]. rewrite (proj2 (Z.eqb_neq _ _)) by lia.
  destruct (validate_ok dir segs ∅) as [seen ->]; try done. apply Forall_forall. set_solver.
Qed.
Lemma open_current_ok dir gen segs :
  disk_ok dir gen segs -> exists bs, dir !! FCurrent = Some bs /\ current_decode bs = Ok (mkCurrent FORMAT_VERSION gen).
Proof.
  intros [Hg Hc _ _ _ _ _]. eexists. split; [exact Hc|]. apply current_decode_encode; [|done]. split; [done|]. unfold is_u64. cbn. lia.
Qed.

Lemma open_record_ok dir g : seg_ok dir g -> open_record dir (sg_rec g) = Ok (sg_reader g).
Proof.
  intros Hg. destruct (seg_record_ok dir g Hg) as (_ & _ & _ & _ & file & Hd & _ & Ho). unfold open_record, read_file.
  change (segment_id (sg_rec g)) with (sg_id g). rewrite Hd. cbn [mbind Result_bind]. rewrite Ho. cbn [mbind Result_bind].
  rewrite (so_rec _ _ Hg). cbn [record_of key_min key_max seq_lo seq_hi record_count]. by rewrite !bytes_eqb_refl, !Z.eqb_refl.
Qed.
Lemma open_segments_ok dir segs : Forall (seg_ok dir) segs -> open_segments dir (map sg_rec segs) = Ok (map sg_reader segs).
Proof.
  intros Hs. unfold open_segments.
  assert (forall acc, fold_result (fun rs rec => r ← open_record dir rec; Ok (rs ++ [r])) acc (map sg_rec segs) = Ok (acc ++ map sg_reader segs)) as H; [|apply H].
  induction Hs as [|g segs Hg _ IH]; intros acc; cbn [map fold_result]; [by rewrite app_nil_r|].
  rewrite open_record_ok by done. cbn [mbind Result_bind]. rewrite IH. by rewrite <-app_assoc.
Qed.

(* ------------------------------------------------------------------ *)
(** * The WAL *)

(** Replaying byte frames builds their memtable and touches nothing else. *)
Lemma mem_of_snoc fs f : mem_of (fs ++ [f]) = fold_left (fun m '(k, s, e) => mt_insert m k s e) (frame_writes f) (mem_of fs).
Proof. unfold mem_of, mt_run. rewrite flat_map_app, fold_left_app. cbn. by rewrite app_nil_r. Qed.

Definition replayed (r : Replay) (mem : Memtable) (mx : Z) : Replay :=
  mkReplay mem mx (rp_pgen r) (rp_identity r) (rp_replicas r) (rp_placements r)
    (rp_pending_identity r) (rp_pending_replicas r) (rp_pending_placements r).

Lemma replay_ops_ok seq ops : forall r,
  Forall byte_op ops -> ops <> [] ->
  fold_result (fun r o => replay_op r seq o) r ops =
  Ok (replayed r (fold_left (fun m '(k, s, e) => mt_insert m k s e) (map (op_write seq) ops) (rp_active r)) (Z.max (rp_max r) seq)).
Proof.
  induction ops as [|o ops IH]; intros r Hb Hne; [done|]. apply Forall_cons_1 in Hb as [Ho Hb]. cbn [fold_result map fold_left].
  assert (replay_op r seq o = Ok (replayed r ((fun m '(k, s, e) => mt_insert m k s e) (rp_active r) (op_write seq o)) (Z.max (rp_max r) seq))) as ->.
  { by destruct o. }
  cbn [mbind Result_bind]. destruct ops as [|o' ops]; [by destruct r|]. rewrite IH by done. unfold replayed. cbn [rp_active rp_max rp_pgen
    rp_identity rp_replicas rp_placements rp_pending_identity rp_pending_replicas rp_pending_placements]. do 2 f_equal. lia.
Qed.
Lemma replay_frames_ok fs : forall r gs,
  Forall frame_good fs -> rp_active r = mem_of gs ->
  fold_result (frame_sink replay_op) r fs = Ok (replayed r (mem_of (gs ++ fs)) (replay_max (rp_max r) fs)).
Proof.
  induction fs as [|f fs IH]; intros r gs Hf Hr; cbn [fold_result].
  { rewrite app_nil_r, <-Hr. by destruct r. }
  apply Forall_cons_1 in Hf as [[_ Hne Hops] Hf]. unfold frame_sink at 2. rewrite replay_ops_ok; [|eapply Forall_impl; [exact Hops|]; by intros ? [? _]|done].
  cbn [mbind Result_bind]. rewrite (IH _ (gs ++ [f])); [|done|cbn; by rewrite Hr, mem_of_snoc]. by rewrite <-app_assoc.
Qed.

Lemma replay_max_spec fs : forall s, s <= replay_max s fs /\ Forall (fun f => frame_seq f <= replay_max s fs) fs.
Proof.
  unfold replay_max. induction fs as [|f fs IH]; intros s; cbn [fold_left]; [split; [done | constructor]|].
  destruct (IH (Z.max s (frame_seq f))) as [H1 H2]. split; [lia|]. constructor; [lia | done].
Qed.
Lemma fold_max_spec l : forall a, a <= fold_left Z.max l a /\ Forall (fun x => x <= fold_left Z.max l a) l.
Proof.
  induction l as [|x l IH]; intros a; cbn [fold_left]; [split; [done | constructor]|].
  destruct (IH (Z.max a x)) as [H1 H2]. split; [lia|]. constructor; [lia | done].
Qed.

Lemma seqs_increase_sorted fs : forall last,
  StronglySorted Z.lt (map frame_seq fs) -> (forall l, last = Some l -> Forall (fun f => l < frame_seq f) fs) -> seqs_increase last fs = true.
Proof.
  induction fs as [|f fs IH]; intros last Hs Hl; cbn; [done|]. cbn [map] in Hs. apply StronglySorted_inv in Hs as [Hs Hf].
  apply andb_true_iff. split.
  - unfold seq_increases. destruct last as [l|]; [|done]. specialize (Hl l eq_refl). apply Forall_inv in Hl. apply negb_true_iff, Z.leb_gt. lia.
  - apply IH; [done|]. intros l [= <-]. exact (proj1 (Forall_map _ _ _) Hf).
Qed.

(** A WAL of whole frames, and one cut in the middle of an append. *)
Lemma wal_holds_whole fs wal : frames_good fs -> encode_stream fs = Ok wal -> wal_holds wal fs.
Proof.
  intros Hg He. pose proof Hg as [Hf Hs]. split; [done|]. exists (zlen wal). split.
  - split_and!; [eapply Forall_impl; [exact Hf | apply frame_good_wf] | by apply seqs_increase_sorted|]. exists wal.
    split_and!; try done; [|intros i Hi; lia]. unfold zdrop. by rewrite zlen_to_nat, drop_all, app_nil_r.
  - unfold read_frame_bytes, FRAME_HEADER_LEN. by rewrite (proj2 (Z.ltb_lt _ _)) by lia.
Qed.

(** A frame whose cut encodings hold no whole frame inside. *)
Definition no_embedded (seq : Z) (ops : list Op) : Prop :=
  forall e p r, encode_frame seq ops = Ok e -> e = p ++ r -> r <> [] -> forall i, 0 < i < zlen p -> frame_at p i = false.

Lemma wal_holds_torn fs wal f e n :
  frames_good fs -> encode_stream fs = Ok wal -> frame_good f -> encode_frame (frame_seq f) (frame_ops f) = Ok e ->
  no_embedded (frame_seq f) (frame_ops f) -> n < zlen e -> wal_holds (wal ++ ztake n e) fs.
Proof.
  intros Hg He Hf Hfe Hno Hn. pose proof Hg as [Hff Hs]. pose proof (frame_good_wf _ Hf) as Hw.
  pose proof (encode_frame_len _ _ _ (proj2 Hw) Hfe) as Hlen. unfold FRAME_HEADER_LEN in Hlen.
  assert (zdrop n e <> []) as Hr.
  { intros E. apply (f_equal length) in E. unfold zdrop in E. rewrite length_drop in E. cbn in E. unfold zlen in Hn, Hlen. lia. }
  pose proof (eq_sym (ztake_zdrop n e)) as Ee. split; [done|]. exists (zlen wal). split.
  - apply replay_frames_spec. eapply replay_torn_append; try done.
    + eapply Forall_impl; [exact Hff | apply frame_good_wf].
    + by apply seqs_increase_sorted.
    + by eapply Hno.
  - destruct Hw as [Hw1 Hw2]. by eapply read_frame_torn.
Qed.

(* ------------------------------------------------------------------ *)
(** * Opening *)

Lemma content_empty : content [] [] ∅.
Proof.
  split; [split|].
  - repeat constructor.
  - intros a b Ha. by apply not_elem_of_nil in Ha.
  - intros k e x _ Hx. by apply not_elem_of_nil in Hx.
  - intros k. by rewrite lookup_empty.
Qed.
Lemma disk_fresh dir :
  no_directories dir ->
  disk_ok (<[FCurrent := current_encode (mkCurrent FORMAT_VERSION 1)]> (<[FManifest 1 := manifest_encode empty_manifest]> dir)) 1 [].
Proof.
  intros Hd. split; [done | by rewrite lookup_insert_eq | | done | constructor | constructor | by do 2 (apply no_directories_insert; [done|])].
  rewrite lookup_insert_ne by done. by rewrite lookup_insert_eq.
Qed.

Section Opening.
Context {G : Type} `{HT : Track G} (F : Prop) (cfg : Config) {HL : TrackLaws cfg G} (m : G) (fe : option string) (wf cp : bool).
Definition recoverable (d : Db) : Prop := F /\ durable (db_dir d) (db_wal d) m.

Lemma wp_open_current s dir wal io :
  durable dir wal m -> calm F io ->
  wp open_current (fun c d => exists dir' io' gen segs fs, d = mkDb s dir' wal io' fe wf cp /\ calm F io' /\
      c = mkCurrent FORMAT_VERSION gen /\ disk_ok dir' gen segs /\ wal_holds wal fs /\ held dir' segs fs m)
    recoverable (mkDb s dir wal io fe wf cp).
Proof.
  intros Hd Hc. unfold open_current. do 2 wp_pure. cbn [db_dir]. unfold read_file.
  destruct Hd as [(Hcur & Hno & -> & Hh)|(gen & segs & fs & Hd & Hw & Hct)].
  - rewrite Hcur. wp_pure. apply (wp_publish F); [done| |].
    + intros io1 H1. wp_pure. apply (wp_publish F); [done| |].
      * intros io2 H2. wp_pure. do 2 eexists. exists 1, [], []. split_and!; [reflexivity | done | done | by apply disk_fresh | | by do 2 (apply held_insert; [done|])].
        by apply wal_holds_whole; [split; constructor|].
      * intros HF io2 H2. split; [done|]. left. cbn. split_and!; [by rewrite lookup_insert_ne | by apply no_directories_insert | done | by apply held_insert].
    + intros HF io1 H1. split; [done|]. by left.
  - destruct (open_current_ok _ _ _ Hd) as (bs & -> & Hdec). eapply wp_lift; [exact Hdec|]. exists dir, io, gen, segs, fs. done.
Qed.

(** The state recovery builds over the replayed frames. *)
Lemma recovered_ok dir gen segs fs r :
  disk_ok dir gen segs -> frames_good fs ->
  r = replayed (mkReplay mt_new 0 (Z.max (max_generation ∅) 0 + 1) ∅ ∅ ∅ [] [] []) (mem_of fs) (replay_max 0 fs) ->
  let s := recovered_state dir (manifest_at gen segs) None (map sg_reader segs) 0 r in
  state_ok s segs [] fs /\ st_generation s = gen /\ st_next_seq s = resume_seq segs fs.
Proof.
  intros Hd Hg -> s. assert (Hs : forall g, g ∈ segs -> sg_rec g ∈ map sg_rec segs) by (intros g Hgi; apply list_elem_of_In, in_map, list_elem_of_In, Hgi).
  unfold s, recovered_state. destruct (scan_l0 _) as [[n b0] b1]. unfold manifest_at. cbn [segments generation].
  destruct (replay_max_spec fs 0) as [Hm0 Hm]. destruct (fold_max_spec (map seq_hi (map sg_rec segs)) 0) as [Hq0 Hq].
  destruct (fold_max_spec (map segment_id (map sg_rec segs)) 0) as [Hi0 Hi].
  split; [|done]. split; cbn; try done; try lia.
  - rewrite Forall_forall in *. intros f Hf. specialize (Hm f Hf). cbn. lia.
  - apply Forall_forall. intros g Hgi. apply Forall_forall. intros e He.
    pose proof (proj1 (Forall_forall _ _) (dk_segs _ _ _ Hd) g Hgi) as Hok. pose proof (rd_seq _ _ (seg_ok_reads _ _ Hok) e He) as Hle.
    rewrite Forall_forall in Hq. assert (seq_hi (sg_rec g) ∈ map seq_hi (map sg_rec segs)) as Hin.
    { apply list_elem_of_In, in_map, list_elem_of_In. by apply Hs. }
    specialize (Hq _ Hin). cbn in Hq. rewrite (so_rec _ _ Hok) in Hq. cbn in Hq. lia.
  - apply Forall_forall. intros g Hgi. rewrite Forall_forall in Hi.
    assert (segment_id (sg_rec g) ∈ map segment_id (map sg_rec segs)) as Hin by (apply list_elem_of_In, in_map, list_elem_of_In; by apply Hs).
    specialize (Hi _ Hin). unfold sg_id. lia.
  - split; cbn; try done. by apply no_log_bytes, (dk_dirs _ _ _ Hd).
Qed.

Lemma wp_open s dir wal io :
  block_target cfg <> 0 -> durable dir wal m -> calm F io ->
  wp (open_db cfg) (fun _ d => inv d m /\ calm F (db_io d)) recoverable (mkDb s dir wal io fe wf cp).
Proof.
  intros Hbt Hd Hc. unfold open_db. rewrite (proj2 (Z.eqb_neq _ _)) by done. wp_pure.
  eapply wp_mono; [by apply wp_open_current | | done]. intros c d (dir' & io' & gen & segs & fs & -> & Hc' & -> & Hdk & Hw & Hct).
  clear Hd Hc io dir. rename dir' into dir, io' into io. do 2 wp_pure. cbn [db_dir db_wal manifest_generation].
  pose proof (dk_dirs _ _ _ Hdk) as Hno. pose proof Hw as (Hg & n & Hr & Hn).
  wp_pure. eapply wp_lift; [by apply open_manifest_ok|]. wp_pure. eapply wp_lift; [by apply no_checkpoint|].
  wp_pure. eapply wp_lift; [reflexivity|]. wp_pure. eapply wp_lift; [by apply no_recover_identity|].
  wp_pure. eapply wp_lift; [by apply open_segments_ok, (dk_segs _ _ _ Hdk)|]. wp_pure. eapply wp_lift; [by apply no_recover_placement|].
  rewrite no_orphans by done. wp_pure. eapply wp_lift; [rewrite map_to_list_empty; reflexivity|].
  wp_pure. eapply wp_lift.
  { eapply replay_reader_ok; [exact Hr | exact Hn|]. by apply (replay_frames_ok fs _ []); [apply Hg|]. }
  cbn [app rp_max]. destruct Hr as (_ & _ & enc & He & Ew & -> & Hq).
  assert (ztake (zlen enc) wal = enc) as Ht by (rewrite Ew; by apply ztake_app).
  assert (forall s' io', calm F io' -> s' = recovered_state dir (manifest_at gen segs) None (map sg_reader segs) 0
      (replayed (mkReplay mt_new 0 (Z.max (max_generation ∅) 0 + 1) ∅ ∅ ∅ [] [] []) (mem_of fs) (replay_max 0 fs)) ->
    inv (mkDb s' dir enc io' None false false) m /\ calm F io') as Hfin.
  { intros s' io' H' ->. destruct (recovered_ok dir gen segs fs _ Hdk Hg eq_refl) as (Hs & Eg & En). split; [|done].
    exists segs, [], fs. split; cbn [db_state db_dir db_wal db_fenced db_wal_fail_next concat app]; try done; [by rewrite Eg|]. rewrite En. by eapply tl_open; [| |apply Hct]. }
  wp_pure. apply wp_when.
  - intros _. wp_pure. apply (wp_set_len F); [done| |].
    + intros io1 H1. rewrite Ht. apply (wp_sync F); [done| |].
      * intros io2 H2. wp_pure. by apply Hfin.
      * intros HF io2 H2. split; [done|]. right. exists gen, segs, fs. split_and!; [done | by apply wal_holds_whole | done].
    + intros HF io1 H1. split; [done|]. right. by exists gen, segs, fs.
  - intros E. apply negb_false_iff in E. bool_to_prop. wp_pure. cbn [db_dir db_wal db_io].
    assert (wal = enc) as ->; [|by apply Hfin]. rewrite <-Ht, E. symmetry. unfold ztake. rewrite zlen_to_nat. by apply firstn_all.
Qed.
End Opening.
End Recover.
