(* ===== verification/DbFlush.v ===== *)
(** Rotation and flush over a byte history: the three phases keep the represented map, and
    whatever write they stop at, the disk still recovers it. *)

From stdpp Require Import gmap sorting.
From S2P Require Import Prelude Cursor Format Identity Placement Disk Checkpoint Wal WalFrames WalReplay WalReader.
From S2P Require Import Memtable Segment SegmentBlock SegmentLookup SegmentFile SegmentQueries SegmentProps Compaction.
From S2P Require Import CompactionMerge CompactionProps DbState Db DbOpen DbLayers DbWp DbInv DbRecover.

(* ------------------------------------------------------------------ *)
(** * Memtables of frames *)

Lemma last_says_some ops : ops <> [] -> Forall byte_op ops -> exists k x, last_says ops k = Some x.
Proof.
  intros Hne Hb. destruct (exists_last Hne) as (ops' & o & ->). apply Forall_app in Hb as [_ Hb]. apply Forall_inv in Hb.
  destruct o as [k v|k| | |]; try done; exists k; rewrite last_says_snoc; cbn; rewrite bytes_eqb_refl; eauto.
Qed.
Lemma frames_rows_nonempty fs : frames_good fs -> fs <> [] -> frames_rows fs <> [].
Proof.
  intros Hg Hne E. destruct fs as [|f fs]; [done|]. pose proof (fsg_each _ Hg) as Hf. apply Forall_inv in Hf as [_ Hn Ho].
  destruct (last_says_some (frame_ops f)) as (k & x & Hl); [done | eapply Forall_impl; [exact Ho|]; by intros ? [? _]|].
  assert (mem_row k (frame_seq f) x ∈ frames_rows (f :: fs)) as Hin by (apply frames_rows_elem; [done|]; exists f, k, x; set_solver).
  rewrite E in Hin. by apply not_elem_of_nil in Hin.
Qed.
Lemma mem_of_is_empty fs : frames_good fs -> mt_is_empty (mem_of fs) = bool_decide (fs = []).
Proof.
  intros Hg. destruct fs as [|f fs]; [done|]. rewrite bool_decide_eq_false_2 by done.
  pose proof (frames_rows_nonempty _ Hg ltac:(done)) as Hne. unfold mem_rows, mt_entries in Hne. unfold mt_is_empty.
  destruct (mt_map (mem_of (f :: fs))); [|done]. by destruct Hne.
Qed.
Lemma mem_of_entries fs x : frames_good fs -> x ∈ mt_entries (mem_of fs) -> exists b, x.2 = Byte b.
Proof.
  intros Hg Hx. destruct x as [[k s] e]. apply mt_entries_elem in Hx; [|apply mt_run_sorted]. rewrite mem_of_flat in Hx.
  apply mem_of_lookup in Hx as (f & y & _ & _ & _ & ->); [|done]. eauto.
Qed.
Lemma mem_of_no_identity fs : frames_good fs -> has_identity (mem_of fs) = false.
Proof.
  intros Hg. pose proof (fun x => mem_of_entries fs x Hg) as H. unfold has_identity, mt_entries in *.
  apply not_true_iff_false. intros ([k c] & Hin & Hex)%existsb_exists. apply existsb_exists in Hex as ([s e] & Hc & He).
  destruct (H (k, s, e)) as [b Eb]; [|cbn in Eb; by subst e]. apply list_elem_of_In, in_flat_map. exists (k, c). split; [done|].
  apply in_map_iff. by exists (s, e).
Qed.

(** The writer a memtable flushes through. *)
Lemma sw_push_fold rows : forall w,
  fold_left sw_push rows w = mkSegmentWriter (sw_target w) (sw_entries w ++ rows) (sw_v2 w) (sw_v3 w) (sw_v4 w).
Proof.
  induction rows as [|e rows IH]; intros w; cbn [fold_left]; [rewrite app_nil_r; by destruct w|]. rewrite IH. cbn. by rewrite <-app_assoc.
Qed.
Lemma flush_writer_ok target fs :
  frames_good fs ->
  flush_writer target (mem_of fs) = mkSegmentWriter target (map flush_row (mt_entries (mem_of fs))) true false false.
Proof. intros Hg. unfold flush_writer. rewrite mem_of_no_identity, sw_push_fold by done. done. Qed.

Section Flush.
Context {SHA : Sha256}.

(** Publishing a memtable of frames: the file, its reader, and no anchors. *)
Lemma flush_publishes target fs :
  target <> 0 -> frames_good fs -> fs <> [] -> fits (frames_rows fs) ->
  exists w file sz ck r, flags_ok w /\
    (publish_with_anchors_sorted (flush_writer target (mem_of fs))).2 = Ok (file, (sz, ck, [])) /\
    publish_sorted_entries w (frames_rows fs) = Ok (file, (sz, ck, [])) /\ open_segment file = Ok r.
Proof.
  intros Ht Hg Hne Hfit. rewrite flush_writer_ok by done. set (w := mkSegmentWriter _ _ _ _ _).
  assert (publishable w (frames_rows fs)) as Hp by (split; [done | by apply frames_rows_wf | done]).
  destruct (proj2 (publish_ok_iff w _ Hp)) as [[file [[sz ck] an]] E].
  { split_and!; [done | by apply frames_rows_nonempty | apply frames_rows_sorted]. }
  destruct (published_open w _ _ _ _ _ Hp E) as (r & blocks & Ho & _ & _ & _ & _ & _ & _ & _ & Ea & _).
  rewrite anchors_of_bytes, map_to_list_empty in Ea by done. cbn in Ea. subst an. exists w, file, sz, ck, r. split_and!; try done.
Qed.

(* ------------------------------------------------------------------ *)
(** * The disk under a flush *)

Lemma segs_insert dir n bs segs :
  (forall g, g ∈ segs -> n <> FSegment (sg_id g)) -> Forall (seg_ok dir) segs -> Forall (seg_ok (<[n := bs]> dir)) segs.
Proof.
  intros Hn Hs. rewrite Forall_forall in *. intros g Hg. eapply seg_ok_dir; [|by apply Hs]. apply lookup_insert_ne. by apply Hn.
Qed.
Lemma disk_ok_insert dir gen segs n bs :
  disk_ok dir gen segs -> directory_file n = false -> n <> FCurrent -> n <> FManifest gen ->
  (forall g, g ∈ segs -> n <> FSegment (sg_id g)) -> disk_ok (<[n := bs]> dir) gen segs.
Proof.
  intros [H1 H2 H3 H4 H5 H6 H7] Hd Hc Hm Hn. split; try done.
  - by rewrite lookup_insert_ne.
  - by rewrite lookup_insert_ne.
  - by apply segs_insert.
  - by apply no_directories_insert.
Qed.

(** The pair of the next generation takes over. *)
Lemma disk_ok_publish dir gen segs gen' segs' :
  disk_ok dir gen segs -> 0 < gen' < U64 -> is_u32 (zlen segs') -> NoDup (map sg_id segs') -> Forall (seg_ok dir) segs' ->
  disk_ok (<[FCurrent := current_encode (mkCurrent FORMAT_VERSION gen')]>
            (<[FManifest gen' := manifest_encode (manifest_at gen' segs')]> dir)) gen' segs'.
Proof.
  intros [_ _ _ _ _ _ H7] Hg Hc Hn Hs. split; try done.
  - by rewrite lookup_insert_eq.
  - rewrite lookup_insert_ne by done. by rewrite lookup_insert_eq.
  - by do 2 (apply segs_insert; [done|]).
  - by do 2 (apply no_directories_insert; [done|]).
Qed.

(** What the flushed frames represent, before and after the WAL lets go of them. *)
Lemma content_flushed segs new fss m keep :
  frames_good (concat fss) -> map sg_rows new = map (fun fs => frames_rows fs) fss ->
  content segs (concat fss) m -> keep = [] \/ keep = concat fss -> content (segs ++ new) keep m.
Proof.
  intros Hg Hn [Hl Hr] Hk. set (ls := map sg_rows segs) in *.
  assert (map sg_rows (segs ++ new) ++ [frames_rows keep] = ls ++ map (fun fs => frames_rows fs) fss ++ [frames_rows keep]) as E.
  { by rewrite map_app, Hn, <-app_assoc. }
  assert (forall k, layers_get (map sg_rows (segs ++ new) ++ [frames_rows keep]) k = layers_get (ls ++ [frames_rows (concat fss)]) k) as Hget.
  { intros k. rewrite E, !layers_get_app, frames_layers_get by done.
    change (layers_get [frames_rows keep] k) with (find_row k None (frames_rows keep)).
    change (layers_get [frames_rows (concat fss)] k) with (find_row k None (frames_rows (concat fss))).
    destruct Hk as [->| ->]; [done|]. by destruct (find_row k None _). }
  split; [|eapply represents_ext; [|exact Hr]; intros k; by rewrite Hget].
  eapply layered_ext; [exact Hl | | exact Hget|].
  - rewrite E. pose proof (ly_sorted _ Hl) as Hs. apply Forall_app in Hs as [Hs _]. apply Forall_app. split; [done|].
    apply Forall_app. split; [apply Forall_map, Forall_forall; intros; apply frames_rows_sorted|]. constructor; [apply frames_rows_sorted | done].
  - intros x. rewrite E, !concat_app, !elem_of_app, frames_layers_rows by done. cbn. rewrite !app_nil_r.
    destruct Hk as [->| ->]; [|tauto]. intros [?|[?|H]]; [by left | by right | by apply not_elem_of_nil in H].
Qed.

Section Phases.
Context {G : Type} `{HT : Track G} (F : Prop) (cfg : Config) {HL : TrackLaws cfg G} (m : G) (fe : option string) (wf cp : bool).
Context (Htarget : block_target cfg <> 0).
Abbreviation db s dir wal io := (mkDb s dir wal io fe wf cp).

Lemma recoverable_at s dir wal io gen segs fs :
  F -> disk_ok dir gen segs -> wal_holds wal fs -> held dir segs fs m -> recoverable F m (db s dir wal io).
Proof. intros HF Hd Hw Hc. split; [done|]. right. by exists gen, segs, fs. Qed.

(** Phase B over the remaining memtables: old segments and WAL stand, [new] grows. *)
Record built (dir : Dir) (b : FlushBuild) (new : list Seg) : Prop := {
  bl_segs : Forall (seg_ok dir) new; bl_readers : fb_new_segments b = map sg_reader new;
  bl_records : fb_records b = map sg_rec new; bl_anchors : fb_anchors b = ∅ }.

Lemma wp_flush_one s dir wal io gen segs all b new fs id :
  calm F io -> disk_ok dir gen segs -> wal_holds wal all -> held dir segs all m -> built dir b new ->
  frames_good fs -> fs <> [] -> fits (frames_rows fs) -> is_u64 id -> id ∉ map sg_id (segs ++ new) ->
  wp (flush_one cfg b (mem_of fs) id) (fun b' d' => exists dir' io' g, d' = db s dir' wal io' /\ calm F io' /\
      disk_ok dir' gen segs /\ held dir' segs all m /\ built dir' b' (new ++ [g]) /\ sg_rows g = frames_rows fs /\ sg_id g = id) (recoverable F m) (db s dir wal io).
Proof.
  intros Hc Hd Hw Hct [Hn Hr He Ha] Hg Hne Hf Hid Hnew. assert (forall g, g ∈ segs ++ new -> FSegment id <> FSegment (sg_id g)) as Hfresh.
  { intros g Hgi [= ->]. apply Hnew, list_elem_of_In, in_map, list_elem_of_In, Hgi. }
  destruct (flush_publishes (block_target cfg) fs Htarget Hg Hne Hf) as (w & file & sz & ck & r & Hfl & Ep & Ep' & Ho).
  unfold flush_one. wp_pure. eapply wp_lift; [exact Ep|]. wp_pure. apply (wp_publish F); [done| |].
  - intros io1 H1. do 2 wp_pure. cbn [db_dir]. wp_pure. eapply wp_lift; [unfold read_file; by rewrite lookup_insert_eq|].
    wp_pure. eapply wp_lift; [exact Ho|]. wp_pure. exists (<[FSegment id := file]> dir), io1, (mkSeg (record_of id 0 r sz ck) r (frames_rows fs)).
    split_and!; try done.
    + apply disk_ok_insert; try done. intros g Hgi. apply Hfresh. set_solver.
    + by apply held_insert.
    + split; cbn [fb_new_segments fb_records fb_anchors].
      * apply Forall_app. split; [apply segs_insert; [|done]; intros g Hgi; apply Hfresh; set_solver|]. constructor; [|done].
        split; cbn; try done; [by apply frames_rows_wf | by apply frames_rows_byte|]. exists w, file, []. split_and!; try done. by rewrite lookup_insert_eq.
      * by rewrite Hr, map_app.
      * by rewrite He, map_app.
      * done.
  - intros HF io1 H1. by eapply recoverable_at.
Qed.

Lemma wp_flush_all s wal gen segs all fss : forall ids dir io b new,
  calm F io -> disk_ok dir gen segs -> wal_holds wal all -> held dir segs all m -> built dir b new ->
  Forall (fun fs => frames_good fs /\ fs <> [] /\ fits (frames_rows fs)) fss -> length ids = length fss ->
  Forall is_u64 ids -> NoDup ids -> (forall id, id ∈ ids -> id ∉ map sg_id (segs ++ new)) ->
  wp (flush_all cfg b (zip (map mem_of fss) ids)) (fun b' d' => exists dir' io' more, d' = db s dir' wal io' /\ calm F io' /\
      disk_ok dir' gen segs /\ held dir' segs all m /\ built dir' b' (new ++ more) /\ map sg_rows more = map (fun fs => frames_rows fs) fss /\ map sg_id more = ids)
    (recoverable F m) (db s dir wal io).
Proof.
  induction fss as [|fs fss IH]; intros [|id ids] dir io b new Hc Hd Hw Hct Hb Hfs Hlen Hid Hnd Hnew; try done.
  { exists dir, io, []. rewrite app_nil_r. done. }
  apply Forall_cons_1 in Hfs as [(Hg & Hne & Hf) Hfs]. apply Forall_cons_1 in Hid as [Hi Hid]. apply NoDup_cons in Hnd as [Hni Hnd].
  cbn [map zip zip_with flush_all]. wp_pure. eapply wp_mono; [eapply (wp_flush_one s dir wal io gen segs all b new fs id); try done; apply Hnew; set_solver | | done].
  intros b1 d1 (dir1 & io1 & g & -> & H1 & Hd1 & Hh1 & Hb1 & Er & Ei).
  eapply wp_mono; [eapply (IH ids dir1 io1 b1 (new ++ [g])); try done; [by injection Hlen|] | | done].
  - intros i Hin. specialize (Hnew i ltac:(set_solver)). rewrite !map_app in *. cbn. rewrite Ei. set_solver.
  - intros b2 d2 (dir2 & io2 & more & -> & H2 & Hd2 & Hh2 & Hb2 & Er2 & Ei2). exists dir2, io2, (g :: more).
    rewrite <-app_assoc in Hb2. split_and!; try done; cbn; congruence.
Qed.

(** With nothing pending, the delta logs write nothing; no checkpoint is due. *)
Lemma wp_identity_log (Q : unit -> Db -> Prop) E d : st_pending_identity (db_state d) = [] -> Q tt d -> wp publish_identity_log Q E d.
Proof. intros Hp HQ. unfold publish_identity_log. do 4 wp_pure. apply wp_when; [by rewrite Hp | done]. Qed.
Lemma wp_replica_log (Q : unit -> Db -> Prop) E d : st_pending_replicas (db_state d) = [] -> Q tt d -> wp publish_replica_log Q E d.
Proof. intros Hp HQ. unfold publish_replica_log. do 4 wp_pure. apply wp_when; [by rewrite Hp | done]. Qed.
Lemma wp_placement_log (Q : unit -> Db -> Prop) E d : Q tt d -> wp (publish_placement_log []) Q E d.
Proof. intros HQ. unfold publish_placement_log. do 2 wp_pure. by apply wp_when. Qed.
Lemma wp_no_checkpoint (Q : unit -> Db -> Prop) E d : st_bytes_since_checkpoint (db_state d) = 0 -> Q tt d -> wp (maybe_checkpoint cfg) Q E d.
Proof.
  intros Hz HQ. unfold maybe_checkpoint. do 2 wp_pure. rewrite Hz. apply wp_when; [|done].
  intros [H1 H2]%andb_true_iff. bool_to_prop. lia.
Qed.

Lemma manifest_of_at s segs gen : no_objects s -> st_generation s = gen -> manifest_of s (map sg_rec segs) = manifest_at gen segs.
Proof. intros [_ _ _ _ _ (E1 & E2 & E3) (E4 & E5 & E6)] Eg. unfold manifest_of, manifest_at. by rewrite E1, E2, E3, E4, E5, E6, Eg. Qed.

(** The pair's publication moves the disk from one segment list to the next. *)
Lemma wp_publish_pair s dir wal io gen segs gen' segs' fs :
  calm F io -> disk_ok dir gen segs -> wal_holds wal fs -> held dir segs fs m ->
  no_objects s -> st_generation s = gen' -> gen < gen' < U64 -> is_u32 (zlen segs') -> NoDup (map sg_id segs') -> Forall (seg_ok dir) segs' ->
  wp (publish_pair (map sg_rec segs')) (fun _ d' => exists dir' io', d' = db s dir' wal io' /\ calm F io' /\ disk_ok dir' gen' segs' /\
      forall n, dir' !! FRlog n = dir !! FRlog n)
    (recoverable F m) (db s dir wal io).
Proof.
  intros Hc Hd Hw Hct Ho Eg Hgen Hn Hnd Hs. unfold publish_pair. do 2 wp_pure. cbn [db_state]. unfold id. rewrite (manifest_of_at s segs' gen' Ho Eg), Eg.
  pose proof (dk_gen _ _ _ Hd). wp_pure. apply (wp_publish F); [done| |].
  - intros io1 H1. apply (wp_publish F); [done| |].
    + intros io2 H2. do 2 eexists. split_and!; [reflexivity | done | eapply disk_ok_publish; try done; lia|]. intros n. by rewrite !lookup_insert_ne.
    + intros HF io2 H2. eapply recoverable_at; [done | | done | by apply held_insert]. apply disk_ok_insert; try done. intros [= E]. lia.
  - intros HF io1 H1. by eapply recoverable_at.
Qed.

(** Truncating the WAL of flushed frames. *)
Lemma wp_truncate s dir wal io gen segs fs :
  calm F io -> disk_ok dir gen segs -> frames_good fs -> encode_stream fs = Ok wal ->
  let dir' := archived cfg dir fs wal in held dir segs fs m -> held dir' segs fs m -> held dir' segs [] m ->
  wp (truncate_wal cfg (zlen wal)) (fun _ d' => exists io', d' = db s dir' [] io' /\ calm F io' /\ disk_ok dir' gen segs)
    (recoverable F m) (db s dir wal io).
Proof.
  intros Hc Hd Hg He dir' Hct Hct1 Hct0. pose proof (wal_holds_whole _ _ Hg He) as Hw. unfold truncate_wal. do 2 wp_pure. cbn [db_wal].
  rewrite Z.ltb_irrefl. assert (ztake (zlen wal) wal = wal) as Et by (unfold ztake; rewrite zlen_to_nat; apply firstn_all).
  assert (forall io', calm F io' -> disk_ok dir' gen segs ->
    wp (_ ← wal_set_len 0; _ ← when false (wal_append []); wal_sync) (fun _ d' => exists io', d' = db s dir' [] io' /\ calm F io' /\ disk_ok dir' gen segs)
      (recoverable F m) (db s dir' wal io')) as Hrest.
  { intros io' H' Hd'. wp_pure. apply (wp_set_len F); [done| |intros HF io1 H1; by eapply recoverable_at].
    intros io1 H1. change (ztake 0 wal) with (@nil byte). wp_pure. apply wp_when; [done|]. intros _. apply (wp_sync F); [done| |].
    - intros io2 H2. by exists io2.
    - intros HF io2 H2. eapply recoverable_at; [done | done | | done]. apply wal_holds_whole; [split; constructor | done]. }
  destruct fs as [|f fs].
  { cbn in He. injection He as <-. rewrite andb_false_r. wp_pure. by apply Hrest. }
  pose proof He as He'. cbn in He'. apply bind_Ok_inv in He' as (e & Hf & He'). apply bind_Ok_inv in He' as (rest & _ & He').
  injection He' as Ew. pose proof (fsg_each _ Hg) as Hgf. apply Forall_inv, frame_good_wf in Hgf as [Hs Ho].
  assert (0 < zlen wal) as Hpos. { rewrite <-Ew, zlen_app. pose proof (encode_frame_len _ _ _ Ho Hf). pose proof (zlen_nonneg rest). unfold FRAME_HEADER_LEN in *. lia. }
  apply Z.ltb_lt in Hpos. rewrite Hpos, Et. subst dir'. cbn [archived] in *. destruct (retain_log cfg); cbn [andb]; [|wp_pure; by apply Hrest].
  wp_pure. apply wp_when; [intros _|done]. wp_pure. eapply wp_lift; [rewrite <-Ew; by apply decode_frame_encode|]. cbv iota beta. apply (wp_publish F); [done| |].
  - intros io1 H1. apply Hrest; [done|]. by apply disk_ok_insert.
  - intros HF io1 H1. by eapply recoverable_at.
Qed.

Lemma no_objects_upd s s' :
  no_objects s -> st_identity s' = st_identity s -> st_replicas s' = st_replicas s -> st_placements s' = st_placements s ->
  st_pending_identity s' = st_pending_identity s -> st_pending_replicas s' = st_pending_replicas s -> st_pending_placements s' = [] ->
  st_bytes_since_checkpoint s' = st_bytes_since_checkpoint s ->
  st_identity_floor s' = st_identity_floor s -> st_replica_floor s' = st_replica_floor s -> st_placement_floor s' = st_placement_floor s ->
  st_identity_chain s' = st_identity_chain s -> st_replica_chain s' = st_replica_chain s -> st_placement_chain s' = st_placement_chain s ->
  no_objects s'.
Proof. intros [H1 H2 H3 (H4 & H5 & H6) H7 H8 H9]. intros. split; try congruence; split_and!; naive_solver congruence. Qed.

(** Phase C, over the segments phase B built for the detached memtables. *)
Lemma wp_phase_c s dir wal io segs fss new b :
  let gen := st_generation s in
  calm F io -> state_ok s segs [] [] -> disk_ok dir gen segs -> built dir b new ->
  frames_good (concat fss) -> encode_stream (concat fss) = Ok wal -> map sg_rows new = map (fun fs => frames_rows fs) fss ->
  held dir segs (concat fss) m -> Forall (fun f => frame_seq f < st_next_seq s) (concat fss) ->
  gen + 1 < U64 -> is_u32 (zlen (segs ++ new)) -> NoDup (map sg_id (segs ++ new)) -> Forall (fun g => sg_id g < st_next_segment_id s) new ->
  wp (flush_phase_c cfg b (zlen wal)) (fun _ d' => exists s' dir' io', d' = db s' dir' [] io' /\ calm F io' /\
      state_ok s' (segs ++ new) [] [] /\ disk_ok dir' (st_generation s') (segs ++ new) /\ held dir' (segs ++ new) [] m /\ st_next_seq s' = st_next_seq s)
    (recoverable F m) (db s dir wal io).
Proof.
  intros gen Hc Hst Hd [Hb1 Hb2 Hb3 Hb4] Hg He Hrows Hct Hseq Hgen Hn Hnd Hids. destruct Hst as [K1 K2 K3 K4 K5 K6 K7 K8 K9 K10 K11].
  pose proof K11 as [_ _ _ (P1 & P2 & P3) _ _ _]. pose proof (dk_gen _ _ _ Hd) as Hg0.
  pose proof (content_flushed segs new fss _ (concat fss) Hg Hrows (hd_content _ _ _ _ Hct) ltac:(by right)) as Hc1.
  pose proof (content_flushed segs new fss _ [] Hg Hrows (hd_content _ _ _ _ Hct) ltac:(by left)) as Hc0.
  unfold flush_phase_c. rewrite Hb4, map_to_list_empty. change (merge_sort anchor_le []) with (@nil (ReplicaId * (Z * Z * Z * Z))).
  cbn [for_each]. wp_steps. apply wp_identity_log; [exact P1|]. wp_steps. apply wp_replica_log; [exact P2|]. wp_steps. cbn. rewrite P3.
  apply wp_placement_log. wp_steps. cbn. rewrite K5, Hb3, <-map_app.
  eapply wp_mono; [eapply (wp_publish_pair _ dir wal io gen segs (gen + 1) (segs ++ new) (concat fss)); try done | | done].
  { by apply wal_holds_whole. }
  { eapply no_objects_upd; [exact K11 | done..]. }
  { lia. }
  { apply Forall_app. split; [apply Hd | done]. }
  intros _ d1 (dir1 & io1 & -> & H1 & Hd1 & Erl). wp_pure.
  assert (Forall (seg_ok dir1) new) as Hnew1 by (pose proof (dk_segs _ _ _ Hd1) as Hsg; by apply Forall_app in Hsg as [_ Hsg]).
  destruct (tl_flush dir1 segs new fss wal m Hg He Hrows Hnew1) as (T1 & T2 & T3); [eapply (tl_dir (cfg:=cfg)); [exact Erl | apply Hct]|].
  eapply wp_mono; [eapply (wp_truncate _ dir1 wal io1 (gen + 1) (segs ++ new) (concat fss)); [done | done | done | done | by split..] | | done].
  intros _ d2 (io2 & -> & H2 & Hd2). do 2 wp_pure. apply wp_no_checkpoint; [apply K11|].
  do 3 eexists. split_and!; [reflexivity | exact H2 | | exact Hd2 | by split | done].
  split; cbn; try done.
  - by rewrite ?K4, ?Hb2, ?map_app.
  - by rewrite ?K5, ?Hb3, ?map_app.
  - apply Forall_app. split; [exact K7|]. rewrite Forall_forall in Hseq. apply Forall_forall. intros g Hgi. apply Forall_forall. intros e Hei.
    assert (sg_rows g ∈ map (fun fs => frames_rows fs) fss) as Hin by (rewrite <-Hrows; apply list_elem_of_In, in_map, list_elem_of_In, Hgi).
    assert (e ∈ frames_rows (concat fss)) as He2 by (apply frames_layers_rows; [done|]; apply elem_of_concat; eauto).
    apply frames_rows_seq in He2 as (f & Hf & ->); [|done]. by apply Hseq.
  - apply Forall_app. done.
  - eapply no_objects_upd; [exact K11 | done..].
Qed.
End Phases.

(* ------------------------------------------------------------------ *)
(** * Rotation and flush *)

(** Room for one more flush: the counters, the manifest's record count and the segment
    format's sizes. *)
Record room (cfg : Config) (s : State) : Prop := {
  rm_target : block_target cfg <> 0;
  rm_generation : st_generation s + 1 < U64;
  rm_ids : st_next_segment_id s + zlen (st_immutables s) + 1 < U64;
  rm_records : zlen (st_segment_records s) + zlen (st_immutables s) + 1 < U32;
  rm_fits : Forall (fun mem => fits (mem_rows mem)) (st_immutables s ++ [st_active s]) }.

(** What [rotate] makes of the state. *)
Definition rotated (s : State) : State :=
  if mt_is_empty (st_active s) then s
  else upd_immutables (fun l => l ++ [st_active s]) (upd_active (fun _ => mt_new) s).

Lemma rotate_active_eq d : rotate_active d = (upd_state rotated d, Ok tt).
Proof.
  unfold rotate_active, rotated, when, mbind, M_bind, gets, modify, mret, M_ret, upd_state. destruct d as [s dir wal io fe wf cp]. cbn.
  by destruct (mt_is_empty (st_active s)).
Qed.

Lemma inv_rotated {G} `{HT : Track G} d segs fss fs (m : G) :
  inv_at d segs fss fs m ->
  exists fss', concat fss' = concat fss ++ fs /\ inv_at (upd_state rotated d) segs fss' [] m /\
    st_immutables (rotated (db_state d)) = map mem_of fss' /\ (zlen fss' <= zlen fss + 1)%Z /\
    (forall fs', fs' ∈ fss' -> mem_of fs' ∈ st_immutables (db_state d) ++ [st_active (db_state d)]).
Proof.
  intros [Hst Hd Hw Hg Hc Hnu Hfe Hfl]. destruct Hst as [K1 K2 K3 K4 K5 K6 K7 K8 K9 K10 K11].
  pose proof (proj1 (frames_good_app _ _) Hg) as (_ & Hgf & _). rewrite K1, K2.
  unfold rotated. rewrite K1, mem_of_is_empty by done. case_bool_decide as Ef.
  - subst fs. exists fss. rewrite app_nil_r in *. split_and!; [done | | done | lia|].
    + destruct d. unfold upd_state, rotated. cbn in *. rewrite K1. cbn. split; cbn; try done; [|by rewrite app_nil_r..]. split; cbn; try done. by rewrite app_nil_r.
    + intros fs' Hin. apply elem_of_app. left. apply list_elem_of_In, in_map, list_elem_of_In, Hin.
  - assert (concat (fss ++ [fs]) = concat fss ++ fs) as E by (rewrite concat_app; cbn; by rewrite app_nil_r).
    exists (fss ++ [fs]). split_and!; [done | | cbn; by rewrite K2, map_app | rewrite zlen_app, zlen_cons, zlen_nil; lia|].
    + unfold upd_state, rotated. rewrite K1, mem_of_is_empty, bool_decide_eq_false_2 by done.
      split; cbn [db_state db_dir db_wal db_fenced db_wal_fail_next]; rewrite ?app_nil_r, ?E; try done.
      split; cbn; rewrite ?app_nil_r, ?E; try done; [by rewrite ?K2, map_app | by apply Forall_app; split; [|constructor] | by destruct K11; split].
    + intros fs' Hin. apply elem_of_app in Hin as [Hin|Hin]; apply elem_of_app; [left | right; apply list_elem_of_singleton in Hin as ->; set_solver].
      apply list_elem_of_In, in_map, list_elem_of_In, Hin.
Qed.

Lemma wp_rotate (Q : unit -> Db -> Prop) E d : Q tt (upd_state rotated d) -> wp rotate_active Q E d.
Proof. unfold wp. by rewrite rotate_active_eq. Qed.

Lemma rotated_fields s :
  st_next_seq (rotated s) = st_next_seq s /\ st_generation (rotated s) = st_generation s /\
  st_next_segment_id (rotated s) = st_next_segment_id s /\ st_segment_records (rotated s) = st_segment_records s.
Proof. unfold rotated. by destruct (mt_is_empty (st_active s)). Qed.

(** Flush: with every write completing it succeeds and keeps the represented map; stopped
    at any write, it leaves a disk that recovers that map. *)
Lemma wp_flush {G} `{HT : Track G} F cfg {HL : TrackLaws cfg G} d segs fss fs (m : G) :
  inv_at d segs fss fs m -> room cfg (db_state d) -> calm F (db_io d) ->
  wp (flush cfg) (fun _ d' => inv d' m /\ calm F (db_io d') /\ st_next_seq (db_state d') = st_next_seq (db_state d)) (recoverable F m) d.
Proof.
  intros Hi [R1 R2 R3 R4 R5] Hc. destruct (inv_rotated _ _ _ _ _ Hi) as (all & Eall & Hr & Himm & Hlen & Hmem).
  destruct (rotated_fields (db_state d)) as (F1 & F2 & F3 & F4).
  assert (zlen (st_immutables (db_state d)) = zlen fss) as Elen by (rewrite (sk_immutables _ _ _ _ (iv_state _ _ _ _ _ Hi)); unfold zlen; by rewrite length_map).
  clear Hi Eall. destruct d as [s dir wal io fe wf cp]. cbn [db_state db_io] in *. unfold flush, flush_phase_a. do 2 wp_pure.
  apply wp_rotate. unfold upd_state in *. cbn [db_state db_dir db_wal db_io db_fenced db_wal_fail_next db_compactor_pending] in *.
  set (s1 := rotated s) in *. do 2 wp_pure. cbn [db_state]. rewrite Himm. destruct all as [|fs1 all'] eqn:Ea.
  { cbn [map]. wp_steps. split_and!; [by exists segs, [], [] | done | done]. }
  rewrite <-Ea in *. assert (all <> []) as Hne by congruence. clear Ea fs1 all'.
  destruct Hr as [Hst Hd Hw Hg Hct Hnu Hfe Hfl]. cbn [db_state db_dir db_wal db_fenced db_wal_fail_next] in *. rewrite app_nil_r in *.
  assert (forall X Y : M (option FlushPlan), match map mem_of all with [] => X | _ => Y end = Y) as Em by (intros; by destruct all).
  rewrite Em. clear Em. wp_steps. unfold upd_state. cbn [db_state db_dir db_wal db_io db_fenced db_wal_fail_next db_compactor_pending].
  change (st_next_segment_id (upd_immutables (fun _ => []) s1)) with (st_next_segment_id s1). set (s2 := upd_next_segment_id _ _).
  assert (state_ok s2 segs [] []) as Hst2.
  { destruct Hst as [K1 K2 K3 K4 K5 K6 K7 K8 K9 K10 K11]. pose proof (zlen_nonneg (map mem_of all)). split; cbn; try done.
    - lia.
    - eapply Forall_impl; [exact K10|]. cbn. intros g. lia.
    - by destruct K11; split. }
  assert (zlen (map mem_of all) = zlen all) as Ez by (unfold zlen; by rewrite length_map).
  pose proof (sk_ids _ _ _ _ Hst) as Hids. pose proof (sk_next_id _ _ _ _ Hst) as Hid0. pose proof (sk_frames_seq _ _ _ _ Hst) as Hseq. rewrite app_nil_r in Hseq.
  pose proof (zlen_nonneg all). rewrite Ez. unfold flush_phase_b. cbn [fp_immutables fp_segment_ids fp_wal_truncate_len].
  eapply wp_mono; [eapply (wp_flush_all F cfg m fe wf cp R1 s2 wal _ segs (concat all) all _ dir io _ []); try done | | done].
  - by apply wal_holds_whole.
  - apply Forall_forall. intros fs' Hin. rewrite Forall_forall in R5. split_and!.
    + by eapply (proj1 (Forall_forall _ _) (frames_good_concat _ Hg)).
    + by eapply (proj1 (Forall_forall _ _) (sk_nonempty _ _ _ _ Hst)).
    + by apply R5, Hmem.
  - rewrite length_seqZ. unfold zlen. lia.
  - apply Forall_forall. intros i Hin%elem_of_seqZ. unfold is_u64. rewrite F3 in *. lia.
  - apply NoDup_seqZ.
  - intros i Hin%elem_of_seqZ Hin2. rewrite app_nil_r in Hin2. apply list_elem_of_In, in_map_iff in Hin2 as (g & <- & Hgi%list_elem_of_In).
    eapply Forall_forall in Hids; [|exact Hgi]. cbn in Hids. lia.
  - intros b d1 (dir1 & io1 & new & -> & H1 & Hd1 & Hh1 & Hb1 & Er & Ei). cbn [app] in Hb1.
    assert (zlen new = zlen all) as En by (apply (f_equal length) in Er; rewrite !length_map in Er; unfold zlen; lia).
    pose proof (sk_records _ _ _ _ Hst) as Erec. assert (zlen segs = zlen (st_segment_records s)) as Es by (rewrite <-F4, Erec; unfold zlen; by rewrite length_map).
    eapply wp_mono; [eapply (wp_phase_c F cfg m fe wf cp s2 dir1 wal io1 segs all new b); try done | | done].
    + cbn. rewrite F2. done.
    + split; [apply zlen_nonneg|]. rewrite zlen_app. lia.
    + rewrite map_app, Ei. apply NoDup_app. split_and!; [apply Hd | | apply NoDup_seqZ]. intros i Hin Hin2%elem_of_seqZ.
      apply list_elem_of_In, in_map_iff in Hin as (g & <- & Hgi%list_elem_of_In). eapply Forall_forall in Hids; [|exact Hgi]. cbn in Hids. lia.
    + apply Forall_forall. intros g Hgi. assert (sg_id g ∈ map sg_id new) as Hin by (apply list_elem_of_In, in_map, list_elem_of_In, Hgi).
      rewrite Ei in Hin. apply elem_of_seqZ in Hin. cbn. lia.
    + intros _ d2 (s3 & dir2 & io2 & -> & H2 & Hst3 & Hd3 & Hct3 & Eseq). split_and!; [|done|cbn; by rewrite Eseq; cbn].
      exists (segs ++ new), [], []. split; cbn; try done; [split; constructor|]. rewrite Eseq. exact Hnu.
Qed.

(** [rotate] keeps the represented map. *)
Lemma wp_rotation {G} `{HT : Track G} F d (m : G) :
  inv d m -> calm F (db_io d) -> wp rotate (fun _ d' => inv d' m /\ calm F (db_io d')) (recoverable F m) d.
Proof.
  intros (segs & fss & fs & Hi) Hc. destruct (inv_rotated _ _ _ _ _ Hi) as (all & _ & Hr & _). apply wp_rotate. split; [|by destruct d].
  by exists segs, all, [].
Qed.
End Flush.
