(* ===== verification/DbWrite.v ===== *)
(** The write path over a byte history: a committed batch is its effect on the represented
    map, and a batch that fails leaves a disk that recovers the map before or after it. *)

From stdpp Require Import gmap.
From S2P Require Import Prelude Cursor Format Identity Placement Disk Checkpoint Wal WalFrames WalReplay WalReader.
From S2P Require Import Memtable Segment SegmentBlock SegmentLookup SegmentFile SegmentQueries SegmentProps Compaction.
From S2P Require Import CompactionMerge CompactionProps DbState Db DbOpen DbLayers DbWp DbInv DbRecover.
From S2P Require Import DbFlush.

Section Write.
Context {SHA : Sha256}.

(** Applying byte operations only touches the active memtable. *)
Definition insert_all (ws : list (bytes * Z * MemEntry)) (mem : Memtable) : Memtable :=
  fold_left (fun m '(k, s, e) => mt_insert m k s e) ws mem.
Lemma wp_apply_ops bump seq ops : forall (Q : unit -> Db -> Prop) E d,
  Forall byte_op ops -> Q tt (upd_state (upd_active (insert_all (map (op_write seq) ops))) d) ->
  wp (for_each ops (apply_op bump seq)) Q E d.
Proof.
  induction ops as [|o ops IH]; intros Q E d Hb HQ; cbn [for_each].
  - apply wp_ret. by destruct d as [[] ? ? ? ? ? ?].
  - apply Forall_cons_1 in Hb as [Ho Hb]. apply wp_bind. destruct o; try done; apply wp_modify, IH; done.
Qed.

(** The state after a batch is applied. *)
Definition committed (s : State) (ops : list Op) : State :=
  upd_active (insert_all (map (op_write (st_next_seq s)) ops)) (upd_next_seq (fun n => n + 1) s).

(** A failed write: nothing of the batch or all of it survives. *)
Definition recoverable_either {G} `{HT : Track G} (F : Prop) (m m' : G) (d : Db) : Prop :=
  F /\ (durable (db_dir d) (db_wal d) m \/ durable (db_dir d) (db_wal d) m').

(** A batch the write path takes: non-empty, byte operations within the format's sizes. *)
Record batch_ok (s : State) (ops : list Op) : Prop := {
  bk_ops : Forall op_good ops; bk_ne : ops <> [];
  bk_seq : st_next_seq s < U64;
  bk_encodes : exists e, encode_frame (st_next_seq s) ops = Ok e;
  bk_embedded : no_embedded (st_next_seq s) ops }.

(** One more frame on the disk's content. *)
Definition below (n : Z) (segs : list Seg) (fs : list WalFrame) : Prop :=
  Forall (fun f => frame_seq f < n) fs /\ Forall (fun g => Forall (fun e => se_seq e < n) (sg_rows g)) segs.
Lemma content_frame segs fs m n ops :
  frames_good fs -> content segs fs m -> below n segs fs -> 0 <= n < U64 -> Forall op_good ops -> ops <> [] ->
  let fs' := fs ++ [mkWalFrame n ops] in frames_good fs' /\ content segs fs' (ops_effect m ops) /\ below (n + 1) segs fs'.
Proof.
  intros Hg [Hl Hr] [Hf Hs] Hn Ho Hne fs'. assert (frames_good fs') as Hg'.
  { assert (frame_good (mkWalFrame n ops)) by done. apply frames_good_app. split_and!; [done | split; [by constructor | repeat constructor]|]. intros g f Hgi Hfi. apply list_elem_of_singleton in Hfi as ->.
    by eapply Forall_forall in Hf; [|exact Hgi]. }
  split_and!; [done | |].
  - split; [apply layered_frame; [done | | done] | by apply (represents_frame _ _ (mkWalFrame n ops))]. intros x (l & Hli & Hx)%elem_of_concat.
    apply list_elem_of_In, in_map_iff in Hli as (g & <- & Hgi%list_elem_of_In). eapply Forall_forall in Hs; [|exact Hgi].
    by eapply Forall_forall in Hs; [|exact Hx].
  - split.
    + apply Forall_app. split; [eapply Forall_impl; [exact Hf|]; cbn; lia | constructor; [cbn; lia | done]].
    + eapply Forall_impl; [exact Hs|]. intros g Hgr. eapply Forall_impl; [exact Hgr|]. cbn. lia.
Qed.

Lemma held_frame {G} `{HT : Track G} {cfg} {HL : TrackLaws cfg G} dir segs fs (g : G) n ops :
  frames_good fs -> held dir segs fs g -> numbered g n -> below n segs fs -> 0 <= n < U64 -> Forall op_good ops -> ops <> [] ->
  let fs' := fs ++ [mkWalFrame n ops] in
  frames_good fs' /\ held dir segs fs' (spec_batch g ops) /\ numbered (spec_batch g ops) (n + 1) /\ below (n + 1) segs fs'.
Proof.
  intros Hg [Hc Ht] Hnu Hb Hn Ho Hne fs'. destruct (content_frame segs fs _ n ops Hg Hc Hb Hn Ho Hne) as (H1 & H2 & H3).
  destruct (tl_batch dir segs fs g n ops Ht Hnu Hn Ho Hne) as [H4 H5]. split_and!; try done. split; [by rewrite spec_map_batch | done].
Qed.

Lemma encode_stream_snoc fs wal n ops e :
  encode_stream fs = Ok wal -> encode_frame n ops = Ok e -> encode_stream (fs ++ [mkWalFrame n ops]) = Ok (wal ++ e).
Proof. intros Hw He. apply encode_stream_app; [done|]. cbn. rewrite He. cbn. by rewrite app_nil_r. Qed.

Lemma inv_committed {G} `{HT : Track G} {cfg} {HL : TrackLaws cfg G} d segs fss fs (m : G) ops e wal io wf cp :
  inv_at d segs fss fs m -> batch_ok (db_state d) ops -> encode_frame (st_next_seq (db_state d)) ops = Ok e ->
  wal = db_wal d ++ e -> wf = false ->
  inv_at (mkDb (committed (db_state d) ops) (db_dir d) wal io (db_fenced d) wf cp) segs fss (fs ++ [mkWalFrame (st_next_seq (db_state d)) ops])
    (spec_batch m ops).
Proof.
  intros [Hst Hd Hw Hg Hct Hnu Hfe Hfl] [B1 B2 B3 _ _] He -> ->. destruct Hst as [K1 K2 K3 K4 K5 K6 K7 K8 K9 K10 K11].
  destruct (held_frame _ segs _ m (st_next_seq (db_state d)) ops Hg Hct Hnu) as (Hg' & Hc' & Hnu' & [Hf' Hs']); [by split | done | done | done|].
  split; cbn [db_state db_dir db_wal db_fenced db_wal_fail_next]; rewrite ?app_assoc; try done; [|by apply encode_stream_snoc].
  split; cbn; rewrite ?app_assoc; try done.
  - by rewrite K1, mem_of_snoc.
  - lia.
  - by destruct K11; split.
Qed.

Lemma wp_maybe_compact cfg (Q : unit -> Db -> Prop) E d :
  compact_background cfg = true \/ l0_compact_trigger cfg = 0 ->
  (forall cp, Q tt (mkDb (db_state d) (db_dir d) (db_wal d) (db_io d) (db_fenced d) (db_wal_fail_next d) cp)) -> wp (maybe_compact cfg) Q E d.
Proof.
  intros Hcfg HQ. unfold maybe_compact. destruct (l0_compact_trigger cfg =? 0) eqn:Et; [apply wp_ret; by destruct d|].
  destruct Hcfg as [Hb|Hb]; [|bool_to_prop; done]. wp_steps. unfold id. destruct (negb (compact_due _ _)); [apply wp_ret; by destruct d|].
  rewrite Hb. cbn [negb]. apply wp_modify_db, HQ.
Qed.
Lemma inv_pending {G} `{HT : Track G} d (m : G) io cp :
  inv d m -> inv (mkDb (db_state d) (db_dir d) (db_wal d) io (db_fenced d) (db_wal_fail_next d) cp) m.
Proof. intros (segs & fss & fs & [H1 H2 H3 H4 H5 H6 H7 H8]). exists segs, fss, fs. by split. Qed.

(** Committing a batch. *)
Lemma wp_commit {G} `{HT : Track G} F cfg {HL : TrackLaws cfg G} d (m : G) ops :
  inv d m -> batch_ok (db_state d) ops -> room cfg (committed (db_state d) ops) -> calm F (db_io d) ->
  compact_background cfg = true \/ l0_compact_trigger cfg = 0 ->
  wp (commit_at cfg (st_next_seq (db_state d)) ops)
    (fun seq d' => seq = st_next_seq (db_state d) /\ inv d' (spec_batch m ops) /\ calm F (db_io d') /\ st_next_seq (db_state d') = seq + 1)
    (recoverable_either F m (spec_batch m ops)) d.
Proof.
  intros (segs & fss & fs & Hi) Hb Hroom Hc Hcfg. pose proof Hb as [B1 B2 B3 (e & He) B5].
  pose proof (fun wal io wf cp => inv_committed d segs fss fs m ops e wal io wf cp Hi Hb He) as Hi'.
  pose proof Hi as [Hst Hd Hw Hg Hct Hnu Hfe Hfl]. destruct d as [s dir wal io fe wf cp]. cbn [db_state db_dir db_wal db_io db_fenced db_wal_fail_next] in *.
  subst fe wf. unfold commit_at. wp_steps. unfold upd_state. cbn [db_state db_dir db_wal db_io db_fenced db_wal_fail_next db_compactor_pending].
  eapply wp_lift; [exact He|]. wp_steps. cbn [db_wal_fail_next]. apply wp_when; [done|]. intros _. unfold upd_wal_fail_next.
  cbn [db_state db_dir db_wal db_io db_fenced db_wal_fail_next db_compactor_pending].
  assert (forall s' io' w, w = wal ++ e -> F -> recoverable_either F m (spec_batch m ops) (mkDb s' dir w io' None false cp)) as Hfull.
  { intros s' io' w -> HF. split; [done|]. right. cbn. pose proof (Hi' (wal ++ e) io false cp eq_refl eq_refl) as [_ Hd' Hw' Hg' Hc' _ _ _].
    right. eexists _, segs, _. split_and!; [exact Hd' | by apply wal_holds_whole; [exact Hg' | exact Hw'] | exact Hc']. }
  wp_pure. apply (wp_append F); [done| |].
  - intros io1 H1. wp_pure.
    assert (forall io', calm F io' -> wp (_ ← for_each ops (apply_op true (st_next_seq s)); active ← gets st_active;
        _ ← when (memtable_bytes cfg <=? mt_bytes active) (flush cfg); _ ← maybe_compact cfg; mret (st_next_seq s))
      (fun seq d' => seq = st_next_seq s /\ inv d' (spec_batch m ops) /\ calm F (db_io d') /\ st_next_seq (db_state d') = seq + 1)
      (recoverable_either F m (spec_batch m ops)) (mkDb (upd_next_seq (fun n => n + 1) s) dir (wal ++ e) io' None false cp)) as Hrest.
    { intros io2 H2. wp_pure. apply wp_apply_ops; [eapply Forall_impl; [exact B1|]; by intros ? [? _]|].
      unfold upd_state. cbn [db_state db_dir db_wal db_io db_fenced db_wal_fail_next db_compactor_pending].
      change (upd_active _ (upd_next_seq _ s)) with (committed s ops). specialize (Hi' (wal ++ e) io2 false cp eq_refl eq_refl).
      do 2 wp_pure. wp_pure. apply wp_when.
      - intros _. eapply wp_mono; [eapply (wp_flush F cfg); [exact Hi' | exact Hroom | exact H2] | |].
        + intros _ d' (Hinv & H3 & Eq). wp_pure. apply wp_maybe_compact; [done|]. intros cp'. wp_pure. split_and!; [done | by apply inv_pending | done | exact Eq].
        + intros d' [HF Hdur]. split; [done | by right].
      - intros _. wp_pure. apply wp_maybe_compact; [done|]. intros cp'. wp_pure. split_and!; [done | | done | done].
        apply (inv_pending (mkDb _ _ _ _ _ _ _) _ _ cp'). by exists segs, fss, (fs ++ [mkWalFrame (st_next_seq s) ops]). }
    apply wp_when; [|intros _; by apply Hrest]. intros _. apply (wp_sync F); [done | intros io2 H2; by apply Hrest|].
    intros HF io2 H2. by apply Hfull.
  - intros HF n io1 H1. destruct (Z.lt_ge_cases n (zlen e)) as [Hn|Hn].
    + split; [done|]. left. right. exists (st_generation s), segs, (concat fss ++ fs). split_and!; [done | | done].
      eapply (wal_holds_torn _ _ (mkWalFrame (st_next_seq s) ops)); try done. split; [|done|done].
      cbn. pose proof (sk_next_seq _ _ _ _ Hst). unfold is_u64. lia.
    + apply Hfull; [|done]. f_equal. unfold ztake, zlen in *. apply take_ge. lia.
Qed.

(* ------------------------------------------------------------------ *)
(** * Group commit *)

(** The frames of a group, and its effect batch by batch. *)
Fixpoint group_frames (n : Z) (group : list (list Op)) : list WalFrame :=
  match group with [] => [] | ops :: group => mkWalFrame n ops :: group_frames (n + 1) group end.
Definition group_effect {G} `{Spec G} (g : G) (group : list (list Op)) : G := fold_left spec_batch group g.

(** A group the committer takes, numbered from [n]. *)
Fixpoint group_ok (n : Z) (group : list (list Op)) : Prop :=
  match group with
  | [] => True
  | ops :: group => Forall op_good ops /\ ops <> [] /\ n < U64 /\ (exists e, encode_frame n ops = Ok e) /\ no_embedded n ops /\ group_ok (n + 1) group
  end.

(** A failed group: a prefix of its batches survives. *)
Definition recoverable_prefix {G} `{HT : Track G} (F : Prop) (m : G) (group : list (list Op)) (d : Db) : Prop :=
  F /\ exists k, (k <= length group)%nat /\ durable (db_dir d) (db_wal d) (group_effect m (take k group)).

Lemma recoverable_prefix_cons {G} `{HT : Track G} F (m : G) ops group d :
  recoverable_prefix F (spec_batch m ops) group d -> recoverable_prefix F m (ops :: group) d.
Proof. intros (HF & k & Hk & Hd). split; [done|]. exists (S k). split; [cbn; lia | done]. Qed.

Section Group.
Context {G : Type} `{HT : Track G} {cfg : Config} {HL : TrackLaws cfg G} (F : Prop) (dir : Dir) (fe : option string) (wf cp : bool) (gen : Z) (segs : list Seg) (Hd : disk_ok dir gen segs).
Abbreviation db s wal io := (mkDb s dir wal io fe wf cp).
Definition next_seq_at (s : State) (n : Z) : State := upd_next_seq (fun _ => n) s.

Lemma wp_append_group group : forall s wal io fs (m : G),
  calm F io -> frames_good fs -> encode_stream fs = Ok wal -> held dir segs fs m -> numbered m (st_next_seq s) -> below (st_next_seq s) segs fs -> 0 <= st_next_seq s ->
  group_ok (st_next_seq s) group ->
  wp (append_group group) (fun seqs d' => exists wal' io', let q := st_next_seq s in let fs' := fs ++ group_frames q group in
      d' = db (next_seq_at s (q + zlen group)) wal' io' /\ calm F io' /\ seqs = seqZ q (zlen group) /\ encode_stream fs' = Ok wal' /\
      frames_good fs' /\ held dir segs fs' (group_effect m group) /\ numbered (group_effect m group) (q + zlen group) /\ below (q + zlen group) segs fs')
    (recoverable_prefix F m group) (db s wal io).
Proof.
  induction group as [|ops group IH]; intros s wal io fs m Hc Hg He Hct Hnu Hb Hn Hok; cbn [append_group].
  { wp_pure. exists wal, io. cbn. rewrite app_nil_r, zlen_nil, Z.add_0_r. split_and!; try done. by destruct s. }
  destruct Hok as (Ho & Hne & Hu & (e & Hfe) & Hem & Hok). cbn zeta. set (n := st_next_seq s) in *.
  destruct (held_frame dir segs fs m n ops Hg Hct Hnu Hb ltac:(lia) Ho Hne) as (Hg' & Hct' & Hnu' & Hb').
  pose proof (encode_stream_snoc _ _ _ _ _ He Hfe) as He'. wp_steps. unfold upd_state.
  cbn [db_state db_dir db_wal db_io db_fenced db_wal_fail_next db_compactor_pending]. eapply wp_lift; [exact Hfe|]. wp_pure.
  apply (wp_append F); [done| |].
  - intros io1 H1. wp_pure. eapply wp_mono; [eapply (IH (upd_next_seq (fun n => n + 1) s) _ io1 (fs ++ [mkWalFrame n ops])); try done; cbn; fold n; lia | |].
    + intros seqs d' (wal' & io' & -> & H' & -> & E' & G' & C' & N' & B'). cbn [st_next_seq upd_next_seq] in *. fold n in E', G', C', N', B' |- *. wp_pure. exists wal', io'.
      rewrite zlen_cons. cbn [group_frames group_effect fold_left]. rewrite <-app_assoc in E', G', C', B'. replace (n + (1 + zlen group)) with (n + 1 + zlen group) by lia.
      split_and!; try done. pose proof (zlen_nonneg group). rewrite (seqZ_cons n) by lia.
      by replace (Z.succ n) with (n + 1) by lia; replace (Z.pred (1 + zlen group)) with (zlen group) by lia.
    + intros d'. apply recoverable_prefix_cons.
  - intros HF l io1 H1. split; [done|]. destruct (Z.lt_ge_cases l (zlen e)) as [Hl|Hl].
    + exists 0%nat. split; [lia|]. cbn. right. exists gen, segs, fs. split_and!; [done | | done].
      eapply (wal_holds_torn _ _ (mkWalFrame n ops)); try done.
    + exists 1%nat. split; [cbn; lia|]. cbn. right. exists gen, segs, (fs ++ [mkWalFrame n ops]). split_and!; [done | | done].
      apply wal_holds_whole; [done|]. rewrite He'. do 2 f_equal. unfold ztake, zlen in *. symmetry. apply take_ge. lia.
Qed.
End Group.

Lemma group_frames_writes n group : forall fs,
  mem_of (fs ++ group_frames n group) = fold_left (fun m x => insert_all (map (op_write x.2) x.1) m) (zip group (seqZ n (zlen group))) (mem_of fs).
Proof.
  revert n. induction group as [|ops group IH]; intros n fs; cbn [group_frames]; [by rewrite app_nil_r|].
  rewrite zlen_cons. pose proof (zlen_nonneg group). rewrite (seqZ_cons n) by lia. replace (Z.succ n) with (n + 1) by lia.
  replace (Z.pred (1 + zlen group)) with (zlen group) by lia. cbn [zip zip_with fold_left fst snd].
  rewrite (cons_middle _ fs), app_assoc, IH. by rewrite mem_of_snoc.
Qed.

Lemma wp_apply_group batches : forall (Q : Result unit -> Db -> Prop) E d,
  Forall (fun x => Forall byte_op x.1) batches ->
  Q (Ok tt) (upd_state (upd_active (fun mem => fold_left (fun m x => insert_all (map (op_write x.2) x.1) m) batches mem)) d) ->
  wp (apply_group (Ok tt) batches) Q E d.
Proof.
  induction batches as [|[ops seq] batches IH]; intros Q E d Hb HQ; cbn [apply_group].
  { apply wp_ret. by destruct d as [[] ? ? ? ? ? ?]. }
  apply Forall_cons_1 in Hb as [Ho Hb]. cbn in Ho. apply wp_bind.
  pose proof (wp_apply_ops false seq ops (fun _ d' => d' = upd_state (upd_active (insert_all (map (op_write seq) ops))) d) (fun _ => False) d Ho eq_refl) as H.
  unfold wp, try_ in *. destruct (for_each ops (apply_op false seq) d) as [d1 [u|err]]; [|done]. subst d1. by apply IH.
Qed.

(** The state after a group is applied. *)
Definition group_committed (s : State) (group : list (list Op)) : State :=
  upd_active (fun mem => fold_left (fun m x => insert_all (map (op_write x.2) x.1) m) (zip group (seqZ (st_next_seq s) (zlen group))) mem)
    (next_seq_at s (st_next_seq s + zlen group)).

Lemma group_ok_bytes n group : group_ok n group -> Forall (Forall byte_op) group.
Proof.
  revert n. induction group as [|ops group IH]; intros n; cbn; [constructor|]. intros (Ho & _ & _ & _ & _ & H).
  constructor; [eapply Forall_impl; [exact Ho|]; by intros ? [? _] | by eapply IH].
Qed.

(** The committer: one sync acknowledges the batches of the group in order; a failure
    leaves a prefix of them. *)
Lemma wp_commit_group {G} `{HT : Track G} F cfg {HL : TrackLaws cfg G} d (m : G) group :
  inv d m -> group_ok (st_next_seq (db_state d)) group -> room cfg (group_committed (db_state d) group) -> calm F (db_io d) ->
  wp (commit_group cfg group)
    (fun seqs d' => seqs = seqZ (st_next_seq (db_state d)) (zlen group) /\ inv d' (group_effect m group) /\ calm F (db_io d') /\
       st_next_seq (db_state d') = st_next_seq (db_state d) + zlen group)
    (recoverable_prefix F m group) d.
Proof.
  intros (segs & fss & fs & [Hst Hd Hw Hg Hct Hnu Hfe Hfl]) Hok Hroom Hc. destruct d as [s dir wal io fe wf cp].
  cbn [db_state db_dir db_wal db_io db_fenced db_wal_fail_next] in *. subst fe wf. destruct Hst as [K1 K2 K3 K4 K5 K6 K7 K8 K9 K10 K11].
  set (n := st_next_seq s) in *. unfold commit_group. wp_pure.
  eapply wp_mono; [eapply (wp_append_group F dir None false cp _ segs Hd group s wal io (concat fss ++ fs) m); try done; by split | | done].
  intros seqs d1 (wal1 & io1 & -> & H1 & -> & E1 & G1 & C1 & N1 & [Bf Bs]). fold n in E1, G1, C1, N1, Bf, Bs |- *. pose proof (zlen_nonneg group) as Hz.
  assert (forall s' io', F -> recoverable_prefix F m group (mkDb s' dir wal1 io' None false cp)) as Hall.
  { intros s' io' HF. split; [done|]. exists (length group). split; [done|]. rewrite firstn_all. right. eexists _, segs, _.
    split_and!; [exact Hd | by apply wal_holds_whole; [exact G1 | exact E1] | exact C1]. }
  wp_pure. apply (wp_sync F); [done | | intros HF io2 H2; by apply Hall]. intros io2 H2. wp_pure. apply wp_apply_group.
  { apply group_ok_bytes in Hok. clear -Hok. generalize (seqZ n (zlen group)). induction Hok as [|ops group Ho _ IH]; intros [|q qs]; constructor; [done | apply IH]. }
  unfold upd_state. cbn [db_state db_dir db_wal db_io db_fenced db_wal_fail_next db_compactor_pending].
  change (upd_active _ (next_seq_at s _)) with (group_committed s group).
  assert (inv_at (mkDb (group_committed s group) dir wal1 io2 None false cp) segs fss (fs ++ group_frames n group) (group_effect m group)) as Hi'.
  { rewrite <-app_assoc in E1, G1, C1, Bf. split; cbn [db_state db_dir db_wal db_fenced db_wal_fail_next]; try done. split; cbn; try done.
    - by rewrite K1, group_frames_writes.
    - lia.
    - by destruct K11; split. }
  do 2 wp_pure. cbn [is_ok andb]. wp_pure. destruct (memtable_bytes cfg <=? _).
  - pose proof (wp_flush F cfg _ segs fss _ _ Hi' Hroom H2) as Hfl. unfold wp, try_ in *. destruct (flush cfg _) as [d2 [[]|err]].
    + destruct Hfl as (Hinv & H3 & Eq). cbn. done.
    + destruct Hfl as [HF Hdur]. cbn. split; [done|]. exists (length group). by rewrite firstn_all.
  - wp_pure. cbn. split_and!; [done | by eexists _, _, _ | done | done].
Qed.

(** [write] past its guards, in every durability mode: in group-commit mode the batch is a
    group of its own. *)
Lemma wp_write {G} `{HT : Track G} F cfg {HL : TrackLaws cfg G} d (m : G) ops :
  inv d m -> batch_ok (db_state d) ops -> room cfg (committed (db_state d) ops) -> calm F (db_io d) ->
  compact_background cfg = true \/ l0_compact_trigger cfg = 0 ->
  wp (write cfg ops) (fun seq d' => seq = st_next_seq (db_state d) /\ inv d' (spec_batch m ops) /\ calm F (db_io d') /\
      st_next_seq (db_state d') = seq + 1) (recoverable_either F m (spec_batch m ops)) d.
Proof.
  intros Hi Hb Hroom Hc Hcfg. unfold write, write_at. destruct ops as [|o ops'] eqn:E; [by destruct (bk_ne _ _ Hb)|]. rewrite <-E in *.
  assert (existsb (fun op => U16 - 1 <? zlen (op_key op)) ops = false) as ->.
  { apply not_true_iff_false. intros (x & Hin%list_elem_of_In & Hx)%existsb_exists. pose proof (bk_ops _ _ Hb) as Ho.
    eapply Forall_forall in Ho; [|exact Hin]. destruct Ho as (_ & Hk & _). bool_to_prop. lia. }
  wp_steps. pose proof Hi as (? & ? & ? & [_ _ _ _ _ _ -> _]). case_bool_decide; [|by apply wp_commit].
  destruct Hb as [B1 B2 B3 B4 B5]. wp_pure. eapply wp_mono; [eapply (wp_commit_group F cfg d m [ops]); try done | |].
  - intros seqs d' (-> & Hinv & H' & Eq). wp_pure. apply wp_maybe_compact; [done|]. intros cp. wp_steps.
    split_and!; [cbn; lia | by apply inv_pending | done | exact Eq].
  - intros d' (HF & k & Hk & Hdur). split; [done|]. destruct k as [|[|k]]; [by left | by right | cbn in Hk; lia].
Qed.
End Write.
