(* ===== verification/DbCompact.v ===== *)
(** Compaction over a byte history: under the keep-everything policy the merged segments
    represent the same map, and whatever write the publication stops at, the disk still
    recovers it. *)

From stdpp Require Import gmap sorting.
From S2P Require Import Prelude Cursor Format Identity Placement Disk Checkpoint Wal WalFrames WalReplay WalReader.
From S2P Require Import Memtable Segment SegmentBlock SegmentLookup SegmentFile SegmentQueries SegmentProps Compaction.
From S2P Require Import CompactionMerge CompactionProps DbState Db DbOpen DbLayers DbWp DbInv DbRecover.
From S2P Require Import DbFlush.

(* ------------------------------------------------------------------ *)
(** * The rows a byte merge keeps *)

Lemma find_row_byte k l : Forall byte_row l -> find_row k None l = find_row k (Some (mkReplicaId 0)) l.
Proof.
  unfold find_row. induction 1 as [|e l He _ IH]; [done|]. cbn. unfold row_match at 1 3. unfold byte_row in He.
  rewrite He, bool_decide_eq_true_2 by done. by rewrite IH.
Qed.
Lemma merge_order_byte rss : Forall (Forall byte_row) rss -> Forall byte_row (merge_order rss).
Proof.
  intros H. apply Forall_forall. intros e He. unfold merge_order in He. rewrite sort_entries_perm in He.
  apply elem_of_concat in He as (l & Hl & He). eapply Forall_forall in H; [|exact Hl]. by eapply Forall_forall in H.
Qed.

#[local] Existing Instance KeepAll.
Lemma live_byte l : Forall byte_row l -> Forall byte_row (live_rows l).
Proof. rewrite !Forall_forall. intros H e [He%first_rows_sub _]%elem_of_filter_bool. auto. Qed.
Lemma live_get l k :
  Forall byte_row l -> find_row k None (live_rows l) = (e ← find_row k None l; if is_tombstone e then None else Some e).
Proof.
  intros Hb. rewrite !find_row_byte by (done || by apply live_byte). rewrite find_row_live.
  destruct (find_row k _ l) as [e|]; [|done]. cbn. by destruct (is_tombstone e).
Qed.
Lemma live_sub l x : x ∈ live_rows l -> x ∈ l.
Proof. intros [Hx _]%elem_of_filter_bool. by apply first_rows_sub. Qed.

(** One row per key. *)
Lemma filter_keys_nodup (f : SegmentEntry -> bool) l : NoDup (map se_key l) -> NoDup (map se_key (List.filter f l)).
Proof.
  induction l as [|e l IH]; [done|]. cbn. intros [He Hn]%NoDup_cons. destruct (f e); [|by apply IH]. cbn. apply NoDup_cons. split; [|by apply IH].
  intros Hin. apply He. apply list_elem_of_In, in_map_iff in Hin as (x & <- & Hx%list_elem_of_In). apply elem_of_filter_bool in Hx as [Hx _].
  apply list_elem_of_In, in_map, list_elem_of_In, Hx.
Qed.
Lemma live_keys_nodup l : Forall byte_row l -> NoDup (map se_key (live_rows l)).
Proof.
  intros Hb. unfold live_rows. apply filter_keys_nodup. induction Hb as [|e l He Hb IH]; [constructor|]. cbn [first_rows map].
  apply NoDup_cons. split; [|by apply filter_keys_nodup]. intros Hin.
  apply list_elem_of_In, in_map_iff in Hin as (x & Ek & Hx%list_elem_of_In). apply elem_of_filter_bool in Hx as [Hx Hs].
  apply first_rows_sub in Hx. eapply Forall_forall in Hb; [|exact Hx]. unfold byte_row in *.
  rewrite (proj2 (same_slot_eq e x)) in Hs; [done|]. split; congruence.
Qed.
Lemma layers_get_concat done k : NoDup (map se_key (concat done)) -> layers_get done k = find_row k None (concat done).
Proof.
  unfold layers_get. induction done as [|l done IH]; [done|]. cbn [concat newest_first]. rewrite map_app. intros (_ & Hx & Hn)%NoDup_app.
  rewrite find_row_app, <-IH by done. destruct (find_row k None l) as [e|] eqn:E; [|by destruct (newest_first _ done)].
  assert (newest_first (find_row k None) done = None) as ->; [|done]. apply (layers_get_no done k). intros x Hxin Ek.
  unfold find_row in E. apply find_some in E as [Hin Hm]. unfold row_match in Hm. rewrite andb_true_r in Hm. apply bytes_eqb_eq in Hm.
  apply (Hx (se_key e)); [by apply list_elem_of_In, in_map|]. rewrite Hm, <-Ek. by apply list_elem_of_In, in_map, list_elem_of_In.
Qed.

(** The merge's output in place of its inputs, below the memtables' rows. *)
Lemma merged_layers rss top done :
  Forall (Forall byte_row) rss -> layered (rss ++ [top]) -> concat done = live_rows (merge_order rss) ->
  Forall (StronglySorted publish_lt) done ->
  layered (done ++ [top]) /\ forall k, view (done ++ [top]) k = view (rss ++ [top]) k.
Proof.
  intros Hb Hl Hd Hs. pose proof (merge_order_byte _ Hb) as Hmb.
  assert (forall k, layers_get done k = (e ← find_row k None (merge_order rss); if is_tombstone e then None else Some e)) as Hget.
  { intros k. rewrite layers_get_concat, Hd by (rewrite Hd; by apply live_keys_nodup). by apply live_get. }
  assert (forall k, layers_get (done ++ [top]) k = match find_row k None top with Some e => Some e
    | None => e ← layers_get rss k; if is_tombstone e then None else Some e end) as Hnew.
  { intros k. rewrite layers_get_app. change (layers_get [top] k) with (find_row k None top). destruct (find_row k None top) as [e|] eqn:E; [done|].
    rewrite Hget. by rewrite (layers_get_merge rss [top] k Hl E). }
  assert (forall x, x ∈ concat (done ++ [top]) -> x ∈ concat (rss ++ [top])) as Hsub.
  { intros x. rewrite !concat_app, !elem_of_app, Hd. intros [H|H]; [|by right]. left. apply live_sub in H. unfold merge_order in H.
    by rewrite sort_entries_perm in H. }
  destruct Hl as [Ls Lc Lt]. split.
  - split.
    + apply Forall_app in Ls as [_ Ls]. apply Forall_app. by split.
    + intros a b Ha Hb'. apply Lc; auto.
    + intros k e x He Hx Hk. apply (Lt k); [|by apply Hsub|done]. rewrite Hnew in He. rewrite layers_get_app.
      change (layers_get [top] k) with (find_row k None top). destruct (find_row k None top); [done|].
      destruct (layers_get rss k) as [y|]; [|done]. cbn in He. by destruct (is_tombstone y).
  - intros k. unfold view. rewrite Hnew, (layers_get_app rss). change (layers_get [top] k) with (find_row k None top).
    destruct (find_row k None top); [done|]. destruct (layers_get rss k) as [y|]; [|done]. cbn.
    destruct (is_tombstone y) eqn:Et; [|done]. cbn. unfold is_tombstone in Et. unfold row_value. by destruct (Z.land (se_flags y) FLAG_DELETE =? 0).
Qed.

(* ------------------------------------------------------------------ *)
(** * The staged files *)

Section Names.
Context {SHA : Sha256}.

(** Keeping everything, a merge stages one file per live chunk and no archive. *)
Definition named (ms : MergeState) : Prop :=
  ms_archive ms = None /\ map fst (ms_files ms) = map (fun c => FSegment (lc_id c)) (ls_chunks (ms_live ms)).

Lemma publish_chunk_named w next_id files c w' next_id' files' :
  publish_chunk w next_id files = Ok (c, w', next_id', files') -> map fst files' = map fst files ++ [FSegment (lc_id c)].
Proof.
  unfold publish_chunk. destruct (publish_with_anchors_sorted_staged w) as [w0 res]. intros (file & Hf & H)%bind_Ok_inv. destruct file as [file [[sz ck] an]].
  apply bind_Ok_inv in H as (r & Hr & H). injection H as <- <- <- <-. by rewrite map_app.
Qed.
Lemma push_live_named sink next_id files cb e sink' next_id' files' :
  push_live sink next_id files cb e = Ok (sink', next_id', files') ->
  map fst files = map (fun c => FSegment (lc_id c)) (ls_chunks sink) -> map fst files' = map (fun c => FSegment (lc_id c)) (ls_chunks sink').
Proof.
  unfold push_live. intros H Hn. apply bind_Ok_inv in H as ([[s1 n1] f1] & H1 & H). injection H as <- <- <-. cbn.
  destruct (_ && _); [|by injection H1 as <- <- <-]. apply bind_Ok_inv in H1 as ([[[c w] n2] f2] & Hp & H1). injection H1 as <- <- <-. cbn.
  apply publish_chunk_named in Hp. by rewrite Hp, Hn, map_app.
Qed.
Lemma keep_row_named use_set cb ms d e ms' d' : keep_row use_set cb (ms, d) e = Ok (ms', d') -> named ms -> named ms'.
Proof.
  unfold keep_row. destruct (dedup_fresh use_set d (se_rid e)) as [fresh d1]. destruct (fresh && _); [|by intros [= <- <-]].
  intros (x & Hp & H)%bind_Ok_inv [Ha Hn]. destruct x as [[live n] files]. injection H as <- <-. split; [done|]. cbn. by eapply push_live_named.
Qed.
Lemma keep_fold_named use_set cb run : forall ms d ms' d',
  fold_result (keep_row use_set cb) (ms, d) run = Ok (ms', d') -> named ms -> named ms'.
Proof.
  induction run as [|e run IH]; intros ms d ms' d' H Hn; cbn [fold_result] in H; [by injection H as <- <-|].
  apply bind_Ok_inv in H as ([ms2 d2] & Hk & H). apply keep_row_named in Hk; [|done]. by eapply IH.
Qed.
Lemma merge_run_named target cb ms run ms' : merge_run target cb ms run = Ok ms' -> named ms -> named ms'.
Proof.
  unfold merge_run. destruct run as [|e0 run]; [done|]. cbn [classify KeepAll]. intros (x & Hf & H)%bind_Ok_inv Hn. destruct x as [ms1 d1].
  injection H as <-. by apply keep_fold_named in Hf.
Qed.
Lemma merge_loop_named fuel : forall target cb iters heap ms ms', merge_loop fuel target cb iters heap ms = Ok ms' -> named ms -> named ms'.
Proof.
  induction fuel as [|fuel IH]; intros target cb iters [|h heap] ms ms' H Hn; cbn [merge_loop] in H; try done; try (by injection H as <-).
  apply bind_Ok_inv in H as ([it hp] & _ & H). apply bind_Ok_inv in H as ([[run it2] hp2] & _ & H). apply bind_Ok_inv in H as (ms1 & Hr & H).
  apply merge_run_named in Hr; [|done]. by eapply IH.
Qed.
Lemma merge_named inputs target cb next_id stats chunks relocs files next_id' :
  merge inputs target cb next_id = Ok (stats, chunks, relocs, files, next_id') ->
  map fst files = map (fun c => FSegment (lc_id c)) chunks.
Proof.
  unfold merge. intros ([iters heap] & _ & H)%bind_Ok_inv. apply bind_Ok_inv in H as (ms & Hl & H). apply merge_loop_named in Hl; [|by split].
  apply bind_Ok_inv in H as (ms1 & H1 & H). apply bind_Ok_inv in H as (ms2 & H2 & H). injection H as _ <- _ <- _.
  assert (named ms1) as [Ha Hn].
  { unfold finish_live in H1. destruct (0 <? _); [|by injection H1 as <-]. apply bind_Ok_inv in H1 as ([[[c w] n] f] & Hp & H1). injection H1 as <-.
    destruct Hl as [Ha Hn]. split; [done|]. cbn. apply publish_chunk_named in Hp. by rewrite Hp, Hn, map_app. }
  unfold finish_archive in H2. rewrite Ha in H2. by injection H2 as <-.
Qed.
End Names.

(* ------------------------------------------------------------------ *)
(** * Compaction *)

Section Compact.
Context {SHA : Sha256}.

Lemma seg_ok_iter dir g : seg_ok dir g -> seg_iter (sg_reader g) = Ok (sg_rows g).
Proof.
  intros [H1 H2 H3 H4 H5 (w & file & an & Hw & Hp & Hd & Ho) H7]. assert (publishable w (sg_rows g)) as Hpa by done.
  destruct (published_open w _ _ _ _ _ Hpa Hp) as (r & blocks & Ho' & Hh & Hc & _). rewrite Ho in Ho'. injection Ho' as <-.
  by rewrite (seg_iter_ok w _ blocks Hh), Hc, persisted_bytes.
Qed.
Lemma segs_bytes dir segs : Forall (seg_ok dir) segs -> Forall (Forall byte_row) (map sg_rows segs).
Proof. intros H. apply Forall_map. eapply Forall_impl; [exact H|]. intros g Hg. apply (so_byte _ _ Hg). Qed.
Lemma segs_mergeable dir segs fs m target cb :
  Forall (seg_ok dir) segs -> content segs fs m -> target <> 0 -> merge_fits cb (concat (map sg_rows segs)) ->
  mergeable target cb (map sg_reader segs) (map sg_rows segs).
Proof.
  intros Hs [[Ls Lc _] _] Ht Hf. split; try done.
  - clear -Hs. induction Hs as [|g segs Hg _ IH]; constructor; [by eapply seg_ok_iter | done].
  - by apply Forall_app in Ls as [Ls _].
  - intros a b Ha Hb. rewrite concat_app in Lc. apply Lc; set_solver.
  - apply Forall_concat, Forall_map. eapply Forall_impl; [exact Hs|]. intros g Hg. apply (so_wf _ _ Hg).
  - unfold archive_rows. rewrite filter_none; [constructor | done].
Qed.

(** What a merge of the live segments yields. *)
Record merged_segs (segs : list Seg) (chunks : list LiveChunk) (files : Files) (done : list (list SegmentEntry)) (target cb : Z) : Prop := {
  mr_rows : concat done = live_rows (merge_order (map sg_rows segs));
  mr_chunks : Forall2 (chunk_holds target cb files) chunks done;
  mr_names : map fst files = map (fun c => FSegment (lc_id c)) chunks;
  mr_nodup : NoDup (map fst files);
  mr_bytes : Forall (Forall byte_row) done;
  mr_sorted : Forall (StronglySorted publish_lt) done }.

Lemma merge_segs dir segs fs m target cb next_id :
  Forall (seg_ok dir) segs -> content segs fs m -> target <> 0 -> merge_fits cb (concat (map sg_rows segs)) ->
  exists stats chunks files next_id' done,
    merge (map sg_reader segs) target cb next_id = Ok (stats, chunks, ∅, files, next_id') /\ merged_segs segs chunks files done target cb.
Proof.
  intros Hs Hct Ht Hf. pose proof (segs_mergeable dir segs fs m target cb Hs Hct Ht Hf) as Hm. pose proof (merge_order_byte _ (segs_bytes _ _ Hs)) as Hb.
  destruct (merge_ok target cb _ _ next_id Hm) as (stats & chunks & relocs & files & ni & seen & done & E & Hd & Hc & Hid & Hr & Hseen & _).
  assert (seen = ∅) as ->.
  { apply set_eq. intros rid. rewrite Hseen. split; [|set_solver]. intros (Hn & e & He & <-). exfalso. apply Hn. rewrite Forall_forall in Hb. apply Hb.
    unfold merge_order. by rewrite sort_entries_perm. }
  subst relocs. pose proof (merge_named _ _ _ _ _ _ _ _ _ E) as Hn. exists stats, chunks, files, ni, done. split; [exact E|].
  pose proof (live_byte _ Hb) as Hlb. rewrite <-Hd in Hlb. split; try done.
  - rewrite Hn. clear -Hid. induction chunks as [|c chunks IH]; [constructor|]. cbn in *. apply StronglySorted_inv in Hid as [Hid Hf].
    apply NoDup_cons. split; [|by apply IH]. intros Hin. apply list_elem_of_In, in_map_iff in Hin as (c' & [= Ec] & Hc'). rewrite Forall_forall in Hf.
    specialize (Hf (lc_id c')). assert (lc_id c < lc_id c') by (apply Hf, list_elem_of_In, in_map, Hc'). lia.
  - clear -Hlb. induction done as [|l done IH]; [constructor|]. cbn in Hlb. apply Forall_app in Hlb as [? ?]. constructor; auto.
  - destruct (merge_pushable _ _ _ _ Hm) as [(Hps & _) _]. rewrite <-Hd in Hps. by apply sorted_concat.
Qed.

Lemma content_merged segs chunks files done target cb new fs m dir :
  Forall (seg_ok dir) segs -> merged_segs segs chunks files done target cb -> map sg_rows new = done -> content segs fs m -> content new fs m.
Proof.
  intros Hs [Hd _ _ _ _ Hsd] En [Hl Hr]. destruct (merged_layers _ (frames_rows fs) done (segs_bytes _ _ Hs) Hl Hd Hsd) as [Hl' Hv].
  split; rewrite En; [done|]. intros k. rewrite Hv. apply Hr.
Qed.

Section Publication.
Context {G : Type} `{HT : Track G} (F : Prop) (cfg : Config) {HL : TrackLaws cfg G} (m : G) (fe : option string) (wf cp : bool).
Abbreviation db s dir wal io := (mkDb s dir wal io fe wf cp).

Lemma wp_staged files n bs (Q : bytes -> Db -> Prop) E d :
  NoDup (map fst files) -> (n, bs) ∈ files -> Q bs d -> wp (staged_file files n) Q E d.
Proof.
  intros Hn Hin HQ. unfold staged_file. destruct (list_find (fun f => f.1 = n) files) as [[i [n' bs']]|] eqn:E0.
  - apply list_find_Some in E0 as (Hi & En & _). cbn in En. subst n'. apply list_elem_of_lookup in Hin as [j Hj].
    assert (i = j) as ->. { eapply NoDup_lookup; [exact Hn | |]; rewrite list_lookup_fmap; [rewrite Hi | rewrite Hj]; done. }
    rewrite Hi in Hj. injection Hj as ->. by apply wp_ret.
  - apply list_find_None in E0. eapply Forall_forall in E0; [|exact Hin]. by destruct E0.
Qed.

Definition chunk_record (c : LiveChunk) : SegmentRecord := record_of (lc_id c) 1 (lc_reader c) (lc_size c) (lc_checksum c).
Definition next_id_at (s : State) (n : Z) : State := upd_next_segment_id (fun _ => n) s.

(** The staged chunks move into the directory under fresh ids. *)
Lemma wp_rename target cb files wal gen segs fs : forall chunks done s dir io remap new,
  NoDup (map fst files) -> Forall2 (chunk_holds target cb files) chunks done -> Forall (Forall byte_row) done ->
  calm F io -> disk_ok dir gen segs -> wal_holds wal fs -> held dir segs fs m -> Forall (seg_ok dir) new ->
  0 <= st_next_segment_id s -> Forall (fun g => sg_id g < st_next_segment_id s) (segs ++ new) -> st_next_segment_id s + zlen chunks < U64 ->
  wp (rename_chunks files chunks remap) (fun r d' => exists dir' io' more,
      d' = db (next_id_at s (st_next_segment_id s + zlen chunks)) dir' wal io' /\ calm F io' /\ disk_ok dir' gen segs /\ held dir' segs fs m /\
      Forall (seg_ok dir') (new ++ more) /\ map sg_rows more = done /\ map sg_reader more = map lc_reader r.1 /\
      map sg_rec more = map chunk_record r.1 /\ map sg_id more = seqZ (st_next_segment_id s) (zlen chunks))
    (recoverable F m) (db s dir wal io).
Proof.
  induction chunks as [|c chunks IH]; intros done s dir io remap new Hnd Hch Hby Hc Hd Hw Hct Hn H0 Hids Hu; inversion Hch; subst; cbn [rename_chunks].
  { wp_pure. exists dir, io, []. rewrite zlen_nil, Z.add_0_r, app_nil_r. split_and!; try done. by destruct s. }
  match goal with H : chunk_holds _ _ _ c ?l |- _ => rename l into rows; destruct H as (w & file & Hin & (Hwi & El & Hne & Hbuf & Hwf & Hfit & Hp) & Ho) end.
  apply Forall_cons_1 in Hby as [Hb Hby]. rewrite zlen_cons in *. pose proof (zlen_nonneg chunks) as Hzc.
  unfold fresh_segment_id. wp_steps. cbn [db_state]. apply (wp_staged files _ file); [done | done|]. unfold upd_state.
  cbn [db_state db_dir db_wal db_io db_fenced db_wal_fail_next db_compactor_pending]. set (id := st_next_segment_id s) in *. wp_pure.
  assert (forall g, g ∈ segs ++ new -> FSegment id <> FSegment (sg_id g)) as Hfresh.
  { intros g Hgi [= E]. rewrite Forall_forall in Hids. specialize (Hids g Hgi). cbn in Hids. lia. }
  apply (wp_publish F); [done| |].
  - intros io1 H1. set (g := mkSeg (record_of id 1 (lc_reader c) (lc_size c) (lc_checksum c)) (lc_reader c) rows).
    assert (sg_id g = id) as Eg by done. wp_pure.
    eapply wp_mono; [eapply (IH _ (upd_next_segment_id (fun n => n + 1) s) _ io1 _ (new ++ [g])); try done | | done].
    + apply disk_ok_insert; try done. intros g' Hgi. apply Hfresh. set_solver.
    + by apply held_insert.
    + apply Forall_app. split; [apply segs_insert; [|done]; intros g' Hgi; apply Hfresh; set_solver|]. constructor; [|done].
      split; try done; [unfold is_u64; rewrite Eg; lia|]. exists w, file, (lc_anchors c). split_and!; try done; [by eapply writer_flags|]. by rewrite Eg, lookup_insert_eq.
    + cbn. lia.
    + rewrite app_assoc. apply Forall_app. split; [eapply Forall_impl; [exact Hids|]; cbn; fold id; lia|]. constructor; [unfold sg_id; cbn; fold id; lia | done].
    + cbn. fold id. lia.
    + intros [cs rm] d2 (dir2 & io2 & more & -> & H2 & Hd2 & Hh2 & Hn2 & E1 & E2 & E3 & E4). cbn in E2, E3. wp_pure.
      exists dir2, io2, (g :: more). rewrite <-app_assoc in Hn2. cbn [map fst]. split_and!; try done.
      * f_equal. unfold next_id_at, upd_next_segment_id. cbn. f_equal. lia.
      * by rewrite E1.
      * by rewrite E2.
      * by rewrite E3.
      * rewrite E4, Eg. cbn. fold id. rewrite (seqZ_cons id) by lia.
        by replace (Z.succ id) with (id + 1) by lia; replace (Z.pred (1 + zlen chunks)) with (zlen chunks) by lia.
  - intros HF io1 H1. split; [done|]. right. by exists gen, segs, fs.
Qed.

Lemma wp_no_archives files (Q : gmap Z Z -> Db -> Prop) E d : forall remap,
  Forall (fun f : FileName * bytes => exists id, f.1 = FSegment id) files -> Q remap d -> wp (rename_archives files remap) Q E d.
Proof.
  induction files as [|[n bs] files IH]; intros remap Hf HQ; [by apply wp_ret|]. apply Forall_cons_1 in Hf as [[id E0] Hf]. cbn in E0. subst n.
  cbn [rename_archives]. by apply IH.
Qed.

Lemma disk_ok_delete dir gen segs n :
  disk_ok dir gen segs -> (exists id, n = FSegment id /\ id ∉ map sg_id segs) -> disk_ok (base.delete n dir) gen segs.
Proof.
  intros [H1 H2 H3 H4 H5 H6 H7] (id & -> & Hid). split; try done.
  - by rewrite lookup_delete_ne.
  - by rewrite lookup_delete_ne.
  - rewrite Forall_forall in *. intros g Hg. eapply seg_ok_dir; [|by apply H6]. apply lookup_delete_ne. intros [= ->].
    apply Hid, list_elem_of_In, in_map, list_elem_of_In, Hg.
  - by apply no_directories_delete.
Qed.
Lemma wp_removes s wal gen segs names : forall dir io E,
  calm F io -> disk_ok dir gen segs -> Forall (fun n => exists id, n = FSegment id /\ id ∉ map sg_id segs) names ->
  wp (for_each names remove_file) (fun _ d' => exists dir' io', d' = db s dir' wal io' /\ calm F io' /\ disk_ok dir' gen segs /\ forall q, dir' !! FRlog q = dir !! FRlog q) E (db s dir wal io).
Proof.
  induction names as [|n names IH]; intros dir io E Hc Hd Hn; cbn [for_each]; [wp_pure; by exists dir, io|]. apply Forall_cons_1 in Hn as [Hn1 Hn].
  wp_pure. apply (wp_remove F); [done | |]; intros io1 H1; [|by apply IH].
  eapply wp_mono; [apply IH; [done | by apply disk_ok_delete | done] | | done]. intros _ d' (dir' & io' & -> & H' & Hd' & Er).
  exists dir', io'. split_and!; try done. intros q. rewrite Er. destruct Hn1 as (id & -> & _). by apply lookup_delete_ne.
Qed.

(** Publishing the merged chunks. *)
Lemma wp_compact_publish s dir wal io segs fss fs chunks files done :
  let gen := st_generation s in
  calm F io -> state_ok s segs fss fs -> disk_ok dir gen segs -> frames_good (concat fss ++ fs) -> encode_stream (concat fss ++ fs) = Ok wal ->
  held dir segs (concat fss ++ fs) m -> merged_segs segs chunks files done (block_target cfg) (merge_chunk_bytes cfg) ->
  (forall dir' new, tracks dir' segs (concat fss ++ fs) m -> tracks dir' new (concat fss ++ fs) m) -> gen + 1 < U64 -> st_next_segment_id s + zlen chunks < U64 -> zlen chunks < U32 ->
  wp (compact_publish cfg chunks ∅ files) (fun _ d' => exists s' dir' io' new, d' = db s' dir' wal io' /\ calm F io' /\
      state_ok s' new fss fs /\ disk_ok dir' (st_generation s') new /\ held dir' new (concat fss ++ fs) m /\ st_next_seq s' = st_next_seq s)
    (recoverable F m) (db s dir wal io).
Proof.
  intros gen Hc Hst Hd Hg He Hct Hm Htr Hgen Hnid Hcnt. pose proof Hm as [M1 M2 M3 M4 M5 M6]. pose proof (wal_holds_whole _ _ Hg He) as Hw.
  destruct Hst as [K1 K2 K3 K4 K5 K6 K7 K8 K9 K10 K11]. pose proof K11 as [O1 O2 O3 (P1 & P2 & P3) O5 O6 O7]. pose proof (zlen_nonneg chunks) as Hzc.
  unfold compact_publish. wp_pure. eapply wp_mono; [eapply (wp_rename (block_target cfg) _ files wal gen segs _ chunks done s dir io ∅ []); try done; by rewrite app_nil_r | | done].
  intros [cs rm] d1 (dir1 & io1 & new & -> & H1 & Hd1 & Hh1 & Hn1 & E1 & E2 & E3 & E4). cbn [fst app] in *. set (s1 := next_id_at s _) in *.
  assert (content new (concat fss ++ fs) (spec_map m)) as Hct' by (eapply content_merged; [apply Hd | done | done | apply Hct]).
  assert (zlen new = zlen chunks) as En by (apply (f_equal length) in E4; rewrite length_map, length_seqZ in E4; unfold zlen; unfold zlen in E4; lia).
  assert (Forall (fun g => st_next_segment_id s <= sg_id g < st_next_segment_id s + zlen chunks) new) as Hnid'.
  { apply Forall_forall. intros g Hgi. assert (sg_id g ∈ map sg_id new) as Hin by (apply list_elem_of_In, in_map, list_elem_of_In, Hgi).
    rewrite E4 in Hin. apply elem_of_seqZ in Hin. lia. }
  wp_pure. apply wp_no_archives.
  { apply Forall_forall. intros f Hf. assert (f.1 ∈ map fst files) as Hin by (apply list_elem_of_In, in_map, list_elem_of_In, Hf).
    rewrite M3 in Hin. apply list_elem_of_In, in_map_iff in Hin as (c & <- & _). eauto. }
  wp_pure. eapply wp_lift; [unfold remap_relocations; rewrite map_to_list_empty; reflexivity|]. wp_steps. cbn [db_state].
  change (st_pending_placements s1) with (st_pending_placements s). rewrite P3. unfold upd_state. cbn [db_state db_dir db_wal db_io db_fenced db_wal_fail_next db_compactor_pending].
  change (st_placements (upd_pending_placements (fun _ => []) s1)) with (st_placements s). rewrite O3. unfold segment_rids. rewrite map_to_list_empty.
  change (merge_sort rid_order (map fst (List.filter (fun kv : ReplicaId * Placement => is_segment_placed kv.2) []))) with (@nil ReplicaId). cbn [relocate].
  wp_steps. apply wp_placement_log. wp_pure. cbn. change (map (fun c => record_of (lc_id c) 1 (lc_reader c) (lc_size c) (lc_checksum c)) cs) with (map chunk_record cs).
  rewrite <-E3. eapply wp_mono; [eapply (wp_publish_pair F cfg m fe wf cp _ dir1 wal io1 gen segs (gen + 1) new); try done | | done].
  { lia. }
  { split; [apply zlen_nonneg | lia]. }
  { rewrite E4. apply NoDup_seqZ. }
  intros _ d2 (dir2 & io2 & -> & H2 & Hd2 & R2). wp_steps. cbn. destruct (scan_l0 _) as [[n0 b0] b1]. wp_steps. cbn [for_each]. wp_steps.
  unfold upd_state. cbn [db_state db_dir db_wal db_io db_fenced db_wal_fail_next db_compactor_pending].
  eapply wp_mono; [eapply (wp_removes _ wal (gen + 1) new); [exact H2 | exact Hd2|] | | done].
  { apply Forall_forall. intros n [Hin _]%elem_of_filter_bool. apply list_elem_of_In, in_map_iff in Hin as (rec & <- & Hrec%list_elem_of_In).
    exists (segment_id rec). split; [done|]. rewrite E4. intros Hin%elem_of_seqZ. change (st_segment_records s1) with (st_segment_records s) in Hrec.
    rewrite K5 in Hrec. apply list_elem_of_In, in_map_iff in Hrec as (g & <- & Hgi%list_elem_of_In).
    eapply Forall_forall in K10; [|exact Hgi]. unfold sg_id in K10. lia. }
  intros _ d3 (dir3 & io3 & -> & H3 & Hd3 & R3). apply wp_no_checkpoint; [exact O5|].
  do 3 eexists. exists new. split_and!; [reflexivity | exact H3 | | exact Hd3 | | done]; last first.
  { split; [done|]. apply Htr. eapply (tl_dir (cfg:=cfg)); [|apply Hh1]. intros q. by rewrite R3, R2. }
  split; cbn; try done.
  - apply Forall_forall. intros g Hgi. apply Forall_forall. intros e Hei. assert (e ∈ concat done) as Hin.
    { rewrite <-E1. apply elem_of_concat. exists (sg_rows g). split; [|done]. apply list_elem_of_In, in_map, list_elem_of_In, Hgi. }
    rewrite M1 in Hin. apply live_sub in Hin. unfold merge_order in Hin. rewrite sort_entries_perm in Hin. apply elem_of_concat in Hin as (l & Hl & Hin).
    apply list_elem_of_In, in_map_iff in Hl as (g0 & <- & Hg0%list_elem_of_In). eapply Forall_forall in K7; [|exact Hg0]. by eapply Forall_forall in K7; [|exact Hin].
  - lia.
  - eapply Forall_impl; [exact Hnid'|]. cbn. lia.
Qed.
End Publication.

(** Room for a compaction: the generation, ids for the chunks the merge makes, and rows
    that stay inside the segment format. *)
Record compact_room (cfg : Config) (s : State) : Prop := {
  cr_target : block_target cfg <> 0;
  cr_generation : st_generation s + 1 < U64;
  cr_fits : forall rss, Forall2 (fun r l => seg_iter r = Ok l) (st_segments s) rss -> merge_fits (merge_chunk_bytes cfg) (concat rss);
  cr_chunks : forall stats chunks relocs files n,
    merge (st_segments s) (block_target cfg) (merge_chunk_bytes cfg) (st_next_segment_id s) = Ok (stats, chunks, relocs, files, n) ->
    st_next_segment_id s + zlen chunks < U64 /\ zlen chunks < U32 }.

(** [compact] keeps the represented map; stopped at any write, it leaves a disk that
    recovers it. *)
Lemma wp_compact {G} `{HT : Track G} F cfg {HL : TrackLaws cfg G} d (m : G) :
  (forall dir segs new fs, tracks dir segs fs m -> tracks dir new fs m) -> inv d m -> compact_room cfg (db_state d) -> calm F (db_io d) ->
  wp (compact cfg) (fun r d' => r.2 = false /\ inv d' m /\ calm F (db_io d') /\ st_next_seq (db_state d') = st_next_seq (db_state d)) (recoverable F m) d.
Proof.
  intros Htr Hi [C1 C2 C3 C4] Hc. unfold compact. wp_steps. destruct (zlen (st_segments (db_state d)) <=? 1); [by wp_pure|].
  unfold compact_with, compact_impl. wp_steps. destruct (st_segments (db_state d)) as [|r0 rs] eqn:Es; [by wp_pure|]. rewrite <-Es in *. clear r0 rs Es.
  wp_steps. destruct Hi as (segs & fss & fs & [Hst Hd Hw Hg Hct Hnu Hfe Hfl]). destruct d as [s dir wal io fe wf cp].
  cbn [db_state db_dir db_wal db_io db_fenced db_wal_fail_next] in *. pose proof (sk_segments _ _ _ _ Hst) as Eseg. rewrite Eseg in *.
  destruct (merge_segs dir segs _ _ (block_target cfg) (merge_chunk_bytes cfg) (st_next_segment_id s) (dk_segs _ _ _ Hd) (hd_content _ _ _ _ Hct) C1) as (stats & chunks & files & n & done & E & Hm).
  { apply C3. pose proof (dk_segs _ _ _ Hd) as Hs. clear -Hs. induction Hs as [|g segs Hgo _ IH]; constructor; [by eapply seg_ok_iter | done]. }
  eapply wp_lift; [exact E|]. wp_steps. cbn [db_state]. rewrite Z.eqb_refl. cbn [negb]. destruct (C4 _ _ _ _ _ E) as [Cn1 Cn2]. wp_pure.
  eapply wp_mono; [eapply (wp_compact_publish F cfg m fe wf cp s dir wal io segs fss fs chunks files done); by eauto | | done].
  intros _ d' (s' & dir' & io' & new & -> & H' & Hst' & Hd' & Hct' & Eseq). wp_pure. split_and!; [done | | done | done].
  exists new, fss, fs. split; try done. cbn. by rewrite Eseq.
Qed.
End Compact.
