(* ===== verification/DbProps.v ===== *)
(** The database over byte histories, as a transition system: commands acknowledge or stop
    at a failing write and crash, a crash loses the memory and reopens the directory and the
    WAL, and the map specification it refines. *)

From stdpp Require Import gmap.
From S2P Require Import Prelude Cursor Format Identity Placement Disk Checkpoint Wal WalFrames WalReplay WalReader.
From S2P Require Import Memtable Segment SegmentBlock SegmentLookup SegmentFile SegmentQueries SegmentProps Compaction.
From S2P Require Import CompactionMerge CompactionProps DbState Db DbOpen DbLayers DbWp DbInv DbRecover.
From S2P Require Import DbFlush DbWrite DbCompact.

(* ------------------------------------------------------------------ *)
(** * Syncs *)

(** Under a durability mode that syncs, every operation is covered: what a power loss leaves
    of it, stopping at a write leaves too, and once it is acknowledged nothing is unsynced. *)
Section Covered.
Context {SHA : Sha256} (cfg : Config).

Lemma quiet_apply_placement rid p : quiet (apply_placement rid p).
Proof. unfold apply_placement. still. Qed.
#[local] Hint Resolve quiet_apply_placement : still.
Lemma quiet_apply_op bump seq op : quiet (apply_op bump seq op).
Proof. destruct op; cbn [apply_op]; unfold apply_object_placement, apply_create; still. Qed.
#[local] Hint Resolve quiet_apply_op : still.
Lemma quiet_place_anchor a : quiet (place_anchor a).
Proof. destruct a as [rid [[[? ?] ?] ?]]. cbn [place_anchor]. still. Qed.
#[local] Hint Resolve quiet_place_anchor : still.
Lemma quiet_rotate : quiet rotate_active.
Proof. unfold rotate_active. still. Qed.
#[local] Hint Resolve quiet_rotate : still.

Lemma covered_flush_all work : forall b, covered (flush_all cfg b work).
Proof. induction work as [|[mem id] work IH]; intros b; cbn [flush_all]; [cover|]. apply covered_bind; [unfold flush_one; cover | done]. Qed.
Lemma covered_pair recs : covered (publish_pair recs).
Proof. unfold publish_pair. cover. Qed.
Lemma covered_checkpoint : covered (maybe_checkpoint cfg).
Proof. unfold maybe_checkpoint, write_checkpoint. cover. Qed.
Lemma covered_truncate n : covered (truncate_wal cfg n).
Proof.
  unfold truncate_wal. apply covered_get_db; [done | intros d]. apply covered_bind; [cover | intros _]. apply covered_block.
  - apply exposed_bind; [apply exposed_set_len | intros _]. apply exposed_bind; [|intros _; apply exposed_sync].
    destruct (match _ with [] => false | _ => true end); [apply exposed_append | by apply quiet_exposed].
  - do 2 (apply bind_settles; intros _). apply sync_settles.
Qed.
#[local] Hint Resolve covered_flush_all covered_pair covered_checkpoint covered_truncate : cover.
Lemma covered_flush : covered (flush cfg).
Proof. unfold flush, flush_phase_a, flush_phase_b, flush_phase_c, publish_identity_log, publish_replica_log, publish_placement_log. cover. Qed.
#[local] Hint Resolve covered_flush : cover.
Lemma covered_rename_chunks files chunks : forall remap, covered (rename_chunks files chunks remap).
Proof. induction chunks as [|c chunks IH]; intros remap; cbn [rename_chunks]; unfold fresh_segment_id, staged_file; cover. Qed.
Lemma covered_rename_archives files : forall remap, covered (rename_archives files remap).
Proof. induction files as [|[n bs] files IH]; intros remap; cbn [rename_archives]; unfold fresh_segment_id; [cover|]. destruct n; cover. Qed.
Lemma quiet_relocate relocs rids : forall recs, quiet (relocate relocs rids recs).
Proof. induction rids as [|rid rids IH]; intros recs; cbn [relocate]; still. Qed.
#[local] Hint Resolve covered_rename_chunks covered_rename_archives : cover.
#[local] Hint Resolve quiet_relocate : still.
Lemma covered_compact : covered (compact cfg).
Proof. unfold compact, compact_with, compact_impl, compact_publish, publish_placement_log. cover. Qed.
#[local] Hint Resolve covered_compact : cover.
Lemma covered_maybe_compact : covered (maybe_compact cfg).
Proof. unfold maybe_compact. cover. by apply quiet_covered. Qed.
#[local] Hint Resolve covered_maybe_compact : cover.

Lemma exposed_append_group group : exposed (append_group group).
Proof.
  induction group as [|ops group IH]; cbn [append_group]; [by apply quiet_exposed|].
  do 3 (apply exposed_bind; [by apply quiet_exposed | intros ?]). apply exposed_bind; [apply exposed_append | intros _]. apply exposed_bind; [done | intros ?; by apply quiet_exposed].
Qed.
Lemma quiet_try {A} (m : M A) : quiet m -> quiet (try_ m).
Proof. intros H d io. destruct (H d io) as (E & Hr). unfold try_. rewrite E. by destruct (m d). Qed.
Lemma quiet_apply_group batches : forall outcome, quiet (apply_group outcome batches).
Proof.
  induction batches as [|[ops seq] batches IH]; intros outcome; cbn [apply_group]; [done|]. apply quiet_bind; [|intros ?; apply IH]. apply quiet_try. still.
Qed.
Lemma covered_commit_group group : covered (commit_group cfg group).
Proof.
  set (rest := fun seqs => outcome ← apply_group (Ok tt) (zip group seqs); active ← gets st_active;
    if is_ok outcome && (memtable_bytes cfg <=? mt_bytes active) then (_ ← flush cfg; mret seqs) else (_ ← lift outcome; mret seqs)).
  apply (covered_ext ((seqs ← append_group group; _ ← wal_sync; mret seqs) ≫= rest)).
  - intros d. unfold commit_group, rest, mbind, M_bind, gets, try_. destruct (append_group group d) as [d1 [seqs|e]]; [|done]. destruct (wal_sync d1) as [d2 [[]|e]]; [|done]. cbn.
    destruct (apply_group _ _ d2) as [d3 [o|e]]; [|done]. destruct (is_ok o && _); [|done]. by destruct (flush cfg d3) as [d4 [[]|e]].
  - apply covered_bind; [|intros seqs; unfold rest].
    + apply covered_block.
      * apply exposed_bind; [apply exposed_append_group | intros seqs]. apply exposed_bind; [apply exposed_sync | intros _; by apply quiet_exposed].
      * apply bind_settles. intros seqs d d' b. unfold mbind, M_bind. destruct (wal_sync d) as [d1 [[]|e]] eqn:E; [|done]. intros [= <- _]. by eapply sync_settles.
    + apply covered_bind; [apply quiet_covered, quiet_apply_group | intros o]. cover.
Qed.
#[local] Hint Resolve covered_commit_group : cover.
Lemma covered_commit_at seq ops : durability cfg = Sync -> covered (commit_at cfg seq ops).
Proof.
  intros Hs. unfold commit_at. rewrite bool_decide_true by done. cbn [when]. do 2 (apply covered_bind; [by apply quiet_covered | intros ?]).
  apply covered_get_db; [done | intros d]. do 2 (apply covered_bind; [by apply quiet_covered; destruct (db_wal_fail_next d) | intros _]).
  apply (covered_ext ((_ ← wal_append a0; wal_sync) ≫= fun _ => _ ← for_each ops (apply_op true seq); active ← gets st_active; _ ← when (memtable_bytes cfg <=? mt_bytes active) (flush cfg); _ ← maybe_compact cfg; mret seq)).
  - intros d'. unfold mbind, M_bind. by destruct (wal_append a0 d') as [d1 [[]|e]].
  - apply covered_bind; [apply covered_block | intros _; cover].
    + apply exposed_bind; [apply exposed_append | intros _; apply exposed_sync].
    + apply bind_settles. intros _. apply sync_settles.
Qed.
Lemma covered_write_at ops expected : durability cfg <> Async -> (durability cfg = Sync \/ expected = None) -> covered (write_at cfg ops expected).
Proof.
  intros Ha He. unfold write_at. destruct ops as [|o ops]; [cover|]. destruct (existsb _ _); [cover|]. apply covered_get_db; [done | intros d].
  destruct expected as [e|].
  - destruct He as [He|]; [|done]. pose proof (covered_commit_at (st_next_seq (db_state d)) (o :: ops) He). cover.
  - destruct (db_fenced d); [cover|]. case_bool_decide; [cover|]. apply covered_commit_at. by destruct (durability cfg).
Qed.
Lemma covered_cut n : covered (_ ← wal_set_len n; wal_sync).
Proof.
  apply covered_block; [apply exposed_bind; [apply exposed_set_len | intros _; apply exposed_sync]|]. apply bind_settles. intros _. apply sync_settles.
Qed.
#[local] Hint Resolve covered_cut : cover.
Lemma covered_open : covered (open_db cfg).
Proof. unfold open_db, open_current. cover. by apply quiet_covered. Qed.
End Covered.

(* ------------------------------------------------------------------ *)
(** * The specification *)

(** What a client asks for: a batch, a group of batches through the committer, and the
    maintenance operations. *)
Inductive Cmd : Type :=
  | CWrite (ops : list Op)
  | CGroup (group : list (list Op))
  | CRotate
  | CFlush
  | CCompact.

Inductive Event : Type :=
  | Acked (c : Cmd)
  | Crashed (c : Cmd)
  | Killed.

Section Spec.
Context {G : Type} `{Spec G}.

(** A command's effect on the specification. *)
Definition cmd_effect (g : G) (c : Cmd) : G :=
  match c with CWrite ops => spec_batch g ops | CGroup group => group_effect g group | _ => g end.

(** What may survive a command that crashes: none or all of a batch, a prefix of a group. *)
Definition survives (g : G) (c : Cmd) (g' : G) : Prop :=
  match c with
  | CWrite ops => g' = g \/ g' = spec_batch g ops
  | CGroup group => exists k, (k <= length group)%nat /\ g' = group_effect g (take k group)
  | _ => g' = g
  end.

(** The steps of the specification. *)
Inductive spec_step : G -> Event -> G -> Prop :=
  | spec_acked g c : spec_step g (Acked c) (cmd_effect g c)
  | spec_crashed g c g' : survives g c g' -> spec_step g (Crashed c) g'
  | spec_killed g : spec_step g Killed g.
End Spec.

Inductive trace {S : Type} (step : S -> Event -> S -> Prop) : S -> list Event -> S -> Prop :=
  | trace_nil s : trace step s [] s
  | trace_cons s1 e s2 es s3 : step s1 e s2 -> trace step s2 es s3 -> trace step s1 (e :: es) s3.

Section System.
Context {SHA : Sha256} (cfg : Config).

(* ------------------------------------------------------------------ *)
(** * The system *)

Definition run_cmd (c : Cmd) : M unit :=
  match c with
  | CWrite ops => _ ← write cfg ops; mret tt
  | CGroup group => _ ← commit_group cfg group; mret tt
  | CRotate => rotate
  | CFlush => flush cfg
  | CCompact => _ ← compact cfg; mret tt
  end.

(** The sizes and counters a command needs. *)
Definition cmd_ready (c : Cmd) (s : State) : Prop :=
  match c with
  | CWrite ops => batch_ok s ops /\ room cfg (committed s ops)
  | CGroup group => group_ok (st_next_seq s) group /\ room cfg (group_committed s group)
  | CRotate => True
  | CFlush => room cfg s
  | CCompact => compact_room cfg s
  end.

(** A process with nothing in memory, over a directory and a WAL file. *)
Definition blank_state : State :=
  mkState mt_new [] [] [] 0 0 0 0 0 0 ∅ ∅ [] [] 0 0 ∅ [] 0 0 0 0 0 0 0 0 ∅.
Definition boot (dir : Dir) (wal : bytes) (io : list IoOutcome) : Db := mkDb blank_state dir wal (mkIo io wal []) None false false.

(** The WAL file a dead process leaves: what it saw, or, unless the mode is [Async], which
    asks for no sync, what a loss of power at that instant leaves of the unsynced writes.
    [boot] takes the file it finds as being on the disk. *)
Inductive lost (d : Db) : bytes -> Prop :=
  | lost_process : lost d (db_wal d)
  | lost_power n cut : durability cfg <> Async -> lost d (power_loss (db_io d) n cut).

(** Opening, after any number of attempts that themselves crash. *)
Inductive reopened : Dir -> bytes -> Db -> Prop :=
  | reopened_ok dir wal io d : open_db cfg (boot dir wal io) = (d, Ok tt) -> reopened dir wal d
  | reopened_again dir wal io d1 e wal1 d :
      open_db cfg (boot dir wal io) = (d1, Err e) -> lost d1 wal1 -> reopened (db_dir d1) wal1 d -> reopened dir wal d.

(** One step of the system, under any outcomes of its writes. *)
Inductive db_step : Db -> Event -> Db -> Prop :=
  | db_acked d c io d' : cmd_ready c (db_state d) -> run_cmd c (set_io io d) = (d', Ok tt) -> db_step d (Acked c) d'
  | db_crashed d c io d1 e wal1 d' :
      cmd_ready c (db_state d) -> run_cmd c (set_io io d) = (d1, Err e) -> lost d1 wal1 -> reopened (db_dir d1) wal1 d' ->
      db_step d (Crashed c) d'
  | db_killed d wal1 d' : lost d wal1 -> reopened (db_dir d) wal1 d' -> db_step d Killed d'.

(** The configurations of the byte histories: a block target, and compaction left to the
    compactor. *)
Definition cfg_ok : Prop := block_target cfg <> 0 /\ (compact_background cfg = true \/ l0_compact_trigger cfg = 0).

(** Compaction, as far as what tracks a specification is concerned. *)
Definition compacts (G : Type) `{HT : Track G} : Prop := forall dir segs new fs (g : G), tracks dir segs fs g -> tracks dir new fs g.
Definition no_compact (ev : Event) : Prop := match ev with Acked CCompact | Crashed CCompact => False | _ => True end.

(** Reachable from an empty directory. *)
Definition reachable (evs : list Event) (d : Db) : Prop := exists d0, reopened ∅ [] d0 /\ trace db_step d0 evs d.

(* ------------------------------------------------------------------ *)
(** * Simulation *)

Section Simulation.
Context {G : Type} `{HT : Track G} {HL : TrackLaws cfg G}.

Lemma wp_cmd F c d (m : G) :
  cfg_ok -> inv d m -> cmd_ready c (db_state d) -> calm F (db_io d) -> compacts G \/ c <> CCompact ->
  wp (run_cmd c) (fun _ d' => inv d' (cmd_effect m c)) (fun d' => F /\ exists m', survives m c m' /\ durable (db_dir d') (db_wal d') m') d.
Proof.
  intros [Ht Hcfg] Hi Hr Hc Hcm. destruct c as [ops|group| | |]; cbn [run_cmd cmd_ready] in *.
  - destruct Hr as [Hb Hroom]. wp_pure. eapply wp_mono; [by apply (wp_write F) | |].
    + intros seq d' (_ & Hi' & _). by wp_pure.
    + intros d' (HF & [Hd|Hd]); (split; [done|]); eexists; (split; [|exact Hd]); [by left | by right].
  - destruct Hr as [Hb Hroom]. wp_pure. eapply wp_mono; [by apply (wp_commit_group F) | |].
    + intros seq d' (_ & Hi' & _). by wp_pure.
    + intros d' (HF & k & Hk & Hd). split; [done|]. eexists. split; [|exact Hd]. by exists k.
  - eapply wp_mono; [by apply (wp_rotation F) | by intros ? ? [? _]|]. intros d' [HF Hd]. split; [done|]. by exists m.
  - destruct Hi as (segs & fss & fs & Hi). eapply wp_mono; [by eapply (wp_flush F cfg) | by intros ? ? [? _]|].
    intros d' [HF Hd]. split; [done|]. by exists m.
  - destruct Hcm as [Hcm|]; [|done]. wp_pure. eapply wp_mono; [apply (wp_compact F cfg); [by intros *; apply Hcm | done..] | |].
    + intros r d' (_ & Hi' & _). by wp_pure.
    + intros d' [HF Hd]. split; [done|]. by exists m.
Qed.

Lemma inv_set_io io d (m : G) : inv (set_io io d) m <-> inv d m.
Proof. split; intros (segs & fss & fs & [H1 H2 H3 H4 H5 H6 H7 H8]); exists segs, fss, fs; by split. Qed.
Lemma inv_durable d (m : G) : inv d m -> durable (db_dir d) (db_wal d) m.
Proof. intros (segs & fss & fs & [H1 H2 H3 H4 H5 H6 H7 H8]). right. eexists _, segs, _. split_and!; [exact H2 | by apply wal_holds_whole | exact H5]. Qed.

Lemma covered_cmd c : durability cfg <> Async -> covered (run_cmd c).
Proof.
  intros Ha. destruct c as [ops|group| | |]; cbn [run_cmd].
  - apply covered_bind; [apply covered_write_at; [done | by right] | intros ?; by apply quiet_covered].
  - apply covered_bind; [apply covered_commit_group | intros ?; by apply quiet_covered].
  - apply quiet_covered, quiet_rotate.
  - apply covered_flush.
  - apply covered_bind; [apply covered_compact | intros ?; by apply quiet_covered].
Qed.

(** Nothing acknowledged waits for a sync. *)
Definition synced (d : Db) : Prop := durability cfg <> Async -> settled d.

(** A loss of power is a failure at some write: what it leaves of a stopped operation, the
    operation leaves when stopped there. *)
Lemma lost_crashes {A} (op : M A) d io d1 e wal1 :
  (durability cfg <> Async -> covered op) -> synced d -> op (set_io io d) = (d1, Err e) -> lost d1 wal1 -> crashes op d (db_dir d1) wal1.
Proof.
  intros Hop Hd E Hl. pose proof (crashes_self op (set_io io d) d1 e E) as H0. destruct Hl as [|n cut Ha]; [exact H0|].
  pose proof (proj2 (Hop Ha) (set_io io d) (Hd Ha)) as Hs. rewrite E in Hs. destruct Hs as [_ Hs]. destruct (Hs n cut) as [->|Hc]; [exact H0 | exact Hc].
Qed.
Lemma lost_synced d wal1 : synced d -> lost d wal1 -> wal1 = db_wal d.
Proof. intros Hd [|n cut Ha]; [done|]. by apply settled_loss, Hd. Qed.
Lemma run_synced {A} (op : M A) d io d' a : (durability cfg <> Async -> covered op) -> synced d -> op (set_io io d) = (d', Ok a) -> synced d'.
Proof. intros Hop Hd E Ha. pose proof (proj2 (Hop Ha) (set_io io d) (Hd Ha)) as Hs. by rewrite E in Hs. Qed.
Lemma boot_synced dir wal io : synced (boot dir wal io).
Proof. done. Qed.

Lemma reopened_inv dir wal d (m : G) : cfg_ok -> reopened dir wal d -> durable dir wal m -> inv d m /\ synced d.
Proof.
  intros [Ht _] Hr. induction Hr as [dir wal io d Ho|dir wal io d1 e wal1 d Ho Hl _ IH]; intros Hd.
  - pose proof (wp_open True cfg m None false false blank_state dir wal (mkIo io wal []) Ht Hd ltac:(done)) as Hw. unfold wp in Hw. unfold boot in Ho. rewrite Ho in Hw.
    split; [apply Hw|]. by apply (run_synced (open_db cfg) (boot dir wal io) io d tt (fun _ => covered_open cfg) (boot_synced _ _ _)).
  - apply IH. destruct (lost_crashes (open_db cfg) (boot dir wal io) io d1 e wal1 (fun _ => covered_open cfg) (boot_synced _ _ _) Ho Hl) as (io2 & d2 & e2 & E2 & <- & <-).
    pose proof (wp_open True cfg m None false false blank_state dir wal (mkIo io2 wal []) Ht Hd ltac:(done)) as Hw. unfold wp in Hw. change (mkDb _ _ _ _ _ _ _) with (set_io io2 (boot dir wal io)) in Hw.
    rewrite E2 in Hw. apply Hw.
Qed.

Lemma step_simulates d ev d' (m : G) :
  cfg_ok -> inv d m -> synced d -> db_step d ev d' -> compacts G \/ no_compact ev -> exists m', spec_step m ev m' /\ inv d' m' /\ synced d'.
Proof.
  intros Hcfg Hi Hy Hs Hcm. destruct Hs as [d c io d' Hr Hrun|d c io d1 e wal1 d' Hr Hrun Hl Ho|d wal1 d' Hl Ho].
  - assert (compacts G \/ c <> CCompact) as Hcc by (destruct Hcm as [|Hcm]; [by left | right; by intros ->]).
    exists (cmd_effect m c). split; [constructor|]. split; [|by eapply run_synced; [apply covered_cmd | exact Hy | exact Hrun]].
    pose proof (wp_cmd True c (set_io io d) m Hcfg (proj2 (inv_set_io _ _ _) Hi) Hr ltac:(done) Hcc) as Hw. unfold wp in Hw. by rewrite Hrun in Hw.
  - assert (compacts G \/ c <> CCompact) as Hcc by (destruct Hcm as [|Hcm]; [by left | right; by intros ->]).
    destruct (lost_crashes (run_cmd c) d io d1 e wal1 (covered_cmd c) Hy Hrun Hl) as (io2 & d2 & e2 & E2 & Ed & Ew). rewrite <-Ed, <-Ew in Ho.
    pose proof (wp_cmd True c (set_io io2 d) m Hcfg (proj2 (inv_set_io _ _ _) Hi) Hr ltac:(done) Hcc) as Hw. unfold wp in Hw. rewrite E2 in Hw.
    destruct Hw as (_ & m' & Hsv & Hd). exists m'. split; [by constructor | by eapply reopened_inv].
  - exists m. split; [constructor|]. rewrite (lost_synced d wal1 Hy Hl) in Ho. eapply reopened_inv; [done | done | by apply inv_durable].
Qed.
Lemma trace_simulates d evs d' (m : G) :
  cfg_ok -> inv d m -> synced d -> trace db_step d evs d' -> compacts G \/ Forall no_compact evs -> exists m', trace spec_step m evs m' /\ inv d' m' /\ synced d'.
Proof.
  intros Hcfg Hi Hy Ht. revert m Hi Hy. induction Ht as [d|d e d1 es d' Hs _ IH]; intros m Hi Hy Hcm; [exists m; split; [constructor | done]|].
  assert ((compacts G \/ no_compact e) /\ (compacts G \/ Forall no_compact es)) as [Hc1 Hc2].
  { destruct Hcm as [|Hcm]; [by split; left|]. apply Forall_cons_1 in Hcm as [? ?]. by split; right. }
  destruct (step_simulates _ _ _ _ Hcfg Hi Hy Hs Hc1) as (m1 & Hm & Hi1 & Hy1). destruct (IH m1 Hi1 Hy1 Hc2) as (m' & Hm' & Hi'). exists m'. split; [by econstructor | done].
Qed.
End Simulation.

Lemma fresh_durable : durable ∅ [] (∅ : gmap bytes bytes).
Proof. left. split_and!; try done. split; [apply content_empty | done]. Qed.
Lemma map_compacts : compacts (gmap bytes bytes).
Proof. done. Qed.
Lemma reachable_inv evs d : cfg_ok -> reachable evs d -> exists m : gmap bytes bytes, trace spec_step ∅ evs m /\ inv d m /\ synced d.
Proof.
  intros Hcfg (d0 & Ho & Ht). destruct (reopened_inv _ _ _ (∅ : gmap bytes bytes) Hcfg Ho fresh_durable) as [Hi Hy].
  eapply trace_simulates; [done | done | done | done | left; apply map_compacts].
Qed.

(* ------------------------------------------------------------------ *)
(** * Properties *)

(** C1: the database refines a map.  From an empty directory, after any sequence of
    acknowledged batches of byte puts and deletes, group commits of such batches, rotations,
    flushes and compactions, one command at a time, of crashes at any write of any of them, of
    kills between them and of crashes during recovery itself, every point read answers what one
    run of the map specification over the same events holds: an acknowledged command took its
    effect, a crashed batch took all of its effect or none, a crashed group a prefix of its
    batches, and nothing else changed anything.  A command whose write fails is a crash of the
    process.  A crash leaves the WAL as the process saw it (an append cut at any byte included)
    or, in the modes that sync, as a loss of power leaves it: what was synced and any part,
    cut at any byte, of what was not.  What a crash leaves counts as on the disk from then on:
    recovery does not sync what it replays, so a process that dies before the sync of a batch
    and, after the recovery that replayed it, a loss of power are outside
    ([replayed_put_lost]).  The conditions: object rows are not among the writes; the sizes and counters of every
    command fit the formats and no cut of its frame holds a whole valid frame inside
    ([cmd_ready]; without the last see [torn_append_embedded_frame_refused]); the block target
    is not zero and compaction is left to the compactor ([cfg_ok]). *)
Theorem db_refines_map evs d :
  cfg_ok -> reachable evs d ->
  exists m : gmap bytes bytes, trace spec_step ∅ evs m /\ forall k, get_inner (db_state d) k = Ok (m !! k).
Proof.
  intros Hcfg Hr. destruct (reachable_inv _ _ Hcfg Hr) as (m & Hm & Hi & _). exists m. split; [done|]. intros k. exact (inv_get d m k Hi).
Qed.

(** C3: the database stays available.  In every state reachable by byte operations, a
    command that is ready (byte operations, sizes and counters that fit the formats, no cut of
    its frame holding a whole valid frame) succeeds when its writes complete; after a crash at
    any write of it, whatever the process or, in the modes that sync, a loss of power leaves of
    the WAL, opening the directory succeeds when the writes of recovery complete; and so it
    does after a kill between commands.  The block target is not zero and compaction is left to
    the compactor.  (With a frame embedded in a value the directory may not open:
    [torn_append_embedded_frame_refused].) *)
Theorem db_available evs d c :
  cfg_ok -> reachable evs d -> cmd_ready c (db_state d) ->
  (exists d', run_cmd c (set_io [] d) = (d', Ok tt)) /\
  (forall io d1 e wal1, run_cmd c (set_io io d) = (d1, Err e) -> lost d1 wal1 -> exists d', open_db cfg (boot (db_dir d1) wal1 []) = (d', Ok tt)) /\
  forall wal1, lost d wal1 -> exists d', open_db cfg (boot (db_dir d) wal1 []) = (d', Ok tt).
Proof.
  intros Hcfg Hre Hr. destruct (reachable_inv _ _ Hcfg Hre) as (m & _ & Hi & Hy).
  assert (forall dir wal (m : gmap bytes bytes), durable dir wal m -> exists d', open_db cfg (boot dir wal []) = (d', Ok tt)) as Hopen.
  { intros dir wal m' Hd. pose proof (wp_open False cfg m' None false false blank_state dir wal (mkIo [] wal []) (proj1 Hcfg) Hd ltac:(by apply calm_nil)) as Hw.
    unfold wp in Hw. unfold boot. destruct (open_db cfg _) as [d' [[]|e]]; [by eexists | by destruct Hw]. }
  split_and!.
  - pose proof (wp_cmd False c (set_io [] d) m Hcfg (proj2 (inv_set_io _ _ _) Hi) Hr ltac:(by apply calm_nil) (or_introl map_compacts)) as Hw. unfold wp in Hw.
    destruct (run_cmd c (set_io [] d)) as [d' [[]|e]]; [by eexists | by destruct Hw].
  - intros io d1 e wal1 Hrun Hl. destruct (lost_crashes (run_cmd c) d io d1 e wal1 (covered_cmd c) Hy Hrun Hl) as (io2 & d2 & e2 & E2 & <- & <-).
    pose proof (wp_cmd True c (set_io io2 d) m Hcfg (proj2 (inv_set_io _ _ _) Hi) Hr ltac:(done) (or_introl map_compacts)) as Hw. unfold wp in Hw.
    rewrite E2 in Hw. destruct Hw as (_ & m' & _ & Hd). by eapply Hopen.
  - intros wal1 Hl. rewrite (lost_synced d wal1 Hy Hl). eapply Hopen. by apply inv_durable.
Qed.

(** The events that do not write a key. *)
Definition touches (k : bytes) (c : Cmd) : Prop :=
  match c with
  | CWrite ops => Exists (fun o => op_key o = k) ops
  | CGroup group => Exists (Exists (fun o => op_key o = k)) group
  | _ => False
  end.
Definition leaves (k : bytes) (ev : Event) : Prop := match ev with Acked c | Crashed c => ~ touches k c | Killed => True end.

Lemma op_effect_other m o k : op_key o <> k -> op_effect m o !! k = m !! k.
Proof. destruct o; cbn; intros H; [by rewrite lookup_insert_ne | by rewrite lookup_delete_ne | done..]. Qed.
Lemma ops_effect_other ops k : forall m, ~ Exists (fun o => op_key o = k) ops -> ops_effect m ops !! k = m !! k.
Proof.
  induction ops as [|o ops IH]; intros m H; [done|]. unfold ops_effect in *. cbn [fold_left]. rewrite IH by (intros ?; apply H; by apply Exists_cons_tl).
  apply op_effect_other. intros E. apply H. by apply Exists_cons_hd.
Qed.
Lemma group_effect_other group k : forall m, ~ Exists (Exists (fun o => op_key o = k)) group -> group_effect m group !! k = m !! k.
Proof.
  induction group as [|ops group IH]; intros m H; [done|]. unfold group_effect in *. cbn [fold_left].
  rewrite IH by (intros ?; apply H; by apply Exists_cons_tl). apply ops_effect_other. intros E. apply H. by apply Exists_cons_hd.
Qed.
Lemma Exists_take {A} (P : A -> Prop) n l : Exists P (take n l) -> Exists P l.
Proof. intros H. rewrite <-(take_drop n l). apply Exists_app. by left. Qed.
Lemma spec_step_other (m : gmap bytes bytes) ev m' k : spec_step m ev m' -> leaves k ev -> m' !! k = m !! k.
Proof.
  intros Hs Hl. destruct Hs as [m c|m c m' Hsv|m]; [| |done].
  - destruct c; cbn in *; [by apply ops_effect_other | by apply group_effect_other | done..].
  - destruct c as [ops|group| | |]; cbn in *; try by subst.
    + destruct Hsv as [->| ->]; [done | by apply ops_effect_other].
    + destruct Hsv as (n & _ & ->). apply group_effect_other. intros E. apply Hl. by eapply Exists_take.
Qed.
Lemma spec_trace_other (m : gmap bytes bytes) evs m' k : trace spec_step m evs m' -> Forall (leaves k) evs -> m' !! k = m !! k.
Proof.
  induction 1 as [m|m ev m1 evs m' Hs _ IH]; intros Hl; [done|]. apply Forall_cons_1 in Hl as [He Hl].
  rewrite IH by done. by eapply spec_step_other.
Qed.

(** C2: acknowledged writes are durable.  What an acknowledged batch of byte puts and deletes
    last says of a key is what a read answers for it from then on, through flushes, compactions,
    crashes and recoveries, until a command that writes the key.  In the modes that sync
    (Sync, GroupCommit) the crashes are losses of power too, which take what was not synced:
    the theorem rests on the sync before the acknowledgement.  In Async mode, which skips it,
    only crashes of the process are meant ([async_put_lost] is the loss of power).  Under the
    conditions of [db_refines_map], its note on recovery included: commands one at a time, byte operations,
    sizes that fit, no frame embedded in a frame, compaction left to the compactor. *)
Theorem acked_write_survives evs d ops d1 evs' d2 k x :
  cfg_ok -> reachable evs d -> db_step d (Acked (CWrite ops)) d1 -> Forall byte_op ops -> last_says ops k = Some x ->
  trace db_step d1 evs' d2 -> Forall (leaves k) evs' -> get_inner (db_state d2) k = Ok x.
Proof.
  intros Hcfg Hr Hs Hb Hl Ht Hlv. destruct (reachable_inv _ _ Hcfg Hr) as (m & _ & Hi & Hy).
  destruct (step_simulates _ _ _ _ Hcfg Hi Hy Hs (or_introl map_compacts)) as (m1 & Hm1 & Hi1 & Hy1). inversion Hm1; subst.
  destruct (trace_simulates _ _ _ _ Hcfg Hi1 Hy1 Ht (or_introl map_compacts)) as (m2 & Hm2 & Hi2 & _). rewrite (inv_get _ _ _ Hi2). change (spec_map m2) with m2.
  rewrite (spec_trace_other _ _ _ _ Hm2 Hlv). cbn. by rewrite ops_effect_lookup, Hl.
Qed.

(** C4: the invariant of every reachable state.  The memtables are ordered and no immutable
    one is empty; they hold exactly the frames the WAL replays to, all numbered below the
    next sequence; the segment records have distinct ids below the next id, and each opens
    from the directory to the reader in its place; CURRENT names the state's generation,
    whose manifest names exactly those records. *)
Theorem db_wellformed evs d :
  cfg_ok -> reachable evs d -> let s := db_state d in
  Forall mt_sorted (st_immutables s ++ [st_active s]) /\ Forall (fun mem => mt_is_empty mem = false) (st_immutables s) /\
  (exists fss fs, st_immutables s = map mem_of fss /\ st_active s = mem_of fs /\
    replay_frames (db_wal d) = Ok (concat fss ++ fs, zlen (db_wal d)) /\ Forall (fun f => frame_seq f < st_next_seq s) (concat fss ++ fs)) /\
  NoDup (map segment_id (st_segment_records s)) /\ Forall (fun r => segment_id r < st_next_segment_id s) (st_segment_records s) /\
  Forall2 (fun rec r => open_record (db_dir d) rec = Ok r) (st_segment_records s) (st_segments s) /\
  exists bs m, db_dir d !! FCurrent = Some bs /\ current_decode bs = Ok (mkCurrent FORMAT_VERSION (st_generation s)) /\
    open_manifest (db_dir d) (mkCurrent FORMAT_VERSION (st_generation s)) = Ok m /\ segments m = st_segment_records s.
Proof.
  intros Hcfg Hr. destruct (reachable_inv _ _ Hcfg Hr) as (m & _ & (segs & fss & fs & [Hst Hd Hw Hg Hct _ _]) & _). cbv zeta.
  destruct Hst as [K1 K2 K3 K4 K5 K6 K7 K8 K9 K10 K11]. rewrite K1, K2, K4, K5. split_and!.
  - apply Forall_app. split; [apply Forall_map, Forall_forall; intros; apply mt_run_sorted | constructor; [apply mt_run_sorted | done]].
  - apply Forall_map. apply Forall_forall. intros gs Hgs. apply frames_good_app in Hg as (Hg & _ & _).
    rewrite mem_of_is_empty by (by eapply (proj1 (Forall_forall _ _) (frames_good_concat _ Hg))).
    apply bool_decide_eq_false_2. by eapply Forall_forall in K3.
  - exists fss, fs. split_and!; try done. apply replay_frames_spec. pose proof Hg as [Hf Hs].
    split_and!; [eapply Forall_impl; [exact Hf | apply frame_good_wf] | by apply seqs_increase_sorted|]. exists (db_wal d).
    split_and!; try done; [|intros i Hi; lia]. unfold zdrop. by rewrite zlen_to_nat, drop_all, app_nil_r.
  - rewrite map_map. apply Hd.
  - by apply Forall_map.
  - pose proof (dk_segs _ _ _ Hd) as Hs. clear -Hs. induction Hs as [|g segs Hg _ IH]; constructor; [by apply open_record_ok | done].
  - destruct (open_current_ok _ _ _ Hd) as (bs & Hb & Hdec). exists bs, (manifest_at (st_generation (db_state d)) segs).
    split_and!; [done | done | by apply open_manifest_ok | done].
Qed.
End System.

(* ------------------------------------------------------------------ *)
(** * A run *)

(** [room], evaluated. *)
Ltac concrete_room := split; [done | vm_compute; reflexivity.. | repeat constructor; vm_compute; reflexivity].

Section Sample.
#[local] Existing Instance toy_sha.

(** No cut of the frame holds a whole frame: the check of [no_embedded]. *)
Definition embedded_free (seq : Z) (ops : list Op) : bool :=
  match encode_frame seq ops with
  | Ok e => forallb (fun n => forallb (fun i => negb (frame_at (ztake n e) i)) (seqZ 1 (n - 1))) (seqZ 0 (zlen e))
  | Err _ => true
  end.
Lemma embedded_free_ok seq ops : embedded_free seq ops = true -> no_embedded seq ops.
Proof.
  unfold embedded_free, no_embedded. intros H e p r He E Hr i Hi. rewrite He in H. rewrite forallb_forall in H.
  assert (0 < zlen r) by (destruct r; [done|]; rewrite zlen_cons; pose proof (zlen_nonneg r); lia). pose proof (zlen_nonneg p).
  specialize (H (zlen p)). rewrite E, zlen_app, ztake_app in H by done. rewrite forallb_forall in H.
  apply negb_true_iff, H; apply list_elem_of_In, elem_of_seqZ; lia.
Qed.

Definition sample_cfg : Config := mkConfig 100000 4096 Sync 4 1 true 0 0 false.
Definition put_a : Cmd := CWrite [Put [x61] [x31]].
Definition put_b : Cmd := CWrite [Put [x62] [x32]].

(** An open, a put, a flush, a put whose sync fails and of whose append a loss of power
    keeps ten bytes, and the recovery. *)
Definition opened : Db := Eval vm_compute in (open_db sample_cfg (boot ∅ [] [])).1.
Definition after_put : Db := Eval vm_compute in (run_cmd sample_cfg put_a (set_io [] opened)).1.
Definition after_flush : Db := Eval vm_compute in (run_cmd sample_cfg CFlush (set_io [] after_put)).1.
Definition after_cut : Db := Eval vm_compute in (run_cmd sample_cfg put_b (set_io [IoOk; IoFail 0] after_flush)).1.
Definition cut_wal : bytes := Eval vm_compute in power_loss (db_io after_cut) 0 10.
Definition recovered : Db := Eval vm_compute in (open_db sample_cfg (boot (db_dir after_cut) cut_wal [])).1.

Lemma sample_cfg_ok : cfg_ok sample_cfg.
Proof. split; [done | by left]. Qed.
Lemma put_ready {cfg} (d : Db) k v :
  zlen k < U16 -> zlen v < U32 -> 0 <= st_next_seq (db_state d) < U64 -> is_ok (encode_frame (st_next_seq (db_state d)) [Put k v]) = true ->
  embedded_free (st_next_seq (db_state d)) [Put k v] = true -> room cfg (committed (db_state d) [Put k v]) ->
  cmd_ready cfg (CWrite [Put k v]) (db_state d).
Proof.
  intros Hk Hv Hn He Hem Hr. split; [|done]. apply is_ok_true in He. split; [by repeat constructor | done | lia | done | by apply embedded_free_ok].
Qed.

Lemma step_put : db_step sample_cfg opened (Acked put_a) after_put.
Proof.
  apply (db_acked _ _ _ []); [|vm_compute; reflexivity]. apply put_ready; [done | done | vm_compute; split; congruence | vm_compute; reflexivity.. | concrete_room].
Qed.
Lemma step_flush : db_step sample_cfg after_put (Acked CFlush) after_flush.
Proof. apply (db_acked _ _ _ []); [concrete_room | vm_compute; reflexivity]. Qed.
Lemma step_cut : db_step sample_cfg after_flush (Crashed put_b) recovered.
Proof.
  apply (db_crashed _ _ _ [IoOk; IoFail 0] after_cut (Io "WAL sync") cut_wal).
  - apply put_ready; [done | done | vm_compute; split; congruence | vm_compute; reflexivity.. | concrete_room].
  - vm_compute. reflexivity.
  - apply (lost_power _ after_cut 0 10). done.
  - apply (reopened_ok _ _ _ []). vm_compute. reflexivity.
Qed.
Definition sample_events : list Event := [Acked put_a; Acked CFlush; Crashed put_b].
Lemma sample_reachable : reachable sample_cfg sample_events recovered.
Proof.
  exists opened. split; [apply (reopened_ok _ _ _ []); vm_compute; reflexivity|].
  apply (trace_cons _ _ _ _ _ _ step_put), (trace_cons _ _ _ _ _ _ step_flush), (trace_cons _ _ _ _ _ _ step_cut), trace_nil.
Qed.

Lemma db_refines_map_witness :
  exists m, trace spec_step ∅ sample_events m /\ get_inner (db_state recovered) [x61] = Ok (m !! [x61]) /\
    get_inner (db_state recovered) [x61] = Ok (Some [x31]).
Proof.
  destruct (db_refines_map sample_cfg sample_events recovered sample_cfg_ok sample_reachable) as (m & Hm & Hg).
  exists m. split; [exact Hm|]. split; [apply Hg | vm_compute; reflexivity].
Defined.
Lemma db_available_witness :
  (exists d', run_cmd sample_cfg put_b (set_io [] recovered) = (d', Ok tt)) /\
  exists d', open_db sample_cfg (boot (db_dir recovered) (db_wal recovered) []) = (d', Ok tt).
Proof.
  destruct (db_available sample_cfg sample_events recovered put_b sample_cfg_ok sample_reachable) as (H1 & _ & H2).
  - apply put_ready; [done | done | vm_compute; split; congruence | vm_compute; reflexivity.. | concrete_room].
  - split; [exact H1 | apply H2; constructor].
Defined.
Lemma acked_write_survives_witness :
  get_inner (db_state recovered) [x61] = Ok (Some [x31]).
Proof.
  apply (acked_write_survives sample_cfg [] opened [Put [x61] [x31]] after_put [Acked CFlush; Crashed put_b] recovered).
  - exact sample_cfg_ok.
  - exists opened. split; [apply (reopened_ok _ _ _ []); vm_compute; reflexivity | constructor].
  - exact step_put.
  - repeat constructor.
  - reflexivity.
  - apply (trace_cons _ _ _ _ _ _ step_flush), (trace_cons _ _ _ _ _ _ step_cut), trace_nil.
  - repeat constructor; [intros [] | cbn; intros H; by inversion H as [? ? E|? ? E]; [|inversion E]].
Defined.
Lemma db_wellformed_witness :
  exists fss fs, st_immutables (db_state recovered) = map mem_of fss /\ st_active (db_state recovered) = mem_of fs /\
    replay_frames (db_wal recovered) = Ok (concat fss ++ fs, zlen (db_wal recovered)).
Proof.
  destruct (db_wellformed sample_cfg sample_events recovered sample_cfg_ok sample_reachable) as (_ & _ & (fss & fs & H1 & H2 & H3 & _) & _).
  exists fss, fs. split; [exact H1|]. split; [exact H2 | exact H3].
Defined.
End Sample.
