(* ===== verification/DbScan.v ===== *)
(** Prefix scans over a byte history: the range of a prefix, the layer streams and their
    merge, against the represented map. *)

From stdpp Require Import gmap.
From S2P Require Import Prelude Cursor Format Identity Placement Disk Checkpoint Wal WalFrames WalReplay WalReader Memtable Segment.
From S2P Require Import SegmentBlock SegmentLookup SegmentFile SegmentQueries SegmentProps SegmentScan.
From S2P Require Import Compaction CompactionMerge CompactionProps DbState Db DbOpen DbRead.
From S2P Require Import DbLayers DbWp DbInv DbRecover DbFlush DbWrite DbCompact DbProps.

(* ------------------------------------------------------------------ *)
(** * The range of a prefix *)

Lemma compare_app p a b : bytes_compare (p ++ a) (p ++ b) = bytes_compare a b.
Proof. induction p as [|x p IH]; cbn; [done|]. by rewrite Z.compare_refl. Qed.

(** The increment carries out of trailing 255 bytes and leaves zeros there. *)
Lemma bump_spec l :
  (exists n b l', l = repeat xff n ++ b :: l' /\ byte_val b <> 255 /\ bump l = Some (repeat x00 n ++ byte_of (byte_val b + 1) :: l')) \/
  l = repeat xff (length l) /\ bump l = None.
Proof.
  induction l as [|b l IH]; [by right|]. cbn [bump]. pose proof (byte_val_range b). rewrite byte_val_of.
  destruct (decide (byte_val b = 255)) as [E|E].
  - rewrite E. cbn. assert (b = xff) as -> by by apply byte_val_inj. change (byte_of 256) with x00.
    destruct IH as [(n & c & l' & -> & Hc & Hb)|[Hl ->]].
    + left. exists (S n), c, l'. cbn. by rewrite Hb.
    + right. cbn. by rewrite <-Hl.
  - left. exists 0%nat, b, l. rewrite Z.mod_small by lia. rewrite (proj2 (Z.eqb_neq _ 0)) by lia. done.
Qed.
Lemma rev_repeat {A} (x : A) n : rev (repeat x n) = repeat x n.
Proof. induction n as [|n IH]; [done|]. cbn. by rewrite IH, <-repeat_cons. Qed.
Lemma prefix_end_spec prefix :
  (exists p b n, prefix = p ++ b :: repeat xff n /\ byte_val b <> 255 /\ prefix_end prefix = Some (p ++ byte_of (byte_val b + 1) :: repeat x00 n)) \/
  prefix = repeat xff (length prefix) /\ prefix_end prefix = None.
Proof.
  unfold prefix_end. destruct (bump_spec (rev prefix)) as [(n & b & l & E & Hb & ->)|[E ->]].
  - left. exists (rev l), b, n. apply (f_equal (@rev _)) in E. rewrite rev_involutive, rev_app_distr, rev_repeat in E. cbn in E. rewrite <-app_assoc in E.
    cbn. rewrite rev_app_distr, rev_repeat. cbn. by rewrite <-app_assoc.
  - right. split; [|done]. apply (f_equal (@rev _)) in E. by rewrite rev_involutive, rev_repeat, length_rev in E.
Qed.

(** A prefix the increment of which carries into no trailing byte, or has no end. *)
Definition carry_free (prefix : bytes) : bool :=
  match last prefix with Some b => negb (byte_val b =? 255) || forallb (fun b => byte_val b =? 255) prefix | None => true end.

Lemma below_end p b k :
  byte_val b <> 255 -> bytes_leb (p ++ [b]) k = true -> bytes_ltb k (p ++ [byte_of (byte_val b + 1)]) = true -> starts_with (p ++ [b]) k = true.
Proof.
  intros Hb. pose proof (byte_val_range b). revert k. induction p as [|x p IH]; intros [|y k]; cbn; try done.
  - unfold bytes_leb, bytes_ltb. cbn. rewrite byte_val_of, Z.mod_small by lia. intros H1 H2.
    assert (byte_val b = byte_val y) as ->%byte_val_inj; [|by rewrite bool_decide_eq_true_2].
    destruct (Z.compare_spec (byte_val b) (byte_val y)) as [?|Hlt|?]; [done | | done].
    destruct (Z.compare_spec (byte_val y) (byte_val b + 1)) as [E|E|E]; [by destruct k | lia | done].
  - unfold bytes_leb, bytes_ltb in *. cbn. destruct (Z.compare_spec (byte_val x) (byte_val y)) as [E|Hlt|?]; [| |done].
    + rewrite E, Z.compare_refl. apply byte_val_inj in E as ->. rewrite bool_decide_eq_true_2 by done. apply IH.
    + destruct (Z.compare_spec (byte_val y) (byte_val x)); [lia | lia | done].
Qed.
Lemma above_ff n k : bytes_leb (repeat xff n) k = true -> starts_with (repeat xff n) k = true.
Proof.
  revert k. induction n as [|n IH]; intros k; [done|]. destruct k as [|y k]; [done|]. cbn. unfold bytes_leb. cbn. pose proof (byte_val_range y).
  change (byte_val xff) with 255. destruct (Z.compare_spec 255 (byte_val y)) as [E|E|E]; [|lia|done]. intros H1.
  change 255 with (byte_val xff) in E. apply byte_val_inj in E as <-. cbn. by apply IH.
Qed.
Lemma starts_below_end prefix k : starts_with prefix k = true -> past_end (prefix_end prefix) k = false.
Proof.
  intros (r & ->)%starts_with_spec. destruct (prefix_end_spec prefix) as [(p & b & n & -> & Hb & ->)|[_ ->]]; [|done]. cbn.
  apply bytes_leb_false. unfold bytes_lt. rewrite <-app_assoc, compare_app. cbn. pose proof (byte_val_range b). rewrite byte_val_of, Z.mod_small by lia.
  by destruct (Z.compare_spec (byte_val b) (byte_val b + 1)); [lia | done | lia].
Qed.

(** The range scan of a carry-free prefix is the keys under it. *)
Lemma prefix_range prefix start k :
  carry_free prefix = true ->
  in_scan (bytes_max start prefix) (prefix_end prefix) k = starts_with prefix k && bytes_leb start k.
Proof.
  intros Hc. apply eq_iff_eq_true. unfold in_scan. rewrite !andb_true_iff, negb_true_iff.
  assert (bytes_leb (bytes_max start prefix) k = true <-> bytes_leb start k = true /\ bytes_leb prefix k = true) as ->.
  { unfold bytes_max. destruct (bytes_leb start prefix) eqn:E.
    - split; [|tauto]. intros H. split; [by eapply bytes_leb_trans | done].
    - split; [|tauto]. intros H. split; [done|]. apply bytes_leb_false, bytes_lt_leb in E. by eapply bytes_leb_trans. }
  split.
  - intros [[H1 H2] H3]. split; [|done]. destruct (prefix_end_spec prefix) as [(p & b & n & -> & Hb & Ee)|[E Ee]]; rewrite Ee in H3.
    + assert (n = 0)%nat as ->.
      { destruct n as [|n]; [done|]. exfalso. unfold carry_free in Hc. cbn [repeat] in Hc. rewrite repeat_cons, app_comm_cons, app_assoc, last_snoc in Hc.
        cbn in Hc. rewrite !forallb_app in Hc. cbn in Hc. rewrite (proj2 (Z.eqb_neq _ _) Hb), andb_false_r in Hc. done. }
      cbn in *. apply below_end; [done | done |]. by apply bytes_leb_false, bytes_ltb_lt in H3.
    + rewrite E in *. by apply above_ff.
  - intros [H1 H2]. split_and!; [done | | by apply starts_below_end]. apply starts_with_ge in H1. by apply bytes_ltb_false in H1.
Qed.

(* ------------------------------------------------------------------ *)
(** * The merge of streams *)

Section Merge.
Context {SHA : Sha256}.

(** The rows a stream yields, to its end. *)
Inductive stream_yields : ScanStream -> list MergeEntry -> Prop :=
  | sy_nil st st' : stream_next st = Ok (st', None) -> stream_yields st []
  | sy_cons st st' x xs : stream_next st = Ok (st', Some x) -> stream_yields st' xs -> stream_yields st (x :: xs).

Lemma mem_yields l : stream_yields (ScanMem l) l.
Proof. induction l as [|x l IH]; [by eapply sy_nil | by eapply sy_cons]. Qed.
Lemma seg_yields s es : cursor_yields s es -> stream_yields (ScanSeg s) (map (fun e => (se_key e, row_value e)) es).
Proof.
  induction 1 as [s s' H|s s' e es H _ IH]; cbn [map]; [eapply sy_nil | eapply sy_cons; [|exact IH]]; unfold stream_next; rewrite H; reflexivity.
Qed.

Abbreviation pops := (StronglySorted (fun a b => pops_before a b = true)).

(** Stream [i] before its rows [xs]: to be pulled, or pulled into the heap. *)
Definition unpulled (streams : list ScanStream) (heap : list ScanHead) (i : nat) (xs : list MergeEntry) : Prop :=
  (forall k v, (k, i, v) ∉ heap) /\ exists st, streams !! i = Some st /\ stream_yields st xs.
Definition pulled (streams : list ScanStream) (heap : list ScanHead) (i : nat) (xs : list MergeEntry) : Prop :=
  match xs with
  | [] => forall k v, (k, i, v) ∉ heap
  | (k, v) :: xs => (forall k' v', (k', i, v') ∈ heap <-> k' = k /\ v' = v) /\ exists st, streams !! i = Some st /\ stream_yields st xs
  end.

Record merging (todo : list nat) (streams : list ScanStream) (heap : list ScanHead) (P : list (list MergeEntry)) : Prop := {
  mg_sorted : pops heap;
  mg_bound : forall k i v, (k, i, v) ∈ heap -> (i < length P)%nat;
  mg_todo : NoDup todo /\ Forall (fun i => i < length P)%nat todo;
  mg_streams : forall i xs, P !! i = Some xs -> if bool_decide (i ∈ todo) then unpulled streams heap i xs else pulled streams heap i xs }.

Lemma scan_push_elem x heap y : y ∈ scan_push x heap <-> y = x \/ y ∈ heap.
Proof.
  induction heap as [|z heap IH]; cbn; [by rewrite list_elem_of_singleton, elem_of_nil; tauto|].
  destruct (pops_before x z); rewrite !elem_of_cons; [done|]. rewrite IH. tauto.
Qed.
Lemma pops_before_trans (a b c : ScanHead) : pops_before a b = true -> pops_before b c = true -> pops_before a c = true.
Proof.
  unfold pops_before. rewrite !orb_true_iff, !andb_true_iff, !bytes_ltb_lt, !bytes_eqb_eq, !Nat.ltb_lt.
  intros [H1|[E1 H1]] [H2|[E2 H2]]; [left; by etrans | left; congruence | left; congruence | right; split; [congruence | lia]].
Qed.
Lemma pops_before_total (a b : ScanHead) : a.1.2 <> b.1.2 -> pops_before a b = false -> pops_before b a = true.
Proof.
  unfold pops_before. rewrite orb_false_iff, andb_false_iff, orb_true_iff, andb_true_iff, bytes_ltb_lt, bytes_ltb_false, bytes_leb_le, !bytes_eqb_eq, bytes_eqb_neq, Nat.ltb_lt, Nat.ltb_ge.
  intros Hn [[H|H] H2]; [by left|]. right. split; [done|]. destruct H2 as [H2|H2]; [by rewrite H in H2 | lia].
Qed.
Lemma scan_push_sorted x heap : (forall y, y ∈ heap -> x.1.2 <> y.1.2) -> pops heap -> pops (scan_push x heap).
Proof.
  intros Hn Hs. induction Hs as [|y heap Hs IH Hf]; cbn; [by repeat constructor|]. destruct (pops_before x y) eqn:E.
  - constructor; [by constructor|]. constructor; [done|]. eapply Forall_impl; [exact Hf|]. intros z Hz. by eapply pops_before_trans.
  - constructor; [apply IH; set_solver|]. apply Forall_forall. intros z Hz. apply scan_push_elem in Hz as [->|Hz]; [|by eapply Forall_forall in Hf].
    apply pops_before_total; [apply Hn; set_solver | done].
Qed.

(** Pulling. *)
Lemma pull_ok i todo streams heap P :
  merging (i :: todo) streams heap P -> exists streams' heap', pull (streams, heap) i = Ok (streams', heap') /\ merging todo streams' heap' P.
Proof.
  intros [S1 S2 [Hnd Hlt] S4]. apply NoDup_cons in Hnd as [Hi Hnd]. apply Forall_cons_1 in Hlt as [Hil Hlt].
  destruct (lookup_lt_is_Some_2 P i Hil) as [xs Hxs]. pose proof (S4 i xs Hxs) as Hun. rewrite bool_decide_eq_true_2 in Hun by set_solver.
  destruct Hun as (Hno & st & Hst & Hy). cbn [pull]. rewrite Hst. pose proof (lookup_lt_Some _ _ _ Hst) as Hsl.
  assert (forall st' heap', (forall k j v, j <> i -> (k, j, v) ∈ heap' <-> (k, j, v) ∈ heap) -> forall j ys, j <> i -> P !! j = Some ys ->
    if bool_decide (j ∈ todo) then unpulled (<[i := st']> streams) heap' j ys else pulled (<[i := st']> streams) heap' j ys) as Hother.
  { intros st' heap' Hh j ys Hne Hys. pose proof (S4 j ys Hys) as H. rewrite (bool_decide_ext (j ∈ i :: todo) (j ∈ todo)) in H by set_solver.
    case_bool_decide.
    - destruct H as [H1 H2]. split; [intros k v; rewrite Hh by done; apply H1 | by rewrite list_lookup_insert_ne].
    - destruct ys as [|[k v] ys]; cbn in *; [intros k v; rewrite Hh by done; apply H|]. destruct H as [H1 H2].
      split; [intros k' v'; rewrite Hh by done; apply H1 | by rewrite list_lookup_insert_ne]. }
  destruct Hy as [st st' Hn|st st' [k v] xs Hn Hy]; rewrite Hn; cbn [mbind Result_bind]; eexists _, _; (split; [reflexivity|]); split; try done.
  - intros j ys Hys. destruct (decide (j = i)) as [->|Hne]; [|by apply Hother]. rewrite bool_decide_eq_false_2 by done. rewrite Hxs in Hys. injection Hys as <-. done.
  - apply scan_push_sorted; [|done]. intros [[k' j] v'] Hy' E. cbn in E. subst j. by apply Hno in Hy'.
  - intros k' j v' [[= -> -> ->]|Hin]%scan_push_elem; [done | by eapply S2].
  - intros j ys Hys. destruct (decide (j = i)) as [->|Hne].
    + rewrite bool_decide_eq_false_2 by done. rewrite Hxs in Hys. injection Hys as <-. cbn. split; [|exists st'; by rewrite list_lookup_insert_eq].
      intros k' v'. rewrite scan_push_elem. split; [intros [[= -> ->]|Hin]; [done | by apply Hno in Hin] | intros [-> ->]; by left].
    + apply Hother; try done. intros k' j' v' Hne'. rewrite scan_push_elem. split; [intros [[= _ E _]|?]; [by destruct Hne' | done] | by right].
Qed.
Lemma pulls_ok todo : forall streams heap P,
  merging todo streams heap P -> exists streams' heap', fold_result pull (streams, heap) todo = Ok (streams', heap') /\ merging [] streams' heap' P.
Proof.
  induction todo as [|i todo IH]; intros streams heap P H; cbn [fold_result]; [eauto|].
  destruct (pull_ok i todo streams heap P H) as (s1 & h1 & -> & H1). cbn [mbind Result_bind]. by apply IH.
Qed.

(** The drain takes the heads of the key; the first is the newest. *)
Lemma drain_key_ok k heap : forall run i v,
  pops heap -> (forall x, x ∈ heap -> bytes_leb k x.1.1 = true /\ (x.1.1 = k -> (x.1.2 < i)%nat)) ->
  exists same rest, heap = same ++ rest /\ drain_key k run i v heap = (run ++ map (fun x => x.1.2) same, v, rest) /\
    Forall (fun x => x.1.1 = k) same /\ Forall (fun x => bytes_lt k x.1.1) rest.
Proof.
  induction heap as [|[[k2 j] v2] heap IH]; intros run i v Hs Hx; cbn [drain_key].
  { exists [], []. cbn. rewrite app_nil_r. split_and!; [done | done | constructor | constructor]. }
  destruct (Hx (k2, j, v2) ltac:(set_solver)) as [Hle Hi]. cbn in Hle, Hi. apply StronglySorted_inv in Hs as [Hs Hf]. destruct (bytes_eqb k2 k) eqn:E; cbn [negb].
  - apply bytes_eqb_eq in E as ->. specialize (Hi eq_refl). rewrite (proj2 (Nat.leb_gt _ _)) by done.
    destruct (IH (run ++ [j]) i v Hs) as (same & rest & -> & -> & H1 & H2); [intros x Hin; apply Hx; set_solver|].
    exists ((k, j, v2) :: same), rest. cbn. rewrite <-app_assoc. split_and!; try done. by constructor.
  - apply bytes_eqb_neq in E. exists [], ((k2, j, v2) :: heap). cbn. rewrite app_nil_r. split_and!; try done.
    assert (bytes_lt k k2) as Hlt by (apply bytes_leb_le in Hle as [?|?]; [done | congruence]). constructor; [done|].
    apply Forall_forall. intros [[k3 j3] v3] Hin. eapply Forall_forall in Hf; [|exact Hin]. unfold pops_before in Hf. cbn in *.
    apply orb_true_iff in Hf as [Hf|[Hf _]%andb_true_iff]; [apply bytes_ltb_lt in Hf; by etrans | apply bytes_eqb_eq in Hf; by subst].
Qed.

Lemma pops_nodup k (l : list ScanHead) : pops l -> Forall (fun x => x.1.1 = k) l -> NoDup (map (fun x => x.1.2) l).
Proof.
  induction 1 as [|x l Hs IH Hf]; intros Hk; cbn [map]; [constructor|]. apply Forall_cons_1 in Hk as [Hx Hk]. constructor; [|by apply IH].
  intros (y & Ey & Hin%list_elem_of_In)%list_elem_of_In%in_map_iff. eapply Forall_forall in Hf; [|exact Hin]. eapply Forall_forall in Hk; [|exact Hin].
  unfold pops_before in Hf. rewrite Hk, Hx, Ey, Nat.ltb_irrefl, andb_false_r, orb_false_r in Hf. apply bytes_ltb_lt in Hf. by apply bytes_lt_irrefl in Hf.
Qed.

(** The rows left after the round of key [k]. *)
Definition past_key (k : bytes) (xs : list MergeEntry) : list MergeEntry :=
  match xs with (k', v) :: xs' => if bytes_eqb k' k then xs' else xs | [] => [] end.
Definition newest (P : list (list MergeEntry)) (k : bytes) : option (option bytes) := newest_first (fun xs => btree_get xs k) P.
Definition pending (P : list (list MergeEntry)) : nat := list_sum (map length P).

Lemma newest_ext (f g : list MergeEntry -> option (option bytes)) (h : list MergeEntry -> list MergeEntry) P :
  (forall xs, xs ∈ P -> f (h xs) = g xs) -> newest_first f (map h P) = newest_first g P.
Proof. induction P as [|xs P IH]; intros H; cbn; [done|]. rewrite IH by set_solver. by rewrite H by set_solver. Qed.
Lemma newest_none (f : list MergeEntry -> option (option bytes)) P : (forall xs, xs ∈ P -> f xs = None) -> newest_first f P = None.
Proof. induction P as [|xs P IH]; intros H; cbn; [done|]. rewrite IH by set_solver. apply H. set_solver. Qed.
Lemma newest_some (f : list MergeEntry -> option (option bytes)) P x : newest_first f P = Some x -> exists xs, xs ∈ P /\ f xs = Some x.
Proof.
  induction P as [|xs P IH]; cbn; [done|]. destruct (newest_first f P) as [y|]; [intros [= ->]; destruct (IH eq_refl) as (ys & ? & ?); exists ys; set_solver|].
  intros H. exists xs. set_solver.
Qed.
Lemma newest_at (f : list MergeEntry -> option (option bytes)) P : forall i xs x,
  P !! i = Some xs -> f xs = Some x -> (forall j ys, (i < j)%nat -> P !! j = Some ys -> f ys = None) -> newest_first f P = Some x.
Proof.
  induction P as [|ys P IH]; intros [|i] xs x Hi Hf Hj; try done; cbn in *.
  - injection Hi as ->. rewrite newest_none; [done|]. intros ys (j & Hys)%list_elem_of_lookup. by apply (Hj (S j)); [lia|].
  - rewrite (IH i xs x Hi Hf); [done|]. intros j zs Hlt. apply (Hj (S j)). lia.
Qed.

(** Sorted rows past a lower bound of their head. *)
Lemma sorted_ge (xs : list MergeEntry) k k' v : keys_sorted xs -> (forall k0 v0 xs0, xs = (k0, v0) :: xs0 -> bytes_leb k k0 = true) -> btree_get xs k' = Some v ->
  bytes_leb k k' = true.
Proof.
  intros Hs Hh Hg. apply btree_get_elem in Hg; [|done]. destruct xs as [|[k0 v0] xs]; [by apply not_elem_of_nil in Hg|].
  specialize (Hh _ _ _ eq_refl). apply elem_of_cons in Hg as [[= -> ->]|Hg]; [done|]. unfold keys_sorted in Hs. apply StronglySorted_inv in Hs as [_ Hs].
  eapply Forall_forall in Hs; [|exact Hg]. cbn in Hs. apply bytes_lt_leb. by eapply bytes_leb_lt_trans.
Qed.
Lemma past_key_get k xs k' :
  keys_sorted xs -> (forall k0 v0 xs0, xs = (k0, v0) :: xs0 -> bytes_leb k k0 = true) ->
  btree_get (past_key k xs) k' = if bytes_eqb k' k then None else btree_get xs k'.
Proof.
  intros Hs Hh. destruct (bytes_eqb k' k) eqn:E.
  - apply bytes_eqb_eq in E as ->. destruct xs as [|[k0 v0] xs]; [done|]. cbn. unfold keys_sorted in Hs. pose proof Hs as Hs0. apply StronglySorted_inv in Hs0 as [Hs0 Hf].
    destruct (bytes_eqb k0 k) eqn:E0.
    + apply bytes_eqb_eq in E0 as ->. destruct (btree_get xs k) as [v|] eqn:Eg; [|done]. apply btree_get_elem in Eg; [|done].
      eapply Forall_forall in Hf; [|exact Eg]. by apply bytes_lt_irrefl in Hf.
    + destruct (btree_get ((k0, v0) :: xs) k) as [v|] eqn:Eg; [|done]. apply btree_get_elem in Eg; [|done]. specialize (Hh _ _ _ eq_refl). apply bytes_eqb_neq in E0.
      apply elem_of_cons in Eg as [[= -> ->]|Eg]; [done|]. eapply Forall_forall in Hf; [|exact Eg]. cbn in Hf. exfalso. apply (bytes_lt_irrefl k).
      by eapply bytes_leb_lt_trans.
  - destruct xs as [|[k0 v0] xs]; [done|]. cbn. destruct (bytes_eqb k0 k) eqn:E0; [|done]. apply bytes_eqb_eq in E0 as ->. by rewrite E.
Qed.
Lemma past_key_sorted k (xs : list MergeEntry) : keys_sorted xs -> keys_sorted (past_key k xs).
Proof. intros Hs. destruct xs as [|[k0 v0] xs]; [done|]. cbn. destruct (bytes_eqb k0 k); [|done]. unfold keys_sorted in *. by apply StronglySorted_inv in Hs as [Hs _]. Qed.
Lemma past_key_pending k P : (pending (map (past_key k) P) <= pending P)%nat.
Proof.
  unfold pending. induction P as [|xs P IH]; [done|]. cbn [map]. change (list_sum (?x :: ?l)) with (x + list_sum l)%nat.
  assert (length (past_key k xs) <= length xs)%nat; [|lia]. destruct xs as [|[k0 v0] xs]; [done|]. cbn. destruct (bytes_eqb k0 k); cbn; lia.
Qed.
Lemma past_key_progress k P i v xs : P !! i = Some ((k, v) :: xs) -> (pending (map (past_key k) P) < pending P)%nat.
Proof.
  intros H. rewrite <-(take_drop_middle P i _ H). unfold pending. rewrite !map_app, !list_sum_app. cbn [map].
  change (list_sum (?x :: ?l)) with (x + list_sum l)%nat. pose proof (past_key_pending k (take i P)). pose proof (past_key_pending k (drop (S i) P)).
  unfold pending in *. cbn [past_key]. rewrite bytes_eqb_refl. cbn [length]. lia.
Qed.

Section Round.
Context (streams : list ScanStream) (k : bytes) (i : nat) (v : option bytes) (heap : list ScanHead) (P : list (list MergeEntry)).
Context (Hm : merging [] streams ((k, i, v) :: heap) P) (Hsorted : Forall keys_sorted P).

Lemma round_pulled j xs : P !! j = Some xs -> pulled streams ((k, i, v) :: heap) j xs.
Proof. intros H. pose proof (mg_streams _ _ _ _ Hm j xs H) as Hp. by rewrite bool_decide_eq_false_2 in Hp by apply not_elem_of_nil. Qed.
Lemma round_after x : x ∈ heap -> bytes_leb k x.1.1 = true /\ (x.1.1 = k -> (x.1.2 < i)%nat).
Proof.
  intros Hx. pose proof (mg_sorted _ _ _ _ Hm) as Hs. apply StronglySorted_inv in Hs as [_ Hf]. eapply Forall_forall in Hf; [|exact Hx].
  unfold pops_before in Hf. cbn in Hf. apply orb_true_iff in Hf as [Hf|[Hf Hj]%andb_true_iff].
  - apply bytes_ltb_lt in Hf. split; [by apply bytes_lt_leb|]. intros E. rewrite E in Hf. by apply bytes_lt_irrefl in Hf.
  - apply bytes_eqb_eq in Hf. apply Nat.ltb_lt in Hj. rewrite <-Hf. split; [apply bytes_leb_refl | done].
Qed.
Lemma round_head j k0 v0 xs : P !! j = Some ((k0, v0) :: xs) -> (k0, j, v0) ∈ (k, i, v) :: heap.
Proof. intros H. apply round_pulled in H as [H _]. by apply H. Qed.
Lemma round_min j k0 v0 xs : P !! j = Some ((k0, v0) :: xs) -> bytes_leb k k0 = true.
Proof. intros H. apply round_head, elem_of_cons in H as [[= -> _ _]|H]; [apply bytes_leb_refl | by apply (round_after (k0, j, v0))]. Qed.
Lemma round_of k' j v' : (k', j, v') ∈ (k, i, v) :: heap -> exists xs, P !! j = Some ((k', v') :: xs).
Proof.
  intros Hin. destruct (lookup_lt_is_Some_2 P j (mg_bound _ _ _ _ Hm _ _ _ Hin)) as [xs Hxs]. pose proof (round_pulled _ _ Hxs) as Hp.
  destruct xs as [|[k0 v0] xs]; [by apply Hp in Hin|]. destruct Hp as [Hp _]. destruct (proj1 (Hp _ _) Hin) as [E1 E2]. subst. exists xs. exact Hxs.
Qed.
Lemma round_first j xs k0 v0 xs0 : P !! j = Some xs -> xs = (k0, v0) :: xs0 -> bytes_leb k k0 = true.
Proof. intros H ->. by eapply round_min. Qed.
Lemma round_sorted j xs : P !! j = Some xs -> keys_sorted xs.
Proof. intros H. eapply Forall_forall in Hsorted; [done|]. by eapply list_elem_of_lookup_2. Qed.

(** The value of the round is the newest one, and the other keys keep theirs. *)
Lemma round_newest : newest P k = Some v.
Proof.
  destruct (round_of k i v) as [xs Hxs]; [set_solver|]. eapply newest_at; [exact Hxs | cbn; by rewrite bytes_eqb_refl|].
  intros j ys Hlt Hys. destruct (btree_get ys k) as [v'|] eqn:Eg; [|done]. exfalso. pose proof (round_sorted _ _ Hys) as Hs.
  destruct ys as [|[k0 v0] ys]; [done|]. pose proof (round_min _ _ _ _ Hys) as Hle. cbn in Eg. destruct (bytes_eqb k k0) eqn:E0.
  - apply bytes_eqb_eq in E0 as <-. apply round_head in Hys. apply elem_of_cons in Hys as [[= ->]|Hin]; [lia|].
    destruct (round_after _ Hin) as [_ H]. specialize (H eq_refl). cbn in H. lia.
  - unfold keys_sorted in Hs. apply StronglySorted_inv in Hs as [Hs Hf]. apply btree_get_elem in Eg; [|done]. eapply Forall_forall in Hf; [|exact Eg].
    cbn in Hf. apply (bytes_lt_irrefl k). by eapply bytes_leb_lt_trans.
Qed.
Lemma round_others k' : newest (map (past_key k) P) k' = if bytes_eqb k' k then None else newest P k'.
Proof.
  unfold newest. rewrite (newest_ext _ (fun xs => if bytes_eqb k' k then None else btree_get xs k')).
  - destruct (bytes_eqb k' k); [by apply newest_none | done].
  - intros xs (j & Hj)%list_elem_of_lookup. apply past_key_get; [by eapply round_sorted | intros ? ? ? ?; by eapply round_first].
Qed.
Lemma round_above k' x : newest P k' = Some x -> bytes_leb k k' = true.
Proof. intros (xs & (j & Hj)%list_elem_of_lookup & Hg)%newest_some. eapply sorted_ge; [by eapply round_sorted | intros ? ? ? ?; by eapply round_first | exact Hg]. Qed.

Lemma round_merging same rest :
  heap = same ++ rest -> Forall (fun x => x.1.1 = k) same -> Forall (fun x => bytes_lt k x.1.1) rest ->
  merging ([i] ++ map (fun x => x.1.2) same) streams rest (map (past_key k) P).
Proof.
  intros Eh Hsame Hrest. pose proof (mg_sorted _ _ _ _ Hm) as Hs.
  assert (forall j, j ∈ [i] ++ map (fun x : ScanHead => x.1.2) same <-> exists v', (k, j, v') ∈ (k, i, v) :: same) as Hrun.
  { intros j. rewrite elem_of_app, list_elem_of_singleton, list_elem_of_In, in_map_iff. split.
    - intros [->|([[k' j'] v'] & E & Hin%list_elem_of_In)]; [exists v; set_solver|]. cbn in E. subst j'. eapply Forall_forall in Hsame; [|exact Hin]. cbn in Hsame. subst k'.
      exists v'. set_solver.
    - intros (v' & [[= ->]|Hin]%elem_of_cons); [by left|]. right. exists (k, j, v'). split; [done | by apply list_elem_of_In]. }
  split.
  - rewrite Eh, app_comm_cons in Hs. by apply sorted_app_inv in Hs as [_ Hs].
  - intros k' j v' Hin. rewrite length_map. eapply (mg_bound _ _ _ _ Hm k' j v'). rewrite Eh. set_solver.
  - split.
    + rewrite Eh, app_comm_cons in Hs. apply sorted_app_inv in Hs as [Hs _]. change ([i] ++ map _ same) with (map (fun x : ScanHead => x.1.2) ((k, i, v) :: same)).
      apply (pops_nodup k); [exact Hs | by constructor].
    + apply Forall_forall. intros j (v' & Hin)%Hrun. rewrite length_map. eapply (mg_bound _ _ _ _ Hm k j v'). rewrite Eh. set_solver.
  - intros j ys Hys. apply list_lookup_fmap_Some in Hys as (xs & -> & Hxs). pose proof (round_pulled j xs Hxs) as Hp.
    assert (forall k' j' v', (k', j', v') ∈ rest -> (k', j', v') ∈ (k, i, v) :: heap /\ bytes_lt k k') as Hin.
    { intros k' j' v' Hi. split; [rewrite Eh; set_solver|]. by eapply Forall_forall in Hrest; [|exact Hi]. }
    case_bool_decide as Hj.
    + apply Hrun in Hj as (v' & Hj). destruct (round_of k j v') as [xs0 Hx0]; [rewrite Eh; set_solver|]. rewrite Hxs in Hx0. injection Hx0 as ->.
      cbn [past_key]. rewrite bytes_eqb_refl. destruct Hp as [Hp Hst]. split; [|done]. intros k' v'' [H1 H2]%Hin. apply Hp in H1 as [-> _]. by apply bytes_lt_irrefl in H2.
    + destruct xs as [|[k0 v0] xs0]; cbn [past_key]; [intros k' v' [H1 _]%Hin; by apply Hp in H1|]. pose proof (round_head _ _ _ _ Hxs) as Hhd.
      assert (k0 <> k) as Hne.
      { intros ->. apply Hj, Hrun. exists v0. rewrite Eh, app_comm_cons in Hhd. apply elem_of_app in Hhd as [?|Hr]; [done|].
        apply Hin in Hr as [_ Hr]. by apply bytes_lt_irrefl in Hr. }
      rewrite (proj2 (bytes_eqb_neq k0 k)) by done. destruct Hp as [Hp Hst]. split; [|done]. intros k' v'. split; [intros [H1 _]%Hin; by apply Hp|].
      intros [-> ->]. rewrite Eh, app_comm_cons in Hhd. apply elem_of_app in Hhd as [[[= ? ? ?]|Hr]%elem_of_cons|?]; [done | | done].
      eapply Forall_forall in Hsame; [|exact Hr]. done.
Qed.
End Round.

(** The merge loop yields, in key order, the rows whose newest version is a value. *)
Lemma scan_merge_ok fuel : forall streams heap P,
  merging [] streams heap P -> Forall keys_sorted P -> (pending P <= fuel)%nat ->
  exists out, scan_merge fuel streams heap = Ok out /\ keys_sorted out /\ forall k v, (k, v) ∈ out <-> newest P k = Some (Some v).
Proof.
  induction fuel as [|fuel IH]; intros streams heap P Hm Hs Hf; (destruct heap as [|[[k i] v] heap]; cbn [scan_merge];
    [exists []; split_and!; [done | constructor|]; intros k v; split; [intros H; by apply not_elem_of_nil in H|]; intros (xs & (j & Hj)%list_elem_of_lookup & Hg)%newest_some;
     pose proof (mg_streams _ _ _ _ Hm j xs Hj) as Hp; rewrite bool_decide_eq_false_2 in Hp by apply not_elem_of_nil; destruct xs as [|[k0 v0] xs]; [done|];
     destruct Hp as [Hp _]; exfalso; by apply (not_elem_of_nil (k0, j, v0)), Hp|]);
    (destruct (round_of streams k i v heap P Hm k i v) as [xs0 Hx0]; [set_solver|]; pose proof (past_key_progress k P i v xs0 Hx0) as Hpr); [lia|].
  destruct (drain_key_ok k heap [i] i v) as (same & rest & Eh & -> & H1 & H2).
  { pose proof (mg_sorted _ _ _ _ Hm) as Hp. by apply StronglySorted_inv in Hp as [Hp _]. }
  { intros x Hx. by apply (round_after streams k i v heap P Hm). }
  pose proof (round_merging streams k i v heap P Hm Hs same rest Eh H1 H2) as Hm1.
  destruct (pulls_ok _ _ _ _ Hm1) as (streams2 & heap2 & -> & Hm2). cbn [mbind Result_bind].
  destruct (IH streams2 heap2 (map (past_key k) P) Hm2) as (out & -> & Ho & Hin).
  { apply Forall_map. eapply Forall_impl; [exact Hs|]. intros xs. apply past_key_sorted. }
  { lia. }
  cbn [mbind Result_bind]. pose proof (round_others streams k i v heap P Hm Hs) as Hoth. pose proof (round_newest streams k i v heap P Hm Hs) as Hnew.
  eexists. split; [reflexivity|]. assert (forall k' v', (k', v') ∈ out -> bytes_lt k k') as Hgt.
  { intros k' v' Hi. apply Hin in Hi. rewrite Hoth in Hi. destruct (bytes_eqb k' k) eqn:E; [done|]. apply bytes_eqb_neq in E.
    apply (round_above streams k i v heap P Hm Hs), bytes_leb_le in Hi as [?|?]; congruence. }
  assert (forall k' v', k' <> k -> (k', v') ∈ out <-> newest P k' = Some (Some v')) as Hne.
  { intros k' v' Hk. rewrite Hin, Hoth, (proj2 (bytes_eqb_neq k' k)) by done. done. }
  destruct v as [v|]; (split; [|intros k' v'; destruct (decide (k' = k)) as [->|Hk]]).
  - unfold keys_sorted in *. constructor; [done|]. apply Forall_forall. intros [k' v'] Hi. by eapply Hgt.
  - rewrite Hnew, elem_of_cons. split; [intros [[= ->]|Hi%Hgt]; [done | by apply bytes_lt_irrefl in Hi] | intros [= ->]; by left].
  - rewrite elem_of_cons, Hne by done. split; [intros [[= -> _]|?]; [done | done] | by right].
  - done.
  - rewrite Hnew. split; [intros Hi%Hgt; by apply bytes_lt_irrefl in Hi | done].
  - by apply Hne.
Qed.
End Merge.

(* ------------------------------------------------------------------ *)
(** * The layers of a byte history *)

Lemma btree_get_map {V W} (g : V -> W) (l : list (bytes * V)) k : btree_get (map (fun x => (x.1, g x.2)) l) k = g <$> btree_get l k.
Proof. induction l as [|[k' v] l IH]; cbn; [done|]. by destruct (bytes_eqb k k'). Qed.
Lemma btree_get_filter {V} (f : bytes -> bool) (l : list (bytes * V)) k :
  btree_get (List.filter (fun x => f x.1) l) k = if f k then btree_get l k else None.
Proof.
  induction l as [|[k' v] l IH]; cbn; [by destruct (f k)|]. destruct (f k') eqn:E; cbn; rewrite IH; destruct (bytes_eqb k k') eqn:Ek; try done;
    apply bytes_eqb_eq in Ek as ->; by rewrite E.
Qed.
Lemma keys_sorted_map {V W} (g : V -> W) (l : list (bytes * V)) : keys_sorted l -> keys_sorted (map (fun x => (x.1, g x.2)) l).
Proof. unfold keys_sorted. induction 1 as [|x l Hs IH Hf]; cbn; constructor; [done|]. by apply Forall_map. Qed.

Definition scan_row (e : SegmentEntry) : MergeEntry := (se_key e, row_value e).

Section Heads.
Context (start : bytes) (end_ : option bytes).

Lemma heads_sub rows : forall last e, e ∈ heads start end_ last rows -> e ∈ rows.
Proof.
  induction rows as [|x rows IH]; intros last e; cbn [heads]; [done|]. destruct (yields_row start end_ last x).
  - intros [->|H%IH]%elem_of_cons; set_solver.
  - intros H%IH. set_solver.
Qed.
Lemma heads_above rows k0 e :
  rows_asc rows -> (forall x, x ∈ rows -> bytes_leb k0 (se_key x) = true) -> e ∈ heads start end_ (Some k0) rows -> bytes_lt k0 (se_key e).
Proof.
  induction 1 as [|x rows Hs IH Hf]; intros Hle; cbn [heads]; [intros H; by apply not_elem_of_nil in H|]. destruct (yields_row start end_ (Some k0) x) eqn:E.
  - assert (bytes_lt k0 (se_key x)) as Hx.
    { destruct (proj1 (bytes_leb_le _ _) (Hle x ltac:(set_solver))) as [?|E0]; [done|]. unfold yields_row in E.
      rewrite E0, bool_decide_eq_true_2, andb_false_r in E by done. done. }
    intros [->|H%heads_sub]%elem_of_cons; [done|]. eapply Forall_forall in Hf; [|exact H]. by eapply bytes_lt_leb_trans.
  - apply IH. set_solver.
Qed.
Lemma heads_sorted rows : forall last, rows_asc rows -> keys_sorted (map scan_row (heads start end_ last rows)).
Proof.
  unfold keys_sorted. intros last Hs. revert last. induction Hs as [|x rows Hs IH Hf]; intros last; cbn [heads]; [constructor|].
  destruct (yields_row start end_ last x); [|apply IH]. cbn [map]. constructor; [apply IH|]. apply Forall_map, Forall_forall. intros e He. cbn.
  eapply heads_above; [exact Hs | | exact He]. intros y Hy. by eapply Forall_forall in Hf.
Qed.
(** Each key of the range is there with its newest row. *)
Lemma heads_get k rows : forall last,
  rows_asc rows -> Forall byte_row rows -> (forall k0 x, last = Some k0 -> x ∈ rows -> bytes_leb k0 (se_key x) = true) ->
  btree_get (map scan_row (heads start end_ last rows)) k =
  if in_scan start end_ k && negb (bool_decide (last = Some k)) then row_value <$> find_row k None rows else None.
Proof.
  intros last Hs. revert last. induction Hs as [|x rows Hs IH Hf]; intros last Hb Hl; cbn [heads]; [by destruct (_ && _)|].
  apply Forall_cons_1 in Hb as [Hbx Hb]. unfold find_row. cbn [List.find]. fold (find_row k None rows). unfold row_match. rewrite andb_true_r.
  assert (forall y, y ∈ rows -> bytes_leb (se_key x) (se_key y) = true) as Hxy by (intros y Hy; by eapply Forall_forall in Hf).
  unfold yields_row. rewrite Hbx, (bool_decide_eq_true_2 (mkReplicaId 0 = mkReplicaId 0)), andb_true_r by done.
  destruct (in_scan start end_ (se_key x)) eqn:Ein; cbn [andb].
  2: { rewrite IH by (try done; set_solver). destruct (bytes_eqb (se_key x) k) eqn:Ek; [|done]. apply bytes_eqb_eq in Ek as <-. by rewrite Ein. }
  case_bool_decide as El; cbn [negb].
  { rewrite IH by (try done; set_solver). destruct (bytes_eqb (se_key x) k) eqn:Ek; [|done]. apply bytes_eqb_eq in Ek as <-.
    by rewrite (bool_decide_eq_true_2 (last = Some (se_key x))), andb_false_r. }
  cbn [map btree_get scan_row fst snd]. unfold scan_row at 1. cbn [btree_get]. destruct (bytes_eqb k (se_key x)) eqn:Ek.
  { apply bytes_eqb_eq in Ek as ->. rewrite Ein, bool_decide_eq_false_2, bytes_eqb_refl by done. done. }
  apply bytes_eqb_neq in Ek. rewrite IH; [|done|intros k0 y [= <-]; apply Hxy]. rewrite (proj2 (bytes_eqb_neq (se_key x) k)) by congruence.
  rewrite (bool_decide_eq_false_2 (Some (se_key x) = Some k)) by congruence. rewrite andb_true_r. destruct (in_scan start end_ k); [|done]. cbn [andb].
  case_bool_decide as Elk; [|done]. cbn [negb]. rewrite find_row_none; [done|]. intros y Hy Hyk. pose proof (Hl k x Elk ltac:(set_solver)) as H1.
  specialize (Hxy y Hy). rewrite Hyk in Hxy. apply Ek. by apply bytes_leb_antisym.
Qed.
Lemma heads_length rows : forall last, (length (heads start end_ last rows) <= length rows)%nat.
Proof. induction rows as [|x rows IH]; intros last; cbn [heads]; [done|]. destruct (yields_row _ _ _ x); cbn; [specialize (IH (Some (se_key x))) | specialize (IH last)]; lia. Qed.
End Heads.

Section Layers.
Context {SHA : Sha256}.

(** The memtable stream. *)
Lemma mem_run_ok fs prefix start :
  keys_sorted (mem_run (mem_of fs) prefix start) /\
  forall k, btree_get (mem_run (mem_of fs) prefix start) k =
    if starts_with prefix k && bytes_leb start k then br_value <$> mt_get (mem_of fs) k else None.
Proof.
  pose proof (mt_run_sorted (flat_map frame_writes fs)) as Hs. change (mt_run _) with (mem_of fs) in Hs. pose proof (proj1 Hs) as Hk.
  unfold mem_run. rewrite prefix_heads_filter by done. pose proof (heads_filter_sorted _ prefix Hk) as Hh. split.
  - apply keys_sorted_map. unfold keys_sorted in *. by apply filter_sorted.
  - intros k. rewrite btree_get_map, (btree_get_filter (bytes_leb start)). destruct (bytes_leb start k); [|by rewrite andb_false_r]. rewrite andb_true_r.
    unfold mt_get. destruct (btree_get (heads_filter (mt_map (mem_of fs)) prefix) k) as [b|] eqn:E.
    + apply btree_get_elem in E; [|done]. apply heads_filter_elem in E as [-> ->]; [|done]. done.
    + destruct (starts_with prefix k) eqn:Est; [|done]. destruct (btree_get (mt_map (mem_of fs)) k ≫= find_map_rev as_byte) as [b|] eqn:Eg; [|done].
      exfalso. assert ((k, b) ∈ heads_filter (mt_map (mem_of fs)) prefix) as Hin by (apply heads_filter_elem; done).
      apply btree_get_elem in Hin; [|done]. congruence.
Qed.

(** The segment stream. *)
Lemma seg_scan_yields dir g start end_ :
  seg_ok dir g -> cursor_yields (scan_iter (sg_reader g) start end_) (heads start end_ None (sg_rows g)) /\
    (length (sg_rows g) <= stream_size (ScanSeg (scan_iter (sg_reader g) start end_)))%nat.
Proof.
  intros [H1 H2 H3 H4 H5 (w & file & an & Hw & Hp & Hd & Ho) H7]. assert (publishable w (sg_rows g)) as Hpa by done.
  destruct (published_open w _ _ _ _ _ Hpa Hp) as (r' & blocks & Ho' & Hh & Hc & Hs & _). rewrite Ho in Ho'. injection Ho' as <-.
  rewrite <-Hc in Hs. split.
  - pose proof (scan_iter_yields w (sg_reader g) blocks Hh Hs start end_) as Hy. by rewrite Hc, persisted_bytes in Hy.
  - rewrite <-Hc. by apply (rows_payload w (sg_reader g) blocks Hh).
Qed.

Lemma start_max prefix start k :
  starts_with prefix k && bytes_leb (bytes_max start prefix) k = starts_with prefix k && bytes_leb start k.
Proof.
  destruct (starts_with prefix k) eqn:E; [|done]. cbn. apply starts_with_ge, bytes_ltb_false in E. unfold bytes_max.
  destruct (bytes_leb start prefix) eqn:Es; [|done]. rewrite E. symmetry. by eapply bytes_leb_trans.
Qed.

(** The layers' rows of a scan. *)
Definition layer_rows (segs : list Seg) (fss : list (list WalFrame)) (prefix start : bytes) : list (list MergeEntry) :=
  map (fun g => map scan_row (heads start (prefix_end prefix) None (sg_rows g))) segs ++ map (fun fs => mem_run (mem_of fs) prefix start) fss.

Lemma newest_segs segs start end_ k :
  Forall (fun g => rows_asc (sg_rows g) /\ Forall byte_row (sg_rows g)) segs -> in_scan start end_ k = true ->
  newest (map (fun g => map scan_row (heads start end_ None (sg_rows g))) segs) k = row_value <$> layers_get (map sg_rows segs) k.
Proof.
  intros Hs Hk. unfold newest, layers_get. induction Hs as [|g segs [Ha Hb] _ IH]; [done|]. cbn [map newest_first]. rewrite IH.
  destruct (newest_first _ (map sg_rows segs)); [done|]. cbn [fmap option_fmap option_map].
  rewrite heads_get by done. by rewrite Hk.
Qed.
Lemma newest_mems fss prefix start k :
  starts_with prefix k && bytes_leb start k = true ->
  newest (map (fun fs => mem_run (mem_of fs) prefix start) fss) k = br_value <$> newest_first (fun m => mt_get m k) (map mem_of fss).
Proof.
  intros Hk. unfold newest. induction fss as [|fs fss IH]; [done|]. cbn [map newest_first]. rewrite IH. destruct (newest_first _ (map mem_of fss)); [done|].
  cbn [fmap option_fmap option_map]. rewrite (proj2 (mem_run_ok fs prefix start)). by rewrite Hk.
Qed.

(** The scan of an invariant state. *)
Lemma inv_scan (d : Db) (m : gmap bytes bytes) prefix start :
  inv d m -> carry_free prefix = true ->
  exists out, scan_from (db_state d) prefix start = Ok out /\ keys_sorted out /\
    forall k v, (k, v) ∈ out <-> m !! k = Some v /\ starts_with prefix k = true /\ bytes_leb start k = true.
Proof.
  intros Hi Hcf. pose proof (fun k => inv_get d m k Hi) as Hget. destruct Hi as (segs & fss & fs & [Hst Hd _ Hg _ _ _]).
  pose proof (dk_segs _ _ _ Hd) as Hsegs. destruct Hst as [K1 K2 _ K4 _ _ _ _ _ _ _]. unfold scan_from. set (start' := bytes_max start prefix).
  set (P := layer_rows segs (fss ++ [fs]) prefix start'). set (streams := scan_streams (db_state d) prefix start).
  assert (Forall2 (fun st xs => stream_yields st xs /\ keys_sorted xs /\ (length xs <= stream_size st)%nat) streams P) as Hy.
  { unfold streams, P, scan_streams, layer_rows. rewrite K1, K2, K4. fold start'. apply Forall2_app.
    - clear -Hsegs. induction Hsegs as [|g segs Hg _ IH]; cbn [map]; constructor; [|done]. destruct (seg_scan_yields _ _ start' (prefix_end prefix) Hg) as [H1 H2].
      pose proof (seg_ok_reads _ _ Hg) as Hr. split_and!; [by apply seg_yields | apply heads_sorted, publish_lt_asc, Hr|].
      rewrite length_map. pose proof (heads_length start' (prefix_end prefix) (sg_rows g) None). lia.
    - change [mem_of fs] with (map mem_of [fs]). rewrite <-map_app. clear. induction (fss ++ [fs]) as [|gs l IH]; cbn [map]; constructor; [|done].
      split_and!; [apply mem_yields | apply mem_run_ok | done]. }
  assert (length P = length streams) as Hlen by (by rewrite (Forall2_length _ _ _ Hy)).
  assert (merging (seq 0 (length streams)) streams [] P) as Hm.
  { split; [constructor | intros k i v H; by apply not_elem_of_nil in H | split; [apply NoDup_ListNoDup, seq_NoDup | apply Forall_forall; intros i Hin%elem_of_seq; lia]|].
    intros i xs Hxs. rewrite bool_decide_eq_true_2 by (apply elem_of_seq; apply lookup_lt_Some in Hxs; lia).
    destruct (Forall2_lookup_r _ _ _ _ _ Hy Hxs) as (st & Hst & H1 & _). split; [intros k v H; by apply not_elem_of_nil in H | eauto]. }
  destruct (pulls_ok _ _ _ _ Hm) as (streams2 & heap2 & -> & Hm2). cbn [mbind Result_bind].
  destruct (scan_merge_ok (list_sum (map stream_size streams)) streams2 heap2 P Hm2) as (out & -> & Ho & Hin).
  { clear -Hy. induction Hy as [|st xs l P (_ & H & _) _ IH]; constructor; done. }
  { clear -Hy. unfold pending. induction Hy as [|st xs l P (_ & _ & H) _ IH]; [done|]. cbn [map]. change (list_sum (?x :: ?l)) with (x + list_sum l)%nat. lia. }
  exists out. split_and!; [done | done|]. intros k v. rewrite Hin. pose proof (prefix_range prefix start k Hcf) as Hr. fold start' in Hr.
  assert (newest P k = match newest (map (fun fs => mem_run (mem_of fs) prefix start') (fss ++ [fs])) k with
    | Some b => Some b | None => newest (map (fun g => map scan_row (heads start' (prefix_end prefix) None (sg_rows g))) segs) k end) as ->.
  { unfold P, layer_rows, newest. apply newest_first_app. }
  destruct (starts_with prefix k && bytes_leb start k) eqn:Ew.
  - assert (Forall (fun g => rows_asc (sg_rows g) /\ Forall byte_row (sg_rows g)) segs) as Hrows.
    { eapply Forall_impl; [exact Hsegs|]. intros g Hgo. split; [apply publish_lt_asc, (seg_ok_reads _ _ Hgo) | apply Hgo]. }
    rewrite (newest_segs segs start' (prefix_end prefix) k Hrows Hr). rewrite newest_mems by (unfold start'; by rewrite start_max).
    apply andb_true_iff in Ew as [E1 E2]. assert (forall A B : Prop, (A <-> B) -> (A <-> B /\ true = true /\ true = true)) as Hiff by tauto. rewrite E1, E2. apply Hiff. clear Hiff.
    specialize (Hget k). rewrite get_inner_eq in Hget. unfold mem_lookup in Hget. rewrite K1, K2, K4 in Hget.
    rewrite map_app, newest_first_app. cbn [map newest_first]. destruct (mt_get (mem_of fs) k) as [b|]; [injection Hget as <-; cbn; split; congruence|].
    destruct (newest_first _ (map mem_of fss)) as [b|]; [injection Hget as <-; cbn; split; congruence|]. cbn [fmap option_fmap option_map].
    rewrite (get_segments_ok (map sg_reader segs) (map sg_rows segs)) in Hget.
    + injection Hget as <-. unfold view. destruct (layers_get _ k) as [e|]; cbn; [|done]. split; congruence.
    + clear -Hsegs. induction Hsegs as [|g segs Hg _ IH]; constructor; [by eapply seg_ok_reads | done].
  - assert (forall A : Prop, ~ A -> (A <-> m !! k = Some v /\ starts_with prefix k = true /\ bytes_leb start k = true)) as Hno.
    { intros A HA. split; [done|]. intros (_ & E1 & E2). by rewrite E1, E2 in Ew. }
    apply Hno. unfold newest. rewrite (newest_none _ (map _ segs)), (newest_none _ (map _ (fss ++ [fs]))); [done| |].
    + intros xs (gs & <- & _)%list_elem_of_In%in_map_iff. rewrite (proj2 (mem_run_ok gs prefix start')). unfold start'. by rewrite start_max, Ew.
    + intros xs (g & <- & Hgi%list_elem_of_In)%list_elem_of_In%in_map_iff. eapply Forall_forall in Hsegs; [|exact Hgi].
      rewrite heads_get by (done || apply publish_lt_asc, (seg_ok_reads _ _ Hsegs) || apply Hsegs). by rewrite Hr.
Qed.
End Layers.

(* ------------------------------------------------------------------ *)
(** * Properties *)

(** C29: prefix scans refine the map.  In every reachable state the scan of a prefix from a
    start key succeeds and lists, in key order and once each, exactly the entries of the
    specification's map under the prefix from the start on, the map whose entries the
    point reads of the same state answer.  The prefix must not end in a 255 byte unless
    all its bytes are 255. *)
Theorem scan_refines_map {SHA : Sha256} cfg evs d prefix start :
  cfg_ok cfg -> reachable cfg evs d -> carry_free prefix = true ->
  exists (m : gmap bytes bytes) out, trace spec_step ∅ evs m /\ (forall k, get_inner (db_state d) k = Ok (m !! k)) /\
    scan_from (db_state d) prefix start = Ok out /\ keys_sorted out /\
    forall k v, (k, v) ∈ out <-> m !! k = Some v /\ starts_with prefix k = true /\ bytes_leb start k = true.
Proof.
  intros Hcfg Hr Hcf. destruct (reachable_inv cfg _ _ Hcfg Hr) as (m & Hm & Hi & _). destruct (inv_scan d m prefix start Hi Hcf) as (out & H1 & H2 & H3).
  exists m, out. split_and!; try done. intros k. exact (inv_get d m k Hi).
Qed.

Section Sample.
#[local] Existing Instance toy_sha.

Lemma scan_refines_map_witness :
  scan_from (db_state recovered) [x61] [x61] = Ok [([x61], [x31])] /\
  exists (m : gmap bytes bytes) out, trace spec_step ∅ sample_events m /\ scan_from (db_state recovered) [x61] [x61] = Ok out /\ keys_sorted out.
Proof.
  split; [vm_compute; reflexivity|].
  destruct (scan_refines_map sample_cfg sample_events recovered [x61] [x61] sample_cfg_ok sample_reachable eq_refl) as (m & out & H1 & _ & H2 & H3 & _).
  exists m, out. split; [exact H1|]. split; [exact H2 | exact H3].
Defined.

(** The scan of a prefix that ends in a 255 byte leaves the prefix.  The exclusive end
    of the range of the prefix 01 ff is 02 00, the carry's zero byte kept, and the key 02
    lies below it: once it is in a segment the scan of the prefix returns it.  From the
    memtable, which tests the prefix itself, it does not. *)
Theorem scan_leaves_prefix :
  let written := put sample_cfg [x02] [x31] (set_io [] opened) in
  let flushed := flush sample_cfg written.1 in
  prefix_end [x01; xff] = Some [x02; x00] /\ starts_with [x01; xff] [x02] = false /\
  flushed.2 = Ok tt /\
  scan (db_state written.1) [x01; xff] = Ok [] /\ scan (db_state flushed.1) [x01; xff] = Ok [([x02], [x31])].
Proof. cbv zeta. split_and!; vm_compute; reflexivity. Qed.
End Sample.
