(* ===== verification/DbLog.v ===== *)
(** crates/storage/aikoql-v2/src/db.rs, the replication log: the newest sequence, the frames
    since a sequence from the archive and the WAL, and the release of archive files. *)

From stdpp Require Import gmap.
From S2P Require Import Prelude Cursor Format Identity Placement Disk Checkpoint Wal WalFrames WalReplay WalReader Memtable Segment SegmentBlock SegmentLookup SegmentFile SegmentQueries SegmentProps Compaction CompactionMerge CompactionProps DbState Db DbOpen DbLayers DbWp DbInv DbRecover DbFlush DbWrite DbCompact DbProps.

Section Log.
Context {SHA : Sha256}.

(** [rlog_files]: the archive files by first sequence, oldest first. *)
Definition rlog_seq (n : FileName) : option Z := match n with FRlog s => Some s | _ => None end.
Definition rlog_files (dir : Dir) : list Z := family_gens rlog_seq (fun _ => true) dir.

(** [last_seq]. *)
Definition last_seq (s : State) : Z := st_next_seq s - 1.

(** The inner loop of [log_since]: what is collected, the last sequence seen, and whether
    [max] is reached. *)
Fixpoint take_frames (max : Z) (out : list WalFrame) (last : Z) (frames : list WalFrame) : Result (list WalFrame * Z * bool) :=
  match frames with
  | [] => Ok (out, last, false)
  | f :: frames =>
      if frame_seq f <=? last then take_frames max out last frames
      else if negb (frame_seq f =? last + 1) then Err (Invalid "replication log gap (re-bootstrap the follower)")
      else
        let out := out ++ [f] in
        if max <=? zlen out then Ok (out, frame_seq f, true) else take_frames max out (frame_seq f) frames
  end.

(** Its outer loop, over the sources. *)
Fixpoint take_sources (max : Z) (out : list WalFrame) (last : Z) (sources : list bytes) : Result (list WalFrame) :=
  match sources with
  | [] => Ok out
  | bs :: sources =>
      '(frames, _) ← replay_frames bs;
      '(out, last, full) ← take_frames max out last frames;
      if (full : bool) then Ok out else take_sources max out last sources
  end.

(** [log_since]: the archive, then the WAL. *)
Definition log_sources (cfg : Config) (d : Db) : Result (list bytes) :=
  archive ← (if retain_log cfg
             then fold_result (fun l s => bs ← read_file (db_dir d) (FRlog s); Ok (l ++ [bs])) [] (rlog_files (db_dir d))
             else Ok []);
  Ok (archive ++ [db_wal d]).
Definition log_since (cfg : Config) (d : Db) (after max : Z) : Result (list WalFrame) :=
  let next := last_seq (db_state d) + 1 in
  sources ← log_sources cfg d;
  out ← take_sources max [] after sources;
  match out with
  | [] => if (after + 1) mod U64 <? next then Err (Invalid "replication log gap: frames are no longer held") else Ok []
  | _ => Ok out
  end.

(** [remove_file] where the caller stops on an error. *)
Definition remove_or_stop (n : FileName) : M unit :=
  o ← next_io;
  match o with
  | IoOk => modify_db (upd_dir (base.delete n))
  | IoFail _ => throw (Io "release")
  end.

(** [release_log]: a file goes when the next one starts at or below [upto + 1]. *)
Fixpoint release_pairs (upto : Z) (files : list Z) : M unit :=
  match files with
  | a :: ((b :: _) as files) =>
      _ ← when (b <=? (upto + 1) mod U64) (remove_or_stop (FRlog a));
      release_pairs upto files
  | _ => mret tt
  end.
Definition release_log (upto : Z) : M unit :=
  d ← get_db;
  release_pairs upto (rlog_files (db_dir d)).
End Log.

(* ================================================================== *)
(** The history of a database that retains its log: the batches committed since the
    directory was created, numbered from one.  What the archive files, the WAL and the
    segments hold of it, through writes, flushes, crashes and recovery. *)

(* ------------------------------------------------------------------ *)
(** * Histories *)

(** A history is a specification: a batch is added at its end, and its map is the effect of
    its batches in order. *)
Abbreviation history := (list (list Op)).
#[global] Instance history_spec : Spec history.
Proof.
  refine {| spec_map h := group_effect (∅ : gmap bytes bytes) h; spec_batch h ops := h ++ [ops] |}.
  intros h ops. unfold group_effect. by rewrite fold_left_app.
Defined.

(** Its frames. *)
Definition frames_of (h : history) : list WalFrame := group_frames 1 h.

Lemma length_group_frames h : forall n, length (group_frames n h) = length h.
Proof. induction h as [|ops h IH]; intros n; cbn; [done|]. by rewrite IH. Qed.
Lemma group_frames_app h h' : forall n, group_frames n (h ++ h') = group_frames n h ++ group_frames (n + zlen h) h'.
Proof.
  induction h as [|ops h IH]; intros n; cbn [app group_frames]; [by rewrite zlen_nil, Z.add_0_r|]. rewrite IH, zlen_cons.
  by replace (n + 1 + zlen h) with (n + (1 + zlen h)) by lia.
Qed.
Lemma group_frames_lookup h : forall n (i : nat) f,
  group_frames n h !! i = Some f -> frame_seq f = n + Z.of_nat i /\ h !! i = Some (frame_ops f).
Proof.
  induction h as [|ops h IH]; intros n [|i] f; cbn; try done.
  - intros [= <-]. cbn. split; [lia | done].
  - intros H. apply IH in H as [-> Hh]. split; [lia | exact Hh].
Qed.
Lemma length_frames_of h : length (frames_of h) = length h.
Proof. apply length_group_frames. Qed.
Lemma frames_of_snoc h ops : frames_of (h ++ [ops]) = frames_of h ++ [mkWalFrame (zlen h + 1) ops].
Proof. unfold frames_of. rewrite group_frames_app. cbn. by replace (1 + zlen h) with (zlen h + 1) by lia. Qed.
Lemma frames_of_lookup h (i : nat) f : frames_of h !! i = Some f -> frame_seq f = Z.of_nat i + 1 /\ h !! i = Some (frame_ops f).
Proof. intros [-> ?]%group_frames_lookup. split; [lia | done]. Qed.
Lemma frames_of_seq h f : f ∈ frames_of h -> 1 <= frame_seq f <= zlen h.
Proof.
  intros [i Hi]%list_elem_of_lookup. pose proof (lookup_lt_Some _ _ _ Hi) as Hl. rewrite length_frames_of in Hl.
  apply frames_of_lookup in Hi as [-> _]. unfold zlen. lia.
Qed.

(** The frames numbered [s] to [s + n - 1]. *)
Definition slice (s : Z) (n : nat) (fs : list WalFrame) : list WalFrame := take n (drop (Z.to_nat (s - 1)) fs).
Lemma slice_app s n fs fs' : s + Z.of_nat n <= zlen fs + 1 -> 1 <= s -> slice s n (fs ++ fs') = slice s n fs.
Proof.
  intros Hn Hs. unfold slice, zlen in *. rewrite drop_app, take_app_le; [done|]. rewrite length_drop. lia.
Qed.

(* ------------------------------------------------------------------ *)
(** * The archive *)

Section Track.
Context {SHA : Sha256} (released : Z).

(** The archive files hold the slices [arch] of the history: apart from each other, up to
    the WAL's first frame (only a file that starts there may reach into the WAL, after a
    crash between archiving and truncating), and covering what was not released. *)
Record archive_of (dir : Dir) (h : history) (k : nat) (arch : gmap Z nat) : Prop := {
  ar_files s : match arch !! s with
    | Some n => exists bs, dir !! FRlog s = Some bs /\ encode_stream (slice s n (frames_of h)) = Ok bs
    | None => dir !! FRlog s = None
    end;
  ar_bounds s n : arch !! s = Some n ->
    1 <= s <= Z.of_nat k + 1 /\ s + Z.of_nat n <= zlen h + 1 /\ (s <= Z.of_nat k -> s + Z.of_nat n <= Z.of_nat k + 1);
  ar_apart s n s' n' : arch !! s = Some n -> arch !! s' = Some n' -> s < s' -> s + Z.of_nat n <= s';
  ar_covers i : released < i <= Z.of_nat k -> exists s n, arch !! s = Some n /\ s <= i < s + Z.of_nat n }.

(** The WAL holds the history from frame [k + 1] on, the segments reach at least [k]. *)
Record log_holds (dir : Dir) (segs : list Seg) (fs : list WalFrame) (h : history) (k : nat) (arch : gmap Z nat) : Prop := {
  lh_wal : fs = drop k (frames_of h);
  lh_k : (k <= length h)%nat;
  lh_good : frames_good (frames_of h);
  lh_hi : Z.of_nat k <= max_hi segs <= zlen h;
  lh_archive : archive_of dir h k arch }.

#[local] Instance log_track : Track history := {|
  tracks dir segs fs h := exists k arch, log_holds dir segs fs h k arch;
  numbered h n := n = zlen h + 1 |}.

Lemma archive_of_dir dir dir' h k arch :
  (forall n, dir' !! FRlog n = dir !! FRlog n) -> archive_of dir h k arch -> archive_of dir' h k arch.
Proof. intros E [H1 H2 H3 H4]. split; try done. intros s. rewrite E. apply H1. Qed.
Lemma archive_of_snoc dir h k arch ops : archive_of dir h k arch -> archive_of dir (h ++ [ops]) k arch.
Proof.
  intros [H1 H2 H3 H4]. split; try done.
  - intros s. specialize (H1 s). destruct (arch !! s) as [n|] eqn:E; [|done]. destruct (H2 s n E) as (B1 & B2 & _).
    rewrite frames_of_snoc, slice_app; [done | unfold zlen in *; rewrite length_frames_of; lia | lia].
  - intros s n E. destruct (H2 s n E) as (B1 & B2 & B3). rewrite zlen_app, zlen_cons, zlen_nil. split_and!; [lia.. | done].
Qed.
(** Archiving the WAL's frames, before and after they leave it. *)
Lemma archive_of_wal dir h k arch bs k' :
  archive_of dir h k arch -> (k < length h)%nat -> encode_stream (drop k (frames_of h)) = Ok bs -> k' = k \/ k' = length h ->
  archive_of (<[FRlog (Z.of_nat k + 1) := bs]> dir) h k' (<[Z.of_nat k + 1 := (length h - k)%nat]> arch).
Proof.
  intros [H1 H2 H3 H4] Hk Hb Hk'. split.
  - intros s. destruct (decide (s = Z.of_nat k + 1)) as [->|Hs].
    + rewrite lookup_insert_eq. exists bs. rewrite lookup_insert_eq. split; [done|]. unfold slice.
      replace (Z.to_nat (Z.of_nat k + 1 - 1)) with k by lia. by rewrite take_ge by (rewrite length_drop, length_frames_of; lia).
    + rewrite !lookup_insert_ne by congruence. apply H1.
  - intros s n [[<- <-]|[Hs E]]%lookup_insert_Some; [unfold zlen; lia|]. destruct (H2 s n E) as (B1 & B2 & B3). unfold zlen in *. lia.
  - intros s n s' n' [[<- <-]|[Hs E]]%lookup_insert_Some [[<- <-]|[Hs' E']]%lookup_insert_Some Hlt; [lia | | | by eapply H3].
    + destruct (H2 s' n' E') as (B1 & _). lia.
    + destruct (H2 s n E) as (B1 & _ & B3). lia.
  - intros i Hi. destruct (decide (i <= Z.of_nat k)) as [Hik|Hik].
    + destruct (H4 i ltac:(lia)) as (s & n & E & Hin). exists s, n. split; [|done]. rewrite lookup_insert_ne; [done|].
      destruct (H2 s n E). lia.
    + exists (Z.of_nat k + 1), (length h - k)%nat. split; [by rewrite lookup_insert_eq|]. lia.
Qed.

(* ------------------------------------------------------------------ *)
(** * The segments' highest sequence *)

Lemma fold_max_init l : forall a b, fold_left Z.max l (Z.max a b) = Z.max (fold_left Z.max l a) b.
Proof. induction l as [|x l IH]; intros a b; cbn; [done|]. rewrite <-IH. f_equal. lia. Qed.
Lemma max_hi_app segs new : max_hi (segs ++ new) = Z.max (max_hi segs) (max_hi new).
Proof.
  unfold max_hi. rewrite !map_app, fold_left_app. generalize (map seq_hi (map sg_rec segs)), (map seq_hi (map sg_rec new)). intros l l'.
  pose proof (fold_max_spec l 0) as [H0 _]. rewrite <-(Z.max_r 0 (fold_left Z.max l 0)) at 1 by done. rewrite fold_max_init. lia.
Qed.
Lemma max_hi_bound segs b : 0 <= b -> (forall g, g ∈ segs -> seq_hi (sg_rec g) <= b) -> max_hi segs <= b.
Proof.
  intros Hb Hs. unfold max_hi. assert (forall a, a <= b -> fold_left Z.max (map seq_hi (map sg_rec segs)) a <= b) as H; [|by apply H].
  induction segs as [|g segs IH]; intros a Ha; cbn; [done|]. pose proof (Hs g ltac:(set_solver)). apply IH; [set_solver | lia].
Qed.
Lemma max_hi_ge segs g : g ∈ segs -> seq_hi (sg_rec g) <= max_hi segs.
Proof.
  intros Hg. unfold max_hi. destruct (fold_max_spec (map seq_hi (map sg_rec segs)) 0) as [_ H]. eapply Forall_forall in H; [exact H|].
  apply list_elem_of_In, in_map, in_map, list_elem_of_In, Hg.
Qed.

(** Segments flushed from frames reach exactly the last of them. *)
Lemma frame_has_row fs f : frames_good fs -> f ∈ fs -> exists e, e ∈ frames_rows fs /\ se_seq e = frame_seq f.
Proof.
  intros Hg Hf. pose proof (proj1 (Forall_forall _ _) (fsg_each _ Hg) f Hf) as [_ Hn Ho].
  destruct (last_says_some (frame_ops f)) as (x & y & Hl); [done | eapply Forall_impl; [exact Ho|]; by intros ? [? _]|].
  exists (mem_row x (frame_seq f) y). split; [apply frames_rows_elem; [done|]; by exists f, x, y | apply mem_row_fields].
Qed.
Lemma seg_hi dir g : seg_ok dir g -> seq_hi (sg_rec g) = sr_seq_hi (sg_reader g).
Proof. intros Hg. by rewrite (so_rec _ _ Hg). Qed.
Lemma flushed_hi dir new fss b :
  Forall (seg_ok dir) new -> map sg_rows new = map (fun fs => frames_rows fs) fss -> frames_good (concat fss) -> 0 <= b ->
  (forall f, f ∈ concat fss -> frame_seq f <= b) -> max_hi new <= b /\ forall f, f ∈ concat fss -> frame_seq f <= max_hi new.
Proof.
  intros Hs Hr Hg Hb Hf. rewrite Forall_forall in Hs. pose proof (frames_good_concat _ Hg) as Hgs. rewrite Forall_forall in Hgs. split.
  - apply max_hi_bound; [done|]. intros g Hgi. rewrite (seg_hi dir) by auto. destruct (rd_hi _ _ (seg_ok_reads _ _ (Hs g Hgi))) as (e & He & <-).
    assert (sg_rows g ∈ map (fun fs => frames_rows fs) fss) as Hin by (rewrite <-Hr; apply list_elem_of_In, in_map, list_elem_of_In, Hgi).
    apply list_elem_of_In, in_map_iff in Hin as (fs & E & Hfs%list_elem_of_In). rewrite <-E in He.
    apply frames_rows_seq in He as (f & Hff & ->); [|by apply Hgs]. apply Hf, elem_of_concat. eauto.
  - intros f (fs & Hfs & Hff)%elem_of_concat. destruct (frame_has_row fs f (Hgs fs Hfs) Hff) as (e & He & <-).
    assert (frames_rows fs ∈ map sg_rows new) as Hin by (rewrite Hr; apply (list_elem_of_fmap_2 (fun fs => frames_rows fs)), Hfs).
    apply list_elem_of_In, in_map_iff in Hin as (g & E & Hgi%list_elem_of_In). rewrite <-E in He.
    pose proof (rd_seq _ _ (seg_ok_reads _ _ (Hs g Hgi)) e He) as Hle. rewrite <-(seg_hi dir) in Hle by auto. pose proof (max_hi_ge new g Hgi). lia.
Qed.

(* ------------------------------------------------------------------ *)
(** * The laws of tracking *)

Lemma log_batch dir segs fs h k arch n ops :
  log_holds dir segs fs h k arch -> n = zlen h + 1 -> 0 <= n < U64 -> Forall op_good ops -> ops <> [] ->
  log_holds dir segs (fs ++ [mkWalFrame n ops]) (h ++ [ops]) k arch.
Proof.
  intros [-> Hk Hg Hh Ha] -> Hn Ho Hne. pose proof (zlen_nonneg h). split.
  - rewrite frames_of_snoc, drop_app_le; [done|]. by rewrite length_frames_of.
  - rewrite length_app. lia.
  - rewrite frames_of_snoc. apply frames_good_app. split_and!; [done | split; [by constructor | repeat constructor]|].
    intros f g Hf ->%list_elem_of_singleton. apply frames_of_seq in Hf. cbn. lia.
  - rewrite zlen_app, zlen_cons, zlen_nil. lia.
  - by apply archive_of_snoc.
Qed.

(** The WAL's frames: from [k + 1] to the end. *)
Lemma wal_seqs h k f : f ∈ drop k (frames_of h) -> Z.of_nat k < frame_seq f <= zlen h.
Proof.
  intros [i Hi]%list_elem_of_lookup. rewrite lookup_drop in Hi. pose proof (frames_of_seq h f ltac:(by eapply list_elem_of_lookup_2)).
  apply frames_of_lookup in Hi as [E _]. lia.
Qed.
Lemma wal_last h k : (k < length h)%nat -> exists f, f ∈ drop k (frames_of h) /\ frame_seq f = zlen h.
Proof.
  intros Hk. destruct (lookup_lt_is_Some_2 (frames_of h) (pred (length h))) as [f Hf]; [rewrite length_frames_of; lia|].
  exists f. split.
  - apply list_elem_of_lookup. exists (pred (length h) - k)%nat. rewrite lookup_drop. rewrite <-Hf. f_equal. lia.
  - apply frames_of_lookup in Hf as [-> _]. unfold zlen. lia.
Qed.
Lemma wal_first h k : (k < length h)%nat -> exists f fs, drop k (frames_of h) = f :: fs /\ frame_seq f = Z.of_nat k + 1.
Proof.
  intros Hk. destruct (lookup_lt_is_Some_2 (frames_of h) k) as [f Hf]; [by rewrite length_frames_of|].
  exists f, (drop (S k) (frames_of h)). split; [by apply drop_S|]. by apply frames_of_lookup in Hf as [-> _].
Qed.

Lemma log_flush cfg dir segs new fss wal h :
  retain_log cfg = true -> frames_good (concat fss) -> encode_stream (concat fss) = Ok wal ->
  map sg_rows new = map (fun fs => frames_rows fs) fss -> Forall (seg_ok dir) new -> tracks dir segs (concat fss) h ->
  let dir' := archived cfg dir (concat fss) wal in
  tracks dir (segs ++ new) (concat fss) h /\ tracks dir' (segs ++ new) (concat fss) h /\ tracks dir' (segs ++ new) [] h.
Proof.
  intros Hc Hg He Hr Hs (k & arch & [Hw Hk Hgood Hh Ha]) dir'. pose proof (zlen_nonneg h).
  destruct (flushed_hi dir new fss (zlen h) Hs Hr Hg ltac:(lia)) as [Hb1 Hb2]; [rewrite Hw; intros f Hf%wal_seqs; lia|].
  assert (drop (length h) (frames_of h) = []) as Ed by (apply drop_ge; by rewrite length_frames_of).
  split; [exists k, arch; split; try done; rewrite max_hi_app; lia|]. destruct (decide (k = length h)) as [->|Hlt].
  - assert (dir' = dir) as -> by (unfold dir', archived; by rewrite Hw, Ed).
    split; exists (length h), arch; split; try done; rewrite max_hi_app; unfold zlen in *; lia.
  - destruct (wal_first h k ltac:(lia)) as (f & fs & Ef & Es). assert (dir' = <[FRlog (Z.of_nat k + 1) := wal]> dir) as ->.
    { unfold dir', archived. rewrite Hw, Ef, Hc. by rewrite Es. }
    destruct (wal_last h k ltac:(lia)) as (z & Hz & Ez). rewrite <-Hw in Hz. specialize (Hb2 z Hz). rewrite Hw in He.
    split; [exists k | exists (length h)]; eexists; (split; [done || by rewrite Ed | lia | done | rewrite max_hi_app; unfold zlen in *; lia|]);
      (eapply archive_of_wal; [exact Ha | lia | done | by (left + right)]).
Qed.

Lemma log_resume segs h k dir arch : log_holds dir segs (drop k (frames_of h)) h k arch -> resume_seq segs (drop k (frames_of h)) = zlen h + 1.
Proof.
  intros [_ Hk _ Hh _]. unfold resume_seq. destruct (replay_max_spec (drop k (frames_of h)) 0) as [Hm0 Hm]. rewrite Forall_forall in Hm.
  assert (replay_max 0 (drop k (frames_of h)) <= zlen h) as Hle.
  { assert (forall a fs, a <= zlen h -> (forall f, f ∈ fs -> frame_seq f <= zlen h) -> replay_max a fs <= zlen h) as H.
    { intros a fs. revert a. induction fs as [|f fs IH]; intros a Hz Hf; [done|]. unfold replay_max in *. cbn. pose proof (Hf f ltac:(set_solver)).
      apply IH; [lia | set_solver]. }
    apply H; [apply zlen_nonneg | intros f Hf%wal_seqs; lia]. }
  destruct (decide (k = length h)) as [->|Hlt]; [unfold zlen in *; lia|]. destruct (wal_last h k ltac:(lia)) as (z & Hz & Ez). specialize (Hm z Hz). lia.
Qed.

Lemma log_track_laws cfg : retain_log cfg = true -> TrackLaws cfg history.
Proof.
  intros Hc. split.
  - intros dir dir' segs fs h E (k & arch & [H1 H2 H3 H4 H5]). exists k, arch. split; try done. by eapply archive_of_dir.
  - intros dir segs fs h n ops (k & arch & H) Hn Hu Ho Hne. cbn in Hn. split; [exists k, arch; by apply log_batch|].
    cbn. rewrite zlen_app, zlen_cons, zlen_nil. lia.
  - intros. by apply log_flush.
  - intros dir gen segs fs h _ _ (k & arch & H). cbn. pose proof (lh_wal _ _ _ _ _ _ H) as ->. by eapply log_resume.
Qed.
End Track.
