(* ===== verification/DbReplica.v ===== *)
(** Replication: what [log_since] serves of a leader's history, the release of archive
    files, and a follower that applies what is served. *)

From stdpp Require Import gmap.
From S2P Require Import Prelude Cursor Format Identity Placement Disk Checkpoint Wal WalFrames WalReplay WalReader.
From S2P Require Import Memtable Segment SegmentBlock SegmentLookup SegmentFile SegmentQueries SegmentProps Compaction.
From S2P Require Import CompactionMerge CompactionProps DbState Db DbOpen DbLayers DbWp DbInv DbRecover.
From S2P Require Import DbFlush DbWrite DbCompact DbProps DbLog.

(* ------------------------------------------------------------------ *)
(** * Serving frames *)

(** How many frames a request gets: [max], but never none. *)
Definition quota (max : Z) : nat := Z.to_nat (Z.max 1 max).

Section Serve.
Context {SHA : Sha256} (all : list WalFrame) (Hall : forall (i : nat) f, all !! i = Some f -> frame_seq f = Z.of_nat i + 1).
Context (after : nat) (max : Z).

(** A slice that starts at or before the next frame to serve is walked to its end or to
    the quota. *)
Lemma take_frames_slice n : forall a last out,
  (a <= last <= length all)%nat -> (a + n <= length all)%nat -> (after <= last)%nat ->
  out = take (last - after) (drop after all) -> (length out < quota max)%nat ->
  let e := Nat.max last (a + n) in
  take_frames max out (Z.of_nat last) (take n (drop a all)) =
  if decide (e - after < quota max)%nat then Ok (take (e - after) (drop after all), Z.of_nat e, false)
  else Ok (take (quota max) (drop after all), Z.of_nat (after + quota max), true).
Proof.
  induction n as [|n IH]; intros a last out Hal Han Hl Eo Hq e.
  { assert (e = last) as -> by lia. cbn. rewrite decide_True; [by subst|]. subst out. rewrite length_take, length_drop in Hq. lia. }
  destruct (lookup_lt_is_Some_2 all a ltac:(lia)) as [f Hf]. rewrite (drop_S _ _ _ Hf). cbn [take take_frames].
  rewrite (Hall a f Hf). destruct (decide (a < last)%nat) as [Hlt|Hge].
  - rewrite (proj2 (Z.leb_le _ _)) by lia. rewrite (IH (S a) last out) by (done || lia). unfold e. by replace (S a + n)%nat with (a + S n)%nat by lia.
  - assert (a = last) as -> by lia. rewrite (proj2 (Z.leb_gt _ _)) by lia. rewrite Z.eqb_refl. cbn [negb].
    assert (out ++ [f] = take (S last - after) (drop after all)) as Eo'.
    { rewrite Eo. replace (S last - after)%nat with (S (last - after)) by lia. symmetry. apply take_S_r. rewrite lookup_drop. rewrite <-Hf. f_equal. lia. }
    assert (length (out ++ [f]) = S last - after)%nat as El by (rewrite Eo', length_take, length_drop; lia).
    rewrite length_app in El. cbn in El. replace (Z.of_nat last + 1) with (Z.of_nat (S last)) by lia.
    destruct (Z.leb_spec max (zlen (out ++ [f]))) as [Hm|Hm]; unfold zlen in Hm; rewrite length_app in Hm; cbn in Hm; unfold quota in *.
    + rewrite decide_False by lia. assert (Z.to_nat (Z.max 1 max) = S last - after)%nat as -> by lia. rewrite Eo'. repeat f_equal. lia.
    + rewrite (IH (S last) (S last) (out ++ [f])) by (done || lia || (rewrite length_app; cbn; lia)). unfold e.
      by replace (Nat.max (S last) (S last + n)) with (Nat.max last (last + S n)) by lia.
Qed.

(** The sources as slices: in order of their starts, and covering what is to be served. *)
Lemma take_sources_slices srcs : forall last out bss,
  Forall2 (fun x bs => exists n, replay_frames bs = Ok (take x.2 (drop x.1 all), n)) srcs bss ->
  StronglySorted (fun x y : nat * nat => x.1 <= y.1)%nat srcs -> Forall (fun x => x.1 + x.2 <= length all)%nat srcs ->
  (forall i, last <= i < length all -> exists x, x ∈ srcs /\ x.1 <= i < x.1 + x.2)%nat ->
  (after <= last <= length all)%nat -> out = take (last - after) (drop after all) -> (length out < quota max)%nat ->
  take_sources max out (Z.of_nat last) bss = Ok (take (quota max) (drop after all)).
Proof.
  induction srcs as [|[a n] srcs IH]; intros last out bss HF Hs Hb Hcov Hl Eo Hq; inversion HF as [|? ? ? ? (m & Hr) HF']; subst bss; cbn [take_sources].
  - assert (last = length all) as -> by (destruct (decide (last < length all)%nat) as [Hlt|]; [|lia]; destruct (Hcov last ltac:(lia)) as (x & Hx & _); by apply not_elem_of_nil in Hx).
    f_equal. rewrite Eo in *. rewrite length_take, length_drop in Hq. rewrite !take_ge by (rewrite length_drop; lia). done.
  - subst. apply StronglySorted_inv in Hs as [Hs Hsa]. apply Forall_cons_1 in Hb as [Han Hb]. cbn [fst snd] in *. rewrite Forall_forall in Hsa.
    assert (a <= last)%nat as Ha.
    { destruct (decide (last < length all)%nat) as [Hlt|]; [|lia]. destruct (Hcov last ltac:(lia)) as (x & [->|Hx]%elem_of_cons & Hin); [cbn in Hin; lia|].
      specialize (Hsa x Hx). lia. }
    rewrite Hr. cbn [mbind Result_bind]. rewrite (take_frames_slice n a last _) by (done || lia).
    destruct (decide _) as [Hlt|Hge]; cbn [mbind Result_bind]; [|done]. apply IH; try done; try lia.
    + intros i Hi. destruct (Hcov i ltac:(lia)) as (x & [->|Hx]%elem_of_cons & Hin); [cbn in Hin; lia|]. by exists x.
    + rewrite length_take, length_drop. lia.
Qed.
End Serve.

(* ------------------------------------------------------------------ *)
(** * The log of a state *)

Lemma frames_good_take n fs : frames_good fs -> frames_good (take n fs).
Proof. intros Hg. rewrite <-(take_drop n fs) in Hg. by apply frames_good_app in Hg as (? & _). Qed.
Lemma frames_good_drop n fs : frames_good fs -> frames_good (drop n fs).
Proof. intros Hg. rewrite <-(take_drop n fs) in Hg. by apply frames_good_app in Hg as (_ & ? & _). Qed.
Lemma parses_rlog : parses rlog_seq FRlog.
Proof. intros [] g; cbn; split; congruence. Qed.
#[export] Hint Resolve parses_rlog : disk.
Section LogSince.
Context {SHA : Sha256} (cfg : Config) (released : Z) (Hcfg : retain_log cfg = true).
#[local] Existing Instance log_track.
Abbreviation linv := (@inv SHA history history_spec (log_track released)).

Lemma replay_whole fs wal : frames_good fs -> encode_stream fs = Ok wal -> exists n, replay_frames wal = Ok (fs, n).
Proof. intros Hg He. destruct (wal_holds_whole fs wal Hg He) as (_ & n & Hr & _). exists n. by apply replay_frames_spec. Qed.

Lemma read_archive dir files :
  Forall (fun s => is_Some (dir !! FRlog s)) files ->
  fold_result (fun l s => bs ← read_file dir (FRlog s); Ok (l ++ [bs])) [] files = Ok (map (fun s => default [] (dir !! FRlog s)) files).
Proof.
  intros Hf. assert (forall acc, fold_result (fun l s => bs ← read_file dir (FRlog s); Ok (l ++ [bs])) acc files = Ok (acc ++ map (fun s => default [] (dir !! FRlog s)) files)) as H; [|apply H].
  induction Hf as [|s files [bs Hs] _ IH]; intros acc; cbn [fold_result map]; [by rewrite app_nil_r|].
  assert (read_file dir (FRlog s) = Ok bs) as -> by (unfold read_file; by rewrite Hs). cbn [mbind Result_bind]. rewrite IH, Hs. by rewrite <-app_assoc.
Qed.

(** The sources of a state, as slices of its history. *)
Lemma log_slices d h :
  linv d h -> exists srcs bss, log_sources cfg d = Ok bss /\
    Forall2 (fun x bs => exists n, replay_frames bs = Ok (take x.2 (drop x.1 (frames_of h)), n)) srcs bss /\
    StronglySorted (fun x y : nat * nat => x.1 <= y.1)%nat srcs /\ Forall (fun x => x.1 + x.2 <= length (frames_of h))%nat srcs /\
    forall i : nat, released <= Z.of_nat i -> (i < length (frames_of h))%nat -> exists x, x ∈ srcs /\ (x.1 <= i < x.1 + x.2)%nat.
Proof.
  intros (segs & fss & fs & [Hst Hd Hw Hg [_ (k & arch & [Ew Hk Hgd Hh [A1 A2 A3 A4]])] _ _ _]). rewrite length_frames_of.
  set (files := rlog_files (db_dir d)).
  assert (forall s, s ∈ files -> exists n bs, arch !! s = Some n /\ db_dir d !! FRlog s = Some bs /\ encode_stream (slice s n (frames_of h)) = Ok bs) as Hfiles.
  { intros s [_ [bs Hs]]%(elem_of_family_gens _ _ _ _ _ parses_rlog). specialize (A1 s). destruct (arch !! s) as [n|]; [|congruence].
    destruct A1 as (bs' & H1 & H2). exists n, bs'. done. }
  set (src := fun s => (Z.to_nat (s - 1), default 0%nat (arch !! s))). exists (map src files ++ [(k, length h - k)%nat]).
  exists (map (fun s => default [] (db_dir d !! FRlog s)) files ++ [db_wal d]). split_and!.
  - unfold log_sources. rewrite Hcfg. fold files. rewrite read_archive; [done|]. apply Forall_forall. intros s Hs.
    destruct (Hfiles s Hs) as (n & bs & _ & -> & _). eauto.
  - apply Forall2_app; [|constructor; [|constructor]].
    + clear -Hfiles Hgd. induction files as [|s files IH]; cbn; constructor; [|apply IH; intros; apply Hfiles; set_solver].
      destruct (Hfiles s ltac:(set_solver)) as (n & bs & E1 & E2 & E3). unfold src. cbn. rewrite E1, E2. cbn.
      apply (replay_whole (slice s n (frames_of h))); [by apply frames_good_take, frames_good_drop | done].
    + cbn. rewrite take_ge by (rewrite length_drop, length_frames_of; lia). rewrite <-Ew. by apply replay_whole.
  - apply sorted_snoc; [eapply sorted_map; [apply (family_gens_sorted rlog_seq)|]; intros s t _ _ Hst'; cbn; lia|].
    apply Forall_map, Forall_forall. intros s Hs. destruct (Hfiles s Hs) as (n & bs & E & _). destruct (A2 s n E). cbn. lia.
  - apply Forall_app. split; [|constructor; [cbn; lia | done]]. apply Forall_map, Forall_forall. intros s Hs.
    destruct (Hfiles s Hs) as (n & bs & E & _). destruct (A2 s n E) as (B1 & B2 & _). unfold src. cbn. rewrite E. cbn. unfold zlen in B2. lia.
  - intros i Hi Hlt. destruct (decide (i < k)%nat) as [Hik|Hik].
    + destruct (A4 (Z.of_nat i + 1) ltac:(lia)) as (s & n & E & Hin). destruct (A2 s n E) as (B1 & _). exists (src s). split.
      * apply elem_of_app. left. apply list_elem_of_fmap. exists s. split; [done|]. apply (elem_of_family_gens _ _ _ _ _ parses_rlog).
        split; [done|]. specialize (A1 s). rewrite E in A1. destruct A1 as (bs & -> & _). eauto.
      * unfold src. rewrite E. cbn. lia.
    + exists (k, length h - k)%nat. split; [set_solver|]. cbn. lia.
Qed.

Lemma history_bounded dir segs fs h : @held history history_spec (log_track released) dir segs fs h -> zlen h < U64.
Proof.
  intros [_ (k & arch & [_ _ Hg _ _])]. destruct (decide (length h = 0%nat)) as [E|E]; [unfold zlen, U64; lia|].
  destruct (lookup_lt_is_Some_2 (frames_of h) (pred (length h))) as [f Hf]; [rewrite length_frames_of; lia|].
  pose proof (proj1 (Forall_forall _ _) (fsg_each _ Hg) f (list_elem_of_lookup_2 _ _ _ Hf)) as [Hs _ _].
  apply frames_of_lookup in Hf as [Es _]. unfold is_u64 in Hs. unfold zlen. lia.
Qed.

(** [log_since] serves the history from the requested sequence on. *)
Lemma inv_log_since d h after max :
  linv d h -> released <= after -> 0 <= after <= zlen h ->
  let out := take (quota max) (drop (Z.to_nat after) (frames_of h)) in
  log_since cfg d after max = Ok out \/ after + 1 = U64 /\ is_ok (log_since cfg d after max) = false.
Proof.
  intros Hi Hr Ha out. destruct (log_slices d h Hi) as (srcs & bss & Hs & HF & Hsort & Hb & Hcov).
  assert (take_sources max [] after bss = Ok out) as Ets.
  { replace after with (Z.of_nat (Z.to_nat after)) by lia.
    apply (take_sources_slices (frames_of h) (fun i f Hf => proj1 (frames_of_lookup h i f Hf)) (Z.to_nat after) max srcs); try done.
    - intros i Hin. apply Hcov; lia.
    - rewrite length_frames_of. unfold zlen in *. lia.
    - by rewrite Nat.sub_diag.
    - unfold quota. cbn. lia. }
  unfold log_since. rewrite Hs. cbn [mbind Result_bind]. rewrite Ets. cbn [mbind Result_bind].
  destruct out as [|f out'] eqn:E; [|by left]. destruct Hi as (? & ? & ? & [_ _ _ Hg Hh Hn _ _]). cbn in Hn.
  unfold last_seq. rewrite Hn. assert (after = zlen h) as ->.
  { apply (f_equal length) in E. unfold out in E. rewrite length_take, length_drop, length_frames_of in E. unfold quota in E. cbn in E. unfold zlen in *. lia. }
  replace (zlen h + 1 - 1 + 1) with (zlen h + 1) by lia. pose proof (history_bounded _ _ _ _ Hh) as Hu. destruct (decide (zlen h + 1 = U64)) as [E'|].
  - rewrite E', Z.mod_same by done. by right.
  - rewrite Z.mod_small by (pose proof (zlen_nonneg h); lia). rewrite Z.ltb_irrefl. by left.
Qed.
End LogSince.

(* ------------------------------------------------------------------ *)
(** * Releasing archive files *)

Lemma disk_ok_ext {SHA : Sha256} dir dir' gen segs :
  (forall n, (forall q, n <> FRlog q) -> dir' !! n = dir !! n) -> disk_ok dir gen segs -> disk_ok dir' gen segs.
Proof.
  intros E [H1 H2 H3 H4 H5 H6 H7]. split; try done.
  - by rewrite E.
  - by rewrite E.
  - eapply Forall_impl; [exact H6|]. intros g. apply seg_ok_dir. by apply E.
  - intros n Hn. rewrite E; [by apply H7|]. intros q ->. done.
Qed.

Section Release.
Context {SHA : Sha256}.
Abbreviation linv r := (@inv SHA history history_spec (log_track r)).

Lemma linv_weaken r r' d h : r <= r' -> linv r d h -> linv r' d h.
Proof.
  intros Hr (segs & fss & fs & [H1 H2 H3 H4 [H5 (k & arch & [L1 L2 L3 L4 [A1 A2 A3 A4]])] H6 H7 H8]).
  exists segs, fss, fs. split; try done. split; [done|]. exists k, arch. split; try done. split; try done. intros i Hi. apply A4. lia.
Qed.

(** A file below another that starts at or below [upto + 1] may go. *)
Lemma linv_delete upto d h a b :
  linv upto d h -> is_Some (db_dir d !! FRlog a) -> is_Some (db_dir d !! FRlog b) -> a < b <= upto + 1 ->
  linv upto (upd_dir (base.delete (FRlog a)) d) h.
Proof.
  intros (segs & fss & fs & [H1 H2 H3 H4 [H5 (k & arch & [L1 L2 L3 L4 [A1 A2 A3 A4]])] H6 H7 H8]) [ba Ha] [bb Hb] Hab.
  assert (exists nb, arch !! b = Some nb) as [nb Eb] by (specialize (A1 b); destruct (arch !! b); [eauto | congruence]).
  exists segs, fss, fs. destruct d as [s dir wal io fe wf cp]. cbn in *. split; cbn; try done.
  - eapply disk_ok_ext; [|exact H2]. intros n Hn. by rewrite lookup_delete_ne.
  - split; [done|]. exists k, (base.delete a arch). split; try done. split.
    + intros q. destruct (decide (q = a)) as [->|Hq]; [by rewrite !lookup_delete_eq|]. rewrite !lookup_delete_ne by congruence. apply A1.
    + intros q n [_ E]%lookup_delete_Some. by apply A2.
    + intros q n q' n' [_ E]%lookup_delete_Some [_ E']%lookup_delete_Some. by eapply A3.
    + intros i Hi. destruct (A4 i Hi) as (q & n & E & Hin). exists q, n. split; [|done]. apply lookup_delete_Some. split; [|done].
      intros ->. pose proof (A3 _ _ _ _ E Eb ltac:(lia)). lia.
Qed.

Lemma linv_io r d h io : linv r (upd_io (fun _ => io) d) h <-> linv r d h.
Proof. split; intros (segs & fss & fs & [H1 H2 H3 H4 H5 H6 H7 H8]); exists segs, fss, fs; by split. Qed.

Lemma wp_release_pairs upto r files h : forall d,
  0 <= upto <= r -> linv r d h -> StronglySorted Z.lt files -> Forall (fun q => is_Some (db_dir d !! FRlog q)) files ->
  wp (release_pairs upto files) (fun _ d' => linv r d' h) (fun d' => linv r d' h) d.
Proof.
  induction files as [|a [|b files] IH]; intros d H0 Hi Hs Hf; [by apply wp_ret..|]. cbn [release_pairs].
  apply StronglySorted_inv in Hs as [Hs Ha]. apply Forall_inv in Ha. apply Forall_cons_1 in Hf as [Hfa Hf]. pose proof (Forall_inv Hf) as Hfb.
  apply wp_bind. apply wp_when; [|intros _; by apply IH]. intros Hb. bool_to_prop. pose proof (Z.mod_le (upto + 1) U64 ltac:(lia) ltac:(unfold U64; lia)).
  assert (forall d', db_dir d' = base.delete (FRlog a) (db_dir d) -> linv r d' h ->
    wp (release_pairs upto (b :: files)) (fun _ d' => linv r d' h) (fun d' => linv r d' h) d') as Hrest.
  { intros d' E Hi'. apply IH; try done. rewrite E. apply StronglySorted_inv in Hs as [_ Hb']. rewrite Forall_forall in *. intros q Hq.
    rewrite lookup_delete_ne; [by apply Hf|]. intros [= ->]. apply elem_of_cons in Hq as [->|Hq]; [lia|]. specialize (Hb' q Hq). lia. }
  pose proof (linv_delete r d h a b Hi Hfa Hfb ltac:(lia)) as Hdel. unfold remove_or_stop. apply wp_bind. unfold wp, next_io.
  destruct d as [s dir wal [[|[|l] io] sy pe] fe wf cp]; cbn; [by apply Hrest | apply Hrest; [done|]|].
  - by apply (linv_io r _ h (mkIo io sy pe)) in Hdel.
  - by apply (linv_io r _ h (mkIo io sy pe)) in Hi.
Qed.

Lemma release_settled upto d : settled d -> settled (release_log upto d).1.
Proof.
  unfold release_log, mbind at 1, M_bind at 1. cbn [get_db]. generalize (rlog_files (db_dir d)). intros files. revert d.
  induction files as [|a [|b files] IH]; intros d Hd; [done..|]. cbn [release_pairs]. unfold mbind, M_bind, when. destruct (b <=? _); [|by apply IH].
  unfold remove_or_stop, mbind, M_bind. destruct (next_io_cases d) as [[-> _]|([|landed] & l & _ & ->)]; cbn; [by apply IH.. | exact Hd].
Qed.

(** [release_log], whatever its outcome, keeps every frame above [upto]. *)
Lemma wp_release r upto d h :
  0 <= upto -> linv r d h -> wp (release_log upto) (fun _ d' => linv (Z.max r upto) d' h) (fun d' => linv (Z.max r upto) d' h) d.
Proof.
  intros H0 Hi. unfold release_log. wp_steps. apply wp_release_pairs; [lia | eapply linv_weaken; [|exact Hi]; lia | |].
  - pose proof (family_gens_nodup rlog_seq FRlog (fun _ => true) (db_dir d) parses_rlog) as Hn.
    pose proof (family_gens_sorted rlog_seq (fun _ => true) (db_dir d)) as Hs. unfold rlog_files. induction Hs as [|x l Hs IH Hx]; [constructor|].
    apply NoDup_cons in Hn as [Hxn Hn]. constructor; [by apply IH|]. rewrite Forall_forall in *. intros y Hy. specialize (Hx y Hy).
    assert (x <> y) by (intros ->; done). lia.
  - apply Forall_forall. intros q Hq. by apply (elem_of_family_gens _ _ _ _ _ parses_rlog) in Hq as [_ ?].
Qed.
End Release.

(* ------------------------------------------------------------------ *)
(** * Histories grow *)

Lemma group_effect_history (h : history) group : group_effect h group = h ++ group.
Proof.
  unfold group_effect. revert h. induction group as [|ops group IH]; intros h; cbn [fold_left]; [by rewrite app_nil_r|].
  rewrite IH. cbn. by rewrite <-app_assoc.
Qed.
Lemma spec_step_grows (h : history) ev h' : spec_step h ev h' -> exists more, h' = h ++ more.
Proof.
  assert (exists more, h = h ++ more) as Hnil by (exists []; by rewrite app_nil_r).
  intros Hs. destruct Hs as [g c|g c g' Hsv|g]; [| |done].
  - destruct c; cbn; eauto. exists group. apply group_effect_history.
  - destruct c as [ops|group| | |]; cbn in Hsv; try by subst.
    + destruct Hsv as [->| ->]; cbn; eauto.
    + destruct Hsv as (k & _ & ->). exists (take k group). apply group_effect_history.
Qed.
Lemma trace_snoc {S} (step : S -> Event -> S -> Prop) s evs s1 ev s2 :
  trace step s evs s1 -> step s1 ev s2 -> trace step s (evs ++ [ev]) s2.
Proof. induction 1 as [s|s e s' es s1 H1 _ IH]; intros H2; cbn; econstructor; eauto; constructor. Qed.
Lemma frames_of_app h h' : exists fs, frames_of (h ++ h') = frames_of h ++ fs.
Proof. unfold frames_of. rewrite group_frames_app. eauto. Qed.

(* ------------------------------------------------------------------ *)
(** * A leader and a follower *)

Section Replication.
Context {SHA : Sha256} (leader follower : Config).

(** A follower's own events: it takes no writes of clients. *)
Definition maintenance (ev : Event) : Prop :=
  match ev with Acked CRotate | Crashed CRotate | Acked CFlush | Crashed CFlush | Killed => True | _ => False end.

(** A run of the two from empty directories: the leader's events so far, the leader, the
    frames it has served, and the follower.  Served frames arrive in any order and any
    number of times; either side crashes and recovers at any point; the leader releases
    what the follower has. *)
Inductive repl_run : list Event -> Db -> list WalFrame -> Db -> Prop :=
  | run_start dl df : reopened leader ∅ [] dl -> reopened follower ∅ [] df -> repl_run [] dl [] df
  | run_leader evs dl net df ev dl' :
      repl_run evs dl net df -> no_compact ev -> db_step leader dl ev dl' -> repl_run (evs ++ [ev]) dl' net df
  | run_follower evs dl net df ev df' :
      repl_run evs dl net df -> maintenance ev -> db_step follower df ev df' -> repl_run evs dl net df'
  | run_serve evs dl net df max frames :
      repl_run evs dl net df -> log_since leader dl (last_seq (db_state df)) max = Ok frames ->
      repl_run evs dl (net ++ frames) df
  | run_deliver evs dl net df f io q df' :
      repl_run evs dl net df -> f ∈ net ->
      (frame_seq f = st_next_seq (db_state df) -> cmd_ready follower (CWrite (frame_ops f)) (db_state df)) ->
      apply_replicated follower (frame_seq f) (frame_ops f) (set_io io df) = (df', Ok q) -> repl_run evs dl net df'
  | run_deliver_crash evs dl net df f io d1 e wal1 df' :
      repl_run evs dl net df -> f ∈ net ->
      (frame_seq f = st_next_seq (db_state df) -> cmd_ready follower (CWrite (frame_ops f)) (db_state df)) ->
      apply_replicated follower (frame_seq f) (frame_ops f) (set_io io df) = (d1, Err e) ->
      lost follower d1 wal1 -> reopened follower (db_dir d1) wal1 df' -> repl_run evs dl net df'
  | run_release evs dl net df upto io dl' r :
      repl_run evs dl net df -> 0 <= upto <= last_seq (db_state df) -> release_log upto (set_io io dl) = (dl', r) ->
      repl_run evs dl' net df.

(** Both retain their log; the follower syncs every frame. *)
Record repl_cfg : Prop := {
  rc_leader : cfg_ok leader; rc_follower : cfg_ok follower;
  rc_retain : retain_log leader = true; rc_retain' : retain_log follower = true;
  rc_sync : durability follower = Sync }.
Context (Hcfg : repl_cfg).
Abbreviation linv r := (@inv SHA history history_spec (log_track r)).

Lemma fresh_history : @durable SHA history history_spec (log_track 0) ∅ [] [].
Proof.
  left. split_and!; try done. split; [apply content_empty|]. exists 0%nat, ∅. split; cbn; try done.
  - split; constructor.
  - split; cbn; try done. intros i Hi. lia.
Qed.

Lemma run_get_db {A} (f : Db -> M A) d : (get_db ≫= f) d = f d d.
Proof. done. Qed.

(** [apply_replicated]: the next frame is a write, any other changes nothing. *)
Lemma apply_next d ops :
  db_fenced d = None -> apply_replicated follower (st_next_seq (db_state d)) ops d = write follower ops d.
Proof.
  intros Hf. unfold apply_replicated, write, write_at. rewrite (rc_sync Hcfg), bool_decide_eq_true_2 by done. cbn [negb].
  destruct ops as [|o ops]; [done|]. destruct (existsb _ _); [done|]. by rewrite !run_get_db, Hf, Z.ltb_irrefl, bool_decide_eq_false_2 by done.
Qed.
Lemma apply_other d seq ops : seq <> st_next_seq (db_state d) -> (apply_replicated follower seq ops d).1 = d.
Proof.
  intros Hs. unfold apply_replicated, write_at. rewrite (rc_sync Hcfg), bool_decide_eq_true_2 by done. cbn [negb].
  destruct ops as [|o ops]; [done|]. destruct (existsb _ _); [done|]. rewrite run_get_db. destruct (seq <? _) eqn:E1; [done|]. destruct (_ <? seq) eqn:E2; [done|].
  bool_to_prop. lia.
Qed.

(** The follower holds a prefix of the leader's history, nothing beyond it was released,
    and every served frame is of the history. *)
Record repl_inv (evs : list Event) (dl : Db) (net : list WalFrame) (df : Db) (h : history) (n : nat) (r : Z) : Prop := {
  ri_trace : trace spec_step [] evs h;
  ri_leader : linv r dl h;
  ri_follower : linv 0 df (take n h);
  ri_synced : synced leader dl /\ synced follower df;
  ri_n : (n <= length h)%nat;
  ri_released : 0 <= r <= Z.of_nat n;
  ri_net : forall f, f ∈ net -> f ∈ frames_of h }.

Lemma linv_next r d h : linv r d h -> st_next_seq (db_state d) = zlen h + 1 /\ db_fenced d = None.
Proof. intros (? & ? & ? & [_ _ _ _ _ Hn Hf _]). done. Qed.
Lemma ri_next evs dl net df h n r : repl_inv evs dl net df h n r -> last_seq (db_state df) = Z.of_nat n.
Proof.
  intros [_ _ Hf _ Hn _ _]. apply linv_next in Hf as [Hf _]. unfold last_seq. rewrite Hf. unfold zlen. rewrite length_take. lia.
Qed.
Lemma history_step r cfg d ev d' h :
  cfg_ok cfg -> retain_log cfg = true -> linv r d h -> synced cfg d -> no_compact ev -> db_step cfg d ev d' -> exists h', spec_step h ev h' /\ linv r d' h' /\ synced cfg d'.
Proof.
  intros Hc Hr Hi Hy Hn Hs. pose proof (log_track_laws r cfg Hr) as HL. eapply (@step_simulates SHA cfg history history_spec (log_track r) HL d ev d' h); [done | done | done | done | by right].
Qed.
Lemma history_reopened r cfg dir wal d h :
  cfg_ok cfg -> retain_log cfg = true -> @durable SHA history history_spec (log_track r) dir wal h -> reopened cfg dir wal d -> linv r d h /\ synced cfg d.
Proof. intros Hc Hr Hd Ho. pose proof (log_track_laws r cfg Hr) as HL. by eapply (@reopened_inv SHA cfg history history_spec (log_track r) HL). Qed.

(** A delivered frame: the next one is a write of its batch, any other leaves the follower
    alone. *)
Lemma deliver_next evs dl net df h n r f :
  repl_inv evs dl net df h n r -> f ∈ net -> frame_seq f = st_next_seq (db_state df) ->
  h !! n = Some (frame_ops f) /\ forall io, apply_replicated follower (frame_seq f) (frame_ops f) (set_io io df) = write follower (frame_ops f) (set_io io df).
Proof.
  intros Hi Hf Hs. pose proof (ri_next _ _ _ _ _ _ _ Hi) as Hn. unfold last_seq in Hn. destruct Hi as [_ _ Hfo _ _ _ Hnet].
  apply Hnet, list_elem_of_lookup in Hf as [i Hi]. apply frames_of_lookup in Hi as [Es Ho]. assert (i = n) as -> by lia. split; [done|].
  intros io. rewrite Hs. apply (apply_next (set_io io df)). by apply linv_next in Hfo as [_ ?].
Qed.
Lemma deliver_step evs dl net df h n r f ev df' :
  repl_inv evs dl net df h n r -> h !! n = Some (frame_ops f) -> ev = Acked (CWrite (frame_ops f)) \/ ev = Crashed (CWrite (frame_ops f)) ->
  db_step follower df ev df' -> exists n', repl_inv evs dl net df' h n' r.
Proof.
  intros [H1 H2 H3 [Yl Yf] H4 H5 H6] Hh Hev Hs. pose proof (lookup_lt_Some _ _ _ Hh) as Hlt.
  destruct (history_step 0 follower df ev df' (take n h) (rc_follower Hcfg) (rc_retain' Hcfg) H3 Yf) as (h' & Hst & Hi' & Yf'); [by destruct Hev as [->| ->] | done|].
  assert (h' = take n h \/ h' = take (S n) h) as [->| ->]; [|exists n; by split | exists (S n); split; try done; lia].
  rewrite (take_S_r _ _ _ Hh). destruct Hev as [->| ->]; inversion Hst as [? ? Ec|? ? ? Hsv Ec|]; subst; cbn in *; [by right | naive_solver].
Qed.

Lemma run_inv evs dl net df : repl_run evs dl net df -> exists h n r, repl_inv evs dl net df h n r.
Proof.
  pose proof Hcfg as [Cl Cf Rl Rf Sy]. induction 1 as [dl df Hl Hf|evs dl net df ev dl' _ (h & n & r & Hi) Hn Hs|evs dl net df ev df' _ (h & n & r & Hi) Hm Hs|
      evs dl net df max frames _ (h & n & r & Hi) Hlog|evs dl net df f io q df' _ (h & n & r & Hi) Hin Hrd Ha|evs dl net df f io d1 e wal1 df' _ (h & n & r & Hi) Hin Hrd Ha Hlo Ho|
      evs dl net df upto io dl' res _ (h & n & r & Hi) Hu Hr].
  - destruct (history_reopened 0 leader ∅ [] dl [] Cl Rl fresh_history Hl) as [Il Yl], (history_reopened 0 follower ∅ [] df [] Cf Rf fresh_history Hf) as [If Yf].
    exists [], 0%nat, 0. split; [apply trace_nil | exact Il | exact If | done | done | done|].
    intros f Hf'. by apply not_elem_of_nil in Hf'.
  - destruct Hi as [H1 H2 H3 [Yl Yf] H4 H5 H6]. destruct (history_step r leader dl ev dl' h Cl Rl H2 Yl Hn Hs) as (h' & Hst & Hi' & Yl').
    destruct (spec_step_grows _ _ _ Hst) as [more ->]. exists (h ++ more), n, r. split; try done.
    + by eapply trace_snoc.
    + by rewrite take_app_le.
    + rewrite length_app. lia.
    + intros f Hf. destruct (frames_of_app h more) as [fs ->]. apply elem_of_app. left. by apply H6.
  - destruct Hi as [H1 H2 H3 [Yl Yf] H4 H5 H6]. destruct (history_step 0 follower df ev df' (take n h) Cf Rf H3 Yf) as (h' & Hst & Hi' & Yf'); [by destruct ev as [[]|[]|] | done|].
    exists h, n, r. split; try done. assert (h' = take n h) as ->; [|done]. inversion Hst as [? c Ec|? c ? Hsv Ec|]; subst; try done; by destruct c.
  - exists h, n, r. pose proof (ri_next _ _ _ _ _ _ _ Hi) as En. destruct Hi as [H1 H2 H3 [Yl Yf] H4 H5 H6]. split; try done.
    intros f [Hf|Hf]%elem_of_app; [by apply H6|]. rewrite En in Hlog.
    destruct (inv_log_since leader r Rl dl h (Z.of_nat n) max H2) as [E|[_ E]]; [lia | unfold zlen; lia | | by rewrite Hlog in E].
    rewrite Hlog in E. injection E as ->. apply elem_of_take in Hf as (i & Hf & _). rewrite lookup_drop in Hf. by eapply list_elem_of_lookup_2.
  - destruct (decide (frame_seq f = st_next_seq (db_state df))) as [Es|Es].
    + destruct (deliver_next _ _ _ _ _ _ _ _ Hi Hin Es) as [Hh Hw]. exists h. rewrite Hw in Ha.
      destruct (deliver_step evs dl net df h n r f (Acked (CWrite (frame_ops f))) df' Hi Hh) as [n' Hi']; [by left | | by exists n', r].
      apply (db_acked follower df (CWrite (frame_ops f)) io); [by apply Hrd|]. cbn. unfold mbind, M_bind. by rewrite Ha.
    + exists h, n, r. pose proof (apply_other (set_io io df) (frame_seq f) (frame_ops f) Es) as E. rewrite Ha in E. cbn in E. subst df'.
      destruct Hi as [H1 H2 H3 [Yl Yf] H4 H5 H6]. split; try done. by apply linv_io.
  - destruct (decide (frame_seq f = st_next_seq (db_state df))) as [Es|Es].
    + destruct (deliver_next _ _ _ _ _ _ _ _ Hi Hin Es) as [Hh Hw]. exists h. rewrite Hw in Ha.
      destruct (deliver_step evs dl net df h n r f (Crashed (CWrite (frame_ops f))) df' Hi Hh) as [n' Hi']; [by right | | by exists n', r].
      apply (db_crashed follower df (CWrite (frame_ops f)) io d1 e wal1); [by apply Hrd | | done | done]. cbn. unfold mbind, M_bind. by rewrite Ha.
    + exists h, n, r. pose proof (apply_other (set_io io df) (frame_seq f) (frame_ops f) Es) as E. rewrite Ha in E. cbn in E. subst d1.
      destruct Hi as [H1 H2 H3 [Yl Yf] H4 H5 H6]. rewrite (lost_synced follower (set_io io df) wal1 Yf Hlo) in Ho. destruct (history_reopened 0 follower _ _ df' _ Cf Rf (inv_durable _ _ H3) Ho). by split.
  - exists h, n, (Z.max r upto). rewrite (ri_next _ _ _ _ _ _ _ Hi) in Hu. destruct Hi as [H1 H2 H3 [Yl Yf] H4 H5 H6]. split; try done; [| |lia].
    2: { split; [|done]. intros Ha. pose proof (release_settled upto (set_io io dl) (Yl Ha)) as Hw. by rewrite Hr in Hw. }
    pose proof (wp_release r upto (set_io io dl) h ltac:(lia) (proj2 (linv_io _ _ _ _) H2)) as Hw. unfold wp in Hw. rewrite Hr in Hw. by destruct res.
Qed.
End Replication.

(* ------------------------------------------------------------------ *)
(** * Properties *)

(** The replication log is the history.  Of a database that retains its log, in every
    state reachable without compaction (through writes, group commits, rotations, flushes,
    crashes at any write and recoveries), [log_since] answers every resume point up to the
    newest sequence with the frames of the committed batches numbered on from it, without
    gap, loss or repetition across the archive files and the WAL, cut to the quota. *)
Theorem log_serves_history {SHA : Sha256} cfg evs d :
  cfg_ok cfg -> retain_log cfg = true -> reachable cfg evs d -> Forall no_compact evs ->
  exists h : history, trace spec_step [] evs h /\ last_seq (db_state d) = zlen h /\
    (forall k, get_inner (db_state d) k = Ok (group_effect (∅ : gmap bytes bytes) h !! k)) /\
    forall after max, 0 <= after <= zlen h -> after + 1 < U64 ->
      log_since cfg d after max = Ok (take (quota max) (drop (Z.to_nat after) (group_frames 1 h))).
Proof.
  intros Hc Hr (d0 & Ho & Ht) Hn. pose proof (history_reopened 0 cfg ∅ [] d0 [] Hc Hr fresh_history Ho) as [H0 Y0].
  destruct (@trace_simulates SHA cfg history history_spec (log_track 0) (log_track_laws 0 cfg Hr) d0 evs d [] Hc H0 Y0 Ht (or_intror Hn)) as (h & Hh & Hi & _).
  exists h. destruct (linv_next 0 d h Hi) as [En _]. split_and!; [done | unfold last_seq; lia | intros k; exact (inv_get d h k Hi)|].
  intros after max Ha Hu. destruct (inv_log_since cfg 0 Hr d h after max Hi) as [E|[E _]]; [lia | lia | exact E | lia].
Qed.


(** A follower that is behind catches up.  While its last sequence is below the
    leader's, the leader serves the very next frame first, and when the batch fits the
    follower and its writes complete, applying it succeeds and moves it one further. *)
Theorem replication_progress {SHA : Sha256} leader follower evs dl net df max :
  repl_cfg leader follower -> repl_run leader follower evs dl net df -> last_seq (db_state df) < last_seq (db_state dl) ->
  exists f rest, log_since leader dl (last_seq (db_state df)) max = Ok (f :: rest) /\ frame_seq f = last_seq (db_state df) + 1 /\
    (cmd_ready follower (CWrite (frame_ops f)) (db_state df) ->
     exists df' q, apply_replicated follower (frame_seq f) (frame_ops f) (set_io [] df) = (df', Ok q) /\
       last_seq (db_state df') = last_seq (db_state df) + 1).
Proof.
  intros Hcfg Hrun Hlt. destruct (run_inv leader follower Hcfg _ _ _ _ Hrun) as (h & n & r & Hi). pose proof (ri_next leader follower _ _ _ _ _ _ _ Hi) as En.
  destruct Hi as [H1 H2 H3 _ H4 H5 H6]. destruct (linv_next r dl h H2) as [El _]. rewrite En in *. unfold last_seq in Hlt.
  pose proof H2 as (? & ? & ? & [_ _ _ _ Hh _ _ _]). pose proof (history_bounded r _ _ _ _ Hh) as Hub. unfold zlen in *.
  destruct (lookup_lt_is_Some_2 (frames_of h) n) as [f Hf]; [rewrite length_frames_of; lia|]. destruct (frames_of_lookup _ _ _ Hf) as [Es Eo].
  destruct (inv_log_since leader r (rc_retain _ _ Hcfg) dl h (Z.of_nat n) max H2) as [E|[E _]]; [lia | unfold zlen; lia | | lia].
  rewrite Nat2Z.id, (drop_S _ _ _ Hf) in E. assert (exists m, quota max = S m) as [m Em] by (exists (pred (quota max)); unfold quota; lia).
  rewrite Em in E. exists f, (take m (drop (S n) (frames_of h))). split_and!; [done | done|]. intros [Hb Hroom].
  destruct (linv_next 0 df _ H3) as [Ef Hfe]. assert (frame_seq f = st_next_seq (db_state df)) as Eq by (rewrite Es; unfold last_seq in En; lia).
  pose proof (log_track_laws 0 follower (rc_retain' _ _ Hcfg)) as HL. pose proof (rc_follower _ _ Hcfg) as [_ Hcomp].
  pose proof (@wp_write SHA history history_spec (log_track 0) False follower HL (set_io [] df) _ (frame_ops f) (proj2 (linv_io _ _ _ _) H3) Hb Hroom ltac:(by apply calm_nil) Hcomp) as Hw.
  rewrite Eq, (apply_next leader follower Hcfg (set_io [] df)) by done. unfold wp in Hw. destruct (write follower (frame_ops f) (set_io [] df)) as [df' [q|e]]; [|by destruct Hw].
  destruct Hw as (-> & _ & _ & Eseq). eexists df', _. split; [reflexivity|]. unfold last_seq in *. cbn in Eseq. lia.
Qed.

(* ------------------------------------------------------------------ *)
(** * A run of two nodes *)

Section Sample.
#[local] Existing Instance toy_sha.

(** The leader commits a put, flushes and commits another; the follower receives the first
    frame twice; the leader releases it. *)
Definition node_cfg : Config := mkConfig 100000 4096 Sync 4 1 true 0 0 true.
Definition node : Db := Eval vm_compute in (open_db node_cfg (boot ∅ [] [])).1.
Definition leader1 : Db := Eval vm_compute in (run_cmd node_cfg put_a (set_io [] node)).1.
Definition leader2 : Db := Eval vm_compute in (run_cmd node_cfg CFlush (set_io [] leader1)).1.
Definition leader3 : Db := Eval vm_compute in (run_cmd node_cfg put_b (set_io [] leader2)).1.
Definition served : list WalFrame := [mkWalFrame 1 [Put [x61] [x31]]; mkWalFrame 2 [Put [x62] [x32]]].
Definition first_frame : WalFrame := mkWalFrame 1 [Put [x61] [x31]].
Definition follower1 : Db := Eval vm_compute in (apply_replicated node_cfg 1 [Put [x61] [x31]] (set_io [] node)).1.
Definition leader4 : Db := Eval vm_compute in (release_log 1 (set_io [] leader3)).1.

Lemma node_cfg_ok : cfg_ok node_cfg.
Proof. split; [done | by left]. Qed.
Lemma node_opens : reopened node_cfg ∅ [] node.
Proof. apply (reopened_ok _ _ _ []). vm_compute. reflexivity. Qed.
Lemma node_repl : repl_cfg node_cfg node_cfg.
Proof. split; done || apply node_cfg_ok. Qed.
Ltac concrete_put := apply put_ready; [done | done | vm_compute; split; congruence | vm_compute; reflexivity.. | concrete_room].
Lemma leader_puts_a : db_step node_cfg node (Acked put_a) leader1.
Proof. apply (db_acked _ _ _ []); [concrete_put | vm_compute; reflexivity]. Qed.
Lemma leader_flushes : db_step node_cfg leader1 (Acked CFlush) leader2.
Proof. apply (db_acked _ _ _ []); [concrete_room | vm_compute; reflexivity]. Qed.
Lemma leader_puts_b : db_step node_cfg leader2 (Acked put_b) leader3.
Proof. apply (db_acked _ _ _ []); [concrete_put | vm_compute; reflexivity]. Qed.
Definition leader_events : list Event := [Acked put_a; Acked CFlush; Acked put_b].

Lemma sample_run : repl_run node_cfg node_cfg leader_events leader4 served follower1.
Proof.
  pose proof (run_start node_cfg node_cfg node node node_opens node_opens) as H0.
  pose proof (run_leader node_cfg node_cfg _ _ _ _ (Acked put_a) _ H0 I leader_puts_a) as H1.
  pose proof (run_leader node_cfg node_cfg _ _ _ _ (Acked CFlush) _ H1 I leader_flushes) as H2.
  pose proof (run_leader node_cfg node_cfg _ _ _ _ (Acked put_b) _ H2 I leader_puts_b) as H3.
  pose proof (run_serve node_cfg node_cfg _ _ _ _ 10 served H3 ltac:(vm_compute; reflexivity)) as H4.
  assert (repl_run node_cfg node_cfg leader_events leader3 served follower1) as H5.
  { apply (run_deliver node_cfg node_cfg _ leader3 served node first_frame [] 1 follower1 H4); [set_solver | intros _; concrete_put | vm_compute; reflexivity]. }
  assert (repl_run node_cfg node_cfg leader_events leader3 served follower1) as H6.
  { apply (run_deliver node_cfg node_cfg _ leader3 served follower1 first_frame [] 1 follower1 H5); [set_solver | intros E; exfalso; revert E; vm_compute; congruence | vm_compute; reflexivity]. }
  apply (run_release node_cfg node_cfg _ leader3 served follower1 1 [] leader4 (Ok tt) H6); [vm_compute; split; congruence | vm_compute; reflexivity].
Qed.

Lemma log_serves_history_witness : log_since node_cfg leader3 0 10 = Ok served /\
  exists h : history, trace spec_step [] leader_events h /\ last_seq (db_state leader3) = zlen h.
Proof.
  split; [vm_compute; reflexivity|].
  destruct (log_serves_history node_cfg leader_events leader3 node_cfg_ok eq_refl) as (h & H1 & H2 & _).
  - exists node. split; [exact node_opens|].
    apply (trace_cons _ _ _ _ _ _ leader_puts_a), (trace_cons _ _ _ _ _ _ leader_flushes), (trace_cons _ _ _ _ _ _ leader_puts_b), trace_nil.
  - repeat constructor.
  - exists h. split; [exact H1 | exact H2].
Defined.
Lemma replication_progress_witness :
  exists f rest, log_since node_cfg leader4 (last_seq (db_state follower1)) 1 = Ok (f :: rest) /\ frame_seq f = last_seq (db_state follower1) + 1.
Proof.
  destruct (replication_progress node_cfg node_cfg leader_events leader4 served follower1 1 node_repl sample_run) as (f & rest & H1 & H2 & _).
  - vm_compute. reflexivity.
  - exists f, rest. split; [exact H1 | exact H2].
Defined.

(** Compaction rewinds the log.  The next sequence recovered from the directory is one
    past the highest a segment or the WAL still holds; when compaction has dropped the
    newest row (here the deletion of the only key, and the key) and the WAL is empty, it
    falls back, and the next commit reuses a sequence the archive already holds for
    another batch.  A follower that is up to date is told there is nothing new, one that
    starts over is served the old batch under that sequence, and both miss the commit. *)
Theorem compaction_rewinds_log :
  let deleted := delete node_cfg [x61] (set_io [] leader2) in
  let flushed := flush node_cfg deleted.1 in
  let compacted := compact node_cfg flushed.1 in
  let reopened_ := open_db node_cfg (boot (db_dir compacted.1) (db_wal compacted.1) []) in
  let next := put node_cfg [x62] [x32] reopened_.1 in
  is_ok deleted.2 = true /\ flushed.2 = Ok tt /\ is_ok compacted.2 = true /\ reopened_.2 = Ok tt /\
  last_seq (db_state compacted.1) = 2 /\ last_seq (db_state reopened_.1) = 0 /\ next.2 = Ok 1 /\
  get_inner (db_state next.1) [x62] = Ok (Some [x32]) /\
  log_since node_cfg next.1 2 10 = Ok [] /\
  log_since node_cfg next.1 0 10 = Ok [mkWalFrame 1 [Put [x61] [x31]]; mkWalFrame 2 [Delete [x61]]].
Proof. cbv zeta. split_and!; vm_compute; reflexivity. Qed.

(** A failed write leaves a hole in the log.  The sequence is taken before the append;
    when the append fails with nothing written and the process goes on, the next commit
    skips that number, and from then on the log cannot be served past it. *)
Theorem failed_write_leaves_hole :
  let failed := put node_cfg [x62] [x32] (set_io [IoFail 0] leader1) in
  let next := put node_cfg [x62] [x33] (set_io [] failed.1) in
  is_ok failed.2 = false /\ next.2 = Ok 3 /\
  (open_db node_cfg (boot (db_dir next.1) (db_wal next.1) [])).2 = Ok tt /\
  is_ok (log_since node_cfg next.1 1 10) = false /\ is_ok (log_since node_cfg next.1 0 10) = false.
Proof. cbv zeta. split_and!; vm_compute; reflexivity. Qed.
End Sample.
