(* ===== verification/DbFaults.v ===== *)
(** What the database does outside the histories of DbProps: a process that goes on after a
    failed write instead of reopening, and operations of other threads between the phases
    of a flush, which holds no lock during its I/O.  Each is a concrete run. *)

From stdpp Require Import gmap.
From S2P Require Import Prelude Cursor Format Identity Placement Disk Checkpoint Wal Memtable Segment Compaction DbState Db DbOpen DbProps DbWp.

Section Interleaved.
Context {SHA : Sha256}.

(** [flush_entry] with what another thread does while phase B runs unlocked.  Phase B
    neither reads nor writes the state, so [other] stands for operations anywhere in it. *)
Definition flush_entry (cfg : Config) (other : M unit) : M unit :=
  plan ← flush_phase_a;
  match plan with
  | None => mret tt
  | Some plan =>
      build ← flush_phase_b cfg plan;
      _ ← other;
      flush_phase_c cfg build (fp_wal_truncate_len plan)
  end.

(** Alone, it is [flush]. *)
Lemma flush_entry_alone cfg d : flush_entry cfg (mret tt) d = flush cfg d.
Proof.
  unfold flush_entry, flush, mbind, M_bind. destruct (flush_phase_a d) as [d1 [[plan|]|e]]; [|done..].
  by destruct (flush_phase_b cfg plan d1) as [d2 [build|e]].
Qed.

(** A read by the other thread, kept in the answer. *)
Definition reading (cfg : Config) (key : bytes) : Db -> option (Result (option bytes)) := fun d =>
  match flush_phase_a d with
  | (d1, Ok (Some plan)) =>
      match flush_phase_b cfg plan d1 with (d2, Ok _) => Some (get_inner (db_state d2) key) | _ => None end
  | _ => None
  end.
End Interleaved.

Section Runs.
#[local] Existing Instance toy_sha.
Abbreviation cfg := sample_cfg.
Definition a : bytes := [x61].
Definition b : bytes := [x62].
Definition reopen (d : Db) : Db * Result unit := open_db cfg (boot (db_dir d) (db_wal d) []).

(** [after_put] holds the acknowledged put of [a]. *)

(** A read during a flush misses acknowledged data.  Phase A takes the immutable
    memtables out of the state and phase C attaches their segments; a point read of an
    acknowledged key between them answers that the key is absent, although it answers its
    value before and after. *)
Theorem read_during_flush_misses :
  get_inner (db_state after_put) a = Ok (Some [x31]) /\
  reading cfg a after_put = Some (Ok None) /\
  get_inner (db_state (flush_entry cfg (mret tt) after_put).1) a = Ok (Some [x31]).
Proof. split_and!; vm_compute; reflexivity. Qed.

(** A failed flush loses acknowledged data.  When the segment write of phase B fails the
    detached memtables are dropped.  The process keeps answering, without the keys; the next
    successful write and flush truncate the WAL over them, and reopening does not bring
    them back. *)
Theorem failed_flush_loses_acked :
  let failed := flush cfg (set_io [IoFail 0] after_put) in
  let next := put cfg b [x32] (set_io [] failed.1) in
  let flushed := flush cfg next.1 in
  is_ok failed.2 = false /\ get_inner (db_state failed.1) a = Ok None /\
  is_ok next.2 = true /\ flushed.2 = Ok tt /\
  (reopen flushed.1).2 = Ok tt /\
  get_inner (db_state (reopen flushed.1).1) a = Ok None /\
  get_inner (db_state (reopen flushed.1).1) b = Ok (Some [x32]).
Proof. cbv zeta. split_and!; vm_compute; reflexivity. Qed.

(** The io of the interleaved flush below: the segment, the WAL append and sync of the put,
    the manifest, CURRENT and the truncation complete, the append of the tail does not. *)
Definition crash_before_tail : list IoOutcome := [IoOk; IoOk; IoOk; IoOk; IoOk; IoOk; IoFail 0].

(** A crash in the truncation loses acknowledged data.  A put acknowledged during phase
    B is only in the WAL's tail; phase C empties the WAL file before it writes the tail
    back, and a crash in between reopens without the put. *)
Theorem truncation_crash_loses_acked :
  let other := _ ← put cfg b [x32]; mret tt in
  let done_ := flush_entry cfg other (set_io [] after_put) in
  let crashed := flush_entry cfg other (set_io crash_before_tail after_put) in
  done_.2 = Ok tt /\ get_inner (db_state (reopen done_.1).1) b = Ok (Some [x32]) /\
  crashed.2 = Err (Io "WAL append") /\ get_inner (db_state crashed.1) b = Ok (Some [x32]) /\
  (reopen crashed.1).2 = Ok tt /\ get_inner (db_state (reopen crashed.1).1) b = Ok None.
Proof. cbv zeta. split_and!; vm_compute; reflexivity. Qed.

(** A failed append poisons the WAL.  The bytes of an append that failed half way are
    not taken back; a process that goes on acknowledges later puts after them, and then
    the database no longer opens. *)
Theorem failed_append_poisons_wal :
  let failed := put cfg b [x32] (set_io [IoFail 10] after_put) in
  let next := put cfg b [x33] (set_io [] failed.1) in
  is_ok failed.2 = false /\ (reopen failed.1).2 = Ok tt /\ is_ok next.2 = true /\
  (reopen next.1).2 = Err (Corrupt "WAL damage with valid frames after").
Proof. cbv zeta. split_and!; vm_compute; reflexivity. Qed.

(** What a loss of power takes back.  Under [Sync] nothing that was acknowledged; under
    [Async], which skips the sync, an acknowledged put. *)
Definition async_cfg : Config := mkConfig 100000 4096 Async 4 1 true 0 0 false.
Theorem async_put_lost :
  let acked := put async_cfg a [x31] (open_db async_cfg (boot ∅ [] [])).1 in
  let wal := power_loss (db_io acked.1) 0 0 in
  is_ok acked.2 = true /\ get_inner (db_state acked.1) a = Ok (Some [x31]) /\
  (open_db async_cfg (boot (db_dir acked.1) wal [])).2 = Ok tt /\
  get_inner (db_state (open_db async_cfg (boot (db_dir acked.1) wal [])).1) a = Ok None.
Proof. cbv zeta. split_and!; vm_compute; reflexivity. Qed.

(** Recovery does not sync what it replays.  The process dies between the append of a put
    and its sync; the next process replays the frame from the cached file and answers the
    put, and a loss of power before the next write takes it back. *)
Theorem replayed_put_lost :
  let died := put cfg b [x32] (set_io [IoOk; IoFail 0] after_put) in
  let again := open_db cfg (upd_io (fun _ => db_io died.1) (boot (db_dir died.1) (db_wal died.1) [])) in
  let wal := power_loss (db_io again.1) 0 0 in
  is_ok died.2 = false /\ again.2 = Ok tt /\ get_inner (db_state again.1) b = Ok (Some [x32]) /\
  (open_db cfg (boot (db_dir again.1) wal [])).2 = Ok tt /\
  get_inner (db_state (open_db cfg (boot (db_dir again.1) wal [])).1) b = Ok None /\
  get_inner (db_state (open_db cfg (boot (db_dir again.1) wal [])).1) a = Ok (Some [x31]).
Proof. cbv zeta. split_and!; vm_compute; reflexivity. Qed.
End Runs.
