(* ===== verification/Engine.v ===== *)
(** crates/storage/aikoql-v2/src/engine.rs: the adapter that serves the kernel's storage
    engine trait from the v2 database, and its laws. *)

From stdpp Require Import gmap.
From S2P Require Import Prelude Cursor Format Identity Placement Disk Checkpoint Wal WalFrames WalReplay Memtable Segment DbState Db DbOpen DbRead.
From S2P Require Import Kom Store DbLayers DbWp DbInv DbRecover DbFlush DbWrite DbCompact DbProps DbScan.

Section Adapter.
Context {SHA : Sha256} (cfg : Config).

(** [se]: the error of the database as the kernel's. *)
Definition se {A} (r : Result A) : KResult A := match r with Ok a => KOk a | Err _ => KErr (Store "aikoql-v2") end.

(** [get], [get_many], [scan], [scan_from], [write_batch]; [predecessor] is the default. *)
Definition v2_get (d : Db) (key : bytes) : KResult (option bytes) := se (get_inner (db_state d) key).
Definition v2_get_many (d : Db) (keys : list bytes) : KResult (list (option bytes)) := se (get_many_inner (db_state d) keys).
Definition v2_scan (d : Db) (prefix : bytes) : KResult (list (bytes * bytes)) := se (scan (db_state d) prefix).
Definition v2_scan_from (d : Db) (prefix start : bytes) : KResult (list (bytes * bytes)) := se (scan_from (db_state d) prefix start).
Definition batch_ops (b : WriteBatch) : list Op := map (fun kv => Put kv.1 kv.2) (wb_puts b) ++ map Delete (wb_dels b).
Definition v2_write_batch (d : Db) (b : WriteBatch) : Db * KResult unit :=
  if wb_is_empty b then (d, KOk tt)
  else let '(d, r) := write cfg (batch_ops b) d in (d, _ ← se r; KOk tt).
#[local] Instance v2_engine : StorageEngine Db := {|
  eng_get := v2_get; eng_get_many := v2_get_many; eng_scan := v2_scan; eng_scan_from := v2_scan_from;
  eng_predecessor d := default_predecessor (v2_scan d); eng_write_batch := v2_write_batch |}.

(** The database holds a map, and its writes complete. *)
Definition v2_holds (d : Db) (m : gmap bytes bytes) : Prop := cfg_ok cfg /\ inv d m /\ calm False (db_io d).
Definition v2_ready (d : Db) (b : WriteBatch) : Prop :=
  wb_is_empty b = false -> batch_ok (db_state d) (batch_ops b) /\ room cfg (committed (db_state d) (batch_ops b)).

Lemma batch_ops_effect m b : ops_effect m (batch_ops b) = batch_effect m b.
Proof.
  unfold ops_effect, batch_ops, batch_effect. rewrite fold_left_app. generalize (wb_dels b). intros dels.
  assert (forall ps m, fold_left op_effect (map (fun kv => Put kv.1 kv.2) ps) m = fold_left (fun m kv => <[kv.1 := kv.2]> m) ps m) as ->
    by (induction ps as [|x ps IH]; intros m0; [done | cbn; apply IH]).
  generalize (fold_left (fun m kv => <[kv.1 := kv.2]> m) (wb_puts b) m). induction dels as [|k ks IH]; intros m'; [done | cbn; apply IH].
Qed.
Lemma batch_effect_empty m b : wb_is_empty b = true -> batch_effect m b = m.
Proof. destruct b as [[|? ?] [|? ?]]; done. Qed.

Lemma v2_scan_rows d m p s : v2_holds d m -> carry_free p = true -> scan_from (db_state d) p s = Ok (rows m p s).
Proof.
  intros (_ & Hi & _) Hp. destruct (inv_scan d m p s Hi Hp) as (out & -> & Hs & He). f_equal. by apply rows_unique.
Qed.
#[local] Instance v2_laws : EngineLaws Db.
Proof.
  apply (Build_EngineLaws _ _ v2_holds v2_ready (fun _ p => carry_free p = true)).
  - intros d m k (_ & Hi & _). cbn. unfold v2_get. by rewrite (inv_get d m k Hi).
  - intros d m ks (_ & Hi & _). cbn. unfold v2_get_many. rewrite (proj2 (get_many_points (db_state d) ks (map (fun k => m !! k) ks))); [done|].
    induction ks as [|k ks IH]; constructor; [apply (inv_get d m k Hi) | done].
  - intros d m p Hh Hp. cbn. unfold v2_scan, scan. rewrite (v2_scan_rows _ m) by done. cbn. rewrite <-(rows_max m p []). by destruct p.
  - intros d m p s Hh Hp. cbn. unfold v2_scan_from. by rewrite (v2_scan_rows _ m).
  - intros d m p a Hh Hp _. cbn. apply default_predecessor_rows. unfold v2_scan, scan. rewrite (v2_scan_rows _ m) by done. cbn. rewrite <-(rows_max m p []). by destruct p.
  - intros d m b (Hcfg & Hi & Hc) Hr. cbn. unfold v2_write_batch, v2_ready in *. destruct (wb_is_empty b) eqn:Eb.
    + exists d. rewrite batch_effect_empty by done. by split_and!.
    + destruct (Hr eq_refl) as [Hb Hroom]. pose proof (wp_write False cfg d m (batch_ops b) Hi Hb Hroom Hc (proj2 Hcfg)) as Hw. unfold wp in Hw.
      destruct (write cfg (batch_ops b) d) as [d' [seq|e]]; [|by destruct Hw]. destruct Hw as (_ & Hi' & Hc' & _). exists d'. split; [done|].
      split_and!; [done | | done]. rewrite <-batch_ops_effect. exact Hi'.
Defined.

(** C39: the v2 engine is the in-memory engine, on the prefixes it can scan.  In every state of
    the database reachable by byte operations, an in-memory engine with the same content gives
    the same answers to any further sequence of lookups, batch lookups, scans, seeks,
    predecessor searches and atomic batches, as long as the batches fit the formats, the writes
    complete and every scanned prefix is free of carry ([carry_free]: it does not end in a byte
    255, or is of such bytes only, or is empty).  A prefix that ends in a byte 255 otherwise
    carries in the scan's upper bound and lets rows outside the prefix in
    ([scan_leaves_prefix]).  That content is one the map specification allows.  The
    configuration is that of [db_refines_map]. *)
Theorem v2_engine_is_memory evs d ops :
  cfg_ok cfg -> reachable cfg evs d -> io_next (db_io d) = [] -> run_fits d ops ->
  exists m e, trace spec_step ∅ evs m /\ mem_holds e m /\ engine_run d ops = engine_run e ops.
Proof.
  intros Hcfg Hr Hio Hf. destruct (reachable_inv cfg evs d Hcfg Hr) as (m & Hm & Hi & _). exists m, (mkMemoryEngine (entries m)).
  assert (mem_holds (mkMemoryEngine (entries m)) m) as He by (split; [apply entries_sorted | apply entries_elem]). split_and!; [done | done|].
  apply (engines_agree ops d (mkMemoryEngine (entries m)) m); [|done | done | by eapply memory_fits]. split_and!; [done | done | by apply calm_nil].
Qed.
End Adapter.

(* ------------------------------------------------------------------ *)
(** * A run *)

Section Sample.
#[local] Existing Instance toy_sha.
#[local] Instance sample_engine : StorageEngine Db := v2_engine sample_cfg.
#[local] Instance sample_laws : EngineLaws Db := v2_laws sample_cfg.

Definition sample_calls : list EngineOp :=
  [EGet [x61]; EWrite (mkWriteBatch [([x62], [x33])] []); EScan [x61]; EPredecessor [x62] [x62; x00]; EGetMany [[x61]; [x63]]].
Lemma v2_engine_is_memory_witness :
  exists m e, mem_holds e m /\ engine_run recovered sample_calls = engine_run e sample_calls /\
    engine_run recovered sample_calls =
      [AValue (KOk (Some [x31])); AUnit (KOk tt); ARows (KOk [([x61], [x31])]); ARow (KOk (Some ([x62], [x33]))); AValues (KOk [Some [x31]; None])].
Proof.
  destruct (v2_engine_is_memory sample_cfg sample_events recovered sample_calls sample_cfg_ok sample_reachable eq_refl) as (m & e & _ & He & Ha).
  - split; [exact I|]. split; [|repeat split; vm_compute; reflexivity]. intros _.
    apply (put_ready recovered [x62] [x33]); [done | done | vm_compute; split; congruence | vm_compute; reflexivity.. | concrete_room].
  - exists m, e. split; [exact He|]. split; [exact Ha | vm_compute; reflexivity].
Defined.
End Sample.
