(* ===== verification/Expr.v ===== *)
(** crates/kernel/src/knowledge/kom.rs: the values of properties as the schema layer computes
    with them.  A double is its bit pattern in a row and an IEEE 754 number in a comparison;
    equality of values is [derive(PartialEq)], so a NaN differs from itself and the two zeros
    are equal. *)

From Stdlib Require Import SpecFloat String.
From stdpp Require Import gmap.
From S2P Require Import Prelude Memtable Kom Codec CodecProps.

(** [Result<A, String>], with the panics of integer arithmetic as a third outcome. *)
Inductive SResult (A : Type) : Type :=
  | SOk (a : A)
  | SErr (msg : string)
  | SPanic.
Arguments SOk {_} _.
Arguments SErr {_} _.
Arguments SPanic {_}.
#[global] Instance SResult_ret : MRet SResult := fun A a => SOk a.
#[global] Instance SResult_bind : MBind SResult := fun A B f m => match m with SOk a => f a | SErr e => SErr e | SPanic => SPanic end.

(** A loop whose body may return early with an error. *)
Fixpoint kfold {S X} (f : S -> X -> KResult S) (s : S) (xs : list X) : KResult S :=
  match xs with [] => KOk s | x :: xs => s ← f s x; kfold f s xs end.

(* ------------------------------------------------------------------ *)
(** * Doubles *)

Definition f64_of_bits (b : Z) : spec_float :=
  let s := 2 ^ 63 <=? b in
  let e := (b / 2 ^ 52) mod 2 ^ 11 in
  let m := b mod 2 ^ 52 in
  if e =? 2047 then if m =? 0 then S754_infinity s else S754_nan
  else if e =? 0 then match m with Zpos p => S754_finite s p (-1074) | _ => S754_zero s end
  else match m + 2 ^ 52 with Zpos p => S754_finite s p (e - 1075) | _ => S754_nan end.
Definition f64_sign (s : bool) : Z := if s then 2 ^ 63 else 0.
Definition f64_to_bits (x : spec_float) : Z :=
  match x with
  | S754_zero s => f64_sign s
  | S754_infinity s => f64_sign s + 2047 * 2 ^ 52
  | S754_nan => 2047 * 2 ^ 52 + 2 ^ 51
  | S754_finite s m e => f64_sign s + (if Zpos m <? 2 ^ 52 then Zpos m else (e + 1075) * 2 ^ 52 + (Zpos m - 2 ^ 52))
  end.
(** [i as f64]. *)
Definition f64_of_int (i : Z) : spec_float := binary_normalize 53 1024 i 0 false.
Definition f64_add : spec_float -> spec_float -> spec_float := SFadd 53 1024.
Definition f64_sub : spec_float -> spec_float -> spec_float := SFsub 53 1024.
Definition f64_mul : spec_float -> spec_float -> spec_float := SFmul 53 1024.
Definition f64_div : spec_float -> spec_float -> spec_float := SFdiv 53 1024.
Definition f64_is_zero (x : spec_float) : bool := SFeqb x (S754_zero false).

Lemma f64_bits_roundtrip b : 0 <= b < 2 ^ 64 -> f64_of_bits b <> S754_nan -> f64_to_bits (f64_of_bits b) = b.
Proof.
  intros Hb. unfold f64_of_bits.
  assert (0 <= b mod 2 ^ 52 < 2 ^ 52) as Hm by (apply Z.mod_pos_bound; lia). assert (0 <= (b / 2 ^ 52) mod 2 ^ 11 < 2 ^ 11) as He by (apply Z.mod_pos_bound; lia).
  assert (b = f64_sign (2 ^ 63 <=? b) + (b / 2 ^ 52) mod 2 ^ 11 * 2 ^ 52 + b mod 2 ^ 52) as E.
  { assert (b / 2 ^ 52 / 2 ^ 11 = b / 2 ^ 63) as Ed by (rewrite Z.div_div by lia; done).
    pose proof (Z.div_mod b (2 ^ 52)). pose proof (Z.div_mod (b / 2 ^ 52) (2 ^ 11)). unfold f64_sign.
    destruct (Z.leb_spec (2 ^ 63) b); [assert (b / 2 ^ 63 = 1) by (symmetry; apply (Z.div_unique _ _ _ (b - 2 ^ 63)); lia) | assert (b / 2 ^ 63 = 0) by (apply Z.div_small; lia)]; lia. }
  set (s := 2 ^ 63 <=? b) in *. set (e := (b / 2 ^ 52) mod 2 ^ 11) in *. set (m := b mod 2 ^ 52) in *. clearbody s e m.
  destruct (Z.eqb_spec e 2047) as [->|Ne]; [destruct (Z.eqb_spec m 0) as [->|]; [cbn [f64_to_bits]; lia | done]|].
  destruct (Z.eqb_spec e 0) as [->|Ne0].
  - destruct m as [|p|p]; [cbn [f64_to_bits]; lia | | lia]. intros _. cbn [f64_to_bits]. destruct (Z.ltb_spec (Zpos p) (2 ^ 52)); lia.
  - destruct (m + 2 ^ 52) as [|p|p] eqn:Em; [lia | | lia]. intros _. cbn [f64_to_bits]. destruct (Z.ltb_spec (Zpos p) (2 ^ 52)); lia.
Qed.

(** The same number, up to the sign of a zero. *)
Definition f64_sim (x y : spec_float) : Prop := x = y \/ (exists s s', x = S754_zero s /\ y = S754_zero s').
#[global] Instance f64_sim_equiv : Equivalence f64_sim.
Proof.
  split.
  - by left.
  - intros x y [->|(s & s' & -> & ->)]; [by left | right; eauto].
  - intros x y z [->|(s & s' & -> & ->)] [<-|(t & t' & E & ->)]; [by left | right; eauto | right; eauto | right; eauto].
Qed.
Lemma SFeqb_sim x y : SFeqb x y = true <-> x <> S754_nan /\ f64_sim x y.
Proof.
  split.
  - unfold SFeqb, f64_sim. destruct x as [s|[]| |[] m e], y as [s'|[]| |[] m' e']; cbn; try done; intros H; (split; [done|]); try (by left); try (right; by eauto); left;
      destruct (Z.compare_spec e e') as [->| |]; try done; change (Pos.compare_cont Eq m m') with (m ?= m')%positive in H; destruct (Pos.compare_spec m m') as [->| |]; done.
  - intros [Hn [->|(s & s' & -> & ->)]]; [|done]. unfold SFeqb. destruct y as [s|[]| |[] m e]; cbn; try done; rewrite Z.compare_refl;
      change (Pos.compare_cont Eq m m) with (m ?= m)%positive; by rewrite Pos.compare_refl.
Qed.
(** Every operation and test respects [f64_sim] (a division, with a divisor that is not zero). *)
Lemma SFcompare_sim x y x' y' : f64_sim x x' -> f64_sim y y' -> SFcompare x y = SFcompare x' y'.
Proof. intros [->|(s & s' & -> & ->)] [->|(t & t' & -> & ->)]; [done | by destruct x' | by destruct y' | done]. Qed.
Lemma SFltb_sim x y x' y' : f64_sim x x' -> f64_sim y y' -> SFltb x y = SFltb x' y'.
Proof. intros. unfold SFltb. by erewrite SFcompare_sim. Qed.
Lemma SFleb_sim x y x' y' : f64_sim x x' -> f64_sim y y' -> SFleb x y = SFleb x' y'.
Proof. intros. unfold SFleb. by erewrite SFcompare_sim. Qed.
Lemma is_zero_sim x x' : f64_sim x x' -> f64_is_zero x = f64_is_zero x'.
Proof. intros. unfold f64_is_zero, SFeqb. by erewrite (SFcompare_sim x _ x'); [| |reflexivity]. Qed.
Ltac sim_cases := first [by left | right; by do 2 eexists].
Lemma f64_add_sim x y x' y' : f64_sim x x' -> f64_sim y y' -> f64_sim (f64_add x y) (f64_add x' y').
Proof.
  intros [->|(s & s' & -> & ->)] [->|(t & t' & -> & ->)]; [by left | destruct x' as [u| | |] | destruct y' as [u| | |] | ]; unfold f64_add; cbn [SFadd]; try by left.
  all: repeat match goal with |- context [if ?b then _ else _] => destruct b end; sim_cases.
Qed.
Lemma f64_sub_sim x y x' y' : f64_sim x x' -> f64_sim y y' -> f64_sim (f64_sub x y) (f64_sub x' y').
Proof.
  intros [->|(s & s' & -> & ->)] [->|(t & t' & -> & ->)]; [by left | destruct x' as [u| | |] | destruct y' as [u| | |] | ]; unfold f64_sub; cbn [SFsub]; try by left.
  all: repeat match goal with |- context [if ?b then _ else _] => destruct b end; sim_cases.
Qed.
Lemma f64_mul_sim x y x' y' : f64_sim x x' -> f64_sim y y' -> f64_sim (f64_mul x y) (f64_mul x' y').
Proof. intros [->|(s & s' & -> & ->)] [->|(t & t' & -> & ->)]; [by left | by destruct x'; cbn; sim_cases | by destruct y'; cbn; sim_cases | cbn; sim_cases]. Qed.
Lemma f64_div_sim x y x' y' : f64_sim x x' -> f64_sim y y' -> f64_is_zero y = false -> f64_sim (f64_div x y) (f64_div x' y').
Proof. intros [->|(s & s' & -> & ->)] [->|(t & t' & -> & ->)] Hz; [by left | done | destruct y' as [u| | |]; [done|..]; cbn; sim_cases | done]. Qed.
Lemma bits_sim x y : f64_sim x y -> f64_sim (f64_of_bits (f64_to_bits x)) (f64_of_bits (f64_to_bits y)).
Proof. intros [->|(s & s' & -> & ->)]; [done|]. right. exists s, s'. by destruct s, s'. Qed.

(* ------------------------------------------------------------------ *)
(** * Equality of values *)

Section ListEqb.
Context {A B : Type} (f : A -> B -> bool).
Fixpoint list_eqb (xs : list A) (ys : list B) : bool :=
  match xs, ys with
  | [], [] => true
  | x :: xs, y :: ys => f x y && list_eqb xs ys
  | _, _ => false
  end.
End ListEqb.

(** [impl PartialEq for Value]. *)
Fixpoint value_eqb (v w : Value) : bool :=
  match v, w with
  | VNull, VNull => true
  | VBool a, VBool b => Bool.eqb a b
  | VInt a, VInt b => a =? b
  | VFloat a, VFloat b => SFeqb (f64_of_bits a) (f64_of_bits b)
  | VText a, VText b => bytes_eqb a b
  | VBytes a, VBytes b => bytes_eqb a b
  | VList xs, VList ys => list_eqb value_eqb xs ys
  | VMap m, VMap n => list_eqb (fun x y => bytes_eqb x.1 y.1 && value_eqb x.2 y.2) m n
  | _, _ => false
  end.
Definition opt_value_eqb (v w : option Value) : bool :=
  match v, w with Some v, Some w => value_eqb v w | None, None => true | _, _ => false end.

(** Indistinguishable values: equal, the signs of zeros and the payloads of NaNs aside. *)
Definition f64_simb (x y : spec_float) : bool := SFeqb x y || match x, y with S754_nan, S754_nan => true | _, _ => false end.
Fixpoint value_sim (v w : Value) : bool :=
  match v, w with
  | VNull, VNull => true
  | VBool a, VBool b => Bool.eqb a b
  | VInt a, VInt b => a =? b
  | VFloat a, VFloat b => f64_simb (f64_of_bits a) (f64_of_bits b)
  | VText a, VText b => bytes_eqb a b
  | VBytes a, VBytes b => bytes_eqb a b
  | VList xs, VList ys => list_eqb value_sim xs ys
  | VMap m, VMap n => list_eqb (fun x y => bytes_eqb x.1 y.1 && value_sim x.2 y.2) m n
  | _, _ => false
  end.

Lemma f64_simb_spec x y : f64_simb x y = true <-> f64_sim x y.
Proof.
  unfold f64_simb. rewrite orb_true_iff, SFeqb_sim. split; [intros [[_ H]|H]; [done | destruct x, y; try done; by left]|].
  intros H. destruct x as [| | |]; try (by left). right. destruct H as [<-|(? & ? & ? & _)]; done.
Qed.
Lemma list_eqb_Forall2 {A B} (f : A -> B -> bool) xs : forall ys, list_eqb f xs ys = true <-> Forall2 (fun x y => f x y = true) xs ys.
Proof.
  induction xs as [|x xs IH]; intros [|y ys]; cbn; [by split; constructor | by split; [|inversion 1].. |].
  rewrite andb_true_iff, IH. split; [intros [? ?]; by constructor | by inversion 1].
Qed.

Lemma value_sim_refl v : value_sim v v = true.
Proof.
  induction v as [|b|i|f|s|b|xs IH|m IH] using value_ind; cbn [value_sim]; rewrite ?Bool.eqb_reflx, ?Z.eqb_refl, ?bytes_eqb_refl; try done.
  - by apply f64_simb_spec.
  - apply list_eqb_Forall2. by induction IH; constructor.
  - apply list_eqb_Forall2. induction IH; constructor; [|done]. by rewrite bytes_eqb_refl.
Qed.
(** Equal values are indistinguishable. *)
Lemma value_eqb_sim v : forall w, value_eqb v w = true -> value_sim v w = true.
Proof.
  induction v as [|b|i|f|s|b|xs IH|m IH] using value_ind; intros w; destruct w; try done; cbn [value_eqb value_sim].
  - intros H. unfold f64_simb. by rewrite H.
  - rewrite !list_eqb_Forall2. intros H. revert IH. induction H as [|x y xs ys Hx _ IHl]; [by constructor|]. intros [Hp Hps]%Forall_cons. constructor; auto.
  - rewrite !list_eqb_Forall2. intros H. revert IH. induction H as [|x y xs ys Hx _ IHl]; [by constructor|]. intros [Hp Hps]%Forall_cons. constructor; [|auto].
    apply andb_true_iff in Hx as [-> ?]. cbn. auto.
Qed.
(** Equality does not tell indistinguishable values apart. *)
Lemma SFeqb_cong x y x' y' : f64_sim x x' -> f64_sim y y' -> SFeqb x y = SFeqb x' y'.
Proof. intros. unfold SFeqb. by erewrite SFcompare_sim. Qed.
Lemma list_eqb_cong {A} (f g : A -> A -> bool) xs ys xs' ys' :
  Forall (fun x => forall y x' y', g x x' = true -> g y y' = true -> f x y = f x' y') xs -> list_eqb g xs xs' = true -> list_eqb g ys ys' = true ->
  list_eqb f xs ys = list_eqb f xs' ys'.
Proof.
  intros Hf. revert ys xs' ys'. induction Hf as [|x xs Hx _ IH]; intros [|y ys] [|x' xs'] [|y' ys']; try done. cbn.
  intros [? ?]%andb_true_iff [? ?]%andb_true_iff. by rewrite (Hx y x' y'), (IH ys xs' ys').
Qed.
Lemma value_eqb_cong v : forall w v' w', value_sim v v' = true -> value_sim w w' = true -> value_eqb v w = value_eqb v' w'.
Proof.
  induction v as [|b|i|f|s|b|xs IH|m IH] using value_ind; intros w v' w' Hv Hw; destruct v'; try done; destruct w, w'; try done; cbn [value_eqb value_sim] in *.
  - apply Bool.eqb_prop in Hv as ->. by apply Bool.eqb_prop in Hw as ->.
  - apply Z.eqb_eq in Hv as ->. by apply Z.eqb_eq in Hw as ->.
  - apply f64_simb_spec in Hv, Hw. by apply SFeqb_cong.
  - apply bytes_eqb_eq in Hv as ->. by apply bytes_eqb_eq in Hw as ->.
  - apply bytes_eqb_eq in Hv as ->. by apply bytes_eqb_eq in Hw as ->.
  - by apply (list_eqb_cong _ value_sim).
  - apply (list_eqb_cong _ (fun x y => bytes_eqb x.1 y.1 && value_sim x.2 y.2)); [|done..].
    eapply Forall_impl; [exact IH|]. intros x Hx y x' y' [E1 ?]%andb_true_iff [E2 ?]%andb_true_iff. apply bytes_eqb_eq in E1 as ->, E2 as ->. by rewrite (Hx y.2 x'.2 y'.2).
Qed.

Definition opt_sim (v w : option Value) : bool := match v, w with Some v, Some w => value_sim v w | None, None => true | _, _ => false end.
Lemma opt_sim_refl o : opt_sim o o = true.
Proof. destruct o; [apply value_sim_refl | done]. Qed.
Lemma opt_value_eqb_sim o o' : opt_value_eqb o o' = true -> opt_sim o o' = true.
Proof. destruct o, o'; try done. apply value_eqb_sim. Qed.

(* ================================================================== *)
(** crates/kernel/src/knowledge/kom.rs: the check expressions of a schema and their
    evaluation on a property map.

    Integer arithmetic is that of a build with overflow checks: a sum, difference or product
    outside i64 panics (a division overflows, and panics, in every build). *)

(* ------------------------------------------------------------------ *)
(** * Expressions *)

Module CompareOp.
Inductive t : Type := Eq | Neq | Lt | Lte | Gt | Gte.
#[global] Instance eq_dec : EqDecision t.
Proof. solve_decision. Defined.
End CompareOp.

Module ArithOp.
Inductive t : Type := Add | Sub | Mul | Div.
#[global] Instance eq_dec : EqDecision t.
Proof. solve_decision. Defined.
End ArithOp.

Inductive CheckExpression : Type :=
  | Property (name : bytes)
  | Literal (v : Value)
  | Compare (op : CompareOp.t) (left right : CheckExpression)
  | And (l r : CheckExpression)
  | Or (l r : CheckExpression)
  | Not (e : CheckExpression)
  | Arith (l : CheckExpression) (op : ArithOp.t) (r : CheckExpression)
  | If (cond then_expr else_expr : CheckExpression).

(* ------------------------------------------------------------------ *)
(** * Operators on values *)

Definition is_truthy (v : Value) : bool :=
  match v with
  | VNull => false
  | VBool b => b
  | VInt i => negb (i =? 0)
  | VFloat f => negb (f64_is_zero (f64_of_bits f))
  | VText [] | VBytes [] | VList [] | VMap [] => false
  | _ => true
  end.

Definition in_i64 (z : Z) : bool := (- 2 ^ 63 <=? z) && (z <? 2 ^ 63).
Definition int_result (z : Z) : SResult Value := if in_i64 z then SOk (VInt z) else SPanic.
Definition float_result (x : spec_float) : SResult Value := SOk (VFloat (f64_to_bits x)).

(** The numeric pairs, an integer beside a double widened to one. *)
Definition arith_numeric (fi : Z -> Z -> Z) (ff : spec_float -> spec_float -> spec_float) (left right : Value) : option (SResult Value) :=
  match left, right with
  | VInt l, VInt r => Some (int_result (fi l r))
  | VInt l, VFloat r => Some (float_result (ff (f64_of_int l) (f64_of_bits r)))
  | VFloat l, VInt r => Some (float_result (ff (f64_of_bits l) (f64_of_int r)))
  | VFloat l, VFloat r => Some (float_result (ff (f64_of_bits l) (f64_of_bits r)))
  | _, _ => None
  end.
Definition is_div_zero (right : Value) : bool :=
  match right with VInt i => i =? 0 | VFloat f => f64_is_zero (f64_of_bits f) | _ => false end.
Definition DIVISION_BY_ZERO : string := "division by zero".
Definition arith_values (op : ArithOp.t) (left right : Value) : SResult Value :=
  match op with
  | ArithOp.Add =>
      match arith_numeric Z.add f64_add left right, left, right with
      | Some r, _, _ => r
      | None, VText l, VText r => SOk (VText (l ++ r))
      | None, _, _ => SErr "cannot add"
      end
  | ArithOp.Sub => default (SErr "cannot subtract") (arith_numeric Z.sub f64_sub left right)
  | ArithOp.Mul => default (SErr "cannot multiply") (arith_numeric Z.mul f64_mul left right)
  | ArithOp.Div =>
      if is_div_zero right then SErr DIVISION_BY_ZERO
      else default (SErr "cannot divide") (arith_numeric Z.quot f64_div left right)
  end.

(** [compare_ordered] at a type whose order is given by its two tests; the equality
    operators do not reach it. *)
Definition compare_ordered {T} (ltb leb : T -> T -> bool) (op : CompareOp.t) (l r : T) : SResult bool :=
  match op with
  | CompareOp.Lt => SOk (ltb l r)
  | CompareOp.Lte => SOk (leb l r)
  | CompareOp.Gt => SOk (ltb r l)
  | CompareOp.Gte => SOk (leb r l)
  | CompareOp.Eq | CompareOp.Neq => SPanic
  end.
Definition compare_values (op : CompareOp.t) (left right : Value) : SResult bool :=
  match op with
  | CompareOp.Eq => SOk (value_eqb left right)
  | CompareOp.Neq => SOk (negb (value_eqb left right))
  | _ =>
      match left, right with
      | VInt l, VInt r => compare_ordered Z.ltb Z.leb op l r
      | VInt l, VFloat r => compare_ordered SFltb SFleb op (f64_of_int l) (f64_of_bits r)
      | VFloat l, VInt r => compare_ordered SFltb SFleb op (f64_of_bits l) (f64_of_int r)
      | VFloat l, VFloat r => compare_ordered SFltb SFleb op (f64_of_bits l) (f64_of_bits r)
      | VText l, VText r => compare_ordered bytes_ltb bytes_leb op l r
      | _, _ => SErr "cannot compare"
      end
  end.

(* ------------------------------------------------------------------ *)
(** * Evaluation *)

(** [evaluate] and [eval_value]; in the source [evaluate] of an arithmetic node calls
    [eval_value] on the node itself, which is written out here. *)
Fixpoint evaluate (e : CheckExpression) (props : PropertyMap) : SResult bool :=
  match e with
  | Property name => match btree_get props name with Some v => SOk (is_truthy v) | None => SErr "property not found" end
  | Literal v => SOk (is_truthy v)
  | Compare op l r => l ← eval_value l props; r ← eval_value r props; compare_values op l r
  | And l r => b ← evaluate l props; if (b : bool) then evaluate r props else SOk false
  | Or l r => b ← evaluate l props; if (b : bool) then SOk true else evaluate r props
  | Not e => b ← evaluate e props; SOk (negb b)
  | Arith l op r => v ← (l ← eval_value l props; r ← eval_value r props; arith_values op l r); SOk (is_truthy v)
  | If cond t f => b ← evaluate cond props; if (b : bool) then evaluate t props else evaluate f props
  end
with eval_value (e : CheckExpression) (props : PropertyMap) : SResult Value :=
  match e with
  | Property name => match btree_get props name with Some v => SOk v | None => SErr "property not found" end
  | Literal v => SOk v
  | Arith l op r => l ← eval_value l props; r ← eval_value r props; arith_values op l r
  | If cond t f => b ← evaluate cond props; if (b : bool) then eval_value t props else eval_value f props
  | _ => SErr "expected value expression, got logical or comparison"
  end.

Fixpoint collect_refs (e : CheckExpression) (out : list bytes) : list bytes :=
  match e with
  | Property name => out ++ [name]
  | Literal _ => out
  | Compare _ l r | And l r | Or l r | Arith l _ r => collect_refs r (collect_refs l out)
  | Not e => collect_refs e out
  | If c t f => collect_refs f (collect_refs t (collect_refs c out))
  end.
Definition referenced_properties (e : CheckExpression) : list bytes := collect_refs e [].

(* ------------------------------------------------------------------ *)
(** * Evaluation looks at the referenced properties only *)

Fixpoint refs (e : CheckExpression) : list bytes :=
  match e with
  | Property name => [name]
  | Literal _ => []
  | Compare _ l r | And l r | Or l r | Arith l _ r => refs l ++ refs r
  | Not e => refs e
  | If c t f => refs c ++ refs t ++ refs f
  end.
Lemma collect_refs_app e : forall out, collect_refs e out = out ++ refs e.
Proof. induction e; intros out; cbn; rewrite ?app_nil_r; try done; rewrite ?IHe1, ?IHe2, ?IHe3, ?IHe; by rewrite <-?app_assoc. Qed.
Lemma referenced_refs e : referenced_properties e = refs e.
Proof. apply (collect_refs_app e []). Qed.

Definition result_sim (x y : SResult Value) : Prop :=
  match x, y with SOk v, SOk w => value_sim v w = true | SErr e, SErr e' => e = e' | SPanic, SPanic => True | _, _ => False end.
Lemma result_sim_refl x : result_sim x x.
Proof. destruct x; cbn; [apply value_sim_refl | done..]. Qed.

Lemma is_truthy_sim v w : value_sim v w = true -> is_truthy v = is_truthy w.
Proof.
  destruct v, w; try done; cbn [value_sim].
  - by intros ->%Bool.eqb_prop.
  - by intros ->%Z.eqb_eq.
  - intros H%f64_simb_spec. cbn. by erewrite is_zero_sim.
  - by intros ->%bytes_eqb_eq.
  - by intros ->%bytes_eqb_eq.
  - by destruct xs, xs0.
  - by destruct m, m0.
Qed.
Lemma compare_ordered_float op x y x' y' : f64_sim x x' -> f64_sim y y' -> compare_ordered SFltb SFleb op x y = compare_ordered SFltb SFleb op x' y'.
Proof. intros. destruct op; cbn; try done; f_equal; first [by apply SFltb_sim | by apply SFleb_sim]. Qed.
Ltac sim_value H := first [apply Z.eqb_eq in H as -> | apply f64_simb_spec in H | apply bytes_eqb_eq in H as ->].
Lemma compare_values_sim op v w v' w' : value_sim v v' = true -> value_sim w w' = true -> compare_values op v w = compare_values op v' w'.
Proof.
  intros Hv Hw. destruct op; cbn [compare_values]; try by rewrite (value_eqb_cong v w v' w').
  all: destruct v, v'; try done; destruct w, w'; try done; cbn [value_sim] in Hv, Hw; sim_value Hv; sim_value Hw; try done; by apply compare_ordered_float.
Qed.

Lemma float_result_sim x y : f64_sim x y -> result_sim (float_result x) (float_result y).
Proof. intros H. cbn. by apply f64_simb_spec, bits_sim. Qed.
Definition divisor_sim (y y' : spec_float) : Prop := y = y' \/ f64_sim y y' /\ f64_is_zero y = false.
Lemma divisor_sim_sim y y' : divisor_sim y y' -> f64_sim y y'.
Proof. intros [->|[? _]]; done. Qed.
Lemma div_sim x y x' y' : f64_sim x x' -> divisor_sim y y' -> f64_sim (f64_div x y) (f64_div x' y').
Proof. intros Hx [->|[Hy Hz]]; [|by apply f64_div_sim]. destruct Hx as [->|(s & s' & -> & ->)]; [done|]. destruct y'; cbn; sim_cases. Qed.
Lemma arith_numeric_sim fi ff (D : spec_float -> spec_float -> Prop) v w v' w' :
  (forall x y x' y', f64_sim x x' -> D y y' -> f64_sim (ff x y) (ff x' y')) -> (forall y, D y y) ->
  (forall y y', f64_sim y y' -> f64_is_zero y = is_div_zero w -> D y y') -> value_sim v v' = true -> value_sim w w' = true ->
  match arith_numeric fi ff v w, arith_numeric fi ff v' w' with Some x, Some y => result_sim x y | None, None => True | _, _ => False end.
Proof.
  intros Hff Hr HD Hv Hw. destruct v, v'; try done; destruct w, w'; try done; cbn [value_sim] in Hv, Hw; sim_value Hv; sim_value Hw; cbn [arith_numeric];
    try apply result_sim_refl; apply float_result_sim, Hff; auto; done.
Qed.
Lemma arith_values_sim op v w v' w' : value_sim v v' = true -> value_sim w w' = true -> result_sim (arith_values op v w) (arith_values op v' w').
Proof.
  intros Hv Hw. assert (is_div_zero w = is_div_zero w') as Ez.
  { destruct w, w'; try done; cbn in Hw |- *; sim_value Hw; [done | by apply is_zero_sim]. }
  destruct op; cbn [arith_values].
  - pose proof (arith_numeric_sim Z.add f64_add f64_sim v w v' w' f64_add_sim ltac:(done) ltac:(auto) Hv Hw) as H.
    destruct (arith_numeric _ _ v w), (arith_numeric _ _ v' w'); try done.
    destruct v, v'; try done; destruct w, w'; try done; cbn [value_sim] in Hv, Hw; sim_value Hv; sim_value Hw; apply result_sim_refl.
  - pose proof (arith_numeric_sim Z.sub f64_sub f64_sim v w v' w' f64_sub_sim ltac:(done) ltac:(auto) Hv Hw) as H.
    by destruct (arith_numeric _ _ v w), (arith_numeric _ _ v' w').
  - pose proof (arith_numeric_sim Z.mul f64_mul f64_sim v w v' w' f64_mul_sim ltac:(done) ltac:(auto) Hv Hw) as H.
    by destruct (arith_numeric _ _ v w), (arith_numeric _ _ v' w').
  - rewrite <-Ez. destruct (is_div_zero w) eqn:Ew; [done|].
    pose proof (arith_numeric_sim Z.quot f64_div divisor_sim v w v' w' div_sim ltac:(by left) ltac:(intros; right; by rewrite <-Ew) Hv Hw) as H.
    by destruct (arith_numeric _ _ v w), (arith_numeric _ _ v' w').
Qed.

(** Two maps agree on a name when they hold indistinguishable values there. *)
Definition agree_on (names : list bytes) (p q : PropertyMap) : Prop := forall x, x ∈ names -> opt_sim (btree_get p x) (btree_get q x) = true.
Lemma agree_app a b p q : agree_on (a ++ b) p q -> agree_on a p q /\ agree_on b p q.
Proof. unfold agree_on. set_solver. Qed.
Lemma evaluate_arith l op r p : evaluate (Arith l op r) p = (v ← eval_value (Arith l op r) p; SOk (is_truthy v)).
Proof. done. Qed.
Lemma evaluate_agrees e : forall p q, agree_on (refs e) p q -> evaluate e p = evaluate e q /\ result_sim (eval_value e p) (eval_value e q).
Proof.
  induction e as [name|v|op l IHl r IHr|l IHl r IHr|l IHl r IHr|e IH|l IHl op r IHr|c IHc t IHt f IHf]; intros p q Ha; cbn [refs] in Ha.
  - specialize (Ha name ltac:(set_solver)). cbn. destruct (btree_get p name), (btree_get q name); try done. cbn in *. split; [by f_equal; apply is_truthy_sim | done].
  - split; [done | apply result_sim_refl].
  - apply agree_app in Ha as [[_ Hl]%IHl [_ Hr]%IHr]. split; [|done]. cbn. destruct (eval_value l p), (eval_value l q); try done; cbn in *; [|by subst].
    destruct (eval_value r p), (eval_value r q); try done; cbn in *; [|by subst]. by apply compare_values_sim.
  - apply agree_app in Ha as [[Hl _]%IHl [Hr _]%IHr]. split; [|done]. cbn. by rewrite Hl, Hr.
  - apply agree_app in Ha as [[Hl _]%IHl [Hr _]%IHr]. split; [|done]. cbn. by rewrite Hl, Hr.
  - apply IH in Ha as [H _]. split; [|done]. cbn. by rewrite H.
  - apply agree_app in Ha as [[_ Hl]%IHl [_ Hr]%IHr].
    assert (result_sim (eval_value (Arith l op r) p) (eval_value (Arith l op r) q)) as H.
    { cbn. destruct (eval_value l p), (eval_value l q); try done; cbn in *. destruct (eval_value r p), (eval_value r q); try done; cbn in *. by apply arith_values_sim. }
    split; [|done]. rewrite !evaluate_arith. destruct (eval_value (Arith l op r) p), (eval_value (Arith l op r) q); try done; cbn in H |- *; [by f_equal; apply is_truthy_sim | by subst].
  - apply agree_app in Ha as [[Hc _]%IHc [[Ht Ht']%IHt [Hf Hf']%IHf]%agree_app]. cbn. rewrite Hc. destruct (evaluate c q) as [[]| |]; done.
Qed.
