(* ===== verification/Schema.v ===== *)
(** crates/kernel/src/knowledge/kom.rs and lifecycle/schema.rs: the schema of a type, the type
    check of a value, the domain constraints of a property, and the validation of an object
    against its registered schema.  Regular expressions are a parameter (the regex crate):
    [regex_captures pattern text] is [None] for a pattern that does not compile. *)

From Stdlib Require Import SpecFloat String.
From stdpp Require Import gmap.
From S2P Require Import Prelude Memtable Kom Codec CodecProps Store Repository Commit Auth Expr.

Class Regex : Type := { regex_captures : bytes -> option (bytes -> option (list bytes)) }.

(* ------------------------------------------------------------------ *)
(** * Schemas *)

Module UniquenessScope.
Inductive t : Type := Type_ | Tenant | Global.
#[global] Instance eq_dec : EqDecision t.
Proof. solve_decision. Defined.
End UniquenessScope.
Module ConstraintTiming.
Inductive t : Type := Immediate | Deferred.
#[global] Instance eq_dec : EqDecision t.
Proof. solve_decision. Defined.
End ConstraintTiming.
Module ViolationSeverity.
Inductive t : Type := Error | Warning | Info_.
#[global] Instance eq_dec : EqDecision t.
Proof. solve_decision. Defined.
End ViolationSeverity.
Module EnforcementMode.
Inductive t : Type := Enforced | Validated | Advisory | Disabled.
#[global] Instance eq_dec : EqDecision t.
Proof. solve_decision. Defined.
End EnforcementMode.

Inductive DomainConstraint : Type :=
  | Range (min max : option Z)
  | Pattern (p : bytes)
  | Length (min max : option Z)
  | Enum (vs : list Value)
  | Format (f : bytes).
Record SchemaProperty : Type := mkSchemaProperty {
  sp_name : bytes; sp_value_type : bytes; sp_required : bool; sp_nullable : bool; sp_provenance_required : bool; sp_domain_constraints : list DomainConstraint }.
Record UniqueConstraint : Type := mkUniqueConstraint {
  uc_properties : list bytes; uc_scope : UniquenessScope.t; uc_timing : ConstraintTiming.t; uc_mode : EnforcementMode.t; uc_severity : ViolationSeverity.t }.
Record CheckConstraint : Type := mkCheckConstraint {
  cc_name : bytes; cc_predicate : CheckExpression; cc_timing : ConstraintTiming.t; cc_mode : EnforcementMode.t; cc_severity : ViolationSeverity.t }.
Record CardinalityConstraint : Type := mkCardinalityConstraint {
  kc_name : bytes; kc_relationship_type : bytes; kc_min_outbound : option Z; kc_max_outbound : option Z; kc_mode : EnforcementMode.t; kc_severity : ViolationSeverity.t }.
Record TemporalConstraint : Type := mkTemporalConstraint {
  tc_name : bytes; tc_start_property : bytes; tc_end_property : bytes; tc_mode : EnforcementMode.t; tc_severity : ViolationSeverity.t }.
Record Schema : Type := mkSchema {
  sc_type_name : bytes; sc_schema_version : Z; sc_required_properties : list bytes; sc_allowed_properties : option (gset bytes);
  sc_properties : list SchemaProperty; sc_unique_constraints : list UniqueConstraint; sc_check_constraints : list CheckConstraint;
  sc_cardinality_constraints : list CardinalityConstraint; sc_temporal_constraints : list TemporalConstraint }.

Definition enabled (m : EnforcementMode.t) : bool := negb (bool_decide (m = EnforcementMode.Disabled)).
Definition has_enabled_constraints (s : Schema) : bool :=
  existsb (fun p => match sp_domain_constraints p with [] => sp_provenance_required p | _ => true end) (sc_properties s) ||
  existsb (fun c => enabled (uc_mode c)) (sc_unique_constraints s) || existsb (fun c => enabled (cc_mode c)) (sc_check_constraints s) ||
  existsb (fun c => enabled (kc_mode c)) (sc_cardinality_constraints s) || existsb (fun c => enabled (tc_mode c)) (sc_temporal_constraints s).

(** The builders [Schema::new], [require] and [allow]. *)
Definition schema_new (ty : bytes) (version : Z) : Schema := mkSchema ty version [] None [] [] [] [] [].
Definition require (s : Schema) (prop : bytes) : Schema :=
  mkSchema (sc_type_name s) (sc_schema_version s) (sc_required_properties s ++ [prop]) (sc_allowed_properties s) (sc_properties s) (sc_unique_constraints s)
    (sc_check_constraints s) (sc_cardinality_constraints s) (sc_temporal_constraints s).
Definition allow (s : Schema) (prop : bytes) : Schema :=
  mkSchema (sc_type_name s) (sc_schema_version s) (sc_required_properties s) (Some (default ∅ (sc_allowed_properties s) ∪ {[prop]})) (sc_properties s)
    (sc_unique_constraints s) (sc_check_constraints s) (sc_cardinality_constraints s) (sc_temporal_constraints s).

(* ------------------------------------------------------------------ *)
(** * Values against a property *)

Definition type_mismatch : SResult unit := SErr "type mismatch".
Definition one_of (t : bytes) (names : list string) : bool := existsb (fun n => bytes_eqb t (txt n)) names.
Definition type_check (v : Value) (prop : SchemaProperty) : SResult unit :=
  let accepts names := if one_of (sp_value_type prop) names then SOk tt else type_mismatch in
  match v with
  | VNull => if sp_nullable prop then SOk tt else SErr "not nullable but got Null"
  | VBool _ => accepts ["Bool"%string]
  | VInt _ => accepts ["Int"%string; "Float"%string]
  | VFloat _ => accepts ["Float"%string]
  | VText _ => accepts ["Text"%string; "DateTime"%string; "Json"%string]
  | VBytes _ => accepts ["Bytes"%string]
  | VList _ => accepts ["List"%string]
  | VMap _ => accepts ["Map"%string; "Json"%string]
  end.

(** [str::parse::<u32>]: an optional plus sign, then at least one decimal digit. *)
Definition digit_of (b : byte) : option Z := let z := byte_val b - 48 in if (0 <=? z) && (z <=? 9) then Some z else None.
Fixpoint parse_digits (bs : bytes) (acc : Z) : option Z :=
  match bs with
  | [] => Some acc
  | b :: bs => d ← digit_of b; if acc * 10 + d <? U32 then parse_digits bs (acc * 10 + d) else None
  end.
Definition parse_u32 (bs : bytes) : option Z :=
  let bs := match bs with b :: r => if bool_decide (b = x2b) then r else bs | [] => [] end in
  match bs with [] => None | _ => parse_digits bs 0 end.

Section Domain.
Context `{Regex}.

(** [Regex::new(p)?.is_match(s)]. *)
Definition is_match (pattern : bytes) (s : bytes) : option bool := match regex_captures pattern with Some m => Some (bool_decide (is_Some (m s))) | None => None end.
Definition EMAIL_RE : bytes := txt "^[a-zA-Z0-9._%+-]+@[a-zA-Z0-9.-]+\.[a-zA-Z]{2,}$".
Definition URL_RE : bytes := txt "^https?://[a-zA-Z0-9.-]+(:\d+)?(/[^\s]*)?$".
Definition UUID_RE : bytes := txt "^[0-9a-fA-F]{8}-[0-9a-fA-F]{4}-[0-9a-fA-F]{4}-[0-9a-fA-F]{4}-[0-9a-fA-F]{12}$".
Definition DATE_RE : bytes := txt "^(\d{4})-(\d{2})-(\d{2})$".
Definition DATETIME_RE : bytes := txt "^\d{4}-\d{2}-\d{2}T\d{2}:\d{2}:\d{2}(\.\d+)?(Z|[+-]\d{2}:\d{2})?$".
(** A literal pattern is unwrapped. *)
Definition literal_match (pattern : bytes) (s : bytes) (msg : string) : SResult unit :=
  match is_match pattern s with Some true => SOk tt | Some false => SErr msg | None => SPanic end.
Definition validate_format (format : bytes) (value : Value) : SResult unit :=
  match value with
  | VText s =>
      if bytes_eqb format (txt "email") then literal_match EMAIL_RE s "not a valid email"
      else if bytes_eqb format (txt "url") then literal_match URL_RE s "not a valid URL"
      else if bytes_eqb format (txt "uuid") then literal_match UUID_RE s "not a valid UUID"
      else if bytes_eqb format (txt "date") then
        match regex_captures DATE_RE with
        | None => SPanic
        | Some m =>
            match m s with
            | Some caps =>
                match caps !! 2%nat, caps !! 3%nat with
                | Some c2, Some c3 =>
                    let month := default 0 (parse_u32 c2) in
                    let day := default 0 (parse_u32 c3) in
                    if (1 <=? month) && (month <=? 12) && (1 <=? day) && (day <=? 31) then SOk tt else SErr "not a valid date (YYYY-MM-DD)"
                | _, _ => SPanic
                end
            | None => SErr "not a valid date (YYYY-MM-DD)"
            end
        end
      else if bytes_eqb format (txt "datetime") then literal_match DATETIME_RE s "not a valid datetime (ISO 8601)"
      else SErr "unknown format"
  | _ => SErr "Format constraint requires Text"
  end.

Definition range_check {T} (ltb : T -> T -> bool) (n : T) (min max : option T) (low high : string) : SResult unit :=
  if match min with Some min => ltb n min | None => false end then SErr low
  else if match max with Some max => ltb max n | None => false end then SErr high
  else SOk tt.
(** [DomainConstraint::validate]; a length is in bytes. *)
Definition dc_validate (d : DomainConstraint) (value : Value) : SResult unit :=
  match d with
  | Range min max =>
      let check n := range_check SFltb n (f64_of_bits <$> min) (f64_of_bits <$> max) "value is below minimum" "value exceeds maximum" in
      match value with
      | VInt i => check (f64_of_int i)
      | VFloat f => check (f64_of_bits f)
      | _ => SErr "Range constraint requires numeric value"
      end
  | Pattern p =>
      match value with
      | VText s => match is_match p s with Some true => SOk tt | Some false => SErr "value does not match pattern" | None => SErr "invalid regex pattern" end
      | _ => SErr "Pattern constraint requires Text value"
      end
  | Length min max =>
      match value with
      | VText s | VBytes s => range_check Z.ltb (zlen s) min max "length is below minimum" "length exceeds maximum"
      | _ => SErr "Length constraint requires Text or Bytes"
      end
  | Enum vs => if existsb (fun v => value_eqb v value) vs then SOk tt else SErr "value is not one of the allowed enum values"
  | Format f => validate_format f value
  end.
End Domain.

(* ------------------------------------------------------------------ *)
(** * An object against its schema *)

Definition has_key {V} (m : list (bytes * V)) (k : bytes) : bool := bool_decide (is_Some (btree_get m k)).
Definition kof {A} (r : SResult A) : KResult A := match r with SOk a => KOk a | SErr m => KErr (InvalidSchema m) | SPanic => KPanic end.

(** [ensure_allowed_includes_required]: an assertion. *)
Definition allowed_includes_required (s : Schema) : bool :=
  match sc_allowed_properties s with Some allowed => forallb (fun r => bool_decide (r ∈ allowed)) (sc_required_properties s) | None => true end.
Definition validate_against (ko : KnowledgeObject) (s : Schema) (skip_not_null : bool) : KResult unit :=
  if negb (allowed_includes_required s) then KPanic
  else if negb (bytes_eqb (type_name (ko_metadata ko)) (sc_type_name s)) then KErr (InvalidSchema "type_name mismatch")
  else if negb (schema_version (ko_metadata ko) =? sc_schema_version s) then KErr (InvalidSchema "schema_version mismatch")
  else if negb skip_not_null && existsb (fun r => negb (has_key (ko_properties ko) r)) (sc_required_properties s) then KErr (InvalidSchema "missing required property")
  else if match sc_allowed_properties s with Some allowed => existsb (fun kv => negb (bool_decide (kv.1 ∈ allowed))) (ko_properties ko) | None => false end then
    KErr (InvalidSchema "unknown core field")
  else KOk tt.

(** [SchemaRegistry]: the schemas by type, and [validate]. *)
Abbreviation SchemaRegistry := (gmap bytes Schema).
Definition register (reg : SchemaRegistry) (s : Schema) : SchemaRegistry := <[sc_type_name s := s]> reg.
Fixpoint check_properties (defs : list SchemaProperty) (props : PropertyMap) (skip_not_null : bool) : KResult unit :=
  match defs with
  | [] => KOk tt
  | d :: defs =>
      _ ← match btree_get props (sp_name d) with
          | Some v => kof (type_check v d)
          | None => if negb skip_not_null && sp_required d then KErr (InvalidSchema "missing required property") else KOk tt
          end;
      check_properties defs props skip_not_null
  end.
Definition registry_validate (reg : SchemaRegistry) (ko : KnowledgeObject) (skip_not_null : bool) : KResult unit :=
  _ ← ko_validate ko;
  match reg !! type_name (ko_metadata ko) with
  | Some s => _ ← validate_against ko s skip_not_null; check_properties (sc_properties s) (ko_properties ko) skip_not_null
  | None => KOk tt
  end.

(* ------------------------------------------------------------------ *)
(** * Types of check expressions *)

(** What a declared property type says of a value: a number (an integer is accepted where a
    double is declared), a text, or nothing an operator can use. *)
Module Ty.
Inductive t : Type := Num | Text | Any.
#[global] Instance eq_dec : EqDecision t.
Proof. solve_decision. Defined.
End Ty.
Definition ty_of (v : Value) : Ty.t := match v with VInt _ | VFloat _ => Ty.Num | VText _ => Ty.Text | _ => Ty.Any end.
Definition has_ty (v : Value) (t : Ty.t) : Prop := t = Ty.Any \/ ty_of v = t.
Definition declared_ty (d : SchemaProperty) : Ty.t :=
  if one_of (sp_value_type d) ["Int"%string; "Float"%string] then Ty.Num else if one_of (sp_value_type d) ["Text"%string; "DateTime"%string] then Ty.Text else Ty.Any.
(** The type of a property that every valid object has, and not null. *)
Definition prop_ty (s : Schema) (name : bytes) : option Ty.t :=
  declared_ty <$> List.find (fun d => bytes_eqb (sp_name d) name && sp_required d && negb (sp_nullable d)) (sc_properties s).

Definition arith_ty (op : ArithOp.t) (a b : Ty.t) : option Ty.t :=
  match a, b with
  | Ty.Num, Ty.Num => Some Ty.Num
  | Ty.Text, Ty.Text => if bool_decide (op = ArithOp.Add) then Some Ty.Text else None
  | _, _ => None
  end.
Definition compare_ty (op : CompareOp.t) (a b : Ty.t) : bool :=
  match op with
  | CompareOp.Eq | CompareOp.Neq => true
  | _ => bool_decide (a = b) && negb (bool_decide (a = Ty.Any))
  end.
Section Typing.
Context (Γ : bytes -> option Ty.t).
Fixpoint typed_bool (e : CheckExpression) : bool :=
  match e with
  | Property n => bool_decide (is_Some (Γ n))
  | Literal _ => true
  | Compare op l r => match typed_value l, typed_value r with Some a, Some b => compare_ty op a b | _, _ => false end
  | And l r | Or l r => typed_bool l && typed_bool r
  | Not e => typed_bool e
  | Arith l op r => match typed_value l, typed_value r with Some a, Some b => bool_decide (is_Some (arith_ty op a b)) | _, _ => false end
  | If c t f => typed_bool c && typed_bool t && typed_bool f
  end
with typed_value (e : CheckExpression) : option Ty.t :=
  match e with
  | Property n => Γ n
  | Literal v => Some (ty_of v)
  | Arith l op r => match typed_value l, typed_value r with Some a, Some b => arith_ty op a b | _, _ => None end
  | If c t f =>
      if typed_bool c then
        match typed_value t, typed_value f with Some a, Some b => Some (if bool_decide (a = b) then a else Ty.Any) | _, _ => None end
      else None
  | _ => None
  end.
End Typing.

(** Arithmetic may divide by zero or overflow; nothing else may fail. *)
Fixpoint has_arith (e : CheckExpression) : bool :=
  match e with
  | Property _ | Literal _ => false
  | Compare _ l r | And l r | Or l r => has_arith l || has_arith r
  | Not e => has_arith e
  | Arith _ _ _ => true
  | If c t f => has_arith c || has_arith t || has_arith f
  end.
Definition safe {A} (arith : bool) (P : A -> Prop) (r : SResult A) : Prop :=
  match r with SOk a => P a | SErr m => arith = true /\ m = DIVISION_BY_ZERO | SPanic => arith = true end.
Lemma safe_bind {A B} (arith arith' : bool) (P : A -> Prop) (Q : B -> Prop) m (f : A -> SResult B) :
  safe arith P m -> (arith = true -> arith' = true) -> (forall a, P a -> safe arith' Q (f a)) -> safe arith' Q (m ≫= f).
Proof. intros Hm Ha Hf. destruct m; cbn in *; [by apply Hf | naive_solver | auto]. Qed.
Lemma safe_weaken {A} (arith arith' : bool) (P Q : A -> Prop) m : safe arith P m -> (arith = true -> arith' = true) -> (forall a, P a -> Q a) -> safe arith' Q m.
Proof. intros Hm Ha Hp. destruct m; cbn in *; [by apply Hp | naive_solver | auto]. Qed.

Lemma has_ty_num v : has_ty v Ty.Num -> (exists i, v = VInt i) \/ (exists f, v = VFloat f).
Proof. intros [?|H]; [done|]. destruct v; try done; eauto. Qed.
Lemma has_ty_text v : has_ty v Ty.Text -> exists s, v = VText s.
Proof. intros [?|H]; [done|]. destruct v; try done; eauto. Qed.
Lemma int_result_safe z : safe true (fun v => has_ty v Ty.Num) (int_result z).
Proof. unfold int_result. destruct (in_i64 z); [by right | done]. Qed.
Lemma arith_values_safe op a b t v w : arith_ty op a b = Some t -> has_ty v a -> has_ty w b -> safe true (fun x => has_ty x t) (arith_values op v w).
Proof.
  intros Et Hv Hw. destruct a, b; try done.
  - injection Et as <-. apply has_ty_num in Hv as [[i ->]|[f ->]], Hw as [[j ->]|[g ->]]; destruct op; cbn [arith_values arith_numeric default is_div_zero];
      try case_match; try done; try apply int_result_safe; by right.
  - cbn in Et. case_bool_decide as E; [|done]. injection Et as <-. subst op. apply has_ty_text in Hv as [x ->], Hw as [y ->]. by right.
Qed.
Lemma compare_values_safe op a b v w : compare_ty op a b = true -> has_ty v a -> has_ty w b -> exists x, compare_values op v w = SOk x.
Proof.
  intros Ht Hv Hw. destruct op; cbn [compare_values compare_ty] in *; try by eexists.
  all: apply andb_true_iff in Ht as [<-%bool_decide_eq_true Ha]; destruct a; [apply has_ty_num in Hv as [[i ->]|[f ->]], Hw as [[j ->]|[g ->]]; cbn; by eexists | | done];
    apply has_ty_text in Hv as [x ->], Hw as [y ->]; cbn; by eexists.
Qed.

(** Every property with a type is there, with a value of that type. *)
Definition conforms (Γ : bytes -> option Ty.t) (props : PropertyMap) : Prop := forall n t, Γ n = Some t -> exists v, btree_get props n = Some v /\ has_ty v t.
Lemma typed_safe Γ props e : conforms Γ props ->
  (typed_bool Γ e = true -> safe (has_arith e) (fun _ => True) (evaluate e props)) /\
  (forall t, typed_value Γ e = Some t -> safe (has_arith e) (fun v => has_ty v t) (eval_value e props)).
Proof.
  intros Hc. induction e as [name|v|op l IHl r IHr|l IHl r IHr|l IHl r IHr|e IH|l IHl op r IHr|c IHc t IHt f IHf]; cbn [typed_bool typed_value has_arith].
  - split; [intros [t Ht]%bool_decide_eq_true | intros t Ht]; destruct (Hc name t Ht) as (v & E & Hv); cbn; rewrite E; done.
  - split; [done|]. intros t [= <-]. by right.
  - split; [|done]. intros Ht. destruct (typed_value Γ l) as [a|] eqn:El, (typed_value Γ r) as [b|] eqn:Er; try done.
    apply (safe_bind _ _ _ _ _ _ (proj2 IHl a eq_refl)); [intros ->; done|]. intros v Hv. apply (safe_bind _ _ _ _ _ _ (proj2 IHr b eq_refl)); [intros ->; by rewrite orb_true_r|].
    intros w Hw. destruct (compare_values_safe op a b v w) as [x ->]; done.
  - split; [|done]. intros [Hl Hr]%andb_true_iff. apply (safe_bind _ _ _ _ _ _ (proj1 IHl Hl)); [intros ->; done|]. intros [] _; [|done].
    apply (safe_weaken _ _ _ _ _ (proj1 IHr Hr)); [intros ->; by rewrite orb_true_r | done].
  - split; [|done]. intros [Hl Hr]%andb_true_iff. apply (safe_bind _ _ _ _ _ _ (proj1 IHl Hl)); [intros ->; done|]. intros [] _; [done|].
    apply (safe_weaken _ _ _ _ _ (proj1 IHr Hr)); [intros ->; by rewrite orb_true_r | done].
  - split; [|done]. intros He. by apply (safe_bind _ _ _ _ _ _ (proj1 IH He)).
  - assert (forall t, match typed_value Γ l, typed_value Γ r with Some a, Some b => arith_ty op a b | _, _ => None end = Some t ->
      safe true (fun v => has_ty v t) (eval_value (Arith l op r) props)) as Hv.
    { intros t Ht. destruct (typed_value Γ l) as [a|], (typed_value Γ r) as [b|]; try done. apply (safe_bind _ _ _ _ _ _ (proj2 IHl a eq_refl)); [done|]. intros v Hv.
      apply (safe_bind _ _ _ _ _ _ (proj2 IHr b eq_refl)); [done|]. intros w Hw. by apply (arith_values_safe op a b). }
    split; [|done]. intros Ht. rewrite evaluate_arith. destruct (typed_value Γ l) as [a|], (typed_value Γ r) as [b|]; try done.
    apply bool_decide_eq_true in Ht as [t Ht]. by apply (safe_bind _ _ _ _ _ _ (Hv t Ht)).
  - split.
    + intros [[Hcc Ht]%andb_true_iff Hf]%andb_true_iff. apply (safe_bind _ _ _ _ _ _ (proj1 IHc Hcc)); [intros ->; done|].
      intros [] _; [apply (safe_weaken _ _ _ _ _ (proj1 IHt Ht)) | apply (safe_weaken _ _ _ _ _ (proj1 IHf Hf))]; try done; intros ->; by rewrite ?orb_true_r.
    + intros x. destruct (typed_bool Γ c); [|done]. destruct (typed_value Γ t) as [a|], (typed_value Γ f) as [b|]; try done. intros [= <-].
      apply (safe_bind _ _ _ _ _ _ (proj1 IHc eq_refl)); [intros ->; done|].
      intros [] _; [apply (safe_weaken _ _ _ _ _ (proj2 IHt a eq_refl)) | apply (safe_weaken _ _ _ _ _ (proj2 IHf b eq_refl))];
        try (intros ->; by rewrite ?orb_true_r); intros v Hv; case_bool_decide; subst; try done; by left.
Qed.

Lemma check_properties_ok defs props d : check_properties defs props false = KOk tt -> d ∈ defs ->
  match btree_get props (sp_name d) with Some v => type_check v d = SOk tt | None => sp_required d = false end.
Proof.
  induction defs as [|d' defs IH]; [set_solver|]. cbn [check_properties]. intros H Hd. apply elem_of_cons in Hd as [->|Hd].
  - destruct (btree_get props (sp_name d')) as [v|]; [by destruct (type_check v d') as [[]| |] | by destruct (sp_required d')].
  - apply IH; [|done]. by destruct (match btree_get props (sp_name d') with Some v => _ | None => _ end).
Qed.
Lemma one_of_inv t names : one_of t names = true -> exists n, n ∈ names /\ t = txt n.
Proof. unfold one_of. intros (n & Hn%list_elem_of_In & ->%bytes_eqb_eq)%existsb_exists. eauto. Qed.
Lemma type_check_ty v d : type_check v d = SOk tt -> sp_nullable d = false -> has_ty v (declared_ty d).
Proof.
  intros H Hn. unfold has_ty, declared_ty.
  assert (forall names, (if one_of (sp_value_type d) names then SOk tt else type_mismatch) = SOk tt -> exists n, n ∈ names /\ sp_value_type d = txt n) as Ho.
  { intros names Hi. destruct (one_of _ names) eqn:E; [by apply one_of_inv | done]. }
  destruct v; unfold type_check in H; [by rewrite Hn in H | apply Ho in H..]; destruct H as (n & Hin & ->); clear Ho;
    repeat (apply elem_of_cons in Hin as [->|Hin]; [vm_compute; first [by left | by right]|]); by apply elem_of_nil in Hin.
Qed.
Lemma validate_conforms reg ko s : registry_validate reg ko false = KOk tt -> reg !! type_name (ko_metadata ko) = Some s -> conforms (prop_ty s) (ko_properties ko).
Proof.
  unfold registry_validate. intros Hv Hs n t Ht. rewrite Hs in Hv. destruct (ko_validate ko) as [[]| |]; try done. cbn [mbind KResult_bind] in Hv.
  destruct (validate_against ko s false) as [[]| |]; try done. cbn [mbind KResult_bind] in Hv.
  unfold prop_ty in Ht. apply fmap_Some in Ht as (d & Hd & ->). apply find_some in Hd as [Hd%list_elem_of_In [[<-%bytes_eqb_eq Hr]%andb_true_iff Hn%negb_true_iff]%andb_true_iff].
  pose proof (check_properties_ok _ _ d Hv Hd) as H. destruct (btree_get (ko_properties ko) (sp_name d)) as [v|]; [|by rewrite Hr in H].
  exists v. split; [done | by apply type_check_ty].
Qed.

(** C22: check expressions are type safe.  On an object that validates against its schema, an
    expression that is well typed for the schema's required, non-null properties evaluates to
    a boolean; only an arithmetic node can make it fail, and then by a division by zero or an
    integer overflow. *)
Theorem check_type_safe reg ko s e :
  registry_validate reg ko false = KOk tt -> reg !! type_name (ko_metadata ko) = Some s -> typed_bool (prop_ty s) e = true ->
  match evaluate e (ko_properties ko) with
  | SOk _ => True
  | SErr m => has_arith e = true /\ m = DIVISION_BY_ZERO
  | SPanic => has_arith e = true
  end.
Proof. intros Hv Hs Ht. pose proof (proj1 (typed_safe _ _ e (validate_conforms _ _ _ Hv Hs)) Ht) as H. by destruct (evaluate e _). Qed.

(* ------------------------------------------------------------------ *)
(** * A schema *)

Definition person_schema : Schema :=
  mkSchema [x74] 1 [] None [mkSchemaProperty (txt "age") (txt "Int") true false false []] [] [] [] [].
Definition adult : CheckExpression := Compare CompareOp.Gte (Property (txt "age")) (Literal (VInt 18)).
Definition person (age : Z) : KnowledgeObject :=
  mkKnowledgeObject (koid_of 1 0 1) 1 0 (mkMetadata [x74] None 1 []) [(txt "age", VInt age)] None [] [] (mkSecurityDescriptor [x6f] [] None)
    (mkLifecycle LifecycleState.Draft Origin.Human) [].
Lemma check_type_safe_witness :
  registry_validate {[ [x74] := person_schema ]} (person 20) false = KOk tt /\ typed_bool (prop_ty person_schema) adult = true /\
  match evaluate adult (ko_properties (person 20)) with SOk _ => True | SErr m => has_arith adult = true /\ m = DIVISION_BY_ZERO | SPanic => has_arith adult = true end.
Proof.
  assert (registry_validate {[ [x74] := person_schema ]} (person 20) false = KOk tt) as H1 by (vm_compute; reflexivity).
  assert (typed_bool (prop_ty person_schema) adult = true) as H2 by (vm_compute; reflexivity).
  split; [exact H1|]. split; [exact H2|]. exact (check_type_safe {[ [x74] := person_schema ]} (person 20) person_schema adult H1 eq_refl H2).
Defined.

(** A schema that requires one property and allows another makes every validation of its
    type panic. *)
Lemma closed_schema_panics ko a b skip : a <> b -> validate_against ko (allow (require (schema_new [x74] 1) a) b) skip = KPanic.
Proof.
  intros Hab. unfold validate_against. replace (allowed_includes_required _) with false; [done|]. unfold allowed_includes_required. cbn.
  by rewrite andb_true_r, bool_decide_false by set_solver.
Qed.
(** A text of one character fails a maximum length of one. *)
Lemma length_in_bytes `{Regex} : dc_validate (Length None (Some 1)) (VText [xc3; xa9]) = SErr "length exceeds maximum".
Proof. done. Qed.
(** The sum of a check overflows. *)
Lemma check_overflow_panics : evaluate (Compare CompareOp.Lte (Arith (Property [x61]) ArithOp.Add (Literal (VInt 1))) (Literal (VInt 10))) [([x61], VInt (2 ^ 63 - 1))] = SPanic.
Proof. done. Qed.
