(* ===== verification/Constraint.v ===== *)
(** crates/kernel/src/lifecycle/constraint.rs, with the violation records of knowledge/kom.rs:
    the evaluation of domain, provenance, check, temporal and cardinality constraints, whole
    or restricted to the properties a write changes.  The evaluation counters are left out. *)

From Stdlib Require Import SpecFloat String.
From stdpp Require Import gmap.
From S2P Require Import Prelude Memtable Kom Codec CodecProps Store Repository Commit Auth Expr Schema.

(* ------------------------------------------------------------------ *)
(** * Violations *)

Record ConstraintViolation : Type := mkConstraintViolation {
  cv_name : bytes; cv_message : string; cv_severity : ViolationSeverity.t; cv_mode : EnforcementMode.t; cv_timestamp : Z; cv_koid : option KOID }.
Definition violation_error (name : bytes) (msg : string) : ConstraintViolation :=
  mkConstraintViolation name msg ViolationSeverity.Error EnforcementMode.Enforced 0 None.
(** [if let Some(k) = koid { v.with_koid(k) } else { v }]. *)
Definition with_koid (v : ConstraintViolation) (koid : option KOID) : ConstraintViolation :=
  match koid with Some _ => mkConstraintViolation (cv_name v) (cv_message v) (cv_severity v) (cv_mode v) (cv_timestamp v) koid | None => v end.

Record ConstraintResult : Type := mkConstraintResult { cr_valid : bool; cr_violations : list ConstraintViolation; cr_warnings : list ConstraintViolation }.
Definition cr_ok : ConstraintResult := mkConstraintResult true [] [].
Definition cr_violate (r : ConstraintResult) (v : ConstraintViolation) : ConstraintResult := mkConstraintResult false (cr_violations r ++ [v]) (cr_warnings r).
Definition cr_merge (r other : ConstraintResult) : ConstraintResult :=
  mkConstraintResult (cr_valid r && cr_valid other) (cr_violations r ++ cr_violations other) (cr_warnings r ++ cr_warnings other).
Definition into_kresult (r : ConstraintResult) : KResult unit := if cr_valid r then KOk tt else KErr (InvalidSchema "constraint violations").

(** [dispatch]: an enforced or validated constraint blocks, an advisory one is recorded. *)
Definition dispatch (mode : EnforcementMode.t) (severity : ViolationSeverity.t) (event : ConstraintViolation) (r : ConstraintResult) : ConstraintResult :=
  let event := mkConstraintViolation (cv_name event) (cv_message event) severity mode (cv_timestamp event) (cv_koid event) in
  match mode with
  | EnforcementMode.Enforced | EnforcementMode.Validated => cr_violate r event
  | EnforcementMode.Advisory => mkConstraintResult (cr_valid r) (cr_violations r) (cr_warnings r ++ [event])
  | EnforcementMode.Disabled => r
  end.

(* ------------------------------------------------------------------ *)
(** * Evaluation *)

Abbreviation WriteSet := (option (gset bytes)).
Definition affected (ws : WriteSet) (name : bytes) : bool := match ws with None => true | Some ws => bool_decide (name ∈ ws) end.
Definition empty_set (ws : WriteSet) : bool := match ws with Some ws => bool_decide (ws = ∅) | None => false end.
Definition check_affected_by_write_set (cc : CheckConstraint) (ws : WriteSet) : bool :=
  match ws with None => true | Some ws => existsb (fun p => bool_decide (p ∈ ws)) (referenced_properties (cc_predicate cc)) end.
Definition unique_affected_by_write_set (uc : UniqueConstraint) (ws : WriteSet) : bool :=
  match ws with None => true | Some ws => existsb (fun p => bool_decide (p ∈ ws)) (uc_properties uc) end.

Definition eval_temporal (tc : TemporalConstraint) (props : PropertyMap) (koid : option KOID) : option ConstraintViolation :=
  let reversed (b : bool) := if b then Some (with_koid (violation_error (tc_name tc) "window reversed") koid) else None in
  match btree_get props (tc_start_property tc), btree_get props (tc_end_property tc) with
  | Some s, Some e =>
      match s, e with
      | VInt a, VInt b => reversed (b <? a)
      | VText a, VText b => reversed (bytes_ltb b a)
      | VNull, _ | _, VNull => None
      | _, _ => Some (with_koid (violation_error (tc_name tc) "window bounds must both be Int or both be Text") koid)
      end
  | _, _ => None
  end.

Section Evaluator.
Context `{Regex}.

Definition domain_step (props : PropertyMap) (ws : WriteSet) (koid : option KOID) (r : ConstraintResult) (d : SchemaProperty) : KResult ConstraintResult :=
  if affected ws (sp_name d) then
    match btree_get props (sp_name d) with
    | Some value =>
        kfold (fun r dc =>
          match dc_validate dc value with
          | SOk _ => KOk r
          | SErr msg => KOk (cr_violate r (with_koid (violation_error (txt "domain." ++ sp_name d) msg) koid))
          | SPanic => KPanic
          end) r (sp_domain_constraints d)
    | None => KOk r
    end
  else KOk r.
Definition provenance_step (koid : option KOID) (r : ConstraintResult) (d : SchemaProperty) : ConstraintResult :=
  if sp_provenance_required d then
    cr_violate r (with_koid (violation_error (txt "provenance." ++ sp_name d) "property requires provenance but no source recorded") koid)
  else r.
Definition check_event (name : bytes) (outcome : SResult bool) : KResult (option ConstraintViolation) :=
  match outcome with
  | SOk true => KOk None
  | SOk false => KOk (Some (violation_error name "check constraint failed"))
  | SErr msg => KOk (Some (violation_error name ("check constraint error: " ++ msg)))
  | SPanic => KPanic
  end.
Definition check_step (props : PropertyMap) (ws : WriteSet) (koid : option KOID) (r : ConstraintResult) (cc : CheckConstraint) : KResult ConstraintResult :=
  if negb (enabled (cc_mode cc)) then KOk r
  else if negb (check_affected_by_write_set cc ws) then KOk r
  else
    event ← check_event (cc_name cc) (evaluate (cc_predicate cc) props);
    KOk (match event with Some event => dispatch (cc_mode cc) (cc_severity cc) (with_koid event koid) r | None => r end).
Definition temporal_step (props : PropertyMap) (ws : WriteSet) (koid : option KOID) (r : ConstraintResult) (tc : TemporalConstraint) : ConstraintResult :=
  if negb (enabled (tc_mode tc)) then r
  else if negb (affected ws (tc_start_property tc) || affected ws (tc_end_property tc)) then r
  else match eval_temporal tc props koid with Some event => dispatch (tc_mode tc) (tc_severity tc) event r | None => r end.

Definition has_source (source : option bytes) : bool := match source with Some (_ :: _) => true | _ => false end.
Definition evaluate_full (s : Schema) (props : PropertyMap) (ws : WriteSet) (koid : option KOID) (source : option bytes) : KResult ConstraintResult :=
  if empty_set ws then KOk cr_ok
  else
    r ← kfold (domain_step props ws koid) cr_ok (sc_properties s);
    let r := if has_source source then r else fold_left (provenance_step koid) (sc_properties s) r in
    r ← kfold (check_step props ws koid) r (sc_check_constraints s);
    KOk (fold_left (temporal_step props ws koid) (sc_temporal_constraints s) r).

(** [evaluate]: domain and immediate check constraints, stopping at the first that blocks;
    the advisory violations seen before are returned. *)
Definition domain_first (props : PropertyMap) (ws : WriteSet) (_ : unit) (d : SchemaProperty) : KResult unit :=
  if affected ws (sp_name d) then
    match btree_get props (sp_name d) with
    | Some value => kfold (fun _ dc => kof (dc_validate dc value)) tt (sp_domain_constraints d)
    | None => KOk tt
    end
  else KOk tt.
Definition immediate_step (props : PropertyMap) (ws : WriteSet) (events : list ConstraintViolation) (cc : CheckConstraint) : KResult (list ConstraintViolation) :=
  if negb (bool_decide (cc_timing cc = ConstraintTiming.Immediate)) then KOk events
  else if negb (enabled (cc_mode cc)) then KOk events
  else if negb (check_affected_by_write_set cc ws) then KOk events
  else
    event ← check_event (cc_name cc) (evaluate (cc_predicate cc) props);
    let r := match event with Some event => dispatch (cc_mode cc) (cc_severity cc) event cr_ok | None => cr_ok end in
    if negb (cr_valid r) then KErr (InvalidSchema "check constraint failed") else KOk (events ++ cr_warnings r).
Definition evaluate_first (s : Schema) (props : PropertyMap) (ws : WriteSet) : KResult (list ConstraintViolation) :=
  if empty_set ws then KOk []
  else _ ← kfold (domain_first props ws) tt (sc_properties s); kfold (immediate_step props ws) [] (sc_check_constraints s).

Definition outbound_count (rels : list RelationshipRef) (ty : bytes) : Z :=
  as_u32 (zlen (List.filter (fun r => bool_decide (direction r = Direction.Outbound) && bytes_eqb (rel_type r) ty) rels)).
Definition cardinality_step (rels : list RelationshipRef) (koid : option KOID) (r : ConstraintResult) (cc : CardinalityConstraint) : ConstraintResult :=
  if negb (enabled (kc_mode cc)) then r
  else
    let count := outbound_count rels (kc_relationship_type cc) in
    let event :=
      if match kc_min_outbound cc with Some min => count <? min | None => false end then Some (violation_error (kc_name cc) "cardinality: below minimum")
      else if match kc_max_outbound cc with Some max => max <? count | None => false end then Some (violation_error (kc_name cc) "cardinality: above maximum")
      else None in
    match event with Some event => dispatch (kc_mode cc) (kc_severity cc) (with_koid event koid) r | None => r end.
Definition evaluate_cardinality (s : Schema) (rels : list RelationshipRef) (koid : option KOID) : ConstraintResult :=
  fold_left (cardinality_step rels koid) (sc_cardinality_constraints s) cr_ok.
End Evaluator.

(* ================================================================== *)
(** The evaluation of constraints: when an object is accepted, and that looking only at the
    constraints a write touches is enough. *)

(* ------------------------------------------------------------------ *)
(** * When an evaluation accepts *)

Definition accepts (m : KResult ConstraintResult) : bool := match m with KOk r => cr_valid r | _ => false end.
Definition blocking (m : EnforcementMode.t) : bool := match m with EnforcementMode.Enforced | EnforcementMode.Validated => true | _ => false end.

Lemma kfold_accepts {X} (f : ConstraintResult -> X -> KResult ConstraintResult) (P : X -> Prop) xs : forall r,
  (forall r x, x ∈ xs -> accepts (f r x) = true <-> cr_valid r = true /\ P x) -> accepts (kfold f r xs) = true <-> cr_valid r = true /\ forall x, x ∈ xs -> P x.
Proof.
  induction xs as [|x xs IH]; intros r Hf; [cbn; split; [intros ->; split; [done | intros ? []%elem_of_nil] | by intros [? _]]|].
  cbn [kfold]. pose proof (Hf r x ltac:(by left)) as Hx. destruct (f r x) as [r'| |] eqn:E; cbn [mbind KResult_bind accepts] in *.
  - rewrite IH by (intros; apply Hf; by right). rewrite Hx. setoid_rewrite elem_of_cons. naive_solver.
  - split; [done|]. intros [Hr Ha]. destruct (proj2 Hx (conj Hr (Ha x ltac:(by left)))). done.
  - split; [done|]. intros [Hr Ha]. destruct (proj2 Hx (conj Hr (Ha x ltac:(by left)))). done.
Qed.
Lemma fold_accepts {X} (f : ConstraintResult -> X -> ConstraintResult) (P : X -> Prop) xs r :
  (forall r x, cr_valid (f r x) = true <-> cr_valid r = true /\ P x) -> cr_valid (fold_left f xs r) = true <-> cr_valid r = true /\ forall x, x ∈ xs -> P x.
Proof.
  intros Hf. revert r. induction xs as [|x xs IH]; intros r; cbn; [split; [intros ->; split; [done | intros ? []%elem_of_nil] | by intros [? _]]|].
  rewrite IH, Hf. setoid_rewrite elem_of_cons. naive_solver.
Qed.
Lemma bind_accepts (m : KResult ConstraintResult) f (P : Prop) :
  (forall r, accepts (f r) = true <-> cr_valid r = true /\ P) -> accepts (m ≫= f) = true <-> accepts m = true /\ P.
Proof. intros Hf. destruct m; cbn; [apply Hf | naive_solver..]. Qed.
Lemma dispatch_valid mode sev ev r : cr_valid (dispatch mode sev ev r) = true <-> cr_valid r = true /\ blocking mode = false.
Proof. destruct mode; cbn; naive_solver. Qed.

Section Accept.
Context `{Regex}.
Context (s : Schema).

Definition domain_ok (p : PropertyMap) (ws : WriteSet) (d : SchemaProperty) : Prop :=
  affected ws (sp_name d) = true -> forall v, btree_get p (sp_name d) = Some v -> forall dc, dc ∈ sp_domain_constraints d -> dc_validate dc v = SOk tt.
(** A blocking check holds, and no check panics. *)
Definition check_ok (p : PropertyMap) (cc : CheckConstraint) : Prop :=
  match evaluate (cc_predicate cc) p with SOk true => True | SPanic => False | _ => blocking (cc_mode cc) = false end.
Definition temporal_ok (p : PropertyMap) (tc : TemporalConstraint) : Prop := eval_temporal tc p None <> None -> blocking (tc_mode tc) = false.
Definition provenance_ok (source : option bytes) : Prop := has_source source = true \/ forall d, d ∈ sc_properties s -> sp_provenance_required d = false.

Lemma domain_step_accepts p ws koid r d : accepts (domain_step p ws koid r d) = true <-> cr_valid r = true /\ domain_ok p ws d.
Proof.
  unfold domain_step, domain_ok. destruct (affected ws (sp_name d)); [|cbn; naive_solver]. destruct (btree_get p (sp_name d)) as [v|]; [|cbn; naive_solver].
  rewrite (kfold_accepts _ (fun dc => dc_validate dc v = SOk tt)); [naive_solver|]. intros r' dc _. destruct (dc_validate dc v) as [[]| |]; cbn; naive_solver.
Qed.
Lemma check_step_accepts p ws koid r cc :
  accepts (check_step p ws koid r cc) = true <-> cr_valid r = true /\ (enabled (cc_mode cc) = true -> check_affected_by_write_set cc ws = true -> check_ok p cc).
Proof.
  unfold check_step, check_ok, check_event. destruct (enabled (cc_mode cc)); [|cbn; naive_solver]. destruct (check_affected_by_write_set cc ws); [|cbn; naive_solver]. cbn [negb].
  destruct (evaluate (cc_predicate cc) p) as [[]| |]; cbn [mbind KResult_bind accepts]; [naive_solver | rewrite dispatch_valid; naive_solver.. | naive_solver].
Qed.
Lemma eval_temporal_koid tc p koid : eval_temporal tc p koid = None <-> eval_temporal tc p None = None.
Proof. unfold eval_temporal. repeat case_match; naive_solver. Qed.
Lemma temporal_step_valid p ws koid r tc :
  cr_valid (temporal_step p ws koid r tc) = true <->
  cr_valid r = true /\ (enabled (tc_mode tc) = true -> affected ws (tc_start_property tc) || affected ws (tc_end_property tc) = true -> temporal_ok p tc).
Proof.
  unfold temporal_step, temporal_ok. destruct (enabled (tc_mode tc)); [|cbn; naive_solver].
  destruct (affected ws (tc_start_property tc) || affected ws (tc_end_property tc)); [|cbn; naive_solver]. cbn [negb]. pose proof (eval_temporal_koid tc p koid) as Hk.
  destruct (eval_temporal tc p koid) eqn:E; [rewrite dispatch_valid|]; naive_solver.
Qed.
Lemma provenance_step_valid koid r d : cr_valid (provenance_step koid r d) = true <-> cr_valid r = true /\ sp_provenance_required d = false.
Proof. unfold provenance_step. destruct (sp_provenance_required d); cbn; naive_solver. Qed.

Definition all_ok (p : PropertyMap) (ws : WriteSet) : Prop :=
  (forall d, d ∈ sc_properties s -> domain_ok p ws d) /\
  (forall cc, cc ∈ sc_check_constraints s -> enabled (cc_mode cc) = true -> check_affected_by_write_set cc ws = true -> check_ok p cc) /\
  (forall tc, tc ∈ sc_temporal_constraints s -> enabled (tc_mode tc) = true -> affected ws (tc_start_property tc) || affected ws (tc_end_property tc) = true -> temporal_ok p tc).
Lemma evaluate_full_accepts p ws koid source :
  accepts (evaluate_full s p ws koid source) = true <-> empty_set ws = true \/ all_ok p ws /\ provenance_ok source.
Proof.
  unfold evaluate_full. destruct (empty_set ws); [cbn; naive_solver|].
  rewrite (bind_accepts _ _ (provenance_ok source /\ (forall cc, cc ∈ sc_check_constraints s -> enabled (cc_mode cc) = true -> check_affected_by_write_set cc ws = true -> check_ok p cc) /\
    (forall tc, tc ∈ sc_temporal_constraints s -> enabled (tc_mode tc) = true -> affected ws (tc_start_property tc) || affected ws (tc_end_property tc) = true -> temporal_ok p tc))).
  - rewrite (kfold_accepts _ (domain_ok p ws)) by (intros; apply domain_step_accepts). unfold all_ok. naive_solver.
  - intros r. rewrite (bind_accepts _ _ (forall tc, tc ∈ sc_temporal_constraints s -> enabled (tc_mode tc) = true ->
      affected ws (tc_start_property tc) || affected ws (tc_end_property tc) = true -> temporal_ok p tc)) by (intros r'; apply fold_accepts, temporal_step_valid).
    rewrite (kfold_accepts _ (fun cc => enabled (cc_mode cc) = true -> check_affected_by_write_set cc ws = true -> check_ok p cc)) by (intros; apply check_step_accepts).
    unfold provenance_ok. destruct (has_source source); [naive_solver|]. rewrite (fold_accepts _ (fun d => sp_provenance_required d = false)) by (apply provenance_step_valid). naive_solver.
Qed.

(* ------------------------------------------------------------------ *)
(** * Constraints look at the properties they name *)

Lemma dc_validate_sim dc v w : value_sim v w = true -> dc_validate dc v = dc_validate dc w.
Proof.
  intros Hs. destruct dc as [min max|pat|min max|vs|f]; cbn [dc_validate].
  - destruct v, w; try done; cbn [value_sim] in Hs; sim_value Hs; try done. unfold range_check.
    destruct min as [min|], max as [max|]; cbn [fmap option_fmap option_map]; rewrite ?(SFltb_sim _ _ _ _ Hs (reflexivity _)), ?(SFltb_sim _ _ _ _ (reflexivity _) Hs); done.
  - destruct v, w; try done; cbn [value_sim] in Hs; by sim_value Hs.
  - destruct v, w; try done; cbn [value_sim] in Hs; by sim_value Hs.
  - f_equal. enough (existsb (fun x => value_eqb x v) vs = existsb (fun x => value_eqb x w) vs) as -> by done.
    induction vs as [|x vs IH]; [done|]. cbn. by rewrite IH, (value_eqb_cong x v x w) by (done || apply value_sim_refl).
  - unfold validate_format. destruct v, w; try done; cbn [value_sim] in Hs; by sim_value Hs.
Qed.
Lemma eval_temporal_sim tc p q : opt_sim (btree_get p (tc_start_property tc)) (btree_get q (tc_start_property tc)) = true ->
  opt_sim (btree_get p (tc_end_property tc)) (btree_get q (tc_end_property tc)) = true -> eval_temporal tc p None = eval_temporal tc q None.
Proof.
  unfold eval_temporal. destruct (btree_get p (tc_start_property tc)) as [v|], (btree_get q (tc_start_property tc)) as [w|]; try done. intros Hs.
  destruct (btree_get p (tc_end_property tc)) as [v'|], (btree_get q (tc_end_property tc)) as [w'|]; try done. cbn [opt_sim] in *. intros He.
  destruct v, w; try done; destruct v', w'; try done; cbn [value_sim] in Hs, He; try sim_value Hs; try sim_value He; done.
Qed.

(** [ws] covers what changes from [p] to [q]. *)
Definition covers (ws : gset bytes) (p q : PropertyMap) : Prop := forall x, x ∉ ws -> opt_sim (btree_get p x) (btree_get q x) = true.
Lemma affected_not ws x : affected (Some ws) x = false <-> x ∉ ws.
Proof. cbn. by rewrite bool_decide_eq_false. Qed.
Lemma check_unaffected cc ws p q : covers ws p q -> check_affected_by_write_set cc (Some ws) = false -> evaluate (cc_predicate cc) p = evaluate (cc_predicate cc) q.
Proof.
  intros Hc Ha. apply evaluate_agrees. intros x Hx. apply Hc. intros Hw. cbn in Ha. rewrite referenced_refs in Ha.
  assert (existsb (fun p => bool_decide (p ∈ ws)) (refs (cc_predicate cc)) = true); [|congruence].
  apply existsb_exists. exists x. split; [by apply list_elem_of_In | by apply bool_decide_eq_true].
Qed.
Lemma domain_unaffected p q ws d : covers ws p q -> affected (Some ws) (sp_name d) = false -> domain_ok p None d -> domain_ok q None d.
Proof.
  intros Hc Ha%affected_not Hd _ w Ew dc Hdc. specialize (Hc _ Ha). rewrite Ew in Hc. destruct (btree_get p (sp_name d)) as [v|] eqn:Ev; [|done].
  rewrite <-(dc_validate_sim dc v w Hc). by apply Hd.
Qed.
Lemma temporal_unaffected p q ws tc : covers ws p q -> affected (Some ws) (tc_start_property tc) || affected (Some ws) (tc_end_property tc) = false -> temporal_ok p tc -> temporal_ok q tc.
Proof.
  intros Hc [Ha%affected_not Hb%affected_not]%orb_false_iff Ht. unfold temporal_ok. rewrite <-(eval_temporal_sim tc p q); [exact Ht | by apply Hc..].
Qed.

Lemma all_ok_incremental p q ws : covers ws p q -> all_ok p None -> all_ok q (Some ws) <-> all_ok q None.
Proof.
  intros Hc (Hd & Hcc & Ht). split; intros (Hd' & Hcc' & Ht').
  - split; [|split].
    + intros d Hin. destruct (affected (Some ws) (sp_name d)) eqn:Ea; [intros _; by apply Hd' | by apply (domain_unaffected p q ws); [..|apply Hd]].
    + intros cc Hin He _. destruct (check_affected_by_write_set cc (Some ws)) eqn:Ea; [by apply Hcc'|]. unfold check_ok. rewrite <-(check_unaffected cc ws p q Hc Ea). by apply Hcc.
    + intros tc Hin He _. destruct (affected (Some ws) (tc_start_property tc) || affected (Some ws) (tc_end_property tc)) eqn:Ea; [by apply Ht'|].
      apply (temporal_unaffected p q ws); [done..|]. by apply Ht.
  - split; [|split].
    + intros d Hin _. by apply Hd'.
    + intros cc Hin He _. by apply Hcc'.
    + intros tc Hin He _. by apply Ht'.
Qed.
End Accept.

(* ------------------------------------------------------------------ *)
(** * The write set of an update *)

(** [remember]: the properties of the request that differ from the head's, and those of the
    head that the request drops. *)
Definition write_set (head req : PropertyMap) : gset bytes :=
  list_to_set (List.filter (fun k => negb (opt_value_eqb (btree_get head k) (btree_get req k))) (map fst req)) ∪
  list_to_set (List.filter (fun k => negb (has_key req k)) (map fst head)).

Lemma get_in_keys {V} (m : list (bytes * V)) k v : btree_get m k = Some v -> k ∈ map fst m.
Proof.
  induction m as [|[k' v'] m IH]; [done|]. cbn [btree_get map fst]. destruct (bytes_eqb k k') eqn:E; [apply bytes_eqb_eq in E as ->; by left|]. intros Hg. right. by apply IH.
Qed.
Lemma write_set_covers head req : covers (write_set head req) head req.
Proof.
  intros x Hx. apply opt_value_eqb_sim. destruct (opt_value_eqb _ _) eqn:E; [done|]. exfalso. apply Hx. unfold write_set. apply elem_of_union.
  destruct (btree_get req x) as [w|] eqn:Er.
  - left. apply elem_of_list_to_set, list_elem_of_In, filter_In. split; [by apply list_elem_of_In, (get_in_keys _ _ w) | by rewrite Er, E].
  - destruct (btree_get head x) as [v|] eqn:Eh; [|done]. right. apply elem_of_list_to_set, list_elem_of_In, filter_In. split; [by apply list_elem_of_In, (get_in_keys _ _ v)|].
    unfold has_key. rewrite Er. by rewrite bool_decide_false by (by intros [? ?]).
Qed.

(** C21: evaluating only the constraints an update touches is evaluating them all.  When the
    head passes the full evaluation, the evaluation restricted to the write set that
    [remember] computes accepts the new properties exactly when the full one does, provided
    that something changed or a source is recorded (without either, the restricted evaluation
    does not look at provenance: [provenance_dropped]). *)
Theorem incremental_exact `{Regex} s head req koid koid' source source' :
  accepts (evaluate_full s head None koid source) = true -> (write_set head req <> ∅ \/ has_source source' = true) ->
  accepts (evaluate_full s req (Some (write_set head req)) koid' source') = accepts (evaluate_full s req None koid' source').
Proof.
  intros [?|[Hh _]]%evaluate_full_accepts Hp; [done|]. pose proof (write_set_covers head req) as Hc. pose proof (all_ok_incremental s head req _ Hc Hh) as Hi.
  apply eq_true_iff_eq. rewrite !evaluate_full_accepts. cbn [empty_set]. rewrite bool_decide_eq_true. split; [|naive_solver].
  intros [He|[? ?]]; [|naive_solver]. right. destruct Hp as [?|Hs]; [done|]. split; [|by left]. apply Hi.
  rewrite He. split; [|split].
  - intros d _ Ha. cbn in Ha. apply bool_decide_eq_true in Ha. set_solver.
  - intros cc _ _ (x & _ & Hx%bool_decide_eq_true)%existsb_exists. set_solver.
  - intros tc _ _ [Ha|Ha]%orb_true_iff; cbn in Ha; apply bool_decide_eq_true in Ha; set_solver.
Qed.

(* ------------------------------------------------------------------ *)
(** * What every admitted object satisfies *)

Definition touched (p : PropertyMap) (cc : CheckConstraint) : Prop := exists x, x ∈ referenced_properties (cc_predicate cc) /\ is_Some (btree_get p x).
(** The domain and temporal constraints hold, and the checks that name a property the object
    has. *)
Definition admissible `{Regex} (s : Schema) (p : PropertyMap) : Prop :=
  (forall d, d ∈ sc_properties s -> domain_ok p None d) /\
  (forall cc, cc ∈ sc_check_constraints s -> enabled (cc_mode cc) = true -> touched p cc -> check_ok p cc) /\
  (forall tc, tc ∈ sc_temporal_constraints s -> enabled (tc_mode tc) = true -> temporal_ok p tc).
Definition keys (p : PropertyMap) : gset bytes := list_to_set (map fst p).

Lemma get_keys p x : is_Some (btree_get p x) -> x ∈ keys p.
Proof. intros [v Hv]. apply elem_of_list_to_set. by apply (get_in_keys _ _ v). Qed.
Lemma check_affected_by cc ws x : x ∈ referenced_properties (cc_predicate cc) -> x ∈ ws -> check_affected_by_write_set cc (Some ws) = true.
Proof. intros Hx Hw. apply existsb_exists. exists x. split; [by apply list_elem_of_In | by apply bool_decide_eq_true]. Qed.
Lemma disabled_admissible `{Regex} s p : has_enabled_constraints s = false -> admissible s p.
Proof.
  unfold has_enabled_constraints. rewrite !orb_false_iff. intros [[[[Hd _] Hc] _] Ht].
  assert (forall {A} (f : A -> bool) l a, existsb f l = false -> a ∈ l -> f a = false) as Hex.
  { intros A f l a Hl Ha. destruct (f a) eqn:E; [|done]. rewrite <-Hl. symmetry. apply existsb_exists. exists a. split; [by apply list_elem_of_In | done]. }
  split; [|split].
  - intros d Hin _ v _ dc Hdc. pose proof (Hex _ _ _ d Hd Hin) as Hn. cbn in Hn. destruct (sp_domain_constraints d); [set_solver | done].
  - intros cc Hin He. by rewrite (Hex _ _ _ cc Hc Hin) in He.
  - intros tc Hin He. by rewrite (Hex _ _ _ tc Ht Hin) in He.
Qed.
Lemma admitted_create `{Regex} s p koid source : accepts (evaluate_full s p (Some (keys p)) koid source) = true -> admissible s p.
Proof.
  intros Ha%evaluate_full_accepts. assert (forall x, is_Some (btree_get p x) -> empty_set (Some (keys p)) = false) as Hne.
  { intros x Hx%get_keys. cbn. apply bool_decide_eq_false. set_solver. }
  split; [|split].
  - intros d Hin _ v Hv dc Hdc. assert (is_Some (btree_get p (sp_name d))) as Hk by eauto. rewrite (Hne _ Hk) in Ha. destruct Ha as [?|[(Hd & _) _]]; [done|].
    apply (Hd d Hin); [|done..]. by apply bool_decide_eq_true, get_keys.
  - intros cc Hin He (x & Hx & Hk). rewrite (Hne _ Hk) in Ha. destruct Ha as [?|[(_ & Hc & _) _]]; [done|]. apply (Hc cc Hin He). by apply (check_affected_by _ _ x), get_keys.
  - intros tc Hin He. unfold temporal_ok. intros Ht. assert (is_Some (btree_get p (tc_start_property tc))) as Hk.
    { unfold eval_temporal in Ht. destruct (btree_get p (tc_start_property tc)); [eauto | done]. }
    rewrite (Hne _ Hk) in Ha. destruct Ha as [?|[(_ & _ & Hw) _]]; [done|]. apply (Hw tc Hin He); [|done]. apply orb_true_iff. left. by apply bool_decide_eq_true, get_keys.
Qed.
Lemma admitted_update `{Regex} s p q koid source :
  accepts (evaluate_full s q (Some (write_set p q)) koid source) = true -> admissible s p -> admissible s q.
Proof.
  intros Ha%evaluate_full_accepts (Hd & Hcc & Ht). pose proof (write_set_covers p q) as Hc. set (ws := write_set p q) in *. clearbody ws.
  assert (forall x, x ∈ ws -> all_ok s q (Some ws)) as Hne by (intros x Hx; destruct Ha as [He%bool_decide_eq_true|[? _]]; [set_solver | done]).
  split; [|split].
  - intros d Hin. destruct (affected (Some ws) (sp_name d)) eqn:Ea; [|by apply (domain_unaffected p q ws); [..|apply Hd]].
    intros _. apply (Hne (sp_name d)); [by apply bool_decide_eq_true in Ea | done..].
  - intros cc Hin He (x & Hx & Hk). destruct (check_affected_by_write_set cc (Some ws)) eqn:Ea.
    + pose proof Ea as (y & _ & Hy%bool_decide_eq_true)%existsb_exists. by apply (Hne y Hy).
    + unfold check_ok. rewrite <-(check_unaffected cc ws p q Hc Ea). apply Hcc; [done..|]. exists x. split; [done|].
      assert (x ∉ ws) as Hn by (intros Hw; by rewrite (check_affected_by cc ws x Hx Hw) in Ea). specialize (Hc x Hn). destruct Hk as [w Hw]. rewrite Hw in Hc.
      destruct (btree_get p x); [eauto | done].
  - intros tc Hin He. destruct (affected (Some ws) (tc_start_property tc) || affected (Some ws) (tc_end_property tc)) eqn:Ea.
    + assert (exists y, y ∈ ws) as [y Hy] by (apply orb_true_iff in Ea as [Ea|Ea]; apply bool_decide_eq_true in Ea; eauto). by apply (Hne y Hy).
    + apply (temporal_unaffected p q ws); [done..|]. by apply Ht.
Qed.

(* ------------------------------------------------------------------ *)
(** * Where the write set hides a violation *)

#[local] Instance no_regex : Regex := {| regex_captures _ := None |}.
Definition checked_schema (e : CheckExpression) : Schema :=
  mkSchema [x74] 1 [] None [mkSchemaProperty [x61] (txt "Int") false false true []] []
    [mkCheckConstraint [x63] e ConstraintTiming.Immediate EnforcementMode.Enforced ViolationSeverity.Error] [] [].
Definition ordered_dates : CheckExpression := Compare CompareOp.Lte (Property (txt "start")) (Property (txt "end")).

(** A create that writes none of the properties of a check is not checked. *)
Lemma create_skips_check :
  let s := checked_schema ordered_dates in
  let p := [([x61], VInt 1)] in
  accepts (evaluate_full s p (Some (keys p)) None (Some [x73])) = true /\ accepts (evaluate_full s p None None (Some [x73])) = false.
Proof. split; vm_compute; reflexivity. Qed.
(** A required source is dropped by an update that changes no property. *)
Lemma provenance_dropped :
  let s := checked_schema (Literal (VBool true)) in
  let p := [([x61], VInt 1)] in
  accepts (evaluate_full s p (Some (write_set p p)) None None) = true /\ accepts (evaluate_full s p None None None) = false.
Proof. split; vm_compute; reflexivity. Qed.

Lemma incremental_exact_witness :
  let s := checked_schema (Compare CompareOp.Gte (Property [x61]) (Literal (VInt 0))) in
  accepts (evaluate_full s [([x61], VInt 1)] None None (Some [x73])) = true /\
  accepts (evaluate_full s [([x61], VInt (-1))] (Some (write_set [([x61], VInt 1)] [([x61], VInt (-1))])) None (Some [x73])) =
  accepts (evaluate_full s [([x61], VInt (-1))] None None (Some [x73])).
Proof.
  intros s. assert (accepts (evaluate_full s [([x61], VInt 1)] None None (Some [x73])) = true) as Hh by (vm_compute; reflexivity).
  split; [exact Hh|]. apply (incremental_exact s _ _ None None (Some [x73]) (Some [x73]) Hh). right. reflexivity.
Defined.
