(* ===== verification/Ontology.v ===== *)
(** crates/kernel/src/knowledge/ontology.rs: an ontology, its encoding in the properties of an
    object, its validation, and the registry's lookups (subclasses, properties of a class,
    relationships, mappings of physical types). *)

From Stdlib Require Import String.
From stdpp Require Import gmap.
From S2P Require Import Prelude Memtable Kom Codec CodecProps Store Repository Commit Epistemic Auth Expr.

(* ------------------------------------------------------------------ *)
(** * Ontologies *)

Module Cardinality.
Inductive t : Type := OneToOne | OneToMany | ManyToMany.
Definition as_str (c : t) : bytes := txt match c with OneToOne => "1:1" | OneToMany => "1:N" | ManyToMany => "N:M" end.
Definition from_str (s : bytes) : option t := List.find (fun c => bytes_eqb s (as_str c)) [OneToOne; OneToMany; ManyToMany].
#[global] Instance eq_dec : EqDecision t.
Proof. solve_decision. Defined.
End Cardinality.

Record ClassDef : Type := mkClassDef { cd_name : bytes; cd_parent : option bytes; cd_description : option bytes; cd_properties : list bytes }.
Record RelDef : Type := mkRelDef {
  rd_name : bytes; rd_domain : option bytes; rd_range : option bytes; rd_cardinality : option Cardinality.t; rd_max_count : option Z }.
Record PropertyDef : Type := mkPropertyDef { pd_name : bytes; pd_value_type : bytes; pd_required : bool; pd_nullable : bool }.
Record MappingEntry : Type := mkMappingEntry { me_source : bytes; me_physical_type : bytes; me_class : bytes; me_property_map : list (bytes * bytes) }.
Record OntologyDef : Type := mkOntologyDef {
  od_namespace : bytes; od_version : bytes; od_classes : list (bytes * ClassDef); od_relationships : list (bytes * RelDef);
  od_property_defs : list (bytes * PropertyDef); od_mappings : list MappingEntry }.

(* ------------------------------------------------------------------ *)
(** * Encoding *)

(** [if let Some(x) = o { m.insert(k, ..) }]. *)
Definition opt_insert (m : PropertyMap) (k : string) (o : option Value) : PropertyMap := match o with Some v => btree_insert m (txt k) v | None => m end.
Definition ins (m : PropertyMap) (k : string) (v : Value) : PropertyMap := btree_insert m (txt k) v.

Definition class_value (x : bytes * ClassDef) : Value :=
  let cd := x.2 in
  let m := ins [] "name" (VText x.1) in
  let m := opt_insert m "parent" (VText <$> cd_parent cd) in
  let m := opt_insert m "description" (VText <$> cd_description cd) in
  VMap (match cd_properties cd with [] => m | ps => ins m "properties" (VList (map VText ps)) end).
Definition rel_value (x : bytes * RelDef) : Value :=
  let rd := x.2 in
  let m := ins [] "name" (VText x.1) in
  let m := opt_insert m "domain" (VText <$> rd_domain rd) in
  let m := opt_insert m "range" (VText <$> rd_range rd) in
  let m := opt_insert m "cardinality" ((fun c => VText (Cardinality.as_str c)) <$> rd_cardinality rd) in
  VMap (opt_insert m "max_count" (VInt <$> rd_max_count rd)).
Definition prop_value (x : bytes * PropertyDef) : Value :=
  let pd := x.2 in
  let m := ins [] "name" (VText x.1) in
  let m := ins m "type" (VText (pd_value_type pd)) in
  let m := ins m "required" (VBool (pd_required pd)) in
  VMap (if pd_nullable pd then ins m "nullable" (VBool true) else m).
Definition mapping_value (me : MappingEntry) : Value :=
  let m := ins [] "source" (VText (me_source me)) in
  let m := ins m "physical_type" (VText (me_physical_type me)) in
  let m := ins m "class" (VText (me_class me)) in
  VMap (ins m "property_map" (VMap (fold_left (fun pm kv => btree_insert pm kv.1 (VText kv.2)) (me_property_map me) []))).
Definition to_property_map (d : OntologyDef) : PropertyMap :=
  let m := ins [] "namespace" (VText (od_namespace d)) in
  let m := ins m "version" (VText (od_version d)) in
  let m := ins m "classes" (VList (map class_value (od_classes d))) in
  let m := ins m "relationships" (VList (map rel_value (od_relationships d))) in
  let m := ins m "property_defs" (VList (map prop_value (od_property_defs d))) in
  ins m "mappings" (VList (map mapping_value (od_mappings d))).

(* ------------------------------------------------------------------ *)
(** * Validation *)

Definition parent_of_class (classes : list (bytes * ClassDef)) (c : bytes) : option bytes := btree_get classes c ≫= cd_parent.
(** The walk up from a class: [true] when it ends. *)
Fixpoint walk_ends (classes : list (bytes * ClassDef)) (fuel : nat) (seen : gset bytes) (cur : option bytes) : bool :=
  match cur, fuel with
  | None, _ => true
  | Some c, S fuel => if bool_decide (c ∈ seen) then false else walk_ends classes fuel ({[c]} ∪ seen) (parent_of_class classes c)
  | Some _, O => false
  end.
Definition knows {V} (m : list (bytes * V)) (o : option bytes) : bool := match o with Some k => bool_decide (is_Some (btree_get m k)) | None => true end.
Definition od_validate (d : OntologyDef) : KResult unit :=
  if is_blank (od_namespace d) then KErr (InvalidObject "ontology namespace must be non-empty")
  else if match od_classes d with [] => true | _ => false end then KErr (InvalidObject "ontology must define at least one class")
  else if negb (forallb (fun x => knows (od_classes d) (cd_parent x.2)) (od_classes d)) then KErr (InvalidObject "unknown parent")
  else if negb (forallb (fun x => walk_ends (od_classes d) (S (length (od_classes d))) ∅ (Some x.1)) (od_classes d)) then KErr (InvalidObject "circular inheritance")
  else if negb (forallb (fun x => forallb (fun p => knows (od_property_defs d) (Some p)) (cd_properties x.2)) (od_classes d)) then KErr (InvalidObject "unknown property")
  else if negb (forallb (fun x => knows (od_classes d) (rd_domain x.2) && knows (od_classes d) (rd_range x.2)) (od_relationships d)) then KErr (InvalidObject "unknown domain or range")
  else if negb (forallb (fun me => knows (od_classes d) (Some (me_class me))) (od_mappings d)) then KErr (InvalidObject "unknown class")
  else KOk tt.

(* ------------------------------------------------------------------ *)
(** * Decoding *)

Definition map_get_str (m : PropertyMap) (key : string) : option bytes := btree_get m (txt key) ≫= value_text.
Definition map_get_bool (m : PropertyMap) (key : string) : option bool := match btree_get m (txt key) with Some (VBool b) => Some b | _ => None end.
Definition listed_values (m : PropertyMap) (key : string) : list Value := match btree_get m (txt key) with Some (VList l) => l | _ => [] end.

Definition class_item (classes : list (bytes * ClassDef)) (item : Value) : KResult (list (bytes * ClassDef)) :=
  match item with
  | VMap m =>
      match map_get_str m "name" with
      | Some name =>
          KOk (btree_insert classes name (mkClassDef name (map_get_str m "parent") (map_get_str m "description") (omap value_text (listed_values m "properties"))))
      | None => KErr (InvalidObject "ontology class missing name")
      end
  | _ => KOk classes
  end.
Definition rel_item (rels : list (bytes * RelDef)) (item : Value) : KResult (list (bytes * RelDef)) :=
  match item with
  | VMap m =>
      match map_get_str m "name" with
      | Some name =>
          KOk (btree_insert rels name (mkRelDef name (map_get_str m "domain") (map_get_str m "range") (map_get_str m "cardinality" ≫= Cardinality.from_str)
            (match btree_get m (txt "max_count") with Some (VInt n) => if 0 <? n then Some (as_u32 n) else None | _ => None end)))
      | None => KErr (InvalidObject "ontology relationship missing name")
      end
  | _ => KOk rels
  end.
Definition prop_item (props : list (bytes * PropertyDef)) (item : Value) : KResult (list (bytes * PropertyDef)) :=
  match item with
  | VMap m =>
      match map_get_str m "name" with
      | Some name =>
          KOk (btree_insert props name (mkPropertyDef name (default (txt "Text") (map_get_str m "type")) (default false (map_get_bool m "required")) (default false (map_get_bool m "nullable"))))
      | None => KErr (InvalidObject "ontology property_def missing name")
      end
  | _ => KOk props
  end.
Definition mapping_item (item : Value) : option MappingEntry :=
  match item with
  | VMap m =>
      let pm := match btree_get m (txt "property_map") with
                | Some (VMap pm) => fold_left (fun out kv => match kv.2 with VText t => btree_insert out kv.1 t | _ => out end) pm []
                | _ => []
                end in
      Some (mkMappingEntry (default (txt "unknown") (map_get_str m "source")) (default (txt "unknown") (map_get_str m "physical_type"))
        (default (txt "unknown") (map_get_str m "class")) pm)
  | _ => None
  end.
Definition from_property_map (props : PropertyMap) : KResult OntologyDef :=
  classes ← kfold class_item [] (listed_values props "classes");
  rels ← kfold rel_item [] (listed_values props "relationships");
  pdefs ← kfold prop_item [] (listed_values props "property_defs");
  let d := mkOntologyDef (default (txt "default") (map_get_str props "namespace")) (default (txt "1.0") (map_get_str props "version")) classes rels pdefs
    (omap mapping_item (listed_values props "mappings")) in
  _ ← od_validate d;
  KOk d.
Definition ONTOLOGY_TYPE : bytes := txt "Ontology".
Definition from_ko (ko : KnowledgeObject) : KResult OntologyDef :=
  if bytes_eqb (type_name (ko_metadata ko)) ONTOLOGY_TYPE then from_property_map (ko_properties ko) else KErr (InvalidObject "expected type_name Ontology").

(* ------------------------------------------------------------------ *)
(** * The registry *)

Record OntologyRegistry : Type := mkOntologyRegistry { or_def : OntologyDef; or_by_physical : gmap (bytes * bytes) nat; or_by_physical_type : gmap bytes nat }.
Definition index_mapping (x : gmap (bytes * bytes) nat * gmap bytes nat) (ime : nat * MappingEntry) : gmap (bytes * bytes) nat * gmap bytes nat :=
  let '(i, me) := ime in
  (<[(me_source me, me_physical_type me) := i]> x.1, if bool_decide (is_Some (x.2 !! me_physical_type me)) then x.2 else <[me_physical_type me := i]> x.2).
Definition registry_of (d : OntologyDef) : KResult OntologyRegistry :=
  _ ← od_validate d;
  let '(p, t) := fold_left index_mapping (imap pair (od_mappings d)) (∅, ∅) in
  KOk (mkOntologyRegistry d p t).
Definition registry_empty : OntologyRegistry := mkOntologyRegistry (mkOntologyDef (txt "empty") (txt "0") [] [] [] []) ∅ ∅.

(** [is_subclass_of]: up from [a], to [b] or to a class seen before. *)
Fixpoint subclass_loop (classes : list (bytes * ClassDef)) (b : bytes) (fuel : nat) (seen : gset bytes) (current : bytes) : bool :=
  match fuel with
  | O => false
  | S fuel =>
      match parent_of_class classes current with
      | Some parent =>
          if bool_decide (parent = b) then true
          else if bool_decide (parent ∈ seen) then false
          else subclass_loop classes b fuel ({[parent]} ∪ seen) parent
      | None => false
      end
  end.
Definition is_subclass_of (r : OntologyRegistry) (a b : bytes) : bool :=
  bool_decide (a = b) || subclass_loop (od_classes (or_def r)) b (S (length (od_classes (or_def r)))) {[a]} a.
Definition resolve_relationship (r : OntologyRegistry) (domain rel_name : bytes) : option RelDef :=
  rd ← btree_get (od_relationships (or_def r)) rel_name;
  match rd_domain rd with
  | Some d => if bool_decide (d = domain) || is_subclass_of r domain d then Some rd else None
  | None => Some rd
  end.
Definition map_external (r : OntologyRegistry) (source physical_type : bytes) : option MappingEntry :=
  i ← or_by_physical r !! (source, physical_type); od_mappings (or_def r) !! i.
Definition mapping_for_physical (r : OntologyRegistry) (physical_type : bytes) : option MappingEntry :=
  i ← or_by_physical_type r !! physical_type; od_mappings (or_def r) !! i.
Definition physical_types_for_class (r : OntologyRegistry) (class : bytes) : list (bytes * bytes) :=
  map (fun me => (me_source me, me_physical_type me))
    (List.filter (fun me => bytes_eqb (me_class me) class || is_subclass_of r class (me_class me) || is_subclass_of r (me_class me) class) (od_mappings (or_def r))).

(** [class_properties]: of the class and then of its ancestors, each once. *)
Definition add_property (defs : list (bytes * PropertyDef)) (x : list PropertyDef * gset bytes) (p : bytes) : list PropertyDef * gset bytes :=
  match btree_get defs p with
  | Some pd => if bool_decide (p ∈ x.2) then x else (x.1 ++ [pd], {[p]} ∪ x.2)
  | None => x
  end.
Fixpoint properties_loop (d : OntologyDef) (fuel : nat) (visited : gset bytes) (cur : option bytes) (x : list PropertyDef * gset bytes) : list PropertyDef :=
  match cur, fuel with
  | Some c, S fuel =>
      if bool_decide (c ∈ visited) then x.1
      else
        match btree_get (od_classes d) c with
        | None => x.1
        | Some cd => properties_loop d fuel ({[c]} ∪ visited) (cd_parent cd) (fold_left (add_property (od_property_defs d)) (cd_properties cd) x)
        end
  | _, _ => x.1
  end.
Definition class_properties (r : OntologyRegistry) (class_name : bytes) : list PropertyDef :=
  let d := or_def r in
  if forallb (fun x => match cd_properties x.2 with [] => true | _ => false end) (od_classes d) then map snd (od_property_defs d)
  else properties_loop d (S (length (od_classes d))) ∅ (Some class_name) ([], ∅).

(* ================================================================== *)
(** Ontologies: what validation accepts, that the subclass walk decides inheritance, and the
    round trip through the properties of an object. *)

(* ------------------------------------------------------------------ *)
(** * Inheritance *)

Section Inheritance.
Context (classes : list (bytes * ClassDef)).

Definition inherits_from (c p : bytes) : Prop := parent_of_class classes c = Some p.
Definition class_names : gset bytes := list_to_set (map fst classes).
Lemma class_names_size : (size class_names <= length classes)%nat.
Proof. unfold class_names. etrans; [apply size_of_list | by rewrite length_map]. Qed.
Lemma inherits_named c p : inherits_from c p -> c ∈ class_names.
Proof.
  unfold inherits_from, parent_of_class, class_names. intros (cd & Hc & _)%bind_Some. apply elem_of_list_to_set. clear p.
  induction classes as [|[k v] m IH]; [done|]. cbn in *. destruct (bytes_eqb c k) eqn:E; [apply bytes_eqb_eq in E as ->; by left | right; by apply IH].
Qed.
Lemma inherits_det c p q : inherits_from c p -> inherits_from c q -> p = q.
Proof. unfold inherits_from. congruence. Qed.

(** The walk up from [c] is finite. *)
Definition ends (c : bytes) : Prop := Acc (fun p x => inherits_from x p) c.
Lemma ends_no_loop c : ends c -> ~ tc inherits_from c c.
Proof.
  induction 1 as [c _ IH]. intros Hl. inversion Hl as [x y Hxy|x y z Hxy Hyz]; subst; [by apply (IH c Hxy), tc_once|].
  apply (IH y Hxy). eapply tc_r; [exact Hyz | exact Hxy].
Qed.
Lemma walk_ends_sound fuel : forall seen c, walk_ends classes fuel seen (Some c) = true -> ends c.
Proof.
  induction fuel as [|fuel IH]; intros seen c; [done|]. cbn [walk_ends]. case_bool_decide; [done|]. intros Hw. constructor. intros p Hp. unfold inherits_from in Hp. rewrite Hp in Hw.
  by apply (IH _ _ Hw).
Qed.
Lemma walk_ends_complete c : ends c -> forall fuel seen, seen ⊆ class_names -> (length classes < fuel + size seen)%nat -> (forall x, x ∈ seen -> tc inherits_from x c) ->
  walk_ends classes fuel seen (Some c) = true.
Proof.
  intros He. induction He as [c Hc IH]. intros fuel seen Hs Hf Ht. pose proof (subseteq_size _ _ Hs). pose proof class_names_size. destruct fuel as [|fuel]; [lia|]. cbn [walk_ends].
  case_bool_decide as Hin; [exfalso; apply (ends_no_loop c); [by constructor | by apply Ht]|].
  destruct (parent_of_class classes c) as [p|] eqn:Ep; [|by destruct fuel]. apply (IH p Ep).
  - apply union_subseteq. split; [|done]. apply singleton_subseteq_l. by apply (inherits_named c p).
  - rewrite size_union by set_solver. rewrite size_singleton. lia.
  - intros x [->%elem_of_singleton|Hx]%elem_of_union; [by apply tc_once | eapply tc_r; [by apply Ht | done]].
Qed.
Lemma walk_ends_exact c : walk_ends classes (S (length classes)) ∅ (Some c) = true <-> ends c.
Proof.
  split; [apply walk_ends_sound|]. intros He. apply walk_ends_complete; [done | set_solver | rewrite size_empty; lia | set_solver].
Qed.

(** Up to a given class. *)
Record climbing (b : bytes) (seen : gset bytes) (cur : bytes) : Prop := {
  cl_cur : cur ∈ seen;
  cl_target : b ∉ seen;
  cl_closed : forall x, x ∈ seen -> x = cur \/ exists p, inherits_from x p /\ p ∈ seen }.
Lemma climbing_size b seen cur : climbing b seen cur -> (size seen <= S (length classes))%nat.
Proof.
  intros [Hc _ Hcl]. assert (seen ⊆ {[cur]} ∪ class_names) as Hs.
  { intros x Hx. destruct (Hcl x Hx) as [->|(p & Hp & _)]; [set_solver|]. apply elem_of_union. right. by apply (inherits_named x p). }
  apply subseteq_size in Hs. pose proof class_names_size. pose proof (size_union_alt ({[cur]} : gset bytes) class_names) as Hu. rewrite size_singleton in Hu.
  pose proof (subseteq_size (class_names ∖ {[cur]}) class_names ltac:(set_solver)). lia.
Qed.
Lemma climb_loop b seen cur p : climbing b seen cur -> inherits_from cur p -> p ∈ seen -> ~ tc inherits_from cur b.
Proof.
  intros [Hc Hb Hcl] Hp Hin Ht. apply Hb. assert (forall x y, tc inherits_from x y -> x ∈ seen -> y ∈ seen) as Hstep; [|by apply (Hstep cur)].
  assert (forall x y, inherits_from x y -> x ∈ seen -> y ∈ seen) as H1.
  { intros x y Hxy Hx. destruct (Hcl x Hx) as [->|(q & Hq & Hqs)]; [by rewrite (inherits_det _ _ _ Hxy Hp) | by rewrite (inherits_det _ _ _ Hxy Hq)]. }
  induction 1 as [x y Hxy|x y z Hxy _ IH]; intros Hx; [by apply (H1 x) | apply IH; by apply (H1 x)].
Qed.
Lemma subclass_loop_exact b fuel : forall seen cur, climbing b seen cur -> (S (length classes) < fuel + size seen)%nat ->
  subclass_loop classes b fuel seen cur = true <-> tc inherits_from cur b.
Proof.
  induction fuel as [|fuel IH]; intros seen cur Hc Hf; [pose proof (climbing_size _ _ _ Hc); lia|]. cbn [subclass_loop]. destruct (parent_of_class classes cur) as [p|] eqn:Ep.
  - case_bool_decide as Hpb; [subst; split; [intros _; by apply tc_once | done]|]. case_bool_decide as Hps; [split; [done | intros Ht; by destruct (climb_loop b seen cur p)]|].
    rewrite IH.
    + split; [intros Ht; by eapply tc_l|]. intros Ht. inversion Ht as [x y Hxy|x y z Hxy Hyz]; subst; rewrite <-(inherits_det _ _ _ Hxy Ep) in *; done.
    + destruct Hc as [Hc Hb Hcl]. split; [set_solver | set_solver|]. intros x [->%elem_of_singleton|Hx]%elem_of_union; [by left|]. right.
      destruct (Hcl x Hx) as [->|(q & Hq & Hqs)]; [exists p | exists q]; (split; [done | set_solver]).
    + rewrite size_union by set_solver. rewrite size_singleton. lia.
  - split; [done|]. intros Ht. inversion Ht as [x y Hxy|x y z Hxy Hyz]; subst; unfold inherits_from in Hxy; congruence.
Qed.
End Inheritance.

Record well_formed (d : OntologyDef) : Prop := {
  wo_namespace : is_blank (od_namespace d) = false;
  wo_classes : od_classes d <> [];
  wo_parents : forall x, x ∈ od_classes d -> knows (od_classes d) (cd_parent x.2) = true;
  wo_forest : forall x, x ∈ od_classes d -> ends (od_classes d) x.1;
  wo_properties : forall x p, x ∈ od_classes d -> p ∈ cd_properties x.2 -> knows (od_property_defs d) (Some p) = true;
  wo_relationships : forall x, x ∈ od_relationships d -> knows (od_classes d) (rd_domain x.2) = true /\ knows (od_classes d) (rd_range x.2) = true;
  wo_mappings : forall me, me ∈ od_mappings d -> knows (od_classes d) (Some (me_class me)) = true }.
Lemma forallb_elem {A} (f : A -> bool) l : forallb f l = true <-> forall x, x ∈ l -> f x = true.
Proof. rewrite forallb_forall. by setoid_rewrite list_elem_of_In. Qed.
Lemma od_validate_exact d : od_validate d = KOk tt <-> well_formed d.
Proof.
  unfold od_validate. split.
  - destruct (is_blank (od_namespace d)) eqn:E1; [done|]. destruct (od_classes d) as [|c cs] eqn:Ec; [done|]. rewrite <-Ec.
    repeat match goal with |- context [negb ?f] => destruct f eqn:?; [cbn [negb] | done] end. intros _. rewrite forallb_elem in Heqb. rewrite forallb_elem in Heqb0. rewrite forallb_elem in Heqb1. rewrite forallb_elem in Heqb2. rewrite forallb_elem in Heqb3.
    split; [done | by rewrite Ec | exact Heqb | | | | exact Heqb3].
    + intros x Hx. by apply walk_ends_exact, (Heqb0 x).
    + intros x p Hx Hp. specialize (Heqb1 x Hx). cbn in Heqb1. rewrite forallb_elem in Heqb1. by apply Heqb1.
    + intros x Hx. by apply andb_true_iff, (Heqb2 x).
  - intros [H1 H2 H3 H4 H5 H6 H7]. rewrite H1. replace (match od_classes d with [] => true | _ => false end) with false by (by destruct (od_classes d)).
    rewrite (proj2 (forallb_elem _ (od_classes d)) H3). cbn [negb]. rewrite (proj2 (forallb_elem _ (od_classes d))) by (intros x Hx; by apply walk_ends_exact, H4).
    cbn [negb]. rewrite (proj2 (forallb_elem _ (od_classes d))) by (intros x Hx; apply forallb_elem; intros p Hp; by apply (H5 x)).
    cbn [negb]. rewrite (proj2 (forallb_elem _ (od_relationships d))) by (intros x Hx; apply andb_true_iff, H6, Hx). by rewrite (proj2 (forallb_elem _ (od_mappings d)) H7).
Qed.
Lemma get_elem {V} (m : list (bytes * V)) k v : btree_get m k = Some v -> (k, v) ∈ m.
Proof.
  induction m as [|[k' v'] m IH]; [done|]. cbn. destruct (bytes_eqb k k') eqn:E; [apply bytes_eqb_eq in E as ->; intros [= ->]; by left | intros Hg; right; by apply IH].
Qed.
Lemma is_subclass_rtc r a b : is_subclass_of r a b = true <-> rtc (inherits_from (od_classes (or_def r))) a b.
Proof.
  unfold is_subclass_of. rewrite orb_true_iff, bool_decide_eq_true. destruct (decide (a = b)) as [->|Hab]; [split; [done | by left]|].
  rewrite subclass_loop_exact.
  - split; [intros [->|Ht]; [done | by apply tc_rtc] | intros [->|Ht]%rtc_tc; [done | by right]].
  - split; [set_solver | set_solver|]. intros x ->%elem_of_singleton. by left.
  - rewrite size_singleton. lia.
Qed.

(** C25: in a registry built from a validated ontology the subclass test is inheritance, the
    reflexive and transitive closure of the parent links, and it is a partial order. *)
Theorem subclass_exact d r : registry_of d = KOk r -> or_def r = d /\
  (forall a b, is_subclass_of r a b = true <-> rtc (inherits_from (od_classes d)) a b) /\
  (forall a b, is_subclass_of r a b = true -> is_subclass_of r b a = true -> a = b).
Proof.
  unfold registry_of. destruct (od_validate d) as [[]| |] eqn:Ev; try done. cbn [mbind KResult_bind]. destruct (fold_left index_mapping _ _) as [p t]. intros [= <-]. cbn [or_def].
  split; [done|]. split; [intros a b; apply (is_subclass_rtc (mkOntologyRegistry d p t))|]. intros a b. rewrite !is_subclass_rtc. cbn [or_def].
  intros Hab Hba. apply rtc_tc in Hab as [?|Hab]; [done|]. exfalso. apply od_validate_exact in Ev as [_ _ _ Hf _ _ _].
  assert (tc (inherits_from (od_classes d)) a a) as Hl by (apply rtc_tc in Hba as [->|Hba]; [done | by etrans]).
  assert (exists q, inherits_from (od_classes d) a q) as [q Hq] by (inversion Hab; eauto).
  unfold inherits_from, parent_of_class in Hq. apply bind_Some in Hq as (cd & Hc%get_elem & _). by apply (ends_no_loop _ _ (Hf _ Hc)).
Qed.

(* ------------------------------------------------------------------ *)
(** * The round trip *)

(** What the type of a registry entry guarantees, and a positive maximum. *)
Record encodable (d : OntologyDef) : Prop := {
  en_classes : keys_sorted (od_classes d) /\ forall x, x ∈ od_classes d -> cd_name x.2 = x.1;
  en_relationships : keys_sorted (od_relationships d) /\
    forall x, x ∈ od_relationships d -> rd_name x.2 = x.1 /\ match rd_max_count x.2 with Some n => 0 < n < U32 | None => True end;
  en_property_defs : keys_sorted (od_property_defs d) /\ forall x, x ∈ od_property_defs d -> pd_name x.2 = x.1;
  en_mappings : forall me, me ∈ od_mappings d -> keys_sorted (me_property_map me) }.

Lemma kfold_items {V} (f : list (bytes * V) -> Value -> KResult (list (bytes * V))) enc m : keys_sorted m ->
  (forall acc x, x ∈ m -> f acc (enc x) = KOk (btree_insert acc x.1 x.2)) -> kfold f [] (map enc m) = KOk m.
Proof.
  intros Hs Hf. rewrite <-(insert_fold m Hs) at 2. generalize (@nil (bytes * V)) as acc. induction m as [|x m IH]; intros acc; [done|]. cbn [map kfold fold_left].
  rewrite Hf by (by left). cbn [mbind KResult_bind]. apply IH; [by inversion Hs | intros; apply Hf; by right].
Qed.
Ltac read_keys := repeat first [rewrite get_insert_eq | rewrite get_insert_ne by (vm_compute; congruence)]; cbn [btree_get mbind option_bind value_text].
Lemma omap_texts ps : omap value_text (map VText ps) = ps.
Proof. induction ps as [|p ps IH]; [done|]. cbn. by f_equal. Qed.
Lemma class_item_value acc x : cd_name x.2 = x.1 -> class_item acc (class_value x) = KOk (btree_insert acc x.1 x.2).
Proof.
  destruct x as [n [n' parent desc props]]. cbn [fst snd cd_name]. intros ->. unfold class_value, class_item, ins, opt_insert, map_get_str, listed_values.
  cbn [fst snd cd_parent cd_description cd_properties]. destruct parent, desc, props as [|p ps]; cbn [fmap option_fmap option_map]; read_keys; by rewrite ?omap_texts.
Qed.
Lemma rel_item_value acc x : rd_name x.2 = x.1 -> match rd_max_count x.2 with Some n => 0 < n < U32 | None => True end -> rel_item acc (rel_value x) = KOk (btree_insert acc x.1 x.2).
Proof.
  destruct x as [n [n' dom rng card mx]]. cbn [fst snd rd_name rd_max_count]. intros -> Hm. unfold rel_value, rel_item, ins, opt_insert, map_get_str.
  cbn [fst snd rd_domain rd_range rd_cardinality rd_max_count]. destruct dom, rng, card as [c|], mx as [z|]; cbn [fmap option_fmap option_map]; read_keys;
    rewrite ?(proj2 (Z.ltb_lt 0 _)) by lia; try rewrite as_u32_small by (unfold is_u32; lia); try done; by destruct c.
Qed.
Lemma prop_item_value acc x : pd_name x.2 = x.1 -> prop_item acc (prop_value x) = KOk (btree_insert acc x.1 x.2).
Proof.
  destruct x as [n [n' ty req nul]]. cbn [fst snd pd_name]. intros ->. unfold prop_value, prop_item, ins, map_get_str, map_get_bool.
  cbn [fst snd pd_value_type pd_required pd_nullable]. destruct nul; read_keys; done.
Qed.
Lemma text_map_sorted (m : list (bytes * bytes)) : keys_sorted m -> keys_sorted (map (fun kv => (kv.1, VText kv.2)) m).
Proof. intros Hs. induction Hs as [|x m Hs IH Hx]; cbn; constructor; [done|]. apply Forall_map. eapply Forall_impl; [exact Hx|]. done. Qed.
Lemma mapping_item_value me : keys_sorted (me_property_map me) -> mapping_item (mapping_value me) = Some me.
Proof.
  destruct me as [src ty cl pm]. cbn [me_property_map]. intros Hs. unfold mapping_value, mapping_item, ins, map_get_str. cbn [me_source me_physical_type me_class me_property_map]. read_keys.
  do 2 f_equal. assert (fold_left (fun p kv => btree_insert p kv.1 (VText kv.2)) pm [] = map (fun kv => (kv.1, VText kv.2)) pm) as ->.
  { rewrite <-(insert_fold _ (text_map_sorted pm Hs)). generalize (@nil (bytes * Value)) as acc. clear Hs. induction pm as [|x pm IH]; intros acc; [done|]. cbn. by rewrite IH. }
  rewrite <-(insert_fold pm Hs) at 2. generalize (@nil (bytes * bytes)) as acc. clear Hs. induction pm as [|x pm IH]; intros acc; [done|]. cbn. by rewrite IH.
Qed.

(** C26: an ontology stored in the properties of an object reads back unchanged, when it is
    valid and no relationship has a maximum of zero. *)
Theorem ontology_roundtrip d : encodable d -> od_validate d = KOk tt -> from_property_map (to_property_map d) = KOk d.
Proof.
  destruct d as [ns ver cls rels pds maps]. intros [[Hc Hcn] [Hr Hrn] [Hp Hpn] Hm] Hv. cbn [od_classes od_relationships od_property_defs od_mappings] in *.
  unfold from_property_map, to_property_map, ins, listed_values, map_get_str. cbn [od_namespace od_version od_classes od_relationships od_property_defs od_mappings]. read_keys.
  rewrite (kfold_items class_item class_value cls Hc) by (intros; by apply class_item_value, Hcn). cbn [mbind KResult_bind].
  rewrite (kfold_items rel_item rel_value rels Hr) by (intros; apply rel_item_value; by apply Hrn). cbn [mbind KResult_bind].
  rewrite (kfold_items prop_item prop_value pds Hp) by (intros; by apply prop_item_value, Hpn). cbn [mbind KResult_bind].
  replace (omap mapping_item (map mapping_value maps)) with maps; [unfold default, id; by rewrite Hv|].
  clear -Hm. induction maps as [|me maps IH]; [done|]. cbn [map omap list_omap]. rewrite mapping_item_value by (apply Hm; by left). f_equal. apply IH. intros. apply Hm. by right.
Qed.

(** A maximum of zero is stored, and read back as no maximum. *)
Lemma zero_maximum_lost acc n : rel_item acc (rel_value (n, mkRelDef n None None None (Some 0))) = KOk (btree_insert acc n (mkRelDef n None None None None)).
Proof. unfold rel_value, rel_item, ins, opt_insert, map_get_str. cbn [fst snd rd_domain rd_range rd_cardinality rd_max_count fmap option_fmap option_map]. by read_keys. Qed.

Definition staff : OntologyDef :=
  mkOntologyDef [x6e] [x31] [([x61], mkClassDef [x61] None None [[x70]]); ([x62], mkClassDef [x62] (Some [x61]) (Some [x64]) [])]
    [([x72], mkRelDef [x72] (Some [x62]) (Some [x61]) (Some Cardinality.OneToMany) (Some 3))] [([x70], mkPropertyDef [x70] (txt "Int") true false)]
    [mkMappingEntry [x73] [x74] [x62] [([x63], [x70])]].
Lemma ontology_roundtrip_witness : encodable staff /\ od_validate staff = KOk tt /\ from_property_map (to_property_map staff) = KOk staff.
Proof.
  assert (encodable staff) as He.
  { split; cbn [staff od_classes od_relationships od_property_defs od_mappings].
    - split; [apply keys_ascend_sorted; vm_compute; reflexivity|]. intros x [->|[->|[]%elem_of_nil]%elem_of_cons]%elem_of_cons; reflexivity.
    - split; [apply keys_ascend_sorted; vm_compute; reflexivity|]. intros x [->|[]%elem_of_nil]%elem_of_cons. split; [reflexivity | cbn; unfold U32; lia].
    - split; [apply keys_ascend_sorted; vm_compute; reflexivity|]. intros x [->|[]%elem_of_nil]%elem_of_cons. reflexivity.
    - intros x [->|[]%elem_of_nil]%elem_of_cons. apply keys_ascend_sorted. vm_compute. reflexivity. }
  assert (od_validate staff = KOk tt) as Hv by (vm_compute; reflexivity).
  split; [exact He|]. split; [exact Hv|]. exact (ontology_roundtrip staff He Hv).
Defined.
Definition staff_registry : OntologyRegistry := match registry_of staff with KOk r => r | _ => registry_empty end.
Lemma subclass_exact_witness : registry_of staff = KOk staff_registry /\ is_subclass_of staff_registry [x62] [x61] = true /\ rtc (inherits_from (od_classes staff)) [x62] [x61].
Proof.
  assert (registry_of staff = KOk staff_registry) as Hr by (vm_compute; reflexivity). split; [exact Hr|].
  assert (is_subclass_of staff_registry [x62] [x61] = true) as Hs by (vm_compute; reflexivity). split; [exact Hs|].
  destruct (subclass_exact staff staff_registry Hr) as (_ & Ht & _). apply Ht. exact Hs.
Defined.
