(* ===== verification/Remember.v ===== *)
(** The admission of a write: the parts of [remember_locked] (transaction/kernel.rs) before
    the commit, with the authority and scope levels (knowledge/authority.rs, scope.rs), the
    uniqueness checks (lifecycle/schema.rs) and the relationship rules of the ontology. *)

From Stdlib Require Import String.
From stdpp Require Import gmap.
From S2P Require Import Prelude Format Memtable Kom Codec CodecProps Store Repository RepositorySpec RepositoryReads Commit CommitInv CommitOps CommitRun Epistemic Auth Expr Schema Constraint Ontology.

(* ------------------------------------------------------------------ *)
(** * Authority and scope *)

Module Authority.
Inductive t : Type :=
  | HumanApproved | OrganizationPolicy | ArchitectureDecision | SourceCode | TestVerified | CiVerified | DeploymentObserved | Documentation
  | AgentDerived | LlmInferred | UntrustedExternal.
Definition rank (a : t) : Z :=
  match a with
  | HumanApproved => 10 | OrganizationPolicy => 9 | ArchitectureDecision => 8 | SourceCode => 7 | TestVerified => 6 | CiVerified => 5
  | DeploymentObserved => 4 | Documentation => 3 | AgentDerived => 2 | LlmInferred => 1 | UntrustedExternal => 0
  end.
Definition as_str (a : t) : bytes :=
  txt match a with
      | HumanApproved => "human_approved" | OrganizationPolicy => "organization_policy" | ArchitectureDecision => "architecture_decision"
      | SourceCode => "source_code" | TestVerified => "test_verified" | CiVerified => "ci_verified" | DeploymentObserved => "deployment_observed"
      | Documentation => "documentation" | AgentDerived => "agent_derived" | LlmInferred => "llm_inferred" | UntrustedExternal => "untrusted_external"
      end.
Definition all : list t :=
  [HumanApproved; OrganizationPolicy; ArchitectureDecision; SourceCode; TestVerified; CiVerified; DeploymentObserved; Documentation; AgentDerived; LlmInferred; UntrustedExternal].
Definition from_str (s : bytes) : option t := List.find (fun a => bytes_eqb s (as_str a)) all.
Definition for_origin (o : Origin.t) : t :=
  match o with
  | Origin.Human => HumanApproved
  | Origin.System => OrganizationPolicy
  | Origin.Reason | Origin.Agent _ | Origin.SemanticEnrichment => AgentDerived
  end.
End Authority.

Module Scope.
Inductive t : Type := Global | Organization | Project | Repository | Branch | Directory | Component | Task | Session | Agent | User | Environment.
Definition as_str (s : t) : bytes :=
  txt match s with
      | Global => "global" | Organization => "organization" | Project => "project" | Repository => "repository" | Branch => "branch" | Directory => "directory"
      | Component => "component" | Task => "task" | Session => "session" | Agent => "agent" | User => "user" | Environment => "environment"
      end.
Definition for_origin (o : Origin.t) : t :=
  match o with
  | Origin.Human => User
  | Origin.Agent _ => Session
  | Origin.System | Origin.Reason | Origin.SemanticEnrichment => Global
  end.
End Scope.

(* ------------------------------------------------------------------ *)
(** * Requests *)

Module ReferentialPolicy.
Inductive t : Type := Strict | Permissive | Enforced.
#[global] Instance eq_dec : EqDecision t.
Proof. solve_decision. Defined.
End ReferentialPolicy.

(** The fields of the context that a write reads. *)
Record KnowledgeContext : Type := mkKnowledgeContext { kx_subject : Subject; kx_tenant : option bytes }.
Record RememberRequest : Type := mkRememberRequest {
  rq_context : KnowledgeContext; rq_koid : option KOID; rq_expected_version : option Z; rq_idempotency_key : option bytes; rq_metadata : Metadata;
  rq_properties : PropertyMap; rq_semantic : option SemanticBlock; rq_relationships : list RelationshipRef; rq_security : option SecurityDescriptor;
  rq_extensions : PropertyMap; rq_origin : Origin.t; rq_note : option bytes; rq_referential_policy : ReferentialPolicy.t }.
(** [RememberRequest::create] and [update]. *)
Definition request_create (c : KnowledgeContext) (m : Metadata) : RememberRequest :=
  mkRememberRequest c None (Some 0) None m [] None [] None [] Origin.Human None ReferentialPolicy.Permissive.
Definition request_update (c : KnowledgeContext) (k : KOID) (m : Metadata) : RememberRequest :=
  mkRememberRequest c (Some k) None None m [] None [] None [] Origin.Human None ReferentialPolicy.Permissive.

Definition EXT_EVIDENCE : bytes := txt "evidence".
Definition EXT_CONTENT_TRUST : bytes := txt "content_trust".
Definition EXT_DERIVATION : bytes := txt "derivation".
Definition EXT_CONFIDENCE : bytes := txt "confidence".
Definition EXT_SALIENCE : bytes := txt "salience".
Definition EXT_INVALIDATION : bytes := txt "invalidation".
Definition EXT_VERIFIED_EVENT : bytes := txt "verified_event".
Definition AUTHORITY : bytes := txt "authority".
Definition SCOPE : bytes := txt "scope".
Definition CLAIM_HOLDER : bytes := txt "claim_holder".
Definition CLAIM_UNTIL : bytes := txt "claim_until".
Definition DERIVED_FROM : bytes := txt "derived_from".
Definition CONTRADICTS : bytes := txt "contradicts".

(* ------------------------------------------------------------------ *)
(** * The extensions of the new version *)

Definition ext_default (ext : PropertyMap) (key : bytes) (v : bytes) : PropertyMap := if has_key ext key then ext else btree_insert ext key (VText v).
Definition create_extensions (ext : PropertyMap) (origin : Origin.t) : PropertyMap :=
  let ext := ext_default ext EXT_EPISTEMIC_STATUS (epistemic_name (EpistemicStatus.for_origin origin)) in
  let ext := ext_default ext AUTHORITY (Authority.as_str (Authority.for_origin origin)) in
  ext_default ext SCOPE (Scope.as_str (Scope.for_origin origin)).

Definition CARRIED : list bytes :=
  [EXT_EPISTEMIC_STATUS; EXT_EPISTEMIC_HISTORY; EXT_EVIDENCE; EXT_LIFECYCLE_HISTORY; EXT_CONTENT_TRUST; EXT_VALID_FROM; EXT_VALID_TO; EXT_DERIVATION;
   EXT_CONFIDENCE; AUTHORITY; SCOPE; CLAIM_HOLDER; CLAIM_UNTIL].
Definition carry (head : PropertyMap) (ext : PropertyMap) (key : bytes) : PropertyMap :=
  if has_key ext key then ext else match btree_get head key with Some v => btree_insert ext key v | None => ext end.
Definition strip_null (ext : PropertyMap) (key : bytes) : PropertyMap := match btree_get ext key with Some VNull => btree_remove ext key | _ => ext end.
Definition parse_rank (v : Value) : option Z := match v with VText s => Authority.rank <$> Authority.from_str s | _ => None end.
Definition authority_rank (ext : PropertyMap) : option Z := btree_get ext AUTHORITY ≫= parse_rank.
Definition downgrades (head ext : PropertyMap) : bool := match authority_rank head, authority_rank ext with Some h, Some r => r <? h | _, _ => false end.
Definition inverted (ext : PropertyMap) : bool := match valid_from ext, valid_to ext with Some f, Some t => t <? f | _, _ => false end.
Definition IMMUTABLE : list bytes := [txt "source_artifact"; txt "revision"].
Definition rewrites (head ext : PropertyMap) (key : bytes) : bool := has_key head key && negb (opt_value_eqb (btree_get ext key) (btree_get head key)).
Definition evidence_kept (head ext : PropertyMap) : bool :=
  match btree_get head EXT_EVIDENCE with
  | Some (VList h) =>
      match btree_get ext EXT_EVIDENCE with
      | Some (VList r) => (zlen h <=? zlen r) && list_eqb value_eqb (take (length h) r) h
      | _ => false
      end
  | Some other => opt_value_eqb (btree_get ext EXT_EVIDENCE) (Some other)
  | None => true
  end.
(** The carried keys, and a claim that the request nulls is dropped. *)
Definition merged (head ext : PropertyMap) : PropertyMap := strip_null (strip_null (fold_left (carry head) CARRIED ext) CLAIM_HOLDER) CLAIM_UNTIL.
Definition update_extensions (admin : bool) (head ext : PropertyMap) : KResult PropertyMap :=
  let ext := merged head ext in
  if downgrades head ext && negb admin then KErr (InvalidObject "authority downgrade requires admin")
  else if inverted ext then KErr (InvalidObject "valid interval must satisfy valid_from <= valid_to")
  else if existsb (rewrites head ext) IMMUTABLE then KErr (InvalidObject "provenance field is immutable")
  else if negb (evidence_kept head ext) then KErr (InvalidObject "provenance field 'evidence' is append-only")
  else KOk ext.

(** [authority_factor]: the rank over ten. *)
Definition authority_factor (ext : PropertyMap) : Z :=
  match authority_rank ext with Some r => f64_to_bits (f64_div (f64_of_int r) (f64_of_int 10)) | None => 0 end.

(* ------------------------------------------------------------------ *)
(** * The new version *)

Definition kept_edge (r : RelationshipRef) : bool := bytes_eqb (rel_type r) SUPERSEDES || bytes_eqb (rel_type r) DERIVED_FROM || bytes_eqb (rel_type r) CONTRADICTS.
Definition keep_edges (req head : list RelationshipRef) : list RelationshipRef :=
  fold_left (fun rels hr => if kept_edge hr && negb (bool_decide (hr ∈ rels)) then rels ++ [hr] else rels) head req.
Definition request_write_set (head : option KnowledgeObject) (req : RememberRequest) : gset bytes :=
  match head with Some h => write_set (ko_properties h) (rq_properties req) | None => keys (rq_properties req) end.
Definition request_extensions (head : option KnowledgeObject) (req : RememberRequest) : KResult PropertyMap :=
  match head with
  | None => KOk (create_extensions (rq_extensions req) (rq_origin req))
  | Some h => update_extensions (is_admin (kx_subject (rq_context req))) (ko_extensions h) (rq_extensions req)
  end.
Definition request_security (auth : AuthManager) (head : option KnowledgeObject) (koid : KOID) (req : RememberRequest) : KResult SecurityDescriptor :=
  let subject := kx_subject (rq_context req) in
  match head with
  | None =>
      let s := default (mkSecurityDescriptor (su_name subject) [] None) (rq_security req) in
      if negb (bytes_eqb (owner s) (su_name subject)) && negb (is_admin subject) then KErr (AccessDenied (su_name subject) Action.Write koid) else KOk s
  | Some h => _ ← authorize auth subject h Action.Write; KOk (default (ko_security h) (rq_security req))
  end.
Definition head_version (head : option KnowledgeObject) : Z := match head with Some h => ko_version h | None => 0 end.
Definition request_object (head : option KnowledgeObject) (koid : KOID) (req : RememberRequest) (ext : PropertyMap) (security : SecurityDescriptor) : KnowledgeObject :=
  mkKnowledgeObject koid ((head_version head + 1) mod U64) 0 (rq_metadata req) (rq_properties req) (rq_semantic req)
    (match head with Some h => keep_edges (rq_relationships req) (ko_relationships h) | None => rq_relationships req end)
    (match head with Some h => ko_event_refs h | None => [] end) security
    (match head with Some h => ko_lifecycle h | None => mkLifecycle LifecycleState.Draft (rq_origin req) end)
    (btree_insert ext EXT_SALIENCE (VFloat (authority_factor ext))).
Definition request_kind (head : option KnowledgeObject) (req : RememberRequest) : EventKind.t :=
  match rq_origin req, head with
  | Origin.Reason, _ | Origin.SemanticEnrichment, _ => EventKind.ClaimAsserted
  | _, None => EventKind.Created
  | _, Some _ => EventKind.Updated
  end.

(* ------------------------------------------------------------------ *)
(** * Schema, constraints and uniqueness *)

(** What the kernel is configured with: the schemas, the ontology, the tenants' quotas, and
    which constraints the backend enforces itself.  Field encryption is off. *)
Record Config : Type := mkConfig {
  cf_schemas : SchemaRegistry; cf_ontology : OntologyRegistry; cf_quotas : gmap bytes Z; cf_not_null : bool; cf_check : bool; cf_unique : bool }.

Section Checks.
Context `{Regex} (cfg : Config).

Definition admit_schema (ko : KnowledgeObject) (ws : gset bytes) : KResult unit :=
  _ ← registry_validate (cf_schemas cfg) ko (cf_not_null cfg);
  if cf_check cfg then KOk tt
  else
    match cf_schemas cfg !! type_name (ko_metadata ko) with
    | Some s =>
        if has_enabled_constraints s then
          r ← evaluate_full s (ko_properties ko) (Some ws) (Some (ko_koid ko)) (ko_semantic ko ≫= sb_source);
          into_kresult (cr_merge r (evaluate_cardinality s (ko_relationships ko) (Some (ko_koid ko))))
        else KOk tt
    | None => KOk tt
    end.

Context {E : Type} `{StorageEngine E}.

(** [uniqueness_conflict]: a read that fails counts as no conflict. *)
Definition in_scope (scope : UniquenessScope.t) (t : option bytes) (ty : bytes) (ko : KnowledgeObject) : bool :=
  match scope with
  | UniquenessScope.Type_ => bytes_eqb (type_name (ko_metadata ko)) ty
  | UniquenessScope.Tenant => match t with Some t => bool_decide (tenant (ko_metadata ko) = Some t) | None => false end
  | UniquenessScope.Global => true
  end.
Definition pairs_held (pairs : list (bytes * Value)) (props : PropertyMap) : bool :=
  forallb (fun p => match btree_get props p.1 with Some v => value_eqb v p.2 | None => false end) pairs.
Fixpoint conflict_loop (heads : list (KOID * Z * Z * LifecycleState.t)) (scope : UniquenessScope.t) (t : option bytes) (ty : bytes)
    (pairs : list (bytes * Value)) (exclude : KOID) : RM E bool :=
  match heads with
  | [] => mret false
  | (hkoid, _, _, state) :: heads =>
      if bool_decide (hkoid = exclude) then conflict_loop heads scope t ty pairs exclude
      else if bool_decide (state = LifecycleState.Deleted) then conflict_loop heads scope t ty pairs exclude
      else fun r =>
        match head_object hkoid r with
        | (r, KOk (Some existing)) =>
            if in_scope scope t ty existing && pairs_held pairs (ko_properties existing) then (r, KOk true) else conflict_loop heads scope t ty pairs exclude r
        | (r, KOk None) | (r, KErr _) => conflict_loop heads scope t ty pairs exclude r
        | (r, KPanic) => (r, KPanic)
        end
  end.
Definition uniqueness_conflict (scope : UniquenessScope.t) (t : option bytes) (ty : bytes) (pairs : list (bytes * Value)) (exclude : KOID) : RM E bool := fun r =>
  match scan_heads (rp_engine r) with
  | KOk heads => conflict_loop heads scope t ty pairs exclude r
  | KErr _ => (r, KOk false)
  | KPanic => (r, KPanic)
  end.

Fixpoint unique_pairs (props : PropertyMap) (names : list bytes) : KResult (list (bytes * Value)) :=
  match names with
  | [] => KOk []
  | n :: names =>
      match btree_get props n with
      | Some v => rest ← unique_pairs props names; KOk ((n, v) :: rest)
      | None => KErr (InvalidSchema "unique constraint requires a property that is missing")
      end
  end.
(** [check_uniqueness], not skipping deferred constraints; the advisory events are left out. *)
Fixpoint unique_loop (ko : KnowledgeObject) (ws : gset bytes) (ucs : list UniqueConstraint) : RM E unit :=
  match ucs with
  | [] => mret tt
  | uc :: ucs =>
      if negb (enabled (uc_mode uc)) then unique_loop ko ws ucs
      else if negb (unique_affected_by_write_set uc (Some ws)) then unique_loop ko ws ucs
      else
        pairs ← lift (unique_pairs (ko_properties ko) (uc_properties uc));
        conflict ← uniqueness_conflict (uc_scope uc) (tenant (ko_metadata ko)) (type_name (ko_metadata ko)) pairs (ko_koid ko);
        if (conflict : bool) && negb (bool_decide (uc_mode uc = EnforcementMode.Advisory)) then lift (KErr (InvalidSchema "uniqueness constraint violated"))
        else unique_loop ko ws ucs
  end.
Definition admit_unique (ko : KnowledgeObject) (ws : gset bytes) : RM E unit :=
  if cf_unique cfg then mret tt
  else match cf_schemas cfg !! type_name (ko_metadata ko) with Some s => unique_loop ko ws (sc_unique_constraints s) | None => mret tt end.

(** Strict referential integrity. *)
Fixpoint strict_loop (rels : list RelationshipRef) : RM E unit :=
  match rels with
  | [] => mret tt
  | rel :: rels =>
      o ← head_object (target rel);
      match o with
      | Some _ => strict_loop rels
      | None => lift (KErr (InvalidObject "relationship target does not exist under strict referential policy"))
      end
  end.

(** The relationship rules of the ontology. *)
Definition is_a (ty class : bytes) : bool := bytes_eqb ty class || is_subclass_of (cf_ontology cfg) ty class.
Definition rel_count (rels : list RelationshipRef) (ty : bytes) : Z := as_u32 (zlen (List.filter (fun r => bytes_eqb (rel_type r) ty) rels)).
Fixpoint ontology_loop (ty : bytes) (koid : KOID) (all rels : list RelationshipRef) (checked : gset bytes) : RM E unit :=
  match rels with
  | [] => mret tt
  | rel :: rels =>
      match btree_get (od_relationships (or_def (cf_ontology cfg))) (rel_type rel) with
      | None => ontology_loop ty koid all rels checked
      | Some rd =>
          _ ← lift (match rd_domain rd with Some d => if is_a ty d then KOk tt else KErr (InvalidObject "domain mismatch") | None => KOk tt end);
          _ ← match rd_range rd with
              | Some range =>
                  o ← head_object (target rel);
                  lift (match o with
                        | Some ko => if is_a (type_name (ko_metadata ko)) range then KOk tt else KErr (InvalidObject "range mismatch")
                        | None => KOk tt
                        end)
              | None => mret tt
              end;
          let one_to_one := bool_decide (rd_cardinality rd = Some Cardinality.OneToOne) in
          let one_to_many := bool_decide (rd_cardinality rd = Some Cardinality.OneToMany) in
          _ ← (if one_to_one || one_to_many then
                 inbound ← on_engine (fun e => scan_inbound e (target rel) (Some (rel_type rel)));
                 lift (if existsb (fun x => negb (bool_decide (x.2 = koid))) inbound then KErr (InvalidObject "cardinality violated") else KOk tt)
               else mret tt);
          if bool_decide (rel_type rel ∈ checked) then ontology_loop ty koid all rels checked
          else
            let count := rel_count all (rel_type rel) in
            _ ← lift (if one_to_one && (1 <? count) then KErr (InvalidObject "1:1 cardinality violated") else KOk tt);
            _ ← lift (if match rd_max_count rd with Some max => max <? count | None => false end then KErr (InvalidObject "max_count cardinality violated") else KOk tt);
            ontology_loop ty koid all rels ({[rel_type rel]} ∪ checked)
      end
  end.
End Checks.

(* ================================================================== *)
(** crates/kernel/src/transaction/kernel.rs: [remember_locked], the write of one object, and
    its entry points [remember] and [remember_retained].

    The caller holds the pipeline lock.  The authorization manager is passed and returned,
    since a write of a role or a policy reloads it; the identifier a create uses is an
    argument (the generator is [next_id]).  No field encryption is configured: the branch
    that encrypts property values is left out.  So is the violation log, which nothing reads
    back. *)

Record Remembered : Type := mkRemembered { rm_koid : KOID; rm_version : Z; rm_commit_ts : Z; rm_journal_seq : Z }.

Section Remember.
Context {E : Type} `{StorageEngine E} `{Sha256} `{Regex}.
Context (hmac_sha256 : bytes -> bytes -> bytes) (signer : option (bytes -> bytes)) (signing_key : option bytes).
Context (cfg : Config).

(** A key that is already held: the outcome it recorded, if it is of the same kind. *)
Definition replay_prior (prior : KOID * Z * Z * option Z) : KM E Remembered :=
  let '(koid, version, commit_ts, kind) := prior in
  if match kind with Some k => negb (k =? IDEM_KIND_REMEMBER) | None => false end then klift (KErr (IdempotencyConflict "key already held by another kind"))
  else
    head ← on_repo (head_object koid);
    pipe ← kget k_pipe;
    seq ← klift (match head with
                 | Some h => if version =? 0 then KPanic else KOk (default (p_seq pipe) (er_seq <$> (ko_event_refs h !! Z.to_nat (version - 1))))
                 | None => KOk (p_seq pipe)
                 end);
    mret (mkRemembered koid version commit_ts seq).

(** The checks, up to the version to commit; [head] is the current one. *)
Definition check_request (auth : AuthManager) (koid : KOID) (req : RememberRequest) : KM E (option KnowledgeObject * KnowledgeObject) :=
  head ← on_repo (head_object koid);
  _ ← klift (match head, rq_koid req, rq_expected_version req with None, Some _, None => KErr (NotFound koid) | _, _, _ => KOk tt end);
  let cur_v := head_version head in
  let expected := default cur_v (rq_expected_version req) in
  _ ← klift (if expected =? cur_v then KOk tt else KErr (VersionConflict koid expected cur_v));
  ext ← klift (request_extensions head req);
  let ws := request_write_set head req in
  security ← klift (request_security auth head koid req);
  _ ← (if bool_decide (rq_referential_policy req = ReferentialPolicy.Strict) then on_repo (strict_loop (rq_relationships req)) else mret tt);
  let ko := request_object head koid req ext security in
  _ ← klift (admit_schema cfg ko ws);
  _ ← on_repo (admit_unique cfg ko ws);
  _ ← (if bool_decide (rq_referential_policy req = ReferentialPolicy.Enforced) then
         on_repo (ontology_loop cfg (type_name (rq_metadata req)) koid (rq_relationships req) (rq_relationships req) ∅)
       else mret tt);
  usage ← kget k_usage;
  _ ← klift (match head with None => check_create (cf_quotas cfg) usage (kx_tenant (rq_context req)) | Some _ => KOk tt end);
  mret (head, ko).

Definition is_auth_meta (req : RememberRequest) : bool :=
  bytes_eqb (type_name (rq_metadata req)) ROLE_TYPE || bytes_eqb (type_name (rq_metadata req)) POLICY_TYPE.
Definition usage_row (usage : Usage) (head : option KnowledgeObject) (req : RememberRequest) : option (bytes * Z) :=
  match head with None => let t := tenant_name (tenant (rq_metadata req)) in Some (t, usage_of usage t + 1) | Some _ => None end.
Definition commit_request (auth : AuthManager) (ms : Z) (scoped : option bytes) (req : RememberRequest) (head : option KnowledgeObject) (ko : KnowledgeObject)
    : KM E (Remembered * AuthManager) :=
  usage ← kget k_usage;
  '(commit_ts, seq) ← commit_version hmac_sha256 signer signing_key ms ko (request_kind head req) (rq_origin req) (su_name (kx_subject (rq_context req))) (rq_note req)
    scoped (ko_relationships <$> head) (usage_row usage head req);
  _ ← (match head with None => kset (fun k => set_usage k (record_create (k_usage k) (tenant (rq_metadata req)))) | Some _ => mret tt end);
  auth ← (if is_auth_meta req then on_repo auth_load else mret auth);
  mret (mkRemembered (ko_koid ko) (ko_version ko) commit_ts seq, auth).

Definition scoped_key (req : RememberRequest) : option bytes := idem_scope (tenant (rq_metadata req)) <$> rq_idempotency_key req.
Definition remember_locked (auth : AuthManager) (minted : KOID) (ms : Z) (req : RememberRequest) : KM E (Remembered * AuthManager) :=
  prior ← match scoped_key req with Some key => on_repo (on_engine (fun e => get_idem_tagged e key)) | None => mret None end;
  match prior with
  | Some prior => r ← replay_prior prior; mret (r, auth)
  | None => '(head, ko) ← check_request auth (default minted (rq_koid req)) req; commit_request auth ms (scoped_key req) req head ko
  end.

Definition KERNEL_MANAGED_EXTENSIONS : list bytes :=
  [EXT_EPISTEMIC_STATUS; EXT_EPISTEMIC_HISTORY; EXT_LIFECYCLE_HISTORY; EXT_INVALIDATION; EXT_EVIDENCE; EXT_DERIVATION; EXT_CONFIDENCE; EXT_VERIFIED_EVENT;
   EXT_VALID_TO; EXT_CONTENT_TRUST; EXT_SALIENCE; AUTHORITY; SCOPE; CLAIM_HOLDER; CLAIM_UNTIL].
Definition remember (auth : AuthManager) (minted : KOID) (ms : Z) (req : RememberRequest) : KM E (Remembered * AuthManager) :=
  if existsb (has_key (rq_extensions req)) KERNEL_MANAGED_EXTENSIONS then klift (KErr (InvalidObject "extension is kernel-managed"))
  else remember_locked auth minted ms req.

Definition with_extensions (req : RememberRequest) (ext : PropertyMap) : RememberRequest :=
  mkRememberRequest (rq_context req) (rq_koid req) (rq_expected_version req) (rq_idempotency_key req) (rq_metadata req) (rq_properties req) (rq_semantic req)
    (rq_relationships req) (rq_security req) ext (rq_origin req) (rq_note req) (rq_referential_policy req).
(** [remember_retained]; [now] is the clock. *)
Definition remember_retained (auth : AuthManager) (minted : KOID) (now ms : Z) (req : RememberRequest) (retention_ms : Z) : KM E (Remembered * AuthManager) :=
  let valid_to := now + retention_ms in
  if negb (valid_to <? 2 ^ 63) then klift (KErr (InvalidObject "retention pushes valid_to past the representable epoch bound"))
  else if match valid_from (rq_extensions req) with Some f => valid_to <? f | None => false end then klift (KErr (InvalidObject "valid interval must satisfy valid_from <= valid_to"))
  else remember_locked auth minted ms (with_extensions req (btree_insert (rq_extensions req) EXT_VALID_TO (VInt valid_to))).
End Remember.
