(* ===== verification/RememberProps.v ===== *)
(** [remember] in the kernel: the checks only read, and what they establish; the commit that
    follows keeps the journal. *)

From Stdlib Require Import String.
From stdpp Require Import gmap.
From S2P Require Import Prelude Format Memtable Kom Codec CodecProps Store Repository RepositorySpec RepositoryReads RepositoryRebuild Commit CommitInv CommitOps CommitRun Epistemic CommitTxn Auth AuthProps Expr Schema Constraint Ontology Remember.

(* ------------------------------------------------------------------ *)
(** * Reads of the repository *)

Section Reads.
Context {E : Type} `{HL : EngineLaws E} `{SHA : Sha256} `{Regex}.
Context (s : SpecState).

(** [m] changes at most the cache, and what it returns satisfies [Q]. *)
Definition rquiet {A} (m : RM E A) (Q : A -> Prop) (r : Repo E) : Prop :=
  exists r' x, m r = (r', x) /\ rp_engine r' = rp_engine r /\ repo_ok r' s /\ forall a, x = KOk a -> Q a.
Lemma rquiet_lift {A} (x : KResult A) (Q : A -> Prop) r : repo_ok r s -> (forall a, x = KOk a -> Q a) -> rquiet (lift x) Q r.
Proof. intros Hr Hq. by exists r, x. Qed.
Lemma rquiet_ret {A} (a : A) (Q : A -> Prop) r : repo_ok r s -> Q a -> rquiet (mret a) Q r.
Proof. intros Hr Hq. exists r, (KOk a). split; [done|]. split; [done|]. split; [done|]. by intros ? [= <-]. Qed.
Lemma rquiet_engine {A} (f : E -> KResult A) r : repo_ok r s -> rquiet (on_engine f) (fun _ => True) r.
Proof. intros Hr. by exists r, (f (rp_engine r)). Qed.
Lemma rquiet_bind {A B} (m : RM E A) (f : A -> RM E B) (P : A -> Prop) (Q : B -> Prop) r :
  rquiet m P r -> (forall a r', P a -> rp_engine r' = rp_engine r -> repo_ok r' s -> rquiet (f a) Q r') -> rquiet (m ≫= f) Q r.
Proof.
  intros (r1 & x & E1 & Ee1 & Hr1 & Hp) Hf. unfold rquiet, mbind, RM_bind. rewrite E1. destruct x as [a|e|]; [|by exists r1, (KErr e)|by exists r1, KPanic].
  destruct (Hf a r1 (Hp a eq_refl) Ee1 Hr1) as (r2 & y & -> & Ee2 & Hr2 & Hq). exists r2, y. split; [done|]. split; [congruence | done].
Qed.
Lemma rquiet_weaken {A} (m : RM E A) (P Q : A -> Prop) r : rquiet m P r -> (forall a, P a -> Q a) -> rquiet m Q r.
Proof. intros (r' & x & ? & ? & ? & Hp) Hi. exists r', x. naive_solver. Qed.
Lemma rquiet_head r x : repo_ok r s -> koid_ok x = true -> rquiet (head_object x) (fun o => o = spec_head_object s x) r.
Proof.
  intros (m & Hh & Hr & Hc) Hx. destruct (head_object_spec s m r x Hh Hr Hc Hx) as (r' & Er & Ee & Hc'). exists r', (KOk (spec_head_object s x)).
  split; [done|]. split; [done|]. split; [exists m; by rewrite Ee|]. by intros ? [= <-].
Qed.

Definition targets_ok (rels : list RelationshipRef) : Prop := forall rel, rel ∈ rels -> koid_ok (target rel) = true.
Lemma strict_loop_quiet rels : forall r, targets_ok rels -> repo_ok r s -> rquiet (strict_loop rels) (fun _ => forall rel, rel ∈ rels -> is_Some (spec_head_object s (target rel))) r.
Proof.
  induction rels as [|rel rels IH]; intros r Ht Hr; [apply rquiet_ret; [done | set_solver]|]. cbn [strict_loop].
  eapply rquiet_bind; [apply rquiet_head; [done | apply Ht; by left]|]. intros o r' -> _ Hr'. destruct (spec_head_object s (target rel)) as [h|] eqn:Eh; [|by apply rquiet_lift].
  eapply rquiet_weaken; [apply IH; [intros ? ?; apply Ht; by right | done]|]. intros ? Hall rel' [E1|Hin]%elem_of_cons; [rewrite E1, Eh; eauto | by apply Hall].
Qed.
Lemma ontology_loop_quiet cfg ty koid all rels : forall checked r, targets_ok rels -> repo_ok r s -> rquiet (ontology_loop cfg ty koid all rels checked) (fun _ => True) r.
Proof.
  induction rels as [|rel rels IH]; intros checked r Ht Hr; [by apply rquiet_ret|]. cbn [ontology_loop].
  assert (forall checked r, repo_ok r s -> rquiet (ontology_loop cfg ty koid all rels checked) (fun _ => True) r) as IH' by (intros; apply IH; [intros ? ?; apply Ht; by right | done]).
  destruct (btree_get _ (rel_type rel)) as [rd|]; [|by apply IH'].
  eapply rquiet_bind; [by apply (rquiet_lift _ (fun _ => True))|]. intros _ r1 _ _ Hr1.
  eapply (rquiet_bind _ _ (fun _ => True)).
  { destruct (rd_range rd); [|by apply rquiet_ret]. eapply rquiet_bind; [apply rquiet_head; [done | apply Ht; by left]|]. intros. by apply rquiet_lift. }
  intros _ r2 _ _ Hr2. cbn zeta. eapply (rquiet_bind _ _ (fun _ => True)).
  { destruct (_ || _); [|by apply rquiet_ret]. eapply rquiet_bind; [by apply rquiet_engine|]. intros. by apply rquiet_lift. }
  intros _ r3 _ _ Hr3. case_bool_decide; [by apply IH'|]. eapply rquiet_bind; [by apply (rquiet_lift _ (fun _ => True))|]. intros _ r4 _ _ Hr4.
  eapply rquiet_bind; [by apply (rquiet_lift _ (fun _ => True))|]. intros _ r5 _ _ Hr5. by apply IH'.
Qed.

(** ** Uniqueness *)
Definition live (ko : KnowledgeObject) : Prop := lc_state (ko_lifecycle ko) <> LifecycleState.Deleted.
Definition clashes scope t ty pairs (ko : KnowledgeObject) : bool := in_scope scope t ty ko && pairs_held pairs (ko_properties ko).
Definition no_clash scope t ty pairs exclude : Prop :=
  forall x ko, spec_head_object s x = Some ko -> x <> exclude -> live ko -> clashes scope t ty pairs ko = false.
Lemma conflict_loop_quiet scope t ty pairs exclude heads : forall r, repo_ok r s -> Forall (fun h => koid_ok h.1.1.1 = true) heads ->
  rquiet (conflict_loop heads scope t ty pairs exclude) (fun b => b = false -> forall x ver ts st ko, (x, ver, ts, st) ∈ heads -> x <> exclude -> st <> LifecycleState.Deleted ->
    spec_head_object s x = Some ko -> clashes scope t ty pairs ko = false) r.
Proof.
  induction heads as [|[[[x ver] ts] st] heads IH]; intros r Hr Hk; [apply rquiet_ret; [done | set_solver]|]. apply Forall_cons in Hk as [Hx Hk]. cbn [fst] in Hx. cbn [conflict_loop].
  case_bool_decide as Ex; [eapply rquiet_weaken; [by apply IH|]; intros b Hb E' x' ver' ts' st' ko [[= -> -> -> ->]|Hin]%elem_of_cons; naive_solver|].
  case_bool_decide as Es; [eapply rquiet_weaken; [by apply IH|]; intros b Hb E' x' ver' ts' st' ko [[= -> -> -> ->]|Hin]%elem_of_cons; naive_solver|].
  destruct (rquiet_head r x Hr Hx) as (r1 & y & E1 & Ee1 & Hr1 & Hy).
  assert (forall r2, rp_engine r2 = rp_engine r -> repo_ok r2 s -> (forall ko, spec_head_object s x = Some ko -> clashes scope t ty pairs ko = false) ->
    exists r' z, conflict_loop heads scope t ty pairs exclude r2 = (r', z) /\ rp_engine r' = rp_engine r /\ repo_ok r' s /\
      forall b, z = KOk b -> b = false -> forall x' ver' ts' st' ko, (x', ver', ts', st') ∈ (x, ver, ts, st) :: heads -> x' <> exclude -> st' <> LifecycleState.Deleted ->
      spec_head_object s x' = Some ko -> clashes scope t ty pairs ko = false) as Hnext.
  { intros r2 Ee2 Hr2 Hc. destruct (IH r2 Hr2 Hk) as (r' & z & Ez & Ee & Hr' & Hz). exists r', z. split; [done|]. split; [congruence|]. split; [done|].
    intros b -> -> x' ver' ts' st' ko [[= -> -> -> ->]|Hin]%elem_of_cons; [naive_solver | by apply (Hz _ eq_refl eq_refl x' ver' ts' st')]. }
  unfold rquiet. rewrite E1. destruct y as [[existing|]|e|].
  - specialize (Hy _ eq_refl). destruct (in_scope scope t ty existing && pairs_held pairs (ko_properties existing)) eqn:Ec.
    + exists r1, (KOk true). split; [done|]. split; [done|]. split; [done|]. by intros ? [= <-].
    + apply Hnext; [done..|]. intros ko Hko. rewrite <-Hy in Hko. by injection Hko as <-.
  - apply Hnext; [done..|]. intros ko Hko. rewrite <-(Hy _ eq_refl) in Hko. done.
  - exfalso. destruct Hr as (m & Hh & Hrep & Hc). destruct (head_object_spec s m r x Hh Hrep Hc Hx) as (r' & Er & _). rewrite E1 in Er. by injection Er.
  - exists r1, KPanic. done.
Qed.
Lemma conflict_quiet scope t ty pairs exclude r : repo_ok r s -> heads_ok s -> scannable (rp_engine r) P_HEAD ->
  rquiet (uniqueness_conflict scope t ty pairs exclude) (fun b => b = false -> no_clash scope t ty pairs exclude) r.
Proof.
  intros Hr Hho Hp. pose proof Hr as (m & Hm & Hrep & Hc). unfold rquiet, uniqueness_conflict. rewrite (scan_heads_spec _ m s) by done.
  assert (Forall (fun h => koid_ok h.1.1.1 = true) (listed sel_head s)) as Hk.
  { apply Forall_forall. intros [[[x ver] ts] st] Hx. apply (listed_elem m) in Hx; [|done]. destruct Hx as (id & v & Hs & Hsel). destruct id; try done.
    destruct v as [|[[? ?] ?]| | | | | |]; try done. cbn in Hsel. simplify_eq. by destruct (proj1 Hrep _ _ Hs) as [Hi _]. }
  destruct (conflict_loop_quiet scope t ty pairs exclude (listed sel_head s) r Hr Hk) as (r' & z & Ez & Ee & Hr' & Hz). exists r', z. split; [done|]. split; [done|]. split; [done|].
  intros b -> -> x ko Hko Hne Hl. unfold spec_head_object in Hko. destruct (spec_head s x) as [[[ver ts] st]|] eqn:Eh; [|done]. pose proof Eh as Er. apply spec_head_row in Er.
  destruct (Hho _ _ _ _ Er) as (ko' & Ho & _ & _ & _ & Hst). pose proof Hko as Hko'. cbn in Hko'. unfold spec_object in Hko'. rewrite Ho in Hko'. cbn in Hko'. injection Hko' as ->.
  apply (Hz false eq_refl eq_refl x ver ts st ko); [| done | by rewrite <-Hst | unfold spec_head_object; by rewrite Eh].
  apply (listed_elem m); [done|]. by exists (IdHead x), (VHead (ver, ts, st)).
Qed.
(** What the uniqueness check establishes of the constraints the write touches. *)
Definition unique_ok (ko : KnowledgeObject) (ws : gset bytes) (uc : UniqueConstraint) : Prop :=
  blocking (uc_mode uc) = true -> unique_affected_by_write_set uc (Some ws) = true ->
  exists pairs, unique_pairs (ko_properties ko) (uc_properties uc) = KOk pairs /\
    no_clash (uc_scope uc) (tenant (ko_metadata ko)) (type_name (ko_metadata ko)) pairs (ko_koid ko).
Lemma unique_loop_quiet ko ws ucs : forall r, repo_ok r s -> heads_ok s -> scannable (rp_engine r) P_HEAD ->
  rquiet (unique_loop ko ws ucs) (fun _ => forall uc, uc ∈ ucs -> unique_ok ko ws uc) r.
Proof.
  induction ucs as [|uc ucs IH]; intros r Hr Hho Hp; [apply rquiet_ret; [done | set_solver]|]. cbn [unique_loop].
  assert (forall r', rp_engine r' = rp_engine r -> repo_ok r' s -> unique_ok ko ws uc -> rquiet (unique_loop ko ws ucs) (fun _ => forall uc', uc' ∈ uc :: ucs -> unique_ok ko ws uc') r') as Hnext.
  { intros r' Ee Hr' Hu. eapply rquiet_weaken; [apply IH; [done.. | by rewrite Ee]|]. intros ? Hall uc' [E1|Hin]%elem_of_cons; [by rewrite E1 | by apply Hall]. }
  destruct (enabled (uc_mode uc)) eqn:Ee; cbn [negb]; [|apply Hnext; [done..|]; intros Hb; unfold enabled in Ee; by destruct (uc_mode uc)].
  destruct (unique_affected_by_write_set uc (Some ws)) eqn:Ea; cbn [negb]; [|apply Hnext; [done..|]; intros _ Ha; congruence].
  eapply (rquiet_bind _ _ (fun pairs => unique_pairs (ko_properties ko) (uc_properties uc) = KOk pairs)); [by apply rquiet_lift; [|intros ? ->]|]. intros pairs r1 Hpairs Ee1 Hr1.
  eapply rquiet_bind; [apply conflict_quiet; [done.. | by rewrite Ee1]|]. intros b r2 Hb Ee2 Hr2.
  destruct (b && negb (bool_decide (uc_mode uc = EnforcementMode.Advisory))) eqn:Ec; [by apply rquiet_lift|]. apply Hnext; [congruence | done|].
  intros Hbl _. exists pairs. split; [done|]. apply Hb. destruct b; [|done]. cbn in Ec. apply negb_false_iff, bool_decide_eq_true in Ec. by rewrite Ec in Hbl.
Qed.
Lemma admit_unique_quiet cfg ko ws r : repo_ok r s -> heads_ok s -> scannable (rp_engine r) P_HEAD ->
  rquiet (admit_unique cfg ko ws) (fun _ => cf_unique cfg = false -> forall sc uc, cf_schemas cfg !! type_name (ko_metadata ko) = Some sc -> uc ∈ sc_unique_constraints sc -> unique_ok ko ws uc) r.
Proof.
  intros Hr Hho Hp. unfold admit_unique. destruct (cf_unique cfg); [by apply rquiet_ret|]. destruct (cf_schemas cfg !! _) as [sc|]; [|by apply rquiet_ret].
  eapply rquiet_weaken; [by apply unique_loop_quiet|]. intros ? Hall _ sc' uc [= <-]. apply Hall.
Qed.
End Reads.

(* ------------------------------------------------------------------ *)
(** * The write in the pipeline *)

Section Write.
Context {E : Type} `{HL : EngineLaws E} `{SHA : Sha256} `{Regex}.
Context (hmac_sha256 : bytes -> bytes -> bytes) (signer : option (bytes -> bytes)) (signing_key : option bytes).
Context (cfg : Config).
Abbreviation kernel_ok := (kernel_ok hmac_sha256 signing_key).
Abbreviation version_fits := (version_fits hmac_sha256 signer signing_key).
Abbreviation commit_request := (commit_request hmac_sha256 signer signing_key).
Abbreviation remember_locked := (remember_locked hmac_sha256 signer signing_key cfg).
Implicit Types k : Kernel E.

Section Quiet.
Context (s : SpecState) (evs : list KnowledgeEvent).
(** [m] changes at most the cache of the repository, and what it returns satisfies [Q]. *)
Definition kquiet {A} k (m : KM E A) (Q : A -> Prop) : Prop :=
  exists r' x, m k = (set_repo k r', x) /\ rp_engine r' = rp_engine (k_repo k) /\ kernel_ok (set_repo k r') s evs /\ forall a, x = KOk a -> Q a.
Lemma set_repo_same k : set_repo k (k_repo k) = k.
Proof. by destruct k. Qed.
Lemma kquiet_lift {A} k (x : KResult A) (Q : A -> Prop) : kernel_ok k s evs -> (forall a, x = KOk a -> Q a) -> kquiet k (klift x) Q.
Proof. intros Hok Hq. exists (k_repo k), x. rewrite set_repo_same. done. Qed.
Lemma kquiet_ret {A} k (a : A) (Q : A -> Prop) : kernel_ok k s evs -> Q a -> kquiet k (mret a) Q.
Proof. intros Hok Hq. apply (kquiet_lift k (KOk a)); [done|]. by intros ? [= <-]. Qed.
Lemma kquiet_get {A} k (f : Kernel E -> A) : kernel_ok k s evs -> kquiet k (kget f) (fun a => a = f k).
Proof. intros Hok. exists (k_repo k), (KOk (f k)). rewrite set_repo_same. split; [done|]. split; [done|]. split; [done|]. by intros ? [= <-]. Qed.
Lemma kquiet_repo {A} k (m : RM E A) (Q : A -> Prop) : kernel_ok k s evs -> rquiet s m Q (k_repo k) -> kquiet k (on_repo m) Q.
Proof. intros Hok (r' & x & Er & Ee & Hr & Hq). exists r', x. unfold on_repo. rewrite Er. split; [done|]. split; [done|]. split; [by apply kernel_ok_repo | done]. Qed.
Lemma kquiet_bind {A B} k (m : KM E A) (f : A -> KM E B) (P : A -> Prop) (Q : B -> Prop) :
  kquiet k m P -> (forall a r', P a -> rp_engine r' = rp_engine (k_repo k) -> kernel_ok (set_repo k r') s evs -> kquiet (set_repo k r') (f a) Q) -> kquiet k (m ≫= f) Q.
Proof.
  intros (r1 & x & E1 & Ee1 & Hr1 & Hp) Hf. unfold kquiet. rewrite km_bind, E1. destruct x as [a|e|]; [|by exists r1, (KErr e)|by exists r1, KPanic].
  destruct (Hf a r1 (Hp a eq_refl) Ee1 Hr1) as (r2 & y & -> & Ee2 & Hr2 & Hq). exists r2, y. split; [done|]. split; [by rewrite Ee2 | done].
Qed.
End Quiet.

(** What the checks establish of the version to commit. *)
Record admitted (s : SpecState) (auth : AuthManager) (koid : KOID) (req : RememberRequest) (head : option KnowledgeObject) (ko : KnowledgeObject) : Prop := {
  ad_head : head = spec_head_object s koid;
  ad_version : forall v, rq_expected_version req = Some v -> v = head_version head;
  ad_object : exists ext sec, request_extensions head req = KOk ext /\ request_security auth head koid req = KOk sec /\ ko = request_object head koid req ext sec;
  ad_schema : admit_schema cfg ko (request_write_set head req) = KOk tt;
  ad_unique : cf_unique cfg = false -> forall sc uc, cf_schemas cfg !! type_name (ko_metadata ko) = Some sc -> uc ∈ sc_unique_constraints sc ->
    unique_ok s ko (request_write_set head req) uc;
  ad_targets : rq_referential_policy req = ReferentialPolicy.Strict -> forall rel, rel ∈ rq_relationships req -> is_Some (spec_head_object s (target rel)) }.

Lemma admit_quiet k s evs auth koid req : kernel_ok k s evs -> koid_ok koid = true -> targets_ok (rq_relationships req) -> scannable (rp_engine (k_repo k)) P_HEAD ->
  kquiet s evs k (check_request cfg auth koid req) (fun x => admitted s auth koid req x.1 x.2).
Proof.
  intros Hok Hk Ht Hp. unfold check_request. eapply kquiet_bind; [apply kquiet_repo; [done|]; apply rquiet_head; [apply (ok_repo _ _ _ _ _ Hok) | done]|]. intros head r1 Eh Ee1 Hok1.
  eapply (kquiet_bind _ _ _ _ _ (fun _ => True)); [by apply kquiet_lift|]. intros _ r2 _ Ee2 Hok2. cbn zeta.
  eapply (kquiet_bind _ _ _ _ _ (fun _ => default (head_version head) (rq_expected_version req) = head_version head)).
  { apply kquiet_lift; [done|]. intros a. destruct (_ =? _) eqn:Ez; [|done]. by apply Z.eqb_eq in Ez. }
  intros _ r3 Hv Ee3 Hok3. eapply kquiet_bind; [apply kquiet_lift; [done|]; intros ext Hext; exact Hext|]. intros ext r4 Hext Ee4 Hok4.
  eapply kquiet_bind; [apply kquiet_lift; [done|]; intros sec Hsec; exact Hsec|]. intros sec r5 Hsec Ee5 Hok5.
  eapply (kquiet_bind _ _ _ _ _ (fun _ => rq_referential_policy req = ReferentialPolicy.Strict -> forall rel, rel ∈ rq_relationships req -> is_Some (spec_head_object s (target rel)))).
  { case_bool_decide as Es; [|by apply kquiet_ret]. apply kquiet_repo; [done|]. eapply rquiet_weaken; [apply strict_loop_quiet; [done|]; apply (ok_repo _ _ _ _ _ Hok5)|]. intros ? Hall _. exact Hall. }
  intros _ r6 Hst Ee6 Hok6. set (ko := request_object head koid req ext sec).
  eapply (kquiet_bind _ _ _ _ _ (fun _ => admit_schema cfg ko (request_write_set head req) = KOk tt)); [apply kquiet_lift; [done|]; by intros []|]. intros _ r7 Hsch Ee7 Hok7.
  assert (rp_engine r7 = rp_engine (k_repo k)) as Ee by (cbn [set_repo k_repo] in *; congruence).
  eapply kquiet_bind; [apply kquiet_repo; [done|]; apply admit_unique_quiet; [apply (ok_repo _ _ _ _ _ Hok7) | apply (ok_heads _ _ _ _ _ Hok7) | cbn [set_repo k_repo]; rewrite Ee; exact Hp]|].
  intros ? r8 Hu Ee8 Hok8. eapply (kquiet_bind _ _ _ _ _ (fun _ => True)).
  { case_bool_decide; [|by apply kquiet_ret]. apply kquiet_repo; [done|]. apply ontology_loop_quiet; [done|]. apply (ok_repo _ _ _ _ _ Hok8). }
  intros _ r9 _ Ee9 Hok9. eapply kquiet_bind; [by apply kquiet_get|].
  intros usage r10 _ Ee10 Hok10. eapply (kquiet_bind _ _ _ _ _ (fun _ => True)); [by apply kquiet_lift|]. intros _ r11 _ Ee11 Hok11. apply kquiet_ret; [done|].
  split; cbn [fst snd]; [done | | by exists ext, sec | done..]. intros v Ev. by rewrite Ev in Hv.
Qed.

Definition remember_fits k auth minted ms req : Prop :=
  let koid := default minted (rq_koid req) in
  koid_ok koid = true /\ targets_ok (rq_relationships req) /\ scannable (rp_engine (k_repo k)) P_HEAD /\ (forall key, scoped_key req = Some key -> utf8_valid key = true) /\
  is_auth_meta req = false /\
  forall head ext sec, (head_object koid (k_repo k)).2 = KOk head -> request_extensions head req = KOk ext -> request_security auth head koid req = KOk sec ->
    version_fits k ms (request_object head koid req ext sec) (request_kind head req) (rq_origin req) (su_name (kx_subject (rq_context req))) (rq_note req)
      (scoped_key req) (ko_relationships <$> head) (usage_row (k_usage k) head req).
(** The outcome of an earlier write under the same key. *)
Definition prior_of (s : SpecState) (req : RememberRequest) : option (KOID * Z * Z * option Z) := key ← scoped_key req; s !! IdIdem key ≫= as_idem.
Definition replays (prior : option (KOID * Z * Z * option Z)) (r : Remembered) : Prop := exists kind, prior = Some (rm_koid r, rm_version r, rm_commit_ts r, kind).

Lemma prior_wf k s evs req koid ver ts kind : kernel_ok k s evs -> prior_of s req = Some (koid, ver, ts, kind) -> koid_ok koid = true.
Proof.
  intros Hok. unfold prior_of. destruct (scoped_key req) as [key|]; [|done]. cbn. destruct (s !! IdIdem key) as [v|] eqn:Ev; [|done]. cbn. destruct v; try done. intros [= <- <- <- <-].
  destruct (ok_repo _ _ _ _ _ Hok) as (m & _ & Hr & _). apply (proj1 Hr) in Ev as [_ Hw]. row_fields Hw; done.
Qed.
Lemma replay_quiet k s evs prior : kernel_ok k s evs -> koid_ok prior.1.1.1 = true -> kquiet s evs k (replay_prior prior) (replays (Some prior)).
Proof.
  intros Hok Hk. destruct prior as [[[koid ver] ts] kind]. cbn [fst] in Hk. unfold replay_prior. destruct (match kind with Some _ => _ | None => _ end); [by apply kquiet_lift|].
  eapply kquiet_bind; [apply kquiet_repo; [done|]; apply rquiet_head; [apply (ok_repo _ _ _ _ _ Hok) | done]|]. intros head r1 _ _ Hok1.
  eapply kquiet_bind; [by apply kquiet_get|]. intros pipe r2 _ _ Hok2. eapply (kquiet_bind _ _ _ _ _ (fun _ => True)); [by apply kquiet_lift|]. intros seq r3 _ _ Hok3.
  apply kquiet_ret; [done|]. by exists kind.
Qed.

(** The write is refused or replayed with only the cache changed, or is the commit of an
    admitted version. *)
Lemma remember_run k s evs auth minted ms req : kernel_ok k s evs -> remember_fits k auth minted ms req ->
  let koid := default minted (rq_koid req) in
  exists r', kernel_ok (set_repo k r') s evs /\ rp_engine r' = rp_engine (k_repo k) /\
    ((exists x, remember_locked auth minted ms req k = (set_repo k r', x) /\ forall a, x = KOk a -> replays (prior_of s req) a.1 /\ a.2 = auth) \/
     exists head ko, prior_of s req = None /\ admitted s auth koid req head ko /\ remember_locked auth minted ms req k = commit_request auth ms (scoped_key req) req head ko (set_repo k r')).
Proof.
  intros Hok (Hk & Ht & Hp & Hu & _). cbn zeta. set (koid := default minted (rq_koid req)) in *. unfold Remember.remember_locked. fold koid.
  assert (kquiet s evs k (match scoped_key req with Some key => on_repo (on_engine (fun e => get_idem_tagged e key)) | None => mret None end) (fun o => o = prior_of s req))
    as (r1 & x & Ex & Ee1 & Hok1 & Hx).
  { unfold prior_of. destruct (scoped_key req) as [key|]; [|by apply kquiet_ret]. apply kquiet_repo; [done|]. destruct (ok_repo _ _ _ _ _ Hok) as (m & Hm & Hr & Hc).
    eexists _, _. split; [reflexivity|]. split; [done|]. split; [by exists m|]. rewrite (get_idem_spec _ m s) by auto. by intros ? [= <-]. }
  rewrite km_bind, Ex. destruct x as [prior|e|]; [|by (exists r1; split; [done|]; split; [done|]; left; eexists; split; [reflexivity|])..]. specialize (Hx _ eq_refl).
  destruct prior as [prior|].
  - destruct (replay_quiet (set_repo k r1) s evs prior Hok1) as (r2 & x & E2 & Ee2 & Hok2 & Hx2); [destruct prior as [[[? ?] ?] ?]; by apply (prior_wf k s evs req _ _ _ _ Hok (eq_sym Hx))|].
    exists r2. split; [done|]. split; [by rewrite Ee2|]. left. rewrite km_bind, E2. rewrite <-Hx.
    destruct x as [a|e|]; [|by (eexists; split; [reflexivity|])..]. eexists. split; [reflexivity|]. intros ? [= <-]. split; [by apply Hx2 | done].
  - destruct (admit_quiet (set_repo k r1) s evs auth koid req Hok1 Hk Ht) as (r2 & x & E2 & Ee2 & Hok2 & Hx2); [cbn [set_repo k_repo]; by rewrite Ee1|].
    exists r2. split; [done|]. split; [by rewrite Ee2|]. rewrite km_bind, E2. destruct x as [[head ko]|e|]; [|left; by (eexists; split; [reflexivity|])..].
    right. exists head, ko. split; [done|]. split; [by apply (Hx2 (head, ko))|]. reflexivity.
Qed.
End Write.

(* ================================================================== *)
(** The theorems about [remember]: what a write leaves of the object and of its provenance,
    and that the schemas' constraints hold of every object the writes leave behind. *)

(* ------------------------------------------------------------------ *)
(** * The extensions of an update *)

Lemma has_key_false {V} (m : list (bytes * V)) k : has_key m k = false <-> btree_get m k = None.
Proof. unfold has_key. rewrite bool_decide_eq_false. rewrite eq_None_not_Some. done. Qed.
Lemma carry_get head ext key k : btree_get (carry head ext key) k = match btree_get ext k with Some v => Some v | None => if bytes_eqb k key then btree_get head k else None end.
Proof.
  unfold carry. destruct (has_key ext key) eqn:Ek.
  - destruct (btree_get ext k) eqn:Eg; [done|]. destruct (bytes_eqb k key) eqn:E; [|done]. apply bytes_eqb_eq in E as ->. apply bool_decide_eq_true in Ek. by rewrite Eg in Ek; destruct Ek.
  - apply has_key_false in Ek. destruct (bytes_eqb k key) eqn:E.
    + apply bytes_eqb_eq in E as ->. rewrite Ek. destruct (btree_get head key) eqn:Eh; [by rewrite get_insert_eq | done].
    + apply bytes_eqb_neq in E. destruct (btree_get head key); [rewrite get_insert_ne by done|]; by destruct (btree_get ext k).
Qed.
Lemma carried_get head keys k : forall ext, k ∈ keys -> btree_get ext k = None -> btree_get (fold_left (carry head) keys ext) k = btree_get head k.
Proof.
  assert (forall keys ext v, btree_get ext k = Some v -> btree_get (fold_left (carry head) keys ext) k = Some v) as Hkeep.
  { clear keys. induction keys as [|key keys IH]; intros ext v Hv; [done|]. cbn [fold_left]. apply IH. by rewrite carry_get, Hv. }
  induction keys as [|key keys IH]; intros ext Hin Hn; [by apply elem_of_nil in Hin|]. cbn [fold_left]. destruct (bytes_eqb k key) eqn:E.
  - assert (btree_get (carry head ext key) k = btree_get head k) as Hc by (by rewrite carry_get, Hn, E). destruct (btree_get head k) as [v|] eqn:Eh; [by apply Hkeep|].
    clear IH Hin. revert Hc. generalize (carry head ext key) as e. clear -Eh. induction keys as [|key' keys IH]; intros e Hn; [done|]. cbn [fold_left]. apply IH. rewrite carry_get, Hn, Eh. by case_match.
  - apply IH; [apply elem_of_cons in Hin as [->|?]; [by rewrite (proj2 (bytes_eqb_eq key key) eq_refl) in E | done]|]. by rewrite carry_get, Hn, E.
Qed.
Lemma remove_other {V} (m : list (bytes * V)) k k' : k' <> k -> btree_get (btree_remove m k) k' = btree_get m k'.
Proof.
  intros Hne. induction m as [|[k0 v0] m IH]; [done|]. cbn [btree_remove]. destruct (bytes_eqb k k0) eqn:E.
  - apply bytes_eqb_eq in E as <-. cbn [btree_get]. by rewrite (proj2 (bytes_eqb_neq k' k) Hne).
  - cbn [btree_get]. by rewrite IH.
Qed.
Lemma strip_get ext key k : btree_get ext k <> Some VNull -> btree_get (strip_null ext key) k = btree_get ext k.
Proof.
  intros Hn. unfold strip_null. destruct (btree_get ext key) as [v|] eqn:Ek; [|done]. destruct v; try done. apply remove_other. intros ->. congruence.
Qed.

(** What an update may do to the extensions. *)
Record update_keeps (admin : bool) (head ext ext' : PropertyMap) : Prop := {
  uk_carried : forall key, key ∈ CARRIED -> has_key ext key = false -> btree_get head key <> Some VNull -> btree_get ext' key = btree_get head key;
  uk_evidence : forall h, btree_get head EXT_EVIDENCE = Some (VList h) ->
    exists l, btree_get ext' EXT_EVIDENCE = Some (VList l) /\ zlen h <= zlen l /\ list_eqb value_eqb (take (length h) l) h = true;
  uk_provenance : forall key, key ∈ IMMUTABLE -> has_key head key = true -> opt_value_eqb (btree_get ext' key) (btree_get head key) = true;
  uk_authority : admin = false -> forall h a, authority_rank head = Some h -> authority_rank ext' = Some a -> h <= a;
  uk_interval : forall f t, valid_from ext' = Some f -> valid_to ext' = Some t -> f <= t }.
Lemma merged_get head ext key : key ∈ CARRIED -> has_key ext key = false -> btree_get head key <> Some VNull -> btree_get (merged head ext) key = btree_get head key.
Proof.
  intros Hin Hk%has_key_false Hn. unfold merged. pose proof (carried_get head CARRIED key ext Hin Hk) as Hc. revert Hc. generalize (fold_left (carry head) CARRIED ext) as e. intros e Hc.
  rewrite <-Hc in Hn |- *. rewrite strip_get; [by apply strip_get|]. by rewrite strip_get.
Qed.
Lemma update_extensions_keeps admin head ext ext' : update_extensions admin head ext = KOk ext' -> update_keeps admin head ext ext'.
Proof.
  unfold update_extensions. cbn zeta. pose proof (merged_get head ext) as Hm. revert Hm. generalize (merged head ext) as e. intros e Hm.
  destruct (downgrades head e && negb admin) eqn:E1; [done|]. destruct (inverted e) eqn:E2; [done|].
  destruct (existsb _ _) eqn:E3; [done|]. destruct (evidence_kept head e) eqn:E4; [|done]. intros [= <-]. split.
  - exact Hm.
  - intros h Hh. unfold evidence_kept in E4. rewrite Hh in E4. destruct (btree_get e EXT_EVIDENCE) as [v|]; [|done]. destruct v as [| | | | | |l|]; try done. exists l. split; [done|]. bool_to_prop. destruct_and?. done.
  - intros key Hin Hk. assert (rewrites head e key = false) as Hr.
    { destruct (rewrites head e key) eqn:Er; [|done]. rewrite <-E3. symmetry. apply existsb_exists. exists key. split; [by apply list_elem_of_In | done]. }
    unfold rewrites in Hr. rewrite Hk in Hr. by destruct (opt_value_eqb _ _).
  - intros -> h a Hh Ha. unfold downgrades in E1. rewrite Hh, Ha, andb_true_r in E1. by apply Z.ltb_ge in E1.
  - intros f t Hf Ht. unfold inverted in E2. rewrite Hf, Ht in E2. by apply Z.ltb_ge in E2.
Qed.
Lemma keep_edges_elem req head rel : rel ∈ keep_edges req head <-> rel ∈ req \/ rel ∈ head /\ kept_edge rel = true.
Proof.
  unfold keep_edges. revert req. induction head as [|h head IH]; intros req; [cbn; rewrite elem_of_nil; naive_solver|]. cbn [fold_left]. rewrite IH, elem_of_cons.
  destruct (kept_edge h && negb (bool_decide (h ∈ req))) eqn:Ek.
  - apply andb_true_iff in Ek as [Ek _]. rewrite elem_of_app, list_elem_of_singleton. split; [|intros [? | [ [-> |?] ?] ]; auto]. intros [ [?| ->] | [? ?] ]; auto.
  - split; [intros [?|[? ?]]; auto|]. intros [? | [ [-> |?] Hk] ]; [auto | | auto]. rewrite Hk in Ek. apply negb_false_iff, bool_decide_eq_true in Ek. by left.
Qed.

Lemma carried_not_salience key : key ∈ CARRIED \/ key ∈ IMMUTABLE -> key <> EXT_SALIENCE.
Proof.
  intros Hin ->. assert (bool_decide (EXT_SALIENCE ∈ CARRIED) = false /\ bool_decide (EXT_SALIENCE ∈ IMMUTABLE) = false) as [H1%bool_decide_eq_false H2%bool_decide_eq_false] by (split; vm_compute; reflexivity).
  tauto.
Qed.
Lemma salience_keeps admin head ext ext' v : update_keeps admin head ext ext' -> update_keeps admin head ext (btree_insert ext' EXT_SALIENCE v).
Proof.
  intros [Hc He Hp Ha Hi]. assert (forall key, key ∈ CARRIED \/ key ∈ IMMUTABLE -> btree_get (btree_insert ext' EXT_SALIENCE v) key = btree_get ext' key) as Hg.
  { intros key Hk. apply get_insert_ne, carried_not_salience. tauto. }
  assert (btree_get (btree_insert ext' EXT_SALIENCE v) EXT_EVIDENCE = btree_get ext' EXT_EVIDENCE) as He' by (apply get_insert_ne; vm_compute; done).
  split.
  - intros key Hin. rewrite Hg by (by left). by apply Hc.
  - intros h Hh. rewrite He'. by apply He.
  - intros key Hin. rewrite Hg by (by right). by apply Hp.
  - intros Had h a Hh. unfold authority_rank. rewrite get_insert_ne by (vm_compute; done). by apply Ha.
  - intros f t. unfold valid_from, valid_to. rewrite (ext_instant_get ext' _ EXT_VALID_FROM), (ext_instant_get ext' _ EXT_VALID_TO) by (apply get_insert_ne; vm_compute; done). apply Hi.
Qed.

(** The defaults of a new object. *)
Definition create_defaults (origin : Origin.t) (ext : PropertyMap) : Prop :=
  btree_get ext EXT_EPISTEMIC_STATUS = Some (VText (epistemic_name (EpistemicStatus.for_origin origin))) /\
  btree_get ext AUTHORITY = Some (VText (Authority.as_str (Authority.for_origin origin))) /\ btree_get ext SCOPE = Some (VText (Scope.as_str (Scope.for_origin origin))).
Lemma default_get ext key v k : btree_get (ext_default ext key v) k = if bytes_eqb k key then Some (default (VText v) (btree_get ext k)) else btree_get ext k.
Proof.
  unfold ext_default. destruct (has_key ext key) eqn:Ek.
  - destruct (bytes_eqb k key) eqn:E; [|done]. apply bytes_eqb_eq in E as ->. apply bool_decide_eq_true in Ek as [w ->]. done.
  - apply has_key_false in Ek. rewrite btree_get_insert. destruct (bytes_eqb k key) eqn:E; [|done]. apply bytes_eqb_eq in E as ->. by rewrite Ek.
Qed.
Lemma create_gets_defaults ext origin v : (forall key, key ∈ KERNEL_MANAGED_EXTENSIONS -> has_key ext key = false) ->
  create_defaults origin (btree_insert (create_extensions ext origin) EXT_SALIENCE v).
Proof.
  intros Hn. assert (forall key, In key KERNEL_MANAGED_EXTENSIONS -> btree_get ext key = None) as Hg by (intros; by apply has_key_false, Hn, list_elem_of_In).
  unfold create_defaults, create_extensions. rewrite !get_insert_ne by (vm_compute; done). rewrite !default_get.
  assert (btree_get ext EXT_EPISTEMIC_STATUS = None) as -> by (apply Hg; cbn [KERNEL_MANAGED_EXTENSIONS In]; tauto).
  assert (btree_get ext AUTHORITY = None) as -> by (apply Hg; cbn [KERNEL_MANAGED_EXTENSIONS In]; tauto).
  assert (btree_get ext SCOPE = None) as -> by (apply Hg; cbn [KERNEL_MANAGED_EXTENSIONS In]; tauto).
  split; [|split]; reflexivity.
Qed.

(* ------------------------------------------------------------------ *)
(** * What a write leaves *)

(** The version a write leaves of an object, given the request and the head before it. *)
Record written (auth : AuthManager) (req : RememberRequest) (koid : KOID) (head : option KnowledgeObject) (ko : KnowledgeObject) : Prop := {
  wr_koid : ko_koid ko = koid;
  wr_version : ko_version ko = (head_version head + 1) mod U64;
  wr_expected : forall v, rq_expected_version req = Some v -> v = head_version head;
  wr_body : ko_metadata ko = rq_metadata req /\ ko_properties ko = rq_properties req /\ ko_semantic ko = rq_semantic req;
  wr_edges : forall rel, rel ∈ ko_relationships ko <-> rel ∈ rq_relationships req \/ exists h, head = Some h /\ rel ∈ ko_relationships h /\ kept_edge rel = true;
  wr_events : exists ref, ko_event_refs ko = match head with Some h => ko_event_refs h | None => [] end ++ [ref];
  wr_lifecycle : ko_lifecycle ko = match head with Some h => ko_lifecycle h | None => mkLifecycle LifecycleState.Draft (rq_origin req) end;
  wr_allowed : match head with
               | Some h => authorize auth (kx_subject (rq_context req)) h Action.Write = KOk tt
               | None => owner (ko_security ko) = su_name (kx_subject (rq_context req)) \/ is_admin (kx_subject (rq_context req)) = true
               end;
  wr_extensions : match head with
                  | Some h => update_keeps (is_admin (kx_subject (rq_context req))) (ko_extensions h) (rq_extensions req) (ko_extensions ko)
                  | None => create_defaults (rq_origin req) (ko_extensions ko)
                  end;
  wr_managed : forall h key, head = Some h -> key ∈ KERNEL_MANAGED_EXTENSIONS -> key ∈ CARRIED -> btree_get (ko_extensions h) key <> Some VNull ->
    btree_get (ko_extensions ko) key = btree_get (ko_extensions h) key }.

Lemma guard_absent (req : RememberRequest) : existsb (has_key (rq_extensions req)) KERNEL_MANAGED_EXTENSIONS = false ->
  forall key, key ∈ KERNEL_MANAGED_EXTENSIONS -> has_key (rq_extensions req) key = false.
Proof.
  intros Hg key Hin. destruct (has_key _ key) eqn:Ek; [|done]. rewrite <-Hg. symmetry. apply existsb_exists. exists key. split; [by apply list_elem_of_In | done].
Qed.

Section Exact.
Context {E : Type} `{HL : EngineLaws E} `{SHA : Sha256} `{Regex}.
Context (hmac_sha256 : bytes -> bytes -> bytes) (signer : option (bytes -> bytes)) (signing_key : option bytes).
Context (cfg : Config).
Abbreviation kernel_ok := (kernel_ok hmac_sha256 signing_key).
Abbreviation version_fits := (version_fits hmac_sha256 signer signing_key).
Abbreviation commit_request := (commit_request hmac_sha256 signer signing_key).
Abbreviation remember := (remember hmac_sha256 signer signing_key cfg).
Implicit Types k : Kernel E.

Lemma admitted_written s auth koid req head ko ts seq kind : existsb (has_key (rq_extensions req)) KERNEL_MANAGED_EXTENSIONS = false ->
  admitted cfg s auth koid req head ko -> written auth req koid head (stamp ko ts seq kind).
Proof.
  intros Hg0 [_ Hv (ext & sec & He & Hs & ->) _ _ _]. pose proof (guard_absent req Hg0) as Hg. unfold request_extensions in He.
  assert (match head with
          | Some h => update_keeps (is_admin (kx_subject (rq_context req))) (ko_extensions h) (rq_extensions req) (btree_insert ext EXT_SALIENCE (VFloat (authority_factor ext)))
          | None => create_defaults (rq_origin req) (btree_insert ext EXT_SALIENCE (VFloat (authority_factor ext))) end) as Hx.
  { destruct head as [h|]; [by apply salience_keeps, update_extensions_keeps|]. injection He as <-. by apply create_gets_defaults. }
  split; try done; cbn [stamp request_object ko_relationships ko_event_refs ko_security ko_extensions].
  - intros rel. destruct head as [h|]; [rewrite keep_edges_elem|]; naive_solver.
  - by eexists.
  - unfold request_security in Hs. destruct head as [h|].
    + destruct (authorize _ _ _ _) as [[]|?|]; done.
    + destruct (_ && _) eqn:Eo; [done|]. injection Hs as <-. apply andb_false_iff in Eo as [Eo|Eo]; apply negb_false_iff in Eo; [left; by apply bytes_eqb_eq | by right].
  - intros h key -> Hm Hc Hn. apply (uk_carried _ _ _ _ Hx); auto.
Qed.

(** The commit of an admitted version. *)
Lemma commit_request_ok k s evs auth ms scoped req head ko :
  kernel_ok k s evs -> ko_validate ko = KOk tt -> is_auth_meta req = false ->
  version_fits k ms ko (request_kind head req) (rq_origin req) (su_name (kx_subject (rq_context req))) (rq_note req) scoped (ko_relationships <$> head) (usage_row (k_usage k) head req) ->
  exists k' s' evs', commit_request auth ms scoped req head ko k = (k', KOk (mkRemembered (ko_koid ko) (ko_version ko) (hlc_now (k_hlc k) ms) (zlen evs + 1), auth)) /\
    kernel_ok k' s' evs' /\ (forall t, s' !! IdTxn t = s !! IdTxn t) /\ forall x, spec_head_object s' x = if bool_decide (x = ko_koid ko) then Some (stamped k ms ko (request_kind head req)) else spec_head_object s x.
Proof.
  intros Hok Hv Hm Hf. destruct (commit_version_ok hmac_sha256 signer signing_key k s evs ms ko _ _ _ _ _ _ _ Hok Hv Hf) as (k' & Ek & Hok' & _).
  unfold Remember.commit_request. rewrite km_bind. cbn [kget]. rewrite km_bind, Ek, km_bind. rewrite Hm.
  destruct head as [h|]; eexists _, _, _; (split; [reflexivity|]); (split; [|apply and_comm; split; [intros x; apply commit_head_object | intros t; apply (commit_txn_rows hmac_sha256 signer signing_key k)]]); [done | by apply kernel_ok_usage].
Qed.
Lemma commit_request_err k auth ms scoped req head ko e : ko_validate ko = KErr e -> commit_request auth ms scoped req head ko k = (k, KErr e).
Proof. intros Hv. unfold Remember.commit_request. rewrite km_bind. cbn [kget]. rewrite km_bind. unfold commit_version. rewrite km_bind. unfold klift. by rewrite Hv. Qed.
Lemma validate_no_panic ko : ko_validate ko <> KPanic.
Proof. unfold ko_validate. repeat case_match; done. Qed.

(** The state after a write: as before, or with the head of one object replaced. *)
Lemma remember_cases k s evs auth minted ms req : kernel_ok k s evs -> remember_fits hmac_sha256 signer signing_key k auth minted ms req ->
  let koid := default minted (rq_koid req) in
  (exists r' x, remember_locked hmac_sha256 signer signing_key cfg auth minted ms req k = (set_repo k r', x) /\ kernel_ok (set_repo k r') s evs /\
     forall a, x = KOk a -> replays (prior_of s req) a.1 /\ a.2 = auth) \/
  (prior_of s req = None /\ exists head ko k' s' evs' ts, admitted cfg s auth koid req head ko /\
     remember_locked hmac_sha256 signer signing_key cfg auth minted ms req k = (k', KOk (mkRemembered koid (ko_version ko) ts (zlen evs + 1), auth)) /\ kernel_ok k' s' evs' /\ (forall t, s' !! IdTxn t = s !! IdTxn t) /\
     forall x, spec_head_object s' x = if bool_decide (x = koid) then Some (stamp ko ts (zlen evs + 1) (request_kind head req)) else spec_head_object s x).
Proof.
  intros Hok Hf. destruct (remember_run hmac_sha256 signer signing_key cfg k s evs auth minted ms req Hok Hf) as (r' & Hok' & He & [(x & Ex & Hx)|(head & ko & Hp & Ha & Er)]);
    [left; by exists r', x|]. cbn zeta. set (koid := default minted (rq_koid req)) in *. destruct (ad_object _ _ _ _ _ _ _ Ha) as (ext & sec & Hext & Hsec & Hko).
  assert (ko_koid ko = koid) as Ekoid by (by rewrite Hko). destruct (ko_validate ko) as [[]|e|] eqn:Ev; [|left; exists r', (KErr e); rewrite Er; by rewrite (commit_request_err _ _ _ _ _ _ _ e) | by destruct (validate_no_panic ko)].
  destruct Hf as (Hk & _ & _ & _ & Hm & Hfit). right. split; [done|]. specialize (Hfit head ext sec). fold koid in Hfit. rewrite <-Hko in Hfit.
  destruct (commit_request_ok (set_repo k r') s evs auth ms (scoped_key req) req head ko Hok' Ev Hm) as (k' & s' & evs' & Ec & Hok'' & Htx & Hh).
  { apply version_fits_same; [done|]. apply Hfit; [|done..]. rewrite (ad_head _ _ _ _ _ _ _ Ha). by apply (head_object_is _ _ _ _ _ _ Hok). }
  exists head, ko, k', s', evs', (hlc_now (k_hlc k) ms). split; [done|]. rewrite Er, Ec, Ekoid. split; [done|]. split; [done|]. split; [done|]. intros x. rewrite Hh, Ekoid. unfold stamped.
  destruct (ok_seq _ _ _ _ _ Hok) as [Eq Hu]. rewrite (ad_head _ _ _ _ _ _ _ Ha) in Hfit. destruct Hfit as (_ & _ & Hq & _); [by apply (head_object_is _ _ _ _ _ _ Hok)|by rewrite <-(ad_head _ _ _ _ _ _ _ Ha)..|].
  cbn [set_repo k_pipe k_hlc]. pose proof (zlen_nonneg evs). replace ((p_seq (k_pipe k) + 1) mod U64) with (zlen evs + 1) by (rewrite Z.mod_small; lia). done.
Qed.

Definition reads_same k k' : Prop := k_pipe k' = k_pipe k /\ forall x, koid_ok x = true -> (head_object x (k_repo k')).2 = (head_object x (k_repo k)).2.
Lemma reads_same_cache k s evs r' : kernel_ok k s evs -> kernel_ok (set_repo k r') s evs -> reads_same k (set_repo k r').
Proof. intros Hok Hok'. split; [done|]. intros x Hx. by rewrite (head_object_is _ _ _ _ _ _ Hok' Hx), (head_object_is _ _ _ _ _ _ Hok Hx). Qed.

(** C6: a write is all or nothing, and never rewrites history.  A refused write (an extension
    the kernel manages, a missing object, another version, no permission, a lowered authority,
    a rewritten provenance field, a violated schema, constraint, uniqueness, ontology or quota)
    and a replayed one leave every head and the journal as they were, the replay returning
    the object, version and time recorded under its key.  An accepted one replaces the head of
    its object only, by the next version with the request's metadata, properties and semantics,
    at the time it reports: the edges of the request and the superseding, derivation and
    contradiction edges of the head, the head's lifecycle state and event references with one
    more; the evidence list extends the head's, the source fields are the head's, the valid
    interval is not inverted, only an administrator lowers the authority, and what the kernel
    manages is carried over unchanged.  A new object is a draft owned by its author (or
    anyone's, for an administrator) with the status, authority and scope of its origin. *)
Theorem remember_exact k s evs auth minted ms req :
  kernel_ok k s evs -> remember_fits hmac_sha256 signer signing_key k auth minted ms req ->
  let koid := default minted (rq_koid req) in
  match remember auth minted ms req k with
  | (k', KOk (r, auth')) => auth' = auth /\
      (replays (prior_of s req) r /\ reads_same k k' \/
       prior_of s req = None /\ exists head ko, (head_object koid (k_repo k)).2 = KOk head /\ (head_object koid (k_repo k')).2 = KOk (Some ko) /\
         written auth req koid head ko /\ r = mkRemembered koid (ko_version ko) (ko_commit_ts ko) (p_seq (k_pipe k) + 1) /\
         forall x, x <> koid -> koid_ok x = true -> (head_object x (k_repo k')).2 = (head_object x (k_repo k)).2)
  | (k', _) => reads_same k k'
  end.
Proof.
  intros Hok Hf. cbn zeta. pose proof Hf as (Hk & _). set (koid := default minted (rq_koid req)) in *. unfold Remember.remember.
  destruct (existsb (has_key (rq_extensions req)) KERNEL_MANAGED_EXTENSIONS) eqn:Eg; [done|].
  destruct (remember_cases k s evs auth minted ms req Hok Hf) as [(r' & x & -> & Hok' & Hx)|(Hp & head & ko & k' & s' & evs' & ts & Ha & -> & Hok' & _ & Hh)].
  - pose proof (reads_same_cache k s evs r' Hok Hok'). destruct x as [[r auth']|e|]; [|done..]. destruct (Hx _ eq_refl) as [Hr Ea]. cbn [fst snd] in Hr, Ea. rewrite Ea. split; [done|]. by left.
  - fold koid in Ha, Hh |- *. split; [done|]. right. split; [done|]. exists head, (stamp ko ts (zlen evs + 1) (request_kind head req)).
    rewrite (head_object_is _ _ _ _ _ _ Hok Hk), (head_object_is _ _ _ _ _ _ Hok' Hk), Hh, bool_decide_true by done. rewrite (ad_head _ _ _ _ _ _ _ Ha). split; [done|]. split; [done|].
    rewrite <-(ad_head _ _ _ _ _ _ _ Ha). split; [by apply (admitted_written s)|]. split; [destruct (ok_seq _ _ _ _ _ Hok) as [-> _]; done|].
    intros x Hne Hx. by rewrite (head_object_is _ _ _ _ _ _ Hok Hx), (head_object_is _ _ _ _ _ _ Hok' Hx), Hh, bool_decide_false.
Qed.
End Exact.
