(* ===== verification/Conformance.v ===== *)
(** Every object the writes leave behind conforms to the schema of its type, and no two live
    objects of a type share a unique key. *)

From Stdlib Require Import SpecFloat String.
From stdpp Require Import gmap.
From S2P Require Import Prelude Format Memtable Kom Codec CodecProps Store Repository RepositorySpec RepositoryReads RepositoryRebuild Commit CommitInv CommitOps CommitRun Epistemic CommitTxn CommitProps Auth AuthProps Expr Schema Constraint Ontology Remember RememberProps.

Lemma value_eqb_sym v : forall w, value_eqb v w = true -> value_eqb w v = true.
Proof.
  induction v as [|b|i|f|s|b|xs IH|m IH] using value_ind; intros w; destruct w; try done; cbn [value_eqb].
  - by rewrite Bool.eqb_true_iff; intros ->; rewrite Bool.eqb_reflx.
  - by rewrite Z.eqb_eq; intros ->; rewrite Z.eqb_refl.
  - rewrite !SFeqb_sim. intros [Hn Hs]. split; [|by symmetry]. intros E. rewrite E in Hs. destruct Hs as [?|(? & ? & _ & ?)]; done.
  - by rewrite !bytes_eqb_eq.
  - by rewrite !bytes_eqb_eq.
  - rewrite !list_eqb_Forall2. intros Hl. revert IH. induction Hl as [|x y xs ys Hx _ IHl]; [by constructor|]. intros [Hp Hps]%Forall_cons. constructor; auto.
  - rewrite !list_eqb_Forall2. intros Hl. revert IH. induction Hl as [|x y xs ys Hx _ IHl]; [by constructor|]. intros [Hp Hps]%Forall_cons. constructor; [|auto].
    apply andb_true_iff in Hx as [E1 Hx]. apply bytes_eqb_eq in E1 as ->. rewrite bytes_eqb_refl. cbn. auto.
Qed.

(* ------------------------------------------------------------------ *)
(** * Conforming states *)

Section Conforms.
Context `{Regex} (cfg : Config).

Definition shares (uc : UniqueConstraint) (p q : PropertyMap) : Prop :=
  uc_properties uc <> [] /\ forall n, n ∈ uc_properties uc -> exists v w, btree_get p n = Some v /\ btree_get q n = Some w /\ value_eqb v w = true.
Definition enforced_unique (ty : bytes) (uc : UniqueConstraint) : Prop :=
  exists sc, cf_schemas cfg !! ty = Some sc /\ uc ∈ sc_unique_constraints sc /\ blocking (uc_mode uc) = true /\ uc_scope uc <> UniquenessScope.Tenant.
Definition shape_ok (ko : KnowledgeObject) : Prop := forall sc, cf_schemas cfg !! type_name (ko_metadata ko) = Some sc ->
  validate_against ko sc (cf_not_null cfg) = KOk tt /\ check_properties (sc_properties sc) (ko_properties ko) (cf_not_null cfg) = KOk tt /\
  (cf_check cfg = false -> admissible sc (ko_properties ko)).
Record conforms (heads : KOID -> option KnowledgeObject) : Prop := {
  cn_shape : forall x ko, heads x = Some ko -> shape_ok ko;
  cn_unique : cf_unique cfg = false -> forall x y kx ky uc, x <> y -> heads x = Some kx -> heads y = Some ky -> live kx -> live ky ->
    type_name (ko_metadata kx) = type_name (ko_metadata ky) -> enforced_unique (type_name (ko_metadata kx)) uc -> ~ shares uc (ko_properties kx) (ko_properties ky) }.

Lemma shares_sym uc p q : shares uc p q -> shares uc q p.
Proof. intros [Hn Hs]. split; [done|]. intros n Hin. destruct (Hs n Hin) as (v & w & ? & ? & ?). exists w, v. split; [done|]. split; [done|]. by apply value_eqb_sym. Qed.
Lemma shares_sim uc p p' q : (forall n, n ∈ uc_properties uc -> opt_sim (btree_get p n) (btree_get p' n) = true) -> shares uc p' q -> shares uc p q.
Proof.
  intros Hs [Hn Hp]. split; [done|]. intros n Hin. destruct (Hp n Hin) as (v' & w & E1 & E2 & E3). specialize (Hs n Hin). rewrite E1 in Hs. destruct (btree_get p n) as [v|]; [|done].
  exists v, w. split; [done|]. split; [done|]. rewrite (value_eqb_cong v w v' w); [done | done | apply value_sim_refl].
Qed.

(** Heads that keep type and properties, and are not revived. *)
Definition preserves (heads heads' : KOID -> option KnowledgeObject) : Prop := forall x ko', heads' x = Some ko' ->
  exists ko, heads x = Some ko /\ ko_metadata ko' = ko_metadata ko /\ ko_properties ko' = ko_properties ko /\ (live ko' -> live ko).
Lemma shape_same ko ko' : ko_metadata ko' = ko_metadata ko -> ko_properties ko' = ko_properties ko -> shape_ok ko -> shape_ok ko'.
Proof. intros Em Ep Hs sc. unfold validate_against. rewrite Em, Ep. apply Hs. Qed.
Lemma conforms_preserved heads heads' : preserves heads heads' -> conforms heads -> conforms heads'.
Proof.
  intros Hp [Hs Hu]. split.
  - intros x ko' Hx. destruct (Hp x ko' Hx) as (ko & Hk & Em & Ep & _). apply (shape_same ko); [done..|]. by apply (Hs x).
  - intros Hc x y kx ky uc Hne Hx Hy Hlx Hly Ht. destruct (Hp x kx Hx) as (kx0 & Hx0 & Emx & Epx & Hlx0). destruct (Hp y ky Hy) as (ky0 & Hy0 & Emy & Epy & Hly0).
    rewrite Emx, Emy in Ht. rewrite Emx, Epx, Epy. intros He. apply (Hu Hc x y kx0 ky0 uc); auto.
Qed.

(** ** A write *)
Context (s : SpecState).
Lemma pairs_shared names p q pairs : unique_pairs p names = KOk pairs -> (forall n, n ∈ names -> exists v w, btree_get p n = Some v /\ btree_get q n = Some w /\ value_eqb v w = true) ->
  pairs_held pairs q = true.
Proof.
  revert pairs. induction names as [|n names IH]; intros pairs; cbn [unique_pairs]; [by intros [= <-]|]. intros Hp Hs. destruct (Hs n ltac:(by left)) as (v & w & E1 & E2 & E3). rewrite E1 in Hp.
  destruct (unique_pairs p names) as [rest|?|] eqn:Er; [|done..]. injection Hp as <-. unfold pairs_held in *. cbn [forallb fst snd]. rewrite E2.
  rewrite (value_eqb_sym _ _ E3). cbn [andb]. apply IH; [done|]. intros m Hm. apply Hs. by right.
Qed.
Lemma unique_affected uc ws n : n ∈ uc_properties uc -> n ∈ ws -> unique_affected_by_write_set uc (Some ws) = true.
Proof. intros Hn Hw. apply existsb_exists. exists n. split; [by apply list_elem_of_In | by apply bool_decide_eq_true]. Qed.

Lemma schema_accepts sc ko ws : admit_schema cfg ko ws = KOk tt -> cf_schemas cfg !! type_name (ko_metadata ko) = Some sc -> cf_check cfg = false -> has_enabled_constraints sc = true ->
  accepts (evaluate_full sc (ko_properties ko) (Some ws) (Some (ko_koid ko)) (ko_semantic ko ≫= sb_source)) = true.
Proof.
  unfold admit_schema. intros Ha Hs Hc He. destruct (registry_validate _ _ _) as [[]|?|]; [|done..]. cbn [mbind KResult_bind] in Ha. rewrite Hc, Hs, He in Ha.
  destruct (evaluate_full _ _ _ _ _) as [r|?|]; [|done..]. cbn [mbind KResult_bind accepts] in *. unfold into_kresult, cr_merge in Ha. cbn [cr_valid] in Ha.
  destruct (cr_valid r); done.
Qed.
Lemma admitted_shape auth koid req head ko : admitted cfg s auth koid req head ko -> (forall h, head = Some h -> shape_ok h /\ type_name (rq_metadata req) = type_name (ko_metadata h)) -> shape_ok ko.
Proof.
  intros Ha Hh sc Hs. destruct (ad_object _ _ _ _ _ _ _ Ha) as (ext & sec & _ & _ & Hko). pose proof (ad_schema _ _ _ _ _ _ _ Ha) as Had.
  assert (validate_against ko sc (cf_not_null cfg) = KOk tt /\ check_properties (sc_properties sc) (ko_properties ko) (cf_not_null cfg) = KOk tt) as [H1 H2].
  { unfold admit_schema, registry_validate in Had. destruct (ko_validate ko) as [[]|?|]; [|done..]. cbn [mbind KResult_bind] in Had. rewrite Hs in Had.
    destruct (validate_against _ _ _) as [[]|?|]; [|done..]. cbn [mbind KResult_bind] in Had. destruct (check_properties _ _ _) as [[]|?|]; done. }
  split; [done|]. split; [done|]. intros Hc. destruct (has_enabled_constraints sc) eqn:He; [|by apply disabled_admissible].
  pose proof (schema_accepts sc ko _ Had Hs Hc He) as Hacc. assert (ko_properties ko = rq_properties req) as Ep by (by rewrite Hko).
  assert (type_name (ko_metadata ko) = type_name (rq_metadata req)) as Et by (by rewrite Hko). rewrite Ep in Hacc |- *. destruct head as [h|]; cbn [request_write_set] in Hacc.
  - destruct (Hh h eq_refl) as [Hsh Eh]. eapply admitted_update; [exact Hacc|]. apply Hsh; [|done]. by rewrite <-Eh, <-Et.
  - by eapply admitted_create.
Qed.
Lemma admitted_unique auth koid req head ko y ky uc : conforms (spec_head_object s) -> cf_unique cfg = false -> admitted cfg s auth koid req head ko ->
  (forall h, head = Some h -> type_name (rq_metadata req) = type_name (ko_metadata h)) ->
  y <> koid -> spec_head_object s y = Some ky -> live ko -> live ky -> type_name (ko_metadata ko) = type_name (ko_metadata ky) -> enforced_unique (type_name (ko_metadata ko)) uc ->
  ~ shares uc (ko_properties ko) (ko_properties ky).
Proof.
  intros [_ Hu] Hc Ha Hty Hne Hy Hl Hly Et (sc & Hsc & Hin & Hb & Hscope) Hsh. pose proof (ad_unique _ _ _ _ _ _ _ Ha Hc sc uc Hsc Hin Hb) as Hok.
  destruct (ad_object _ _ _ _ _ _ _ Ha) as (ext & sec & _ & _ & Hko).
  assert (ko_properties ko = rq_properties req /\ ko_koid ko = koid /\ ko_metadata ko = rq_metadata req) as (Ep & Ek & Em) by (by rewrite Hko).
  destruct (unique_affected_by_write_set uc (Some (request_write_set head req))) eqn:Ea.
  - destruct (Hok eq_refl) as (pairs & Hp & Hnc). rewrite Ek in Hnc. specialize (Hnc y ky Hy Hne Hly). unfold clashes in Hnc. rewrite (pairs_shared _ _ _ _ Hp (proj2 Hsh)), andb_true_r in Hnc.
    unfold in_scope in Hnc. destruct (uc_scope uc); [|done..]. rewrite Et in Hnc. by rewrite bytes_eqb_refl in Hnc.
  - assert (forall n, n ∈ uc_properties uc -> n ∉ request_write_set head req) as Hnot by (intros n Hn Hw; by rewrite (unique_affected uc _ n Hn Hw) in Ea).
    destruct head as [h|]; cbn [request_write_set] in Hnot.
    + apply (Hu Hc koid y h ky uc); [done | by rewrite <-(ad_head _ _ _ _ _ _ _ Ha) | done | | done | | |].
      * unfold live in *. by rewrite Hko in Hl.
      * by rewrite <-(Hty h eq_refl), <-Em.
      * exists sc. by rewrite <-(Hty h eq_refl), <-Em.
      * apply (shares_sim uc _ (ko_properties ko)); [|done]. intros n Hn. rewrite Ep. apply write_set_covers. by apply Hnot.
    + destruct Hsh as [Hnn Hs]. destruct (uc_properties uc) as [|n ns]; [done|]. destruct (Hs n ltac:(by left)) as (v & w & Hv & _). apply (Hnot n ltac:(by left)). apply get_keys. rewrite <-Ep, Hv. eauto.
Qed.
Lemma conforms_write auth koid req head ko (heads' : KOID -> option KnowledgeObject) ts seq kind : conforms (spec_head_object s) -> admitted cfg s auth koid req head ko ->
  (forall h, head = Some h -> type_name (rq_metadata req) = type_name (ko_metadata h)) ->
  (forall x, heads' x = if bool_decide (x = koid) then Some (stamp ko ts seq kind) else spec_head_object s x) -> conforms heads'.
Proof.
  intros Hcf Ha Hty Hh. split.
  - intros x kx. rewrite Hh. case_bool_decide as Hx; [|by apply (cn_shape _ Hcf)]. intros [= <-]. apply (shape_same ko); [done..|]. eapply admitted_shape; [exact Ha|].
    intros h Eh. split; [|by apply Hty]. apply (cn_shape _ Hcf koid). by rewrite <-Eh, (ad_head _ _ _ _ _ _ _ Ha).
  - intros Hc x y kx ky uc Hne. rewrite !Hh. case_bool_decide as Hx; case_bool_decide as Hy.
    + subst. done.
    + intros [= <-] Eky Hlx Hly Et He. by apply (admitted_unique auth koid req head ko y ky uc).
    + intros Ekx [= <-] Hlx Hly Et He Hs. apply (admitted_unique auth koid req head ko x kx uc Hcf Hc Ha Hty Hx Ekx Hly Hlx); [done | by rewrite Et in He | by apply shares_sym].
    + by apply (cn_unique _ Hcf).
Qed.
End Conforms.

(* ------------------------------------------------------------------ *)
(** * Runs of the kernel *)

Inductive ObjectOp : Type :=
  | ORemember (auth : AuthManager) (minted : KOID) (ms : Z) (req : RememberRequest)
  | OForget (ms : Z) (koid : KOID) (mode : ForgetMode) (expected : option Z) (actor : bytes) (note : option bytes)
  | OEvolve (at_ms ms : Z) (koid : KOID) (to : LifecycleState.t) (origin : Origin.t) (expected : option Z) (actor : bytes) (note : option bytes)
  | OEpistemic (clock ms : Z) (koid : KOID) (to : EpistemicStatus.t) (origin : Origin.t) (superseded_by : option KOID) (expected : option Z) (actor : bytes)
      (reason : option bytes) (predecessor_valid_to : option Z).

Section Run.
Context {E : Type} `{HL : EngineLaws E} `{SHA : Sha256} `{Regex}.
Context (hmac_sha256 : bytes -> bytes -> bytes) (signer : option (bytes -> bytes)) (signing_key : option bytes).
Context (authorize : KnowledgeObject -> Action.t -> KResult unit) (cfg : Config).
Abbreviation kernel_ok := (kernel_ok hmac_sha256 signing_key).
Abbreviation commit_version := (commit_version hmac_sha256 signer signing_key).
Implicit Types k : Kernel E.

Definition object_op k (op : ObjectOp) : Kernel E :=
  match op with
  | ORemember auth minted ms req => (remember hmac_sha256 signer signing_key cfg auth minted ms req k).1
  | OForget ms koid mode expected actor note => (forget hmac_sha256 signer signing_key authorize ms koid mode expected actor note k).1
  | OEvolve at_ms ms koid to origin expected actor note => (evolve hmac_sha256 signer signing_key authorize at_ms ms koid to origin expected actor note k).1
  | OEpistemic clock ms koid to origin superseded_by expected actor reason pv =>
      (transition_epistemic hmac_sha256 signer signing_key authorize clock ms koid to origin superseded_by expected actor reason pv k).1
  end.
(** An update names the type the object has. *)
Definition keeps_type k minted (req : RememberRequest) : Prop :=
  forall h, (head_object (default minted (rq_koid req)) (k_repo k)).2 = KOk (Some h) -> type_name (rq_metadata req) = type_name (ko_metadata h).
Definition object_fits k (op : ObjectOp) : Prop :=
  match op with
  | ORemember auth minted ms req => remember_fits hmac_sha256 signer signing_key k auth minted ms req /\ keeps_type k minted req
  | OForget ms koid mode _ actor note => forget_fits hmac_sha256 signer signing_key k ms koid mode actor note
  | OEvolve at_ms ms koid to origin _ actor note => evolve_fits hmac_sha256 signer signing_key k at_ms ms koid to origin actor note
  | OEpistemic clock ms koid to origin superseded_by _ actor reason pv => epistemic_fits hmac_sha256 signer signing_key k clock ms koid to origin superseded_by actor reason pv
  end.
Fixpoint objects_fit k (ops : list ObjectOp) : Prop := match ops with [] => True | op :: ops => object_fits k op /\ objects_fit (object_op k op) ops end.
Definition run_objects k (ops : list ObjectOp) : Kernel E := fold_left object_op ops k.

(** ** Operations that keep type and properties *)
Definition keeps (s : SpecState) k' : Prop := exists s' evs', kernel_ok k' s' evs' /\ preserves (spec_head_object s) (spec_head_object s').
Lemma preserves_refl heads : preserves heads heads.
Proof. intros x ko Hx. by exists ko. Qed.
Lemma keeps_cache k s evs r' : kernel_ok (set_repo k r') s evs -> keeps s (set_repo k r').
Proof. intros Hok. exists s, evs. split; [done | apply preserves_refl]. Qed.
Lemma keeps_usage s k' u : keeps s k' -> keeps s (set_usage k' u).
Proof. intros (s' & evs' & Hok & Hp). exists s', evs'. split; [by apply kernel_ok_usage | done]. Qed.
Lemma bind_keeps {A B} s k (m : KM E A) (f : A -> KM E B) :
  keeps s (m k).1 -> (forall a k', exists b u, f a k' = (set_usage k' u, KOk b)) -> keeps s ((m ≫= f) k).1.
Proof. intros Hm Hf. rewrite km_bind. destruct (m k) as [k' [a|e|]]; [|exact Hm..]. destruct (Hf a k') as (b & u & ->). by apply keeps_usage. Qed.
Lemma commit_keeps k s evs ms ko kind origin actor note idem prev usage head :
  kernel_ok k s evs -> version_fits hmac_sha256 signer signing_key k ms ko kind origin actor note idem prev usage -> spec_head_object s (ko_koid ko) = Some head ->
  ko_metadata ko = ko_metadata head -> ko_properties ko = ko_properties head -> (live ko -> live head) -> keeps s (commit_version ms ko kind origin actor note idem prev usage k).1.
Proof.
  intros Hok Hf Hh Em Ep Hl. destruct (ko_validate ko) as [[]|e|] eqn:Ev.
  - destruct (commit_version_ok hmac_sha256 signer signing_key k s evs ms ko kind origin actor note idem prev usage Hok Ev Hf) as (k' & -> & Hok' & _). eexists _, _. split; [exact Hok'|].
    intros x ko'. rewrite commit_head_object. case_bool_decide as Hx; [|intros Hk; by exists ko']. intros [= <-]. exists head. by rewrite Hx.
  - unfold Commit.commit_version. rewrite km_bind. unfold klift. rewrite Ev. exists s, evs. split; [done | apply preserves_refl].
  - by destruct (validate_no_panic ko).
Qed.
Lemma authorized_keeps {A} k s evs koid action (f : KnowledgeObject -> KM E A) :
  kernel_ok k s evs -> koid_ok koid = true ->
  (forall r' head, kernel_ok (set_repo k r') s evs -> rp_engine r' = rp_engine (k_repo k) -> (head_object koid (k_repo k)).2 = KOk (Some head) -> spec_head_object s koid = Some head ->
    keeps s (f head (set_repo k r')).1) ->
  keeps s ((head ← authorized_head authorize koid action; f head) k).1.
Proof.
  intros Hok Hk Hf. destruct (authorized_head_ok hmac_sha256 signing_key authorize k s evs koid action Hok Hk) as (r' & Hok' & He & Hh & Ea). rewrite km_bind, Ea.
  destruct (spec_head_object s koid) as [h|]; [|by apply keeps_cache with (evs := evs)]. unfold mbind, KResult_bind. destruct (authorize h action) as [[]|?|]; [by apply Hf | by apply keeps_cache with (evs := evs)..].
Qed.
Lemma head_koid k s evs koid head : kernel_ok k s evs -> spec_head_object s koid = Some head -> ko_koid head = koid.
Proof. intros Hok Hh. by destruct (head_wf hmac_sha256 signing_key k s evs koid head Hok Hh). Qed.
Lemma deleted_final to : LifecycleState.can_transition LifecycleState.Deleted to = false.
Proof. by destruct to. Qed.
Lemma evolve_keeps k s evs at_ms ms koid to origin expected actor note :
  kernel_ok k s evs -> evolve_fits hmac_sha256 signer signing_key k at_ms ms koid to origin actor note ->
  keeps s (evolve hmac_sha256 signer signing_key authorize at_ms ms koid to origin expected actor note k).1.
Proof.
  intros Hok [Hk Hf]. unfold evolve. apply (authorized_keeps k s evs); [done..|]. intros r' head Hok' He Hh Hs. specialize (Hf head Hh). cbn zeta. rewrite km_bind. unfold klift at 1.
  destruct (LifecycleState.can_transition _ _) eqn:Ec; [|by apply keeps_cache with (evs := evs)]. rewrite km_bind. unfold klift at 1. destruct (_ =? _); [|by apply keeps_cache with (evs := evs)].
  apply bind_keeps; [|intros [ts q] k'; eexists _, (k_usage k'); by destruct k'].
  apply (commit_keeps _ s evs _ _ _ _ _ _ _ _ _ head Hok'); [by apply (version_fits_same _ _ _ k) | | done | done|].
  - cbn [ko_koid with_lifecycle]. by rewrite (head_koid k s evs koid head Hok Hs).
  - intros _ Hd. by rewrite Hd, deleted_final in Ec.
Qed.
Lemma epistemic_keeps k s evs clock ms koid to origin superseded_by expected actor reason pv :
  kernel_ok k s evs -> epistemic_fits hmac_sha256 signer signing_key k clock ms koid to origin superseded_by actor reason pv ->
  keeps s (transition_epistemic hmac_sha256 signer signing_key authorize clock ms koid to origin superseded_by expected actor reason pv k).1.
Proof.
  intros Hok Hf. destruct (transition_run hmac_sha256 signer signing_key authorize k s evs clock ms koid to origin superseded_by expected actor reason pv Hok Hf)
    as (r' & Hok' & He & [(x & -> & Hx)|(head & ko & Hs & _ & Hm & Hfit & ->)]); [by apply keeps_cache with (evs := evs)|].
  destruct (moved_body _ _ _ _ _ _ Hm) as (Em & Ep & El). apply bind_keeps; [|intros [ts q] k'; eexists _, (k_usage k'); by destruct k'].
  apply (commit_keeps _ s evs _ _ _ _ _ _ _ _ _ head Hok' Hfit); [|done..|unfold live; by rewrite El]. by rewrite (moved_koid _ _ _ _ _ _ Hm), (head_koid k s evs koid head Hok Hs).
Qed.
Lemma forget_keeps k s evs ms koid mode expected actor note :
  kernel_ok k s evs -> forget_fits hmac_sha256 signer signing_key k ms koid mode actor note ->
  keeps s (forget hmac_sha256 signer signing_key authorize ms koid mode expected actor note k).1.
Proof.
  intros Hok [Hk Hf]. unfold forget, current_head.
  assert (forall {A B C} (m : KM E A) (f : A -> KM E B) (g : B -> KM E C), ((x ← m; f x) ≫= g) k = (x ← m; (f x ≫= g)) k) as Hassoc.
  { intros A B C m f g. rewrite !km_bind. by destruct (m k) as [? [?|?|]]. }
  rewrite Hassoc. apply (authorized_keeps k s evs); [done..|]. intros r' head Hok' He Hh Hs. specialize (Hf head Hh). cbn zeta. rewrite km_bind.
  destruct (_ =? _); [|by apply keeps_cache with (evs := evs)]. cbn [mret KM_ret]. destruct mode.
  - rewrite km_bind. cbn [kget]. apply bind_keeps; [|intros [ts q] k'; eexists _, _; reflexivity].
    apply (commit_keeps _ s evs _ _ _ _ _ _ _ _ _ head Hok'); [by apply (version_fits_same _ _ _ k) | | done | done|].
    + cbn [ko_koid with_lifecycle]. by rewrite (head_koid k s evs koid head Hok Hs).
    + intros Hl. by destruct Hl.
  - destruct (erase_ok hmac_sha256 signer signing_key _ s evs ms koid head actor note Hok' Hk (erase_fits_same hmac_sha256 signer signing_key k r' ms koid head actor note He Hf)) as (k' & -> & Hok'' & _).
    destruct (ok_repo _ _ _ _ _ Hok) as (m & _ & Hr & _). eexists _, _. split; [exact Hok''|]. intros x ko'.
    change (spec_commit s _) with (erased_state hmac_sha256 signer signing_key (set_repo k r') s ms koid head actor note). rewrite (erase_head_object _ _ _ _ _ m) by done.
    case_bool_decide; [done|]. intros Hx. by exists ko'.
Qed.

Lemma remember_conforms k s evs auth minted ms req :
  kernel_ok k s evs -> conforms cfg (spec_head_object s) -> remember_fits hmac_sha256 signer signing_key k auth minted ms req -> keeps_type k minted req ->
  exists s' evs', kernel_ok (remember hmac_sha256 signer signing_key cfg auth minted ms req k).1 s' evs' /\ conforms cfg (spec_head_object s').
Proof.
  intros Hok Hc Hf Hty. unfold remember. destruct (existsb _ _); [by exists s, evs|].
  destruct (remember_cases hmac_sha256 signer signing_key cfg k s evs auth minted ms req Hok Hf) as [(r' & x & -> & Hok' & Hx)|(Hp & head & ko & k' & s' & evs' & ts & Ha & -> & Hok' & _ & Hh)];
    [by exists s, evs|]. exists s', evs'. split; [done|]. eapply conforms_write; [exact Hc | exact Ha | | exact Hh].
  intros h Eh. apply Hty. destruct Hf as (Hk & _). rewrite (head_object_is _ _ _ _ _ _ Hok Hk). by rewrite <-(ad_head _ _ _ _ _ _ _ Ha), Eh.
Qed.
Lemma object_op_conforms k s evs op : kernel_ok k s evs -> conforms cfg (spec_head_object s) -> object_fits k op ->
  exists s' evs', kernel_ok (object_op k op) s' evs' /\ conforms cfg (spec_head_object s').
Proof.
  intros Hok Hc Hf. assert (forall k', keeps s k' -> exists s' evs', kernel_ok k' s' evs' /\ conforms cfg (spec_head_object s')) as Hkeep.
  { intros k' (s' & evs' & Hok' & Hp). exists s', evs'. split; [done|]. by eapply conforms_preserved. }
  destruct op; cbn [object_fits] in Hf.
  - destruct Hf. by eapply remember_conforms.
  - by apply Hkeep, (forget_keeps k s evs).
  - by apply Hkeep, (evolve_keeps k s evs).
  - by apply Hkeep, (epistemic_keeps k s evs).
Qed.

End Run.
