(* ===== verification/RememberWitness.v ===== *)
(** [remember] run on a concrete kernel, and the places where the code departs from what it
    says. *)

From Stdlib Require Import String.
From stdpp Require Import gmap.
From S2P Require Import Prelude Format Memtable Kom Codec CodecProps Store Repository RepositorySpec RepositoryReads RepositoryRebuild Commit CommitInv CommitOps CommitRun Epistemic CommitTxn CommitProps CommitEdges CommitWitness Auth AuthProps Expr Schema Constraint Ontology Remember RememberProps Conformance.

#[local] Existing Instance toy_sha.
#[local] Instance no_regex : Regex := {| regex_captures _ := None |}.

(** A type whose number [n] is required, not negative, and unique. *)
Definition num : bytes := [x6e].
Definition counted (ty : bytes) : Schema :=
  mkSchema ty 1 [num] (Some {[num]}) [mkSchemaProperty num (txt "Int") true false false []]
    [mkUniqueConstraint [num] UniquenessScope.Type_ ConstraintTiming.Immediate EnforcementMode.Enforced ViolationSeverity.Error]
    [mkCheckConstraint [x63] (Compare CompareOp.Gte (Property num) (Literal (VInt 0))) ConstraintTiming.Immediate EnforcementMode.Enforced ViolationSeverity.Error] [] [].
Definition toy_config (quotas : gmap bytes Z) : Config :=
  mkConfig (register (register ∅ (counted [x54])) (counted [x55])) registry_empty quotas false false false.
Abbreviation cfg := (toy_config ∅).
Definition ann : Subject := mkSubject (txt "ann") [] None.
Definition ask (ctx : KnowledgeContext) (koid : option KOID) (ty : bytes) (t : option bytes) (n : Z) (ext : PropertyMap) (key : option bytes) : RememberRequest :=
  mkRememberRequest ctx koid (match koid with None => Some 0 | Some _ => None end) key (mkMetadata ty t 1 []) [(num, VInt n)] None [] None ext Origin.Human None ReferentialPolicy.Permissive.
Definition ctx : KnowledgeContext := mkKnowledgeContext ann None.
Abbreviation do_remember c := (remember toy_hmac toy_signer toy_key c auth_default).

Definition ops : list ObjectOp :=
  [ORemember auth_default ko_a 5 (ask ctx None [x54] None 1 [] (Some [x6b]));
   ORemember auth_default ko_b 6 (ask ctx None [x54] None 1 [] None);
   ORemember auth_default ko_b 7 (ask ctx None [x54] None 2 [] None);
   ORemember auth_default ko_c 8 (ask ctx (Some ko_a) [x54] None (-3) [] None);
   ORemember auth_default ko_c 8 (ask ctx (Some ko_a) [x54] None 3 [] None);
   ORemember auth_default ko_c 9 (ask ctx None [x54] None 4 [] (Some [x6b]));
   OEvolve 9 9 ko_a LifecycleState.Active Origin.Human None [x75] None;
   OEpistemic 9 9 ko_a EpistemicStatus.Verified Origin.Human None None [x75] None None;
   OForget 9 ko_b Tombstone None [x75] None;
   ORemember auth_default ko_c 9 (ask ctx None [x54] None 2 [] None)].
Abbreviation run_toy := (run_objects toy_hmac toy_signer toy_key allow_all cfg (kernel_new mem_new)).
Definition numbers (k : Kernel MemoryEngine) : list (option (Z * PropertyMap)) :=
  map (fun x => match head_object x (k_repo k) with (_, KOk (Some ko)) => Some (ko_version ko, ko_properties ko) | _ => None end) [ko_a; ko_b; ko_c].
Example ops_run : numbers (run_toy ops) = [Some (4, [(num, VInt 3)]); Some (2, [(num, VInt 2)]); Some (1, [(num, VInt 2)])].
Proof. vm_compute. reflexivity. Qed.
Ltac fits_remember :=
  split; [reflexivity|]; split; [intros ? ?%elem_of_nil; done|]; split; [exact I|]; split; [intros ? [= <-]; reflexivity || intros ? [=]|]; split; [vm_compute; reflexivity|];
  let Hh := fresh in let He := fresh in let Hs := fresh in
  intros ? ? ? Hh He Hs; vm_compute in Hh; injection Hh as <-; vm_compute in He; (discriminate || (injection He as <-; vm_compute in Hs; (discriminate || (injection Hs as <-; fits_op)))).
Ltac fits_object :=
  cbn [object_fits];
  lazymatch goal with
  | |- _ /\ keeps_type _ _ _ => split; [fits_remember | let Hh := fresh in intros ? Hh; vm_compute in Hh; (discriminate || (injection Hh as <-; reflexivity))]
  | |- _ => fits_op
  end.
Lemma ops_fit_toy : objects_fit toy_hmac toy_signer toy_key allow_all cfg (kernel_new mem_new) ops.
Proof. unfold ops. cbn [objects_fit]. repeat (split; [fits_object|]). exact I. Qed.

(** The first write and an update. *)
Definition kernel_1 : Kernel MemoryEngine := run_toy (take 1 ops).
Definition update_a : RememberRequest := ask ctx (Some ko_a) [x54] None 3 [] None.
Lemma kernel_1_ok : exists s evs, kernel_ok toy_hmac toy_key kernel_1 s evs.
Proof.
  destruct (object_op_conforms toy_hmac toy_signer toy_key allow_all cfg (kernel_new mem_new) ∅ [] (ORemember auth_default ko_a 5 (ask ctx None [x54] None 1 [] (Some [x6b])))
    (kernel_new_ok toy_hmac toy_key mem_new fresh_holds)) as (s & evs & Hok & _); [| fits_object | by exists s, evs].
  split; [intros x ko Hx | intros _ x y kx ky uc _ Hx]; unfold spec_head_object, spec_head in Hx; by rewrite lookup_empty in Hx.
Qed.
Lemma remember_exact_witness : exists k' r head ko, do_remember cfg ko_c 8 update_a kernel_1 = (k', KOk (r, auth_default)) /\
  (head_object ko_a (k_repo kernel_1)).2 = KOk (Some head) /\ (head_object ko_a (k_repo k')).2 = KOk (Some ko) /\ rm_version r = 2 /\
  btree_get (ko_extensions head) AUTHORITY = Some (VText (txt "human_approved")) /\ btree_get (ko_extensions ko) AUTHORITY = btree_get (ko_extensions head) AUTHORITY.
Proof.
  destruct kernel_1_ok as (s & evs & Hok).
  pose proof (remember_exact toy_hmac toy_signer toy_key cfg kernel_1 s evs auth_default ko_c 8 update_a Hok ltac:(fits_remember)) as W. cbv zeta in W.
  destruct (do_remember cfg ko_c 8 update_a kernel_1) as [k' [[r auth']|e|]] eqn:Er; [|vm_compute in Er; discriminate..].
  destruct W as [-> [[[kind Hr] _]|(_ & head & ko & W1 & W2 & W3 & W4 & _)]]; [done|]. change (default ko_c (rq_koid update_a)) with ko_a in *.
  destruct head as [head|]; [|vm_compute in W1; discriminate]. exists k', r, head, ko. split; [done|]. split; [exact W1|]. split; [exact W2|].
  split; [rewrite W4; cbn [rm_version]; rewrite (wr_version _ _ _ _ _ W3); vm_compute in W1; injection W1 as <-; reflexivity|].
  assert (btree_get (ko_extensions head) AUTHORITY = Some (VText (txt "human_approved"))) as Ha by (vm_compute in W1; injection W1 as <-; vm_compute; reflexivity).
  split; [exact Ha|]. apply (wr_managed _ _ _ _ _ W3 head AUTHORITY); [done | apply list_elem_of_In; cbn [KERNEL_MANAGED_EXTENSIONS In]; tauto | apply list_elem_of_In; cbn [CARRIED In]; tauto | by rewrite Ha].
Defined.

(* ------------------------------------------------------------------ *)
(** * Departures *)

(** An update that changes the type and no property is not held to the constraints of the new
    type: two live objects of a type share its unique key. *)
Definition retyped : list ObjectOp :=
  [ORemember auth_default ko_a 5 (ask ctx None [x54] None 1 [] None); ORemember auth_default ko_b 6 (ask ctx None [x55] None 1 [] None);
   ORemember auth_default ko_c 7 (ask ctx (Some ko_b) [x54] None 1 [] None)].
Definition typed_numbers (k : Kernel MemoryEngine) : list (option (bytes * PropertyMap)) :=
  map (fun x => match head_object x (k_repo k) with (_, KOk (Some ko)) => Some (type_name (ko_metadata ko), ko_properties ko) | _ => None end) [ko_a; ko_b].
Lemma retyping_skips_constraints : typed_numbers (run_toy retyped) = [Some ([x54], [(num, VInt 1)]); Some ([x54], [(num, VInt 1)])].
Proof. vm_compute. reflexivity. Qed.
(** A subject confined to a tenant creates an object in another. *)
Definition confined : KnowledgeContext := mkKnowledgeContext (mkSubject (txt "ann") [] (Some (txt "red"))) (Some (txt "red")).
Lemma create_leaves_tenant :
  match do_remember cfg ko_a 5 (ask confined None [x54] (Some (txt "blue")) 1 [] None) (kernel_new mem_new) with
  | (k', KOk _) => match head_object ko_a (k_repo k') with (_, KOk (Some ko)) => tenant (ko_metadata ko) = Some (txt "blue") | _ => False end
  | _ => False
  end.
Proof. vm_compute. reflexivity. Qed.
(** The quota is checked for the tenant of the context and counted for the one of the object:
    a tenant of quota one is filled twice. *)
Definition two_creates : list ObjectOp :=
  [ORemember auth_default ko_a 5 (ask ctx None [x54] (Some (txt "blue")) 1 [] None); ORemember auth_default ko_b 6 (ask ctx None [x54] (Some (txt "blue")) 2 [] None)].
Lemma quota_of_another_tenant :
  k_usage (run_objects toy_hmac toy_signer toy_key allow_all (toy_config {[txt "blue" := 1]}) (kernel_new mem_new) two_creates) !! txt "blue" = Some 2.
Proof. vm_compute. reflexivity. Qed.
(** [remember_retained] takes the extensions [remember] refuses. *)
Lemma retained_forges_status :
  let req := ask ctx None [x54] None 1 [(EXT_EPISTEMIC_STATUS, VText (txt "verified"))] None in
  (do_remember cfg ko_a 5 req (kernel_new mem_new)).2 = KErr (InvalidObject "extension is kernel-managed") /\
  match remember_retained toy_hmac toy_signer toy_key cfg auth_default ko_a 5 5 req 10 (kernel_new mem_new) with
  | (k', KOk _) => match head_object ko_a (k_repo k') with (_, KOk (Some ko)) => status_of ko = EpistemicStatus.Verified | _ => False end
  | _ => False
  end.
Proof. split; vm_compute; reflexivity. Qed.
