(* ===== verification/SchemaCodec.v ===== *)
(** crates/kernel/src/knowledge/codec.rs, the schema rows: the encoder, the decoder of the
    current layout and of the one before it, and the registration and loading of the kernel's
    schemas (transaction/kernel.rs). *)

From Stdlib Require Import String.
From stdpp Require Import gmap.
From S2P Require Import Prelude Format Memtable Kom Codec CodecProps Store Repository RepositorySpec RepositoryReads RepositoryRebuild Commit CommitWitness Auth Expr Schema.

(* ------------------------------------------------------------------ *)
(** * Encoder *)

Definition e_f64 (bits : Z) : bytes := e_u64 bits.
Definition d_f64 : KD Z := d_u64.
Definition enc_domain (d : DomainConstraint) : bytes :=
  match d with
  | Range min max => e_u8 0 ++ e_opt e_f64 min ++ e_opt e_f64 max
  | Pattern p => e_u8 1 ++ e_str p
  | Length min max => e_u8 2 ++ e_opt e_u64 min ++ e_opt e_u64 max
  | Enum vs => e_u8 3 ++ e_list enc_value vs
  | Format f => e_u8 4 ++ e_str f
  end.
Definition compare_tag (op : CompareOp.t) : Z :=
  match op with CompareOp.Eq => 0 | CompareOp.Neq => 1 | CompareOp.Lt => 2 | CompareOp.Lte => 3 | CompareOp.Gt => 4 | CompareOp.Gte => 5 end.
Definition arith_tag (op : ArithOp.t) : Z := match op with ArithOp.Add => 0 | ArithOp.Sub => 1 | ArithOp.Mul => 2 | ArithOp.Div => 3 end.
Fixpoint enc_expr (x : CheckExpression) : bytes :=
  match x with
  | Property p => e_u8 0 ++ e_str p
  | Literal v => e_u8 1 ++ enc_value v
  | Compare op l r => e_u8 2 ++ e_u8 (compare_tag op) ++ enc_expr l ++ enc_expr r
  | And l r => e_u8 3 ++ enc_expr l ++ enc_expr r
  | Or l r => e_u8 4 ++ enc_expr l ++ enc_expr r
  | Not x => e_u8 5 ++ enc_expr x
  | Arith l op r => e_u8 6 ++ e_u8 (arith_tag op) ++ enc_expr l ++ enc_expr r
  | If c t f => e_u8 7 ++ enc_expr c ++ enc_expr t ++ enc_expr f
  end.
Definition enc_scope (s : UniquenessScope.t) : bytes :=
  e_u8 match s with UniquenessScope.Type_ => 0 | UniquenessScope.Tenant => 1 | UniquenessScope.Global => 2 end.
Definition enc_timing (t : ConstraintTiming.t) : bytes := e_u8 match t with ConstraintTiming.Immediate => 0 | ConstraintTiming.Deferred => 1 end.
Definition enc_mode (m : EnforcementMode.t) : bytes :=
  e_u8 match m with EnforcementMode.Enforced => 0 | EnforcementMode.Validated => 1 | EnforcementMode.Advisory => 2 | EnforcementMode.Disabled => 3 end.
Definition enc_severity (s : ViolationSeverity.t) : bytes :=
  e_u8 match s with ViolationSeverity.Error => 0 | ViolationSeverity.Warning => 1 | ViolationSeverity.Info_ => 2 end.
Definition enc_opt_u32 (o : option Z) : bytes := e_opt e_u32 o.

(** The names of a set, sorted. *)
Definition insert_name (n : bytes) (m : list (bytes * unit)) : list (bytes * unit) := btree_insert m n tt.
Definition sorted_names (s : gset bytes) : list bytes := map fst (foldr insert_name [] (elements s)).
Definition enc_prop (p : SchemaProperty) : bytes :=
  e_str (sp_name p) ++ e_str (sp_value_type p) ++ e_bool (sp_required p) ++ e_bool (sp_nullable p) ++ e_bool (sp_provenance_required p) ++
  e_list enc_domain (sp_domain_constraints p).
Definition enc_unique (u : UniqueConstraint) : bytes := e_list e_str (uc_properties u) ++ enc_scope (uc_scope u) ++ enc_timing (uc_timing u).
Definition enc_check (c : CheckConstraint) : bytes := e_str (cc_name c) ++ enc_expr (cc_predicate c) ++ enc_timing (cc_timing c).
Definition enc_cardinality (c : CardinalityConstraint) : bytes :=
  e_str (kc_name c) ++ e_str (kc_relationship_type c) ++ enc_opt_u32 (kc_min_outbound c) ++ enc_opt_u32 (kc_max_outbound c) ++ enc_mode (kc_mode c) ++ enc_severity (kc_severity c).
Definition enc_temporal (t : TemporalConstraint) : bytes :=
  e_str (tc_name t) ++ e_str (tc_start_property t) ++ e_str (tc_end_property t) ++ enc_mode (tc_mode t) ++ enc_severity (tc_severity t).
Definition SCHEMA_MAGIC : bytes := [x53; x43; x48; x32].
(** The layout both versions share. *)
Definition enc_body (s : Schema) : bytes :=
  e_str (sc_type_name s) ++ e_u32 (sc_schema_version s) ++ e_list e_str (sc_required_properties s) ++
  e_opt (fun set => e_list e_str (sorted_names set)) (sc_allowed_properties s) ++ e_list enc_prop (sc_properties s) ++
  e_list enc_unique (sc_unique_constraints s) ++ e_list enc_check (sc_check_constraints s).
Definition unique_tail (u : UniqueConstraint) : bytes := enc_mode (uc_mode u) ++ enc_severity (uc_severity u).
Definition check_tail (c : CheckConstraint) : bytes := enc_mode (cc_mode c) ++ enc_severity (cc_severity c).
Definition encode_schema (s : Schema) : bytes :=
  SCHEMA_MAGIC ++ enc_body s ++ flat_map unique_tail (sc_unique_constraints s) ++ flat_map check_tail (sc_check_constraints s) ++
  e_list enc_cardinality (sc_cardinality_constraints s) ++ e_list enc_temporal (sc_temporal_constraints s).

(* ------------------------------------------------------------------ *)
(** * Decoder *)

Definition dec_domain : KD DomainConstraint :=
  t ← d_u8;
  match t with
  | 0 => min ← d_opt d_f64; max ← d_opt d_f64; mret (Range min max)
  | 1 => p ← d_str; mret (Pattern p)
  | 2 => min ← d_opt d_u64; max ← d_opt d_u64; mret (Length min max)
  | 3 => vs ← d_list dec_value; mret (Enum vs)
  | 4 => f ← d_str; mret (Format f)
  | _ => d_fail "invalid domain tag"
  end.
Definition compare_of_tag (t : Z) : option CompareOp.t :=
  match t with
  | 0 => Some CompareOp.Eq | 1 => Some CompareOp.Neq | 2 => Some CompareOp.Lt | 3 => Some CompareOp.Lte | 4 => Some CompareOp.Gt | 5 => Some CompareOp.Gte | _ => None
  end.
Definition arith_of_tag (t : Z) : option ArithOp.t :=
  match t with 0 => Some ArithOp.Add | 1 => Some ArithOp.Sub | 2 => Some ArithOp.Mul | 3 => Some ArithOp.Div | _ => None end.
(** [dec_expr]: the nesting is at most the bytes left. *)
Fixpoint d_expr (fuel : nat) : KD CheckExpression :=
  match fuel with
  | O => d_fail "out of fuel"
  | S fuel =>
      t ← d_u8;
      match t with
      | 0 => p ← d_str; mret (Property p)
      | 1 => v ← dec_value; mret (Literal v)
      | 2 => op ← dec_tag compare_of_tag; l ← d_expr fuel; r ← d_expr fuel; mret (Compare op l r)
      | 3 => l ← d_expr fuel; r ← d_expr fuel; mret (And l r)
      | 4 => l ← d_expr fuel; r ← d_expr fuel; mret (Or l r)
      | 5 => x ← d_expr fuel; mret (Not x)
      | 6 => op ← dec_tag arith_of_tag; l ← d_expr fuel; r ← d_expr fuel; mret (Arith l op r)
      | 7 => c ← d_expr fuel; a ← d_expr fuel; b ← d_expr fuel; mret (If c a b)
      | _ => d_fail "invalid expr tag"
      end
  end.
Definition dec_expr : KD CheckExpression := fun d => d_expr (1 + length (kd_rest d)) d.
Definition dec_scope : KD UniquenessScope.t :=
  dec_tag (fun t => match t with 0 => Some UniquenessScope.Type_ | 1 => Some UniquenessScope.Tenant | 2 => Some UniquenessScope.Global | _ => None end).
Definition dec_timing : KD ConstraintTiming.t :=
  dec_tag (fun t => match t with 0 => Some ConstraintTiming.Immediate | 1 => Some ConstraintTiming.Deferred | _ => None end).
Definition dec_mode : KD EnforcementMode.t :=
  dec_tag (fun t => match t with 0 => Some EnforcementMode.Enforced | 1 => Some EnforcementMode.Validated | 2 => Some EnforcementMode.Advisory | 3 => Some EnforcementMode.Disabled | _ => None end).
Definition dec_severity : KD ViolationSeverity.t :=
  dec_tag (fun t => match t with 0 => Some ViolationSeverity.Error | 1 => Some ViolationSeverity.Warning | 2 => Some ViolationSeverity.Info_ | _ => None end).
Definition dec_opt_u32 : KD (option Z) := d_opt d_u32.

Definition dec_prop : KD SchemaProperty :=
  name ← d_str; ty ← d_str; required ← d_bool; nullable ← d_bool; provenance ← d_bool; dcs ← d_list dec_domain;
  mret (mkSchemaProperty name ty required nullable provenance dcs).
(** A constraint of the older layout is enforced, as an error. *)
Definition dec_unique : KD UniqueConstraint :=
  props ← d_list d_str; scope ← dec_scope; timing ← dec_timing; mret (mkUniqueConstraint props scope timing EnforcementMode.Enforced ViolationSeverity.Error).
Definition dec_check : KD CheckConstraint :=
  name ← d_str; predicate ← dec_expr; timing ← dec_timing; mret (mkCheckConstraint name predicate timing EnforcementMode.Enforced ViolationSeverity.Error).
Definition dec_set : KD (gset bytes) := n ← d_u64; d_times n (fun set : gset bytes => s ← d_str; mret ({[s]} ∪ set)) ∅.
Definition decode_schema_v1_body : KD Schema :=
  ty ← d_str; version ← d_u32; required ← d_list d_str; allowed ← d_opt dec_set; props ← d_list dec_prop; uniques ← d_list dec_unique; checks ← d_list dec_check;
  mret (mkSchema ty version required allowed props uniques checks [] []).
Definition dec_cardinality : KD CardinalityConstraint :=
  name ← d_str; rel ← d_str; min ← dec_opt_u32; max ← dec_opt_u32; mode ← dec_mode; severity ← dec_severity; mret (mkCardinalityConstraint name rel min max mode severity).
Definition dec_temporal : KD TemporalConstraint :=
  name ← d_str; from ← d_str; to ← d_str; mode ← dec_mode; severity ← dec_severity; mret (mkTemporalConstraint name from to mode severity).

(** The mode and severity of each constraint that was read. *)
Fixpoint dec_tails {A} (set : EnforcementMode.t -> ViolationSeverity.t -> A -> A) (l : list A) : KD (list A) :=
  match l with
  | [] => mret []
  | a :: l => mode ← dec_mode; severity ← dec_severity; l ← dec_tails set l; mret (set mode severity a :: l)
  end.
Definition set_unique (m : EnforcementMode.t) (s : ViolationSeverity.t) (u : UniqueConstraint) : UniqueConstraint :=
  mkUniqueConstraint (uc_properties u) (uc_scope u) (uc_timing u) m s.
Definition set_check (m : EnforcementMode.t) (s : ViolationSeverity.t) (c : CheckConstraint) : CheckConstraint :=
  mkCheckConstraint (cc_name c) (cc_predicate c) (cc_timing c) m s.
Definition dec_v2 : KD Schema :=
  magic ← d_take 4;
  if negb (bytes_eqb magic SCHEMA_MAGIC) then d_fail "schema row is not v2"
  else
    s ← decode_schema_v1_body;
    uniques ← dec_tails set_unique (sc_unique_constraints s);
    checks ← dec_tails set_check (sc_check_constraints s);
    cards ← d_list dec_cardinality;
    temps ← d_list dec_temporal;
    mret (mkSchema (sc_type_name s) (sc_schema_version s) (sc_required_properties s) (sc_allowed_properties s) (sc_properties s) uniques checks cards temps).
Definition decode_schema_v2 (bs : bytes) : KResult Schema := run_kd (s ← dec_v2; _ ← d_finish; mret s) bs.
Definition decode_schema_v1 (bs : bytes) : KResult Schema := run_kd (s ← decode_schema_v1_body; _ ← d_finish; mret s) bs.
Definition decode_schema (bs : bytes) : KResult Schema := match decode_schema_v2 bs with KErr _ => decode_schema_v1 bs | r => r end.

(* ------------------------------------------------------------------ *)
(** * Reading schemas back *)

(** The type invariants of a schema: widths and valid strings. *)
Definition domain_wf (d : DomainConstraint) : bool :=
  match d with
  | Range min max | Length min max => opt_wf (fits_in U64) min && opt_wf (fits_in U64) max
  | Pattern s | Format s => utf8_valid s
  | Enum vs => forallb value_wf vs
  end.
Fixpoint expr_wf (x : CheckExpression) : bool :=
  match x with
  | Property p => utf8_valid p
  | Literal v => value_wf v
  | Compare _ l r | And l r | Or l r | Arith l _ r => expr_wf l && expr_wf r
  | Not x => expr_wf x
  | If c a b => expr_wf c && expr_wf a && expr_wf b
  end.
Definition prop_wf (p : SchemaProperty) : bool := utf8_valid (sp_name p) && utf8_valid (sp_value_type p) && forallb domain_wf (sp_domain_constraints p).
Definition unique_wf (u : UniqueConstraint) : bool := forallb utf8_valid (uc_properties u).
Definition check_wf (c : CheckConstraint) : bool := utf8_valid (cc_name c) && expr_wf (cc_predicate c).
Definition cardinality_wf (c : CardinalityConstraint) : bool :=
  utf8_valid (kc_name c) && utf8_valid (kc_relationship_type c) && opt_wf (fits_in U32) (kc_min_outbound c) && opt_wf (fits_in U32) (kc_max_outbound c).
Definition temporal_wf (t : TemporalConstraint) : bool := utf8_valid (tc_name t) && utf8_valid (tc_start_property t) && utf8_valid (tc_end_property t).
Definition body_wf (s : Schema) : bool :=
  utf8_valid (sc_type_name s) && fits_in U32 (sc_schema_version s) && forallb utf8_valid (sc_required_properties s) &&
  opt_wf (fun set => forallb utf8_valid (sorted_names set)) (sc_allowed_properties s) && forallb prop_wf (sc_properties s) &&
  forallb unique_wf (sc_unique_constraints s) && forallb check_wf (sc_check_constraints s).
Definition schema_wf (s : Schema) : bool := body_wf s && forallb cardinality_wf (sc_cardinality_constraints s) && forallb temporal_wf (sc_temporal_constraints s).

Lemma kreads_opt_u64 o : opt_wf (fits_in U64) o = true -> kreads (d_opt d_u64) (e_opt e_u64 o) o.
Proof. apply kreads_optb, kreads_u64b. Qed.
Lemma kreads_values vs : forallb value_wf vs = true -> kreads (d_list dec_value) (e_list enc_value vs) vs.
Proof. apply kreads_listb; [apply kreads_dec_value | apply enc_value_ne]. Qed.
Lemma kreads_domain d : domain_wf d = true -> kreads dec_domain (enc_domain d) d.
Proof.
  intros Hw. destruct d; cbn [domain_wf enc_domain] in *; bool_to_prop; (eapply kreads_bind; [by apply kreads_u8|]); cbn beta iota.
  - eapply kreads_bind; [by apply kreads_opt_u64|]. eapply kreads_map; [by apply kreads_opt_u64 | apply kreads_ret].
  - eapply kreads_map; [by apply kreads_str | apply kreads_ret].
  - eapply kreads_bind; [by apply kreads_opt_u64|]. eapply kreads_map; [by apply kreads_opt_u64 | apply kreads_ret].
  - eapply kreads_map; [by apply kreads_values | apply kreads_ret].
  - eapply kreads_map; [by apply kreads_str | apply kreads_ret].
Qed.
Lemma kreads_compare op : kreads (dec_tag compare_of_tag) (e_u8 (compare_tag op)) op.
Proof. apply kreads_tag; by destruct op. Qed.
Lemma kreads_arith op : kreads (dec_tag arith_of_tag) (e_u8 (arith_tag op)) op.
Proof. apply kreads_tag; by destruct op. Qed.
Lemma length_u8 z : length (e_u8 z) = 1%nat.
Proof. done. Qed.
Lemma enc_expr_ne x : enc_expr x <> [].
Proof. by destruct x. Qed.
Lemma kreads_expr x : forall fuel, expr_wf x = true -> (length (enc_expr x) <= fuel)%nat -> kreads (d_expr fuel) (enc_expr x) x.
Proof.
  induction x as [p|v|op l IHl r IHr|l IHl r IHr|l IHl r IHr|x IH|l IHl op r IHr|c IHc a IHa b IHb]; intros fuel Hw Hf;
    (destruct fuel as [|fuel]; [cbn [enc_expr] in Hf; rewrite length_app, length_u8 in Hf; lia|]); cbn [d_expr enc_expr expr_wf] in *; bool_to_prop; destruct_and?;
    rewrite !length_app, ?length_u8 in Hf; (eapply kreads_bind; [by apply kreads_u8|]); cbn beta iota.
  - eapply kreads_map; [by apply kreads_str | apply kreads_ret].
  - eapply kreads_map; [by apply kreads_dec_value | apply kreads_ret].
  - eapply kreads_bind; [apply kreads_compare|]. eapply kreads_bind; [apply IHl; [done | lia]|]. eapply kreads_map; [apply IHr; [done | lia] | apply kreads_ret].
  - eapply kreads_bind; [apply IHl; [done | lia]|]. eapply kreads_map; [apply IHr; [done | lia] | apply kreads_ret].
  - eapply kreads_bind; [apply IHl; [done | lia]|]. eapply kreads_map; [apply IHr; [done | lia] | apply kreads_ret].
  - eapply kreads_map; [apply IH; [done | lia] | apply kreads_ret].
  - eapply kreads_bind; [apply kreads_arith|]. eapply kreads_bind; [apply IHl; [done | lia]|]. eapply kreads_map; [apply IHr; [done | lia] | apply kreads_ret].
  - eapply kreads_bind; [apply IHc; [done | lia]|]. eapply kreads_bind; [apply IHa; [done | lia]|]. eapply kreads_map; [apply IHb; [done | lia] | apply kreads_ret].
Qed.
Lemma kreads_dec_expr x : expr_wf x = true -> kreads dec_expr (enc_expr x) x.
Proof. intros Hw pos rest H0 Hu. unfold dec_expr. cbn [kd_rest]. apply kreads_expr; [done | | done | done]. rewrite length_app. lia. Qed.
Lemma kreads_scope s : kreads dec_scope (enc_scope s) s.
Proof. apply kreads_tag; by destruct s. Qed.
Lemma kreads_timing t : kreads dec_timing (enc_timing t) t.
Proof. apply kreads_tag; by destruct t. Qed.
Lemma kreads_mode m : kreads dec_mode (enc_mode m) m.
Proof. apply kreads_tag; by destruct m. Qed.
Lemma kreads_severity s : kreads dec_severity (enc_severity s) s.
Proof. apply kreads_tag; by destruct s. Qed.
Lemma kreads_opt_u32 o : opt_wf (fits_in U32) o = true -> kreads dec_opt_u32 (enc_opt_u32 o) o.
Proof. apply kreads_optb, kreads_u32b. Qed.
#[export] Hint Resolve kreads_bool kreads_dec_expr kreads_scope kreads_timing kreads_mode kreads_severity kreads_opt_u32 : codec.
Lemma enc_domain_ne d : enc_domain d <> [].
Proof. by destruct d. Qed.
Lemma kreads_domains l : forallb domain_wf l = true -> kreads (d_list dec_domain) (e_list enc_domain l) l.
Proof. apply kreads_listb; [apply kreads_domain | apply enc_domain_ne]. Qed.
#[export] Hint Resolve kreads_domains : codec.
Lemma kreads_prop p : prop_wf p = true -> kreads dec_prop (enc_prop p) p.
Proof. destruct p. unfold prop_wf. cbn. intros Hw. bool_to_prop. unfold dec_prop, enc_prop. cbn. kread. Qed.
Lemma kreads_cardinality c : cardinality_wf c = true -> kreads dec_cardinality (enc_cardinality c) c.
Proof. destruct c. unfold cardinality_wf. cbn. intros Hw. bool_to_prop. unfold dec_cardinality, enc_cardinality. cbn. kread. Qed.
Lemma kreads_temporal t : temporal_wf t = true -> kreads dec_temporal (enc_temporal t) t.
Proof. destruct t. unfold temporal_wf. cbn. intros Hw. bool_to_prop. unfold dec_temporal, enc_temporal. cbn. kread. Qed.

(** What the layout both share keeps of the constraints. *)
Definition bare_unique : UniqueConstraint -> UniqueConstraint := set_unique EnforcementMode.Enforced ViolationSeverity.Error.
Definition bare_check : CheckConstraint -> CheckConstraint := set_check EnforcementMode.Enforced ViolationSeverity.Error.
Lemma kreads_unique u : unique_wf u = true -> kreads dec_unique (enc_unique u) (bare_unique u).
Proof. destruct u. unfold unique_wf. cbn. intros Hw. unfold dec_unique, enc_unique. cbn. kread. Qed.
Lemma kreads_check c : check_wf c = true -> kreads dec_check (enc_check c) (bare_check c).
Proof. destruct c. unfold check_wf. cbn. intros Hw. bool_to_prop. unfold dec_check, enc_check. cbn. kread. Qed.
Lemma kreads_list_map {A B} (dec : KD B) (enc : A -> bytes) (f : A -> B) wf l :
  (forall a, wf a = true -> kreads dec (enc a) (f a)) -> (forall a, enc a <> []) -> forallb wf l = true -> kreads (d_list dec) (e_list enc l) (map f l).
Proof.
  intros Hd Hn Hw. rewrite forallb_forall in Hw. apply kreads_counted; [intros; apply Hn|].
  assert (forall (l : list A) acc, fold_left (fun acc a => acc ++ [f a]) l acc = acc ++ map f l) as Hfold.
  { intros l'. induction l' as [|a l' IH]; intros acc; cbn; [by rewrite app_nil_r|]. by rewrite IH, <-app_assoc. }
  rewrite <-(app_nil_l (map f l)), <-(Hfold l []). apply kreads_times; [intros; apply Hn|]. intros l1 a l2 ->. rewrite !Hfold, map_app. cbn [app map].
  apply kreads_push, Hd, Hw, list_elem_of_In. set_solver.
Qed.
Lemma kreads_tails {A} (set : EnforcementMode.t -> ViolationSeverity.t -> A -> A) (bare : A -> A) (mode : A -> EnforcementMode.t) (sev : A -> ViolationSeverity.t) l :
  (forall a, set (mode a) (sev a) (bare a) = a) -> kreads (dec_tails set (map bare l)) (flat_map (fun a => enc_mode (mode a) ++ enc_severity (sev a)) l) l.
Proof.
  intros Hs. induction l as [|a l IH]; [apply kreads_ret|]. cbn [map dec_tails flat_map]. rewrite <-app_assoc. eapply kreads_bind; [apply kreads_mode|]. eapply kreads_bind; [apply kreads_severity|].
  eapply kreads_map; [exact IH|]. rewrite Hs. apply kreads_ret.
Qed.
Lemma sorted_names_elem s x : x ∈ sorted_names s <-> x ∈ s.
Proof.
  rewrite <-elem_of_elements. unfold sorted_names. generalize (elements s) as l. intros l.
  assert (keys_sorted (foldr insert_name [] l) /\ (btree_get (foldr insert_name [] l) x = Some tt <-> x ∈ l)) as [Hs Hx].
  { induction l as [|n l [Hs IH]]; [split; [constructor | by rewrite elem_of_nil]|]. cbn [foldr]. split; [by apply btree_insert_sorted|].
    unfold insert_name at 1. rewrite btree_get_insert, elem_of_cons, <-IH. destruct (bytes_eqb x n) eqn:E; [apply bytes_eqb_eq in E; naive_solver|]. apply bytes_eqb_neq in E. naive_solver. }
  rewrite <-Hx, list_elem_of_fmap. split; [intros ([k []] & -> & Hin); by apply btree_get_elem|]. intros Hg. exists (x, tt). split; [done | by apply btree_get_elem].
Qed.
Lemma kreads_set s : forallb utf8_valid (sorted_names s) = true -> kreads dec_set (e_list e_str (sorted_names s)) s.
Proof.
  intros Hw. rewrite forallb_forall in Hw. assert (forall n, e_str n <> []) as Hn by (intros n; rewrite <-(app_nil_r (e_str n)); apply e_str_ne).
  apply (kreads_counted (fun n => d_times n (fun set : gset bytes => s ← d_str; mret ({[s]} ∪ set)) ∅)); [intros; apply Hn|].
  assert (forall l (acc : gset bytes), fold_left (fun set n => {[n]} ∪ set) l acc = list_to_set l ∪ acc) as Hfold.
  { induction l as [|n l IH]; intros acc; cbn [fold_left]; [set_solver|]. rewrite IH. set_solver. }
  assert (fold_left (fun set n => {[n]} ∪ set) (sorted_names s) ∅ = s) as Hs.
  { rewrite Hfold. apply set_eq. intros x. rewrite elem_of_union, elem_of_list_to_set, sorted_names_elem, elem_of_empty. tauto. }
  rewrite <-Hs at 3. apply kreads_times; [intros; apply Hn|]. intros l1 n l2 El. rewrite fold_left_app. cbn [fold_left]. eapply kreads_map; [|apply kreads_ret].
  apply kreads_str, Hw. rewrite El. apply list_elem_of_In. set_solver.
Qed.
Lemma kreads_allowed o : opt_wf (fun set => forallb utf8_valid (sorted_names set)) o = true -> kreads (d_opt dec_set) (e_opt (fun set => e_list e_str (sorted_names set)) o) o.
Proof. apply (kreads_optb dec_set (fun set => e_list e_str (sorted_names set)) (fun set => forallb utf8_valid (sorted_names set))). apply kreads_set. Qed.
Lemma kreads_props l : forallb prop_wf l = true -> kreads (d_list dec_prop) (e_list enc_prop l) l.
Proof. apply kreads_listb; [apply kreads_prop|]. intros a. exact (e_str_ne (sp_name a) _). Qed.
Lemma kreads_uniques l : forallb unique_wf l = true -> kreads (d_list dec_unique) (e_list enc_unique l) (map bare_unique l).
Proof. apply kreads_list_map; [apply kreads_unique|]. intros a. unfold enc_unique, e_list. rewrite <-app_assoc. apply be_bytes_ne. Qed.
Lemma kreads_checks l : forallb check_wf l = true -> kreads (d_list dec_check) (e_list enc_check l) (map bare_check l).
Proof. apply kreads_list_map; [apply kreads_check|]. intros a. exact (e_str_ne (cc_name a) _). Qed.
Lemma kreads_cards l : forallb cardinality_wf l = true -> kreads (d_list dec_cardinality) (e_list enc_cardinality l) l.
Proof. apply kreads_listb; [apply kreads_cardinality|]. intros a. exact (e_str_ne (kc_name a) _). Qed.
Lemma kreads_temps l : forallb temporal_wf l = true -> kreads (d_list dec_temporal) (e_list enc_temporal l) l.
Proof. apply kreads_listb; [apply kreads_temporal|]. intros a. exact (e_str_ne (tc_name a) _). Qed.
#[export] Hint Resolve kreads_allowed kreads_props kreads_uniques kreads_checks kreads_cards kreads_temps : codec.

(** The schema an older row describes. *)
Definition bare (s : Schema) : Schema :=
  mkSchema (sc_type_name s) (sc_schema_version s) (sc_required_properties s) (sc_allowed_properties s) (sc_properties s)
    (map bare_unique (sc_unique_constraints s)) (map bare_check (sc_check_constraints s)) [] [].
Lemma kreads_body s : body_wf s = true -> kreads decode_schema_v1_body (enc_body s) (bare s).
Proof. unfold body_wf, bare. intros Hw. bool_to_prop. unfold decode_schema_v1_body, enc_body. kread. Qed.
Lemma kreads_v2 s : schema_wf s = true -> kreads dec_v2 (encode_schema s) s.
Proof.
  intros [[Hb Hc]%andb_true_iff Ht]%andb_true_iff. unfold dec_v2, encode_schema. eapply kreads_bind; [by apply kreads_take|]. rewrite bytes_eqb_refl. cbn [negb].
  eapply kreads_bind; [by apply kreads_body|].
  eapply kreads_bind; [apply (kreads_tails set_unique bare_unique uc_mode uc_severity); by intros []|].
  eapply kreads_bind; [apply (kreads_tails set_check bare_check cc_mode cc_severity); by intros []|].
  eapply kreads_bind; [by apply kreads_cards|]. eapply kreads_map; [by apply kreads_temps|]. destruct s. apply kreads_ret.
Qed.

(** A row with the marker is too long a name for the older layout. *)
Lemma magic_not_v1 row : zlen row < 2 ^ 62 -> decode_schema_v1 (SCHEMA_MAGIC ++ row) = KErr (Codec "truncated").
Proof.
  intros Hr. unfold decode_schema_v1, run_kd, mbind, KResult_bind, KD_bind, decode_schema_v1_body, mbind, KD_bind, d_str, mbind, KD_bind, d_bytes, mbind, KD_bind, d_u64, mbind, KD_bind, d_new.
  unfold d_take at 1. cbn [kd_pos kd_rest]. change (USIZE <=? 0 + 8) with false. cbn iota.
  destruct (zlen (SCHEMA_MAGIC ++ row) <? 8) eqn:E8; [done|]. apply Z.ltb_ge in E8. rewrite zlen_app in E8. change (zlen SCHEMA_MAGIC) with 4 in E8.
  destruct row as [|b1 [|b2 [|b3 [|b4 row]]]]; try (rewrite ?zlen_cons, zlen_nil in E8; lia). change (ztake 8 (SCHEMA_MAGIC ++ b1 :: b2 :: b3 :: b4 :: row)) with (SCHEMA_MAGIC ++ [b1; b2; b3; b4]).
  change (zdrop 8 (SCHEMA_MAGIC ++ b1 :: b2 :: b3 :: b4 :: row)) with row. set (n := be_val (SCHEMA_MAGIC ++ [b1; b2; b3; b4])). cbn [mret KD_ret kd_pos kd_rest].
  assert (n = 1396918322 * 2 ^ 32 + be_val [b1; b2; b3; b4]) as En by (unfold n, be_val; cbn [app SCHEMA_MAGIC rev le_val]; change (byte_val x53) with 83; change (byte_val x43) with 67; change (byte_val x48) with 72; change (byte_val x32) with 50; lia).
  pose proof (be_val_range [b1; b2; b3; b4]) as Hb. change (256 ^ zlen [b1; b2; b3; b4]) with (2 ^ 32) in Hb. rewrite !zlen_cons in Hr. pose proof (zlen_nonneg row).
  unfold d_take. cbn [kd_pos kd_rest]. rewrite (proj2 (Z.leb_gt _ _)) by (unfold USIZE; lia). by rewrite (proj2 (Z.ltb_lt _ _)) by lia.
Qed.
Lemma short_not_v2 s : zlen (sc_type_name s) < 2 ^ 32 -> decode_schema_v2 (enc_body s) = KErr (Codec "schema row is not v2").
Proof.
  intros Hz. unfold enc_body, e_str at 1, e_bytes, e_u64. rewrite <-!app_assoc. pose proof (zlen_nonneg (sc_type_name s)). set (z := zlen (sc_type_name s)) in *.
  assert (exists b1 b2 b3 t, be_bytes 8 z = x00 :: b1 :: b2 :: b3 :: t) as (b1 & b2 & b3 & t & ->).
  { unfold be_bytes. cbn [le_bytes rev app]. eexists _, _, _, _. f_equal. replace (z / 256 / 256 / 256 / 256 / 256 / 256 / 256) with 0; [done|]. rewrite !Z.div_div by lia. symmetry. apply Z.div_small. lia. }
  generalize (sc_type_name s ++ e_u32 (sc_schema_version s) ++ e_list e_str (sc_required_properties s) ++
    e_opt (fun set => e_list e_str (sorted_names set)) (sc_allowed_properties s) ++ e_list enc_prop (sc_properties s) ++ e_list enc_unique (sc_unique_constraints s) ++ e_list enc_check (sc_check_constraints s)) as rest.
  intros rest. unfold decode_schema_v2, run_kd, mbind, KResult_bind, KD_bind, dec_v2, mbind, KD_bind, d_new, d_take. cbn [kd_pos kd_rest app]. change (USIZE <=? 0 + 4) with false. cbn iota.
  rewrite !zlen_cons. pose proof (zlen_nonneg (t ++ rest)). rewrite (proj2 (Z.ltb_ge _ _)) by lia. reflexivity.
Qed.

(** C24: schema rows round-trip, and rows written before constraints had modes still read.  A
    well-formed schema decodes from its encoding to itself; from the older layout, to itself
    with every unique and check constraint enforced as an error and without cardinality and
    temporal constraints; and a row that carries the marker of the current layout is only ever
    read as one, so that a damaged row is refused instead of losing its modes. *)
Theorem schema_codec s :
  schema_wf s = true -> zlen (encode_schema s) < USIZE -> zlen (sc_type_name s) < 2 ^ 32 ->
  decode_schema (encode_schema s) = KOk s /\ decode_schema (enc_body s) = KOk (bare s) /\
  forall row s', zlen row < 2 ^ 62 -> decode_schema (SCHEMA_MAGIC ++ row) = KOk s' -> decode_schema_v2 (SCHEMA_MAGIC ++ row) = KOk s'.
Proof.
  intros Hw Hu Hz. unfold decode_schema. split; [|split].
  - unfold decode_schema_v2. by rewrite (run_finish _ _ s) by (done || by apply kreads_v2).
  - rewrite short_not_v2 by done. apply run_finish; [apply kreads_body; unfold schema_wf in Hw; by apply andb_true_iff in Hw as [[? _]%andb_true_iff _]|].
    unfold encode_schema in Hu. rewrite !zlen_app in Hu. pose proof (zlen_nonneg SCHEMA_MAGIC).
    assert (forall x : bytes, 0 <= zlen x) as Hn by apply zlen_nonneg.
    pose proof (Hn (flat_map unique_tail (sc_unique_constraints s))). pose proof (Hn (flat_map check_tail (sc_check_constraints s))).
    pose proof (Hn (e_list enc_cardinality (sc_cardinality_constraints s))). pose proof (Hn (e_list enc_temporal (sc_temporal_constraints s))). lia.
  - intros row s' Hr. destruct (decode_schema_v2 (SCHEMA_MAGIC ++ row)) as [x|e|]; [done | by rewrite magic_not_v1 | done].
Qed.

(* ================================================================== *)
(** transaction/kernel.rs: [register_schema] and [load_schemas], the schemas a kernel keeps as
    rows, and that a reopened kernel has the schemas that were registered. *)

Section Ops.
Context {E : Type} `{StorageEngine E}.
Definition register_schema (reg : SchemaRegistry) (s : Schema) : RM E SchemaRegistry := fun r =>
  match repo_write_batch r (put_schema_row wb_new (sc_type_name s) (encode_schema s)) with
  | (r, KOk _) => (r, KOk (register reg s))
  | (r, KErr e) => (r, KErr e)
  | (r, KPanic) => (r, KPanic)
  end.
Definition load_row (reg : SchemaRegistry) (row : bytes * bytes) : KResult SchemaRegistry :=
  match decode_schema row.2 with KOk s => KOk (register reg s) | KErr _ => KErr (Kom.Store "persisted schema corrupt") | KPanic => KPanic end.
Definition load_schemas (e : E) : KResult SchemaRegistry := rows ← schema_rows e; kfold load_row ∅ rows.
End Ops.

(* ------------------------------------------------------------------ *)
(** * Registered schemas and their rows *)

(** A registration, or a commit of other rows. *)
Inductive SchemaStep : Type :=
  | Registers (s : Schema)
  | Commits (eds : list Edit).
Definition other_rows (eds : list Edit) : bool := forallb (fun ed => match ed with PutSchema _ _ => false | _ => true end) eds.
Definition storable (s : Schema) : bool :=
  schema_wf s && (zlen (encode_schema s) <? USIZE) && (zlen (sc_type_name s) <? 2 ^ 32) && negb (bool_decide (sc_type_name s = [])).

Section Survive.
Context {E : Type} `{HL : EngineLaws E}.
Definition schema_step (x : Repo E * SchemaRegistry) (st : SchemaStep) : Repo E * SchemaRegistry :=
  match st with
  | Registers s => match register_schema x.2 s x.1 with (r, KOk reg) => (r, reg) | (r, _) => (r, x.2) end
  | Commits eds => ((commit_edits x.1 eds).1, x.2)
  end.
Definition step_fits (x : Repo E * SchemaRegistry) (st : SchemaStep) : Prop :=
  match st with
  | Registers s => storable s = true /\ commit_fits x.1 [PutSchema (sc_type_name s) (encode_schema s)]
  | Commits eds => other_rows eds = true /\ commit_fits x.1 eds
  end.
Fixpoint steps_fit (x : Repo E * SchemaRegistry) (sts : list SchemaStep) : Prop :=
  match sts with [] => True | st :: sts => step_fits x st /\ steps_fit (schema_step x st) sts end.

(** The rows are the encodings of the registered schemas. *)
Definition rows_hold (s : SpecState) (reg : SchemaRegistry) : Prop := forall ty, s !! IdSchema ty = (fun sc => VRaw (encode_schema sc)) <$> reg !! ty.
Definition reg_ok (reg : SchemaRegistry) : Prop := forall ty sc, reg !! ty = Some sc -> storable sc = true /\ sc_type_name sc = ty.

Lemma other_rows_id eds ty : other_rows eds = true -> IdSchema ty ∉ map fst (flat_map edit_puts eds).
Proof.
  induction eds as [|ed eds IH]; [intros _ ?%elem_of_nil; done|]. unfold other_rows in *. cbn [forallb flat_map]. rewrite map_app, elem_of_app. intros [H1 H2]%andb_true_iff [Hin|Hin]; [|by apply IH]. revert Hin H1. clear.
  destruct ed; cbn [edit_puts]; try case_match; cbn [map fst]; intros Hin H1; try discriminate H1; repeat (apply elem_of_cons in Hin as [Hin|Hin]; [discriminate Hin|]); by apply elem_of_nil in Hin.
Qed.
Lemma schema_never_deleted eds ty : IdSchema ty ∉ flat_map edit_dels eds.
Proof.
  induction eds as [|ed eds IH]; [apply not_elem_of_nil|]. cbn. rewrite elem_of_app. intros [Hin|Hin]; [|done]. revert Hin. clear.
  destruct ed; cbn [edit_dels]; intros Hin; repeat (apply elem_of_cons in Hin as [Hin|Hin]; [discriminate Hin|]); by apply elem_of_nil in Hin.
Qed.
Lemma step_holds r s reg st : repo_ok r s -> rows_hold s reg -> reg_ok reg -> step_fits (r, reg) st ->
  exists s', repo_ok (schema_step (r, reg) st).1 s' /\ rows_hold s' (schema_step (r, reg) st).2 /\ reg_ok (schema_step (r, reg) st).2.
Proof.
  intros Hr Hrows Hok Hf. destruct st as [sc|eds]; cbn [step_fits schema_step fst snd] in *.
  - destruct Hf as [Hw Hf]. destruct (commit_spec s r _ Hr Hf) as (r' & Ec & Hr'). unfold register_schema. unfold commit_edits in Ec.
    change (build_batch r [PutSchema (sc_type_name sc) (encode_schema sc)]) with (r, put_schema_row wb_new (sc_type_name sc) (encode_schema sc)) in Ec. cbn iota in Ec. rewrite Ec.
    exists (spec_commit s [PutSchema (sc_type_name sc) (encode_schema sc)]). split; [done|]. split.
    + intros ty. change (spec_commit s [PutSchema (sc_type_name sc) (encode_schema sc)]) with (<[IdSchema (sc_type_name sc) := VRaw (encode_schema sc)]> s). cbn [fst snd]. unfold register.
      destruct (decide (ty = sc_type_name sc)) as [->|Hne]; [by rewrite !lookup_insert_eq|]. rewrite !lookup_insert_ne by congruence. apply Hrows.
    + intros ty x. unfold register. cbn [snd]. intros [[<- <-]|[_ Hx]]%lookup_insert_Some; [done | by apply Hok].
  - destruct Hf as [Ho Hf]. destruct (commit_spec s r eds Hr Hf) as (r' & -> & Hr'). exists (spec_commit s eds). split; [done|]. split; [|done]. intros ty.
    unfold spec_commit. rewrite spec_dels_other by (apply schema_never_deleted). rewrite spec_puts_other by (by apply other_rows_id). apply Hrows.
Qed.

(** ** Loading *)
Lemma load_rows (reg : SchemaRegistry) rows : forall acc,
  (forall row, row ∈ rows -> exists sc, decode_schema row.2 = KOk sc /\ sc_type_name sc = row.1 /\ reg !! row.1 = Some sc) ->
  exists reg', kfold load_row acc rows = KOk reg' /\ forall ty, reg' !! ty = if bool_decide (ty ∈ map fst rows) then reg !! ty else acc !! ty.
Proof.
  induction rows as [|row rows IH]; intros acc Hrows; [exists acc; split; [done|]; intros ty; by rewrite bool_decide_false by (by apply not_elem_of_nil)|].
  destruct (Hrows row ltac:(by left)) as (sc & Ed & Et & Er). destruct (IH (register acc sc)) as (reg' & Ek & Hk); [intros x Hx; apply Hrows; by right|].
  assert (load_row acc row = KOk (register acc sc)) as El by (unfold load_row; by rewrite Ed). exists reg'. split; [cbn [kfold]; rewrite El; exact Ek|]. intros ty. rewrite Hk. cbn [map]. unfold register. rewrite Et.
  destruct (decide (ty = row.1)) as [->|Hne].
  - rewrite lookup_insert_eq, Er. rewrite (bool_decide_true (row.1 ∈ row.1 :: _)) by (by left). by case_bool_decide.
  - rewrite lookup_insert_ne by done. rewrite (bool_decide_ext (ty ∈ row.1 :: map fst rows) (ty ∈ map fst rows)); [done|]. rewrite elem_of_cons. tauto.
Qed.
Lemma load_exact r s reg : repo_ok r s -> rows_hold s reg -> reg_ok reg -> scannable (rp_engine r) K_SCHEMA_PREFIX -> load_schemas (rp_engine r) = KOk reg.
Proof.
  intros (m & Hm & Hr & _) Hrows Hok Hp. unfold load_schemas. rewrite (schema_rows_spec _ m s) by done. cbn [mbind KResult_bind].
  assert (forall row, row ∈ listed sel_schema s <-> exists sc, reg !! row.1 = Some sc /\ row.2 = encode_schema sc) as Hl.
  { intros [ty v]. rewrite (listed_elem m) by done. cbn [fst snd]. split.
    - intros (id & x & Hs & Hsel). destruct id; try done. destruct x; try done. cbn [sel_schema] in Hsel. case_bool_decide; [done|]. injection Hsel as -> ->.
      rewrite Hrows in Hs. destruct (reg !! ty) as [sc|]; [|done]. injection Hs as <-. by exists sc.
    - intros (sc & Hs & ->). exists (IdSchema ty), (VRaw (encode_schema sc)). rewrite Hrows, Hs. split; [done|]. cbn [sel_schema]. destruct (Hok _ _ Hs) as [Hst Et].
      unfold storable in Hst. rewrite Et in Hst. apply andb_true_iff in Hst as [_ Hn]. apply negb_true_iff in Hn. by case_bool_decide. }
  destruct (load_rows reg (listed sel_schema s) ∅) as (reg' & Ek & Hk).
  { intros row (sc & Hs & Ev)%Hl. exists sc. destruct (Hok _ _ Hs) as [Hst Et]. rewrite Ev. split; [|done]. unfold storable in Hst. bool_to_prop. destruct_and?.
    unfold decode_schema, decode_schema_v2. by rewrite (run_finish _ _ sc) by (done || by apply kreads_v2). }
  rewrite Ek. f_equal. apply map_eq. intros ty. rewrite Hk. case_bool_decide as Hin; [done|]. rewrite lookup_empty. symmetry. destruct (reg !! ty) as [sc|] eqn:Es; [|done].
  exfalso. apply Hin, list_elem_of_fmap. exists (ty, encode_schema sc). split; [done|]. apply Hl. by exists sc.
Qed.

(** C23: no registered schema is lost.  From an empty store, after any sequence of schema
    registrations and commits of other rows, loading the schemas from the store gives exactly
    the registry in memory: for every type the schema registered last, with its constraints,
    their modes and severities.  Every registered schema is storable: it has a non-empty type
    name (a nameless one is not loaded: [nameless_schema_lost]), its texts are UTF-8, and its
    lengths and numbers fit the codec. *)
Theorem schemas_survive e sts :
  holds e ∅ -> steps_fit (repo_new e, ∅) sts -> let x := fold_left schema_step sts (repo_new e, ∅) in
  scannable (rp_engine x.1) K_SCHEMA_PREFIX -> load_schemas (rp_engine x.1) = KOk x.2.
Proof.
  intros He Hf x Hp. assert (exists s, repo_ok x.1 s /\ rows_hold s x.2 /\ reg_ok x.2) as (s & Hr & Hrows & Hok); [|by apply (load_exact _ s)].
  assert (exists s, repo_ok (repo_new e) s /\ rows_hold s ∅ /\ reg_ok ∅) as Hinit.
  { exists ∅. split; [by apply repo_ok_new|]. split; [intros ty; by rewrite !lookup_empty | intros ty sc; by rewrite lookup_empty]. }
  unfold x. clear x Hp He. revert Hf Hinit. generalize (repo_new e) as r. generalize (∅ : SchemaRegistry) as reg. induction sts as [|st sts IH]; intros reg r Hf (s & Hr & Hrows & Hok); [by exists s|].
  destruct Hf as [Hf Hfs]. cbn [fold_left]. destruct (step_holds r s reg st Hr Hrows Hok Hf) as (s' & Hr' & Hrows' & Hok'). destruct (schema_step (r, reg) st) as [r1 reg1]. apply IH; [done|]. by exists s'.
Qed.
End Survive.

(* ------------------------------------------------------------------ *)
(** * Witnesses and a departure *)

(** A schema with a constraint of every kind. *)
Definition full_schema (ty : bytes) : Schema :=
  mkSchema ty 3 [[x61]] (Some {[ [x62]; [x61] ]}) [mkSchemaProperty [x61] (txt "Int") true false true [Range (Some 0) None; Enum [VNull; VList [VInt 5]]]]
    [mkUniqueConstraint [[x61]; [x62]] UniquenessScope.Tenant ConstraintTiming.Deferred EnforcementMode.Advisory ViolationSeverity.Warning]
    [mkCheckConstraint [x63] (If (Property [x61]) (Not (Literal (VBool false))) (Compare CompareOp.Lte (Arith (Property [x61]) ArithOp.Mul (Literal (VInt 2))) (Literal (VFloat 7))))
      ConstraintTiming.Immediate EnforcementMode.Disabled ViolationSeverity.Info_]
    [mkCardinalityConstraint [x6b] [x72] (Some 1) None EnforcementMode.Enforced ViolationSeverity.Error]
    [mkTemporalConstraint [x74] [x61] [x62] EnforcementMode.Validated ViolationSeverity.Error].
Lemma schema_codec_witness : decode_schema (encode_schema (full_schema [x54])) = KOk (full_schema [x54]) /\ decode_schema (enc_body (full_schema [x54])) = KOk (bare (full_schema [x54])).
Proof.
  destruct (schema_codec (full_schema [x54]) ltac:(vm_compute; reflexivity) ltac:(vm_compute; reflexivity) ltac:(vm_compute; reflexivity)) as (W1 & W2 & _). split; [exact W1 | exact W2].
Defined.
Definition schema_steps : list SchemaStep :=
  [Registers (full_schema [x54]); Commits [PutObject ko_a 5 (draft ko_a 1 []); PutHead ko_a 1 5 LifecycleState.Draft]; Registers (schema_new [x55] 1); Registers (schema_new [x54] 4)].
Lemma schemas_survive_witness :
  load_schemas (rp_engine (fold_left schema_step schema_steps (repo_new mem_new, ∅)).1) = KOk (<[[x54] := schema_new [x54] 4]> (<[[x55] := schema_new [x55] 1]> ∅)).
Proof.
  rewrite (schemas_survive mem_new schema_steps fresh_holds); [vm_compute; reflexivity | | exact I].
  unfold schema_steps. cbn [steps_fit]. repeat (split; [split; [vm_compute; reflexivity | split; [vm_compute; reflexivity | exact I]]|]). exact I.
Defined.
(** A schema for the empty type name is registered and not loaded. *)
Lemma nameless_schema_lost :
  let x := schema_step (repo_new mem_new, ∅) (Registers (schema_new [] 1)) in x.2 !! [] = Some (schema_new [] 1) /\ load_schemas (rp_engine x.1) = KOk ∅.
Proof. split; vm_compute; reflexivity. Qed.
