(* ===== verification/Transact.v ===== *)
(** crates/kernel/src/transaction/kernel.rs [transact_inner] and kernel/txn.rs: several writes
    committed as one batch.  Its phases: the recorded outcome of a retry, the heads and
    versions of the operations, the checks of each, the constraints deferred to the end, and
    the commit ([Commit.transact_commit]).  With them the outcome records and the
    begin, stage, commit interface.

    The identifiers of creates are paired with the operations (the generator is [next_id]);
    metrics, violation log and park points are left out. *)

From Stdlib Require Import String.
From stdpp Require Import gmap.
From S2P Require Import Prelude Format Memtable Kom Codec CodecProps Store Repository Commit Epistemic Auth Expr Schema Constraint Ontology Remember SchemaCodec.

#[global] Instance subject_eq_dec : EqDecision Subject.
Proof. solve_decision. Defined.
Record TransactionOp : Type := mkTransactionOp { to_context : KnowledgeContext; to_request : RememberRequest }.

(* ------------------------------------------------------------------ *)
(** * Outcome records *)

Definition referential_tag (p : ReferentialPolicy.t) : Z :=
  match p with ReferentialPolicy.Strict => 0 | ReferentialPolicy.Permissive => 1 | ReferentialPolicy.Enforced => 2 end.
Definition shadow (req : RememberRequest) : KnowledgeObject :=
  mkKnowledgeObject (default KOID_ZERO (rq_koid req)) 0 0 (rq_metadata req) (rq_properties req) (rq_semantic req) (rq_relationships req) []
    (default (mkSecurityDescriptor (su_name (kx_subject (rq_context req))) [] None) (rq_security req))
    (mkLifecycle LifecycleState.Draft (rq_origin req)) (rq_extensions req).
Definition op_body (op : TransactionOp) : bytes :=
  let subj := kx_subject (to_context op) in
  e_str (su_name subj) ++ e_u32 (as_u32 (zlen (su_roles subj))) ++ flat_map e_str (su_roles subj) ++ e_opt_str (su_tenant subj) ++
  e_u8 (referential_tag (rq_referential_policy (to_request op))) ++ e_opt_str (rq_note (to_request op)) ++ encode_ko (shadow (to_request op)).
Definition txn_body_fingerprint `{Sha256} (ops : list TransactionOp) : bytes := sha256 (e_u32 (as_u32 (zlen ops)) ++ flat_map op_body ops).

Definition encode_result (r : Remembered) : bytes := koid_bytes (rm_koid r) ++ be_bytes 8 (rm_version r) ++ be_bytes 8 (rm_commit_ts r).
Definition encode_txn_results (rs : list Remembered) : bytes := be_bytes 4 (as_u32 (zlen rs)) ++ flat_map encode_result rs.
Definition PER_RESULT : Z := KOID_LEN + 16.
Fixpoint decode_results (count : nat) (bs : bytes) : list Remembered :=
  match count with
  | O => []
  | S count =>
      mkRemembered (mkKOID (ztake KOID_LEN bs)) (be_val (zslice KOID_LEN (KOID_LEN + 8) bs)) (be_val (zslice (KOID_LEN + 8) PER_RESULT bs)) 0 :: decode_results count (zdrop PER_RESULT bs)
  end.
Definition decode_txn_results (bs : bytes) : SResult (list Remembered) :=
  if zlen bs <? 4 then SErr "record too short for a count"
  else
    let count := be_val (ztake 4 bs) in
    if negb (zlen bs =? 4 + count * PER_RESULT) then SErr "record length does not match count"
    else SOk (decode_results (Z.to_nat count) (zdrop 4 bs)).
Definition encode_txn_record (fp : bytes) (rs : list Remembered) : bytes := [x01] ++ fp ++ encode_txn_results rs.
Definition decode_txn_record (bs : bytes) : SResult (option bytes * list Remembered) :=
  match bs with
  | x01 :: _ =>
      if zlen bs <? 33 then SErr "record too short for a fingerprint"
      else match decode_txn_results (zdrop 33 bs) with SOk rs => SOk (Some (zslice 1 33 bs), rs) | SErr m => SErr m | SPanic => SPanic end
  | _ => match decode_txn_results bs with SOk rs => SOk (None, rs) | SErr m => SErr m | SPanic => SPanic end
  end.

(* ------------------------------------------------------------------ *)
(** * Phase 1: heads and versions *)

Record Resolved : Type := mkResolved { rs_koid : KOID; rs_head : option KnowledgeObject; rs_cur : Z; rs_op : TransactionOp }.
Definition creating (r : Resolved) : bool := rs_cur r =? 0.

Section Phases.
Context {E : Type} `{StorageEngine E} `{Sha256} `{Regex}.
Context (cfg : Config).

Fixpoint resolve (ops : list (KOID * TransactionOp)) : RM E (list Resolved) :=
  match ops with
  | [] => mret []
  | (minted, op) :: ops =>
      let req := to_request op in
      _ ← lift (match rq_idempotency_key req with Some _ => KErr (UnsupportedOperation "idempotency keys are not supported inside transactions") | None => KOk tt end);
      let koid := default minted (rq_koid req) in
      head ← head_object koid;
      _ ← lift (match head, rq_koid req, rq_expected_version req with None, Some _, None => KErr (NotFound koid) | _, _, _ => KOk tt end);
      let cur := head_version head in
      let expected := default cur (rq_expected_version req) in
      _ ← lift (if expected =? cur then KOk tt else KErr (VersionConflict koid expected cur));
      rest ← resolve ops;
      mret (mkResolved koid head cur op :: rest)
  end.
Fixpoint distinct (seen : gset KOID) (rs : list Resolved) : KResult unit :=
  match rs with
  | [] => KOk tt
  | r :: rs => if bool_decide (rs_koid r ∈ seen) then KErr (VersionConflict (rs_koid r) ((rs_cur r + 1) mod U64) ((rs_cur r + 1) mod U64)) else distinct ({[rs_koid r]} ∪ seen) rs
  end.

(* ------------------------------------------------------------------ *)
(** * Phase 2: the checks of an operation *)

Definition tx_security (auth : AuthManager) (r : Resolved) : KResult SecurityDescriptor :=
  let subject := kx_subject (to_context (rs_op r)) in
  let req := to_request (rs_op r) in
  if creating r then
    let s := default (mkSecurityDescriptor (su_name subject) [] None) (rq_security req) in
    if negb (bytes_eqb (owner s) (su_name subject)) && negb (is_admin subject) then KErr (AccessDenied (su_name subject) Action.Write (rs_koid r)) else KOk s
  else
    match rs_head r with
    | Some h => _ ← authorize auth subject h Action.Write; KOk (default (ko_security h) (rq_security req))
    | None => KPanic
    end.
Fixpoint tx_strict (new_koids : gset KOID) (rels : list RelationshipRef) : RM E unit :=
  match rels with
  | [] => mret tt
  | rel :: rels =>
      if bool_decide (target rel ∈ new_koids) then tx_strict new_koids rels
      else
        o ← head_object (target rel);
        match o with
        | Some _ => tx_strict new_koids rels
        | None => lift (KErr (InvalidObject "relationship target does not exist under strict referential policy"))
        end
  end.
Definition tx_object (r : Resolved) (security : SecurityDescriptor) : KnowledgeObject :=
  let req := to_request (rs_op r) in
  mkKnowledgeObject (rs_koid r) ((rs_cur r + 1) mod U64) 0 (rq_metadata req) (rq_properties req) (rq_semantic req) (rq_relationships req)
    (match rs_head r with Some h => ko_event_refs h | None => [] end) security
    (match rs_head r with Some h => ko_lifecycle h | None => mkLifecycle LifecycleState.Draft (rq_origin req) end) (rq_extensions req).
Definition tx_write_set (r : Resolved) : gset bytes :=
  let props := rq_properties (to_request (rs_op r)) in
  if creating r then keys props else match rs_head r with Some h => write_set (ko_properties h) props | None => ∅ end.
Definition tx_schema (ko : KnowledgeObject) (ws : gset bytes) : KResult unit :=
  _ ← registry_validate (cf_schemas cfg) ko (cf_not_null cfg);
  if cf_check cfg then KOk tt
  else match cf_schemas cfg !! type_name (ko_metadata ko) with Some s => _ ← evaluate_first s (ko_properties ko) (Some ws); KOk tt | None => KOk tt end.
(** [check_uniqueness], skipping the deferred constraints. *)
Definition is_deferred (uc : UniqueConstraint) : bool := bool_decide (uc_timing uc = ConstraintTiming.Deferred).
Definition tx_unique (ko : KnowledgeObject) (ws : gset bytes) : RM E unit :=
  if cf_unique cfg then mret tt
  else match cf_schemas cfg !! type_name (ko_metadata ko) with
       | Some s => unique_loop ko ws (List.filter (fun uc => negb (is_deferred uc)) (sc_unique_constraints s))
       | None => mret tt
       end.

(** [collect_deferred_unique], [record_unique], [record_check]. *)
Record DeferredUnique : Type := mkDeferredUnique {
  du_type : bytes; du_index : nat; du_pairs : list (bytes * Value); du_koid : KOID; du_scope : UniquenessScope.t; du_tenant : option bytes }.
Record DeferredCheck : Type := mkDeferredCheck { dk_type : bytes; dk_index : nat; dk_koid : KOID; dk_props : PropertyMap }.
Definition present_pairs (props : PropertyMap) (names : list bytes) : list (bytes * Value) := omap (fun n => v ← btree_get props n; Some (n, v)) names.
Fixpoint collect_deferred_unique (ko : KnowledgeObject) (ci : nat) (ucs : list UniqueConstraint) : list DeferredUnique :=
  match ucs with
  | [] => []
  | uc :: ucs =>
      let rest := collect_deferred_unique ko (S ci) ucs in
      if negb (is_deferred uc) then rest
      else if negb (enabled (uc_mode uc)) then rest
      else
        let pairs := present_pairs (ko_properties ko) (uc_properties uc) in
        if bool_decide (length pairs = length (uc_properties uc)) then
          mkDeferredUnique (type_name (ko_metadata ko)) ci pairs (ko_koid ko) (uc_scope uc) (tenant (ko_metadata ko)) :: rest
        else rest
  end.
Fixpoint collect_deferred_checks (ko : KnowledgeObject) (ws : gset bytes) (ci : nat) (ccs : list CheckConstraint) : list DeferredCheck :=
  match ccs with
  | [] => []
  | cc :: ccs =>
      let rest := collect_deferred_checks ko ws (S ci) ccs in
      if negb (bool_decide (cc_timing cc = ConstraintTiming.Deferred)) then rest
      else if negb (enabled (cc_mode cc)) then rest
      else if negb (check_affected_by_write_set cc (Some ws)) then rest
      else mkDeferredCheck (type_name (ko_metadata ko)) ci (ko_koid ko) (ko_properties ko) :: rest
  end.
Record TransactionConstraintState : Type := mkTransactionConstraintState { deferred_unique : list DeferredUnique; deferred_checks : list DeferredCheck }.
Definition collect_deferred (st : TransactionConstraintState) (ko : KnowledgeObject) (ws : gset bytes) : TransactionConstraintState :=
  match cf_schemas cfg !! type_name (ko_metadata ko) with
  | Some s => mkTransactionConstraintState (deferred_unique st ++ collect_deferred_unique ko 0 (sc_unique_constraints s))
                (deferred_checks st ++ collect_deferred_checks ko ws 0 (sc_check_constraints s))
  | None => st
  end.

(** The relationship rules, across the store and the batch. *)
Abbreviation Inbound := (gmap (KOID * bytes) (gset KOID)).
Definition other_source (sources : gset KOID) (koid : KOID) : bool := existsb (fun s => negb (bool_decide (s = koid))) (elements sources).
Fixpoint tx_ontology (batch_types : gmap KOID bytes) (ty : bytes) (koid : KOID) (all rels : list RelationshipRef) (checked : gset bytes) (inbound : Inbound) : RM E Inbound :=
  match rels with
  | [] => mret inbound
  | rel :: rels =>
      match btree_get (od_relationships (or_def (cf_ontology cfg))) (rel_type rel) with
      | None => tx_ontology batch_types ty koid all rels checked inbound
      | Some rd =>
          _ ← lift (match rd_domain rd with Some d => if is_a cfg ty d then KOk tt else KErr (InvalidObject "domain mismatch") | None => KOk tt end);
          _ ← match rd_range rd with
              | Some range =>
                  tt' ← match batch_types !! target rel with
                        | Some t => mret (Some t)
                        | None => o ← head_object (target rel); mret ((fun ko => type_name (ko_metadata ko)) <$> o)
                        end;
                  lift (match tt' with Some t => if is_a cfg t range then KOk tt else KErr (InvalidObject "range mismatch") | None => KOk tt end)
              | None => mret tt
              end;
          let one_to_one := bool_decide (rd_cardinality rd = Some Cardinality.OneToOne) in
          let one_to_many := bool_decide (rd_cardinality rd = Some Cardinality.OneToMany) in
          let edge := (target rel, rel_type rel) in
          _ ← (if one_to_one || one_to_many then
                 stored ← on_engine (fun e => scan_inbound e (target rel) (Some (rel_type rel)));
                 lift (if existsb (fun x => negb (bool_decide (x.2 = koid))) stored || other_source (default ∅ (inbound !! edge)) koid
                       then KErr (InvalidObject "cardinality violated") else KOk tt)
               else mret tt);
          _ ← lift (if bool_decide (rel_type rel ∈ checked) then KOk tt
                    else
                      let count := rel_count all (rel_type rel) in
                      if one_to_one && (1 <? count) then KErr (InvalidObject "1:1 cardinality violated")
                      else if match rd_max_count rd with Some max => max <? count | None => false end then KErr (InvalidObject "max_count cardinality violated")
                      else KOk tt);
          tx_ontology batch_types ty koid all rels ({[rel_type rel]} ∪ checked) (<[edge := {[koid]} ∪ default ∅ (inbound !! edge)]> inbound)
      end
  end.

Definition tx_kind (r : Resolved) : EventKind.t :=
  match rq_origin (to_request (rs_op r)) with
  | Origin.Reason | Origin.SemanticEnrichment => EventKind.ClaimAsserted
  | _ => if creating r then EventKind.Created else EventKind.Updated
  end.
Definition tx_pending (r : Resolved) (ko : KnowledgeObject) : Pending :=
  let req := to_request (rs_op r) in
  mkPending ko (tx_kind r) (rq_origin req) (su_name (kx_subject (to_context (rs_op r)))) (rq_note req) (match rs_head r with Some h => ko_relationships h | None => [] end).
Fixpoint check_ops (auth : AuthManager) (batch_types : gmap KOID bytes) (rs : list Resolved) (inbound : Inbound) (st : TransactionConstraintState)
    : RM E (list Pending * TransactionConstraintState) :=
  match rs with
  | [] => mret ([], st)
  | r :: rs =>
      let req := to_request (rs_op r) in
      security ← lift (tx_security auth r);
      _ ← (if bool_decide (rq_referential_policy req = ReferentialPolicy.Strict) then tx_strict (dom batch_types) (rq_relationships req) else mret tt);
      let ko := tx_object r security in
      let ws := tx_write_set r in
      _ ← lift (tx_schema ko ws);
      _ ← tx_unique ko ws;
      let st := collect_deferred st ko ws in
      inbound ← (if bool_decide (rq_referential_policy req = ReferentialPolicy.Enforced) then
                   tx_ontology batch_types (type_name (rq_metadata req)) (rs_koid r) (rq_relationships req) (rq_relationships req) ∅ inbound
                 else mret inbound);
      '(ps, st) ← check_ops auth batch_types rs inbound st;
      mret (tx_pending r ko :: ps, st)
  end.

(* ------------------------------------------------------------------ *)
(** * Deferred constraints *)

Definition pairs_match (a b : list (bytes * Value)) : bool := list_eqb (fun x y => bytes_eqb x.1 y.1 && value_eqb x.2 y.2) a b.
Definition batch_scope (scope : UniquenessScope.t) (a b : DeferredUnique) : bool :=
  match scope with
  | UniquenessScope.Type_ => bytes_eqb (du_type a) (du_type b)
  | UniquenessScope.Tenant => match du_tenant a, du_tenant b with Some t1, Some t2 => bytes_eqb t1 t2 | _, _ => false end
  | UniquenessScope.Global => true
  end.
Definition unique_mode (d : DeferredUnique) : EnforcementMode.t * ViolationSeverity.t :=
  match cf_schemas cfg !! du_type d ≫= (fun s => sc_unique_constraints s !! du_index d) with
  | Some u => (uc_mode u, uc_severity u)
  | None => (EnforcementMode.Enforced, ViolationSeverity.Error)
  end.
Definition unique_event (d : DeferredUnique) (msg : string) (r : ConstraintResult) : ConstraintResult :=
  let '(mode, severity) := unique_mode d in dispatch mode severity (with_koid (violation_error (du_type d) msg) (Some (du_koid d))) r.
Definition batch_conflicts (d : DeferredUnique) (later : list DeferredUnique) (r : ConstraintResult) : ConstraintResult :=
  fold_left (fun r d' => if bool_decide (du_index d = du_index d') && pairs_match (du_pairs d) (du_pairs d') && batch_scope (du_scope d) d d'
                         then unique_event d "deferred uniqueness violated within batch" r else r) later r.
Fixpoint deferred_uniques (ds : list DeferredUnique) (r : ConstraintResult) : RM E ConstraintResult :=
  match ds with
  | [] => mret r
  | d :: ds =>
      let r := batch_conflicts d ds r in
      conflict ← uniqueness_conflict (du_scope d) (du_tenant d) (du_type d) (du_pairs d) (du_koid d);
      deferred_uniques ds (if (conflict : bool) then unique_event d "deferred uniqueness violated: already exists" r else r)
  end.
Definition deferred_check (r : ConstraintResult) (d : DeferredCheck) : KResult ConstraintResult :=
  match cf_schemas cfg !! dk_type d ≫= (fun s => sc_check_constraints s !! dk_index d) with
  | Some cc =>
      event ← check_event (cc_name cc) (evaluate (cc_predicate cc) (dk_props d));
      KOk (match event with Some event => dispatch (cc_mode cc) (cc_severity cc) (with_koid event (Some (dk_koid d))) r | None => r end)
  | None => KOk r
  end.
Definition evaluate_deferred (st : TransactionConstraintState) : RM E ConstraintResult :=
  r ← deferred_uniques (deferred_unique st) cr_ok; lift (kfold deferred_check r (deferred_checks st)).
Definition tx_deferred (st : TransactionConstraintState) : RM E unit :=
  match deferred_unique st, deferred_checks st with
  | [], [] => mret tt
  | _, _ => r ← evaluate_deferred st; lift (into_kresult r)
  end.
End Phases.

(* ------------------------------------------------------------------ *)
(** * The transaction *)

Section Transact.
Context {E : Type} `{StorageEngine E} `{Sha256} `{Regex}.
Context (hmac_sha256 : bytes -> bytes -> bytes) (signer : option (bytes -> bytes)) (signing_key : option bytes).
Context (cfg : Config).

Definition batch_types_of (rs : list Resolved) : gmap KOID bytes := fold_left (fun m r => <[rs_koid r := type_name (rq_metadata (to_request (rs_op r)))]> m) rs ∅.
Definition created_tenants (rs : list Resolved) : list (option bytes) := map (fun r => tenant (rq_metadata (to_request (rs_op r)))) (List.filter creating rs).
(** Phases 1 and 2, and the deferred constraints. *)
Definition prepare (auth : AuthManager) (ops : list (KOID * TransactionOp)) : RM E (list Resolved * list Pending) :=
  rs ← resolve ops;
  _ ← lift (distinct ∅ rs);
  '(ps, st) ← check_ops cfg auth (batch_types_of rs) rs ∅ (mkTransactionConstraintState [] []);
  _ ← tx_deferred cfg st;
  mret (rs, ps).

Fixpoint results_of (ts seq : Z) (rs : list Resolved) : list Remembered :=
  match rs with [] => [] | r :: rs => mkRemembered (rs_koid r) ((rs_cur r + 1) mod U64) ts seq :: results_of ts ((seq + 1) mod U64) rs end.
(** A recorded outcome: the sequence numbers are those of the objects' event references. *)
Fixpoint recover_seqs (results : list Remembered) : RM E (list Remembered) :=
  match results with
  | [] => mret []
  | r :: results =>
      head ← head_object (rm_koid r);
      seq ← lift (match head with
                  | Some h => if rm_version r =? 0 then KPanic else KOk (default (rm_journal_seq r) (er_seq <$> (ko_event_refs h !! Z.to_nat (rm_version r - 1))))
                  | None => KOk (rm_journal_seq r)
                  end);
      rest ← recover_seqs results;
      mret (mkRemembered (rm_koid r) (rm_version r) (rm_commit_ts r) seq :: rest)
  end.
Definition recorded_outcome (tid : bytes) (body : bytes) : RM E (option (list Remembered)) :=
  o ← on_engine (fun e => txn_record e tid);
  match o with
  | None => mret None
  | Some bs =>
      match decode_txn_record bs with
      | SOk (recorded, results) =>
          if bool_decide (recorded = Some body) then rs ← recover_seqs results; mret (Some rs)
          else lift (KErr (InvalidObject "transaction id already committed with a different body"))
      | SErr _ => lift (KErr (Kom.Store "transaction record corrupt"))
      | SPanic => lift KPanic
      end
  end.
(** A role or a policy among the results reloads the authorization manager. *)
Fixpoint any_auth_meta (results : list Remembered) : RM E bool := fun k =>
  match results with
  | [] => (k, KOk false)
  | r :: results =>
      match head_object (rm_koid r) k with
      | (k, KOk (Some h)) =>
          if bytes_eqb (type_name (ko_metadata h)) ROLE_TYPE || bytes_eqb (type_name (ko_metadata h)) POLICY_TYPE then (k, KOk true) else any_auth_meta results k
      | (k, KOk None) | (k, KErr _) => any_auth_meta results k
      | (k, KPanic) => (k, KPanic)
      end
  end.
Definition commit_prepared (auth : AuthManager) (ms : Z) (rs : list Resolved) (ps : list Pending) (schema_row : option Schema) (txn : option (bytes * bytes))
    : KM E (list Remembered * bool * AuthManager) :=
  hlc ← kget k_hlc;
  pipe ← kget k_pipe;
  let results := results_of (hlc_now hlc ms) ((p_seq pipe + 1) mod U64) rs in
  _ ← transact_commit hmac_sha256 signer signing_key ms ps (created_tenants rs) ((fun s => (sc_type_name s, encode_schema s)) <$> schema_row)
        ((fun x => (x.1, encode_txn_record x.2 results)) <$> txn);
  reload ← on_repo (any_auth_meta results);
  auth ← (if (reload : bool) then on_repo auth_load else mret auth);
  mret (results, false, auth).
Definition transact_inner (auth : AuthManager) (ms : Z) (ops : list (KOID * TransactionOp)) (schema_row : option Schema) (txn_id : option bytes)
    : KM E (list Remembered * bool * AuthManager) :=
  if match ops, txn_id with [], None => true | _, _ => false end then
    match schema_row with
    | None => mret ([], false, auth)
    | Some s =>
        _ ← (fun k => let '(r, x) := repo_write_batch (k_repo k) (put_schema_row wb_new (sc_type_name s) (encode_schema s)) in (set_repo k r, x));
        mret ([], false, auth)
    end
  else
    let txn := match txn_id with Some tid => Some (tid, txn_body_fingerprint (map snd ops)) | None => None end in
    prior ← match txn with Some (tid, body) => on_repo (recorded_outcome tid body) | None => mret None end;
    match prior with
    | Some results => mret (results, true, auth)
    | None => '(rs, ps) ← on_repo (prepare auth ops); commit_prepared auth ms rs ps schema_row txn
    end.
Definition transact (auth : AuthManager) (ms : Z) (ops : list (KOID * TransactionOp)) : KM E (list Remembered * bool * AuthManager) := transact_inner auth ms ops None None.

(* ------------------------------------------------------------------ *)
(** * Begin, stage, commit *)

Record Transaction : Type := mkTransaction { tn_id : bytes; tn_subject : Subject; tn_snapshot_ts : Z; tn_staged : list (KOID * TransactionOp) }.
Definition begin_transaction (ms : Z) (subject : Subject) (txn_id : bytes) : KM E Transaction :=
  match txn_id with
  | [] => klift (KErr (InvalidObject "transaction id must not be empty"))
  | _ => ts ← tick ms; mret (mkTransaction txn_id subject ts [])
  end.
Definition pin_version (req : RememberRequest) (v : option Z) : RememberRequest :=
  mkRememberRequest (rq_context req) (rq_koid req) v (rq_idempotency_key req) (rq_metadata req) (rq_properties req) (rq_semantic req) (rq_relationships req)
    (rq_security req) (rq_extensions req) (rq_origin req) (rq_note req) (rq_referential_policy req).
Definition stage (t : Transaction) (minted : KOID) (req : RememberRequest) : KM E Transaction :=
  if negb (bool_decide (kx_subject (rq_context req) = tn_subject t)) then klift (KErr (InvalidObject "staged request subject does not match transaction subject"))
  else
    req ← match rq_koid req with
          | Some koid => o ← on_repo (on_engine (fun e => get_object_at e koid (tn_snapshot_ts t))); mret (pin_version req (Some (head_version o)))
          | None => mret req
          end;
    mret (mkTransaction (tn_id t) (tn_subject t) (tn_snapshot_ts t) (tn_staged t ++ [(minted, mkTransactionOp (rq_context req) req)])).
Definition get_at (auth : AuthManager) (subject : Subject) (koid : KOID) (snap_ts : Z) : KM E KnowledgeObject :=
  o ← on_repo (on_engine (fun e => get_object_at e koid snap_ts));
  match o with
  | None => klift (KErr (NotFound koid))
  | Some ko => _ ← klift (authorize auth subject ko Action.Read); mret ko
  end.
Definition txn_get (auth : AuthManager) (t : Transaction) (koid : KOID) : KM E KnowledgeObject := get_at auth (tn_subject t) koid (tn_snapshot_ts t).
Definition commit (auth : AuthManager) (ms : Z) (t : Transaction) : KM E (list Remembered * bool * AuthManager) := transact_inner auth ms (tn_staged t) None (Some (tn_id t)).
End Transact.
