(* ===== verification/TransactProps.v ===== *)
(** A transaction in the kernel: its checks only read, what they establish of each operation,
    and the outcome records. *)

From Stdlib Require Import String.
From stdpp Require Import gmap.
From S2P Require Import Prelude Format Memtable Kom Codec CodecProps Store Repository RepositorySpec RepositoryReads RepositoryRebuild Commit CommitInv CommitOps CommitRun Epistemic CommitTxn Auth AuthProps Expr Schema Constraint Ontology Remember RememberProps SchemaCodec Transact.

(* ------------------------------------------------------------------ *)
(** * Outcome records *)

Definition result_ok (r : Remembered) : bool := len_is KOID_LEN (koid_bytes (rm_koid r)) && fits_in U64 (rm_version r) && fits_in U64 (rm_commit_ts r).
(** The record does not keep the sequence numbers. *)
Definition no_seq (r : Remembered) : Remembered := mkRemembered (rm_koid r) (rm_version r) (rm_commit_ts r) 0.

Lemma zlen_result r : result_ok r = true -> zlen (encode_result r) = PER_RESULT.
Proof.
  unfold result_ok, len_is. intros Hr. bool_to_prop. destruct_and?. unfold encode_result, PER_RESULT, KOID_LEN in *. rewrite !zlen_app, !zlen_be_bytes. lia.
Qed.
Lemma decode_result r rest count : result_ok r = true ->
  decode_results (S count) (encode_result r ++ rest) = no_seq r :: decode_results count rest.
Proof.
  intros Hr. pose proof (zlen_result r Hr) as Hl. unfold result_ok, len_is, fits_in in Hr. bool_to_prop. destruct_and?. cbn [decode_results]. rewrite (zdrop_app (encode_result r)) by done. f_equal.
  assert (ztake KOID_LEN (encode_result r ++ rest) = koid_bytes (rm_koid r)) as E1 by (unfold encode_result; rewrite <-!app_assoc; by apply ztake_app).
  assert (zslice KOID_LEN (KOID_LEN + 8) (encode_result r ++ rest) = be_bytes 8 (rm_version r)) as E2.
  { unfold encode_result. rewrite <-!app_assoc. apply zslice_mid; [done|]. rewrite zlen_be_bytes. lia. }
  assert (zslice (KOID_LEN + 8) PER_RESULT (encode_result r ++ rest) = be_bytes 8 (rm_commit_ts r)) as E3.
  { unfold encode_result. rewrite <-!app_assoc. rewrite (app_assoc (koid_bytes _)). apply zslice_mid; rewrite zlen_app, zlen_be_bytes; [lia|]. rewrite zlen_be_bytes. unfold PER_RESULT. lia. }
  rewrite E1, E2, E3. unfold no_seq. rewrite !be_val_bytes by (unfold U64 in *; lia). by destruct (rm_koid r).
Qed.
Lemma decode_results_all rs : Forall (fun r => result_ok r = true) rs -> decode_results (length rs) (flat_map encode_result rs) = map no_seq rs.
Proof. induction 1 as [|r rs Hr _ IH]; [done|]. cbn [flat_map length map]. by rewrite decode_result, IH. Qed.
Lemma zlen_results rs : Forall (fun r => result_ok r = true) rs -> zlen (flat_map encode_result rs) = zlen rs * PER_RESULT.
Proof. induction 1 as [|r rs Hr _ IH]; [done|]. cbn [flat_map]. rewrite zlen_app, IH, zlen_cons, zlen_result by done. lia. Qed.
Lemma txn_record_roundtrip fp rs : zlen fp = 32 -> zlen rs < 2 ^ 32 -> Forall (fun r => result_ok r = true) rs ->
  decode_txn_record (encode_txn_record fp rs) = SOk (Some fp, map no_seq rs).
Proof.
  intros Hf Hn Hr. pose proof (zlen_results rs Hr) as Hl. pose proof (zlen_nonneg rs). unfold encode_txn_record. cbn [app].
  assert (zdrop 33 (x01 :: fp ++ encode_txn_results rs) = encode_txn_results rs) as Ed
    by (change (x01 :: fp ++ encode_txn_results rs) with ((x01 :: fp) ++ encode_txn_results rs); apply zdrop_app; rewrite zlen_cons; lia).
  assert (zslice 1 33 (x01 :: fp ++ encode_txn_results rs) = fp) as Es
    by (change (x01 :: fp ++ encode_txn_results rs) with ([x01] ++ fp ++ encode_txn_results rs); apply zslice_mid; [done | by rewrite Hf]).
  assert (as_u32 (zlen rs) = zlen rs) as Eu by (apply as_u32_small; unfold is_u32, U32; lia).
  assert (decode_txn_results (encode_txn_results rs) = SOk (map no_seq rs)) as Er.
  { unfold decode_txn_results, encode_txn_results. rewrite zlen_app, zlen_be_bytes, Hl. unfold PER_RESULT, KOID_LEN. rewrite (proj2 (Z.ltb_ge _ _)) by lia.
    rewrite ztake_app, zdrop_app by (by rewrite zlen_be_bytes). rewrite Eu, be_val_bytes by lia. rewrite (proj2 (Z.eqb_eq _ _)) by lia. cbn [negb].
    unfold zlen. rewrite Nat2Z.id. by rewrite decode_results_all. }
  cbn [decode_txn_record]. rewrite Ed, Es, Er. rewrite (proj2 (Z.ltb_ge _ _)); [done|]. rewrite zlen_cons, zlen_app. pose proof (zlen_nonneg (encode_txn_results rs)). lia.
Qed.

(* ------------------------------------------------------------------ *)
(** * The checks *)

(** An operation with the head it was resolved against. *)
Record resolved (s : SpecState) (x : KOID * TransactionOp) (r : Resolved) : Prop := {
  re_op : rs_op r = x.2;
  re_koid : rs_koid r = default x.1 (rq_koid (to_request x.2));
  re_head : rs_head r = spec_head_object s (rs_koid r);
  re_cur : rs_cur r = head_version (rs_head r);
  re_expected : forall v, rq_expected_version (to_request x.2) = Some v -> v = rs_cur r;
  re_known : rs_head r = None -> rq_koid (to_request x.2) <> None -> rq_expected_version (to_request x.2) <> None }.

Section Checks.
Context {E : Type} `{HL : EngineLaws E} `{SHA : Sha256} `{Regex}.
Context (cfg : Config) (s : SpecState).
Abbreviation rquiet := (rquiet s).

Definition op_koid (x : KOID * TransactionOp) : KOID := default x.1 (rq_koid (to_request x.2)).
Definition op_ok (x : KOID * TransactionOp) : Prop := koid_ok (op_koid x) = true /\ targets_ok (rq_relationships (to_request x.2)).

Lemma resolve_quiet ops : forall r, Forall op_ok ops -> repo_ok r s -> rquiet (resolve ops) (fun rs => Forall2 (resolved s) ops rs) r.
Proof.
  induction ops as [|[minted op] ops IH]; intros r Ho Hr; [by apply rquiet_ret|]. inversion_clear Ho as [|? ? [Hk _] Ho']. cbn [resolve].
  eapply rquiet_bind; [by apply (rquiet_lift _ _ (fun _ => True))|]. intros ? r1 _ _ Hr1. eapply rquiet_bind; [by apply rquiet_head|]. intros head r2 Eh _ Hr2.
  eapply (rquiet_bind _ _ _ (fun _ => head = None -> rq_koid (to_request op) <> None -> rq_expected_version (to_request op) <> None)).
  { apply rquiet_lift; [done|]. intros ?. by destruct head, (rq_koid (to_request op)), (rq_expected_version (to_request op)). }
  intros ? r3 Hknown _ Hr3. cbn zeta.
  eapply (rquiet_bind _ _ _ (fun _ => default (head_version head) (rq_expected_version (to_request op)) = head_version head)).
  { apply rquiet_lift; [done|]. intros ?. destruct (_ =? _) eqn:Ez; [|done]. by apply Z.eqb_eq in Ez. }
  intros ? r4 Hv _ Hr4. eapply rquiet_bind; [by apply IH|]. intros rs r5 Hrs _ Hr5. apply rquiet_ret; [done|]. constructor; [|done]. split; cbn [rs_op rs_koid rs_head rs_cur fst snd]; try done.
  intros v Ev. by rewrite Ev in Hv.
Qed.
Lemma distinct_nodup rs : forall seen, distinct seen rs = KOk tt -> NoDup (map rs_koid rs) /\ forall r, r ∈ rs -> rs_koid r ∉ seen.
Proof.
  induction rs as [|r rs IH]; intros seen; [intros _; split; [constructor | by intros ? ?%not_elem_of_nil]|]. cbn [distinct map]. case_bool_decide as Hin; [done|]. intros [Hn Hs]%IH. split.
  - constructor; [|done]. intros (r' & Ek & Hr')%list_elem_of_fmap. apply (Hs r' Hr'). rewrite <-Ek. set_solver.
  - intros r' [->|Hr']%elem_of_cons; [done|]. specialize (Hs r' Hr'). set_solver.
Qed.
Lemma tx_strict_quiet new rels : forall r, targets_ok rels -> repo_ok r s ->
  rquiet (tx_strict new rels) (fun _ => forall rel, rel ∈ rels -> target rel ∈ new \/ is_Some (spec_head_object s (target rel))) r.
Proof.
  induction rels as [|rel rels IH]; intros r Ht Hr; [apply rquiet_ret; [done | by intros ? ?%not_elem_of_nil]|]. cbn [tx_strict].
  assert (forall r', repo_ok r' s -> target rel ∈ new \/ is_Some (spec_head_object s (target rel)) ->
    rquiet (tx_strict new rels) (fun _ => forall rel', rel' ∈ rel :: rels -> target rel' ∈ new \/ is_Some (spec_head_object s (target rel'))) r') as Hnext.
  { intros r' Hr' Hx. eapply rquiet_weaken; [apply IH; [intros ? ?; apply Ht; by right | done]|]. intros ? Hall rel' [->|Hin]%elem_of_cons; [done | by apply Hall]. }
  case_bool_decide as Hin; [apply Hnext; [done | by left]|]. eapply rquiet_bind; [apply rquiet_head; [done | apply Ht; by left]|]. intros o r' Eo _ Hr'.
  destruct o as [h|]; [|by apply rquiet_lift]. apply Hnext; [done|]. right. rewrite <-Eo. eauto.
Qed.
Lemma tx_ontology_quiet batch ty koid all rels : forall checked inbound r, targets_ok rels -> repo_ok r s ->
  rquiet (tx_ontology cfg batch ty koid all rels checked inbound) (fun _ => True) r.
Proof.
  induction rels as [|rel rels IH]; intros checked inbound r Ht Hr; [by apply rquiet_ret|]. cbn [tx_ontology].
  assert (forall checked inbound r, repo_ok r s -> rquiet (tx_ontology cfg batch ty koid all rels checked inbound) (fun _ => True) r) as IH' by (intros; apply IH; [intros ? ?; apply Ht; by right | done]).
  destruct (btree_get _ (rel_type rel)) as [rd|]; [|by apply IH'].
  eapply rquiet_bind; [by apply (rquiet_lift _ _ (fun _ => True))|]. intros ? r1 _ _ Hr1. eapply (rquiet_bind _ _ _ (fun _ => True)).
  { destruct (rd_range rd); [|by apply rquiet_ret]. eapply (rquiet_bind _ _ _ (fun _ => True)); [|intros; by apply rquiet_lift].
    destruct (batch !! target rel); [by apply rquiet_ret|]. eapply rquiet_bind; [apply rquiet_head; [done | apply Ht; by left]|]. intros. by apply rquiet_ret. }
  intros ? r2 _ _ Hr2. cbn zeta. eapply (rquiet_bind _ _ _ (fun _ => True)).
  { destruct (_ || _); [|by apply rquiet_ret]. eapply rquiet_bind; [by apply rquiet_engine|]. intros. by apply rquiet_lift. }
  intros ? r3 _ _ Hr3. eapply rquiet_bind; [by apply (rquiet_lift _ _ (fun _ => True))|]. intros ? r4 _ _ Hr4. by apply IH'.
Qed.
Lemma tx_unique_quiet ko ws r : repo_ok r s -> heads_ok s -> scannable (rp_engine r) P_HEAD ->
  rquiet (tx_unique cfg ko ws) (fun _ => cf_unique cfg = false -> forall sc uc, cf_schemas cfg !! type_name (ko_metadata ko) = Some sc -> uc ∈ sc_unique_constraints sc ->
    is_deferred uc = false -> unique_ok s ko ws uc) r.
Proof.
  intros Hr Hho Hp. unfold tx_unique. destruct (cf_unique cfg); [by apply rquiet_ret|]. destruct (cf_schemas cfg !! _) as [sc|]; [|by apply rquiet_ret].
  eapply rquiet_weaken; [by apply unique_loop_quiet|]. intros ? Hall _ sc' uc [= <-] Hin Hd. apply Hall, list_elem_of_In, List.filter_In. split; [by apply list_elem_of_In | by rewrite Hd].
Qed.

(** What the checks establish of an operation. *)
Record checked (auth : AuthManager) (batch : gmap KOID bytes) (r : Resolved) (p : Pending) : Prop := {
  ck_pending : exists sec, tx_security auth r = KOk sec /\ p = tx_pending r (tx_object r sec);
  ck_schema : tx_schema cfg (pd_ko p) (tx_write_set r) = KOk tt;
  ck_unique : cf_unique cfg = false -> forall sc uc, cf_schemas cfg !! type_name (ko_metadata (pd_ko p)) = Some sc -> uc ∈ sc_unique_constraints sc ->
    is_deferred uc = false -> unique_ok s (pd_ko p) (tx_write_set r) uc;
  ck_targets : rq_referential_policy (to_request (rs_op r)) = ReferentialPolicy.Strict -> forall rel, rel ∈ rq_relationships (to_request (rs_op r)) ->
    target rel ∈ dom batch \/ is_Some (spec_head_object s (target rel)) }.
Lemma check_ops_quiet auth batch rs : forall inbound st r, Forall (fun x => targets_ok (rq_relationships (to_request (rs_op x)))) rs ->
  repo_ok r s -> heads_ok s -> scannable (rp_engine r) P_HEAD ->
  rquiet (check_ops cfg auth batch rs inbound st) (fun x => Forall2 (checked auth batch) rs x.1) r.
Proof.
  induction rs as [|x rs IH]; intros inbound st r Ht Hr Hho Hp; [by apply rquiet_ret|]. inversion_clear Ht as [|? ? Hx Ht']. cbn [check_ops]. cbn zeta.
  eapply rquiet_bind; [apply rquiet_lift; [done|]; intros sec Hsec; exact Hsec|]. intros sec r1 Hsec Ee1 Hr1.
  eapply (rquiet_bind _ _ _ (fun _ => rq_referential_policy (to_request (rs_op x)) = ReferentialPolicy.Strict -> forall rel, rel ∈ rq_relationships (to_request (rs_op x)) ->
    target rel ∈ dom batch \/ is_Some (spec_head_object s (target rel)))).
  { case_bool_decide; [|by apply rquiet_ret]. eapply rquiet_weaken; [by apply tx_strict_quiet|]. intros ? Hall _. exact Hall. }
  intros ? r2 Hst Ee2 Hr2. eapply (rquiet_bind _ _ _ (fun _ => tx_schema cfg (tx_object x sec) (tx_write_set x) = KOk tt)); [apply rquiet_lift; [done|]; by intros []|]. intros ? r3 Hsch Ee3 Hr3.
  eapply rquiet_bind; [apply tx_unique_quiet; [done..|]; rewrite Ee3, Ee2, Ee1; exact Hp|]. intros ? r4 Hu Ee4 Hr4. eapply (rquiet_bind _ _ _ (fun _ => True)).
  { case_bool_decide; [|by apply rquiet_ret]. by apply tx_ontology_quiet. }
  intros inb r5 _ Ee5 Hr5. eapply rquiet_bind; [apply IH; [done..|]; rewrite Ee5, Ee4, Ee3, Ee2, Ee1; exact Hp|]. intros [ps st'] r6 Hps _ Hr6. apply rquiet_ret; [done|].
  constructor; [|exact Hps]. split; [by exists sec | exact Hsch | exact Hu | exact Hst].
Qed.
Lemma deferred_quiet ds : forall cr r, repo_ok r s -> heads_ok s -> scannable (rp_engine r) P_HEAD -> rquiet (deferred_uniques cfg ds cr) (fun _ => True) r.
Proof.
  induction ds as [|d ds IH]; intros cr r Hr Hho Hp; [by apply rquiet_ret|]. cbn [deferred_uniques]. cbn zeta. eapply rquiet_bind; [by apply conflict_quiet|].
  intros b r1 _ Ee Hr1. apply IH; [done..|]. by rewrite Ee.
Qed.
Lemma tx_deferred_quiet st r : repo_ok r s -> heads_ok s -> scannable (rp_engine r) P_HEAD -> rquiet (tx_deferred cfg st) (fun _ => True) r.
Proof.
  intros Hr Hho Hp. unfold tx_deferred, evaluate_deferred. assert (rquiet (x ← (x0 ← deferred_uniques cfg (deferred_unique st) cr_ok; lift (kfold (deferred_check cfg) x0 (deferred_checks st))); lift (into_kresult x)) (fun _ => True) r) as Hq.
  { eapply (rquiet_bind _ _ _ (fun _ => True)); [|intros; by apply rquiet_lift]. eapply rquiet_bind; [by apply deferred_quiet|]. intros. by apply rquiet_lift. }
  destruct (deferred_unique st), (deferred_checks st); exact Hq || by apply rquiet_ret.
Qed.

Record prepared (auth : AuthManager) (ops : list (KOID * TransactionOp)) (rs : list Resolved) (ps : list Pending) : Prop := {
  pr_resolved : Forall2 (resolved s) ops rs;
  pr_distinct : NoDup (map rs_koid rs);
  pr_checked : Forall2 (checked auth (batch_types_of rs)) rs ps }.
Lemma prepare_quiet auth ops r : Forall op_ok ops -> repo_ok r s -> heads_ok s -> scannable (rp_engine r) P_HEAD ->
  rquiet (prepare cfg auth ops) (fun x => prepared auth ops x.1 x.2) r.
Proof.
  intros Ho Hr Hho Hp. unfold prepare. eapply rquiet_bind; [by apply resolve_quiet|]. intros rs r1 Hrs Ee1 Hr1.
  eapply (rquiet_bind _ _ _ (fun _ => NoDup (map rs_koid rs))); [apply rquiet_lift; [done|]; intros [] Hd; by apply distinct_nodup in Hd as [? _]|]. intros ? r2 Hn Ee2 Hr2.
  eapply rquiet_bind; [apply check_ops_quiet; [| done | done | by rewrite Ee2, Ee1]|].
  { clear -Hrs Ho. induction Hrs as [|x y ops rs Hx _ IH]; [constructor|]. inversion_clear Ho as [|? ? [_ Ht] Ho']. constructor; [by rewrite (re_op _ _ _ Hx) | by apply IH]. }
  intros [ps st] r3 Hps Ee3 Hr3. eapply rquiet_bind; [apply tx_deferred_quiet; [done | done | by rewrite Ee3, Ee2, Ee1]|]. intros ? r4 _ _ Hr4. by apply rquiet_ret.
Qed.
End Checks.

(* ================================================================== *)
(** The theorems about transactions: a transaction is all or nothing, and its outcome is
    recorded with it. *)

(** The object an operation leaves, given the head before it and its place in the journal. *)
Record tx_written (auth : AuthManager) (op : TransactionOp) (seq : Z) (head : option KnowledgeObject) (ko : KnowledgeObject) : Prop := {
  tw_version : ko_version ko = (head_version head + 1) mod U64;
  tw_expected : forall v, rq_expected_version (to_request op) = Some v -> v = head_version head;
  tw_known : head = None -> rq_koid (to_request op) <> None -> rq_expected_version (to_request op) <> None;
  tw_body : ko_metadata ko = rq_metadata (to_request op) /\ ko_properties ko = rq_properties (to_request op) /\ ko_semantic ko = rq_semantic (to_request op) /\
    ko_relationships ko = rq_relationships (to_request op) /\ ko_extensions ko = rq_extensions (to_request op);
  tw_events : exists ref, er_seq ref = seq /\ ko_event_refs ko = match head with Some h => ko_event_refs h | None => [] end ++ [ref];
  tw_lifecycle : ko_lifecycle ko = match head with Some h => ko_lifecycle h | None => mkLifecycle LifecycleState.Draft (rq_origin (to_request op)) end;
  tw_allowed : let subject := kx_subject (to_context op) in
    if head_version head =? 0 then owner (ko_security ko) = su_name subject \/ is_admin subject = true
    else exists h, head = Some h /\ authorize auth subject h Action.Write = KOk tt }.

(** The versions a batch stamps. *)
Fixpoint stamps (ts seq : Z) (ps : list Pending) : list KnowledgeObject :=
  match ps with [] => [] | p :: ps => stamp (pd_ko p) ts seq (pd_kind p) :: stamps ts ((seq + 1) mod U64) ps end.
Lemma stamps_lookup ts ps : forall seq i p, 0 <= seq -> seq + zlen ps <= U64 -> ps !! i = Some p -> stamps ts seq ps !! i = Some (stamp (pd_ko p) ts (seq + Z.of_nat i) (pd_kind p)).
Proof.
  induction ps as [|p0 ps IH]; intros seq i p Hs Hu Hi; [by rewrite lookup_nil in Hi|]. rewrite zlen_cons in Hu. destruct i as [|i]; cbn [stamps lookup list_lookup] in *.
  - injection Hi as ->. by rewrite Z.add_0_r.
  - pose proof (lookup_lt_Some _ _ _ Hi). unfold zlen in Hu. rewrite Z.mod_small by lia. rewrite (IH _ i p); [do 2 f_equal; lia | lia | unfold zlen; lia | done].
Qed.
Lemma results_lookup ts rs : forall seq i, 0 <= seq -> seq + zlen rs <= U64 ->
  results_of ts seq rs !! i = (fun r => mkRemembered (rs_koid r) ((rs_cur r + 1) mod U64) ts (seq + Z.of_nat i)) <$> rs !! i.
Proof.
  induction rs as [|r rs IH]; intros seq i Hs Hu; [done|]. rewrite zlen_cons in Hu. destruct i as [|i]; cbn [results_of lookup list_lookup]; [cbn; by rewrite Z.add_0_r|].
  destruct (decide (zlen rs = 0)) as [E0|E0]; [unfold zlen in E0; by destruct rs|]. pose proof (zlen_nonneg rs). change ((results_of ts ((seq + 1) mod U64) rs) !! i = (fun r => mkRemembered (rs_koid r) ((rs_cur r + 1) mod U64) ts (seq + Z.of_nat (S i))) <$> rs !! i).
  rewrite Z.mod_small by lia. rewrite IH by lia. destruct (rs !! i); [|done]. cbn. do 2 f_equal. lia.
Qed.

Section Transact.
Context {E : Type} `{HL : EngineLaws E} `{SHA : Sha256} `{Regex}.
Context (hmac_sha256 : bytes -> bytes -> bytes) (signer : option (bytes -> bytes)) (signing_key : option bytes).
Context (cfg : Config).
Abbreviation kernel_ok := (kernel_ok hmac_sha256 signing_key).
Abbreviation txn_fits := (txn_fits hmac_sha256 signer signing_key).
Abbreviation transact_inner := (transact_inner hmac_sha256 signer signing_key cfg).
Abbreviation commit_prepared := (commit_prepared hmac_sha256 signer signing_key).
Implicit Types k : Kernel E.

Lemma items_stamps ts ps : forall seq audit sig, map it_ko (txn_items hmac_sha256 signer signing_key ts ps seq audit sig) = stamps ts seq ps.
Proof. induction ps as [|p ps IH]; intros seq audit sig; [done|]. cbn [txn_items map stamps it_ko]. by rewrite IH. Qed.
Lemma txn_fits_same k r' ms ps created schema_row txn_row : rp_engine r' = rp_engine (k_repo k) -> txn_fits k ms ps created schema_row txn_row -> txn_fits (set_repo k r') ms ps created schema_row txn_row.
Proof. intros He (? & ? & ? & ? & Hf). refine (conj _ (conj _ (conj _ (conj _ _)))); [done.. |]. by apply (commit_fits_same (k_repo k)). Qed.

(** ** Hypotheses: distinct well-formed identifiers, counters with room, a batch that fits *)
Definition txn_key_of (ops : list (KOID * TransactionOp)) (txn_id : option bytes) : option (bytes * bytes) :=
  match txn_id with Some tid => Some (tid, txn_body_fingerprint (map snd ops)) | None => None end.
Definition row_of k ms rs (txn : option (bytes * bytes)) : option (bytes * bytes) :=
  (fun x => (x.1, encode_txn_record x.2 (results_of (hlc_now (k_hlc k) ms) ((p_seq (k_pipe k) + 1) mod U64) rs))) <$> txn.
Definition op_fits k (x : KOID * TransactionOp) : Prop :=
  op_ok x /\ bytes_eqb (type_name (rq_metadata (to_request x.2))) ROLE_TYPE = false /\ bytes_eqb (type_name (rq_metadata (to_request x.2))) POLICY_TYPE = false /\
  forall head, (head_object (op_koid x) (k_repo k)).2 = KOk head -> 0 <= head_version head /\ head_version head + 1 < U64.
Definition transact_fits k auth ms ops txn_id : Prop :=
  Forall (op_fits k) ops /\ zlen ops < 2 ^ 32 /\ scannable (rp_engine (k_repo k)) P_HEAD /\ (forall tid, txn_id = Some tid -> utf8_valid tid = true) /\
  forall rs ps, (prepare cfg auth ops (k_repo k)).2 = KOk (rs, ps) -> txn_fits k ms ps (created_tenants rs) None (row_of k ms rs (txn_key_of ops txn_id)).

(** ** The recorded outcome *)
(** The row of the transaction holds its body and these results, up to the sequence numbers. *)
Definition recorded (s : SpecState) (tid body : bytes) (results : list Remembered) : Prop :=
  exists bs rs, s !! IdTxn tid ≫= as_raw = Some bs /\ decode_txn_record bs = SOk (Some body, rs) /\ map no_seq results = map no_seq rs.
Lemma decode_results_koids count : forall bs, zlen bs = Z.of_nat count * PER_RESULT -> Forall (fun r => koid_ok (rm_koid r) = true) (decode_results count bs).
Proof.
  induction count as [|count IH]; intros bs Hl; [constructor|]. cbn [decode_results]. unfold PER_RESULT, KOID_LEN in *. constructor.
  - cbn [rm_koid]. unfold koid_ok, len_is. cbn [koid_bytes]. apply Z.eqb_eq. rewrite zlen_ztake; unfold KOID_LEN; lia.
  - apply IH. rewrite zlen_zdrop; lia.
Qed.
Lemma record_koids bs body rs : decode_txn_record bs = SOk (body, rs) -> Forall (fun r => koid_ok (rm_koid r) = true) rs.
Proof.
  assert (forall l rs, decode_txn_results l = SOk rs -> Forall (fun r => koid_ok (rm_koid r) = true) rs) as Hd.
  { intros l rs'. unfold decode_txn_results. destruct (zlen l <? 4) eqn:E4; [done|]. destruct (negb _) eqn:El; [done|]. intros [= <-]. apply negb_false_iff, Z.eqb_eq in El. apply Z.ltb_ge in E4.
    pose proof (be_val_range (ztake 4 l)). apply decode_results_koids. pose proof (zlen_nonneg l). rewrite zlen_zdrop, Z2Nat.id; lia. }
  assert (forall l o, match decode_txn_results l with SOk rs => SOk (o, rs) | SErr m => SErr m | SPanic => SPanic end = SOk (body, rs) -> Forall (fun r => koid_ok (rm_koid r) = true) rs) as Hm.
  { intros l o. destruct (decode_txn_results l) as [rs'|?|] eqn:El; [|done..]. intros [= <- <-]. by apply (Hd l). }
  unfold decode_txn_record. destruct bs as [|b bs]; [apply Hm|]. destruct (decide (b = x01)) as [->|Hne].
  - destruct (_ <? 33); [done | apply Hm].
  - intros Hx. destruct b; done || by eapply Hm.
Qed.
Lemma recover_quiet s results : forall (r : Repo E), repo_ok r s -> Forall (fun x => koid_ok (rm_koid x) = true) results ->
  rquiet s (recover_seqs results) (fun rs => map no_seq rs = map no_seq results) r.
Proof.
  induction results as [|x results IH]; intros r Hr Hk; [by apply rquiet_ret|]. inversion_clear Hk as [|? ? Hx Hk']. cbn [recover_seqs].
  eapply rquiet_bind; [by apply rquiet_head|]. intros head r1 _ _ Hr1. eapply rquiet_bind; [by apply (rquiet_lift _ _ (fun _ => True))|]. intros seq r2 _ _ Hr2.
  eapply rquiet_bind; [by apply IH|]. intros rs r3 Hrs _ Hr3. apply rquiet_ret; [done|]. cbn [map]. by rewrite Hrs.
Qed.
Lemma outcome_quiet s (r : Repo E) tid body : repo_ok r s -> utf8_valid tid = true ->
  (s !! IdTxn tid ≫= as_raw = None /\ recorded_outcome tid body r = (r, KOk None)) \/
  (s !! IdTxn tid ≫= as_raw <> None /\ rquiet s (recorded_outcome tid body) (fun o => exists results, o = Some results /\ recorded s tid body results) r).
Proof.
  intros Hr Ht. pose proof Hr as (m & Hm & Hrep & _). pose proof (txn_record_spec _ m s tid Hm Hrep Ht) as Et. unfold recorded_outcome, rquiet.
  destruct (s !! IdTxn tid ≫= as_raw) as [bs|] eqn:Es; unfold mbind, RM_bind, on_engine; rewrite Et; [|by left]. right. split; [done|].
  destruct (decode_txn_record bs) as [[got rs]|e|] eqn:Ed; [|(eexists _, _; split; [reflexivity|]; done)..]. case_bool_decide as Eb; [|(eexists _, _; split; [reflexivity|]; done)].
  destruct (recover_quiet s rs r Hr (record_koids bs got rs Ed)) as (r1 & x & Ex & Ee & Hr1 & Hx). rewrite Ex. destruct x as [res|e|]; [|by eexists _, _..].
  eexists _, _. split; [reflexivity|]. split; [done|]. split; [done|]. intros o [= <-]. exists res. split; [done|]. exists bs, rs. rewrite Es, Ed, Eb. by rewrite (Hx _ eq_refl).
Qed.

(** ** The commit *)
Lemma no_auth_meta s results : forall (r : Repo E), repo_ok r s ->
  Forall (fun x => koid_ok (rm_koid x) = true /\ exists h, spec_head_object s (rm_koid x) = Some h /\
    bytes_eqb (type_name (ko_metadata h)) ROLE_TYPE = false /\ bytes_eqb (type_name (ko_metadata h)) POLICY_TYPE = false) results ->
  exists r', any_auth_meta results r = (r', KOk false) /\ repo_ok r' s.
Proof.
  induction results as [|x results IH]; intros r Hr Ha; [by exists r|]. apply Forall_cons in Ha as [(Hx & h & Hh & H1 & H2) Ha']. cbn [any_auth_meta].
  pose proof Hr as (m & Hm & Hrep & Hc). destruct (head_object_spec s m r (rm_koid x) Hm Hrep Hc Hx) as (r1 & -> & Ee & Hc1). rewrite Hh, H1, H2. apply IH; [|done]. exists m. by rewrite Ee.
Qed.
Lemma checked_written s auth batch x r p ts seq : resolved s x r -> checked cfg s auth batch r p -> tx_written auth x.2 seq (rs_head r) (stamp (pd_ko p) ts seq (pd_kind p)).
Proof.
  intros [Eo _ _ Ec Hv Hkn] [(sec & Hs & ->) _ _ _]. split; cbn [tx_pending pd_ko pd_kind stamp tx_object ko_version ko_metadata ko_properties ko_semantic ko_relationships ko_extensions ko_event_refs ko_lifecycle ko_security]; rewrite ?Eo.
  - by rewrite Ec.
  - intros v Ev. rewrite <-Ec. by apply Hv.
  - exact Hkn.
  - done.
  - by eexists (mkEventRef _ _ _).
  - done.
  - rewrite <-Ec. unfold tx_security, creating in Hs. rewrite Eo in Hs. cbn zeta. destruct (rs_cur r =? 0).
    + destruct (_ && _) eqn:Ea; [done|]. injection Hs as <-. apply andb_false_iff in Ea as [Ea|Ea]; apply negb_false_iff in Ea; [left; by apply bytes_eqb_eq | by right].
    + destruct (rs_head r) as [h|]; [|done]. exists h. split; [done|]. by destruct (authorize _ _ _ _) as [[]|?|].
Qed.

(** What a committed transaction leaves. *)
Record committed (s : SpecState) (base ts : Z) (auth : AuthManager) (ops : list (KOID * TransactionOp)) (results : list Remembered) (s' : SpecState) : Prop := {
  cm_length : length results = length ops;
  cm_distinct : NoDup (map op_koid ops);
  cm_written : forall i x, ops !! i = Some x -> exists ko, spec_head_object s' (op_koid x) = Some ko /\ tx_written auth x.2 (base + Z.of_nat i + 1) (spec_head_object s (op_koid x)) ko /\
    ko_commit_ts ko = ts /\ results !! i = Some (mkRemembered (op_koid x) (ko_version ko) ts (base + Z.of_nat i + 1));
  cm_others : forall x, x ∉ map op_koid ops -> spec_head_object s' x = spec_head_object s x }.
Lemma resolved_koids s ops rs : Forall2 (resolved s) ops rs -> map op_koid ops = map rs_koid rs.
Proof. induction 1 as [|x r ops rs Hx _ IH]; [done|]. cbn [map]. by rewrite IH, (re_koid _ _ _ Hx). Qed.
Lemma checked_koids s auth batch rs ps : Forall2 (checked cfg s auth batch) rs ps -> map (fun p => ko_koid (pd_ko p)) ps = map rs_koid rs.
Proof. induction 1 as [|r p rs ps Hp _ IH]; [done|]. cbn [map]. destruct (ck_pending _ _ _ _ _ _ Hp) as (sec & _ & ->). by rewrite IH. Qed.
Lemma batch_committed k s evs auth ms ops rs ps created schema_row txn_row :
  kernel_ok k s evs -> prepared cfg s auth ops rs ps -> p_seq (k_pipe k) + zlen ps < U64 ->
  committed s (p_seq (k_pipe k)) (hlc_now (k_hlc k) ms) auth ops (results_of (hlc_now (k_hlc k) ms) ((p_seq (k_pipe k) + 1) mod U64) rs)
    (spec_commit s (txn_edits_at hmac_sha256 signer signing_key k ms ps created schema_row txn_row)).
Proof.
  intros Hok [Hre Hnd Hch] Hq. pose proof (resolved_koids s ops rs Hre) as Eko. pose proof (checked_koids s auth _ rs ps Hch) as Ekp. destruct (ok_seq _ _ _ _ _ Hok) as [Es _]. pose proof (zlen_nonneg evs).
  pose proof (Forall2_length _ _ _ Hre) as L1. pose proof (Forall2_length _ _ _ Hch) as L2. assert (zlen rs = zlen ps) as L2' by (unfold zlen; lia).
  destruct (txn_heads hmac_sha256 signer signing_key k s evs ms ps created schema_row txn_row Hok Hq ltac:(by rewrite Ekp)) as [Hin Hout].
  set (ts := hlc_now (k_hlc k) ms) in *. set (base := p_seq (k_pipe k)) in *. pose proof (zlen_nonneg ps).
  assert (forall i, rs !! i <> None -> (base + 1) mod U64 = base + 1) as Emod by (intros i Hi%not_eq_None_Some%lookup_lt_is_Some; rewrite Z.mod_small; unfold zlen in *; lia).
  split.
  - rewrite L1. generalize ((base + 1) mod U64). clear. induction rs as [|r rs IH]; intros seq; [done|]. cbn [results_of length]. by rewrite IH.
  - by rewrite Eko.
  - intros i x Hi. destruct (Forall2_lookup_l _ _ _ _ _ Hre Hi) as (r & Hr & Hx). destruct (Forall2_lookup_l _ _ _ _ _ Hch Hr) as (p & Hp & Hc).
    pose proof (Emod i ltac:(by rewrite Hr)) as Em. pose proof (checked_written s auth _ x r p ts (base + Z.of_nat i + 1) Hx Hc) as Hw.
    assert (rs_koid r = op_koid x) as Ek by apply (re_koid _ _ _ Hx). rewrite <-Ek. rewrite <-(re_head _ _ _ Hx). exists (stamp (pd_ko p) ts (base + Z.of_nat i + 1) (pd_kind p)).
    pose proof (stamps_lookup ts ps (base + 1) i p ltac:(lia) ltac:(lia) Hp) as Hst. replace (base + 1 + Z.of_nat i) with (base + Z.of_nat i + 1) in Hst by lia.
    pose proof (items_stamps ts ps ((base + 1) mod U64) (p_audit (k_pipe k)) (p_prev_sig (k_pipe k))) as Eit. rewrite Em in Eit. rewrite <-Eit in Hst. apply list_lookup_fmap_Some in Hst as (it & Eit' & Hit).
    assert (ko_koid (pd_ko p) = rs_koid r) as Ekp' by (by destruct (ck_pending _ _ _ _ _ _ Hc) as (sec & _ & ->)).
    split; [|split; [done | split; [done|]]].
    + rewrite <-Ekp'. change (ko_koid (pd_ko p)) with (ko_koid (stamp (pd_ko p) ts (base + Z.of_nat i + 1) (pd_kind p))). rewrite Eit'. apply Hin. unfold items_at. fold ts base. rewrite Em. by apply list_elem_of_lookup_2 in Hit.
    + rewrite Em, results_lookup, Hr by lia. cbn [fmap option_fmap option_map]. rewrite (tw_version _ _ _ _ _ Hw), (re_cur _ _ _ Hx). do 2 f_equal. lia.
  - intros x Hx. apply Hout. by rewrite Ekp, <-Eko.
Qed.

Lemma all_valid (ps : list Pending) : Forall (fun p => ko_validate (pd_ko p) = KOk tt) ps \/ exists p, p ∈ ps /\ ko_validate (pd_ko p) <> KOk tt.
Proof.
  induction ps as [|p ps [IH|(q & Hq & Hv)]]; [by left | | right; exists q; by split; [right|]].
  destruct (ko_validate (pd_ko p)) as [[]|e|] eqn:Ev; [by left; constructor | right; exists p; split; [by left | congruence]..].
Qed.
(** A prepared transaction commits its batch, or is refused for an object that is not valid. *)
Lemma commit_prepared_cases k s evs auth ms ops rs ps txn :
  kernel_ok k s evs -> prepared cfg s auth ops rs ps -> Forall (fun x => op_ok x /\ bytes_eqb (type_name (rq_metadata (to_request x.2))) ROLE_TYPE = false /\
    bytes_eqb (type_name (rq_metadata (to_request x.2))) POLICY_TYPE = false) ops -> txn_fits k ms ps (created_tenants rs) None (row_of k ms rs txn) ->
  let results := results_of (hlc_now (k_hlc k) ms) ((p_seq (k_pipe k) + 1) mod U64) rs in
  (exists k' e, commit_prepared auth ms rs ps None txn k = (k', KErr e) /\ kernel_ok k' s evs /\ k_pipe k' = k_pipe k) \/
  (exists k' s' evs', commit_prepared auth ms rs ps None txn k = (k', KOk (results, false, auth)) /\ kernel_ok k' s' evs' /\
     committed s (p_seq (k_pipe k)) (hlc_now (k_hlc k) ms) auth ops results s' /\
     (forall t, fst <$> txn <> Some t -> s' !! IdTxn t = s !! IdTxn t) /\
     forall tid body, txn = Some (tid, body) -> s' !! IdTxn tid = Some (VRaw (encode_txn_record body results))).
Proof.
  intros Hok Hp Ho Hf results. pose proof Hf as (_ & _ & Hq & _). unfold Transact.commit_prepared. rewrite km_bind. cbn [kget]. rewrite km_bind. cbn [kget]. fold (row_of k ms rs txn). fold results.
  change ((fun s => (sc_type_name s, encode_schema s)) <$> @None Schema) with (@None (bytes * bytes)).
  destruct (all_valid ps) as [Hv|(p & Hp' & Hv)].
  - right. destruct (transact_commit_ok hmac_sha256 signer signing_key k s evs ms ps (created_tenants rs) None (row_of k ms rs txn) Hok Hf Hv) as (k2 & E2 & Hok2).
    pose proof (batch_committed k s evs auth ms ops rs ps (created_tenants rs) None (row_of k ms rs txn) Hok Hp Hq) as Hc. fold results in Hc. set (s' := spec_commit s _) in *.
    destruct (no_auth_meta s' results (k_repo k2) (ok_repo _ _ _ _ _ Hok2)) as (r3 & E3 & Hr3).
    { apply Forall_lookup. intros i res Hres. pose proof (lookup_lt_Some _ _ _ Hres) as Hlt. rewrite (cm_length _ _ _ _ _ _ _ Hc) in Hlt. apply lookup_lt_is_Some in Hlt as [x Hx].
      rewrite Forall_lookup in Ho. destruct (Ho i x Hx) as ([Hk _] & H1 & H2). destruct (cm_written _ _ _ _ _ _ _ Hc i x Hx) as (ko & Hko & Hw & _ & Er). rewrite Hres in Er. injection Er as ->. cbn [rm_koid].
      split; [done|]. exists ko. split; [done|]. by rewrite (proj1 (tw_body _ _ _ _ _ Hw)). }
    exists (set_repo k2 r3), s', (evs ++ map it_ke (items_at hmac_sha256 signer signing_key k ms ps)).
    rewrite km_bind, E2. rewrite km_bind. unfold on_repo at 1. rewrite E3. rewrite km_bind. split; [done|].
    split; [by apply kernel_ok_repo|]. split; [exact Hc|]. split; [intros t Ht; apply txn_rows_other; by destruct txn as [[? ?]|] | intros tid body ->; apply txn_row_kept].
  - left. destruct (transact_commit_err hmac_sha256 signer signing_key k s evs ms ps (created_tenants rs) None (row_of k ms rs txn) p Hok Hf Hp' Hv) as (k2 & e & E2 & Hok2 & Hpipe).
    exists k2, e. rewrite km_bind, E2. done.
Qed.

(** A transaction is refused or replayed, or commits its batch. *)
Lemma transact_cases k s evs auth ms ops txn_id : kernel_ok k s evs -> transact_fits k auth ms ops txn_id ->
  (exists k' x, transact_inner auth ms ops None txn_id k = (k', x) /\ kernel_ok k' s evs /\ k_pipe k' = k_pipe k /\
     forall a, x = KOk a -> exists tid results, txn_id = Some tid /\ a = (results, true, auth) /\ recorded s tid (txn_body_fingerprint (map snd ops)) results) \/
  (exists k' s' evs' results, transact_inner auth ms ops None txn_id k = (k', KOk (results, false, auth)) /\ kernel_ok k' s' evs' /\
     committed s (p_seq (k_pipe k)) (hlc_now (k_hlc k) ms) auth ops results s' /\
     (forall t, txn_id <> Some t -> s' !! IdTxn t = s !! IdTxn t) /\
     forall tid, txn_id = Some tid -> s !! IdTxn tid ≫= as_raw = None /\ 0 <= hlc_now (k_hlc k) ms < U64 /\
       s' !! IdTxn tid = Some (VRaw (encode_txn_record (txn_body_fingerprint (map snd ops)) results))).
Proof.
  intros Hok (Ho & _ & Hp & Hu & Hfit). unfold Transact.transact_inner. destruct (match ops, txn_id with [], None => true | _, _ => false end) eqn:Ee.
  { right. destruct ops, txn_id; try done. exists k, s, evs, []. split; [done|]. split; [done|]. split; [|done]. split; [done | constructor | by intros ? ? ? | done]. }
  clear Ee. change (match txn_id with Some tid => Some (tid, txn_body_fingerprint (map snd ops)) | None => None end) with (txn_key_of ops txn_id).
  assert (Forall op_ok ops /\ Forall (fun x => op_ok x /\ bytes_eqb (type_name (rq_metadata (to_request x.2))) ROLE_TYPE = false /\ bytes_eqb (type_name (rq_metadata (to_request x.2))) POLICY_TYPE = false) ops) as [Ho1 Ho2]
    by (split; (eapply Forall_impl; [exact Ho|]); intros x (? & ? & ? & _); done).
  assert ((txn_key_of ops txn_id = None \/ exists tid, txn_id = Some tid /\ s !! IdTxn tid ≫= as_raw = None /\ recorded_outcome tid (txn_body_fingerprint (map snd ops)) (k_repo k) = (k_repo k, KOk None)) \/
    exists tid, txn_id = Some tid /\ rquiet s (recorded_outcome tid (txn_body_fingerprint (map snd ops))) (fun o => exists results, o = Some results /\ recorded s tid (txn_body_fingerprint (map snd ops)) results) (k_repo k)) as [Hnew|(tid & -> & Hq)].
  { destruct txn_id as [tid|]; [|by left; left]. destruct (outcome_quiet s (k_repo k) tid (txn_body_fingerprint (map snd ops)) (ok_repo _ _ _ _ _ Hok) (Hu tid eq_refl)) as [[? ?]|[_ ?]]; [left; right; by exists tid | right; by exists tid]. }
  - assert ((match txn_key_of ops txn_id with Some (tid, body) => on_repo (recorded_outcome tid body) | None => mret None end) k = (k, KOk None)) as E1.
    { destruct Hnew as [->|(tid & -> & _ & Er)]; [done|]. cbn [txn_key_of]. unfold on_repo. rewrite Er. by rewrite set_repo_same. }
    rewrite km_bind, E1. destruct (prepare_quiet cfg s auth ops (k_repo k) Ho1 (ok_repo _ _ _ _ _ Hok) (ok_heads _ _ _ _ _ Hok) Hp) as (r2 & x & E2 & Ee2 & Hr2 & Hx).
    pose proof (kernel_ok_repo _ _ k s evs r2 Hok Hr2) as Hok2. assert (on_repo (prepare cfg auth ops) k = (set_repo k r2, x)) as Eo by (unfold on_repo; by rewrite E2). rewrite km_bind, Eo.
    destruct x as [[rs ps]|e|]; [|left; by eexists _, _; (split; [reflexivity|])..]. specialize (Hx _ eq_refl). cbn [fst snd] in Hx. rewrite E2 in Hfit. specialize (Hfit rs ps eq_refl).
    pose proof (txn_fits_same k r2 ms ps _ _ _ Ee2 Hfit) as Hfit2. destruct (commit_prepared_cases (set_repo k r2) s evs auth ms ops rs ps (txn_key_of ops txn_id) Hok2 Hx Ho2 Hfit2)
      as [(k' & e & Ec & Hok' & Hpipe)|(k' & s' & evs' & Ec & Hok' & Hc & Hoth & Hrow)]; [left; exists k', (KErr e); split; [exact Ec|]; done|].
    right. eexists k', s', evs', _. split; [exact Ec|]. split; [done|]. split; [exact Hc|]. split; [intros t Ht; apply Hoth; destruct txn_id; cbn; congruence|]. intros tid ->. destruct Hnew as [?|(tid' & [= <-] & Hn & _)]; [done|]. split; [done|].
    split; [|by apply Hrow]. destruct Hfit as (Hms & Hh & _). pose proof (hlc_now_later (k_hlc k) ms ltac:(apply Hok) Hh Hms) as Hl. pose proof (ok_hlc _ _ _ _ _ Hok). lia.
  - left. destruct Hq as (r1 & x & Er & _ & Hr1 & Hx). pose proof (kernel_ok_repo _ _ k s evs r1 Hok Hr1) as Hok1. cbn [txn_key_of].
    assert (on_repo (recorded_outcome tid (txn_body_fingerprint (map snd ops))) k = (set_repo k r1, x)) as Eo by (unfold on_repo; by rewrite Er). rewrite km_bind, Eo.
    destruct x as [o|e|]; [|by eexists _, _; (split; [reflexivity|])..]. destruct (Hx o eq_refl) as (results & -> & Hrec). eexists _, _. split; [reflexivity|]. split; [done|]. split; [done|].
    intros a [= <-]. by exists tid, results.
Qed.

(** C7: a transaction is all or nothing.  A refused one (an object missing, at another version
    or named twice, no permission, a missing target, a violated schema, uniqueness, ontology or
    deferred constraint, an invalid object) and the replay of a recorded one leave every head
    and the journal as they were, the replay returning the recorded outcome.  A committed one
    leaves, for every operation, the next version of its object with the request's content,
    at the one commit time of the batch and at consecutive places of the journal, in the order
    of the operations, and reports exactly that; no other object changes; each object was at
    the version its operation expected, and its author could write it. *)
Theorem transact_exact k s evs auth ms ops txn_id :
  kernel_ok k s evs -> transact_fits k auth ms ops txn_id ->
  match transact_inner auth ms ops None txn_id k with
  | (k', KOk (results, true, auth')) => auth' = auth /\ reads_same k k' /\ exists tid, txn_id = Some tid /\ recorded s tid (txn_body_fingerprint (map snd ops)) results
  | (k', KOk (results, false, auth')) => auth' = auth /\ length results = length ops /\ NoDup (map op_koid ops) /\
      (forall i x, ops !! i = Some x -> let seq := p_seq (k_pipe k) + Z.of_nat i + 1 in exists head ko,
         (head_object (op_koid x) (k_repo k)).2 = KOk head /\ (head_object (op_koid x) (k_repo k')).2 = KOk (Some ko) /\ tx_written auth x.2 seq head ko /\
         ko_commit_ts ko = hlc_now (k_hlc k) ms /\ results !! i = Some (mkRemembered (op_koid x) (ko_version ko) (ko_commit_ts ko) seq)) /\
      forall x, koid_ok x = true -> x ∉ map op_koid ops -> (head_object x (k_repo k')).2 = (head_object x (k_repo k)).2
  | (k', _) => reads_same k k'
  end.
Proof.
  intros Hok Hf. destruct (transact_cases k s evs auth ms ops txn_id Hok Hf) as [(k' & x & -> & Hok' & Hp & Hx)|(k' & s' & evs' & results & -> & Hok' & Hc & _)].
  - assert (reads_same k k') as Hr by (split; [done|]; intros y Hy; by rewrite (head_object_is _ _ _ _ _ _ Hok' Hy), (head_object_is _ _ _ _ _ _ Hok Hy)).
    destruct x as [a|e|]; [|done..]. destruct (Hx a eq_refl) as (tid & results & -> & -> & Hrec). split; [done|]. split; [done|]. by exists tid.
  - split; [done|]. split; [apply Hc|]. split; [apply Hc|]. split.
    + intros i x Hi. cbn zeta. destruct (cm_written _ _ _ _ _ _ _ Hc i x Hi) as (ko & Hko & Hw & Et & Er). destruct Hf as (Ho & _). rewrite Forall_lookup in Ho. destruct (Ho i x Hi) as ([Hk _] & _).
      exists (spec_head_object s (op_koid x)), ko. rewrite (head_object_is _ _ _ _ _ _ Hok Hk), (head_object_is _ _ _ _ _ _ Hok' Hk), Hko, Et. done.
    + intros x Hx Hn. by rewrite (head_object_is _ _ _ _ _ _ Hok Hx), (head_object_is _ _ _ _ _ _ Hok' Hx), (cm_others _ _ _ _ _ _ _ Hc).
Qed.

(** ** Retries *)
(** The head of a result names the result's place in the journal. *)
Definition placed (s : SpecState) (x : Remembered) : Prop :=
  koid_ok (rm_koid x) = true /\ exists h ref, spec_head_object s (rm_koid x) = Some h /\ rm_version x <> 0 /\ ko_event_refs h !! Z.to_nat (rm_version x - 1) = Some ref /\ er_seq ref = rm_journal_seq x.
Lemma recover_exact s results : forall (r : Repo E), repo_ok r s -> Forall (placed s) results -> exists r', recover_seqs (map no_seq results) r = (r', KOk results) /\ repo_ok r' s.
Proof.
  induction results as [|x results IH]; intros r Hr Ha; [by exists r|]. apply Forall_cons in Ha as [(Hx & h & ref & Hh & Hv & Href & Es) Ha']. cbn [map recover_seqs].
  pose proof Hr as (m & Hm & Hrep & Hc). destruct (head_object_spec s m r (rm_koid x) Hm Hrep Hc Hx) as (r1 & E1 & Ee & Hc1). rewrite Hh in E1.
  destruct (IH r1) as (r2 & E2 & Hr2); [exists m; by rewrite Ee | done|]. exists r2. split; [|done]. unfold mbind, RM_bind. cbn [no_seq rm_koid rm_version rm_commit_ts]. rewrite E1. unfold lift.
  rewrite (proj2 (Z.eqb_neq _ _) Hv), Href. cbn [fmap option_fmap option_map default]. rewrite E2. cbn. rewrite Es. by destruct x.
Qed.
Lemma committed_placed s base ts auth ops results s' : committed s base ts auth ops results s' -> Forall (fun x => koid_ok (op_koid x) = true) ops -> 0 <= ts < U64 ->
  (forall x, x ∈ ops -> 0 <= head_version (spec_head_object s (op_koid x)) /\ head_version (spec_head_object s (op_koid x)) + 1 < U64) ->
  (forall x h, x ∈ ops -> spec_head_object s (op_koid x) = Some h -> zlen (ko_event_refs h) = ko_version h) ->
  Forall (placed s') results /\ Forall (fun r => result_ok r = true) results.
Proof.
  intros Hc Hk Hts Hv Hn. rewrite Forall_lookup in Hk. split; apply Forall_lookup; intros i res Hres; pose proof (lookup_lt_Some _ _ _ Hres) as Hlt; rewrite (cm_length _ _ _ _ _ _ _ Hc) in Hlt;
    apply lookup_lt_is_Some in Hlt as [x Hx]; pose proof (list_elem_of_lookup_2 _ _ _ Hx) as Hin; destruct (cm_written _ _ _ _ _ _ _ Hc i x Hx) as (ko & Hko & Hw & _ & Er); rewrite Hres in Er; injection Er as ->;
    specialize (Hv x Hin); specialize (Hk i x Hx); pose proof (tw_version _ _ _ _ _ Hw) as Ev; rewrite Z.mod_small in Ev by lia.
  - split; [done|]. cbn [rm_koid rm_version rm_journal_seq]. destruct (tw_events _ _ _ _ _ Hw) as (ref & Es & Eref). exists ko, ref. split; [done|]. split; [lia|]. split; [|done].
    rewrite Eref, Ev. replace (head_version _ + 1 - 1) with (head_version (spec_head_object s (op_koid x))) by lia. apply list_lookup_middle.
    destruct (spec_head_object s (op_koid x)) as [h|] eqn:Eh; [|done]. cbn [head_version] in *. specialize (Hn x h Hin Eh). unfold zlen in Hn. lia.
  - unfold result_ok. cbn [rm_koid rm_version rm_commit_ts]. change (len_is KOID_LEN (koid_bytes (op_koid x))) with (koid_ok (op_koid x)). rewrite Hk. unfold fits_in. rewrite !andb_true_iff, !Z.leb_le, !Z.ltb_lt. lia.
Qed.

(** What the kernel does after a commit: single writes, epistemic transitions, transactions
    under other identifiers (or none), each accepted or refused. *)
Inductive LaterOp : Type :=
  | LWrite (auth : AuthManager) (minted : KOID) (ms : Z) (req : RememberRequest)
  | LMove (auth : AuthManager) (subject : Subject) (clock ms : Z) (koid : KOID) (to : EpistemicStatus.t) (origin : Origin.t) (superseded_by : option KOID) (expected : option Z)
      (actor : bytes) (reason : option bytes) (predecessor_valid_to : option Z)
  | LTransact (auth : AuthManager) (ms : Z) (ops : list (KOID * TransactionOp)) (txn_id : option bytes).
Definition later_op k (op : LaterOp) : Kernel E :=
  match op with
  | LWrite auth minted ms req => (remember hmac_sha256 signer signing_key cfg auth minted ms req k).1
  | LMove auth subject clock ms koid to origin superseded_by expected actor reason pv =>
      (transition_epistemic hmac_sha256 signer signing_key (authorize auth subject) clock ms koid to origin superseded_by expected actor reason pv k).1
  | LTransact auth ms ops txn_id => (transact_inner auth ms ops None txn_id k).1
  end.
Definition later_fits (tid : bytes) k (op : LaterOp) : Prop :=
  match op with
  | LWrite auth minted ms req => remember_fits hmac_sha256 signer signing_key k auth minted ms req
  | LMove auth subject clock ms koid to origin superseded_by expected actor reason pv => epistemic_fits hmac_sha256 signer signing_key k clock ms koid to origin superseded_by actor reason pv
  | LTransact auth ms ops txn_id => transact_fits k auth ms ops txn_id /\ txn_id <> Some tid
  end.
Fixpoint laters_fit (tid : bytes) k (later : list LaterOp) : Prop :=
  match later with [] => True | op :: later => later_fits tid k op /\ laters_fit tid (later_op k op) later end.
Definition run_later k (later : list LaterOp) : Kernel E := fold_left later_op later k.

Lemma head_maps head : ko_wf head = true -> map_wf (ko_extensions head) = true.
Proof. unfold ko_wf. intros Hw. bool_to_prop; destruct_and?; done. Qed.

(** The record stays and the histories grow. *)
Definition grows (tid : bytes) (s s' : SpecState) : Prop :=
  s' !! IdTxn tid = s !! IdTxn tid /\
  forall x h, spec_head_object s x = Some h -> exists h', spec_head_object s' x = Some h' /\ ko_event_refs h `prefix_of` ko_event_refs h'.
Lemma grows_refl tid s : grows tid s s.
Proof. split; [done|]. intros x h Hh. by exists h. Qed.
Lemma grows_trans tid s1 s2 s3 : grows tid s1 s2 -> grows tid s2 s3 -> grows tid s1 s3.
Proof.
  intros [E1 H1] [E2 H2]. split; [congruence|]. intros x h Hh. destruct (H1 x h Hh) as (h2 & Hh2 & P1). destruct (H2 x h2 Hh2) as (h3 & Hh3 & P2). exists h3. split; [done|]. by etrans.
Qed.
Lemma grows_write tid s s' koid ko : s' !! IdTxn tid = s !! IdTxn tid -> (forall x, spec_head_object s' x = if bool_decide (x = koid) then Some ko else spec_head_object s x) ->
  (forall h, spec_head_object s koid = Some h -> ko_event_refs h `prefix_of` ko_event_refs ko) -> grows tid s s'.
Proof.
  intros Et Hs Hp. split; [done|]. intros x h Hh. rewrite Hs. case_bool_decide as Ex; [subst x; exists ko; by auto | by exists h].
Qed.
Lemma later_grows tid k s evs op : kernel_ok k s evs -> later_fits tid k op -> exists s' evs', kernel_ok (later_op k op) s' evs' /\ grows tid s s'.
Proof.
  intros Hok Hf. destruct op as [auth minted ms req|auth subject clock ms koid to origin superseded_by expected actor reason pv|auth ms ops txn_id]; cbn [later_op later_fits] in *.
  - unfold remember. destruct (existsb _ _); [exists s, evs; split; [done | apply grows_refl]|].
    destruct (remember_cases hmac_sha256 signer signing_key cfg k s evs auth minted ms req Hok Hf) as [(r' & x & -> & Hok' & _)|(_ & head & ko & k' & s' & evs' & ts & Ha & -> & Hok' & Htx & Hh)];
      [exists s, evs; split; [done | apply grows_refl]|]. exists s', evs'. split; [done|]. eapply grows_write; [apply Htx | exact Hh|]. intros h Eh. rewrite <-(ad_head _ _ _ _ _ _ _ Ha) in Eh. subst head.
    destruct (ad_object _ _ _ _ _ _ _ Ha) as (ext & sec & _ & _ & ->). cbn [stamp ko_event_refs request_object]. by apply prefix_app_r.
  - destruct (transition_cases hmac_sha256 signer signing_key (authorize auth subject) k s evs clock ms koid to origin superseded_by expected actor reason pv Hok Hf)
      as (r' & Hok' & _ & [(x & -> & _)|(head & ko & Es & _ & Et & Ev & Hfit & ->)]); [exists s, evs; split; [done | apply grows_refl]|].
    rewrite km_bind. destruct (commit_version_ok hmac_sha256 signer signing_key (set_repo k r') s evs ms ko _ origin actor reason _ _ _ Hok' Ev Hfit) as (k' & -> & Hok'' & _). cbn [mret KM_ret fst].
    eexists _, _. split; [exact Hok''|]. destruct Hf as (_ & _ & Hcl & _). destruct (head_wf _ _ _ _ _ _ _ Hok Es) as [Hw Hko].
    destruct (transitioned_kept _ _ _ _ _ _ _ _ (head_maps head Hw) Hcl Et) as [_ Hrefs]. destruct (transitioned_ok clock head to superseded_by pv actor reason (head_maps head Hw) Hcl) as (ko' & Et' & Hm).
    rewrite Et in Et'. injection Et' as <-. eapply (grows_write _ _ _ koid).
    + apply (commit_txn_rows hmac_sha256 signer signing_key (set_repo k r')).
    + intros x. rewrite commit_head_object. by rewrite (moved_koid _ _ _ _ _ _ Hm), Hko.
    + intros h Eh. assert (h = head) as -> by congruence. unfold stamped. cbn [stamp ko_event_refs]. rewrite Hrefs. by apply prefix_app_r.
  - destruct Hf as [Hf Hne]. destruct (transact_cases k s evs auth ms ops txn_id Hok Hf) as [(k' & x & -> & Hok' & _)|(k' & s' & evs' & results & -> & Hok' & Hc & Hoth & _)];
      [exists s, evs; split; [done | apply grows_refl]|]. exists s', evs'. split; [done|]. split; [by apply Hoth|]. intros x h Hh.
    destruct (decide (x ∈ map op_koid ops)) as [Hx|Hx]; [|exists h; by rewrite (cm_others _ _ _ _ _ _ _ Hc)]. apply list_elem_of_fmap in Hx as (o & -> & Ho). apply list_elem_of_lookup in Ho as [i Hi].
    destruct (cm_written _ _ _ _ _ _ _ Hc i o Hi) as (ko & Hko & Hw & _). exists ko. split; [done|]. destruct (tw_events _ _ _ _ _ Hw) as (ref & _ & Er). rewrite Er, Hh. by apply prefix_app_r.
Qed.
Lemma run_grows tid later : forall k s evs, kernel_ok k s evs -> laters_fit tid k later -> exists s' evs', kernel_ok (run_later k later) s' evs' /\ grows tid s s'.
Proof.
  induction later as [|op later IH]; intros k s evs Hok Hf; [exists s, evs; split; [done | apply grows_refl]|]. destruct Hf as [Hf Hfs].
  destruct (later_grows tid k s evs op Hok Hf) as (s1 & evs1 & Hok1 & Hg1). destruct (IH _ s1 evs1 Hok1 Hfs) as (s2 & evs2 & Hok2 & Hg2). exists s2, evs2. split; [exact Hok2 | by eapply grows_trans].
Qed.
Lemma grows_placed tid s s' x : grows tid s s' -> placed s x -> placed s' x.
Proof.
  intros [_ Hg] (Hk & h & ref & Hh & Hv & Hr & Es). split; [done|]. destruct (Hg _ h Hh) as (h' & Hh' & Hp). exists h', ref. split_and!; try done. by eapply prefix_lookup_Some.
Qed.

(** C9: a transaction takes effect once.  After a transaction with an identifier has
    committed, and after any further writes, epistemic transitions and transactions under other
    identifiers, accepted or refused, also of the same objects, committing under the same
    identifier changes no head and no journal position: with the same body it returns the
    results of the first commit, sequence numbers included, at whatever time and under whatever
    authorization it is retried; with another body it is refused.  Provided that at the first
    commit every object it updates had one event reference per version, as every write leaves
    it, and that no object it wrote has been forgotten since (the retry reads the sequence
    numbers off their heads). *)
Theorem retry_exact k s evs auth ms ops tid k1 results later auth2 ms2 ops2 :
  kernel_ok k s evs -> transact_fits k auth ms ops (Some tid) ->
  (forall x h, x ∈ ops -> (head_object (op_koid x) (k_repo k)).2 = KOk (Some h) -> zlen (ko_event_refs h) = ko_version h) ->
  transact_inner auth ms ops None (Some tid) k = (k1, KOk (results, false, auth)) -> laters_fit tid k1 later ->
  exists k2, reads_same (run_later k1 later) k2 /\ transact_inner auth2 ms2 ops2 None (Some tid) (run_later k1 later) =
    (k2, if bool_decide (txn_body_fingerprint (map snd ops2) = txn_body_fingerprint (map snd ops)) then KOk (results, true, auth2)
         else KErr (InvalidObject "transaction id already committed with a different body")).
Proof.
  intros Hok Hf Hn He Hl2. pose proof Hf as (Ho & Hlen & _ & Hu & _). specialize (Hu tid eq_refl).
  destruct (transact_cases k s evs auth ms ops (Some tid) Hok Hf) as [(k' & x & Ex & _ & _ & Hx)|(k' & s' & evs' & res & Ex & Hok' & Hc & _ & Hrow)];
    rewrite Ex in He; injection He as ? ?; subst; [by destruct (Hx _ eq_refl) as (? & ? & _ & ? & _)|].
  destruct (Hrow tid eq_refl) as (_ & Hts & Hput). clear Hrow Ex. rewrite Forall_forall in Ho. destruct (committed_placed _ _ _ _ _ _ _ Hc) as [Hpl Hres]; [| done | | |].
  { apply Forall_forall. intros x Hx. apply (Ho x Hx). }
  { intros x Hx. destruct (Ho x Hx) as ([Hk _] & _ & _ & Hv). apply Hv. by apply (head_object_is _ _ _ _ _ _ Hok). }
  { intros x h Hx Hh. destruct (Ho x Hx) as ([Hk _] & _). apply (Hn x h Hx). rewrite <-Hh. by apply (head_object_is _ _ _ _ _ _ Hok). }
  destruct (run_grows tid later k1 s' evs' Hok' Hl2) as (s2 & evs2 & Hok2 & Hg). set (kl := run_later k1 later) in *.
  assert (Forall (placed s2) results) as Hpl2 by (eapply Forall_impl; [exact Hpl | intros x; by apply (grows_placed tid)]). rewrite <-(proj1 Hg) in Hput.
  assert (zlen results < 2 ^ 32) as Hl by (unfold zlen in *; rewrite (cm_length _ _ _ _ _ _ _ Hc); done).
  pose proof (txn_record_roundtrip (txn_body_fingerprint (map snd ops)) results (sha256_len _) Hl Hres) as Hd. pose proof (ok_repo _ _ _ _ _ Hok2) as Hr. pose proof Hr as (m & Hm & Hrep & _).
  pose proof (txn_record_spec _ m s2 tid Hm Hrep Hu) as Et. rewrite Hput in Et. cbn [mbind option_bind as_raw] in Et. destruct (recover_exact s2 results (k_repo kl) Hr Hpl2) as (r2 & E2 & Hr2).
  assert (on_repo (recorded_outcome tid (txn_body_fingerprint (map snd ops2))) kl =
    if bool_decide (txn_body_fingerprint (map snd ops2) = txn_body_fingerprint (map snd ops)) then (set_repo kl r2, KOk (Some results))
    else (kl, KErr (InvalidObject "transaction id already committed with a different body"))) as Eo.
  { unfold on_repo, recorded_outcome, mbind, RM_bind, on_engine. rewrite Et, Hd. case_bool_decide as Eb; [rewrite bool_decide_true by congruence; by rewrite E2|].
    rewrite bool_decide_false by congruence. unfold lift. by rewrite set_repo_same. }
  unfold Transact.transact_inner. replace (match ops2 with [] => false | _ => false end) with false by (by destruct ops2). rewrite km_bind. rewrite Eo.
  case_bool_decide; [exists (set_repo kl r2); split; [|done]; apply (reads_same_cache hmac_sha256 signing_key kl s2 evs2); [done|]; by apply kernel_ok_repo | by exists kl].
Qed.

(** C10: the first committer wins.  Of two transactions that write the same object and were
    prepared against the same version of it, the one that comes second never commits: it is
    refused, or is the replay of an earlier outcome, and every head and the journal stay as
    the first left them. *)
Theorem first_committer_wins k s evs auth ms ops id k1 results auth2 ms2 ops2 id2 x1 x2 v :
  kernel_ok k s evs -> transact_fits k auth ms ops id -> transact_inner auth ms ops None id k = (k1, KOk (results, false, auth)) ->
  transact_fits k1 auth2 ms2 ops2 id2 -> x1 ∈ ops -> x2 ∈ ops2 -> op_koid x1 = op_koid x2 ->
  rq_expected_version (to_request x1.2) = Some v -> rq_expected_version (to_request x2.2) = Some v ->
  match transact_inner auth2 ms2 ops2 None id2 k1 with (_, KOk (_, false, _)) => False | (k2, _) => reads_same k1 k2 end.
Proof.
  intros Hok Hf He Hf2 [i Hx1]%list_elem_of_lookup [j Hx2]%list_elem_of_lookup Ek Hv1 Hv2. pose proof Hf as (Ho & _). rewrite Forall_lookup in Ho. destruct (Ho i x1 Hx1) as ([Hk _] & _ & _ & Hb).
  specialize (Hb _ (head_object_is _ _ _ _ _ _ Hok Hk)).
  destruct (transact_cases k s evs auth ms ops id Hok Hf) as [(k' & x & Ex & _ & _ & Hx)|(k' & s' & evs' & res & Ex & Hok' & Hc & _)];
    rewrite Ex in He; injection He as ? ?; subst; [by destruct (Hx _ eq_refl) as (? & ? & _ & ? & _)|].
  destruct (cm_written _ _ _ _ _ _ _ Hc i x1 Hx1) as (ko & Hko & Hw & _). pose proof (tw_version _ _ _ _ _ Hw) as Ev. rewrite Z.mod_small in Ev by lia. pose proof (tw_expected _ _ _ _ _ Hw v Hv1) as Hv.
  destruct (transact_cases k1 s' evs' auth2 ms2 ops2 id2 Hok' Hf2) as [(k2 & y & -> & Hok2 & Hp2 & Hy)|(k2 & s2 & evs2 & res2 & _ & _ & Hc2 & _)].
  - assert (reads_same k1 k2) by (split; [done|]; intros z Hz; by rewrite (head_object_is _ _ _ _ _ _ Hok2 Hz), (head_object_is _ _ _ _ _ _ Hok' Hz)).
    destruct y as [a|?|]; [|done..]. by destruct (Hy a eq_refl) as (? & ? & _ & -> & _).
  - exfalso. destruct (cm_written _ _ _ _ _ _ _ Hc2 j x2 Hx2) as (ko2 & _ & Hw2 & _). pose proof (tw_expected _ _ _ _ _ Hw2 v Hv2) as Hv'. rewrite <-Ek, Hko in Hv'. cbn [head_version] in Hv'. lia.
Qed.
End Transact.
