(* ===== verification/TransactWitness.v ===== *)
(** Transactions run on a concrete kernel, and the places where a write in a transaction
    escapes what a single write is held to. *)

From Stdlib Require Import String.
From stdpp Require Import gmap.
From S2P Require Import Prelude Format Memtable Kom Codec CodecProps Store Repository RepositorySpec RepositoryReads RepositoryRebuild Commit CommitInv CommitOps CommitRun Epistemic CommitTxn CommitProps CommitEdges CommitWitness Auth AuthProps Expr Schema Constraint Ontology Remember RememberProps Conformance RememberWitness Transact TransactProps.

#[local] Existing Instance toy_sha.
#[local] Existing Instance no_regex.
Abbreviation do_transact c := (transact_inner toy_hmac toy_signer toy_key c).

Definition as_op (req : RememberRequest) : TransactionOp := mkTransactionOp ctx req.
Definition tid : bytes := [x74].
(** An update of the object the first write left, and a new object. *)
Definition update_1 : RememberRequest := pin_version (ask ctx (Some ko_a) [x54] None 3 [] None) (Some 1).
Definition both : list (KOID * TransactionOp) := [(ko_c, as_op update_1); (ko_b, as_op (ask ctx None [x54] None 4 [] None))].
Example both_runs : match do_transact cfg auth_default 8 both None (Some tid) kernel_1 with
  | (k', KOk (results, false, _)) => (map (fun r => (rm_version r, rm_journal_seq r)) results, numbers k') =
      ([(2, 2); (1, 3)], [Some (2, [(num, VInt 3)]); Some (1, [(num, VInt 4)]); None])
  | _ => False
  end.
Proof. vm_compute. reflexivity. Qed.

Ltac fits_one :=
  split; [split; [reflexivity | intros ? ?%elem_of_nil; done]|]; split; [vm_compute; reflexivity|]; split; [vm_compute; reflexivity|];
  let Hh := fresh in intros ? Hh; vm_compute in Hh; injection Hh as <-; split; vm_compute; congruence.
Ltac fits_transact :=
  split; [repeat (constructor; [fits_one|]); constructor|]; split; [reflexivity|]; split; [exact I|]; split; [intros ? [= <-]; reflexivity|];
  let Hp := fresh in intros ? ? Hp; vm_compute in Hp; (discriminate || (injection Hp as <- <-; fits_op)).
Lemma both_fits : transact_fits toy_hmac toy_signer toy_key cfg kernel_1 auth_default 8 both (Some tid).
Proof. fits_transact. Qed.
Lemma transact_exact_witness : exists k' results ko, do_transact cfg auth_default 8 both None (Some tid) kernel_1 = (k', KOk (results, false, auth_default)) /\
  (head_object ko_a (k_repo k')).2 = KOk (Some ko) /\ ko_version ko = 2 /\ ko_properties ko = [(num, VInt 3)].
Proof.
  destruct kernel_1_ok as (s & evs & Hok). pose proof (transact_exact toy_hmac toy_signer toy_key cfg kernel_1 s evs auth_default 8 both (Some tid) Hok both_fits) as W.
  destruct (do_transact cfg auth_default 8 both None (Some tid) kernel_1) as [k' [[[results []] auth']|e|]] eqn:Er; [vm_compute in Er; discriminate | | vm_compute in Er; discriminate..].
  destruct W as (-> & _ & _ & W & _). destruct (W 0%nat (ko_c, as_op update_1) eq_refl) as (head & ko & W1 & W2 & W3 & _). exists k', results, ko. split; [done|]. split; [exact W2|].
  split; [rewrite (tw_version _ _ _ _ _ W3); vm_compute in W1; injection W1 as <-; reflexivity | apply (tw_body _ _ _ _ _ W3)].
Defined.

(** The kernel after that transaction; a retry, and a rival. *)
Definition after_both : Kernel MemoryEngine * KResult (list Remembered * bool * AuthManager) := do_transact cfg auth_default 8 both None (Some tid) kernel_1.
Definition both_results : list Remembered := match after_both.2 with KOk (results, _, _) => results | _ => [] end.
Lemma after_both_eq : do_transact cfg auth_default 8 both None (Some tid) kernel_1 = (after_both.1, KOk (both_results, false, auth_default)).
Proof. vm_compute. reflexivity. Qed.
(** Retried after a transaction has moved both objects on. *)
Definition later_both : list LaterOp :=
  [LTransact auth_default 9 [(ko_c, as_op (pin_version (ask ctx (Some ko_a) [x54] None 9 [] None) (Some 2)))] (Some [x75]);
   LWrite auth_default ko_c 10 (pin_version (ask ctx (Some ko_b) [x54] None 7 [] None) (Some 1))].
Definition kernel_later : Kernel MemoryEngine := run_later toy_hmac toy_signer toy_key cfg after_both.1 later_both.
Lemma retry_exact_witness : exists k2, reads_same kernel_later k2 /\ do_transact cfg auth_default 99 both None (Some tid) kernel_later = (k2, KOk (both_results, true, auth_default)) /\
  map (fun r => (rm_version r, rm_journal_seq r)) both_results = [(2, 2); (1, 3)] /\ numbers kernel_later = [Some (3, [(num, VInt 9)]); Some (2, [(num, VInt 7)]); None].
Proof.
  destruct kernel_1_ok as (s & evs & Hok). destruct (retry_exact toy_hmac toy_signer toy_key cfg kernel_1 s evs auth_default 8 both tid after_both.1 both_results later_both auth_default 99 both Hok both_fits) as (k2 & W1 & W2).
  - intros x h [->|[->|?%elem_of_nil]%elem_of_cons]%elem_of_cons Hh; [| |done]; vm_compute in Hh; [injection Hh as <-; reflexivity | discriminate].
  - exact after_both_eq.
  - unfold later_both. cbn [laters_fit later_fits]. split; [split; [fits_transact | discriminate]|]. split; [fits_remember | exact I].
  - exists k2. split; [exact W1|]. split; [unfold kernel_later; rewrite W2; by rewrite bool_decide_true|]. split; vm_compute; reflexivity.
Defined.
Definition rival : list (KOID * TransactionOp) := [(ko_c, as_op (pin_version (ask ctx (Some ko_a) [x54] None 9 [] None) (Some 1)))].
Lemma first_committer_wins_witness :
  match do_transact cfg auth_default 9 rival None (Some [x75]) after_both.1 with (_, KOk (_, false, _)) => False | (k2, _) => reads_same after_both.1 k2 end.
Proof.
  destruct kernel_1_ok as (s & evs & Hok).
  apply (first_committer_wins toy_hmac toy_signer toy_key cfg kernel_1 s evs auth_default 8 both (Some tid) after_both.1 both_results auth_default 9 rival (Some [x75]) (ko_c, as_op update_1)
    (ko_c, as_op (pin_version (ask ctx (Some ko_a) [x54] None 9 [] None) (Some 1))) 1 Hok both_fits after_both_eq); [fits_transact | by left | by left | reflexivity..].
Defined.

(* ------------------------------------------------------------------ *)
(** * Departures *)

(** Two operations of one transaction take the same unique key. *)
Definition twins : list (KOID * TransactionOp) := [(ko_a, as_op (ask ctx None [x54] None 1 [] None)); (ko_b, as_op (ask ctx None [x54] None 1 [] None))].
Lemma batch_shares_unique_key : match do_transact cfg auth_default 5 twins None None (kernel_new mem_new) with
  | (k', KOk _) => numbers k' = [Some (1, [(num, VInt 1)]); Some (1, [(num, VInt 1)]); None] | _ => False end.
Proof. vm_compute. reflexivity. Qed.
(** An update in a transaction loses the authority and status the kernel manages, and may set
    them: what [remember] refuses. *)
Lemma transact_forges_status :
  let op := as_op (ask ctx (Some ko_a) [x54] None 3 [(EXT_EPISTEMIC_STATUS, VText (txt "verified"))] None) in
  match do_transact cfg auth_default 8 [(ko_c, op)] None None kernel_1 with
  | (k', KOk _) => match head_object ko_a (k_repo k') with (_, KOk (Some ko)) => (status_of ko, btree_get (ko_extensions ko) AUTHORITY) = (EpistemicStatus.Verified, None) | _ => False end
  | _ => False
  end.
Proof. vm_compute. reflexivity. Qed.
(** The quota of a tenant is not asked. *)
Definition many : list (KOID * TransactionOp) :=
  [(ko_a, as_op (ask ctx None [x54] (Some (txt "blue")) 1 [] None)); (ko_b, as_op (ask ctx None [x54] (Some (txt "blue")) 2 [] None))].
Lemma transact_ignores_quota :
  k_usage (do_transact (toy_config {[txt "blue" := 1; txt "default" := 0]}) auth_default 5 many None None (kernel_new mem_new)).1 !! txt "blue" = Some 2.
Proof. vm_compute. reflexivity. Qed.
(** A deferred uniqueness constraint is held against the objects of before the transaction: two
    objects cannot exchange their keys in one, although the keys are unique after it. *)
Definition deferred_config : Config :=
  mkConfig (register ∅ (mkSchema [x54] 1 [] None [] [mkUniqueConstraint [num] UniquenessScope.Type_ ConstraintTiming.Deferred EnforcementMode.Enforced ViolationSeverity.Error] [] [] []))
    registry_empty ∅ false false false.
Definition two_keys : list (KOID * TransactionOp) := [(ko_a, as_op (ask ctx None [x54] None 1 [] None)); (ko_b, as_op (ask ctx None [x54] None 2 [] None))].
Definition exchange : list (KOID * TransactionOp) := [(ko_c, as_op (ask ctx (Some ko_a) [x54] None 2 [] None)); (ko_c, as_op (ask ctx (Some ko_b) [x54] None 1 [] None))].
Lemma deferred_exchange_refused : match do_transact deferred_config auth_default 5 two_keys None None (kernel_new mem_new) with
  | (k', KOk _) => match (do_transact deferred_config auth_default 6 exchange None None k').2 with KErr _ => true | _ => false end | _ => false end = true.
Proof. vm_compute. reflexivity. Qed.
