(* ===== verification/Ops.v ===== *)
(** crates/kernel/src/transaction/kernel/ops.rs: the knowledge operations that are built on
    [remember_locked].  An observation, an ingested one or an assertion becomes a new object
    backed by evidence; a verification raises the confidence of an object; a contradiction
    records a counter-claim and the conflict; an invalidation withdraws an object and sweeps
    what was derived from it; and a task is claimed, released or handed over under a lease.
    With the evidence, confidence and invalidation records of knowledge/evidence.rs and
    knowledge/kom.rs.

    Each operation holds the pipeline lock throughout.  [now] is the wall clock it reads,
    [ms] the reading of a commit (one per commit), [minted] the identifier a create uses (one
    per create).  The authorization manager is threaded through the writes. *)

From Stdlib Require Import String DecimalString SpecFloat.
From stdpp Require Import gmap.
From S2P Require Import Prelude Format Memtable Kom Codec CodecProps Store Repository RepositorySpec RepositoryReads Commit CommitInv CommitOps CommitRun Epistemic Auth Expr Schema Constraint Ontology Remember.

(* ------------------------------------------------------------------ *)
(** * Text *)

(** [{}] of an unsigned integer, and [KOID::to_hex]. *)
Definition dec_text (n : Z) : bytes := txt (NilZero.string_of_uint (N.to_uint (Z.to_N n))).
Definition hex_digit (n : Z) : byte := nth (Z.to_nat n) (txt "0123456789abcdef") x00.
Definition to_hex (k : KOID) : bytes := flat_map (fun b => [hex_digit (byte_val b / 16); hex_digit (byte_val b mod 16)]) (koid_bytes k).

(* ------------------------------------------------------------------ *)
(** * Singles *)

(** An [f32] is its value: [as f64] is exact, [as f32] rounds to nearest. *)
Definition f32_to_f64 (x : spec_float) : spec_float :=
  match x with S754_finite s m e => binary_normalize 53 1024 (if s then Zneg m else Zpos m) e s | _ => x end.
Definition f64_to_f32 (x : spec_float) : spec_float :=
  match x with S754_finite s m e => binary_normalize 24 128 (if s then Zneg m else Zpos m) e s | _ => x end.
Definition f32_of_int (i : Z) : spec_float := binary_normalize 24 128 i 0 false.
Definition f32_value (x : spec_float) : Value := VFloat (f64_to_bits (f32_to_f64 x)).
(** [f32::max]: a NaN gives way to the other argument. *)
Definition f32_max (x y : spec_float) : spec_float :=
  match x, y with S754_nan, _ => y | _, S754_nan => x | _, _ => if SFltb x y then y else x end.
Definition f32_unit (x : spec_float) : bool := SFleb (S754_zero false) x && SFleb x (f32_of_int 1).

(* ------------------------------------------------------------------ *)
(** * Evidence *)

Module EvidenceMethod.
Inductive t : Type :=
  | AstExtraction | DocExtraction | TestObservation | CiObservation | RuntimeObservation | AgentAnalysis | LlmInference | HumanProvided | Derivation.
Definition as_str (m : t) : bytes :=
  txt match m with
      | AstExtraction => "ast_extraction" | DocExtraction => "doc_extraction" | TestObservation => "test_observation" | CiObservation => "ci_observation"
      | RuntimeObservation => "runtime_observation" | AgentAnalysis => "agent_analysis" | LlmInference => "llm_inference" | HumanProvided => "human_provided"
      | Derivation => "derivation"
      end.
Definition all : list t :=
  [AstExtraction; DocExtraction; TestObservation; CiObservation; RuntimeObservation; AgentAnalysis; LlmInference; HumanProvided; Derivation].
Definition from_str (s : bytes) : option t := List.find (fun m => bytes_eqb s (as_str m)) all.
(** [Authority::for_evidence_method]. *)
Definition authority (m : t) : Authority.t :=
  match m with
  | AstExtraction => Authority.SourceCode | DocExtraction => Authority.Documentation | TestObservation => Authority.TestVerified
  | CiObservation => Authority.CiVerified | RuntimeObservation => Authority.DeploymentObserved | HumanProvided => Authority.HumanApproved
  | AgentAnalysis | Derivation => Authority.AgentDerived | LlmInference => Authority.LlmInferred
  end.
End EvidenceMethod.

Record Evidence : Type := mkEvidence {
  ev_source_artifact : bytes; ev_location : option bytes; ev_revision : option bytes; ev_method : EvidenceMethod.t; ev_confidence : spec_float }.
Definition pm_put (m : PropertyMap) (k : string) (v : Value) : PropertyMap := btree_insert m (txt k) v.
Definition pm_put_opt (m : PropertyMap) (k : string) (o : option bytes) : PropertyMap := match o with Some b => pm_put m k (VText b) | None => m end.
Definition evidence_to_value (ev : Evidence) : Value :=
  let m := pm_put (pm_put [] "source_artifact" (VText (ev_source_artifact ev))) "method" (VText (EvidenceMethod.as_str (ev_method ev))) in
  let m := pm_put_opt (pm_put_opt m "location" (ev_location ev)) "revision" (ev_revision ev) in
  VMap (pm_put m "confidence" (f32_value (ev_confidence ev))).
Definition evidence_value (evs : list Evidence) : Value := VList (map evidence_to_value evs).
Definition require_evidence (evs : list Evidence) : KResult unit :=
  match evs with [] => KErr (InvalidObject "this knowledge operation requires at least one evidence record") | _ => KOk tt end.
Definition BAR : byte := x7c.
Definition confirmation_key (verifier : bytes) (ev : Evidence) : bytes :=
  verifier ++ [BAR] ++ ev_source_artifact ev ++ [BAR] ++ EvidenceMethod.as_str (ev_method ev) ++ [BAR] ++ default [] (ev_location ev) ++ [BAR] ++ default [] (ev_revision ev).
Definition push_new (merged : list Value) (f : Value) : list Value := if existsb (fun x => value_eqb x f) merged then merged else merged ++ [f].
Definition append_evidence (ext : PropertyMap) (evs : list Evidence) : PropertyMap :=
  let merged := match btree_get ext EXT_EVIDENCE with Some (VList l) => l | _ => [] end in
  btree_insert ext EXT_EVIDENCE (VList (fold_left push_new (map evidence_to_value evs) merged)).

(* ------------------------------------------------------------------ *)
(** * Confidence, invalidation, claims *)

Record ConfidenceContext : Type := mkConfidence { cc_score : spec_float; cc_confirmations : Z; cc_last_verified : option Z; cc_verification_keys : list bytes }.
Definition confidence_default : ConfidenceContext := mkConfidence (S754_zero false) 0 None [].
Definition confidence_new (score : spec_float) (confirmations : Z) (last_verified : option Z) : KResult ConfidenceContext :=
  if f32_unit score then KOk (mkConfidence score confirmations last_verified []) else KErr (InvalidObject "confidence score must be finite and within [0,1]").
Definition confidence_to_value (c : ConfidenceContext) : Value :=
  let m := pm_put (pm_put [] "score" (f32_value (cc_score c))) "confirmations" (VInt (cc_confirmations c)) in
  let m := match cc_last_verified c with Some v => pm_put m "last_verified" (VInt (as_i64 v)) | None => m end in
  VMap (match cc_verification_keys c with [] => m | keys => pm_put m "verification_keys" (VList (map VText keys)) end).
Definition text_of (v : Value) : option bytes := match v with VText s => Some s | _ => None end.
Definition confidence_from_value (v : Value) : option ConfidenceContext :=
  m ← match v with VMap m => Some m | _ => None end;
  score ← match btree_get m (txt "score") with Some (VFloat f) => Some (f64_to_f32 (f64_of_bits f)) | Some (VInt i) => Some (f32_of_int i) | _ => None end;
  if negb (f32_unit score) then None
  else
    confirmations ← match btree_get m (txt "confirmations") with Some (VInt i) => if 0 <=? i then Some (as_u32 i) else None | _ => None end;
    let keys := match btree_get m (txt "verification_keys") with Some (VList l) => omap text_of l | _ => [] end in
    let last := match btree_get m (txt "last_verified") with Some (VInt t) => if 0 <=? t then Some t else None | _ => None end in
    Some (mkConfidence score confirmations last keys).
Definition confidence_context (ext : PropertyMap) : option ConfidenceContext := btree_get ext EXT_CONFIDENCE ≫= confidence_from_value.

Record Invalidation : Type := mkInvalidation { iv_at : Z; iv_actor : bytes; iv_reason : bytes }.
Definition invalidation_from_value (v : Value) : option Invalidation :=
  m ← match v with VMap m => Some m | _ => None end;
  at_ ← match btree_get m (txt "at") with Some (VInt t) => if 0 <=? t then Some t else None | _ => None end;
  actor ← btree_get m (txt "actor") ≫= text_of;
  reason ← btree_get m (txt "reason") ≫= text_of;
  Some (mkInvalidation at_ actor reason).
Definition invalidation (ext : PropertyMap) : option Invalidation := btree_get ext EXT_INVALIDATION ≫= invalidation_from_value.
Definition set_invalidated (ext : PropertyMap) (at_ : Z) (actor reason : bytes) : PropertyMap :=
  btree_insert ext EXT_INVALIDATION (VMap (pm_put (pm_put (pm_put [] "at" (VInt (as_i64 at_))) "actor" (VText actor)) "reason" (VText reason))).

(** The holder of a claim and the instant it ends. *)
Definition claim_of (ext : PropertyMap) : option bytes * Z :=
  (btree_get ext CLAIM_HOLDER ≫= text_of, match btree_get ext CLAIM_UNTIL with Some (VInt i) => if 0 <? i then i else 0 | _ => 0 end).

(* ------------------------------------------------------------------ *)
(** * Requests *)

Record ObservationRequest : Type := mkObservationRequest {
  ob_context : KnowledgeContext; ob_type_name : bytes; ob_properties : PropertyMap; ob_evidence : list Evidence; ob_valid_from : option Z;
  ob_security : option SecurityDescriptor; ob_note : option bytes }.
Record IngestRequest : Type := mkIngestRequest {
  in_context : KnowledgeContext; in_type_name : bytes; in_properties : PropertyMap; in_evidence : list Evidence; in_idempotency_key : option bytes;
  in_tags : list bytes; in_valid_from : option Z; in_security : option SecurityDescriptor; in_note : option bytes }.
Record AssertionRequest : Type := mkAssertionRequest {
  as_context : KnowledgeContext; as_type_name : bytes; as_properties : PropertyMap; as_authority : option bytes; as_evidence : list Evidence;
  as_valid_from : option Z; as_security : option SecurityDescriptor; as_note : option bytes }.
Record VerificationRequest : Type := mkVerificationRequest {
  vf_context : KnowledgeContext; vf_koid : KOID; vf_evidence : list Evidence; vf_confidence : option spec_float; vf_note : option bytes }.
Record VerificationResult : Type := mkVerificationResult {
  vr_koid : KOID; vr_version : Z; vr_commit_ts : Z; vr_status : EpistemicStatus.t; vr_confirmations : Z; vr_last_verified : option Z }.
Record ContradictionRequest : Type := mkContradictionRequest {
  ct_context : KnowledgeContext; ct_claim : KOID; ct_counter_type : bytes; ct_counter_props : PropertyMap; ct_authority : option bytes;
  ct_evidence : list Evidence; ct_note : option bytes }.
Record InvalidationRequest : Type := mkInvalidationRequest {
  iq_context : KnowledgeContext; iq_koid : KOID; iq_evidence : list Evidence; iq_reason : option bytes; iq_note : option bytes }.
(** A failure keeps the error; the source keeps its rendering. *)
Record SweepOutcome : Type := mkSweepOutcome { sw_stamped : list KOID; sw_completed : bool; sw_failed : list (KOID * KError) }.
Record InvalidationResult : Type := mkInvalidationResult { ir_invalidated : list KOID; ir_completed : bool; ir_failed : list (KOID * KError) }.
Record ClaimRequest : Type := mkClaimRequest { cl_context : KnowledgeContext; cl_task : KOID; cl_lease_secs : Z }.
Record ClaimResult : Type := mkClaimResult { cr_task : KOID; cr_version : Z; cr_claim_until : Z; cr_renewed : bool }.
Record ReleaseRequest : Type := mkReleaseRequest { re_context : KnowledgeContext; re_task : KOID }.
Record HandoffRequest : Type := mkHandoffRequest {
  ho_context : KnowledgeContext; ho_task : KOID; ho_to : bytes; ho_evidence : list Evidence; ho_note : option bytes }.

Definition subject_name (c : KnowledgeContext) : bytes := su_name (kx_subject c).
(** The request that creates an object in the tenant of the context. *)
Definition create_request (c : KnowledgeContext) (key : option bytes) (ty : bytes) (tags : list bytes) (props : PropertyMap) (rels : list RelationshipRef)
    (sec : option SecurityDescriptor) (ext : PropertyMap) (origin : Origin.t) (note : option bytes) : RememberRequest :=
  mkRememberRequest c None (Some 0) key (mkMetadata ty (kx_tenant c) 1 tags) props None rels sec ext origin note ReferentialPolicy.Permissive.
(** The request that restates a head with other extensions. *)
Definition restate (c : KnowledgeContext) (koid : KOID) (head : KnowledgeObject) (ext : PropertyMap) (origin : Origin.t) (note : option bytes) : RememberRequest :=
  mkRememberRequest c (Some koid) (Some (ko_version head)) None (ko_metadata head) (ko_properties head) None (ko_relationships head) None ext origin note
    ReferentialPolicy.Permissive.

Definition observe_extensions (now : Z) (req : ObservationRequest) : PropertyMap :=
  let ext := btree_insert [] EXT_EPISTEMIC_STATUS (VText (txt "observed")) in
  let ext := btree_insert ext EXT_EVIDENCE (evidence_value (ob_evidence req)) in
  btree_insert ext EXT_VALID_FROM (VInt (as_i64 (default now (ob_valid_from req)))).
Definition ingest_extensions (now : Z) (method : EvidenceMethod.t) (req : IngestRequest) : PropertyMap :=
  let status := match method with EvidenceMethod.AstExtraction | EvidenceMethod.DocExtraction => EpistemicStatus.Extracted | _ => EpistemicStatus.Observed end in
  let ext := btree_insert [] EXT_EPISTEMIC_STATUS (VText (epistemic_name status)) in
  let ext := btree_insert ext EXT_EVIDENCE (evidence_value (in_evidence req)) in
  let ext := btree_insert ext AUTHORITY (VText (Authority.as_str (EvidenceMethod.authority method))) in
  let ext := btree_insert ext SCOPE (VText (Scope.as_str Scope.Repository)) in
  let ext := btree_insert ext EXT_CONTENT_TRUST (VText (txt "trusted")) in
  btree_insert ext EXT_VALID_FROM (VInt (as_i64 (default now (in_valid_from req)))).
Definition assert_extensions (now : Z) (authority : bytes) (evs : list Evidence) (from : option Z) : PropertyMap :=
  let ext := btree_insert [] EXT_EPISTEMIC_STATUS (VText (txt "asserted")) in
  let ext := btree_insert ext AUTHORITY (VText authority) in
  let ext := btree_insert ext EXT_EVIDENCE (evidence_value evs) in
  btree_insert ext EXT_VALID_FROM (VInt (as_i64 (default now from))).

(** The confidence a verification leaves: each new key of verifier and evidence counts once. *)
Definition add_key (verifier : bytes) (acc : list bytes * Z) (ev : Evidence) : list bytes * Z :=
  let key := confirmation_key verifier ev in
  if bool_decide (key ∈ acc.1) then acc else (acc.1 ++ [key], acc.2 + 1).
Definition verified_confidence (now : Z) (req : VerificationRequest) (existing : ConfidenceContext) : KResult ConfidenceContext :=
  let '(keys, added) := fold_left (add_key (subject_name (vf_context req))) (vf_evidence req) (cc_verification_keys existing, 0) in
  c ← confidence_new (f32_max (default (cc_score existing) (vf_confidence req)) (cc_score existing)) (as_u32 (cc_confirmations existing + added)) (Some now);
  KOk (mkConfidence (cc_score c) (cc_confirmations c) (cc_last_verified c) keys).

Definition ext_or_null (ext : PropertyMap) (key : bytes) : Value := default VNull (btree_get ext key).
Definition assertion_snapshot (ko : KnowledgeObject) : Value :=
  let m := pm_put [] "authority" (ext_or_null (ko_extensions ko) AUTHORITY) in
  let m := pm_put m "evidence" (ext_or_null (ko_extensions ko) EXT_EVIDENCE) in
  let m := pm_put m "timestamp" (VInt (as_i64 (ko_commit_ts ko))) in
  VMap (pm_put m "scope" (ext_or_null (ko_extensions ko) SCOPE)).
Definition conflict_request (c : KnowledgeContext) (claim : KnowledgeObject) (claim_id : KOID) (counter : KnowledgeObject) (counter_id : KOID) (note : option bytes) : RememberRequest :=
  let props := pm_put [] "description" (VText (txt "Contradictory claims: " ++ to_hex claim_id ++ txt " vs " ++ to_hex counter_id)) in
  let props := pm_put (pm_put props "claim_a" (VText (to_hex claim_id))) "claim_b" (VText (to_hex counter_id)) in
  let assertions := pm_put (pm_put [] "a" (assertion_snapshot claim)) "b" (assertion_snapshot counter) in
  let ext := pm_put (pm_put [] "resolution" (VText (txt "unresolved"))) "assertions" (VMap assertions) in
  create_request c None (txt "aikoql:conflict") [] props [] None ext Origin.System note.
Definition stamped_extensions (ext : PropertyMap) (at_ : Z) (actor reason : bytes) : KResult PropertyMap := close_valid_time (set_invalidated ext at_ actor reason) at_.

Definition lease_end (now lease_secs : Z) : KResult Z :=
  if U64 <=? lease_secs * 1000 then KErr (InvalidObject "lease overflows wall-clock millis")
  else if U64 <=? now + lease_secs * 1000 then KErr (InvalidObject "lease overflows wall-clock millis") else KOk (now + lease_secs * 1000).
Definition claim_request (req : ClaimRequest) (head : KnowledgeObject) (claim_until : Z) : RememberRequest :=
  let name := subject_name (cl_context req) in
  let ext := btree_insert (ko_extensions head) CLAIM_HOLDER (VText name) in
  let ext := btree_insert ext CLAIM_UNTIL (VInt (as_i64 claim_until)) in
  restate (cl_context req) (cl_task req) head ext (Origin.Agent name) (Some (txt "claim by " ++ name ++ txt " until " ++ dec_text claim_until)).
Definition release_request (req : ReleaseRequest) (head : KnowledgeObject) : RememberRequest :=
  let name := subject_name (re_context req) in
  let ext := btree_insert (btree_insert (ko_extensions head) CLAIM_HOLDER VNull) CLAIM_UNTIL VNull in
  restate (re_context req) (re_task req) head ext (Origin.Agent name) (Some (txt "released by " ++ name)).
Definition transfer_request (req : HandoffRequest) (head : KnowledgeObject) : RememberRequest :=
  let ext := btree_insert (ko_extensions head) CLAIM_HOLDER (VText (ho_to req)) in
  restate (ho_context req) (ho_task req) head ext (Origin.Agent (subject_name (ho_context req))) (Some (txt "handoff to " ++ ho_to req)).
Definition handoff_record (req : HandoffRequest) : RememberRequest :=
  let name := subject_name (ho_context req) in
  let props := pm_put (pm_put (pm_put [] "task" (VText (to_hex (ho_task req)))) "from" (VText name)) "to" (VText (ho_to req)) in
  let sec := mkSecurityDescriptor name [mkAclEntry (ho_to req) Action.Read Effect.Allow] None in
  create_request (ho_context req) None (txt "aikoql:handoff") [] props [] (Some sec) (append_evidence [] (ho_evidence req)) (Origin.Agent name) (ho_note req).
(** The claim is not the caller's. *)
Definition foreign_claim (now : Z) (koid : KOID) (holder : option bytes) (until : Z) (m : string) : KError :=
  match holder with Some h => if now <? until then ClaimConflict koid h until else InvalidObject m | None => InvalidObject m end.

(* ------------------------------------------------------------------ *)
(** * The operations *)

Section Operations.
Context {E : Type} `{StorageEngine E} `{Sha256} `{Regex}.
Context (hmac_sha256 : bytes -> bytes -> bytes) (signer : option (bytes -> bytes)) (signing_key : option bytes).
Context (cfg : Config).
Abbreviation remember_locked := (remember_locked hmac_sha256 signer signing_key cfg).
Abbreviation Wrote := (KM E (Remembered * AuthManager)).

Definition observe (auth : AuthManager) (minted : KOID) (now ms : Z) (req : ObservationRequest) : Wrote :=
  _ ← klift (require_evidence (ob_evidence req));
  remember_locked auth minted ms
    (create_request (ob_context req) None (ob_type_name req) [] (ob_properties req) [] (ob_security req) (observe_extensions now req) Origin.System (ob_note req)).
Definition ingest_observation (auth : AuthManager) (minted : KOID) (now ms : Z) (req : IngestRequest) : Wrote :=
  _ ← klift (require_evidence (in_evidence req));
  match in_evidence req with
  | [] => klift KPanic
  | ev :: _ =>
      remember_locked auth minted ms
        (create_request (in_context req) (in_idempotency_key req) (in_type_name req) (in_tags req) (in_properties req) [] (in_security req)
          (ingest_extensions now (ev_method ev) req) Origin.System (in_note req))
  end.
Definition assert_knowledge (auth : AuthManager) (minted : KOID) (now ms : Z) (req : AssertionRequest) : Wrote :=
  _ ← klift (require_evidence (as_evidence req));
  authority ← klift (match as_authority req ≫= Authority.from_str with Some a => KOk a | None => KErr (InvalidObject "assert requires a valid authority level") end);
  remember_locked auth minted ms
    (create_request (as_context req) None (as_type_name req) [] (as_properties req) [] (as_security req)
      (assert_extensions now (Authority.as_str authority) (as_evidence req) (as_valid_from req)) (Origin.Agent (subject_name (as_context req))) (as_note req)).

Definition the_head (koid : KOID) : KM E KnowledgeObject := o ← on_repo (head_object koid); klift (match o with Some h => KOk h | None => KErr (NotFound koid) end).
Definition journal_seq : KM E Z := o ← on_repo (on_engine journal_head); mret (match o with Some (seq, _, _) => seq | None => 0 end).
Definition verify_request (req : VerificationRequest) (head : KnowledgeObject) (conf : ConfidenceContext) (seq : Z) : RememberRequest :=
  let ext := btree_insert (ko_extensions head) EXT_CONFIDENCE (confidence_to_value conf) in
  let ext := btree_insert (append_evidence ext (vf_evidence req)) EXT_VERIFIED_EVENT (VInt (as_i64 seq)) in
  restate (vf_context req) (vf_koid req) head ext (Origin.Agent (subject_name (vf_context req))) (vf_note req).
Definition verify_knowledge (auth : AuthManager) (now ms1 ms2 : Z) (req : VerificationRequest) : KM E (VerificationResult * AuthManager) :=
  let c := vf_context req in
  _ ← klift (require_evidence (vf_evidence req));
  head ← authorized_head (authorize auth (kx_subject c)) (vf_koid req) Action.Write;
  let cur := status_of head in
  let transitioning := negb (bool_decide (cur = EpistemicStatus.Verified)) in
  _ ← klift (if transitioning && negb (EpistemicStatus.can_transition cur EpistemicStatus.Verified) then KErr (InvalidEpistemic cur EpistemicStatus.Verified) else KOk tt);
  conf ← klift (verified_confidence now req (default confidence_default (confidence_context (ko_extensions head))));
  '(version, commit_ts) ← (if transitioning then
    transition_epistemic hmac_sha256 signer signing_key (authorize auth (kx_subject c)) now ms1 (vf_koid req) EpistemicStatus.Verified (Origin.Agent (subject_name c)) None
      (Some (ko_version head)) (subject_name c) (vf_note req) None
    else mret (ko_version head, 0));
  new_head ← the_head (vf_koid req);
  seq ← journal_seq;
  '(rem, auth) ← remember_locked auth (vf_koid req) ms2 (verify_request req new_head conf ((seq + 1) mod U64));
  mret (mkVerificationResult (vf_koid req) (Z.max (rm_version rem) version) (Z.max (rm_commit_ts rem) commit_ts) EpistemicStatus.Verified (cc_confirmations conf)
    (cc_last_verified conf), auth).

(** The counter-claim and the conflict. *)
Definition contradict (auth : AuthManager) (minted1 minted2 : KOID) (now ms1 ms2 : Z) (req : ContradictionRequest) : KM E (KOID * KOID * AuthManager) :=
  let c := ct_context req in
  _ ← klift (require_evidence (ct_evidence req));
  claim ← authorized_head (authorize auth (kx_subject c)) (ct_claim req) Action.Read;
  _ ← klift (if value_eqb (VMap (ko_properties claim)) (VMap (ct_counter_props req)) then KErr (InvalidObject "counter-claim must differ from the contradicted claim") else KOk tt);
  _ ← klift (if bool_decide (is_Some (invalidation (ko_extensions claim))) || bool_decide (is_Some (valid_to (ko_extensions claim)))
             then KErr (InvalidObject "cannot contradict non-current knowledge") else KOk tt);
  authority ← klift (match ct_authority req with
                     | Some a => match Authority.from_str a with Some _ => KOk a | None => KErr (InvalidObject "contradict requires a valid authority level") end
                     | None => KOk (Authority.as_str (Authority.for_origin (Origin.Agent (subject_name c))))
                     end);
  '(counter, auth) ← remember_locked auth minted1 ms1
    (create_request c None (ct_counter_type req) [] (ct_counter_props req) [mkRelationshipRef CONTRADICTS (ct_claim req) Direction.Outbound] None
      (assert_extensions now authority (ct_evidence req) None) (Origin.Agent (subject_name c)) (ct_note req));
  counter_ko ← the_head (rm_koid counter);
  '(conflict, auth) ← remember_locked auth minted2 ms2 (conflict_request c claim (ct_claim req) counter_ko (rm_koid counter) (ct_note req));
  mret (rm_koid counter, rm_koid conflict, auth).

(** ** Invalidation *)
Definition outbound_edges (koid : KOID) (rt : option bytes) : KM E (list (bytes * KOID)) := on_repo (on_engine (fun e => scan_outbound e koid rt)).
(** The first phase of the sweep, [None] when the fuel runs out. *)
Fixpoint collect (fuel : nat) (queue : list KOID) (visited : gset KOID) (to_stamp : list KOID) : KM E (option (list KOID)) :=
  match queue, fuel with
  | [], _ => mret (Some to_stamp)
  | _, O => mret None
  | k :: queue, S fuel =>
      if bool_decide (k ∈ visited) then collect fuel queue visited to_stamp
      else
        head ← on_repo (head_object k);
        match head with
        | None => collect fuel queue ({[k]} ∪ visited) to_stamp
        | Some h =>
            if bool_decide (is_Some (invalidation (ko_extensions h))) then collect fuel queue ({[k]} ∪ visited) to_stamp
            else edges ← outbound_edges k (Some DERIVED_FROM); collect fuel (queue ++ map snd edges) ({[k]} ∪ visited) (to_stamp ++ [k])
        end
  end.
Definition stamp_invalidated (auth : AuthManager) (c : KnowledgeContext) (k : KOID) (at_ ms : Z) (reason : bytes) : KM E AuthManager :=
  head ← the_head k;
  if bool_decide (is_Some (invalidation (ko_extensions head))) then mret auth
  else
    ext ← klift (stamped_extensions (ko_extensions head) at_ (subject_name c) reason);
    '(_, auth) ← remember_locked auth k ms (restate c k head ext Origin.System (Some reason));
    mret auth.
(** The second phase: an error of one stamp is recorded, the sweep goes on.  [clock] gives
    the reading of each commit. *)
Fixpoint stamp_loop (auth : AuthManager) (c : KnowledgeContext) (at_ : Z) (clock : nat -> Z) (reason : bytes) (ks : list KOID) (out : SweepOutcome)
    : KM E (SweepOutcome * AuthManager) := fun kern =>
  match ks with
  | [] => (kern, KOk (out, auth))
  | k :: ks =>
      match stamp_invalidated auth c k at_ (clock 0%nat) reason kern with
      | (kern, KOk auth) => stamp_loop auth c at_ (fun n => clock (S n)) reason ks (mkSweepOutcome (sw_stamped out ++ [k]) (sw_completed out) (sw_failed out)) kern
      | (kern, KErr e) => stamp_loop auth c at_ (fun n => clock (S n)) reason ks (mkSweepOutcome (sw_stamped out) false (sw_failed out ++ [(k, e)])) kern
      | (kern, KPanic) => (kern, KPanic)
      end
  end.
Definition invalidate_dependents (fuel : nat) (auth : AuthManager) (c : KnowledgeContext) (now : Z) (clock : nat -> Z) (roots : list (bytes * KOID)) (reason : bytes)
    : KM E (option (SweepOutcome * AuthManager)) :=
  pipe ← kget k_pipe;
  let at_ := match p_pair_pin pipe with Some ts => ts / 2 ^ 16 | None => now end in
  found ← collect fuel (map snd roots) ∅ [];
  match found with
  | None => mret None
  | Some ks => x ← stamp_loop auth c at_ clock reason ks (mkSweepOutcome [] true []); mret (Some x)
  end.
Definition invalidate (fuel : nat) (auth : AuthManager) (now now2 ms1 ms2 : Z) (clock : nat -> Z) (req : InvalidationRequest) : KM E (option (InvalidationResult * AuthManager)) :=
  let c := iq_context req in
  _ ← klift (require_evidence (iq_evidence req));
  head ← authorized_head (authorize auth (kx_subject c)) (iq_koid req) Action.Write;
  _ ← klift (if bool_decide (is_Some (invalidation (ko_extensions head))) then KErr (InvalidObject "already invalidated") else KOk tt);
  let reason := default (txt "invalidated by " ++ subject_name c) (iq_reason req) in
  _ ← (if EpistemicStatus.can_transition (status_of head) EpistemicStatus.Contradicted then
         _ ← transition_epistemic hmac_sha256 signer signing_key (authorize auth (kx_subject c)) now ms1 (iq_koid req) EpistemicStatus.Contradicted
           (Origin.Agent (subject_name c)) None (Some (ko_version head)) (subject_name c) (Some reason) None; mret tt
       else mret tt);
  new_head ← the_head (iq_koid req);
  ext ← klift (stamped_extensions (ko_extensions new_head) now (subject_name c) reason);
  '(_, auth) ← remember_locked auth (iq_koid req) ms2
    (restate c (iq_koid req) new_head (append_evidence ext (iq_evidence req)) Origin.System (Some (default reason (iq_note req))));
  roots ← outbound_edges (iq_koid req) (Some DERIVED_FROM);
  sweep ← invalidate_dependents fuel auth c now2 clock roots (txt "premise " ++ to_hex (iq_koid req) ++ txt " was invalidated");
  mret ('(out, auth) ← sweep; Some (mkInvalidationResult (iq_koid req :: sw_stamped out) (sw_completed out) (sw_failed out), auth)).

(** ** Leases *)
Definition claim_task (auth : AuthManager) (now ms : Z) (req : ClaimRequest) : KM E (ClaimResult * AuthManager) :=
  let c := cl_context req in
  head ← authorized_head (authorize auth (kx_subject c)) (cl_task req) Action.Write;
  _ ← klift (if bool_decide (is_Some (invalidation (ko_extensions head))) then KErr (InvalidObject "cannot claim an invalidated task") else KOk tt);
  let '(holder, until) := claim_of (ko_extensions head) in
  let renewed := bool_decide (holder = Some (subject_name c)) in
  _ ← klift (if negb renewed && (now <? until) then KErr (ClaimConflict (cl_task req) (default [] holder) until) else KOk tt);
  claim_until ← klift (lease_end now (cl_lease_secs req));
  '(r, auth) ← remember_locked auth (cl_task req) ms (claim_request req head claim_until);
  mret (mkClaimResult (cl_task req) (rm_version r) claim_until renewed, auth).
Definition release_task (auth : AuthManager) (now ms : Z) (req : ReleaseRequest) : Wrote :=
  let c := re_context req in
  head ← authorized_head (authorize auth (kx_subject c)) (re_task req) Action.Write;
  let '(holder, until) := claim_of (ko_extensions head) in
  if bool_decide (holder = Some (subject_name c)) then remember_locked auth (re_task req) ms (release_request req head)
  else klift (KErr (foreign_claim now (re_task req) holder until "task is not claimed")).
Definition handoff_task (auth : AuthManager) (minted : KOID) (now ms1 ms2 : Z) (req : HandoffRequest) : Wrote :=
  let c := ho_context req in
  _ ← klift (require_evidence (ho_evidence req));
  head ← authorized_head (authorize auth (kx_subject c)) (ho_task req) Action.Write;
  let '(holder, until) := claim_of (ko_extensions head) in
  if bool_decide (holder = Some (subject_name c)) then
    '(_, auth) ← remember_locked auth (ho_task req) ms1 (transfer_request req head);
    remember_locked auth minted ms2 (handoff_record req)
  else klift (KErr (foreign_claim now (ho_task req) holder until "task is not claimed by you")).
End Operations.
