(* ===== verification/Lease.v ===== *)
(** Task leases (transaction/kernel/ops.rs): a claim that is running stays with its holder
    whatever the other agents do, and what each of the lease operations does. *)

From Stdlib Require Import String SpecFloat.
From stdpp Require Import gmap.
From S2P Require Import Prelude Format Memtable Kom Codec CodecProps Store Repository RepositorySpec RepositoryReads Commit CommitInv CommitOps CommitRun Epistemic Auth Expr Schema Constraint Ontology Remember RememberProps Ops.

(* ------------------------------------------------------------------ *)
(** * The claim of an updated object *)

Definition CLAIM_KEYS : list bytes := [CLAIM_HOLDER; CLAIM_UNTIL].
(** A key of the kernel's that is not of a claim. *)
Ltac not_claim_key := refine (proj1 (bool_decide_eq_false _) _); vm_compute; reflexivity.
Ltac claim_key Hin := apply list_elem_of_In in Hin; cbn [CLAIM_KEYS In] in Hin; destruct Hin as [<-|[<-|[]]].
(** The extensions of a create set no claim. *)
Ltac unset_key Hin := unfold observe_extensions, ingest_extensions, assert_extensions; claim_key Hin; rewrite !get_insert_ne by (vm_compute; done); reflexivity.
Lemma claim_keys_carried key : key ∈ CLAIM_KEYS -> key ∈ CARRIED.
Proof. intros Hin. apply list_elem_of_In. apply list_elem_of_In in Hin. cbn [CLAIM_KEYS CARRIED In] in *. tauto. Qed.
Lemma carried_keeps head keys k v : forall ext, btree_get ext k = Some v -> btree_get (fold_left (carry head) keys ext) k = Some v.
Proof. induction keys as [|key keys IH]; intros ext Hv; [done|]. cbn [fold_left]. apply IH. by rewrite carry_get, Hv. Qed.
(** A key of the request that is not null stays. *)
Lemma merged_request head ext key v : btree_get ext key = Some v -> v <> VNull -> btree_get (merged head ext) key = Some v.
Proof.
  intros Hv Hn. unfold merged. assert (btree_get (fold_left (carry head) CARRIED ext) key = Some v) as Hc by (by apply carried_keeps). revert Hc.
  generalize (fold_left (carry head) CARRIED ext) as e. intros e Hc. assert (btree_get (strip_null e CLAIM_HOLDER) key = Some v) as Hs by (rewrite strip_get; congruence). rewrite strip_get; congruence.
Qed.
Definition keeps_keys (head ext : PropertyMap) : Prop := forall key, key ∈ CLAIM_KEYS -> btree_get ext key = None \/ btree_get ext key = btree_get head key.
Lemma merged_claim head ext key : keeps_keys head ext -> key ∈ CLAIM_KEYS -> btree_get head key <> Some VNull -> btree_get (merged head ext) key = btree_get head key.
Proof.
  intros Hk Hin Hn. destruct (Hk key Hin) as [He|He]; [apply merged_get; [by apply claim_keys_carried | by apply has_key_false | done]|].
  destruct (btree_get head key) as [v|] eqn:Eh; [apply merged_request; [done | congruence]|]. rewrite <-Eh. apply merged_get; [by apply claim_keys_carried | by apply has_key_false | congruence].
Qed.
Lemma updated_extensions admin head ext ext' : update_extensions admin head ext = KOk ext' -> ext' = merged head ext.
Proof. unfold update_extensions. cbn zeta. repeat case_match; congruence. Qed.

(** A claim that is held: both keys are set. *)
Definition held (ext : PropertyMap) (name : bytes) (until : Z) : Prop := btree_get ext CLAIM_HOLDER = Some (VText name) /\ btree_get ext CLAIM_UNTIL = Some (VInt until).
Lemma held_claim ext name until : 0 < until -> held ext name until <-> claim_of ext = (Some name, until).
Proof.
  intros Hu. unfold held, claim_of. split.
  - intros [-> ->]. cbn. by rewrite (proj2 (Z.ltb_lt _ _) Hu).
  - intros [= Hh Ht]. split.
    + destruct (btree_get ext CLAIM_HOLDER) as [[]|]; try done. by injection Hh as ->.
    + destruct (btree_get ext CLAIM_UNTIL) as [[| |i| | | | |]|]; try lia. destruct (Z.ltb_spec 0 i); [by subst | lia].
Qed.
Lemma held_merged head ext name until : held head name until -> keeps_keys head ext -> held (merged head ext) name until.
Proof. intros [H1 H2] Hk. split; [rewrite <-H1 | rewrite <-H2]; (apply merged_claim; [done | apply list_elem_of_In; cbn [CLAIM_KEYS In]; tauto | congruence]). Qed.
Lemma claim_insert_kept ext key v name until : held ext name until -> key ∉ CLAIM_KEYS -> held (btree_insert ext key v) name until.
Proof. intros [H1 H2] Hn. unfold CLAIM_KEYS in Hn. rewrite !not_elem_of_cons in Hn. destruct Hn as (? & ? & _). split; by rewrite get_insert_ne. Qed.

Section Lease.
Context {E : Type} `{HL : EngineLaws E} `{SHA : Sha256} `{Regex}.
Context (hmac_sha256 : bytes -> bytes -> bytes) (signer : option (bytes -> bytes)) (signing_key : option bytes).
Context (cfg : Config).
Abbreviation kernel_ok := (kernel_ok hmac_sha256 signing_key).
Abbreviation remember_fits := (remember_fits hmac_sha256 signer signing_key).
Abbreviation remember_locked := (remember_locked hmac_sha256 signer signing_key cfg).
Implicit Types k : Kernel E.

(** A transition is refused with only the cache changed, or moves the head. *)
Lemma task_transition_cases authz k s evs clock ms koid to origin superseded_by expected actor reason pv :
  kernel_ok k s evs -> epistemic_fits hmac_sha256 signer signing_key k clock ms koid to origin superseded_by actor reason pv ->
  exists k' x, transition_epistemic hmac_sha256 signer signing_key authz clock ms koid to origin superseded_by expected actor reason pv k = (k', x) /\
    ((kernel_ok k' s evs /\ forall a, x <> KOk a) \/
     exists head ko s' evs', spec_head_object s koid = Some head /\ EpistemicStatus.can_transition (status_of head) to = true /\ moved clock head ko to actor reason /\
       x = KOk (ko_version ko, ko_commit_ts ko) /\ kernel_ok k' s' evs' /\ zlen evs' = zlen evs + 1 /\
       forall z, spec_head_object s' z = if bool_decide (z = koid) then Some ko else spec_head_object s z).
Proof.
  intros Hok Hf. destruct (transition_run hmac_sha256 signer signing_key authz k s evs clock ms koid to origin superseded_by expected actor reason pv Hok Hf)
    as (r' & Hok' & He & [(x & -> & Hx)|(h & ko & Es & Hc & Hm & Hfit & ->)]); [exists (set_repo k r'), x; split; [done|]; by left|].
  rewrite km_bind. destruct (ko_validate ko) as [[]|e|] eqn:Ev; [| |by destruct (validate_no_panic ko)].
  - destruct (commit_version_ok hmac_sha256 signer signing_key (set_repo k r') s evs ms ko _ _ _ _ _ _ _ Hok' Ev Hfit) as (k' & -> & Hok'' & _).
    eexists k', _. split; [reflexivity|]. right. destruct (head_wf _ _ _ _ _ _ _ Hok Es) as [_ Hko]. eexists h, (stamped (set_repo k r') ms ko EventKind.EpistemicChanged), _, _. split; [done|]. split; [done|].
    split; [by destruct Hm; split|]. split; [by cbn [stamped stamp ko_version ko_commit_ts]; rewrite (moved_version _ _ _ _ _ _ Hm)|]. split; [exact Hok''|]. split; [by rewrite zlen_app|].
    intros z. rewrite commit_head_object. by rewrite (moved_koid _ _ _ _ _ _ Hm), Hko.
  - exists (set_repo k r'), (KErr e). split; [|by left]. unfold commit_version. rewrite km_bind. unfold klift. by rewrite Ev.
Qed.

(* ------------------------------------------------------------------ *)
(** * Computations that keep an invariant *)

Section Guards.
Context (Inv : SpecState -> Prop).
(** [m] leaves a kernel whose state satisfies [Inv], and what it returns satisfies [Q]. *)
Definition guards {A} k (m : KM E A) (Q : A -> Kernel E -> Prop) : Prop :=
  exists k' x s' evs', m k = (k', x) /\ kernel_ok k' s' evs' /\ Inv s' /\ forall a, x = KOk a -> Q a k'.
Lemma guards_bind {A B} k (m : KM E A) (f : A -> KM E B) P Q :
  guards k m P -> (forall a k' s' evs', m k = (k', KOk a) -> P a k' -> kernel_ok k' s' evs' -> Inv s' -> guards k' (f a) Q) -> guards k (m ≫= f) Q.
Proof.
  intros (k1 & x & s1 & evs1 & E1 & Hok1 & Hi & Hp) Hf. unfold guards. rewrite km_bind, E1.
  destruct x as [a|e|]; [|by exists k1, (KErr e), s1, evs1|by exists k1, KPanic, s1, evs1]. apply (Hf a k1 s1 evs1); auto.
Qed.
Lemma guards_weaken {A} k (m : KM E A) (P Q : A -> Kernel E -> Prop) : guards k m P -> (forall a k', P a k' -> Q a k') -> guards k m Q.
Proof. intros (k1 & x & s1 & evs1 & E1 & Hok1 & Hi & Hp) Hw. exists k1, x, s1, evs1. split_and!; auto. Qed.
Lemma guards_quiet {A} k s evs (m : KM E A) (Q : A -> Prop) : Inv s -> kquiet hmac_sha256 signing_key s evs k m Q -> guards k m (fun a k' => Q a /\ kernel_ok k' s evs).
Proof. intros Hi (r' & x & Ex & _ & Hok & Hq). exists (set_repo k r'), x, s, evs. split_and!; auto. Qed.
Lemma guards_lift {A} k s evs (x : KResult A) (Q : A -> Kernel E -> Prop) : Inv s -> kernel_ok k s evs -> (forall a, x = KOk a -> Q a k) -> guards k (klift x) Q.
Proof. intros Hi Hok Hq. exists k, x, s, evs. split_and!; auto. Qed.
Lemma guards_head k s evs auth sub koid action : Inv s -> kernel_ok k s evs -> koid_ok koid = true ->
  guards k (authorized_head (authorize auth sub) koid action) (fun h k' => spec_head_object s koid = Some h /\ authorize auth sub h action = KOk tt /\ kernel_ok k' s evs).
Proof.
  intros Hi Hok Hk. destruct (authorized_head_ok hmac_sha256 signing_key (authorize auth sub) k s evs koid action Hok Hk) as (r' & Hok' & _ & _ & Ea).
  exists (set_repo k r'). eexists _, s, evs. split; [exact Ea|]. split; [done|]. split; [done|]. intros h. destruct (spec_head_object s koid) as [h'|]; [|done].
  destruct (authorize auth sub h' action) as [[]|e|] eqn:Eau; [|done..]. by intros [= <-].
Qed.
Lemma guards_the_head k s evs koid : Inv s -> kernel_ok k s evs -> koid_ok koid = true -> guards k (the_head koid) (fun h k' => spec_head_object s koid = Some h /\ kernel_ok k' s evs).
Proof.
  intros Hi Hok Hk. apply guards_quiet; [done|]. unfold the_head. eapply kquiet_bind; [apply kquiet_repo; [done|]; apply rquiet_head; [apply (ok_repo _ _ _ _ _ Hok) | done]|].
  intros o r' -> _ Hok'. apply kquiet_lift; [done|]. intros h. destruct (spec_head_object s koid); [by intros [= ->] | done].
Qed.
End Guards.

(** ** Writes *)
Section Held.
Context (task : KOID) (name : bytes) (until : Z).
Definition holding (s : SpecState) : Prop := exists head, spec_head_object s task = Some head /\ held (ko_extensions head) name until.
(** The request leaves the claim of [task] as it is. *)
Definition leaves_claim (s : SpecState) (koid : KOID) (req : RememberRequest) : Prop :=
  koid = task -> forall head, spec_head_object s task = Some head -> keeps_keys (ko_extensions head) (rq_extensions req).
Lemma remember_guards k s evs auth minted ms req : kernel_ok k s evs -> holding s -> remember_fits k auth minted ms req ->
  leaves_claim s (default minted (rq_koid req)) req -> guards holding k (remember_locked auth minted ms req) (fun a _ => a.2 = auth).
Proof.
  intros Hok (head0 & Hh0 & Hheld) Hf Hl. destruct (remember_cases hmac_sha256 signer signing_key cfg k s evs auth minted ms req Hok Hf)
    as [(r' & x & Ex & Hok' & Hx)|(_ & head & ko & k' & s' & evs' & ts & Ha & Ex & Hok' & _ & Hs')].
  - exists (set_repo k r'), x, s, evs. split; [done|]. split; [done|]. split; [by exists head0|]. intros a Ea. by apply Hx.
  - eexists k', _, s', evs'. split; [exact Ex|]. split; [done|]. split; [|by intros a [= <-]]. unfold holding. rewrite Hs'. case_bool_decide as Et; [|by exists head0].
    eexists. split; [reflexivity|]. destruct (ad_object _ _ _ _ _ _ _ Ha) as (ext & sec & He & _ & ->). pose proof (ad_head _ _ _ _ _ _ _ Ha) as Ehd. rewrite <-Et, Hh0 in Ehd. subst head.
    cbn [request_extensions] in He. apply updated_extensions in He as ->. cbn [stamp request_object ko_extensions].
    apply claim_insert_kept; [|not_claim_key]. apply held_merged; [done|]. by apply Hl.
Qed.
(** A request that sets no claim key, and a restatement of the head. *)
Lemma leaves_absent s koid req : (forall key, key ∈ CLAIM_KEYS -> btree_get (rq_extensions req) key = None) -> leaves_claim s koid req.
Proof. intros Hn _ head _ key Hin. left. by apply Hn. Qed.
Lemma leaves_restated s koid c head ext origin note : spec_head_object s koid = Some head ->
  (forall key, key ∈ CLAIM_KEYS -> btree_get ext key = btree_get (ko_extensions head) key) -> leaves_claim s koid (restate c koid head ext origin note).
Proof. intros Hh Hk -> head' Hh'. rewrite Hh in Hh'. injection Hh' as <-. intros key Hin. right. by apply Hk. Qed.

(* ------------------------------------------------------------------ *)
(** * The operations keep a claim *)

Lemma guards_lifted {A B} k s evs (x : KResult A) (f : A -> KM E B) Q : kernel_ok k s evs -> holding s -> (forall a, x = KOk a -> guards holding k (f a) Q) -> guards holding k (klift x ≫= f) Q.
Proof.
  intros Hok Hi Hf. eapply guards_bind; [eapply (guards_lift _ _ _ _ _ (fun a k' => x = KOk a /\ k' = k)); eauto|]. intros a k' s' evs' _ [Ha ->] _ _. by apply Hf.
Qed.
Lemma create_guards k s evs auth minted ms c key ty tags props rels sec ext origin note : kernel_ok k s evs -> holding s ->
  (forall x, x ∈ CLAIM_KEYS -> btree_get ext x = None) -> remember_fits k auth minted ms (create_request c key ty tags props rels sec ext origin note) ->
  guards holding k (remember_locked auth minted ms (create_request c key ty tags props rels sec ext origin note)) (fun a _ => a.2 = auth).
Proof. intros Hok Hi Hn Hf. eapply remember_guards; [done..|]. by apply leaves_absent. Qed.

Definition then_fits {A} (m : KM E A) k (P : A -> Kernel E -> Prop) : Prop := forall k' a, m k = (k', KOk a) -> P a k'.
Definition transition_step (auth : AuthManager) (now ms : Z) (req : VerificationRequest) (head : KnowledgeObject) : KM E (Z * Z) :=
  let c := vf_context req in
  if negb (bool_decide (status_of head = EpistemicStatus.Verified)) then
    transition_epistemic hmac_sha256 signer signing_key (authorize auth (kx_subject c)) now ms (vf_koid req) EpistemicStatus.Verified (Origin.Agent (subject_name c)) None
      (Some (ko_version head)) (subject_name c) (vf_note req) None
  else mret (ko_version head, 0).
Lemma transition_guards k s evs auth now ms req head : kernel_ok k s evs -> holding s ->
  epistemic_fits hmac_sha256 signer signing_key k now ms (vf_koid req) EpistemicStatus.Verified (Origin.Agent (subject_name (vf_context req))) None
    (subject_name (vf_context req)) (vf_note req) None ->
  guards holding k (transition_step auth now ms req head) (fun _ _ => True).
Proof.
  intros Hok (head0 & Hh0 & Hheld) Hf. unfold transition_step, guards. cbn zeta. destruct (negb _); [|exists k, (KOk (ko_version head, 0)), s, evs; split_and!; auto; by exists head0].
  destruct (task_transition_cases (authorize auth (kx_subject (vf_context req))) k s evs now ms (vf_koid req) EpistemicStatus.Verified _ None (Some (ko_version head)) _ _ None Hok Hf)
    as (k' & x & -> & [(Hok' & Hx)|(h & ko & s' & evs' & Es & _ & Hm & -> & Hok' & _ & Hs')]); [exists k', x, s, evs; split_and!; auto; by exists head0|].
  eexists k', _, s', evs'. split; [reflexivity|]. split; [done|]. split; [|done]. unfold holding. rewrite Hs'. case_bool_decide as Ek; [|by exists head0].
  exists ko. split; [done|]. rewrite <-Ek, Hh0 in Es. injection Es as <-. destruct Hheld as [H1 H2]. split; (rewrite (moved_kept _ _ _ _ _ _ Hm); [done|]); not_claim_key.
Qed.

(** The writes of [verify_knowledge] after the transition. *)
Definition verify_fits k auth now ms1 ms2 (req : VerificationRequest) : Prop :=
  let c := vf_context req in
  koid_ok (vf_koid req) = true /\
  then_fits (authorized_head (authorize auth (kx_subject c)) (vf_koid req) Action.Write) k (fun head k1 =>
    epistemic_fits hmac_sha256 signer signing_key k1 now ms1 (vf_koid req) EpistemicStatus.Verified (Origin.Agent (subject_name c)) None (subject_name c) (vf_note req) None /\
    forall conf, verified_confidence now req (default confidence_default (confidence_context (ko_extensions head))) = KOk conf ->
    then_fits (transition_step auth now ms1 req head) k1 (fun _ k2 => then_fits (the_head (vf_koid req)) k2 (fun head' k3 => then_fits journal_seq k3 (fun seq k4 =>
      remember_fits k4 auth (vf_koid req) ms2 (verify_request req head' conf ((seq + 1) mod U64)))))).
Lemma journal_seq_guards k s evs : kernel_ok k s evs -> holding s -> guards holding k journal_seq (fun _ k' => kernel_ok k' s evs).
Proof.
  intros Hok Hi. eapply guards_weaken; [apply (guards_quiet _ k s evs _ (fun _ => True)); [done|] | by intros ? ? [_ ?]]. unfold journal_seq.
  eapply (kquiet_bind _ _ _ _ _ _ _ (fun _ => True)); [apply kquiet_repo; [done|]; apply rquiet_engine, (ok_repo _ _ _ _ _ Hok)|]. intros o r' _ _ Hok'. by apply kquiet_ret.
Qed.
Lemma verify_keys req head conf seq key : key ∈ CLAIM_KEYS -> btree_get (rq_extensions (verify_request req head conf seq)) key = btree_get (ko_extensions head) key.
Proof.
  intros Hin. cbn [verify_request restate rq_extensions]. unfold append_evidence. rewrite !get_insert_ne; [done|..]; intros ->; revert Hin; not_claim_key.
Qed.
Lemma verify_guards k s evs auth now ms1 ms2 req : kernel_ok k s evs -> holding s -> verify_fits k auth now ms1 ms2 req ->
  guards holding k (verify_knowledge hmac_sha256 signer signing_key cfg auth now ms1 ms2 req) (fun _ _ => True).
Proof.
  intros Hok Hi (Hk & Hf). unfold verify_knowledge. cbn zeta. eapply guards_lifted; [done..|]. intros _ _.
  eapply guards_bind; [by apply guards_head|]. intros head k1 s1 evs1 E1 (_ & _ & Hok1) _ _. destruct (Hf k1 head E1) as [Hef Hf1].
  eapply guards_lifted; [done..|]. intros _ _. eapply guards_lifted; [done..|]. intros conf Hconf. specialize (Hf1 conf Hconf).
  eapply (guards_bind _ _ (transition_step auth now ms1 req head)); [by apply (transition_guards k1 s evs)|]. intros [version ts] k2 s2 evs2 E2 _ Hok2 Hi2. specialize (Hf1 k2 _ E2).
  eapply guards_bind; [by apply guards_the_head|]. intros head' k3 s3 evs3 E3 (Hh & Hok3) _ _. specialize (Hf1 k3 _ E3).
  eapply guards_bind; [by eapply journal_seq_guards|]. intros seq k4 s4 evs4 E4 Hok4 _ _. specialize (Hf1 k4 _ E4).
  eapply guards_bind; [apply (remember_guards k4 s2 evs2); [exact Hok4 | exact Hi2 | exact Hf1|]; apply leaves_restated; [done|]; intros; by apply verify_keys|]. intros [rem auth'] k5 s5 evs5 _ _ Hok5 Hi5.
  by eapply (guards_lift _ _ _ _ (KOk _)).
Qed.

(* ------------------------------------------------------------------ *)
(** * Sequences of operations *)

Inductive TaskOp : Type :=
  | TRemember (auth : AuthManager) (minted : KOID) (ms : Z) (req : RememberRequest)
  | TObserve (auth : AuthManager) (minted : KOID) (now ms : Z) (req : ObservationRequest)
  | TIngest (auth : AuthManager) (minted : KOID) (now ms : Z) (req : IngestRequest)
  | TAssert (auth : AuthManager) (minted : KOID) (now ms : Z) (req : AssertionRequest)
  | TVerify (auth : AuthManager) (now ms1 ms2 : Z) (req : VerificationRequest)
  | TClaim (auth : AuthManager) (now ms : Z) (req : ClaimRequest)
  | TRelease (auth : AuthManager) (now ms : Z) (req : ReleaseRequest)
  | THandoff (auth : AuthManager) (minted : KOID) (now ms1 ms2 : Z) (req : HandoffRequest).
Definition task_action (op : TaskOp) : KM E unit :=
  match op with
  | TRemember auth minted ms req => _ ← remember hmac_sha256 signer signing_key cfg auth minted ms req; mret tt
  | TObserve auth minted now ms req => _ ← observe hmac_sha256 signer signing_key cfg auth minted now ms req; mret tt
  | TIngest auth minted now ms req => _ ← ingest_observation hmac_sha256 signer signing_key cfg auth minted now ms req; mret tt
  | TAssert auth minted now ms req => _ ← assert_knowledge hmac_sha256 signer signing_key cfg auth minted now ms req; mret tt
  | TVerify auth now ms1 ms2 req => _ ← verify_knowledge hmac_sha256 signer signing_key cfg auth now ms1 ms2 req; mret tt
  | TClaim auth now ms req => _ ← claim_task hmac_sha256 signer signing_key cfg auth now ms req; mret tt
  | TRelease auth now ms req => _ ← release_task hmac_sha256 signer signing_key cfg auth now ms req; mret tt
  | THandoff auth minted now ms1 ms2 req => _ ← handoff_task hmac_sha256 signer signing_key cfg auth minted now ms1 ms2 req; mret tt
  end.
Definition head_fits k auth (c : KnowledgeContext) koid (P : KnowledgeObject -> Kernel E -> Prop) : Prop :=
  koid_ok koid = true /\ then_fits (authorized_head (authorize auth (kx_subject c)) koid Action.Write) k P.
Definition task_fits k (op : TaskOp) : Prop :=
  match op with
  | TRemember auth minted ms req => remember_fits k auth minted ms req
  | TObserve auth minted now ms req => remember_fits k auth minted ms
      (create_request (ob_context req) None (ob_type_name req) [] (ob_properties req) [] (ob_security req) (observe_extensions now req) Origin.System (ob_note req))
  | TIngest auth minted now ms req => forall ev evs, in_evidence req = ev :: evs -> remember_fits k auth minted ms
      (create_request (in_context req) (in_idempotency_key req) (in_type_name req) (in_tags req) (in_properties req) [] (in_security req)
        (ingest_extensions now (ev_method ev) req) Origin.System (in_note req))
  | TAssert auth minted now ms req => forall a, remember_fits k auth minted ms
      (create_request (as_context req) None (as_type_name req) [] (as_properties req) [] (as_security req)
        (assert_extensions now (Authority.as_str a) (as_evidence req) (as_valid_from req)) (Origin.Agent (subject_name (as_context req))) (as_note req))
  | TVerify auth now ms1 ms2 req => verify_fits k auth now ms1 ms2 req
  | TClaim auth now ms req => head_fits k auth (cl_context req) (cl_task req) (fun head k1 =>
      forall u, lease_end now (cl_lease_secs req) = KOk u -> remember_fits k1 auth (cl_task req) ms (claim_request req head u))
  | TRelease auth now ms req => head_fits k auth (re_context req) (re_task req) (fun head k1 => remember_fits k1 auth (re_task req) ms (release_request req head))
  | THandoff auth minted now ms1 ms2 req => head_fits k auth (ho_context req) (ho_task req) (fun head k1 =>
      remember_fits k1 auth (ho_task req) ms1 (transfer_request req head) /\
      then_fits (remember_locked auth (ho_task req) ms1 (transfer_request req head)) k1 (fun x k2 => remember_fits k2 x.2 minted ms2 (handoff_record req)))
  end.
(** The operations that take the task, and the ones that someone other than the holder may
    run while the lease runs. *)
Definition takes (op : TaskOp) : Prop :=
  match op with TClaim _ _ _ req => cl_task req = task | TRelease _ _ _ req => re_task req = task | THandoff _ _ _ _ _ req => ho_task req = task | _ => False end.
Definition by_another (op : TaskOp) : Prop :=
  match op with
  | TClaim _ now _ req => cl_task req = task -> subject_name (cl_context req) <> name /\ now < until
  | TRelease _ _ _ req => re_task req = task -> subject_name (re_context req) <> name
  | THandoff _ _ _ _ _ req => ho_task req = task -> subject_name (ho_context req) <> name
  | _ => True
  end.
Fixpoint run_tasks k (ops : list TaskOp) : Kernel E * list (KResult unit) :=
  match ops with [] => (k, []) | op :: ops => let '(k, x) := task_action op k in let '(k, xs) := run_tasks k ops in (k, x :: xs) end.
Fixpoint tasks_fit k (ops : list TaskOp) : Prop :=
  match ops with [] => True | op :: ops => task_fits k op /\ tasks_fit (task_action op k).1 ops end.

Lemma guards_done {A} k (m : KM E A) (P : A -> Prop) : guards holding k m (fun a _ => P a) -> guards holding k (_ ← m; mret tt) (fun _ _ => exists a, P a).
Proof.
  intros (k1 & x & s1 & evs1 & E1 & Hok1 & Hi & Hp). unfold guards. rewrite km_bind, E1. destruct x as [a|e|].
  - exists k1, (KOk tt), s1, evs1. split_and!; auto. intros ? _. exists a. by apply Hp.
  - by exists k1, (KErr e), s1, evs1.
  - by exists k1, KPanic, s1, evs1.
Qed.
Lemma holding_claim s head : 0 < until -> holding s -> spec_head_object s task = Some head -> claim_of (ko_extensions head) = (Some name, until).
Proof. intros Hu (h & Hh & Hheld) Hs. rewrite Hs in Hh. injection Hh as <-. by apply held_claim. Qed.
(** A write to another object. *)
Lemma elsewhere_guards k s evs auth koid ms req : kernel_ok k s evs -> holding s -> rq_koid req = Some koid -> koid <> task -> remember_fits k auth koid ms req ->
  guards holding k (remember_locked auth koid ms req) (fun a _ => a.2 = auth).
Proof. intros Hok Hi Er Hne Hf. eapply remember_guards; [done..|]. rewrite Er. intros Heq. by destruct (Hne Heq). Qed.

Lemma claim_guards k s evs auth now ms req : 0 < until -> kernel_ok k s evs -> holding s -> task_fits k (TClaim auth now ms req) -> by_another (TClaim auth now ms req) ->
  guards holding k (claim_task hmac_sha256 signer signing_key cfg auth now ms req) (fun _ _ => cl_task req <> task).
Proof.
  intros Hu Hok Hi (Hk & Hf) Hb. unfold claim_task. cbn zeta. eapply guards_bind; [by apply guards_head|]. intros head k1 s1 evs1 E1 (Hh & _ & Hok1) _ _. specialize (Hf k1 head E1). cbn beta in Hf.
  eapply guards_lifted; [done..|]. intros _ _. destruct (claim_of (ko_extensions head)) as [holder u] eqn:Ec. eapply guards_lifted; [done..|]. intros ? Hfree.
  assert (cl_task req <> task) as Hne.
  { intros Et. cbn [by_another] in Hb. destruct (Hb Et) as [Hn Hnow]. rewrite Et in Hh. rewrite (holding_claim s head Hu Hi Hh) in Ec. injection Ec as <- <-.
    rewrite bool_decide_false in Hfree by congruence. by rewrite (proj2 (Z.ltb_lt _ _) Hnow) in Hfree. }
  eapply guards_lifted; [done..|]. intros cu Hcu. eapply guards_bind; [eapply elsewhere_guards; [done..|]; by apply Hf|]. intros [r auth'] k2 s2 evs2 _ _ Hok2 Hi2.
  by eapply (guards_lift _ _ _ _ (KOk _)).
Qed.
Lemma release_guards k s evs auth now ms req : 0 < until -> kernel_ok k s evs -> holding s -> task_fits k (TRelease auth now ms req) -> by_another (TRelease auth now ms req) ->
  guards holding k (release_task hmac_sha256 signer signing_key cfg auth now ms req) (fun _ _ => re_task req <> task).
Proof.
  intros Hu Hok Hi (Hk & Hf) Hb. unfold release_task. cbn zeta. eapply guards_bind; [by apply guards_head|]. intros head k1 s1 evs1 E1 (Hh & _ & Hok1) _ _. specialize (Hf k1 head E1). cbn beta in Hf.
  destruct (claim_of (ko_extensions head)) as [holder u] eqn:Ec. case_bool_decide as Eh; [|by eapply guards_lift].
  assert (re_task req <> task) as Hne by (intros Et; rewrite Et in Hh; rewrite (holding_claim s head Hu Hi Hh) in Ec; apply (Hb Et); congruence).
  eapply guards_weaken; [by eapply elsewhere_guards | done].
Qed.
Lemma handoff_guards k s evs auth minted now ms1 ms2 req : 0 < until -> kernel_ok k s evs -> holding s -> task_fits k (THandoff auth minted now ms1 ms2 req) ->
  by_another (THandoff auth minted now ms1 ms2 req) ->
  guards holding k (handoff_task hmac_sha256 signer signing_key cfg auth minted now ms1 ms2 req) (fun _ _ => ho_task req <> task).
Proof.
  intros Hu Hok Hi (Hk & Hf) Hb. unfold handoff_task. cbn zeta. eapply guards_lifted; [done..|]. intros _ _. eapply guards_bind; [by apply guards_head|].
  intros head k1 s1 evs1 E1 (Hh & _ & Hok1) _ _. destruct (Hf k1 head E1) as [Hf1 Hf2].
  destruct (claim_of (ko_extensions head)) as [holder u] eqn:Ec. case_bool_decide as Eh; [|by eapply guards_lift].
  assert (ho_task req <> task) as Hne by (intros Et; rewrite Et in Hh; rewrite (holding_claim s head Hu Hi Hh) in Ec; apply (Hb Et); congruence).
  eapply guards_bind; [by eapply elsewhere_guards|]. intros [r auth'] k2 s2 evs2 E2 _ Hok2 Hi2. specialize (Hf2 k2 _ E2).
  eapply guards_weaken; [eapply create_guards; [done..| |exact Hf2] | done]. intros key Hin. unfold append_evidence. rewrite get_insert_ne; [done|]. intros ->. revert Hin. not_claim_key.
Qed.
Lemma task_step k s evs op : 0 < until -> kernel_ok k s evs -> holding s -> task_fits k op -> by_another op -> guards holding k (task_action op) (fun _ _ => ~ takes op).
Proof.
  intros Hu Hok Hi Hf Hb. destruct op; cbn [task_action takes].
  - eapply guards_weaken; [apply (guards_done _ _ (fun _ => True)) | by intros ? ? _ ?]. unfold remember. destruct (existsb _ _) eqn:Eg; [by eapply guards_lift|].
    eapply guards_weaken; [eapply remember_guards; [done..|] | done]. apply leaves_absent. intros key Hin. apply has_key_false, (guard_absent _ Eg). claim_key Hin; apply list_elem_of_In; cbn [KERNEL_MANAGED_EXTENSIONS In]; tauto.
  - eapply guards_weaken; [apply (guards_done _ _ (fun _ => True)) | by intros ? ? _ ?]. unfold observe. eapply guards_lifted; [done..|]. intros _ _.
    eapply guards_weaken; [eapply create_guards; [done..| |exact Hf] | done]. intros key Hin. unset_key Hin.
  - eapply guards_weaken; [apply (guards_done _ _ (fun _ => True)) | by intros ? ? _ ?]. unfold ingest_observation. eapply guards_lifted; [done..|]. intros _ _.
    destruct (in_evidence req) as [|ev evs'] eqn:Ee; [by eapply guards_lift|]. eapply guards_weaken; [eapply create_guards; [done..| |by eapply Hf] | done]. intros key Hin. unset_key Hin.
  - eapply guards_weaken; [apply (guards_done _ _ (fun _ => True)) | by intros ? ? _ ?]. unfold assert_knowledge. eapply guards_lifted; [done..|]. intros _ _. eapply guards_lifted; [done..|]. intros a _.
    eapply guards_weaken; [eapply create_guards; [done..| |apply Hf] | done]. intros key Hin. unset_key Hin.
  - eapply guards_weaken; [apply (guards_done _ _ (fun _ => True)) | by intros ? ? _ ?]. eapply guards_weaken; [by eapply verify_guards | done].
  - eapply guards_weaken; [by eapply guards_done, claim_guards | by intros _ _ [_ ?]].
  - eapply guards_weaken; [by eapply guards_done, release_guards | by intros _ _ [_ ?]].
  - eapply guards_weaken; [by eapply guards_done, handoff_guards | by intros _ _ [_ ?]].
Qed.

(** C11: a lease is exclusive while it runs.  An agent that holds the claim on a task until
    some instant keeps it, with that end, through any sequence of writes, observations,
    ingestions, assertions and verifications by anyone (the task itself included), and of
    claims before that instant, releases and handoffs by other agents; and every one of those
    claims, releases and handoffs that is on the task is refused. *)
Theorem lease_held k s evs ops head :
  kernel_ok k s evs -> koid_ok task = true -> 0 < until -> (head_object task (k_repo k)).2 = KOk (Some head) -> claim_of (ko_extensions head) = (Some name, until) ->
  Forall by_another ops -> tasks_fit k ops ->
  let '(k', xs) := run_tasks k ops in
  (exists head', (head_object task (k_repo k')).2 = KOk (Some head') /\ claim_of (ko_extensions head') = (Some name, until)) /\
  Forall2 (fun op x => takes op -> forall u, x <> KOk u) ops xs.
Proof.
  intros Hok Hk Hu Hh Hc. assert (holding s) as Hi.
  { rewrite (head_object_is _ _ _ _ _ _ Hok Hk) in Hh. injection Hh as Hh. exists head. split; [done|]. by apply held_claim. }
  clear head Hh Hc. revert k s evs Hok Hi. induction ops as [|op ops IH]; intros k s evs Hok Hi Hb Hf; cbn [run_tasks].
  - split; [|done]. destruct Hi as (head & Hh & Hheld). exists head. rewrite (head_object_is _ _ _ _ _ _ Hok Hk), Hh. split; [done|]. by apply held_claim.
  - apply Forall_cons in Hb as [Hb1 Hb]. destruct Hf as [Hf1 Hf]. destruct (task_step k s evs op Hu Hok Hi Hf1 Hb1) as (k1 & x & s1 & evs1 & E1 & Hok1 & Hi1 & Hx). rewrite E1 in Hf |- *. cbn [fst] in Hf.
    specialize (IH k1 s1 evs1 Hok1 Hi1 Hb Hf). destruct (run_tasks k1 ops) as [k2 xs]. destruct IH as [IH1 IH2]. split; [done|]. constructor; [|done]. intros Ht u ->. by apply (Hx u eq_refl).
Qed.
End Held.

(* ------------------------------------------------------------------ *)
(** * One claim *)

Definition claim_free (now : Z) (me : bytes) (ext : PropertyMap) : Prop := (claim_of ext).1 = Some me \/ (claim_of ext).2 <= now.
(** The version a restatement leaves. *)
Record restated (head ko : KnowledgeObject) : Prop := {
  rs_version : ko_version ko = (ko_version head + 1) mod U64;
  rs_body : ko_metadata ko = ko_metadata head /\ ko_properties ko = ko_properties head /\ ko_lifecycle ko = ko_lifecycle head /\ ko_security ko = ko_security head;
  rs_edges : forall rel, rel ∈ ko_relationships ko <-> rel ∈ ko_relationships head;
  rs_semantic : ko_semantic ko = None }.
Lemma no_prior s req : rq_idempotency_key req = None -> prior_of s req = None.
Proof. intros En. unfold prior_of, scoped_key. by rewrite En. Qed.
(** A restatement is refused with only the cache changed, or replaces the head. *)
Lemma restate_cases k s evs auth ms c koid head ext origin note : kernel_ok k s evs -> spec_head_object s koid = Some head ->
  remember_fits k auth koid ms (restate c koid head ext origin note) ->
  exists k' x, remember_locked auth koid ms (restate c koid head ext origin note) k = (k', x) /\
    ((kernel_ok k' s evs /\ k_pipe k' = k_pipe k /\ forall a, x <> KOk a) \/
     exists ko s' evs' ts, x = KOk (mkRemembered koid (ko_version ko) ts (zlen evs + 1), auth) /\ kernel_ok k' s' evs' /\ restated head ko /\
       ko_extensions ko = btree_insert (merged (ko_extensions head) ext) EXT_SALIENCE (VFloat (authority_factor (merged (ko_extensions head) ext))) /\
       (exists kind, ko_commit_ts ko = ts /\ ko_event_refs ko = ko_event_refs head ++ [mkEventRef (zlen evs + 1) kind ts] /\ zlen evs + 1 < U64) /\
       forall x, spec_head_object s' x = if bool_decide (x = koid) then Some ko else spec_head_object s x).
Proof.
  intros Hok Hh Hf. destruct (remember_cases hmac_sha256 signer signing_key cfg k s evs auth koid ms _ Hok Hf) as [(r' & x & Ex & Hok' & Hx)|(_ & hd & ko & k' & s' & evs' & ts & Ha & Ex & Hok' & _ & Hs')].
  - exists (set_repo k r'), x. split; [done|]. left. split_and!; [done..|]. intros a Ea. destruct (Hx a Ea) as [(kind & Hp) _]. by rewrite no_prior in Hp.
  - eexists k', _. split; [exact Ex|]. right. destruct (ad_object _ _ _ _ _ _ _ Ha) as (e & sec & He & Hsec & ->). pose proof (ad_head _ _ _ _ _ _ _ Ha) as Ehd. change (hd = spec_head_object s koid) in Ehd.
    rewrite Hh in Ehd. subst hd.
    assert (zlen evs + 1 < U64) as Hu.
    { pose proof Hf as (Hk & _ & _ & _ & _ & Hfit). destruct (ok_seq _ _ _ _ _ Hok) as [<- _]. destruct (Hfit (Some head) e sec) as (_ & _ & Hq & _); [|done..|done].
      rewrite (head_object_is _ _ _ _ _ _ Hok Hk). by rewrite <-Hh. }
    cbn [request_extensions restate rq_extensions] in He. apply updated_extensions in He as ->. cbn [request_security] in Hsec.
    destruct (authorize _ _ _ _) as [[]|?|]; [|done..]. injection Hsec as <-.
    match type of Hs' with context [stamp ?a ?b ?c ?d] => exists (stamp a b c d), s', evs', ts end. split; [cbn [stamp ko_version]; reflexivity|]. split; [exact Hok'|].
    split; [|split; [cbn [stamp request_object ko_extensions restate rq_extensions]; reflexivity | split; [by eexists (request_kind _ _) | exact Hs']]].
    split; [reflexivity | done | | reflexivity]. intros rel. cbn [stamp request_object ko_relationships restate rq_relationships]. rewrite keep_edges_elem. tauto.
Qed.

Lemma claim_of_insert ext key v : key ∉ CLAIM_KEYS -> claim_of (btree_insert ext key v) = claim_of ext.
Proof. intros Hn. unfold CLAIM_KEYS in Hn. rewrite !not_elem_of_cons in Hn. destruct Hn as (? & ? & _). unfold claim_of. by rewrite !get_insert_ne. Qed.
Lemma claimed_extensions head name u : claim_of (merged head (btree_insert (btree_insert head CLAIM_HOLDER (VText name)) CLAIM_UNTIL (VInt (as_i64 u)))) =
  (Some name, if 0 <? as_i64 u then as_i64 u else 0).
Proof.
  unfold claim_of. rewrite (merged_request _ _ CLAIM_HOLDER (VText name)); [|rewrite get_insert_ne by (vm_compute; done); by rewrite get_insert_eq | done].
  by rewrite (merged_request _ _ CLAIM_UNTIL (VInt (as_i64 u))) by (done || by rewrite get_insert_eq).
Qed.
Lemma lease_end_spec now l u : lease_end now l = KOk u -> u = now + l * 1000 /\ u < U64.
Proof. unfold lease_end. destruct (Z.leb_spec U64 (l * 1000)); [done|]. destruct (Z.leb_spec U64 (now + l * 1000)); [done|]. intros [= <-]. done. Qed.
Lemma reads_same_ok k k' s evs : kernel_ok k s evs -> kernel_ok k' s evs -> k_pipe k' = k_pipe k -> reads_same k k'.
Proof. intros Hok Hok' Hp. split; [done|]. intros x Hx. by rewrite (head_object_is _ _ _ _ _ _ Hok' Hx), (head_object_is _ _ _ _ _ _ Hok Hx). Qed.

(** What a successful claim leaves. *)
Record claimed k k' auth now (req : ClaimRequest) (r : ClaimResult) (head ko : KnowledgeObject) : Prop := {
  cm_before : (head_object (cl_task req) (k_repo k)).2 = KOk (Some head);
  cm_after : (head_object (cl_task req) (k_repo k')).2 = KOk (Some ko);
  cm_allowed : authorize auth (kx_subject (cl_context req)) head Action.Write = KOk tt /\ invalidation (ko_extensions head) = None /\ claim_free now (subject_name (cl_context req)) (ko_extensions head);
  cm_until : cr_claim_until r = now + cl_lease_secs req * 1000 /\ cr_claim_until r < U64;
  cm_renewed : cr_renewed r = true <-> (claim_of (ko_extensions head)).1 = Some (subject_name (cl_context req));
  cm_claim : claim_of (ko_extensions ko) = (Some (subject_name (cl_context req)), if cr_claim_until r <? 2 ^ 63 then cr_claim_until r else 0);
  cm_restated : restated head ko;
  cm_version : cr_version r = ko_version ko;
  cm_others : forall x, x <> cl_task req -> koid_ok x = true -> (head_object x (k_repo k')).2 = (head_object x (k_repo k)).2 }.
(** A head that the caller may claim but for the lease of another. *)
Definition taken (auth : AuthManager) (now : Z) (req : ClaimRequest) (head : KnowledgeObject) : Prop :=
  authorize auth (kx_subject (cl_context req)) head Action.Write = KOk tt /\ invalidation (ko_extensions head) = None /\ ~ claim_free now (subject_name (cl_context req)) (ko_extensions head).
Lemma as_i64_lease u : 0 <= u < U64 -> (if 0 <? as_i64 u then as_i64 u else 0) = if u <? 2 ^ 63 then u else 0.
Proof.
  intros Hu. unfold as_i64. rewrite Z.mod_small by done. unfold U64 in *. destruct (Z.ltb_spec u (2 ^ 63)); [destruct (Z.ltb_spec 0 u); lia|]. destruct (Z.ltb_spec 0 (u - 2 ^ 64)); lia.
Qed.
End Lease.
