(* ===== verification/Sweep.v ===== *)
(** The sweep that follows an invalidation or a supersession (transaction/kernel/ops.rs,
    [invalidate_dependents_locked]): it ends, it finds exactly what is derived from the roots
    through knowledge that is still supported, and it stamps each of those or reports why not. *)

From Stdlib Require Import String.
From stdpp Require Import gmap.
From S2P Require Import Prelude Format Memtable Kom Codec CodecProps Store Repository RepositorySpec RepositoryReads RepositoryRebuild RepositoryProps Commit CommitInv CommitOps CommitRun Epistemic Auth Expr Schema Constraint Ontology Remember RememberProps Ops Lease.

(* ------------------------------------------------------------------ *)
(** * The dependency graph *)

Section Graph.
Context (s : SpecState).
Definition supported (x : KOID) : Prop := exists h, spec_head_object s x = Some h /\ invalidation (ko_extensions h) = None.
Definition derives (x y : KOID) : Prop := is_Some (s !! IdRelOut x DERIVED_FROM y).
(** What depends on the roots, through supported objects. *)
Inductive dependent (roots : list KOID) : KOID -> Prop :=
  | dependent_root x : x ∈ roots -> supported x -> dependent roots x
  | dependent_step x y : dependent roots x -> derives x y -> supported y -> dependent roots y.

Definition deps (x : KOID) : list KOID := map snd (listed (sel_out_type x DERIVED_FROM) s).
Lemma deps_elem m x y : represents m s -> y ∈ deps x <-> derives x y.
Proof.
  intros Hr. unfold deps, derives, listed. rewrite list_elem_of_fmap. split.
  - intros ([rt y'] & -> & ([id v] & Hx & Hsel)%list_elem_of_omap). apply (sorted_rows_elem m) in Hx; [|done]. cbn [fst snd] in *. unfold sel_out_type in Hsel. cbn [fst] in Hsel. destruct id; try done.
    destruct (bool_decide (src = x)) eqn:E1; [|done]. destruct (bool_decide (rt0 = DERIVED_FROM)) eqn:E2; [|done]. apply bool_decide_eq_true in E1 as ->, E2 as ->. injection Hsel as _ ->. by exists v.
  - intros [v Hv]. exists (DERIVED_FROM, y). split; [done|]. apply list_elem_of_omap. exists (IdRelOut x DERIVED_FROM y, v). split; [by apply (sorted_rows_elem m)|].
    cbn [sel_out_type fst]. by rewrite !bool_decide_true.
Qed.

(** ** The edges not yet followed *)
Definition unfollowed (visited : gset KOID) (x : RowId * RowValue) : option unit :=
  match x.1 with IdRelOut src rt _ => if bool_decide (rt = DERIVED_FROM) && bool_decide (src ∉ visited) then Some () else None | _ => None end.
Lemma unfollowed_out visited src rt dst v :
  unfollowed visited (IdRelOut src rt dst, v) = if bool_decide (rt = DERIVED_FROM) && bool_decide (src ∉ visited) then Some () else None.
Proof. reflexivity. Qed.
Lemma sel_type_out x t src rt dst v : sel_out_type x t (IdRelOut src rt dst, v) = if bool_decide (src = x) && bool_decide (rt = t) then Some (rt, dst) else None.
Proof. reflexivity. Qed.
Definition pending (visited : gset KOID) : nat := length (omap (unfollowed visited) (sorted_rows s)).
Lemma pending_follow visited x : x ∉ visited -> (pending ({[x]} ∪ visited) + length (deps x))%nat = pending visited.
Proof.
  intros Hx. unfold pending, deps, listed. rewrite length_map. generalize (sorted_rows s) as l. induction l as [|[id v] l IH]; [done|].
  cbn [omap list_omap]. destruct id; try exact IH. rewrite !unfollowed_out, sel_type_out. destruct (decide (rt = DERIVED_FROM)) as [->|Hn].
  - rewrite (bool_decide_true (DERIVED_FROM = DERIVED_FROM)) by done. rewrite andb_true_r, !andb_true_l. destruct (decide (src = x)) as [->|Hne].
    + rewrite (bool_decide_true (x = x)), (bool_decide_true (x ∉ visited)) by done. rewrite bool_decide_false by set_solver. cbn [length]. lia.
    + rewrite (bool_decide_false (src = x)) by done. rewrite (bool_decide_ext (src ∉ {[x]} ∪ visited) (src ∉ visited)) by set_solver. destruct (bool_decide _); cbn [length]; lia.
  - rewrite (bool_decide_false (rt = DERIVED_FROM)) by done. rewrite andb_false_r, !andb_false_l. exact IH.
Qed.
Lemma pending_mono visited x : (pending ({[x]} ∪ visited) <= pending visited)%nat.
Proof.
  unfold pending. generalize (sorted_rows s) as l. induction l as [|[id v] l IH]; [done|]. cbn [omap list_omap]. destruct id; try exact IH.
  rewrite !unfollowed_out. destruct (bool_decide (rt = DERIVED_FROM)); [|exact IH]. rewrite !andb_true_l. do 2 case_bool_decide; cbn [length]; try lia; set_solver.
Qed.

(** ** The state of the walk *)
Record walk (roots queue : list KOID) (visited : gset KOID) (found : list KOID) : Prop := {
  wk_nodup : NoDup found;
  wk_found : forall x, x ∈ found <-> x ∈ visited /\ supported x;
  wk_from : forall x, x ∈ found -> dependent roots x;
  wk_queue : forall x, x ∈ queue -> x ∈ roots \/ exists y, dependent roots y /\ derives y x;
  wk_roots : forall x, x ∈ roots -> x ∈ queue \/ x ∈ visited;
  wk_closed : forall x y, x ∈ found -> derives x y -> y ∈ queue \/ y ∈ visited }.
Lemma walk_start roots : walk roots roots ∅ [].
Proof. split; [constructor | set_solver | set_solver | auto | auto | set_solver]. Qed.
Lemma walk_end roots visited found x : walk roots [] visited found -> x ∈ found <-> dependent roots x.
Proof.
  intros Hw. split; [apply Hw|]. induction 1 as [x Hr Hs|x y Hd IH He Hs]; apply (wk_found _ _ _ _ Hw).
  - split; [|done]. by destruct (wk_roots _ _ _ _ Hw x Hr) as [?%elem_of_nil|?].
  - split; [|done]. by destruct (wk_closed _ _ _ _ Hw x y IH He) as [?%elem_of_nil|?].
Qed.
Lemma walk_dependent roots queue visited found x : walk roots (x :: queue) visited found -> supported x -> dependent roots x.
Proof. intros Hw Hs. destruct (wk_queue _ _ _ _ Hw x) as [Hr|(y & Hd & He)]; [set_solver | by apply dependent_root | by eapply dependent_step]. Qed.
Lemma walk_again roots queue visited found x : walk roots (x :: queue) visited found -> x ∈ visited -> walk roots queue visited found.
Proof. intros Hw Hx. split; [apply Hw | apply Hw | apply Hw | intros; apply Hw; set_solver | |]; [intros y Hy; destruct (wk_roots _ _ _ _ Hw y Hy) | intros y z Hy Hz; destruct (wk_closed _ _ _ _ Hw y z Hy Hz)]; set_solver. Qed.
Lemma walk_skip roots queue visited found x : walk roots (x :: queue) visited found -> ~ supported x -> walk roots queue ({[x]} ∪ visited) found.
Proof.
  intros Hw Hx. split; [apply Hw | | apply Hw | intros; apply Hw; set_solver | |].
  - intros y. rewrite (wk_found _ _ _ _ Hw y). split; [set_solver|]. intros [[->%elem_of_singleton|?]%elem_of_union ?]; done.
  - intros y Hy. destruct (wk_roots _ _ _ _ Hw y Hy); set_solver.
  - intros y z Hy Hz. destruct (wk_closed _ _ _ _ Hw y z Hy Hz); set_solver.
Qed.
Lemma walk_take m roots queue visited found x : represents m s -> walk roots (x :: queue) visited found -> x ∉ visited -> supported x ->
  walk roots (queue ++ deps x) ({[x]} ∪ visited) (found ++ [x]).
Proof.
  intros Hr Hw Hn Hs. pose proof (walk_dependent _ _ _ _ _ Hw Hs) as Hd. split.
  - apply NoDup_app. split; [apply Hw|]. split; [|apply NoDup_singleton]. intros y Hy ->%list_elem_of_singleton. by apply (wk_found _ _ _ _ Hw) in Hy as [? _].
  - intros y. rewrite elem_of_app, (wk_found _ _ _ _ Hw y), list_elem_of_singleton. split; [intros [[? ?]| ->]; set_solver|]. intros [[->%elem_of_singleton|?]%elem_of_union ?]; auto.
  - intros y [Hy| ->%list_elem_of_singleton]%elem_of_app; [by apply Hw | done].
  - intros y [Hy|Hy]%elem_of_app; [apply Hw; set_solver|]. right. exists x. split; [done|]. by apply (deps_elem m).
  - intros y Hy. destruct (wk_roots _ _ _ _ Hw y Hy); set_solver.
  - intros y z [Hy| ->%list_elem_of_singleton]%elem_of_app Hz; [destruct (wk_closed _ _ _ _ Hw y z Hy Hz); set_solver|]. left. apply elem_of_app. right. by apply (deps_elem m).
Qed.
End Graph.

(* ------------------------------------------------------------------ *)
(** * One stamp *)

Lemma strip_other ext key k : k <> key -> btree_get (strip_null ext key) k = btree_get ext k.
Proof. intros Hne. unfold strip_null. destruct (btree_get ext key) as [[]|]; try done. by apply remove_other. Qed.
Lemma carried_none head keys k : btree_get head k = None -> forall ext, btree_get ext k = None -> btree_get (fold_left (carry head) keys ext) k = None.
Proof. intros Hh. induction keys as [|key keys IH]; intros ext Hn; [done|]. cbn [fold_left]. apply IH. rewrite carry_get, Hn, Hh. by case_match. Qed.
Lemma merged_other head ext k v : k ∉ CLAIM_KEYS -> btree_get ext k = Some v -> btree_get (merged head ext) k = Some v.
Proof. intros Hn Hv. unfold CLAIM_KEYS in Hn. rewrite !not_elem_of_cons in Hn. destruct Hn as (? & ? & _). unfold merged. rewrite !strip_other by done. by apply carried_keeps. Qed.
Lemma merged_same head ext k : k ∉ CLAIM_KEYS -> btree_get ext k = btree_get head k -> btree_get (merged head ext) k = btree_get head k.
Proof.
  intros Hn He. destruct (btree_get head k) as [v|] eqn:Eh; [by apply merged_other|]. unfold CLAIM_KEYS in Hn. rewrite !not_elem_of_cons in Hn. destruct Hn as (? & ? & _).
  unfold merged. rewrite !strip_other by done. by apply carried_none.
Qed.
(** The version a stamp leaves: withdrawn with the reason, its validity ended, its status kept. *)
Record withdrawn (at_ : Z) (actor reason : bytes) (head ko : KnowledgeObject) : Prop := {
  wd_restated : restated head ko;
  wd_invalid : invalidation (ko_extensions ko) = Some (mkInvalidation at_ actor reason);
  wd_status : status_of ko = status_of head;
  wd_valid_to : valid_to (ko_extensions ko) = Some (default (match valid_from (ko_extensions head) with Some f => Z.max f at_ | None => at_ end) (valid_to (ko_extensions head))) }.
Lemma invalidated_get ext at_ actor reason : 0 <= at_ < 2 ^ 63 -> invalidation (set_invalidated ext at_ actor reason) = Some (mkInvalidation at_ actor reason).
Proof.
  intros Ha. unfold invalidation, set_invalidated. rewrite get_insert_eq. set (m := pm_put _ _ _).
  assert (btree_get m (txt "at") = Some (VInt (as_i64 at_))) as E1 by (unfold m, pm_put; rewrite !get_insert_ne by (vm_compute; done); apply get_insert_eq).
  assert (btree_get m (txt "actor") = Some (VText actor)) as E2 by (unfold m, pm_put; rewrite get_insert_ne by (vm_compute; done); apply get_insert_eq).
  assert (btree_get m (txt "reason") = Some (VText reason)) as E3 by apply get_insert_eq.
  cbn [mbind option_bind]. unfold invalidation_from_value. cbn [mbind option_bind]. rewrite E1, E2, E3, as_i64_small by done. by rewrite (proj2 (Z.leb_le _ _)) by lia.
Qed.
Lemma stamped_withdrawn at_ actor reason head ko ext v : map_wf (ko_extensions head) = true -> 0 <= at_ < 2 ^ 63 -> stamped_extensions (ko_extensions head) at_ actor reason = KOk ext ->
  restated head ko -> ko_extensions ko = btree_insert (merged (ko_extensions head) ext) EXT_SALIENCE v -> withdrawn at_ actor reason head ko.
Proof.
  intros [Hk Hi]%map_wf_facts Ha Hst Hre Hext. unfold stamped_extensions in Hst. set (e0 := set_invalidated _ _ _ _) in Hst.
  assert (keys_sorted e0) as Hk0 by (by apply btree_insert_sorted). assert (ints_fit e0) as Hi0 by (intros k i; unfold e0, set_invalidated; rewrite btree_get_insert; destruct (bytes_eqb k _); [done | apply Hi]).
  destruct (close_valid_time_spec e0 at_ Hk0 Hi0 Ha) as (e & t & Ec & E1 & E2 & E3 & E4). rewrite Ec in Hst. injection Hst as ->.
  assert (forall k, k <> EXT_INVALIDATION -> btree_get e0 k = btree_get (ko_extensions head) k) as Hg by (intros; by apply get_insert_ne).
  assert (forall k, k ∉ EXT_SALIENCE :: CLAIM_KEYS -> forall w, btree_get ext k = Some w -> btree_get (ko_extensions ko) k = Some w) as Hm.
  { intros k [? ?]%not_elem_of_cons w Hw. rewrite Hext, get_insert_ne by done. by apply merged_other. }
  split; [done|..].
  - unfold invalidation. rewrite (Hm EXT_INVALIDATION ltac:(not_claim_key) (VMap (pm_put (pm_put (pm_put [] "at" (VInt (as_i64 at_))) "actor" (VText actor)) "reason" (VText reason)))).
    + pose proof (invalidated_get (ko_extensions head) at_ actor reason Ha) as Hv. unfold invalidation, set_invalidated in Hv. by rewrite get_insert_eq in Hv.
    + rewrite E4 by (vm_compute; done). apply get_insert_eq.
  - unfold status_of, epistemic_status. destruct (rs_body _ _ Hre) as (_ & _ & -> & _). rewrite Hext, get_insert_ne by (vm_compute; done).
    rewrite merged_same; [done | not_claim_key|]. rewrite E4 by (vm_compute; done). by apply Hg.
  - assert (valid_to e0 = valid_to (ko_extensions head) /\ valid_from e0 = valid_from (ko_extensions head)) as [Et Ef] by (split; apply ext_instant_get, Hg; vm_compute; done).
    rewrite Et, Ef in E3. unfold valid_to, ext_instant in E1. destruct (btree_get ext EXT_VALID_TO) as [w|] eqn:Ew; [|done]. unfold valid_to at 1, ext_instant.
    rewrite (Hm EXT_VALID_TO ltac:(not_claim_key) w Ew). rewrite E1. by destruct E3 as [->|[-> ->]].
Qed.

(* ------------------------------------------------------------------ *)
(** * The two phases *)

Section Sweep.
Context {E : Type} `{HL : EngineLaws E} `{SHA : Sha256} `{Regex}.
Context (hmac_sha256 : bytes -> bytes -> bytes) (signer : option (bytes -> bytes)) (signing_key : option bytes).
Context (cfg : Config).
Abbreviation kernel_ok := (kernel_ok hmac_sha256 signing_key).
Abbreviation remember_fits := (remember_fits hmac_sha256 signer signing_key).
Implicit Types k : Kernel E.

(** No relationship type of a stored edge holds a slash, and the index can be scanned. *)
Definition typed_edges (s : SpecState) : Prop := forall src rt dst v, s !! IdRelOut src rt dst = Some v -> slash_free rt = true.
Definition scans_edges k : Prop := forall x, koid_ok x = true -> scannable (rp_engine (k_repo k)) (rel_out_prefix_src_type x DERIVED_FROM).
(** The same of the rows as the engine holds them. *)
Definition edge_rows k (found : list (bytes * bytes)) : Prop :=
  scannable (rp_engine (k_repo k)) P_REL_OUT /\ eng_scan (rp_engine (k_repo k)) P_REL_OUT = KOk found /\
  Forall (fun kv => match decode_rel_out_key kv.1 with KOk (_, rt, _) => slash_free rt = true | _ => True end) found.
Lemma omap_filter_le {A B} (g : A -> option B) (f : A -> bool) l : (forall x, is_Some (g x) -> f x = true) -> (length (omap g l) <= length (List.filter f l))%nat.
Proof. intros Hg. induction l as [|x l IH]; [done|]. cbn [omap list_omap List.filter]. specialize (Hg x). destruct (g x); [rewrite Hg by done|destruct (f x)]; cbn [length]; lia. Qed.
Lemma out_row_listed src rt dst (v : RowValue) : (fun x : RowId * RowValue => starts_with P_REL_OUT (row_key x.1) && bytes_leb [] (row_key x.1)) (IdRelOut src rt dst, v) = true.
Proof. change (starts_with P_REL_OUT (rel_out_key src rt dst) && bytes_leb [] (rel_out_key src rt dst) = true). unfold rel_out_key at 1. by rewrite starts_with_self. Qed.
Lemma edge_row_typed k s evs found : kernel_ok k s evs -> edge_rows k found -> typed_edges s /\ (pending s ∅ <= length found)%nat.
Proof.
  intros Hok (Hp & Hsc & Hf). destruct (ok_repo _ _ _ _ _ Hok) as (m & Hm & Hr & _). rewrite (law_scan _ m) in Hsc by done. rewrite (rows_image m s) in Hsc by done. injection Hsc as <-. split.
  - intros src rt dst v Hv. destruct (proj1 Hr _ _ Hv) as [Hi _]. cbn in Hi. bool_to_prop; destruct_and?. rewrite Forall_forall in Hf. specialize (Hf (enc_row (IdRelOut src rt dst, v))).
    cbn [enc_row row_key fst] in Hf. unfold decode_rel_out_key, rel_out_key in Hf. rewrite decode_rel_key_app in Hf by done. apply Hf. apply list_elem_of_fmap. exists (IdRelOut src rt dst, v). split; [done|].
    apply elem_of_filter_bool. split; [by apply (sorted_rows_elem m)|]. apply out_row_listed.
  - rewrite length_map. apply omap_filter_le. intros [id v] [[] Hu]. by destruct id.
Qed.
Lemma head_read k s evs x : kernel_ok k s evs -> koid_ok x = true ->
  exists r', on_repo (head_object x) k = (set_repo k r', KOk (spec_head_object s x)) /\ kernel_ok (set_repo k r') s evs /\ rp_engine r' = rp_engine (k_repo k).
Proof.
  intros Hok Hx. destruct (ok_repo _ _ _ _ _ Hok) as (m & Hm & Hr & Hc).
  destruct (kernel_ok_read _ _ k s evs _ _ Hok (head_object_spec s m (k_repo k) x Hm Hr Hc Hx)) as (r' & Er & Hok' & He). by exists r'.
Qed.
Lemma edges_read k s evs x : kernel_ok k s evs -> typed_edges s -> scans_edges k -> koid_ok x = true ->
  outbound_edges x (Some DERIVED_FROM) k = (k, KOk (listed (sel_out_type x DERIVED_FROM) s)).
Proof.
  intros Hok Ht Hsc Hx. unfold outbound_edges, on_repo, on_engine.
  rewrite (out_scan_exact (k_repo k) s x DERIVED_FROM (ok_repo _ _ _ _ _ Hok) Hx ltac:(vm_compute; reflexivity) Ht) by (by apply Hsc). by rewrite set_repo_same.
Qed.
Lemma deps_ok k s evs x y : kernel_ok k s evs -> y ∈ deps s x -> koid_ok y = true.
Proof.
  intros Hok Hy. destruct (ok_repo _ _ _ _ _ Hok) as (m & _ & Hr & _). apply (deps_elem s m) in Hy as [v Hv]; [|done]. destruct (proj1 Hr _ _ Hv) as [Hi _]. cbn in Hi. bool_to_prop. by destruct_and?.
Qed.

(** With fuel for the edges that are left, the walk ends at the dependents. *)
Lemma collect_ok s evs roots fuel : forall queue visited found k, kernel_ok k s evs -> typed_edges s -> scans_edges k -> (forall x, x ∈ queue -> koid_ok x = true) ->
  walk s roots queue visited found -> (length queue + pending s visited <= fuel)%nat ->
  exists r' l visited', collect fuel queue visited found k = (set_repo k r', KOk (Some l)) /\ kernel_ok (set_repo k r') s evs /\ rp_engine r' = rp_engine (k_repo k) /\ walk s roots [] visited' l.
Proof.
  induction fuel as [|fuel IH]; intros queue visited found k Hok Ht Hsc Hq Hw Hf.
  - destruct queue; [|cbn in Hf; lia]. exists (k_repo k), found, visited. rewrite set_repo_same. done.
  - destruct queue as [|x queue]; [exists (k_repo k), found, visited; rewrite set_repo_same; done|]. cbn [length] in Hf. cbn [collect].
    assert (koid_ok x = true) as Hx by (apply Hq; set_solver). assert (forall y, y ∈ queue -> koid_ok y = true) as Hq' by (intros; apply Hq; set_solver).
    case_bool_decide as Hv; [apply (IH queue visited found k); auto; [by eapply walk_again | lia]|].
    destruct (head_read k s evs x Hok Hx) as (r1 & E1 & Hok1 & He1). rewrite km_bind, E1. assert (scans_edges (set_repo k r1)) as Hsc1 by (intros y Hy; cbn [set_repo k_repo]; rewrite He1; by apply Hsc).
    pose proof (pending_mono s visited x). pose proof (pending_follow s visited x Hv).
    assert (~ supported s x -> exists r' l visited', collect fuel queue ({[x]} ∪ visited) found (set_repo k r1) = (set_repo k r', KOk (Some l)) /\ kernel_ok (set_repo k r') s evs /\
      rp_engine r' = rp_engine (k_repo k) /\ walk s roots [] visited' l) as Hskip.
    { intros Hs. destruct (IH queue ({[x]} ∪ visited) found (set_repo k r1)) as (r2 & l & v2 & E2 & Hok2 & He2 & Hw2); auto; [by eapply walk_skip | lia|]. exists r2, l, v2. rewrite E2. split_and!; [done..|by rewrite He2|done]. }
    destruct (spec_head_object s x) as [h|] eqn:Eh; [|apply Hskip; intros (h & Hh & _); congruence].
    case_bool_decide as Ei; [apply Hskip; intros (h' & Hh & Hi); assert (h' = h) as -> by congruence; rewrite Hi in Ei; by destruct Ei|].
    assert (supported s x) as Hs by (exists h; split; [done | by apply eq_None_not_Some]). rewrite km_bind, (edges_read _ s evs) by done.
    destruct (ok_repo _ _ _ _ _ Hok) as (m & _ & Hr & _). fold (deps s x).
    destruct (IH (queue ++ deps s x) ({[x]} ∪ visited) (found ++ [x]) (set_repo k r1)) as (r2 & l & v2 & E2 & Hok2 & He2 & Hw2); auto.
    + intros y [Hy|Hy]%elem_of_app; [auto | by eapply deps_ok].
    + by eapply walk_take.
    + rewrite length_app. lia.
    + exists r2, l, v2. rewrite E2. split_and!; [done..|by rewrite He2|done].
Qed.

(** ** Stamping *)
Section Stamp.
Context (auth : AuthManager) (c : KnowledgeContext) (at_ : Z) (reason : bytes).
Abbreviation stamp_invalidated := (stamp_invalidated hmac_sha256 signer signing_key cfg auth c).
Abbreviation stamp_loop := (stamp_loop hmac_sha256 signer signing_key cfg auth c at_).
Definition stamp_fits k (x : KOID) (ms : Z) : Prop :=
  koid_ok x = true /\ then_fits (the_head x) k (fun head k1 => forall ext, stamped_extensions (ko_extensions head) at_ (subject_name c) reason = KOk ext ->
    remember_fits k1 auth x ms (restate c x head ext Origin.System (Some reason))).
Fixpoint stamps_fit k (clock : nat -> Z) (ks : list KOID) : Prop :=
  match ks with [] => True | x :: ks => stamp_fits k x (clock 0%nat) /\ stamps_fit (stamp_invalidated x at_ (clock 0%nat) reason k).1 (fun n => clock (S n)) ks end.

Lemma stamp_cases k s evs x ms : kernel_ok k s evs -> 0 <= at_ < 2 ^ 63 -> supported s x -> stamp_fits k x ms ->
  exists k' y, stamp_invalidated x at_ ms reason k = (k', y) /\
    ((kernel_ok k' s evs /\ forall a, y <> KOk a) \/
     y = KOk auth /\ exists s' evs' head ko, kernel_ok k' s' evs' /\ spec_head_object s x = Some head /\ withdrawn at_ (subject_name c) reason head ko /\
       forall z, spec_head_object s' z = if bool_decide (z = x) then Some ko else spec_head_object s z).
Proof.
  intros Hok Ha (head & Hh & Hi) (Hx & Hf). destruct (head_read k s evs x Hok Hx) as (r1 & E1 & Hok1 & _).
  assert (the_head x k = (set_repo k r1, KOk head)) as Et by (unfold the_head; rewrite km_bind, E1, Hh; reflexivity). specialize (Hf _ _ Et). cbn beta in Hf.
  unfold Ops.stamp_invalidated. rewrite km_bind, Et. rewrite bool_decide_false by (rewrite Hi; by intros [? ?]). rewrite km_bind. unfold klift.
  destruct (stamped_extensions _ _ _ _) as [ext|e|] eqn:Es; [|exists (set_repo k r1); eexists; split; [reflexivity|]; by left..].
  destruct (head_wf _ _ _ _ _ _ _ Hok Hh) as [Hw _]. assert (map_wf (ko_extensions head) = true) as Hm by (unfold ko_wf in Hw; bool_to_prop; destruct_and?; done).
  destruct (restate_cases hmac_sha256 signer signing_key cfg _ s evs auth ms c x head ext _ _ Hok1 Hh (Hf ext eq_refl)) as (k' & y & Ex & [(Hok' & _ & Hy)|(ko & s' & evs' & ts & -> & Hok' & Hre & Hext & _ & Hs')]).
  - rewrite km_bind, Ex. destruct y as [[r a]|e|]; [by destruct (Hy (r, a))|..]; (exists k'; eexists; split; [reflexivity|]; by left).
  - rewrite km_bind, Ex. exists k', (KOk auth). split; [reflexivity|]. right. split; [done|]. exists s', evs', head, ko. split_and!; [done..| |done]. by eapply stamped_withdrawn.
Qed.

(** What the loop leaves of each object, in terms of the states before and after. *)
Record swept (s s' : SpecState) (stamped : list KOID) (failed : list (KOID * KError)) (ks : list KOID) : Prop := {
  sp_all : stamped ++ map fst failed ≡ₚ ks;
  sp_stamped : forall x, x ∈ stamped -> exists head ko, spec_head_object s x = Some head /\ spec_head_object s' x = Some ko /\ withdrawn at_ (subject_name c) reason head ko;
  sp_others : forall x, x ∉ stamped -> spec_head_object s' x = spec_head_object s x }.
(** The same of a loop that a panic stopped. *)
Definition swept_until (s s' : SpecState) (stamped ks : list KOID) : Prop := exists failed rest, swept s s' stamped failed (take rest ks).
Lemma stamp_loop_ok ks : forall k s evs clock out, kernel_ok k s evs -> 0 <= at_ < 2 ^ 63 -> NoDup ks -> (forall x, x ∈ ks -> supported s x) -> stamps_fit k clock ks ->
  exists k' s' evs' y, stamp_loop clock reason ks out k = (k', y) /\ kernel_ok k' s' evs' /\
    (y = KPanic /\ (exists l1, swept_until s s' l1 ks) \/ exists l1 l2, swept s s' l1 l2 ks /\
       y = KOk (mkSweepOutcome (sw_stamped out ++ l1) (sw_completed out && bool_decide (l2 = [])) (sw_failed out ++ l2), auth)).
Proof.
  induction ks as [|x ks IH]; intros k s evs clock out Hok Ha Hn Hs Hf.
  - exists k, s, evs. eexists. split; [reflexivity|]. split; [done|]. right. exists [], []. split; [by split; [done | set_solver | done]|]. rewrite !app_nil_r, andb_true_r. by destruct out.
  - destruct Hf as [Hf1 Hf]. apply NoDup_cons in Hn as [Hx Hn]. cbn [Ops.stamp_loop].
    destruct (stamp_cases k s evs x (clock 0%nat) Hok Ha (Hs x ltac:(set_solver)) Hf1) as (k1 & y & E1 & [(Hok1 & Hy)|(-> & s1 & evs1 & head & ko & Hok1 & Hh & Hwd & Hs1)]); rewrite E1 in Hf |- *; cbn [fst] in Hf.
    + destruct y as [a|e|]; [by destruct (Hy a)| |exists k1, s, evs, KPanic; split; [done|]; split; [done|]; left; split; [done|]; exists [], [], 0%nat; by split; [done | set_solver | done]].
      destruct (IH k1 s evs (fun n => clock (S n)) (mkSweepOutcome (sw_stamped out) false (sw_failed out ++ [(x, e)])) Hok1 Ha Hn ltac:(set_solver) Hf) as (k2 & s2 & evs2 & y & E2 & Hok2 & Hy2).
      exists k2, s2, evs2, y. split; [exact E2|]. split; [done|]. destruct Hy2 as [(-> & l1 & l2 & n & [P1 P2 P3])|(l1 & l2 & Hsw & ->)].
      { left. split; [done|]. exists l1, ((x, e) :: l2), (S n). split; [|done..]. cbn [map fst take]. by rewrite <-Permutation_middle, P1. }
      right. exists l1, ((x, e) :: l2). destruct Hsw as [P1 P2 P3]. split.
      * split; [|done..]. cbn [map fst]. by rewrite <-Permutation_middle, P1.
      * cbn [sw_stamped sw_completed sw_failed]. rewrite <-app_assoc, (bool_decide_false ((x, e) :: l2 = [])) by done. by rewrite andb_false_r.
    + assert (forall z, z ∈ ks -> supported s1 z) as Hs'.
      { intros z Hz. destruct (Hs z ltac:(set_solver)) as (h & Hh' & Hi). exists h. rewrite Hs1, bool_decide_false by (intros ->; done). done. }
      destruct (IH k1 s1 evs1 (fun n => clock (S n)) (mkSweepOutcome (sw_stamped out ++ [x]) (sw_completed out) (sw_failed out)) Hok1 Ha Hn Hs' Hf) as (k2 & s2 & evs2 & y & E2 & Hok2 & Hy2).
      assert (forall l1 l2 l, (forall z, z ∈ l -> z ∈ ks) -> swept s1 s2 l1 l2 l -> swept s s2 (x :: l1) l2 (x :: l)) as Hgrow.
      { intros l1 l2 l Hl [P1 P2 P3]. assert (x ∉ l1) as Hxl by (intros Hin; apply Hx, Hl; rewrite <-P1; set_solver). split.
        * cbn. by rewrite P1.
        * intros z [->|Hz]%elem_of_cons; [exists head, ko; split_and!; [done| |done]; rewrite P3 by done; by rewrite Hs1, bool_decide_true|].
          destruct (P2 z Hz) as (h & ko' & Hz1 & Hz2 & Hz3). rewrite Hs1, bool_decide_false in Hz1 by (intros ->; done). by exists h, ko'.
        * intros z [Hz1 Hz2]%not_elem_of_cons. by rewrite P3, Hs1, bool_decide_false. }
      exists k2, s2, evs2, y. split; [exact E2|]. split; [done|]. destruct Hy2 as [(-> & l1 & l2 & n & Hsw)|(l1 & l2 & Hsw & ->)].
      * left. split; [done|]. exists (x :: l1), l2, (S n). apply (Hgrow _ _ (take n ks)); [|done]. intros z (i & Hz & _)%elem_of_take. by eapply list_elem_of_lookup_2.
      * right. exists (x :: l1), l2. split; [by apply Hgrow|]. cbn [sw_stamped sw_completed sw_failed]. by rewrite <-app_assoc.
Qed.
End Stamp.

(** C13: the sweep after an invalidation or a supersession ends, and reaches exactly what was
    derived.  With one step of fuel per root and per stored edge it returns, and the objects it
    stamped together with the ones it reports as failed are, each once, the objects derived from the roots through objects that exist and are not
    yet invalidated, whatever cycles the derivations form; it reports itself complete exactly
    when nothing failed.  A stamped object is the next version of what it was, carrying the
    instant, actor and reason, with its validity ended (never before it began) and its
    epistemic status unchanged; every other object, the failed ones included, reads as
    before.  When a schema check of one of the writes panics the sweep stops there: it has
    stamped some of those objects, likewise, and no other.  Provided that the stored edges are
    those [found] lists and no relationship type holds a slash ([edge_rows]; with one, the scan
    of an object's edges also returns edges of other types), that the engine can scan them,
    and that every stamped version fits the codec's lengths. *)
Theorem sweep_exact k s evs found fuel auth c now clock roots reason :
  kernel_ok k s evs -> edge_rows k found -> scans_edges k -> 0 <= now < 2 ^ 63 -> (forall x, x ∈ map snd roots -> koid_ok x = true) ->
  (length roots + length found <= fuel)%nat -> then_fits (collect fuel (map snd roots) ∅ []) k (fun o k1 => forall l, o = Some l -> stamps_fit auth c now reason k1 clock l) ->
  match invalidate_dependents hmac_sha256 signer signing_key cfg fuel auth c now clock roots reason k with
  | (k', KOk (Some (out, auth'))) => auth' = auth /\ NoDup (sw_stamped out ++ map fst (sw_failed out)) /\
      (forall x, x ∈ sw_stamped out ++ map fst (sw_failed out) <-> dependent s (map snd roots) x) /\ (sw_completed out = true <-> sw_failed out = []) /\
      (forall x, koid_ok x = true -> x ∈ sw_stamped out -> exists head ko, (head_object x (k_repo k)).2 = KOk (Some head) /\ (head_object x (k_repo k')).2 = KOk (Some ko) /\
         withdrawn now (subject_name c) reason head ko) /\
      (forall x, koid_ok x = true -> x ∉ sw_stamped out -> (head_object x (k_repo k')).2 = (head_object x (k_repo k)).2)
  | (k', KPanic) => exists stamped, NoDup stamped /\ (forall x, x ∈ stamped -> dependent s (map snd roots) x) /\
      (forall x, koid_ok x = true -> x ∈ stamped -> exists head ko, (head_object x (k_repo k)).2 = KOk (Some head) /\ (head_object x (k_repo k')).2 = KOk (Some ko) /\
         withdrawn now (subject_name c) reason head ko) /\
      (forall x, koid_ok x = true -> x ∉ stamped -> (head_object x (k_repo k')).2 = (head_object x (k_repo k)).2)
  | _ => False
  end.
Proof.
  intros Hok Hrows Hsc Hn Hr Hfuel Hf. destruct (edge_row_typed k s evs found Hok Hrows) as [Ht Hpend]. unfold invalidate_dependents. rewrite km_bind. unfold kget. rewrite (ok_pin _ _ _ _ _ Hok). cbn zeta.
  destruct (collect_ok s evs (map snd roots) fuel (map snd roots) ∅ [] k Hok Ht Hsc Hr (walk_start s _)) as (r1 & l & visited & E1 & Hok1 & _ & Hw).
  { rewrite length_map. lia. }
  rewrite km_bind, E1. specialize (Hf _ _ E1 l eq_refl).
  destruct (stamp_loop_ok auth c now reason l (set_repo k r1) s evs clock (mkSweepOutcome [] true []) Hok1 Hn (wk_nodup _ _ _ _ _ Hw)) as (k' & s' & evs' & y & E2 & Hok' & Hy); [|done|].
  { intros x Hx. by apply (wk_found _ _ _ _ _ Hw) in Hx as [_ ?]. }
  assert (forall l1 l2 l, swept c now reason s s' l1 l2 l -> (forall x, koid_ok x = true -> x ∈ l1 -> exists head ko, (head_object x (k_repo k)).2 = KOk (Some head) /\ (head_object x (k_repo k')).2 = KOk (Some ko) /\
      withdrawn now (subject_name c) reason head ko) /\ (forall x, koid_ok x = true -> x ∉ l1 -> (head_object x (k_repo k')).2 = (head_object x (k_repo k)).2)) as Hreads.
  { intros l1 l2 l' [P1 P2 P3]. split; intros x Hx; rewrite (head_object_is _ _ _ _ _ _ Hok' Hx), (head_object_is _ _ _ _ _ _ Hok Hx).
    - intros Hin. destruct (P2 x Hin) as (head & ko & -> & -> & Hwd). by exists head, ko.
    - intros Hni. by rewrite P3. }
  rewrite km_bind, E2. destruct Hy as [(-> & l1 & l2 & n & Hsw)|(l1 & l2 & Hsw & ->)].
  - exists l1. assert (NoDup (l1 ++ map fst l2)) as Hnd by (rewrite (sp_all _ _ _ _ _ _ _ _ Hsw); apply (sublist_NoDup _ _ (wk_nodup _ _ _ _ _ Hw)), sublist_take).
    split; [by apply NoDup_app in Hnd as [? _]|]. split; [|by eapply Hreads]. intros x Hx. apply (walk_end s _ visited _ x Hw). assert (x ∈ take n l) as (i & Hi & _)%elem_of_take.
    { rewrite <-(sp_all _ _ _ _ _ _ _ _ Hsw). apply elem_of_app. by left. }
    by eapply list_elem_of_lookup_2.
  - destruct (Hreads _ _ _ Hsw) as [R1 R2]. destruct Hsw as [P1 _ _]. cbn [sw_stamped sw_completed sw_failed app mret KM_ret]. split; [done|]. split; [rewrite P1; apply Hw|].
    split; [intros x; rewrite P1; by apply (walk_end s _ visited)|]. split; [by rewrite andb_true_l, bool_decide_eq_true|]. split; [exact R1 | exact R2].
Qed.
End Sweep.
