(* ===== verification/Verify.v ===== *)
(** Verification (transaction/kernel/ops.rs, [verify_knowledge]): what a verified object
    carries, and what a refused verification leaves. *)

From Stdlib Require Import String SpecFloat.
From stdpp Require Import gmap.
From S2P Require Import Prelude Format Memtable Kom Codec CodecProps Store Repository RepositorySpec RepositoryReads Commit CommitInv CommitOps CommitRun Epistemic Auth Expr Schema Constraint Ontology Remember RememberProps Ops Lease Sweep.

(* ------------------------------------------------------------------ *)
(** * Evidence *)

Lemma push_new_grows merged f : exists l, push_new merged f = merged ++ l /\ exists v, v ∈ push_new merged f /\ (v = f \/ value_eqb v f = true).
Proof.
  unfold push_new. destruct (existsb _ merged) eqn:Ee.
  - exists []. split; [by rewrite app_nil_r|]. apply existsb_exists in Ee as (v & Hin & Hv). exists v. split; [by apply list_elem_of_In | by right].
  - exists [f]. split; [done|]. exists f. split; [set_solver | by left].
Qed.
(** The recorded trail grows, and holds a record equal to each one given. *)
Lemma push_all_grows new : forall merged, exists l, fold_left push_new new merged = merged ++ l /\
  forall f, f ∈ new -> exists v, v ∈ fold_left push_new new merged /\ (v = f \/ value_eqb v f = true).
Proof.
  induction new as [|f new IH]; intros merged; [exists []; split; [by rewrite app_nil_r | set_solver]|]. cbn [fold_left].
  destruct (push_new_grows merged f) as (l1 & E1 & v & Hv & Hf). destruct (IH (push_new merged f)) as (l2 & E2 & Hall). exists (l1 ++ l2). split; [by rewrite E2, E1, app_assoc|].
  intros g [->|Hg]%elem_of_cons; [|by apply Hall]. exists v. split; [|done]. rewrite E2. set_solver.
Qed.
Definition backs (evs : list Evidence) (trail : list Value) : Prop := forall ev, ev ∈ evs -> exists v, v ∈ trail /\ (v = evidence_to_value ev \/ value_eqb v (evidence_to_value ev) = true).
Lemma append_evidence_grows ext evs : exists l, btree_get (append_evidence ext evs) EXT_EVIDENCE = Some (VList (history_of ext EXT_EVIDENCE ++ l)) /\ backs evs (history_of ext EXT_EVIDENCE ++ l).
Proof.
  unfold append_evidence. fold (history_of ext EXT_EVIDENCE). destruct (push_all_grows (map evidence_to_value evs) (history_of ext EXT_EVIDENCE)) as (l & El & Hall). exists l. rewrite get_insert_eq, El.
  split; [done|]. intros ev Hin. rewrite <-El. apply Hall. apply list_elem_of_fmap. by exists ev.
Qed.

(* ------------------------------------------------------------------ *)
(** * Confidence *)

Lemma SFcompare_swap x y : SFcompare y x = CompOpp <$> SFcompare x y.
Proof.
  destruct x as [s|s| |s m e], y as [t|t| |t n f]; try (by destruct s); try (by destruct t); try done; try (by destruct s, t).
  destruct s, t; cbn; try done; rewrite (Z.compare_antisym e f); destruct (Z.compare e f); cbn; try done;
    change (Pos.compare_cont Eq n m) with (n ?= m)%positive; change (Pos.compare_cont Eq m n) with (m ?= n)%positive; rewrite (Pos.compare_antisym m n); by destruct (Pos.compare m n).
Qed.
Lemma SFcompare_total x y : x <> S754_nan -> y <> S754_nan -> is_Some (SFcompare x y).
Proof. intros Hx Hy. destruct x as [s|s| |s m e], y as [t|t| |t n f]; try done; cbn; repeat case_match; by eexists. Qed.
Lemma f32_max_ge x y : y <> S754_nan -> SFleb y (f32_max x y) = true.
Proof.
  intros Hy. assert (SFleb y y = true) as Hrefl.
  { unfold SFleb. destruct (SFcompare_total y y Hy Hy) as [c Ec]. rewrite Ec. pose proof (SFcompare_swap y y) as Hs. rewrite Ec in Hs. cbn in Hs. by destruct c. }
  assert (x = S754_nan \/ x <> S754_nan) as [->|Hx] by (destruct x; auto); [by destruct y|]. assert (f32_max x y = if SFltb x y then y else x) as -> by (destruct x, y; done).
  unfold SFltb. destruct (SFcompare_total x y Hx Hy) as [c Ec]. rewrite Ec. destruct c; [|done|]; unfold SFleb; by rewrite (SFcompare_swap x y), Ec.
Qed.
Lemma unit_not_nan x : f32_unit x = true -> x <> S754_nan.
Proof. by intros Hu ->. Qed.
Lemma existing_not_nan ext : cc_score (default confidence_default (confidence_context ext)) <> S754_nan.
Proof.
  destruct (confidence_context ext) as [cc|] eqn:Ec; [|done]. cbn. unfold confidence_context in Ec. destruct (btree_get ext EXT_CONFIDENCE) as [v|]; [|done]. cbn [mbind option_bind] in Ec.
  unfold confidence_from_value in Ec. destruct v; try done. cbn [mbind option_bind] in Ec. destruct (match btree_get m (txt "score") with Some _ => _ | None => _ end) as [sc|] eqn:Es; [|done].
  cbn [mbind option_bind] in Ec. destruct (f32_unit sc) eqn:Eu; [|done]. cbn [negb] in Ec. destruct (match btree_get m (txt "confirmations") with Some _ => _ | None => _ end); [|done]. injection Ec as <-. by apply unit_not_nan.
Qed.
(** Each key of verifier and evidence is counted once. *)
Lemma add_keys_spec verifier evs : forall keys n, let x := fold_left (add_key verifier) evs (keys, n) in
  exists new, x.1 = keys ++ new /\ x.2 = n + zlen new /\ (NoDup keys -> NoDup x.1) /\ forall key, key ∈ x.1 <-> key ∈ keys \/ exists ev, ev ∈ evs /\ key = confirmation_key verifier ev.
Proof.
  induction evs as [|ev evs IH]; intros keys n; cbn zeta; cbn [fold_left].
  - exists []. rewrite app_nil_r. cbn [fst snd]. split_and!; [done | unfold zlen; cbn; lia | done|]. intros key. split; [auto|]. intros [?|(? & ?%elem_of_nil & _)]; done.
  - change (add_key verifier (keys, n) ev) with (if bool_decide (confirmation_key verifier ev ∈ keys) then (keys, n) else (keys ++ [confirmation_key verifier ev], n + 1)).
    case_bool_decide as Hin.
    + destruct (IH keys n) as (new & E1 & E2 & E3 & E4). exists new. split_and!; [done..|]. intros key. rewrite E4. split; [intros [?|(ev' & ? & ->)]; [auto | right; exists ev'; set_solver]|].
      intros [?|(ev' & [->|?]%elem_of_cons & ->)]; [auto | auto | right; by exists ev'].
    + destruct (IH (keys ++ [confirmation_key verifier ev]) (n + 1)) as (new & E1 & E2 & E3 & E4). exists (confirmation_key verifier ev :: new). rewrite E1, <-app_assoc. split; [done|].
      split; [rewrite E2; unfold zlen; cbn [length]; lia|]. split.
      * intros Hn. assert (NoDup (keys ++ [confirmation_key verifier ev])) as Hk by (apply NoDup_app; split; [done|]; split; [set_solver | apply NoDup_singleton]). rewrite E1, <-app_assoc in E3. by apply E3.
      * intros key. specialize (E4 key). rewrite E1, <-app_assoc in E4. cbn [app] in E4 |- *. rewrite E4, elem_of_app, list_elem_of_singleton. split.
        { intros [[?| ->]|(ev' & ? & ->)]; [auto | right; exists ev; set_solver | right; exists ev'; set_solver]. }
        { intros [?|(ev' & [->|?]%elem_of_cons & ->)]; [auto | auto | right; by exists ev']. }
Qed.

(** What a verification makes of the confidence. *)
Record confirmed (now : Z) (req : VerificationRequest) (before after : ConfidenceContext) : Prop := {
  cf_score : SFleb (cc_score before) (cc_score after) = true /\ f32_unit (cc_score after) = true;
  cf_keys : exists new, cc_verification_keys after = cc_verification_keys before ++ new /\ cc_confirmations after = as_u32 (cc_confirmations before + zlen new);
  cf_once : NoDup (cc_verification_keys before) -> NoDup (cc_verification_keys after);
  cf_all : forall key, key ∈ cc_verification_keys after <->
    key ∈ cc_verification_keys before \/ exists ev, ev ∈ vf_evidence req /\ key = confirmation_key (subject_name (vf_context req)) ev;
  cf_at : cc_last_verified after = Some now }.
Lemma verified_confidence_spec now req ext conf : let before := default confidence_default (confidence_context ext) in
  verified_confidence now req before = KOk conf -> confirmed now req before conf.
Proof.
  intros before. pose proof (existing_not_nan ext) as Hnan. fold before in Hnan. clearbody before. unfold verified_confidence.
  pose proof (add_keys_spec (subject_name (vf_context req)) (vf_evidence req) (cc_verification_keys before) 0) as Ha. cbn zeta in Ha.
  destruct (fold_left _ _ _) as [keys added]. cbn [fst snd] in Ha. destruct Ha as (new & E1 & E2 & E3 & E4). unfold confidence_new. destruct (f32_unit _) eqn:Eu; [|done].
  cbn [mbind KResult_bind cc_score cc_confirmations cc_last_verified]. intros [= <-].
  split; cbn [cc_score cc_confirmations cc_last_verified cc_verification_keys]; [split; [by apply f32_max_ge | done] | exists new; split; [done | by rewrite E2] | done..].
Qed.

(* ------------------------------------------------------------------ *)
(** * The verified object *)

Definition confidence_of (ko : KnowledgeObject) : ConfidenceContext := default confidence_default (confidence_context (ko_extensions ko)).
Record verified (now : Z) (req : VerificationRequest) (r : VerificationResult) (head ko : KnowledgeObject) : Prop := {
  vd_status : status_of ko = EpistemicStatus.Verified /\ vr_status r = EpistemicStatus.Verified;
  vd_lawful : status_of head = EpistemicStatus.Verified \/ EpistemicStatus.can_transition (status_of head) EpistemicStatus.Verified = true;
  vd_evidence : exists l, history_of (ko_extensions ko) EXT_EVIDENCE = history_of (ko_extensions head) EXT_EVIDENCE ++ l /\
    backs (vf_evidence req) (history_of (ko_extensions ko) EXT_EVIDENCE);
  vd_event : exists refs seq kind, ko_event_refs ko = refs ++ [mkEventRef seq kind (ko_commit_ts ko)] /\ btree_get (ko_extensions ko) EXT_VERIFIED_EVENT = Some (VInt (as_i64 seq));
  vd_confidence : exists conf, confirmed now req (confidence_of head) conf /\ btree_get (ko_extensions ko) EXT_CONFIDENCE = Some (confidence_to_value conf) /\
    vr_confirmations r = cc_confirmations conf /\ vr_last_verified r = Some now;
  vd_body : ko_metadata ko = ko_metadata head /\ ko_properties ko = ko_properties head /\ ko_lifecycle ko = ko_lifecycle head }.

Section Verify.
Context {E : Type} `{HL : EngineLaws E} `{SHA : Sha256} `{Regex}.
Context (hmac_sha256 : bytes -> bytes -> bytes) (signer : option (bytes -> bytes)) (signing_key : option bytes).
Context (cfg : Config).
Abbreviation kernel_ok := (kernel_ok hmac_sha256 signing_key).
Abbreviation transition_step := (transition_step hmac_sha256 signer signing_key).
Implicit Types k : Kernel E.

Lemma journal_seq_read k s evs : kernel_ok k s evs -> journal_seq k = (k, KOk (zlen evs)).
Proof.
  intros Hok. destruct (ok_repo _ _ _ _ _ Hok) as (m & Hm & Hr & _). unfold journal_seq. rewrite km_bind. unfold on_repo, on_engine. rewrite (journal_head_spec _ m s Hm Hr). rewrite set_repo_same.
  pose proof (ok_journal _ _ _ _ _ Hok) as Hj. destruct (s !! IdJournal) as [v|]; [destruct Hj as (ts & -> & _); done | by subst].
Qed.
(** The head the last write of a verification restates. *)
Record before_restating (now : Z) (head head' : KnowledgeObject) (actor : bytes) (note : option bytes) : Prop := {
  br_status : status_of head' = EpistemicStatus.Verified;
  br_lawful : status_of head = EpistemicStatus.Verified \/ EpistemicStatus.can_transition (status_of head) EpistemicStatus.Verified = true;
  br_body : ko_metadata head' = ko_metadata head /\ ko_properties head' = ko_properties head /\ ko_lifecycle head' = ko_lifecycle head;
  br_evidence : btree_get (ko_extensions head') EXT_EVIDENCE = btree_get (ko_extensions head) EXT_EVIDENCE;
  br_step : head' = head \/ moved now head head' EpistemicStatus.Verified actor note }.
Lemma transition_step_cases k s evs auth now ms req head : kernel_ok k s evs -> spec_head_object s (vf_koid req) = Some head ->
  epistemic_fits hmac_sha256 signer signing_key k now ms (vf_koid req) EpistemicStatus.Verified (Origin.Agent (subject_name (vf_context req))) None
    (subject_name (vf_context req)) (vf_note req) None ->
  exists k' x, transition_step auth now ms req head k = (k', x) /\
    ((kernel_ok k' s evs /\ forall a, x <> KOk a) \/
     exists a head' s' evs', x = KOk a /\ kernel_ok k' s' evs' /\ before_restating now head head' (subject_name (vf_context req)) (vf_note req) /\
       forall z, spec_head_object s' z = if bool_decide (z = vf_koid req) then Some head' else spec_head_object s z).
Proof.
  intros Hok Hh Hf. unfold Lease.transition_step. cbn zeta. case_bool_decide as Ev; cbn [negb].
  - exists k. eexists. split; [reflexivity|]. right. eexists _, head, s, evs. split; [reflexivity|]. split; [done|]. split; [by split; auto|]. intros z. case_bool_decide; [by subst | done].
  - destruct (task_transition_cases hmac_sha256 signer signing_key (authorize auth (kx_subject (vf_context req))) k s evs now ms (vf_koid req) EpistemicStatus.Verified _ None (Some (ko_version head)) _ _ None Hok Hf)
      as (k' & x & -> & [(Hok' & Hx)|(h & ko & s' & evs' & Es & Hc & Hm & -> & Hok' & _ & Hs')]); [exists k', x; split; [done|]; by left|].
    exists k'. eexists. split; [reflexivity|]. right. eexists _, ko, s', evs'. split; [reflexivity|]. split; [done|]. rewrite Hh in Es. injection Es as <-. split; [|exact Hs'].
    split; [apply Hm | by right | apply Hm | apply Hm; not_claim_key | by right].
Qed.
Lemma restated_verified now req conf head head' ko seq kind v version ts : before_restating now head head' (subject_name (vf_context req)) (vf_note req) ->
  confirmed now req (confidence_of head) conf -> restated head' ko ->
  ko_extensions ko = btree_insert (merged (ko_extensions head') (rq_extensions (verify_request req head' conf seq))) EXT_SALIENCE v ->
  ko_event_refs ko = ko_event_refs head' ++ [mkEventRef seq kind (ko_commit_ts ko)] ->
  verified now req (mkVerificationResult (vf_koid req) version ts EpistemicStatus.Verified (cc_confirmations conf) (cc_last_verified conf)) head ko.
Proof.
  intros Hb Hc Hre Hext Hrefs. set (ext := rq_extensions _) in Hext. unfold verify_request in ext. cbn [restate rq_extensions] in ext.
  assert (forall key w, key ∉ EXT_SALIENCE :: CLAIM_KEYS -> btree_get ext key = Some w -> btree_get (ko_extensions ko) key = Some w) as Hg.
  { intros key w [? ?]%not_elem_of_cons Hw. rewrite Hext, get_insert_ne by done. by apply merged_other. }
  destruct (append_evidence_grows (btree_insert (ko_extensions head') EXT_CONFIDENCE (confidence_to_value conf)) (vf_evidence req)) as (l & El & Hbacks).
  assert (history_of (btree_insert (ko_extensions head') EXT_CONFIDENCE (confidence_to_value conf)) EXT_EVIDENCE = history_of (ko_extensions head) EXT_EVIDENCE) as Eh.
  { unfold history_of. rewrite get_insert_ne by (vm_compute; done). by rewrite (br_evidence _ _ _ _ _ Hb). }
  rewrite Eh in El, Hbacks. assert (history_of (ko_extensions ko) EXT_EVIDENCE = history_of (ko_extensions head) EXT_EVIDENCE ++ l) as Ek.
  { unfold history_of at 1. rewrite (Hg EXT_EVIDENCE (VList (history_of (ko_extensions head) EXT_EVIDENCE ++ l))); [done | not_claim_key |]. unfold ext. rewrite get_insert_ne by (vm_compute; done). exact El. }
  destruct (rs_body _ _ Hre) as (B1 & B2 & B3 & _). destruct (br_body _ _ _ _ _ Hb) as (B1' & B2' & B3'). split; cbn [vr_status vr_confirmations vr_last_verified].
  - split; [|done]. rewrite <-(br_status _ _ _ _ _ Hb). unfold status_of, epistemic_status. rewrite B3, Hext, get_insert_ne by (vm_compute; done). rewrite merged_same; [done | not_claim_key|].
    unfold ext, append_evidence. by rewrite !get_insert_ne by (vm_compute; done).
  - apply Hb.
  - exists l. split; [done|]. by rewrite Ek.
  - exists (ko_event_refs head'), seq, kind. split; [done|]. apply Hg; [not_claim_key|]. apply get_insert_eq.
  - exists conf. split; [done|]. split; [|split; [done | apply Hc]]. apply Hg; [not_claim_key|]. unfold ext, append_evidence. rewrite !get_insert_ne by (vm_compute; done). apply get_insert_eq.
  - by rewrite B1, B2, B3.
Qed.

(** ** The result in terms of the states *)
Section Post.
Context (s : SpecState) (auth : AuthManager) (now : Z) (req : VerificationRequest).
Definition verify_post (k' : Kernel E) (x : KResult (VerificationResult * AuthManager)) : Prop :=
  exists s' evs', kernel_ok k' s' evs' /\ (forall z, z <> vf_koid req -> spec_head_object s' z = spec_head_object s z) /\
  match x with
  | KOk (r, auth') => auth' = auth /\ exists head ko, spec_head_object s (vf_koid req) = Some head /\ spec_head_object s' (vf_koid req) = Some ko /\
      authorize auth (kx_subject (vf_context req)) head Action.Write = KOk tt /\ vf_evidence req <> [] /\ verified now req r head ko
  | _ => spec_head_object s' (vf_koid req) = spec_head_object s (vf_koid req) \/
      exists head ko, spec_head_object s (vf_koid req) = Some head /\ spec_head_object s' (vf_koid req) = Some ko /\
        moved now head ko EpistemicStatus.Verified (subject_name (vf_context req)) (vf_note req)
  end.
Lemma post_refused k' evs x : kernel_ok k' s evs -> (forall a, x <> KOk a) -> verify_post k' x.
Proof. intros Hok Hx. exists s, evs. split; [done|]. split; [done|]. destruct x as [a|e|]; [by destruct (Hx a) | by left..]. Qed.
(** The last write. *)
Lemma restating_post k s2 evs2 head head' conf ms version ts : kernel_ok k s2 evs2 -> koid_ok (vf_koid req) = true -> spec_head_object s (vf_koid req) = Some head ->
  authorize auth (kx_subject (vf_context req)) head Action.Write = KOk tt -> vf_evidence req <> [] ->
  (forall z, spec_head_object s2 z = if bool_decide (z = vf_koid req) then Some head' else spec_head_object s z) ->
  before_restating now head head' (subject_name (vf_context req)) (vf_note req) -> confirmed now req (confidence_of head) conf ->
  then_fits (the_head (vf_koid req)) k (fun head' k3 => then_fits journal_seq k3 (fun seq k4 =>
    remember_fits hmac_sha256 signer signing_key k4 auth (vf_koid req) ms (verify_request req head' conf ((seq + 1) mod U64)))) ->
  let '(k', x) := (new_head ← the_head (vf_koid req); seq ← journal_seq;
    '(rem, auth) ← remember_locked hmac_sha256 signer signing_key cfg auth (vf_koid req) ms (verify_request req new_head conf ((seq + 1) mod U64));
    mret (mkVerificationResult (vf_koid req) (Z.max (rm_version rem) version) (Z.max (rm_commit_ts rem) ts) EpistemicStatus.Verified (cc_confirmations conf)
      (cc_last_verified conf), auth)) k in verify_post k' x.
Proof.
  intros Hok Hk Hh Hau Hne Hs2 Hb Hc Hf. pose proof (Hs2 (vf_koid req)) as Hh'. rewrite bool_decide_true in Hh' by done.
  destruct (head_read hmac_sha256 signing_key k s2 evs2 (vf_koid req) Hok Hk) as (r1 & E1 & Hok1 & _).
  assert (the_head (vf_koid req) k = (set_repo k r1, KOk head')) as Et by (unfold the_head; rewrite km_bind, E1, Hh'; reflexivity).
  specialize (Hf _ _ Et _ _ (journal_seq_read _ _ _ Hok1)). cbn beta in Hf. rewrite km_bind, Et, km_bind, (journal_seq_read _ _ _ Hok1), km_bind.
  destruct (restate_cases hmac_sha256 signer signing_key cfg _ s2 evs2 auth ms (vf_context req) (vf_koid req) head' _ _ _ Hok1 Hh' Hf)
    as (k' & x & Ex & [(Hok' & _ & Hx)|(ko & s' & evs' & ts' & -> & Hok' & Hre & Hext & (kind & Ects & Hrefs & Hu) & Hs')]); unfold verify_request at 1; rewrite Ex.
  - destruct x as [[r a]|e|]; [by destruct (Hx (r, a))|..]; (exists s2, evs2; split; [done|]; split; [intros z Hz; by rewrite Hs2, bool_decide_false|]);
      (destruct (br_step _ _ _ _ _ Hb) as [->|Hm]; [left; by rewrite Hh' | right; by exists head, head']).
  - exists s', evs'. split; [done|]. split; [intros z Hz; by rewrite Hs', bool_decide_false, Hs2, bool_decide_false|]. split; [done|]. exists head, ko. split_and!; [done | by rewrite Hs', bool_decide_true | done..|].
    pose proof (zlen_nonneg evs2). assert ((zlen evs2 + 1) mod U64 = zlen evs2 + 1) as Em by (apply Z.mod_small; lia). rewrite Em in Hext.
    rewrite <-Ects in Hrefs. exact (restated_verified now req conf head head' ko (zlen evs2 + 1) kind _ _ _ Hb Hc Hre Hext Hrefs).
Qed.
End Post.
Ltac refused := cbv beta iota; eapply post_refused; [eassumption | done].
Lemma verify_run k s evs auth now ms1 ms2 req : kernel_ok k s evs -> verify_fits hmac_sha256 signer signing_key k auth now ms1 ms2 req ->
  let '(k', x) := verify_knowledge hmac_sha256 signer signing_key cfg auth now ms1 ms2 req k in verify_post s auth now req k' x.
Proof.
  intros Hok (Hk & Hf). set (c := vf_context req) in *. unfold verify_knowledge. fold c. cbn zeta. rewrite km_bind. unfold klift at 1.
  destruct (require_evidence (vf_evidence req)) as [[]|e|] eqn:Eev; [|refused..]. assert (vf_evidence req <> []) as Hne by (by intros En; rewrite En in Eev).
  destruct (authorized_head_ok hmac_sha256 signing_key (authorize auth (kx_subject c)) k s evs (vf_koid req) Action.Write Hok Hk) as (r1 & Hok1 & _ & _ & Ea). rewrite km_bind.
  destruct (authorized_head _ _ _ k) as [k0 x0] eqn:Eah. injection Ea as -> ->. destruct (spec_head_object s (vf_koid req)) as [head|] eqn:Hh; [|refused].
  destruct (authorize auth (kx_subject c) head Action.Write) as [[]|e|] eqn:Eau; [|refused..]. cbn [mbind KResult_bind] in Eah |- *.
  destruct (Hf _ _ Eah) as [Hef Hf1]. rewrite km_bind. unfold klift at 1. destruct (negb _ && negb _); [refused|]. rewrite km_bind. unfold klift at 1.
  destruct (verified_confidence now req _) as [conf|e|] eqn:Ec; [|refused..]. specialize (Hf1 conf eq_refl). apply verified_confidence_spec in Ec.
  rewrite km_bind.
  destruct (transition_step_cases (set_repo k r1) s evs auth now ms1 req head Hok1 Hh Hef) as (k2 & x & Et & [(Hok2 & Hx)|(a & head' & s2 & evs2 & -> & Hok2 & Hb & Hs2)]); pose proof Et as Et'; unfold Lease.transition_step in Et'; cbn zeta in Et'; fold c in Et'; rewrite Et'.
  - destruct x as [a|e|]; [by destruct (Hx a)|..]; refused.
  - destruct a as [version ts]. exact (restating_post s auth now req k2 s2 evs2 head head' conf ms2 version ts Hok2 Hk Hh Eau Hne Hs2 Hb Ec (Hf1 _ _ Et)).
Qed.

(** C12: a verification is never a mere change of status.  Where it succeeds, the object could
    lawfully become verified (or was), and its new version is verified, carries the head's
    evidence followed by a record for each one given, the confidence with a score in [0,1] not
    below the earlier one, one more confirmation for each new pair of verifier and evidence
    (however often it is given) and the instant, and names the journal event of its own commit
    as the verifying one, with metadata, properties and lifecycle as they were; no other object
    changes.  Where it is refused, no other object changes either, and the object reads as
    before or has only made the transition. *)
Theorem verify_exact k s evs auth now ms1 ms2 req :
  kernel_ok k s evs -> verify_fits hmac_sha256 signer signing_key k auth now ms1 ms2 req ->
  let '(k', x) := verify_knowledge hmac_sha256 signer signing_key cfg auth now ms1 ms2 req k in
  (forall z, z <> vf_koid req -> koid_ok z = true -> (head_object z (k_repo k')).2 = (head_object z (k_repo k)).2) /\
  match x with
  | KOk (r, auth') => auth' = auth /\ exists head ko, (head_object (vf_koid req) (k_repo k)).2 = KOk (Some head) /\ (head_object (vf_koid req) (k_repo k')).2 = KOk (Some ko) /\
      authorize auth (kx_subject (vf_context req)) head Action.Write = KOk tt /\ vf_evidence req <> [] /\ verified now req r head ko
  | _ => (head_object (vf_koid req) (k_repo k')).2 = (head_object (vf_koid req) (k_repo k)).2 \/
      exists head ko, (head_object (vf_koid req) (k_repo k)).2 = KOk (Some head) /\ (head_object (vf_koid req) (k_repo k')).2 = KOk (Some ko) /\
        moved now head ko EpistemicStatus.Verified (subject_name (vf_context req)) (vf_note req)
  end.
Proof.
  intros Hok Hf. assert (let '(k', x) := verify_knowledge hmac_sha256 signer signing_key cfg auth now ms1 ms2 req k in verify_post s auth now req k' x) as Hp by (by apply (verify_run k s evs)).
  destruct Hf as (Hk & _). destruct (verify_knowledge _ _ _ _ _ _ _ _ _ k) as [k' x]. destruct Hp as (s' & evs' & Hok' & Ho & Hx).
  split; [intros z Hz Hzk; by rewrite (head_object_is _ _ _ _ _ _ Hok' Hzk), (head_object_is _ _ _ _ _ _ Hok Hzk), Ho|].
  rewrite (head_object_is _ _ _ _ _ _ Hok' Hk), (head_object_is _ _ _ _ _ _ Hok Hk). destruct x as [[r a]|e|]; [destruct Hx as (-> & head & ko & -> & -> & Hx); split; [done|]; by exists head, ko|..]; (destruct Hx as [->|(head & ko & -> & -> & Hm)]; [by left | right; by exists head, ko]).
Qed.
End Verify.
