(* ===== verification/OpsWitness.v ===== *)
(** The knowledge operations run on a concrete kernel, and the places where they depart from
    what ops.rs says of them. *)

From Stdlib Require Import String SpecFloat.
From stdpp Require Import gmap.
From S2P Require Import Prelude Format Memtable Kom Codec CodecProps Store Repository RepositorySpec RepositoryReads RepositoryRebuild RepositoryProps Commit CommitInv CommitOps CommitRun Epistemic CommitTxn CommitProps CommitEdges CommitWitness Auth AuthProps Expr Schema Constraint Ontology Remember RememberProps Conformance RememberWitness Ops Lease Sweep Verify.

#[local] Existing Instance toy_sha.
#[local] Existing Instance no_regex.

(* ------------------------------------------------------------------ *)
(** * A store of three objects, each derived from the one before *)

Definition bob : Subject := mkSubject (txt "bob") [ADMIN] None.
Definition bob_ctx : KnowledgeContext := mkKnowledgeContext bob None.
Abbreviation remember_toy := (remember_locked toy_hmac toy_signer toy_key cfg auth_default).
Abbreviation claim_toy := (claim_task toy_hmac toy_signer toy_key cfg auth_default).
(** An untyped object that is derived from [premise]. *)
Definition derived (premise : option KOID) : RememberRequest :=
  mkRememberRequest ctx None (Some 0) None (mkMetadata [x56] None 1 []) [] None
    (match premise with Some p => [mkRelationshipRef DERIVED_FROM p Direction.Inbound] | None => [] end) None [] Origin.Human None ReferentialPolicy.Permissive.
Definition kernel_b : Kernel MemoryEngine :=
  ((remember_toy ko_c 7 (derived (Some ko_b)) (remember_toy ko_b 6 (derived (Some ko_a)) (remember_toy ko_a 5 (derived None) (kernel_new mem_new)).1).1).1).

Ltac koid_elems := refine (proj1 (Forall_forall (fun r => koid_ok (target r) = true) _) _); vm_compute; repeat constructor.
Ltac fits_write :=
  split; [vm_compute; reflexivity|]; split; [koid_elems|]; split; [exact I|]; split; [intros ? [=]|]; split; [vm_compute; reflexivity|];
  let Hh := fresh in let He := fresh in let Hs := fresh in
  intros ? ? ? Hh He Hs; vm_compute in Hh; injection Hh as <-; vm_compute in He; first [discriminate He | injection He as <-; vm_compute in Hs; first [discriminate Hs | injection Hs as <-; fits_op]].
Lemma pair_parts {A B} (p : A * B) a b : p = (a, b) -> p.1 = a /\ p.2 = b.
Proof. by intros ->. Qed.
Ltac fits_then :=
  let k1 := fresh "k1" in let x := fresh "x" in let Hm := fresh in let Hk := fresh in
  intros k1 x Hm; apply pair_parts in Hm as [Hk Hm]; subst k1; vm_compute in Hm; first [discriminate Hm | injection Hm as <-]; cbv beta.
Lemma remember_stays k s evs minted ms req : kernel_ok toy_hmac toy_key k s evs -> remember_fits toy_hmac toy_signer toy_key k auth_default minted ms req ->
  exists s' evs', kernel_ok toy_hmac toy_key (remember_toy minted ms req k).1 s' evs'.
Proof.
  intros Hok Hf. destruct (remember_cases toy_hmac toy_signer toy_key cfg k s evs auth_default minted ms req Hok Hf)
    as [(r' & x & -> & Hok' & _)|(_ & head & ko & k' & s' & evs' & ts & _ & -> & Hok' & _)]; eauto.
Qed.
Lemma kernel_b_ok : exists s evs, kernel_ok toy_hmac toy_key kernel_b s evs.
Proof.
  destruct (remember_stays (kernel_new mem_new) ∅ [] ko_a 5 (derived None) (kernel_new_ok toy_hmac toy_key mem_new fresh_holds)) as (s1 & evs1 & H1); [fits_write|].
  destruct (remember_stays _ s1 evs1 ko_b 6 (derived (Some ko_a)) H1) as (s2 & evs2 & H2); [fits_write|].
  destruct (remember_stays _ s2 evs2 ko_c 7 (derived (Some ko_b)) H2) as (s3 & evs3 & H3); [fits_write|]. by exists s3, evs3.
Qed.

(* ------------------------------------------------------------------ *)
(** * Leases *)

(** Ann claims the first object for five seconds. *)
Definition claim_a : ClaimRequest := mkClaimRequest ctx ko_a 5.
Lemma claim_a_fits : task_fits toy_hmac toy_signer toy_key cfg kernel_b (TClaim auth_default 10 10 claim_a).
Proof. split; [reflexivity|]. fits_then. intros u Hu. vm_compute in Hu. injection Hu as <-. fits_write. Qed.

(** The kernel once she has, and what others then try. *)
Definition task_head : KnowledgeObject := Eval vm_compute in match (head_object ko_a (k_repo kernel_b)).2 with KOk (Some h) => h | _ => draft ko_a 0 [] end.
Definition kernel_c : Kernel MemoryEngine := (claim_toy 10 10 claim_a kernel_b).1.
Lemma kernel_c_ok : exists s evs, kernel_ok toy_hmac toy_key kernel_c s evs.
Proof.
  destruct kernel_b_ok as (s & evs & Hok). destruct (authorized_head_ok toy_hmac toy_key (authorize auth_default ann) kernel_b s evs ko_a Action.Write Hok eq_refl) as (r' & Hok' & _ & _ & Ea).
  apply (f_equal fst) in Ea. cbn [fst] in Ea. rewrite <-Ea in Hok'. clear Ea.
  destruct (remember_stays _ s evs ko_a 10 (claim_request claim_a task_head 5010) Hok') as (s' & evs' & H').
  { destruct claim_a_fits as [_ Hf]. refine (Hf _ task_head _ 5010 eq_refl). vm_compute. reflexivity. }
  exists s', evs'. replace kernel_c with (remember_toy ko_a 10 (claim_request claim_a task_head 5010) (authorized_head (authorize auth_default ann) ko_a Action.Write kernel_b).1).1; [done|].
  vm_compute. reflexivity.
Qed.
Definition seen : Evidence := mkEvidence (txt "log") None None EvidenceMethod.TestObservation (f32_of_int 1).
Definition others : list TaskOp :=
  [TClaim auth_default 20 20 (mkClaimRequest bob_ctx ko_a 60); TRelease auth_default 21 21 (mkReleaseRequest bob_ctx ko_a);
   THandoff auth_default (mkKOID (repeat x0d 16)) 22 22 23 (mkHandoffRequest bob_ctx ko_a (txt "eve") [seen] None);
   TRemember auth_default ko_a 24 (ask bob_ctx (Some ko_a) [x56] None 3 [] None); TVerify auth_default 25 25 26 (mkVerificationRequest bob_ctx ko_a [seen] None None);
   TClaim auth_default 27 27 (mkClaimRequest bob_ctx ko_b 60)].
Abbreviation run_others := (run_tasks toy_hmac toy_signer toy_key cfg kernel_c others).
Example others_run : map (fun x => match x with KOk _ => None | KErr e => Some e | KPanic => None end) run_others.2 =
  [Some (ClaimConflict ko_a (txt "ann") 5010); Some (ClaimConflict ko_a (txt "ann") 5010); Some (ClaimConflict ko_a (txt "ann") 5010); None; None; None].
Proof. vm_compute. reflexivity. Qed.
Ltac fits_task :=
  lazymatch goal with
  | |- task_fits _ _ _ _ _ (TVerify _ _ _ _ _) =>
      split; [reflexivity|]; fits_then; split; [fits_op|]; let Hc := fresh in intros ? Hc; vm_compute in Hc; injection Hc as <-; do 3 fits_then; fits_write
  | |- task_fits _ _ _ _ _ (TRemember _ _ _ _) => fits_write
  | |- task_fits _ _ _ _ _ (TClaim _ _ _ _) => split; [reflexivity|]; fits_then; let Hu := fresh in intros ? Hu; vm_compute in Hu; injection Hu as <-; fits_write
  | |- task_fits _ _ _ _ _ (TRelease _ _ _ _) => split; [reflexivity|]; fits_then; fits_write
  | |- task_fits _ _ _ _ _ (THandoff _ _ _ _ _ _) => split; [reflexivity|]; fits_then; split; [fits_write|]; fits_then; fits_write
  end.
Lemma others_fit : tasks_fit toy_hmac toy_signer toy_key cfg kernel_c others.
Proof.
  unfold others. cbn [tasks_fit].
  repeat (split; [fits_task|]). exact I.
Qed.
Lemma lease_held_witness : exists head', (head_object ko_a (k_repo run_others.1)).2 = KOk (Some head') /\ claim_of (ko_extensions head') = (Some (txt "ann"), 5010).
Proof.
  destruct kernel_c_ok as (s & evs & Hok). destruct ((head_object ko_a (k_repo kernel_c)).2) as [[head|]|e|] eqn:Eh; [|vm_compute in Eh; discriminate..].
  pose proof (lease_held toy_hmac toy_signer toy_key cfg ko_a (txt "ann") 5010 kernel_c s evs others head Hok eq_refl ltac:(lia) Eh) as W.
  destruct run_others as [k' xs]. apply W; [vm_compute in Eh; injection Eh as <-; vm_compute; reflexivity | | exact others_fit].
  repeat constructor; cbn [by_another]; intros Ht; try (vm_compute in Ht; discriminate); try (split; [|lia]); vm_compute; discriminate.
Defined.

(* ------------------------------------------------------------------ *)
(** * Verification and the sweep *)

Definition verify_a : VerificationRequest := mkVerificationRequest ctx ko_a [seen; seen] (Some (f32_of_int 1)) None.
Abbreviation verify_toy c := (verify_knowledge toy_hmac toy_signer toy_key c auth_default).
Lemma verify_exact_witness : exists k' r ko conf, verify_toy cfg 10 10 11 verify_a kernel_b = (k', KOk (r, auth_default)) /\ (head_object ko_a (k_repo k')).2 = KOk (Some ko) /\
  status_of ko = EpistemicStatus.Verified /\ btree_get (ko_extensions ko) EXT_CONFIDENCE = Some (confidence_to_value conf) /\ cc_confirmations conf = 1.
Proof.
  destruct kernel_b_ok as (s & evs & Hok).
  assert (verify_fits toy_hmac toy_signer toy_key kernel_b auth_default 10 10 11 verify_a) as Hf.
  { split; [reflexivity|]; fits_then; split; [fits_op|]. intros ? Hc. vm_compute in Hc. injection Hc as <-. do 3 fits_then. fits_write. }
  pose proof (verify_exact toy_hmac toy_signer toy_key cfg kernel_b s evs auth_default 10 10 11 verify_a Hok Hf) as W.
  destruct (verify_toy cfg 10 10 11 verify_a kernel_b) as [k' [[r auth']|e|]] eqn:Ev; [|apply pair_parts in Ev as [_ Ev]; vm_compute in Ev; discriminate Ev..].
  destruct W as (_ & -> & head & ko & _ & W2 & _ & _ & W). destruct (vd_confidence _ _ _ _ _ W) as (conf & _ & W3 & W4 & _). exists k', r, ko, conf. split; [done|]. split; [exact W2|]. split; [apply W|]. split; [exact W3|].
  rewrite <-W4. apply pair_parts in Ev as [_ Ev]. vm_compute in Ev. injection Ev as <-. reflexivity.
Defined.

(** Invalidating what the first object supports withdraws the two that follow from it. *)
Definition premise : bytes := txt "premise".
Abbreviation sweep_toy := (invalidate_dependents toy_hmac toy_signer toy_key cfg 3 auth_default ctx 10 (fun n => 10 + Z.of_nat n) [(DERIVED_FROM, ko_b)] premise).
Lemma sweep_exact_witness : exists k' out ko, sweep_toy kernel_b = (k', KOk (Some (out, auth_default))) /\ sw_stamped out = [ko_b; ko_c] /\ sw_completed out = true /\
  (head_object ko_c (k_repo k')).2 = KOk (Some ko) /\ invalidation (ko_extensions ko) = Some (mkInvalidation 10 (txt "ann") premise).
Proof.
  destruct kernel_b_ok as (s & evs & Hok). destruct (eng_scan (rp_engine (k_repo kernel_b)) P_REL_OUT) as [found|e|] eqn:Ef; [|vm_compute in Ef; discriminate Ef..].
  pose proof (sweep_exact toy_hmac toy_signer toy_key cfg kernel_b s evs found 3 auth_default ctx 10 (fun n => 10 + Z.of_nat n) [(DERIVED_FROM, ko_b)] premise Hok) as W.
  destruct (sweep_toy kernel_b) as [k' [[[out auth']|]|e|]] eqn:Es; [|apply pair_parts in Es as [_ Es]; vm_compute in Es; discriminate Es..].
  destruct W as (-> & _ & _ & _ & W & _).
  - split; [exact I|]. split; [exact Ef|]. vm_compute in Ef. injection Ef as <-. repeat constructor.
  - intros x _. exact I.
  - lia.
  - cbn [map snd]. intros x ->%list_elem_of_singleton. reflexivity.
  - vm_compute in Ef. injection Ef as <-. cbn. lia.
  - fits_then. intros l [= <-]. split; [split; [reflexivity|]; fits_then; intros ext He; vm_compute in He; injection He as <-; fits_write|].
    split; [split; [reflexivity|]; fits_then; intros ext He; vm_compute in He; injection He as <-; fits_write|]. exact I.
  - assert (sw_stamped out = [ko_b; ko_c] /\ sw_completed out = true) as [E1 E2] by (apply pair_parts in Es as [_ Es]; vm_compute in Es; injection Es as <-; split; reflexivity).
    destruct (W ko_c eq_refl ltac:(rewrite E1; apply elem_of_cons; right; apply list_elem_of_singleton; reflexivity)) as (head & ko & _ & W2 & W3). exists k', out, ko. split; [done|]. split; [done|]. split; [done|]. split; [exact W2|]. apply (wd_invalid _ _ _ _ _ W3).
Defined.

(* ------------------------------------------------------------------ *)
(** * Departures *)

Definition head_view {A} (f : KnowledgeObject -> A) (x : KOID) (k : Kernel MemoryEngine) : option A :=
  match (head_object x (k_repo k)).2 with KOk (Some ko) => Some (f ko) | _ => None end.
(** A lease that ends past the signed 64-bit range is granted and recorded as none: the task is
    free at once, and another claims it. *)
Lemma long_lease_is_none :
  let '(k1, x) := claim_toy 10 10 (mkClaimRequest ctx ko_a 9223372036854776) kernel_b in
  (cr_claim_until ∘ fst <$> (match x with KOk r => Some r | _ => None end), head_view (claim_of ∘ ko_extensions) ko_a k1,
   head_view (claim_of ∘ ko_extensions) ko_a (claim_toy 11 11 (mkClaimRequest bob_ctx ko_a 1) k1).1) =
  (Some 9223372036854776010, Some (Some (txt "ann"), 0), Some (Some (txt "bob"), 1011)).
Proof. vm_compute. reflexivity. Qed.
(** The holder releases a claim that has expired, which the comment says is refused. *)
Lemma expired_release_accepted :
  head_view (claim_of ∘ ko_extensions) ko_a (release_task toy_hmac toy_signer toy_key cfg auth_default 9999 20 (mkReleaseRequest ctx ko_a) kernel_c).1 = Some (None, 0).
Proof. vm_compute. reflexivity. Qed.
(** A verification whose last write is refused (here by a schema that came after the object)
    has already changed the status: verified, with no evidence and no confidence. *)
Definition strict_config : Config := mkConfig (register ∅ (counted [x56])) registry_empty ∅ false false false.
Lemma refused_verification_flips_status :
  let '(k1, x) := verify_toy strict_config 10 10 11 verify_a kernel_b in
  (match x with KErr _ => true | _ => false end, head_view status_of ko_a kernel_b, head_view (fun ko => (status_of ko, btree_get (ko_extensions ko) EXT_EVIDENCE)) ko_a k1) =
  (true, Some EpistemicStatus.Asserted, Some (EpistemicStatus.Verified, None)).
Proof. vm_compute. reflexivity. Qed.
(** An ordinary update of a withdrawn object drops the withdrawal. *)
Lemma update_drops_invalidation :
  let k1 := (sweep_toy kernel_b).1 in
  (head_view (fun ko => bool_decide (is_Some (invalidation (ko_extensions ko)))) ko_c k1,
   head_view (fun ko => bool_decide (is_Some (invalidation (ko_extensions ko)))) ko_c (do_remember cfg ko_c 20 (ask ctx (Some ko_c) [x56] None 1 [] None) k1).1) = (Some true, Some false).
Proof. vm_compute. reflexivity. Qed.
